(* ===== verification/_CoqProject ===== *)
-Q . S2P
Prelude.v
Calendar.v
Json.v
Cron.v
Temporal.v
Shapes.v
Permissions.v
Endpoints.v
Token.v
TokenCache.v
Jwks.v
Credentials.v
Headers.v
Authorize.v
Service.v
Authority.v
Login.v
Interleave.v
Sessions.v
SignIn.v
Mint.v
Handlers.v
Locks.v
Runs.v
Health.v
Steps.v
Diff.v
Jobs.v
Digest.v
SchemaDiff.v
Rules.v
Probe.v
Approval.v
JobLeases.v
Scheduler.v
JobRunner.v
Policy.v
Store.v
Writes.v
Inserts.v
AppCapability.v
Project.v
Faults.v
Params.v
SignedTokens.v
Clients.v
Signatures.v
FrameworkTables.v
Webhooks.v
Requests.v
Declarations.v
Transactions.v
Calls.v
Access.v
Multipart.v
FormReader.v
Dispatch.v
DispatchOrder.v
DispatchBrackets.v
