(* ===== verification/Prelude.v ===== *)
(** * Fabrika platform: a verification development

    Fabrika deploys applications and stands in front of them. A proxy authorizes every request from the tables an
    application's contract declares; IAM keeps people, roles, grants and sessions and issues the tokens the proxy checks;
    the control plane runs deploys under leases and approves what a new contract may reach; providers run the steps of a
    deploy; applications run jobs. The packages are under [src/packages/]; the paths below are inside that directory.

    ** The parts and their files

    A file models one part and requires the parts it calls.

    - [Prelude]: strings as 8-bit units ([Js], JavaScript's string methods, the order of code units), sorting, the error
      monad's notation, and the lemmas on lists, options and strings every file uses.
    - [Permissions]: entries, wildcards, scoped values and endpoint requirements ([auth-core/src/types.ts],
      [permissions.ts], [requirement.ts]).
    - [Endpoints]: canonical paths, patterns, the analysis of a table and the selection of a row ([auth-core/src/endpoints.ts],
      [canonical-path.ts], [path-segment.ts]).
    - [Token]: access-token claims, built and parsed, audiences and callers ([auth-core/src/token.ts] and its helpers).
    - [TokenCache], [Jwks], [Credentials]: the proxy's token cache ([proxy-core/src/cache.ts]), the verifier over a cached
      key set ([jwks/src/verifier.ts]), cookies, bearers and the sign-in attempt ([proxy-core/src/credentials.ts],
      [handoff.ts]).
    - [Headers]: the content security policy and every header rule of an answer ([proxy-core/src/headers.ts]).
    - [Authorize]: the decision on one request ([proxy-core/src/authorize.ts]); it uses all of the above.
    - [Service]: the forwarded request, the chosen application and the answer of each decision
      ([proxy-core/src/service.ts], [oauth.ts], [oauth-resource.ts]).
    - [Authority], [Login]: what a principal holds, until when, and what it may delegate ([iam/src/resolve.ts], [roles.ts],
      [contract-rules.ts], [delegation.ts]); which principal a login is ([iam/src/repositories/principals.ts]).
    - [Interleave]: programs of atomic steps that run side by side, one step for each [await], and the rely and guarantee
      logic ([among]) that tells what a program knows after a step whatever the others do in between.
    - [Sessions], [SignIn], [Mint], [Handlers]: IAM's sessions. [Sessions] is the tables of logins, hand-off codes,
      terminals, identifications and keys with their statements, and the discipline every statement keeps
      ([iam/src/repositories/]); [SignIn] the handlers that sign a person in to applications, at terminals too, and out
      ([iam/src/handoff.ts], [identification.ts], [auth/], [admin/]); [Mint] the tokens a session or a key gets and the keys
      a caller may issue ([tokens.ts], [issue.ts], [auth.ts]); [Handlers] all of them at once, in any interleaving.
    - [Locks], [Runs]: leases ([platform/src/deploy-locks-sql.ts], [control/src/lease.ts]) and deploy runs written under
      them ([control/src/db/runs.ts], [coordinate-lock.ts]).
    - [Steps], [Health], [Jobs]: a provider's steps ([provider-contract/src/steps.ts]), health checks
      ([operations/src/health.ts]), the postgres job queue ([platform-node/src/job-queue-postgres.ts]).
    - [Json], [Shapes], [Rules], [Digest]: canonical JSON, the schemas of a contract, the rules of an endpoint row and
      their digest ([auth-core/src/contract-canonical.ts], [contract.ts], [endpoint-digest.ts], [sha256.ts]).
    - [SchemaDiff], [Probe], [Approval]: whether a changed contract widens access ([control/src/approval/diff.ts]): the
      schemas, the probe paths, and the endpoint tables.
    - [Calendar], [Temporal], [Cron]: ECMAScript's calendar, the text of days and timestamps ([db/src/temporal.ts]) and job
      schedules ([app/src/jobs/schedule.ts]).
    - [Policy], [Store], [Writes], [Inserts]: an application's data layer. [Policy] links the table policies into models with
      their containment ([db/src/policy.ts]); [Store] holds what a capability matches of a table, as predicates evaluated on
      rows ([db/src/store.ts], [links.ts], [nodes.ts]); [Writes] the values a write takes, the statements and the handles;
      [Inserts] the theorems on inserts and moves.
    - [JobLeases], [Scheduler], [JobRunner]: an application's jobs. [JobLeases] is the leases, kicks and wakes that decide which
      run acts and when the next one starts ([db/src/job-leases.ts], [job-wakes.ts]); [Scheduler] the next fire of a schedule
      and what the alarm, the timer and the startup repair do with due work; [JobRunner] one run, step by step, with its
      attempts, retries, finish and follow-ups ([app/src/jobs/runner.ts]).
    - [AppCapability], [Project], [Faults], [Params], [SignedTokens], [Clients], [Signatures], [Multipart], [FormReader],
      [Webhooks], [Requests], [Declarations]: the parts of an application's runtime under [app/src/implement/], one file for
      [capability.ts], [project.ts], [failures.ts] with [app/src/errors.ts], [params.ts], [tokens.ts], [client-address.ts] with
      [principal.ts] and [public.ts], [verifiers.ts], [multipart.ts] (two files), [webhook.ts], the pure steps of [dispatch.ts],
      and the declared reach of [invocation.ts].
    - [FrameworkTables], [Transactions]: what the framework keeps in an application's database ([db/src/framework-tables.ts],
      [admissions.ts]), and the one transaction of an invocation ([db/src/database.ts]).
    - [Calls], [Access], [Dispatch], [DispatchOrder], [DispatchBrackets]: one request of an application ([dispatch.ts]). [Calls] is
      what the dispatcher asks of everything else, the log of it, and the logic of what must be in the log before an event;
      [Access] the capabilities an access form makes of a caller's grants; [Dispatch] the whole pipeline; [DispatchOrder] what
      comes before a handler, a claim, a commit and a kick; [DispatchBrackets] that what a request opens it closes.
    - [Diff]: the line diff of canvases ([canvas-kernel/src/client/diffLines.ts]).

    ** How the code is rendered

    A function is a function of the same name; a thrown error is the left of a sum or an [option]; an [await] that can
    change the world is state passing (the [World] of [Authorize], the tables of [Runs], [Locks], [Jobs]). A SQL statement
    is a function on the rows of its table, one atomic step, its [where] clause a boolean test. Interleavings are step
    relations or lists of operations ([Locks.step], [Runs.perform]). A transaction that others run beside is as many steps as
    it has statements that matter: a fenced one begins, works, checks its lease again and commits, and between two of them
    the row it locked is what holds others off ([JobLeases.step]). A statement's [now()] need not be the moment it takes
    effect, so admission's statements carry their clocks in any order ([FrameworkTables.in_order]). What is not under [src/] (jose, [URL], [fetch], a
    clock, randomness, the text of a double) is a class or a section variable, and what the code relies on is a law of
    that class; every theorem with such a law has a witness at a concrete instance. Strings are lists of 8-bit code
    units: the code compares and slices units and interprets only ASCII, so a wider unit behaves as any other.

    IAM's handlers are programs of [Interleave]: what one [await] reads or writes is one step on the state [Iam], and any
    number of other steps may fall between two of them. A random secret is drawn in the step that stores its hash, where
    [unseen] says it was never stored; [used] remembers every id and hash that was. What a principal may do is resolved in
    one step on the [Directory], though the code reads it in several statements. A database that fails is a step's
    [e_fails], caught where the code catches it ([attempt]).

    An application's request is a program over a [World] that answers every call from all that was asked before, or throws:
    the verifier of tokens, the tables, the body's stream, the handler, the database's session. No theorem on it has a
    hypothesis on that world. The handler is one call: what it does through [ctx] is in the components it reaches ([Writes],
    [Store], [Webhooks], [SignedTokens], [Transactions]), and [HandlerArgs] is what it is handed.

    ** What the theorems show

    - A request: an allow carries only what the checks establish ([Authorize.authorize_sound]), nothing is allowed when
      keys cannot be fetched, a session goes only to the browser that started the sign-in, and the service answers every
      other decision with a refusal under a policy ([Service.verifyService_sound]).
    - Tables and tokens: the most specific row answers, parameters read back, tokens of one audience never pass for
      another, the caches stay within their bounds.
    - Authority: a principal holds exactly what its grants give it and nothing an external may not have, a delegated
      credential never outlives or exceeds its issuer, a login is bound to the verified subject.
    - Sessions: once a login ends, no session of it is active again and none mints a token, in any interleaving of IAM's
      handlers ([Handlers.ended_login_is_over]); a hand-off code is redeemed once, with its verifier, for what it stands
      for ([SignIn.exchange_once], [SignIn.exchange_redeems]); a token carries what its person, or what stands behind its
      key, holds, no more and no longer ([Mint.mint_attenuates], [Mint.key_attenuates]); an issued key only what its issuer
      may give ([Mint.issued_key_is_delegated]).
    - Runs: at most one holder acts under a lease and at most one run of an environment runs, a settled run never changes,
      an older run does not overwrite a newer one.
    - Approval: a change without a widening line admits no request and no input value the approved contract refused
      ([Approval.approval_sound], [SchemaDiff.schemaChanges_sound]); a digest names exactly one set of rules.
    - Data: a select answers exactly the rows its capability authorizes ([Writes.select_exact]), a SQL fragment's scope is the
      same set ([Store.scopeTerms_exact]), an update, an insert, a conflict and a move write nothing outside it
      ([Writes.update_confined], [Inserts.insert_placed], [Inserts.conflict_contained], [Inserts.move_contained]), and policies
      that link can be enforced so ([Policy.linkTables_sound]).
    - Jobs: no write commits under a lease that was handed on ([JobLeases.no_stale_commit]); a wake outlives every run that
      started before it, and the alarm is never late ([JobLeases.wake_outlives_finish], [JobLeases.alarm_never_late]), so due
      work runs, crashes included, and work that finds its job running is left to that run
      ([Scheduler.pending_work_runs]); a run follows its protocol in any environment, its kicks written as wakes before its
      finish, and ends, at the latest once it is told to stop ([JobRunner.run_follows_protocol], [JobRunner.runJob_ends]).
    - An application's request: no handler runs before everything its endpoint declares was checked, and what it is handed grants
      what the caller's permissions give ([DispatchOrder.handlers_admitted]); a delivery is handled only under its binding's
      signature and reach ([DispatchOrder.deliveries_authentic]); a commit follows the answer, and a kick the commit and the
      enclosure's end ([DispatchOrder.commits_answered]); what a request takes it gives back ([DispatchBrackets.request_closes]). The parts keep
      their own promises: a capability resolves to what was minted, while its request lasts ([AppCapability.resolve_exact]); a
      delivery verifies exactly when its secret's holder signed it ([Signatures.verifyDelivery_exact]) and completes once, a
      claim that was taken over never ([FrameworkTables.delivery_completes_once]); a binding changes only under a capability of
      its scope ([Webhooks.bindings_scoped]); a bucket's limit holds, but for what a later minute's prune forgets
      ([FrameworkTables.admission_bounded]), and is counted once for each subscriber, however its address is spelled
      ([Clients.clientKey_subscriber]); a signed token verifies for its purpose and days ([SignedTokens.verify_exact],
      [SignedTokens.sign_verify]); a form is read back whatever its chunks
      ([FormReader.form_reads_back]); a site reaches what was approved ([Declarations.approved_reach]); a transaction keeps all or
      nothing, and only what was committed ([Transactions.transaction_atomic]); a failure's answer tells nothing ([Faults.errorResponse_fixed]).
    - The rest: a schedule's due minutes are the latest ones; a pass of the job queue loses no job, the health state is a function of the attempts, SHA-256 is FIPS
      180-4, the line diff keeps a longest common subsequence.

    ** Bounds and fuel

    A loop that is not structural carries fuel and a lemma that the fuel given is enough: [Probe.extend] has one more
    than the longest pattern, [Probe.fresh_from] the longest literal, [Diff.walk] the sum of both lengths, [Policy.resolve] the number of tables and [Policy.above] the number of dimensions
    ([Policy.linkTables_sound] says neither runs out), [JobRunner.runJob] one run for each step until the kicks stop
    ([JobRunner.runJob_ends]), [Dispatch.file_parts] one turn for each file its fields take and one more
    ([DispatchBrackets.form_files_bounded]), [FormReader.loop] one for each chunk and one more, [FormReader.drained] one for each
    byte and one more ([FormReader.form_reads_back]). Other bounds are the code's own: the days [Cron.search] looks back and [Scheduler.fire_search]
    ahead, the retries of [JobRunner.retry_loop], the two attempts of [Writes.insert_attempts]. Machine integers keep their width where the code depends on it ([Digest]); other numbers are safe integers, as the code's
    schemas require, or the exact value of a double ([Shapes.finite]).

    ** Not modelled

    The words of approval lines, markup, logging and telemetry export; the browser applications and the command line;
    provider and platform adapters, which are calls to cloud interfaces; the sign-in methods of IAM (OIDC, passwords,
    invitations), which enter [SignIn] as the reply that starts them and the session that ends them; share links' issuing,
    membership, OAuth and devices; the control plane beside its runs and approvals; the builder of contracts
    ([app/src/contract/build.ts]), whose result is modelled where it is read; of the dispatcher, the response headers [fetch]
    adds, the handles of [ctx] that grant nothing ([ctx.signal], [ctx.url], [ctx.requestId]) and the encoding of an attachment;
    of [diff.ts], the roles, files, tables, jobs and declared reach; the parse of table policies. The static checker reads
    syntax trees through the TypeScript compiler, which is not part of the repository. *)

From Stdlib Require Import ZArith Lia String Ascii Sorted.
From stdpp Require Import base tactics strings gmap pretty list.

#[global] Open Scope string_scope.
#[global] Open Scope list_scope.

#[global] Set Warnings "-register-all".

(** Appending to a literal string reduces. *)
#[global] Arguments String.append !_ _ : simpl nomatch.

(** ** JavaScript strings

    A JavaScript string is modelled by a [string] whose characters are UTF-16 code units below 256, so
    [String.length] is JavaScript's [length] and every operation below works unit by unit. *)
Module Js.

(** [s.startsWith(p)] *)
Definition startsWith (s p : string) : bool := String.prefix p s.

(** [s.endsWith(p)] *)
Fixpoint endsWith (s p : string) : bool :=
  (s =? p)%string || match s with
                     | EmptyString => false
                     | String _ s' => endsWith s' p
                     end.

(** [s.includes(p)] *)
Fixpoint includes (s p : string) : bool :=
  String.prefix p s || match s with
                       | EmptyString => false
                       | String _ s' => includes s' p
                       end.

(** [s.slice(n)] for a non-negative [n] *)
Fixpoint drop (n : nat) (s : string) : string :=
  match n, s with
  | O, _ => s
  | S n', EmptyString => EmptyString
  | S n', String _ s' => drop n' s'
  end.

(** [s.slice(0, n)] for a non-negative [n] *)
Fixpoint take (n : nat) (s : string) : string :=
  match n, s with
  | O, _ => EmptyString
  | S n', EmptyString => EmptyString
  | S n', String c s' => String c (take n' s')
  end.

(** [s.slice(0, -1)] *)
Definition dropLast (s : string) : string := take (String.length s - 1) s.

(** [s.split(sep)] for a one-unit separator *)
Fixpoint split (sep : ascii) (s : string) : list string :=
  match s with
  | EmptyString => [""]
  | String c s' =>
      if Ascii.eqb c sep then "" :: split sep s'
      else match split sep s' with
           | [] => [String c ""]
           | w :: ws => String c w :: ws
           end
  end.

(** [l.join(sep)] *)
Definition join (sep : string) (l : list string) : string := String.concat sep l.

(** [s.indexOf(c)] for a one-unit needle; [None] is [-1] *)
Fixpoint indexOf (c : ascii) (s : string) : option nat :=
  match s with
  | EmptyString => None
  | String d s' => if Ascii.eqb c d then Some 0 else S <$> indexOf c s'
  end.

(** [[...s].some(p)], [[...s].every(p)] *)
Fixpoint forall_units (p : ascii -> bool) (s : string) : bool :=
  match s with
  | EmptyString => true
  | String c s' => p c && forall_units p s'
  end.

Definition code (c : ascii) : nat := nat_of_ascii c.

Definition in_range (lo hi : nat) (c : ascii) : bool := (lo <=? code c)%nat && (code c <=? hi)%nat.

Definition is_digit (c : ascii) : bool := in_range 48 57 c.
Definition is_upper (c : ascii) : bool := in_range 65 90 c.
Definition is_lower (c : ascii) : bool := in_range 97 122 c.
Definition is_letter (c : ascii) : bool := is_upper c || is_lower c.
Definition is_hex (c : ascii) : bool := is_digit c || in_range 65 70 c || in_range 97 102 c.

(** The white space of [trim] and of the regular expression class [\s], below 256. *)
Definition is_space (c : ascii) : bool :=
  in_range 9 13 c || (code c =? 32)%nat || (code c =? 160)%nat.

(** [toLowerCase] below 256: ASCII letters and the Latin-1 capitals. *)
Definition lower_unit (c : ascii) : ascii :=
  if is_upper c || (in_range 192 222 c && negb (code c =? 215)%nat)
  then ascii_of_nat (code c + 32) else c.

Fixpoint toLowerCase (s : string) : string :=
  match s with
  | EmptyString => EmptyString
  | String c s' => String (lower_unit c) (toLowerCase s')
  end.

Fixpoint trimStart (s : string) : string :=
  match s with
  | String c s' => if is_space c then trimStart s' else s
  | EmptyString => EmptyString
  end.

Fixpoint trimEnd (s : string) : string :=
  match s with
  | EmptyString => EmptyString
  | String c s' =>
      match trimEnd s' with
      | EmptyString => if is_space c then EmptyString else String c EmptyString
      | t => String c t
      end
  end.

Definition trim (s : string) : string := trimEnd (trimStart s).

(** Array [includes] on strings. *)
Definition elem (x : string) (l : list string) : bool := existsb (String.eqb x) l.

End Js.

(** ** JSON values

    What [JSON.parse] returns. [None] stands for JavaScript's [undefined]; a finite number is a double,
    [m * 2 ^ e]. *)
Inductive jsnum :=
| NFinite (m e : Z)
| NNotFinite.

Inductive json :=
| JNull
| JBool (b : bool)
| JNum (n : jsnum)
| JStr (s : string)
| JArr (l : list json)
| JObj (fields : list (string * json)).

Fixpoint lookup_field {A} (k : string) (l : list (string * A)) : option A :=
  match l with
  | [] => None
  | (k', v) :: l' => if (k =? k')%string then Some v else lookup_field k l'
  end.

(** [Number.MAX_SAFE_INTEGER], [Number.isSafeInteger] of a whole number *)
Definition MAX_SAFE_INTEGER : Z := 2 ^ 53 - 1.

Definition isSafeInteger (z : Z) : bool := (Z.abs z <=? MAX_SAFE_INTEGER)%Z.

(** [x !== null], [x !== undefined] *)
Definition is_some {A} (o : option A) : bool := match o with Some _ => true | None => false end.

(** ** Effects

    [eff S X A] is effectful code over a state [S] that returns an [A] or throws an [X]. An [await] is a
    bind: one request's code runs its steps in order, and a throw keeps the state it reached. *)
Definition eff (S X A : Type) : Type := S -> (X + A) * S.

#[global] Instance eff_ret {S X} : MRet (eff S X) := fun A a s => (inr a, s).
#[global] Instance eff_bind {S X} : MBind (eff S X) := fun A B f m s =>
  match m s with
  | (inl x, s') => (inl x, s')
  | (inr a, s') => f a s'
  end.

Module Eff.
Section Ops.
Context {S X : Type}.

Definition throw {A} (x : X) : eff S X A := fun s => (inl x, s).
Definition get : eff S X S := fun s => (inr s, s).
Definition gets {A} (f : S -> A) : eff S X A := fun s => (inr (f s), s).
Definition modify (f : S -> S) : eff S X unit := fun s => (inr tt, f s).
Definition catch {A} (m : eff S X A) (h : X -> eff S X A) : eff S X A := fun s =>
  match m s with
  | (inl x, s') => h x s'
  | r => r
  end.

(** A transaction: what throws leaves nothing. *)
Definition transaction {A} (m : eff S X A) : eff S X A := fun s => match m s with (inl e, _) => (inl e, s) | done => done end.

(** The outcome of a computation that touches no state. *)
Definition lift {A} (m : X + A) : eff S X A := match m with inl x => throw x | inr a => mret a end.

(** [returns m P]: whatever the state, a value [m] returns satisfies [P]. *)
Definition returns {A} (m : eff S X A) (P : A -> Prop) : Prop :=
  forall s a s', m s = (inr a, s') -> P a.

(** [keeps I m]: [m] preserves the state invariant [I], also when it throws. *)
Definition keeps {A} (I : S -> Prop) (m : eff S X A) : Prop :=
  forall s, I s -> I (m s).2.

(** [triple I m P]: from a state in [I], [m] ends in [I], and a value it returns satisfies [P]. *)
Definition triple {A} (I : S -> Prop) (m : eff S X A) (P : A -> Prop) : Prop :=
  forall s, I s -> I (m s).2 /\ forall a, (m s).1 = inr a -> P a.

(** [hoare P m Q E]: from a state in [P], what [m] returns and its state satisfy [Q], and what it throws [E]. *)
Definition hoare {A} (P : S -> Prop) (m : eff S X A) (Q : A -> S -> Prop) (E : X -> S -> Prop) : Prop :=
  forall s, P s -> match m s with (inr a, s') => Q a s' | (inl x, s') => E x s' end.

End Ops.
End Eff.

(** ** Sorting

    [Array.prototype.sort] with a comparison that is a total preorder: stable, so the insertion sort computes it. *)
Section Sort.
Context {A : Type} (le : A -> A -> bool).

Fixpoint insert_by (x : A) (l : list A) : list A :=
  match l with
  | [] => [x]
  | y :: l' => if le x y then x :: l else y :: insert_by x l'
  end.

Definition sort_by (l : list A) : list A := foldr insert_by [] l.

End Sort.

(** Code-unit order, [a < b ? -1 : a > b ? 1 : 0]. *)
Definition code_unit_le (a b : string) : bool := negb (String.ltb b a).

(** ** Tactics *)

(** Case analysis on every [if], [match] and [let] scrutinee of the goal or a hypothesis. *)
Ltac split_match :=
  match goal with
  | |- context [match ?x with _ => _ end] =>
      lazymatch x with context [match _ with _ => _ end] => fail | _ => destruct x eqn:? end
  end.

Ltac split_match_in H :=
  match type of H with
  | context [match ?x with _ => _ end] =>
      lazymatch x with context [match _ with _ => _ end] => fail | _ => destruct x eqn:? end
  end.

(** Turn boolean tests in hypotheses into propositions. *)
Ltac to_prop :=
  repeat match goal with
  | H : (_ && _) = true |- _ => apply andb_prop in H as [? ?]
  | H : (_ || _) = false |- _ => apply orb_false_elim in H as [? ?]
  | H : negb _ = true |- _ => apply negb_true_iff in H
  | H : negb _ = false |- _ => apply negb_false_iff in H
  | H : (_ =? _)%string = true |- _ => apply String.eqb_eq in H
  | H : (_ =? _)%string = false |- _ => apply String.eqb_neq in H
  | H : (_ <? _)%Z = true |- _ => apply Z.ltb_lt in H
  | H : (_ <? _)%Z = false |- _ => apply Z.ltb_ge in H
  | H : (_ <=? _)%Z = true |- _ => apply Z.leb_le in H
  | H : (_ <=? _)%Z = false |- _ => apply Z.leb_gt in H
  | H : (_ =? _)%Z = true |- _ => apply Z.eqb_eq in H
  | H : (_ =? _)%Z = false |- _ => apply Z.eqb_neq in H
  | H : (_ <? _)%nat = true |- _ => apply Nat.ltb_lt in H
  | H : (_ <? _)%nat = false |- _ => apply Nat.ltb_ge in H
  | H : (_ <=? _)%nat = true |- _ => apply Nat.leb_le in H
  | H : (_ <=? _)%nat = false |- _ => apply Nat.leb_gt in H
  | H : (_ =? _)%nat = true |- _ => apply Nat.eqb_eq in H
  | H : (_ =? _)%nat = false |- _ => apply Nat.eqb_neq in H
  end.

(** ** Lemmas on strings *)

Create Rewrite HintDb js.

Lemma str_app_nil_r (s : string) : s +:+ "" = s.
Proof. induction s as [|c s IH]; [done|]. cbn. by rewrite IH. Qed.

Lemma str_app_assoc (a b c : string) : a +:+ (b +:+ c) = (a +:+ b) +:+ c.
Proof. induction a as [|x a IH]; [done|]. cbn. by rewrite IH. Qed.

Lemma str_length_app (a b : string) : String.length (a +:+ b) = String.length a + String.length b.
Proof. induction a as [|x a IH]; [done|]. cbn. by rewrite IH. Qed.

Lemma startsWith_spec s p : Js.startsWith s p = true <-> exists t, s = p +:+ t.
Proof.
  unfold Js.startsWith. revert s. induction p as [|c p IH]; intros s; cbn.
  - split; [intros _; by exists s|by destruct s].
  - destruct s as [|d s]; cbn; [split; [done|by intros [t ?]]|].
    destruct (ascii_dec c d) as [->|Hne].
    + rewrite IH. split; intros [t Ht]; exists t; congruence.
    + split; [done|]. intros [t Ht]. congruence.
Qed.

Lemma endsWith_spec s p : Js.endsWith s p = true <-> exists t, s = t +:+ p.
Proof.
  induction s as [|c s IH]; cbn -[String.eqb].
  - rewrite orb_false_r, String.eqb_eq. split; [intros <-; by exists ""|].
    intros [t Ht]. by destruct t, p.
  - rewrite orb_true_iff, String.eqb_eq, IH. split.
    + intros [<-|[t ->]]; [by exists ""|by exists (String c t)].
    + intros [[|d t] Ht]; [by left|]. right. exists t. by injection Ht.
Qed.

Lemma includes_spec s p : Js.includes s p = true <-> exists a b, s = a +:+ (p +:+ b).
Proof.
  induction s as [|c s IH]; cbn -[String.prefix].
  - rewrite orb_false_r. change (Js.startsWith "" p = true <-> exists a b, "" = a +:+ (p +:+ b)).
    rewrite startsWith_spec. split.
    + intros [t Ht]. by exists "", t.
    + intros ([|d a] & b & H); [by exists b|done].
  - rewrite orb_true_iff, IH. change (String.prefix p (String c s)) with (Js.startsWith (String c s) p).
    rewrite startsWith_spec. split.
    + intros [[t ->]|(a & b & ->)]; [by exists "", t|by exists (String c a), b].
    + intros ([|d a] & b & H); [left; by exists b|]. right. exists a, b. by injection H.
Qed.

Lemma split_not_nil sep s : Js.split sep s <> [].
Proof. destruct s; cbn; [done|]. repeat split_match; done. Qed.

(** [s.split(sep).join(sep)] is [s]. *)
Lemma join_split sep s : Js.join (String sep "") (Js.split sep s) = s.
Proof.
  unfold Js.join. induction s as [|c s IH]; [done|]. cbn.
  destruct (Js.split sep s) as [|w ws] eqn:E; [by apply split_not_nil in E|].
  destruct (Ascii.eqb_spec c sep) as [->|Hne].
  - change (String.concat (String sep "") ("" :: w :: ws))
      with ("" +:+ (String sep "" +:+ String.concat (String sep "") (w :: ws))).
    by rewrite IH.
  - destruct ws as [|w' ws]; cbn in *; by rewrite IH.
Qed.

Lemma forall_units_app p a b : Js.forall_units p (a +:+ b) = Js.forall_units p a && Js.forall_units p b.
Proof. induction a as [|c a IH]; [done|]. cbn. by rewrite IH, andb_assoc. Qed.

(** No piece of a split holds the separator. *)
Lemma split_no_sep sep s :
  Forall (fun w => Js.forall_units (fun c => negb (Ascii.eqb c sep)) w = true) (Js.split sep s).
Proof.
  induction s as [|c s IH]; cbn; [by repeat constructor|].
  destruct (Ascii.eqb_spec c sep) as [->|Hne]; [by constructor|].
  destruct (Js.split sep s) as [|w ws]; inversion IH; subst; constructor; cbn; auto.
  - by destruct (Ascii.eqb_spec c sep).
  - destruct (Ascii.eqb_spec c sep); auto.
Qed.

(** [join] then [split] gives the pieces back, when none holds the separator. *)
Lemma split_prefix sep w rest :
  Js.forall_units (fun c => negb (Ascii.eqb c sep)) w = true ->
  Js.split sep (w +:+ String sep rest) = w :: Js.split sep rest.
Proof.
  induction w as [|c w IH]; cbn; [by rewrite Ascii.eqb_refl|].
  destruct (Ascii.eqb c sep); [done|]. cbn. intros H. by rewrite (IH H).
Qed.

Lemma split_word sep w :
  Js.forall_units (fun c => negb (Ascii.eqb c sep)) w = true -> Js.split sep w = [w].
Proof.
  induction w as [|c w IH]; cbn; [done|]. destruct (Ascii.eqb c sep); [done|]. cbn. intros H. by rewrite (IH H).
Qed.

Lemma split_join sep l :
  l <> [] -> Forall (fun w => Js.forall_units (fun c => negb (Ascii.eqb c sep)) w = true) l ->
  Js.split sep (Js.join (String sep "") l) = l.
Proof.
  intros Hne Hl. induction Hl as [|w l Hw Hl IH]; [done|]. destruct l as [|w' l]; [by apply split_word|].
  change (Js.join _ _) with (w +:+ String sep (Js.join (String sep "") (w' :: l))).
  by rewrite split_prefix, IH.
Qed.

Lemma forall_units_impl (p q : ascii -> bool) s :
  (forall c, p c = true -> q c = true) -> Js.forall_units p s = true -> Js.forall_units q s = true.
Proof. intros H. induction s as [|c s IH]; cbn; [done|]. rewrite !andb_true_iff. naive_solver. Qed.

Lemma elem_spec x l : Js.elem x l = true <-> x ∈ l.
Proof.
  unfold Js.elem. rewrite existsb_exists. setoid_rewrite String.eqb_eq. rewrite list_elem_of_In. naive_solver.
Qed.

Lemma lookup_field_in {A} k (l : list (string * A)) v : lookup_field k l = Some v -> (k, v) ∈ l.
Proof.
  induction l as [|[k' v'] l IH]; cbn [lookup_field]; [done|]. destruct (String.eqb_spec k k') as [->|]; [intros [= ->]; by left|]. right. by apply IH.
Qed.

Lemma in_lookup_field {A} k (l : list (string * A)) v : NoDup (map fst l) -> (k, v) ∈ l -> lookup_field k l = Some v.
Proof.
  induction l as [|[k' v'] l IH]; cbn [lookup_field map fst]; [by intros _ ?%elem_of_nil|]. intros [Hk Hd]%NoDup_cons [[= -> ->]|Hin]%elem_of_cons; [by rewrite String.eqb_refl|].
  destruct (String.eqb_spec k k') as [->|]; [|by apply IH]. destruct Hk. apply list_elem_of_fmap. by exists (k', v).
Qed.

Lemma take_drop_str n s : Js.take n s +:+ Js.drop n s = s.
Proof. revert s. induction n as [|n IH]; intros [|c s]; cbn; auto. by rewrite IH. Qed.

Lemma str_take_app a b : Js.take (String.length a) (a +:+ b) = a.
Proof. induction a as [|c a IH]; cbn; [by destruct b|]. by rewrite IH. Qed.

Lemma dropLast_snoc a c : Js.dropLast (a +:+ String c "") = a.
Proof.
  unfold Js.dropLast. rewrite str_length_app. cbn [String.length].
  replace (String.length a + 1 - 1) with (String.length a) by lia. apply str_take_app.
Qed.

#[export] Hint Rewrite str_app_nil_r str_length_app str_take_app dropLast_snoc : js.

(** ** Lemmas on options *)

Lemma bind_value {A B} {m : option A} {a : A} {f : A -> option B} : m = Some a -> (m ≫= f) = f a.
Proof. by intros ->. Qed.

(** ** Lemmas on sorting *)

Lemma insert_by_map {A B} (f : A -> B) (le : A -> A -> bool) (le' : B -> B -> bool) x l :
  (forall a b, le' (f a) (f b) = le a b) -> insert_by le' (f x) (map f l) = map f (insert_by le x l).
Proof. intros Hf. induction l as [|y l IH]; [done|]. cbn. rewrite Hf. destruct (le x y); [done|]. cbn. by rewrite IH. Qed.

Lemma sort_by_map {A B} (f : A -> B) (le : A -> A -> bool) (le' : B -> B -> bool) l :
  (forall a b, le' (f a) (f b) = le a b) -> sort_by le' (map f l) = map f (sort_by le l).
Proof. intros Hf. induction l as [|x l IH]; [done|]. unfold sort_by in *. cbn. by rewrite IH, (insert_by_map f le le'). Qed.

Lemma insert_by_Permutation {A} (le : A -> A -> bool) x l : insert_by le x l ≡ₚ x :: l.
Proof. induction l as [|y l IH]; [done|]. cbn. destruct (le x y); [done|]. rewrite IH. constructor. Qed.

Lemma sort_by_Permutation {A} (le : A -> A -> bool) l : sort_by le l ≡ₚ l.
Proof. induction l as [|x l IH]; [done|]. unfold sort_by in *. cbn. by rewrite insert_by_Permutation, IH. Qed.

Section Sorted.
Context {A : Type} (le : A -> A -> bool).
Hypothesis le_total : forall a b, le a b = true \/ le b a = true.
Hypothesis le_trans : forall a b c, le a b = true -> le b c = true -> le a c = true.

(** The result is sorted, so two permutations sort alike wherever the order separates their elements. *)
Lemma insert_by_sorted x l : StronglySorted (fun a b => le a b = true) l -> StronglySorted (fun a b => le a b = true) (insert_by le x l).
Proof.
  induction 1 as [|y l Hl IH Hy]; [by repeat constructor|]. cbn. destruct (le x y) eqn:E.
  - constructor; [by constructor|]. constructor; [done|]. eapply Forall_impl; [exact Hy|]. intros z. by apply le_trans.
  - constructor; [exact IH|]. rewrite insert_by_Permutation. constructor; [|done]. destruct (le_total x y); congruence.
Qed.

Lemma sort_by_sorted l : StronglySorted (fun a b => le a b = true) (sort_by le l).
Proof. induction l as [|x l IH]; [constructor|]. cbn. by apply insert_by_sorted. Qed.

Lemma sorted_permutation l l' :
  (forall a b, a ∈ l -> b ∈ l -> le a b = true -> le b a = true -> a = b) -> l ≡ₚ l' ->
  StronglySorted (fun a b => le a b = true) l -> StronglySorted (fun a b => le a b = true) l' -> l = l'.
Proof.
  intros Hanti Hp Hs. revert l' Hp. induction Hs as [|x l Hl IH Hx]; intros l' Hp Hs'; [by apply Permutation_nil in Hp|].
  destruct Hs' as [|y l' Hl' Hy]; [by symmetry in Hp; apply Permutation_nil in Hp|].
  assert (x = y) as <-.
  { assert (Hyx : y ∈ x :: l) by (rewrite Hp; by left). assert (Hxy : x ∈ y :: l') by (rewrite <-Hp; by left).
    apply elem_of_cons in Hyx as [->|Hyl]; [done|]. apply elem_of_cons in Hxy as [->|Hxl']; [done|].
    rewrite Forall_forall in Hx, Hy. apply Hanti; [by left|by right|by apply Hx|by apply Hy]. }
  f_equal. apply IH; [|by apply Permutation_cons_inv in Hp|exact Hl'].
  intros a b Ha Hb. apply Hanti; by right.
Qed.

Lemma sort_by_canonical l l' :
  (forall a b, a ∈ l -> b ∈ l -> le a b = true -> le b a = true -> a = b) -> l ≡ₚ l' -> sort_by le l = sort_by le l'.
Proof.
  intros Hanti Hp. apply sorted_permutation; [|by rewrite !sort_by_Permutation|apply sort_by_sorted|apply sort_by_sorted].
  intros a b Ha Hb. rewrite sort_by_Permutation in Ha, Hb. by apply Hanti.
Qed.

End Sorted.

Lemma ltb_compare a b : String.ltb a b = true <-> String.compare a b = Lt.
Proof. unfold String.ltb. by destruct (String.compare a b). Qed.

Lemma code_unit_le_total a b : code_unit_le a b = true \/ code_unit_le b a = true.
Proof.
  unfold code_unit_le, String.ltb. rewrite (String.compare_antisym b a). destruct (String.compare a b); auto.
Qed.

Lemma code_unit_le_antisym a b : code_unit_le a b = true -> code_unit_le b a = true -> a = b.
Proof.
  unfold code_unit_le, String.ltb. rewrite (String.compare_antisym b a).
  destruct (String.compare a b) eqn:E; cbn; try done. intros _ _. by apply String.compare_eq_iff.
Qed.

Lemma code_unit_le_cons c a d b :
  code_unit_le (String c a) (String d b)
  = match Ascii.compare c d with Lt => true | Eq => code_unit_le a b | Gt => false end.
Proof.
  unfold code_unit_le, String.ltb. rewrite (String.compare_antisym (String d b)), (String.compare_antisym b a). cbn.
  by destruct (Ascii.compare c d), (String.compare a b).
Qed.

Lemma code_unit_le_trans a b c : code_unit_le a b = true -> code_unit_le b c = true -> code_unit_le a c = true.
Proof.
  revert b c. induction a as [|x a IH]; intros [|y b] [|z c]; try done.
  rewrite !code_unit_le_cons. unfold Ascii.compare. intros Hab Hbc.
  destruct (N.compare_spec (N_of_ascii x) (N_of_ascii z)) as [E|L|L]; [|done|exfalso].
  - destruct (N.compare_spec (N_of_ascii x) (N_of_ascii y)) as [E1|L1|L1]; [|exfalso|done].
    + rewrite <-E1, E, N.compare_refl in Hbc. by apply (IH b).
    + destruct (N.compare_spec (N_of_ascii y) (N_of_ascii z)); [lia|lia|done].
  - destruct (N.compare_spec (N_of_ascii x) (N_of_ascii y)), (N.compare_spec (N_of_ascii y) (N_of_ascii z)); try done; lia.
Qed.

(** ** Lemmas on effects *)

Create HintDb eff.

Section EffLemmas.
Context {S X : Type}.
Implicit Types (I : S -> Prop).

Lemma eff_bind_inr {A B} (m : eff S X A) (f : A -> eff S X B) s b s' :
  (m ≫= f) s = (inr b, s') -> exists a s1, m s = (inr a, s1) /\ f a s1 = (inr b, s').
Proof. unfold mbind, eff_bind. destruct (m s) as [[x|a] s1]; [done|]. eauto. Qed.

Lemma eff_bind_run {A B} (m : eff S X A) (f : A -> eff S X B) s a s' : m s = (inr a, s') -> (m ≫= f) s = f a s'.
Proof. unfold mbind, eff_bind. by intros ->. Qed.

Lemma transaction_inr {A} (m : eff S X A) s a s' : Eff.transaction m s = (inr a, s') -> m s = (inr a, s').
Proof. unfold Eff.transaction. by destruct (m s) as [[e|a'] s1]. Qed.

Lemma transaction_inl {A} (m : eff S X A) s e s' : Eff.transaction m s = (inl e, s') -> s' = s /\ exists s1, m s = (inl e, s1).
Proof. unfold Eff.transaction. destruct (m s) as [[e'|a'] s1]; [|done]. intros [= <- <-]. split; [done|]. by exists s1. Qed.

Lemma lift_inr {A} (m : X + A) (s : S) a s' : Eff.lift m s = (inr a, s') -> m = inr a /\ s' = s.
Proof. destruct m; cbn; [done|]. by intros [= <- <-]. Qed.

Lemma triple_transaction {A} I (m : eff S X A) (P : A -> Prop) : Eff.triple I m P -> Eff.triple I (Eff.transaction m) P.
Proof. intros Hm s Hs. destruct (Hm s Hs) as [HI HP]. unfold Eff.transaction. by destruct (m s) as [[e|a] s1]; cbn in *. Qed.

Lemma triple_ret {A} I (a : A) (P : A -> Prop) : P a -> Eff.triple (X := X) I (mret a) P.
Proof. intros HP s Hs. cbn. split; [done|]. intros ? [= <-]. done. Qed.

Lemma triple_throw {A} I (x : X) (P : A -> Prop) : Eff.triple I (Eff.throw x) P.
Proof. intros s Hs. cbn. by split. Qed.

Lemma triple_bind {A B} I (m : eff S X A) (f : A -> eff S X B) (P : A -> Prop) (Q : B -> Prop) :
  Eff.triple I m P -> (forall a, P a -> Eff.triple I (f a) Q) -> Eff.triple I (m ≫= f) Q.
Proof.
  intros Hm Hf s Hs. destruct (Hm s Hs) as [HI HP]. unfold mbind, eff_bind.
  destruct (m s) as [[x|a] s']; cbn in *; [split; [done|done]|]. apply (Hf a); auto.
Qed.

Lemma triple_catch {A} I (m : eff S X A) (h : X -> eff S X A) (P : A -> Prop) :
  Eff.triple I m P -> (forall x, Eff.triple I (h x) P) -> Eff.triple I (Eff.catch m h) P.
Proof.
  intros Hm Hh s Hs. destruct (Hm s Hs) as [HI HP]. unfold Eff.catch.
  destruct (m s) as [[x|a] s']; cbn in *; [by apply Hh|]. by split.
Qed.

Lemma triple_gets {A} I (f : S -> A) (P : A -> Prop) :
  (forall s, I s -> P (f s)) -> Eff.triple (X := X) I (Eff.gets f) P.
Proof. intros H s Hs. cbn. split; [done|]. intros ? [= <-]. auto. Qed.

Lemma triple_modify I (f : S -> S) (P : unit -> Prop) :
  (forall s, I s -> I (f s)) -> P tt -> Eff.triple (X := X) I (Eff.modify f) P.
Proof. intros H HP s Hs. cbn. split; [auto|]. by intros [] _. Qed.

Lemma triple_weaken {A} I (m : eff S X A) (P Q : A -> Prop) :
  Eff.triple I m P -> (forall a, P a -> Q a) -> Eff.triple I m Q.
Proof. intros Hm H s Hs. destruct (Hm s Hs). split; [done|]. eauto. Qed.

Lemma triple_keeps {A} I (m : eff S X A) (P : A -> Prop) : Eff.triple I m P -> Eff.keeps I m.
Proof. intros Hm s Hs. by destruct (Hm s Hs). Qed.

Lemma triple_returns {A} I (m : eff S X A) (P Q : A -> Prop) :
  Eff.triple I m P -> Eff.returns m Q -> Eff.triple I m (fun a => P a /\ Q a).
Proof.
  intros Hm Hr s Hs. destruct (Hm s Hs) as [HI HP]. split; [done|]. intros a Ha. split; [auto|].
  eapply (Hr s a (m s).2). rewrite <-Ha. apply surjective_pairing.
Qed.

Lemma hoare_ret {A} (a : A) (Q : A -> S -> Prop) E : Eff.hoare (X := X) (Q a) (mret a) Q E.
Proof. by intros s. Qed.

Lemma hoare_bind {A B} P (m : eff S X A) (f : A -> eff S X B) R Q E :
  Eff.hoare P m R E -> (forall a, Eff.hoare (R a) (f a) Q E) -> Eff.hoare P (m ≫= f) Q E.
Proof. intros Hm Hf s Hs. specialize (Hm s Hs). unfold mbind, eff_bind. destruct (m s) as [[x|a] s1]; [done|]. by apply Hf. Qed.

Lemma hoare_modify (f : S -> S) (Q : unit -> S -> Prop) E : Eff.hoare (X := X) (fun s => Q tt (f s)) (Eff.modify f) Q E.
Proof. by intros s. Qed.

Lemma hoare_gets {A} (f : S -> A) (Q : A -> S -> Prop) E : Eff.hoare (X := X) (fun s => Q (f s) s) (Eff.gets f) Q E.
Proof. by intros s. Qed.

Lemma hoare_catch {A} P (m : eff S X A) (h : X -> eff S X A) Q R E :
  Eff.hoare P m Q R -> (forall x, Eff.hoare (R x) (h x) Q E) -> Eff.hoare P (Eff.catch m h) Q E.
Proof. intros Hm Hh s Hs. specialize (Hm s Hs). unfold Eff.catch. destruct (m s) as [[x|a] s1]; [by apply Hh|done]. Qed.

Lemma hoare_weaken {A} P P' (m : eff S X A) (Q Q' : A -> S -> Prop) (E E' : X -> S -> Prop) :
  Eff.hoare P' m Q' E' -> (forall s, P s -> P' s) -> (forall a s, Q' a s -> Q a s) -> (forall x s, E' x s -> E x s) -> Eff.hoare P m Q E.
Proof. intros Hm HP HQ HE s Hs. specialize (Hm s (HP s Hs)). destruct (m s) as [[x|a] s1]; auto. Qed.

Lemma keeps_ret {A} I (a : A) : Eff.keeps (S := S) (X := X) I (mret a).
Proof. by intros s Hs. Qed.

Lemma keeps_throw {A} I (x : X) : Eff.keeps (S := S) (A := A) I (Eff.throw x).
Proof. by intros s Hs. Qed.

Lemma keeps_lift {A} I (m : X + A) : Eff.keeps (S := S) I (Eff.lift m).
Proof. by intros s Hs; destruct m. Qed.

Lemma keeps_get I : Eff.keeps (S := S) (X := X) I Eff.get.
Proof. by intros s Hs. Qed.

Lemma keeps_gets {A} I (f : S -> A) : Eff.keeps (X := X) I (Eff.gets f).
Proof. by intros s Hs. Qed.

Lemma keeps_modify I (f : S -> S) : (forall s, I s -> I (f s)) -> Eff.keeps (X := X) I (Eff.modify f).
Proof. intros Hf s Hs. by apply Hf. Qed.

Lemma keeps_bind {A B} I (m : eff S X A) (f : A -> eff S X B) : Eff.keeps I m -> (forall a, Eff.keeps I (f a)) -> Eff.keeps I (m ≫= f).
Proof. intros Hm Hf s Hs. pose proof (Hm s Hs) as HI. unfold mbind, eff_bind. destruct (m s) as [[x|a] s1]; [done|]. by apply Hf. Qed.

Lemma keeps_transaction {A} I (m : eff S X A) : Eff.keeps I m -> Eff.keeps I (Eff.transaction m).
Proof. intros Hm s Hs. pose proof (Hm s Hs) as HI. unfold Eff.transaction. by destruct (m s) as [[x|a] s1]. Qed.

Lemma returns_ret {A} (a : A) (P : A -> Prop) : P a -> Eff.returns (S := S) (X := X) (mret a) P.
Proof. by intros HP s a' s' [= <- _]. Qed.

Lemma returns_throw {A} (x : X) (P : A -> Prop) : Eff.returns (S := S) (Eff.throw x) P.
Proof. by intros s a s' [=]. Qed.

Lemma returns_bind {A B} (m : eff S X A) (f : A -> eff S X B) (P : A -> Prop) (Q : B -> Prop) :
  Eff.returns m P -> (forall a, P a -> Eff.returns (f a) Q) -> Eff.returns (m ≫= f) Q.
Proof.
  intros Hm Hf s b s'. unfold mbind, eff_bind. destruct (m s) as [[x|a] s1] eqn:E; [done|]. intros H. eapply Hf; [|exact H]. eauto.
Qed.

Lemma returns_last {A B} (m : eff S X A) (f : A -> eff S X B) (Q : B -> Prop) :
  (forall a, Eff.returns (f a) Q) -> Eff.returns (m ≫= f) Q.
Proof. intros Hf. apply returns_bind with (P := fun _ => True); [done|]. intros a _. apply Hf. Qed.

Lemma returns_catch {A} (m : eff S X A) (h : X -> eff S X A) (P : A -> Prop) :
  Eff.returns m P -> (forall x, Eff.returns (h x) P) -> Eff.returns (Eff.catch m h) P.
Proof.
  intros Hm Hh s a s'. unfold Eff.catch. destruct (m s) as [[x|a0] s1] eqn:E; [apply Hh|]. intros [= <- <-]. eauto.
Qed.

End EffLemmas.

#[export] Hint Resolve triple_ret triple_throw returns_ret returns_throw keeps_ret keeps_throw keeps_lift keeps_get keeps_gets : eff.

(** An invariant through a computation, by the shape of its code; a step with an invariant of its own is in the hint
    database, and what a [modify] does is left to prove. *)
Ltac keeps_step :=
  match goal with
  | |- Eff.keeps _ (_ ≫= _) => apply keeps_bind; [|intros ?]
  | |- Eff.keeps _ (Eff.transaction _) => apply keeps_transaction
  | |- Eff.keeps _ (Eff.modify _) => apply keeps_modify; intros ? ?
  | |- Eff.keeps _ (match ?x with _ => _ end) => destruct x eqn:?
  end.

Ltac keeps_auto := repeat first [solve [eauto 2 with eff] | keeps_step].

(** A promise about what an operation returns, by the shape of its code: only the last step of a sequence matters, and a
    step with a promise of its own is in the hint database. *)
Ltac returns_auto :=
  repeat first
    [ solve [eauto 2 with eff]
    | apply returns_throw
    | apply returns_ret; solve [auto | done]
    | apply returns_last; intros ?
    | match goal with |- Eff.returns (match ?x with _ => _ end) _ => destruct x eqn:? end ].
