(* ===== verification/Calendar.v ===== *)
(** UTC dates as JavaScript computes them: ECMAScript's [Day], [YearFromTime], [MonthFromTime], [DateFromTime], [WeekDay] and
    [MakeDay], on days counted from 1970-01-01, and the text of an instant. The language's own code, not the repository's:
    [Cron] and [Temporal] use it. *)

From S2P Require Import Prelude.
From Stdlib Require Import ZArith Lia String Ascii.
From stdpp Require Import base tactics strings list.

Open Scope Z_scope.

(** Linear arithmetic with quotients and remainders by constants. *)
Ltac div_lia := Z.to_euclidean_division_equations; lia.

Definition MS_PER_DAY : Z := 86400000.

(** ** Instants *)

Definition day (t : Z) : Z := t / MS_PER_DAY.
Definition getUTCHours (t : Z) : Z := (t / 3600000) mod 24.
Definition getUTCMinutes (t : Z) : Z := (t / 60000) mod 60.
Definition getUTCSeconds (t : Z) : Z := (t / 1000) mod 60.
Definition getUTCMilliseconds (t : Z) : Z := t mod 1000.
(** Sunday is 0; 1970-01-01 was a Thursday. *)
Definition getUTCDay (t : Z) : Z := (day t + 4) mod 7.

(** ** Years and months *)

Definition leap_year (y : Z) : bool := (y mod 4 =? 0) && negb (y mod 100 =? 0) || (y mod 400 =? 0).
Definition leap (y : Z) : Z := if leap_year y then 1 else 0.

(** [DayFromYear] *)
Definition day_from_year (y : Z) : Z := 365 * (y - 1970) + (y - 1969) / 4 - (y - 1901) / 100 + (y - 1601) / 400.

(** [YearFromTime]: the average year gives a candidate that is one off at most. *)
Definition year_from_day (d : Z) : Z :=
  let y := 1970 + d * 400 / 146097 in
  if d <? day_from_year y then y - 1 else if day_from_year (y + 1) <=? d then y + 1 else y.

(** The days of a year before the month [m], from 1; [l] is 1 in a leap year. The thirteenth is the year's length. *)
Definition month_start (l m : Z) : Z :=
  if m <=? 1 then 0 else if m =? 2 then 31 else
  l + (if m =? 3 then 59 else if m =? 4 then 90 else if m =? 5 then 120 else if m =? 6 then 151 else if m =? 7 then 181
       else if m =? 8 then 212 else if m =? 9 then 243 else if m =? 10 then 273 else if m =? 11 then 304 else if m =? 12 then 334 else 365).

Definition month_length (l m : Z) : Z := month_start l (m + 1) - month_start l m.

(** The month, from 1, of the day [n] of a year, from 0. *)
Definition month_of (l n : Z) : Z :=
  if n <? month_start l 2 then 1 else if n <? month_start l 3 then 2 else if n <? month_start l 4 then 3
  else if n <? month_start l 5 then 4 else if n <? month_start l 6 then 5 else if n <? month_start l 7 then 6
  else if n <? month_start l 8 then 7 else if n <? month_start l 9 then 8 else if n <? month_start l 10 then 9
  else if n <? month_start l 11 then 10 else if n <? month_start l 12 then 11 else 12.

Definition month_from_day (d : Z) : Z := let y := year_from_day d in month_of (leap y) (d - day_from_year y).
Definition date_from_day (d : Z) : Z :=
  let y := year_from_day d in d - day_from_year y - month_start (leap y) (month_from_day d) + 1.

Definition getUTCFullYear (t : Z) : Z := year_from_day (day t).
(** From 0, as JavaScript counts. *)
Definition getUTCMonth (t : Z) : Z := month_from_day (day t) - 1.
Definition getUTCDate (t : Z) : Z := date_from_day (day t).

(** [MakeDay(y, m, d)]: the month from 0 and not bounded, the date not bounded. *)
Definition make_day (y m d : Z) : Z :=
  let y' := y + m / 12 in day_from_year y' + month_start (leap y') (m mod 12 + 1) + d - 1.

(** [Date.UTC(y, m, d)]: a year of two digits is one of the twentieth century. *)
Definition date_utc (y m d : Z) : Z := make_day (if (0 <=? y) && (y <=? 99) then 1900 + y else y) m d * MS_PER_DAY.

(** ** The calendar and the count of days *)

Lemma day_from_year_next y : day_from_year (y + 1) = day_from_year y + 365 + leap y.
Proof.
  unfold day_from_year, leap, leap_year. destruct (Z.eqb_spec (y mod 4) 0), (Z.eqb_spec (y mod 100) 0), (Z.eqb_spec (y mod 400) 0); cbn [andb orb negb]; div_lia.
Qed.

Lemma leap_range y : 0 <= leap y <= 1.
Proof. unfold leap. destruct (leap_year y); lia. Qed.

Lemma day_from_year_mono y y' : y <= y' -> day_from_year y <= day_from_year y'.
Proof. intros. unfold day_from_year. div_lia. Qed.

(** The year of a day is the one whose days hold it. *)
Lemma year_from_day_spec d : day_from_year (year_from_day d) <= d < day_from_year (year_from_day d + 1).
Proof.
  unfold year_from_day. cbv zeta. set (y := 1970 + d * 400 / 146097).
  assert (day_from_year (y - 1) <= d < day_from_year (y + 2)) by (subst y; unfold day_from_year; div_lia).
  destruct (Z.ltb_spec d (day_from_year y)); [replace (y - 1 + 1) with y by lia; lia|].
  destruct (Z.leb_spec (day_from_year (y + 1)) d); [replace (y + 1 + 1) with (y + 2) by lia; lia|lia].
Qed.

Lemma year_from_day_unique d y : day_from_year y <= d < day_from_year (y + 1) -> year_from_day d = y.
Proof.
  intros Hy. pose proof (year_from_day_spec d) as Hs. destruct (Z.lt_trichotomy (year_from_day d) y) as [N|[->|N]]; [exfalso|done|exfalso].
  - pose proof (day_from_year_mono (year_from_day d + 1) y). lia.
  - pose proof (day_from_year_mono (y + 1) (year_from_day d)). lia.
Qed.

Lemma month_starts l :
  month_start l 1 = 0 /\ month_start l 2 = 31 /\ month_start l 3 = l + 59 /\ month_start l 4 = l + 90 /\ month_start l 5 = l + 120
  /\ month_start l 6 = l + 151 /\ month_start l 7 = l + 181 /\ month_start l 8 = l + 212 /\ month_start l 9 = l + 243
  /\ month_start l 10 = l + 273 /\ month_start l 11 = l + 304 /\ month_start l 12 = l + 334 /\ month_start l 13 = l + 365.
Proof. by repeat split. Qed.

(** [month_start l (3 + 1)] as [month_start l 4]. *)
Ltac next_month :=
  repeat match goal with
  | |- context [month_start ?l (?m + 1)] => let k := eval vm_compute in (m + 1) in change (month_start l (m + 1)) with (month_start l k)
  | H : context [month_start ?l (?m + 1)] |- _ => let k := eval vm_compute in (m + 1) in change (month_start l (m + 1)) with (month_start l k) in H
  end.

Lemma month_of_spec l n : 0 <= l <= 1 -> 0 <= n < 365 + l ->
  1 <= month_of l n <= 12 /\ month_start l (month_of l n) <= n < month_start l (month_of l n + 1).
Proof.
  intros Hl Hn. pose proof (month_starts l). unfold month_of.
  repeat match goal with |- context [if ?a <? ?b then _ else _] => destruct (Z.ltb_spec a b); cbv iota; [next_month; lia|] end. next_month. lia.
Qed.

Lemma month_of_unique l n m : 0 <= l <= 1 -> 1 <= m <= 12 -> month_start l m <= n < month_start l (m + 1) -> month_of l n = m.
Proof.
  intros Hl Hm Hn. assert (H : m = 1 \/ m = 2 \/ m = 3 \/ m = 4 \/ m = 5 \/ m = 6 \/ m = 7 \/ m = 8 \/ m = 9 \/ m = 10 \/ m = 11 \/ m = 12) by lia.
  pose proof (month_starts l). unfold month_of. repeat destruct H as [->|H]; try subst m; next_month;
    repeat match goal with |- context [if ?a <? ?b then _ else _] => destruct (Z.ltb_spec a b); cbv iota; [try lia|] end; lia.
Qed.

Lemma civil_day d : let y := year_from_day d in
  1 <= month_from_day d <= 12 /\ 1 <= date_from_day d <= month_length (leap y) (month_from_day d)
  /\ d = day_from_year y + month_start (leap y) (month_from_day d) + date_from_day d - 1.
Proof.
  cbv zeta. pose proof (year_from_day_spec d) as Hy. rewrite day_from_year_next in Hy. pose proof (leap_range (year_from_day d)) as Hl.
  destruct (month_of_spec (leap (year_from_day d)) (d - day_from_year (year_from_day d))) as [Hm Hd]; [lia|lia|].
  unfold month_length, date_from_day, month_from_day. cbv zeta. lia.
Qed.

(** A date of the calendar reads back. *)
Lemma day_civil y m d : 1 <= m <= 12 -> 1 <= d <= month_length (leap y) m ->
  let n := day_from_year y + month_start (leap y) m + d - 1 in
  year_from_day n = y /\ month_from_day n = m /\ date_from_day n = d.
Proof.
  intros Hm Hd. cbv zeta. set (n := _ + d - 1). pose proof (leap_range y) as Hl. unfold month_length in Hd.
  assert (Hn : 0 <= n - day_from_year y < 365 + leap y).
  { assert (H : m = 1 \/ m = 2 \/ m = 3 \/ m = 4 \/ m = 5 \/ m = 6 \/ m = 7 \/ m = 8 \/ m = 9 \/ m = 10 \/ m = 11 \/ m = 12) by lia.
    pose proof (month_starts (leap y)). subst n. repeat destruct H as [->|H]; try subst m; next_month; lia. }
  assert (Ey : year_from_day n = y) by (apply year_from_day_unique; rewrite day_from_year_next; lia).
  assert (Em : month_from_day n = m).
  { unfold month_from_day. rewrite Ey. apply month_of_unique; [done|done|]. subst n. lia. }
  split; [done|]. split; [done|]. unfold date_from_day. rewrite Ey, Em. subst n. lia.
Qed.

(** [Date.UTC] of a day's own year, month and date is its midnight, from the year 100 on. *)
Lemma date_utc_civil t : 100 <= getUTCFullYear t -> date_utc (getUTCFullYear t) (getUTCMonth t) (getUTCDate t) = day t * MS_PER_DAY.
Proof.
  intros Hy. unfold date_utc. replace (getUTCFullYear t <=? 99) with false by (symmetry; apply Z.leb_gt; lia). rewrite andb_false_r.
  f_equal. unfold make_day, getUTCMonth, getUTCFullYear, getUTCDate in *. destruct (civil_day (day t)) as (Hm & _ & Hd).
  rewrite (Z.div_small (_ - 1)), (Z.mod_small (_ - 1)) by lia. rewrite Z.add_0_r. replace (month_from_day (day t) - 1 + 1) with (month_from_day (day t)) by lia. lia.
Qed.

(** ** The fields of a time within a day *)

Lemma day_time d ms : 0 <= ms < MS_PER_DAY -> day (d * MS_PER_DAY + ms) = d.
Proof. unfold day, MS_PER_DAY. intros. div_lia. Qed.

Lemma fields_time d h m s ms : 0 <= h < 24 -> 0 <= m < 60 -> 0 <= s < 60 -> 0 <= ms < 1000 ->
  let t := d * MS_PER_DAY + (h * 60 + m) * 60000 + s * 1000 + ms in
  day t = d /\ getUTCHours t = h /\ getUTCMinutes t = m /\ getUTCSeconds t = s /\ getUTCMilliseconds t = ms.
Proof.
  intros Hh Hm Hs Hms. cbv zeta. unfold day, getUTCHours, getUTCMinutes, getUTCSeconds, getUTCMilliseconds, MS_PER_DAY.
  assert (Et : d * 86400000 + (h * 60 + m) * 60000 + s * 1000 + ms = (((d * 24 + h) * 60 + m) * 60 + s) * 1000 + ms) by lia.
  rewrite Et. set (a := (d * 24 + h) * 60 + m). set (b := a * 60 + s).
  assert (E1 : (b * 1000 + ms) / 1000 = b) by (symmetry; apply (Z.div_unique _ _ _ ms); lia).
  assert (E2 : (b * 1000 + ms) / 60000 = a) by (replace 60000 with (1000 * 60) by lia; rewrite <-Z.div_div, E1 by lia; symmetry; apply (Z.div_unique _ _ _ s); unfold b; lia).
  assert (E3 : (b * 1000 + ms) / 3600000 = d * 24 + h) by (replace 3600000 with (60000 * 60) by lia; rewrite <-Z.div_div, E2 by lia; symmetry; apply (Z.div_unique _ _ _ m); unfold a; lia).
  assert (E4 : (b * 1000 + ms) / 86400000 = d) by (replace 86400000 with (3600000 * 24) by lia; rewrite <-Z.div_div, E3 by lia; symmetry; apply (Z.div_unique _ _ _ h); lia).
  rewrite E1, E2, E3, E4. split_and!; [done|..]; symmetry;
    [apply (Z.mod_unique _ _ d)|apply (Z.mod_unique _ _ (d * 24 + h))|apply (Z.mod_unique _ _ a)|apply (Z.mod_unique _ _ b)]; unfold b, a; lia.
Qed.

Lemma time_fields t : t = day t * MS_PER_DAY + (getUTCHours t * 60 + getUTCMinutes t) * 60000 + getUTCSeconds t * 1000 + getUTCMilliseconds t.
Proof.
  unfold day, getUTCHours, getUTCMinutes, getUTCSeconds, getUTCMilliseconds, MS_PER_DAY.
  pose proof (Z.div_mod t 1000). pose proof (Z.div_mod (t / 1000) 60) as H1. pose proof (Z.div_mod (t / 60000) 60) as H2. pose proof (Z.div_mod (t / 3600000) 24) as H3.
  rewrite Z.div_div in H1 by lia. rewrite Z.div_div in H2 by lia. rewrite Z.div_div in H3 by lia. change (1000 * 60) with 60000 in H1.
  change (60000 * 60) with 3600000 in H2. change (3600000 * 24) with 86400000 in H3. lia.
Qed.

Lemma field_ranges t : 0 <= getUTCHours t < 24 /\ 0 <= getUTCMinutes t < 60 /\ 0 <= getUTCSeconds t < 60 /\ 0 <= getUTCMilliseconds t < 1000.
Proof. unfold getUTCHours, getUTCMinutes, getUTCSeconds, getUTCMilliseconds. split_and!; by apply Z.mod_pos_bound. Qed.

Example leap_day : (getUTCFullYear 951782400000, getUTCMonth 951782400000, getUTCDate 951782400000, getUTCDay 951782400000) = (2000, 1, 29, 2).
Proof. reflexivity. Qed.

Example before_epoch : (getUTCFullYear (-1), getUTCMonth (-1), getUTCDate (-1), getUTCHours (-1), getUTCMilliseconds (-1)) = (1969, 11, 31, 23, 999).
Proof. reflexivity. Qed.
