(* ===== verification/Json.v ===== *)
(** JSON text: [JSON.stringify], and the canonical form every digest and comparison of a contract reads.

    [canonicalJson] and [sortKeys] of [auth-core/src/contract-canonical.ts]. The text of a finite number is the class
    [NumberText], with what ECMAScript promises of it as laws. *)

From S2P Require Import Prelude.
From Stdlib Require Import ZArith Lia String Ascii.
From stdpp Require Import base tactics strings pretty list.

(** ** Strings and objects of texts *)

(** [JSON.stringify] of a string, below 256. *)
Definition hex_unit (n : nat) : ascii := ascii_of_nat (if (n <? 10)%nat then n + 48 else n + 87).

Definition escape_unit (c : ascii) : string :=
  let n := Js.code c in
  if (n =? 34)%nat then String "\" (String c "") else if (n =? 92)%nat then "\\"
  else if (n =? 8)%nat then "\b" else if (n =? 9)%nat then "\t" else if (n =? 10)%nat then "\n"
  else if (n =? 12)%nat then "\f" else if (n =? 13)%nat then "\r"
  else if (n <? 32)%nat then "\u00" +:+ String (hex_unit (n / 16)) (String (hex_unit (n mod 16)) "")
  else String c "".

Fixpoint escape (s : string) : string :=
  match s with EmptyString => "" | String c s' => escape_unit c +:+ escape s' end.

Definition quote : string := String (ascii_of_nat 34) "".
Definition jsonString (s : string) : string := quote +:+ escape s +:+ quote.
Definition jsonStrings (l : list string) : string := "[" +:+ Js.join "," (map jsonString l) +:+ "]".
Definition jsonObject (fields : list (string * string)) : string :=
  "{" +:+ Js.join "," (map (fun field => jsonString field.1 +:+ ":" +:+ field.2) fields) +:+ "}".

(** ** Numbers *)

(** A finite number has one odd mantissa. *)
Fixpoint odd_mantissa (m : positive) (e : Z) : positive * Z :=
  match m with
  | xO m' => odd_mantissa m' (e + 1)
  | _ => (m, e)
  end.

Definition num_normal (n : jsnum) : option (Z * Z) :=
  match n with
  | NNotFinite => None
  | NFinite Z0 _ => Some (0, 0)%Z
  | NFinite (Zpos m) e => let (m', e') := odd_mantissa m e in Some (Zpos m', e')
  | NFinite (Zneg m) e => let (m', e') := odd_mantissa m e in Some (Zneg m', e')
  end.

(** The units of a number's text. *)
Definition is_number_unit (c : ascii) : bool := Js.is_digit c || existsb (Ascii.eqb c) ["-"; "+"; "."; "e"]%char.

(** [Number::toString] of the finite number with this normal form. *)
Class NumberText := { number_text : Z * Z -> string }.

Class NumberTextLaws `{NumberText} := {
  number_text_inj a b : number_text a = number_text b -> a = b;
  number_text_units a : Js.forall_units is_number_unit (number_text a) = true;
  number_text_start a : exists c rest, number_text a = String c rest /\ (Js.is_digit c || Ascii.eqb c "-") = true;
}.

(** ** Key order *)

(** The array index a key names: [0], or digits without a leading zero, up to 2^32 - 2. *)
Fixpoint digits_from (acc : N) (s : string) : N :=
  match s with EmptyString => acc | String c s' => digits_from (10 * acc + N.of_nat (Js.code c - 48)%nat)%N s' end.

Definition digits_value (s : string) : N := digits_from 0 s.

Definition array_index (key : string) : option N :=
  match key with
  | EmptyString => None
  | String c rest =>
      if Js.forall_units Js.is_digit key && (negb (Ascii.eqb c "0") || (rest =? "")%string)
         && (digits_value key <=? 4294967294)%N
      then Some (digits_value key) else None
  end.

Section Entries.
Context {A : Type}.

Definition entry_le (x y : string * A) : bool := code_unit_le x.1 y.1.

Definition index_le (x y : string * A) : bool := (default 0 (array_index x.1) <=? default 0 (array_index y.1))%N.

(** Own properties in enumeration order: array indices first, by value, then the others as they were added. *)
Definition enumerate (entries : list (string * A)) : list (string * A) :=
  sort_by index_le (List.filter (fun x => is_some (array_index x.1)) entries)
  ++ List.filter (fun x => negb (is_some (array_index x.1))) entries.

(** [sortKeys] on an object's entries. *)
Definition sortKeys (entries : list (string * A)) : list (string * A) := enumerate (sort_by entry_le entries).

End Entries.

(** ** The texts *)

Section Text.
Context `{NumberText}.

(** [JSON.stringify(value, sortKeys)] *)
Fixpoint canonicalJson (value : json) : string :=
  match value with
  | JNull => "null"
  | JBool b => if b then "true" else "false"
  | JNum n => match num_normal n with Some finite => number_text finite | None => "null" end
  | JStr s => jsonString s
  | JArr items => "[" +:+ Js.join "," (map canonicalJson items) +:+ "]"
  | JObj fields => jsonObject (sortKeys (map (fun field => (field.1, canonicalJson field.2)) fields))
  end.

End Text.

(** ** Values up to key order *)

Inductive value :=
| VNull
| VBool (b : bool)
| VNum (finite : Z * Z)
| VStr (s : string)
| VArr (items : list value)
| VObj (fields : list (string * value)).

(** A value's normal form: one mantissa per number, keys in canonical order, and the [null] JSON writes for a number that
    is not finite. *)
Fixpoint normal (v : json) : value :=
  match v with
  | JNull => VNull
  | JBool b => VBool b
  | JNum n => match num_normal n with Some finite => VNum finite | None => VNull end
  | JStr s => VStr s
  | JArr items => VArr (map normal items)
  | JObj fields => VObj (sortKeys (map (fun field => (field.1, normal field.2)) fields))
  end.

(** ** Text determines value *)

Section Induction.
Variable P : value -> Prop.
Hypothesis P_null : P VNull.
Hypothesis P_bool : forall b, P (VBool b).
Hypothesis P_num : forall n, P (VNum n).
Hypothesis P_str : forall s, P (VStr s).
Hypothesis P_arr : forall items, Forall P items -> P (VArr items).
Hypothesis P_obj : forall fields, Forall (fun field => P field.2) fields -> P (VObj fields).

(** Induction through the lists. *)
Fixpoint value_rect' (v : value) : P v :=
  match v with
  | VNull => P_null
  | VBool b => P_bool b
  | VNum n => P_num n
  | VStr s => P_str s
  | VArr items => P_arr items ((fix go l : Forall P l :=
      match l with [] => Forall_nil_2 _ | x :: l' => Forall_cons_2 _ _ _ (value_rect' x) (go l') end) items)
  | VObj fields => P_obj fields ((fix go l : Forall (fun field => P field.2) l :=
      match l with [] => Forall_nil_2 _ | x :: l' => Forall_cons_2 _ _ _ (value_rect' x.2) (go l') end) fields)
  end.
End Induction.

Section JsonInduction.
Variable P : json -> Prop.
Hypothesis P_null : P JNull.
Hypothesis P_bool : forall b, P (JBool b).
Hypothesis P_num : forall n, P (JNum n).
Hypothesis P_str : forall s, P (JStr s).
Hypothesis P_arr : forall items, Forall P items -> P (JArr items).
Hypothesis P_obj : forall fields, Forall (fun field => P field.2) fields -> P (JObj fields).

Fixpoint json_rect' (v : json) : P v :=
  match v with
  | JNull => P_null
  | JBool b => P_bool b
  | JNum n => P_num n
  | JStr s => P_str s
  | JArr items => P_arr items ((fix go l : Forall P l :=
      match l with [] => Forall_nil_2 _ | x :: l' => Forall_cons_2 _ _ _ (json_rect' x) (go l') end) items)
  | JObj fields => P_obj fields ((fix go l : Forall (fun field => P field.2) l :=
      match l with [] => Forall_nil_2 _ | x :: l' => Forall_cons_2 _ _ _ (json_rect' x.2) (go l') end) fields)
  end.
End JsonInduction.

Lemma filter_map {A B} (f : A -> B) (p : B -> bool) l : List.filter p (map f l) = map f (List.filter (fun x => p (f x)) l).
Proof. induction l as [|x l IH]; [done|]. cbn. destruct (p (f x)); cbn; by rewrite IH. Qed.

Lemma sortKeys_map {A B} (f : A -> B) (l : list (string * A)) :
  sortKeys (map (fun x => (x.1, f x.2)) l) = map (fun x => (x.1, f x.2)) (sortKeys l).
Proof.
  unfold sortKeys, enumerate. rewrite (sort_by_map _ entry_le) by done. rewrite !filter_map, (sort_by_map _ index_le) by done.
  by rewrite map_app.
Qed.

Section Injective.
Context `{NumberTextLaws}.

Fixpoint text (v : value) : string :=
  match v with
  | VNull => "null"
  | VBool b => if b then "true" else "false"
  | VNum n => number_text n
  | VStr s => jsonString s
  | VArr items => "[" +:+ Js.join "," (map text items) +:+ "]"
  | VObj fields => jsonObject (map (fun field => (field.1, text field.2)) fields)
  end.

Lemma canonicalJson_text v : canonicalJson v = text (normal v).
Proof.
  induction v as [|b|n|s|items IH|fields IH] using json_rect'; cbn; try done.
  - by destruct (num_normal n).
  - f_equal. f_equal. f_equal. rewrite map_map. induction IH as [|x l Hx Hl IHl]; [done|]. cbn. by rewrite Hx, IHl.
  - assert (E : map (fun field => (field.1, canonicalJson field.2)) fields = map (fun field => (field.1, text (normal field.2))) fields).
    { induction IH as [|x l Hx Hl IHl]; [done|]. cbn [map]. by rewrite Hx, IHl. }
    by rewrite E, <-(sortKeys_map text), map_map.
Qed.

(** The unit an escaped string begins with, and what follows it. *)
Definition hex_value (c : ascii) : nat := if Js.is_digit c then Js.code c - 48 else Js.code c - 87.

Definition read_unit (s : string) : option (ascii * string) :=
  match s with
  | EmptyString => None
  | String c rest =>
      if (Js.code c =? 34)%nat then None
      else if negb (Js.code c =? 92)%nat then Some (c, rest)
      else match rest with
           | String x rest =>
               if Ascii.eqb x "b" then Some (ascii_of_nat 8, rest) else if Ascii.eqb x "t" then Some (ascii_of_nat 9, rest)
               else if Ascii.eqb x "n" then Some (ascii_of_nat 10, rest) else if Ascii.eqb x "f" then Some (ascii_of_nat 12, rest)
               else if Ascii.eqb x "r" then Some (ascii_of_nat 13, rest)
               else if Ascii.eqb x "u" then
                 match rest with
                 | String _ (String _ (String h (String l rest))) => Some (ascii_of_nat (16 * hex_value h + hex_value l), rest)
                 | _ => None
                 end
               else Some (x, rest)
           | EmptyString => None
           end
  end.

Lemma read_escape_unit c r : read_unit (escape_unit c +:+ r) = Some (c, r).
Proof. destruct c as [[] [] [] [] [] [] [] []]; vm_compute; reflexivity. Qed.

Lemma escape_inj k k' r r' : escape k +:+ (quote +:+ r) = escape k' +:+ (quote +:+ r') -> k = k' /\ r = r'.
Proof.
  revert k'. induction k as [|c k IH]; intros [|c' k'] He; cbn [escape] in He.
  - unfold quote in He. cbn in He. by injection He.
  - exfalso. apply (f_equal read_unit) in He. by rewrite <-str_app_assoc, read_escape_unit in He.
  - exfalso. apply (f_equal read_unit) in He. by rewrite <-str_app_assoc, read_escape_unit in He.
  - apply (f_equal read_unit) in He. rewrite <-!str_app_assoc, !read_escape_unit in He. injection He as -> He.
    by apply IH in He as [-> ->].
Qed.

Lemma jsonString_inj k k' r r' : jsonString k +:+ r = jsonString k' +:+ r' -> k = k' /\ r = r'.
Proof.
  unfold jsonString. rewrite <-!str_app_assoc. intros He. apply escape_inj. unfold quote in *. cbn in He. by injection He.
Qed.

(** What may follow a value: nothing, or a separator. *)
Definition delimited (r : string) : bool :=
  match r with EmptyString => true | String c _ => existsb (Ascii.eqb c) [","; "]"; "}"]%char end.

Lemma units_split (p : ascii -> bool) a b r r' :
  Js.forall_units p a = true -> Js.forall_units p b = true ->
  match r with EmptyString => True | String c _ => p c = false end ->
  match r' with EmptyString => True | String c _ => p c = false end ->
  a +:+ r = b +:+ r' -> a = b /\ r = r'.
Proof.
  revert b. induction a as [|c a IH]; intros [|d b] Ha Hb Hr Hr' He; cbn in *; try done.
  - rewrite He in Hr. apply andb_true_iff in Hb as [Hb _]. congruence.
  - rewrite <-He in Hr'. apply andb_true_iff in Ha as [Ha _]. congruence.
  - injection He as -> He. apply andb_true_iff in Ha as [_ Ha], Hb as [_ Hb]. by destruct (IH b Ha Hb Hr Hr' He) as [-> ->].
Qed.

Lemma delimited_unit r : delimited r = true -> match r with EmptyString => True | String c _ => is_number_unit c = false end.
Proof.
  destruct r as [|c r]; [done|]. cbn. rewrite !orb_true_iff, !Ascii.eqb_eq. by intros [->|[->|[->|]]].
Qed.

(** The kind of value a text begins. *)
Definition start_kind (c : ascii) : nat :=
  if Ascii.eqb c "n" then 0 else if Ascii.eqb c "t" || Ascii.eqb c "f" then 1
  else if Js.is_digit c || Ascii.eqb c "-" then 2 else if (Js.code c =? 34)%nat then 3
  else if Ascii.eqb c "[" then 4 else if Ascii.eqb c "{" then 5 else 6.

Definition value_kind (v : value) : nat :=
  match v with VNull => 0 | VBool _ => 1 | VNum _ => 2 | VStr _ => 3 | VArr _ => 4 | VObj _ => 5 end.

Lemma number_kind c : Js.is_digit c || Ascii.eqb c "-" = true -> start_kind c = 2.
Proof. destruct c as [[] [] [] [] [] [] [] []]; vm_compute; congruence. Qed.

Lemma text_start v : exists c rest, text v = String c rest /\ start_kind c = value_kind v.
Proof.
  destruct v as [|[]|n| | |]; try (eexists _, _; split; [reflexivity|done]).
  destruct (number_text_start n) as (c & rest & E & Hc). exists c, rest. split; [exact E|by apply number_kind].
Qed.

Lemma text_kind v w r r' : text v +:+ r = text w +:+ r' -> value_kind v = value_kind w.
Proof.
  destruct (text_start v) as (c & s & -> & <-), (text_start w) as (d & t & -> & <-). cbn. by intros [= ->].
Qed.

Section Lists.
Context {A : Type} (f : A -> string).

Definition element_inj (x : A) : Prop := forall y r r', delimited r = true -> delimited r' = true ->
  f x +:+ r = f y +:+ r' -> x = y /\ r = r'.

Definition tails (l : list A) : string := foldr (fun y acc => "," +:+ f y +:+ acc) "" l.

Lemma join_tails x l : Js.join "," (map f (x :: l)) = f x +:+ tails l.
Proof.
  revert x. induction l as [|y l IH]; intros x; [symmetry; apply str_app_nil_r|].
  change (Js.join "," (map f (x :: y :: l))) with (f x +:+ ("," +:+ Js.join "," (map f (y :: l)))). by rewrite IH.
Qed.

Lemma tails_delimited l c r : existsb (Ascii.eqb c) [","; "]"; "}"]%char = true -> delimited (tails l +:+ String c r) = true.
Proof. by destruct l. Qed.

Lemma tails_inj c l l' r r' : c = "]"%char \/ c = "}"%char -> Forall element_inj l ->
  tails l +:+ String c r = tails l' +:+ String c r' -> l = l' /\ r = r'.
Proof.
  intros Hc Hl. revert l'. induction Hl as [|x l Hx Hl IH]; intros [|x' l'] He; cbn in He.
  - by injection He.
  - injection He as -> _. by destruct Hc.
  - injection He as <- _. by destruct Hc.
  - injection He as He. rewrite <-!str_app_assoc in He.
    assert (Hdel : existsb (Ascii.eqb c) [","; "]"; "}"]%char = true) by (by destruct Hc as [->| ->]).
    apply Hx in He as [-> He]; [|by apply tails_delimited..]. by apply IH in He as [-> ->].
Qed.

Lemma list_inj c l l' r r' : c = "]"%char \/ c = "}"%char -> Forall element_inj l ->
  (forall x, match f x with String d _ => d <> c | EmptyString => False end) ->
  Js.join "," (map f l) +:+ String c r = Js.join "," (map f l') +:+ String c r' -> l = l' /\ r = r'.
Proof.
  intros Hc Hl Hstart He. destruct l as [|x l], l' as [|x' l'].
  - by injection He.
  - rewrite join_tails in He. cbn in He. specialize (Hstart x'). destruct (f x') as [|d s]; [done|]. cbn in He. by injection He as <- _.
  - rewrite join_tails in He. cbn in He. specialize (Hstart x). destruct (f x) as [|d s]; [done|]. cbn in He. by injection He as -> _.
  - rewrite !join_tails, <-!str_app_assoc in He. apply Forall_cons in Hl as [Hx Hl].
    assert (Hdel : existsb (Ascii.eqb c) [","; "]"; "}"]%char = true) by (by destruct Hc as [->| ->]).
    apply Hx in He as [-> He]; [|by apply tails_delimited..]. by apply tails_inj in He as [-> ->].
Qed.

End Lists.

(** The start of a value is no closing unit. *)
Lemma text_opens c v : c = "]"%char \/ c = "}"%char -> match text v with String d _ => d <> c | EmptyString => False end.
Proof. destruct (text_start v) as (d & rest & -> & Hk). intros [->| ->] ->; by destruct v. Qed.

Theorem text_inj v : element_inj text v.
Proof.
  induction v as [|b|n|s|items IH|fields IH] using value_rect'; intros w r r' Hr Hr' He;
    pose proof (text_kind _ _ _ _ He) as Hk; destruct w; cbn in Hk; try discriminate Hk; clear Hk; cbn [text] in He.
  - by apply (inj (String.append "null")) in He.
  - destruct b, b0; cbn in He; try discriminate He; by injection He as ->.
  - apply units_split with (p := is_number_unit) in He as [En ->];
      [by apply number_text_inj in En as ->|apply number_text_units|apply number_text_units|by apply delimited_unit|by apply delimited_unit].
  - by apply jsonString_inj in He as [-> ->].
  - rewrite <-!str_app_assoc in He. cbn in He. injection He as He.
    apply list_inj in He as [-> ->]; [done|by left|exact IH|]. intros x. by apply text_opens; left.
  - unfold jsonObject in He. rewrite <-!str_app_assoc, !map_map in He. cbn in He. injection He as He.
    set (entry := fun field : string * value => jsonString field.1 +:+ (":" +:+ text field.2)).
    apply (list_inj entry) in He as [-> ->]; [done|by right| |done].
    eapply Forall_impl; [exact IH|]. intros [k x] Hx [k' x'] s s' Hs Hs' E. unfold entry in E. cbn [fst snd] in *.
    rewrite <-!str_app_assoc in E. apply jsonString_inj in E as [-> E]. cbn in E. injection E as E. by apply Hx in E as [-> ->].
Qed.

End Injective.

(** ** The same value *)

(** What JSON writes as [null]. *)
Definition null_like (v : json) : bool := match v with JNull | JNum NNotFinite => true | _ => false end.

(** Two values that say the same: alike up to the order of keys and the writing of a number. *)
Inductive same : json -> json -> Prop :=
| same_null v w : null_like v = true -> null_like w = true -> same v w
| same_bool b : same (JBool b) (JBool b)
| same_num n n' x : num_normal n = Some x -> num_normal n' = Some x -> same (JNum n) (JNum n')
| same_str s : same (JStr s) (JStr s)
| same_arr l l' : Forall2 same l l' -> same (JArr l) (JArr l')
| same_obj l l' m m' : l ≡ₚ m -> l' ≡ₚ m' -> Forall2 (fun a b => a.1 = b.1 /\ same a.2 b.2) m m' -> same (JObj l) (JObj l').

(** Every object names each key once, as a JavaScript object does. *)
Fixpoint distinct_keys (v : json) : Prop :=
  match v with
  | JArr items => foldr (fun x P => distinct_keys x /\ P) True items
  | JObj fields => NoDup (map fst fields) /\ foldr (fun field P => distinct_keys field.2 /\ P) True fields
  | _ => True
  end.

Lemma enumerate_Permutation {A} (l : list (string * A)) : enumerate l ≡ₚ l.
Proof.
  unfold enumerate. rewrite sort_by_Permutation. induction l as [|x l IH]; [done|]. cbn.
  destruct (is_some (array_index x.1)); cbn; [by rewrite IH|]. by rewrite <-Permutation_middle, IH.
Qed.

Lemma sortKeys_Permutation {A} (l : list (string * A)) : sortKeys l ≡ₚ l.
Proof. unfold sortKeys. by rewrite enumerate_Permutation, sort_by_Permutation. Qed.

(** Distinct keys have one canonical order. *)
Lemma sortKeys_canonical {A} (l l' : list (string * A)) : NoDup (map fst l) -> l ≡ₚ l' -> sortKeys l = sortKeys l'.
Proof.
  intros Hd Hp. unfold sortKeys. f_equal. apply sort_by_canonical; [| | |exact Hp].
  - intros a b. apply code_unit_le_total.
  - intros a b c. apply code_unit_le_trans.
  - intros [k x] [k' x'] Ha Hb H1 H2. assert (k = k') as <- by (by apply code_unit_le_antisym). f_equal.
    apply list_elem_of_lookup in Ha as [i Hi], Hb as [j Hj].
    assert (i = j) as <-; [|congruence]. eapply (NoDup_lookup (map fst l)); [exact Hd| |]; rewrite list_lookup_fmap.
    + by rewrite Hi.
    + by rewrite Hj.
Qed.

Lemma sortKeys_canonical_map {A B} (f : A -> B) (l l' : list (string * A)) : NoDup (map fst l) -> l ≡ₚ l' ->
  sortKeys (map (fun x => (x.1, f x.2)) l) = sortKeys (map (fun x => (x.1, f x.2)) l').
Proof. intros Hd Hp. apply sortKeys_canonical; [by rewrite map_map|by rewrite Hp]. Qed.

Lemma Forall2_map_eq {A B} (f : A -> B) (R : A -> A -> Prop) l l' :
  Forall (fun x => forall y, f x = f y -> R x y) l -> map f l = map f l' -> Forall2 R l l'.
Proof.
  intros Hl. revert l'. induction Hl as [|x l Hx Hl IH]; intros [|y l'] E; try discriminate E; constructor.
  - apply Hx. by injection E.
  - apply IH. by injection E.
Qed.

Lemma num_normal_None n : num_normal n = None -> n = NNotFinite.
Proof. destruct n as [[|p|p] e|]; cbn; try destruct (odd_mantissa p e); done. Qed.

Lemma normal_null w : normal w = VNull -> null_like w = true.
Proof.
  destruct w as [| |n| | |]; cbn; try done. pose proof (num_normal_None n) as Hs. destruct (num_normal n); [done|]. by rewrite Hs.
Qed.

Lemma normal_num w x : normal w = VNum x -> exists n, w = JNum n /\ num_normal n = Some x.
Proof. destruct w as [| |n| | |]; cbn; try done. destruct (num_normal n) as [y|] eqn:E; [|done]. intros [= <-]. eauto. Qed.

Lemma normal_same v w : normal v = normal w -> same v w.
Proof.
  revert w. induction v as [|b|n|s|items IH|fields IH] using json_rect'; intros w E.
  - apply same_null; [done|]. by apply normal_null.
  - destruct w as [| |n| | |]; try discriminate E; [injection E as ->; apply same_bool|]. cbn in E. by destruct (num_normal n).
  - cbn in E. destruct (num_normal n) as [x|] eqn:Hn; symmetry in E.
    + apply normal_num in E as (n' & -> & Hn'). by eapply same_num.
    + apply num_normal_None in Hn as ->. apply same_null; [done|by apply normal_null].
  - destruct w as [| |n'| | |]; try discriminate E; [cbn in E; by destruct (num_normal n')|]. injection E as ->. apply same_str.
  - destruct w as [| |n'| | |]; try discriminate E; [cbn in E; by destruct (num_normal n')|]. injection E as E. apply same_arr.
    by eapply Forall2_map_eq.
  - destruct w as [| |n'| | |fields']; try discriminate E; [cbn in E; by destruct (num_normal n')|]. injection E as E.
    rewrite !(sortKeys_map normal) in E. eapply same_obj; [symmetry; apply sortKeys_Permutation|symmetry; apply sortKeys_Permutation|].
    eapply Forall2_map_eq; [|exact E]. rewrite sortKeys_Permutation. eapply Forall_impl; [exact IH|].
    intros [k x] Hx [k' y] Exy. cbn in *. injection Exy as -> Exy. auto.
Qed.

Lemma distinct_arr items : distinct_keys (JArr items) <-> Forall distinct_keys items.
Proof. cbn. induction items as [|x l IH]; cbn; [by rewrite Forall_nil|]. by rewrite Forall_cons, IH. Qed.

Lemma distinct_obj fields :
  distinct_keys (JObj fields) <-> NoDup (map fst fields) /\ Forall (fun field => distinct_keys field.2) fields.
Proof. cbn. f_equiv. induction fields as [|x l IH]; cbn; [by rewrite Forall_nil|]. by rewrite Forall_cons, IH. Qed.

Lemma same_normal v w : distinct_keys v -> distinct_keys w -> same v w -> normal v = normal w.
Proof.
  revert w. induction v as [|b|n|s|items IH|fields IH] using json_rect'; intros w Hv Hw Hs; inversion Hs; subst; try done.
  - destruct w as [| |[]| | |]; done.
  - destruct n; [done|]. destruct w as [| |[]| | |]; done.
  - cbn. by repeat match goal with E : num_normal _ = Some _ |- _ => rewrite E end.
  - cbn. f_equal. apply distinct_arr in Hv, Hw. revert Hv Hw IH.
    match goal with F : Forall2 _ _ _ |- _ => induction F as [|x y l l' Hxy Hl IHl] end; [done|].
    intros [Hx Hxs]%Forall_cons [Hy Hys]%Forall_cons [IHx IHs]%Forall_cons. cbn. f_equal; [by apply IHx|apply IHl; try done].
    by constructor.
  - apply distinct_obj in Hv as [Hk Hv], Hw as [Hk' Hw]. cbn. f_equal.
    match goal with P : fields ≡ₚ ?m0, P' : ?l0 ≡ₚ ?m1, F : Forall2 _ ?m0 ?m1 |- _ => rename P into Pm; rename P' into Pm'; rename F into Hf; rename m0 into mid; rename m1 into mid' end.
    rewrite Pm in IH, Hv. rewrite Pm' in Hw.
    rewrite (sortKeys_canonical_map normal fields mid), (sortKeys_canonical_map normal l' mid') by done.
    f_equal. clear Pm Pm' Hk Hk' Hs. induction Hf as [|x y xs ys [Ek Exy] Hl IHl]; [done|].
    apply Forall_cons in IH as [IHx IHs], Hv as [Hx Hxs], Hw as [Hy Hys]. cbn. rewrite Ek, (IHx y.2) by done. by rewrite IHl.
Qed.

Lemma canonical_normal `{NumberTextLaws} a b : canonicalJson a = canonicalJson b <-> normal a = normal b.
Proof.
  rewrite !canonicalJson_text. split; [|by intros ->]. intros E.
  apply (text_inj (normal a) (normal b) "" ""); [done|done|by f_equal].
Qed.

(** C18. The canonical JSON text determines the value, and nothing but the value: two contracts digest alike exactly when
    they say the same, whatever the order of their keys and the writing of their numbers. *)
Theorem canonicalJson_same `{NumberTextLaws} (v w : json) :
  distinct_keys v -> distinct_keys w -> (canonicalJson v = canonicalJson w <-> same v w).
Proof.
  intros Hv Hw. rewrite canonical_normal. split; [apply normal_same|by apply same_normal].
Qed.

(** Numbers written as a signed mantissa and exponent in bits, for the examples. *)
Fixpoint bits (p : positive) : string :=
  match p with xH => "1" | xO p' => String "0" (bits p') | xI p' => String "1" (bits p') end.

Definition signed_bits (z : Z) : string := match z with Z0 => "0" | Zpos p => bits p | Zneg p => String "-" (bits p) end.

#[export] Instance demo_number_text : NumberText := {| number_text := fun x => signed_bits x.1 +:+ String "e" (signed_bits x.2) |}.

Definition is_bit (c : ascii) : bool := Js.is_digit c || Ascii.eqb c "-".

Lemma bits_not_empty p : exists c s, bits p = String c s /\ Js.is_digit c = true.
Proof. destruct p; cbn; eexists _, _; by split. Qed.

Lemma bits_not_zero p : bits p <> "0".
Proof. destruct p as [p|p|]; cbn; try done. destruct (bits_not_empty p) as (c & s & -> & _). done. Qed.

Lemma bits_inj p q : bits p = bits q -> p = q.
Proof.
  revert q. induction p as [p IH|p IH|]; intros [q|q|] E; cbn in E; try discriminate E; try done;
    try (injection E as E; by rewrite (IH q E)).
  - destruct (bits_not_empty p) as (c & s & F & _). by rewrite F in E.
  - destruct (bits_not_empty q) as (c & s & F & _). by rewrite F in E.
Qed.

Lemma bits_units p : Js.forall_units Js.is_digit (bits p) = true.
Proof. by induction p. Qed.

Lemma signed_bits_units z : Js.forall_units is_bit (signed_bits z) = true.
Proof.
  destruct z as [|p|p]; [done| |]; cbn [signed_bits Js.forall_units]; try change (is_bit "-") with true; cbn [andb];
    (eapply forall_units_impl; [|apply bits_units]); intros c Hc; unfold is_bit; by rewrite Hc.
Qed.

Lemma signed_bits_inj a b : signed_bits a = signed_bits b -> a = b.
Proof.
  destruct a as [|p|p], b as [|q|q]; cbn; intros E; try discriminate E; try done.
  - by destruct (bits_not_zero q).
  - by destruct (bits_not_zero p).
  - by rewrite (bits_inj p q E).
  - destruct (bits_not_empty p) as (c & s & F & Hc). rewrite F in E. by injection E as -> _.
  - destruct (bits_not_empty q) as (c & s & F & Hc). rewrite F in E. by injection E as <- _.
  - injection E as E. by rewrite (bits_inj p q E).
Qed.

#[export] Instance demo_number_text_laws : NumberTextLaws.
Proof.
  split.
  - intros [m e] [m' e'] E. cbn in E. apply (units_split is_bit) in E as [Em Ee]; [|apply signed_bits_units|apply signed_bits_units|done|done].
    injection Ee as Ee. by rewrite (signed_bits_inj _ _ Em), (signed_bits_inj _ _ Ee).
  - intros [m e]. cbn. rewrite forall_units_app. apply andb_true_iff. split; [|cbn];
      (eapply forall_units_impl; [|apply signed_bits_units]); intros c; unfold is_bit, is_number_unit; cbn;
      rewrite !orb_true_iff; tauto.
  - intros [m e]. cbn. destruct m as [|p|p]; [by eexists _, _| |by eexists _, _].
    destruct (bits_not_empty p) as (c & s & F & Hc). cbn. rewrite F. eexists _, _. split; [reflexivity|]. by rewrite Hc.
Qed.

Lemma canonicalJson_same_witness :
  canonicalJson (JObj [("b", JNum (NFinite 4 0)); ("a", JNull)]) = canonicalJson (JObj [("a", JNull); ("b", JNum (NFinite 1 2))])
  /\ same (JObj [("b", JNum (NFinite 4 0)); ("a", JNull)]) (JObj [("a", JNull); ("b", JNum (NFinite 1 2))]).
Proof.
  assert (D : forall a b, distinct_keys (JObj [("b", JNum a); ("a", b)]) /\ distinct_keys (JObj [("a", JNull); ("b", JNum a)])
                <-> distinct_keys b).
  { intros a b. cbn. split; [tauto|]. intros Hb. repeat split; try done; apply (bool_decide_unpack _); by vm_compute. }
  split; [by vm_compute|].
  apply (canonicalJson_same (JObj [("b", JNum (NFinite 4 0)); ("a", JNull)]) (JObj [("a", JNull); ("b", JNum (NFinite 1 2))])).
  - apply (D (NFinite 4 0) JNull). done.
  - apply (D (NFinite 1 2) JNull). done.
  - by vm_compute.
Defined.
