(* ===== verification/Cron.v ===== *)
(** Cron expressions: which UTC minutes a job is due ([app/src/jobs/schedule.ts]).

    The five fields of an expression are parsed into sets of numbers, as lists that hold each once; an instant is its
    milliseconds. [previousDue] searches back day by day; the loops follow the code's. *)

From S2P Require Import Prelude Calendar Json.
From Stdlib Require Import ZArith Lia String Ascii Sorted.
From stdpp Require Import base tactics strings list.

Open Scope Z_scope.

Record Field := mkField { field_min : Z; field_max : Z }.

Definition MINUTE : Field := mkField 0 59.
Definition HOUR : Field := mkField 0 23.
Definition DAY_OF_MONTH : Field := mkField 1 31.
Definition MONTH : Field := mkField 1 12.
(** 7 is Sunday too. *)
Definition DAY_OF_WEEK : Field := mkField 0 7.

Definition MINUTE_MS : Z := 60000.
Definition SEARCH_DAYS : nat := 366 * 5.

Record CronSchedule := mkSchedule {
  minutes : list Z;
  hours : list Z;
  daysOfMonth : list Z;
  months : list Z;
  daysOfWeek : list Z;
  eitherDay : bool;
}.

(** ** Parsing *)

(** [NUMBER] *)
Definition is_number (text : string) : bool := negb (text =? "")%string && Js.forall_units Js.is_digit text.

Definition number (text : string) (field : Field) : option Z :=
  if negb (is_number text) then None
  else let value := Z.of_N (digits_value text) in
       if (field_min field <=? value) && (value <=? field_max field) then Some value else None.

(** [values.add(value)] *)
Definition set_add (value : Z) (values : list Z) : list Z := if existsb (Z.eqb value) values then values else values ++ [value].

(** [for (let value = from; value <= to; value += every) values.add(value)] *)
Fixpoint add_range (fuel : nat) (value to every : Z) (values : list Z) : list Z :=
  match fuel with
  | O => values
  | S fuel => if value <=? to then add_range fuel (value + every) to every (set_add value values) else values
  end.

(** The numbers an item names: from, to and the step. *)
Definition parseItem (item : string) (field : Field) : option (Z * Z * Z) :=
  match Js.split "/" item with
  | _ :: _ :: _ :: _ => None
  | parts =>
      let range := default "" (head parts) in
      let step := parts !! 1%nat in
      every ← match step with None => Some 1 | Some step => number step (mkField 1 (field_max field + 1)) end;
      if (range =? "*")%string then Some (field_min field, field_max field, every)
      else match Js.split "-" range with
           | _ :: _ :: _ :: _ => None
           | bounds =>
               from ← number (default "" (head bounds)) field;
               to ← match bounds !! 1%nat with
                    | None => if is_some step then Some (field_max field) else Some from
                    | Some high => number high field
                    end;
               Some (from, to, every)
           end
  end.

Fixpoint parseItems (items : list string) (field : Field) (values : list Z) : option (list Z) :=
  match items with
  | [] => Some values
  | item :: items =>
      match parseItem item field with
      | None => None
      | Some (from, to, every) =>
          if to <? from then None else parseItems items field (add_range (Z.to_nat (to - from + 1)) from to every values)
      end
  end.

Definition parseField (text : string) (field : Field) : option (list Z) := parseItems (Js.split "," text) field [].

Definition parseCron (expression : string) : option CronSchedule :=
  match Js.split " " expression with
  | [minute; hour; dayOfMonth; month; dayOfWeek] =>
      minutes ← parseField minute MINUTE;
      hours ← parseField hour HOUR;
      daysOfMonth ← parseField dayOfMonth DAY_OF_MONTH;
      months ← parseField month MONTH;
      weekdays ← parseField dayOfWeek DAY_OF_WEEK;
      Some (mkSchedule minutes hours daysOfMonth months (fold_left (fun days d => set_add (d mod 7) days) weekdays [])
              (negb (Js.startsWith dayOfMonth "*") && negb (Js.startsWith dayOfWeek "*")))
  | _ => None
  end.

(** ** Due minutes *)

Definition has (values : list Z) (value : Z) : bool := existsb (Z.eqb value) values.

Definition dayMatches (schedule : CronSchedule) (date : Z) : bool :=
  if negb (has (months schedule) (getUTCMonth date + 1)) then false
  else let byMonth := has (daysOfMonth schedule) (getUTCDate date) in
       let byWeek := has (daysOfWeek schedule) (getUTCDay date) in
       if eitherDay schedule then byMonth || byWeek else byMonth && byWeek.

Definition isDueAt (schedule : CronSchedule) (at_ : Z) : bool :=
  has (minutes schedule) (getUTCMinutes at_) && has (hours schedule) (getUTCHours at_) && dayMatches schedule at_.

Definition descending (values : list Z) : list Z := sort_by (fun left right => right <=? left) values.

Section Search.
Variables (schedule : CronSchedule) (limit : Z) (count : nat).

Definition push (due : list Z) (time : Z) : list Z :=
  if (time <=? limit) && (length due <? count)%nat then due ++ [time] else due.

(** The two inner loops: every hour and minute of one day, newest first. *)
Definition push_day (date : Z) (due : list Z) : list Z :=
  fold_left (fun due hour => fold_left (fun due minute => push due (date + (hour * 60 + minute) * MINUTE_MS)) (descending (minutes schedule)) due)
    (descending (hours schedule)) due.

Fixpoint search (fuel back : nat) (today : Z) (due : list Z) : list Z :=
  match fuel with
  | O => due
  | S fuel =>
      if (length due <? count)%nat then
        let date := today - Z.of_nat back * MS_PER_DAY in
        search fuel (S back) today (if dayMatches schedule date then push_day date due else due)
      else due
  end.

End Search.

Definition previousDue (schedule : CronSchedule) (at_ : Z) (count : nat) : list Z :=
  let limit := at_ / MINUTE_MS * MINUTE_MS in
  let today := date_utc (getUTCFullYear at_) (getUTCMonth at_) (getUTCDate at_) in
  search schedule limit count (S SEARCH_DAYS) 0 today [].

Definition periodAt (schedule : CronSchedule) (at_ : Z) : option Z :=
  match previousDue schedule at_ 2 with latest :: before :: _ => Some (latest - before) | _ => None end.

Example weekdays_at_six : (fun s => (previousDue s 1767225600000 2, periodAt s 1767225600000)) <$> parseCron "30 6 * * 1-5"
  = Some ([1767162600000; 1767076200000], Some 86400000).
Proof. by vm_compute. Qed.

Example not_a_schedule : parseCron "60 * * * *" = None /\ parseCron "5-1 * * * *" = None /\ parseCron "* * * *" = None.
Proof. by vm_compute. Qed.

(** ** What an expression names *)

Lemma set_add_elem x l v : v ∈ set_add x l <-> v = x \/ v ∈ l.
Proof.
  unfold set_add. destruct (existsb (Z.eqb x) l) eqn:E.
  - apply existsb_exists in E as (y & Hy & ->%Z.eqb_eq). apply list_elem_of_In in Hy. naive_solver.
  - rewrite elem_of_app, list_elem_of_singleton. naive_solver.
Qed.

Lemma set_add_NoDup x l : NoDup l -> NoDup (set_add x l).
Proof.
  intros Hl. unfold set_add. destruct (existsb (Z.eqb x) l) eqn:E; [done|]. apply NoDup_app. split; [done|]. split; [|apply NoDup_singleton].
  intros y Hy ->%list_elem_of_singleton. apply not_true_iff_false in E. apply E, existsb_exists. exists x. split; [by apply list_elem_of_In|apply Z.eqb_refl].
Qed.

Lemma has_spec l v : has l v = true <-> v ∈ l.
Proof.
  unfold has. rewrite existsb_exists. setoid_rewrite Z.eqb_eq. setoid_rewrite <-list_elem_of_In. naive_solver.
Qed.

Lemma add_range_spec fuel value to every values v : 1 <= every -> to - value < Z.of_nat fuel ->
  v ∈ add_range fuel value to every values <-> v ∈ values \/ (value <= v <= to /\ (v - value) mod every = 0).
Proof.
  intros He. revert value values. induction fuel as [|fuel IH]; intros value values Hf; cbn [add_range].
  - split; [by left|]. intros [?|[? _]]; [done|lia].
  - destruct (Z.leb_spec value to) as [L|L]; [|split; [by left|intros [?|[? _]]; [done|lia]]].
    rewrite IH by lia. rewrite set_add_elem. replace (v - (value + every)) with (v - value + (-1) * every) by lia. rewrite Z.mod_add by lia.
    split; [intros [[->|?]|[? ?]]|intros [?|[? E]]].
    + right. rewrite Z.sub_diag. by rewrite Z.mod_0_l by lia.
    + by left.
    + right. split; [lia|done].
    + left. by right.
    + destruct (decide (v = value)) as [->|N]; [left; by left|]. right. split; [|done].
      apply Z.mod_divide in E as [k Hk]; [|lia]. assert (1 <= k) by nia. nia.
Qed.

Lemma add_range_NoDup fuel value to every values : NoDup values -> NoDup (add_range fuel value to every values).
Proof. revert value values. induction fuel as [|fuel IH]; intros value values H; cbn [add_range]; [done|]. destruct (value <=? to); [|done]. by apply IH, set_add_NoDup. Qed.

Lemma number_range text field v : number text field = Some v -> field_min field <= v <= field_max field.
Proof. unfold number. destruct (negb _); [done|]. destruct (_ && _) eqn:E; [|done]. intros [= <-]. to_prop. lia. Qed.

(** What one item names lies in its field. *)
Lemma parseItem_range item field from to every : parseItem item field = Some (from, to, every) -> 1 <= every /\ field_min field <= from /\ to <= field_max field.
Proof.
  unfold parseItem. intros H.
  assert (Hgen : forall range step, (every ← match step with None => Some 1 | Some step => number step (mkField 1 (field_max field + 1)) end;
      if (range =? "*")%string then Some (field_min field, field_max field, every)
      else match Js.split "-" range with
           | _ :: _ :: _ :: _ => None
           | bounds =>
               from ← number (default "" (head bounds)) field;
               to ← match bounds !! 1%nat with
                    | None => if is_some step then Some (field_max field) else Some from
                    | Some high => number high field
                    end;
               Some (from, to, every)
           end) = Some (from, to, every) -> 1 <= every /\ field_min field <= from /\ to <= field_max field).
  { intros range step. destruct (match step with None => Some 1 | Some step => number step (mkField 1 (field_max field + 1)) end) as [n|] eqn:En; [|done].
    assert (1 <= n) by (destruct step as [s|]; [apply number_range in En; cbn in En; lia|by injection En as <-]). cbn [mbind option_bind].
    destruct (range =? "*")%string; [intros [= <- <- <-]; lia|]. destruct (Js.split "-" range) as [|low [|high [|]]]; try done; intros Hb;
      cbn [head lookup list_lookup] in Hb; simplify_option_eq; repeat match goal with E : number _ _ = Some _ |- _ => apply number_range in E end;
      try destruct step; simplify_eq/=; lia. }
  destruct (Js.split "/" item) as [|range [|step [|]]]; cbn [head lookup] in H; try done; by eapply Hgen.
Qed.

(** A number an item of the field names. *)
Definition names (text : string) (field : Field) (v : Z) : Prop :=
  exists item from to every, item ∈ Js.split "," text /\ parseItem item field = Some (from, to, every) /\ from <= v <= to /\ (v - from) mod every = 0.

Lemma parseItems_spec items field values l : parseItems items field values = Some l -> NoDup values ->
  NoDup l /\ forall v, v ∈ l <-> v ∈ values \/ exists item from to every, item ∈ items /\ parseItem item field = Some (from, to, every)
    /\ from <= v <= to /\ (v - from) mod every = 0.
Proof.
  revert values. induction items as [|item items IH]; intros values; cbn [parseItems].
  - intros [= <-] H. split; [done|]. intros v. split; [by left|]. intros [?|(item & ? & ? & ? & Hin & _)]; [done|by apply elem_of_nil in Hin].
  - destruct (parseItem item field) as [[[from to] every]|] eqn:E; [|done]. destruct (Z.ltb_spec to from) as [L|L]; [done|].
    intros Hl Hv. destruct (parseItem_range _ _ _ _ _ E) as (He & _). apply IH in Hl as [Hn Hs]; [|by apply add_range_NoDup]. split; [done|].
    intros v. rewrite Hs, add_range_spec by lia. setoid_rewrite elem_of_cons. split.
    + intros [[?|?]|(i & f & t & n & ? & ?)]; [by left|right; naive_solver|right; naive_solver].
    + intros [?|(i & f & t & n & [->|Hi] & Hp & Hr)]; [left; by left| |right; naive_solver]. left. right. naive_solver.
Qed.

Lemma parseField_spec text field l : parseField text field = Some l ->
  NoDup l /\ (forall v, v ∈ l <-> names text field v) /\ (forall v, v ∈ l -> field_min field <= v <= field_max field).
Proof.
  intros H. apply parseItems_spec in H as [Hn Hs]; [|constructor]. split; [done|].
  assert (Hv : forall v, v ∈ l <-> names text field v).
  { intros v. rewrite Hs. unfold names. split; [intros [?%elem_of_nil|?]; done|by right]. }
  split; [done|]. intros v (item & from & to & every & _ & Hp & Hr & _)%Hv. apply parseItem_range in Hp. lia.
Qed.

(** ** The search, as one list *)

(** The minutes of a day the schedule names, newest first. *)
Definition day_times (s : CronSchedule) (date : Z) : list Z :=
  flat_map (fun hour => map (fun minute => date + (hour * 60 + minute) * MINUTE_MS) (descending (minutes s))) (descending (hours s)).

Definition candidates (s : CronSchedule) (today : Z) (backs : list nat) : list Z :=
  flat_map (fun back => let date := today - Z.of_nat back * MS_PER_DAY in if dayMatches s date then day_times s date else []) backs.

Definition up_to (limit : Z) (l : list Z) : list Z := List.filter (fun t => t <=? limit) l.

Lemma push_all limit count times due : (length due <= count)%nat -> fold_left (push limit count) times due = take count (due ++ up_to limit times).
Proof.
  revert due. induction times as [|t times IH]; intros due H; cbn [fold_left up_to List.filter].
  - by rewrite app_nil_r, take_ge.
  - unfold push at 2. fold (up_to limit times). destruct (t <=? limit) eqn:E; cbn [andb]; [|by apply IH].
    destruct (Nat.ltb_spec (length due) count) as [L|L].
    + rewrite IH by (rewrite length_app; cbn; lia). by rewrite <-app_assoc.
    + rewrite IH by done. rewrite !take_app_le by lia. done.
Qed.

Lemma push_day_all s limit count date due : (length due <= count)%nat ->
  push_day s limit count date due = take count (due ++ up_to limit (day_times s date)).
Proof.
  intros H. rewrite <-push_all by done. unfold push_day, day_times. generalize (descending (hours s)) as hs. intros hs. clear H. revert due.
  induction hs as [|h hs IH]; intros due; cbn [fold_left flat_map]; [done|]. rewrite fold_left_app, IH. f_equal.
  generalize (descending (minutes s)) as ms. intros ms. revert due. clear. induction ms as [|m ms IH]; intros due; cbn; [done|]. apply IH.
Qed.

Lemma up_to_app limit a b : up_to limit (a ++ b) = up_to limit a ++ up_to limit b.
Proof. apply List.filter_app. Qed.

Lemma search_all s limit count fuel back today due : (length due <= count)%nat ->
  search s limit count fuel back today due = take count (due ++ up_to limit (candidates s today (seq back fuel))).
Proof.
  revert back due. induction fuel as [|fuel IH]; intros back due H; cbn [search seq]; unfold candidates; cbn [flat_map].
  - unfold up_to. cbn. by rewrite app_nil_r, take_ge.
  - fold (candidates s today (seq (S back) fuel)). cbv zeta. rewrite up_to_app, app_assoc. destruct (Nat.ltb_spec (length due) count) as [L|L].
    + destruct (dayMatches s (today - Z.of_nat back * MS_PER_DAY)); [|unfold up_to at 1; cbn; by rewrite app_nil_r, <-IH].
      rewrite push_day_all, IH by (try rewrite length_take; lia). set (x := due ++ _). set (y := up_to _ _).
      destruct (decide (length x <= count)%nat) as [Hx|Hx]; [rewrite (take_ge x) by lia; reflexivity|].
      rewrite (take_app_le (take count x)), (take_app_le x), take_take, Nat.min_id by (rewrite ?length_take; lia). reflexivity.
    + rewrite !take_app_le, take_ge by (rewrite ?length_app; lia). done.
Qed.

(** Newest first. *)
Notation newest_first := (StronglySorted Z.gt).

Lemma sorted_app (a b : list Z) : newest_first a -> newest_first b -> (forall x y, x ∈ a -> y ∈ b -> x > y) -> newest_first (a ++ b).
Proof.
  intros Ha Hb H. induction Ha as [|x a Ha IH Hx]; cbn; [done|]. constructor.
  - apply IH. intros. apply H; [by right|done].
  - apply Forall_app. split; [done|]. apply Forall_forall. intros y Hy. apply H; [by left|done].
Qed.

Lemma sorted_flat_map {A} (R : A -> A -> Prop) (f : A -> list Z) l : StronglySorted R l -> (forall a, a ∈ l -> newest_first (f a)) ->
  (forall a b x y, a ∈ l -> b ∈ l -> R a b -> x ∈ f a -> y ∈ f b -> x > y) -> newest_first (flat_map f l).
Proof.
  induction 1 as [|a l Hl IH Ha]; intros Hs Hb; cbn; [constructor|]. apply sorted_app.
  - apply Hs. by left.
  - apply IH; [intros c Hc; apply Hs; by right|]. intros c d u v Hc Hd. apply (Hb c d u v); by right.
  - intros x y Hx Hy. apply list_elem_of_In, in_flat_map in Hy as (b & Hin & Hy). apply list_elem_of_In in Hin, Hy.
    rewrite Forall_forall in Ha. apply (Hb a b x y); [by left|by right|by apply Ha|done|done].
Qed.

Lemma descending_elem l v : v ∈ descending l <-> v ∈ l.
Proof. unfold descending. by rewrite sort_by_Permutation. Qed.

Lemma descending_sorted l : NoDup l -> newest_first (descending l).
Proof.
  intros Hn. assert (Hs : StronglySorted (fun a b => (b <=? a) = true) (descending l)) by (apply sort_by_sorted; intros; rewrite ?Z.leb_le in *; lia).
  assert (Hd : NoDup (descending l)) by (unfold descending; by rewrite sort_by_Permutation).
  induction Hs as [|x l' Hs IH Hx]; [constructor|]. apply NoDup_cons in Hd as [Hni Hd]. constructor; [by apply IH|].
  rewrite Forall_forall in *. intros y Hy. specialize (Hx y Hy). apply Z.leb_le in Hx. assert (x <> y) by (by intros ->). lia.
Qed.

Lemma up_to_elem limit l t : t ∈ up_to limit l <-> t ∈ l /\ t <= limit.
Proof. unfold up_to. rewrite !list_elem_of_In, filter_In, Z.leb_le. done. Qed.

Lemma up_to_sorted limit l : newest_first l -> newest_first (up_to limit l).
Proof.
  induction 1 as [|x l Hl IH Hx]; unfold up_to; cbn; [constructor|]. fold (up_to limit l). destruct (x <=? limit); [|done]. constructor; [done|].
  rewrite Forall_forall in *. intros y [Hy _]%up_to_elem. by apply Hx.
Qed.

Lemma take_sorted (l : list Z) n x : newest_first l -> x ∈ l -> x ∈ take n l \/ (length (take n l) = n /\ forall y, y ∈ take n l -> y > x).
Proof.
  intros Hs. revert n. induction Hs as [|a l Hl IH Ha]; intros n Hx; [by apply elem_of_nil in Hx|]. destruct n as [|n]; [right; split; [done|]; intros y Hy; by apply elem_of_nil in Hy|].
  cbn [take length]. apply elem_of_cons in Hx as [->|Hx]; [left; by left|]. destruct (IH n Hx) as [?|[El Hy]]; [left; by right|]. right. split; [cbn; lia|].
  intros y [->|Hin]%elem_of_cons; [|by apply Hy]. rewrite Forall_forall in Ha. by apply Ha.
Qed.

Lemma take_elem (l : list Z) n x : x ∈ take n l -> x ∈ l.
Proof. intros [i [Hi _]%lookup_take_Some]%list_elem_of_lookup. by eapply list_elem_of_lookup_2. Qed.

Lemma take_sorted_sub (l : list Z) n : newest_first l -> newest_first (take n l).
Proof.
  intros Hs. revert n. induction Hs as [|a l Hl IH Ha]; intros [|n]; cbn; try constructor; [apply IH|]. rewrite Forall_forall in *. intros y Hy. by eapply Ha, take_elem.
Qed.

(** ** The search finds the latest due minutes *)

Record schedule_ok (s : CronSchedule) : Prop := {
  ok_minutes : NoDup (minutes s);
  ok_hours : NoDup (hours s);
  ok_minute : forall m, m ∈ minutes s -> 0 <= m < 60;
  ok_hour : forall h, h ∈ hours s -> 0 <= h < 24;
}.

Lemma parseCron_ok expression s : parseCron expression = Some s -> schedule_ok s.
Proof.
  unfold parseCron. destruct (Js.split " " expression) as [|m [|h [|d [|mo [|w [|]]]]]]; try done. intros H. simplify_option_eq.
  repeat match goal with E : parseField _ _ = Some _ |- _ => apply parseField_spec in E as (? & _ & ?) end.
  split; cbn [minutes hours]; try done; intros v Hv; match goal with R : forall v, v ∈ ?l -> _ <= v <= field_max ?f, I : _ ∈ ?l |- _ => specialize (R v I); cbn in R; lia end.
Qed.

(** A minute the schedule is due in. *)
Definition due (s : CronSchedule) (t : Z) : Prop := t mod MINUTE_MS = 0 /\ isDueAt s t = true.

Section Due.
Variable s : CronSchedule.
Hypothesis ok : schedule_ok s.

Lemma day_times_elem n t : t ∈ day_times s (n * MS_PER_DAY) <->
  exists h m, h ∈ hours s /\ m ∈ minutes s /\ t = n * MS_PER_DAY + (h * 60 + m) * 60000 + 0 * 1000 + 0.
Proof.
  unfold day_times. rewrite list_elem_of_In, in_flat_map. setoid_rewrite in_map_iff. setoid_rewrite <-list_elem_of_In. setoid_rewrite descending_elem.
  unfold MINUTE_MS. split.
  - intros (h & Hh & m & <- & Hm). exists h, m. split_and!; [done|done|lia].
  - intros (h & m & Hh & Hm & ->). exists h. split; [done|]. exists m. split; [lia|done].
Qed.

Lemma day_times_due n t : t ∈ day_times s (n * MS_PER_DAY) <->
  day t = n /\ t mod MINUTE_MS = 0 /\ getUTCMinutes t ∈ minutes s /\ getUTCHours t ∈ hours s.
Proof.
  rewrite day_times_elem. split.
  - intros (h & m & Hh & Hm & ->). pose proof (ok_hour _ ok h Hh). pose proof (ok_minute _ ok m Hm).
    destruct (fields_time n h m 0 0) as (Ed & Eh & Em & _); [lia..|]. cbv zeta in *. rewrite Ed, Eh, Em. split_and!; [done| |done|done].
    unfold MINUTE_MS, MS_PER_DAY. replace (n * 86400000 + (h * 60 + m) * 60000 + 0 * 1000 + 0) with ((n * 1440 + h * 60 + m) * 60000) by lia. by apply Z.mod_mul.
  - intros (<- & Hmod & Hm & Hh). exists (getUTCHours t), (getUTCMinutes t). split_and!; [done|done|].
    assert (E : t mod 60000 = getUTCSeconds t * 1000 + getUTCMilliseconds t).
    { pose proof (time_fields t) as E. pose proof (field_ranges t) as (? & ? & ? & ?). symmetry.
      apply (Z.mod_unique _ _ (day t * 1440 + getUTCHours t * 60 + getUTCMinutes t)); [lia|]. unfold MS_PER_DAY in E. lia. }
    unfold MINUTE_MS in Hmod. pose proof (time_fields t). pose proof (field_ranges t). lia.
Qed.

Lemma dayMatches_day t : dayMatches s (day t * MS_PER_DAY) = dayMatches s t.
Proof.
  assert (E : day (day t * MS_PER_DAY) = day t) by (rewrite <-(Z.add_0_r (day t * MS_PER_DAY)); apply day_time; unfold MS_PER_DAY; lia).
  unfold dayMatches, getUTCMonth, getUTCDate, getUTCDay. by rewrite E.
Qed.

Lemma candidates_elem n fuel t : t ∈ candidates s (n * MS_PER_DAY) (seq 0 fuel) <-> due s t /\ 0 <= n - day t < Z.of_nat fuel.
Proof.
  unfold candidates, due, isDueAt. rewrite list_elem_of_In, in_flat_map. setoid_rewrite <-list_elem_of_In. setoid_rewrite elem_of_seq.
  rewrite !andb_true_iff, !has_spec. split.
  - intros (b & Hb & Ht). cbv zeta in Ht. replace (n * MS_PER_DAY - Z.of_nat b * MS_PER_DAY) with ((n - Z.of_nat b) * MS_PER_DAY) in Ht by lia.
    destruct (dayMatches s _) eqn:E; [|by apply elem_of_nil in Ht]. apply day_times_due in Ht as (Ed & Hmod & Hm & Hh).
    rewrite <-dayMatches_day, Ed. split_and!; [done|done|done|done|lia|lia].
  - intros ((Hmod & [Hm Hh] & Hd) & Hn). exists (Z.to_nat (n - day t)). split; [lia|]. cbv zeta.
    rewrite Z2Nat.id by lia. replace (n * MS_PER_DAY - (n - day t) * MS_PER_DAY) with (day t * MS_PER_DAY) by lia. rewrite dayMatches_day, Hd.
    by apply day_times_due.
Qed.

Lemma day_times_sorted n : newest_first (day_times s (n * MS_PER_DAY)).
Proof.
  unfold day_times. apply (sorted_flat_map Z.gt); [apply descending_sorted, ok| |].
  - intros h _. pose proof (descending_sorted (minutes s) (ok_minutes _ ok)) as Hs. induction Hs as [|m l Hl IH Hm]; cbn [map]; constructor; [done|].
    rewrite Forall_forall in *. intros t (m' & -> & Hm')%list_elem_of_fmap. specialize (Hm m' Hm'). unfold MINUTE_MS. lia.
  - intros h h' x y Hh Hh' R (m & -> & Hm)%list_elem_of_fmap (m' & -> & Hm')%list_elem_of_fmap.
    rewrite descending_elem in *. pose proof (ok_minute _ ok m Hm). pose proof (ok_minute _ ok m' Hm'). unfold MINUTE_MS. lia.
Qed.

Lemma seq_sorted n k : StronglySorted lt (seq n k).
Proof.
  revert n. induction k as [|k IH]; intros n; cbn; constructor; [apply IH|]. apply Forall_forall. intros x Hx%elem_of_seq. lia.
Qed.

Lemma candidates_sorted n fuel : newest_first (candidates s (n * MS_PER_DAY) (seq 0 fuel)).
Proof.
  unfold candidates. apply (sorted_flat_map lt); [apply seq_sorted| |].
  - intros b _. cbv zeta. replace (n * MS_PER_DAY - Z.of_nat b * MS_PER_DAY) with ((n - Z.of_nat b) * MS_PER_DAY) by lia.
    destruct (dayMatches s _); [apply day_times_sorted|constructor].
  - intros b b' x y _ _ R Hx Hy. cbv zeta in *.
    replace (n * MS_PER_DAY - Z.of_nat b * MS_PER_DAY) with ((n - Z.of_nat b) * MS_PER_DAY) in Hx by lia.
    replace (n * MS_PER_DAY - Z.of_nat b' * MS_PER_DAY) with ((n - Z.of_nat b') * MS_PER_DAY) in Hy by lia.
    destruct (dayMatches s ((n - Z.of_nat b) * _)); [|by apply elem_of_nil in Hx]. destruct (dayMatches s ((n - Z.of_nat b') * _)); [|by apply elem_of_nil in Hy].
    apply day_times_due in Hx as [Ex _], Hy as [Ey _]. unfold day, MS_PER_DAY in *. div_lia.
Qed.

Lemma due_minute_le t at_ : t mod MINUTE_MS = 0 -> t <= at_ / MINUTE_MS * MINUTE_MS <-> t <= at_.
Proof. unfold MINUTE_MS. intros. div_lia. Qed.

End Due.

(** [previousDue] answers exactly the latest minutes a parsed expression is due in, newest first: every answer is a due
    minute at or before the instant, within the five years searched; they come in descending order; and a due minute of
    that window is left out only when [count] later ones were answered. *)
Theorem previousDue_latest (expression : string) (s : CronSchedule) (at_ : Z) (count : nat) :
  parseCron expression = Some s -> 100 <= getUTCFullYear at_ ->
  let l := previousDue s at_ count in
  newest_first l /\ (length l <= count)%nat /\
  (forall t, t ∈ l -> due s t /\ t <= at_ /\ day at_ - day t <= Z.of_nat SEARCH_DAYS) /\
  (forall t, due s t -> t <= at_ -> day at_ - day t <= Z.of_nat SEARCH_DAYS -> t ∈ l \/ (length l = count /\ forall t', t' ∈ l -> t' > t)).
Proof.
  intros Hs%parseCron_ok Hy. cbv zeta. unfold previousDue. rewrite date_utc_civil by done. rewrite search_all by (cbn; lia). rewrite app_nil_l.
  set (cs := candidates s (day at_ * MS_PER_DAY) (seq 0 (S SEARCH_DAYS))).
  assert (Hc : newest_first (up_to (at_ / MINUTE_MS * MINUTE_MS) cs)) by apply up_to_sorted, candidates_sorted, Hs.
  assert (Hin : forall t, t ∈ up_to (at_ / MINUTE_MS * MINUTE_MS) cs <-> due s t /\ t <= at_ /\ 0 <= day at_ - day t <= Z.of_nat SEARCH_DAYS).
  { intros t. rewrite up_to_elem. unfold cs. rewrite candidates_elem by done. split.
    - intros [[Hd Hr] Hle]. rewrite due_minute_le in Hle by apply Hd. split_and!; [done|done|lia|lia].
    - intros (Hd & Hle & Hr). rewrite due_minute_le by apply Hd. split_and!; [done|lia|lia|done]. }
  split_and!; [by apply take_sorted_sub|rewrite length_take; lia| |].
  - intros t Ht. assert (Ht' : t ∈ up_to (at_ / MINUTE_MS * MINUTE_MS) cs) by (by eapply take_elem). apply Hin in Ht' as (Hd & Hle & _ & Hw). done.
  - intros t Hd Hle Hw. apply take_sorted; [done|]. apply Hin. split_and!; [done|done| |done].
    unfold day, MS_PER_DAY. pose proof (Z.div_le_mono t at_ 86400000). lia.
Qed.

Lemma previousDue_latest_witness :
  exists s, parseCron "*/15 8-18 * * 1-5" = Some s /\ previousDue s 1767225600000 2 = [1767206700000; 1767205800000]
    /\ forall t, t ∈ previousDue s 1767225600000 2 -> due s t.
Proof.
  destruct (parseCron "*/15 8-18 * * 1-5") as [s|] eqn:E; [|by vm_compute in E]. exists s. split; [done|].
  destruct (previousDue_latest "*/15 8-18 * * 1-5" s 1767225600000 2 E) as (_ & _ & Hdue & _); [by vm_compute|].
  split; [|intros t Ht; by apply Hdue]. vm_compute in E. injection E as <-. by vm_compute.
Defined.
