(* ===== verification/Temporal.v ===== *)
(** Days and timestamps at the data layer's boundary ([db/src/temporal.ts]): the text a write may bind, and the text SQLite
    stores, whose order is time order.

    A refusal is [None]; where it happened (the [where] of a message) is left out. An instant is its milliseconds, and [None]
    for the time of an invalid [Date]. *)

From S2P Require Import Prelude Calendar Json.
From Stdlib Require Import ZArith Lia String Ascii.
From stdpp Require Import base tactics strings list.

Open Scope Z_scope.

(** ** Text of numbers *)

Definition digit (d : Z) : ascii := ascii_of_nat (48 + Z.to_nat d).

(** [n] in [k] digits. *)
Fixpoint pad (k : nat) (n : Z) : string :=
  match k with O => "" | S k => pad k (n / 10) +:+ String (digit (n mod 10)) "" end.

(** [Date#toISOString()] *)
Definition toISOString (t : Z) : string :=
  let y := getUTCFullYear t in
  let year := if (0 <=? y) && (y <=? 9999) then pad 4 y else (if y <? 0 then "-" else "+") +:+ pad 6 (Z.abs y) in
  year +:+ "-" +:+ pad 2 (getUTCMonth t + 1) +:+ "-" +:+ pad 2 (getUTCDate t) +:+ "T" +:+ pad 2 (getUTCHours t) +:+ ":"
  +:+ pad 2 (getUTCMinutes t) +:+ ":" +:+ pad 2 (getUTCSeconds t) +:+ "." +:+ pad 3 (getUTCMilliseconds t) +:+ "Z".

(** ** Regular expressions, as readers *)

(** [[0-9]{k}], its value, and the rest. *)
Fixpoint digits (k : nat) (acc : Z) (s : string) : option (Z * string) :=
  match k with
  | O => Some (acc, s)
  | S k => match s with
           | String c rest => if Js.is_digit c then digits k (acc * 10 + Z.of_nat (Js.code c - 48)) rest else None
           | EmptyString => None
           end
  end.

Definition unit_ (c : ascii) (s : string) : option string :=
  match s with String d rest => if Ascii.eqb c d then Some rest else None | EmptyString => None end.

(** [[0-9]{4}-[0-9]{2}-[0-9]{2}], read off the front. *)
Definition day_front (s : string) : option (Z * Z * Z * string) :=
  '(year, s) ← digits 4 0 s; s ← unit_ "-" s; '(month, s) ← digits 2 0 s; s ← unit_ "-" s; '(day, s) ← digits 2 0 s;
  Some (year, month, day, s).

Definition DAY_TEXT (s : string) : bool := match day_front s with Some (_, _, _, rest) => (rest =? "")%string | None => false end.

(** Up to [k] digits: how many, their value and the rest. *)
Fixpoint some_digits (k : nat) (n : nat) (acc : Z) (s : string) : nat * Z * string :=
  match k, s with
  | S k, String c rest => if Js.is_digit c then some_digits k (S n) (acc * 10 + Z.of_nat (Js.code c - 48)) rest else (n, acc, s)
  | _, _ => (n, acc, s)
  end.

(** [fraction.padEnd(3, '0').slice(0, 3)] of [n] digits of value [v]. *)
Definition milliseconds (n : nat) (v : Z) : Z := if (n <=? 3)%nat then v * 10 ^ Z.of_nat (3 - n) else v / 10 ^ Z.of_nat (n - 3).

(** [(?::([0-9]{2})(?:\.([0-9]{1,6}))?)?]: the second and the milliseconds. *)
Definition seconds_front (s : string) : option (Z * Z * string) :=
  match unit_ ":" s with
  | None => Some (0, 0, s)
  | Some s =>
      '(second, s) ← digits 2 0 s;
      match unit_ "." s with
      | None => Some (second, 0, s)
      | Some s => let '(n, v, s) := some_digits 6 0 0 s in if (0 <? n)%nat then Some (second, milliseconds n v, s) else None
      end
  end.

(** [(?:Z|([+-])([0-9]{2}):([0-9]{2}))]: whether behind, hours and minutes. *)
Definition zone_front (s : string) : option (bool * Z * Z * string) :=
  match unit_ "Z" s with
  | Some s => Some (false, 0, 0, s)
  | None =>
      '(behind, s) ← match unit_ "+" s with Some s => Some (false, s) | None => pair true <$> unit_ "-" s end;
      '(hour, s) ← digits 2 0 s; s ← unit_ ":" s; '(minute, s) ← digits 2 0 s;
      Some (behind, hour, minute, s)
  end.

Record Timestamp := mkTimestamp {
  ts_year : Z; ts_month : Z; ts_day : Z; ts_hour : Z; ts_minute : Z; ts_second : Z; ts_ms : Z;
  ts_behind : bool; ts_offsetHour : Z; ts_offsetMinute : Z;
}.

Definition TIMESTAMP_TEXT (s : string) : option Timestamp :=
  '(year, month, day, s) ← day_front s; s ← unit_ "T" s;
  '(hour, s) ← digits 2 0 s; s ← unit_ ":" s; '(minute, s) ← digits 2 0 s;
  '(second, ms, s) ← seconds_front s;
  '(behind, offsetHour, offsetMinute, s) ← zone_front s;
  if (s =? "")%string then Some (mkTimestamp year month day hour minute second ms behind offsetHour offsetMinute) else None.

(** [[0-9]{4}-…T…:…:….[0-9]{3}Z] *)
Definition STORED_TIMESTAMP (s : string) : bool :=
  is_some (
    '(_, _, _, s) ← day_front s; s ← unit_ "T" s; '(_, s) ← digits 2 0 s; s ← unit_ ":" s; '(_, s) ← digits 2 0 s; s ← unit_ ":" s;
    '(_, s) ← digits 2 0 s; s ← unit_ "." s; '(_, s) ← digits 3 0 s; s ← unit_ "Z" s; if (s =? "")%string then Some tt else None).

(** ** The operations *)

Definition isCalendarDay (year month day : Z) : bool :=
  let date := date_utc year (month - 1) day in
  (1 <=? year) && (getUTCFullYear date =? year) && (getUTCMonth date =? month - 1) && (getUTCDate date =? day).

(** A day's value read by the layer: the database's text, or a decoded [Date]. *)
Inductive DayValue := DayText (s : string) | DayDate (time : option Z).

Definition dayText (value : DayValue) : option string :=
  match value with
  | DayText s => if DAY_TEXT s then Some s else None
  | DayDate None => None
  | DayDate (Some time) =>
      let year := getUTCFullYear time in
      if negb (time mod MS_PER_DAY =? 0) || (year <? 1) || (9999 <? year) then None else Some (Js.take 10 (toISOString time))
  end.

Definition dayInput (value : string) : option string :=
  match day_front value with
  | Some (year, month, day, rest) => if DAY_TEXT value && isCalendarDay year month day then Some value else None
  | None => None
  end.

Definition instantOf (value : string) : option Z :=
  m ← TIMESTAMP_TEXT value;
  if negb (isCalendarDay (ts_year m) (ts_month m) (ts_day m) && (ts_hour m <? 24) && (ts_minute m <? 60) && (ts_second m <? 60)
           && (ts_offsetHour m <? 16) && (ts_offsetMinute m <? 60)) then None
  else
    (** [setUTCFullYear], then [setUTCHours]. *)
    let date := make_day (ts_year m) (ts_month m - 1) (ts_day m) * MS_PER_DAY + (ts_hour m * 60 + ts_minute m) * 60000 + ts_second m * 1000 + ts_ms m in
    let offset := (ts_offsetHour m * 60 + ts_offsetMinute m) * 60000 in
    Some (date - (if ts_behind m then - offset else offset)).

Definition timestampInput (value : string) : option string := if is_some (instantOf value) then Some value else None.

(** A timestamp a write or a comparison binds: text, or a [Date]. *)
Inductive TimeValue := TimeText (s : string) | TimeDate (time : option Z).

(** [None] is the refusal of text that is no timestamp; [Some None] is [NaN]. *)
Definition time_of (value : TimeValue) : option (option Z) :=
  match value with TimeText s => Some <$> instantOf s | TimeDate t => Some t end.

Definition storedTimestamp (value : TimeValue) : option string :=
  time ← time_of value;
  let text := match time with None => "" | Some t => toISOString t end in
  if STORED_TIMESTAMP text then Some text else None.

Example stored_with_offset : storedTimestamp (TimeText "2026-10-12T10:30+02:00") = Some "2026-10-12T08:30:00.000Z".
Proof. by vm_compute. Qed.

Example no_such_day : dayInput "2026-02-29" = None /\ dayInput "2024-02-29" = Some "2024-02-29" /\ timestampInput "2026-10-12" = None.
Proof. by vm_compute. Qed.

(** A day of the first century is answered by a read and refused by a write: [Date.UTC] takes its year for one of the
    twentieth century. *)
Example first_century_refused : dayText (DayDate (Some (-62135596800000))) = Some "0001-01-01" /\ dayInput "0001-01-01" = None.
Proof. by vm_compute. Qed.

(** ** The order of padded numbers *)

Lemma digit_compare a b : 0 <= a < 10 -> 0 <= b < 10 -> Ascii.compare (digit a) (digit b) = (a ?= b).
Proof.
  intros Ha Hb. assert (Hd : forall x, 0 <= x < 10 -> x = 0 \/ x = 1 \/ x = 2 \/ x = 3 \/ x = 4 \/ x = 5 \/ x = 6 \/ x = 7 \/ x = 8 \/ x = 9) by lia.
  apply Hd in Ha, Hb. by repeat (destruct Ha as [->|Ha] || subst a); repeat (destruct Hb as [->|Hb] || subst b).
Qed.

(** Comparing digit by digit compares the numbers, then what follows. *)
Lemma pad_compare k a b s t : 0 <= a < 10 ^ Z.of_nat k -> 0 <= b < 10 ^ Z.of_nat k ->
  String.compare (pad k a +:+ s) (pad k b +:+ t) = match a ?= b with Eq => String.compare s t | c => c end.
Proof.
  revert a b s t. induction k as [|k IH]; intros a b s t Ha Hb.
  - change (10 ^ Z.of_nat 0) with 1 in *. replace a with 0 by lia. by replace b with 0 by lia.
  - rewrite Nat2Z.inj_succ, Z.pow_succ_r in Ha, Hb by lia. cbn [pad]. rewrite <-!str_app_assoc, IH by div_lia. cbn [String.append String.compare].
    pose proof (Z.mod_pos_bound a 10). pose proof (Z.mod_pos_bound b 10). rewrite digit_compare by lia.
    pose proof (Z.div_mod a 10). pose proof (Z.div_mod b 10).
    destruct (Z.compare_spec (a / 10) (b / 10)), (Z.compare_spec (a mod 10) (b mod 10)), (Z.compare_spec a b); (done || lia).
Qed.

Lemma compare_same c s t : String.compare (String c s) (String c t) = String.compare s t.
Proof.
  cbn [String.compare]. replace (Ascii.compare c c) with Eq; [done|]. unfold Ascii.compare. by rewrite N.compare_refl.
Qed.

(** ** Time order of the fields *)

Lemma year_mono d d' : d <= d' -> year_from_day d <= year_from_day d'.
Proof.
  intros. pose proof (year_from_day_spec d). pose proof (year_from_day_spec d'). destruct (Z.le_gt_cases (year_from_day d) (year_from_day d')); [done|].
  pose proof (day_from_year_mono (year_from_day d' + 1) (year_from_day d)). lia.
Qed.

Lemma month_start_mono l m m' : 0 <= l -> 1 <= m -> m < m' -> m' <= 13 -> month_start l (m + 1) <= month_start l m'.
Proof.
  intros Hl Hm Hlt Hm'. pose proof (month_starts l).
  assert (Hr : forall x, 1 <= x <= 13 -> x = 1 \/ x = 2 \/ x = 3 \/ x = 4 \/ x = 5 \/ x = 6 \/ x = 7 \/ x = 8 \/ x = 9 \/ x = 10 \/ x = 11 \/ x = 12 \/ x = 13) by lia.
  destruct (Hr m) as [?|?]; [lia|subst m|]; destruct (Hr m') as [?|?]; try lia;
    repeat match goal with H : _ \/ _ |- _ => destruct H end; subst; next_month; lia.
Qed.

(** The fields of a day, most significant first. *)
Lemma date_order d d' : d < d' ->
  year_from_day d < year_from_day d' \/ (year_from_day d = year_from_day d' /\
    (month_from_day d < month_from_day d' \/ (month_from_day d = month_from_day d' /\ date_from_day d < date_from_day d'))).
Proof.
  intros Hd. pose proof (year_mono d d' ltac:(lia)). destruct (decide (year_from_day d = year_from_day d')) as [Ey|N]; [|left; lia]. right. split; [done|].
  destruct (civil_day d) as (Hm & Hdd & E), (civil_day d') as (Hm' & Hdd' & E'). rewrite <-Ey in *. pose proof (leap_range (year_from_day d)) as Hl.
  unfold month_length in *. destruct (Z.lt_trichotomy (month_from_day d) (month_from_day d')) as [L|[Em|L]]; [by left|right|exfalso].
  - split; [done|]. rewrite Em in *. lia.
  - pose proof (month_start_mono (leap (year_from_day d)) (month_from_day d') (month_from_day d)). lia.
Qed.

(** The text of an instant, where the year has four digits. *)
Definition iso_fields (y mo d h mi s ms : Z) : string :=
  pad 4 y +:+ "-" +:+ pad 2 mo +:+ "-" +:+ pad 2 d +:+ "T" +:+ pad 2 h +:+ ":" +:+ pad 2 mi +:+ ":" +:+ pad 2 s +:+ "." +:+ pad 3 ms +:+ "Z".

Definition four_digits (t : Z) : Prop := 0 <= getUTCFullYear t <= 9999.

Lemma iso_text t : four_digits t -> toISOString t =
  iso_fields (getUTCFullYear t) (month_from_day (day t)) (date_from_day (day t)) (getUTCHours t) (getUTCMinutes t) (getUTCSeconds t) (getUTCMilliseconds t).
Proof.
  intros [H1 H2]. unfold toISOString. apply Z.leb_le in H1, H2. rewrite H1, H2. cbn [andb]. unfold getUTCMonth, getUTCDate.
  by replace (month_from_day (day t) - 1 + 1) with (month_from_day (day t)) by lia.
Qed.

Lemma date_range d : 1 <= month_from_day d <= 12 /\ 1 <= date_from_day d <= 31.
Proof.
  destruct (civil_day d) as (Hm & Hd & _). split; [done|]. unfold month_length in Hd. pose proof (leap_range (year_from_day d)).
  pose proof (month_starts (leap (year_from_day d))).
  assert (Hr : forall x, 1 <= x <= 12 -> x = 1 \/ x = 2 \/ x = 3 \/ x = 4 \/ x = 5 \/ x = 6 \/ x = 7 \/ x = 8 \/ x = 9 \/ x = 10 \/ x = 11 \/ x = 12) by lia.
  destruct (Hr _ Hm) as [E|E]; [|repeat destruct E as [E|E]]; rewrite E in Hd; next_month; lia.
Qed.

Lemma iso_fields_compare y mo d h mi s ms y' mo' d' h' mi' s' ms' :
  0 <= y <= 9999 -> 0 <= y' <= 9999 -> 0 <= mo < 100 -> 0 <= mo' < 100 -> 0 <= d < 100 -> 0 <= d' < 100 -> 0 <= h < 100 -> 0 <= h' < 100 ->
  0 <= mi < 100 -> 0 <= mi' < 100 -> 0 <= s < 100 -> 0 <= s' < 100 -> 0 <= ms < 1000 -> 0 <= ms' < 1000 ->
  String.compare (iso_fields y mo d h mi s ms) (iso_fields y' mo' d' h' mi' s' ms') =
  match y ?= y' with Eq => match mo ?= mo' with Eq => match d ?= d' with Eq => match h ?= h' with Eq => match mi ?= mi' with Eq =>
    match s ?= s' with Eq => match ms ?= ms' with Eq => Eq | c => c end | c => c end | c => c end | c => c end | c => c end | c => c end | c => c end.
Proof.
  intros. unfold iso_fields. repeat (rewrite pad_compare by (change (10 ^ Z.of_nat 2) with 100 || change (10 ^ Z.of_nat 3) with 1000 || change (10 ^ Z.of_nat 4) with 10000; lia); cbn [String.append]; rewrite ?compare_same).
  done.
Qed.

(** Later instants have later text. *)
Lemma iso_increasing t t' : four_digits t -> four_digits t' -> t < t' -> String.compare (toISOString t) (toISOString t') = Lt.
Proof.
  intros H H' Hlt. rewrite !iso_text by done. unfold four_digits, getUTCFullYear in *.
  pose proof (date_range (day t)). pose proof (date_range (day t')). pose proof (field_ranges t). pose proof (field_ranges t').
  rewrite iso_fields_compare by lia. pose proof (time_fields t). pose proof (time_fields t'). unfold MS_PER_DAY in *.
  assert (Hd : day t < day t' \/ day t = day t') by lia. destruct Hd as [Hd|Hd].
  - pose proof (date_order _ _ Hd). destruct (Z.compare_spec (year_from_day (day t)) (year_from_day (day t'))); [|done|lia].
    destruct (Z.compare_spec (month_from_day (day t)) (month_from_day (day t'))); [|done|lia].
    destruct (Z.compare_spec (date_from_day (day t)) (date_from_day (day t'))); (done || lia).
  - rewrite Hd, !Z.compare_refl. destruct (Z.compare_spec (getUTCHours t) (getUTCHours t')); [|done|lia].
    destruct (Z.compare_spec (getUTCMinutes t) (getUTCMinutes t')); [|done|lia]. destruct (Z.compare_spec (getUTCSeconds t) (getUTCSeconds t')); [|done|lia].
    destruct (Z.compare_spec (getUTCMilliseconds t) (getUTCMilliseconds t')); (done || lia).
Qed.

(** ** Reading back *)

Lemma digits_snoc k acc s v c rest : digits k acc s = Some (v, String c rest) -> Js.is_digit c = true ->
  digits (S k) acc s = Some (v * 10 + Z.of_nat (Js.code c - 48), rest).
Proof.
  revert acc s. induction k as [|k IH]; intros acc s.
  - intros [= <- ->] Hc. cbn. by rewrite Hc.
  - cbn [digits]. destruct s as [|x s]; [done|]. destruct (Js.is_digit x); [|done]. apply IH.
Qed.

Lemma digit_reads d : 0 <= d < 10 -> Js.is_digit (digit d) = true /\ Z.of_nat (Js.code (digit d) - 48) = d.
Proof.
  intros Hd. assert (Hx : d = 0 \/ d = 1 \/ d = 2 \/ d = 3 \/ d = 4 \/ d = 5 \/ d = 6 \/ d = 7 \/ d = 8 \/ d = 9) by lia.
  by repeat (destruct Hx as [->|Hx] || subst d).
Qed.

Lemma digits_pad k acc n s : 0 <= n < 10 ^ Z.of_nat k -> digits k acc (pad k n +:+ s) = Some (acc * 10 ^ Z.of_nat k + n, s).
Proof.
  revert n s. induction k as [|k IH]; intros n s Hn.
  - change (10 ^ Z.of_nat 0) with 1 in *. cbn. f_equal. f_equal. lia.
  - rewrite Nat2Z.inj_succ, Z.pow_succ_r in * by lia. pose proof (Z.mod_pos_bound n 10). cbn [pad]. rewrite <-str_app_assoc. cbn [String.append].
    destruct (digit_reads (n mod 10)) as [Hd Hv]; [lia|]. erewrite digits_snoc; [|apply IH; div_lia|done]. rewrite Hv. f_equal. f_equal. pose proof (Z.div_mod n 10). lia.
Qed.

(** Reads one field of [iso_fields]. *)
Ltac read_field :=
  rewrite digits_pad by (change (10 ^ Z.of_nat 2) with 100 || change (10 ^ Z.of_nat 3) with 1000 || change (10 ^ Z.of_nat 4) with 10000; lia);
  rewrite Z.mul_0_l, Z.add_0_l; cbn [mbind option_bind String.append unit_ Ascii.eqb Bool.eqb].

Lemma some_digits_pad ms s : 0 <= ms < 1000 -> some_digits 6 0 0 (pad 3 ms +:+ String "Z" s) = (3%nat, ms, String "Z" s).
Proof.
  intros H. cbn [pad]. rewrite <-!str_app_assoc. cbn [String.append].
  assert (H1 : 0 <= ms mod 10 < 10) by (by apply Z.mod_pos_bound). assert (H2 : 0 <= (ms / 10) mod 10 < 10) by (by apply Z.mod_pos_bound).
  assert (H3 : 0 <= (ms / 10 / 10) mod 10 < 10) by (by apply Z.mod_pos_bound).
  destruct (digit_reads _ H1) as [E1 V1], (digit_reads _ H2) as [E2 V2], (digit_reads _ H3) as [E3 V3].
  cbn [some_digits]. rewrite E1, E2, E3, V1, V2, V3. change (Js.is_digit "Z") with false. cbv iota. f_equal. f_equal. div_lia.
Qed.

Lemma iso_reads y mo d h mi s ms : 0 <= y <= 9999 -> 0 <= mo < 100 -> 0 <= d < 100 -> 0 <= h < 100 -> 0 <= mi < 100 -> 0 <= s < 100 -> 0 <= ms < 1000 ->
  TIMESTAMP_TEXT (iso_fields y mo d h mi s ms) = Some (mkTimestamp y mo d h mi s ms false 0 0)
  /\ STORED_TIMESTAMP (iso_fields y mo d h mi s ms) = true.
Proof.
  intros. unfold iso_fields, TIMESTAMP_TEXT, STORED_TIMESTAMP, day_front. split.
  - repeat read_field. unfold seconds_front. cbn [unit_ Ascii.eqb Bool.eqb]. read_field. rewrite some_digits_pad by lia. cbn [Nat.ltb Nat.leb mbind option_bind].
    unfold milliseconds. cbn [Nat.leb Nat.sub]. change (10 ^ Z.of_nat 0) with 1. rewrite Z.mul_1_r. done.
  - repeat read_field. done.
Qed.

(** ** Days of the calendar *)

Lemma midnight n : day (n * MS_PER_DAY) = n.
Proof. rewrite <-(Z.add_0_r (n * MS_PER_DAY)). apply day_time. unfold MS_PER_DAY. lia. Qed.

Lemma make_day_civil y m d : 1 <= m <= 12 -> make_day y (m - 1) d = day_from_year y + month_start (leap y) m + d - 1.
Proof. intros. unfold make_day. rewrite (Z.div_small (m - 1)), (Z.mod_small (m - 1)) by lia. rewrite Z.add_0_r. by replace (m - 1 + 1) with m by lia. Qed.

Lemma month_start_nonneg l m : 0 <= l -> 1 <= m <= 12 -> 0 <= month_start l m.
Proof.
  intros Hl Hm. unfold month_start. repeat match goal with |- context [if ?b then _ else _] => destruct b end; lia.
Qed.

Lemma isCalendarDay_fields y m d n : make_day (if (0 <=? y) && (y <=? 99) then 1900 + y else y) (m - 1) d = n ->
  isCalendarDay y m d = true <-> 1 <= y /\ year_from_day n = y /\ month_from_day n = m /\ date_from_day n = d.
Proof.
  intros E. unfold isCalendarDay, date_utc. rewrite E. unfold getUTCFullYear, getUTCMonth, getUTCDate. rewrite midnight.
  rewrite !andb_true_iff, Z.leb_le, !Z.eqb_eq. lia.
Qed.

(** [isCalendarDay] is the calendar, from the year 100 on. *)
Lemma isCalendarDay_spec y m d : 0 <= y ->
  isCalendarDay y m d = true <-> 100 <= y /\ 1 <= m <= 12 /\ 1 <= d <= month_length (leap y) m.
Proof.
  intros Hy. destruct (Z.leb_spec y 99) as [L|L].
  - split; [|lia]. intros H. eapply isCalendarDay_fields in H; [|reflexivity]. rewrite (proj2 (Z.leb_le 0 y)), (proj2 (Z.leb_le y 99)) in H by lia.
    cbn [andb] in H. destruct H as (_ & Ey & Em & Ed). destruct (civil_day (make_day (1900 + y) (m - 1) d)) as (Hm & Hd & _).
    rewrite Ey, Em, Ed in *. pose proof (year_from_day_spec (make_day (1900 + y) (m - 1) d)) as Hs. rewrite Ey, make_day_civil in Hs by lia.
    pose proof (month_start_nonneg (leap (1900 + y)) m (proj1 (leap_range _)) Hm). pose proof (day_from_year_mono (y + 1) (1900 + y)). lia.
  - assert (E : make_day (if (0 <=? y) && (y <=? 99) then 1900 + y else y) (m - 1) d = make_day y (m - 1) d).
    { by rewrite (proj2 (Z.leb_gt y 99)), andb_false_r by lia. }
    rewrite (isCalendarDay_fields _ _ _ _ E). split.
    + intros (_ & Ey & Em & Ed). destruct (civil_day (make_day y (m - 1) d)) as (Hm & Hd & _). rewrite Ey, Em, Ed in *. lia.
    + intros (_ & Hm & Hd). rewrite make_day_civil by done. destruct (day_civil y m d) as (E1 & E2 & E3); [done|done|]. cbv zeta in *. split_and!; [lia|done..].
Qed.

(** ** Stored timestamps *)

Lemma pad_length k n : String.length (pad k n) = k.
Proof. revert n. induction k as [|k IH]; intros n; cbn [pad]; [done|]. rewrite str_length_app, IH. cbn. lia. Qed.

(** Only a four-digit year is stored: the text of any other year is longer. *)
Lemma stored_four_digits t : STORED_TIMESTAMP (toISOString t) = true <-> four_digits t.
Proof.
  split.
  - intros H. unfold four_digits. destruct (decide (0 <= getUTCFullYear t <= 9999)) as [|N]; [done|exfalso]. unfold toISOString in H.
    replace ((0 <=? getUTCFullYear t) && (getUTCFullYear t <=? 9999)) with false in H by (symmetry; apply andb_false_iff; rewrite !Z.leb_gt; lia).
    unfold STORED_TIMESTAMP, day_front in H. rewrite <-!str_app_assoc in H. destruct (getUTCFullYear t <? 0); cbn in H; done.
  - intros H. rewrite iso_text by done. unfold four_digits in H. pose proof (date_range (day t)). pose proof (field_ranges t). apply iso_reads; lia.
Qed.

Lemma storedTimestamp_text value text : storedTimestamp value = Some text <-> exists t, time_of value = Some (Some t) /\ four_digits t /\ text = toISOString t.
Proof.
  unfold storedTimestamp. destruct (time_of value) as [[t|]|]; cbn [mbind option_bind].
  - destruct (STORED_TIMESTAMP (toISOString t)) eqn:E; split.
    + intros [= <-]. exists t. split; [done|]. split; [by apply stored_four_digits|done].
    + by intros (t' & [= ->] & _ & ->).
    + done.
    + intros (t' & [= ->] & H%stored_four_digits & _). congruence.
  - split; [done|]. by intros (t & ? & _).
  - split; [done|]. by intros (t & ? & _).
Qed.

Lemma compare_eq s : String.compare s s = Eq.
Proof. induction s as [|c s IH]; [done|]. by rewrite compare_same. Qed.

(** A stored timestamp is sortable text: of two instants SQLite stores, the earlier has the smaller text, code unit by
    code unit, and equal texts are one instant; from the year 100 on the text reads back as the instant it was written for.
    An instant outside the years 0000 to 9999 is refused. *)
Theorem storedTimestamp_sorts (a b : TimeValue) (x y : Z) (text text' : string) :
  time_of a = Some (Some x) -> time_of b = Some (Some y) -> storedTimestamp a = Some text -> storedTimestamp b = Some text' ->
  (String.compare text text' = (x ?= y)) /\ (100 <= getUTCFullYear x -> instantOf text = Some x) /\ four_digits x.
Proof.
  intros Ha Hb (t & Et & Ht & ->)%storedTimestamp_text (t' & Et' & Ht' & ->)%storedTimestamp_text. rewrite Ha in Et. rewrite Hb in Et'. simplify_eq.
  split_and!; [|intros Hy|done].
  - destruct (Z.compare_spec t t') as [->|L|L]; [|by apply iso_increasing|].
    + apply compare_eq.
    + rewrite String.compare_antisym, iso_increasing by done. done.
  - rewrite iso_text by done. unfold four_digits in Ht. pose proof (date_range (day t)). pose proof (field_ranges t).
    destruct (iso_reads (getUTCFullYear t) (month_from_day (day t)) (date_from_day (day t)) (getUTCHours t) (getUTCMinutes t) (getUTCSeconds t)
      (getUTCMilliseconds t)) as [Hread _]; [lia..|]. unfold instantOf. rewrite Hread. cbn [mbind option_bind].
    cbn [ts_year ts_month ts_day ts_hour ts_minute ts_second ts_ms ts_behind ts_offsetHour ts_offsetMinute].
    destruct (civil_day (day t)) as (Hm & Hd & E).
    rewrite (proj2 (isCalendarDay_spec (getUTCFullYear t) _ _ ltac:(lia))) by (unfold getUTCFullYear in *; done).
    replace (getUTCHours t <? 24) with true by (symmetry; apply Z.ltb_lt; lia). replace (getUTCMinutes t <? 60) with true by (symmetry; apply Z.ltb_lt; lia).
    replace (getUTCSeconds t <? 60) with true by (symmetry; apply Z.ltb_lt; lia). cbn [andb negb Z.ltb Z.compare].
    f_equal. rewrite make_day_civil by done. unfold getUTCFullYear. pose proof (time_fields t). unfold MS_PER_DAY in *. lia.
Qed.

Lemma storedTimestamp_sorts_witness :
  String.compare "2026-10-12T08:30:00.000Z" "2026-10-12T08:30:00.001Z" = Lt /\ instantOf "2026-10-12T08:30:00.000Z" = Some 1791793800000.
Proof.
  destruct (storedTimestamp_sorts (TimeText "2026-10-12T10:30+02:00") (TimeDate (Some 1791793800001)) 1791793800000 1791793800001
    "2026-10-12T08:30:00.000Z" "2026-10-12T08:30:00.001Z") as (Hc & Hr & _); [by vm_compute..|].
  split; [rewrite Hc; by vm_compute|apply Hr; by vm_compute].
Defined.

(** A day a write takes is its own text, a day of the calendar from the year 100 on. *)
Lemma dayInput_spec value text : dayInput value = Some text ->
  text = value /\ exists y m d, day_front value = Some (y, m, d, "") /\ 100 <= y /\ 1 <= m <= 12 /\ 1 <= d <= month_length (leap y) m.
Proof.
  unfold dayInput, DAY_TEXT. destruct (day_front value) as [[[[y m] d] rest]|] eqn:E; [|done]. destruct (String.eqb_spec rest "") as [->|]; [|done].
  cbn [andb]. destruct (isCalendarDay y m d) eqn:C; [|done]. intros [= <-]. split; [done|]. exists y, m, d. split; [done|].
  assert (0 <= y).
  { unfold isCalendarDay in C. cbv zeta in C. to_prop. lia. }
  by apply isCalendarDay_spec.
Qed.
