(* ===== verification/Shapes.v ===== *)
(** What a contract's schema admits: [SchemaShape] of [auth-core/src/contract.ts], its canonical form
    ([canonicalShape] of [contract-canonical.ts]) and the values a shape admits.

    [admits] is the meaning the comments of [SchemaShape] give it; the checks zod runs on one scalar are the class
    [ZodChecks]. *)

From S2P Require Import Prelude Json.
From Stdlib Require Import ZArith Lia String Ascii.
From stdpp Require Import base tactics strings gmap list.

Record StringShape := mkStringShape {
  s_format : option string;
  s_minLength : option Z;
  s_maxLength : option Z;
  s_pattern : option string;
  s_startsWith : option string;
  s_endsWith : option string;
  s_includes : option string;
}.

(** A finite double, [m * 2 ^ e]: the reader of an artifact takes no other number. *)
Definition finite : Type := Z * Z.

Record NumberShape := mkNumberShape {
  n_int : bool;
  n_min : option finite;
  n_exclusiveMin : bool;
  n_max : option finite;
  n_exclusiveMax : bool;
  n_multipleOf : option finite;
}.

(** The scalar of a [literal]. *)
Inductive scalar := LitStr (s : string) | LitNum (n : finite) | LitBool (b : bool) | LitNull.

Inductive SchemaShape :=
| SString (s : StringShape)
| SNumber (n : NumberShape)
| SBoolean
| SNull
| SLiteral (value : scalar)
| SEnum (values : list string)
| SArray (items : SchemaShape) (minItems maxItems : option Z)
| STuple (items : list SchemaShape) (rest : option SchemaShape)
| SRecord (key value : SchemaShape)
| SObject (fields : list (string * SchemaShape))
| SOptional (inner : SchemaShape)
| SNullable (inner : SchemaShape)
| SUnion (options : list SchemaShape)
| SToken (purpose : string)
| SFile (kind : string).

(** ** As JSON *)

Definition opt_json {A} (f : A -> json) (o : option A) : json := match o with Some a => f a | None => JNull end.
Definition int_json (z : Z) : json := JNum (NFinite z 0).
Definition finite_json (x : finite) : json := JNum (NFinite x.1 x.2).

(** The one normal form of a finite number. *)
Definition normal_finite (x : finite) : finite := default (0, 0)%Z (num_normal (NFinite x.1 x.2)).

Definition scalar_json (v : scalar) : json :=
  match v with LitStr s => JStr s | LitNum n => finite_json n | LitBool b => JBool b | LitNull => JNull end.

Definition typed (type : string) (fields : list (string * json)) : json := JObj (("type", JStr type) :: fields).

Fixpoint shape_json (s : SchemaShape) : json :=
  match s with
  | SString s => typed "string"
      [ ("format", opt_json JStr (s_format s)); ("minLength", opt_json int_json (s_minLength s));
        ("maxLength", opt_json int_json (s_maxLength s)); ("pattern", opt_json JStr (s_pattern s));
        ("startsWith", opt_json JStr (s_startsWith s)); ("endsWith", opt_json JStr (s_endsWith s));
        ("includes", opt_json JStr (s_includes s)) ]
  | SNumber n => typed "number"
      [ ("int", JBool (n_int n)); ("min", opt_json finite_json (n_min n)); ("exclusiveMin", JBool (n_exclusiveMin n));
        ("max", opt_json finite_json (n_max n)); ("exclusiveMax", JBool (n_exclusiveMax n)); ("multipleOf", opt_json finite_json (n_multipleOf n)) ]
  | SBoolean => typed "boolean" []
  | SNull => typed "null" []
  | SLiteral v => typed "literal" [("value", scalar_json v)]
  | SEnum values => typed "enum" [("values", JArr (map JStr values))]
  | SArray items minItems maxItems => typed "array"
      [("items", shape_json items); ("minItems", opt_json int_json minItems); ("maxItems", opt_json int_json maxItems)]
  | STuple items rest => typed "tuple"
      [("items", JArr (map shape_json items)); ("rest", match rest with Some r => shape_json r | None => JNull end)]
  | SRecord key value => typed "record" [("key", shape_json key); ("value", shape_json value)]
  | SObject fields => typed "object" [("fields", JObj (map (fun field => (field.1, shape_json field.2)) fields))]
  | SOptional inner => typed "optional" [("inner", shape_json inner)]
  | SNullable inner => typed "nullable" [("inner", shape_json inner)]
  | SUnion options => typed "union" [("options", JArr (map shape_json options))]
  | SToken purpose => typed "token" [("purpose", JStr purpose)]
  | SFile kind => typed "file" [("kind", JStr kind)]
  end.

(** [canonicalShape]: enum values sorted; tuple items and union options keep their order. *)
Fixpoint canonicalShape (s : SchemaShape) : SchemaShape :=
  match s with
  | SEnum values => SEnum (sort_by code_unit_le values)
  | SArray items minItems maxItems => SArray (canonicalShape items) minItems maxItems
  | STuple items rest => STuple (map canonicalShape items) (match rest with Some r => Some (canonicalShape r) | None => None end)
  | SRecord key value => SRecord (canonicalShape key) (canonicalShape value)
  | SObject fields => SObject (map (fun field => (field.1, canonicalShape field.2)) fields)
  | SOptional inner => SOptional (canonicalShape inner)
  | SNullable inner => SNullable (canonicalShape inner)
  | SUnion options => SUnion (map canonicalShape options)
  | _ => s
  end.

(** ** What a shape admits *)

(** The checks that zod runs on one value: a named format, a regular expression, an integer, a multiple, a signed token
    of a purpose, and a file part of a kind. *)
Class ZodChecks := {
  format_ok : string -> string -> bool;
  pattern_ok : string -> string -> bool;
  int_ok : finite -> bool;
  multiple_ok : finite -> finite -> bool;
  token_ok : string -> string -> bool;
  file_ok : string -> json -> bool;
}.

(** [a <= b], [a < b] and [a === b] on finite numbers. *)
Definition num_le (a b : finite) : bool :=
  let k := Z.min a.2 b.2 in (a.1 * 2 ^ (a.2 - k) <=? b.1 * 2 ^ (b.2 - k))%Z.

Definition num_lt (a b : finite) : bool := negb (num_le b a).
Definition num_eq (a b : finite) : bool := bool_decide (normal_finite a = normal_finite b).

(** A constraint that is absent admits everything. *)
Definition if_some {A} (o : option A) (p : A -> bool) : bool := match o with Some a => p a | None => true end.

Definition above (min : option finite) (exclusive : bool) (x : finite) : bool :=
  if_some min (fun m => if exclusive then num_lt m x else num_le m x).

Definition below (max : option finite) (exclusive : bool) (x : finite) : bool :=
  if_some max (fun m => if exclusive then num_lt x m else num_le x m).

Definition length_between (minLength maxLength : option Z) (n : nat) : bool :=
  if_some minLength (fun m => m <=? Z.of_nat n)%Z && if_some maxLength (fun m => Z.of_nat n <=? m)%Z.

Section Admits.
Context `{ZodChecks}.

Definition string_admits (s : StringShape) (x : string) : bool :=
  if_some (s_format s) (fun f => format_ok f x) && length_between (s_minLength s) (s_maxLength s) (String.length x)
  && if_some (s_pattern s) (fun p => pattern_ok p x) && if_some (s_startsWith s) (Js.startsWith x)
  && if_some (s_endsWith s) (Js.endsWith x) && if_some (s_includes s) (Js.includes x).

Definition number_admits (n : NumberShape) (x : finite) : bool :=
  implb (n_int n) (int_ok x) && above (n_min n) (n_exclusiveMin n) x && below (n_max n) (n_exclusiveMax n) x
  && if_some (n_multipleOf n) (fun m => multiple_ok (normal_finite m) x).

Definition scalar_admits (v : scalar) (x : json) : bool :=
  match v, x with
  | LitStr s, JStr t => (s =? t)%string
  | LitNum n, JNum m => bool_decide (Some (normal_finite n) = num_normal m)
  | LitBool b, JBool c => Bool.eqb b c
  | LitNull, JNull => true
  | _, _ => false
  end.

(** A tuple, by what its items and its rest admit; an item past the end of the array is [undefined]. *)
Fixpoint tuple_admits (items : list (option json -> bool)) (rest : option (option json -> bool)) (l : list json) : bool :=
  match items with
  | [] => match rest with Some r => forallb (fun x => r (Some x)) l | None => (List.length l =? 0)%nat end
  | i :: items' => match l with [] => i None && tuple_admits items' rest [] | x :: l' => i (Some x) && tuple_admits items' rest l' end
  end.

(** [None] is [undefined]: a field that is absent. Objects are strict. *)
Fixpoint admits (s : SchemaShape) (v : option json) : bool :=
  match s, v with
  | SOptional _, None => true
  | SOptional inner, Some _ => admits inner v
  | SNullable _, Some JNull => true
  | SNullable inner, _ => admits inner v
  | SUnion options, _ => existsb (fun o => admits o v) options
  | SString s, Some (JStr x) => string_admits s x
  | SNumber n, Some (JNum x) => match num_normal x with Some x => number_admits n x | None => false end
  | SBoolean, Some (JBool _) => true
  | SNull, Some JNull => true
  | SLiteral l, Some x => scalar_admits l x
  | SEnum values, Some (JStr x) => Js.elem x values
  | SArray items minItems maxItems, Some (JArr l) =>
      length_between minItems maxItems (List.length l) && forallb (fun x => admits items (Some x)) l
  | STuple items rest, Some (JArr l) =>
      tuple_admits (map admits items) (match rest with Some r => Some (admits r) | None => None end) l
  | SRecord key value, Some (JObj o) => forallb (fun entry => admits key (Some (JStr entry.1)) && admits value (Some entry.2)) o
  | SObject fields, Some (JObj o) =>
      forallb (fun field => admits field.2 (lookup_field field.1 o)) fields
      && forallb (fun entry => is_some (lookup_field entry.1 fields)) o
  | SToken purpose, Some (JStr x) => token_ok purpose x
  | SFile kind, Some x => file_ok kind x
  | _, _ => false
  end.

End Admits.

(** ** Numbers by value *)

Lemma num_le_scale (a b : finite) k : (k <= a.2)%Z -> (k <= b.2)%Z ->
  num_le a b = (a.1 * 2 ^ (a.2 - k) <=? b.1 * 2 ^ (b.2 - k))%Z.
Proof.
  intros Ha Hb. unfold num_le. set (m := Z.min a.2 b.2).
  assert (E : forall x e, (m <= e)%Z -> (x * 2 ^ (e - k) = x * 2 ^ (e - m) * 2 ^ (m - k))%Z).
  { intros x e He. rewrite <-Z.mul_assoc, <-Z.pow_add_r by lia. do 2 f_equal. lia. }
  rewrite (E a.1), (E b.1) by lia. assert (0 < 2 ^ (m - k))%Z by (apply Z.pow_pos_nonneg; lia).
  apply Bool.eq_true_iff_eq. rewrite !Z.leb_le. nia.
Qed.

Lemma odd_mantissa_value m e : (e <= (odd_mantissa m e).2)%Z /\
  (Z.pos m = Z.pos (odd_mantissa m e).1 * 2 ^ ((odd_mantissa m e).2 - e))%Z.
Proof.
  revert e. induction m as [m _|m IH|]; intros e; cbn [odd_mantissa fst snd]; [split; [|rewrite Z.sub_diag]; lia| |split; [|rewrite Z.sub_diag]; lia].
  destruct (IH (e + 1)%Z) as [L E]. split; [lia|]. rewrite Pos2Z.inj_xO, E.
  replace ((odd_mantissa m (e + 1)).2 - e)%Z with (1 + ((odd_mantissa m (e + 1)).2 - (e + 1)))%Z by lia.
  rewrite Z.pow_add_r by lia. lia.
Qed.

(** A number and its normal form have one value: at a scale below both, one integer. *)
Lemma normal_finite_value (x : finite) k : (k <= x.2)%Z -> (k <= (normal_finite x).2)%Z ->
  (x.1 * 2 ^ (x.2 - k) = (normal_finite x).1 * 2 ^ ((normal_finite x).2 - k))%Z.
Proof.
  destruct x as [[|m|m] e]; unfold normal_finite; cbn [num_normal fst snd]; [by intros|..];
    destruct (odd_mantissa_value m e) as [L E]; destruct (odd_mantissa m e) as [m' e']; unfold default; cbn [from_option id fst snd] in *; intros H1 H2;
    (replace (e' - k)%Z with ((e' - e) + (e - k))%Z by lia; rewrite Z.pow_add_r by lia; rewrite <-?Pos2Z.opp_pos, E; ring).
Qed.

Lemma num_le_normal (a b a' b' : finite) : normal_finite a = normal_finite a' -> normal_finite b = normal_finite b' ->
  num_le a b = num_le a' b'.
Proof.
  intros Ea Eb. set (k := Z.min (Z.min (Z.min a.2 a'.2) (Z.min b.2 b'.2)) (Z.min (normal_finite a).2 (normal_finite b).2)).
  rewrite (num_le_scale a b k), (num_le_scale a' b' k) by lia.
  rewrite (normal_finite_value a k), (normal_finite_value b k), (normal_finite_value a' k), (normal_finite_value b' k); try lia.
  - by rewrite Ea, Eb.
  - rewrite <-Eb. lia.
  - rewrite <-Ea. lia.
Qed.

Lemma num_le_trans (a b c : finite) : num_le a b = true -> num_le b c = true -> num_le a c = true.
Proof.
  set (k := Z.min (Z.min a.2 b.2) c.2). rewrite (num_le_scale a b k), (num_le_scale b c k), (num_le_scale a c k) by lia.
  rewrite !Z.leb_le. lia.
Qed.

Lemma num_le_total (a b : finite) : num_le a b = true \/ num_le b a = true.
Proof. set (k := Z.min a.2 b.2). rewrite (num_le_scale a b k), (num_le_scale b a k) by lia. rewrite !Z.leb_le. lia. Qed.

(** ** The fields of one normal form *)

Lemma lookup_field_None {A} k (l : list (string * A)) : lookup_field k l = None <-> k ∉ map fst l.
Proof.
  induction l as [|[k' x] l IH]; cbn -[String.eqb]; [set_solver|].
  destruct (String.eqb_spec k k') as [->|N]; [set_solver|]. rewrite IH. set_solver.
Qed.

Lemma lookup_field_Some {A} k x (l : list (string * A)) : NoDup (map fst l) -> (lookup_field k l = Some x <-> (k, x) ∈ l).
Proof.
  induction l as [|[k' y] l IH]; cbn -[String.eqb]; intros Hd; [by rewrite elem_of_nil|].
  apply NoDup_cons in Hd as [Hk Hd]. rewrite elem_of_cons. destruct (String.eqb_spec k k') as [->|N].
  - split; [intros [= ->]; by left|]. intros [[= ->]|Hin]; [done|]. destruct Hk. by apply (list_elem_of_fmap_2 fst) in Hin.
  - rewrite IH by done. naive_solver.
Qed.

Lemma lookup_field_perm {A} k (l l' : list (string * A)) : NoDup (map fst l) -> l ≡ₚ l' -> lookup_field k l = lookup_field k l'.
Proof.
  intros Hd Hp. assert (Hd' : NoDup (map fst l')) by (by rewrite <-Hp).
  destruct (lookup_field k l) as [x|] eqn:E; symmetry.
  - apply lookup_field_Some in E; [|done]. rewrite Hp in E. by apply lookup_field_Some.
  - apply lookup_field_None in E. apply lookup_field_None. by rewrite <-Hp.
Qed.

Lemma lookup_field_map {A B} (f : A -> B) k l : lookup_field k (map (fun x => (x.1, f x.2)) l) = f <$> lookup_field k l.
Proof. induction l as [|[k' x] l IH]; cbn -[String.eqb]; [done|]. by destruct (String.eqb_spec k k'). Qed.

(** Two objects of one normal form have, under each key, values of one normal form. *)
Lemma normal_lookup k l l' : NoDup (map fst l) -> NoDup (map fst l') -> normal (JObj l) = normal (JObj l') ->
  normal <$> lookup_field k l = normal <$> lookup_field k l'.
Proof.
  intros Hd Hd' E. injection E as E. rewrite !(sortKeys_map normal) in E.
  assert (P : map (fun x : string * json => (x.1, normal x.2)) l ≡ₚ map (fun x => (x.1, normal x.2)) l').
  { rewrite <-(sortKeys_Permutation l), <-(sortKeys_Permutation l'). by rewrite E. }
  rewrite <-!lookup_field_map. apply lookup_field_perm; [|exact P]. by rewrite map_map.
Qed.

(** Every object of a shape names each field once. *)
Fixpoint well_formed (s : SchemaShape) : Prop :=
  match s with
  | SArray items _ _ => well_formed items
  | STuple items rest => foldr (fun s P => well_formed s /\ P) True items /\ match rest with Some r => well_formed r | None => True end
  | SRecord key value => well_formed key /\ well_formed value
  | SObject fields => NoDup (map fst fields) /\ foldr (fun field P => well_formed field.2 /\ P) True fields
  | SOptional inner | SNullable inner => well_formed inner
  | SUnion options => foldr (fun s P => well_formed s /\ P) True options
  | _ => True
  end.

Section ShapeInduction.
Variable P : SchemaShape -> Prop.
Hypothesis P_leaf : forall s, match s with SArray _ _ _ | STuple _ _ | SRecord _ _ | SObject _ | SOptional _ | SNullable _ | SUnion _ => False | _ => True end -> P s.
Hypothesis P_array : forall items lo hi, P items -> P (SArray items lo hi).
Hypothesis P_tuple : forall items rest, Forall P items -> match rest with Some r => P r | None => True end -> P (STuple items rest).
Hypothesis P_record : forall key value, P key -> P value -> P (SRecord key value).
Hypothesis P_object : forall fields, Forall (fun field => P field.2) fields -> P (SObject fields).
Hypothesis P_optional : forall inner, P inner -> P (SOptional inner).
Hypothesis P_nullable : forall inner, P inner -> P (SNullable inner).
Hypothesis P_union : forall options, Forall P options -> P (SUnion options).

(** Induction through the lists of shapes. *)
Fixpoint shape_rect' (s : SchemaShape) : P s :=
  let shapes := fix go l : Forall P l := match l with [] => Forall_nil_2 _ | x :: l' => Forall_cons_2 _ _ _ (shape_rect' x) (go l') end in
  match s with
  | SArray items lo hi => P_array items lo hi (shape_rect' items)
  | STuple items rest => P_tuple items rest (shapes items) (match rest with Some r => shape_rect' r | None => I end)
  | SRecord key value => P_record key value (shape_rect' key) (shape_rect' value)
  | SObject fields => P_object fields ((fix go l : Forall (fun field => P field.2) l :=
      match l with [] => Forall_nil_2 _ | x :: l' => Forall_cons_2 _ _ _ (shape_rect' x.2) (go l') end) fields)
  | SOptional inner => P_optional inner (shape_rect' inner)
  | SNullable inner => P_nullable inner (shape_rect' inner)
  | SUnion options => P_union options (shapes options)
  | SString s => P_leaf (SString s) I
  | SNumber n => P_leaf (SNumber n) I
  | SBoolean => P_leaf SBoolean I
  | SNull => P_leaf SNull I
  | SLiteral v => P_leaf (SLiteral v) I
  | SEnum values => P_leaf (SEnum values) I
  | SToken purpose => P_leaf (SToken purpose) I
  | SFile kind => P_leaf (SFile kind) I
  end.
End ShapeInduction.

Lemma Forall_foldr {A} (P : A -> Prop) l : foldr (fun x Q => P x /\ Q) True l <-> Forall P l.
Proof. induction l as [|x l IH]; cbn; [by rewrite Forall_nil|]. by rewrite Forall_cons, IH. Qed.

(** The values of one field of two objects written with literal keys, equal as normal forms. *)
Ltac field_of E k :=
  let F := fresh "F" in
  pose proof E as F; apply (normal_lookup k) in F; [|apply (bool_decide_unpack _); by vm_compute|apply (bool_decide_unpack _); by vm_compute];
  cbn -[normal opt_json] in F; apply (inj Some) in F.

Ltac other_type E := field_of E "type"; match goal with F : normal (JStr _) = _ |- _ => discriminate F end.

Lemma finite_num_normal x : num_normal (NFinite x.1 x.2) = Some (normal_finite x).
Proof. unfold normal_finite. destruct x as [[|m|m] e]; cbn; [done|..]; by destruct (odd_mantissa m e). Qed.

Lemma normal_finite_json x : normal (finite_json x) = VNum (normal_finite x).
Proof. unfold finite_json. cbn [normal]. by rewrite finite_num_normal. Qed.

Lemma normal_int_inj a b : normal (int_json a) = normal (int_json b) -> a = b.
Proof.
  change (normal (finite_json (a, 0%Z)) = normal (finite_json (b, 0%Z)) -> a = b). rewrite !normal_finite_json. intros [= E].
  set (k := Z.min 0 (Z.min (normal_finite (a, 0)).2 (normal_finite (b, 0)).2)%Z).
  pose proof (normal_finite_value (a, 0%Z) k ltac:(cbn; lia) ltac:(lia)) as Va.
  pose proof (normal_finite_value (b, 0%Z) k ltac:(cbn; lia) ltac:(lia)) as Vb.
  rewrite E, <-Vb in Va. cbn in Va. assert (0 < 2 ^ (0 - k))%Z by (apply Z.pow_pos_nonneg; lia). nia.
Qed.

Lemma opt_str_inj a b : normal (opt_json JStr a) = normal (opt_json JStr b) -> a = b.
Proof. destruct a, b; cbn; congruence. Qed.

Lemma opt_int_inj a b : normal (opt_json int_json a) = normal (opt_json int_json b) -> a = b.
Proof.
  destruct a as [a|], b as [b|]; cbn [opt_json]; [by intros ->%normal_int_inj| | |done];
    change (int_json ?z) with (finite_json (z, 0%Z)); rewrite normal_finite_json; done.
Qed.

Lemma opt_finite_inj a b : normal (opt_json finite_json a) = normal (opt_json finite_json b) -> normal_finite <$> a = normal_finite <$> b.
Proof. destruct a, b; cbn [opt_json]; rewrite ?normal_finite_json; cbn; congruence. Qed.

Lemma normal_strs_inj l l' : normal (JArr (map JStr l)) = normal (JArr (map JStr l')) -> l = l'.
Proof. intros [= E]. rewrite !map_map in E. cbn in E. revert l' E. induction l as [|x l IH]; intros [|y l'] [=]; f_equal; auto. Qed.

Section Normal.
Context `{ZodChecks}.

Lemma bound_normal (o o' : option finite) p : normal_finite <$> o = normal_finite <$> o' ->
  (forall m m', normal_finite m = normal_finite m' -> p m = p m') -> if_some o p = if_some o' p.
Proof. destruct o, o'; cbn; intros E Hp; try done. apply Hp. congruence. Qed.

Lemma number_normal n n' x : n_int n = n_int n' -> n_exclusiveMin n = n_exclusiveMin n' -> n_exclusiveMax n = n_exclusiveMax n' ->
  normal_finite <$> n_min n = normal_finite <$> n_min n' -> normal_finite <$> n_max n = normal_finite <$> n_max n' ->
  normal_finite <$> n_multipleOf n = normal_finite <$> n_multipleOf n' -> number_admits n x = number_admits n' x.
Proof.
  intros Ei El Eh Em EM Ek. unfold number_admits, above, below, num_lt. rewrite Ei, El, Eh. f_equal; [f_equal; [f_equal|]|].
  - apply bound_normal; [done|]. intros m m' E. by rewrite (num_le_normal m x m' x), (num_le_normal x m x m').
  - apply bound_normal; [done|]. intros m m' E. by rewrite (num_le_normal m x m' x), (num_le_normal x m x m').
  - apply bound_normal; [done|]. by intros m m' ->.
Qed.

Lemma scalar_normal a b x : normal (scalar_json a) = normal (scalar_json b) -> scalar_admits a x = scalar_admits b x.
Proof.
  destruct a, b; cbn [scalar_json]; rewrite ?normal_finite_json; intros E; try discriminate E; try done; injection E as E; try by subst.
  destruct x; cbn -[normal_finite num_normal]; try done. by rewrite E.
Qed.

(** What [admits] does with a value once the optional and nullable layers are off. *)
Definition agree (s t : SchemaShape) : Prop := forall v, admits s v = admits t v.

Lemma forallb_agree s t l : agree s t -> forallb (fun x => admits s (Some x)) l = forallb (fun x => admits t (Some x)) l.
Proof. intros A. induction l as [|x l IH]; [done|]. cbn. by rewrite A, IH. Qed.

Lemma tuple_agree l l' r r' v : Forall2 (fun f g => forall v, f v = g v) l l' ->
  match r, r' with Some f, Some g => forall v, f v = g v | None, None => True | _, _ => False end ->
  tuple_admits l r v = tuple_admits l' r' v.
Proof.
  intros Hl Hr. revert v. induction Hl as [|f g l l' Hf Hl IH]; intros v; cbn.
  - destruct r, r'; try done. induction v as [|x v IHv]; [done|]. cbn. by rewrite Hr, IHv.
  - destruct v; by rewrite Hf, IH.
Qed.

Lemma option_rest (r r' : option SchemaShape) :
  normal (match r with Some s => shape_json s | None => JNull end) = normal (match r' with Some s => shape_json s | None => JNull end) ->
  match r, r' with Some s, Some t => normal (shape_json s) = normal (shape_json t) | None, None => True | _, _ => False end.
Proof. destruct r as [s|], r' as [t|]; try done; [destruct s|destruct t]; done. Qed.

Lemma normal_shapes l l' : normal (JArr (map shape_json l)) = normal (JArr (map shape_json l')) ->
  Forall2 (fun s t => normal (shape_json s) = normal (shape_json t)) l l'.
Proof.
  intros [= E]. revert l' E. induction l as [|s l IH]; intros [|t l'] [=]; constructor; auto.
Qed.

Lemma Forall2_agree l l' : Forall (fun s => forall t, well_formed s -> well_formed t -> normal (shape_json s) = normal (shape_json t) -> agree s t) l ->
  Forall well_formed l -> Forall well_formed l' -> Forall2 (fun s t => normal (shape_json s) = normal (shape_json t)) l l' -> Forall2 agree l l'.
Proof.
  intros IH Hl Hl' E. revert IH Hl Hl'. induction E as [|s t l l' Es E IHl]; intros IH Hl Hl'; [constructor|].
  apply Forall_cons in IH as [Hs IH], Hl as [Ws Hl], Hl' as [Wt Hl']. constructor; auto.
Qed.

Lemma object_admits fields o : NoDup (map fst fields) -> (admits (SObject fields) (Some (JObj o)) = true <->
  (forall k s, lookup_field k fields = Some s -> admits s (lookup_field k o) = true) /\
  (forall k x, (k, x) ∈ o -> is_some (lookup_field k fields) = true)).
Proof.
  intros Hd. cbn [admits]. rewrite andb_true_iff, !forallb_forall. setoid_rewrite <-list_elem_of_In. f_equiv.
  - split; [intros Hf k s Hk; apply (Hf (k, s)); by apply lookup_field_Some|].
    intros Hf [k s] Hk. apply Hf. by apply lookup_field_Some.
  - split; [intros Hf k x Hk; by apply (Hf (k, x))|]. intros Hf [k x] Hk. by eapply Hf.
Qed.

Lemma object_agree l l' : NoDup (map fst l) -> NoDup (map fst l') ->
  (forall k, match lookup_field k l, lookup_field k l' with Some s, Some t => agree s t | None, None => True | _, _ => False end) ->
  agree (SObject l) (SObject l').
Proof.
  intros Hd Hd' Hk [v|]; [|done]. destruct v as [| | | | |o]; try done. apply Bool.eq_true_iff_eq. rewrite !object_admits by done.
  split; (intros [Hf Hx]; split; [intros k s Hs|intros k x Hin]; [|specialize (Hx k x Hin)]; specialize (Hk k)).
  - destruct (lookup_field k l) as [t|] eqn:E; [|by rewrite Hs in Hk]. rewrite Hs in Hk. rewrite <-(Hk _). by apply Hf.
  - by destruct (lookup_field k l), (lookup_field k l').
  - rewrite Hs in Hk. destruct (lookup_field k l') as [t|] eqn:E; [|done]. rewrite (Hk _). by apply Hf.
  - by destruct (lookup_field k l), (lookup_field k l').
Qed.

Lemma normal_fields l l' : NoDup (map fst l) -> NoDup (map fst l') ->
  normal (JObj (map (fun field => (field.1, shape_json field.2)) l)) = normal (JObj (map (fun field => (field.1, shape_json field.2)) l')) ->
  forall k, match lookup_field k l, lookup_field k l' with
            | Some s, Some t => normal (shape_json s) = normal (shape_json t) | None, None => True | _, _ => False end.
Proof.
  intros Hd Hd' E k. apply (normal_lookup k) in E; [|by rewrite map_map..]. rewrite !lookup_field_map in E.
  destruct (lookup_field k l), (lookup_field k l'); cbn in E; try done. by injection E.
Qed.

Lemma leaf_agree s t : match s with SArray _ _ _ | STuple _ _ | SRecord _ _ | SObject _ | SOptional _ | SNullable _ | SUnion _ => False | _ => True end ->
  normal (shape_json s) = normal (shape_json t) -> agree s t.
Proof.
  intros Hs E. destruct s as [s|n| | |v|values| | | | | | | |p|k]; try done; destruct t as [s'|n'| | |v'|values'| | | | | | | |p'|k'];
    cbn [shape_json] in E; unfold typed in E; try other_type E; try done.
  - assert (s = s') as ->; [|done]. destruct s, s'; cbn -[normal opt_json] in E.
    f_equal; (apply opt_str_inj || apply opt_int_inj);
      [field_of E "format"|field_of E "minLength"|field_of E "maxLength"|field_of E "pattern"|field_of E "startsWith"|field_of E "endsWith"|field_of E "includes"]; done.
  - intros [[| |x| | |]|]; try done. cbn [admits]. destruct (num_normal x); [|done].
    field_of E "int". field_of E "exclusiveMin". field_of E "exclusiveMax". field_of E "min". field_of E "max". field_of E "multipleOf".
    injection F as F. injection F0 as F0. injection F1 as F1. apply number_normal; try done; by apply opt_finite_inj.
  - field_of E "value". intros [x|]; [by apply scalar_normal|done].
  - field_of E "values". apply normal_strs_inj in F as ->. done.
  - field_of E "purpose". by injection F as ->.
  - field_of E "kind". by injection F as ->.
Qed.

(** A schema's canonical text determines the values it admits. *)
Lemma normal_agree s t : well_formed s -> well_formed t -> normal (shape_json s) = normal (shape_json t) -> agree s t.
Proof.
  revert t. induction s as [s Hs|items lo hi IH|items rest IH IHr|key value IHk IHv|fields IH|inner IH|inner IH|options IH] using shape_rect';
    intros t Ws Wt E; [by apply leaf_agree|..]; destruct t as [| | | | | |items' lo' hi'|items' rest'|key' value'|fields'|inner'|inner'|options'| |];
    cbn [shape_json] in E; unfold typed in E; try other_type E; cbn [well_formed] in Ws, Wt.
  - field_of E "items". field_of E "minItems". field_of E "maxItems". apply opt_int_inj in F0 as ->. apply opt_int_inj in F1 as ->.
    intros [[| | | |l|]|]; try done. cbn [admits]. f_equal. apply forallb_agree. by apply IH.
  - field_of E "items". field_of E "rest". apply normal_shapes in F. apply option_rest in F0. rewrite !Forall_foldr in Ws, Wt.
    destruct Ws as [Ws Wr], Wt as [Wt Wr']. intros [[| | | |l|]|]; try done. cbn [admits]. apply tuple_agree.
    + apply Forall2_fmap. by apply Forall2_agree.
    + destruct rest, rest'; try done. by apply IHr.
  - field_of E "key". field_of E "value". destruct Ws, Wt. intros [[| | | | |o]|]; try done. cbn [admits].
    induction o as [|[k x] o IHo]; [done|]. cbn. rewrite IHo. f_equal. f_equal; [by apply IHk|by apply IHv].
  - field_of E "fields". rewrite !Forall_foldr in Ws, Wt. destruct Ws as [Hd Ws], Wt as [Hd' Wt]. apply object_agree; [done..|].
    intros k. pose proof (normal_fields _ _ Hd Hd' F k) as Hk. destruct (lookup_field k fields) as [s|] eqn:Es, (lookup_field k fields') as [t|] eqn:Et; try done.
    apply lookup_field_Some in Es, Et; [|done..]. rewrite Forall_forall in IH, Ws, Wt. by apply (IH _ Es); [apply (Ws _ Es)|apply (Wt _ Et)|].
  - field_of E "inner". intros [v|]; [|done]. cbn [admits]. by apply IH.
  - field_of E "inner". intros v. assert (A : agree inner inner') by (by apply IH). destruct v as [[]|]; cbn; done || apply A.
  - field_of E "options". apply normal_shapes in F. rewrite !Forall_foldr in Ws, Wt. intros v. cbn.
    assert (A : Forall2 agree options options') by (by apply Forall2_agree).
    clear -A. induction A as [|s t l l' Hst A IHl]; [done|]. cbn. by rewrite (Hst v), IHl.
Qed.

(** Two shapes with one canonical text admit the same values. *)
Lemma canonical_text_agree `{NumberTextLaws} s t : well_formed s -> well_formed t ->
  canonicalJson (shape_json s) = canonicalJson (shape_json t) -> agree s t.
Proof.
  intros Ws Wt E. apply normal_agree; [done..|by apply canonical_normal].
Qed.

Lemma elem_sorted x l : Js.elem x (sort_by code_unit_le l) = Js.elem x l.
Proof. apply Bool.eq_true_iff_eq. by rewrite !elem_spec, sort_by_Permutation. Qed.

Lemma Forall2_map_agree l : Forall (fun s => agree (canonicalShape s) s) l -> Forall2 agree (map canonicalShape l) l.
Proof. induction 1; constructor; auto. Qed.

(** [canonicalShape] changes what no schema admits. *)
Lemma canonicalShape_agree s : well_formed s -> agree (canonicalShape s) s.
Proof.
  induction s as [s Hs|items lo hi IH|items rest IH IHr|key value IHk IHv|fields IH|inner IH|inner IH|options IH] using shape_rect'; cbn [well_formed]; intros W.
  - destruct s; try done. intros [[]|]; try done. cbn. apply elem_sorted.
  - intros [[| | | |l|]|]; try done. cbn [admits canonicalShape]. f_equal. apply forallb_agree. by apply IH.
  - rewrite Forall_foldr in W. destruct W as [W Wr]. assert (A : Forall2 agree (map canonicalShape items) items).
    { apply Forall2_map_agree. rewrite Forall_forall in *. auto. }
    intros [[| | | |l|]|]; try done. cbn [admits canonicalShape]. apply tuple_agree.
    + apply Forall2_fmap. exact A.
    + destruct rest; [by apply IHr|done].
  - destruct W. intros [[| | | | |o]|]; try done. cbn [admits canonicalShape].
    induction o as [|[k x] o IHo]; [done|]. cbn. rewrite IHo. f_equal. f_equal; [by apply IHk|by apply IHv].
  - rewrite Forall_foldr in W. destruct W as [Hd W]. cbn [canonicalShape]. apply object_agree; [by rewrite map_map|done|].
    intros k. rewrite lookup_field_map. destruct (lookup_field k fields) as [s|] eqn:E; [|done]. cbn.
    apply lookup_field_Some in E; [|done]. rewrite Forall_forall in IH, W. by apply (IH _ E), (W _ E).
  - intros [v|]; [|done]. cbn [admits canonicalShape]. by apply IH.
  - intros v. assert (A : agree (canonicalShape inner) inner) by (by apply IH). destruct v as [[]|]; cbn; done || apply A.
  - rewrite Forall_foldr in W. assert (A : Forall2 agree (map canonicalShape options) options).
    { apply Forall2_map_agree. rewrite Forall_forall in *. auto. }
    intros v. cbn. clear -A. induction A as [|s t l l' Hst A IHl]; [done|]. cbn. by rewrite (Hst v), IHl.
Qed.

End Normal.
