(* ===== verification/Permissions.v ===== *)
(** Permissions and endpoint requirements of the authorization kernel.

    [auth-core/src/types.ts] (scopes, permission entries), [auth-core/src/permissions.ts] (wildcard matching and the
    [permits] and [scopedValues] decisions), and the endpoint requirements of [auth-core/src/requirement.ts]. *)

From S2P Require Import Prelude.
From Stdlib Require Import Lia String Ascii.
From stdpp Require Import base tactics strings gmap list.

(** ** Data *)

(** [Scope]: one dimension and an opaque value. *)
Record Scope := mkScope { scope_type : string; scope_value : string }.

#[global] Instance Scope_eq_dec : EqDecision Scope.
Proof. solve_decision. Defined.

(** [PermissionSource] *)
Inductive PermissionSource :=
| SourceGrant
| SourceBootstrap
| SourceTerminal
| SourceGroup (groupRef : string).

#[global] Instance PermissionSource_eq_dec : EqDecision PermissionSource.
Proof. solve_decision. Defined.

(** [PermissionEntry]; [scope = None] is [null], every scope. *)
Record PermissionEntry := mkEntry {
  action : string;
  scope : option Scope;
  source : PermissionSource;
}.

(** The test [a.type === b.type && a.value === b.value]. *)
Definition same_scope (a b : Scope) : bool :=
  (scope_type a =? scope_type b)%string && (scope_value a =? scope_value b)%string.

(** ** permissions.ts *)

Definition matchAction (pattern act : string) : bool :=
  if (pattern =? "*")%string then true
  else if Js.endsWith pattern ".*" then Js.startsWith act (Js.dropLast pattern)
  else (pattern =? act)%string.

(** The scope test of [permits]: the entry is global, or the request names the entry's own pair. *)
Definition scopeOk (entry : PermissionEntry) (sc : option Scope) : bool :=
  match scope entry with
  | None => true
  | Some es => match sc with Some s => same_scope es s | None => false end
  end.

Fixpoint permits (entries : list PermissionEntry) (act : string) (sc : option Scope) : bool :=
  match entries with
  | [] => false
  | entry :: rest =>
      if scopeOk entry sc && matchAction (action entry) act then true else permits rest act sc
  end.

(** The loop of [scopedValues]; [values] is the array pushed to, which [seen] repeats. *)
Fixpoint scopedValues_loop (entries : list PermissionEntry) (act dimension : string) (values : list string)
    : option (list string) :=
  match entries with
  | [] => Some values
  | entry :: rest =>
      if negb (matchAction (action entry) act) then scopedValues_loop rest act dimension values
      else match scope entry with
           | None => None
           | Some s =>
               if negb (scope_type s =? dimension)%string then scopedValues_loop rest act dimension values
               else if negb (Js.elem (scope_value s) values)
                    then scopedValues_loop rest act dimension (values ++ [scope_value s])
                    else scopedValues_loop rest act dimension values
           end
  end.

(** [None] is [null]: unrestricted. *)
Definition scopedValues (entries : list PermissionEntry) (act dimension : string) : option (list string) :=
  scopedValues_loop entries act dimension [].

Definition isActionAllowed (pattern : string) (catalog : list string) : bool :=
  if (pattern =? "*")%string then true
  else if Js.elem pattern catalog then true
  else if Js.endsWith pattern ".*"
       then existsb (fun entry => Js.startsWith entry (Js.dropLast pattern)) catalog
       else false.

(** ** requirement.ts *)

(** [AccessForm]; [from = None] is [null], the object a link key is bound to. *)
Inductive AccessForm :=
| FormOver (dimension : string)
| FormIn (dimension from : string)
| FormOn (dimension : string) (from : option string)
| FormCreates (dimension : string)
| FormApp.

(** [ActionRequirement] and [CapabilityRequirement]: an action and its access form. *)
Record ActionRequirement := mkActionReq { req_action : string; req_access : AccessForm }.

(** [EndpointRequirement | AuthenticatedRequirement] *)
Inductive Requirement :=
| ReqAuthenticated
| ReqMember
| ReqCapabilities (capabilities : list (string * ActionRequirement))
| ReqAction (requirement : ActionRequirement).

Definition holdsAction (requirement : ActionRequirement) (perms : list PermissionEntry) : bool :=
  match req_access requirement with
  | FormApp => existsb (fun entry => permits [entry] (req_action requirement) None) perms
  | _ => existsb (fun entry => permits [entry] (req_action requirement) (scope entry)) perms
  end.

Definition satisfies (requirement : Requirement) (perms : list PermissionEntry) : bool :=
  match requirement with
  | ReqAuthenticated => true
  | ReqMember => (0 <? length perms)%nat
  | ReqCapabilities capabilities => forallb (fun '(_, capability) => holdsAction capability perms) capabilities
  | ReqAction requirement => holdsAction requirement perms
  end.

(** ** Lemmas *)

Lemma same_scope_spec a b : same_scope a b = true <-> a = b.
Proof.
  unfold same_scope. rewrite andb_true_iff, !String.eqb_eq. destruct a, b; cbn. naive_solver.
Qed.

Lemma matchAction_star act : matchAction "*" act = true.
Proof. done. Qed.

Lemma matchAction_wildcard q act :
  matchAction (q +:+ ".*") act = Js.startsWith act (q +:+ ".").
Proof.
  unfold matchAction. destruct (String.eqb_spec (q +:+ ".*") "*") as [E|_].
  - exfalso. destruct q as [|c [|d q]]; cbn in E; congruence.
  - rewrite (proj2 (endsWith_spec _ ".*")) by eauto.
    change (".*") with ("." +:+ "*"). rewrite str_app_assoc.
    by rewrite (dropLast_snoc (q +:+ ".") "*").
Qed.

Lemma matchAction_exact p act :
  p <> "*" -> Js.endsWith p ".*" = false -> matchAction p act = (p =? act)%string.
Proof. intros Hs He. unfold matchAction. by rewrite (proj2 (String.eqb_neq _ _) Hs), He. Qed.

(** Case analysis on the three kinds of pattern. *)
Lemma pattern_cases p :
  p = "*" \/ (exists q, p = q +:+ ".*") \/ (p <> "*" /\ Js.endsWith p ".*" = false).
Proof.
  destruct (String.eqb_spec p "*") as [->|Hs]; [by left|right].
  destruct (Js.endsWith p ".*") eqn:E; [left|by right].
  by apply endsWith_spec in E.
Qed.

Lemma matchAction_refl act : matchAction act act = true.
Proof.
  destruct (pattern_cases act) as [->|[[q ->]|[Hs He]]]; [done| |].
  - rewrite matchAction_wildcard. apply startsWith_spec. exists "*". by rewrite <- str_app_assoc.
  - rewrite matchAction_exact by done. apply String.eqb_refl.
Qed.

Lemma permits_exists entries act sc :
  permits entries act sc = existsb (fun e => scopeOk e sc && matchAction (action e) act) entries.
Proof. induction entries as [|e es IH]; [done|]. cbn. rewrite <- IH. by destruct (scopeOk e sc && _). Qed.

Lemma permits_cons e es act sc :
  permits (e :: es) act sc = (scopeOk e sc && matchAction (action e) act) || permits es act sc.
Proof. cbn. by destruct (scopeOk e sc && _). Qed.

Lemma permits_app es1 es2 act sc :
  permits (es1 ++ es2) act sc = permits es1 act sc || permits es2 act sc.
Proof. by rewrite !permits_exists, existsb_app. Qed.

Lemma permits_elem entries act sc :
  permits entries act sc = true <->
  exists e, e ∈ entries /\ scopeOk e sc = true /\ matchAction (action e) act = true.
Proof.
  rewrite permits_exists, existsb_exists. setoid_rewrite andb_true_iff.
  setoid_rewrite list_elem_of_In. naive_solver.
Qed.

Lemma permits_subset es1 es2 act sc :
  es1 ⊆ es2 -> permits es1 act sc = true -> permits es2 act sc = true.
Proof. rewrite !permits_elem. intros Hsub (e & He & ?). exists e. by split; [apply Hsub|]. Qed.

(** A global permission is a permission in every scope. *)
Lemma permits_global entries act sc :
  permits entries act None = true -> permits entries act sc = true.
Proof.
  rewrite !permits_elem. intros (e & He & Hsc & Hm). exists e. repeat split; auto.
  unfold scopeOk in *. by destruct (scope e).
Qed.

#[export] Hint Rewrite matchAction_wildcard matchAction_refl : js.

(** What a result of the loop of [scopedValues] says about the entries read and the values already pushed. *)
Definition scoped_result (entries : list PermissionEntry) (act dim : string) (values : list string)
    (r : option (list string)) : Prop :=
  match r with
  | None => permits entries act None = true
  | Some vs =>
      permits entries act None = false /\ NoDup vs /\
      forall v, v ∈ vs <-> v ∈ values \/ permits entries act (Some (mkScope dim v)) = true
  end.

(** An entry that says nothing about the dimension leaves the result as it is. *)
Lemma scoped_result_skip e es act dim values r :
  scopeOk e None && matchAction (action e) act = false ->
  (forall v, scopeOk e (Some (mkScope dim v)) && matchAction (action e) act = false) ->
  scoped_result es act dim values r -> scoped_result (e :: es) act dim values r.
Proof.
  intros H0 Hv. destruct r as [vs|]; cbn -[permits]; rewrite permits_cons, H0; [|done].
  intros (H1 & H2 & H3). repeat split; auto; intros H; [apply H3 in H|apply H3];
    rewrite permits_cons, Hv in *; done.
Qed.

(** An entry scoped to [v0] adds [v0], unless it was already pushed. *)
Lemma scoped_result_add e es act dim values v0 r :
  scope e = Some (mkScope dim v0) -> matchAction (action e) act = true ->
  scoped_result es act dim (if Js.elem v0 values then values else values ++ [v0]) r ->
  scoped_result (e :: es) act dim values r.
Proof.
  intros Hs Hm. assert (Hv : forall v, permits (e :: es) act (Some (mkScope dim v)) = true <->
      v = v0 \/ permits es act (Some (mkScope dim v)) = true).
  { intros v. rewrite permits_cons, Hm, andb_true_r, orb_true_iff. unfold scopeOk.
    rewrite Hs, same_scope_spec. naive_solver. }
  assert (H0 : permits (e :: es) act None = permits es act None).
  { rewrite permits_cons. unfold scopeOk. by rewrite Hs. }
  destruct r as [vs|]; cbn -[permits]; rewrite H0; [|done].
  intros (H1 & H2 & H3). repeat split; auto; intros H; [apply H3 in H; rewrite Hv|apply H3; rewrite Hv in H];
    destruct (Js.elem v0 values) eqn:E; rewrite ?elem_of_app, ?list_elem_of_singleton in *;
    rewrite ?elem_spec in E; naive_solver.
Qed.

Lemma scopedValues_loop_spec entries act dim values :
  NoDup values -> scoped_result entries act dim values (scopedValues_loop entries act dim values).
Proof.
  revert values. induction entries as [|e es IH]; intros values Hnd; cbn [scopedValues_loop].
  { cbn. repeat split; auto; naive_solver. }
  destruct (matchAction (action e) act) eqn:Hm; cbn [negb].
  2: { apply scoped_result_skip; [by rewrite Hm, andb_false_r|intros v; by rewrite Hm, andb_false_r|auto]. }
  destruct (scope e) as [[ty v0]|] eqn:Hs; cbn [scope_type scope_value].
  2: { cbn. unfold scopeOk. by rewrite Hs, Hm. }
  destruct (String.eqb_spec ty dim) as [->|Hd]; cbn [negb].
  - apply (scoped_result_add e es act dim values v0); [done..|].
    destruct (Js.elem v0 values) eqn:E; cbn [negb]; apply IH; [done|].
    apply NoDup_app. repeat split; auto using NoDup_singleton.
    intros x Hx ->%list_elem_of_singleton. apply elem_spec in Hx. congruence.
  - apply scoped_result_skip; [unfold scopeOk; by rewrite Hs|intros v|by apply IH].
    unfold scopeOk. rewrite Hs. unfold same_scope. cbn [scope_type].
    by rewrite (proj2 (String.eqb_neq _ _) Hd).
Qed.

(** ** Properties *)

(** [matchAction] is the wildcard language its comment gives: ['*'] matches everything, ['q.*'] exactly the actions
    below the dot boundary ['q.'], and any other pattern only itself. *)
Theorem matchAction_spec (p act : string) :
  matchAction p act = true <->
  p = "*" \/ (exists q r, p = q +:+ ".*" /\ act = q +:+ ("." +:+ r)) \/ p = act.
Proof.
  split.
  - intros H. destruct (pattern_cases p) as [->|[[q ->]|[Hs He]]]; [by left| |].
    + right; left. rewrite matchAction_wildcard in H. apply startsWith_spec in H as [r ->].
      exists q, r. by rewrite <- str_app_assoc.
    + right; right. rewrite matchAction_exact in H by done. by apply String.eqb_eq.
  - intros [->|[(q & r & -> & ->)| ->]]; [done| |apply matchAction_refl].
    rewrite matchAction_wildcard. apply startsWith_spec. exists r. by rewrite <- str_app_assoc.
Qed.

(** [scopedValues] and [permits] agree: on every value of the dimension [permits] answers what the set of scoped
    values says ([null] being unrestricted), a [null] answer is exactly a global permission, and no value repeats. *)
Theorem scopedValues_permits (entries : list PermissionEntry) (act dimension : string) :
  (forall v, permits entries act (Some (mkScope dimension v)) =
     match scopedValues entries act dimension with None => true | Some vs => Js.elem v vs end) /\
  (scopedValues entries act dimension = None <-> permits entries act None = true) /\
  (forall vs, scopedValues entries act dimension = Some vs -> NoDup vs).
Proof.
  pose proof (scopedValues_loop_spec entries act dimension [] (NoDup_nil_2)) as H.
  unfold scopedValues. destruct (scopedValues_loop entries act dimension []) as [vs|].
  - destruct H as (H0 & H1 & H2). split; [|split; [|congruence]].
    + intros v. apply eq_true_iff_eq. rewrite elem_spec, H2, elem_of_nil. naive_solver.
    + rewrite H0. done.
  - split; [|done]. intros v. by apply permits_global.
Qed.

(** [isActionAllowed] accepts a pattern exactly when it is ['*'] or matches some action of the catalog, so no
    wildcard over nothing is ever granted. *)
Theorem isActionAllowed_spec (pattern : string) (catalog : list string) :
  isActionAllowed pattern catalog = true <->
  pattern = "*" \/ exists act, act ∈ catalog /\ matchAction pattern act = true.
Proof.
  unfold isActionAllowed. destruct (pattern_cases pattern) as [->|[[q ->]|[Hs He]]].
  - cbn. naive_solver.
  - assert (Hne : (q +:+ ".*" =? "*")%string = false).
    { apply String.eqb_neq. destruct q as [|c [|d q]]; cbn; congruence. }
    rewrite Hne, (proj2 (endsWith_spec _ ".*")) by eauto.
    assert (Hm : forall e, Js.startsWith e (Js.dropLast (q +:+ ".*")) = matchAction (q +:+ ".*") e).
    { intros e. rewrite matchAction_wildcard. change (".*") with ("." +:+ "*").
      by rewrite str_app_assoc, (dropLast_snoc (q +:+ ".") "*"). }
    apply String.eqb_neq in Hne.
    destruct (Js.elem (q +:+ ".*") catalog) eqn:E.
    + apply elem_spec in E. split; [|done]. intros _. right. eexists; split; [done|]. apply matchAction_refl.
    + rewrite existsb_exists. setoid_rewrite Hm. setoid_rewrite list_elem_of_In. naive_solver.
  - rewrite (proj2 (String.eqb_neq _ _) Hs), He.
    setoid_rewrite matchAction_exact; [|done..]. setoid_rewrite String.eqb_eq.
    destruct (Js.elem pattern catalog) eqn:E.
    + apply elem_spec in E. naive_solver.
    + split; [done|]. intros [?|(a & Ha & <-)]; [done|]. apply elem_spec in Ha. congruence.
Qed.

Lemma holdsAction_spec req perms :
  holdsAction req perms = true <->
  match req_access req with
  | FormApp => permits perms (req_action req) None = true
  | _ => exists sc, permits perms (req_action req) sc = true
  end.
Proof.
  assert (Happ : forall sc, existsb (fun e => permits [e] (req_action req) sc) perms =
                            permits perms (req_action req) sc).
  { intros sc. rewrite (permits_exists perms). induction perms as [|e es IH]; [done|]. cbn -[permits].
    rewrite IH. f_equal. cbn. by destruct (_ && _). }
  assert (Hsome : existsb (fun e => permits [e] (req_action req) (scope e)) perms = true <->
                  exists sc, permits perms (req_action req) sc = true).
  { rewrite existsb_exists. setoid_rewrite permits_elem. split.
    - intros (e & He & e' & ->%list_elem_of_singleton & Hsc & Hm).
      exists (scope e), e. by rewrite list_elem_of_In.
    - intros (sc & e & He & Hsc & Hm). exists e. split; [by apply list_elem_of_In|].
      exists e. repeat split; [by apply list_elem_of_singleton| |done].
      unfold scopeOk. destruct (scope e) as [s|]; [|done]. by apply same_scope_spec. }
  unfold holdsAction. destruct (req_access req); first [exact Hsome|by rewrite Happ].
Qed.

(** [satisfies] reads the requirement as stated: an [app] action needs a global grant, any other form the action
    in some scope, several capabilities every one of their actions, a member any permission, and [authenticated]
    none. *)
Theorem satisfies_spec (requirement : Requirement) (perms : list PermissionEntry) :
  satisfies requirement perms = true <->
  match requirement with
  | ReqAuthenticated => True
  | ReqMember => perms <> []
  | ReqAction r =>
      exists sc, permits perms (req_action r) sc = true /\ (req_access r = FormApp -> sc = None)
  | ReqCapabilities caps =>
      forall name r, (name, r) ∈ caps ->
        exists sc, permits perms (req_action r) sc = true /\ (req_access r = FormApp -> sc = None)
  end.
Proof.
  assert (H : forall r, holdsAction r perms = true <->
            exists sc, permits perms (req_action r) sc = true /\ (req_access r = FormApp -> sc = None)).
  { intros r. rewrite holdsAction_spec. destruct (req_access r); naive_solver. }
  destruct requirement as [| |caps|r]; cbn [satisfies]; [done| | |apply H].
  - destruct perms; cbn; naive_solver.
  - rewrite forallb_forall. setoid_rewrite <- H. setoid_rewrite list_elem_of_In. split.
    + intros Hall name r Hin. by apply (Hall (name, r)).
    + intros Hall [name r] Hin. by apply (Hall name).
Qed.
