(* ===== verification/Endpoints.v ===== *)
(** The endpoint matcher: canonical paths ([auth-core/src/canonical-path.ts]), parameter names
    ([auth-core/src/path-segment.ts]) and endpoint tables ([auth-core/src/endpoints.ts]). *)

From S2P Require Import Prelude.
From Stdlib Require Import ZArith Lia String Ascii.
From stdpp Require Import base tactics strings gmap list.

(** ** canonical-path.ts *)

Record RequestTarget := mkTarget { pathname : string; search : string }.

(** Bytes that may follow in a percent-encoded character: for each, the least and the greatest. *)
Definition continuation : nat * nat := (128, 191).

(** The bytes the first byte of a UTF-8 character must be followed by; [None] for no first byte. *)
Definition utf8_lead (b : nat) : option (list (nat * nat)) :=
  if (b <? 128)%nat then Some []
  else if (b <? 194)%nat then None
  else if (b <? 224)%nat then Some [continuation]
  else if (b =? 224)%nat then Some [(160, 191); continuation]
  else if (b =? 237)%nat then Some [(128, 159); continuation]
  else if (b <? 240)%nat then Some [continuation; continuation]
  else if (b =? 240)%nat then Some [(144, 191); continuation; continuation]
  else if (b <? 244)%nat then Some [continuation; continuation; continuation]
  else if (b =? 244)%nat then Some [(128, 143); continuation; continuation]
  else None.

Definition hex_value (c : ascii) : nat :=
  if Js.is_digit c then Js.code c - 48
  else if Js.in_range 65 70 c then Js.code c - 55
  else Js.code c - 87.

(** Whether [decodeURIComponent] decodes [s], the bytes in [need] still missing from an escaped character. *)
Fixpoint decodable (need : list (nat * nat)) (s : string) : bool :=
  match s with
  | EmptyString => match need with [] => true | _ => false end
  | String c s1 =>
      if Ascii.eqb c "%" then
        match s1 with
        | String a (String b rest) =>
            if Js.is_hex a && Js.is_hex b then
              let byte := hex_value a * 16 + hex_value b in
              match need with
              | [] => match utf8_lead byte with Some need' => decodable need' rest | None => false end
              | (lo, hi) :: need' => if (lo <=? byte)%nat && (byte <=? hi)%nat then decodable need' rest else false
              end
            else false
        | _ => false
        end
      else match need with [] => decodable [] s1 | _ => false end
  end.

Definition isDecodable (segment : string) : bool := decodable [] segment.

(** [segment.replace(/%2e/gi, '.')] *)
Fixpoint replaceEncodedDot (s : string) : string :=
  match s with
  | String c s1 =>
      match s1 with
      | String d (String e rest) =>
          if Ascii.eqb c "%" && Ascii.eqb d "2" && Ascii.eqb (Js.lower_unit e) "e"
          then String "." (replaceEncodedDot rest)
          else String c (replaceEncodedDot s1)
      | _ => String c (replaceEncodedDot s1)
      end
  | EmptyString => EmptyString
  end.

Definition isDotSegment (segment : string) : bool :=
  let decoded := replaceEncodedDot segment in
  (decoded =? ".")%string || (decoded =? "..")%string.

(** [ENCODED_SEPARATOR.test] *)
Definition hasEncodedSeparator (s : string) : bool :=
  Js.includes (Js.toLowerCase s) "%2f" || Js.includes (Js.toLowerCase s) "%5c".

(** The [every] of [isCanonicalPath]: only the last segment may be empty. *)
Fixpoint canonicalSegments (segments : list string) : bool :=
  match segments with
  | [] => true
  | segment :: rest =>
      (negb (segment =? "")%string || match rest with [] => true | _ => false end)
      && negb (isDotSegment segment) && isDecodable segment && canonicalSegments rest
  end.

Definition isCanonicalPath (pathname : string) : bool :=
  if (pathname =? "/")%string then true
  else if negb (Js.startsWith pathname "/") || Js.includes pathname "\" || hasEncodedSeparator pathname then false
  else canonicalSegments (Js.split "/" (Js.drop 1 pathname)).

Definition splitRequestTarget (target : string) : RequestTarget :=
  match Js.indexOf "?" target with
  | None => mkTarget target ""
  | Some query => mkTarget (Js.take query target) (Js.drop query target)
  end.

(** [s.slice(i + 3)] after the first ['://'] of [s], or [s] when there is none. *)
Fixpoint afterScheme (s : string) : option string :=
  if Js.startsWith s "://" then Some (Js.drop 3 s)
  else match s with
       | EmptyString => None
       | String _ s' => afterScheme s'
       end.

(** [s.search(/[/\\?]/)] then [slice]: from the first slash, backslash or question mark; [None] for no such unit. *)
Fixpoint fromAuthorityEnd (s : string) : option string :=
  match s with
  | EmptyString => None
  | String c s' =>
      if Ascii.eqb c "/" || Ascii.eqb c "\" || Ascii.eqb c "?" then Some s else fromAuthorityEnd s'
  end.

Definition rawRequestTarget (url : string) : RequestTarget :=
  let rest := match afterScheme url with None => url | Some r => r end in
  let withoutFragment := match Js.indexOf "#" rest with None => rest | Some f => Js.take f rest end in
  match fromAuthorityEnd withoutFragment with
  | None => mkTarget "/" ""
  | Some raw =>
      let target := splitRequestTarget raw in
      if (pathname target =? "")%string then mkTarget "/" (search target) else target
  end.

(** ** path-segment.ts *)

Definition is_name_start (c : ascii) : bool := Js.is_letter c || Ascii.eqb c "_".
Definition is_name_part (c : ascii) : bool := is_name_start c || Js.is_digit c.

Definition parameterName (segment : string) : option string :=
  match segment with
  | String c (String d rest) =>
      if Ascii.eqb c ":" && is_name_start d && Js.forall_units is_name_part rest then Some (String d rest) else None
  | _ => None
  end.

(** ** endpoints.ts *)

Inductive Segment :=
| SegLiteral (value : string)
| SegParam (name : string)
| SegWildcard.

#[global] Instance Segment_eq_dec : EqDecision Segment.
Proof. solve_decision. Defined.

Definition ANY_METHOD : string := "*".

(** [EndpointPattern]: what selection reads of a row. *)
Class EndpointPattern (Row : Type) := {
  ep_id : Row -> string;
  ep_method : Row -> string;
  ep_path : Row -> string;
}.

Record CompiledEndpoint (Row : Type) := mkCompiled { row : Row; segments : list Segment }.
Arguments mkCompiled {Row} _ _.
Arguments row {Row} _.
Arguments segments {Row} _.

Inductive EndpointPlan (Row : Type) :=
| NonCanonical
| NoEndpoint
| Endpoint (endpoint : Row) (params : list (string * string)).
Arguments NonCanonical {Row}.
Arguments NoEndpoint {Row}.
Arguments Endpoint {Row} _ _.

Definition methodsOverlap (declared other : string) : bool :=
  (declared =? other)%string || (declared =? ANY_METHOD)%string || (other =? ANY_METHOD)%string.

Definition servesMethod (declared requested : string) : bool :=
  (declared =? ANY_METHOD)%string || (declared =? requested)%string.

Definition splitPath (path : string) : list string :=
  if (path =? "/")%string then [] else Js.split "/" (Js.drop 1 path).

Definition PROTOTYPE_NAMES : list string := ["__proto__"; "constructor"; "prototype"].

(** The loop of [parsePattern] over the raw segments: a problem, or the segments. *)
Fixpoint parseSegments (raw : list string) (names : list string) : string + list Segment :=
  match raw with
  | [] => inr []
  | segment :: rest =>
      if (segment =? "*")%string then
        match rest with
        | [] => inr [SegWildcard]
        | _ => inl "'*' must be the last segment"
        end
      else if Js.includes segment "*" then inl "'*' must be a whole segment"
      else if Js.startsWith segment ":" then
        match parameterName segment with
        | None => inl "':' must start a parameter name of letters, digits and '_'"
        | Some name =>
            if Js.elem name PROTOTYPE_NAMES then inl ("'" +:+ name +:+ "' is not allowed as a parameter name")
            else if Js.elem name names then inl ("parameter '" +:+ name +:+ "' is declared twice")
            else match parseSegments rest (names ++ [name]) with
                 | inl problem => inl problem
                 | inr segs => inr (SegParam name :: segs)
                 end
        end
      else match parseSegments rest names with
           | inl problem => inl problem
           | inr segs => inr (SegLiteral segment :: segs)
           end
  end.

Definition parsePattern (path : string) : string + list Segment :=
  if negb (isCanonicalPath path) then inl "not a canonical path" else parseSegments (splitPath path) [].

Definition isLiteral (segment : Segment) : bool :=
  match segment with SegLiteral _ => true | _ => false end.

Definition isReservedPrefix (prefix : string) : bool :=
  match parsePattern prefix with
  | inl _ => false
  | inr segs => (0 <? List.length segs)%nat && negb (Js.endsWith prefix "/") && forallb isLiteral segs
  end.

Definition isUnder (path prefix : string) : bool := Js.startsWith path (prefix +:+ "/").

Fixpoint longestPrefix_loop (path : string) (prefixes : list string) (longest : option string) : option string :=
  match prefixes with
  | [] => longest
  | prefix :: rest =>
      let longer := match longest with None => true | Some l => (String.length l <? String.length prefix)%nat end in
      longestPrefix_loop path rest (if isUnder path prefix && longer then Some prefix else longest)
  end.

Definition longestPrefixOf (path : string) (prefixes : list string) : option string :=
  longestPrefix_loop path prefixes None.

Definition shapeOf (segment : Segment) : string :=
  match segment with
  | SegLiteral value => "=" +:+ value
  | SegParam _ => "param"
  | SegWildcard => "wildcard"
  end.

(** [matchSegments] from position [index] on; [params] in the order pushed. Parameter names are distinct
    ([parseSegments]), so [Object.fromEntries] keeps every pair. *)
Fixpoint matchSegments_from (index : nat) (segs : list Segment) (path : list string) (params : list (string * string))
    : option (list (string * string)) :=
  match segs with
  | [] => match path with [] => Some params | _ => None end
  | SegWildcard :: _ =>
      if (index =? 0)%nat || (0 <? List.length path)%nat then Some params else None
  | segment :: rest =>
      match path with
      | [] => None
      | value :: path' =>
          match segment with
          | SegParam name =>
              if (value =? "")%string then None
              else matchSegments_from (S index) rest path' (params ++ [(name, value)])
          | SegLiteral lit =>
              if (lit =? value)%string then matchSegments_from (S index) rest path' params else None
          | SegWildcard => None
          end
      end
  end.

Definition matchSegments (segs : list Segment) (path : list string) : option (list (string * string)) :=
  matchSegments_from 0 segs path [].

Definition RANK (segment : Segment) : Z :=
  match segment with SegLiteral _ => 0 | SegParam _ => 1 | SegWildcard => 2 end.

Fixpoint compareSpecificity (a b : list Segment) : Z :=
  match a, b with
  | l :: a', r :: b' =>
      let order := (RANK l - RANK r)%Z in
      if (order =? 0)%Z then compareSpecificity a' b' else order
  | _, _ => (Z.of_nat (List.length a) - Z.of_nat (List.length b))%Z
  end.

Section Tables.
Context {Row : Type} `{EndpointPattern Row}.

(** The loop of [analyse] over the rows: the problems, and the compiled rows. [shapes] maps a shape to the rows of
    that shape read so far; the list of segment shapes stands for its JSON text. *)
Fixpoint analyse_rows (rows : list Row) (ids : list string) (shapes : gmap (list string) (list Row))
    : list string * list (CompiledEndpoint Row) :=
  match rows with
  | [] => ([], [])
  | r :: rest =>
      let duplicate := if Js.elem (ep_id r) ids then ["endpoint id '" +:+ ep_id r +:+ "' is declared twice"] else [] in
      let ids' := ids ++ [ep_id r] in
      match parsePattern (ep_path r) with
      | inl problem =>
          let '(problems, compiled) := analyse_rows rest ids' shapes in
          (duplicate ++ ["endpoint '" +:+ ep_id r +:+ "' has path '" +:+ ep_path r +:+ "': " +:+ problem] ++ problems,
           compiled)
      | inr segs =>
          let shape := map shapeOf segs in
          let sameShape := default [] (shapes !! shape) in
          let ambiguous :=
            match List.find (fun other => methodsOverlap (ep_method other) (ep_method r)) sameShape with
            | Some previous =>
                ["'" +:+ ep_id r +:+ "' and '" +:+ ep_id previous +:+ "' both serve " +:+ ep_method r +:+ " " +:+ ep_path r]
            | None => []
            end in
          let '(problems, compiled) := analyse_rows rest ids' (<[shape := sameShape ++ [r]]> shapes) in
          (duplicate ++ ambiguous ++ problems, mkCompiled r segs :: compiled)
      end
  end.

Fixpoint analyse_prefixes (reserved : list string) (prefixes : list string) : list string :=
  match reserved with
  | [] => []
  | prefix :: rest =>
      (if negb (isReservedPrefix prefix)
       then ["reserved prefix '" +:+ prefix +:+ "' must be a literal path below the root, without a trailing '/'"]
       else if Js.elem prefix prefixes then ["reserved prefix '" +:+ prefix +:+ "' is declared twice"] else [])
      ++ analyse_prefixes rest (prefixes ++ [prefix])
  end.

(** [analyse]: the problems [EndpointTableError] carries, or the compiled endpoints. *)
Definition analyse (endpoints : list Row) (reservedPrefixes : list string) : list string + list (CompiledEndpoint Row) :=
  let '(problems, compiled) := analyse_rows endpoints [] ∅ in
  match problems ++ analyse_prefixes reservedPrefixes [] with
  | [] => inr compiled
  | all => inl all
  end.

(** One compiled endpoint's answer to a request: its parameters, when it competes and matches. *)
Definition candidate (reserved : option string) (method : string) (path : list string) (e : CompiledEndpoint Row)
    : option (list (string * string)) :=
  if negb (servesMethod (ep_method (row e)) method)
     || match reserved with None => false | Some prefix => negb (isUnder (ep_path (row e)) prefix) end
  then None
  else matchSegments (segments e) path.

(** The loop of [select]: the best endpoint so far with its parameters, and whether it is tied. *)
Fixpoint select_loop (reserved : option string) (method : string) (path : list string)
    (endpoints : list (CompiledEndpoint Row)) (best : option (CompiledEndpoint Row * list (string * string))) (tied : bool)
    : option (CompiledEndpoint Row * list (string * string)) * bool :=
  match endpoints with
  | [] => (best, tied)
  | e :: rest =>
      match candidate reserved method path e with
      | None => select_loop reserved method path rest best tied
      | Some params =>
          let order := match best with None => (-1)%Z | Some (b, _) => compareSpecificity (segments e) (segments b) end in
          if (order <? 0)%Z then select_loop reserved method path rest (Some (e, params)) false
          else if (order =? 0)%Z then select_loop reserved method path rest best true
          else select_loop reserved method path rest best tied
      end
  end.

Definition select (endpoints : list (CompiledEndpoint Row)) (reservedPrefixes : list string) (method rawPath : string)
    : EndpointPlan Row :=
  if negb (isCanonicalPath rawPath) then NonCanonical
  else
    let path := splitPath rawPath in
    let reserved := longestPrefixOf rawPath reservedPrefixes in
    match select_loop reserved method path endpoints None false with
    | (Some (e, params), false) => Endpoint (row e) params
    | _ => NoEndpoint
    end.

(** [CompiledEndpointTable], made only by [compileEndpointTable]. *)
Record CompiledEndpointTable := mkTable {
  table_endpoints : list (CompiledEndpoint Row);
  table_reserved : list string;
}.

Definition compileEndpointTable (endpoints : list Row) (reservedPrefixes : list string)
    : list string + CompiledEndpointTable :=
  match analyse endpoints reservedPrefixes with
  | inl problems => inl problems
  | inr compiled => inr (mkTable compiled reservedPrefixes)
  end.

Definition planEndpoint (table : CompiledEndpointTable) (method rawPath : string) : EndpointPlan Row :=
  select (table_endpoints table) (table_reserved table) method rawPath.

End Tables.
Arguments CompiledEndpointTable Row : clear implicits.

(** ** Specificity is a total preorder on shapes *)

Lemma RANK_range s : (0 <= RANK s <= 2)%Z.
Proof. destruct s; cbn; lia. Qed.

Lemma cmp_antisym a b : compareSpecificity b a = (- compareSpecificity a b)%Z.
Proof.
  revert b. induction a as [|x a IH]; intros [|y b]; cbn -[Z.sub Z.of_nat]; [lia..|].
  destruct (Z.eqb_spec (RANK x - RANK y) 0), (Z.eqb_spec (RANK y - RANK x) 0); [apply IH|lia..].
Qed.

Lemma cmp_zero a b : compareSpecificity a b = 0%Z <-> map RANK a = map RANK b.
Proof.
  revert b. induction a as [|x a IH]; intros [|y b]; cbn -[Z.sub Z.of_nat]; [done|split; [lia|done]..|].
  destruct (Z.eqb_spec (RANK x - RANK y) 0).
  - rewrite IH. assert (RANK x = RANK y) as -> by lia. split; [by intros ->|congruence].
  - split; [lia|]. intros [= ? ?]. lia.
Qed.

Lemma cmp_trans a b c :
  (compareSpecificity a b <= 0 -> compareSpecificity b c < 0 -> compareSpecificity a c < 0)%Z.
Proof.
  revert b c. induction a as [|x a IH]; intros [|y b] [|z c]; cbn -[Z.sub Z.of_nat]; try lia.
  repeat match goal with |- context [(?u =? 0)%Z] => destruct (Z.eqb_spec u 0) end; try lia; eauto.
Qed.

(** ** Selection *)

Section Selection.
Context {Row : Type} `{EndpointPattern Row}.
Implicit Types (e b : CompiledEndpoint Row) (es : list (CompiledEndpoint Row)).

Definition competes reserved method path e : Prop := is_Some (candidate reserved method path e).

(** No two endpoints that compete for one request have the same specificity. *)
Definition no_ties reserved method path es : Prop :=
  ForallOrdPairs (fun x y => competes reserved method path x -> competes reserved method path y ->
    compareSpecificity (segments x) (segments y) <> 0%Z) es.

(** [e] is the one competitor that every other competitor is less specific than. *)
Definition best_of reserved method path es e : Prop :=
  e ∈ es /\ competes reserved method path e /\
  forall e', e' ∈ es -> competes reserved method path e' ->
    e' = e \/ (compareSpecificity (segments e) (segments e') < 0)%Z.

Lemma best_of_unique reserved method path es e1 e2 :
  best_of reserved method path es e1 -> best_of reserved method path es e2 -> e1 = e2.
Proof.
  intros (H1 & C1 & B1) (H2 & C2 & B2).
  destruct (B1 e2 H2 C2) as [?|L1]; [done|]. destruct (B2 e1 H1 C1) as [?|L2]; [done|].
  rewrite cmp_antisym in L2. lia.
Qed.

Lemma best_of_le reserved method path es e x :
  best_of reserved method path es e -> x ∈ es -> competes reserved method path x ->
  (compareSpecificity (segments e) (segments x) <= 0)%Z.
Proof.
  intros (_ & _ & Hb) Hx Hc. destruct (Hb x Hx Hc) as [->|?]; [|lia].
  assert (compareSpecificity (segments e) (segments e) = 0%Z) as -> by by apply cmp_zero. lia.
Qed.

(** Adding an endpoint that does not compete, or that a competitor [x] beats, keeps the best one. *)
Lemma best_of_skip reserved method path es e x :
  best_of reserved method path es e ->
  (competes reserved method path x ->
     exists y, y ∈ es /\ competes reserved method path y /\ (compareSpecificity (segments y) (segments x) < 0)%Z) ->
  best_of reserved method path (x :: es) e.
Proof.
  intros Hb Hx. pose proof Hb as (Hin & Hc & Hall). repeat split; [by right|done|].
  intros e' [->|He']%elem_of_cons Hc'; [|by apply Hall]. right.
  destruct (Hx Hc') as (y & Hy & Hcy & Hlt). eapply cmp_trans; [|done]. by eapply best_of_le.
Qed.

Lemma best_of_perm reserved method path es es' e :
  (forall x, x ∈ es <-> x ∈ es') -> best_of reserved method path es e -> best_of reserved method path es' e.
Proof. intros Hp (H1 & H2 & H3). repeat split; [by apply Hp|done|]. intros e' He'. apply H3. by apply Hp. Qed.

(** The loop from a competitor [b] already found. *)
Lemma select_loop_from reserved method path es b bparams :
  candidate reserved method path b = Some bparams ->
  no_ties reserved method path (b :: es) ->
  exists e params, select_loop reserved method path es (Some (b, bparams)) false = (Some (e, params), false) /\
    candidate reserved method path e = Some params /\ best_of reserved method path (b :: es) e.
Proof.
  revert b bparams. induction es as [|x es IH]; intros b bparams Hb Hnt; cbn [select_loop].
  { exists b, bparams. split; [done|]. split; [done|]. split; [by left|]. split; [by eexists|]. intros e' ->%list_elem_of_singleton _. by left. }
  inversion Hnt as [|? ? Hall Hnt']; subst. inversion Hall as [|? ? Hx Hall']; subst.
  inversion Hnt' as [|? ? Hxall Hnt'']; subst.
  assert (Hcb : competes reserved method path b) by by eexists.
  assert (Hswap : forall y, y ∈ x :: b :: es <-> y ∈ b :: x :: es) by set_solver.
  destruct (candidate reserved method path x) as [params|] eqn:Hc.
  - assert (Hcx : competes reserved method path x) by by eexists.
    specialize (Hx Hcb Hcx). pose proof (cmp_antisym (segments x) (segments b)) as Ha.
    destruct (Z.ltb_spec (compareSpecificity (segments x) (segments b)) 0) as [Hlt|Hge].
    + destruct (IH x params Hc) as (e & ps & Hl & He & Hbest); [done|].
      exists e, ps. split; [done|]. split; [done|]. apply best_of_skip; [done|]. intros _. exists x. by split; [left|].
    + destruct (Z.eqb_spec (compareSpecificity (segments x) (segments b)) 0) as [Heq|Hne]; [lia|].
      destruct (IH b bparams Hb) as (e & ps & Hl & He & Hbest); [by constructor|].
      exists e, ps. split; [done|]. split; [done|]. eapply best_of_perm; [exact Hswap|].
      apply best_of_skip; [done|]. intros _. exists b. split; [by left|]. split; [done|lia].
  - destruct (IH b bparams Hb) as (e & ps & Hl & He & Hbest); [by constructor|].
    exists e, ps. split; [done|]. split; [done|]. eapply best_of_perm; [exact Hswap|].
    apply best_of_skip; [done|]. intros [? Hs]. congruence.
Qed.

(** The whole loop of [select], when no two competitors tie. *)
Lemma select_loop_spec reserved method path es :
  no_ties reserved method path es ->
  (select_loop reserved method path es None false = (None, false) /\
     forall e, e ∈ es -> candidate reserved method path e = None) \/
  exists e params, select_loop reserved method path es None false = (Some (e, params), false) /\
    candidate reserved method path e = Some params /\ best_of reserved method path es e.
Proof.
  induction es as [|x es IH]; intros Hnt; cbn [select_loop].
  { left. split; [done|]. set_solver. }
  destruct (candidate reserved method path x) as [params|] eqn:Hc.
  - right. by apply select_loop_from.
  - inversion Hnt; subst. destruct IH as [[Hl Hnone]|(e & ps & Hl & He & Hbest)]; [done| |].
    + left. split; [done|]. intros e [->|?]%elem_of_cons; auto.
    + right. exists e, ps. split; [done|]. split; [done|]. apply best_of_skip; [done|]. intros [? Hs]. congruence.
Qed.

End Selection.

(** ** What the parser and the analysis guarantee *)

(** A wildcard is only ever the last segment. *)
Fixpoint wildcard_last (segs : list Segment) : bool :=
  match segs with
  | [] => true
  | SegWildcard :: rest => match rest with [] => true | _ => false end
  | _ :: rest => wildcard_last rest
  end.

Lemma parseSegments_wildcard raw names segs :
  parseSegments raw names = inr segs -> wildcard_last segs = true.
Proof.
  revert names segs. induction raw as [|s raw IH]; intros names segs H; cbn in H; [by injection H as <-|].
  repeat split_match_in H; simplify_eq; cbn; eauto.
Qed.

Lemma parsePattern_wildcard path segs : parsePattern path = inr segs -> wildcard_last segs = true.
Proof. unfold parsePattern. destruct (negb _); [done|]. apply parseSegments_wildcard. Qed.

(** Two patterns that match one path and rank alike have one shape. *)
Lemma match_same_shape segs1 segs2 path i ps1 ps2 r1 r2 :
  wildcard_last segs1 = true -> wildcard_last segs2 = true ->
  matchSegments_from i segs1 path ps1 = Some r1 -> matchSegments_from i segs2 path ps2 = Some r2 ->
  map RANK segs1 = map RANK segs2 -> map shapeOf segs1 = map shapeOf segs2.
Proof.
  revert segs2 path i ps1 ps2.
  induction segs1 as [|x segs1 IH]; intros [|y segs2] path i ps1 ps2 W1 W2 H1 H2 HR; try done.
  injection HR as Hxy HR.
  destruct x as [lx|nx|], y as [ly|ny|]; try done; cbn in W1, W2, H1, H2 |- *.
  - destruct path as [|v path]; [done|].
    destruct (String.eqb_spec lx v), (String.eqb_spec ly v); try done. subst. f_equal. eauto.
  - destruct path as [|v path]; [done|]. destruct (v =? "")%string; [done|]. f_equal. eauto.
  - by destruct segs1, segs2.
Qed.

Lemma servesMethod_overlap d1 d2 m :
  servesMethod d1 m = true -> servesMethod d2 m = true -> methodsOverlap d1 d2 = true.
Proof.
  unfold servesMethod, methodsOverlap.
  destruct (String.eqb_spec d1 ANY_METHOD), (String.eqb_spec d2 ANY_METHOD);
    rewrite ?orb_true_r; try done; cbn; rewrite !String.eqb_eq; intros -> ->; by rewrite String.eqb_refl.
Qed.

Section Analysis.
Context {Row : Type} `{EndpointPattern Row}.

(** What [analyse] leaves when it finds no problem: two rows of one shape serve no method both. *)
Definition unambiguous (x y : CompiledEndpoint Row) : Prop :=
  map shapeOf (segments x) = map shapeOf (segments y) ->
  methodsOverlap (ep_method (row x)) (ep_method (row y)) = false.

Definition compiled_row (c : CompiledEndpoint Row) : Prop := parsePattern (ep_path (row c)) = inr (segments c).

Lemma find_none_overlap (l : list Row) r :
  List.find (fun other => methodsOverlap (ep_method other) (ep_method r)) l = None ->
  forall o, o ∈ l -> methodsOverlap (ep_method o) (ep_method r) = false.
Proof. intros Hf o Ho. apply (List.find_none _ _ Hf). by apply list_elem_of_In. Qed.

Lemma analyse_rows_ok (rows : list Row) ids shapes compiled :
  analyse_rows rows ids shapes = ([], compiled) ->
  map row compiled = rows /\ Forall compiled_row compiled /\ ForallOrdPairs unambiguous compiled /\
  Forall (fun c => forall o, o ∈ default [] (shapes !! map shapeOf (segments c)) ->
            methodsOverlap (ep_method o) (ep_method (row c)) = false) compiled.
Proof.
  revert ids shapes compiled. induction rows as [|r rows IH]; intros ids shapes compiled Ha; cbn in Ha.
  { injection Ha as <-. repeat split; constructor. }
  destruct (parsePattern (ep_path r)) as [problem|segs] eqn:Hp.
  { destruct (analyse_rows _ _ _). injection Ha as Ha _. by destruct (Js.elem _ _). }
  set (shapes' := <[map shapeOf segs := default [] (shapes !! map shapeOf segs) ++ [r]]> shapes) in Ha.
  destruct (analyse_rows rows (ids ++ [ep_id r]) shapes') as [problems cs] eqn:Hrec.
  injection Ha as Hprob <-.
  destruct (Js.elem (ep_id r) ids); [done|]. cbn in Hprob.
  destruct (List.find _ _) eqn:Hf; [done|]. cbn in Hprob. subst problems.
  apply IH in Hrec as (Hrows & Hcomp & Hpairs & Hold).
  pose proof (find_none_overlap _ _ Hf) as Hnone. rewrite Forall_forall in Hold.
  repeat split.
  - cbn. by f_equal.
  - by constructor.
  - constructor; [|done]. apply Forall_forall. intros c Hc Hshape. cbn in Hshape.
    apply (Hold c Hc). subst shapes'. rewrite <- Hshape, lookup_insert_eq. cbn. set_solver.
  - constructor; [done|]. apply Forall_forall. intros c Hc o Ho. apply (Hold c Hc). subst shapes'.
    destruct (decide (map shapeOf segs = map shapeOf (segments c))) as [Heq|Hne].
    + rewrite <- Heq in Ho |- *. rewrite lookup_insert_eq. cbn. apply elem_of_app. by left.
    + by rewrite lookup_insert_ne.
Qed.

Lemma analyse_ok (rows : list Row) reserved compiled :
  analyse rows reserved = inr compiled ->
  map row compiled = rows /\ Forall compiled_row compiled /\ ForallOrdPairs unambiguous compiled.
Proof.
  unfold analyse. destruct (analyse_rows rows [] ∅) as [problems cs] eqn:Ha.
  destruct problems; [|done]. cbn. destruct (analyse_prefixes _ _); [|done]. intros [= <-].
  apply analyse_rows_ok in Ha. naive_solver.
Qed.

Lemma candidate_matches reserved method path (e : CompiledEndpoint Row) params :
  candidate reserved method path e = Some params ->
  servesMethod (ep_method (row e)) method = true /\ matchSegments (segments e) path = Some params /\
  (forall prefix, reserved = Some prefix -> isUnder (ep_path (row e)) prefix = true).
Proof.
  unfold candidate. destruct (servesMethod _ _); cbn; [|done].
  destruct reserved as [prefix|]; [destruct (isUnder _ prefix) eqn:?; cbn; [|done]|]; naive_solver.
Qed.

(** A tie cannot survive [assertNoAmbiguity]. *)
Lemma analyse_no_ties (rows : list Row) prefixes compiled reserved method path :
  analyse rows prefixes = inr compiled -> no_ties reserved method path compiled.
Proof.
  intros (_ & Hc & Hp)%analyse_ok. unfold no_ties. induction Hp as [|x xs Hx Hp IH]; [constructor|].
  inversion Hc as [|? ? Hcx Hcxs]; subst. constructor; [|by apply IH].
  rewrite Forall_forall in Hx, Hcxs |- *. intros y Hy [px Px] [py Py] Hz%cmp_zero.
  apply candidate_matches in Px as (Mx & Sx & _), Py as (My & Sy & _).
  assert (Hshape : map shapeOf (segments x) = map shapeOf (segments y)).
  { specialize (Hcxs y Hy). eapply match_same_shape; eauto using parsePattern_wildcard. }
  specialize (Hx y Hy Hshape). by rewrite (servesMethod_overlap _ _ _ Mx My) in Hx.
Qed.

End Analysis.

(** ** Matching *)

Definition param_names (segs : list Segment) : list string :=
  omap (fun s => match s with SegParam n => Some n | _ => None end) segs.

(** The raw segments a pattern stands for once its parameters have values; a wildcard stands for none of them. *)
Fixpoint fill (segs : list Segment) (values : list string) : list string :=
  match segs with
  | [] | SegWildcard :: _ => []
  | SegLiteral v :: rest => v :: fill rest values
  | SegParam _ :: rest =>
      match values with
      | v :: values' => v :: fill rest values'
      | [] => []
      end
  end.

Lemma matchSegments_from_spec i segs path ps r :
  wildcard_last segs = true -> matchSegments_from i segs path ps = Some r ->
  exists new rest, r = ps ++ new /\ map fst new = param_names segs /\ Forall (fun v => v <> "") (map snd new) /\
    path = fill segs (map snd new) ++ rest /\ (SegWildcard ∉ segs -> rest = []).
Proof.
  revert i path ps. induction segs as [|x segs IH]; intros i path ps W Hm.
  { destruct path; [|done]. cbn in Hm. injection Hm as <-. exists [], []. rewrite app_nil_r. naive_solver. }
  destruct x as [l|n|]; cbn in W, Hm.
  - destruct path as [|v path]; [done|]. destruct (String.eqb_spec l v) as [->|]; [|done].
    destruct (IH _ _ _ W Hm) as (new & rest & -> & Hn & Hv & -> & Hw).
    exists new, rest. repeat split; [done..|set_solver].
  - destruct path as [|v path]; [done|]. destruct (String.eqb_spec v "") as [->|Hne]; [done|].
    destruct (IH _ _ _ W Hm) as (new & rest & -> & Hn & Hv & -> & Hw).
    exists ((n, v) :: new), rest. rewrite <- app_assoc. cbn. repeat split; [by rewrite Hn|by constructor|set_solver].
  - destruct segs; [|done]. destruct ((i =? 0)%nat || _); [|done]. injection Hm as <-.
    exists [], path. rewrite app_nil_r. repeat split; [constructor|set_solver].
Qed.

(** ** Planning *)

Section Planning.
Context {Row : Type} `{EndpointPattern Row}.

Lemma planEndpoint_cases (rows : list Row) (prefixes : list string) (table : CompiledEndpointTable Row)
    (method rawPath : string) :
  compileEndpointTable rows prefixes = inr table ->
  let reserved := longestPrefixOf rawPath prefixes in
  let path := splitPath rawPath in
  (isCanonicalPath rawPath = false /\ planEndpoint table method rawPath = NonCanonical) \/
  (isCanonicalPath rawPath = true /\ planEndpoint table method rawPath = NoEndpoint /\
     forall e, e ∈ table_endpoints table -> candidate reserved method path e = None) \/
  (isCanonicalPath rawPath = true /\
     exists e params, planEndpoint table method rawPath = Endpoint (row e) params /\
       candidate reserved method path e = Some params /\
       best_of reserved method path (table_endpoints table) e).
Proof.
  unfold compileEndpointTable. destruct (analyse rows prefixes) as [|compiled] eqn:Ha; [done|].
  intros [= <-]. cbn zeta. unfold planEndpoint, select. cbn [table_endpoints table_reserved].
  destruct (isCanonicalPath rawPath); cbn [negb]; [right|by left].
  pose proof (analyse_no_ties rows prefixes compiled (longestPrefixOf rawPath prefixes) method (splitPath rawPath) Ha)
    as Hnt.
  destruct (select_loop_spec _ _ _ _ Hnt) as [[-> Hnone]|(e & params & -> & He & Hb)]; [by left|right].
  split; [done|]. by exists e, params.
Qed.

Lemma planEndpoint_best (rows : list Row) prefixes table method rawPath e :
  compileEndpointTable rows prefixes = inr table ->
  best_of (longestPrefixOf rawPath prefixes) method (splitPath rawPath) (table_endpoints table) e ->
  isCanonicalPath rawPath = true ->
  exists params, planEndpoint table method rawPath = Endpoint (row e) params /\
    candidate (longestPrefixOf rawPath prefixes) method (splitPath rawPath) e = Some params.
Proof.
  unfold compileEndpointTable. destruct (analyse rows prefixes) as [|compiled] eqn:Ha; [done|].
  intros [= <-] Hb Hcan. unfold planEndpoint, select. cbn [table_endpoints table_reserved] in *.
  rewrite Hcan. cbn [negb].
  pose proof (analyse_no_ties rows prefixes compiled (longestPrefixOf rawPath prefixes) method (splitPath rawPath) Ha)
    as Hnt.
  destruct (select_loop_spec _ _ _ _ Hnt) as [[_ Hnone]|(e' & params & -> & He & Hb')].
  - destruct Hb as (Hin & [p Hp] & _). by rewrite (Hnone e Hin) in Hp.
  - rewrite (best_of_unique _ _ _ _ _ _ Hb Hb'). by exists params.
Qed.

Lemma compiled_elem (rows rows' : list Row) prefixes prefixes' t t' :
  compileEndpointTable rows prefixes = inr t -> compileEndpointTable rows' prefixes' = inr t' ->
  rows ≡ₚ rows' -> forall e, e ∈ table_endpoints t -> e ∈ table_endpoints t'.
Proof.
  unfold compileEndpointTable. destruct (analyse rows prefixes) as [|c] eqn:Ha; [done|].
  destruct (analyse rows' prefixes') as [|c'] eqn:Ha'; [done|]. intros [= <-] [= <-] Hp [r segs] He. cbn in *.
  apply analyse_ok in Ha as (Hr & Hc & _), Ha' as (Hr' & Hc' & _).
  rewrite Forall_forall in Hc, Hc'. specialize (Hc _ He). unfold compiled_row in *. cbn in Hc.
  assert (Hin : r ∈ rows').
  { rewrite <- Hp, <- Hr. apply list_elem_of_fmap. by exists (mkCompiled r segs). }
  rewrite <- Hr' in Hin. apply list_elem_of_fmap in Hin as ([r2 segs2] & -> & Hin).
  specialize (Hc' _ Hin). cbn in *. congruence.
Qed.

(** Over a table that [compileEndpointTable] accepted, [planEndpoint] refuses a non-canonical path, finds no
    endpoint exactly when no row competes, and otherwise selects the one competitor more specific than every other:
    there is never a tie, and never a fall-through to a less specific row. *)
Theorem planEndpoint_selects (rows : list Row) (prefixes : list string) (table : CompiledEndpointTable Row)
    (method rawPath : string) :
  compileEndpointTable rows prefixes = inr table ->
  let reserved := longestPrefixOf rawPath prefixes in
  let path := splitPath rawPath in
  (isCanonicalPath rawPath = false /\ planEndpoint table method rawPath = NonCanonical) \/
  (isCanonicalPath rawPath = true /\ planEndpoint table method rawPath = NoEndpoint /\
     forall e, e ∈ table_endpoints table -> candidate reserved method path e = None) \/
  (isCanonicalPath rawPath = true /\
     exists e params, planEndpoint table method rawPath = Endpoint (row e) params /\
       candidate reserved method path e = Some params /\
       best_of reserved method path (table_endpoints table) e).
Proof. exact (planEndpoint_cases rows prefixes table method rawPath). Qed.

(** Array order carries no meaning: two accepted tables of the same rows, in any order, plan every request alike. *)
Theorem planEndpoint_order_irrelevant (rows rows' : list Row) (prefixes : list string)
    (table table' : CompiledEndpointTable Row) (method rawPath : string) :
  rows ≡ₚ rows' ->
  compileEndpointTable rows prefixes = inr table -> compileEndpointTable rows' prefixes = inr table' ->
  planEndpoint table method rawPath = planEndpoint table' method rawPath.
Proof.
  intros Hp Hc Hc'.
  pose proof (compiled_elem _ _ _ _ _ _ Hc Hc' Hp) as H1.
  pose proof (compiled_elem _ _ _ _ _ _ Hc' Hc (symmetry Hp)) as H2.
  destruct (planEndpoint_cases rows prefixes table method rawPath Hc) as [[Hn ->]|[(Hy & -> & Hnone)|(Hy & e & ps & -> & He & Hb)]].
  - unfold planEndpoint, select. by rewrite Hn.
  - destruct (planEndpoint_cases rows' prefixes table' method rawPath Hc') as [[Hn ->]|[(_ & -> & _)|(_ & e & ps & -> & He & Hb)]];
      [congruence|done|]. destruct Hb as (Hin & _). by rewrite (Hnone e (H2 e Hin)) in He.
  - apply best_of_perm with (es' := table_endpoints table') in Hb; [|by split; auto].
    destruct (planEndpoint_best rows' prefixes table' method rawPath e Hc' Hb Hy) as (ps' & -> & He').
    congruence.
Qed.

(** A matched request is the pattern with its parameters filled in: in order, each named parameter one non-empty raw
    segment, followed by what a terminal wildcard takes (nothing without one). *)
Theorem matchSegments_roundtrip (path : string) (segs : list Segment) (request : list string)
    (params : list (string * string)) :
  parsePattern path = inr segs -> matchSegments segs request = Some params ->
  map fst params = param_names segs /\ Forall (fun v => v <> "") (map snd params) /\
  exists rest, request = fill segs (map snd params) ++ rest /\ (SegWildcard ∉ segs -> rest = []).
Proof.
  intros Hp%parsePattern_wildcard Hm.
  destruct (matchSegments_from_spec _ _ _ _ _ Hp Hm) as (new & rest & -> & Hn & Hv & Hr & Hw).
  cbn. repeat split; [done..|]. by exists rest.
Qed.

End Planning.

(** ** A concrete table *)

Record DemoRow := mkDemo { demo_id : string; demo_method : string; demo_path : string }.

#[global] Instance DemoRow_pattern : EndpointPattern DemoRow :=
  {| ep_id := demo_id; ep_method := demo_method; ep_path := demo_path |}.

Definition demo_rows : list DemoRow :=
  [mkDemo "one" "GET" "/api/items/:id"; mkDemo "list" "GET" "/api/items"; mkDemo "rest" "*" "/api/*";
   mkDemo "own" "POST" "/__fabrika/connect/*"].

Definition demo_table (rows : list DemoRow) : CompiledEndpointTable DemoRow :=
  match compileEndpointTable rows ["/__fabrika"] with
  | inr table => table
  | inl _ => {| table_endpoints := []; table_reserved := [] |}
  end.

Example demo_plan :
  planEndpoint (demo_table demo_rows) "GET" "/api/items/42" = Endpoint (mkDemo "one" "GET" "/api/items/:id") [("id", "42")] /\
  planEndpoint (demo_table demo_rows) "PUT" "/api/items/42" = Endpoint (mkDemo "rest" "*" "/api/*") [] /\
  planEndpoint (demo_table demo_rows) "GET" "/__fabrika/connect/x" = NoEndpoint /\
  planEndpoint (demo_table demo_rows) "GET" "/api/%2e%2E/x" = NonCanonical.
Proof. vm_compute. done. Qed.

Lemma planEndpoint_selects_witness :
  compileEndpointTable demo_rows ["/__fabrika"] = inr (demo_table demo_rows) /\
  exists e params, planEndpoint (demo_table demo_rows) "GET" "/api/items/42" = Endpoint (row e) params /\
    params = [("id", "42")].
Proof.
  split; [vm_compute; reflexivity|].
  assert (Hc : compileEndpointTable demo_rows ["/__fabrika"] = inr (demo_table demo_rows)) by (vm_compute; reflexivity).
  destruct (planEndpoint_selects _ _ _ "GET" "/api/items/42" Hc) as [[Hn _]|[(_ & Hn & _)|(_ & e & ps & Hp & _)]].
  - vm_compute in Hn. discriminate Hn.
  - vm_compute in Hn. discriminate Hn.
  - exists e, ps. split; [exact Hp|]. vm_compute in Hp. injection Hp as _ <-. reflexivity.
Defined.

Lemma planEndpoint_order_irrelevant_witness :
  planEndpoint (demo_table demo_rows) "GET" "/api/items/42" =
  planEndpoint (demo_table (rev demo_rows)) "GET" "/api/items/42".
Proof.
  apply (planEndpoint_order_irrelevant demo_rows (rev demo_rows) ["/__fabrika"]);
    [symmetry; apply Permutation_rev|vm_compute; reflexivity|vm_compute; reflexivity].
Defined.

Lemma matchSegments_roundtrip_witness :
  matchSegments [SegLiteral "a"; SegParam "id"; SegWildcard] ["a"; "7"; "x"; "y"] = Some [("id", "7")] /\
  exists rest, ["a"; "7"; "x"; "y"] = fill [SegLiteral "a"; SegParam "id"; SegWildcard] ["7"] ++ rest.
Proof.
  split; [vm_compute; reflexivity|].
  destruct (matchSegments_roundtrip "/a/:id/*" [SegLiteral "a"; SegParam "id"; SegWildcard] ["a"; "7"; "x"; "y"] [("id", "7")])
    as (_ & _ & rest & H & _); [vm_compute; reflexivity..|]. exists rest. exact H.
Defined.
