(* ===== verification/Token.v ===== *)
(** IAM's access tokens.

    [auth-core/src/json.ts] (structural readers), [auth-core/src/oauth.ts] (resource URIs, client ids, scopes),
    [auth-core/src/workloads.ts] and [auth-core/src/membership.ts] (workload names, mailboxes),
    [auth-core/src/token.ts] (claims, their building and parsing) and the token half of
    [auth-core/src/requirement.ts] ([callerOf], [callerAdmittedAt]). *)

From S2P Require Import Prelude Permissions.
From Stdlib Require Import ZArith Lia String Ascii.
From stdpp Require Import base tactics strings gmap list pretty.

(** ** json.ts *)

(** The own property [k] of an array: its length, or the element at the canonical index [k]. *)
Fixpoint index_prop (i : N) (l : list json) (k : string) : option json :=
  match l with
  | [] => None
  | v :: rest => if (pretty i =? k)%string then Some v else index_prop (i + 1)%N rest k
  end.

Definition prop (value : option json) (key : string) : option json :=
  match value with
  | Some (JObj fields) => lookup_field key fields
  | Some (JArr l) =>
      if (key =? "length")%string then Some (JNum (NFinite (Z.of_nat (length l)) 0)) else index_prop 0 l key
  | _ => None
  end.

Definition stringField (value : option json) (key : string) : option string :=
  match prop value key with Some (JStr s) => Some s | _ => None end.

Definition numberField (value : option json) (key : string) : option jsnum :=
  match prop value key with Some (JNum (NFinite m e)) => Some (NFinite m e) | _ => None end.

(** ** oauth.ts *)

(** What the code reads of [new URL(value)]; parsing a URL is the platform's. [None] is a throw. *)
Record UrlParts := mkUrl { url_protocol : string; url_hostname : string }.

Class UrlParser := new_URL : string -> option UrlParts.

Definition is_scope_unit (c : ascii) : bool :=
  (Js.code c =? 33)%nat || Js.in_range 35 91 c || Js.in_range 93 126 c.

(** [/^[\x21\x23-\x5b\x5d-\x7e]+$/] on a string of 1 to 200 units. *)
Definition isScopeToken (item : string) : bool :=
  (0 <? String.length item)%nat && (String.length item <=? 200)%nat && Js.forall_units is_scope_unit item.

Fixpoint parseOAuthScopes_loop (items : list json) (scopes : list string) : option (list string) :=
  match items with
  | [] => Some scopes
  | JStr item :: rest =>
      if negb (isScopeToken item) || Js.elem item scopes then None else parseOAuthScopes_loop rest (scopes ++ [item])
  | _ => None
  end.

Definition parseOAuthScopes (value : option json) : option (list string) :=
  match value with
  | Some (JArr items) =>
      if (length items =? 0)%nat || (64 <? length items)%nat then None else parseOAuthScopes_loop items []
  | _ => None
  end.

(** The units no URI text holds: white space, backslash, angle brackets, the double quote, braces, bar, caret, backtick. *)
Definition is_uri_refused (c : ascii) : bool :=
  Js.is_space c || existsb (Nat.eqb (Js.code c)) [92; 60; 62; 34; 123; 125; 124; 94; 96]%nat.

(** [!/%(?![A-Fa-f0-9]{2})/.test(s)] *)
Fixpoint escapes_ok (s : string) : bool :=
  match s with
  | EmptyString => true
  | String c rest =>
      (if Ascii.eqb c "%" then
         match rest with String a (String b _) => Js.is_hex a && Js.is_hex b | _ => false end
       else true) && escapes_ok rest
  end.

Definition is_authority_end (c : ascii) : bool := Ascii.eqb c "/" || Ascii.eqb c "?" || Ascii.eqb c "#".

(** [/^https?:\/\/[^/?#]+(?:[/?#]|$)/i.test(value)] *)
Definition hasHttpAuthority (value : string) : bool :=
  let lower := Js.toLowerCase value in
  let nonempty rest := match rest with String c _ => negb (is_authority_end c) | EmptyString => false end in
  (Js.startsWith lower "http://" && nonempty (Js.drop 7 value))
  || (Js.startsWith lower "https://" && nonempty (Js.drop 8 value)).

Definition isUriText (value : string) : bool :=
  (0 <? String.length value)%nat && (String.length value <=? 2048)%nat
  && Js.forall_units (fun c => negb (is_uri_refused c)) value && escapes_ok value && hasHttpAuthority value.

(** [s.split(/[…]/)[0]]: the units before the first that satisfies [p]. *)
Fixpoint until (p : ascii -> bool) (s : string) : string :=
  match s with
  | EmptyString => EmptyString
  | String c rest => if p c then EmptyString else String c (until p rest)
  end.

(** What follows the first ['://'], and that up to the next one. *)
Fixpoint after_scheme (s : string) : option string :=
  if Js.startsWith s "://" then Some (Js.drop 3 s)
  else match s with EmptyString => None | String _ s' => after_scheme s' end.

Fixpoint before_scheme (s : string) : string :=
  if Js.startsWith s "://" then EmptyString
  else match s with EmptyString => EmptyString | String c s' => String c (before_scheme s') end.

(** [value.split('://')[1]?.split(/[/?#]/)[0] ?? ''] *)
Definition uriAuthority (value : string) : string :=
  match after_scheme value with
  | None => ""
  | Some rest => until is_authority_end (before_scheme rest)
  end.

Section Uris.
Context `{UrlParser}.

Definition isOAuthResourceUri (value : string) : bool :=
  if negb (isUriText value) then false
  else match new_URL value with
       | None => false
       | Some url =>
           let local := (url_hostname url =? "localhost")%string || Js.endsWith (url_hostname url) ".localhost"
                        || (url_hostname url =? "127.0.0.1")%string || (url_hostname url =? "[::1]")%string in
           ((url_protocol url =? "https:")%string || ((url_protocol url =? "http:")%string && local))
           && negb (Js.includes (uriAuthority value) "@") && negb (Js.includes value "#")
       end.

(** [segment.replace(/%2e/gi, '.')] *)
Fixpoint decodeDots (s : string) : string :=
  match s with
  | String c s1 =>
      match s1 with
      | String d (String e rest) =>
          if Ascii.eqb c "%" && Ascii.eqb d "2" && Ascii.eqb (Js.lower_unit e) "e"
          then String "." (decodeDots rest) else String c (decodeDots s1)
      | _ => String c (decodeDots s1)
      end
  | EmptyString => EmptyString
  end.

Definition isCimdClientId (value : string) : bool :=
  if negb (isUriText value) || Js.includes value "#" || Js.includes (uriAuthority value) "@" then false
  else match new_URL value with
       | None => false
       | Some url =>
           let authorityAndPath :=
             until (fun c => Ascii.eqb c "?" || Ascii.eqb c "#") (default (Js.drop 2 value) (after_scheme value)) in
           match Js.indexOf "/" authorityAndPath with
           | None => false
           | Some pathStart =>
               if negb (url_protocol url =? "https:")%string then false
               else
                 let segments := map decodeDots (Js.split "/" (Js.drop pathStart authorityAndPath)) in
                 negb (existsb (fun segment => (segment =? ".")%string || (segment =? "..")%string) segments)
           end
       end.

End Uris.

(** ** workloads.ts and membership.ts *)

Definition is_word_unit (c : ascii) : bool := Js.is_letter c || Js.is_digit c || Ascii.eqb c "_".

(** [/^[A-Za-z][A-Za-z0-9_]*$/] *)
Definition isWord (name : string) : bool :=
  match name with String c rest => Js.is_letter c && Js.forall_units is_word_unit rest | EmptyString => false end.

(** [WORKLOAD_NAME.test] of workloads.ts *)
Definition ownWorkloadPattern (name : string) : bool := isWord name && (String.length name <=? 64)%nat.

(** [PUBLIC_WORKLOAD_NAME.test] *)
Definition publicWorkloadPattern (name : string) : bool :=
  let parts := Js.split "." name in (2 <=? length parts)%nat && forallb isWord parts.

Definition MAX_PUBLIC_WORKLOAD_NAME_LENGTH : nat := 128.

(** [isOwnWorkloadName]: the kind [public], or a job or webhook. *)
Definition isOwnWorkloadName (public : bool) (name : string) : bool :=
  if public then (String.length name <=? MAX_PUBLIC_WORKLOAD_NAME_LENGTH)%nat && publicWorkloadPattern name
  else ownWorkloadPattern name.

Definition is_mailbox_unit (c : ascii) : bool := negb (Js.is_space c || Ascii.eqb c "@").

(** [/^[^\s@]+@[^\s@]+$/.test(value)] *)
Definition mailboxPattern (value : string) : bool :=
  match Js.split "@" value with
  | [local; domain] =>
      negb (local =? "")%string && Js.forall_units is_mailbox_unit local
      && negb (domain =? "")%string && Js.forall_units is_mailbox_unit domain
  | _ => false
  end.

Definition isNormalizedMailbox (value : string) : bool :=
  (value =? Js.toLowerCase (Js.trim value))%string && mailboxPattern value.

(** ** types.ts and token.ts: the claims *)

Inductive WorkloadKind := KindJob | KindWebhook | KindPublic | KindApp.

Inductive TokenPrincipalType := TypeUser | TypeService | TypeWorkload (kind : WorkloadKind).

#[global] Instance WorkloadKind_eq_dec : EqDecision WorkloadKind.
Proof. solve_decision. Defined.

#[global] Instance TokenPrincipalType_eq_dec : EqDecision TokenPrincipalType.
Proof. solve_decision. Defined.

Definition kind_text (kind : WorkloadKind) : string :=
  match kind with KindJob => "job" | KindWebhook => "webhook" | KindPublic => "public" | KindApp => "app" end.

Definition ptype_text (type : TokenPrincipalType) : string :=
  match type with TypeUser => "user" | TypeService => "service" | TypeWorkload kind => kind_text kind end.

(** [isWorkloadKind], on a principal type: the kind it is. *)
Definition isWorkloadKind (type : option TokenPrincipalType) : option WorkloadKind :=
  match type with Some (TypeWorkload kind) => Some kind | _ => None end.

Record TerminalTokenClaims := mkTerminal { terminal_id : string; terminal_label : string }.
Record LinkTokenClaims := mkLink { link_mount : string; link_chain : list Scope }.
Record OAuthTokenClaims := mkOAuth {
  oauth_app : string;
  oauth_clientId : string;
  oauth_scopes : list string;
  oauth_grantId : string;
  oauth_tokenId : string;
}.

(** [AccessTokenClaims]; [None] is an absent property, except [label]'s [null]. *)
Record AccessTokenClaims := mkClaims {
  iss : string;
  aud : string;
  sub : string;
  iat : jsnum;
  exp : jsnum;
  perms : list PermissionEntry;
  label : option string;
  ptype : option TokenPrincipalType;
  workload : option string;
  email : option string;
  session : bool;
  amr : bool;
  terminal : option TerminalTokenClaims;
  oauth : option OAuthTokenClaims;
  link : option LinkTokenClaims;
}.

Inductive TokenAudienceProfile :=
| ProfileApp (app : string)
| ProfileResource (app resource : string).

Inductive PrincipalKind := KindOf (type : TokenPrincipalType) | KindLink.

Definition principalKind (claims : AccessTokenClaims) : option PrincipalKind :=
  match ptype claims with
  | Some type => Some (KindOf type)
  | None => match link claims with None => None | Some _ => Some KindLink end
  end.

Definition matchesTokenAudience (claims : AccessTokenClaims) (profile : TokenAudienceProfile) : bool :=
  match profile with
  | ProfileApp app => match oauth claims with None => (aud claims =? app)%string | Some _ => false end
  | ProfileResource app resource =>
      match oauth claims with
      | None => false
      | Some o => (aud claims =? resource)%string && (oauth_app o =? app)%string
      end
  end.

(** [WORKLOAD_NAME.test] of token.ts *)
Definition workloadPattern (value : string) : bool :=
  match value with
  | String c rest =>
      (Js.is_letter c || Js.is_digit c)
      && Js.forall_units (fun d => is_word_unit d || Ascii.eqb d "-") rest && (String.length value <=? 64)%nat
  | EmptyString => false
  end.

Definition isWorkloadName (kind : WorkloadKind) (value : string) : bool :=
  match kind with KindPublic => isOwnWorkloadName true value | _ => workloadPattern value end.

Definition isTerminalClaims (id label : option string) : bool :=
  match id, label with
  | Some i, Some l => negb (i =? "")%string && negb (l =? "")%string
  | _, _ => false
  end.

Record AccessTokenParams := mkParams {
  p_iss : string;
  p_app : string;
  p_subject : string;
  p_type : option TokenPrincipalType;
  p_workload : option string;
  p_label : option string;
  p_email : option string;
  p_session : bool;
  p_terminal : option TerminalTokenClaims;
  p_permissions : list PermissionEntry;
  p_issuedAt : jsnum;
  p_expiresAt : jsnum;
  p_link : option LinkTokenClaims;
}.

Definition workload_problem (type : option TokenPrincipalType) (name : option string) : bool :=
  match isWorkloadKind type with
  | None => match name with Some _ => true | None => false end
  | Some kind => match name with Some n => negb (isWorkloadName kind n) | None => true end
  end.

Definition email_problem (type : option TokenPrincipalType) (mailbox : option string) : bool :=
  match mailbox with
  | None => false
  | Some m => negb (bool_decide (type = Some TypeUser)) || negb (isNormalizedMailbox m)
  end.

Definition session_problem (type : option TokenPrincipalType) (from_session : bool) : bool :=
  from_session && (bool_decide (type = None) || match isWorkloadKind type with Some _ => true | None => false end).

Definition terminal_problem (type : option TokenPrincipalType) (from_session : bool) (t : option TerminalTokenClaims) : bool :=
  match t with
  | None => false
  | Some t =>
      negb (bool_decide (type = Some TypeUser)) || negb from_session
      || negb (isTerminalClaims (Some (terminal_id t)) (Some (terminal_label t)))
  end.

Definition link_problem (type : option TokenPrincipalType) (l : option LinkTokenClaims) : bool :=
  match l with None => false | Some _ => negb (bool_decide (type = None)) end.

(** [buildAccessClaims]: the thrown message, or the claims. *)
Definition buildAccessClaims (params : AccessTokenParams) : string + AccessTokenClaims :=
  if workload_problem (p_type params) (p_workload params)
  then inl "A workload token names its workload, and only a workload token does"
  else if email_problem (p_type params) (p_email params)
  then inl "Only a user token carries a mailbox, and only a normalized one"
  else if session_problem (p_type params) (p_session params)
  then inl "Only a person's or a service's token is minted from a session"
  else if terminal_problem (p_type params) (p_session params) (p_terminal params)
  then inl "Only a person's session token names a terminal, and only by a non-empty id and label"
  else if link_problem (p_type params) (p_link params)
  then inl "A share-link token has no principal type"
  else inr {|
    iss := p_iss params; aud := p_app params; sub := p_subject params;
    iat := p_issuedAt params; exp := p_expiresAt params;
    perms := p_permissions params; label := p_label params; ptype := p_type params;
    workload := p_workload params; email := p_email params; session := p_session params;
    amr := match p_terminal params with Some _ => true | None => false end;
    terminal := p_terminal params; oauth := None; link := p_link params |}.

(** ** The claims as JSON *)

Definition scopeJson (s : Scope) : json := JObj [("type", JStr (scope_type s)); ("value", JStr (scope_value s))].

Definition sourceText (s : PermissionSource) : string :=
  match s with
  | SourceGrant => "grant"
  | SourceBootstrap => "bootstrap"
  | SourceTerminal => "terminal"
  | SourceGroup ref => "group:" +:+ ref
  end.

Definition entryJson (e : PermissionEntry) : json :=
  JObj [("action", JStr (action e));
        ("scope", match scope e with None => JNull | Some s => scopeJson s end);
        ("source", JStr (sourceText (source e)))].

(** A property that is present only when its value is. *)
Definition optional (key : string) (value : option json) : list (string * json) :=
  match value with Some v => [(key, v)] | None => [] end.

Definition nullable (value : option string) : json := match value with Some s => JStr s | None => JNull end.

(** The payload the signer serialises. A claims object [buildAccessClaims] made holds no [oauth] property; an OAuth
    payload is [buildResourceAccessClaims]'s. *)
Definition claimsJson (c : AccessTokenClaims) : json :=
  JObj ([("iss", JStr (iss c)); ("aud", JStr (aud c)); ("sub", JStr (sub c)); ("iat", JNum (iat c)); ("exp", JNum (exp c));
         ("perms", JArr (map entryJson (perms c))); ("label", nullable (label c))]
    ++ optional "ptype" (JStr ∘ ptype_text <$> ptype c)
    ++ optional "workload" (JStr <$> workload c)
    ++ optional "email" (JStr <$> email c)
    ++ (if session c then [("session", JBool true)] else [])
    ++ (if amr c then [("amr", JStr "terminal_assertion")] else [])
    ++ optional "terminal" ((fun t => JObj [("id", JStr (terminal_id t)); ("label", JStr (terminal_label t))]) <$> terminal c)
    ++ match oauth c with
       | None => []
       | Some o => [("app", JStr (oauth_app o)); ("client_id", JStr (oauth_clientId o));
                    ("scope", JStr (Js.join " " (oauth_scopes o))); ("grant", JStr (oauth_grantId o)); ("jti", JStr (oauth_tokenId o))]
       end
    ++ optional "link" ((fun l => JObj [("mount", JStr (link_mount l)); ("chain", JArr (map scopeJson (link_chain l)))]) <$> link c)).

(** ** Parsing

    A parser with three answers returns [None] for [undefined] (malformed), [Some None] for [null] (absent) and
    [Some (Some x)] for a value. *)

Definition parseScope (value : option json) : option (option Scope) :=
  match value with
  | Some JNull => Some None
  | _ =>
      match stringField value "type", stringField value "value" with
      | Some type, Some scopeValue => Some (Some (mkScope type scopeValue))
      | _, _ => None
      end
  end.

Definition parseSource (value : option json) : option PermissionSource :=
  match value with
  | Some (JStr s) =>
      if (s =? "grant")%string then Some SourceGrant
      else if (s =? "bootstrap")%string then Some SourceBootstrap
      else if (s =? "terminal")%string then Some SourceTerminal
      else if Js.startsWith s "group:" then Some (SourceGroup (Js.drop 6 s))
      else None
  | _ => None
  end.

Fixpoint parsePermissionEntries_loop (items : list json) (out : list PermissionEntry) : option (list PermissionEntry) :=
  match items with
  | [] => Some out
  | item :: rest =>
      match stringField (Some item) "action", parseScope (prop (Some item) "scope"), parseSource (prop (Some item) "source") with
      | Some act, Some sc, Some src => parsePermissionEntries_loop rest (out ++ [mkEntry act sc src])
      | _, _, _ => None
      end
  end.

Definition parsePermissionEntries (value : option json) : option (list PermissionEntry) :=
  match value with Some (JArr items) => parsePermissionEntries_loop items [] | _ => None end.

Definition parseNullableString (value : option json) : option (option string) :=
  match value with
  | None | Some JNull => Some None
  | Some (JStr s) => Some (Some s)
  | _ => None
  end.

Definition parseOptionalPrincipalType (value : option json) : option (option TokenPrincipalType) :=
  match value with
  | None | Some JNull => Some None
  | Some (JStr s) =>
      if (s =? "user")%string then Some (Some TypeUser)
      else if (s =? "service")%string then Some (Some TypeService)
      else if (s =? "job")%string then Some (Some (TypeWorkload KindJob))
      else if (s =? "webhook")%string then Some (Some (TypeWorkload KindWebhook))
      else if (s =? "public")%string then Some (Some (TypeWorkload KindPublic))
      else if (s =? "app")%string then Some (Some (TypeWorkload KindApp))
      else None
  | _ => None
  end.

Definition parseWorkload (value : option json) (type : option TokenPrincipalType) : option (option string) :=
  match isWorkloadKind type with
  | None => match value with None => Some None | Some _ => None end
  | Some kind => match value with Some (JStr s) => if isWorkloadName kind s then Some (Some s) else None | _ => None end
  end.

Definition parseEmail (value : option json) (type : option TokenPrincipalType) : option (option string) :=
  match value with
  | None => Some None
  | Some (JStr s) => if bool_decide (type = Some TypeUser) && isNormalizedMailbox s then Some (Some s) else None
  | Some _ => None
  end.

(** [session === true], or absent; anything else is malformed. *)
Definition parseSession (value : option json) : option bool :=
  match value with
  | None => Some false
  | Some (JBool true) => Some true
  | _ => None
  end.

Definition parseTerminalClaims (method value : option json) : option (option TerminalTokenClaims) :=
  match method, value with
  | None, None => Some None
  | Some (JStr s), _ =>
      if negb (s =? "terminal_assertion")%string then None
      else match stringField value "id", stringField value "label" with
           | Some id, Some lbl => if isTerminalClaims (Some id) (Some lbl) then Some (Some (mkTerminal id lbl)) else None
           | _, _ => None
           end
  | _, _ => None
  end.

Fixpoint parseChain (items : list json) (chain : list Scope) : option (list Scope) :=
  match items with
  | [] => Some chain
  | item :: rest =>
      match parseScope (Some item) with
      | Some (Some s) => parseChain rest (chain ++ [s])
      | _ => None
      end
  end.

Definition parseLinkClaims (value : option json) : option (option LinkTokenClaims) :=
  match value with
  | None => Some None
  | Some _ =>
      match stringField value "mount", prop value "chain" with
      | Some mount, Some (JArr rawChain) =>
          if (mount =? "")%string || (length rawChain =? 0)%nat then None
          else match parseChain rawChain [] with Some chain => Some (Some (mkLink mount chain)) | None => None end
      | _, _ => None
      end
  end.

Section Parse.
Context `{UrlParser}.

Definition parseOAuthClaims (payload : option json) : option (option OAuthTokenClaims) :=
  let app := prop payload "app" in
  let clientId := prop payload "client_id" in
  let scope := prop payload "scope" in
  let grantId := prop payload "grant" in
  let tokenId := prop payload "jti" in
  match app, clientId, scope, grantId, tokenId with
  | None, None, None, None, None => Some None
  | _, _, _, _, _ =>
      let scopes := match scope with Some (JStr s) => parseOAuthScopes (Some (JArr (map JStr (Js.split " " s)))) | _ => None end in
      match app, clientId, scopes, grantId, tokenId with
      | Some (JStr a), Some (JStr c), Some ss, Some (JStr g), Some (JStr t) =>
          if (a =? "")%string || negb (isCimdClientId c) || (g =? "")%string || (t =? "")%string then None
          else Some (Some (mkOAuth a c ss g t))
      | _, _, _, _, _ => None
      end
  end.

(** Whether the claims a token may hold together are refused: the joint conditions of [parseAccessClaims]. *)
Definition oauth_refused (o : option OAuthTokenClaims) (type : option TokenPrincipalType) (audience : string) : bool :=
  is_some o && (negb (bool_decide (type = Some TypeUser)) || negb (isOAuthResourceUri audience)).
Definition link_refused (l : option LinkTokenClaims) (type : option TokenPrincipalType) (o : option OAuthTokenClaims) : bool :=
  is_some l && (is_some type || is_some o).
Definition session_refused (from_session : bool) (type : option TokenPrincipalType) (o : option OAuthTokenClaims) : bool :=
  from_session && (bool_decide (type = None) || is_some (isWorkloadKind type) || is_some o).
Definition terminal_refused (t : option TerminalTokenClaims) (type : option TokenPrincipalType) (from_session : bool)
    (o : option OAuthTokenClaims) : bool :=
  is_some t && (negb (bool_decide (type = Some TypeUser)) || negb from_session || is_some o).

Definition parseAccessClaims (payload : option json) : option AccessTokenClaims :=
  iss ← stringField payload "iss";
  aud ← stringField payload "aud";
  sub ← stringField payload "sub";
  iat ← numberField payload "iat";
  exp ← numberField payload "exp";
  perms ← parsePermissionEntries (prop payload "perms");
  label ← parseNullableString (prop payload "label");
  ptype ← parseOptionalPrincipalType (prop payload "ptype");
  oauth ← parseOAuthClaims payload;
  if oauth_refused oauth ptype aud then None else
  link ← parseLinkClaims (prop payload "link");
  if link_refused link ptype oauth then None else
  workload ← parseWorkload (prop payload "workload") ptype;
  email ← parseEmail (prop payload "email") ptype;
  session ← parseSession (prop payload "session");
  if session_refused session ptype oauth then None else
  terminal ← parseTerminalClaims (prop payload "amr") (prop payload "terminal");
  if terminal_refused terminal ptype session oauth then None else
  Some {|
    iss := iss; aud := aud; sub := sub; iat := iat; exp := exp; perms := perms; label := label; ptype := ptype;
    workload := workload; email := email; session := session; amr := is_some terminal; terminal := terminal;
    oauth := oauth; link := link |}.

Record ResourceAccessTokenParams := mkResourceParams {
  r_iss : string;
  r_app : string;
  r_resource : string;
  r_subject : string;
  r_label : option string;
  r_permissions : list PermissionEntry;
  r_issuedAt : jsnum;
  r_expiresAt : jsnum;
  r_clientId : string;
  r_scopes : list string;
  r_grantId : string;
  r_tokenId : string;
}.

(** [buildResourceAccessClaims]: [None] is the throw. *)
Definition buildResourceAccessClaims (params : ResourceAccessTokenParams) : option json :=
  let payload := JObj [
    ("iss", JStr (r_iss params)); ("aud", JStr (r_resource params)); ("sub", JStr (r_subject params));
    ("iat", JNum (r_issuedAt params)); ("exp", JNum (r_expiresAt params));
    ("perms", JArr (map entryJson (r_permissions params))); ("ptype", JStr "user"); ("label", nullable (r_label params));
    ("app", JStr (r_app params)); ("client_id", JStr (r_clientId params));
    ("scope", JStr (Js.join " " (r_scopes params))); ("grant", JStr (r_grantId params)); ("jti", JStr (r_tokenId params))] in
  match parseAccessClaims (Some payload) with
  | Some claims => if is_some (oauth claims) then Some payload else None
  | None => None
  end.

End Parse.

(** [ResolvedPrincipal] *)
Record ResolvedPrincipal := mkResolved {
  principal_id : string;
  principal_type : TokenPrincipalType;
  principal_label : string;
  principal_permissions : list PermissionEntry;
  principal_requestId : string;
}.

Definition accessClaimsToResolved (claims : AccessTokenClaims) (requestId : string) : option ResolvedPrincipal :=
  match ptype claims with
  | None | Some (TypeWorkload _) => None
  | Some type => Some (mkResolved (sub claims) type (default (sub claims) (label claims)) (perms claims) requestId)
  end.

(** ** requirement.ts *)

Definition OAUTH_CALLER : string := "oauth".
Definition APP_CALLER_PREFIX : string := "app:".
Definition CONNECT_PREFIX : string := "/__fabrika/connect".

(** A [TokenCaller] is its text. *)
Definition callerOf (claims : AccessTokenClaims) : option string :=
  match oauth claims with
  | Some _ => Some OAUTH_CALLER
  | None =>
      match ptype claims with
      | Some TypeUser => Some "human"
      | Some TypeService => Some "machine"
      | Some (TypeWorkload KindApp) => match workload claims with None => None | Some w => Some ("app:" +:+ w) end
      | Some (TypeWorkload _) => None
      | None => Some "link"
      end
  end.

Definition callerAdmittedAt (caller path : string) : bool :=
  negb (Js.startsWith caller APP_CALLER_PREFIX) || Js.startsWith path (CONNECT_PREFIX +:+ "/").

(** ** Well-formed claims *)

Definition is_finite (n : jsnum) : bool := match n with NFinite _ _ => true | NNotFinite => false end.

Definition link_ok (l : option LinkTokenClaims) : bool :=
  match l with
  | None => true
  | Some l => negb (link_mount l =? "")%string && negb (length (link_chain l) =? 0)%nat
  end.

Definition terminal_ok (t : option TerminalTokenClaims) : bool :=
  match t with None => true | Some t => isTerminalClaims (Some (terminal_id t)) (Some (terminal_label t)) end.

Section WellFormed.
Context `{UrlParser}.

Definition oauth_ok (o : option OAuthTokenClaims) : Prop :=
  match o with
  | None => True
  | Some o =>
      oauth_app o <> "" /\ isCimdClientId (oauth_clientId o) = true /\ oauth_grantId o <> "" /\ oauth_tokenId o <> "" /\
      (0 < length (oauth_scopes o) <= 64)%nat /\ NoDup (oauth_scopes o) /\ Forall (fun s => isScopeToken s = true) (oauth_scopes o)
  end.

(** The claims of one token agree with each other (ADR-0022's principal kinds, and what each kind may carry). *)
Record claims_wf (c : AccessTokenClaims) : Prop := {
  wf_iat : is_finite (iat c) = true;
  wf_exp : is_finite (exp c) = true;
  wf_oauth : oauth_ok (oauth c);
  wf_oauth_joint : oauth_refused (oauth c) (ptype c) (aud c) = false;
  wf_link : link_ok (link c) = true;
  wf_link_joint : link_refused (link c) (ptype c) (oauth c) = false;
  wf_workload : workload_problem (ptype c) (workload c) = false;
  wf_email : email_problem (ptype c) (email c) = false;
  wf_session : session_refused (session c) (ptype c) (oauth c) = false;
  wf_terminal : terminal_ok (terminal c) = true;
  wf_terminal_joint : terminal_refused (terminal c) (ptype c) (session c) (oauth c) = false;
  wf_amr : amr c = is_some (terminal c);
}.

End WellFormed.

(** ** Lemmas *)

Lemma lookup_field_app {A} k (l1 l2 : list (string * A)) :
  lookup_field k (l1 ++ l2) = match lookup_field k l1 with Some v => Some v | None => lookup_field k l2 end.
Proof. induction l1 as [|[k' v] l1 IH]; [done|]. cbn -[String.eqb]. by destruct (k =? k')%string. Qed.

Lemma lookup_field_optional k k' v : lookup_field k (optional k' v) = if (k =? k')%string then v else None.
Proof. destruct v; cbn -[String.eqb]; by destruct (k =? k')%string. Qed.

Lemma lookup_field_if {A} k k' (v : A) (b : bool) :
  lookup_field k (if b then [(k', v)] else []) = if (k =? k')%string then if b then Some v else None else None.
Proof. destruct b; cbn -[String.eqb]; by destruct (k =? k')%string. Qed.

(** Evaluate a property of a built payload; the properties before it are the ones case analysis is on. *)
Ltac read_field :=
  unfold stringField, numberField, claimsJson; cbn [prop];
  rewrite ?lookup_field_app, ?lookup_field_optional, ?lookup_field_if; cbn;
  repeat match goal with
         | |- context [match ?x with _ => _ end] => is_proj x; destruct x; cbn; try reflexivity
         | |- context [?f <$> ?x] => is_proj x; destruct x; cbn; try reflexivity
         end; try reflexivity
with is_proj x :=
  lazymatch x with ptype _ => idtac | oauth _ => idtac | link _ => idtac | terminal _ => idtac | workload _ => idtac
                 | email _ => idtac | session _ => idtac | amr _ => idtac end.

Section ClaimFields.
Context (c : AccessTokenClaims).
Notation payload := (Some (claimsJson c)).

Lemma field_required :
  stringField payload "iss" = Some (iss c) /\ stringField payload "aud" = Some (aud c) /\
  stringField payload "sub" = Some (sub c) /\ prop payload "iat" = Some (JNum (iat c)) /\
  prop payload "exp" = Some (JNum (exp c)) /\ prop payload "perms" = Some (JArr (map entryJson (perms c))) /\
  prop payload "label" = Some (nullable (label c)).
Proof. split_and!; reflexivity. Qed.

Lemma field_ptype : prop payload "ptype" = JStr ∘ ptype_text <$> ptype c.
Proof. read_field. Qed.
Lemma field_workload : prop payload "workload" = JStr <$> workload c.
Proof. read_field. Qed.
Lemma field_email : prop payload "email" = JStr <$> email c.
Proof. read_field. Qed.
Lemma field_session : prop payload "session" = if session c then Some (JBool true) else None.
Proof. read_field. Qed.
Lemma field_amr : prop payload "amr" = if amr c then Some (JStr "terminal_assertion") else None.
Proof. read_field. Qed.
Lemma field_terminal : prop payload "terminal" =
  (fun t => JObj [("id", JStr (terminal_id t)); ("label", JStr (terminal_label t))]) <$> terminal c.
Proof. read_field. Qed.
Lemma field_link : prop payload "link" =
  (fun l => JObj [("mount", JStr (link_mount l)); ("chain", JArr (map scopeJson (link_chain l)))]) <$> link c.
Proof. read_field. Qed.
Lemma field_app : prop payload "app" = (fun o => JStr (oauth_app o)) <$> oauth c.
Proof. read_field. Qed.
Lemma field_client : prop payload "client_id" = (fun o => JStr (oauth_clientId o)) <$> oauth c.
Proof. read_field. Qed.
Lemma field_scope : prop payload "scope" = (fun o => JStr (Js.join " " (oauth_scopes o))) <$> oauth c.
Proof. read_field. Qed.
Lemma field_grant : prop payload "grant" = (fun o => JStr (oauth_grantId o)) <$> oauth c.
Proof. read_field. Qed.
Lemma field_jti : prop payload "jti" = (fun o => JStr (oauth_tokenId o)) <$> oauth c.
Proof. read_field. Qed.

End ClaimFields.

Lemma parseScope_json s : parseScope (Some (scopeJson s)) = Some (Some s).
Proof. by destruct s. Qed.

Lemma parseSource_text s : parseSource (Some (JStr (sourceText s))) = Some s.
Proof. destruct s as [| | |r]; try reflexivity. by destruct r. Qed.

Lemma parsePermissionEntries_loop_json es out :
  parsePermissionEntries_loop (map entryJson es) out = Some (out ++ es).
Proof.
  revert out. induction es as [|[act sc src] es IH]; intros out; [by rewrite app_nil_r|].
  cbn -[parseScope parseSource]. rewrite parseSource_text.
  replace (parseScope _) with (Some sc) by (destruct sc; [by rewrite parseScope_json|done]).
  rewrite IH. by rewrite <- app_assoc.
Qed.

Lemma parseChain_json ss out : parseChain (map scopeJson ss) out = Some (out ++ ss).
Proof.
  revert out. induction ss as [|s ss IH]; intros out; [by rewrite app_nil_r|].
  cbn -[parseScope]. by rewrite parseScope_json, IH, <- app_assoc.
Qed.

Lemma parseNullableString_nullable o : parseNullableString (Some (nullable o)) = Some o.
Proof. by destruct o. Qed.

Lemma parsePtype_text t : parseOptionalPrincipalType (JStr ∘ ptype_text <$> t) = Some t.
Proof. by destruct t as [[| |[]]|]. Qed.

Lemma parseWorkload_ok t w : workload_problem t w = false -> parseWorkload (JStr <$> w) t = Some w.
Proof.
  unfold workload_problem, parseWorkload. destruct (isWorkloadKind t), w; cbn; try done.
  rewrite negb_false_iff. by intros ->.
Qed.

Lemma parseWorkload_sound v t w : parseWorkload v t = Some w -> workload_problem t w = false.
Proof.
  unfold workload_problem, parseWorkload. destruct (isWorkloadKind t).
  - destruct v as [[]|]; try done. destruct (isWorkloadName _ _) eqn:E; [|done]. intros [= <-]. by rewrite E.
  - by destruct v; intros [= <-].
Qed.

Lemma parseEmail_ok t m : email_problem t m = false -> parseEmail (JStr <$> m) t = Some m.
Proof.
  unfold email_problem, parseEmail. destruct m; [|done]. cbn.
  rewrite orb_false_iff, !negb_false_iff. by intros [-> ->].
Qed.

Lemma parseEmail_sound v t m : parseEmail v t = Some m -> email_problem t m = false.
Proof.
  unfold email_problem, parseEmail. destruct v as [[]|]; try done; [|by intros [= <-]].
  destruct (_ && _) eqn:E; [|done]. intros [= <-]. apply andb_true_iff in E as [-> ->]. done.
Qed.

Lemma parseTerminal_ok t :
  terminal_ok t = true ->
  parseTerminalClaims (if is_some t then Some (JStr "terminal_assertion") else None)
    ((fun t => JObj [("id", JStr (terminal_id t)); ("label", JStr (terminal_label t))]) <$> t) = Some t.
Proof. destruct t as [[id lbl]|]; [|done]. cbn -[isTerminalClaims]. by intros ->. Qed.

Lemma parseTerminal_sound method v t : parseTerminalClaims method v = Some t -> terminal_ok t = true.
Proof.
  destruct method as [[]|]; cbn -[isTerminalClaims String.eqb]; try done;
    [|destruct v; [done|by intros [= <-]]].
  destruct (_ =? _)%string; cbn -[isTerminalClaims]; [|done].
  destruct (stringField v "id"), (stringField v "label"); try done.
  destruct (isTerminalClaims _ _) eqn:E; [|done]. by intros [= <-].
Qed.

Lemma parseLink_ok l :
  parseLinkClaims ((fun l => JObj [("mount", JStr (link_mount l)); ("chain", JArr (map scopeJson (link_chain l)))]) <$> l) =
  if link_ok l then Some l else None.
Proof.
  destruct l as [[mount chain]|]; [|done]. cbn. rewrite length_map.
  destruct (mount =? "")%string, (length chain =? 0)%nat; try done. cbn. by rewrite parseChain_json.
Qed.

Lemma parseChain_length items out chain :
  parseChain items out = Some chain -> length chain = length out + length items.
Proof.
  revert out. induction items as [|v items IH]; intros out H; [injection H as <-; cbn; lia|].
  cbn -[parseScope] in H. destruct (parseScope (Some v)) as [[s|]|]; try done.
  apply IH in H. rewrite H, length_app. cbn. lia.
Qed.

Lemma parseLink_sound v l : parseLinkClaims v = Some l -> link_ok l = true.
Proof.
  destruct v as [v|]; cbn -[stringField prop String.eqb]; [|by intros [= <-]].
  destruct (stringField (Some v) "mount") as [mount|]; [|done].
  destruct (prop (Some v) "chain") as [[]|]; try done.
  destruct (_ || _) eqn:E; [done|]. destruct (parseChain l0 []) eqn:Hc; [|done]. intros [= <-].
  apply parseChain_length in Hc. cbn -[String.eqb] in *. rewrite Hc. by rewrite <- negb_orb, E.
Qed.

Lemma isScopeToken_no_space s :
  isScopeToken s = true -> Js.forall_units (fun c => negb (Ascii.eqb c " ")) s = true.
Proof.
  unfold isScopeToken. rewrite andb_true_iff. intros [_ H]. revert H. apply forall_units_impl.
  intros c Hc. destruct (Ascii.eqb_spec c " ") as [->|]; [done|done].
Qed.

Lemma parseOAuthScopes_loop_spec items out scopes :
  NoDup out ->
  parseOAuthScopes_loop items out = Some scopes ->
  exists new, scopes = out ++ new /\ items = map JStr new /\ NoDup scopes /\ Forall (fun s => isScopeToken s = true) new.
Proof.
  revert out. induction items as [|v items IH]; intros out Hnd H.
  { injection H as <-. exists []. rewrite app_nil_r. repeat split; [done|constructor]. }
  cbn in H. destruct v as [| | |s| |]; try done. destruct (isScopeToken s) eqn:Hs, (Js.elem s out) eqn:He; try done.
  cbn in H. apply IH in H as (new & -> & -> & Hn & Hf).
  - exists (s :: new). rewrite <- app_assoc in *. repeat split; [done|]. by constructor.
  - apply NoDup_app. repeat split; auto using NoDup_singleton.
    intros x Hx ->%list_elem_of_singleton. apply elem_spec in Hx. congruence.
Qed.

Lemma parseOAuthScopes_loop_ok scopes out :
  NoDup (out ++ scopes) -> Forall (fun s => isScopeToken s = true) scopes ->
  parseOAuthScopes_loop (map JStr scopes) out = Some (out ++ scopes).
Proof.
  intros Hn Hf. revert out Hn. induction Hf as [|s scopes Hs Hf IH]; intros out Hn; [by rewrite app_nil_r|].
  cbn. rewrite Hs. replace (Js.elem s out) with false.
  - cbn. rewrite IH; [by rewrite <- app_assoc|]. by rewrite <- app_assoc.
  - symmetry. apply not_true_is_false. rewrite elem_spec. intros Hin.
    apply NoDup_app in Hn as (_ & H & _). apply (H s Hin). apply list_elem_of_here.
Qed.

Section RoundTrip.
Context `{UrlParser}.

Lemma parseOAuthScopes_sound v scopes :
  parseOAuthScopes v = Some scopes ->
  (0 < length scopes <= 64)%nat /\ NoDup scopes /\ Forall (fun s => isScopeToken s = true) scopes.
Proof.
  destruct v as [[| | | |items|]|]; try done. unfold parseOAuthScopes.
  destruct (_ || _) eqn:Hlen; [done|].
  intros (new & -> & -> & Hn & Hf)%parseOAuthScopes_loop_spec; [|constructor].
  rewrite length_map in Hlen. to_prop. cbn. repeat split; try done; lia.
Qed.

Lemma parseOAuth_sound payload o : parseOAuthClaims payload = Some o -> oauth_ok o.
Proof.
  unfold parseOAuthClaims.
  destruct (prop payload "app") as [a|], (prop payload "client_id") as [cl|], (prop payload "scope") as [sc|],
    (prop payload "grant") as [g|], (prop payload "jti") as [t|]; try (by intros [= <-]); try done;
    repeat (split_match; try done).
  intros [= <-]. to_prop. cbn.
  match goal with Hs : parseOAuthScopes _ = _ |- _ => apply parseOAuthScopes_sound in Hs as (? & ? & ?) end. done.
Qed.

Lemma parseOAuthScopes_ok ss :
  (0 < length ss <= 64)%nat -> NoDup ss -> Forall (fun s => isScopeToken s = true) ss ->
  parseOAuthScopes (Some (JArr (map JStr ss))) = Some ss.
Proof.
  intros Hlen Hn Hf. unfold parseOAuthScopes. rewrite length_map.
  rewrite (proj2 (Nat.eqb_neq (length ss) 0)), (proj2 (Nat.ltb_ge 64 (length ss))) by lia.
  by rewrite (parseOAuthScopes_loop_ok ss []).
Qed.

Lemma parseOAuth_ok c : oauth_ok (oauth c) -> parseOAuthClaims (Some (claimsJson c)) = Some (oauth c).
Proof.
  unfold parseOAuthClaims. rewrite field_app, field_client, field_scope, field_grant, field_jti.
  destruct (oauth c) as [[a cl ss g t]|]; [|done]. cbn -[String.eqb parseOAuthScopes Js.split Js.join].
  intros (Ha & Hc & Hg & Ht & Hlen & Hn & Hf). rewrite split_join, parseOAuthScopes_ok by
    first [done|(intros ->; cbn in Hlen; lia)|(eapply Forall_impl; [exact Hf|exact isScopeToken_no_space])].
  by rewrite Hc, (proj2 (String.eqb_neq a "") Ha), (proj2 (String.eqb_neq g "") Hg), (proj2 (String.eqb_neq t "") Ht).
Qed.

(** Parsing the JSON of claims, in the order [parseAccessClaims] checks them. *)
Lemma parse_claimsJson c : claims_wf c -> parseAccessClaims (Some (claimsJson c)) = Some c.
Proof.
  intros [Hi He Ho Hoj Hl Hlj Hw Hm Hs Ht Htj Ha]. unfold parseAccessClaims.
  destruct (field_required c) as (Fiss & Faud & Fsub & Fi & Fe & Fp & Fl).
  rewrite (bind_value Fiss), (bind_value Faud), (bind_value Fsub).
  assert (Ni : numberField (Some (claimsJson c)) "iat" = Some (iat c)) by (unfold numberField; rewrite Fi; by destruct (iat c)).
  assert (Ne : numberField (Some (claimsJson c)) "exp" = Some (exp c)) by (unfold numberField; rewrite Fe; by destruct (exp c)).
  rewrite (bind_value Ni), (bind_value Ne), Fp, (bind_value (parsePermissionEntries_loop_json (perms c) [])).
  rewrite Fl, (bind_value (parseNullableString_nullable (label c))).
  rewrite field_ptype, (bind_value (parsePtype_text (ptype c))), (bind_value (parseOAuth_ok c Ho)), Hoj.
  pose proof (parseLink_ok (link c)) as Fk. rewrite Hl in Fk. rewrite field_link, (bind_value Fk), Hlj.
  rewrite field_workload, (bind_value (parseWorkload_ok _ _ Hw)), field_email, (bind_value (parseEmail_ok _ _ Hm)).
  assert (Ns : parseSession (prop (Some (claimsJson c)) "session") = Some (session c))
    by (rewrite field_session; by destruct (session c)).
  rewrite (bind_value Ns), Hs, field_amr, Ha, field_terminal, (bind_value (parseTerminal_ok _ Ht)), Htj, <- Ha.
  by destruct c.
Qed.

Lemma parse_sound payload c : parseAccessClaims payload = Some c -> claims_wf c.
Proof.
  unfold parseAccessClaims. intros Hp.
  repeat (apply bind_Some in Hp as (? & ? & Hp) || (destruct (_ : bool) eqn:? in Hp; [discriminate Hp|])).
  injection Hp as <-. constructor; cbn; try done; eauto using parseOAuth_sound, parseLink_sound, parseWorkload_sound,
    parseEmail_sound, parseTerminal_sound.
  all: unfold numberField in *; by repeat split_match_in H3; repeat split_match_in H4; simplify_eq.
Qed.

End RoundTrip.

(** ** Properties *)

Section TokenProperties.
Context `{UrlParser}.

(** What a parse read of the payload. *)
Lemma parse_reads payload c :
  parseAccessClaims payload = Some c ->
  numberField payload "iat" = Some (iat c) /\ numberField payload "exp" = Some (exp c) /\
  parseLinkClaims (prop payload "link") = Some (link c) /\ stringField payload "aud" = Some (aud c) /\
  parseOAuthClaims payload = Some (oauth c).
Proof.
  unfold parseAccessClaims. intros Hp.
  repeat (apply bind_Some in Hp as (? & ? & Hp) || (destruct (_ : bool) eqn:? in Hp; [discriminate Hp|])).
  by injection Hp as <-.
Qed.

Lemma parseOAuth_app payload o :
  parseOAuthClaims payload = Some (Some o) -> stringField payload "app" = Some (oauth_app o).
Proof.
  unfold parseOAuthClaims, stringField. intros Hp.
  destruct (prop payload "app") as [a|]; repeat split_match_in Hp; by simplify_eq.
Qed.

Lemma build_inv params c :
  buildAccessClaims params = inr c ->
  workload_problem (p_type params) (p_workload params) = false /\ email_problem (p_type params) (p_email params) = false /\
  session_problem (p_type params) (p_session params) = false /\
  terminal_problem (p_type params) (p_session params) (p_terminal params) = false /\
  link_problem (p_type params) (p_link params) = false /\
  c = {| iss := p_iss params; aud := p_app params; sub := p_subject params; iat := p_issuedAt params;
         exp := p_expiresAt params; perms := p_permissions params; label := p_label params; ptype := p_type params;
         workload := p_workload params; email := p_email params; session := p_session params;
         amr := is_some (p_terminal params); terminal := p_terminal params; oauth := None; link := p_link params |}.
Proof. unfold buildAccessClaims. repeat (split_match; [done|]). intros [= <-]. by destruct (p_terminal params). Qed.

Lemma build_wf params c :
  buildAccessClaims params = inr c ->
  is_finite (p_issuedAt params) = true -> is_finite (p_expiresAt params) = true -> link_ok (p_link params) = true ->
  claims_wf c.
Proof.
  intros (Hw & Hm & Hs & Ht & Hl & ->)%build_inv Hi He Hk. constructor; cbn; try done.
  - unfold link_refused, link_problem in *. destruct (p_link params), (p_type params); try done.
  - unfold session_refused, session_problem in *. rewrite orb_false_r. by destruct (isWorkloadKind _).
  - unfold terminal_problem in Ht. destruct (p_terminal params); [|done]. to_prop. done.
  - unfold terminal_refused, terminal_problem in *. destruct (p_terminal params); [|done]. cbn in *.
    destruct (bool_decide _), (p_session params); done.
Qed.

(** C38. Parsing a payload yields only claims that agree with each other, and parsing is canonical: the claims written
    out again as JSON parse to the same claims. *)
Theorem parseAccessClaims_canonical (payload : option json) (c : AccessTokenClaims) :
  parseAccessClaims payload = Some c -> claims_wf c /\ parseAccessClaims (Some (claimsJson c)) = Some c.
Proof. intros Hc%parse_sound. split; [done|]. by apply parse_claimsJson. Qed.

(** What IAM builds, the SDK reads back: the payload of built claims parses to those claims, unless its times are no
    finite numbers or its link names no mount or an empty chain, which [buildAccessClaims] lets through and the parser
    refuses. *)
Theorem buildAccessClaims_roundtrip (params : AccessTokenParams) (c : AccessTokenClaims) :
  buildAccessClaims params = inr c ->
  parseAccessClaims (Some (claimsJson c)) =
    if is_finite (p_issuedAt params) && is_finite (p_expiresAt params) && link_ok (p_link params) then Some c else None.
Proof.
  intros Hb. destruct (_ && _) eqn:Hok.
  - to_prop. apply parse_claimsJson. by eapply build_wf.
  - destruct (parseAccessClaims _) as [c'|] eqn:Hp; [|done]. exfalso.
    pose proof (parse_sound _ _ Hp) as Hwf. apply parse_reads in Hp as (Hi & He & Hl & _).
    apply build_inv in Hb as (_ & _ & _ & _ & _ & ->).
    unfold numberField in Hi, He.
    rewrite field_link, parseLink_ok in Hl. cbn in Hl, Hi, He.
    destruct (link_ok (p_link params)), (p_issuedAt params), (p_expiresAt params); done.
Qed.

(** An app token and a resource token never pass for each other: no claims are accepted by an app profile and by a
    resource profile, and a resource token that was built is accepted by exactly the resource profiles of its own app
    and resource, as the caller [oauth]. *)
Theorem token_audiences_disjoint (c : AccessTokenClaims) (app app' resource : string) :
  (matchesTokenAudience c (ProfileApp app) && matchesTokenAudience c (ProfileResource app' resource) = false) /\
  forall params payload, buildResourceAccessClaims params = Some payload ->
    exists claims, parseAccessClaims (Some payload) = Some claims /\ callerOf claims = Some OAUTH_CALLER /\
      matchesTokenAudience claims (ProfileApp app) = false /\
      (matchesTokenAudience claims (ProfileResource app' resource) = true <->
         app' = r_app params /\ resource = r_resource params).
Proof.
  split; [unfold matchesTokenAudience; by destruct (oauth c), (aud c =? app)%string|].
  intros params payload. unfold buildResourceAccessClaims.
  destruct (parseAccessClaims _) as [claims|] eqn:Hp; [|done].
  destruct (oauth claims) as [o|] eqn:Ho; [|done]. intros [= <-]. exists claims. split; [done|].
  unfold callerOf, matchesTokenAudience. rewrite Ho. split; [done|]. split; [done|].
  assert (aud claims = r_resource params /\ oauth_app o = r_app params) as [-> ->].
  { apply parse_reads in Hp as (_ & _ & _ & Haud & Hoauth). rewrite Ho in Hoauth. apply parseOAuth_app in Hoauth.
    injection Haud as <-. by injection Hoauth as <-. }
  rewrite andb_true_iff, !String.eqb_eq. naive_solver.
Qed.

(** The caller a parsed token presents: none for a job, a webhook or a public procedure, [link] exactly for a token
    bound to no principal, and [app:<id>] exactly for a connector key, which alone is kept to the export paths. *)
Theorem callerOf_parsed (payload : option json) (c : AccessTokenClaims) :
  parseAccessClaims payload = Some c ->
  (callerOf c = None <-> exists kind, ptype c = Some (TypeWorkload kind) /\ kind <> KindApp) /\
  (callerOf c = Some "link" <-> ptype c = None) /\
  (callerOf c = Some "oauth" <-> oauth c <> None) /\
  (forall caller path, callerOf c = Some caller ->
     callerAdmittedAt caller path = true <->
     (ptype c = Some (TypeWorkload KindApp) -> Js.startsWith path (CONNECT_PREFIX +:+ "/") = true)).
Proof.
  intros Hwf%parse_sound. pose proof (wf_oauth_joint c Hwf) as Ho. pose proof (wf_workload c Hwf) as Hw.
  unfold callerOf, callerAdmittedAt, oauth_refused, workload_problem in *. cbn [isWorkloadKind] in *.
  destruct (oauth c) as [o|]; cbn in Ho.
  - to_prop. apply bool_decide_eq_true in H0 as ->. naive_solver.
  - destruct (ptype c) as [[| |[]]|]; cbn [isWorkloadKind] in Hw; try naive_solver.
    destruct (workload c) as [w|]; [|done]. split_and!; [naive_solver|by split|by split|].
    intros caller path [= <-]. cbn -[Js.startsWith CONNECT_PREFIX]. rewrite (proj2 (startsWith_spec _ "app:")) by eauto.
      naive_solver.
Qed.

End TokenProperties.

(** ** Concrete tokens *)

Definition demo_url : UrlParser := fun value =>
  if Js.startsWith value "https://" then Some (mkUrl "https:" (uriAuthority value)) else None.

Definition demo_params : AccessTokenParams := {|
  p_iss := "https://iam.example.com"; p_app := "notes"; p_subject := "p1"; p_type := Some TypeUser; p_workload := None;
  p_label := Some "Ann@Example.com"; p_email := Some "ann@example.com"; p_session := true;
  p_terminal := Some (mkTerminal "t1" "Front desk");
  p_permissions := [mkEntry "note.read" (Some (mkScope "note" "n1")) (SourceGroup "org/team"); mkEntry "*" None SourceBootstrap];
  p_issuedAt := NFinite 1700000000 0; p_expiresAt := NFinite 1700000300 0; p_link := None |}.

Definition demo_claims (params : AccessTokenParams) : AccessTokenClaims :=
  match buildAccessClaims params with
  | inr c => c
  | inl _ => mkClaims "" "" "" NNotFinite NNotFinite [] None None None None false false None None None
  end.

Definition demo_connector : AccessTokenParams := {|
  p_iss := "https://iam.example.com"; p_app := "notes"; p_subject := "k1"; p_type := Some (TypeWorkload KindApp);
  p_workload := Some "billing"; p_label := None; p_email := None; p_session := false; p_terminal := None;
  p_permissions := []; p_issuedAt := NFinite 1700000000 0; p_expiresAt := NFinite 1700000300 0; p_link := None |}.

Definition demo_resource : ResourceAccessTokenParams := {|
  r_iss := "https://iam.example.com"; r_app := "notes"; r_resource := "https://notes.example.com/mcp"; r_subject := "p1";
  r_label := None; r_permissions := []; r_issuedAt := NFinite 1 0; r_expiresAt := NFinite 2 0;
  r_clientId := "https://client.example.com/meta.json"; r_scopes := ["notes:read"; "notes:write"]; r_grantId := "g"; r_tokenId := "j" |}.

Lemma parseAccessClaims_canonical_witness :
  parseAccessClaims (H := demo_url) (Some (claimsJson (demo_claims demo_params))) = Some (demo_claims demo_params) /\
  claims_wf (H := demo_url) (demo_claims demo_params).
Proof.
  assert (Hp : parseAccessClaims (H := demo_url) (Some (claimsJson (demo_claims demo_params))) = Some (demo_claims demo_params))
    by (vm_compute; reflexivity).
  split; [exact Hp|]. exact (proj1 (parseAccessClaims_canonical (H := demo_url) _ _ Hp)).
Defined.

Lemma buildAccessClaims_roundtrip_witness :
  buildAccessClaims demo_params = inr (demo_claims demo_params) /\
  parseAccessClaims (H := demo_url) (Some (claimsJson (demo_claims demo_params))) = Some (demo_claims demo_params).
Proof.
  split; [vm_compute; reflexivity|].
  exact (buildAccessClaims_roundtrip (H := demo_url) demo_params (demo_claims demo_params) eq_refl).
Defined.

Lemma token_audiences_disjoint_witness :
  exists payload claims, buildResourceAccessClaims (H := demo_url) demo_resource = Some payload /\
    parseAccessClaims (H := demo_url) (Some payload) = Some claims /\
    matchesTokenAudience claims (ProfileApp "notes") = false.
Proof.
  destruct (buildResourceAccessClaims (H := demo_url) demo_resource) as [payload|] eqn:Hb; [|vm_compute in Hb; discriminate Hb].
  destruct (token_audiences_disjoint (H := demo_url) (demo_claims demo_params) "notes" "notes" "x") as [_ Hd].
  destruct (Hd _ _ Hb) as (claims & Hp & _ & Ha & _). exists payload, claims. split; [reflexivity|]. split; [exact Hp|exact Ha].
Defined.

Lemma callerOf_parsed_witness :
  callerOf (demo_claims demo_connector) = Some "app:billing" /\
  callerAdmittedAt "app:billing" "/__fabrika/connect/export" = true /\ callerAdmittedAt "app:billing" "/api" = false.
Proof.
  assert (Hp : parseAccessClaims (H := demo_url) (Some (claimsJson (demo_claims demo_connector))) = Some (demo_claims demo_connector))
    by (vm_compute; reflexivity).
  destruct (callerOf_parsed (H := demo_url) _ _ Hp) as (_ & _ & _ & Hpath).
  split; [reflexivity|]. split; [apply (Hpath "app:billing" _ eq_refl); reflexivity|reflexivity].
Defined.
