(* ===== verification/TokenCache.v ===== *)
(** The minted-token cache of the proxy ([proxy-core/src/cache.ts]): the interface [TokenCache] with what its clients may
    rely on, and the bounded in-memory implementation [MemoryTokenCache]. *)

From S2P Require Import Prelude.
From Stdlib Require Import ZArith Lia String Ascii.
From stdpp Require Import base tactics strings gmap list.

(** Times are unix seconds. *)
Record CachedToken := mkCached { token : string; expiresAt : Z }.

(** ** The interface *)

Class TokenCache (C : Type) := {
  cache_get : C -> string -> option CachedToken;
  cache_set : C -> string -> CachedToken -> C;
  cache_delete : C -> string -> C;
}.

(** A cache is best-effort: it may forget, but it never answers with anything but the last value set under the very key. *)
Class TokenCacheLaws (C : Type) `{TokenCache C} := {
  get_after_set c k v k' v' :
    cache_get (cache_set c k v) k' = Some v' -> (k' = k /\ v' = v) \/ (k' <> k /\ cache_get c k' = Some v');
  get_after_delete c k k' v' :
    cache_get (cache_delete c k) k' = Some v' -> k' <> k /\ cache_get c k' = Some v';
}.

(** ** MemoryTokenCache *)

Definition DEFAULT_CACHE_BYTES : Z := 32 * 1024 * 1024.

Definition sizeOf (key : string) (value : CachedToken) : Z :=
  (Z.of_nat (String.length key) + Z.of_nat (String.length (token value)))%Z.

(** [entries] is the [Map] in its iteration order, the order of insertion. *)
Record MemoryTokenCache := mkMemoryCache {
  entries : list (string * CachedToken);
  bytes : Z;
  maxEntries : nat;
  maxBytes : Z;
}.

Definition new_MemoryTokenCache (max_entries : nat) (max_bytes : Z) : MemoryTokenCache :=
  mkMemoryCache [] 0 max_entries max_bytes.

(** [Map.prototype.delete] *)
Fixpoint map_delete (key : string) (l : list (string * CachedToken)) : list (string * CachedToken) :=
  match l with
  | [] => []
  | (k, v) :: rest => if (k =? key)%string then map_delete key rest else (k, v) :: map_delete key rest
  end.

Definition memory_get (c : MemoryTokenCache) (key : string) : option CachedToken := lookup_field key (entries c).

Definition memory_delete (c : MemoryTokenCache) (key : string) : MemoryTokenCache :=
  match memory_get c key with
  | None => c
  | Some held => mkMemoryCache (map_delete key (entries c)) (bytes c - sizeOf key held) (maxEntries c) (maxBytes c)
  end.

Definition over_budget (c : MemoryTokenCache) : bool :=
  (maxEntries c <? length (entries c))%nat || (maxBytes c <? bytes c)%Z.

(** The eviction loop of [set]; each turn deletes the oldest entry. *)
Fixpoint evict (fuel : nat) (c : MemoryTokenCache) : MemoryTokenCache :=
  match fuel with
  | O => c
  | S fuel' =>
      if over_budget c then
        match entries c with
        | [] => c
        | (oldest, _) :: _ => evict fuel' (memory_delete c oldest)
        end
      else c
  end.

Definition memory_set (c : MemoryTokenCache) (key : string) (value : CachedToken) : MemoryTokenCache :=
  let c := memory_delete c key in
  let size := sizeOf key value in
  if (maxBytes c <? size)%Z then c
  else
    let c := mkMemoryCache (entries c ++ [(key, value)]) (bytes c + size) (maxEntries c) (maxBytes c) in
    evict (S (length (entries c))) c.

Definition size (c : MemoryTokenCache) : nat := length (entries c).

#[global] Instance MemoryTokenCache_ops : TokenCache MemoryTokenCache :=
  {| cache_get := memory_get; cache_set := memory_set; cache_delete := memory_delete |}.

(** [cacheKey]; [kind] is ['session'] or ['key']. *)
Inductive CredentialKind := CredSession | CredKey.

Definition credential_kind_text (kind : CredentialKind) : string :=
  match kind with CredSession => "session" | CredKey => "key" end.

Definition cacheKey (app : string) (kind : CredentialKind) (credential : string) : string :=
  app +:+ " " +:+ credential_kind_text kind +:+ " " +:+ credential.

(** ** Lemmas *)

Fixpoint total_size (l : list (string * CachedToken)) : Z :=
  match l with
  | [] => 0
  | (k, v) :: l' => (sizeOf k v + total_size l')%Z
  end.

(** What the class keeps: each key once, the byte count exact, and both budgets met. *)
Record cache_wf (c : MemoryTokenCache) : Prop := {
  wf_keys : NoDup (map fst (entries c));
  wf_bytes : bytes c = total_size (entries c);
}.

Lemma sizeOf_nonneg k v : (0 <= sizeOf k v)%Z.
Proof. unfold sizeOf. lia. Qed.

Lemma total_size_nonneg l : (0 <= total_size l)%Z.
Proof. induction l as [|[k v] l IH]; cbn; [lia|]. pose proof (sizeOf_nonneg k v). lia. Qed.

Lemma total_size_app l l' : total_size (l ++ l') = (total_size l + total_size l')%Z.
Proof. induction l as [|[k v] l IH]; cbn; [done|]. rewrite IH. lia. Qed.

Lemma lookup_field_elem {A} k (l : list (string * A)) v : lookup_field k l = Some v -> (k, v) ∈ l.
Proof.
  induction l as [|[k' v'] l IH]; cbn -[String.eqb]; [done|].
  destruct (String.eqb_spec k k') as [->|]; [intros [= ->]; left|right; auto].
Qed.

Lemma lookup_field_none {A} k (l : list (string * A)) : lookup_field k l = None <-> k ∉ map fst l.
Proof.
  induction l as [|[k' v'] l IH]; cbn -[String.eqb]; [set_solver|].
  destruct (String.eqb_spec k k') as [->|Hne]; [set_solver|]. rewrite IH. set_solver.
Qed.

Lemma lookup_field_snoc {A} k (l : list (string * A)) k0 v0 :
  lookup_field k (l ++ [(k0, v0)]) = match lookup_field k l with Some v => Some v | None => if (k =? k0)%string then Some v0 else None end.
Proof. induction l as [|[k1 v1] l IH]; [done|]. cbn -[String.eqb]. by destruct (k =? k1)%string. Qed.

Lemma map_delete_keys key l k : k ∈ map fst (map_delete key l) <-> k ∈ map fst l /\ k <> key.
Proof.
  induction l as [|[k' v] l IH]; cbn -[String.eqb]; [set_solver|].
  destruct (String.eqb_spec k' key) as [->|Hne]; cbn; rewrite ?elem_of_cons, IH; naive_solver.
Qed.

Lemma map_delete_nodup key l : NoDup (map fst l) -> NoDup (map fst (map_delete key l)).
Proof.
  induction l as [|[k' v] l IH]; cbn -[String.eqb]; [done|]. intros [Hn Hd]%NoDup_cons.
  destruct (String.eqb_spec k' key) as [->|Hne]; cbn; [auto|]. constructor; [rewrite map_delete_keys; tauto|auto].
Qed.

Lemma map_delete_notin key l : key ∉ map fst l -> map_delete key l = l.
Proof.
  induction l as [|[k' v] l IH]; cbn -[String.eqb]; [done|]. intros Hn.
  destruct (String.eqb_spec k' key) as [->|Hne]; cbn; [set_solver|]. rewrite IH; set_solver.
Qed.

Lemma map_delete_size key l v :
  NoDup (map fst l) -> lookup_field key l = Some v -> total_size (map_delete key l) = (total_size l - sizeOf key v)%Z.
Proof.
  induction l as [|[k' v'] l IH]; cbn -[String.eqb]; [done|]. intros [Hn Hd]%NoDup_cons.
  rewrite String.eqb_sym. destruct (String.eqb_spec k' key) as [->|Hne]; cbn.
  - intros [= ->]. rewrite map_delete_notin by done. lia.
  - intros Hl. rewrite IH by done. lia.
Qed.

Lemma lookup_map_delete key l k :
  lookup_field k (map_delete key l) = if (k =? key)%string then None else lookup_field k l.
Proof.
  induction l as [|[k' v] l IH]; [by destruct (k =? key)%string|]. cbn -[String.eqb].
  destruct (String.eqb_spec k' key) as [E1|E1]; cbn -[String.eqb]; rewrite IH;
    destruct (String.eqb_spec k key) as [E2|E2], (String.eqb_spec k k') as [E3|E3]; congruence.
Qed.

Lemma memory_get_delete c key k :
  memory_get (memory_delete c key) k = if (k =? key)%string then None else memory_get c k.
Proof.
  unfold memory_delete. destruct (memory_get c key) as [held|] eqn:E; [apply lookup_map_delete|].
  destruct (String.eqb_spec k key) as [->|]; done.
Qed.

Lemma memory_delete_wf c key : cache_wf c -> cache_wf (memory_delete c key).
Proof.
  intros [Hk Hb]. unfold memory_delete. destruct (memory_get c key) as [held|] eqn:E; [|done].
  constructor; cbn; [by apply map_delete_nodup|]. by rewrite (map_delete_size _ _ held), Hb.
Qed.

(** Deleting the oldest entry leaves the others, in order. *)
Lemma memory_delete_oldest c k v rest :
  NoDup (map fst (entries c)) -> entries c = (k, v) :: rest ->
  memory_delete c k = mkMemoryCache rest (bytes c - sizeOf k v) (maxEntries c) (maxBytes c).
Proof.
  intros Hn He. unfold memory_delete, memory_get. rewrite He in *. cbn -[String.eqb]. rewrite !String.eqb_refl.
  cbn. apply NoDup_cons in Hn as [Hk _]. by rewrite map_delete_notin.
Qed.

(** The eviction loop, given fuel for every entry: it ends with both budgets met, having dropped a prefix. *)
Lemma evict_spec fuel c :
  cache_wf c -> (0 <= maxBytes c)%Z -> (length (entries c) < fuel)%nat ->
  let c' := evict fuel c in
  cache_wf c' /\ over_budget c' = false /\ maxEntries c' = maxEntries c /\ maxBytes c' = maxBytes c /\
  exists dropped, entries c = dropped ++ entries c'.
Proof.
  revert c. induction fuel as [|fuel IH]; intros c Hwf Hmax Hfuel; [lia|]. cbn [evict].
  destruct (over_budget c) eqn:Hover; [|cbn; split_and!; try done; by exists []].
  destruct (entries c) as [|[k v] rest] eqn:He.
  { exfalso. unfold over_budget in Hover. rewrite He, (wf_bytes c Hwf), He in Hover. cbn in Hover.
    apply Z.ltb_lt in Hover. lia. }
  rewrite (memory_delete_oldest c k v rest) by (done || apply Hwf).
  destruct (IH (mkMemoryCache rest (bytes c - sizeOf k v) (maxEntries c) (maxBytes c))) as (W & O & M1 & M2 & dropped & Hd).
  - destruct Hwf as [Hk Hb]. rewrite He in *. apply NoDup_cons in Hk as [_ Hk]. constructor; cbn; [done|].
    rewrite Hb. cbn. lia.
  - done.
  - cbn in *. lia.
  - cbn in *. split_and!; try done. exists ((k, v) :: dropped). cbn. by f_equal.
Qed.

Lemma memory_delete_budgets c key :
  maxEntries (memory_delete c key) = maxEntries c /\ maxBytes (memory_delete c key) = maxBytes c.
Proof. unfold memory_delete. by destruct (memory_get c key). Qed.

Lemma evict_get fuel c k v : memory_get (evict fuel c) k = Some v -> memory_get c k = Some v.
Proof.
  revert c. induction fuel as [|fuel IH]; intros c; cbn [evict]; [done|].
  destruct (over_budget c); [|done]. destruct (entries c) as [|[oldest w] rest]; [done|].
  intros H%IH. rewrite memory_get_delete in H. by destruct (_ =? _)%string.
Qed.

(** The entry just set is the last one evicted, so it stays. *)
Lemma evict_keeps_last fuel c pre k v :
  cache_wf c -> entries c = pre ++ [(k, v)] -> (sizeOf k v <= maxBytes c)%Z -> (1 <= maxEntries c)%nat ->
  exists pre', entries (evict fuel c) = pre' ++ [(k, v)].
Proof.
  revert c pre. induction fuel as [|fuel IH]; intros c pre Hwf He Hs Hm; cbn [evict]; [by exists pre|].
  destruct (over_budget c) eqn:Ho; [|by exists pre].
  destruct pre as [|[k' v'] pre]; cbn in He.
  - exfalso. unfold over_budget in Ho. rewrite (wf_bytes c Hwf), He in Ho. cbn -[Nat.ltb] in Ho.
    apply orb_true_iff in Ho as [Ho|Ho]; to_prop; lia.
  - rewrite He. rewrite (memory_delete_oldest c k' v' (pre ++ [(k, v)])) by (done || apply Hwf).
    apply (IH _ pre); cbn; try done. destruct Hwf as [Hk Hb]. rewrite He in *. cbn in *.
    apply NoDup_cons in Hk as [_ Hk]. constructor; cbn; [done|]. lia.
Qed.

Lemma cache_wf_push c k v :
  cache_wf c -> memory_get c k = None ->
  cache_wf (mkMemoryCache (entries c ++ [(k, v)]) (bytes c + sizeOf k v) (maxEntries c) (maxBytes c)).
Proof.
  intros [Hk Hb] Hn. constructor; cbn.
  - rewrite map_app. apply NoDup_app. split; [done|]. split; [|apply NoDup_singleton].
    intros x Hx ->%list_elem_of_singleton. by apply lookup_field_none in Hn.
  - rewrite total_size_app, Hb. cbn. lia.
Qed.

Lemma memory_get_deleted c k : memory_get (memory_delete c k) k = None.
Proof. by rewrite memory_get_delete, String.eqb_refl. Qed.

Lemma memory_delete_shrinks c k :
  (length (entries c) <= maxEntries c)%nat -> (bytes c <= maxBytes c)%Z ->
  (length (entries (memory_delete c k)) <= maxEntries c)%nat /\ (bytes (memory_delete c k) <= maxBytes c)%Z.
Proof.
  intros Hl Hb. unfold memory_delete. destruct (memory_get c k) as [held|]; cbn; [|done].
  pose proof (sizeOf_nonneg k held). split; [|lia]. transitivity (length (entries c)); [|done].
  clear. induction (entries c) as [|[k' v'] l IH]; [done|]. cbn -[String.eqb]. destruct (k' =? k)%string; cbn; lia.
Qed.

(** Everything [set] guarantees, in one place. *)
Lemma memory_set_spec c k v :
  cache_wf c -> (0 <= maxBytes c)%Z -> over_budget c = false ->
  let c' := memory_set c k v in
  cache_wf c' /\ over_budget c' = false /\ maxEntries c' = maxEntries c /\ maxBytes c' = maxBytes c.
Proof.
  intros Hwf Hm Ho. unfold memory_set. cbn zeta. destruct (memory_delete_budgets c k) as [E1 E2].
  pose proof (memory_delete_wf c k Hwf) as Hd.
  destruct (_ <? _)%Z eqn:Hs.
  - split_and!; try done. unfold over_budget in *. rewrite E1, E2. apply orb_false_iff in Ho as [Hl Hb]. to_prop.
    apply orb_false_iff. rewrite Nat.ltb_ge, Z.ltb_ge.
    by apply memory_delete_shrinks.
  - apply cache_wf_push with (v := v) (k := k) in Hd; [|apply memory_get_deleted].
    match goal with |- context [evict ?n ?x] => destruct (evict_spec n x Hd) as (W & O & M1 & M2 & _) end;
      [cbn; congruence|lia|].
    split_and!; [exact W|exact O|by rewrite M1|by rewrite M2].
Qed.

Lemma memory_set_get c k v k' v' :
  memory_get (memory_set c k v) k' = Some v' -> (k' = k /\ v' = v) \/ (k' <> k /\ memory_get c k' = Some v').
Proof.
  unfold memory_set. destruct (_ <? _)%Z.
  - rewrite memory_get_delete. destruct (String.eqb_spec k' k); [done|]. by right.
  - intros H%evict_get. unfold memory_get in H. cbn in H. rewrite lookup_field_snoc in H.
    destruct (lookup_field k' (entries (memory_delete c k))) as [v0|] eqn:E.
    + right. change (memory_get (memory_delete c k) k' = Some v0) in E. rewrite memory_get_delete in E.
      destruct (String.eqb_spec k' k); [done|]. split; [done|]. congruence.
    + left. destruct (String.eqb_spec k' k); [|done]. by injection H.
Qed.

Lemma memory_delete_get c k k' v' :
  memory_get (memory_delete c k) k' = Some v' -> k' <> k /\ memory_get c k' = Some v'.
Proof. rewrite memory_get_delete. by destruct (String.eqb_spec k' k). Qed.

#[global] Instance MemoryTokenCache_laws : TokenCacheLaws MemoryTokenCache :=
  {| get_after_set := memory_set_get; get_after_delete := memory_delete_get |}.

(** ** Properties *)

Inductive cache_op := OpSet (key : string) (value : CachedToken) | OpDelete (key : string).

Definition apply_op (c : MemoryTokenCache) (op : cache_op) : MemoryTokenCache :=
  match op with
  | OpSet key value => memory_set c key value
  | OpDelete key => memory_delete c key
  end.

Lemma apply_ops_wf ops c :
  cache_wf c -> (0 <= maxBytes c)%Z -> over_budget c = false ->
  let c' := foldl apply_op c ops in
  cache_wf c' /\ over_budget c' = false /\ maxEntries c' = maxEntries c /\ maxBytes c' = maxBytes c.
Proof.
  revert c. induction ops as [|op ops IH]; intros c Hwf Hm Ho; [done|]. cbn [foldl].
  assert (Hop : cache_wf (apply_op c op) /\ over_budget (apply_op c op) = false /\
                maxEntries (apply_op c op) = maxEntries c /\ maxBytes (apply_op c op) = maxBytes c).
  { destruct op as [k v|k]; cbn [apply_op]; [by apply memory_set_spec|].
    destruct (memory_delete_budgets c k) as [E1 E2]. split_and!; [by apply memory_delete_wf| |done..].
    unfold over_budget in *. rewrite E1, E2. apply orb_false_iff in Ho as [Hl Hb]. to_prop.
    apply orb_false_iff. rewrite Nat.ltb_ge, Z.ltb_ge. by apply memory_delete_shrinks. }
  destruct Hop as (W & O & M1 & M2). rewrite <- M1, <- M2. apply IH; congruence || done.
Qed.

(** Whatever sequence of [set] and [delete] a cache was through, it holds at most [maxEntries] entries and
    [maxBytes] of keys and tokens, counts its bytes exactly, and holds each key once. *)
Theorem MemoryTokenCache_bounded (ops : list cache_op) (max_entries : nat) (max_bytes : Z) :
  (0 <= max_bytes)%Z ->
  let c := foldl apply_op (new_MemoryTokenCache max_entries max_bytes) ops in
  (size c <= max_entries)%nat /\ (bytes c <= max_bytes)%Z /\ bytes c = total_size (entries c) /\
  NoDup (map fst (entries c)).
Proof.
  intros Hm. destruct (apply_ops_wf ops (new_MemoryTokenCache max_entries max_bytes)) as ([Hk Hb] & Ho & M1 & M2).
  - split; [constructor|done].
  - done.
  - apply orb_false_iff. rewrite Nat.ltb_ge, Z.ltb_ge. cbn. lia.
  - cbn zeta. apply orb_false_iff in Ho as [Ho1 Ho2]. to_prop. unfold size. cbn in M1, M2.
    split_and!; [congruence|congruence|done|done].
Qed.

(** A value just set is found under its key, until it is deleted or evicted, whenever it fits the cache at all; a value
    that fits no cache leaves nothing under the key. *)
Theorem MemoryTokenCache_get_set (c : MemoryTokenCache) (key : string) (value : CachedToken) :
  cache_wf c -> (1 <= maxEntries c)%nat ->
  memory_get (memory_set c key value) key = if (sizeOf key value <=? maxBytes c)%Z then Some value else None.
Proof.
  intros Hwf Hm. unfold memory_set. destruct (memory_delete_budgets c key) as [E1 E2].
  destruct (Z.ltb_spec (maxBytes (memory_delete c key)) (sizeOf key value)) as [Hs|Hs]; rewrite E2 in Hs.
  - rewrite (proj2 (Z.leb_gt _ _)) by done. apply memory_get_deleted.
  - rewrite (proj2 (Z.leb_le _ _)) by done. cbn [maxEntries maxBytes entries].
    set (pushed := mkMemoryCache _ _ _ _).
    assert (Hp : cache_wf pushed) by (apply cache_wf_push; [by apply memory_delete_wf|apply memory_get_deleted]).
    match goal with |- context [evict ?n _] => set (fuel := n) end.
    destruct (evict_keeps_last fuel pushed (entries (memory_delete c key)) key value) as [pre Hpre];
      [done|done|cbn; congruence|cbn; lia|].
    assert (Hw : cache_wf (evict fuel pushed)).
    { apply evict_spec; [done|cbn; rewrite E2; pose proof (sizeOf_nonneg key value); lia|unfold fuel; cbn; lia]. }
    destruct Hw as [Hk _]. unfold memory_get. rewrite Hpre in *. rewrite lookup_field_snoc, String.eqb_refl.
    rewrite map_app in Hk. apply NoDup_app in Hk as (_ & Hk & _).
    destruct (lookup_field key pre) eqn:E; [|done]. apply lookup_field_elem in E. exfalso.
    apply (Hk key); [|apply list_elem_of_here]. apply list_elem_of_fmap. by exists (key, c0).
Qed.

Definition no_space (s : string) : bool := Js.forall_units (fun c => negb (Ascii.eqb c " ")) s.

Lemma no_space_prefix a b s t :
  no_space a = true -> no_space b = true -> a +:+ " " +:+ s = b +:+ " " +:+ t -> a = b /\ s = t.
Proof.
  unfold no_space. revert b. induction a as [|c a IH]; intros [|d b] Ha Hb H; cbn in *.
  - by injection H.
  - injection H as <- _. by cbn in Hb.
  - injection H as -> _. by cbn in Ha.
  - to_prop. injection H as -> H. destruct (IH b) as [-> ->]; done.
Qed.

Lemma cacheKey_inj (app app' : string) (kind kind' : CredentialKind) (credential credential' : string) :
  no_space app = true -> no_space app' = true ->
  cacheKey app kind credential = cacheKey app' kind' credential' ->
  app = app' /\ kind = kind' /\ credential = credential'.
Proof.
  unfold cacheKey. intros Ha Hb [-> H]%no_space_prefix; [|done|done].
  apply no_space_prefix in H as [Hk ->]; [|by destruct kind|by destruct kind'].
  by destruct kind, kind'.
Qed.

(** Cache keys do not collide: two lookups share an entry only for one application, one kind of credential and one
    credential, as long as application ids hold no space. *)
Theorem cacheKey_injective (app app' : string) (kind kind' : CredentialKind) (credential credential' : string) :
  no_space app = true -> no_space app' = true ->
  cacheKey app kind credential = cacheKey app' kind' credential' ->
  app = app' /\ kind = kind' /\ credential = credential'.
Proof. apply cacheKey_inj. Qed.

Lemma MemoryTokenCache_bounded_witness :
  let c := foldl apply_op (new_MemoryTokenCache 2 20)
             [OpSet "a" (mkCached "1234" 0); OpSet "b" (mkCached "1234" 0); OpSet "c" (mkCached "123456789012" 0)] in
  map fst (entries c) = ["b"; "c"] /\ (bytes c <= 20)%Z.
Proof.
  split; [vm_compute; reflexivity|].
  destruct (MemoryTokenCache_bounded
    [OpSet "a" (mkCached "1234" 0); OpSet "b" (mkCached "1234" 0); OpSet "c" (mkCached "123456789012" 0)] 2 20)
    as (_ & H & _); [lia|exact H].
Defined.

Lemma MemoryTokenCache_get_set_witness :
  memory_get (memory_set (new_MemoryTokenCache 2 20) "k" (mkCached "tok" 5)) "k" = Some (mkCached "tok" 5).
Proof.
  rewrite (MemoryTokenCache_get_set (new_MemoryTokenCache 2 20) "k" (mkCached "tok" 5));
    [reflexivity|split; [constructor|reflexivity]|cbn; lia].
Defined.

Lemma cacheKey_injective_witness :
  cacheKey "notes" CredSession "s" <> cacheKey "notes" CredKey "s" /\ "notes" = "notes".
Proof.
  split; [discriminate|].
  apply (proj1 (cacheKey_injective "notes" "notes" CredKey CredKey "s" "s" eq_refl eq_refl eq_refl)).
Defined.
