(* ===== verification/Jwks.v ===== *)
(** The JWKS-backed token verifier ([jwks/src/verifier.ts]).

    jose ([jwtVerify], [createLocalJWKSet]), the key-set transport ([getJwks]) and the clock are the environment's: the
    section's variables, over an outside world [E] that calls may change. The verifier's own state is [JwksCache]. *)

From S2P Require Import Prelude Token.
From Stdlib Require Import ZArith Lia String Ascii.
From stdpp Require Import base tactics strings gmap list.

Definition JWKS_TTL_SECONDS : Z := 600.
Definition JWKS_REFETCH_COOLDOWN_SECONDS : Z := 30.
Definition RESOURCE_ACCESS_TOKEN_TYP : string := "at+jwt".

Inductive VerifyResult :=
| VerifyOk (claims : AccessTokenClaims)
| VerifyInvalid
| VerifyUnavailable.

(** What [jwtVerify] does: it resolves with the payload and the header's [typ], rejects with [JWKSNoMatchingKey], or
    rejects with another error. *)
Inductive JwtResult :=
| JwtOk (payload : json) (typ : option string)
| JwtNoMatchingKey
| JwtFailed.

(** Thrown by the verifier: [JwksUnavailableError], or an error it does not know. *)
Inductive VerifierError := JwksUnavailableError | UnknownError.

(** [unknown | typeof NO_KEY | null]: what [verifyWith] answers. *)
Inductive Verified := PayloadOf (payload : json) | NoKey | NullPayload.

Record JwksCache (LocalJwks : Type) := mkJwksCache {
  entry : option (LocalJwks * Z);
  lastForcedAt : option Z;
}.
Arguments mkJwksCache {LocalJwks} _ _.
Arguments entry {LocalJwks} _.
Arguments lastForcedAt {LocalJwks} _.

Definition createJwksCache {LocalJwks} : JwksCache LocalJwks := mkJwksCache None None.

(** The environment of a verifier. *)
Class JwksEnv (E Jwks LocalJwks : Type) := {
  env_now : E -> Z * E;
  env_getJwks : E -> option Jwks * E;
  createLocalJWKSet : Jwks -> option LocalJwks;
  jwtVerify : E -> string -> LocalJwks -> string -> string -> JwtResult;
}.

Section Verifier.
Context {E Jwks LocalJwks : Type} `{UrlParser} `{JwksEnv E Jwks LocalJwks}.

(** The verifier's options; the two numbers default to the constants above. *)
Record TokenVerifier := mkVerifier { issuer : string; ttlSeconds : Z; refetchCooldownSeconds : Z }.

Notation verifying := (eff (JwksCache LocalJwks * E) VerifierError).

(** An environment call. *)
Definition outside {A} (f : E -> A * E) : verifying A := fun '(c, e) =>
  let '(a, e') := f e in (inr a, (c, e')).

Definition now : verifying Z := outside env_now.

Definition keySet (v : TokenVerifier) (force : bool) : verifying LocalJwks :=
  now ← now;
  cached ← Eff.gets (fun '(c, _) => entry c);
  let fetch : verifying LocalJwks :=
    answer ← outside env_getJwks;
    match answer with
    | None => Eff.throw JwksUnavailableError
    | Some jwks =>
        match createLocalJWKSet jwks with
        | None => Eff.throw UnknownError
        | Some keys =>
            _ ← Eff.modify (fun '(c, e) => (mkJwksCache (Some (keys, now + ttlSeconds v)%Z) (lastForcedAt c), e));
            mret keys
        end
    end in
  match cached with
  | Some (keys, expiresAt) => if negb force && (now <? expiresAt)%Z then mret keys else fetch
  | None => fetch
  end.

Definition audienceText (profile : TokenAudienceProfile) : string :=
  match profile with ProfileApp app => app | ProfileResource _ resource => resource end.

Definition verifyWith (v : TokenVerifier) (token : string) (profile : TokenAudienceProfile) (force : bool) : verifying Verified :=
  keys ← keySet v force;
  result ← Eff.gets (fun '(_, e) => jwtVerify e token keys (issuer v) (audienceText profile));
  mret match result with
       | JwtOk payload typ =>
           match profile with
           | ProfileResource _ _ => if bool_decide (typ = Some RESOURCE_ACCESS_TOKEN_TYP) then PayloadOf payload else NullPayload
           | ProfileApp _ => PayloadOf payload
           end
       | JwtNoMatchingKey => NoKey
       | JwtFailed => NullPayload
       end.

Definition mayForceRefetch (v : TokenVerifier) : verifying bool :=
  now ← now;
  last ← Eff.gets (fun '(c, _) => lastForcedAt c);
  if match last with Some at_ => (now - at_ <? refetchCooldownSeconds v)%Z | None => false end then mret false
  else
    _ ← Eff.modify (fun '(c, e) => (mkJwksCache (entry c) (Some now), e));
    mret true.

(** The [try] block of [verify]. *)
Definition verifyTwice (v : TokenVerifier) (token : string) (profile : TokenAudienceProfile) : verifying Verified :=
  payload ← verifyWith v token profile false;
  match payload with
  | NoKey =>
      may ← mayForceRefetch v;
      match may with true => verifyWith v token profile true | false => mret NoKey end
  | _ => mret payload
  end.

Definition verify (v : TokenVerifier) (token : string) (profile : TokenAudienceProfile) : verifying VerifyResult :=
  Eff.catch
    (payload ← verifyTwice v token profile;
     mret match payload with
          | NoKey | NullPayload => VerifyInvalid
          | PayloadOf payload =>
              match parseAccessClaims (Some payload) with
              | None => VerifyInvalid
              | Some claims => if matchesTokenAudience claims profile then VerifyOk claims else VerifyInvalid
              end
          end : verifying VerifyResult)
    (fun err => match err with
                | JwksUnavailableError => mret VerifyUnavailable
                | UnknownError => Eff.throw UnknownError
                end).

(** ** Lemmas *)

(** The key sets a verifier may hold: those made of a key set the transport answered. *)
Definition fetched (keys : LocalJwks) : Prop :=
  exists e jwks e', env_getJwks e = (Some jwks, e') /\ createLocalJWKSet jwks = Some keys.

Definition authentic (s : JwksCache LocalJwks * E) : Prop :=
  forall keys expiresAt, entry s.1 = Some (keys, expiresAt) -> fetched keys.

(** What makes a token's claims acceptable. *)
Definition vouched (v : TokenVerifier) (token : string) (profile : TokenAudienceProfile) (claims : AccessTokenClaims) : Prop :=
  exists e keys payload typ,
    fetched keys /\ jwtVerify e token keys (issuer v) (audienceText profile) = JwtOk payload typ /\
    (forall app resource, profile = ProfileResource app resource -> typ = Some RESOURCE_ACCESS_TOKEN_TYP) /\
    parseAccessClaims (Some payload) = Some claims /\ matchesTokenAudience claims profile = true.

Lemma triple_outside {A} I (f : E -> A * E) (P : A -> Prop) :
  (forall c e, I (c, e) -> I (c, (f e).2) /\ P (f e).1) -> Eff.triple I (outside f) P.
Proof.
  intros Hf [c e] Hs. unfold outside. destruct (Hf c e Hs) as [HI HP]. destruct (f e) as [a e']. cbn in *.
  split; [done|]. by intros ? [= <-].
Qed.

Lemma triple_now I : (forall c e e', I (c, e) -> I (c, e')) -> Eff.triple I now (fun _ => True).
Proof. intros HI. apply triple_outside. eauto. Qed.

Lemma authentic_env c e e' : authentic (c, e) -> authentic (c, e').
Proof. done. Qed.

Lemma triple_gets_state {S X A} I (f : S -> A) :
  Eff.triple (X := X) I (Eff.gets f) (fun a => exists s, I s /\ a = f s).
Proof. apply triple_gets. eauto. Qed.

Lemma keySet_authentic v force : Eff.triple authentic (keySet v force) fetched.
Proof.
  unfold keySet. eapply triple_bind; [apply triple_now, authentic_env|]. intros t _.
  eapply triple_bind; [apply triple_gets_state|]. intros cached ([c e] & Hc & ->).
  assert (Hfetch : Eff.triple authentic (answer ← outside env_getJwks;
    match answer with
    | None => Eff.throw JwksUnavailableError
    | Some jwks =>
        match createLocalJWKSet jwks with
        | None => Eff.throw UnknownError
        | Some keys =>
            _ ← Eff.modify (fun '(c, e) => (mkJwksCache (Some (keys, t + ttlSeconds v)%Z) (lastForcedAt c), e));
            mret keys
        end
    end) fetched).
  { eapply triple_bind with (P := fun answer => forall jwks, answer = Some jwks -> exists e e', env_getJwks e = (Some jwks, e')).
    { apply triple_outside. intros c' e' Ha. split; [done|]. intros jwks Hj. exists e', (env_getJwks e').2.
      rewrite <- Hj. by destruct (env_getJwks e'). }
    intros [jwks|] Hj; [|apply triple_throw]. destruct (Hj jwks eq_refl) as (e1 & e2 & He).
    destruct (createLocalJWKSet jwks) as [keys|] eqn:Hk; [|apply triple_throw].
    assert (Hf : fetched keys) by (exists e1, jwks, e2; done).
    eapply triple_bind; [apply triple_modify with (P := fun _ => True); [|done]|intros _ _; by apply triple_ret].
    intros [c' e'] _ keys' x [= <- _]. done. }
  destruct (entry c) as [[keys x]|] eqn:He; [|exact Hfetch].
  destruct (negb force && _); [|exact Hfetch]. apply triple_ret. by apply (Hc keys x).
Qed.

Lemma verifyWith_authentic v token profile force :
  Eff.triple authentic (verifyWith v token profile force) (fun r => forall payload, r = PayloadOf payload ->
    exists e keys typ, fetched keys /\ jwtVerify e token keys (issuer v) (audienceText profile) = JwtOk payload typ /\
      (forall app resource, profile = ProfileResource app resource -> typ = Some RESOURCE_ACCESS_TOKEN_TYP)).
Proof.
  unfold verifyWith. eapply triple_bind; [apply keySet_authentic|]. intros keys Hk.
  eapply triple_bind; [apply triple_gets_state|]. intros r ([c e] & _ & Hr).
  apply triple_ret. intros payload Hp. exists e, keys.
  destruct r as [p typ| |]; try done. exists typ. split; [done|].
  destruct profile as [app|app resource]; [injection Hp as ->; by split|].
  case_bool_decide; [|done]. injection Hp as ->. split; [done|]. naive_solver.
Qed.

Lemma mayForceRefetch_authentic v : Eff.triple authentic (mayForceRefetch v) (fun _ => True).
Proof.
  unfold mayForceRefetch. eapply triple_bind; [apply triple_now, authentic_env|]. intros t _.
  eapply triple_bind; [apply triple_gets_state|]. intros last _.
  destruct (match last with Some _ => _ | None => _ end); [by apply triple_ret|].
  eapply triple_bind; [apply triple_modify with (P := fun _ => True); [|done]|intros _ _; by apply triple_ret].
  intros [c e] Hc. exact Hc.
Qed.

Lemma verify_vouched v token profile :
  Eff.triple authentic (verify v token profile) (fun r => forall claims, r = VerifyOk claims -> vouched v token profile claims).
Proof.
  unfold verify. apply triple_catch.
  - eapply triple_bind with (P := fun r => forall payload, r = PayloadOf payload ->
      exists e keys typ, fetched keys /\ jwtVerify e token keys (issuer v) (audienceText profile) = JwtOk payload typ /\
        (forall app resource, profile = ProfileResource app resource -> typ = Some RESOURCE_ACCESS_TOKEN_TYP)).
    + unfold verifyTwice. eapply triple_bind; [apply verifyWith_authentic|]. intros r Hr.
      destruct r; [by apply triple_ret| |by apply triple_ret].
      eapply triple_bind; [apply mayForceRefetch_authentic|]. intros [] _; [apply verifyWith_authentic|by apply triple_ret].
    + intros r Hr. apply triple_ret. intros claims Hc. destruct r as [payload| |]; try done.
      destruct (parseAccessClaims _) as [claims'|] eqn:Hp; [|done].
      destruct (matchesTokenAudience claims' profile) eqn:Hm; [|done]. injection Hc as ->.
      destruct (Hr payload eq_refl) as (e & keys & typ & ? & ? & ?). by exists e, keys, payload, typ.
  - intros []; [by apply triple_ret|apply triple_throw].
Qed.

End Verifier.

(** ** How often the key set is fetched *)

Section Fetches.
Context {E Jwks LocalJwks : Type} `{UrlParser} `{JwksEnv E Jwks LocalJwks}.

(** [fetches] counts the calls of [getJwks]; the clock always reads inside one window shorter than the cooldown. *)
Context (fetches : E -> nat) (v : TokenVerifier) (start : Z).
Context (now_fetches : forall e, fetches (env_now e).2 = fetches e).
Context (get_fetches : forall e, fetches (env_getJwks e).2 = S (fetches e)).
Context (in_window : forall e, (start <= (env_now e).1 < start + refetchCooldownSeconds v)%Z).
Context (ttl_long : (refetchCooldownSeconds v <= ttlSeconds v)%Z).

Notation state := (JwksCache LocalJwks * E)%type.

(** The key set in hand outlives the window. *)
Definition warm (s : state) : Prop :=
  exists keys x, entry s.1 = Some (keys, x) /\ (start + refetchCooldownSeconds v <= x)%Z.

Definition forced_in_window (s : state) : bool :=
  match lastForcedAt s.1 with Some t => (start <=? t)%Z | None => false end.

Lemma keySet_warm s force :
  warm s ->
  let s' := (keySet v force s).2 in
  warm s' /\ lastForcedAt s'.1 = lastForcedAt s.1 /\
  fetches s'.2 = (fetches s.2 + if force then 1 else 0)%nat.
Proof.
  destruct s as [c e]. intros (keys & x & He & Hx). cbn in He.
  unfold keySet, now, outside, mbind, eff_bind, Eff.gets. cbn.
  pose proof (in_window e) as Ht. pose proof (now_fetches e) as Hn. destruct (env_now e) as [t e1]. cbn in *.
  rewrite He. rewrite (proj2 (Z.ltb_lt t x)) by lia. destruct force; cbn.
  - pose proof (get_fetches e1) as Hg. destruct (env_getJwks e1) as [[jwks|] e2]; cbn in *.
    + destruct (createLocalJWKSet jwks) as [keys'|]; cbn.
      * split_and!; [|done|lia]. exists keys', (t + ttlSeconds v)%Z. split; [done|lia].
      * split_and!; [|done|lia]. by exists keys, x.
    + split_and!; [|done|lia]. by exists keys, x.
  - split_and!; [|done|lia]. by exists keys, x.
Qed.

Lemma verifyWith_state token profile force s :
  (verifyWith v token profile force s).2 = (keySet v force s).2.
Proof.
  unfold verifyWith, mbind, eff_bind. destruct (keySet v force s) as [[err|keys] [c e]]; [done|]. cbn.
  by repeat split_match.
Qed.

Lemma mayForceRefetch_warm s :
  warm s ->
  let '(r, s') := mayForceRefetch v s in
  warm s' /\ fetches s'.2 = fetches s.2 /\
  exists may, r = inr may /\
    if may then forced_in_window s = false /\ forced_in_window s' = true else forced_in_window s' = forced_in_window s.
Proof.
  destruct s as [c e]. intros (keys & x & He & Hx). cbn in He.
  unfold mayForceRefetch, now, outside, mbind, eff_bind, Eff.gets. cbn.
  pose proof (in_window e) as Ht. pose proof (now_fetches e) as Hn. destruct (env_now e) as [t e1]. cbn in *.
  unfold forced_in_window. cbn. destruct (lastForcedAt c) as [t0|] eqn:El.
  - destruct (Z.ltb_spec (t - t0) (refetchCooldownSeconds v)) as [Hl|Hl]; cbn; rewrite ?El.
    + split_and!; [by exists keys, x|done|]. by exists false.
    + split_and!; [by exists keys, x|done|]. exists true. split_and!; [done|apply Z.leb_gt; lia|apply Z.leb_le; lia].
  - cbn. split_and!; [by exists keys, x|done|]. exists true. split_and!; [done|done|apply Z.leb_le; lia].
Qed.

(** One verification on a warm cache: no fetch, or the one forced fetch of the window. *)
Lemma verify_warm token profile s :
  warm s ->
  let s' := (verify v token profile s).2 in
  warm s' /\ (forced_in_window s = true -> forced_in_window s' = true) /\
  (fetches s'.2 + (if forced_in_window s then 1 else 0) = fetches s.2 + if forced_in_window s' then 1 else 0)%nat.
Proof.
  intros Hw. cbn zeta.
  assert (Hstate : (verify v token profile s).2 = (verifyTwice v token profile s).2).
  { unfold verify, Eff.catch, mbind, eff_bind. destruct (verifyTwice v token profile s) as [[[]|]]; done. }
  rewrite Hstate. unfold verifyTwice, mbind, eff_bind.
  pose proof (keySet_warm s false Hw) as (W1 & L1 & F1). rewrite <- (verifyWith_state token profile) in W1, L1, F1.
  destruct (verifyWith v token profile false s) as [[err|r] s1]; cbn in W1, L1, F1 |- *.
  { unfold forced_in_window. rewrite L1. split_and!; [done|done|lia]. }
  assert (Hs1 : forced_in_window s1 = forced_in_window s) by (unfold forced_in_window; by rewrite L1).
  destruct r; try (cbn; rewrite Hs1; split_and!; [done|done|lia]).
  pose proof (mayForceRefetch_warm s1 W1) as Hmay. destruct (mayForceRefetch v s1) as [res s2].
  destruct Hmay as (W2 & F2 & may & -> & Hmay). destruct may; cbn.
  - destruct Hmay as [Hf1 Hf2]. pose proof (keySet_warm s2 true W2) as (W3 & L3 & F3).
    rewrite <- (verifyWith_state token profile) in W3, L3, F3.
    destruct (verifyWith v token profile true s2) as [r3 s3]. cbn in *.
    assert (Hs3 : forced_in_window s3 = true) by (unfold forced_in_window in *; by rewrite L3).
    rewrite Hs3, <- Hs1, Hf1. split_and!; [done|done|lia].
  - rewrite Hmay, Hs1. split_and!; [done|done|lia].
Qed.

(** Verifications one after another. *)
Fixpoint verify_all (requests : list (string * TokenAudienceProfile)) (s : state) : state :=
  match requests with
  | [] => s
  | (token, profile) :: rest => verify_all rest (verify v token profile s).2
  end.

Lemma verify_all_warm requests s :
  warm s ->
  (fetches (verify_all requests s).2 + (if forced_in_window s then 1 else 0) <= fetches s.2 + 1)%nat.
Proof.
  revert s. induction requests as [|[token profile] rest IH]; intros s Hw; cbn; [destruct (forced_in_window s); lia|].
  pose proof (verify_warm token profile s Hw) as (W & M & F).
  specialize (IH _ W). destruct (forced_in_window s), (forced_in_window _); lia.
Qed.

End Fetches.

(** ** Properties *)

Section JwksProperties.
Context {E Jwks LocalJwks : Type} `{UrlParser} `{JwksEnv E Jwks LocalJwks}.

(** A verified token is vouched for: jose accepted it for this issuer and audience under a key set IAM answered (an
    OAuth resource token with its own header type), its payload parses, and its audience is the one asked for. The
    cached key set stays one that was fetched, whatever happens. *)
Theorem verify_sound (v : TokenVerifier) (token : string) (profile : TokenAudienceProfile)
    (s s' : JwksCache LocalJwks * E) (claims : AccessTokenClaims) :
  authentic s -> verify v token profile s = (inr (VerifyOk claims), s') ->
  vouched v token profile claims /\ authentic s'.
Proof.
  intros Ha Hv. destruct (verify_vouched v token profile s Ha) as [Hi Hc]. rewrite Hv in Hi, Hc. eauto.
Qed.

(** Invented key ids cannot amplify: on a warm verifier, any number of tokens nobody can verify costs at most one
    fetch of the key set within a cooldown. *)
Theorem verify_amplification (fetches : E -> nat) (v : TokenVerifier) (start : Z)
    (requests : list (string * TokenAudienceProfile)) (s : JwksCache LocalJwks * E) :
  (forall e, fetches (env_now e).2 = fetches e) ->
  (forall e, fetches (env_getJwks e).2 = S (fetches e)) ->
  (forall e, (start <= (env_now e).1 < start + refetchCooldownSeconds v)%Z) ->
  (refetchCooldownSeconds v <= ttlSeconds v)%Z ->
  warm v start s ->
  (fetches (verify_all v requests s).2 <= fetches s.2 + 1)%nat.
Proof.
  intros Hn Hg Hw Ht Hs. pose proof (verify_all_warm fetches v start Hn Hg Hw Ht requests s Hs). lia.
Qed.

(** [verify] has its three answers: with a key set jose accepts it throws nothing, and it answers [unavailable] only
    when the transport failed, so an outage never reads as a forged token. *)
Theorem verify_three_state (v : TokenVerifier) (token : string) (profile : TokenAudienceProfile) (s : JwksCache LocalJwks * E) :
  (forall jwks, createLocalJWKSet jwks <> None) ->
  exists r, (verify v token profile s).1 = inr r /\
    (r = VerifyUnavailable -> exists e, (env_getJwks e).1 = None).
Proof.
  intros Hk.
  assert (Hks : forall force s0, match (keySet v force s0).1 with
      | inr _ => True | inl err => err = JwksUnavailableError /\ exists e, (env_getJwks e).1 = None end).
  { intros force [c e]. unfold keySet, now, outside, mbind, eff_bind, Eff.gets. cbn.
    destruct (env_now e) as [t e1]. cbn. destruct (entry c) as [[keys x]|]; [destruct (negb force && _); [done|]|]; cbn;
      destruct (env_getJwks e1) as [[jwks|] e2] eqn:Hg; cbn;
      try (split; [done|]; exists e1; by rewrite Hg);
      specialize (Hk jwks); by destruct (createLocalJWKSet jwks). }
  assert (Hvw : forall force s0, match (verifyWith v token profile force s0).1 with
      | inr _ => True | inl err => err = JwksUnavailableError /\ exists e, (env_getJwks e).1 = None end).
  { intros force s0. specialize (Hks force s0). unfold verifyWith, mbind, eff_bind.
    destruct (keySet v force s0) as [[err|keys] [c e]]; cbn in *; [done|].
    by repeat split_match. }
  unfold verify, Eff.catch, verifyTwice, mbind, eff_bind.
  pose proof (Hvw false s) as H1. destruct (verifyWith v token profile false s) as [[err|r] s1]; cbn in H1.
  { destruct H1 as [-> He]. by exists VerifyUnavailable. }
  destruct r; cbn.
  1: { destruct (parseAccessClaims _) as [cl|]; [destruct (matchesTokenAudience cl profile)|]; eexists; split; done. }
  2: { by exists VerifyInvalid. }
  unfold mayForceRefetch, now, outside, mbind, eff_bind, Eff.gets. destruct s1 as [c e]. cbn.
  destruct (env_now e) as [t e1]. cbn.
  destruct (match lastForcedAt c with Some _ => _ | None => _ end); cbn; [by exists VerifyInvalid|].
  set (s2 := (_, e1)). pose proof (Hvw true s2) as H2.
  destruct (verifyWith v token profile true s2) as [[err|r] s3]; cbn in *.
  { destruct H2 as [-> He]. by exists VerifyUnavailable. }
  destruct r; cbn; [|by exists VerifyInvalid..].
  destruct (parseAccessClaims _) as [cl|]; [destruct (matchesTokenAudience cl profile)|]; eexists; split; done.
Qed.

End JwksProperties.

(** ** A concrete environment: a stopped clock, a key set always answered, one good token. *)

Definition demo_env : JwksEnv (Z * nat) string string := {|
  env_now := fun e => (e.1, e);
  env_getJwks := fun e => (Some "keys", (e.1, S e.2));
  createLocalJWKSet := fun jwks => Some jwks;
  jwtVerify := fun _ token _ _ _ =>
    if (token =? "good")%string then JwtOk (claimsJson (demo_claims demo_params)) None else JwtNoMatchingKey;
|}.

Definition demo_verifier : TokenVerifier := mkVerifier "https://iam.example.com" 600 30.
Definition demo_start : JwksCache string * (Z * nat) := (createJwksCache, (1000%Z, 0)).
Definition demo_warm : JwksCache string * (Z * nat) := (mkJwksCache (Some ("keys", 1600%Z)) None, (1000%Z, 1)).

Lemma verify_sound_witness :
  fst (verify (H := demo_url) (H0 := demo_env) demo_verifier "good" (ProfileApp "notes") demo_start)
    = inr (VerifyOk (demo_claims demo_params)) /\
  vouched (H := demo_url) (H0 := demo_env) demo_verifier "good" (ProfileApp "notes") (demo_claims demo_params).
Proof.
  assert (Hv : verify (H := demo_url) (H0 := demo_env) demo_verifier "good" (ProfileApp "notes") demo_start
               = (inr (VerifyOk (demo_claims demo_params)), demo_warm)) by (vm_compute; reflexivity).
  split; [rewrite Hv; reflexivity|].
  apply (proj1 (verify_sound (H := demo_url) (H0 := demo_env) _ _ _ demo_start _ _ ltac:(intros ? ? [=]) Hv)).
Defined.

Lemma verify_amplification_witness :
  let requests := repeat ("forged", ProfileApp "notes") 50 in
  (snd (snd (verify_all (H := demo_url) (H0 := demo_env) demo_verifier requests demo_warm)) <= 2)%nat.
Proof.
  cbv zeta.
  refine (let demo_env' := {| env_now := fun e : Z * nat => (1000%Z, e); env_getJwks := @env_getJwks _ _ _ demo_env;
              createLocalJWKSet := @createLocalJWKSet _ _ _ demo_env; jwtVerify := @jwtVerify _ _ _ demo_env |} in _).
  assert (Hall : verify_all (H := demo_url) (H0 := demo_env) demo_verifier (repeat ("forged", ProfileApp "notes") 50) demo_warm
               = verify_all (H := demo_url) (H0 := demo_env') demo_verifier (repeat ("forged", ProfileApp "notes") 50) demo_warm)
    by (vm_compute; reflexivity).
  rewrite Hall.
  apply (verify_amplification (H := demo_url) (H0 := demo_env') snd demo_verifier 1000 _ demo_warm);
    [reflexivity|reflexivity|intros e; cbn; lia|cbn; lia|exists "keys", 1600%Z; cbn; split; [reflexivity|lia]].
Defined.

Lemma verify_three_state_witness :
  exists r, fst (verify (H := demo_url) (H0 := demo_env) demo_verifier "forged" (ProfileApp "notes") demo_start) = inr r /\
    r = VerifyInvalid.
Proof.
  destruct (verify_three_state (H := demo_url) (H0 := demo_env) demo_verifier "forged" (ProfileApp "notes") demo_start)
    as (r & Hr & _); [discriminate|].
  exists r. split; [exact Hr|]. vm_compute in Hr. injection Hr as <-. reflexivity.
Defined.
