(* ===== verification/Credentials.v ===== *)
(** Reading credentials off a request, and the browser handoff.

    [proxy-core/src/credentials.ts] (bearer and cookie reading) and [proxy-core/src/handoff.ts] (the handoff attempt, its
    cookie name, and the removal of Fabrika's cookies before the upstream hop). *)

From S2P Require Import Prelude.
From Stdlib Require Import ZArith Lia String Ascii.
From stdpp Require Import base tactics strings gmap list.

Definition FABRIKA_COOKIE_PREFIX : string := "__Host-px_".
Definition SESSION_COOKIE : string := FABRIKA_COOKIE_PREFIX +:+ "session".
Definition API_KEY_PREFIX : string := "px_".
Definition HANDOFF_COOKIE_PREFIX : string := "__Host-px_handoff_".

(** ** Headers *)

(** [Headers]: names compare without case; repeated fields are already joined. [None] is [null]. *)
Definition headers := list (string * string).

Fixpoint headers_get (name : string) (h : headers) : option string :=
  match h with
  | [] => None
  | (k, v) :: rest => if (Js.toLowerCase k =? Js.toLowerCase name)%string then Some v else headers_get name rest
  end.

Fixpoint headers_delete (name : string) (h : headers) : headers :=
  match h with
  | [] => []
  | (k, v) :: rest =>
      if (Js.toLowerCase k =? Js.toLowerCase name)%string then headers_delete name rest else (k, v) :: headers_delete name rest
  end.

Definition headers_set (name value : string) (h : headers) : headers := (name, value) :: headers_delete name h.

(** ** credentials.ts *)

(** No line terminator: the units [.] matches, below 256. *)
Definition one_line (s : string) : bool :=
  Js.forall_units (fun c => negb ((Js.code c =? 10)%nat || (Js.code c =? 13)%nat)) s.

(** [/^Scheme\s+(.+)$/i] on a trimmed value: what the group matched. *)
Definition after_auth_scheme (scheme value : string) : option string :=
  let n := String.length scheme in
  if negb (Js.toLowerCase (Js.take n value) =? Js.toLowerCase scheme)%string then None
  else match Js.drop n value with
       | String c rest => if Js.is_space c then Some (Js.trimStart rest) else None
       | EmptyString => None
       end.

Definition readBearer (header : option string) : option string :=
  match header with
  | None => None
  | Some h =>
      match after_auth_scheme "Bearer" (Js.trim h) with
      | Some group => if negb (group =? "")%string && one_line group then Some (Js.trim group) else None
      | None => None
      end
  end.

Definition is_base64_unit (c : ascii) : bool :=
  Js.is_letter c || Js.is_digit c || Ascii.eqb c "+" || Ascii.eqb c "/" || Ascii.eqb c "=".

(** [atob] is the platform's; [None] is its throw. *)
Definition carriesPlatformKey (atob : string -> option string) (header keyPrefix : string) : bool :=
  if Js.includes header keyPrefix then true
  else match after_auth_scheme "Basic" (Js.trim header) with
       | None => false
       | Some encoded =>
           if negb (encoded =? "")%string && Js.forall_units is_base64_unit encoded then
             match atob encoded with Some decoded => Js.includes decoded keyPrefix | None => false end
           else false
       end.

(** One part of a [Cookie] header: its trimmed name and value, when it holds a ['=']. *)
Definition cookie_part (part : string) : option (string * string) :=
  match Js.indexOf "=" part with
  | None => None
  | Some eq => Some (Js.trim (Js.take eq part), Js.trim (Js.drop (S eq) part))
  end.

Fixpoint readCookie_loop (parts : list string) (name : string) : option string :=
  match parts with
  | [] => None
  | part :: rest =>
      match cookie_part part with
      | Some (n, value) =>
          if (n =? name)%string then (if (value =? "")%string then None else Some value) else readCookie_loop rest name
      | None => readCookie_loop rest name
      end
  end.

Definition readCookie (header : option string) (name : string) : option string :=
  match header with
  | None => None
  | Some h => if (h =? "")%string then None else readCookie_loop (Js.split ";" h) name
  end.

(** ** handoff.ts *)

Record HandoffAttempt := mkHandoff { handoff_state : string; handoff_verifier : string; handoff_challenge : string }.

Definition is_handoff_unit (c : ascii) : bool := Js.is_letter c || Js.is_digit c || Ascii.eqb c "_" || Ascii.eqb c "-".

(** [HANDOFF_VALUE_PATTERN.test] *)
Definition handoffValue (s : string) : bool :=
  (16 <=? String.length s)%nat && (String.length s <=? 128)%nat && Js.forall_units is_handoff_unit s.

Definition handoffCookieName (state : option string) : option string :=
  match state with
  | Some s => if handoffValue s then Some (HANDOFF_COOKIE_PREFIX +:+ s) else None
  | None => None
  end.

(** The alphabet of base64url: [btoa]'s, with ['+'] and ['/'] replaced. *)
Definition base64url_unit (n : nat) : ascii :=
  if (n <? 26)%nat then ascii_of_nat (65 + n)
  else if (n <? 52)%nat then ascii_of_nat (97 + (n - 26))
  else if (n <? 62)%nat then ascii_of_nat (48 + (n - 52))
  else if (n =? 62)%nat then "-"%char else "_"%char.

(** [base64url]: three bytes to four units; the padding is dropped. *)
Fixpoint base64url (bytes : list nat) : string :=
  match bytes with
  | a :: b :: c :: rest =>
      String (base64url_unit (a / 4)) (String (base64url_unit (a mod 4 * 16 + b / 16))
        (String (base64url_unit (b mod 16 * 4 + c / 64)) (String (base64url_unit (c mod 64)) (base64url rest))))
  | [a; b] =>
      String (base64url_unit (a / 4)) (String (base64url_unit (a mod 4 * 16 + b / 16))
        (String (base64url_unit (b mod 16 * 4)) EmptyString))
  | [a] => String (base64url_unit (a / 4)) (String (base64url_unit (a mod 4 * 16)) EmptyString)
  | [] => EmptyString
  end.

(** The platform's randomness and digest over an outside world [E]; both answer bytes. *)
Class CryptoEnv (E : Type) := {
  getRandomValues : nat -> E -> list nat * E;
  sha256_bytes : string -> list nat;
}.

Section Handoff.
Context {E : Type} `{CryptoEnv E}.

Definition randomToken (bytes : nat) (e : E) : string * E :=
  let '(value, e') := getRandomValues bytes e in (base64url value, e').

Definition handoffChallenge (verifier : string) : string := base64url (sha256_bytes verifier).

Definition createHandoffAttempt (e : E) : HandoffAttempt * E :=
  let '(state, e1) := randomToken 16 e in
  let '(verifier, e2) := randomToken 32 e1 in
  (mkHandoff state verifier (handoffChallenge verifier), e2).

Definition unmatchedVerifier (e : E) : string * E := randomToken 32 e.

End Handoff.

(** The name a part of a [Cookie] header goes by. *)
Definition part_name (part : string) : string :=
  match Js.indexOf "=" part with
  | None => part
  | Some separator => Js.trim (Js.take separator part)
  end.

Definition stripFabrikaCookies (h : headers) : headers :=
  match headers_get "Cookie" h with
  | None => h
  | Some raw =>
      match List.filter (fun part => negb (Js.startsWith (part_name part) FABRIKA_COOKIE_PREFIX)) (map Js.trim (Js.split ";" raw)) with
      | [] => headers_delete "Cookie" h
      | kept => headers_set "Cookie" (Js.join "; " kept) h
      end
  end.

(** ** Lemmas *)

Notation spaces := (Js.forall_units Js.is_space).

Lemma trimStart_split s : exists ws, spaces ws = true /\ s = ws +:+ Js.trimStart s.
Proof.
  induction s as [|c s (ws & Hw & Hs)]; [by exists ""|]. cbn. destruct (Js.is_space c) eqn:E; [|by exists ""].
  exists (String c ws). cbn. rewrite E, Hw. split; [done|]. by rewrite <- Hs.
Qed.

Lemma trimEnd_split s : exists ws, spaces ws = true /\ s = Js.trimEnd s +:+ ws.
Proof.
  induction s as [|c s (ws & Hw & Hs)]; [by exists ""|]. cbn.
  destruct (Js.trimEnd s) as [|d t] eqn:Et; cbn in Hs.
  - destruct (Js.is_space c) eqn:E; [exists (String c ws)|exists ws]; cbn; [by rewrite E, Hw, Hs|by rewrite Hs].
  - exists ws. by rewrite Hs at 1.
Qed.

Lemma trimEnd_spaces ws : spaces ws = true -> Js.trimEnd ws = "".
Proof. induction ws as [|c ws IH]; cbn; [done|]. intros H. to_prop. rewrite IH by done. by rewrite H. Qed.

Lemma trimStart_pad ws s : spaces ws = true -> Js.trimStart (ws +:+ s) = Js.trimStart s.
Proof. induction ws as [|c ws IH]; cbn; [done|]. intros H. to_prop. rewrite H. auto. Qed.

Lemma trimEnd_pad s ws : spaces ws = true -> Js.trimEnd (s +:+ ws) = Js.trimEnd s.
Proof. intros Hw. induction s as [|c s IH]; cbn; [by apply trimEnd_spaces|]. by rewrite IH. Qed.

(** White space around a string is no part of its [trim]. *)
Lemma trim_pad ws1 s ws2 : spaces ws1 = true -> spaces ws2 = true -> Js.trim (ws1 +:+ s +:+ ws2) = Js.trim s.
Proof.
  intros H1 H2. unfold Js.trim. rewrite trimStart_pad by done.
  induction s as [|c s IH]; cbn.
  - rewrite <- (str_app_nil_r ws2) at 1. rewrite trimStart_pad by done. done.
  - destruct (Js.is_space c) eqn:E; [exact IH|]. change (String c (s +:+ ws2)) with (String c s +:+ ws2).
    by apply trimEnd_pad.
Qed.

Lemma trim_split s : exists ws1 ws2, spaces ws1 = true /\ spaces ws2 = true /\ s = ws1 +:+ Js.trim s +:+ ws2.
Proof.
  destruct (trimStart_split s) as (ws1 & H1 & E1), (trimEnd_split (Js.trimStart s)) as (ws2 & H2 & E2).
  exists ws1, ws2. unfold Js.trim. by rewrite <- E2, <- E1.
Qed.

Notation without c := (Js.forall_units (fun d => negb (Ascii.eqb c d))).

Lemma indexOf_Some c s i :
  Js.indexOf c s = Some i -> exists a b, s = a +:+ String c b /\ i = String.length a /\ without c a = true.
Proof.
  revert i. induction s as [|d s IH]; cbn; [done|]. intros i. destruct (Ascii.eqb_spec c d) as [->|Hne].
  - intros [= <-]. by exists "", s.
  - intros (j & Hj & ->)%fmap_Some_1. destruct (IH _ Hj) as (a & b & -> & -> & Ha).
    exists (String d a), b. cbn. rewrite Ha. by destruct (Ascii.eqb_spec c d).
Qed.

Lemma indexOf_None c s : Js.indexOf c s = None <-> without c s = true.
Proof.
  induction s as [|d s IH]; cbn; [done|]. destruct (Ascii.eqb_spec c d); cbn; [done|].
  rewrite <- IH. by destruct (Js.indexOf c s).
Qed.

Lemma indexOf_app c a b : without c a = true -> Js.indexOf c (a +:+ String c b) = Some (String.length a).
Proof.
  induction a as [|d a IH]; cbn; [by rewrite Ascii.eqb_refl|]. intros H. to_prop.
  destruct (Ascii.eqb c d); [done|]. by rewrite IH.
Qed.

Lemma drop_app_S a c b : Js.drop (S (String.length a)) (a +:+ String c b) = b.
Proof. induction a as [|d a IH]; [done|]. exact IH. Qed.

Lemma spaces_without_eq ws : spaces ws = true -> without "=" ws = true.
Proof.
  induction ws as [|c ws IH]; cbn -[Ascii.eqb Js.is_space]; [done|]. rewrite !andb_true_iff. intros [Hc Hw]. split; [|auto].
  destruct (Ascii.eqb_spec "=" c) as [<-|]; [by vm_compute in Hc|done].
Qed.

Lemma cookie_part_pad ws1 s ws2 :
  spaces ws1 = true -> spaces ws2 = true -> cookie_part (ws1 +:+ s +:+ ws2) = cookie_part s.
Proof.
  intros H1 H2. unfold cookie_part. destruct (Js.indexOf "=" s) as [i|] eqn:E.
  - apply indexOf_Some in E as (a & b & -> & -> & Ha).
    rewrite <- (str_app_assoc a). cbn [String.append]. rewrite (str_app_assoc ws1 a).
    rewrite indexOf_app by (rewrite forall_units_app, spaces_without_eq; done).
    rewrite str_take_app, !drop_app_S, str_take_app. f_equal. f_equal.
    + rewrite <- (str_app_nil_r a) at 1. by apply trim_pad.
    + exact (trim_pad "" b ws2 eq_refl H2).
  - apply indexOf_None in E. rewrite (proj2 (indexOf_None _ _)); [done|].
    by rewrite !forall_units_app, E, !spaces_without_eq.
Qed.

Lemma cookie_part_trim s : cookie_part (Js.trim s) = cookie_part s.
Proof.
  destruct (trim_split s) as (ws1 & ws2 & H1 & H2 & E). rewrite E at 2. symmetry. by apply cookie_part_pad.
Qed.

Lemma readCookie_loop_ext parts parts' name :
  map cookie_part parts = map cookie_part parts' -> readCookie_loop parts name = readCookie_loop parts' name.
Proof.
  revert parts'. induction parts as [|p parts IH]; intros [|p' parts']; try done. cbn. intros [= -> H].
  destruct (cookie_part p') as [[n v]|]; [destruct (n =? name)%string|]; auto.
Qed.

Lemma readCookie_split h name : readCookie (Some h) name = readCookie_loop (Js.split ";" h) name.
Proof. unfold readCookie. by destruct (String.eqb_spec h "") as [->|]. Qed.

(** The pieces of a joined [Cookie] header. *)
Lemma split_join_cookie w ws :
  Forall (fun p => Js.forall_units (fun c => negb (Ascii.eqb c ";")) p = true) (w :: ws) ->
  Js.split ";" (Js.join "; " (w :: ws)) = w :: map (String " ") ws.
Proof.
  revert w. induction ws as [|w' ws IH]; intros w [Hw Hws]%Forall_cons; [by apply split_word|].
  change (Js.join "; " (w :: w' :: ws)) with (w +:+ String ";" (String " " (Js.join "; " (w' :: ws)))).
  rewrite split_prefix by done. f_equal. cbn [Js.split map]. by rewrite (IH w' Hws).
Qed.

Lemma cookie_part_space p : cookie_part (String " " p) = cookie_part p.
Proof. pose proof (cookie_part_pad " " p "" eq_refl eq_refl) as H. by rewrite str_app_nil_r in H. Qed.

Lemma get_delete name other h :
  headers_get name (headers_delete other h) = if (Js.toLowerCase other =? Js.toLowerCase name)%string then None else headers_get name h.
Proof.
  induction h as [|[k v] h IH]; cbn -[String.eqb]; [by destruct (_ =? _)%string|].
  destruct (String.eqb_spec (Js.toLowerCase k) (Js.toLowerCase other)) as [E|E]; cbn -[String.eqb]; rewrite IH, ?E;
    destruct (String.eqb_spec (Js.toLowerCase other) (Js.toLowerCase name)) as [E'|E']; try done.
  - destruct (String.eqb_spec (Js.toLowerCase k) (Js.toLowerCase name)); congruence.
Qed.

Lemma get_set name other v h :
  headers_get name (headers_set other v h) = if (Js.toLowerCase other =? Js.toLowerCase name)%string then Some v else headers_get name h.
Proof. unfold headers_set. cbn -[String.eqb]. rewrite get_delete. by destruct (_ =? _)%string. Qed.

Notation keeps_part := (fun part => negb (Js.startsWith (part_name part) FABRIKA_COOKIE_PREFIX)).

Lemma cookie_part_name p n v : cookie_part p = Some (n, v) -> part_name p = n.
Proof. unfold cookie_part, part_name. destruct (Js.indexOf "=" p); [|done]. by intros [= <- _]. Qed.

Lemma readCookie_loop_filter parts name :
  readCookie_loop (List.filter keeps_part parts) name =
  if Js.startsWith name FABRIKA_COOKIE_PREFIX then None else readCookie_loop parts name.
Proof.
  induction parts as [|p parts IH]; cbn; [by destruct (Js.startsWith name _)|].
  destruct (cookie_part p) as [[n v]|] eqn:Ep.
  - pose proof (cookie_part_name _ _ _ Ep) as ->.
    destruct (Js.startsWith n FABRIKA_COOKIE_PREFIX) eqn:Es; cbn; rewrite ?Ep, IH;
      destruct (String.eqb_spec n name) as [->|]; rewrite ?Es; try done.
  - destruct (negb _); cbn; rewrite ?Ep, IH; done.
Qed.

Lemma trim_no_semicolon p :
  Js.forall_units (fun c => negb (Ascii.eqb c ";")) p = true ->
  Js.forall_units (fun c => negb (Ascii.eqb c ";")) (Js.trim p) = true.
Proof.
  destruct (trim_split p) as (ws1 & ws2 & _ & _ & E). rewrite E at 1. rewrite !forall_units_app. intros H. by to_prop.
Qed.

Lemma base64url_unit_ok n : is_handoff_unit (base64url_unit n) = true.
Proof.
  unfold base64url_unit. destruct (Nat.ltb_spec n 26) as [H|H].
  { do 26 (destruct n as [|n]; [reflexivity|]). lia. }
  destruct (Nat.ltb_spec n 52) as [H'|H'].
  { remember (n - 26) as m eqn:Em. assert (m < 26) by lia. clear -H0. do 26 (destruct m as [|m]; [reflexivity|]). lia. }
  destruct (Nat.ltb_spec n 62) as [H''|H''].
  { remember (n - 52) as m eqn:Em. assert (m < 10) by lia. clear -H0. do 10 (destruct m as [|m]; [reflexivity|]). lia. }
  by destruct (n =? 62)%nat.
Qed.

(** Three bytes at a time. *)
Lemma bytes_ind (P : list nat -> Prop) :
  P [] -> (forall a, P [a]) -> (forall a b, P [a; b]) -> (forall a b c l, P l -> P (a :: b :: c :: l)) -> forall l, P l.
Proof.
  intros H0 H1 H2 H3 l. remember (length l) as n eqn:Hn. revert l Hn.
  induction n as [n IH] using lt_wf_ind. intros [|a [|b [|c l]]] ->; auto. apply H3. apply (IH (length l)); cbn; lia.
Qed.

Lemma base64url_ok bytes :
  Js.forall_units is_handoff_unit (base64url bytes) = true /\
  String.length (base64url bytes) = (4 * (length bytes / 3) + match length bytes mod 3 with 0 => 0 | 1 => 2 | _ => 3 end)%nat.
Proof.
  induction bytes as [|a|a b|a b c l [IH1 IH2]] using bytes_ind; [done|..].
  - cbn [base64url Js.forall_units]. by rewrite !base64url_unit_ok.
  - cbn [base64url Js.forall_units]. by rewrite !base64url_unit_ok.
  - cbn [base64url Js.forall_units String.length]. rewrite !base64url_unit_ok, IH1, IH2. split; [done|].
    replace (length (a :: b :: c :: l)) with (length l + 1 * 3)%nat by (cbn; lia).
    rewrite Nat.div_add, Nat.Div0.mod_add by lia. lia.
Qed.

(** ** Properties *)

Section CredentialProperties.
Context {E : Type} `{CryptoEnv E}.

(** A sign-in the proxy starts can be finished: whatever sixteen bytes the platform drew, the state is one
    [handoffCookieName] accepts, so writing the handoff cookie never fails and the callback finds its name again. *)
Theorem createHandoffAttempt_cookie (e : E) (attempt : HandoffAttempt) (e' : E) :
  (forall n e0, length (getRandomValues n e0).1 = n) ->
  createHandoffAttempt e = (attempt, e') ->
  handoffCookieName (Some (handoff_state attempt)) = Some (HANDOFF_COOKIE_PREFIX +:+ handoff_state attempt) /\
  String.length (handoff_state attempt) = 22 /\ String.length (handoff_verifier attempt) = 43.
Proof.
  intros Hn. unfold createHandoffAttempt, randomToken.
  pose proof (Hn 16 e) as H1. destruct (getRandomValues 16 e) as [v1 e1].
  pose proof (Hn 32 e1) as H2. destruct (getRandomValues 32 e1) as [v2 e2]. cbn in H1, H2. intros [= <- _]. cbn [handoff_state handoff_verifier].
  destruct (base64url_ok v1) as [Hu1 Hl1], (base64url_ok v2) as [_ Hl2]. rewrite H1 in Hl1. rewrite H2 in Hl2.
  unfold handoffCookieName, handoffValue. rewrite Hu1, Hl1. done.
Qed.

End CredentialProperties.

(** No Fabrika credential reaches the application through cookies, and the application's own cookies survive: after
    [stripFabrikaCookies] a cookie is unreadable when its name starts with the reserved prefix and otherwise reads as
    before, and every other header is untouched. *)
Theorem stripFabrikaCookies_spec (h : headers) (name : string) :
  readCookie (headers_get "Cookie" (stripFabrikaCookies h)) name =
    (if Js.startsWith name FABRIKA_COOKIE_PREFIX then None else readCookie (headers_get "Cookie" h) name) /\
  (forall header, Js.toLowerCase header <> "cookie" -> headers_get header (stripFabrikaCookies h) = headers_get header h).
Proof.
  unfold stripFabrikaCookies. destruct (headers_get "Cookie" h) as [raw|] eqn:Hc.
  2: { rewrite Hc. cbn. split; [by destruct (Js.startsWith name _)|done]. }
  set (kept := List.filter _ _).
  assert (Hkept : readCookie_loop kept name =
            if Js.startsWith name FABRIKA_COOKIE_PREFIX then None else readCookie (Some raw) name).
  { unfold kept. rewrite readCookie_loop_filter, readCookie_split. destruct (Js.startsWith name _); [done|].
    apply readCookie_loop_ext. rewrite map_map. apply map_ext. apply cookie_part_trim. }
  assert (Hsemi : Forall (fun p => Js.forall_units (fun c => negb (Ascii.eqb c ";")) p = true) kept).
  { unfold kept. apply Forall_forall. intros p Hp. apply list_elem_of_In, filter_In in Hp as [Hp _].
    apply in_map_iff in Hp as (q & <- & Hq). apply trim_no_semicolon.
    pose proof (split_no_sep ";" raw) as Hs. rewrite Forall_forall in Hs. apply Hs. by apply list_elem_of_In. }
  rewrite <- Hkept. destruct kept as [|w ws].
  - rewrite get_delete. cbn. split; [done|]. intros header Hh. rewrite get_delete. by rewrite (proj2 (String.eqb_neq _ _)).
  - rewrite get_set. split; [|intros header Hh; rewrite get_set; by rewrite (proj2 (String.eqb_neq _ _))].
    change (Js.toLowerCase "Cookie" =? Js.toLowerCase "Cookie")%string with true. cbn iota.
    rewrite readCookie_split, split_join_cookie by done. apply readCookie_loop_ext. cbn. f_equal.
    rewrite map_map. apply map_ext. apply cookie_part_space.
Qed.

Definition demo_crypto : CryptoEnv nat :=
  {| getRandomValues := fun n e => (repeat e n, S e); sha256_bytes := fun s => repeat (String.length s) 32 |}.

Lemma createHandoffAttempt_cookie_witness :
  exists attempt e', createHandoffAttempt (H := demo_crypto) 7 = (attempt, e') /\
    handoffCookieName (Some (handoff_state attempt)) = Some "__Host-px_handoff_BwcHBwcHBwcHBwcHBwcHBw".
Proof.
  destruct (createHandoffAttempt (H := demo_crypto) 7) as [attempt e'] eqn:Ha. exists attempt, e'. split; [reflexivity|].
  destruct (createHandoffAttempt_cookie (H := demo_crypto) 7 attempt e') as (Hc & _);
    [intros n e0; apply repeat_length|exact Ha|].
  rewrite Hc. vm_compute in Ha. injection Ha as <- _. reflexivity.
Defined.

Example strip_example :
  headers_get "cookie" (stripFabrikaCookies [("Cookie", "a=1;  __Host-px_session = secret ; b=2; plain")]) = Some "a=1; b=2; plain".
Proof. reflexivity. Qed.
