(* ===== verification/Headers.v ===== *)
(** The response headers of every answer: the content security policy, the download treatment, caching and CORS.

    [proxy-core/src/headers.ts], over the case-insensitive [headers] of Credentials. [URL] is a parameter, with the form
    of an origin it documents as the law [PolicyUrlLaws]. *)

From S2P Require Import Prelude Credentials.
From Stdlib Require Import ZArith Lia String Ascii.
From stdpp Require Import base tactics strings pretty list.

Definition PERMISSIONS_POLICY_FEATURES : list string :=
  [ "accelerometer"; "ambient-light-sensor"; "autoplay"; "bluetooth"; "browsing-topics"; "camera"; 
    "clipboard-read"; "display-capture"; "encrypted-media"; "fullscreen"; "gamepad"; "geolocation"; "gyroscope"; "hid";
    "identity-credentials-get"; "idle-detection"; "local-fonts"; "magnetometer"; "microphone"; "midi"; 
    "otp-credentials"; "payment"; "picture-in-picture"; "publickey-credentials-create"; "publickey-credentials-get";
    "screen-wake-lock"; "serial"; "storage-access"; "usb"; "web-share"; "window-management"; "xr-spatial-tracking" ].

Definition PERMISSIONS_POLICY : string := Js.join ", " (map (fun feature => feature +:+ "=()") PERMISSIONS_POLICY_FEATURES).

Definition HeaderPolicy : Type := list (string * string).

Record CspSource := mkSource { source_origin : string; source_purpose : string }.

(** [CspExtensions] of a contract, and the named origins of a manifest entry. *)
Record CspExtensions := mkExtensions {
  x_connectSrc : list CspSource;
  x_imgSrc : list CspSource;
  x_frameAncestors : list CspSource;
  x_scriptSrc : option (list CspSource);
  x_frameSrc : option (list CspSource);
  x_styleSrc : option (list CspSource);
  x_fontSrc : option (list CspSource);
  x_workerSrc : option (list CspSource);
}.

Record CspOrigins := mkOrigins {
  connectSrc : list string;
  imgSrc : list string;
  frameAncestors : list string;
  scriptSrc : list string;
  frameSrc : list string;
  styleSrc : list string;
  fontSrc : list string;
  workerSrc : option (list string);
}.

Definition WORKER_BLOB_SOURCE : string := "blob:".
Definition MAX_CSP_ORIGINS : nat := 16.
Definition MAX_CROSS_ORIGINS : nat := 16.

(** [new URL(value)], as far as an origin is read; [None] is a throw. *)
Record PolicyUrl := mkPolicyUrl { protocol : string; origin : string; hostname : string; port : string }.
Class PolicyUrls := { policy_url : string -> option PolicyUrl }.

Definition is_label_end (c : ascii) : bool := Js.is_lower c || Js.is_digit c.
Definition is_label_unit (c : ascii) : bool := is_label_end c || Ascii.eqb c "-".

Fixpoint last_unit (c : ascii) (s : string) : ascii := match s with EmptyString => c | String d s' => last_unit d s' end.

Definition is_label (s : string) : bool :=
  match s with
  | EmptyString => false
  | String c rest => is_label_end c && Js.forall_units is_label_unit s && is_label_end (last_unit c rest)
  end.

(** [HOSTNAME.test] *)
Definition is_hostname (s : string) : bool := forallb is_label (Js.split "." s).

Definition isPolicyOrigin `{PolicyUrls} (value : string) (protocols : list string) : bool :=
  match policy_url value with
  | None => false
  | Some url => Js.elem (protocol url) protocols && (origin url =? value)%string && is_hostname (hostname url)
  end.

Definition isCrossOrigin `{PolicyUrls} (value : string) : bool := isPolicyOrigin value ["https:"; "http:"].

Definition NO_CSP_ORIGINS : CspOrigins := mkOrigins [] [] [] [] [] [] [] None.

Definition cspOrigins (csp : CspExtensions) : CspOrigins :=
  let origins := map source_origin in
  mkOrigins (origins (x_connectSrc csp)) (origins (x_imgSrc csp)) (origins (x_frameAncestors csp))
    (origins (default [] (x_scriptSrc csp))) (origins (default [] (x_frameSrc csp))) (origins (default [] (x_styleSrc csp)))
    (origins (default [] (x_fontSrc csp))) (origins <$> x_workerSrc csp).

(** The directives, each a name and its sources. *)
Definition csp_directives (origins : CspOrigins) (operationsOrigin : option string) : list (list string) :=
  let connect := "'self'" :: match operationsOrigin with Some o => [o] | None => [] end ++ connectSrc origins in
  let ancestors := match frameAncestors origins with [] => ["'none'"] | l => l end in
  [ ["default-src"; "'self'"];
    "script-src" :: "'self'" :: scriptSrc origins;
    "style-src" :: "'self'" :: "'unsafe-inline'" :: styleSrc origins;
    "img-src" :: "'self'" :: "data:" :: "blob:" :: imgSrc origins;
    "font-src" :: "'self'" :: "data:" :: fontSrc origins;
    "connect-src" :: connect;
    ["form-action"; "'self'"];
    ["object-src"; "'none'"];
    ["base-uri"; "'none'"];
    "frame-ancestors" :: ancestors ]
  ++ match frameSrc origins with [] => [] | l => ["frame-src" :: "'self'" :: l] end
  ++ (if match workerSrc origins with Some l => Js.elem WORKER_BLOB_SOURCE l | None => false end
      then [["worker-src"; "'self'"; WORKER_BLOB_SOURCE]] else []).

Definition headerPolicy (origins : CspOrigins) (operationsOrigin : option string) : HeaderPolicy :=
  [ ("Content-Security-Policy", Js.join "; " (map (Js.join " ") (csp_directives origins operationsOrigin)));
    ("X-Content-Type-Options", "nosniff");
    ("Cache-Control", "no-store");
    ("Referrer-Policy", "no-referrer");
    ("Cross-Origin-Opener-Policy", "same-origin");
    ("Permissions-Policy", PERMISSIONS_POLICY) ].

Inductive PublicScheme := Http | Https.

Definition STRICT_TRANSPORT_SECURITY : string := "max-age=31536000".

Definition transportPolicy (scheme : PublicScheme) : HeaderPolicy :=
  match scheme with Https => [("Strict-Transport-Security", STRICT_TRANSPORT_SECURITY)] | Http => [] end.

Definition TRANSPORT_HEADERS : list string := ["Strict-Transport-Security"].

Definition appHeaderPolicy (csp : CspOrigins) (operationsOrigin : option string) (scheme : PublicScheme) : HeaderPolicy :=
  headerPolicy csp operationsOrigin ++ transportPolicy scheme.

Definition BASE_HEADER_POLICY : HeaderPolicy := headerPolicy NO_CSP_ORIGINS None.

Definition INLINE_FILE_TYPES : list string := ["image/png"; "image/jpeg"; "image/gif"; "image/webp"].
Definition INLINE_DOCUMENT_TYPES : list string := ["application/xml"; "text/xml"; "application/rss+xml"; "application/atom+xml"].

Inductive EndpointResponse := FileResponse | InlineFileResponse.

Definition inlineFileTypes (response : option EndpointResponse) : list string :=
  match response with
  | Some InlineFileResponse => INLINE_FILE_TYPES ++ INLINE_DOCUMENT_TYPES
  | _ => INLINE_FILE_TYPES
  end.

Definition FILE_TREATMENT : HeaderPolicy :=
  [ ("X-Content-Type-Options", "nosniff");
    ("Content-Security-Policy", "sandbox; default-src 'none'");
    ("Cache-Control", "private, no-store") ].

Definition appFileTreatment (scheme : PublicScheme) : HeaderPolicy := FILE_TREATMENT ++ transportPolicy scheme.

Definition REMOVED_RESPONSE_HEADERS : list string :=
  [ "Content-Security-Policy-Report-Only"; "Report-To"; "Reporting-Endpoints"; "NEL"; 
    "Access-Control-Allow-Origin"; "Access-Control-Allow-Credentials"; "Access-Control-Allow-Methods"; "Access-Control-Allow-Headers";
    "Access-Control-Expose-Headers"; "Access-Control-Max-Age" ].

Definition CROSS_ORIGIN_REQUEST_HEADERS : string := "Authorization, Content-Type".
Definition CROSS_ORIGIN_MAX_AGE : string := "600".

Definition crossOriginHeaders (allowOrigin : string) : HeaderPolicy :=
  if (allowOrigin =? "*")%string then [("Access-Control-Allow-Origin", "*")]
  else [("Access-Control-Allow-Origin", allowOrigin); ("Vary", "Origin")].

Definition preflightHeaders (allowOrigin method : string) : HeaderPolicy :=
  crossOriginHeaders allowOrigin
  ++ [ ("Access-Control-Allow-Methods", method);
       ("Access-Control-Allow-Headers", CROSS_ORIGIN_REQUEST_HEADERS);
       ("Access-Control-Max-Age", CROSS_ORIGIN_MAX_AGE) ].

(** [Headers.append]: a repeated field reads as one, joined. *)
Definition headers_append (name value : string) (h : headers) : headers :=
  match headers_get name h with
  | Some old => headers_set name (old +:+ ", " +:+ value) h
  | None => headers_set name value h
  end.

Definition applyCrossOriginHeaders (policy : HeaderPolicy) (h : headers) : headers :=
  foldl (fun h field => if (field.1 =? "Vary")%string then headers_append field.1 field.2 h else headers_set field.1 field.2 h) h policy.

(** Whether the answer is shown inline. *)
Definition fileDisposition (contentType : option string) (inline : list string) : string :=
  match contentType with
  | Some t => if Js.elem t inline then "inline" else "attachment"
  | None => "attachment"
  end.

Definition set_all (policy : HeaderPolicy) (h : headers) : headers := foldl (fun h field => headers_set field.1 field.2 h) h policy.

Definition delete_all (names : list string) (h : headers) : headers := foldl (fun h name => headers_delete name h) h names.

Definition applyHeaderPolicy (policy : HeaderPolicy) (h : headers) : headers :=
  set_all policy (delete_all (REMOVED_RESPONSE_HEADERS ++ TRANSPORT_HEADERS) h).

(** [replace(/^[^;]*/, '')] *)
Fixpoint from_semicolon (s : string) : string :=
  match s with
  | EmptyString => ""
  | String c s' => if Ascii.eqb c ";" then s else from_semicolon s'
  end.

Definition applyFileTreatment (treatment : HeaderPolicy) (inline : list string) (h : headers) : headers :=
  let h := applyHeaderPolicy treatment h in
  let parameters := match headers_get "Content-Disposition" h with Some d => from_semicolon d | None => "" end in
  headers_set "Content-Disposition" (fileDisposition (headers_get "Content-Type" h) inline +:+ parameters) h.

Inductive EndpointCache := MaxAgeSeconds (seconds : N) | Immutable.

Definition cacheControlOf (cache : EndpointCache) : string :=
  match cache with
  | Immutable => "public, max-age=31536000, immutable"
  | MaxAgeSeconds seconds => "public, max-age=" +:+ pretty seconds
  end.

Definition applyAnswerCache (cache : option EndpointCache) (status : Z) (h : headers) : headers :=
  match cache with
  | Some c => if (status =? 200)%Z then headers_set "Cache-Control" (cacheControlOf c) h else h
  | None => h
  end.

(** [cspOriginsSchema] and the refinement of [operationsOrigin] in [manifest.ts]. *)
Definition cspDirectiveSchema `{PolicyUrls} (l : list string) : bool :=
  forallb (fun value => isPolicyOrigin value ["https:"]) l && (List.length l <=? MAX_CSP_ORIGINS)%nat.

Definition cspOriginsSchema `{PolicyUrls} (o : CspOrigins) : bool :=
  forallb cspDirectiveSchema [connectSrc o; imgSrc o; frameAncestors o; scriptSrc o; frameSrc o; styleSrc o; fontSrc o]
  && match workerSrc o with None => true | Some l => bool_decide (l = [WORKER_BLOB_SOURCE]) end.

Definition operationsOriginSchema `{PolicyUrls} (o : option string) : bool :=
  match o with None => true | Some value => isPolicyOrigin value ["https:"; "http:"] end.

(** ** Reading a policy back *)

(** What a policy sets a field to: its last entry of that name. *)
Definition policy_value (policy : HeaderPolicy) (name : string) : option string :=
  foldl (fun found field => if (Js.toLowerCase field.1 =? Js.toLowerCase name)%string then Some field.2 else found) None policy.

(** Whether a field's name is one of [names]. *)
Definition named (names : list string) (name : string) : bool :=
  existsb (fun n => Js.toLowerCase n =? Js.toLowerCase name)%string names.

(** How a browser reads a serialized policy: directives end at [;], sources are separated by spaces. *)
Definition parse_csp (value : string) : list (list string) :=
  map (fun directive => filter (fun token => token <> "") (Js.split " " directive)) (Js.split ";" value).

(** The form of an accepted origin: scheme, literal host, and an optional port. *)
Class PolicyUrlLaws `{PolicyUrls} := {
  origin_form value u : policy_url value = Some u -> protocol u = "https:" \/ protocol u = "http:" ->
    exists port, origin u = protocol u +:+ "//" +:+ hostname u +:+ port
      /\ (port = "" \/ exists digits, port = ":" +:+ digits /\ Js.forall_units Js.is_digit digits = true);
}.

Lemma set_all_get policy h name :
  headers_get name (set_all policy h) = match policy_value policy name with Some v => Some v | None => headers_get name h end.
Proof.
  unfold policy_value, set_all. induction policy as [|field policy IH] using rev_ind; [done|].
  rewrite !foldl_app. cbn [foldl]. rewrite get_set. destruct (_ =? _)%string; [done|apply IH].
Qed.

Lemma delete_all_get names h name : headers_get name (delete_all names h) = if named names name then None else headers_get name h.
Proof.
  unfold delete_all. revert h. induction names as [|n names IH]; intros h; [done|].
  cbn [foldl named existsb]. rewrite IH, get_delete. unfold named. by destruct (_ =? _)%string, (existsb _ _).
Qed.

Lemma applyHeaderPolicy_get policy h name :
  headers_get name (applyHeaderPolicy policy h)
  = match policy_value policy name with
    | Some v => Some v
    | None => if named (REMOVED_RESPONSE_HEADERS ++ TRANSPORT_HEADERS) name then None else headers_get name h
    end.
Proof. unfold applyHeaderPolicy. by rewrite set_all_get, delete_all_get. Qed.

(** *** The content security policy *)

(** A source that a header value carries as one token: it holds neither separator. *)
Definition is_token (s : string) : bool :=
  negb (s =? "")%string && Js.forall_units (fun c => negb (Ascii.eqb c " ") && negb (Ascii.eqb c ";")) s.

Lemma token_without (c : ascii) s : is_token s = true -> c = " "%char \/ c = ";"%char -> Js.forall_units (fun d => negb (Ascii.eqb d c)) s = true.
Proof.
  intros [_ H]%andb_true_iff Hc. revert H. apply forall_units_impl. intros d [H1 H2]%andb_true_iff. by destruct Hc as [->| ->].
Qed.

Lemma is_label_units s : is_label s = true -> Js.forall_units is_label_unit s = true.
Proof. destruct s; [done|]. unfold is_label. intros [[_ H]%andb_true_iff _]%andb_true_iff. exact H. Qed.

Lemma hostname_units s : is_hostname s = true -> Js.forall_units (fun c => is_label_unit c || Ascii.eqb c ".") s = true.
Proof.
  unfold is_hostname. rewrite <-(join_split "." s) at 2. generalize (Js.split "." s). intros l.
  induction l as [|w l IH]; intros H; [done|]. cbn [forallb] in H. apply andb_true_iff in H as [Hw Hl].
  assert (Hw' : Js.forall_units (fun c => is_label_unit c || Ascii.eqb c ".") w = true).
  { eapply forall_units_impl, is_label_units, Hw. intros c ->. done. }
  destruct l as [|w' l]; [done|].
  change (Js.join (String "." "") (w :: w' :: l)) with (w +:+ (String "." "" +:+ Js.join (String "." "") (w' :: l))).
  rewrite !forall_units_app, Hw', (IH Hl). done.
Qed.

Lemma is_label_unit_token c : is_label_unit c || Ascii.eqb c "." || Ascii.eqb c ":" || Js.is_digit c = true ->
  negb (Ascii.eqb c " ") && negb (Ascii.eqb c ";") = true.
Proof. destruct c as [[] [] [] [] [] [] [] []]; vm_compute; congruence. Qed.

Section Sources.
Context `{PolicyUrls}.
Notation accepted s := (s ∈ ["'self'"; "'none'"; "'unsafe-inline'"; "data:"; WORKER_BLOB_SOURCE]
  \/ isPolicyOrigin s ["https:"; "http:"] = true).

Lemma https_origin value : isPolicyOrigin value ["https:"] = true -> isPolicyOrigin value ["https:"; "http:"] = true.
Proof.
  unfold isPolicyOrigin. destruct (policy_url value); [|done]. intros [[H1 H2]%andb_true_iff H3]%andb_true_iff.
  rewrite H2, H3, !andb_true_r. cbn in *. rewrite orb_false_r in H1. by rewrite H1.
Qed.

Lemma keyword_accepted s : Js.elem s ["'self'"; "'none'"; "'unsafe-inline'"; "data:"; WORKER_BLOB_SOURCE] = true -> accepted s.
Proof. intros Hs. left. by apply elem_spec. Qed.

Lemma directives_sources o ops : cspOriginsSchema o = true -> operationsOriginSchema ops = true ->
  forall directive source, directive ∈ csp_directives o ops -> source ∈ tail directive -> accepted source.
Proof.
  intros [Ho _]%andb_true_iff Hops. rewrite forallb_forall in Ho.
  assert (Hd : forall l, In l [connectSrc o; imgSrc o; frameAncestors o; scriptSrc o; frameSrc o; styleSrc o; fontSrc o] ->
            Forall (fun s => accepted s) l).
  { intros l Hl. apply Ho in Hl. unfold cspDirectiveSchema in Hl. apply andb_true_iff in Hl as [Hl _].
    rewrite forallb_forall in Hl. apply Forall_forall. intros s Hs. right. apply https_origin, Hl. by apply list_elem_of_In. }
  cbn [In] in Hd.
  assert (Hops' : Forall (fun s => accepted s) (match ops with Some p => [p] | None => [] end)).
  { destruct ops; constructor; [by right|done]. }
  assert (Hanc : Forall (fun s => accepted s) match frameAncestors o with [] => ["'none'"] | l => l end).
  { destruct (frameAncestors o) eqn:E; [constructor; [by apply keyword_accepted|done]|]. rewrite <-E. apply Hd. rewrite E. tauto. }
  assert (Hall : Forall (fun d => Forall (fun s => accepted s) (tail d)) (csp_directives o ops)).
  { unfold csp_directives. apply Forall_app. split; [|apply Forall_app; split].
    - repeat (apply Forall_cons; split;
        [cbn [tail]; repeat (apply Forall_cons; split; [by apply keyword_accepted|]); try apply Forall_app_2; try (apply Hd; tauto); done|]). done.
    - destruct (frameSrc o) eqn:E; [done|]. rewrite <-E in *. apply Forall_cons; split; [|done]. cbn [tail].
      apply Forall_cons; split; [by apply keyword_accepted|]. apply Hd. rewrite E. tauto.
    - destruct (match workerSrc o with Some l => _ | None => _ end); repeat constructor; by apply keyword_accepted. }
  intros directive source H1 H2. rewrite Forall_forall in Hall. specialize (Hall _ H1). rewrite Forall_forall in Hall. by apply Hall.
Qed.
End Sources.

Section Csp.
Context `{PolicyUrlLaws}.

(** An accepted origin is one token: the literal host of [HOSTNAME] is what keeps it so. *)
Lemma policy_origin_token value : isPolicyOrigin value ["https:"; "http:"] = true -> is_token value = true.
Proof.
  unfold isPolicyOrigin. destruct (policy_url value) as [u|] eqn:E; [|done].
  intros [[Hp Ho]%andb_true_iff Hh]%andb_true_iff. apply String.eqb_eq in Ho.
  assert (Hproto : protocol u = "https:" \/ protocol u = "http:").
  { cbn -[String.eqb] in Hp. rewrite orb_false_r, orb_true_iff, !String.eqb_eq in Hp. tauto. }
  destruct (origin_form value u E Hproto) as (tail & Hform & Htail). apply hostname_units in Hh.
  assert (Hlong : forall s, Js.forall_units (fun c => negb (Ascii.eqb c " ") && negb (Ascii.eqb c ";")) s = true ->
            is_token (protocol u +:+ "//" +:+ s) = true).
  { intros s Hs. unfold is_token. destruct Hproto as [-> | ->]; cbn in *; exact Hs. }
  rewrite <-Ho, Hform. apply Hlong. rewrite forall_units_app. apply andb_true_iff. split.
  - eapply forall_units_impl, Hh. intros c Hc. apply is_label_unit_token. by rewrite Hc.
  - destruct Htail as [->|(digits & -> & Hd)]; [done|]. cbn. eapply forall_units_impl, Hd.
    intros c Hc. apply is_label_unit_token. rewrite Hc. apply orb_true_r.
Qed.

Lemma directives_tokens o ops : cspOriginsSchema o = true -> operationsOriginSchema ops = true ->
  Forall (fun d => d <> [] /\ Forall (fun s => is_token s = true) d) (csp_directives o ops).
Proof.
  intros Ho Hops. apply Forall_forall. intros d Hd.
  assert (Hname : is_token (hd "" d) = true).
  { revert d Hd. apply Forall_forall. unfold csp_directives.
    by destruct (frameSrc o), (match workerSrc o with Some l => _ | None => _ end); repeat constructor. }
  destruct d as [|name sources]; [done|]. split; [done|]. constructor; [exact Hname|].
  apply Forall_forall. intros s Hs. destruct (directives_sources o ops Ho Hops _ s Hd Hs) as [Hk|Hk].
  - revert s Hk Hs. intros s Hk _. revert s Hk. by apply Forall_forall; repeat constructor.
  - by apply policy_origin_token.
Qed.
End Csp.

Lemma join_units (p : ascii -> bool) sep l :
  Js.forall_units p sep = true -> Forall (fun s => Js.forall_units p s = true) l -> Js.forall_units p (Js.join sep l) = true.
Proof.
  intros Hsep Hl. induction Hl as [|w l Hw Hl IH]; [done|]. destruct l as [|w' l]; [done|].
  change (Js.join sep (w :: w' :: l)) with (w +:+ (sep +:+ Js.join sep (w' :: l))).
  by rewrite !forall_units_app, Hw, Hsep, IH.
Qed.

Lemma read_tokens l : l <> [] -> Forall (fun s => is_token s = true) l ->
  filter (fun t => t <> "") (Js.split " " (Js.join " " l)) = l.
Proof.
  intros Hne Hl. rewrite split_join; [|done|].
  - clear Hne. induction Hl as [|w l Hw Hl IH]; [done|]. rewrite filter_cons_True, IH; [done|]. intros ->. done.
  - eapply Forall_impl; [exact Hl|]. intros s Hs. apply token_without; auto.
Qed.

Lemma parse_serialized ds : ds <> [] -> Forall (fun d => d <> [] /\ Forall (fun s => is_token s = true) d) ds ->
  parse_csp (Js.join "; " (map (Js.join " ") ds)) = ds.
Proof.
  intros Hne Hds. destruct ds as [|d ds]; [done|]. unfold parse_csp. cbn [map]. rewrite split_join_cookie.
  2:{ change (Js.join " " d :: map (Js.join " ") ds) with (map (Js.join " ") (d :: ds)). apply Forall_map.
      eapply Forall_impl; [exact Hds|]. intros l [_ Hl]. apply join_units; [done|].
      eapply Forall_impl; [exact Hl|]. intros s Hs. apply token_without; auto. }
  apply Forall_cons in Hds as [[Hd Hdt] Hds]. cbn [map]. rewrite (read_tokens d) by done. f_equal.
  clear Hne Hd Hdt. induction Hds as [|l ls [Hl Hlt] Hds IH]; [done|]. cbn [map]. rewrite IH. f_equal.
  change (Js.split " " (String " " (Js.join " " l))) with ("" :: Js.split " " (Js.join " " l)).
  rewrite filter_cons_False by naive_solver. by apply read_tokens.
Qed.

Lemma directive_names o ops : NoDup (map (hd "") (csp_directives o ops)).
Proof.
  apply (bool_decide_unpack _). unfold csp_directives. destruct (frameSrc o), (match workerSrc o with Some l => _ | None => _ end); by vm_compute.
Qed.

(** *** The application's answer *)

Lemma unshadowed policy h name :
  policy_value policy name = None -> named (REMOVED_RESPONSE_HEADERS ++ TRANSPORT_HEADERS) name = false ->
  headers_get name (applyHeaderPolicy policy h) = headers_get name h.
Proof. intros H1 H2. by rewrite applyHeaderPolicy_get, H1, H2. Qed.

Lemma from_semicolon_start s : from_semicolon s = "" \/ Js.startsWith (from_semicolon s) ";" = true.
Proof.
  induction s as [|c s IH]; cbn -[Js.startsWith]; [auto|]. destruct (Ascii.eqb_spec c ";") as [->|]; [right; by destruct s|exact IH].
Qed.

Lemma disposition treatment h response :
  policy_value treatment "Content-Type" = None ->
  exists kind parameters,
    headers_get "Content-Disposition" (applyFileTreatment treatment (inlineFileTypes response) h) = Some (kind +:+ parameters)
    /\ (parameters = "" \/ Js.startsWith parameters ";" = true)
    /\ (kind = "inline" /\ (exists t, headers_get "Content-Type" h = Some t /\ t ∈ inlineFileTypes response)
        \/ kind = "attachment" /\ (forall t, headers_get "Content-Type" h = Some t -> t ∉ inlineFileTypes response)).
Proof.
  intros Ht. unfold applyFileTreatment. eexists _, _. split; [by rewrite get_set|]. split.
  { destruct (headers_get _ _); [apply from_semicolon_start|auto]. }
  rewrite (unshadowed treatment h "Content-Type") by done.
  unfold fileDisposition. destruct (headers_get "Content-Type" h) as [t|]; [|right; split; [done|discriminate]].
  destruct (Js.elem t _) eqn:E; [left|right]; split; try done.
  - exists t. by rewrite <-elem_spec.
  - intros t' [= <-] Ht'%elem_spec. congruence.
Qed.

(** The policy wins: an answer's field is what the policy says where it speaks, is gone where an application may not
    send it (a report endpoint, a CORS grant, a transport pin), and is the application's own everywhere else. So every
    answer carries exactly the one content security policy, a download is shown inline only when its single content type
    is one of the row's, and only the successful answer of a cacheable row is cached. *)
Theorem response_headers_spec (policy : HeaderPolicy) (h : headers) (name : string) :
  headers_get name (applyHeaderPolicy policy h)
    = match policy_value policy name with
      | Some v => Some v
      | None => if named (REMOVED_RESPONSE_HEADERS ++ TRANSPORT_HEADERS) name then None else headers_get name h
      end
  /\ (forall csp ops scheme, headers_get "Content-Security-Policy" (applyHeaderPolicy (appHeaderPolicy csp ops scheme) h)
        = Some (Js.join "; " (map (Js.join " ") (csp_directives csp ops)))
      /\ headers_get "Strict-Transport-Security" (applyHeaderPolicy (appHeaderPolicy csp ops scheme) h)
         = match scheme with Https => Some STRICT_TRANSPORT_SECURITY | Http => None end)
  /\ (forall scheme response, let h' := applyFileTreatment (appFileTreatment scheme) (inlineFileTypes response) h in
        headers_get "Content-Security-Policy" h' = Some "sandbox; default-src 'none'"
        /\ exists kind parameters, headers_get "Content-Disposition" h' = Some (kind +:+ parameters)
             /\ (parameters = "" \/ Js.startsWith parameters ";" = true)
             /\ (kind = "inline" /\ (exists t, headers_get "Content-Type" h = Some t /\ t ∈ inlineFileTypes response)
                 \/ kind = "attachment" /\ (forall t, headers_get "Content-Type" h = Some t -> t ∉ inlineFileTypes response)))
  /\ (forall cache status, headers_get "Cache-Control" (applyAnswerCache cache status (applyHeaderPolicy policy h))
        = match cache, (status =? 200)%Z with
          | Some c, true => Some (cacheControlOf c)
          | _, _ => headers_get "Cache-Control" (applyHeaderPolicy policy h)
          end).
Proof.
  repeat apply conj.
  - apply applyHeaderPolicy_get.
  - intros csp ops scheme. rewrite !applyHeaderPolicy_get. by destruct scheme.
  - intros scheme response h'. split.
    { unfold h', applyFileTreatment. rewrite get_set, applyHeaderPolicy_get. by destruct scheme. }
    destruct (disposition (appFileTreatment scheme) h) with (response := response) as (kind & parameters & E & Hp & Hk).
    { by destruct scheme. }
    exists kind, parameters. auto.
  - intros cache status. unfold applyAnswerCache. destruct cache; [|done]. destruct (status =? 200)%Z; [|done]. by rewrite get_set.
Qed.

(** A policy means what the manifest says: with every named origin accepted by the manifest's schema, a browser
    reading the serialized policy finds exactly the listed directives with exactly the listed sources, no name twice.
    No origin can add a directive, close one, or smuggle a second source in. *)
Theorem csp_reads_back `{PolicyUrlLaws} (o : CspOrigins) (ops : option string) :
  cspOriginsSchema o = true -> operationsOriginSchema ops = true ->
  exists value, headerPolicy o ops !! 0%nat = Some ("Content-Security-Policy", value)
    /\ parse_csp value = csp_directives o ops
    /\ NoDup (map (hd "") (parse_csp value))
    /\ forall directive source, directive ∈ parse_csp value -> source ∈ tail directive ->
         source ∈ ["'self'"; "'none'"; "'unsafe-inline'"; "data:"; WORKER_BLOB_SOURCE]
         \/ isPolicyOrigin source ["https:"; "http:"] = true.
Proof.
  intros Ho Hops. eexists. split; [done|].
  pose proof (parse_serialized (csp_directives o ops) ltac:(done) (directives_tokens o ops Ho Hops)) as Hparse.
  rewrite Hparse. split; [done|]. split; [apply directive_names|]. by apply directives_sources.
Qed.

(** A concrete [URL] for the example: an https URL that is its own origin on the default port. *)
Definition demo_policy_url (value : string) : option PolicyUrl :=
  if Js.startsWith value "https://"
  then Some (mkPolicyUrl "https:" ("https:" +:+ "//" +:+ Js.drop 8 value +:+ "") (Js.drop 8 value) "") else None.

#[export] Instance demo_policy_urls : PolicyUrls := {| policy_url := demo_policy_url |}.

#[export] Instance demo_policy_url_laws : PolicyUrlLaws.
Proof.
  constructor. intros value u. cbn. unfold demo_policy_url. destruct (Js.startsWith value "https://"); [|done].
  intros [= <-] _. exists "". auto.
Qed.

Definition demo_csp : CspOrigins := mkOrigins ["https://api.example"] [] [] ["https://cdn.example"] [] [] [] (Some [WORKER_BLOB_SOURCE]).

(** A header that a space or a semicolon in a host would have broken is refused before it is built. *)
Example injected_origin_refused : isPolicyOrigin "https://a.example; script-src *" ["https:"] = false.
Proof. vm_compute. reflexivity. Qed.

Lemma csp_reads_back_witness :
  cspOriginsSchema demo_csp = true /\ exists value, headerPolicy demo_csp (Some "https://ops.example") !! 0%nat
    = Some ("Content-Security-Policy", value) /\ parse_csp value = csp_directives demo_csp (Some "https://ops.example").
Proof.
  split; [by vm_compute|].
  destruct (csp_reads_back demo_csp (Some "https://ops.example") ltac:(by vm_compute) ltac:(by vm_compute)) as (v & H1 & H2 & _).
  exists v. exact (conj H1 H2).
Defined.
