(* ===== verification/Authorize.v ===== *)
(** The proxy's authorization core ([proxy-core/src/authorize.ts]): the only enforcement point.

    One request is one run of [authorize] over a [World]: the minted-token cache, the verifier's key-set cache, and the
    outside ([E]) that IAM, the clock, randomness and jose read. IAM's gateway, jose and the URL parser are the
    environment's. *)

From S2P Require Import Prelude Permissions Endpoints Token TokenCache Jwks Credentials Headers.
From Stdlib Require Import ZArith Lia String Ascii.
From stdpp Require Import base tactics strings gmap list.

(** ** manifest.ts: entries and rows *)

Record BodyAdmission := mkAdmission { contentTypes : list string; maxBytes : option Z }.

Inductive CrossOriginForm := CrossEnvironment | CrossAny.

(** [ManifestEndpointRow]: what the authorizer and the service read of any row. [row_oauth] is an installation row's scopes. *)
Record ManifestEndpointRow := mkRow {
  row_id : string;
  row_kind : string;
  row_method : string;
  row_path : string;
  row_callers : list string;
  row_requirement : option Requirement;
  row_admission : option BodyAdmission;
  row_delegation : option string;
  row_digest : string;
  row_crossOrigin : option CrossOriginForm;
  row_oauth : option (list string);
  row_authorization : bool;
  row_response : option EndpointResponse;
}.

#[global] Instance ManifestEndpointRow_pattern : EndpointPattern ManifestEndpointRow :=
  {| ep_id := row_id; ep_method := row_method; ep_path := row_path |}.

Record OAuthProtectedResource := mkResource {
  resource : string;
  resourceMetadata : string;
  authorizationServers : list string;
  scopesSupported : list string;
}.

(** What only an application entry has, and what only an installation entry has. *)
Inductive EntryKind :=
| ContractEntry (crossOrigins : list string) (audience : option string)
| InstallationEntry (oauthResources : list OAuthProtectedResource).

Record ProxyApp := mkApp {
  app_id : string;
  app_hosts : list string;
  app_scheme : string;
  app_kind : EntryKind;
}.

Definition audienceOf (app : ProxyApp) : string :=
  match app_kind app with
  | ContractEntry _ (Some audience) => audience
  | _ => app_id app
  end.

Definition isApplicationEntry (app : ProxyApp) : bool :=
  match app_kind app with ContractEntry _ _ => true | InstallationEntry _ => false end.

Record ResolvedApp := mkResolvedApp { resolved_app : ProxyApp; resolved_table : CompiledEndpointTable ManifestEndpointRow }.

(** ** Decisions *)

Inductive DenyReason :=
| no_credential | invalid_key | invalid_token | insufficient_scope | no_session | invalid_session | unknown_principal
| disabled | token_too_large | no_endpoint | caller_kind | insufficient_permission | cross_site | bad_redirect
| content_type | cross_origin | delegation_refused | no_app | bad_forward | non_canonical_path | iam_unavailable
| internal_error.

Record OAuthBearerChallenge := mkChallenge {
  resource_metadata : string;
  challenge_error : option string;
  challenge_scope : option string;
}.

Record Denial := mkDenial {
  deny_status : Z;
  deny_reason : DenyReason;
  deny_clearHandoffState : option string;
  deny_challenge : option OAuthBearerChallenge;
  deny_crossOrigin : option string;
}.

(** [{ outcome: 'deny', status, reason }] *)
Definition denial (status : Z) (reason : DenyReason) : Denial := mkDenial status reason None None None.

Inductive Decision :=
| Allow (allowed_token : option string) (subject : option string) (endpoint : string) (delegation : option string)
    (crossOrigin : option string) (forwardsAuthorization : bool)
| Deny (d : Denial)
| Preflight (allowOrigin method : string)
| Login (status : Z) (location : string) (reason : DenyReason) (handoff : HandoffAttempt)
| HandedOff (status : Z) (location session : string) (session_expiresAt : Z) (handoffState : string)
| Signout (status : Z) (location : string).

(** ** The environment *)

(** [URL], as far as the code uses it; [None] is a throw of the constructor. *)
Class UrlApi (U : Type) := {
  url_of : string -> option U;
  url_against : string -> string -> option U;
  url_host : U -> string;
  url_host_name : U -> string;
  url_origin : U -> string;
  url_pathname : U -> string;
  url_param : U -> string -> option string;
  url_setParam : string -> string -> U -> U;
  url_setProtocol : string -> U -> U;
  url_text : U -> string;
}.

Record ForwardedRequest (U : Type) := mkRequest {
  req_method : string;
  req_url : U;
  req_rawPath : string;
  req_headers : headers;
  req_id : string;
}.
Arguments req_method {U} _.
Arguments req_url {U} _.
Arguments req_rawPath {U} _.
Arguments req_headers {U} _.
Arguments req_id {U} _.

(** What an IAM call does: it throws the error its contract names, throws anything else, or answers. *)
Inductive IamAnswer (A : Type) :=
| ThrowsUnavailable
| ThrowsOther
| Answers (a : A).
Arguments ThrowsUnavailable {A}.
Arguments ThrowsOther {A}.
Arguments Answers {A} _.

Record Minted := mkMinted { minted_token : string; minted_expiresAt : Z }.
Record Exchanged := mkExchanged { exchanged_session : string; exchanged_returnUrl : string; exchanged_expiresAt : Z }.

(** [IamGateway] and [DelegationIssuer]; [inl] is [{ ok: false, reason }]. *)
Class IamEnv (E : Type) := {
  iam_mintToken : string -> string -> string -> E -> IamAnswer (DenyReason + Minted) * E;
  iam_mintFromKey : string -> string -> string -> E -> IamAnswer (DenyReason + Minted) * E;
  iam_exchangeAuthCode : string -> string -> string -> string -> E -> IamAnswer (option Exchanged) * E;
  iam_requestDelegation : string -> string -> string -> string -> E -> IamAnswer (option string) * E;
}.

Inductive ProxyError := IamUnavailableError | UnexpectedError.

Record World (C LocalJwks E : Type) := mkWorld {
  w_cache : option C;
  w_jwks : JwksCache LocalJwks;
  w_env : E;
}.
Arguments mkWorld {C LocalJwks E} _ _ _.
Arguments w_cache {C LocalJwks E} _.
Arguments w_jwks {C LocalJwks E} _.
Arguments w_env {C LocalJwks E} _.

(** ** Pure decisions *)

Definition ORIGIN_HEADER : string := "Origin".
Definition FETCH_SITE_HEADER : string := "Sec-Fetch-Site".
Definition FETCH_MODE_HEADER : string := "Sec-Fetch-Mode".
Definition PREFLIGHT_METHOD_HEADER : string := "Access-Control-Request-Method".
Definition TOKEN_REFRESH_SKEW_SECONDS : Z := 30.
Definition FORM_MULTIPART_TYPE : string := "multipart/form-data".
Definition FORM_URLENCODED_TYPE : string := "application/x-www-form-urlencoded".
Definition PREFLIGHTLESS_TYPES : list string := [FORM_MULTIPART_TYPE; FORM_URLENCODED_TYPE].

Definition formatEndpointHeader (id digest : string) : string := id +:+ "@" +:+ digest.

Definition admittedOrigin (app : ProxyApp) (row : ManifestEndpointRow) (origin : string) : option string :=
  match row_crossOrigin row with
  | Some CrossAny => Some "*"
  | Some CrossEnvironment =>
      match app_kind app with
      | ContractEntry crossOrigins _ => if Js.elem origin crossOrigins then Some origin else None
      | InstallationEntry _ => None
      end
  | None => None
  end.

Definition mediaTypeOf (h : headers) : string :=
  match headers_get "Content-Type" h with
  | None => ""
  | Some value =>
      match Js.split ";" value with
      | first :: _ => Js.toLowerCase (Js.trim first)
      | [] => ""
      end
  end.

Definition admitBody (row : ManifestEndpointRow) (h : headers) : option Denial :=
  match row_admission row with
  | None => None
  | Some admission => if Js.elem (mediaTypeOf h) (contentTypes admission) then None else Some (denial 400 content_type)
  end.

Definition preflightless (row : ManifestEndpointRow) (h : headers) : bool :=
  if (row_kind row =? "form")%string
  then match row_admission row with Some a => Js.elem FORM_MULTIPART_TYPE (contentTypes a) | None => false end
  else (row_kind row =? "public")%string && Js.elem (mediaTypeOf h) PREFLIGHTLESS_TYPES.

Definition isDocumentNavigation (h : headers) : bool :=
  match headers_get FETCH_MODE_HEADER h with
  | None => true
  | Some mode => (mode =? "")%string || (mode =? "navigate")%string
  end.

Definition is_control_or_space (c : ascii) : bool := (Js.code c <=? 32)%nat || (Js.code c =? 127)%nat.

Record OAuthBinding := mkBinding { binding_resource : OAuthProtectedResource; binding_scopes : list string }.

Definition withBearerChallenge (d : Denial) (oauth : option OAuthBinding) : Denial :=
  match oauth with
  | None => d
  | Some binding =>
      if negb (deny_status d =? 401)%Z && negb (deny_status d =? 403)%Z then d
      else
        let error := if (deny_status d =? 401)%Z then Some "invalid_token" else None in
        mkDenial (deny_status d) (deny_reason d) (deny_clearHandoffState d)
          (Some (mkChallenge (resourceMetadata (binding_resource binding)) error None)) (deny_crossOrigin d)
  end.

Definition invalidKey : Denial := denial 401 invalid_key.

(** A trailing run of slashes removed: [issuer.replace(/\/+$/, '')]. *)
Fixpoint stripSlashes (s : string) : string :=
  match s with
  | EmptyString => EmptyString
  | String c rest =>
      match stripSlashes rest with
      | EmptyString => if Ascii.eqb c "/" then EmptyString else String c EmptyString
      | t => String c t
      end
  end.

Section Pure.
Context {U : Type} `{UrlApi U}.

Definition admitFormOrigin (app : ProxyApp) (row : ManifestEndpointRow) (request : ForwardedRequest U)
    (crossOrigin : option string) : option Denial :=
  match headers_get ORIGIN_HEADER (req_headers request) with
  | None => None
  | Some origin =>
      if is_some crossOrigin || negb (preflightless row (req_headers request)) then None
      else if (origin =? app_scheme app +:+ "://" +:+ url_host (req_url request))%string then None
      else Some (denial 403 cross_origin)
  end.

Definition sameOriginTarget (origin : string) (path : option string) : option (option string) :=
  match path with
  | None => Some None
  | Some path =>
      if negb (Js.startsWith path "/") || Js.startsWith path "//" || Js.includes path "\"
         || negb (Js.forall_units (fun c => negb (is_control_or_space c)) path) then Some None
      else match url_against path origin with
           | None => None
           | Some target => Some (if (url_origin target =? origin)%string then Some (url_text target) else None)
           end
  end.

Definition returnsToHost (app : ProxyApp) (callback : U) (returnUrl : string) : bool :=
  match url_of returnUrl with
  | None => false
  | Some target =>
      (url_host_name target =? url_host_name callback)%string && Js.elem (url_host_name target) (app_hosts app)
  end.

(** [find] over the resources; the outer [None] is the throw of [new URL]. *)
Fixpoint oauthResourceOfRow (resources : list OAuthProtectedResource) (row : ManifestEndpointRow)
    : option (option OAuthProtectedResource) :=
  match resources with
  | [] => Some None
  | r :: rest =>
      match url_of (resource r) with
      | None => None
      | Some url => if (url_pathname url =? row_path row)%string then Some (Some r) else oauthResourceOfRow rest row
      end
  end.

Inductive BindingResult := BindingThrows | Unregistered | NoBinding | Bound (binding : OAuthBinding).

Definition oauthBindingOf (app : ProxyApp) (row : ManifestEndpointRow) : BindingResult :=
  match row_oauth row with
  | None => NoBinding
  | Some scopes =>
      match app_kind app with
      | InstallationEntry resources =>
          match oauthResourceOfRow resources row with
          | None => BindingThrows
          | Some None => Unregistered
          | Some (Some r) => Bound (mkBinding r scopes)
          end
      | ContractEntry _ _ => Unregistered
      end
  end.

Definition forwardsAuthorization (atob : string -> option string) (row : ManifestEndpointRow) (request : ForwardedRequest U) : bool :=
  match headers_get "Authorization" (req_headers request) with
  | None => false
  | Some authorization =>
      if (row_kind row =? "protocol")%string then true
      else row_authorization row && negb (carriesPlatformKey atob authorization API_KEY_PREFIX)
  end.

Definition decidePreflight (table : CompiledEndpointTable ManifestEndpointRow) (app : ProxyApp) (request : ForwardedRequest U)
    : option Decision :=
  match headers_get ORIGIN_HEADER (req_headers request), headers_get PREFLIGHT_METHOD_HEADER (req_headers request) with
  | Some origin, Some method =>
      if negb (isApplicationEntry app) || negb (req_method request =? "OPTIONS")%string then None
      else Some match planEndpoint table method (req_rawPath request) with
                | NonCanonical => Deny (denial 400 non_canonical_path)
                | NoEndpoint => Deny (denial 403 no_endpoint)
                | Endpoint row _ =>
                    match admittedOrigin app row origin with
                    | None => Deny (denial 403 cross_origin)
                    | Some allowOrigin => Preflight allowOrigin (row_method row)
                    end
                end
  | _, _ => None
  end.

End Pure.

(** ** The authorizer *)

Section Authorizer.
Context {U E Jwks LocalJwks C : Type}.
Context `{UrlApi U} `{UrlParser} `{JwksEnv E Jwks LocalJwks} `{IamEnv E} `{CryptoEnv E} `{TokenCache C}.

(** [AuthorizerOptions] with the verifier the constructor builds; [atob] is the platform's. *)
Record Authorizer := mkAuthorizer {
  authorizer_issuer : string;
  authorizer_verifier : TokenVerifier;
  authorizer_delegations : bool;
  authorizer_atob : string -> option string;
}.

Notation proxying := (eff (World C LocalJwks E) ProxyError).

Definition cacheGet (key : string) : proxying (option CachedToken) :=
  Eff.gets (fun w => c ← w_cache w; cache_get c key).

Definition cacheSet (key : string) (value : CachedToken) : proxying unit :=
  Eff.modify (fun w => mkWorld ((fun c => cache_set c key value) <$> w_cache w) (w_jwks w) (w_env w)).

Definition cacheDelete (key : string) : proxying unit :=
  Eff.modify (fun w => mkWorld ((fun c => cache_delete c key) <$> w_cache w) (w_jwks w) (w_env w)).

(** A call of the environment that does not fail. *)
Definition world {A} (f : E -> A * E) : proxying A := fun w =>
  let '(a, e') := f (w_env w) in (inr a, mkWorld (w_cache w) (w_jwks w) e').

Definition clock : proxying Z := world env_now.

(** The verifier shares the world; what it throws is no [IamUnavailableError]. *)
Definition verifyToken (self : Authorizer) (token : string) (profile : TokenAudienceProfile) : proxying VerifyResult := fun w =>
  let '(r, (jwks, e)) := verify (authorizer_verifier self) token profile (w_jwks w, w_env w) in
  (match r with inr a => inr a | inl _ => inl UnexpectedError end, mkWorld (w_cache w) jwks e).

(** [callIam]: every failure becomes [IamUnavailableError]. *)
Definition callIam {A} (call : E -> IamAnswer A * E) : proxying A :=
  answer ← world call;
  match answer with
  | ThrowsUnavailable | ThrowsOther => Eff.throw IamUnavailableError
  | Answers a => mret a
  end.

(** [KeyAttempt], [OAuthAttempt]: a token and its claims, or the denial. *)
Definition Attempt : Type := Denial + (string * AccessTokenClaims).

Inductive SessionAttempt :=
| SessionOk (session_token : string) (claims : AccessTokenClaims)
| SessionMiss (reason : DenyReason)
| SessionRefused
| SessionUnavailable.

(** A cached entry is used while it outlives the refresh skew. *)
Definition outlivesSkew (entry : CachedToken) (now : Z) : bool := (TOKEN_REFRESH_SKEW_SECONDS <? expiresAt entry - now)%Z.

(** The second half of [exchangeKey]: a fresh mint, verified and cached. *)
Definition mintKey (self : Authorizer) (app : ProxyApp) (bearer requestId : string) : proxying Attempt :=
  answer ← callIam (iam_mintFromKey (audienceOf app) bearer requestId);
  match answer with
  | inl reason => mret (inl (denial (match reason with invalid_key => 401 | _ => 403 end) reason))
  | inr minted =>
      verified ← verifyToken self (minted_token minted) (ProfileApp (audienceOf app));
      match verified with
      | VerifyUnavailable => mret (inl (denial 503 iam_unavailable))
      | VerifyInvalid => mret (inl invalidKey)
      | VerifyOk claims =>
          _ ← cacheSet (cacheKey (app_id app) CredKey bearer) (mkCached (minted_token minted) (minted_expiresAt minted));
          mret (inr (minted_token minted, claims))
      end
  end.

Definition exchangeKey (self : Authorizer) (app : ProxyApp) (bearer requestId : string) : proxying Attempt :=
  if negb (Js.startsWith bearer API_KEY_PREFIX) then mret (inl invalidKey)
  else
    let key := cacheKey (app_id app) CredKey bearer in
    cached ← cacheGet key;
    match cached with
    | None => mintKey self app bearer requestId
    | Some entry =>
        now ← clock;
        match outlivesSkew entry now with
        | false => mintKey self app bearer requestId
        | true =>
            verified ← verifyToken self (token entry) (ProfileApp (audienceOf app));
            match verified with
            | VerifyOk claims => mret (inr (token entry, claims))
            | VerifyUnavailable => mret (inl (denial 503 iam_unavailable))
            | VerifyInvalid => _ ← cacheDelete key; mintKey self app bearer requestId
            end
        end
    end.

Definition is_user (claims : AccessTokenClaims) : bool := bool_decide (ptype claims = Some TypeUser).

Definition mintSession (self : Authorizer) (app : ProxyApp) (session requestId : string) : proxying SessionAttempt :=
  answer ← callIam (iam_mintToken (audienceOf app) session requestId);
  match answer with
  | inl token_too_large => mret SessionRefused
  | inl reason => mret (SessionMiss reason)
  | inr minted =>
      verified ← verifyToken self (minted_token minted) (ProfileApp (audienceOf app));
      match verified with
      | VerifyUnavailable => mret SessionUnavailable
      | VerifyInvalid => mret (SessionMiss invalid_session)
      | VerifyOk claims =>
          if negb (is_user claims) then mret (SessionMiss invalid_session)
          else
            _ ← cacheSet (cacheKey (app_id app) CredSession session) (mkCached (minted_token minted) (minted_expiresAt minted));
            mret (SessionOk (minted_token minted) claims)
      end
  end.

Definition authorizeSession (self : Authorizer) (app : ProxyApp) (request : ForwardedRequest U) : proxying SessionAttempt :=
  now ← clock;
  match readCookie (headers_get "Cookie" (req_headers request)) SESSION_COOKIE with
  | None => mret (SessionMiss no_session)
  | Some session =>
      let key := cacheKey (app_id app) CredSession session in
      cached ← cacheGet key;
      match cached with
      | None => mintSession self app session (req_id request)
      | Some entry =>
          if negb (outlivesSkew entry now) then mintSession self app session (req_id request)
          else
            verified ← verifyToken self (token entry) (ProfileApp (audienceOf app));
            let drop : proxying SessionAttempt := _ ← cacheDelete key; mintSession self app session (req_id request) in
            match verified with
            | VerifyOk claims => if is_user claims then mret (SessionOk (token entry) claims) else drop
            | VerifyUnavailable => mret SessionUnavailable
            | VerifyInvalid => drop
            end
      end
  end.

Definition verifyOAuthBearer (self : Authorizer) (app : ProxyApp) (binding : OAuthBinding) (bearer : option string) : proxying Attempt :=
  let metadata := resourceMetadata (binding_resource binding) in
  let challenged status reason challenge := inl (mkDenial status reason None (Some challenge) None) in
  match bearer with
  | None => mret (challenged 401%Z no_credential (mkChallenge metadata None None))
  | Some bearer =>
      verified ← verifyToken self bearer (ProfileResource (audienceOf app) (resource (binding_resource binding)));
      match verified with
      | VerifyUnavailable => mret (inl (denial 503 iam_unavailable))
      | VerifyInvalid => mret (challenged 401%Z invalid_token (mkChallenge metadata (Some "invalid_token") None))
      | VerifyOk claims =>
          let granted := match oauth claims with Some o => oauth_scopes o | None => [] end in
          if negb (forallb (fun scope => Js.elem scope granted) (binding_scopes binding)) then
            mret (challenged 403%Z insufficient_scope
                    (mkChallenge metadata (Some "insufficient_scope") (Some (Js.join " " (binding_scopes binding)))))
          else mret (inr (bearer, claims))
      end
  end.

Definition loginUrl (self : Authorizer) (app : ProxyApp) (url : U) (handoff : HandoffAttempt) : option string :=
  let target := url_setProtocol (app_scheme app +:+ ":") url in
  login ← url_against "/auth/login" (stripSlashes (authorizer_issuer self));
  Some (url_text (url_setParam "code_challenge" (handoff_challenge handoff)
         (url_setParam "state" (handoff_state handoff)
         (url_setParam "redirect" (url_text target)
         (url_setParam "app" (audienceOf app) login))))).

Definition loginDecision (self : Authorizer) (app : ProxyApp) (request : ForwardedRequest U) (reason : DenyReason) : proxying Decision :=
  handoff ← world createHandoffAttempt;
  match loginUrl self app (req_url request) handoff with
  | None => Eff.throw UnexpectedError
  | Some location =>
      mret (Login (if isDocumentNavigation (req_headers request) then 302 else 401) location reason handoff)
  end.

(** [EndpointCaller]: a verified caller and whether it is a session's, or the decision that ends the request. *)
Inductive EndpointCaller :=
| CallerOk (caller_token : string) (claims : AccessTokenClaims) (from_session : bool)
| CallerEnds (decision : Decision).

Definition endpointCaller (self : Authorizer) (app : ProxyApp) (oauth : option OAuthBinding) (callers : list string)
    (request : ForwardedRequest U) (crossOrigin : bool) : proxying EndpointCaller :=
  let authorization := headers_get "Authorization" (req_headers request) in
  if match authorization with Some a => negb (Js.trim a =? "")%string | None => false end then
    let bearer := readBearer authorization in
    let with_key : proxying EndpointCaller :=
      key ← match bearer with
            | None => mret (inl invalidKey)
            | Some b => exchangeKey self app b (req_id request)
            end;
      match key with
      | inr (t, claims) => mret (CallerOk t claims false)
      | inl d => mret (CallerEnds (Deny (withBearerChallenge d oauth)))
      end in
    match oauth with
    | Some binding =>
        if match bearer with None => true | Some b => negb (Js.startsWith b API_KEY_PREFIX) end then
          verified ← verifyOAuthBearer self app binding bearer;
          match verified with
          | inr (t, claims) => mret (CallerOk t claims false)
          | inl d => mret (CallerEnds (Deny d))
          end
        else with_key
    | None => with_key
    end
  else if negb (Js.elem "human" callers) || crossOrigin then
    mret (CallerEnds (Deny (mkDenial 401 no_credential None
      ((fun b => mkChallenge (resourceMetadata (binding_resource b)) None None) <$> oauth) None)))
  else
    session ← authorizeSession self app request;
    match session with
    | SessionOk t claims => mret (CallerOk t claims true)
    | SessionUnavailable => mret (CallerEnds (Deny (denial 503 iam_unavailable)))
    | SessionRefused => mret (CallerEnds (Deny (denial 403 token_too_large)))
    | SessionMiss reason => login ← loginDecision self app request reason; mret (CallerEnds login)
    end.

Definition obtainDelegation (self : Authorizer) (app : ProxyApp) (endpoint token requestId : string)
    : proxying (Denial + option string) :=
  if negb (authorizer_delegations self) then mret (inr None)
  else
    result ← callIam (iam_requestDelegation (audienceOf app) token requestId endpoint);
    match result with
    | Some grant => mret (if negb (grant =? "")%string then inr (Some grant) else inl (denial 403 delegation_refused))
    | None => mret (inl (denial 403 delegation_refused))
    end.

(** [decideRow] on a row with a requirement, once its binding is known. *)
Definition decideCredentialed (self : Authorizer) (app : ProxyApp) (row : ManifestEndpointRow) (requirement : Requirement)
    (oauth : option OAuthBinding) (request : ForwardedRequest U) (crossOrigin : option string) : proxying Decision :=
  caller ← endpointCaller self app oauth (row_callers row) request (is_some crossOrigin);
  match caller with
  | CallerEnds decision => mret decision
  | CallerOk t claims from_session =>
      let kind := callerOf claims in
      if match kind with
         | None => true
         | Some k => negb (Js.elem k (row_callers row)) || negb (callerAdmittedAt k (row_path row))
         end
      then mret (Deny (withBearerChallenge (denial 403 caller_kind) oauth))
      else if negb (satisfies requirement (perms claims)) then mret (Deny (denial 403 insufficient_permission))
      else if from_session && negb (req_method request =? "GET")%string
              && negb (bool_decide (headers_get FETCH_SITE_HEADER (req_headers request) = Some "same-origin"))
      then mret (Deny (denial 403 cross_site))
      else match admitBody row (req_headers request) with
           | Some refused => mret (Deny refused)
           | None =>
               delegation ← match row_delegation row with
                            | None => mret (inr None)
                            | Some _ => obtainDelegation self app (row_id row) t (req_id request)
                            end;
               match delegation with
               | inl refused => mret (Deny refused)
               | inr grant =>
                   mret (Allow (Some t) (Some (sub claims)) (formatEndpointHeader (row_id row) (row_digest row)) grant crossOrigin false)
               end
           end
  end.

Definition decideRow (self : Authorizer) (app : ProxyApp) (row : ManifestEndpointRow) (request : ForwardedRequest U)
    (crossOrigin : option string) : proxying Decision :=
  match row_requirement row with
  | None =>
      mret match admitBody row (req_headers request) with
           | Some refused => Deny refused
           | None =>
               match admitFormOrigin app row request crossOrigin with
               | Some refused => Deny refused
               | None =>
                   Allow None None (formatEndpointHeader (row_id row) (row_digest row)) None crossOrigin
                     (forwardsAuthorization (authorizer_atob self) row request)
               end
           end
  | Some requirement =>
      match oauthBindingOf app row with
      | BindingThrows => Eff.throw UnexpectedError
      | Unregistered => mret (Deny (denial 403 internal_error))
      | NoBinding => decideCredentialed self app row requirement None request crossOrigin
      | Bound binding => decideCredentialed self app row requirement (Some binding) request crossOrigin
      end
  end.

(** A denial on a row that admits the request's origin tells the page which origin may read it. *)
Definition withCrossOrigin (crossOrigin : option string) (decision : Decision) : Decision :=
  match crossOrigin, decision with
  | Some _, Deny d => Deny (mkDenial (deny_status d) (deny_reason d) (deny_clearHandoffState d) (deny_challenge d) crossOrigin)
  | _, _ => decision
  end.

Definition decideEndpoint (self : Authorizer) (app : ProxyApp) (table : CompiledEndpointTable ManifestEndpointRow)
    (request : ForwardedRequest U) : proxying Decision :=
  match decidePreflight table app request with
  | Some preflight => mret preflight
  | None =>
      match planEndpoint table (req_method request) (req_rawPath request) with
      | NonCanonical => mret (Deny (denial 400 non_canonical_path))
      | NoEndpoint => mret (Deny (denial 403 no_endpoint))
      | Endpoint row _ =>
          let crossOrigin := origin ← headers_get ORIGIN_HEADER (req_headers request); admittedOrigin app row origin in
          decision ← decideRow self app row request crossOrigin;
          mret (withCrossOrigin crossOrigin decision)
      end
  end.

Definition authorize (self : Authorizer) (resolved : ResolvedApp) (request : ForwardedRequest U) : proxying Decision :=
  Eff.catch (decideEndpoint self (resolved_app resolved) (resolved_table resolved) request)
    (fun err => mret (Deny match err with
                           | IamUnavailableError => denial 503 iam_unavailable
                           | UnexpectedError => denial 403 internal_error
                           end)).

(** A callback's denial clears the handoff state. *)
Definition callbackDenial (status : Z) (reason : DenyReason) (state : string) : Decision :=
  Deny (mkDenial status reason (Some state) None None).

Definition redeem (self : Authorizer) (resolved : ResolvedApp) (request : ForwardedRequest U) (state : string) : proxying Decision :=
  let app := resolved_app resolved in
  match url_param (req_url request) "code" with
  | None => mret (callbackDenial 403 no_credential state)
  | Some code =>
      if (code =? "")%string then mret (callbackDenial 403 no_credential state)
      else
        let presented := cookieName ← handoffCookieName (Some state); readCookie (headers_get "Cookie" (req_headers request)) cookieName in
        let exchange verifier := callIam (iam_exchangeAuthCode (audienceOf app) code verifier (req_id request)) in
        match presented with
        | None =>
            unmatched ← world unmatchedVerifier;
            _ ← exchange unmatched;
            mret (callbackDenial 403 invalid_session state)
        | Some verifier =>
            result ← exchange verifier;
            match result with
            | None => mret (callbackDenial 403 invalid_session state)
            | Some exchanged =>
                if negb (returnsToHost app (req_url request) (exchanged_returnUrl exchanged))
                then mret (callbackDenial 403 invalid_session state)
                else mret (HandedOff 302 (exchanged_returnUrl exchanged) (exchanged_session exchanged) (exchanged_expiresAt exchanged) state)
            end
        end
  end.

Definition authorizeCallback (self : Authorizer) (resolved : ResolvedApp) (request : ForwardedRequest U) : proxying Decision :=
  match url_param (req_url request) "state" with
  | None => mret (Deny (denial 403 no_credential))
  | Some state =>
      match handoffCookieName (Some state) with
      | None => mret (Deny (denial 403 no_credential))
      | Some _ =>
          Eff.catch (redeem self resolved request state)
            (fun err => mret match err with
                             | IamUnavailableError => callbackDenial 503 iam_unavailable state
                             | UnexpectedError => callbackDenial 403 internal_error state
                             end)
      end
  end.

(** [signOut]; a throw of [new URL] escapes to the service. *)
Definition signOut (self : Authorizer) (resolved : ResolvedApp) (request : ForwardedRequest U) : proxying Decision :=
  let app := resolved_app resolved in
  if negb (req_method request =? "GET")%string then mret (Deny (denial 403 no_endpoint))
  else if negb (bool_decide (headers_get FETCH_SITE_HEADER (req_headers request) = Some "same-origin"))
  then mret (Deny (denial 403 cross_site))
  else match url_of (app_scheme app +:+ "://" +:+ url_host (req_url request)) with
       | None => Eff.throw UnexpectedError
       | Some own =>
           match sameOriginTarget (url_origin own) (url_param (req_url request) "redirect") with
           | None => Eff.throw UnexpectedError
           | Some None => mret (Deny (denial 400 bad_redirect))
           | Some (Some target) =>
               _ ← match readCookie (headers_get "Cookie" (req_headers request)) SESSION_COOKIE with
                   | Some session => cacheDelete (cacheKey (app_id app) CredSession session)
                   | None => mret tt
                   end;
               match url_against "/auth/terminals/release" (stripSlashes (authorizer_issuer self)) with
               | None => Eff.throw UnexpectedError
               | Some release =>
                   mret (Signout 302 (url_text (url_setParam "redirect" target (url_setParam "app" (audienceOf app) release))))
               end
           end
       end.

End Authorizer.

(** ** What the world keeps *)

Section Invariant.
Context {U E Jwks LocalJwks C : Type}.
Context `{UrlApi U} `{UrlParser} `{JwksEnv E Jwks LocalJwks} `{IamEnv E} `{CryptoEnv E} `{TokenCacheLaws C}.

(** The entries the proxy fronts; ids hold no space and are unique. *)
Context (apps : list ProxyApp).

Definition distinct_ids : Prop :=
  (forall app, app ∈ apps -> no_space (app_id app) = true) /\
  (forall app app', app ∈ apps -> app' ∈ apps -> app_id app = app_id app' -> app = app').

(** IAM minted [t] for this audience and this very credential. *)
Definition minted_for (audience : string) (kind : CredentialKind) (credential t : string) : Prop :=
  exists requestId e x,
    match kind with
    | CredKey => (iam_mintFromKey audience credential requestId e).1 = Answers (inr (mkMinted t x))
    | CredSession => (iam_mintToken audience credential requestId e).1 = Answers (inr (mkMinted t x))
    end.

(** The cached key set was fetched, and what is cached under a credential was minted for that credential. *)
Record world_ok (w : World C LocalJwks E) : Prop := {
  ok_keys : authentic (Jwks := Jwks) (w_jwks w, w_env w);
  ok_cache : forall c app kind credential v,
    w_cache w = Some c -> app ∈ apps -> cache_get c (cacheKey (app_id app) kind credential) = Some v ->
    minted_for (audienceOf app) kind credential (token v);
}.

Lemma triple_world {A} (f : E -> A * E) (P : A -> Prop) :
  (forall e, P (f e).1) -> Eff.triple world_ok (world f) P.
Proof.
  intros Hf [c j e] [Hk Hc]. unfold world. cbn. specialize (Hf e). destruct (f e) as [a e']. cbn in *.
  split; [by split|]. by intros ? [= <-].
Qed.

Lemma triple_callIam {A} (call : E -> IamAnswer A * E) :
  Eff.triple world_ok (callIam call) (fun a => exists e, (call e).1 = Answers a).
Proof.
  unfold callIam. eapply triple_bind with (P := fun r => exists e, (call e).1 = r); [apply triple_world; eauto|].
  intros [| |a] He; [apply triple_throw|apply triple_throw|]. by apply triple_ret.
Qed.

Lemma triple_verifyToken (self : Authorizer) t profile :
  Eff.triple world_ok (verifyToken self t profile)
    (fun r => forall claims, r = VerifyOk claims -> vouched (Jwks := Jwks) (authorizer_verifier self) t profile claims).
Proof.
  intros [c j e] [Hk Hc]. unfold verifyToken. cbn.
  destruct (verify_vouched (authorizer_verifier self) t profile (j, e) Hk) as [Hi Hv].
  destruct (verify _ t profile (j, e)) as [[err|r] [j' e']]; cbn in *; (split; [by split|]); [done|].
  intros r' [= <-]. exact (Hv r eq_refl).
Qed.

Lemma triple_cacheGet app kind credential :
  app ∈ apps ->
  Eff.triple (X := ProxyError) world_ok (cacheGet (cacheKey (app_id app) kind credential))
    (fun o => forall v, o = Some v -> minted_for (audienceOf app) kind credential (token v)).
Proof.
  intros Hin. apply triple_gets. intros [c j e] [Hk Hc] v Hv. cbn in *. destruct c as [c|]; [|done]. eauto.
Qed.

Lemma triple_cacheSet app kind credential v :
  distinct_ids -> app ∈ apps -> minted_for (audienceOf app) kind credential (token v) ->
  Eff.triple (X := ProxyError) world_ok (cacheSet (cacheKey (app_id app) kind credential) v) (fun _ => True).
Proof.
  intros [Hs Hd] Hin Hm. apply triple_modify; [|done]. intros [c j e] [Hk Hc]. split; [done|]. cbn in *.
  intros c' app' kind' cred' v' (c0 & -> & ->)%fmap_Some_1 Hin' Hg.
  apply get_after_set in Hg as [[Hkey ->]|[_ Hg]]; [|by eauto].
  apply cacheKey_inj in Hkey as (Ha & -> & ->); [|by auto..]. by rewrite (Hd app' app).
Qed.

Lemma triple_cacheDelete key : Eff.triple (X := ProxyError) world_ok (cacheDelete key) (fun _ => True).
Proof.
  apply triple_modify; [|done]. intros [c j e] [Hk Hc]. split; [done|]. cbn in *.
  intros c' app kind cred v (c0 & -> & ->)%fmap_Some_1 Hin Hg. apply get_after_delete in Hg as [_ Hg]. eauto.
Qed.

(** ** What each step promises *)

Context (self : Authorizer) (app : ProxyApp) (Hids : distinct_ids) (Happ : app ∈ apps).

Notation good t profile claims := (vouched (Jwks := Jwks) (authorizer_verifier self) t profile claims).
Notation audience := (ProfileApp (audienceOf app)).

Definition key_promise (bearer : string) (r : Attempt) : Prop :=
  forall t claims, r = inr (t, claims) -> good t audience claims /\ minted_for (audienceOf app) CredKey bearer t.

Lemma mintKey_promise bearer requestId : Eff.triple world_ok (mintKey self app bearer requestId) (key_promise bearer).
Proof.
  unfold mintKey. eapply triple_bind; [apply triple_callIam|]. intros [reason|[t x]] [e He]; [by apply triple_ret|].
  assert (Hm : minted_for (audienceOf app) CredKey bearer t) by (exists requestId, e, x; exact He).
  eapply triple_bind; [apply triple_verifyToken|]. intros [claims| |] Hv; [|by apply triple_ret|by apply triple_ret].
  eapply triple_bind; [by apply triple_cacheSet|]. intros _ _. apply triple_ret. intros ? ? [= <- <-]. auto.
Qed.

Lemma exchangeKey_promise bearer requestId : Eff.triple world_ok (exchangeKey self app bearer requestId) (key_promise bearer).
Proof.
  unfold exchangeKey. destruct (negb _); [by apply triple_ret|].
  eapply triple_bind; [by apply triple_cacheGet|]. intros [v|] Hc; [|apply mintKey_promise].
  eapply triple_bind; [apply triple_world with (P := fun _ => True); done|]. intros now _.
  destruct (outlivesSkew v now); [|apply mintKey_promise].
  eapply triple_bind; [apply triple_verifyToken|]. intros [claims| |] Hv.
  - apply triple_ret. intros ? ? [= <- <-]. auto.
  - eapply triple_bind; [apply triple_cacheDelete|]. intros _ _. apply mintKey_promise.
  - by apply triple_ret.
Qed.

Definition session_promise (session : string) (r : SessionAttempt) : Prop :=
  forall t claims, r = SessionOk t claims ->
    good t audience claims /\ is_user claims = true /\ minted_for (audienceOf app) CredSession session t.

Lemma mintSession_promise session requestId :
  Eff.triple world_ok (mintSession self app session requestId) (session_promise session).
Proof.
  unfold mintSession. eapply triple_bind; [apply triple_callIam|]. intros [reason|[t x]] [e He].
  { destruct reason; by apply triple_ret. }
  assert (Hm : minted_for (audienceOf app) CredSession session t) by (exists requestId, e, x; exact He).
  eapply triple_bind; [apply triple_verifyToken|]. intros [claims| |] Hv; [|by apply triple_ret|by apply triple_ret].
  destruct (is_user claims) eqn:Hu; cbn [negb]; [|by apply triple_ret].
  eapply triple_bind; [by apply triple_cacheSet|]. intros _ _. apply triple_ret. intros ? ? [= <- <-]. auto.
Qed.

Lemma authorizeSession_promise (request : ForwardedRequest U) :
  Eff.triple world_ok (authorizeSession self app request) (fun r => forall t claims, r = SessionOk t claims ->
    exists session, readCookie (headers_get "Cookie" (req_headers request)) SESSION_COOKIE = Some session /\
      good t audience claims /\ is_user claims = true /\ minted_for (audienceOf app) CredSession session t).
Proof.
  unfold authorizeSession. eapply triple_bind; [apply triple_world with (P := fun _ => True); done|]. intros now _.
  destruct (readCookie _ _) as [session|]; [|by apply triple_ret].
  eapply triple_weaken with (P := session_promise session); [|intros r Hr t claims Ht; exists session; split; [done|]; auto].
  eapply triple_bind; [by apply triple_cacheGet|]. intros [v|] Hc; [|apply mintSession_promise].
  destruct (negb _); [apply mintSession_promise|].
  eapply triple_bind; [apply triple_verifyToken|]. intros r Hv. cbn zeta.
  assert (Hdrop : Eff.triple world_ok (_ ← cacheDelete (cacheKey (app_id app) CredSession session);
                                       mintSession self app session (req_id request)) (session_promise session)).
  { eapply triple_bind; [apply triple_cacheDelete|]. intros _ _. apply mintSession_promise. }
  destruct r as [claims| |]; [|exact Hdrop|by apply triple_ret].
  destruct (is_user claims) eqn:Hu; [|exact Hdrop]. apply triple_ret. intros ? ? [= <- <-]. auto.
Qed.

Lemma verifyOAuthBearer_promise binding bearer :
  Eff.triple world_ok (verifyOAuthBearer self app binding bearer) (fun r => forall t claims, r = inr (t, claims) ->
    bearer = Some t /\ good t (ProfileResource (audienceOf app) (resource (binding_resource binding))) claims /\
    exists o, oauth claims = Some o /\ forall scope, scope ∈ binding_scopes binding -> scope ∈ oauth_scopes o).
Proof.
  unfold verifyOAuthBearer. destruct bearer as [bearer|]; [|by apply triple_ret].
  eapply triple_bind; [apply triple_verifyToken|]. intros [claims| |] Hv; [|by apply triple_ret|by apply triple_ret].
  destruct (forallb _ _) eqn:Hs; [|by apply triple_ret]. apply triple_ret. intros ? ? [= <- <-].
  specialize (Hv claims eq_refl). split; [done|]. split; [done|].
  destruct Hv as (e & keys & payload & typ & _ & _ & _ & _ & Hm). unfold matchesTokenAudience in Hm.
  destruct (oauth claims) as [o|]; [|done]. exists o. split; [done|]. intros scope Hscope.
  apply elem_spec. rewrite forallb_forall in Hs. apply Hs. by apply list_elem_of_In.
Qed.

(** Where a caller's token comes from: the session of a same-origin browser, a key, or an OAuth bearer of the row's
    resource. *)
Definition presented (request : ForwardedRequest U) (callers : list string) (oauth_binding : option OAuthBinding)
    (crossOrigin : bool) (t : string) (claims : AccessTokenClaims) (from_session : bool) : Prop :=
  if from_session then
    crossOrigin = false /\ "human" ∈ callers /\ is_user claims = true /\ good t audience claims /\
    exists session, readCookie (headers_get "Cookie" (req_headers request)) SESSION_COOKIE = Some session /\
      minted_for (audienceOf app) CredSession session t
  else
    exists bearer, readBearer (headers_get "Authorization" (req_headers request)) = Some bearer /\
      ((good t audience claims /\ minted_for (audienceOf app) CredKey bearer t) \/
       (exists binding o, oauth_binding = Some binding /\ t = bearer /\
          good t (ProfileResource (audienceOf app) (resource (binding_resource binding))) claims /\
          oauth claims = Some o /\ forall scope, scope ∈ binding_scopes binding -> scope ∈ oauth_scopes o)).

Definition is_refusal (d : Decision) : Prop :=
  match d with Deny _ | Login _ _ _ _ => True | _ => False end.

Lemma loginDecision_promise (request : ForwardedRequest U) reason :
  Eff.triple world_ok (loginDecision self app request reason) is_refusal.
Proof.
  unfold loginDecision. eapply triple_bind; [apply triple_world with (P := fun _ => True); done|]. intros h _.
  destruct (loginUrl _ _ _ _); [by apply triple_ret|apply triple_throw].
Qed.

Lemma endpointCaller_promise oauth_binding callers (request : ForwardedRequest U) crossOrigin :
  Eff.triple world_ok (endpointCaller self app oauth_binding callers request crossOrigin)
    (fun r => match r with
              | CallerOk t claims from_session => presented request callers oauth_binding crossOrigin t claims from_session
              | CallerEnds d => is_refusal d
              end).
Proof.
  unfold endpointCaller. cbn zeta. destruct (match headers_get "Authorization" _ with Some _ => _ | None => _ end).
  - set (bearer := readBearer _). set (with_key := _ ≫= _).
    assert (Hkey : Eff.triple world_ok with_key (fun r => match r with
        | CallerOk t claims fs => presented request callers oauth_binding crossOrigin t claims fs | CallerEnds d => is_refusal d end)).
    { unfold with_key. eapply triple_bind with (P := fun r => forall t claims, r = inr (t, claims) ->
        exists b, bearer = Some b /\ good t audience claims /\ minted_for (audienceOf app) CredKey b t).
      - destruct bearer as [b|]; [|by apply triple_ret].
        eapply triple_weaken; [apply exchangeKey_promise|]. intros r Hr t claims Ht. exists b. split; [done|]. by apply Hr.
      - intros [d|[t claims]] Hr; apply triple_ret; [done|].
        destruct (Hr t claims eq_refl) as (b & Hb & Hg & Hm). exists b. split; [exact Hb|]. by left. }
    destruct oauth_binding as [binding|]; [|exact Hkey].
    destruct (match bearer with None => _ | Some _ => _ end); [|exact Hkey].
    eapply triple_bind; [apply verifyOAuthBearer_promise|]. intros [d|[t claims]] Hr; apply triple_ret; [done|].
    destruct (Hr t claims eq_refl) as (Hb & Hg & o & Ho & Hs). exists t. split; [exact Hb|]. right. by exists binding, o.
  - destruct (Js.elem "human" callers) eqn:Hh; cbn [negb orb]; [|by apply triple_ret].
    destruct crossOrigin; [by apply triple_ret|].
    eapply triple_bind; [apply authorizeSession_promise|]. intros r Hr. destruct r as [t claims|reason| |].
    + apply triple_ret. destruct (Hr t claims eq_refl) as (session & Hs & Hg & Hu & Hm).
      apply elem_spec in Hh. unfold presented. split_and!; try done. by exists session.
    + eapply triple_bind; [apply loginDecision_promise|]. intros d Hd. by apply triple_ret.
    + by apply triple_ret.
    + by apply triple_ret.
Qed.

(** What an allow means for the selected row. *)
Definition allowed (row : ManifestEndpointRow) (request : ForwardedRequest U) (crossOrigin : option string) (d : Decision) : Prop :=
  match d with
  | Allow ot osubject endpoint delegation co forwards =>
      endpoint = formatEndpointHeader (row_id row) (row_digest row) /\ co = crossOrigin /\
      admitBody row (req_headers request) = None /\
      match row_requirement row with
      | None =>
          ot = None /\ osubject = None /\ delegation = None /\ admitFormOrigin app row request crossOrigin = None
      | Some requirement =>
          exists t claims kind oauth_binding from_session,
            ot = Some t /\ osubject = Some (sub claims) /\ forwards = false /\
            oauthBindingOf app row = match oauth_binding with Some b => Bound b | None => NoBinding end /\
            presented request (row_callers row) oauth_binding (is_some crossOrigin) t claims from_session /\
            callerOf claims = Some kind /\ kind ∈ row_callers row /\ callerAdmittedAt kind (row_path row) = true /\
            satisfies requirement (perms claims) = true /\
            (from_session = true -> req_method request = "GET" \/
               headers_get FETCH_SITE_HEADER (req_headers request) = Some "same-origin") /\
            (row_delegation row = None -> delegation = None)
      end
  | Preflight _ _ | HandedOff _ _ _ _ _ | Signout _ _ => False
  | Deny _ | Login _ _ _ _ => True
  end.

Lemma refusal_allowed row request crossOrigin d : is_refusal d -> allowed row request crossOrigin d.
Proof. by destruct d. Qed.

Lemma obtainDelegation_promise endpoint t requestId :
  Eff.triple world_ok (obtainDelegation self app endpoint t requestId) (fun _ => True).
Proof.
  unfold obtainDelegation. destruct (negb _); [by apply triple_ret|].
  eapply triple_bind; [apply triple_callIam|]. intros [g|] _; by apply triple_ret.
Qed.

Lemma decideCredentialed_promise row requirement oauth_binding (request : ForwardedRequest U) crossOrigin :
  row_requirement row = Some requirement ->
  oauthBindingOf app row = match oauth_binding with Some b => Bound b | None => NoBinding end ->
  Eff.triple world_ok (decideCredentialed self app row requirement oauth_binding request crossOrigin) (allowed row request crossOrigin).
Proof.
  intros Hreq Hb. unfold decideCredentialed. eapply triple_bind; [apply endpointCaller_promise|].
  intros [t claims fs|d] Hp; [|apply triple_ret; by apply refusal_allowed].
  destruct (callerOf claims) as [kind|] eqn:Hk; [|by apply triple_ret].
  destruct (Js.elem kind (row_callers row)) eqn:Hin; cbn [negb orb]; [|by apply triple_ret].
  destruct (callerAdmittedAt kind (row_path row)) eqn:Hat; cbn [negb]; [|by apply triple_ret].
  destruct (satisfies requirement (perms claims)) eqn:Hsat; cbn [negb]; [|by apply triple_ret].
  destruct (fs && _ && _) eqn:Hcs; [by apply triple_ret|].
  destruct (admitBody row (req_headers request)) eqn:Hbody; [by apply triple_ret|].
  eapply triple_bind with (P := fun r => forall g, r = inr g -> row_delegation row = None -> g = None).
  { destruct (row_delegation row); [|apply triple_ret; by intros ? [= <-]].
    eapply triple_weaken; [apply obtainDelegation_promise|]. done. }
  intros [refused|grant] Hg; apply triple_ret; [done|]. cbn. split_and!; try done. rewrite Hreq.
  exists t, claims, kind, oauth_binding, fs. apply elem_spec in Hin. split_and!; try done; [|by apply Hg].
  intros ->. cbn in Hcs. destruct (String.eqb_spec (req_method request) "GET"); [by left|right].
  cbn in Hcs. apply negb_false_iff in Hcs. by apply bool_decide_eq_true in Hcs.
Qed.

Lemma decideRow_promise row (request : ForwardedRequest U) crossOrigin :
  Eff.triple world_ok (decideRow self app row request crossOrigin) (allowed row request crossOrigin).
Proof.
  unfold decideRow. destruct (row_requirement row) as [requirement|] eqn:Hreq.
  - destruct (oauthBindingOf app row) as [| | |binding] eqn:Hb; [apply triple_throw|by apply triple_ret|..];
      by apply decideCredentialed_promise.
  - apply triple_ret. destruct (admitBody row _) eqn:Hbody; [done|].
    destruct (admitFormOrigin app row request crossOrigin) eqn:Hf; [done|]. cbn. by rewrite Hreq.
Qed.

(** What the outcome of a whole request means. *)
Definition decided (table : CompiledEndpointTable ManifestEndpointRow) (request : ForwardedRequest U) (d : Decision) : Prop :=
  match d with
  | Allow _ _ _ _ _ _ =>
      exists row params, planEndpoint table (req_method request) (req_rawPath request) = Endpoint row params /\
        allowed row request (origin ← headers_get ORIGIN_HEADER (req_headers request); admittedOrigin app row origin) d
  | Preflight allowOrigin method =>
      isApplicationEntry app = true /\ req_method request = "OPTIONS" /\
      exists row params origin, headers_get ORIGIN_HEADER (req_headers request) = Some origin /\
        admittedOrigin app row origin = Some allowOrigin /\ method = row_method row /\
        exists requested, headers_get PREFLIGHT_METHOD_HEADER (req_headers request) = Some requested /\
          planEndpoint table requested (req_rawPath request) = Endpoint row params
  | HandedOff _ _ _ _ _ | Signout _ _ => False
  | Deny _ | Login _ _ _ _ => True
  end.

Lemma decidePreflight_decided table (request : ForwardedRequest U) d :
  decidePreflight table app request = Some d -> decided table request d.
Proof.
  unfold decidePreflight. destruct (headers_get ORIGIN_HEADER _) as [origin|] eqn:Ho; [|done].
  destruct (headers_get PREFLIGHT_METHOD_HEADER _) as [method|] eqn:Hm; [|done].
  destruct (isApplicationEntry app) eqn:Ha; cbn [negb orb]; [|done].
  destruct (String.eqb_spec (req_method request) "OPTIONS") as [Heq|]; cbn [negb]; [|done]. intros [= <-].
  destruct (planEndpoint table method (req_rawPath request)) as [| |row params] eqn:Hp; try done.
  destruct (admittedOrigin app row origin) as [allow|] eqn:Hadm; [|done].
  split_and!; try done. exists row, params, origin. split_and!; try done. by exists method.
Qed.

Lemma withCrossOrigin_cases co d : withCrossOrigin co d = d \/ exists x, withCrossOrigin co d = Deny x.
Proof. destruct co, d; cbn; eauto. Qed.

Lemma decideEndpoint_promise table (request : ForwardedRequest U) :
  Eff.triple world_ok (decideEndpoint self app table request) (decided table request).
Proof.
  unfold decideEndpoint. destruct (decidePreflight table app request) as [d|] eqn:Hd.
  { apply triple_ret. by apply decidePreflight_decided. }
  destruct (planEndpoint table _ _) as [| |row params] eqn:Hp; [by apply triple_ret|by apply triple_ret|].
  eapply triple_bind; [apply decideRow_promise|]. intros d Ha. apply triple_ret.
  destruct (withCrossOrigin_cases (mbind (fun origin => admittedOrigin app row origin)
              (headers_get ORIGIN_HEADER (req_headers request))) d) as [->|[x ->]]; [|done].
  destruct d; try done. by exists row, params.
Qed.

Lemma authorize_promise table (request : ForwardedRequest U) :
  Eff.triple world_ok (authorize self (mkResolvedApp app table) request) (decided table request).
Proof. apply triple_catch; [apply decideEndpoint_promise|]. intros []; by apply triple_ret. Qed.

End Invariant.

(** ** The status of a refusal *)

Definition denial_status (d : Denial) : Prop := deny_status d ∈ [400; 401; 403; 503]%Z.

(** A refusal's status is one of a refusal, so no denial lets a request continue. *)
Definition refusal_status (d : Decision) : Prop :=
  match d with
  | Deny x => denial_status x
  | Login st _ _ _ => st ∈ [302; 401]%Z
  | _ => True
  end.

Definition attempt_status {A} (r : Denial + A) : Prop := match r with inl d => denial_status d | inr _ => True end.

Definition caller_status (r : EndpointCaller) : Prop := match r with CallerEnds d => refusal_status d | CallerOk _ _ _ => True end.

Lemma status_in (x : Z) (l : list Z) : bool_decide (x ∈ l) = true -> x ∈ l.
Proof. apply bool_decide_eq_true. Qed.

#[export] Hint Extern 1 (denial_status _) => apply status_in; vm_compute; reflexivity : eff.
#[export] Hint Extern 1 (refusal_status _) => first [exact I | apply status_in; vm_compute; reflexivity] : eff.
#[export] Hint Extern 1 (attempt_status _) => first [exact I | apply status_in; vm_compute; reflexivity] : eff.

Section Statuses.
Context {U E Jwks LocalJwks C : Type}.
Context `{UrlApi U} `{UrlParser} `{JwksEnv E Jwks LocalJwks} `{IamEnv E} `{CryptoEnv E} `{TokenCache C}.
Context (self : Authorizer) (app : ProxyApp).
Notation proxying := (eff (World C LocalJwks E) ProxyError).

Lemma mintKey_status bearer requestId : Eff.returns (mintKey (Jwks := Jwks) self app bearer requestId : proxying _) attempt_status.
Proof.
  unfold mintKey. apply returns_last. intros [reason|minted].
  { apply returns_ret. cbn. destruct reason; by apply status_in. }
  returns_auto.
Qed.
#[local] Hint Resolve mintKey_status : eff.

Lemma exchangeKey_status bearer requestId : Eff.returns (exchangeKey (Jwks := Jwks) self app bearer requestId : proxying _) attempt_status.
Proof. unfold exchangeKey. cbn zeta. returns_auto. Qed.
#[local] Hint Resolve exchangeKey_status : eff.

Lemma verifyOAuthBearer_status binding bearer :
  Eff.returns (verifyOAuthBearer (Jwks := Jwks) self app binding bearer : proxying _) attempt_status.
Proof. unfold verifyOAuthBearer. cbn zeta. returns_auto. Qed.
#[local] Hint Resolve verifyOAuthBearer_status : eff.

Lemma loginDecision_status (request : ForwardedRequest U) reason :
  Eff.returns (loginDecision self app request reason : proxying _) refusal_status.
Proof. unfold loginDecision. destruct (isDocumentNavigation _); returns_auto. Qed.
#[local] Hint Resolve loginDecision_status : eff.

Lemma withBearerChallenge_status d binding : denial_status d -> denial_status (withBearerChallenge d binding).
Proof. unfold withBearerChallenge. by repeat split_match. Qed.

Lemma endpointCaller_status binding callers (request : ForwardedRequest U) crossOrigin :
  Eff.returns (endpointCaller (Jwks := Jwks) self app binding callers request crossOrigin : proxying _) caller_status.
Proof.
  unfold endpointCaller. cbn zeta. set (bearer := readBearer _). set (with_key := _ ≫= _).
  assert (Hkey : Eff.returns with_key caller_status).
  { unfold with_key. eapply returns_bind with (P := attempt_status); [returns_auto|].
    intros [d|[t claims]] Hd; apply returns_ret; [by apply withBearerChallenge_status|done]. }
  destruct (match headers_get "Authorization" _ with Some _ => _ | None => _ end).
  - destruct binding as [binding|]; [|exact Hkey]. destruct (match bearer with None => _ | Some _ => _ end); [|exact Hkey].
    eapply returns_bind; [apply verifyOAuthBearer_status|]. intros [d|[t claims]] Hd; by apply returns_ret.
  - destruct (_ || _); [apply returns_ret; by apply status_in|]. apply returns_last. intros [t claims|reason| |];
      [by apply returns_ret| |apply returns_ret; by apply status_in|apply returns_ret; by apply status_in].
    eapply returns_bind; [apply loginDecision_status|]. intros d Hd. by apply returns_ret.
Qed.

Lemma admitBody_status row h d : admitBody row h = Some d -> denial_status d.
Proof. unfold admitBody. intros Hd. repeat split_match_in Hd; simplify_eq; try done. by apply status_in. Qed.

Lemma obtainDelegation_status endpoint t requestId :
  Eff.returns (obtainDelegation self app endpoint t requestId : proxying _) attempt_status.
Proof.
  unfold obtainDelegation. destruct (negb _); [returns_auto|]. apply returns_last. intros [grant|]; [|returns_auto].
  destruct (negb _); returns_auto.
Qed.
#[local] Hint Resolve obtainDelegation_status : eff.

Lemma decideCredentialed_status row requirement binding (request : ForwardedRequest U) crossOrigin :
  Eff.returns (decideCredentialed (Jwks := Jwks) self app row requirement binding request crossOrigin : proxying _) refusal_status.
Proof.
  unfold decideCredentialed. eapply returns_bind; [apply endpointCaller_status|]. intros [t claims fs|d] Hd; [|by apply returns_ret].
  cbn zeta. pose proof (admitBody_status row (req_headers request)) as Hbody.
  match goal with |- Eff.returns (if ?x then _ else _) _ => destruct x end;
    [apply returns_ret, withBearerChallenge_status; by apply status_in|].
  destruct (admitBody _ _) as [refused|].
  { repeat match goal with |- Eff.returns (if ?x then _ else _) _ => destruct x; [returns_auto|] end. apply returns_ret. by apply Hbody. }
  repeat match goal with |- Eff.returns (if ?x then _ else _) _ => destruct x; [returns_auto|] end.
  eapply returns_bind with (P := attempt_status); [returns_auto|].
  intros [refused|grant] Hg; by apply returns_ret.
Qed.
#[local] Hint Resolve decideCredentialed_status : eff.

Lemma decideRow_status row (request : ForwardedRequest U) crossOrigin :
  Eff.returns (decideRow (Jwks := Jwks) self app row request crossOrigin : proxying _) refusal_status.
Proof.
  unfold decideRow. destruct (row_requirement row); [returns_auto|]. apply returns_ret. unfold admitBody, admitFormOrigin.
  repeat split_match; simplify_eq; try done; by apply status_in.
Qed.

Lemma authorize_status table (request : ForwardedRequest U) :
  Eff.returns (authorize (Jwks := Jwks) self (mkResolvedApp app table) request : proxying _) refusal_status.
Proof.
  apply returns_catch; [|intros []; apply returns_ret; by apply status_in]. unfold decideEndpoint. cbn [resolved_app resolved_table].
  destruct (decidePreflight _ _ _) as [d|] eqn:Hp.
  - apply returns_ret. unfold decidePreflight in Hp. repeat split_match_in Hp; simplify_eq; try done; by apply status_in.
  - destruct (planEndpoint _ _ _) as [| |row params]; [returns_auto|returns_auto|].
    eapply returns_bind; [apply decideRow_status|]. intros d Hd. apply returns_ret. by destruct (_ ≫= _), d.
Qed.

Lemma authorizeCallback_status resolved (request : ForwardedRequest U) :
  Eff.returns (authorizeCallback self resolved request : proxying _) refusal_status.
Proof.
  unfold authorizeCallback. destruct (url_param _ _); [|returns_auto]. destruct (handoffCookieName _); [|returns_auto].
  apply returns_catch; [|intros []; returns_auto]. unfold redeem. cbn zeta. returns_auto.
Qed.

Lemma signOut_status resolved (request : ForwardedRequest U) :
  Eff.returns (signOut self resolved request : proxying _) refusal_status.
Proof. unfold signOut. cbn zeta. returns_auto. Qed.

End Statuses.

(** ** Properties *)

Section AuthorizeProperties.
Context {U E Jwks LocalJwks C : Type}.
Context `{UrlApi U} `{UrlParser} `{JwksEnv E Jwks LocalJwks} `{IamEnv E} `{CryptoEnv E} `{TokenCacheLaws C}.

(** C2. The proxy is the enforcement point: [authorize] never throws, whatever the environment does; an allow names the
    one endpoint the table selects and its admitted body, and on a credentialed endpoint carries a token that jose
    vouched for in this entry's audience (or the row's OAuth resource), minted by IAM for the very credential the request
    presents, whose caller kind the row admits at its path, whose permissions satisfy the requirement, and, from a
    session, only for a same-origin or [GET] request. The cache decides nothing: any content it could hold stays
    provenance-checked. A refusal's status is one of a refusal, never one that lets a request continue. *)
Theorem authorize_sound (apps : list ProxyApp) (self : Authorizer) (app : ProxyApp)
    (table : CompiledEndpointTable ManifestEndpointRow) (request : ForwardedRequest U) (w : World C LocalJwks E) :
  distinct_ids apps -> app ∈ apps -> world_ok (Jwks := Jwks) apps w ->
  exists d, (authorize (Jwks := Jwks) self (mkResolvedApp app table) request w).1 = inr d /\
    decided (Jwks := Jwks) (E := E) self app table request d /\ refusal_status d /\
    world_ok (Jwks := Jwks) apps (authorize (Jwks := Jwks) self (mkResolvedApp app table) request w).2.
Proof.
  intros Hids Happ Hw.
  destruct (authorize_promise (Jwks := Jwks) apps self app Hids Happ table request w Hw) as [Hk Hd].
  destruct (authorize self (mkResolvedApp app table) request w) as [r w'] eqn:Ha. cbn in *.
  unfold authorize, Eff.catch in Ha. destruct (decideEndpoint _ _ _ _ w) as [[err|d] w1] eqn:Hb; injection Ha as <- <-.
  - eexists. split; [done|]. split; [by apply Hd|]. split; [|done]. destruct err; by apply status_in.
  - exists d. split; [done|]. split; [by apply Hd|]. split; [|done]. eapply authorize_status. unfold authorize, Eff.catch. by rewrite Hb.
Qed.

(** Fail closed: with a key set that cannot be fetched and none cached, no request is allowed with a token, and an
    allow without one is only an endpoint that requires nothing. *)
Theorem authorize_fails_closed (apps : list ProxyApp) (self : Authorizer) (app : ProxyApp)
    (table : CompiledEndpointTable ManifestEndpointRow) (request : ForwardedRequest U) (w : World C LocalJwks E)
    (ot osubject delegation crossOrigin : option string) (endpoint : string) (forwards : bool) :
  distinct_ids apps -> app ∈ apps -> world_ok (Jwks := Jwks) apps w ->
  (forall e, (env_getJwks e).1 = None) ->
  (authorize (Jwks := Jwks) self (mkResolvedApp app table) request w).1 =
    inr (Allow ot osubject endpoint delegation crossOrigin forwards) ->
  ot = None /\ exists row params, planEndpoint table (req_method request) (req_rawPath request) = Endpoint row params /\
    row_requirement row = None.
Proof.
  intros Hids Happ Hw Hno Ha.
  destruct (authorize_promise (Jwks := Jwks) apps self app Hids Happ table request w Hw) as [_ Hd].
  specialize (Hd _ Ha) as (row & params & Hp & _ & _ & _ & Hreq).
  destruct (row_requirement row) as [requirement|] eqn:Er.
  - exfalso. destruct Hreq as (t & claims & kind & ob & fs & _ & _ & _ & _ & Hpres & _).
    assert (Hnone : forall profile, vouched (Jwks := Jwks) (authorizer_verifier self) t profile claims -> False).
    { intros profile (e & keys & payload & typ & (e0 & jwks & e1 & Hg & _) & _).
      specialize (Hno e0). rewrite Hg in Hno. done. }
    unfold presented in Hpres. destruct fs; [destruct Hpres as (_ & _ & _ & Hv & _); by eapply Hnone|].
    destruct Hpres as (b & _ & [[Hv _]|(? & ? & _ & _ & Hv & _)]); by eapply Hnone.
  - destruct Hreq as (-> & _). split; [done|]. by exists row, params.
Qed.

(** A handoff is written only for the browser that started it: the callback never throws, hands over a session only
    when IAM exchanged the code against the verifier this browser's own handoff cookie holds and returned to this very
    host of the entry, and a browser without that cookie spends the code. *)
Theorem authorizeCallback_sound (self : Authorizer) (resolved : ResolvedApp) (request : ForwardedRequest U)
    (w : World C LocalJwks E) :
  let '(r, w') := authorizeCallback self resolved request w in
  let app := resolved_app resolved in
  exists d, r = inr d /\
    match d with
    | HandedOff status location session x state =>
        status = 302%Z /\ url_param (req_url request) "state" = Some state /\
        exists code cookieName verifier,
          url_param (req_url request) "code" = Some code /\ handoffCookieName (Some state) = Some cookieName /\
          readCookie (headers_get "Cookie" (req_headers request)) cookieName = Some verifier /\
          (iam_exchangeAuthCode (audienceOf app) code verifier (req_id request) (w_env w)).1
            = Answers (Some (mkExchanged session location x)) /\
          returnsToHost app (req_url request) location = true
    | Deny _ =>
        forall state code cookieName, url_param (req_url request) "state" = Some state ->
          url_param (req_url request) "code" = Some code -> code <> "" ->
          handoffCookieName (Some state) = Some cookieName ->
          readCookie (headers_get "Cookie" (req_headers request)) cookieName = None ->
          let '(unmatched, e) := unmatchedVerifier (w_env w) in
          w_env w' = (iam_exchangeAuthCode (audienceOf app) code unmatched (req_id request) e).2
    | _ => False
    end.
Proof.
  destruct (authorizeCallback self resolved request w) as [r w'] eqn:Hr. cbn zeta. unfold authorizeCallback in Hr.
  destruct (url_param (req_url request) "state") as [state|] eqn:Hs; [|injection Hr as <- <-; eexists; split; done].
  destruct (handoffCookieName (Some state)) as [cookieName|] eqn:Hc;
    [|injection Hr as <- <-; eexists; split; [done|]; cbn [callbackDenial]; intros; simplify_eq; congruence].
  unfold Eff.catch, redeem in Hr.
  destruct (url_param (req_url request) "code") as [code|] eqn:Hcode;
    [|injection Hr as <- <-; eexists; split; [done|]; done].
  destruct (String.eqb_spec code "") as [->|Hne]; [injection Hr as <- <-; eexists; split; [done|]; cbn [callbackDenial]; intros; simplify_eq|].
  rewrite Hc in Hr. cbn [mbind option_bind] in Hr.
  unfold callIam, world, mret, eff_ret, mbind, eff_bind, Eff.throw in Hr. destruct w as [c j e]. cbn [w_env w_cache w_jwks] in Hr |- *.
  destruct (readCookie (headers_get "Cookie" (req_headers request)) cookieName) as [verifier|] eqn:Hv;
    cbn [w_env w_cache w_jwks] in Hr.
  - destruct (iam_exchangeAuthCode (audienceOf (resolved_app resolved)) code verifier (req_id request) e)
      as [[| |[ex|]] e1] eqn:Hx;
      try (injection Hr as <- <-; eexists; split; [done|]; cbn [callbackDenial]; intros; simplify_eq; congruence).
    match type of Hr with context [returnsToHost ?a ?b ?c] => destruct (returnsToHost a b c) eqn:Hret end;
      injection Hr as <- <-; eexists; (split; [done|]).
    + split_and!; [done|done|]. exists code, cookieName, verifier. split_and!; try done. rewrite Hx. by destruct ex.
    + cbn [callbackDenial]. intros; simplify_eq; congruence.
  - destruct (unmatchedVerifier e) as [unmatched e1] eqn:Hu. cbn [w_env w_cache w_jwks] in Hr.
    destruct (iam_exchangeAuthCode (audienceOf (resolved_app resolved)) code unmatched (req_id request) e1)
      as [[| |ex] e2] eqn:Hx;
      injection Hr as <- <-; eexists; (split; [done|]); cbn [callbackDenial]; intros; simplify_eq; by rewrite Hx.
Qed.

(** A sign-out is a same-origin [GET] and forgets the session: afterwards the cache answers nothing for it, so the
    next request must ask IAM again. *)
Theorem signOut_forgets (self : Authorizer) (resolved : ResolvedApp) (request : ForwardedRequest U)
    (w w' : World C LocalJwks E) (status : Z) (location : string) :
  signOut self resolved request w = (inr (Signout status location), w') ->
  req_method request = "GET" /\ headers_get FETCH_SITE_HEADER (req_headers request) = Some "same-origin" /\
  forall session c', readCookie (headers_get "Cookie" (req_headers request)) SESSION_COOKIE = Some session ->
    w_cache w' = Some c' -> cache_get c' (cacheKey (app_id (resolved_app resolved)) CredSession session) = None.
Proof.
  unfold signOut. destruct (String.eqb_spec (req_method request) "GET") as [Hm|]; cbn [negb]; [|done].
  destruct (bool_decide _) eqn:Hf; cbn [negb]; [|done]. apply bool_decide_eq_true in Hf.
  destruct (url_of _) as [own|]; [|done]. destruct (sameOriginTarget _ _) as [[target|]|]; [|done|done].
  intros Hr. split; [done|]. split; [done|]. intros session c' Hs Hc. rewrite Hs in Hr.
  unfold mbind, eff_bind, cacheDelete, Eff.modify in Hr. cbn in Hr.
  destruct (url_against _ _); [|done]. cbn in Hr. injection Hr as _ _ <-. cbn in Hc.
  apply fmap_Some_1 in Hc as (c0 & _ & ->).
  destruct (cache_get _ _) as [v|] eqn:Hg; [|done]. apply get_after_delete in Hg as [Hne _]. done.
Qed.

End AuthorizeProperties.

(** ** A concrete proxy: one application, one key and one session that IAM knows. *)

Definition demo_url_api : UrlApi string := {|
  url_of := fun s => Some s;
  url_against := fun path origin => Some (origin +:+ path);
  url_host := fun u => uriAuthority u;
  url_host_name := fun u => uriAuthority u;
  url_origin := fun u => "https://" +:+ uriAuthority u;
  url_pathname := fun u => "/mcp";
  url_param := fun u name => if (name =? "redirect")%string then Some "/" else None;
  url_setParam := fun name value u => u +:+ "?" +:+ name +:+ "=" +:+ value;
  url_setProtocol := fun _ u => u;
  url_text := fun u => u;
|}.

Definition demo_iam : IamEnv (Z * nat) := {|
  iam_mintToken := fun app session _ e =>
    (Answers (if (session =? "s1")%string then inr (mkMinted "good" 5000) else inl invalid_session), e);
  iam_mintFromKey := fun app key _ e =>
    (Answers (if (key =? "px_abc")%string then inr (mkMinted "good" 5000) else inl invalid_key), e);
  iam_exchangeAuthCode := fun _ _ _ _ e => (ThrowsOther, e);
  iam_requestDelegation := fun _ _ _ _ e => (Answers None, e);
|}.

Definition demo_random : CryptoEnv (Z * nat) :=
  {| getRandomValues := fun n e => (repeat (snd e) n, e); sha256_bytes := fun s => repeat (String.length s) 32 |}.

Definition demo_row : ManifestEndpointRow := {|
  row_id := "notes.list"; row_kind := "query"; row_method := "GET"; row_path := "/api/notes";
  row_callers := ["human"]; row_requirement := Some ReqMember; row_admission := None; row_delegation := None;
  row_digest := "sha256:00"; row_crossOrigin := None; row_oauth := None; row_authorization := false;
  row_response := None |}.

Definition demo_app : ProxyApp := mkApp "notes" ["notes.example.com"] "https" (ContractEntry [] None).

Definition demo_proxy_table : CompiledEndpointTable ManifestEndpointRow :=
  match compileEndpointTable [demo_row] [] with
  | inr table => table
  | inl _ => {| table_endpoints := []; table_reserved := [] |}
  end.

Definition demo_authorizer : Authorizer := mkAuthorizer "https://iam.example.com/" demo_verifier false (fun _ => None).

Definition demo_request (h : headers) : ForwardedRequest string :=
  mkRequest string "GET" "https://notes.example.com/api/notes" "/api/notes" h "r1".

Definition demo_world : World MemoryTokenCache string (Z * nat) :=
  mkWorld (Some (new_MemoryTokenCache 10 1000)) createJwksCache (1000%Z, 0).

Definition demo_authorize (env : JwksEnv (Z * nat) string string) (request : ForwardedRequest string) :=
  authorize (H := demo_url_api) (H0 := demo_url) (H1 := env) (H2 := demo_iam) (H3 := demo_random)
    demo_authorizer (mkResolvedApp demo_app demo_proxy_table) request demo_world.

Lemma demo_ids : distinct_ids [demo_app].
Proof.
  split; [intros app ->%list_elem_of_singleton; reflexivity|].
  intros app app' ->%list_elem_of_singleton ->%list_elem_of_singleton _. reflexivity.
Qed.

Lemma demo_world_ok (env : JwksEnv (Z * nat) string string) : world_ok (H1 := env) (H2 := demo_iam) [demo_app] demo_world.
Proof. split; [by intros keys x [=]|]. intros c app kind cred v [= <-] _ Hg. done. Qed.

Lemma authorize_sound_witness :
  fst (demo_authorize demo_env (demo_request [("Authorization", "Bearer px_abc")])) =
    inr (Allow (Some "good") (Some "p1") "notes.list@sha256:00" None None false) /\
  exists d, fst (demo_authorize demo_env (demo_request [("Cookie", "__Host-px_session=s2")])) = inr d /\
    decided (H := demo_url_api) (H0 := demo_url) (H1 := demo_env) (H2 := demo_iam)
      demo_authorizer demo_app demo_proxy_table (demo_request [("Cookie", "__Host-px_session=s2")]) d.
Proof.
  split; [vm_compute; reflexivity|].
  destruct (authorize_sound (H := demo_url_api) (H0 := demo_url) (H1 := demo_env) (H2 := demo_iam) (H3 := demo_random)
              [demo_app] demo_authorizer demo_app demo_proxy_table (demo_request [("Cookie", "__Host-px_session=s2")]) demo_world)
    as (d & Hd & Hdec & _ & _); [apply demo_ids|constructor|apply demo_world_ok|].
  exists d. split; [exact Hd|exact Hdec].
Defined.

(** The same proxy with an installation whose key set cannot be fetched. *)
Definition demo_outage : JwksEnv (Z * nat) string string := {|
  env_now := @env_now _ _ _ demo_env;
  env_getJwks := fun e => (None, e);
  createLocalJWKSet := @createLocalJWKSet _ _ _ demo_env;
  jwtVerify := @jwtVerify _ _ _ demo_env;
|}.

Definition demo_open_row : ManifestEndpointRow := {|
  row_id := "health"; row_kind := "health"; row_method := "GET"; row_path := "/api/notes";
  row_callers := []; row_requirement := None; row_admission := None; row_delegation := None;
  row_digest := "sha256:11"; row_crossOrigin := None; row_oauth := None; row_authorization := false;
  row_response := None |}.

Definition demo_open_table : CompiledEndpointTable ManifestEndpointRow :=
  match compileEndpointTable [demo_open_row] [] with
  | inr table => table
  | inl _ => {| table_endpoints := []; table_reserved := [] |}
  end.

Lemma authorize_fails_closed_witness :
  fst (demo_authorize demo_outage (demo_request [("Authorization", "Bearer px_abc")])) = inr (Deny (denial 503 iam_unavailable)) /\
  exists row params, planEndpoint demo_open_table "GET" "/api/notes" = Endpoint row params /\ row_requirement row = None.
Proof.
  split; [vm_compute; reflexivity|].
  refine (proj2 (authorize_fails_closed (H := demo_url_api) (H0 := demo_url) (H1 := demo_outage) (H2 := demo_iam) (H3 := demo_random)
    [demo_app] demo_authorizer demo_app demo_open_table (demo_request []) demo_world
    None None None None "health@sha256:11" false demo_ids _ (demo_world_ok _) _ _)).
  - constructor.
  - reflexivity.
  - vm_compute. reflexivity.
Defined.

Definition demo_signout : ForwardedRequest string :=
  mkRequest string "GET" "https://notes.example.com/__fabrika/auth/signout" "/__fabrika/auth/signout"
    [("Sec-Fetch-Site", "same-origin"); ("Cookie", "__Host-px_session=s1")] "r1".

Lemma signOut_forgets_witness :
  exists status location w',
    signOut (H := demo_url_api) demo_authorizer (mkResolvedApp demo_app demo_proxy_table) demo_signout demo_world
      = (inr (Signout status location), w') /\
    req_method demo_signout = "GET".
Proof.
  destruct (signOut (H := demo_url_api) demo_authorizer (mkResolvedApp demo_app demo_proxy_table) demo_signout demo_world)
    as [r w'] eqn:Hs.
  assert (Hr : exists status location, r = inr (Signout status location)).
  { vm_compute in Hs. injection Hs as <- _. eexists _, _. reflexivity. }
  destruct Hr as (status & location & ->). exists status, location, w'. split; [reflexivity|].
  apply (proj1 (signOut_forgets (H := demo_url_api) demo_authorizer _ demo_signout demo_world w' status location Hs)).
Defined.
