(* ===== verification/Service.v ===== *)
(** The proxy's [/verify] service: the forwarded request, the application it selects, and the answer of every decision.

    [proxy-core/src/service.ts] and [oauth.ts], with the texts of [pages.ts]. One call is one run of [verifyService]
    over the authorizer's [World]. Logging and the markup of a page are left out. *)

From S2P Require Import Prelude Json Permissions Endpoints Token TokenCache Jwks Credentials Headers Authorize.
From Stdlib Require Import ZArith Lia String Ascii.
From stdpp Require Import base tactics strings pretty gmap list.

(** ** constants.ts *)

Definition FORWARDED_METHOD_HEADER : string := "X-Forwarded-Method".
Definition FORWARDED_URI_HEADER : string := "X-Forwarded-Uri".
Definition FORWARDED_HOST_HEADER : string := "X-Forwarded-Host".
Definition FORWARDED_PROTO_HEADER : string := "X-Forwarded-Proto".
Definition REQUEST_ID_HEADER : string := "X-Request-Id".
Definition DEFAULT_VERIFY_PATH : string := "/verify".
Definition OAUTH_METADATA_VERIFY_PATH : string := "/oauth-metadata".
Definition PREFLIGHT_HEADER : string := "X-Fabrika-Preflight".
Definition FORWARD_AUTHORIZATION_HEADER : string := "X-Fabrika-Forward-Authorization".
Definition DEFAULT_HEALTH_PATH : string := "/healthz".
Definition APP_QUERY_PARAM : string := "app".
Definition AUTH_SIGNOUT_PATH : string := "/__fabrika/auth/signout".
Definition AUTH_CALLBACK_PATH : string := "/__fabrika/auth/callback".
Definition PROXY_TOKEN_HEADER : string := "X-Fabrika-Token".
Definition ENDPOINT_HEADER : string := "X-Fabrika-Endpoint".
Definition DELEGATION_HEADER : string := "X-Fabrika-Delegation".
Definition HANDOFF_COOKIE_TTL_SECONDS : Z := 600.

(** ** Answers *)

(** A page by its content; its frame, stylesheet and brand are markup. *)
Record PageContent := mkPage { page_title : string; page_detail : string; page_action : option (string * string) }.

Inductive Body :=
| NoBody
| TextBody (text : string)
| PageBody (content : PageContent) (shownStatus : string).

(** [Response]; each [Set-Cookie] field is kept apart from the others. *)
Record Response := mkResponse {
  status : Z;
  resp_headers : headers;
  set_cookies : list string;
  body : Body;
}.

Definition START_PAGE : string * string := ("/", "Go to the start page").
Definition TRY_AGAIN : string * string := ("", "Try again").

(** [STATUS_PAGES]; the last row is also 504's. *)
Definition STATUS_PAGES (status : Z) : PageContent :=
  if (status =? 400)%Z then mkPage "This request could not be read"
    "The address or the request is malformed, so it was not passed on to the application." (Some START_PAGE)
  else if (status =? 401)%Z then mkPage "This page needs an access key"
    "This address answers programs that present a key. Opening it in a browser does not sign you in." (Some START_PAGE)
  else if (status =? 403)%Z then mkPage "You cannot open this page"
    "The page does not exist, or your account has no access to it. If you expected to see it, ask whoever runs this application."
    (Some START_PAGE)
  else if (status =? 404)%Z then mkPage "Nothing is served here"
    "No application answers at this address. Check that it is spelled correctly." None
  else if (status =? 502)%Z then mkPage "The application is not responding"
    "It may be starting or restarting. Try again in a moment." (Some TRY_AGAIN)
  else if (status =? 503)%Z then mkPage "This page is unavailable for a moment"
    "A service it depends on could not be reached. Try again in a moment." (Some TRY_AGAIN)
  else mkPage "The application is not responding" "It did not answer in time. Try again in a moment." (Some TRY_AGAIN).

Definition isPageNavigation (h : headers) : bool := bool_decide (headers_get FETCH_MODE_HEADER h = Some "navigate").

Definition pageResponse (status : Z) (content : PageContent) : Response :=
  mkResponse status [("content-type", "text/html; charset=utf-8"); ("cache-control", "no-store")] [] (PageBody content (pretty status)).

Definition textResponse (status : Z) (text : string) : Response :=
  mkResponse status [("content-type", "text/plain; charset=utf-8"); ("cache-control", "no-store")] [] (TextBody text).

Definition errorAnswer (status : Z) (text : string) (asPage : bool) : Response :=
  if asPage then pageResponse status (STATUS_PAGES status) else textResponse status text.

(** [DENY_TEXT], of the four statuses of a denial. *)
Definition DENY_TEXT (status : Z) : string :=
  if (status =? 400)%Z then "bad request"
  else if (status =? 401)%Z then "unauthorized"
  else if (status =? 403)%Z then "forbidden" else "unavailable".

Definition callbackFailure (status : Z) : Response :=
  pageResponse status
    (if (status =? 503)%Z
     then mkPage "Sign-in is unavailable" "The sign-in service could not be reached. Please try again in a moment." (Some ("/", "Start again"))
     else mkPage "Sign-in did not complete"
            "The sign-in link has expired or has already been used. Signing in again will issue a new one." (Some ("/", "Start again"))).

Definition secureCookie (name value : string) (maxAge : Z) : string :=
  Js.join "; " [name +:+ "=" +:+ value; "Path=/"; "Max-Age=" +:+ pretty maxAge; "HttpOnly"; "SameSite=Lax"; "Secure"].

(** A [None] is the throw on a state that names no cookie. *)
Definition handoffCookie (h : HandoffAttempt) : option string :=
  name ← handoffCookieName (Some (handoff_state h)); Some (secureCookie name (handoff_verifier h) HANDOFF_COOKIE_TTL_SECONDS).

Definition clearHandoffCookie (state : string) : option string :=
  name ← handoffCookieName (Some state); Some (secureCookie name "" 0).

Definition loginRedirect (location : string) (h : HandoffAttempt) : option Response :=
  cookie ← handoffCookie h;
  Some (mkResponse 302 [("location", location); ("cache-control", "no-store")] [cookie] NoBody).

Definition loginRequired (loginUrl : string) (h : HandoffAttempt) : option Response :=
  cookie ← handoffCookie h;
  Some (mkResponse 401 [("content-type", "application/json; charset=utf-8"); ("cache-control", "no-store")] [cookie]
    (TextBody (jsonObject [("error", jsonObject [("type", jsonString "auth"); ("message", jsonString "Authentication required");
                                                ("loginUrl", jsonString loginUrl)])]))).

Definition signedOut (location : string) : Response :=
  mkResponse 302 [("location", location); ("cache-control", "no-store")] [secureCookie SESSION_COOKIE "" 0] NoBody.

(** [handoffResponse] at [now] Unix milliseconds. *)
Definition handoffResponse (location session : string) (expiresAt : Z) (handoffState : string) (now : Z) : option Response :=
  clear ← clearHandoffCookie handoffState;
  Some (mkResponse 302 [("location", location); ("cache-control", "no-store")]
    [secureCookie SESSION_COOKIE session (Z.max 0 (expiresAt - now / 1000)); clear] NoBody).

Definition withHeaders (f : headers -> headers) (r : Response) : Response :=
  mkResponse (status r) (f (resp_headers r)) (set_cookies r) (body r).

Definition withPolicy (r : Response) (policy : HeaderPolicy) : Response := withHeaders (applyHeaderPolicy policy) r.

Definition withFileTreatment (r : Response) (treatment : HeaderPolicy) : Response :=
  withHeaders (applyFileTreatment treatment (inlineFileTypes None)) r.

Definition answersFile (row : ManifestEndpointRow) : bool := (row_kind row =? "download")%string || is_some (row_response row).

(** ** Hosts *)

Definition is_host_unit (c : ascii) : bool :=
  Js.is_letter c || Js.is_digit c || existsb (Ascii.eqb c) ["."; "-"; "["; "]"]%char.

Definition is_port (s : string) : bool :=
  Js.forall_units Js.is_digit s && (1 <=? String.length s)%nat && (String.length s <=? 5)%nat.

(** [HOST_PATTERN.test]; no unit of the name is a colon. *)
Definition hostPattern (host : string) : bool :=
  match Js.split ":" host with
  | [name] => negb (name =? "")%string && Js.forall_units is_host_unit name
  | [name; port] => negb (name =? "")%string && Js.forall_units is_host_unit name && is_port port
  | _ => false
  end.

(** [replace(/:\d+$/, '')] *)
Fixpoint strip_port (s : string) : string :=
  match s with
  | EmptyString => ""
  | String c rest =>
      if Ascii.eqb c ":" && negb (rest =? "")%string && Js.forall_units Js.is_digit rest then "" else String c (strip_port rest)
  end.

Definition normalizeHost (host : string) : string := strip_port (Js.toLowerCase host).

(** ** The service *)

(** What the service reads of the platform besides the authorizer's: [uuidv7] and [Date.now()] in milliseconds. *)
Class ServiceEnv (E : Type) := { uuidv7 : E -> string * E; date_now : E -> Z * E }.

(** The two [URL] setters that assemble the forwarded URL. *)
Class UrlAssign (U : Type) := { url_setPathname : string -> U -> U; url_setSearch : string -> U -> U }.

(** A [Request] of the service; [sr_url] is its own URL, as text. *)
Record Request := mkServiceRequest { sr_method : string; sr_url : string; sr_headers : headers }.

Inductive ForwardedRead (U : Type) :=
| ReadOk (request : ForwardedRequest U)
| ReadRefused (reason : DenyReason)
| ReadThrows.
Arguments ReadOk {U} _.
Arguments ReadRefused {U} _.
Arguments ReadThrows {U}.

(** An entry as the manifest lists it: what a contract application adds to its policy is [None] for an installation. *)
Record ManifestApp := mkManifestApp {
  ma_app : ProxyApp;
  ma_endpoints : list ManifestEndpointRow;
  ma_reservedPrefixes : list string;
  ma_csp : CspOrigins;
  ma_operationsOrigin : option string;
}.

Definition publicScheme (app : ProxyApp) : PublicScheme := if (app_scheme app =? "https")%string then Https else Http.

Section OAuth.
Context {U : Type} `{UrlApi U} `{UrlParser}.

(** A [None] is a throw of [new URL]. *)
Fixpoint findMetadata (resources : list OAuthProtectedResource) (hostname pathname : string) : option (option OAuthProtectedResource) :=
  match resources with
  | [] => Some None
  | r :: rest =>
      metadata ← url_of (resourceMetadata r);
      if (url_host_name metadata =? hostname)%string && (url_pathname metadata =? pathname)%string then Some (Some r)
      else findMetadata rest hostname pathname
  end.

Definition findOAuthMetadata (app : ProxyApp) (url : U) : option (option OAuthProtectedResource) :=
  match app_kind app with
  | ContractEntry _ _ => Some None
  | InstallationEntry resources => findMetadata resources (Js.toLowerCase (url_host_name url)) (url_pathname url)
  end.

Definition METADATA_PATH : string := "/.well-known/oauth-protected-resource".

Definition validServer (server : string) : bool :=
  isOAuthResourceUri (server +:+ "/")
  && match url_of server with Some url => (url_origin url =? server)%string | None => false end.

(** [parseOAuthProtectedResource(config) !== null]; a throw of a refinement counts as a refusal, which its one caller
    answers with a throw as well. *)
Definition validProtectedResource (config : OAuthProtectedResource) : bool :=
  isOAuthResourceUri (resource config) && isOAuthResourceUri (resourceMetadata config)
  && forallb validServer (authorizationServers config) && (List.length (authorizationServers config) =? 1)%nat
  && is_some (parseOAuthScopes (Some (JArr (map JStr (scopesSupported config)))))
  && match url_of (resource config), url_of (resourceMetadata config) with
     | Some r, Some m =>
         (url_origin r =? url_origin m)%string
         && ((url_pathname m =? METADATA_PATH)%string || Js.startsWith (url_pathname m) (METADATA_PATH +:+ "/"))
     | _, _ => false
     end.

(** The serialized metadata; [None] throws. *)
Definition oauthProtectedResourceMetadata (config : OAuthProtectedResource) : option string :=
  if negb (validProtectedResource config) then None
  else Some (jsonObject [ ("resource", jsonString (resource config));
                          ("authorization_servers", jsonStrings (authorizationServers config));
                          ("scopes_supported", jsonStrings (scopesSupported config));
                          ("bearer_methods_supported", jsonStrings ["header"]) ]).

Definition oauthMetadataResponse (r : OAuthProtectedResource) (method : string) : option Response :=
  let headers := [("content-type", "application/json; charset=utf-8"); ("cache-control", "no-store")] in
  if (method =? "HEAD")%string then Some (mkResponse 200 headers [] NoBody)
  else if negb (method =? "GET")%string
  then Some (mkResponse 405 [("allow", "GET, HEAD"); ("cache-control", "no-store")] [] (TextBody "method not allowed"))
  else text ← oauthProtectedResourceMetadata r; Some (mkResponse 200 headers [] (TextBody text)).

Definition validChallenge (c : OAuthBearerChallenge) : bool :=
  isOAuthResourceUri (resource_metadata c)
  && match challenge_error c with Some error => Js.elem error ["invalid_token"; "insufficient_scope"] | None => true end
  && match challenge_scope c with
     | Some scope => is_some (parseOAuthScopes (Some (JArr (map JStr (Js.split " " scope)))))
     | None => negb (bool_decide (challenge_error c = Some "insufficient_scope"))
     end.

(** A [None] throws. *)
Definition formatOAuthBearerChallenge (c : OAuthBearerChallenge) : option string :=
  if negb (validChallenge c) then None
  else
    let parameter name value := match value with Some v => [name +:+ "=" +:+ jsonString v] | None => [] end in
    Some ("Bearer " +:+ Js.join ", " (parameter "resource_metadata" (Some (resource_metadata c))
            ++ parameter "error" (challenge_error c) ++ parameter "scope" (challenge_scope c))).

End OAuth.

Section Service.
Context {U E Jwks LocalJwks C : Type}.
Context `{UrlApi U} `{UrlAssign U} `{UrlParser} `{JwksEnv E Jwks LocalJwks} `{IamEnv E} `{CryptoEnv E} `{ServiceEnv E} `{TokenCache C}.

Notation serving := (eff (World C LocalJwks E) ProxyError).

(** What [createVerifyService] closes over. *)
Record VerifyService := mkService {
  byId : gmap string ResolvedApp;
  byHost : gmap string ResolvedApp;
  policies : gmap string HeaderPolicy;
  healthPath : string;
  authorizer : Authorizer;
}.

(** [resolveApp]; an ambiguous table is the throw of [compileEndpointTable]. *)
Definition resolveApp (app : ManifestApp) : option ResolvedApp :=
  match compileEndpointTable (ma_endpoints app) (ma_reservedPrefixes app) with
  | inl _ => None
  | inr table => Some (mkResolvedApp (ma_app app) table)
  end.

Definition policyOf (app : ManifestApp) : HeaderPolicy :=
  if isApplicationEntry (ma_app app) then appHeaderPolicy (ma_csp app) (ma_operationsOrigin app) (publicScheme (ma_app app))
  else BASE_HEADER_POLICY.

(** One entry of the manifest; later ones overwrite, as [Map.set] does. *)
Definition addApp (service : VerifyService) (app : ManifestApp) : option VerifyService :=
  resolved ← resolveApp app;
  Some (mkService (<[app_id (ma_app app) := resolved]> (byId service))
    (foldl (fun hosts host => <[normalizeHost host := resolved]> hosts) (byHost service) (app_hosts (ma_app app)))
    (<[app_id (ma_app app) := policyOf app]> (policies service)) (healthPath service) (authorizer service)).

Definition createVerifyService (manifest : list ManifestApp) (healthPath : option string) (authorizer : Authorizer) : option VerifyService :=
  foldl (fun service app => s ← service; addApp s app)
    (Some (mkService ∅ ∅ ∅ (default DEFAULT_HEALTH_PATH healthPath) authorizer)) manifest.

Definition selectApp (service : VerifyService) (verifyUrl : U) (host : string) : option ResolvedApp :=
  let hostname := normalizeHost host in
  match url_param verifyUrl APP_QUERY_PARAM with
  | Some pinned =>
      resolved ← byId service !! pinned;
      if existsb (fun declared => normalizeHost declared =? hostname)%string (app_hosts (resolved_app resolved)) then Some resolved else None
  | None => byHost service !! hostname
  end.

Definition forwardedHost (request : Request) : option string :=
  match headers_get FORWARDED_HOST_HEADER (sr_headers request) with
  | Some host => Some host
  | None => headers_get "Host" (sr_headers request)
  end.

Definition readForwardedRequest (request : Request) (requestId : string) : ForwardedRead U :=
  match headers_get FORWARDED_URI_HEADER (sr_headers request), headers_get FORWARDED_METHOD_HEADER (sr_headers request) with
  | Some uri, Some method =>
      if negb (Js.startsWith uri "/") || (method =? "")%string then ReadRefused bad_forward
      else
        let target := splitRequestTarget uri in
        if negb (isCanonicalPath (pathname target)) then ReadRefused non_canonical_path
        else match forwardedHost request with
             | None => ReadRefused bad_forward
             | Some host =>
                 if negb (hostPattern host) then ReadRefused bad_forward
                 else
                   let proto := if bool_decide (headers_get FORWARDED_PROTO_HEADER (sr_headers request) = Some "http") then "http" else "https" in
                   match url_of (proto +:+ "://" +:+ host) with
                   | None => ReadThrows
                   | Some url =>
                       let url := url_setSearch (search target) (url_setPathname (pathname target) url) in
                       if negb (Js.toLowerCase (url_host url) =? Js.toLowerCase host)%string then ReadRefused bad_forward
                       else ReadOk (mkRequest U method url (pathname target) (sr_headers request) requestId)
                   end
             end
  | _, _ => ReadRefused bad_forward
  end.

Definition earlyPolicy (service : VerifyService) (request : Request) (verifyUrl : option U) : HeaderPolicy :=
  let host := default "" (forwardedHost request) in
  match (match verifyUrl with Some url => Some url | None => url_of (sr_url request) end) with
  | None => BASE_HEADER_POLICY
  | Some url =>
      match selectApp service url host with
      | Some resolved =>
          if isApplicationEntry (resolved_app resolved)
          then BASE_HEADER_POLICY ++ transportPolicy (publicScheme (resolved_app resolved)) else BASE_HEADER_POLICY
      | None => BASE_HEADER_POLICY
      end
  end.

Definition isDownload (resolved : ResolvedApp) (forwarded : ForwardedRequest U) : bool :=
  match planEndpoint (resolved_table resolved) (req_method forwarded) (req_rawPath forwarded) with
  | Endpoint row _ => answersFile row
  | _ => false
  end.

(** The answer to a refusal: its text, or its page for a navigation that is no download. *)
Definition deniedAnswer (d : Denial) (isCallback asPage : bool) : option Response :=
  let answer := if isCallback then callbackFailure (deny_status d) else errorAnswer (deny_status d) (DENY_TEXT (deny_status d)) asPage in
  answer ← match deny_clearHandoffState d with
           | Some state =>
               clear ← clearHandoffCookie state;
               Some (mkResponse (status answer) (resp_headers answer) (set_cookies answer ++ [clear]) (body answer))
           | None => Some answer
           end;
  match deny_challenge d with
  | Some challenge => value ← formatOAuthBearerChallenge challenge; Some (withHeaders (headers_set "WWW-Authenticate" value) answer)
  | None => Some answer
  end.

Definition set_optional (name : string) (value : option string) (h : headers) : headers :=
  match value with Some v => headers_set name v h | None => h end.

(** The 204 that lets a request continue: what the composition copies onto the upstream request. *)
Definition allowAnswer (requestId : string) (allowed_token : option string) (endpoint : string) (delegation crossOrigin : option string)
    (forwardsAuthorization : bool) : Response :=
  let h := [("cache-control", "no-store"); (REQUEST_ID_HEADER, requestId)] in
  let h := set_optional PROXY_TOKEN_HEADER allowed_token h in
  let h := headers_set ENDPOINT_HEADER endpoint h in
  let h := set_optional DELEGATION_HEADER delegation h in
  let h := if forwardsAuthorization then headers_set FORWARD_AUTHORIZATION_HEADER "1" h else h in
  let h := match crossOrigin with Some o => applyCrossOriginHeaders (crossOriginHeaders o) h | None => h end in
  mkResponse 204 h [] NoBody.

Definition preflightAnswer (policy : HeaderPolicy) (allowOrigin method : string) : Response :=
  withHeaders (applyCrossOriginHeaders (preflightHeaders allowOrigin method))
    (withPolicy (mkResponse 204 [("cache-control", "no-store"); (PREFLIGHT_HEADER, "1")] [] NoBody) policy).

(** A [None] of a pure part is its throw. *)
Definition or_throw {A} (o : option A) : serving A := match o with Some a => mret a | None => Eff.throw UnexpectedError end.

(** An answer the proxy writes for an application: the treatment of a download, the policy otherwise. *)
Definition treat (service : VerifyService) (resolved : ResolvedApp) (download : bool) (answer : Response) : Response :=
  if download then withFileTreatment answer (appFileTreatment (publicScheme (resolved_app resolved)))
  else withPolicy answer (default BASE_HEADER_POLICY (policies service !! app_id (resolved_app resolved))).

Definition withDenialOrigin (crossOrigin : option string) (answer : Response) : Response :=
  match crossOrigin with Some o => withHeaders (applyCrossOriginHeaders (crossOriginHeaders o)) answer | None => answer end.

Definition answerDecision (service : VerifyService) (resolved : ResolvedApp) (forwarded : ForwardedRequest U) (isCallback asPage : bool)
    (decision : Authorize.Decision) : serving Response :=
  let download := isDownload resolved forwarded in
  match decision with
  | Allow t _ endpoint delegation crossOrigin forwards => mret (allowAnswer (req_id forwarded) t endpoint delegation crossOrigin forwards)
  | Preflight allowOrigin method =>
      mret (preflightAnswer (default BASE_HEADER_POLICY (policies service !! app_id (resolved_app resolved))) allowOrigin method)
  | HandedOff _ location session expiresAt handoffState =>
      now ← world date_now;
      answer ← or_throw (handoffResponse location session expiresAt handoffState now);
      mret (treat service resolved download answer)
  | Signout _ location => mret (treat service resolved download (signedOut location))
  | Login st location _ h =>
      answer ← or_throw (if (st =? 302)%Z then loginRedirect location h else loginRequired location h);
      mret (treat service resolved download answer)
  | Deny d =>
      answer ← or_throw (deniedAnswer d isCallback (asPage && negb download));
      mret (withDenialOrigin (deny_crossOrigin d) (treat service resolved download answer))
  end.

(** The body of the [try]. *)
Definition serve (service : VerifyService) (request : Request) (requestId : string) : serving Response :=
  url ← or_throw (url_of (sr_url request));
  if (url_pathname url =? healthPath service)%string then mret (mkResponse 200 [("cache-control", "no-store")] [] (TextBody "ok"))
  else if negb (url_pathname url =? DEFAULT_VERIFY_PATH)%string && negb (url_pathname url =? OAUTH_METADATA_VERIFY_PATH)%string
  then mret (withPolicy (textResponse 404 "not found") BASE_HEADER_POLICY)
  else if negb (sr_method request =? "GET")%string && negb (sr_method request =? "HEAD")%string
  then mret (withPolicy (textResponse 405 "method not allowed") BASE_HEADER_POLICY)
  else
    let asPage := isPageNavigation (sr_headers request) in
    match readForwardedRequest request requestId with
    | ReadThrows => Eff.throw UnexpectedError
    | ReadRefused reason =>
        let st := match reason with non_canonical_path => 400%Z | _ => 403%Z end in
        answer ← or_throw (deniedAnswer (denial st reason) false asPage);
        mret (withPolicy answer (earlyPolicy service request (Some url)))
    | ReadOk forwarded =>
        match selectApp service url (url_host (req_url forwarded)) with
        | None =>
            answer ← or_throw (deniedAnswer (denial 403 no_app) false asPage);
            mret (withPolicy answer BASE_HEADER_POLICY)
        | Some resolved =>
            if (url_pathname url =? OAUTH_METADATA_VERIFY_PATH)%string then
              found ← or_throw (findOAuthMetadata (resolved_app resolved) (req_url forwarded));
              match found with
              | None => mret (withPolicy (textResponse 404 "not found")
                                (default BASE_HEADER_POLICY (policies service !! app_id (resolved_app resolved))))
              | Some metadata => or_throw (oauthMetadataResponse metadata (req_method forwarded))
              end
            else
              let isCallback := (url_pathname (req_url forwarded) =? AUTH_CALLBACK_PATH)%string in
              decision ← if isCallback then authorizeCallback (authorizer service) resolved forwarded
                         else if (url_pathname (req_url forwarded) =? AUTH_SIGNOUT_PATH)%string then signOut (authorizer service) resolved forwarded
                         else authorize (Jwks := Jwks) (authorizer service) resolved forwarded;
              answerDecision service resolved forwarded isCallback asPage decision
        end
    end.

(** One request; whatever is thrown becomes the refusal of the last line. *)
Definition verifyService (service : VerifyService) (request : Request) : serving Response :=
  requestId ← match headers_get REQUEST_ID_HEADER (sr_headers request) with
              | None => world uuidv7
              | Some supplied => if (supplied =? "")%string then world uuidv7 else mret supplied
              end;
  Eff.catch (serve service request requestId)
    (fun _ => mret (withPolicy (errorAnswer 403 (DENY_TEXT 403) (isPageNavigation (sr_headers request))) (earlyPolicy service request None))).

End Service.

(** ** What an answer holds back *)

(** What only an allow hands to the application. *)
Definition upstream_headers : list string := [PROXY_TOKEN_HEADER; ENDPOINT_HEADER; DELEGATION_HEADER; FORWARD_AUTHORIZATION_HEADER].

Definition withheld (h : headers) : Prop := Forall (fun name => headers_get name h = None) upstream_headers.

Definition carries_policy (h : headers) : Prop := is_Some (headers_get "Content-Security-Policy" h).

(** A policy that writes none of them, and a content security policy. *)
Definition quiet (policy : HeaderPolicy) : Prop :=
  Forall (fun name => policy_value policy name = None) upstream_headers /\ is_Some (policy_value policy "Content-Security-Policy").

Lemma quiet_app csp ops scheme : quiet (appHeaderPolicy csp ops scheme).
Proof. destruct scheme; (split; [by repeat constructor|by eexists]). Qed.

Lemma quiet_base : quiet BASE_HEADER_POLICY.
Proof. split; [by repeat constructor|by eexists]. Qed.

Lemma quiet_base_transport scheme : quiet (BASE_HEADER_POLICY ++ transportPolicy scheme).
Proof. destruct scheme; (split; [by repeat constructor|by eexists]). Qed.

Lemma quiet_treatment scheme : quiet (appFileTreatment scheme).
Proof. destruct scheme; (split; [by repeat constructor|by eexists]). Qed.

Lemma withheld_get h name : withheld h -> name ∈ upstream_headers -> headers_get name h = None.
Proof. intros H Hn. by eapply Forall_forall in H. Qed.

Lemma upstream_kept name : name ∈ upstream_headers ->
  named (REMOVED_RESPONSE_HEADERS ++ TRANSPORT_HEADERS) name = false.
Proof. revert name. apply Forall_forall. by repeat constructor. Qed.

Lemma policy_withheld policy h : quiet policy -> withheld h ->
  withheld (applyHeaderPolicy policy h) /\ carries_policy (applyHeaderPolicy policy h).
Proof.
  intros [Hq [v Hv]] Hh. split.
  - apply Forall_forall. intros name Hn. rewrite applyHeaderPolicy_get. rewrite Forall_forall in Hq.
    rewrite (Hq name Hn), upstream_kept by done. by apply withheld_get.
  - exists v. by rewrite applyHeaderPolicy_get, Hv.
Qed.

(** A field written under another name changes nothing held back. *)
Lemma set_withheld other v h : forallb (fun name => negb (Js.toLowerCase other =? Js.toLowerCase name)%string) upstream_headers = true ->
  withheld h -> withheld (headers_set other v h).
Proof.
  intros Ho Hh. apply Forall_forall. intros name Hn. rewrite get_set. rewrite forallb_forall in Ho.
  apply list_elem_of_In in Hn as Hi. apply Ho in Hi. apply negb_true_iff in Hi. rewrite Hi. by apply withheld_get.
Qed.

Lemma append_set name v h : exists v', headers_append name v h = headers_set name v' h.
Proof. unfold headers_append. destruct (headers_get name h); eauto. Qed.

(** The CORS fields neither. *)
Lemma cors_withheld policy h :
  forallb (fun field => forallb (fun name => negb (Js.toLowerCase field.1 =? Js.toLowerCase name)%string)
                          ("Content-Security-Policy" :: PREFLIGHT_HEADER :: upstream_headers)) policy = true ->
  (withheld h -> withheld (applyCrossOriginHeaders policy h))
  /\ headers_get "Content-Security-Policy" (applyCrossOriginHeaders policy h) = headers_get "Content-Security-Policy" h
  /\ headers_get PREFLIGHT_HEADER (applyCrossOriginHeaders policy h) = headers_get PREFLIGHT_HEADER h.
Proof.
  unfold applyCrossOriginHeaders. revert h. induction policy as [|field policy IH]; intros h Hp; [done|].
  cbn [forallb] in Hp. apply andb_true_iff in Hp as [Hf Hp]. cbn [foldl].
  set (h' := if (field.1 =? "Vary")%string then _ else _).
  assert (Hh' : exists v, h' = headers_set field.1 v h).
  { unfold h'. destruct (field.1 =? "Vary")%string; [apply append_set|eauto]. }
  destruct Hh' as [v Hh']. destruct (IH h' Hp) as (I1 & I2 & I3).
  cbn [forallb] in Hf. apply andb_true_iff in Hf as [F1%negb_true_iff Hf]. apply andb_true_iff in Hf as [F2%negb_true_iff F3].
  split_and!.
  - intros Hh. apply I1. rewrite Hh'. by apply set_withheld.
  - by rewrite I2, Hh', get_set, F1.
  - by rewrite I3, Hh', get_set, F2.
Qed.

Lemma crossOrigin_fields o : forallb (fun field => forallb (fun name => negb (Js.toLowerCase field.1 =? Js.toLowerCase name)%string)
  ("Content-Security-Policy" :: PREFLIGHT_HEADER :: upstream_headers)) (crossOriginHeaders o) = true.
Proof. unfold crossOriginHeaders. by destruct (o =? "*")%string. Qed.

Lemma preflight_fields o m : forallb (fun field => forallb (fun name => negb (Js.toLowerCase field.1 =? Js.toLowerCase name)%string)
  ("Content-Security-Policy" :: PREFLIGHT_HEADER :: upstream_headers)) (preflightHeaders o m) = true.
Proof. unfold preflightHeaders, crossOriginHeaders. by destruct (o =? "*")%string. Qed.

Lemma treatment_withheld scheme inline h : withheld h ->
  withheld (applyFileTreatment (appFileTreatment scheme) inline h)
  /\ carries_policy (applyFileTreatment (appFileTreatment scheme) inline h).
Proof.
  intros Hh. destruct (policy_withheld _ h (quiet_treatment scheme) Hh) as [Hw [v Hv]]. unfold applyFileTreatment. split.
  - by apply set_withheld.
  - exists v. by rewrite get_set.
Qed.


(** The headers of the answers the proxy writes, before their treatment. *)
Lemma error_withheld st text asPage : withheld (resp_headers (errorAnswer st text asPage)).
Proof. destruct asPage; by repeat constructor. Qed.

Lemma login_withheld (doc : bool) location h answer :
  (if doc then loginRedirect location h else loginRequired location h) = Some answer ->
  withheld (resp_headers answer) /\ status answer = if doc then 302%Z else 401%Z.
Proof.
  unfold loginRedirect, loginRequired. intros Hr.
  destruct doc, (handoffCookie h); try done; injection Hr as <-; (split; [by repeat constructor|done]).
Qed.

Lemma handoff_withheld location session x state now answer :
  handoffResponse location session x state now = Some answer -> withheld (resp_headers answer) /\ status answer = 302%Z.
Proof.
  unfold handoffResponse. destruct (clearHandoffCookie state); [|done]. intros [= <-]. split; [by repeat constructor|done].
Qed.

Section ServiceLaws.
Context {U E Jwks LocalJwks C : Type}.
Context `{UrlApi U} `{UrlAssign U} `{UrlParser} `{JwksEnv E Jwks LocalJwks} `{IamEnv E} `{CryptoEnv E} `{ServiceEnv E} `{TokenCacheLaws C}.

Lemma denied_withheld d isCallback asPage answer :
  deniedAnswer d isCallback asPage = Some answer -> withheld (resp_headers answer) /\ status answer = deny_status d.
Proof.
  unfold deniedAnswer. set (a := if isCallback then _ else _). intros Hans.
  assert (Ha : withheld (resp_headers a) /\ status a = deny_status d).
  { unfold a. destruct isCallback, asPage; (split; [by repeat constructor|done]). }
  clearbody a. assert (Hb : exists b, withheld (resp_headers b) /\ status b = deny_status d
    /\ match deny_challenge d with
       | Some challenge => value ← formatOAuthBearerChallenge challenge; Some (withHeaders (headers_set "WWW-Authenticate" value) b)
       | None => Some b
       end = Some answer).
  { destruct (deny_clearHandoffState d); [|by exists a; destruct Ha]. destruct (clearHandoffCookie _); [|done]. eexists. split_and!; [| |exact Hans]; apply Ha. }
  destruct Hb as (b & Hw & Hst & Hb). destruct (deny_challenge d); [|by injection Hb as <-].
  destruct (formatOAuthBearerChallenge _); [|done]. injection Hb as <-. split; [by apply set_withheld|done].
Qed.

(** What [createVerifyService] builds from a manifest. *)
Record service_ok (manifest : list ManifestApp) (service : VerifyService) : Prop := {
  ok_byId : forall id r, byId service !! id = Some r ->
    exists app, app ∈ manifest /\ resolveApp app = Some r /\ app_id (ma_app app) = id;
  ok_byHost : forall host r, byHost service !! host = Some r ->
    exists app declared, app ∈ manifest /\ resolveApp app = Some r /\ declared ∈ app_hosts (ma_app app) /\ normalizeHost declared = host;
  ok_policies : forall id p, policies service !! id = Some p ->
    exists app, app ∈ manifest /\ p = policyOf app /\ app_id (ma_app app) = id;
}.

Lemma hosts_lookup (hosts : list string) (m : gmap string ResolvedApp) resolved host r :
  foldl (fun hosts host => <[normalizeHost host := resolved]> hosts) m hosts !! host = Some r ->
  (r = resolved /\ exists declared, declared ∈ hosts /\ normalizeHost declared = host) \/ m !! host = Some r.
Proof.
  revert m. induction hosts as [|h hosts IH]; intros m; [by right|]. cbn [foldl].
  intros [[-> (d & Hd & Hn)]|Hm]%IH.
  - left. split; [done|]. exists d. split; [by right|done].
  - apply lookup_insert_Some in Hm as [[<- <-]|[_ Hm]]; [|by right]. left. split; [done|]. exists h. split; [by left|done].
Qed.

Lemma service_ok_more manifest manifest' service :
  (forall app, app ∈ manifest -> app ∈ manifest') -> service_ok manifest service -> service_ok manifest' service.
Proof. intros Hin [H7' H8' H9']. split; naive_solver. Qed.

Lemma addApp_ok manifest service app service' :
  service_ok manifest service -> app ∈ manifest -> addApp service app = Some service' ->
  service_ok manifest service' /\ healthPath service' = healthPath service /\ authorizer service' = authorizer service.
Proof.
  intros [Hi Hh Hp] Hin. unfold addApp. destruct (resolveApp app) as [r|] eqn:Hr; [|done]. intros [= <-].
  split; [|done]. split; cbn [byId byHost policies].
  - intros id r'. rewrite lookup_insert_Some. intros [[<- <-]|[_ Hl]]; [by exists app|by apply Hi].
  - intros host r' [[-> (d & Hd & Hn)]|Hl]%hosts_lookup; [by exists app, d|by apply Hh].
  - intros id p. rewrite lookup_insert_Some. intros [[<- <-]|[_ Hl]]; [by exists app|by apply Hp].
Qed.

Lemma createVerifyService_ok manifest hp auth service :
  createVerifyService manifest hp auth = Some service ->
  service_ok manifest service /\ healthPath service = default DEFAULT_HEALTH_PATH hp /\ authorizer service = auth.
Proof.
  unfold createVerifyService. revert service. induction manifest as [|app manifest IH] using rev_ind; intros service.
  - intros [= <-]. split; [|done]. split; intros ? ? Hx; cbn [byId byHost policies] in Hx; by apply lookup_empty_Some in Hx.
  - rewrite foldl_app. cbn [foldl]. destruct (foldl _ _ manifest) as [s|]; [|done]. cbn [mbind option_bind]. intros Ha.
    destruct (IH s eq_refl) as (Hs & E1 & E2).
    assert (Hin : forall a, a ∈ manifest -> a ∈ manifest ++ [app]) by (intros a Hm; apply elem_of_app; by left).
    destruct (addApp_ok (manifest ++ [app]) s app service (service_ok_more _ _ _ Hin Hs)) as (Hok & F1 & F2);
      [apply elem_of_app; right; constructor|exact Ha|]. split; [exact Hok|]. by rewrite F1, F2.
Qed.

Lemma selectApp_ok manifest service url host r :
  service_ok manifest service -> selectApp service url host = Some r ->
  exists app declared, app ∈ manifest /\ resolveApp app = Some r /\ declared ∈ app_hosts (ma_app app)
    /\ normalizeHost declared = normalizeHost host
    /\ forall pinned, url_param url APP_QUERY_PARAM = Some pinned -> app_id (ma_app app) = pinned.
Proof.
  intros [Hi Hh _]. unfold selectApp. destruct (url_param url APP_QUERY_PARAM) as [pinned|].
  - destruct (byId service !! pinned) as [r'|] eqn:Hl; [|done]. cbn [mbind option_bind].
    destruct (existsb _ _) eqn:He; [|done]. intros [= ->]. destruct (Hi _ _ Hl) as (app & Hin & Hr & Hid).
    apply existsb_exists in He as (d & Hd & Hn). apply String.eqb_eq in Hn.
    exists app, d. unfold resolveApp in Hr |- *. destruct (compileEndpointTable _ _); [done|]. injection Hr as <-.
    split_and!; try done; [by apply list_elem_of_In|]. by intros ? [= <-].
  - intros Hl. destruct (Hh _ _ Hl) as (app & d & Hin & Hr & Hd & Hn). by exists app, d.
Qed.

Lemma policy_quiet manifest service id : service_ok manifest service -> quiet (default BASE_HEADER_POLICY (policies service !! id)).
Proof.
  intros [_ _ Hp]. destruct (policies service !! id) as [p|] eqn:Hl; [|apply quiet_base].
  destruct (Hp _ _ Hl) as (app & _ & -> & _). unfold policyOf. cbn. destruct (isApplicationEntry _); [apply quiet_app|apply quiet_base].
Qed.

Lemma early_quiet service request url : quiet (earlyPolicy (H := H) service request url).
Proof.
  unfold earlyPolicy. destruct (match url with Some _ => _ | None => _ end); [|apply quiet_base].
  destruct (selectApp _ _ _); [|apply quiet_base]. destruct (isApplicationEntry _); [apply quiet_base_transport|apply quiet_base].
Qed.

(** *** The outcome of a request *)

Lemma triple_or_throw {A} (I : World C LocalJwks E -> Prop) (o : option A) :
  Eff.triple I (or_throw o) (fun a => o = Some a).
Proof. destruct o; [by apply triple_ret|apply triple_throw]. Qed.

(** The application a forwarded request reaches: of the manifest, with its compiled table, and declaring the host. *)
Definition selected (manifest : list ManifestApp) (request : Request) (requestId : string)
    (forwarded : ForwardedRequest U) (resolved : ResolvedApp) : Prop :=
  exists url app declared,
    url_of (sr_url request) = Some url /\ url_pathname url = DEFAULT_VERIFY_PATH /\
    readForwardedRequest request requestId = ReadOk forwarded /\
    app ∈ manifest /\ resolveApp app = Some resolved /\
    declared ∈ app_hosts (ma_app app) /\ normalizeHost declared = normalizeHost (url_host (req_url forwarded)) /\
    (forall pinned, url_param url APP_QUERY_PARAM = Some pinned -> app_id (ma_app app) = pinned).

(** An answer of the service's own endpoints, which is no decision. *)
Definition own_endpoint (service : VerifyService) (request : Request) : Prop :=
  exists url, url_of (sr_url request) = Some url /\ url_pathname url ∈ [healthPath service; OAUTH_METADATA_VERIFY_PATH].

Definition is_preflight (manifest : list ManifestApp) (service : VerifyService) (request : Request) (requestId : string) (r : Response) : Prop :=
  exists forwarded resolved allowOrigin method, selected manifest request requestId forwarded resolved /\
    headers_get PREFLIGHT_HEADER (resp_headers r) = Some "1" /\
    decided (Jwks := Jwks) (E := E) (authorizer service) (resolved_app resolved) (resolved_table resolved) forwarded (Preflight allowOrigin method).

(** An answer that is no allow: it hands nothing upstream, carries a content security policy, and is no 2xx. *)
Definition refused (manifest : list ManifestApp) (service : VerifyService) (request : Request) (requestId : string) (r : Response) : Prop :=
  withheld (resp_headers r) /\
  (carries_policy (resp_headers r) \/ own_endpoint service request) /\
  (status r ∈ [302; 400; 401; 403; 404; 405; 503]%Z \/ own_endpoint service request \/ is_preflight manifest service request requestId r).

Definition admitted (manifest : list ManifestApp) (service : VerifyService) (request : Request) (requestId : string) (r : Response) : Prop :=
  exists forwarded resolved t subject endpoint delegation crossOrigin forwards,
    selected manifest request requestId forwarded resolved /\
    decided (Jwks := Jwks) (E := E) (authorizer service) (resolved_app resolved) (resolved_table resolved) forwarded
      (Allow t subject endpoint delegation crossOrigin forwards) /\
    r = allowAnswer requestId t endpoint delegation crossOrigin forwards.

Definition outcome (manifest : list ManifestApp) (service : VerifyService) (request : Request) (requestId : string) (r : Response) : Prop :=
  refused manifest service request requestId r \/ admitted manifest service request requestId r.

Context (manifest : list ManifestApp) (service : VerifyService).
Hypothesis Hok : service_ok manifest service.
Hypothesis Hids : distinct_ids (map ma_app manifest).

Notation apps := (map ma_app manifest).

(** A refusal of a known status under a policy that writes nothing upstream. *)
Lemma refused_answer request requestId policy r :
  quiet policy -> withheld (resp_headers r) -> status r ∈ [302; 400; 401; 403; 404; 405; 503]%Z ->
  outcome manifest service request requestId (withPolicy r policy).
Proof.
  intros Hq Hw Hs. left. destruct (policy_withheld policy (resp_headers r) Hq Hw) as [H1' H2'].
  split; [exact H1'|]. split; [by left|]. by left.
Qed.

Lemma treat_refused request requestId resolved download r :
  withheld (resp_headers r) -> status r ∈ [302; 400; 401; 403; 404; 405; 503]%Z ->
  refused manifest service request requestId (treat service resolved download r).
Proof.
  intros Hw Hs. unfold treat. destruct download.
  - destruct (treatment_withheld (publicScheme (resolved_app resolved)) (inlineFileTypes None) _ Hw). split; [done|]. split; by left.
  - destruct (policy_withheld _ _ (policy_quiet manifest service (app_id (resolved_app resolved)) Hok) Hw). split; [done|]. split; by left.
Qed.

Lemma denial_origin_refused request requestId crossOrigin r :
  status r ∈ [302; 400; 401; 403; 404; 405; 503]%Z ->
  refused manifest service request requestId r -> refused manifest service request requestId (withDenialOrigin crossOrigin r).
Proof.
  intros Hs (Hw & Hp & _). destruct crossOrigin as [o|]; [|split; [done|]; split; [done|]; by left].
  destruct (cors_withheld (crossOriginHeaders o) (resp_headers r) (crossOrigin_fields o)) as (I1 & I2 & _).
  split; [by apply I1|]. split; [|by left]. destruct Hp as [[v Hv]|Hp]; [left|by right]. exists v. cbn. by rewrite I2.
Qed.

Lemma preflight_outcome request requestId forwarded resolved allowOrigin method :
  selected manifest request requestId forwarded resolved ->
  decided (Jwks := Jwks) (E := E) (authorizer service) (resolved_app resolved) (resolved_table resolved) forwarded (Preflight allowOrigin method) ->
  refused manifest service request requestId
    (preflightAnswer (default BASE_HEADER_POLICY (policies service !! app_id (resolved_app resolved))) allowOrigin method).
Proof.
  intros Hsel Hd. set (policy := default _ _).
  assert (Hq : quiet policy) by by eapply policy_quiet.
  assert (Hpre : policy_value policy PREFLIGHT_HEADER = None).
  { unfold policy. destruct (policies service !! _) as [p|] eqn:Hp; [|done]. apply (ok_policies _ _ Hok) in Hp as (app & _ & -> & _).
    change (policy_value (policyOf app) PREFLIGHT_HEADER = None). unfold policyOf.
    destruct (isApplicationEntry (ma_app app)); [|done]. by destruct (publicScheme (ma_app app)). }
  set (h := [("cache-control", "no-store"); (PREFLIGHT_HEADER, "1")] : headers).
  destruct (policy_withheld policy h Hq ltac:(by repeat constructor)) as [Hw [v Hv]].
  destruct (cors_withheld (preflightHeaders allowOrigin method) (applyHeaderPolicy policy h) (preflight_fields _ _)) as (I1 & I2 & I3).
  split; [by apply I1|]. split; [left; exists v; by rewrite <-Hv, <-I2|]. right. right.
  exists forwarded, resolved, allowOrigin, method. split; [done|]. split; [|done].
  etransitivity; [exact I3|]. by rewrite unshadowed.
Qed.

(** What a decision must be for its answer to be sound. *)
Definition decision_ok (forwarded : ForwardedRequest U) (resolved : ResolvedApp) (d : Authorize.Decision) : Prop :=
  match d with
  | Allow _ _ _ _ _ _ | Preflight _ _ =>
      decided (Jwks := Jwks) (E := E) (authorizer service) (resolved_app resolved) (resolved_table resolved) forwarded d
  | _ => refusal_status d
  end.

Lemma answerDecision_outcome request requestId forwarded resolved isCallback asPage d :
  selected manifest request requestId forwarded resolved -> req_id forwarded = requestId -> decision_ok forwarded resolved d ->
  Eff.triple (world_ok (Jwks := Jwks) apps) (answerDecision service resolved forwarded isCallback asPage d)
    (outcome manifest service request requestId).
Proof.
  intros Hsel Hrid Hd. unfold answerDecision. cbn zeta. destruct d as [t subject endpoint delegation co forwards|d|o m|st location reason h|st location session x state|st location].
  - apply triple_ret. right. exists forwarded, resolved, t, subject, endpoint, delegation, co, forwards. by rewrite Hrid.
  - eapply triple_bind; [apply triple_or_throw|]. intros answer Ha. apply denied_withheld in Ha as [Hw Hst].
    assert (Hs : status answer ∈ [302; 400; 401; 403; 404; 405; 503]%Z).
    { rewrite Hst. cbn in Hd. unfold denial_status in Hd. revert Hd. generalize (deny_status d). apply Forall_forall.
      repeat constructor; by apply status_in. }
    apply triple_ret. left. apply denial_origin_refused; [|by apply treat_refused]. unfold treat. by destruct (isDownload _ _).
  - apply triple_ret. left. by apply (preflight_outcome request requestId forwarded).
  - eapply triple_bind; [apply triple_or_throw|]. intros answer Ha. apply login_withheld in Ha as [Hw Hst].
    apply triple_ret. left. apply treat_refused; [done|]. rewrite Hst. destruct (st =? 302)%Z; by apply status_in.
  - eapply triple_bind; [by apply triple_world with (P := fun _ => True)|]. intros now _.
    eapply triple_bind; [apply triple_or_throw|]. intros answer Ha. apply handoff_withheld in Ha as [Hw Hst].
    apply triple_ret. left. apply treat_refused; [done|]. rewrite Hst. by apply status_in.
  - apply triple_ret. left. apply treat_refused; [by repeat constructor|by apply status_in].
Qed.

(** *** The callback and the sign-out *)

Lemma redeem_keeps resolved (request : ForwardedRequest U) state :
  Eff.triple (world_ok (Jwks := Jwks) apps) (redeem (authorizer service) resolved request state) (decision_ok request resolved).
Proof.
  unfold redeem. cbn zeta. destruct (url_param _ _) as [code|]; [|apply triple_ret; by apply status_in].
  destruct (code =? "")%string; [apply triple_ret; by apply status_in|]. destruct (_ ≫= _) as [v|].
  - eapply triple_bind; [apply triple_callIam|]. intros [x|] _; [|apply triple_ret; by apply status_in].
    destruct (negb _); apply triple_ret; [by apply status_in|done].
  - eapply triple_bind; [by apply triple_world with (P := fun _ => True)|]. intros u _.
    eapply triple_bind; [apply triple_callIam|]. intros ? _. apply triple_ret. by apply status_in.
Qed.

Lemma authorizeCallback_keeps resolved (request : ForwardedRequest U) :
  Eff.triple (world_ok (Jwks := Jwks) apps) (authorizeCallback (authorizer service) resolved request) (decision_ok request resolved).
Proof.
  unfold authorizeCallback. destruct (url_param _ _) as [state|]; [|apply triple_ret; by apply status_in].
  destruct (handoffCookieName _); [|apply triple_ret; by apply status_in].
  apply triple_catch; [apply redeem_keeps|]. intros []; apply triple_ret; by apply status_in.
Qed.

Lemma signOut_keeps resolved (request : ForwardedRequest U) :
  Eff.triple (world_ok (Jwks := Jwks) apps) (signOut (authorizer service) resolved request) (decision_ok request resolved).
Proof.
  unfold signOut. cbn zeta. destruct (negb _); [apply triple_ret; by apply status_in|].
  destruct (negb _); [apply triple_ret; by apply status_in|]. destruct (url_of _); [|apply triple_throw].
  destruct (sameOriginTarget _ _) as [[target|]|]; [|apply triple_ret; by apply status_in|apply triple_throw].
  eapply triple_bind with (P := fun _ => True).
  { destruct (readCookie _ _); [apply triple_cacheDelete|by apply triple_ret]. }
  intros _ _. destruct (url_against _ _); [by apply triple_ret|apply triple_throw].
Qed.

Lemma authorize_decision request requestId forwarded resolved :
  selected manifest request requestId forwarded resolved ->
  Eff.triple (world_ok (Jwks := Jwks) apps) (authorize (Jwks := Jwks) (authorizer service) resolved forwarded) (decision_ok forwarded resolved).
Proof.
  intros (url & app & declared & _ & _ & _ & Hin & Hr & _). unfold resolveApp in Hr.
  destruct (compileEndpointTable _ _) as [|table]; [done|]. injection Hr as <-.
  eapply triple_weaken; [apply triple_returns; [apply authorize_promise; [exact Hids|]|apply authorize_status]|].
  - apply list_elem_of_fmap. by exists app.
  - intros d [Hd Hs]. by destruct d.
Qed.

Lemma readForwarded_id request requestId forwarded :
  readForwardedRequest request requestId = ReadOk forwarded -> req_id forwarded = requestId.
Proof. unfold readForwardedRequest. cbn zeta. intros Hr. repeat split_match_in Hr; by simplify_eq. Qed.

Lemma metadata_withheld r method answer :
  oauthMetadataResponse r method = Some answer -> withheld (resp_headers answer).
Proof.
  unfold oauthMetadataResponse. intros Ha. repeat split_match_in Ha; try (injection Ha as <-; by repeat constructor).
  destruct (oauthProtectedResourceMetadata r); [|done]. injection Ha as <-. by repeat constructor.
Qed.

Lemma serve_outcome request requestId :
  Eff.triple (world_ok (Jwks := Jwks) apps) (serve service request requestId) (outcome manifest service request requestId).
Proof.
  unfold serve. eapply triple_bind; [apply triple_or_throw|]. intros url Hurl.
  destruct (String.eqb_spec (url_pathname url) (healthPath service)) as [Hhealth|_].
  { apply triple_ret. left. split; [by repeat constructor|].
    assert (own_endpoint service request) by (exists url; split; [done|]; rewrite Hhealth; by left). split; [by right|]. right. by left. }
  destruct (negb _ && negb _) eqn:Hpath; [apply triple_ret, refused_answer; [apply quiet_base|by repeat constructor|by apply status_in]|].
  destruct (negb _ && negb _) in |- *; [apply triple_ret, refused_answer; [apply quiet_base|by repeat constructor|by apply status_in]|].
  cbn zeta. destruct (readForwardedRequest request requestId) as [forwarded|reason|] eqn:Hread; [| |apply triple_throw].
  2:{ eapply triple_bind; [apply triple_or_throw|]. intros answer [Hw Hst]%denied_withheld. apply triple_ret.
      apply refused_answer; [apply early_quiet|done|]. rewrite Hst. by destruct reason; apply status_in. }
  destruct (selectApp service url (url_host (req_url forwarded))) as [resolved|] eqn:Hsel.
  2:{ eapply triple_bind; [apply triple_or_throw|]. intros answer [Hw Hst]%denied_withheld. apply triple_ret.
      apply refused_answer; [apply quiet_base|done|]. rewrite Hst. by apply status_in. }
  destruct (String.eqb_spec (url_pathname url) OAUTH_METADATA_VERIFY_PATH) as [Hmeta|Hmeta].
  - assert (own_endpoint service request) by (exists url; split; [done|]; rewrite Hmeta; right; by left).
    eapply triple_bind; [apply triple_or_throw|]. intros [metadata|] _.
    + eapply triple_weaken; [apply triple_or_throw|]. intros answer Ha. left. split; [exact (metadata_withheld _ _ _ Ha)|]. split; [by right|]. right. by left.
    + apply triple_ret, refused_answer; [by eapply policy_quiet|by repeat constructor|by apply status_in].
  - assert (Hverify : url_pathname url = DEFAULT_VERIFY_PATH).
    { cbn [negb] in Hpath. rewrite andb_true_r in Hpath. by apply negb_false_iff, String.eqb_eq in Hpath. }
    destruct (selectApp_ok _ _ _ _ _ Hok Hsel) as (app & declared & Hin & Hr & Hd & Hn & Hpin).
    assert (Hs : selected manifest request requestId forwarded resolved) by (exists url, app, declared; split_and!; done).
    eapply triple_bind with (P := decision_ok forwarded resolved).
    + destruct (url_pathname (req_url forwarded) =? AUTH_CALLBACK_PATH)%string; [apply authorizeCallback_keeps|].
      destruct (url_pathname (req_url forwarded) =? AUTH_SIGNOUT_PATH)%string; [apply signOut_keeps|by eapply authorize_decision].
    + intros d Hdec. eapply answerDecision_outcome; [exact Hs|by eapply readForwarded_id|exact Hdec].
Qed.

Lemma verifyService_outcome request :
  Eff.triple (world_ok (Jwks := Jwks) apps) (verifyService service request)
    (fun r => exists requestId, requestId = default requestId (supplied ← headers_get REQUEST_ID_HEADER (sr_headers request);
                                                              if (supplied =? "")%string then None else Some supplied)
                /\ outcome manifest service request requestId r).
Proof.
  unfold verifyService. eapply triple_bind with (P := fun rid => rid = default rid
    (supplied ← headers_get REQUEST_ID_HEADER (sr_headers request); if (supplied =? "")%string then None else Some supplied)).
  { destruct (headers_get REQUEST_ID_HEADER _) as [supplied|]; [|by apply triple_world]. cbn.
    destruct (supplied =? "")%string; [by apply triple_world|by apply triple_ret]. }
  intros rid Hrid. apply triple_catch.
  - eapply triple_weaken; [apply serve_outcome|]. intros r Hr. by exists rid.
  - intros x. apply triple_ret. exists rid. split; [done|].
    apply refused_answer; [apply early_quiet|apply error_withheld|]. destruct (isPageNavigation _); by apply status_in.
Qed.

End ServiceLaws.

(** ** Properties *)

Section ServiceProperties.
Context {U E Jwks LocalJwks C : Type}.
Context `{UrlApi U} `{UrlAssign U} `{UrlParser} `{JwksEnv E Jwks LocalJwks} `{IamEnv E} `{CryptoEnv E} `{ServiceEnv E} `{TokenCacheLaws C}.

(** C14. The edge's one answer: for every request the service answers, whatever is thrown on the way. Either the answer
    hands nothing upstream, carries a content security policy (its own health and metadata endpoints apart) and is no 2xx
    that lets a request continue; or it is the 204 that carries exactly what an allow of the authorizer decided for the
    application of the manifest that declares the forwarded host (and that the route pinned, when it pinned one). *)
Theorem verifyService_sound (manifest : list ManifestApp) (hp : option string) (auth : Authorizer) (service : VerifyService)
    (request : Request) (w : World C LocalJwks E) :
  createVerifyService manifest hp auth = Some service -> distinct_ids (map ma_app manifest) ->
  world_ok (Jwks := Jwks) (map ma_app manifest) w ->
  exists requestId r w', verifyService (Jwks := Jwks) service request w = (inr r, w')
    /\ world_ok (Jwks := Jwks) (map ma_app manifest) w'
    /\ (forall supplied, headers_get REQUEST_ID_HEADER (sr_headers request) = Some supplied -> supplied <> "" -> requestId = supplied)
    /\ (refused (Jwks := Jwks) manifest service request requestId r \/ admitted (Jwks := Jwks) manifest service request requestId r).
Proof.
  intros (Hok & _ & _)%createVerifyService_ok Hids Hw.
  destruct (verifyService_outcome (Jwks := Jwks) manifest service Hok Hids request w Hw) as [Hw' Hr].
  destruct (verifyService service request w) as [[err|r] w'] eqn:Hv.
  - exfalso. unfold verifyService, mbind, eff_bind in Hv.
    assert (Hrid : forall s, exists rid s', (match headers_get REQUEST_ID_HEADER (sr_headers request) with
        | None => world uuidv7
        | Some supplied => if (supplied =? "")%string then world uuidv7 else mret supplied
        end : eff (World C LocalJwks E) ProxyError string) s = (inr rid, s')).
    { intros s. destruct (headers_get _ _) as [supplied|]; [destruct (supplied =? "")%string|];
        unfold world; try destruct (uuidv7 _); by eexists _, _. }
    destruct (Hrid w) as (rid & s' & E1). rewrite E1 in Hv. unfold Eff.catch in Hv. by destruct (serve _ _ _ _) as [[]].
  - destruct (Hr r eq_refl) as (rid & Hrid & Ho). exists rid, r, w'. split; [done|]. split; [exact Hw'|]. split; [|exact Ho].
    intros supplied Hs Hne. rewrite Hs in Hrid. cbn in Hrid. destruct (String.eqb_spec supplied ""); done.
Qed.

(** What is authorized is what the application receives: the method, the path and the host of the forwarded request
    are the edge's headers, with the path canonical and matched as written; nothing of the subrequest itself is read, a
    missing method or path is refused, and the assembled URL cannot have moved to another host. *)
Theorem readForwardedRequest_spec (request : Request) (requestId : string) :
  (forall forwarded, readForwardedRequest request requestId = ReadOk forwarded ->
     exists uri host, headers_get FORWARDED_URI_HEADER (sr_headers request) = Some uri
       /\ headers_get FORWARDED_METHOD_HEADER (sr_headers request) = Some (req_method forwarded) /\ req_method forwarded <> ""
       /\ uri = req_rawPath forwarded +:+ search (splitRequestTarget uri) /\ isCanonicalPath (req_rawPath forwarded) = true
       /\ forwardedHost request = Some host /\ hostPattern host = true
       /\ Js.toLowerCase (url_host (req_url forwarded)) = Js.toLowerCase host
       /\ req_headers forwarded = sr_headers request /\ req_id forwarded = requestId)
  /\ (headers_get FORWARDED_URI_HEADER (sr_headers request) = None \/ headers_get FORWARDED_METHOD_HEADER (sr_headers request) = None ->
      readForwardedRequest request requestId = ReadRefused bad_forward)
  /\ (forall method url, readForwardedRequest (mkServiceRequest method url (sr_headers request)) requestId
        = readForwardedRequest request requestId).
Proof.
  split_and!; [| |done].
  - intros forwarded. unfold readForwardedRequest. destruct (headers_get FORWARDED_URI_HEADER _) as [uri|]; [|done].
    destruct (headers_get FORWARDED_METHOD_HEADER _) as [method|]; [|done].
    destruct (negb _ || _) eqn:Hm; [done|]. apply orb_false_iff in Hm as [_ Hm]. apply String.eqb_neq in Hm. cbn zeta.
    destruct (isCanonicalPath _) eqn:Hc; cbn [negb]; [|done]. destruct (forwardedHost request) as [host|]; [|done].
    destruct (hostPattern host) eqn:Hh; cbn [negb]; [|done]. destruct (url_of _) as [url|]; [|done].
    destruct (String.eqb_spec (Js.toLowerCase (url_host (url_setSearch (search (splitRequestTarget uri))
      (url_setPathname (pathname (splitRequestTarget uri)) url)))) (Js.toLowerCase host)) as [Heq|]; cbn [negb]; [|done].
    intros [= <-]. exists uri, host. cbn [req_method req_rawPath req_url req_headers req_id]. split_and!; try done.
    unfold splitRequestTarget. destruct (Js.indexOf "?" uri) as [q|]; cbn [pathname search];
      [by rewrite take_drop_str|by rewrite str_app_nil_r].
  - unfold readForwardedRequest. intros [-> | ->]; [done|]. by destruct (headers_get _ _).
Qed.

End ServiceProperties.

(** ** A concrete installation: the application of Authorize behind its service *)

Definition demo_service_url : UrlApi string := {|
  url_of := fun s => Some s;
  url_against := fun path origin => Some (origin +:+ path);
  url_host := fun u => uriAuthority u;
  url_host_name := fun u => uriAuthority u;
  url_origin := fun u => "https://" +:+ uriAuthority u;
  url_pathname := fun u => pathname (rawRequestTarget u);
  url_param := fun _ _ => None;
  url_setParam := fun name value u => u +:+ "?" +:+ name +:+ "=" +:+ value;
  url_setProtocol := fun _ u => u;
  url_text := fun u => u;
|}.

Definition demo_assign : UrlAssign string :=
  {| url_setPathname := fun p u => "https://" +:+ uriAuthority u +:+ p; url_setSearch := fun s u => u +:+ s |}.

Definition demo_platform : ServiceEnv (Z * nat) := {| uuidv7 := fun e => ("u1", e); date_now := fun e => (1000000%Z, e) |}.

Definition demo_manifest : list ManifestApp := [mkManifestApp demo_app [demo_row] [] NO_CSP_ORIGINS None].

Definition demo_service : VerifyService :=
  default (mkService ∅ ∅ ∅ "" demo_authorizer) (createVerifyService demo_manifest None demo_authorizer).

Definition demo_subrequest (extra : headers) : Request :=
  mkServiceRequest "GET" "http://auth.internal/verify"
    ([("X-Forwarded-Uri", "/api/notes?page=2"); ("X-Forwarded-Method", "GET"); ("Host", "notes.example.com")] ++ extra).

Definition demo_serve (request : Request) :=
  verifyService (H := demo_service_url) (H0 := demo_assign) (H1 := demo_url) (H2 := demo_env) (H3 := demo_iam) (H4 := demo_random)
    (H5 := demo_platform) demo_service request demo_world.

Lemma verifyService_sound_witness :
  (exists r w', demo_serve (demo_subrequest [("Authorization", "Bearer px_abc")]) = (inr r, w')
     /\ status r = 204%Z /\ headers_get PROXY_TOKEN_HEADER (resp_headers r) = Some "good") /\
  exists requestId r w', demo_serve (demo_subrequest []) = (inr r, w')
    /\ (refused (H := demo_service_url) (H0 := demo_assign) (H1 := demo_url) (H2 := demo_env) (H3 := demo_iam)
          demo_manifest demo_service (demo_subrequest []) requestId r
        \/ admitted (H := demo_service_url) (H0 := demo_assign) (H1 := demo_url) (H2 := demo_env) (H3 := demo_iam)
             demo_manifest demo_service (demo_subrequest []) requestId r).
Proof.
  split.
  - destruct (demo_serve _) as [r w'] eqn:Hr. vm_compute in Hr. injection Hr as <- <-. eexists _, _. split; [reflexivity|]. by vm_compute.
  - destruct (verifyService_sound (H := demo_service_url) (H0 := demo_assign) (H1 := demo_url) (H2 := demo_env) (H3 := demo_iam)
      (H4 := demo_random) (H5 := demo_platform) demo_manifest None demo_authorizer demo_service (demo_subrequest []) demo_world)
      as (requestId & r & w' & Hr & _ & _ & Ho); [by vm_compute|apply demo_ids|apply demo_world_ok|].
    exists requestId, r, w'. exact (conj Hr Ho).
Defined.
