(* ===== verification/Authority.v ===== *)
(** IAM's authority: what a principal holds at an application, until when, and what it may delegate.

    [iam/src/roles.ts] and [iam/src/resolve.ts] (roles, the union of grants, deadlines, the login flow),
    [iam/src/contract-rules.ts] (what may not be granted) and [iam/src/delegation.ts] (what an issuer still covers).
    The database is the environment's: the class [Repositories] of lookups, and for logins [UserPrincipalStore]. *)

From S2P Require Import Prelude Permissions Token.
From Stdlib Require Import ZArith Lia String Ascii.
From stdpp Require Import base tactics strings gmap list.

(** ** Rows *)

Inductive PrincipalAffiliation := Internal | External.

#[global] Instance PrincipalAffiliation_eq_dec : EqDecision PrincipalAffiliation.
Proof. solve_decision. Defined.

(** A JSON text column is the value [JSON.parse] reads from it; [None] when it throws. *)
Record GrantRow := mkGrant {
  grant_app : option string;
  grant_role_key : option string;
  grant_permissions : option (option json);
  grant_scope_type : option string;
  grant_scope_value : option string;
  grant_expires_at : option Z;
}.

Record PrincipalRow := mkPrincipal {
  pr_id : string;
  pr_is_user : bool;
  pr_external_id : option string;
  pr_email : option string;
  pr_label : string;
  pr_disabled_at : option Z;
  pr_activated_at : option Z;
  pr_affiliation : PrincipalAffiliation;
}.

Record RoleRow := mkRoleRow {
  rr_role_key : string;
  rr_permissions : option json;
  rr_member_scope : option string;
  rr_external : bool;
}.

(** [RoleDef]; [role_member] is the scope of a membership role. *)
Record RoleDef := mkRole { role_permissions : list string; role_member : option string; role_external : bool }.

(** [parseJsonStringArray] *)
Definition parseStoredPermissions (value : option json) : list string :=
  match value with
  | Some (JArr items) => omap (fun item => match item with JStr s => Some s | _ => None end) items
  | _ => []
  end.

(** NFC changes nothing below 256. *)
Definition normalizeEmailIdentity (value : string) : string := Js.toLowerCase (Js.trim value).

Inductive PrincipalStatus := StatusDisabled | StatusInvited | StatusActive.

Definition principalStatus (row : PrincipalRow) : PrincipalStatus :=
  if is_some (pr_disabled_at row) then StatusDisabled
  else if pr_is_user row && negb (is_some (pr_activated_at row)) then StatusInvited
  else StatusActive.

Definition is_disabled (row : PrincipalRow) : bool := match principalStatus row with StatusDisabled => true | _ => false end.

(** ** roles.ts *)

Definition BUILTIN_ROLES : list (string * RoleDef) := [("admin", mkRole ["*"] None false)].

(** [makeRoleSource(appRoles).getRole]; a built-in wins. *)
Definition getRole (appRoles : list (string * RoleDef)) (key : string) : option RoleDef :=
  match lookup_field key BUILTIN_ROLES with
  | Some role => Some role
  | None => lookup_field key appRoles
  end.

Definition isKnownRole (key : string) (appRoles : list (string * RoleDef)) : bool :=
  is_some (lookup_field key BUILTIN_ROLES) || is_some (lookup_field key appRoles).

Definition toRoleDef (row : RoleRow) : RoleDef :=
  mkRole (parseStoredPermissions (rr_permissions row)) (rr_member_scope row) (rr_external row).

(** ** resolve.ts *)

Record ResolutionInputs := mkInputs {
  in_grants : list GrantRow;
  in_isBootstrapAdmin : bool;
  in_affiliation : PrincipalAffiliation;
  in_exactActions : bool;
}.

Record HeldEntry := mkHeld { held_action : string; held_scope : option Scope; held_until : option Z }.

Record ResolvedAuthority := mkAuthority { au_permissions : list PermissionEntry; au_supports : list HeldEntry }.

Definition rowScope (scopeType scopeValue : option string) : option Scope :=
  match scopeType, scopeValue with Some t, Some v => Some (mkScope t v) | _, _ => None end.

(** What the resolution accumulates: [entries] with [seen], and the map [supports] in its insertion order. *)
Record Accumulated := mkAcc {
  acc_entries : list PermissionEntry;
  acc_seen : list string;
  acc_supports : list (string * HeldEntry);
}.

Definition scopeKey (scope : option Scope) : string :=
  match scope with None => "" | Some s => scope_type s +:+ ":" +:+ scope_value s end.

Definition supportKey (action : string) (scope : option Scope) : string := action +:+ " " +:+ scopeKey scope.

Definition max_until (a b : option Z) : option Z :=
  match a, b with Some x, Some y => Some (Z.max x y) | _, _ => None end.

(** [supports.set], or the update of the held entry in place. *)
Fixpoint support (key : string) (held : HeldEntry) (l : list (string * HeldEntry)) : list (string * HeldEntry) :=
  match l with
  | [] => [(key, held)]
  | (k, h) :: rest =>
      if (k =? key)%string
      then (k, mkHeld (held_action h) (held_scope h) (max_until (held_until h) (held_until held))) :: rest
      else (k, h) :: support key held rest
  end.

Definition add (exact : bool) (action : string) (scope : option Scope) (source : PermissionSource) (until : option Z)
    (acc : Accumulated) : Accumulated :=
  if exact && Js.includes action "*" then acc
  else
    let supports := support (supportKey action scope) (mkHeld action scope until) (acc_supports acc) in
    let key := supportKey action scope +:+ " " +:+ sourceText source in
    if Js.elem key (acc_seen acc) then mkAcc (acc_entries acc) (acc_seen acc) supports
    else mkAcc (acc_entries acc ++ [mkEntry action scope source]) (acc_seen acc ++ [key]) supports.

Definition add_all (exact : bool) (actions : list string) (scope : option Scope) (source : PermissionSource)
    (until : option Z) (acc : Accumulated) : Accumulated :=
  foldl (fun acc action => add exact action scope source until acc) acc actions.

(** The actions a grant contributes: [expandRole], or the inline patterns. *)
Definition expandRole (appRoles : list (string * RoleDef)) (external : bool) (roleKey : string) (scope : option Scope)
    : list string :=
  match getRole appRoles roleKey with
  | None => []
  | Some role =>
      if external && negb (role_external role) then []
      else match role_member role with
           | None => role_permissions role
           | Some dimension =>
               if bool_decide (scope_type <$> scope = Some dimension) then role_permissions role else []
           end
  end.

Definition grant_actions (appRoles : list (string * RoleDef)) (external : bool) (grant : GrantRow) : list string :=
  if external && (negb (is_some (grant_app grant)) || negb (is_some (grant_role_key grant))) then []
  else match grant_role_key grant with
       | Some key => expandRole appRoles external key (rowScope (grant_scope_type grant) (grant_scope_value grant))
       | None => match grant_permissions grant with Some stored => parseStoredPermissions stored | None => [] end
       end.

Definition is_external (affiliation : PrincipalAffiliation) : bool := bool_decide (affiliation = External).

Definition computeAuthority (inputs : ResolutionInputs) (appRoles : list (string * RoleDef)) : ResolvedAuthority :=
  let external := is_external (in_affiliation inputs) in
  let exact := in_exactActions inputs in
  let acc := foldl (fun acc grant =>
               add_all exact (grant_actions appRoles external grant)
                 (rowScope (grant_scope_type grant) (grant_scope_value grant)) SourceGrant (grant_expires_at grant) acc)
             (mkAcc [] [] []) (in_grants inputs) in
  let acc := if in_isBootstrapAdmin inputs && negb external
             then add_all exact (expandRole appRoles external "admin" None) None SourceBootstrap None acc else acc in
  mkAuthority (acc_entries acc) (map snd (acc_supports acc)).

Definition computePermissions (inputs : ResolutionInputs) (appRoles : list (string * RoleDef)) : list PermissionEntry :=
  au_permissions (computeAuthority inputs appRoles).

(** Whether a held entry covers a carried one. *)
Definition covers (held : HeldEntry) (entry : PermissionEntry) : bool :=
  match held_scope held with
  | None => true
  | Some hs => match scope entry with Some es => same_scope hs es | None => false end
  end && matchAction (held_action held) (action entry).

(** The inner loop of [authorityDeadline]: [None] is [undefined], [Some None] is [null]. *)
Fixpoint latestSupport (supports : list HeldEntry) (entry : PermissionEntry) (latest : option (option Z)) : option (option Z) :=
  match supports with
  | [] => latest
  | held :: rest =>
      if negb (covers held entry) then latestSupport rest entry latest
      else
        latestSupport rest entry
          (Some match held_until held, latest with
                | None, _ | _, Some None => None
                | Some u, None => Some u
                | Some u, Some (Some l) => Some (Z.max l u)
                end)
  end.

Definition earlier (until deadline : option Z) : option Z :=
  match until, deadline with
  | Some u, None => Some u
  | Some u, Some d => if (u <? d)%Z then Some u else Some d
  | None, _ => deadline
  end.

Definition authorityDeadline (supports : list HeldEntry) (carried : list PermissionEntry) (now : Z) : option Z :=
  foldl (fun deadline entry => earlier (default (Some now) (latestSupport supports entry None)) deadline) None carried.

(** ** The database *)

Record Workload := mkWorkload { wl_kind : WorkloadKind; wl_app : string; wl_name : string }.
Record WorkloadDeclaration := mkDeclaration { wd_actions : list string; wd_issues : option string }.

(** The lookups the resolution reads, of one consistent state of the database, and the configuration. *)
Class Repositories := {
  db_getPrincipalById : string -> option PrincipalRow;
  db_getActiveGrantsForApp : string -> string -> bool -> list GrantRow;
  db_listRoles : string -> list RoleRow;
  db_isContractApp : string -> bool;
  db_getRole : string -> string -> option RoleRow;
  db_getByPrincipal : string -> option Workload;
  db_declaration : string -> string -> option WorkloadDeclaration;
  platformAudiences : list string;
  bootstrapAdmins : list string;
}.

Section Resolution.
Context `{Repositories}.

(** A later row of one key overwrites an earlier one. *)
Definition loadRoleSource (app : option string) : list (string * RoleDef) :=
  match app with
  | None => []
  | Some app => rev (map (fun row => (rr_role_key row, toRoleDef row)) (db_listRoles app))
  end.

Definition reachesCrossAppAuthority (app : string) : bool := Js.elem app platformAudiences.

Definition resolutionInputs (principal : PrincipalRow) (app : string) : ResolutionInputs :=
  let crossApp := reachesCrossAppAuthority app in
  mkInputs (db_getActiveGrantsForApp (pr_id principal) app crossApp)
    (crossApp && pr_is_user principal && bool_decide (pr_affiliation principal = Internal)
     && match pr_email principal with None => false | Some email => Js.elem (normalizeEmailIdentity email) bootstrapAdmins end)
    (pr_affiliation principal) (db_isContractApp app).

Definition resolveAuthorityAt (principal : PrincipalRow) (app : string) : ResolvedAuthority :=
  computeAuthority (resolutionInputs principal app) (loadRoleSource (Some app)).

Definition resolvePermissionsAt (principal : PrincipalRow) (app : string) : list PermissionEntry :=
  au_permissions (resolveAuthorityAt principal app).

(** ** contract-rules.ts *)

Definition firstWildcard (patterns : list string) : option string := List.find (fun p => Js.includes p "*") patterns.

Definition wildcard_problem (wildcard : string) : string :=
  "a contract application lists exact actions, not the wildcard: " +:+ wildcard.

Definition contractPatternsProblem (app : string) (patterns : list string) : option string :=
  match firstWildcard patterns with
  | None => None
  | Some wildcard => if negb (db_isContractApp app) then None else Some (wildcard_problem wildcard)
  end.

Definition contractGrantProblem (app roleKey : option string) (permissions : option (list string)) (scopeType : option string)
    : option string :=
  match app with
  | None => None
  | Some app =>
      let role := key ← roleKey; if is_some (lookup_field key BUILTIN_ROLES) then None else db_getRole app key in
      match r ← role; m ← rr_member_scope r; if bool_decide (scopeType = Some m) then None else Some (r, m) with
      | Some (r, m) => Some ("membership role '" +:+ rr_role_key r +:+ "' is granted only in a value of scope '" +:+ m +:+ "'")
      | None =>
          if negb (db_isContractApp app) then None
          else match roleKey with
               | None => wildcard_problem <$> firstWildcard (default [] permissions)
               | Some key =>
                   let listed := match role with
                                 | None => match lookup_field key BUILTIN_ROLES with Some b => role_permissions b | None => [] end
                                 | Some r => parseStoredPermissions (rr_permissions r)
                                 end in
                   (fun w => "role '" +:+ key +:+ "' lists the wildcard " +:+ w +:+ " and cannot be granted in a contract application")
                     <$> firstWildcard listed
               end
      end
  end.

Definition externalGrantProblem (affiliation : PrincipalAffiliation) (app roleKey : option string) : option string :=
  if negb (is_external affiliation) then None
  else match app, roleKey with
       | None, _ => Some "an external principal holds no cross-app grant"
       | Some _, None => Some "an external principal holds no inline permissions, only a role its application declares external"
       | Some app, Some key =>
           let role := if is_some (lookup_field key BUILTIN_ROLES) then None else db_getRole app key in
           match role with
           | Some r => if rr_external r then None
                       else Some ("an external principal holds only a role its application declares external, and '" +:+ key +:+ "' is not one")
           | None => Some ("an external principal holds only a role its application declares external, and '" +:+ key +:+ "' is not one")
           end
       end.

(** ** delegation.ts *)

Definition PROVISIONING_ADMIN_ID : string := "provisioning-admin".
Definition IAM_APP_ID : string := "propustka".
Definition IAM_ADMIN : string := "iam.admin".

Record DelegatedAction := mkDelegated { del_action : string; del_on : list (option Scope) }.

(** The latest support of one action among the values it is held on. *)
Fixpoint latestOn (authority : ResolvedAuthority) (act : string) (on : list (option Scope)) (now : Z) (latest : option (option Z))
    : option (option Z) :=
  match on with
  | [] => latest
  | sc :: rest =>
      if negb (permits (au_permissions authority) act sc) then latestOn authority act rest now latest
      else
        let until := authorityDeadline (au_supports authority) [mkEntry act sc SourceGrant] now in
        latestOn authority act rest now
          (Some match latest with
                | None => until
                | Some l => max_until l until
                end)
  end.

(** The loop over the required actions: [None] refuses. *)
Fixpoint requiredUntil (authority : ResolvedAuthority) (required : list DelegatedAction) (now : Z) (expiresAt : option Z)
    : option (option Z) :=
  match required with
  | [] => Some expiresAt
  | d :: rest =>
      match latestOn authority (del_action d) (del_on d) now None with
      | None => None
      | Some latest => requiredUntil authority rest now (earlier latest expiresAt)
      end
  end.

(** [None] is [issuer_unauthorized]; [now] is the clock. *)
Definition issuerAuthority (issuerId : option string) (app : string) (mount : option string) (required : list DelegatedAction)
    (now : Z) : option (option Z) :=
  match id ← issuerId; db_getPrincipalById id with
  | None => None
  | Some issuer =>
      if is_disabled issuer then None
      else if (pr_id issuer =? PROVISIONING_ADMIN_ID)%string then Some None
      else match db_getByPrincipal (pr_id issuer) with
           | Some workload =>
               let declaration := if bool_decide (wl_kind workload = KindJob) && (wl_app workload =? app)%string
                                  then db_declaration app (wl_name workload) else None in
               match declaration, mount with
               | Some d, Some m =>
                   if negb (bool_decide (wd_issues d = Some m)) then None
                   else if forallb (fun r => Js.elem (del_action r) (wd_actions d)) required then Some None else None
               | _, _ => None
               end
           | None => requiredUntil (resolveAuthorityAt issuer app) required now None
           end
  end.

Definition issuerCoverage (issuerId app : string) (permissions : list PermissionEntry) (now : Z)
    : option (list PermissionEntry * option Z) :=
  if (issuerId =? PROVISIONING_ADMIN_ID)%string then Some (permissions, None)
  else match db_getPrincipalById issuerId with
       | None => None
       | Some issuer =>
           if is_disabled issuer then None
           else
             let installation := resolveAuthorityAt issuer IAM_APP_ID in
             if permits (au_permissions installation) IAM_ADMIN None then
               Some (permissions, authorityDeadline (au_supports installation) [mkEntry IAM_ADMIN None SourceGrant] now)
             else
               let authority := resolveAuthorityAt issuer app in
               let covered := List.filter (fun e => permits (au_permissions authority) (action e) (scope e)) permissions in
               Some (covered, authorityDeadline (au_supports authority) covered now)
       end.

End Resolution.

(** ** Contributions

    What [computeAuthority] adds, in order: an entry and the expiry of the grant behind it. *)

Definition contribution : Type := PermissionEntry * option Z.

Definition grant_contributions (appRoles : list (string * RoleDef)) (external : bool) (grant : GrantRow) : list contribution :=
  map (fun act => (mkEntry act (rowScope (grant_scope_type grant) (grant_scope_value grant)) SourceGrant, grant_expires_at grant))
    (grant_actions appRoles external grant).

Definition contributions (inputs : ResolutionInputs) (appRoles : list (string * RoleDef)) : list contribution :=
  let external := is_external (in_affiliation inputs) in
  flat_map (grant_contributions appRoles external) (in_grants inputs)
  ++ (if in_isBootstrapAdmin inputs && negb external
      then map (fun act => (mkEntry act None SourceBootstrap, None)) (expandRole appRoles external "admin" None) else []).

Definition exact_ok (exact : bool) (act : string) : bool := negb (exact && Js.includes act "*").

Definition add_contribution (exact : bool) (acc : Accumulated) (c : contribution) : Accumulated :=
  add exact (action c.1) (scope c.1) (source c.1) c.2 acc.

Lemma foldl_map {A B X} (f : X -> B -> X) (g : A -> B) l x : foldl f x (map g l) = foldl (fun x a => f x (g a)) x l.
Proof. revert x. induction l as [|a l IH]; intros x; [done|]. apply IH. Qed.

Lemma add_all_contributions exact actions sc src until acc :
  add_all exact actions sc src until acc =
  foldl (add_contribution exact) acc (map (fun act => (mkEntry act sc src, until)) actions).
Proof. by rewrite foldl_map. Qed.

Lemma foldl_flat_map {A B X} (f : X -> B -> X) (g : A -> list B) l x :
  foldl (fun x a => foldl f x (g a)) x l = foldl f x (flat_map g l).
Proof. revert x. induction l as [|a l IH]; intros x; [done|]. cbn. by rewrite foldl_app, IH. Qed.

Lemma foldl_ext {A X} (f g : X -> A -> X) l x : (forall x a, f x a = g x a) -> foldl f x l = foldl g x l.
Proof. intros H. revert x. induction l as [|a l IH]; intros x; [done|]. cbn. by rewrite H, IH. Qed.

Definition accumulate (exact : bool) (l : list contribution) (acc : Accumulated) : Accumulated :=
  foldl (add_contribution exact) acc l.

Lemma computeAuthority_accumulate inputs appRoles :
  computeAuthority inputs appRoles =
  let acc := accumulate (in_exactActions inputs) (contributions inputs appRoles) (mkAcc [] [] []) in
  mkAuthority (acc_entries acc) (map snd (acc_supports acc)).
Proof.
  unfold computeAuthority, contributions, accumulate. cbn zeta. rewrite foldl_app.
  erewrite foldl_ext by (intros; apply add_all_contributions). rewrite foldl_flat_map.
  destruct (_ && _); [|done]. by rewrite add_all_contributions.
Qed.

(** The key entries are deduplicated by. *)
Definition entryKey (e : PermissionEntry) : string := supportKey (action e) (scope e) +:+ " " +:+ sourceText (source e).

Record acc_ok (acc : Accumulated) : Prop := {
  ok_seen : acc_seen acc = map entryKey (acc_entries acc);
  ok_nodup : NoDup (acc_seen acc);
}.

Lemma add_ok exact c acc : acc_ok acc -> acc_ok (add_contribution exact acc c).
Proof.
  intros [Hs Hn]. unfold add_contribution, add. destruct (exact && _); [done|]. cbn zeta.
  destruct (Js.elem _ (acc_seen acc)) eqn:He; constructor; cbn [acc_seen acc_entries]; try done.
  - rewrite Hs, map_app. by destruct c as [[] ?].
  - apply NoDup_app. split_and!; [done| |apply NoDup_singleton]. intros x Hx ->%list_elem_of_singleton.
    apply elem_spec in Hx. congruence.
Qed.

(** What one [add] does to the entries. *)
Lemma add_entries exact c acc e :
  e ∈ acc_entries (add_contribution exact acc c) ->
  e ∈ acc_entries acc \/ (e = c.1 /\ exact_ok exact (action e) = true).
Proof.
  unfold add_contribution, add, exact_ok. destruct (exact && Js.includes (action c.1) "*") eqn:Ex; [by left|]. cbn zeta.
  destruct (Js.elem _ _); cbn; [by left|]. rewrite elem_of_app, list_elem_of_singleton.
  intros [?| ->]; [by left|right]. destruct c as [[] ?]; cbn in *. by rewrite Ex.
Qed.

Lemma add_grows exact c acc e : e ∈ acc_entries acc -> e ∈ acc_entries (add_contribution exact acc c).
Proof.
  unfold add_contribution, add. destruct (exact && _); [done|]. cbn zeta. destruct (Js.elem _ _); [done|].
  cbn. rewrite elem_of_app. by left.
Qed.

Lemma add_covers exact c acc :
  acc_ok acc -> exact_ok exact (action c.1) = true ->
  exists e, e ∈ acc_entries (add_contribution exact acc c) /\ entryKey e = entryKey c.1.
Proof.
  intros [Hs Hn]. unfold add_contribution, add, exact_ok. destruct (exact && _); [done|]. intros _. cbn zeta.
  destruct (Js.elem _ (acc_seen acc)) eqn:He; cbn.
  - apply elem_spec in He. rewrite Hs in He. apply list_elem_of_fmap in He as (e & He & Hin). exists e. by split.
  - exists c.1. split; [|done]. rewrite elem_of_app, list_elem_of_singleton. right. by destruct c as [[] ?].
Qed.

Lemma accumulate_ok exact l acc : acc_ok acc -> acc_ok (accumulate exact l acc).
Proof. revert acc. induction l as [|c l IH]; intros acc H; [done|]. apply IH. by apply add_ok. Qed.

Lemma accumulate_sound exact l acc e :
  e ∈ acc_entries (accumulate exact l acc) ->
  e ∈ acc_entries acc \/ exists until, (e, until) ∈ l /\ exact_ok exact (action e) = true.
Proof.
  revert acc. induction l as [|[e0 u0] l IH]; intros acc; [by left|]. intros [H|(u & Hin & Hx)]%IH.
  - apply add_entries in H as [H|[-> Hx]]; [by left|]. right. exists u0. split; [left|done].
  - right. exists u. split; [by right|done].
Qed.

Lemma accumulate_grows exact l acc e : e ∈ acc_entries acc -> e ∈ acc_entries (accumulate exact l acc).
Proof. revert acc. induction l as [|c l IH]; intros acc H; [done|]. apply IH. by apply add_grows. Qed.

Lemma accumulate_complete exact l acc e until :
  acc_ok acc -> (e, until) ∈ l -> exact_ok exact (action e) = true ->
  exists e', e' ∈ acc_entries (accumulate exact l acc) /\ entryKey e' = entryKey e.
Proof.
  revert acc. induction l as [|c l IH]; intros acc Ha Hin Hx; [set_solver|]. apply elem_of_cons in Hin as [<-|Hin].
  - destruct (add_covers exact (e, until) acc Ha Hx) as (e' & He & Hk). exists e'. split; [|done].
    exact (accumulate_grows exact l _ _ He).
  - apply (IH (add_contribution exact acc c)); [by apply add_ok|done|done].
Qed.

Lemma acc_ok_empty : acc_ok (mkAcc [] [] []).
Proof. split; [done|constructor]. Qed.

(** Entries whose keys cannot collide: no scope type holds a colon, no action a space. *)
Definition no_colon (s : string) : bool := Js.forall_units (fun c => negb (Ascii.eqb c ":")) s.
Definition no_blank (s : string) : bool := Js.forall_units (fun c => negb (Ascii.eqb c " ")) s.

Definition plain_entry (e : PermissionEntry) : bool :=
  no_blank (action e) && match scope e with None => true | Some s => no_colon (scope_type s) end.

Lemma split_unit_inj c a b s t :
  Js.forall_units (fun d => negb (Ascii.eqb d c)) a = true -> Js.forall_units (fun d => negb (Ascii.eqb d c)) b = true ->
  a +:+ String c s = b +:+ String c t -> a = b /\ s = t.
Proof.
  revert b. induction a as [|x a IH]; intros [|y b] Ha Hb H; cbn in *.
  - by injection H.
  - injection H as <- _. by rewrite Ascii.eqb_refl in Hb.
  - injection H as -> _. by rewrite Ascii.eqb_refl in Ha.
  - to_prop. injection H as -> H. destruct (IH b) as [-> ->]; done.
Qed.

Lemma str_app_inj_r a b c : a +:+ c = b +:+ c -> a = b.
Proof.
  revert b. induction a as [|x a IH]; intros [|y b] H; cbn in H; try done.
  - exfalso. apply (f_equal String.length) in H. cbn in H. rewrite str_length_app in H. lia.
  - exfalso. apply (f_equal String.length) in H. cbn in H. rewrite str_length_app in H. lia.
  - injection H as -> H. f_equal. auto.
Qed.

Lemma scopeKey_inj s s' :
  match s with None => true | Some s => no_colon (scope_type s) end = true ->
  match s' with None => true | Some s => no_colon (scope_type s) end = true ->
  scopeKey s = scopeKey s' -> s = s'.
Proof.
  destruct s as [[t v]|], s' as [[t' v']|]; cbn; try done.
  - intros Ht Ht' H. destruct (split_unit_inj ":" t t' v v' Ht Ht' H) as [-> ->]. done.
  - intros _ _ H. by destruct t.
  - intros _ _ H. by destruct t'.
Qed.

Definition short_source (s : PermissionSource) : bool := match s with SourceGrant | SourceBootstrap => true | _ => false end.

Lemma str_app_suffix a b s t :
  a +:+ s = b +:+ t -> String.length s = String.length t -> s = t.
Proof.
  revert b. induction a as [|x a IH]; intros [|y b] H Hl; cbn in H; try done.
  - subst s. cbn in Hl. rewrite str_length_app in Hl. lia.
  - subst t. cbn in Hl. rewrite str_length_app in Hl. lia.
  - injection H as _ H. eauto.
Qed.

Lemma entryKey_inj e e' :
  plain_entry e = true -> plain_entry e' = true -> short_source (source e) = true -> short_source (source e') = true ->
  entryKey e = entryKey e' -> e = e'.
Proof.
  destruct e as [a s src], e' as [a' s' src']. unfold plain_entry, entryKey, supportKey. cbn -[String.append].
  intros Hp Hp' Hs Hs' H. to_prop.
  assert (src = src') as <-.
  { destruct src, src'; try done; exfalso.
    - cbn [sourceText] in H; change "bootstrap" with ("boot" +:+ "strap") in H; rewrite !str_app_assoc in H.
      by apply str_app_suffix in H.
    - cbn [sourceText] in H; change "bootstrap" with ("boot" +:+ "strap") in H; rewrite !str_app_assoc in H.
      by apply str_app_suffix in H. }
  rewrite !str_app_assoc in H. apply str_app_inj_r in H. apply str_app_inj_r in H. rewrite <- !str_app_assoc in H.
  apply split_unit_inj in H as [-> H]; [|done|done]. apply scopeKey_inj in H as ->; done.
Qed.

(** What an entry of the resolution comes from, and until when that lasts. *)
Definition resolved_until (inputs : ResolutionInputs) (appRoles : list (string * RoleDef)) (e : PermissionEntry) (until : option Z) : Prop :=
  exact_ok (in_exactActions inputs) (action e) = true /\
  ((exists grant, grant ∈ in_grants inputs /\
      action e ∈ grant_actions appRoles (is_external (in_affiliation inputs)) grant /\
      scope e = rowScope (grant_scope_type grant) (grant_scope_value grant) /\ source e = SourceGrant /\ until = grant_expires_at grant) \/
   (in_isBootstrapAdmin inputs = true /\ in_affiliation inputs <> External /\
      action e ∈ expandRole appRoles false "admin" None /\ scope e = None /\ source e = SourceBootstrap /\ until = None)).

Definition resolved_from (inputs : ResolutionInputs) (appRoles : list (string * RoleDef)) (e : PermissionEntry) : Prop := exists until, resolved_until inputs appRoles e until.

Lemma contributions_lasting inputs appRoles e until :
  exact_ok (in_exactActions inputs) (action e) = true /\ (e, until) ∈ contributions inputs appRoles <-> resolved_until inputs appRoles e until.
Proof.
  unfold resolved_until, contributions, grant_contributions. apply and_iff_compat_l. cbn zeta. rewrite elem_of_app. unfold is_external. split.
  - intros [Hin|Hin].
    + left. apply list_elem_of_In, in_flat_map in Hin as (g & Hg & Hin).
      apply in_map_iff in Hin as (act & [= <- <-] & Hin). exists g. rewrite !list_elem_of_In. done.
    + right. destruct (in_isBootstrapAdmin inputs), (decide (in_affiliation inputs = External)) as [E|E];
        try (rewrite (bool_decide_eq_true_2 _ E) in Hin || rewrite (bool_decide_eq_false_2 _ E) in Hin); cbn in Hin; try set_solver.
  - intros [(g & Hg & Hact & Hsc & Hsrc & ->)|(Hb & Ha & Hact & Hsc & Hsrc & ->)]; destruct e as [act sc src]; cbn in *; subst.
    + left. apply list_elem_of_In, in_flat_map. exists g. rewrite <- !list_elem_of_In. split; [done|].
      apply list_elem_of_fmap. by exists act.
    + right. rewrite Hb, (bool_decide_eq_false_2 _ Ha). apply list_elem_of_fmap. by exists act.
Qed.

Lemma contributions_contributed inputs appRoles e :
  exact_ok (in_exactActions inputs) (action e) = true /\ (exists until, (e, until) ∈ contributions inputs appRoles) <->
  resolved_from inputs appRoles e.
Proof. unfold resolved_from. setoid_rewrite <- contributions_lasting. naive_solver. Qed.

Lemma computeAuthority_sound inputs appRoles e :
  e ∈ au_permissions (computeAuthority inputs appRoles) -> resolved_from inputs appRoles e.
Proof.
  rewrite computeAuthority_accumulate. cbn. intros [H|(u & Hin & Hx)]%accumulate_sound; [set_solver|].
  apply contributions_contributed. eauto.
Qed.

Lemma contributed_short inputs appRoles e : resolved_from inputs appRoles e -> short_source (source e) = true.
Proof. intros (? & _ & [(? & _ & _ & _ & -> & _)|(_ & _ & _ & _ & -> & _)]); done. Qed.

(** ** Deadlines *)

Definition alive (until : option Z) (t : Z) : Prop := match until with None => True | Some u => (t < u)%Z end.

Definition supported (r : option (option Z)) (t : Z) : Prop := match r with None => False | Some u => alive u t end.

Lemma alive_earlier u d t : alive (earlier u d) t <-> alive u t /\ alive d t.
Proof. destruct u as [u|], d as [d|]; cbn; try tauto. destruct (Z.ltb_spec u d); cbn; lia. Qed.

Lemma alive_max a b t : alive (max_until a b) t <-> alive a t \/ alive b t.
Proof. destruct a as [a|], b as [b|]; cbn; try tauto. lia. Qed.

Lemma latestSupport_spec supports e latest t :
  supported (latestSupport supports e latest) t <->
  supported latest t \/ exists held, held ∈ supports /\ covers held e = true /\ alive (held_until held) t.
Proof.
  revert latest. induction supports as [|h supports IH]; intros latest; cbn [latestSupport]; [set_solver|].
  destruct (covers h e) eqn:Hc; cbn [negb]; rewrite IH.
  - assert (Hstep : supported (Some match held_until h, latest with
              | None, _ | _, Some None => None | Some u, None => Some u | Some u, Some (Some l) => Some (Z.max l u) end) t <->
            supported latest t \/ alive (held_until h) t).
    { destruct (held_until h) as [u|], latest as [[l|]|]; cbn; try tauto. lia. }
    rewrite Hstep. setoid_rewrite elem_of_cons. split.
    + intros [[?|?]|(x & ? & ? & ?)]; eauto 6.
    + intros [?|(x & [->|?] & ? & ?)]; eauto 6.
  - setoid_rewrite elem_of_cons. split.
    + intros [?|(x & ? & ? & ?)]; eauto 6.
    + intros [?|(x & [->|?] & ? & ?)]; [by left|congruence|]. eauto 6.
Qed.

(** From [now] on a deadline is exact; before it too, where what is carried is backed by a support. *)
Definition backed (supports : list HeldEntry) (carried : list PermissionEntry) : Prop :=
  forall e, e ∈ carried -> exists held, held ∈ supports /\ covers held e = true.

Lemma deadline_loop supports carried now d t :
  (now <= t)%Z \/ backed supports carried ->
  alive (foldl (fun deadline entry => earlier (default (Some now) (latestSupport supports entry None)) deadline) d carried) t <->
  alive d t /\ forall e, e ∈ carried -> exists held, held ∈ supports /\ covers held e = true /\ alive (held_until held) t.
Proof.
  revert d. induction carried as [|e carried IH]; intros d Ht; cbn [foldl]; [set_solver|].
  rewrite IH, alive_earlier by (destruct Ht as [?|Hb]; [by left|right; intros x Hx; apply Hb; by right]).
  assert (He : alive (default (Some now) (latestSupport supports e None)) t <->
               exists held, held ∈ supports /\ covers held e = true /\ alive (held_until held) t).
  { pose proof (latestSupport_spec supports e None t) as Hs. destruct (latestSupport supports e None) as [u|] eqn:El; cbn in *; [rewrite Hs; tauto|].
    split; [|by intros H; exfalso; tauto]. destruct Ht as [Ht|Hb]; [lia|]. destruct (Hb e ltac:(by left)) as (held & Hh & Hc). exfalso.
    assert (Hsome : is_Some (latestSupport supports e None)); [|rewrite El in Hsome; by destruct Hsome].
    clear -Hh Hc. generalize (@None (option Z)). induction supports as [|h supports IH]; intros latest; [by apply elem_of_nil in Hh|]. cbn [latestSupport].
    apply elem_of_cons in Hh as [<-|Hh]; [|by destruct (covers h e); cbn [negb]; apply IH]. rewrite Hc. cbn [negb].
    assert (Hk : forall supports latest, is_Some latest -> is_Some (latestSupport supports e latest)).
    { clear. intros supports. induction supports as [|h supports IH]; intros latest Hl; [done|]. cbn [latestSupport]. destruct (covers h e); cbn [negb]; by apply IH. }
    by apply Hk. }
  rewrite He. setoid_rewrite elem_of_cons. split.
  - intros [[H1 H2] H3]. split; [done|]. intros x [->|Hx]; auto.
  - intros [H1 H2]. split; [split|]; auto.
Qed.

(** Whether some held entry covers this one at [t]. *)
Definition holds_at (authority : ResolvedAuthority) (e : PermissionEntry) (t : Z) : Prop :=
  exists held, held ∈ au_supports authority /\ covers held e = true /\ alive (held_until held) t.

(** What the authority permits is backed. *)
Definition self_backed (authority : ResolvedAuthority) : Prop :=
  forall act sc, permits (au_permissions authority) act sc = true -> backed (au_supports authority) [mkEntry act sc SourceGrant].

Lemma authorityDeadline_alive authority carried now t :
  (now <= t)%Z \/ backed (au_supports authority) carried ->
  alive (authorityDeadline (au_supports authority) carried now) t <-> forall e, e ∈ carried -> holds_at authority e t.
Proof. intros Ht. unfold authorityDeadline. rewrite deadline_loop by done. cbn. unfold holds_at. tauto. Qed.

Lemma latestOn_spec authority act on now latest t :
  (now <= t)%Z \/ self_backed authority ->
  supported (latestOn authority act on now latest) t <->
  supported latest t \/
  exists sc, sc ∈ on /\ permits (au_permissions authority) act sc = true /\ holds_at authority (mkEntry act sc SourceGrant) t.
Proof.
  intros Ht. revert latest. induction on as [|sc on IH]; intros latest; cbn [latestOn]; [set_solver|].
  destruct (permits _ act sc) eqn:Hp; cbn [negb]; rewrite IH; setoid_rewrite elem_of_cons.
  - assert (Hstep : supported (Some match latest with
              | None => authorityDeadline (au_supports authority) [mkEntry act sc SourceGrant] now
              | Some l => max_until l (authorityDeadline (au_supports authority) [mkEntry act sc SourceGrant] now) end) t <->
            supported latest t \/ holds_at authority (mkEntry act sc SourceGrant) t).
    { assert (Ht' : (now <= t)%Z \/ backed (au_supports authority) [mkEntry act sc SourceGrant]) by (destruct Ht as [?|Hb]; auto).
      pose proof (authorityDeadline_alive authority [mkEntry act sc SourceGrant] now t Ht') as Ha.
      setoid_rewrite list_elem_of_singleton in Ha. destruct latest as [l|]; cbn [supported]; [rewrite alive_max|]; rewrite Ha; naive_solver. }
    rewrite Hstep. naive_solver.
  - split; intros [?|(x & Hx & Hpx & ?)]; [by left|right; exists x; split_and!; [by right|done..]|by left|].
    destruct Hx as [->|Hx]; [congruence|]. right. by exists x.
Qed.

Lemma latestOn_permits authority act on now latest : is_Some (latestOn authority act on now latest) ->
  is_Some latest \/ exists sc, sc ∈ on /\ permits (au_permissions authority) act sc = true.
Proof.
  revert latest. induction on as [|sc on IH]; intros latest; cbn [latestOn]; [by left|]. destruct (permits _ act sc) eqn:Hp; cbn [negb]; intros Hs.
  - right. exists sc. split; [by left|done].
  - destruct (IH _ Hs) as [?|(x & ? & ?)]; [by left|]. right. exists x. split; [by right|done].
Qed.

Lemma requiredUntil_permits authority required now expiresAt d : requiredUntil authority required now expiresAt = Some d ->
  forall r, r ∈ required -> exists sc, sc ∈ del_on r /\ permits (au_permissions authority) (del_action r) sc = true.
Proof.
  revert expiresAt. induction required as [|r required IH]; intros expiresAt; cbn [requiredUntil]; [set_solver|].
  destruct (latestOn authority (del_action r) (del_on r) now None) as [latest|] eqn:Hl; [|done].
  intros Hd r' [->|Hr]%elem_of_cons; [|by eapply IH]. destruct (latestOn_permits authority (del_action r) (del_on r) now None) as [[]|?]; [by rewrite Hl|done..].
Qed.

Lemma requiredUntil_spec authority required now expiresAt d t :
  (now <= t)%Z \/ self_backed authority -> requiredUntil authority required now expiresAt = Some d -> alive d t ->
  alive expiresAt t /\
  forall r, r ∈ required ->
    exists sc, sc ∈ del_on r /\ permits (au_permissions authority) (del_action r) sc = true /\
      holds_at authority (mkEntry (del_action r) sc SourceGrant) t.
Proof.
  intros Ht. revert expiresAt. induction required as [|r required IH]; intros expiresAt; cbn [requiredUntil].
  { intros [= <-]. set_solver. }
  destruct (latestOn authority (del_action r) (del_on r) now None) as [latest|] eqn:Hl; [|done].
  intros Hd Ha. destruct (IH _ Hd Ha) as [Hearly Hall]. apply alive_earlier in Hearly as [H1 H2].
  split; [done|]. intros r' [->|Hr]%elem_of_cons; [|by apply Hall].
  pose proof (latestOn_spec authority (del_action r) (del_on r) now None t Ht) as Hs. rewrite Hl in Hs.
  destruct (proj1 Hs H1) as [[]|Hx]. exact Hx.
Qed.

(** ** Properties *)

(** The role a grant names: the built-in [admin], which no row overrides, or the application's. *)
Definition named_role (appRoles : list (string * RoleDef)) (key : string) (role : RoleDef) : Prop :=
  (key = "admin" /\ role = mkRole ["*"] None false) \/ (key <> "admin" /\ lookup_field key appRoles = Some role).

(** A grant gives an action: through its role, a membership role only in a value of its own dimension, and to a person from outside
    only a role declared external that the application itself granted; or, inside the organization, through its inline list. *)
Definition gives (appRoles : list (string * RoleDef)) (affiliation : PrincipalAffiliation) (grant : GrantRow) (act : string) : Prop :=
  (exists key role, grant_role_key grant = Some key /\ named_role appRoles key role /\ act ∈ role_permissions role /\
     (forall dimension, role_member role = Some dimension -> grant_scope_type grant = Some dimension /\ grant_scope_value grant <> None) /\
     (affiliation = External -> role_external role = true /\ grant_app grant <> None)) \/
  (grant_role_key grant = None /\ affiliation <> External /\ exists items, grant_permissions grant = Some (Some (JArr items)) /\ JStr act ∈ items).

(** The entry holds where the grant does: in the scope its two columns name, or in the whole application. *)
Definition in_scope_of (grant : GrantRow) (sc : option Scope) : Prop :=
  match sc with
  | Some s => grant_scope_type grant = Some (scope_type s) /\ grant_scope_value grant = Some (scope_value s)
  | None => grant_scope_type grant = None \/ grant_scope_value grant = None
  end.

(** An entry a grant, or the bootstrap, contributes, and until when. *)
Definition contributed_until (inputs : ResolutionInputs) (appRoles : list (string * RoleDef)) (e : PermissionEntry) (until : option Z) : Prop :=
  (in_exactActions inputs = true -> Js.includes (action e) "*" = false) /\
  ((exists grant, grant ∈ in_grants inputs /\ gives appRoles (in_affiliation inputs) grant (action e) /\ in_scope_of grant (scope e) /\ source e = SourceGrant /\
      until = grant_expires_at grant) \/
   (in_isBootstrapAdmin inputs = true /\ in_affiliation inputs <> External /\ action e = "*" /\ scope e = None /\ source e = SourceBootstrap /\ until = None)).

Definition contributed (inputs : ResolutionInputs) (appRoles : list (string * RoleDef)) (e : PermissionEntry) : Prop :=
  exists until, contributed_until inputs appRoles e until.

Lemma getRole_named appRoles key role : getRole appRoles key = Some role <-> named_role appRoles key role.
Proof.
  unfold getRole, named_role. cbn -[String.eqb]. destruct (String.eqb_spec key "admin") as [->|Hne]; [|naive_solver]. cbn. naive_solver.
Qed.

Lemma stored_elem stored act : act ∈ parseStoredPermissions stored <-> exists items, stored = Some (JArr items) /\ JStr act ∈ items.
Proof.
  unfold parseStoredPermissions. split.
  - destruct stored as [[]|]; try by intros ?%elem_of_nil. intros (item & Hin & Hs)%list_elem_of_omap. destruct item; try done. injection Hs as ->. eauto.
  - intros (items & -> & Hin). apply list_elem_of_omap. eauto.
Qed.

Lemma expandRole_elem appRoles external key sc act : act ∈ expandRole appRoles external key sc <->
  exists role, named_role appRoles key role /\ act ∈ role_permissions role /\ (forall dimension, role_member role = Some dimension -> scope_type <$> sc = Some dimension) /\
    (external = true -> role_external role = true).
Proof.
  setoid_rewrite <- getRole_named. unfold expandRole. destruct (getRole appRoles key) as [role|]; [|split; [by intros ?%elem_of_nil|by intros (? & ? & _)]].
  destruct (external && negb (role_external role)) eqn:Hx.
  - apply andb_true_iff in Hx as [-> Hx%negb_true_iff]. split; [by intros ?%elem_of_nil|]. intros (? & [= <-] & _ & _ & Hr). specialize (Hr eq_refl). congruence.
  - assert (Hr : external = true -> role_external role = true) by (intros ->; by destruct (role_external role)).
    destruct (role_member role) as [dimension|] eqn:Em.
    + case_bool_decide as Hd.
      * split; [|by intros (? & [= <-] & ? & _)]. intros Hin. exists role. split_and!; [done..| |done]. intros d. rewrite Em. by intros [= <-].
      * split; [by intros ?%elem_of_nil|]. intros (? & [= <-] & _ & Hm & _). by destruct Hd; apply Hm.
    + split; [|by intros (? & [= <-] & ? & _)]. intros Hin. exists role. split_and!; [done..| |done]. intros d. by rewrite Em.
Qed.

Lemma rowScope_in_scope grant sc : sc = rowScope (grant_scope_type grant) (grant_scope_value grant) <-> in_scope_of grant sc.
Proof. unfold rowScope, in_scope_of. destruct sc as [[t v]|], (grant_scope_type grant), (grant_scope_value grant); cbn; naive_solver. Qed.

Lemma grant_gives appRoles affiliation grant act : act ∈ grant_actions appRoles (is_external affiliation) grant <-> gives appRoles affiliation grant act.
Proof.
  unfold grant_actions, gives. assert (Hx : is_external affiliation = true <-> affiliation = External) by apply bool_decide_eq_true. destruct (is_external affiliation) eqn:Ex; cbn [andb].
  - apply proj1 in Hx. specialize (Hx eq_refl). destruct (grant_app grant) as [app|]; cbn [is_some negb orb]; [|split; [by intros ?%elem_of_nil|naive_solver]].
    destruct (grant_role_key grant) as [key|]; cbn [is_some negb]; [|split; [by intros ?%elem_of_nil|naive_solver]]. rewrite expandRole_elem. unfold rowScope.
    destruct (grant_scope_type grant), (grant_scope_value grant); cbn; naive_solver.
  - assert (Hn : affiliation <> External) by (intros E%Hx; done). destruct (grant_role_key grant) as [key|].
    + rewrite expandRole_elem. unfold rowScope. destruct (grant_scope_type grant), (grant_scope_value grant); cbn; naive_solver.
    + destruct (grant_permissions grant) as [stored|]; [rewrite stored_elem; naive_solver|]. split; [by intros ?%elem_of_nil|naive_solver].
Qed.

Lemma contributed_lasting inputs appRoles e until : resolved_until inputs appRoles e until <-> contributed_until inputs appRoles e until.
Proof.
  assert (Hx : exact_ok (in_exactActions inputs) (action e) = true <-> (in_exactActions inputs = true -> Js.includes (action e) "*" = false)).
  { unfold exact_ok. destruct (in_exactActions inputs), (Js.includes (action e) "*"); cbn; naive_solver. }
  unfold resolved_until, contributed_until. setoid_rewrite grant_gives. setoid_rewrite rowScope_in_scope. rewrite Hx.
  change (expandRole appRoles false "admin" None) with ["*"]. by rewrite list_elem_of_singleton.
Qed.

Lemma contributed_iff inputs appRoles e : resolved_from inputs appRoles e <-> contributed inputs appRoles e.
Proof. unfold resolved_from, contributed. by setoid_rewrite contributed_lasting. Qed.

(** C24. What a principal holds is exactly what its grants contribute: each resolved entry is an action of a grant's role
    (in the role's own dimension) or inline set, at the grant's scope, or the bootstrap [admin]; each such action is held;
    a contract application gains no wildcard; and no entry repeats. The last two lines need no assumption; the first,
    that no action holds a space and no scope type a colon, since entries are deduplicated by a text key. *)
Theorem computePermissions_spec (inputs : ResolutionInputs) (appRoles : list (string * RoleDef)) :
  ((forall e, contributed inputs appRoles e -> plain_entry e = true) ->
     forall e, e ∈ computePermissions inputs appRoles <-> contributed inputs appRoles e) /\
  (forall e, e ∈ computePermissions inputs appRoles -> contributed inputs appRoles e) /\
  NoDup (computePermissions inputs appRoles).
Proof.
  setoid_rewrite <- contributed_iff. split_and!; [|apply computeAuthority_sound|].
  - intros Hplain e. split; [apply computeAuthority_sound|]. intros He. pose proof He as He'.
    apply contributions_contributed in He' as (Hx & u & Hin).
    unfold computePermissions. rewrite computeAuthority_accumulate. cbn [au_permissions].
    destruct (accumulate_complete (in_exactActions inputs) _ (mkAcc [] [] []) e u acc_ok_empty Hin Hx) as (e' & Hin' & Hk).
    assert (He2 : resolved_from inputs appRoles e').
    { apply computeAuthority_sound. by rewrite computeAuthority_accumulate. }
    apply entryKey_inj in Hk as ->; eauto using contributed_short.
  - unfold computePermissions. rewrite computeAuthority_accumulate. cbn [au_permissions].
    pose proof (accumulate_ok (in_exactActions inputs) (contributions inputs appRoles) _ acc_ok_empty) as [Hs Hn].
    rewrite Hs in Hn. by apply NoDup_fmap_1 in Hn.
Qed.

(** A person from outside the organization holds only what an application's own grant of a role declared external
    carries: never a cross-app grant, inline patterns, a built-in role or the bootstrap [admin]. *)
Theorem external_holds_external_roles (inputs : ResolutionInputs) (appRoles : list (string * RoleDef)) (e : PermissionEntry) :
  in_affiliation inputs = External -> e ∈ computePermissions inputs appRoles ->
  exists grant app key role,
    grant ∈ in_grants inputs /\ grant_app grant = Some app /\ grant_role_key grant = Some key /\
    lookup_field key BUILTIN_ROLES = None /\ lookup_field key appRoles = Some role /\ role_external role = true /\
    action e ∈ role_permissions role /\ source e = SourceGrant /\
    (forall dimension, role_member role = Some dimension -> scope_type <$> scope e = Some dimension).
Proof.
  intros Hext (u & _ & [(g & Hg & Hact & Hsc & Hsrc & _)|(_ & Hne & _)])%computeAuthority_sound; [|done].
  unfold is_external in Hact. rewrite (bool_decide_eq_true_2 _ Hext) in Hact.
  unfold grant_actions, expandRole, getRole in Hact. cbn [andb] in Hact.
  destruct (grant_app g) as [app|] eqn:Eapp; [|by apply elem_of_nil in Hact].
  destruct (grant_role_key g) as [key|] eqn:Ekey; [|by apply elem_of_nil in Hact]. cbn [is_some negb orb] in Hact.
  destruct (lookup_field key BUILTIN_ROLES) as [role|] eqn:Eb.
  { exfalso. cbn -[String.eqb] in Eb. destruct (String.eqb _ _); [|done]. injection Eb as <-. by apply elem_of_nil in Hact. }
  destruct (lookup_field key appRoles) as [role|] eqn:Er; [|by apply elem_of_nil in Hact].
  destruct (role_external role) eqn:Ex; cbn [negb] in Hact; [|by apply elem_of_nil in Hact].
  exists g, app, key, role. rewrite Hsc.
  destruct (role_member role) as [dim|] eqn:Em; [|by split_and!].
  case_bool_decide; [|by apply elem_of_nil in Hact]. split_and!; try done. by intros ? [= <-].
Qed.

(** [authorityDeadline] is when the carried authority first loses its support: at any moment from now on, the deadline
    has not passed exactly when every carried entry is covered by an entry still held. *)
Theorem authorityDeadline_spec (authority : ResolvedAuthority) (carried : list PermissionEntry) (now t : Z) :
  (now <= t)%Z ->
  alive (authorityDeadline (au_supports authority) carried now) t <-> forall e, e ∈ carried -> holds_at authority e t.
Proof. intros Ht. by apply authorityDeadline_alive; left. Qed.

(** ** What stands behind an authority

    The supports are kept by a text key, so what follows holds of a resolution whose keys cannot collide. *)

Definition plain_resolution (inputs : ResolutionInputs) (appRoles : list (string * RoleDef)) : Prop :=
  forall e, contributed inputs appRoles e -> plain_entry e = true.

(** At [t], a grant or the bootstrap still gives the action there. *)
Definition given_at (inputs : ResolutionInputs) (appRoles : list (string * RoleDef)) (act : string) (sc : option Scope) (t : Z) : Prop :=
  exists e until, contributed_until inputs appRoles e until /\ scopeOk e sc = true /\ matchAction (action e) act = true /\ alive until t.

Record backs (exact : bool) (l : list contribution) (acc : Accumulated) : Prop := {
  bk_entries e : e ∈ acc_entries acc -> exists h, (supportKey (action e) (scope e), h) ∈ acc_supports acc;
  bk_held k h : (k, h) ∈ acc_supports acc ->
    (exists e u, (e, u) ∈ l /\ exact_ok exact (action e) = true /\ supportKey (action e) (scope e) = k /\ action e = held_action h /\ scope e = held_scope h) /\
    forall t, alive (held_until h) t -> exists e u, (e, u) ∈ l /\ exact_ok exact (action e) = true /\ supportKey (action e) (scope e) = k /\ alive u t;
}.

Lemma support_elem key held l k h : (k, h) ∈ support key held l ->
  (k, h) ∈ l \/ k = key /\ (h = held \/ exists h0, (k, h0) ∈ l /\ h = mkHeld (held_action h0) (held_scope h0) (max_until (held_until h0) (held_until held))).
Proof.
  induction l as [|[k0 h0] l IH]; cbn [support]; [rewrite list_elem_of_singleton; intros [= -> ->]; auto|].
  destruct (String.eqb_spec k0 key) as [->|].
  - intros [[= -> ->]|Hin]%elem_of_cons; [|by left; right]. right. split; [done|]. right. exists h0. split; [left|done].
  - intros [[= -> ->]|Hin]%elem_of_cons; [left; left|]. destruct (IH Hin) as [?|[-> [->|(h1 & ? & ->)]]]; [left; by right|auto|].
    right. split; [done|]. right. exists h1. split; [by right|done].
Qed.

Lemma support_has key held l k : k = key \/ (exists h, (k, h) ∈ l) -> exists h, (k, h) ∈ support key held l.
Proof.
  induction l as [|[k0 h0] l IH]; cbn [support].
  - intros [->|[h Hh]]; [|by apply elem_of_nil in Hh]. exists held. left.
  - destruct (String.eqb_spec k0 key) as [->|Hne].
    + intros [->|[h Hh]]; [eexists; left|]. apply elem_of_cons in Hh as [[= -> ->]|Hh]; [eexists; left|]. exists h. by right.
    + intros [->|[h Hh]]; [destruct IH as [h ?]; [by left|]; exists h; by right|]. apply elem_of_cons in Hh as [[= -> ->]|Hh]; [eexists; left|].
      destruct IH as [h' ?]; [eauto|]. exists h'. by right.
Qed.

Lemma backs_mono exact l l' acc : l ⊆ l' -> backs exact l acc -> backs exact l' acc.
Proof.
  intros Hl [He Hh]. constructor; [done|]. intros k h Hin. destruct (Hh k h Hin) as [(e & u & ? & ?) Ht]. split; [exists e, u; split; [by apply Hl|done]|].
  intros t Ha. destruct (Ht t Ha) as (e' & u' & ? & ?). exists e', u'. split; [by apply Hl|done].
Qed.

Lemma add_backs exact l acc e u : backs exact l acc -> (e, u) ∈ l -> backs exact l (add_contribution exact acc (e, u)).
Proof.
  intros [He Hh] Hin. unfold add_contribution, add. cbn [fst snd]. destruct (exact && Js.includes (action e) "*") eqn:Ex; [done|]. cbn zeta.
  assert (Hok : exact_ok exact (action e) = true) by (unfold exact_ok; by rewrite Ex).
  set (key := supportKey (action e) (scope e)). set (held := mkHeld (action e) (scope e) u).
  assert (Hs : forall k h, (k, h) ∈ support key held (acc_supports acc) ->
    (exists e u, (e, u) ∈ l /\ exact_ok exact (action e) = true /\ supportKey (action e) (scope e) = k /\ action e = held_action h /\ scope e = held_scope h) /\
    forall t, alive (held_until h) t -> exists e u, (e, u) ∈ l /\ exact_ok exact (action e) = true /\ supportKey (action e) (scope e) = k /\ alive u t).
  { intros k h [Hk|[-> [->|(h0 & Hk & ->)]]]%support_elem; [by apply Hh| |].
    - split; [by exists e, u|]. intros t Ha. by exists e, u.
    - destruct (Hh _ _ Hk) as [Hx Ht]. split; [done|]. intros t [Ha|Ha]%alive_max; [by apply Ht|]. by exists e, u. }
  destruct (Js.elem _ (acc_seen acc)); constructor; cbn [acc_entries acc_supports]; try exact Hs.
  - intros e' He'. apply support_has. right. by apply He.
  - intros e' [He'|He']%elem_of_app; [apply support_has; right; by apply He|]. apply list_elem_of_singleton in He' as ->. apply support_has. by left.
Qed.

Lemma accumulate_backs exact l l' acc : backs exact l acc -> l' ⊆ l -> backs exact l (accumulate exact l' acc).
Proof.
  revert acc. induction l' as [|[e u] l' IH]; intros acc Hb Hl; [done|]. cbn. apply IH; [|intros x Hx; apply Hl; by right]. apply add_backs; [done|]. apply Hl. left.
Qed.

Lemma authority_backs inputs appRoles : exists acc, backs (in_exactActions inputs) (contributions inputs appRoles) acc /\
  acc_entries acc = au_permissions (computeAuthority inputs appRoles) /\ map snd (acc_supports acc) = au_supports (computeAuthority inputs appRoles).
Proof.
  exists (accumulate (in_exactActions inputs) (contributions inputs appRoles) (mkAcc [] [] [])). rewrite computeAuthority_accumulate. split; [|done].
  apply accumulate_backs; [|done]. constructor; [by intros e ?%elem_of_nil|by intros k h ?%elem_of_nil].
Qed.

Lemma supportKey_inj a a' s s' : plain_entry (mkEntry a s SourceGrant) = true -> plain_entry (mkEntry a' s' SourceGrant) = true -> supportKey a s = supportKey a' s' -> a = a' /\ s = s'.
Proof.
  unfold plain_entry, supportKey. cbn -[String.append]. intros H H' E. to_prop. apply split_unit_inj in E as [-> E]; [|done|done]. by apply scopeKey_inj in E as ->.
Qed.

(** What a support holds is given, and what is permitted has a support. *)
Lemma held_given inputs appRoles act sc src t : plain_resolution inputs appRoles ->
  holds_at (computeAuthority inputs appRoles) (mkEntry act sc src) t -> given_at inputs appRoles act sc t.
Proof.
  intros Hp (held & Hin & Hc & Ha). destruct (authority_backs inputs appRoles) as (acc & Hb & _ & Hs). rewrite <- Hs in Hin.
  apply list_elem_of_fmap in Hin as ([k h] & -> & Hin). cbn in *. destruct (bk_held _ _ _ Hb k h Hin) as [(e & u & He & Hx & Hk & Hact & Hsc) Ht].
  destruct (Ht t Ha) as (e' & u' & He' & Hx' & Hk' & Ha').
  assert (Hlast : contributed_until inputs appRoles e' u') by by apply contributed_lasting, contributions_lasting.
  assert (Hlast0 : contributed_until inputs appRoles e u) by by apply contributed_lasting, contributions_lasting.
  destruct (supportKey_inj (action e') (action e) (scope e') (scope e)) as [E1 E2]; [apply (Hp e'); by exists u'|apply (Hp e); by exists u|congruence|].
  exists e', u'. split; [done|]. unfold covers in Hc. cbn in Hc. apply andb_true_iff in Hc as [Hc Hm]. split; [|split; [congruence|done]].
  unfold scopeOk. rewrite E2, Hsc. exact Hc.
Qed.

Lemma resolution_backed inputs appRoles : plain_resolution inputs appRoles -> self_backed (computeAuthority inputs appRoles).
Proof.
  intros Hp act sc (h & Hh & Hsc & Hm)%permits_elem e He%list_elem_of_singleton. subst e. destruct (authority_backs inputs appRoles) as (acc & Hb & Hen & Hs).
  rewrite <- Hen in Hh. destruct (bk_entries _ _ _ Hb h Hh) as [held Hin]. exists held. split; [rewrite <- Hs; apply list_elem_of_fmap; by exists (supportKey (action h) (scope h), held)|].
  destruct (bk_held _ _ _ Hb _ _ Hin) as [(e & u & He & Hx & Hk & Hact & Hsc') _].
  assert (Hlast : contributed inputs appRoles e) by (exists u; by apply contributed_lasting, contributions_lasting).
  assert (Hlast' : contributed inputs appRoles h) by (apply contributed_iff, computeAuthority_sound; by rewrite <- Hen).
  destruct (supportKey_inj (action e) (action h) (scope e) (scope h)) as [E1 E2]; [by apply (Hp e)|by apply (Hp h)|done|].
  unfold covers. rewrite <- Hact, <- Hsc', E1, E2. cbn. unfold scopeOk in Hsc. apply andb_true_iff. split; [exact Hsc|done].
Qed.

(** Before its deadline, what is carried of an authority is still given. *)
Lemma carried_given inputs appRoles carried now t : plain_resolution inputs appRoles ->
  (forall e, e ∈ carried -> permits (au_permissions (computeAuthority inputs appRoles)) (action e) (scope e) = true) ->
  alive (authorityDeadline (au_supports (computeAuthority inputs appRoles)) carried now) t -> forall e, e ∈ carried -> given_at inputs appRoles (action e) (scope e) t.
Proof.
  intros Hp Hc Ha e He. apply (held_given _ _ _ _ (source e)); [done|]. rewrite authorityDeadline_alive in Ha.
  - destruct e. by apply Ha.
  - right. intros e' He'. destruct (resolution_backed _ _ Hp (action e') (scope e') (Hc e' He') (mkEntry (action e') (scope e') SourceGrant)) as (held & ? & ?); [by left|]. by exists held.
Qed.

Section DelegationProperties.
Context `{Repositories}.

Definition enabled (id : string) (issuer : PrincipalRow) : Prop :=
  db_getPrincipalById id = Some issuer /\ pr_disabled_at issuer = None.

Lemma is_disabled_false row : is_disabled row = false <-> pr_disabled_at row = None.
Proof. unfold is_disabled, principalStatus. destruct (pr_disabled_at row); cbn; [done|]. by destruct (_ && _). Qed.

(** A delegated credential carries no more than its issuer still holds, and no longer: what [issuerCoverage] leaves
    is exactly the part of the credential's permissions the enabled issuer's live authority permits, and up to the
    returned deadline the issuer still holds every entry of it. Only the provisioning administrator and a holder of
    [iam.admin] keep the whole set, the latter until that grant ends. *)
Theorem issuerCoverage_spec (issuerId app : string) (permissions covered : list PermissionEntry) (deadline : option Z) (now : Z) :
  issuerCoverage issuerId app permissions now = Some (covered, deadline) ->
  (issuerId = PROVISIONING_ADMIN_ID /\ covered = permissions /\ deadline = None) \/
  exists issuer, enabled issuerId issuer /\
    ((covered = permissions /\ permits (resolvePermissionsAt issuer IAM_APP_ID) IAM_ADMIN None = true /\
      forall t, (now <= t)%Z -> alive deadline t ->
        holds_at (resolveAuthorityAt issuer IAM_APP_ID) (mkEntry IAM_ADMIN None SourceGrant) t) \/
     ((forall e, e ∈ covered <-> e ∈ permissions /\ permits (resolvePermissionsAt issuer app) (action e) (scope e) = true) /\
      forall t, (now <= t)%Z -> alive deadline t -> forall e, e ∈ covered -> holds_at (resolveAuthorityAt issuer app) e t)).
Proof.
  unfold issuerCoverage. destruct (String.eqb_spec issuerId PROVISIONING_ADMIN_ID) as [->|Hne].
  { intros [= <- <-]. by left. }
  destruct (db_getPrincipalById issuerId) as [issuer|] eqn:Hi; [|done].
  destruct (is_disabled issuer) eqn:Hd; [done|]. apply is_disabled_false in Hd.
  intros Hr. right. exists issuer. split; [by split|]. unfold resolvePermissionsAt.
  destruct (permits _ IAM_ADMIN None) eqn:Hp; injection Hr as <- <-; [left|right].
  - split_and!; [done|done|]. intros t Ht Ha. apply (authorityDeadline_alive (resolveAuthorityAt issuer IAM_APP_ID) _ now t (or_introl Ht)) with (1 := Ha).
    apply list_elem_of_here.
  - split.
    + intros e. rewrite !list_elem_of_In, filter_In. done.
    + intros t Ht Ha. exact (proj1 (authorityDeadline_alive (resolveAuthorityAt issuer app) _ now t (or_introl Ht)) Ha).
Qed.

(** An anonymous credential lives only on its issuer's authority: [issuerAuthority] accepts one only of an enabled
    issuer that holds every required action, where it is required, at every moment before the returned expiry; a job
    issuer by its current declaration for this very mount; the provisioning administrator as the named exception. *)
Theorem issuerAuthority_spec (issuerId : option string) (app : string) (mount : option string) (required : list DelegatedAction)
    (now : Z) (expiresAt : option Z) :
  issuerAuthority issuerId app mount required now = Some expiresAt ->
  exists id issuer, issuerId = Some id /\ enabled id issuer /\
    ((pr_id issuer = PROVISIONING_ADMIN_ID /\ expiresAt = None) \/
     (exists workload declaration, db_getByPrincipal (pr_id issuer) = Some workload /\ wl_kind workload = KindJob /\
        wl_app workload = app /\ db_declaration app (wl_name workload) = Some declaration /\ expiresAt = None /\
        mount <> None /\ wd_issues declaration = mount /\
        forall r, r ∈ required -> del_action r ∈ wd_actions declaration) \/
     (db_getByPrincipal (pr_id issuer) = None /\
      forall t, (now <= t)%Z -> alive expiresAt t -> forall r, r ∈ required ->
        exists sc, sc ∈ del_on r /\ permits (resolvePermissionsAt issuer app) (del_action r) sc = true /\
          holds_at (resolveAuthorityAt issuer app) (mkEntry (del_action r) sc SourceGrant) t)).
Proof.
  unfold issuerAuthority. destruct issuerId as [id|]; [|done]. cbn [mbind option_bind].
  destruct (db_getPrincipalById id) as [issuer|] eqn:Hi; [|done].
  destruct (is_disabled issuer) eqn:Hd; [done|]. apply is_disabled_false in Hd. intros Hr.
  exists id, issuer. split; [done|]. split; [by split|].
  destruct (String.eqb_spec (pr_id issuer) PROVISIONING_ADMIN_ID); [left; by injection Hr as <-|right].
  destruct (db_getByPrincipal (pr_id issuer)) as [wl|] eqn:Hw; [left|right].
  - destruct (bool_decide (wl_kind wl = KindJob)) eqn:Hk; cbn [andb] in Hr; [|done]. apply bool_decide_eq_true in Hk.
    destruct (String.eqb_spec (wl_app wl) app) as [Ha|]; [|done].
    destruct (db_declaration app (wl_name wl)) as [d|] eqn:Hdec; [|done]. destruct mount as [m|]; [|done].
    destruct (bool_decide (wd_issues d = Some m)) eqn:Hm; cbn [negb] in Hr; [|done]. apply bool_decide_eq_true in Hm.
    destruct (forallb _ required) eqn:Hall; [|done]. injection Hr as <-.
    exists wl, d. split_and!; try done. intros r Hin. apply elem_spec. rewrite forallb_forall in Hall.
    apply Hall. by apply list_elem_of_In.
  - split; [done|]. intros t Ht Ha. by apply (requiredUntil_spec _ _ _ _ _ _ (or_introl Ht) Hr Ha).
Qed.

(** *** What stands behind a delegated credential *)

Definition plain_at (principal : PrincipalRow) (app : string) : Prop := plain_resolution (resolutionInputs principal app) (loadRoleSource (Some app)).

Definition given_to (principal : PrincipalRow) (app act : string) (sc : option Scope) (t : Z) : Prop :=
  given_at (resolutionInputs principal app) (loadRoleSource (Some app)) act sc t.

(** The issuer still covers the permissions, and until [until]: the provisioning administrator, a holder of [iam.admin], or an
    enabled issuer that holds each itself. *)
Definition covered_by (issuerId app : string) (permissions : list PermissionEntry) (until : option Z) : Prop :=
  issuerId = PROVISIONING_ADMIN_ID \/
  exists issuer, enabled issuerId issuer /\
    ((permits (resolvePermissionsAt issuer IAM_APP_ID) IAM_ADMIN None = true /\
      (plain_at issuer IAM_APP_ID -> forall t, alive until t -> given_to issuer IAM_APP_ID IAM_ADMIN None t)) \/
     forall e, e ∈ permissions -> permits (resolvePermissionsAt issuer app) (action e) (scope e) = true /\
       (plain_at issuer app -> forall t, alive until t -> given_to issuer app (action e) (scope e) t)).

(** The issuer of a key of nobody holds each action on one of the scopes it is required on, and until [until]; a job, by its
    current declaration for this mount. *)
Definition delegated_by (issuerId : option string) (app : string) (mount : option string) (required : list DelegatedAction) (until : option Z) : Prop :=
  exists id issuer, issuerId = Some id /\ enabled id issuer /\
    (pr_id issuer = PROVISIONING_ADMIN_ID \/
     (exists workload declaration, db_getByPrincipal (pr_id issuer) = Some workload /\ wl_kind workload = KindJob /\ wl_app workload = app /\
        db_declaration app (wl_name workload) = Some declaration /\ mount <> None /\ wd_issues declaration = mount /\
        forall r, r ∈ required -> del_action r ∈ wd_actions declaration) \/
     (db_getByPrincipal (pr_id issuer) = None /\ forall r, r ∈ required ->
        (exists sc, sc ∈ del_on r /\ permits (resolvePermissionsAt issuer app) (del_action r) sc = true) /\
        (plain_at issuer app -> forall t, alive until t -> exists sc, sc ∈ del_on r /\ given_to issuer app (del_action r) sc t))).

Lemma covered_by_sooner issuerId app permissions until until' : (forall t, alive until' t -> alive until t) -> covered_by issuerId app permissions until -> covered_by issuerId app permissions until'.
Proof.
  intros Hs [?|(issuer & He & Hc)]; [by left|]. right. exists issuer. split; [done|]. destruct Hc as [[? Hc]|Hc]; [left|right].
  - split; [done|]. intros Hp t Ha. by apply Hc, Hs.
  - intros e He'. destruct (Hc e He') as [? Hg]. split; [done|]. intros Hp t Ha. by apply Hg, Hs.
Qed.

Lemma issuerCoverage_covered issuerId app permissions covered deadline now : issuerCoverage issuerId app permissions now = Some (covered, deadline) ->
  covered ⊆ permissions /\ covered_by issuerId app covered deadline.
Proof.
  unfold issuerCoverage, covered_by. destruct (String.eqb_spec issuerId PROVISIONING_ADMIN_ID) as [->|Hne]; [intros [= <- <-]; by split; [|left]|].
  destruct (db_getPrincipalById issuerId) as [issuer|] eqn:Hi; [|done]. destruct (is_disabled issuer) eqn:Hd; [done|]. apply is_disabled_false in Hd. cbn zeta.
  intros Hr. destruct (permits _ IAM_ADMIN None) eqn:Hp; injection Hr as <- <-; (split; [|right; exists issuer; split; [done|]]); try done.
  - left. split; [done|]. intros Hpl t Ha. apply (carried_given _ _ _ now t Hpl) with (2 := Ha) (e := mkEntry IAM_ADMIN None SourceGrant); [|left].
    by intros e ->%list_elem_of_singleton.
  - intros e [Hin _]%list_elem_of_In%filter_In. by apply list_elem_of_In.
  - right. intros e He. assert (Hc : forall e, e ∈ List.filter (fun e => permits (au_permissions (resolveAuthorityAt issuer app)) (action e) (scope e)) permissions ->
      permits (au_permissions (resolveAuthorityAt issuer app)) (action e) (scope e) = true) by by intros ? [_ ?]%list_elem_of_In%filter_In.
    split; [by apply Hc|]. intros Hpl t Ha. exact (carried_given _ _ _ now t Hpl Hc Ha e He).
Qed.

Lemma issuerAuthority_delegated issuerId app mount required now until : issuerAuthority issuerId app mount required now = Some until ->
  delegated_by issuerId app mount required until.
Proof.
  intros Hr. destruct (issuerAuthority_spec _ _ _ _ _ _ Hr) as (id & issuer & -> & [Hi Hd] & Hcase). exists id, issuer. split; [done|]. split; [done|].
  destruct (String.eqb_spec (pr_id issuer) PROVISIONING_ADMIN_ID) as [E|Hne]; [by left|]. right.
  destruct Hcase as [[? _]|[(w & d & ? & ? & ? & ? & _ & ? & ? & ?)|(Hw & _)]]; [done|left; by exists w, d|]. right. split; [done|]. apply is_disabled_false in Hd.
  unfold issuerAuthority in Hr. cbn [mbind option_bind] in Hr. rewrite Hi, Hd, Hw, (proj2 (String.eqb_neq _ _) Hne) in Hr.
  intros r Hin. split; [by apply (requiredUntil_permits _ _ _ _ _ Hr)|]. intros Hpl t Ha.
  destruct (requiredUntil_spec _ _ now _ _ t (or_intror (resolution_backed _ _ Hpl)) Hr Ha) as [_ Hall]. destruct (Hall r Hin) as (sc & Hsc & _ & Hh). exists sc. split; [done|].
  by apply (held_given _ _ _ _ SourceGrant).
Qed.

Lemma firstWildcard_none ps : firstWildcard ps = None <-> Forall (fun p => Js.includes p "*" = false) ps.
Proof.
  induction ps as [|p ps IH]; cbn -[Js.includes]; [done|]. rewrite Forall_cons, <- IH.
  destruct (Js.includes p "*"); naive_solver.
Qed.

(** What a grant lists, whatever the principal: its role's actions, or its inline patterns. *)
Definition listed_actions (appRoles : list (string * RoleDef)) (grant : GrantRow) : list string :=
  match grant_role_key grant with
  | Some key => match getRole appRoles key with Some role => role_permissions role | None => [] end
  | None => match grant_permissions grant with Some stored => parseStoredPermissions stored | None => [] end
  end.

(** What IAM lets an administrator write is what resolution honours: a grant at an application that passes
    [contractGrantProblem] and [externalGrantProblem] resolves to everything it lists, nothing of it silently dropped by
    the external, membership or exact-action rules. *)
Theorem written_grant_resolves (app : string) (affiliation : PrincipalAffiliation) (grant : GrantRow) (act : string) :
  (forall key, lookup_field key (loadRoleSource (Some app)) = toRoleDef <$> db_getRole app key) ->
  grant_app grant = Some app -> is_some (grant_scope_type grant) = is_some (grant_scope_value grant) ->
  contractGrantProblem (Some app) (grant_role_key grant) (parseStoredPermissions <$> grant_permissions grant) (grant_scope_type grant) = None ->
  externalGrantProblem affiliation (Some app) (grant_role_key grant) = None ->
  act ∈ listed_actions (loadRoleSource (Some app)) grant ->
  act ∈ grant_actions (loadRoleSource (Some app)) (is_external affiliation) grant /\ exact_ok (db_isContractApp app) act = true.
Proof.
  intros Hroles Happ Hboth Hc He Hact. unfold listed_actions, grant_actions, expandRole in *. rewrite Happ.
  assert (Hexact : forall ps, firstWildcard ps = None -> act ∈ ps -> exact_ok (db_isContractApp app) act = true).
  { intros ps Hw Hin. apply firstWildcard_none in Hw. rewrite Forall_forall in Hw. unfold exact_ok.
    rewrite (Hw act Hin). by rewrite andb_false_r. }
  assert (Hopen : db_isContractApp app = false -> exact_ok (db_isContractApp app) act = true) by (by intros ->).
  unfold contractGrantProblem in Hc. destruct (grant_role_key grant) as [key|] eqn:Ekey; cbn [is_some negb orb andb mbind option_bind] in *.
  - unfold getRole in *. rewrite Hroles in *.
    destruct (lookup_field key BUILTIN_ROLES) as [b|] eqn:Eb; cbn [is_some] in Hc.
    + assert (is_external affiliation = false) as ->.
      { unfold externalGrantProblem in He. rewrite Eb in He. by destruct (is_external affiliation). }
      cbn [andb]. cbn -[String.eqb] in Eb. destruct (String.eqb _ _); [|done]. injection Eb as <-. cbn [role_member].
      split; [done|]. cbn -[firstWildcard] in Hc. destruct (db_isContractApp app) eqn:Eapp; [done|by auto].
    + destruct (db_getRole app key) as [r|] eqn:Er; cbn [fmap option_fmap option_map mbind option_bind] in *; [|by apply elem_of_nil in Hact].
      assert (Hext : is_external affiliation && negb (role_external (toRoleDef r)) = false).
      { unfold externalGrantProblem in He. rewrite Eb, Er in He. cbn in *. destruct (is_external affiliation); [|done].
        cbn in *. by destruct (rr_external r). }
      rewrite Hext. cbn [toRoleDef role_member role_permissions] in *.
      assert (Hscope : rr_member_scope r = None \/ exists m, rr_member_scope r = Some m /\ grant_scope_type grant = Some m).
      { destruct (rr_member_scope r) as [m|]; [right|by left]. exists m. cbn [mbind option_bind] in Hc. split; [done|].
        destruct (bool_decide (grant_scope_type grant = Some m)) eqn:Hb; [by apply bool_decide_eq_true in Hb|done]. }
      destruct Hscope as [Hm|(m & Hm & Hg)]; rewrite Hm in *; cbn [mbind option_bind] in Hc; rewrite andb_false_r.
      * split; [done|]. destruct (db_isContractApp app) eqn:Eapp; cbn [negb] in Hc; [|by auto].
        apply fmap_None in Hc. by eapply Hexact.
      * rewrite (bool_decide_eq_true_2 _ Hg) in Hc. split.
        -- rewrite Hg in Hboth |- *. destruct (grant_scope_value grant); [|done]. cbn. by rewrite bool_decide_eq_true_2.
        -- destruct (db_isContractApp app) eqn:Eapp; cbn [negb] in Hc; [|by auto]. apply fmap_None in Hc. by eapply Hexact.
  - assert (is_external affiliation = false) as ->.
    { unfold externalGrantProblem in He. by destruct (is_external affiliation). }
    cbn [andb]. split; [done|]. destruct (db_isContractApp app) eqn:Eapp; cbn [negb] in Hc; [|by auto].
    apply fmap_None in Hc. destruct (grant_permissions grant) as [stored|]; [|by apply elem_of_nil in Hact].
    by eapply Hexact.
Qed.

End DelegationProperties.

(** ** Witnesses *)

Module Demo.

Definition team := mkScope "team" "a".
Definition lead := mkRoleRow "lead" (Some (JArr [JStr "task.write"; JStr "task.read"; JNull])) (Some "team") true.
Definition alice := mkPrincipal "p1" true (Some "sub-1") (Some "alice@x") "alice@x" None (Some 1%Z) Internal.
Definition alice_grant := mkGrant (Some "shop") (Some "lead") None (Some "team") (Some "a") (Some 100%Z).

#[export] Instance repositories : Repositories := {|
  db_getPrincipalById := fun id => if (id =? "p1")%string then Some alice else None;
  db_getActiveGrantsForApp := fun id app _ => if (id =? "p1")%string && (app =? "shop")%string then [alice_grant] else [];
  db_listRoles := fun app => if (app =? "shop")%string then [lead] else [];
  db_isContractApp := fun app => (app =? "shop")%string;
  db_getRole := fun app key => if (app =? "shop")%string && (key =? "lead")%string then Some lead else None;
  db_getByPrincipal := fun _ => None;
  db_declaration := fun _ _ => None;
  platformAudiences := ["propustka"];
  bootstrapAdmins := [];
|}.

Definition inputs (affiliation : PrincipalAffiliation) : ResolutionInputs := mkInputs [alice_grant] true affiliation true.
Definition roles := loadRoleSource (Some "shop").
Definition carried := [mkEntry "task.read" (Some team) SourceGrant; mkEntry "task.delete" (Some team) SourceGrant].
Definition required := [mkDelegated "task.read" [None; Some team]].

Lemma role_keys key : lookup_field key (loadRoleSource (Some "shop")) = toRoleDef <$> db_getRole "shop" key.
Proof.
  unfold loadRoleSource. change (db_listRoles "shop") with [lead].
  change (db_getRole "shop" key) with (if (key =? "lead")%string then Some lead else None).
  cbn -[String.eqb]. by destruct (key =? "lead")%string.
Qed.

End Demo.

Section Witnesses.
Import Demo.

Lemma computePermissions_spec_witness :
  length (computePermissions (inputs External) roles) = 2 /\
  (forall e, e ∈ computePermissions (inputs External) roles <-> contributed (inputs External) roles e).
Proof.
  split; [reflexivity|]. apply (proj1 (computePermissions_spec (inputs External) roles)).
  intros [act sc src] (u & _ & [(g & Hg & Hact & Hsc & _)|(_ & Hx & _)]); [|by destruct Hx].
  apply list_elem_of_singleton in Hg as ->. apply rowScope_in_scope in Hsc. cbn in Hsc. subst sc. apply grant_gives in Hact. vm_compute in Hact |- *.
  apply elem_of_cons in Hact as [->|Hact]; [done|]. by apply list_elem_of_singleton in Hact as ->.
Defined.

Lemma external_holds_external_roles_witness :
  exists grant app key role,
    grant ∈ [alice_grant] /\ grant_app grant = Some app /\ grant_role_key grant = Some key /\
    lookup_field key BUILTIN_ROLES = None /\ lookup_field key roles = Some role /\ role_external role = true /\
    "task.read" ∈ role_permissions role /\ SourceGrant = SourceGrant /\
    (forall dimension, role_member role = Some dimension -> scope_type <$> Some team = Some dimension).
Proof.
  apply (external_holds_external_roles (inputs External) roles (mkEntry "task.read" (Some team) SourceGrant)); [reflexivity|].
  vm_compute. right. left.
Defined.

Lemma authorityDeadline_spec_witness :
  alive (Some 100%Z) 99 <-> forall e, e ∈ [mkEntry "task.read" (Some team) SourceGrant] -> holds_at (computeAuthority (inputs External) roles) e 99.
Proof. apply (authorityDeadline_spec (computeAuthority (inputs External) roles) [mkEntry "task.read" (Some team) SourceGrant] 5 99). lia. Defined.

Lemma issuerCoverage_spec_witness :
  issuerCoverage "p1" "shop" carried 5 = Some ([mkEntry "task.read" (Some team) SourceGrant], Some 100%Z) /\
  (("p1" = PROVISIONING_ADMIN_ID /\ [mkEntry "task.read" (Some team) SourceGrant] = carried /\ Some 100%Z = None) \/
   exists issuer, enabled "p1" issuer /\
    (([mkEntry "task.read" (Some team) SourceGrant] = carried /\ permits (resolvePermissionsAt issuer IAM_APP_ID) IAM_ADMIN None = true /\
      forall t, (5 <= t)%Z -> alive (Some 100%Z) t ->
        holds_at (resolveAuthorityAt issuer IAM_APP_ID) (mkEntry IAM_ADMIN None SourceGrant) t) \/
     ((forall e, e ∈ [mkEntry "task.read" (Some team) SourceGrant] <->
         e ∈ carried /\ permits (resolvePermissionsAt issuer "shop") (action e) (scope e) = true) /\
      forall t, (5 <= t)%Z -> alive (Some 100%Z) t -> forall e, e ∈ [mkEntry "task.read" (Some team) SourceGrant] ->
        holds_at (resolveAuthorityAt issuer "shop") e t))).
Proof. split; [reflexivity|]. apply (issuerCoverage_spec "p1" "shop" carried). reflexivity. Defined.

Lemma issuerAuthority_spec_witness :
  issuerAuthority (Some "p1") "shop" (Some "files") required 5 = Some (Some 100%Z) /\
  exists id issuer, Some "p1" = Some id /\ enabled id issuer.
Proof.
  split; [reflexivity|].
  destruct (@issuerAuthority_spec repositories (Some "p1") "shop" (Some "files") required 5 (Some 100%Z) eq_refl) as (id & issuer & H1 & H2 & _).
  by exists id, issuer.
Defined.

Lemma written_grant_resolves_witness :
  "task.read" ∈ grant_actions (loadRoleSource (Some "shop")) (is_external External) alice_grant /\
  exact_ok (db_isContractApp "shop") "task.read" = true.
Proof.
  apply (written_grant_resolves "shop" External alice_grant "task.read"); try reflexivity; [exact role_keys|].
  vm_compute. right. left.
Defined.

End Witnesses.
