(* ===== verification/Login.v ===== *)
(** A login's principal: by [sub], by an invited mailbox, or created on the spot.

    [resolveUserPrincipal] ([iam/src/resolve.ts]) is written against the interface [UserPrincipalStore], whose promises to
    it are the class [LoginStore]; the rows, unique indexes and transactions of [PrincipalRepository]
    ([iam/src/repositories/principals.ts]) implement it over an explicit [Directory]. Concurrent logins interleave between
    the store's operations: the interface says nothing of the state an operation starts from. *)

From S2P Require Import Prelude Permissions Token Authority.
From Stdlib Require Import ZArith Lia String Ascii.
From stdpp Require Import base tactics strings gmap list.

(** [AuditEventInput], in the fields a login fills in. *)
Record AuditEventInput := mkAudit { audit_requestId : string; audit_principalId : string; audit_action : string }.

(** What a database call throws. *)
Inductive StoreError := ConstraintViolation | StoreFailure.

Class UserPrincipalStore (St : Type) := {
  getUserByExternalId : string -> eff St StoreError (option PrincipalRow);
  getUserByEmail : string -> eff St StoreError (option PrincipalRow);
  refreshUserLabel : string -> string -> AuditEventInput -> eff St StoreError unit;
  claimInvitedUser : string -> string -> string -> AuditEventInput -> eff St StoreError (option PrincipalRow);
  createUser : string -> string -> (string -> AuditEventInput) -> eff St StoreError PrincipalRow;
}.

Inductive ResolveUserReason := Refused_disabled | Refused_unknown_principal | Refused_external_principal.
Inductive ResolveUserResult := ResolvedUser (principal : PrincipalRow) | RefusedUser (reason : ResolveUserReason).

Definition loginEvent (requestId principalId action : string) : AuditEventInput := mkAudit requestId principalId action.

Definition with_mailbox (row : PrincipalRow) (mailbox label : string) : PrincipalRow :=
  mkPrincipal (pr_id row) (pr_is_user row) (pr_external_id row) (Some mailbox) label (pr_disabled_at row) (pr_activated_at row)
    (pr_affiliation row).

Section Resolve.
Context {St : Type} `{UserPrincipalStore St}.

(** The re-read after a lost race. *)
Definition reread (sub : string) : eff St StoreError ResolveUserResult :=
  found ← getUserByExternalId sub;
  match found with
  | Some row =>
      mret (if is_some (pr_disabled_at row) then RefusedUser Refused_disabled else ResolvedUser row)
  | None => mret (RefusedUser Refused_unknown_principal)
  end.

Definition resolveUserPrincipal (sub email requestId : string) : eff St StoreError ResolveUserResult :=
  let mailbox := normalizeEmailIdentity email in
  bySub ← getUserByExternalId sub;
  match bySub with
  | Some row =>
      if is_external (pr_affiliation row) then mret (RefusedUser Refused_external_principal)
      else if is_some (pr_disabled_at row) then mret (RefusedUser Refused_disabled)
      else if negb (bool_decide (pr_email row = Some mailbox)) || negb (pr_label row =? email)%string then
        Eff.catch (_ ← refreshUserLabel (pr_id row) email (loginEvent requestId (pr_id row) "iam.principal.refresh");
                   mret (ResolvedUser (with_mailbox row mailbox email)))
                  (fun _ => mret (ResolvedUser row))
      else mret (ResolvedUser (with_mailbox row mailbox email))
  | None =>
      byEmail ← getUserByEmail email;
      match byEmail with
      | Some row =>
          if is_external (pr_affiliation row) then mret (RefusedUser Refused_external_principal)
          else match pr_external_id row with
               | None =>
                   if is_some (pr_disabled_at row) then mret (RefusedUser Refused_disabled)
                   else
                     claimed ← claimInvitedUser (pr_id row) sub email (loginEvent requestId (pr_id row) "iam.principal.claim");
                     match claimed with
                     | Some principal => mret (ResolvedUser principal)
                     | None => reread sub
                     end
               | Some _ => mret (RefusedUser Refused_unknown_principal)
               end
      | None =>
          Eff.catch (created ← createUser sub email (fun id => loginEvent requestId id "iam.principal.create");
                     mret (ResolvedUser created))
                    (fun _ => reread sub)
      end
  end.

End Resolve.

(** ** The store's promise *)

(** A user principal inside the organization, bound to this [sub]. *)
Definition bound_to (sub : string) (p : PrincipalRow) : Prop :=
  pr_is_user p = true /\ pr_external_id p = Some sub /\ pr_affiliation p = Internal.

(** What the login relies on: [I] is the store's own invariant, and every operation keeps it, whoever wrote in between. *)
Class LoginStore (St : Type) `{UserPrincipalStore St} (I : St -> Prop) := {
  law_byExternalId sub : Eff.triple I (getUserByExternalId sub) (fun r => forall p, r = Some p -> bound_to sub p);
  law_byEmail email : Eff.keeps I (getUserByEmail email);
  law_refresh id email audit : Eff.keeps I (refreshUserLabel id email audit);
  law_claim id sub label audit :
    Eff.triple I (claimInvitedUser id sub label audit) (fun r => forall p, r = Some p -> bound_to sub p /\ pr_id p = id);
  law_create sub email audit :
    Eff.triple I (createUser sub email audit)
      (fun p => bound_to sub p /\ pr_disabled_at p = None /\ pr_email p = Some (normalizeEmailIdentity email));
}.

(** ** PrincipalRepository *)

(** The tables [principals], [principal_email_claims] (mailbox and owner) and [audit_events], and the ids minted so far. *)
Record Directory := mkDirectory {
  principals : list PrincipalRow;
  email_claims : list (string * string);
  audit_events : list AuditEventInput;
  minted : nat;
}.

Section Repository.
(** [uuidv7], and [unixNow] when so many ids were minted. *)
Context (uuidv7 : nat -> string) (unixNow : nat -> Z).

Definition is_user_with_external (sub : string) (row : PrincipalRow) : bool :=
  pr_is_user row && bool_decide (pr_external_id row = Some sub).

Definition is_user_with_email (mailbox : string) (row : PrincipalRow) : bool :=
  pr_is_user row && bool_decide (pr_email row = Some mailbox).

Definition repo_getUserByExternalId (sub : string) : eff Directory StoreError (option PrincipalRow) :=
  Eff.gets (fun d => List.find (is_user_with_external sub) (principals d)).

Definition repo_getUserByEmail (email : string) : eff Directory StoreError (option PrincipalRow) :=
  Eff.gets (fun d => List.find (is_user_with_email (normalizeEmailIdentity email)) (principals d)).

(** [ON CONFLICT (principal_id) DO UPDATE]; a mailbox another principal holds violates the primary key. *)
Definition claimMailboxStatement (mailbox id : string) (claims : list (string * string)) : option (list (string * string)) :=
  if existsb (fun c => (c.1 =? mailbox)%string && negb (c.2 =? id)%string) claims then None
  else Some (List.filter (fun c => negb (c.2 =? id)%string) claims ++ [(mailbox, id)]).

(** [idx_principals_uq_email] after the change. *)
Definition unique_email (rows : list PrincipalRow) (id mailbox : string) : bool :=
  negb (existsb (fun r => is_user_with_email mailbox r && negb (pr_id r =? id)%string) rows).

Definition stale (id mailbox email : string) (row : PrincipalRow) : bool :=
  (pr_id row =? id)%string && (negb (bool_decide (pr_email row = Some mailbox)) || negb (pr_label row =? email)%string).

(** One transaction: a violated index undoes all of it. *)
Definition repo_refreshUserLabel (id email : string) (audit : AuditEventInput) : eff Directory StoreError unit := fun d =>
  let mailbox := normalizeEmailIdentity email in
  let changed := existsb (stale id mailbox email) (principals d) in
  match claimMailboxStatement mailbox id (email_claims d) with
  | Some claims =>
      if existsb (fun row => stale id mailbox email row && pr_is_user row) (principals d) && negb (unique_email (principals d) id mailbox)
      then (inl ConstraintViolation, d)
      else (inr tt, mkDirectory (map (fun row => if stale id mailbox email row then with_mailbox row mailbox email else row) (principals d))
                      claims (audit_events d ++ (if changed then [audit] else [])) (minted d))
  | None => (inl ConstraintViolation, d)
  end.

Definition claimable (id : string) (row : PrincipalRow) : bool :=
  (pr_id row =? id)%string && pr_is_user row && negb (is_some (pr_external_id row)) && bool_decide (pr_affiliation row = Internal).

Definition claim_row (sub label : string) (now : Z) (row : PrincipalRow) : PrincipalRow :=
  mkPrincipal (pr_id row) (pr_is_user row) (Some sub) (pr_email row) label (pr_disabled_at row)
    (Some (default now (pr_activated_at row))) (pr_affiliation row).

(** [id] is the primary key: at most one row is claimable. *)
Definition repo_claimInvitedUser (id sub label : string) (audit : AuditEventInput) : eff Directory StoreError (option PrincipalRow) :=
  fun d =>
    match List.find (claimable id) (principals d) with
    | None => (inr None, d)
    | Some row =>
        if existsb (is_user_with_external sub) (principals d) then (inl ConstraintViolation, d)
        else
          let claim := claim_row sub label (unixNow (minted d)) in
          (inr (Some (claim row)),
           mkDirectory (map (fun row => if claimable id row then claim row else row) (principals d)) (email_claims d)
             (audit_events d ++ [audit]) (minted d))
    end.

Definition repo_createUser (sub email : string) (audit : string -> AuditEventInput) : eff Directory StoreError PrincipalRow := fun d =>
  let id := uuidv7 (minted d) in
  let now := unixNow (minted d) in
  let mailbox := normalizeEmailIdentity email in
  let row := mkPrincipal id true (Some sub) (Some mailbox) email None (Some now) Internal in
  let next := S (minted d) in
  let undone := mkDirectory (principals d) (email_claims d) (audit_events d) next in
  if existsb (fun r => (pr_id r =? id)%string || is_user_with_external sub r || is_user_with_email mailbox r) (principals d)
  then (inl ConstraintViolation, undone)
  else match claimMailboxStatement mailbox id (email_claims d) with
       | None => (inl ConstraintViolation, undone)
       | Some claims => (inr row, mkDirectory (principals d ++ [row]) claims (audit_events d ++ [audit id]) next)
       end.

#[export] Instance PrincipalRepository : UserPrincipalStore Directory := {|
  getUserByExternalId := repo_getUserByExternalId;
  getUserByEmail := repo_getUserByEmail;
  refreshUserLabel := repo_refreshUserLabel;
  claimInvitedUser := repo_claimInvitedUser;
  createUser := repo_createUser;
|}.

(** ** The repository keeps the promise *)

(** Ids are unique, and an external principal is bound to no [sub]. *)
Record directory_ok (d : Directory) : Prop := {
  ids_unique : NoDup (map pr_id (principals d));
  external_unbound : Forall (fun r => pr_affiliation r = External -> pr_external_id r = None) (principals d);
}.

Lemma find_elem {A} (f : A -> bool) l a : List.find f l = Some a -> a ∈ l /\ f a = true.
Proof. intros [H1 H2]%find_some. by rewrite list_elem_of_In. Qed.

Lemma same_id d a b : directory_ok d -> a ∈ principals d -> b ∈ principals d -> pr_id a = pr_id b -> a = b.
Proof.
  intros [Hn _] Ha Hb Hid. revert Hn Ha Hb. generalize (principals d) as l. induction l as [|r l IH]; cbn; [set_solver|].
  intros [Hr Hn]%NoDup_cons Ha Hb. apply elem_of_cons in Ha as [->|Ha], Hb as [->|Hb]; [done| | |by apply IH].
  - exfalso. apply Hr. rewrite Hid. by apply list_elem_of_fmap_2.
  - exfalso. apply Hr. rewrite <- Hid. by apply list_elem_of_fmap_2.
Qed.

Lemma bound_row d sub row :
  directory_ok d -> List.find (is_user_with_external sub) (principals d) = Some row -> bound_to sub row.
Proof.
  intros [_ Hx] [Hin Hf]%find_elem. unfold is_user_with_external in Hf. to_prop.
  match goal with H : bool_decide _ = true |- _ => apply bool_decide_eq_true in H end.
  split_and!; [done|done|]. rewrite Forall_forall in Hx. specialize (Hx row Hin). destruct (pr_affiliation row); [done|].
  rewrite Hx in *; done.
Qed.

(** A change of rows that keeps ids and never binds an external one keeps the directory well formed. *)
Lemma map_ok d f claims events n :
  directory_ok d -> (forall r, pr_id (f r) = pr_id r) ->
  (forall r, (pr_affiliation r = External -> pr_external_id r = None) -> pr_affiliation (f r) = External -> pr_external_id (f r) = None) ->
  directory_ok (mkDirectory (map f (principals d)) claims events n).
Proof.
  intros [Hn Hx] Hid Hf. split; cbn.
  - by rewrite map_map, (map_ext _ _ Hid).
  - apply Forall_map. eapply Forall_impl; [exact Hx|]. intros r. apply Hf.
Qed.

#[export] Instance PrincipalRepository_LoginStore : LoginStore Directory directory_ok.
Proof.
  split.
  - intros sub d Hd. split; [done|]. intros r [= <-] p Hp. by eapply bound_row.
  - intros email d Hd. done.
  - intros id email audit d Hd. cbn. unfold repo_refreshUserLabel. destruct (claimMailboxStatement _ _ _); [|done].
    destruct (_ && _); [done|]. apply map_ok; [done| |]; intros r; by destruct (stale _ _ _ r).
  - intros id sub label audit d Hd. cbn. unfold repo_claimInvitedUser.
    destruct (List.find (claimable id) (principals d)) as [row|] eqn:Hf; [|split; [done|by intros ? [= <-]]].
    destruct (existsb _ _); [by split|]. apply find_elem in Hf as [_ Hc]. unfold claimable in Hc. to_prop.
    match goal with H : bool_decide _ = true |- _ => apply bool_decide_eq_true in H end. split.
    + apply map_ok; [done| |]; intros r; [by destruct (claimable id r)|]. destruct (claimable id r) eqn:Hr; [|by auto].
      unfold claimable in Hr. to_prop.
      match goal with H : bool_decide _ = true |- _ => apply bool_decide_eq_true in H end. cbn. congruence.
    + intros ? [= <-] p [= <-]. by split_and!.
  - intros sub email audit d Hd. cbn. unfold repo_createUser.
    destruct (existsb _ (principals d)) eqn:He; [split; [by destruct Hd; split|done]|].
    destruct (claimMailboxStatement _ _ _); [|split; [by destruct Hd; split|done]]. split.
    + destruct Hd as [Hn Hx]. split; cbn.
      * rewrite map_app, NoDup_app. split_and!; [done| |apply NoDup_singleton]. cbn.
        intros x Hx' ->%list_elem_of_singleton. apply list_elem_of_fmap in Hx' as (r & Hr & Hin).
        apply (Bool.not_true_iff_false _) in He. apply He, existsb_exists. exists r. rewrite <- list_elem_of_In. split; [done|].
        by rewrite <- Hr, String.eqb_refl.
      * apply Forall_app. split; [done|]. repeat constructor. done.
    + intros ? [= <-]. by split_and!.
Qed.

End Repository.

(** ** Properties *)

Lemma bind_step {St X A B} (m : eff St X A) (f : A -> eff St X B) s a s' : m s = (inr a, s') -> (m ≫= f) s = f a s'.
Proof. unfold mbind, eff_bind. by intros ->. Qed.

Section LoginProperties.
Context {St : Type} {I : St -> Prop} `{LoginStore St I}.

Lemma triple_reread sub :
  Eff.triple I (reread sub) (fun r => match r with ResolvedUser p => bound_to sub p | RefusedUser _ => True end).
Proof.
  eapply triple_bind; [apply law_byExternalId|]. intros [row|] Hr; apply triple_ret; [|done].
  destruct (pr_disabled_at row); cbn; auto.
Qed.

Lemma keeps_triple {A} (m : eff St StoreError A) : Eff.keeps I m -> Eff.triple I m (fun _ => True).
Proof. intros Hm s Hs. split; [by apply Hm|done]. Qed.

(** A login never takes over someone else's account: whatever the email and whatever other logins write in between, the
    principal it resolves is a user inside the organization bound to the verified [sub]. And a returning user is never
    locked out by the mailbox: an enabled internal principal found by [sub] is served even when the refresh of its
    mailbox throws. *)
Theorem resolveUserPrincipal_bound (sub email requestId : string) :
  Eff.triple I (resolveUserPrincipal sub email requestId)
    (fun r => match r with ResolvedUser p => bound_to sub p | RefusedUser _ => True end) /\
  forall s s' p, getUserByExternalId sub s = (inr (Some p), s') -> pr_affiliation p = Internal -> pr_disabled_at p = None ->
    exists q s'', resolveUserPrincipal sub email requestId s = (inr (ResolvedUser q), s'') /\ pr_id q = pr_id p.
Proof.
  split.
  - eapply triple_bind; [apply law_byExternalId|]. intros [row|] Hsub.
    + specialize (Hsub row eq_refl). repeat (case_match; try by apply triple_ret).
      apply triple_catch; [|intros; by apply triple_ret].
      eapply triple_bind; [apply keeps_triple, law_refresh|]. intros. by apply triple_ret.
    + eapply triple_bind; [apply keeps_triple, law_byEmail|]. intros [row|] _.
      * repeat (case_match; try by apply triple_ret). eapply triple_bind; [apply law_claim|].
        intros [p|] Hp; [|apply triple_reread]. apply triple_ret. by destruct (Hp p eq_refl).
      * apply triple_catch; [|intros; apply triple_reread]. eapply triple_bind; [apply law_create|].
        intros p (? & _). by apply triple_ret.
  - intros s s' p Hp Ha Hd. unfold resolveUserPrincipal. rewrite (bind_step _ _ _ _ _ Hp). unfold is_external. rewrite Ha, Hd.
    change (bool_decide (Internal = External)) with false. cbn.
    destruct (negb _ || negb _); [|by eexists _, _]. unfold Eff.catch, mbind, eff_bind.
    destruct (refreshUserLabel (pr_id p) email (loginEvent requestId (pr_id p) "iam.principal.refresh") s') as [[x|[]] s2]; by eexists _, _.
Qed.

End LoginProperties.

Section RepositoryLogins.
Context (uuidv7 : nat -> string) (unixNow : nat -> Z).
#[local] Existing Instance PrincipalRepository.

#[local] Notation login := (@resolveUserPrincipal Directory (PrincipalRepository uuidv7 unixNow)).

Lemma find_map_preserved {A} (g : A -> bool) (f : A -> A) l :
  (forall x, g (f x) = g x) -> List.find g (map f l) = f <$> List.find g l.
Proof. intros H. induction l as [|x l IH]; [done|]. cbn. rewrite H. by destruct (g x). Qed.

Lemma find_snoc {A} (g : A -> bool) l x : List.find g l = None -> g x = true -> List.find g (l ++ [x]) = Some x.
Proof. intros Hl Hx. induction l as [|y l IH]; cbn in *; [by rewrite Hx|]. destruct (g y); [done|auto]. Qed.

(** A user whose row already says what the identity provider says: the login reads it and writes nothing. *)
Lemma login_current d sub email rid row :
  List.find (is_user_with_external sub) (principals d) = Some row -> pr_affiliation row = Internal -> pr_disabled_at row = None ->
  pr_email row = Some (normalizeEmailIdentity email) -> pr_label row = email ->
  exists p, login sub email rid d = (inr (ResolvedUser p), d) /\ pr_id p = pr_id row.
Proof.
  intros Hf Ha Hd He Hl. unfold resolveUserPrincipal. cbn zeta. erewrite bind_step by reflexivity. rewrite Hf.
  unfold is_external. rewrite Ha, Hd, He, Hl, String.eqb_refl. rewrite (bool_decide_eq_true_2 (_ = Some _)) by done. cbn. by eexists.
Qed.

Lemma refresh_throws_again id email a a' d x d' :
  repo_refreshUserLabel id email a d = (inl x, d') -> d' = d /\ repo_refreshUserLabel id email a' d = (inl x, d).
Proof.
  unfold repo_refreshUserLabel. cbn zeta. destruct (claimMailboxStatement _ _ _); [destruct (_ && _)|]; intros [= <- <-]; done.
Qed.

Lemma refresh_succeeds id email a d d' :
  repo_refreshUserLabel id email a d = (inr tt, d') ->
  let mailbox := normalizeEmailIdentity email in
  principals d' = map (fun row => if stale id mailbox email row then with_mailbox row mailbox email else row) (principals d).
Proof.
  unfold repo_refreshUserLabel. cbn zeta. destruct (claimMailboxStatement _ _ _); [destruct (_ && _)|]; intros [= <-]; done.
Qed.

Lemma reread_absent d sub :
  List.find (is_user_with_external sub) (principals d) = None ->
  @reread Directory (PrincipalRepository uuidv7 unixNow) sub d = (inr (RefusedUser Refused_unknown_principal), d).
Proof. intros Hf. unfold reread. erewrite bind_step by reflexivity. rewrite Hf. done. Qed.

(** After a claim, the [sub] finds the claimed row. *)
Lemma claimed_found d id sub label row a d' p :
  directory_ok d -> row ∈ principals d -> pr_id row = id -> List.find (is_user_with_external sub) (principals d) = None ->
  repo_claimInvitedUser unixNow id sub label a d = (inr (Some p), d') ->
  pr_id p = id /\ exists row', List.find (is_user_with_external sub) (principals d') = Some row' /\ pr_id row' = id /\
    pr_affiliation row' = Internal /\ pr_disabled_at row' = pr_disabled_at row /\ pr_email row' = pr_email row /\ pr_label row' = label.
Proof.
  intros Hok Hrow Hid Hf. unfold repo_claimInvitedUser. destruct (List.find (claimable id) _) as [c|] eqn:Hc; [|done].
  destruct (existsb _ _); [done|]. intros [= <- <-]. apply find_elem in Hc as [Hcin Hc]. cbn.
  assert (Hcid : pr_id c = id) by (unfold claimable in Hc; by to_prop). split; [done|].
  assert (c = row) as -> by (eapply same_id; eauto; congruence).
  destruct (List.find _ (map _ _)) as [row'|] eqn:Hf'.
  - exists row'. split; [done|]. apply find_elem in Hf' as [Hin Hx].
    apply list_elem_of_fmap in Hin as (r & -> & Hr). destruct (claimable id r) eqn:Hcr.
    + assert (r = row) as ->; [|].
      { eapply same_id; eauto. unfold claimable in Hcr. to_prop. congruence. }
      unfold claimable in Hc. to_prop. match goal with H : bool_decide _ = true |- _ => apply bool_decide_eq_true in H end.
      by split_and!.
    + exfalso. eapply find_none in Hf; [|by apply list_elem_of_In]. congruence.
  - exfalso. eapply find_none in Hf'; [|apply in_map, list_elem_of_In, Hcin]. cbn in Hf'. rewrite Hc in Hf'.
    unfold is_user_with_external in Hf'. cbn in Hf'. rewrite bool_decide_eq_true_2 in Hf' by done.
    unfold claimable in Hc. to_prop. rewrite andb_true_r in Hf'. congruence.
Qed.

(** After a creation, the [sub] finds the new row. *)
Lemma created_found d sub email audit p d' :
  List.find (is_user_with_external sub) (principals d) = None ->
  repo_createUser uuidv7 unixNow sub email audit d = (inr p, d') ->
  List.find (is_user_with_external sub) (principals d') = Some p /\ pr_affiliation p = Internal /\ pr_disabled_at p = None /\
  pr_email p = Some (normalizeEmailIdentity email) /\ pr_label p = email.
Proof.
  intros Hf. unfold repo_createUser. cbn zeta. destruct (existsb _ _); [done|].
  destruct (claimMailboxStatement _ _ _); [|done]. intros [= <- <-]. cbn. split_and!; try done.
  apply find_snoc; [done|]. unfold is_user_with_external. cbn. by apply bool_decide_eq_true_2.
Qed.

Lemma is_external_false a : is_external a = false <-> a = Internal.
Proof. destruct a; split; intros H; try done; by vm_compute in H. Qed.

(** A login of a known [sub], by the state of its row. *)
Lemma login_known d sub email rid row :
  List.find (is_user_with_external sub) (principals d) = Some row -> pr_affiliation row = Internal -> pr_disabled_at row = None ->
  login sub email rid d =
    (if negb (bool_decide (pr_email row = Some (normalizeEmailIdentity email))) || negb (pr_label row =? email)%string
     then match repo_refreshUserLabel (pr_id row) email (loginEvent rid (pr_id row) "iam.principal.refresh") d with
          | (inl _, d') => (inr (ResolvedUser row), d')
          | (inr _, d') => (inr (ResolvedUser (with_mailbox row (normalizeEmailIdentity email) email)), d')
          end
     else (inr (ResolvedUser (with_mailbox row (normalizeEmailIdentity email) email)), d)).
Proof.
  intros Hf Ha Hd. unfold resolveUserPrincipal. cbn zeta. erewrite bind_step by reflexivity.
  rewrite Hf, Hd, Ha, (proj2 (is_external_false Internal) eq_refl). cbn [is_some].
  destruct (negb _ || negb _); [|done]. unfold Eff.catch, mbind, eff_bind. cbn [refreshUserLabel PrincipalRepository].
  by destruct (repo_refreshUserLabel _ _ _ d) as [[x|[]] d1].
Qed.

(** A refused login is not a resolved one. *)
Lemma login_known_enabled d sub email rid row p d' :
  List.find (is_user_with_external sub) (principals d) = Some row -> login sub email rid d = (inr (ResolvedUser p), d') ->
  pr_affiliation row = Internal /\ pr_disabled_at row = None.
Proof.
  intros Hf. unfold resolveUserPrincipal. cbn zeta. erewrite bind_step by reflexivity. rewrite Hf.
  destruct (is_external _) eqn:Hx; [done|]. apply is_external_false in Hx. by destruct (pr_disabled_at row).
Qed.

Lemma refreshed_found d sub email id row a d' :
  List.find (is_user_with_external sub) (principals d) = Some row -> pr_id row = id ->
  negb (bool_decide (pr_email row = Some (normalizeEmailIdentity email))) || negb (pr_label row =? email)%string = true ->
  repo_refreshUserLabel id email a d = (inr tt, d') ->
  List.find (is_user_with_external sub) (principals d') = Some (with_mailbox row (normalizeEmailIdentity email) email).
Proof.
  intros Hf <- Hs Hr. rewrite (refresh_succeeds _ _ _ _ _ Hr), find_map_preserved, Hf.
  - cbn. unfold stale. rewrite String.eqb_refl. cbn [andb]. by rewrite Hs.
  - intros x. by destruct (stale _ _ _ x).
Qed.

Lemma known_settles d d' sub email rid rid' row p :
  List.find (is_user_with_external sub) (principals d) = Some row -> login sub email rid d = (inr (ResolvedUser p), d') ->
  exists q, login sub email rid' d' = (inr (ResolvedUser q), d') /\ pr_id q = pr_id p.
Proof.
  intros Hf Hl. destruct (login_known_enabled _ _ _ _ _ _ _ Hf Hl) as [Ha Hd].
  rewrite (login_known _ _ _ _ _ Hf Ha Hd) in Hl. destruct (negb _ || negb _) eqn:Hs.
  - destruct (repo_refreshUserLabel _ _ _ d) as [[x|[]] d1] eqn:Hr; injection Hl as <- <-.
    + edestruct refresh_throws_again as [-> Hr']; [exact Hr|]. eexists.
      rewrite (login_known _ _ _ _ _ Hf Ha Hd), Hs, Hr'. by split.
    + apply refreshed_found with (1 := Hf) (2 := eq_refl) (3 := Hs) in Hr.
      destruct (login_current _ _ email rid' _ Hr Ha Hd eq_refl eq_refl) as (q & Hq & Hid). by exists q.
  - injection Hl as <- <-. eexists. rewrite (login_known _ _ _ _ _ Hf Ha Hd), Hs. by split.
Qed.

(** A login settles: against [PrincipalRepository], a login that resolved a principal is followed by one that resolves
    the same principal again and writes nothing, whichever of the three paths the first one took and also when its
    mailbox refresh was refused. *)
Theorem login_settles (d d' : Directory) (sub email rid rid' : string) (p : PrincipalRow) :
  directory_ok d -> login sub email rid d = (inr (ResolvedUser p), d') ->
  exists q, login sub email rid' d' = (inr (ResolvedUser q), d') /\ pr_id q = pr_id p.
Proof.
  intros Hok Hl. destruct (List.find (is_user_with_external sub) (principals d)) as [row|] eqn:Hf; [by eapply known_settles|].
  unfold resolveUserPrincipal in Hl. cbn zeta in Hl. erewrite bind_step in Hl by reflexivity. rewrite Hf in Hl.
  erewrite bind_step in Hl by reflexivity. destruct (List.find (is_user_with_email _) _) as [row|] eqn:He.
  - destruct (is_external _); [done|]. destruct (pr_external_id row); [done|]. destruct (pr_disabled_at row) eqn:Hd; [done|].
    cbn [is_some] in Hl. unfold mbind, eff_bind in Hl. cbn [claimInvitedUser PrincipalRepository] in Hl.
    destruct (repo_claimInvitedUser _ _ _ _ _ d) as [[x|[c|]] d1] eqn:Hc; [done| |].
    + injection Hl as <- <-. apply find_elem in He as [Hin He]. unfold is_user_with_email in He. to_prop.
      match goal with H : bool_decide _ = true |- _ => apply bool_decide_eq_true in H end.
      eapply claimed_found in Hc as (Hid & row' & Hf' & Hid' & Ha & Hd' & He' & Hl'); [|done..|done].
      destruct (login_current d1 sub email rid' row') as (q & Hq & Hqid); [exact Hf'|exact Ha|congruence|congruence|exact Hl'|].
      exists q. split; [exact Hq|congruence].
    + assert (d1 = d) as ->.
      { unfold repo_claimInvitedUser in Hc. destruct (List.find (claimable _) _); [by destruct (existsb _ _)|congruence]. }
      by rewrite reread_absent in Hl.
  - unfold Eff.catch, mbind, eff_bind in Hl. cbn [createUser PrincipalRepository] in Hl.
    destruct (repo_createUser _ _ _ _ _ d) as [[x|c] d1] eqn:Hc; cbn -[reread] in Hl.
    + assert (Hrows : principals d1 = principals d).
      { unfold repo_createUser in Hc. cbn zeta in Hc. destruct (existsb _ _); [by simplify_eq|].
        destruct (claimMailboxStatement _ _ _); [done|by simplify_eq]. }
      rewrite reread_absent in Hl; [done|by rewrite Hrows].
    + injection Hl as <- <-. apply created_found in Hc as (Hf' & Ha & Hd & He' & Hlab); [|done].
      edestruct login_current as (q & Hq & Hqid); [exact Hf'|exact Ha|exact Hd|exact He'|exact Hlab|]. by exists q.
Qed.

End RepositoryLogins.

(** ** Witnesses *)

Lemma login_settles_witness :
  exists q, (@resolveUserPrincipal Directory (PrincipalRepository (fun _ => "u1") (fun _ => 7%Z)) "sub" "Bob@x" "r2"
     (mkDirectory [mkPrincipal "u1" true (Some "sub") (Some "bob@x") "Bob@x" None (Some 7%Z) Internal] [("bob@x", "u1")]
        [mkAudit "r1" "u1" "iam.principal.create"] 1)).1 = inr (ResolvedUser q) /\ pr_id q = "u1".
Proof.
  destruct (login_settles (fun _ => "u1") (fun _ => 7%Z) (mkDirectory [] [] [] 0)
    (mkDirectory [mkPrincipal "u1" true (Some "sub") (Some "bob@x") "Bob@x" None (Some 7%Z) Internal] [("bob@x", "u1")]
        [mkAudit "r1" "u1" "iam.principal.create"] 1) "sub" "Bob@x" "r1" "r2"
    (mkPrincipal "u1" true (Some "sub") (Some "bob@x") "Bob@x" None (Some 7%Z) Internal)) as (q & Hq & Hid).
  - split; constructor.
  - reflexivity.
  - exists q. rewrite Hq. by split.
Defined.

Lemma resolveUserPrincipal_bound_witness :
  Eff.triple directory_ok (@resolveUserPrincipal Directory (PrincipalRepository (fun _ => "u1") (fun _ => 7%Z)) "sub" "Bob@x" "r")
    (fun r => match r with ResolvedUser p => bound_to "sub" p | RefusedUser _ => True end).
Proof.
  exact (proj1 (@resolveUserPrincipal_bound Directory directory_ok _
    (PrincipalRepository_LoginStore (fun _ => "u1") (fun _ => 7%Z)) "sub" "Bob@x" "r")).
Defined.
