(* ===== verification/Interleave.v ===== *)
(** Handlers that run side by side: a small program logic for code that awaits.

    A handler is a program of atomic steps, one for each [await]; between two of them any other handler may run. The logic
    is rely and guarantee: an invariant [I] every step preserves, and a guarantee [G], a preorder that every step of every
    handler stays within. What a handler knows after a step is a predicate that survives [G], so that it still holds when
    its next step starts. *)

From S2P Require Import Prelude.
From stdpp Require Import base tactics list relations.

(** ** Programs *)

(** A step meets its surroundings [Env] (the clock, fresh random values) and changes the state [St]. *)
Inductive prog (Env St A : Type) : Type :=
| Done (a : A)
| Await {B : Type} (o : Env -> St -> B * St) (k : B -> prog Env St A).

Arguments Done {Env St A} a.
Arguments Await {Env St A B} o k.

Section Programs.
Context {Env St : Type}.

Fixpoint prog_bind {A B} (p : prog Env St A) (f : A -> prog Env St B) : prog Env St B :=
  match p with
  | Done a => f a
  | Await o k => Await o (fun b => prog_bind (k b) f)
  end.

(** One statement, awaited. *)
Definition atomic {A} (o : Env -> St -> A * St) : prog Env St A := Await o Done.

(** A statement that changes nothing. *)
Definition read {A} (f : Env -> St -> A) : prog Env St A := atomic (fun e s => (f e s, s)).

(** A statement without an answer. *)
Definition write (f : Env -> St -> St) : prog Env St unit := atomic (fun e s => (tt, f e s)).

(** The program alone, its [n]th step in the surroundings [envs n]. *)
Fixpoint exec {A} (envs : nat -> Env) (n : nat) (p : prog Env St A) (s : St) : A * St :=
  match p with
  | Done a => (a, s)
  | Await o k => let r := o (envs n) s in exec envs (S n) (k r.1) r.2
  end.

(** [try] around a program whose statements may fail: [None] once one did. *)
Fixpoint attempt {A} (fails : Env -> bool) (p : prog Env St A) : prog Env St (option A) :=
  match p with
  | Done a => Done (Some a)
  | Await o k => Await (fun e s => if fails e then (None, s) else let r := o e s in (Some r.1, r.2))
                       (fun b => match b with Some b => attempt fails (k b) | None => Done None end)
  end.

End Programs.

#[export] Instance prog_ret {Env St} : MRet (prog Env St) := fun A a => Done a.
#[export] Instance prog_mbind {Env St} : MBind (prog Env St) := fun A B f p => prog_bind p f.

(** ** The logic *)

(** What the state always satisfies, what every step guarantees, and what the surroundings of a step are. *)
Class Discipline (Env St : Type) := {
  always : St -> Prop;
  guarantee : relation St;
  surroundings : Env -> St -> Prop;
  guarantee_preorder :: PreOrder guarantee;
}.

Section Logic.
Context {Env St : Type} `{Discipline Env St}.

(** What survives the steps of the others. *)
Definition stable (P : St -> Prop) : Prop := forall s s', always s -> always s' -> guarantee s s' -> P s -> P s'.

(** What the others do. *)
Definition rely (s s' : St) : Prop := always s' /\ guarantee s s'.

(** Started where [P] holds, each step of the program keeps the discipline, and an answer satisfies [Q]. *)
Fixpoint among {A} (P : St -> Prop) (p : prog Env St A) (Q : A -> St -> Prop) : Prop :=
  match p with
  | Done a => forall s, always s -> P s -> Q a s
  | Await o k => exists R, (forall b, stable (R b)) /\
      (forall e s, always s -> surroundings e s -> P s -> always (o e s).2 /\ guarantee s (o e s).2 /\ R (o e s).1 (o e s).2) /\
      forall b, among (R b) (k b) Q
  end.

Lemma stable_pure (P : Prop) : stable (fun _ => P).
Proof. intros s s' _ _ _ HP. exact HP. Qed.

Lemma stable_true : stable (fun _ => True).
Proof. apply stable_pure. Qed.

Lemma stable_and P Q : stable P -> stable Q -> stable (fun s => P s /\ Q s).
Proof. intros HP HQ s s' Hs Hs' Hg [? ?]. split; [by apply (HP s s')|by apply (HQ s s')]. Qed.

Lemma stable_or P Q : stable P -> stable Q -> stable (fun s => P s \/ Q s).
Proof. intros HP HQ s s' Hs Hs' Hg [?|?]; [left; by apply (HP s s')|right; by apply (HQ s s')]. Qed.

Lemma stable_ex {T} (P : T -> St -> Prop) : (forall x, stable (P x)) -> stable (fun s => exists x, P x s).
Proof. intros HP s s' Hs Hs' Hg [x Hx]. exists x. by apply (HP x s s'). Qed.

Lemma stable_all {T} (P : T -> St -> Prop) : (forall x, stable (P x)) -> stable (fun s => forall x, P x s).
Proof. intros HP s s' Hs Hs' Hg Hx x. by apply (HP x s s'). Qed.

Lemma stable_impl (P : Prop) Q : (P -> stable Q) -> stable (fun s => P -> Q s).
Proof. intros HQ s s' Hs Hs' Hg Hx Hp. apply (HQ Hp s s'); auto. Qed.

Lemma stable_option {T} (o : option T) (P : T -> St -> Prop) (Q : St -> Prop) :
  (forall x, stable (P x)) -> stable Q -> stable (fun s => match o with Some x => P x s | None => Q s end).
Proof. intros HP HQ. by destruct o. Qed.

Lemma among_weaken {A} (P P' : St -> Prop) (p : prog Env St A) (Q Q' : A -> St -> Prop) :
  among P p Q -> (forall s, always s -> P' s -> P s) -> (forall a s, always s -> Q a s -> Q' a s) -> among P' p Q'.
Proof.
  revert P P'. induction p as [a|B o k IH]; intros P P' Hp HP HQ; cbn in *; [by auto|].
  destruct Hp as (R & HR & Ho & Hk). exists R. split; [done|]. split; [by auto|]. intros b. by eapply IH.
Qed.

Lemma among_pre {A} (P P' : St -> Prop) (p : prog Env St A) (Q : A -> St -> Prop) :
  among P p Q -> (forall s, always s -> P' s -> P s) -> among P' p Q.
Proof. intros Hp HP. by eapply among_weaken. Qed.

Lemma among_done {A} (P : St -> Prop) (a : A) (Q : A -> St -> Prop) : (forall s, always s -> P s -> Q a s) -> among P (mret a) Q.
Proof. done. Qed.

Lemma among_bind {A B} (P : St -> Prop) (p : prog Env St A) (f : A -> prog Env St B) (R : A -> St -> Prop) (Q : B -> St -> Prop) :
  among P p R -> (forall a, among (R a) (f a) Q) -> among P (p ≫= f) Q.
Proof.
  unfold mbind, prog_mbind. revert P. induction p as [a|C o k IH]; intros P Hp Hf; cbn in *.
  - eapply among_weaken; [apply Hf|by auto|done].
  - destruct Hp as (R' & HR & Ho & Hk). exists R'. split; [done|]. split; [done|]. intros c. by apply IH.
Qed.

Lemma among_atomic {A} (P : St -> Prop) (o : Env -> St -> A * St) (Q : A -> St -> Prop) :
  (forall a, stable (Q a)) ->
  (forall e s, always s -> surroundings e s -> P s -> always (o e s).2 /\ guarantee s (o e s).2 /\ Q (o e s).1 (o e s).2) ->
  among P (atomic o) Q.
Proof. intros HQ Ho. exists Q. split; [done|]. split; [done|]. by intros b s _. Qed.

Lemma among_read {A} (P : St -> Prop) (f : Env -> St -> A) (Q : A -> St -> Prop) :
  (forall a, stable (Q a)) -> (forall e s, always s -> surroundings e s -> P s -> Q (f e s) s) -> among P (read f) Q.
Proof. intros HQ Hf. apply among_atomic; [done|]. intros e s Hs He HP. split; [done|]. split; [by cbn|by apply Hf]. Qed.

(** What holds of the answer, when what was known before it is kept. *)
Lemma among_keep {A} (P : St -> Prop) (p : prog Env St A) (Q : A -> St -> Prop) (K : St -> Prop) :
  stable K -> among P p Q -> among (fun s => P s /\ K s) p (fun a s => Q a s /\ K s).
Proof.
  intros HK. revert P. induction p as [a|B o k IH]; intros P Hp; cbn in *; [by intros s Hs [? ?]; auto|].
  destruct Hp as (R & HR & Ho & Hk). exists (fun b s => R b s /\ K s). split; [by intros b; apply stable_and|]. split; [|by auto].
  intros e s Hs He [HP HKs]. destruct (Ho e s Hs He HP) as (? & ? & ?). split; [done|]. split; [done|]. split; [done|]. by apply (HK s (o e s).2).
Qed.

(** Which of several states of knowledge it is may be asked before the program. *)
Lemma among_exists {A X} (P : X -> St -> Prop) (p : prog Env St A) (Q : A -> St -> Prop) :
  (forall x, among (P x) p Q) -> among (fun s => exists x, P x s) p Q.
Proof.
  revert X P. induction p as [a|B o k IH]; intros X P Hp; cbn in *.
  - intros s Hs [x Hx]. by apply (Hp x).
  - set (good := fun (x : X) (R : B -> St -> Prop) => (forall b, stable (R b)) /\
      (forall e s, always s -> surroundings e s -> P x s -> always (o e s).2 /\ guarantee s (o e s).2 /\ R (o e s).1 (o e s).2) /\ forall b, among (R b) (k b) Q).
    exists (fun b s => exists y : {x : X & {R | good x R}}, proj1_sig (projT2 y) b s). split; [|split].
    + intros b. apply stable_ex. intros [x [R Hg]]. exact (proj1 Hg b).
    + intros e s Hs He [x Hx]. destruct (Hp x) as (R & HR & Ho & Hk). destruct (Ho e s Hs He Hx) as (? & ? & ?). split; [done|]. split; [done|].
      by exists (existT x (exist _ R (conj HR (conj Ho Hk)))).
    + intros b. apply IH. intros [x [R Hg]]. exact (proj2 (proj2 Hg) b).
Qed.

Lemma among_pure {A} (phi : Prop) (P : St -> Prop) (p : prog Env St A) (Q : A -> St -> Prop) :
  (phi -> among P p Q) -> among (fun s => phi /\ P s) p Q.
Proof.
  intros Hp. eapply among_weaken; [apply (among_exists (fun _ : phi => P) p Q Hp)| |done]. intros s _ [H1 H2]. by exists H1.
Qed.

Lemma among_attempt {A} fails (P : St -> Prop) (p : prog Env St A) (Q : A -> St -> Prop) :
  among P p Q -> among P (attempt fails p) (fun r s => match r with Some a => Q a s | None => True end).
Proof.
  revert P. induction p as [a|B o k IH]; intros P Hp; cbn in *; [done|]. destruct Hp as (R & HR & Ho & Hk).
  exists (fun b s => match b with Some b => R b s | None => True end). split; [by intros [b|]; [|apply stable_true]|]. split.
  - intros e s Hs He HP. destruct (fails e); cbn; [split; [done|by split]|]. by apply Ho.
  - intros [b|]; [by apply IH|done].
Qed.

(** ** Two programs at once

    They and the others take turns, one step at a time. *)
Inductive interleaved {A B} : prog Env St A -> prog Env St B -> St -> A -> B -> Prop :=
| both_done a b s : interleaved (Done a) (Done b) s a b
| step_left {C} (o : Env -> St -> C * St) k q e s a b :
    surroundings e s -> interleaved (k (o e s).1) q (o e s).2 a b -> interleaved (Await o k) q s a b
| step_right {C} (o : Env -> St -> C * St) k p e s a b :
    surroundings e s -> interleaved p (k (o e s).1) (o e s).2 a b -> interleaved p (Await o k) s a b
| step_others p q s s' a b : rely s s' -> interleaved p q s' a b -> interleaved p q s a b.

(** To answer with [W], the program must itself take the step that makes [T] true. *)
Fixpoint claims {A} (T : St -> Prop) (W : A -> Prop) (p : prog Env St A) : Prop :=
  match p with
  | Done a => ~ W a
  | Await o k => forall e s, always s -> surroundings e s -> claims T W (k (o e s).1) \/ (~ T s /\ T (o e s).2)
  end.

(** In flight, and within the discipline from here on. *)
Definition in_flight {A} (s : St) (p : prog Env St A) : Prop := exists P, stable P /\ P s /\ among P p (fun _ _ => True).

Lemma in_flight_stable {A} s s' (p : prog Env St A) : always s -> always s' -> guarantee s s' -> in_flight s p -> in_flight s' p.
Proof. intros ? ? ? (P & HP & Hs & Hp). exists P. split; [done|]. split; [by apply (HP s s')|done]. Qed.

Lemma in_flight_start {A} s (p : prog Env St A) : among (fun _ => True) p (fun _ _ => True) -> in_flight s p.
Proof. intros Hp. exists (fun _ => True). split; [apply stable_true|done]. Qed.

Lemma in_flight_step {A B} s e (o : Env -> St -> B * St) (k : B -> prog Env St A) :
  always s -> surroundings e s -> in_flight s (Await o k) -> always (o e s).2 /\ guarantee s (o e s).2 /\ in_flight (o e s).2 (k (o e s).1).
Proof.
  intros Hs He (P & HP & HPs & (R & HR & Ho & Hk)). destruct (Ho e s Hs He HPs) as (Ha & Hg & Hr). split; [done|]. split; [done|].
  exists (R (o e s).1). by split.
Qed.

(** Of two programs that must take the same step first, one fails. *)
Lemma race {A B} (T : St -> Prop) (W : A -> Prop) (V : B -> Prop) p q s a b :
  stable T -> interleaved p q s a b -> always s -> in_flight s p -> in_flight s q ->
  claims T W p /\ claims T V q \/ T s /\ claims T V q \/ T s /\ claims T W p -> ~ (W a /\ V b).
Proof.
  intros HT Hr. induction Hr as [a b s|C o k q e s a b He Hr IH|C o k p e s a b He Hr IH|p q s s' a b [Hs' Hg] Hr IH]; intros Hs Hp Hq Hc.
  - cbn in Hc. tauto.
  - destruct (in_flight_step s e o k Hs He Hp) as (Hs' & Hg & Hp'). apply IH; [done|done|by apply (in_flight_stable s)|].
    cbn in Hc. destruct Hc as [[Hc Hd]|[[Ht Hd]|[Ht Hc]]].
    + destruct (Hc e s Hs He) as [?|[_ ?]]; [by left|right; by left].
    + right. left. split; [by apply (HT s)|done].
    + destruct (Hc e s Hs He) as [?|[? _]]; [|done]. right. right. split; [by apply (HT s)|done].
  - destruct (in_flight_step s e o k Hs He Hq) as (Hs' & Hg & Hq'). apply IH; [done|by apply (in_flight_stable s)|done|].
    cbn in Hc. destruct Hc as [[Hc Hd]|[[Ht Hd]|[Ht Hc]]].
    + destruct (Hd e s Hs He) as [?|[_ ?]]; [by left|right; by right].
    + destruct (Hd e s Hs He) as [?|[? _]]; [|done]. right. left. split; [by apply (HT s)|done].
    + right. right. split; [by apply (HT s)|done].
  - apply IH; [done|by apply (in_flight_stable s)|by apply (in_flight_stable s)|].
    assert (T s -> T s') by (intros; by apply (HT s)). tauto.
Qed.

(** ** One program among others *)

Inductive runs {A} : prog Env St A -> St -> A -> St -> Prop :=
| runs_done a s : runs (Done a) s a s
| runs_await {B} (o : Env -> St -> B * St) k e s s1 a s' :
    surroundings e s -> rely (o e s).2 s1 -> runs (k (o e s).1) s1 a s' -> runs (Await o k) s a s'.

Theorem runs_sound {A} (P : St -> Prop) (p : prog Env St A) (Q : A -> St -> Prop) s a s' :
  among P p Q -> always s -> P s -> runs p s a s' -> always s' /\ guarantee s s' /\ Q a s'.
Proof.
  intros Hp Hs HP Hr. revert P Hp Hs HP. induction Hr as [a s|B o k e s s1 a s' He [Hs1 Hg1] Hr IH]; intros P Hp Hs HP; cbn in Hp.
  - split; [done|]. split; [done|]. by apply Hp.
  - destruct Hp as (R & HR & Ho & Hk). destruct (Ho e s Hs He HP) as (Ha & Hg & Hr1).
    assert (HR1 : R (o e s).1 s1) by by apply (HR _ (o e s).2 s1). destruct (IH (R (o e s).1) (Hk _) Hs1 HR1) as (? & ? & ?). split; [done|]. split; [|done].
    transitivity (o e s).2; [done|]. by transitivity s1.
Qed.

(** One program's run, then the other's, is one way to take turns. *)
Lemma runs_interleaved {A B} (p : prog Env St A) (q : prog Env St B) s a s1 b s2 : runs p s a s1 -> runs q s1 b s2 -> interleaved p q s a b.
Proof.
  intros Hp Hq. induction Hp as [a s|C o k e s s1 a s' He Hg Hp IH].
  - induction Hq as [b s|C o k e s s1 b s' He Hg Hq IH]; [constructor|]. apply (step_right o k _ e); [done|]. by eapply step_others, IH.
  - apply (step_left o k _ e); [done|]. by eapply step_others, IH.
Qed.

(** The program alone is one of its runs, where each step's surroundings are as they should. *)
Fixpoint surrounded {A} (ok : Env -> St -> bool) (envs : nat -> Env) (n : nat) (p : prog Env St A) (s : St) : bool :=
  match p with
  | Done _ => true
  | Await o k => let r := o (envs n) s in ok (envs n) s && surrounded ok envs (S n) (k r.1) r.2
  end.

Lemma exec_runs {A} (ok : Env -> St -> bool) envs (p : prog Env St A) (Q : A -> St -> Prop) :
  (forall e s, always s -> ok e s = true -> surroundings e s) ->
  forall P n s, among P p Q -> always s -> P s -> surrounded ok envs n p s = true -> runs p s (exec envs n p s).1 (exec envs n p s).2.
Proof.
  intros Hok. induction p as [a|B o k IH]; intros P n s Hp Hs HP Hsur; cbn in *; [constructor|].
  destruct Hp as (R & HR & Ho & Hk). apply andb_true_iff in Hsur as [He Hsur]. apply Hok in He; [|done].
  destruct (Ho (envs n) s Hs He HP) as (Ha & Hg & Hr). eapply runs_await; [done| |by eapply IH]. by split.
Qed.

(** ** All of them *)

(** The state and the handlers in flight. A handler starts, makes one step, or stops for good (its process died, its
    statement failed); and what is not modelled changes the state within [world]. *)
Section Pool.
Context (entry : prog Env St unit -> Prop) (world : relation St).

Inductive pool_step : St * list (prog Env St unit) -> St * list (prog Env St unit) -> Prop :=
| pool_start p s ps : entry p -> pool_step (s, ps) (s, p :: ps)
| pool_run {B} (o : Env -> St -> B * St) k e s l r :
    surroundings e s -> pool_step (s, l ++ Await o k :: r) ((o e s).2, l ++ k (o e s).1 :: r)
| pool_stop p s l r : pool_step (s, l ++ p :: r) (s, l ++ r)
| pool_world s s' ps : world s s' -> pool_step (s, ps) (s', ps).

Theorem pool_safe c c' :
  (forall p, entry p -> among (fun _ => True) p (fun _ _ => True)) ->
  (forall s s', always s -> world s s' -> always s' /\ guarantee s s') ->
  always c.1 -> Forall (in_flight c.1) c.2 -> rtc pool_step c c' -> always c'.1 /\ guarantee c.1 c'.1 /\ Forall (in_flight c'.1) c'.2.
Proof.
  intros Hentry Hworld Hs Hps Hsteps. induction Hsteps as [c|c c1 c' Hstep Hsteps IH]; [done|].
  assert (Hone : always c1.1 /\ guarantee c.1 c1.1 /\ Forall (in_flight c1.1) c1.2).
  { destruct Hstep as [p s ps Hp|B o k e s l r He|p s l r|s s1 ps Hw]; cbn in *.
    - split; [done|]. split; [done|]. constructor; [by apply in_flight_start, Hentry|done].
    - apply Forall_app in Hps as [Hl Hr]. apply Forall_cons in Hr as [Hp Hr]. destruct (in_flight_step s e o k Hs He Hp) as (Ha & Hg & Hp').
      split; [done|]. split; [done|]. apply Forall_app. split; [|constructor; [done|]].
      + eapply Forall_impl; [done|]. intros p. by apply in_flight_stable.
      + eapply Forall_impl; [done|]. intros p. by apply in_flight_stable.
    - split; [done|]. split; [done|]. apply Forall_app in Hps as [Hl Hr]. apply Forall_cons in Hr as [_ Hr]. by apply Forall_app.
    - destruct (Hworld s s1 Hs Hw) as [Ha Hg]. split; [done|]. split; [done|]. eapply Forall_impl; [done|]. intros p. by apply in_flight_stable. }
  destruct Hone as (Ha & Hg & Hf). destruct (IH Ha Hf) as (? & ? & ?). split; [done|]. split; [by transitivity c1.1|done].
Qed.

End Pool.
End Logic.

Arguments pool_step {Env St _} entry world _ _.

(** Reads the next statement of a program. *)
Ltac next_step := eapply among_bind; [|intros ?]; cbv beta.
