(* ===== verification/Sessions.v ===== *)
(** IAM's sessions: the tables of logins, hand-off codes, terminals, identifications and keys, and the statements on them
    ([iam/src/repositories/sessions.ts], [handoff.ts], [terminals.ts], [credentials.ts]), with the discipline every
    statement keeps, in the sense of [Interleave].

    A statement is one atomic step on [Iam]; a batch is one step. A row's times are unix seconds. [used] is no table: it
    holds every id and hash ever stored, so that a fresh random value is one that is not in it. The rest of IAM's database,
    its principals, grants and schemas, is the [Directory]: other code writes it, and a step may find it changed. *)

From S2P Require Import Prelude Permissions Token Authority Interleave.
From Stdlib Require Import ZArith Lia String Ascii.
From stdpp Require Import base tactics strings gmap list.

Open Scope Z_scope.

(** ** Rows *)

Inductive AuthenticationMethod := Oidc | Password | LocalDev | TerminalAssertion.

#[export] Instance method_eq_dec : EqDecision AuthenticationMethod.
Proof. solve_decision. Defined.

Record SessionTerminal := mkTerminal { terminalId : string; assertedBy : string }.

Record SessionRow := mkSession {
  se_id : string; se_hash : string; se_principal : string; se_idp_sub : option string; se_email : option string;
  se_method : AuthenticationMethod; se_created : Z; se_expires : Z; se_revoked : option Z; se_app : option string;
  se_parent : option string; se_terminal : option string; se_asserted_by : option string; se_generation : option Z;
}.

Definition sessionTerminal (row : SessionRow) : option SessionTerminal :=
  match se_terminal row, se_asserted_by row with Some terminal, Some app => Some (mkTerminal terminal app) | _, _ => None end.

(** A row of [auth_codes], by its hash. *)
Record AuthCodeRow := mkCode { co_app : string; co_parent : string; co_return_url : string; co_expires : Z; co_consumed : option Z }.

(** A row of [terminals], by its principal's id. *)
Record TerminalRow := mkTerminalRow {
  te_label : string; te_hash : string; te_session_ttl : Z; te_last_seen : option Z; te_revoked : option Z; te_generation : Z }.

(** A row of [terminal_identifications], by its id's hash. *)
Record IdentificationRow := mkIdentification {
  it_terminal : string; it_app : string; it_return_url : string; it_state : string; it_challenge : string; it_expires : Z;
  it_consumed : option Z; it_session : option string; it_completed : option Z; it_generation : Z;
}.

(** A share link's mount, dimension and stored chain; [None] is a chain that does not parse. *)
Record StoredLink := mkStoredLink { sl_mount : string; sl_dimension : option string; sl_chain : option json }.

(** A row of [credentials] with its inline grants. *)
Record CredentialRow := mkCredential {
  cr_id : string; cr_hash : string; cr_label : option string; cr_principal : option string; cr_app : option string;
  cr_issued_by : option string; cr_expires : option Z; cr_revoked : option Z; cr_link : option StoredLink;
  cr_grants : list (string * option Scope);
}.

(** A row of [auth_log]. *)
Record AuthLogRow := mkLog {
  al_authenticate : bool; al_app : string; al_principal : option string; al_allow : bool; al_reason : option string; al_privileged : bool;
  al_terminal : option SessionTerminal;
}.

(** What other parts of IAM keep and these read. *)
Record Directory := mkDirectory {
  repositories : Repositories;
  declaredActions : string -> WorkloadKind -> string -> option (list string);
  linkMount : string -> string -> option (string * string); (* its dimension, and the action its issuer holds *)
  actionCatalog : string -> list string;
  identifyPath : string -> option string;
  returnOrigins : string -> list string;
  activeGrants : string -> list GrantRow;
  knownApps : list string;
}.

(** [createServiceStatement]'s row. *)
Definition service_principal (id label : string) (now : Z) : PrincipalRow := mkPrincipal id false None None label None (Some now) Internal.

Definition insert_principal (row : PrincipalRow) (d : Directory) : Directory :=
  let repos := repositories d in
  mkDirectory
    {| db_getPrincipalById := fun id => if (id =? pr_id row)%string then Some row else db_getPrincipalById id;
       db_getActiveGrantsForApp := db_getActiveGrantsForApp; db_listRoles := db_listRoles; db_isContractApp := db_isContractApp;
       db_getRole := db_getRole; db_getByPrincipal := db_getByPrincipal; db_declaration := db_declaration;
       platformAudiences := platformAudiences; bootstrapAdmins := bootstrapAdmins |}
    (declaredActions d) (linkMount d) (actionCatalog d) (identifyPath d) (returnOrigins d) (activeGrants d) (knownApps d).

Record Iam := mkIam {
  sessions : list SessionRow;
  codes : gmap string AuthCodeRow;
  terminals : gmap string TerminalRow;
  asserters : gmap (string * string) (list string);
  identifications : gmap string IdentificationRow;
  credentials : list CredentialRow;
  sign_ins : gmap (string * string) Z;
  auth_log : list AuthLogRow;
  directory : Directory;
  used : gset string;
}.

Definition with_sessions (l : list SessionRow) (t : Iam) : Iam :=
  mkIam l (codes t) (terminals t) (asserters t) (identifications t) (credentials t) (sign_ins t) (auth_log t) (directory t) (used t).
Definition with_codes (c : gmap string AuthCodeRow) (t : Iam) : Iam :=
  mkIam (sessions t) c (terminals t) (asserters t) (identifications t) (credentials t) (sign_ins t) (auth_log t) (directory t) (used t).
Definition with_terminals (m : gmap string TerminalRow) (t : Iam) : Iam :=
  mkIam (sessions t) (codes t) m (asserters t) (identifications t) (credentials t) (sign_ins t) (auth_log t) (directory t) (used t).
Definition with_asserters (m : gmap (string * string) (list string)) (t : Iam) : Iam :=
  mkIam (sessions t) (codes t) (terminals t) m (identifications t) (credentials t) (sign_ins t) (auth_log t) (directory t) (used t).
Definition with_identifications (m : gmap string IdentificationRow) (t : Iam) : Iam :=
  mkIam (sessions t) (codes t) (terminals t) (asserters t) m (credentials t) (sign_ins t) (auth_log t) (directory t) (used t).
Definition with_credentials (l : list CredentialRow) (t : Iam) : Iam :=
  mkIam (sessions t) (codes t) (terminals t) (asserters t) (identifications t) l (sign_ins t) (auth_log t) (directory t) (used t).
Definition with_sign_ins (m : gmap (string * string) Z) (t : Iam) : Iam :=
  mkIam (sessions t) (codes t) (terminals t) (asserters t) (identifications t) (credentials t) m (auth_log t) (directory t) (used t).
Definition with_log (l : list AuthLogRow) (t : Iam) : Iam :=
  mkIam (sessions t) (codes t) (terminals t) (asserters t) (identifications t) (credentials t) (sign_ins t) l (directory t) (used t).
Definition with_directory (d : Directory) (t : Iam) : Iam :=
  mkIam (sessions t) (codes t) (terminals t) (asserters t) (identifications t) (credentials t) (sign_ins t) (auth_log t) d (used t).
Definition with_used (u : gset string) (t : Iam) : Iam :=
  mkIam (sessions t) (codes t) (terminals t) (asserters t) (identifications t) (credentials t) (sign_ins t) (auth_log t) (directory t) u.

(** What a step meets: the clock, [uuidv7()] and another one, a fresh random secret, and whether the database refuses its
    statements. *)
Record Surroundings := mkSurroundings { e_now : Z; e_uuid : string; e_other : string; e_random : string; e_fails : bool }.

Notation iam := (prog Surroundings Iam).

Definition logged (row : AuthLogRow) (t : Iam) : Iam := with_log (auth_log t ++ [row]) t.

Definition logged_if (row : option AuthLogRow) (t : Iam) : Iam := match row with Some row => logged row t | None => t end.

(** ** Sessions *)

(** A session to create; its id and hash are given apart. *)
Record NewSession := mkNewSession {
  ns_principal : string; ns_idp_sub : option string; ns_email : option string; ns_method : AuthenticationMethod; ns_expires : Z;
  ns_app : option string; ns_parent : option string; ns_terminal : option SessionTerminal; ns_generation : option Z;
}.

Definition subjectless (method : AuthenticationMethod) : bool := match method with Password | TerminalAssertion => true | _ => false end.

(** What [createSessionStatements] throws on; [guarded] is whether a guard is given. *)
Definition session_problem (input : NewSession) (guarded : bool) : bool :=
  negb (subjectless (ns_method input)) && negb (is_some (ns_idp_sub input))
  || negb (Bool.eqb (bool_decide (ns_method input = TerminalAssertion)) (is_some (ns_terminal input)))
  || negb (Bool.eqb (is_some (ns_terminal input)) (is_some (ns_generation input)))
  || guarded && is_some (ns_app input).

Definition session_row (id hash : string) (now : Z) (input : NewSession) : SessionRow :=
  mkSession id hash (ns_principal input) (ns_idp_sub input) (ns_email input) (ns_method input) now (ns_expires input) None (ns_app input)
    (ns_parent input) (terminalId <$> ns_terminal input) (assertedBy <$> ns_terminal input) (ns_generation input).

(** The batch of [createSessionStatements], its guard held. *)
Definition insert_session (id hash : string) (now : Z) (input : NewSession) (log : option AuthLogRow) (t : Iam) : Iam :=
  logged_if log
    (with_used ({[id; hash]} ∪ used t)
      (with_sign_ins match ns_app input with Some app => <[(app, ns_principal input) := now]> (sign_ins t) | None => sign_ins t end
        (with_sessions (sessions t ++ [session_row id hash now input]) t))).

Definition session_by_id (id : string) (t : Iam) : option SessionRow := List.find (fun s => (se_id s =? id)%string) (sessions t).

(** [LEFT JOIN sessions p ON p.id = s.parent_session_id] *)
Definition parent_of (s : SessionRow) (t : Iam) : option SessionRow := id ← se_parent s; session_by_id id t.

Definition coalesce {A} (a b : option A) : option A := match a with Some _ => a | None => b end.

(** [TERMINAL_ENROLLED] *)
Definition terminal_enrolled (s : SessionRow) (t : Iam) : bool :=
  let p := parent_of s t in
  match coalesce (se_terminal s) (p ≫= se_terminal) with
  | None => true
  | Some terminal =>
      match terminals t !! terminal with
      | Some row => negb (is_some (te_revoked row)) && bool_decide (coalesce (se_generation s) (p ≫= se_generation) = Some (te_generation row))
      | None => false
      end
  end.

(** The [WHERE] both reads of an active session share. *)
Definition active (now : Z) (t : Iam) (s : SessionRow) : bool :=
  negb (is_some (se_revoked s)) && (now <? se_expires s)
  && match se_parent s with
     | None => true
     | Some _ => match parent_of s t with Some p => negb (is_some (se_revoked p)) && (now <? se_expires p) | None => false end
     end
  && terminal_enrolled s t.

Definition getActiveSessionByHash (hash : string) : iam (option SessionRow) :=
  read (fun e t => List.find (fun s => (se_hash s =? hash)%string && active (e_now e) t s) (sessions t)).

Definition getActiveSessionById (id : string) : iam (option SessionRow) :=
  read (fun e t => List.find (fun s => (se_id s =? id)%string && active (e_now e) t s) (sessions t)).

Definition getSessionByHashForAudit (hash : string) : iam (option SessionRow) :=
  read (fun _ t => List.find (fun s => (se_hash s =? hash)%string) (sessions t)).

Definition hasActiveChild (parent app : string) : iam bool :=
  read (fun e t => existsb (fun s => bool_decide (se_parent s = Some parent) && bool_decide (se_app s = Some app)
    && negb (is_some (se_revoked s)) && (e_now e <? se_expires s)) (sessions t)).

(** [UPDATE sessions SET revoked_at = ? WHERE p AND revoked_at IS NULL] *)
Definition revoke_row (now : Z) (s : SessionRow) : SessionRow :=
  mkSession (se_id s) (se_hash s) (se_principal s) (se_idp_sub s) (se_email s) (se_method s) (se_created s) (se_expires s) (Some now)
    (se_app s) (se_parent s) (se_terminal s) (se_asserted_by s) (se_generation s).

Definition revocable (p : SessionRow -> bool) (s : SessionRow) : bool := p s && negb (is_some (se_revoked s)).

Definition revoke_sessions (p : SessionRow -> bool) (now : Z) (t : Iam) : Iam :=
  with_sessions (map (fun s => if revocable p s then revoke_row now s else s) (sessions t)) t.

(** [logout] rows for the sessions a revocation ends. *)
Definition logout_rows (app : string) (reason : option string) (ended : list SessionRow) : list AuthLogRow :=
  map (fun s => mkLog false app (Some (se_principal s)) true reason false (sessionTerminal s)) ended.

Definition revokeSessionByHash (hash : string) (log : option (string * option string)) : iam bool :=
  atomic (fun e t =>
    let p s := (se_hash s =? hash)%string in
    let ended := List.filter (revocable p) (sessions t) in
    let t' := revoke_sessions p (e_now e) t in
    (match ended with [] => false | _ => true end,
     match log with Some (app, reason) => with_log (auth_log t ++ logout_rows app reason ended) t' | None => t' end)).

Definition revokeSessionById (id : string) : iam bool :=
  atomic (fun e t => let p s := (se_id s =? id)%string in (existsb (revocable p) (sessions t), revoke_sessions p (e_now e) t)).

Definition revokeSessionsForPrincipal (principal : string) : iam nat :=
  atomic (fun e t => let p s := (se_principal s =? principal)%string in
    (length (List.filter (revocable p) (sessions t)), revoke_sessions p (e_now e) t)).

(** [revokePasswordSessionsStatement] of [password-db.ts], in the batches that change a password. *)
Definition revokePasswordSessions (principal : string) : iam nat :=
  atomic (fun e t => let p s := (se_principal s =? principal)%string && bool_decide (se_method s = Password) in
    (length (List.filter (revocable p) (sessions t)), revoke_sessions p (e_now e) t)).

(** The rows a deletion leaves: a child goes with its parent, and a code with its login ([ON DELETE CASCADE]). *)
Definition delete_sessions (p : SessionRow -> bool) (t : Iam) : Iam :=
  let gone id := match session_by_id id t with Some s => p s | None => false end in
  with_codes (filter (fun c => gone (co_parent c.2) = false) (codes t))
    (with_sessions (List.filter (fun s => negb (p s) && match se_parent s with Some id => negb (gone id) | None => true end) (sessions t)) t).

Definition pruneSessions (now : Z) : iam unit := write (fun _ t => delete_sessions (fun s => (se_expires s <? now) || is_some (se_revoked s)) t).

(** ** Hand-off codes *)

Definition listReturnOrigins (app : string) : iam (list string) := read (fun _ t => returnOrigins (directory t) app).

(** [hash] is the new code's; the code itself is known to the caller. *)
Definition insert_code (hash : string) (row : AuthCodeRow) (t : Iam) : Iam :=
  with_used ({[hash]} ∪ used t) (with_codes (<[hash := row]> (codes t)) t).

Definition consume_row (now : Z) (c : AuthCodeRow) : AuthCodeRow := mkCode (co_app c) (co_parent c) (co_return_url c) (co_expires c) (Some now).

Definition markCode (hash : string) (now : Z) : iam bool :=
  atomic (fun _ t =>
    match codes t !! hash with
    | Some c => if negb (is_some (co_consumed c)) && (now <? co_expires c) then (true, with_codes (<[hash := consume_row now c]> (codes t)) t)
                else (false, t)
    | None => (false, t)
    end).

Definition findCode (hash : string) : iam (option AuthCodeRow) := read (fun _ t => codes t !! hash).

Definition consumeCode (hash : string) (now : Z) : iam (option AuthCodeRow) :=
  marked ← markCode hash now;
  if marked : bool then findCode hash else mret None.

Definition pruneCodes (now : Z) : iam unit :=
  write (fun _ t => with_codes (filter (fun c => (co_expires c.2 <? now) || is_some (co_consumed c.2) = false) (codes t)) t).

(** ** Terminals *)

(** The fallbacks of a terminal's row read nothing of these, so the row carries no [enrolled_by] nor [created_at]. *)
Definition enrol_terminal (id : string) (row : TerminalRow) (t : Iam) : Iam :=
  with_used ({[id; te_hash row]} ∪ used t) (with_terminals (<[id := row]> (terminals t)) t).

Definition getActiveByTokenHash (hash : string) : iam (option (string * TerminalRow)) :=
  read (fun _ t => List.find (fun r => (te_hash r.2 =? hash)%string && negb (is_some (te_revoked r.2))) (map_to_list (terminals t))).

Definition getTerminal (id : string) : iam (option TerminalRow) := read (fun _ t => terminals t !! id).

Definition getAsserter (terminal app : string) : iam (option (list string)) := read (fun _ t => asserters t !! (terminal, app)).

Record TerminalProfile := mkProfile { tp_label : string; tp_asserters : list (string * list string); tp_session_ttl : Z }.

Definition set_profile_row (profile : TerminalProfile) (r : TerminalRow) : TerminalRow :=
  mkTerminalRow (tp_label profile) (te_hash r) (tp_session_ttl profile) (te_last_seen r) (te_revoked r) (te_generation r).

(** The label of the terminal's principal is the directory's. *)
Definition setProfile (id : string) (profile : TerminalProfile) : iam bool :=
  atomic (fun _ t =>
    match terminals t !! id with
    | Some r =>
        if is_some (te_revoked r) then (false, t)
        else (true, with_asserters (foldl (fun m a => <[(id, a.1) := a.2]> m) (filter (fun a => a.1.1 <> id) (asserters t)) (tp_asserters profile))
                      (with_terminals (<[id := set_profile_row profile r]> (terminals t)) t))
    | None => (false, t)
    end).

Definition end_identification (now : Z) (i : IdentificationRow) : IdentificationRow :=
  mkIdentification (it_terminal i) (it_app i) (it_return_url i) (it_state i) (it_challenge i) (it_expires i) (Some now) (it_session i)
    (it_completed i) (it_generation i).

(** [endIdentificationsChange] *)
Definition end_identifications (terminal : string) (now : Z) (t : Iam) : Iam :=
  with_identifications
    ((fun i => if (it_terminal i =? terminal)%string && negb (is_some (it_consumed i)) then end_identification now i else i) <$> identifications t) t.

Definition on_terminal (terminal : string) (s : SessionRow) : bool := bool_decide (se_terminal s = Some terminal).

Definition revoke_terminal_row (now : Z) (r : TerminalRow) : TerminalRow :=
  mkTerminalRow (te_label r) (te_hash r) (te_session_ttl r) (te_last_seen r) (Some now) (te_generation r).

Definition next_generation (r : TerminalRow) : TerminalRow :=
  mkTerminalRow (te_label r) (te_hash r) (te_session_ttl r) (te_last_seen r) (te_revoked r) (te_generation r + 1).

Definition seen_row (now : Z) (r : TerminalRow) : TerminalRow :=
  mkTerminalRow (te_label r) (te_hash r) (te_session_ttl r) (Some now) (te_revoked r) (te_generation r).

Definition update_terminal (id : string) (f : TerminalRow -> TerminalRow) (t : Iam) : Iam := with_terminals (alter f id (terminals t)) t.

(** [revoke] *)
Definition revokeTerminal (id : string) : iam bool :=
  atomic (fun e t =>
    let live := match terminals t !! id with Some r => negb (is_some (te_revoked r)) | None => false end in
    let t := revoke_sessions (on_terminal id) (e_now e) (end_identifications id (e_now e) t) in
    (live, if live then update_terminal id (revoke_terminal_row (e_now e)) t else t)).

(** [release], with its [logout] rows: those of the logins it ends. *)
Definition release (id : string) (log : option (string * option string)) : iam nat :=
  atomic (fun e t =>
    let ended := List.filter (revocable (on_terminal id)) (sessions t) in
    let t' := revoke_sessions (on_terminal id) (e_now e) (end_identifications id (e_now e) (update_terminal id next_generation t)) in
    (length ended,
     match log with
     | Some (app, reason) => with_log (auth_log t ++ logout_rows app reason (List.filter (fun s => negb (is_some (se_parent s))) ended)) t'
     | None => t'
     end)).

(** ** Identifications *)

(** [generation] is the terminal's; no row is written without the terminal. *)
Definition insert_identification (hash terminal app returnUrl state challenge : string) (expires now : Z) (log : option AuthLogRow) (t : Iam) : Iam :=
  logged_if log
    (update_terminal terminal (seen_row now)
      match terminals t !! terminal with
      | Some r => with_used ({[hash]} ∪ used t)
          (with_identifications (<[hash := mkIdentification terminal app returnUrl state challenge expires None None None (te_generation r)]> (identifications t)) t)
      | None => t
      end).

Definition getIdentification (hash : string) : iam (option IdentificationRow) := read (fun _ t => identifications t !! hash).

(** The [WHERE] of [consumeIdentification]: open, unexpired, and of its enrolled terminal's generation. *)
Definition consumable (now : Z) (i : IdentificationRow) (t : Iam) : bool :=
  negb (is_some (it_consumed i)) && (now <? it_expires i)
  && match terminals t !! it_terminal i with Some r => negb (is_some (te_revoked r)) && (it_generation i =? te_generation r) | None => false end.

Definition consumed_identification (session : string) (now completeBy : Z) (i : IdentificationRow) : IdentificationRow :=
  mkIdentification (it_terminal i) (it_app i) (it_return_url i) (it_state i) (it_challenge i) completeBy (Some now) (Some session) (it_completed i)
    (it_generation i).

(** [consumeIdentification] with the login it opens, in one batch; the login's hash is of a secret nobody gets. *)
Definition consumeIdentification (hash : string) (now completeBy : Z) (login : NewSession) (log : AuthLogRow) (secret_hash : string -> string) :
  iam (option IdentificationRow) :=
  atomic (fun e t =>
    match identifications t !! hash with
    | Some i =>
        if consumable now i t then
          let i := consumed_identification (e_uuid e) now completeBy i in
          (Some i, insert_session (e_uuid e) (secret_hash (e_random e)) (e_now e) login (Some log)
                     (with_identifications (<[hash := i]> (identifications t)) t))
        else (None, t)
    | None => (None, t)
    end).

Definition complete_identification (now : Z) (i : IdentificationRow) : IdentificationRow :=
  mkIdentification (it_terminal i) (it_app i) (it_return_url i) (it_state i) (it_challenge i) (it_expires i) (it_consumed i) (it_session i)
    (Some now) (it_generation i).

Definition completeIdentification (hash terminal : string) (now : Z) : iam (option IdentificationRow) :=
  atomic (fun _ t =>
    match identifications t !! hash with
    | Some i =>
        if (it_terminal i =? terminal)%string && is_some (it_session i) && negb (is_some (it_completed i)) && (now <? it_expires i) then
          let i := complete_identification now i in (Some i, with_identifications (<[hash := i]> (identifications t)) t)
        else (None, t)
    | None => (None, t)
    end).

Definition cancelIdentification (hash app : string) : iam bool :=
  atomic (fun e t =>
    match identifications t !! hash with
    | Some i => if (it_app i =? app)%string && negb (is_some (it_consumed i))
                then (true, with_identifications (<[hash := end_identification (e_now e) i]> (identifications t)) t) else (false, t)
    | None => (false, t)
    end).

Definition pruneIdentifications (now : Z) : iam unit :=
  write (fun _ t => with_identifications (filter (fun i =>
    (it_expires i.2 <? now) || is_some (it_completed i.2) || (is_some (it_consumed i.2) && negb (is_some (it_session i.2))) = false) (identifications t)) t).

(** ** Keys *)

Definition getActiveCredentialByHash (hash : string) : iam (option CredentialRow) :=
  read (fun e t => List.find (fun c => (cr_hash c =? hash)%string && negb (is_some (cr_revoked c))
    && match cr_expires c with None => true | Some expires => e_now e <? expires end) (credentials t)).

Definition getCredentialById (id : string) : iam (option CredentialRow) :=
  read (fun _ t => List.find (fun c => (cr_id c =? id)%string) (credentials t)).

Definition getCredentialGrants (id : string) : iam (list (string * option Scope)) :=
  read (fun _ t => flat_map cr_grants (List.filter (fun c => (cr_id c =? id)%string) (credentials t))).

Definition revoke_credential_row (now : Z) (c : CredentialRow) : CredentialRow :=
  mkCredential (cr_id c) (cr_hash c) (cr_label c) (cr_principal c) (cr_app c) (cr_issued_by c) (cr_expires c) (Some now) (cr_link c) (cr_grants c).

Definition key_revocable (p : CredentialRow -> bool) (c : CredentialRow) : bool := p c && negb (is_some (cr_revoked c)).

Definition revoke_credentials (p : CredentialRow -> bool) (now : Z) (t : Iam) : Iam :=
  with_credentials (map (fun c => if key_revocable p c then revoke_credential_row now c else c) (credentials t)) t.

Definition revokeCredential (id : string) : iam bool :=
  atomic (fun e t => let p c := (cr_id c =? id)%string in (existsb (key_revocable p) (credentials t), revoke_credentials p (e_now e) t)).

Definition revokeCredentialsForPrincipal (principal : string) (keep : list string) : iam nat :=
  atomic (fun e t => let p c := bool_decide (cr_principal c = Some principal) && negb (Js.elem (cr_id c) keep) in
    (length (List.filter (key_revocable p) (credentials t)), revoke_credentials p (e_now e) t)).

(** [credentialStatements], without the guard's violation: a key that is not its issuer's own, of an external issuer. *)
Definition key_refused (row : CredentialRow) (t : Iam) : bool :=
  negb (bool_decide (cr_principal row = cr_issued_by row))
  && match id ← cr_issued_by row; @db_getPrincipalById (repositories (directory t)) id with
     | Some issuer => is_external (pr_affiliation issuer)
     | None => false
     end.

Definition insert_credential (row : CredentialRow) (t : Iam) : Iam :=
  with_used ({[cr_id row; cr_hash row]} ∪ used t) (with_credentials (credentials t ++ [row]) t).

(** ** The discipline *)

(** What is hashed, and PKCE's challenge of a verifier. *)
Class Hashing := { hashToken : string -> string; pkceChallenge : string -> string }.

(** A login: a session on IAM's own host. *)
Definition is_login (s : SessionRow) : Prop := se_app s = None /\ se_parent s = None.

(** A child session has its login's principal, method, terminal and expiry, and an application. *)
Record derived (s l : SessionRow) : Prop := {
  derived_login : is_login l;
  derived_principal : se_principal s = se_principal l;
  derived_method : se_method s = se_method l;
  derived_terminal : se_terminal s = se_terminal l;
  derived_asserted : se_asserted_by s = se_asserted_by l;
  derived_generation : se_generation s = se_generation l;
  derived_expires : se_expires s = se_expires l;
}.

(** What holds of one session: an application exactly with a login behind it; a subject, a terminal and its generation
    exactly as its method has them; on a terminal, the application that asserted the person, and no other. *)
Record well_formed (s : SessionRow) : Prop := {
  wf_child : se_app s = None <-> se_parent s = None;
  wf_subject : se_idp_sub s = None -> subjectless (se_method s) = true;
  wf_terminal : se_method s = TerminalAssertion <-> is_some (se_terminal s) = true;
  wf_asserted : is_some (se_asserted_by s) = is_some (se_terminal s);
  wf_generation : is_some (se_generation s) = is_some (se_terminal s);
  wf_asserter : forall app by_, se_app s = Some app -> se_asserted_by s = Some by_ -> by_ = app;
}.

(** A session is of a generation its terminal has reached. *)
Definition reached (t : Iam) (terminal : string) (generation : Z) : Prop :=
  terminal ∈ used t /\ forall r, terminals t !! terminal = Some r -> generation <= te_generation r.

(** The name of a login: what has it is one. *)
Definition login_known (id : string) (t : Iam) : Prop := id ∈ used t /\ forall l, l ∈ sessions t -> se_id l = id -> is_login l.

(** A principal is read by its id. *)
Definition keyed (d : Directory) : Prop := forall id row, @db_getPrincipalById (repositories d) id = Some row -> pr_id row = id.

Record consistent (t : Iam) : Prop := {
  ids_unique : NoDup (se_id <$> sessions t);
  hashes_unique : NoDup (se_hash <$> sessions t);
  sessions_used s : s ∈ sessions t -> se_id s ∈ used t /\ se_hash s ∈ used t;
  parents_used s p : s ∈ sessions t -> se_parent s = Some p -> p ∈ used t;
  sessions_derived s l p : s ∈ sessions t -> se_parent s = Some p -> l ∈ sessions t -> se_id l = p -> derived s l;
  sessions_well_formed s : s ∈ sessions t -> well_formed s;
  sessions_reached s terminal g : s ∈ sessions t -> se_terminal s = Some terminal -> se_generation s = Some g -> reached t terminal g;
  codes_used h c : codes t !! h = Some c -> h ∈ used t /\ co_parent c ∈ used t;
  codes_login h c l : codes t !! h = Some c -> l ∈ sessions t -> se_id l = co_parent c -> is_login l;
  terminals_used id r : terminals t !! id = Some r -> id ∈ used t;
  identifications_used h i : identifications t !! h = Some i -> h ∈ used t /\ reached t (it_terminal i) (it_generation i);
  identifications_login h i id : identifications t !! h = Some i -> it_session i = Some id -> login_known id t;
  key_ids_unique : NoDup (cr_id <$> credentials t);
  keys_used c : c ∈ credentials t -> cr_id c ∈ used t /\ cr_hash c ∈ used t;
  principals_keyed : keyed (directory t);
}.

(** A session changes in one way only: it is revoked. *)
Definition ages (s s' : SessionRow) : Prop := s' = s \/ se_revoked s = None /\ exists now, s' = revoke_row now s.

Definition key_ages (c c' : CredentialRow) : Prop := c' = c \/ cr_revoked c = None /\ exists now, c' = revoke_credential_row now c.

Definition terminal_ages (r r' : TerminalRow) : Prop :=
  te_generation r <= te_generation r' /\ (is_some (te_revoked r) = true -> is_some (te_revoked r') = true).

Definition code_ages (c c' : AuthCodeRow) : Prop := c' = c \/ co_consumed c = None /\ exists now, c' = consume_row now c.

Definition identification_ages (i i' : IdentificationRow) : Prop :=
  it_terminal i' = it_terminal i /\ it_app i' = it_app i /\ it_return_url i' = it_return_url i /\ it_challenge i' = it_challenge i /\
  it_generation i' = it_generation i /\ (is_some (it_consumed i) = true -> is_some (it_consumed i') = true /\ it_session i' = it_session i) /\
  (is_some (it_completed i) = true -> is_some (it_completed i') = true).

(** What every step guarantees: nothing stored is undone, and what is new has an id and a hash that were never stored. *)
Record advances (t t' : Iam) : Prop := {
  adv_used : used t ⊆ used t';
  adv_sessions s' : s' ∈ sessions t' -> (exists s, s ∈ sessions t /\ ages s s') \/ (se_id s' ∉ used t /\ se_hash s' ∉ used t);
  adv_codes h c' : codes t' !! h = Some c' -> (exists c, codes t !! h = Some c /\ code_ages c c') \/ h ∉ used t;
  adv_terminals id r' : terminals t' !! id = Some r' -> (exists r, terminals t !! id = Some r /\ terminal_ages r r') \/ id ∉ used t;
  adv_identifications h i' : identifications t' !! h = Some i' -> (exists i, identifications t !! h = Some i /\ identification_ages i i') \/ h ∉ used t;
  adv_keys c' : c' ∈ credentials t' -> (exists c, c ∈ credentials t /\ key_ages c c') \/ (cr_id c' ∉ used t /\ cr_hash c' ∉ used t);
}.

Lemma ages_trans s1 s2 s3 : ages s1 s2 -> ages s2 s3 -> ages s1 s3.
Proof. intros [->|(H & now & ->)]; [done|]. intros [->|(H' & _)]; [right; eauto|done]. Qed.

Lemma key_ages_trans c1 c2 c3 : key_ages c1 c2 -> key_ages c2 c3 -> key_ages c1 c3.
Proof. intros [->|(H & now & ->)]; [done|]. intros [->|(H' & _)]; [right; eauto|done]. Qed.

Lemma code_ages_trans c1 c2 c3 : code_ages c1 c2 -> code_ages c2 c3 -> code_ages c1 c3.
Proof. intros [->|(H & now & ->)]; [done|]. intros [->|(H' & _)]; [right; eauto|done]. Qed.

Lemma terminal_ages_trans r1 r2 r3 : terminal_ages r1 r2 -> terminal_ages r2 r3 -> terminal_ages r1 r3.
Proof. intros [? ?] [? ?]. split; [lia|auto]. Qed.

Lemma identification_ages_trans i1 i2 i3 : identification_ages i1 i2 -> identification_ages i2 i3 -> identification_ages i1 i3.
Proof.
  intros (? & ? & ? & ? & ? & Hc1 & Hd1) (? & ? & ? & ? & ? & Hc2 & Hd2). repeat (split; [congruence|]). split; [|auto].
  intros Hc. destruct (Hc1 Hc) as [Hc' ?], (Hc2 Hc') as [? ?]. split; congruence.
Qed.

#[export] Instance advances_preorder : PreOrder advances.
Proof.
  split.
  - intros t. constructor; [done|..].
    + intros s Hs. left. exists s. split; [done|by left].
    + intros h c Hc. left. exists c. split; [done|by left].
    + intros id r Hr. left. exists r. split; [done|split; [lia|done]].
    + intros h i Hi. left. exists i. split; [done|]. repeat (split; [done|]). done.
    + intros c Hc. left. exists c. split; [done|by left].
  - intros t1 t2 t3 H1 H2. constructor.
    + etransitivity; [apply (adv_used _ _ H1)|apply (adv_used _ _ H2)].
    + intros s Hs. destruct (adv_sessions _ _ H2 s Hs) as [(s2 & Hs2 & Ha)|[Hi Hh]].
      * destruct (adv_sessions _ _ H1 s2 Hs2) as [(s1 & Hs1 & Ha1)|[Hi Hh]]; [left; exists s1; eauto using ages_trans|right].
        by destruct Ha as [->|(_ & now & ->)].
      * right. split; intros ?; [apply Hi|apply Hh]; by apply (adv_used _ _ H1).
    + intros h c Hc. destruct (adv_codes _ _ H2 h c Hc) as [(c2 & Hc2 & Ha)|Hu]; [|right; intros ?; apply Hu; by apply (adv_used _ _ H1)].
      destruct (adv_codes _ _ H1 h c2 Hc2) as [(c1 & Hc1 & Ha1)|Hu]; [left; exists c1; eauto using code_ages_trans|by right].
    + intros id r Hr. destruct (adv_terminals _ _ H2 id r Hr) as [(r2 & Hr2 & Ha)|Hu]; [|right; intros ?; apply Hu; by apply (adv_used _ _ H1)].
      destruct (adv_terminals _ _ H1 id r2 Hr2) as [(r1 & Hr1 & Ha1)|Hu]; [left; exists r1; eauto using terminal_ages_trans|by right].
    + intros h i Hi. destruct (adv_identifications _ _ H2 h i Hi) as [(i2 & Hi2 & Ha)|Hu]; [|right; intros ?; apply Hu; by apply (adv_used _ _ H1)].
      destruct (adv_identifications _ _ H1 h i2 Hi2) as [(i1 & Hi1 & Ha1)|Hu]; [left; exists i1; eauto using identification_ages_trans|by right].
    + intros c Hc. destruct (adv_keys _ _ H2 c Hc) as [(c2 & Hc2 & Ha)|[Hi Hh]].
      * destruct (adv_keys _ _ H1 c2 Hc2) as [(c1 & Hc1 & Ha1)|[Hi Hh]]; [left; exists c1; eauto using key_ages_trans|right].
        by destruct Ha as [->|(_ & now & ->)].
      * right. split; intros ?; [apply Hi|apply Hh]; by apply (adv_used _ _ H1).
Qed.

Section Discipline.
Context `{Hashing}.

(** Random values were never stored, whatever is written around them. *)
Record unseen (e : Surroundings) (t : Iam) : Prop := {
  unseen_uuid : e_uuid e ∉ used t;
  unseen_random prefix suffix : hashToken (prefix +:+ e_random e +:+ suffix) ∉ used t;
}.

#[export] Instance iam_discipline : Discipline Surroundings Iam := {| always := consistent; guarantee := advances; surroundings := unseen |}.

End Discipline.

(** ** Every statement keeps it *)

(** A step from a consistent state. *)
Definition moves (t t' : Iam) : Prop := consistent t' /\ advances t t'.

Lemma moves_refl t : consistent t -> moves t t.
Proof. by split. Qed.

Lemma moves_trans t1 t2 t3 : moves t1 t2 -> moves t2 t3 -> moves t1 t3.
Proof. intros [_ H1] [H2 H3]. split; [done|by transitivity t2]. Qed.

(** Tables that nothing above speaks of. *)
Lemma moves_same t t' :
  sessions t' = sessions t -> codes t' = codes t -> terminals t' = terminals t -> identifications t' = identifications t ->
  credentials t' = credentials t -> used t ⊆ used t' -> keyed (directory t') -> consistent t -> moves t t'.
Proof.
  intros Es Ec Et Ei Ek Hu Hd Ht. split; constructor; try rewrite Es; try rewrite Ec; try rewrite Ek; try apply Ht; try done.
  - intros s Hs. destruct (sessions_used t Ht s Hs) as [? ?]. split; by apply Hu.
  - intros s p Hs Hp. apply Hu. by eapply (parents_used t Ht).
  - intros s id g Hs Hi Hg. destruct (sessions_reached t Ht s id g Hs Hi Hg) as [? ?]. split; [by apply Hu|]. by rewrite Et.
  - intros h c Hc. destruct (codes_used t Ht h c Hc) as [? ?]. split; by apply Hu.
  - rewrite Et. intros id r Hr. apply Hu. by eapply (terminals_used t Ht).
  - rewrite Ei. intros h i Hi. destruct (identifications_used t Ht h i Hi) as (? & ? & ?). split; [by apply Hu|]. split; [by apply Hu|]. by rewrite Et.
  - rewrite Ei. intros h i id Hi Hid. destruct (identifications_login t Ht h i id Hi Hid) as [? ?]. split; [by apply Hu|by rewrite Es].
  - intros c Hc. destruct (keys_used t Ht c Hc) as [? ?]. split; by apply Hu.
  - intros s Hs. left. exists s. split; [done|by left].
  - intros h c Hc. left. exists c. split; [done|by left].
  - rewrite Et. intros id r Hr. left. exists r. split; [done|split; [lia|done]].
  - rewrite Ei. intros h i Hi. left. exists i. split; [done|]. repeat (split; [done|]). done.
  - intros c Hc. left. exists c. split; [done|by left].
Qed.

Lemma moves_log l t : consistent t -> moves t (with_log l t).
Proof. intros Ht. apply moves_same; try done. apply Ht. Qed.

Lemma moves_logged_if log t : consistent t -> moves t (logged_if log t).
Proof. intros Ht. destruct log; [by apply moves_log|by apply moves_refl]. Qed.

Lemma ages_static s s' : ages s s' -> s' = mkSession (se_id s) (se_hash s) (se_principal s) (se_idp_sub s) (se_email s) (se_method s) (se_created s)
  (se_expires s) (se_revoked s') (se_app s) (se_parent s) (se_terminal s) (se_asserted_by s) (se_generation s).
Proof. intros [->|(_ & now & ->)]; [by destruct s|done]. Qed.

(** Sessions only age, or go. *)
Lemma moves_sessions l t :
  (forall s', s' ∈ l -> exists s, s ∈ sessions t /\ ages s s') -> NoDup (se_id <$> l) -> NoDup (se_hash <$> l) ->
  consistent t -> moves t (with_sessions l t).
Proof.
  intros Hl Hi Hh Ht. split; constructor; cbn; try apply Ht; try done.
  - intros s' (s & Hs & ->%ages_static)%Hl. cbn. by apply (sessions_used t Ht).
  - intros s' p (s & Hs & ->%ages_static)%Hl. cbn. by apply (parents_used t Ht).
  - intros s' m' p (s & Hs & ->%ages_static)%Hl Hp (m & Hm & ->%ages_static)%Hl Hid. cbn in *.
    destruct (sessions_derived t Ht s m p Hs Hp Hm Hid) as [[? ?] ? ? ? ? ? ?]. by constructor.
  - intros s' (s & Hs & ->%ages_static)%Hl. destruct (sessions_well_formed t Ht s Hs) as [? ? ? ? ? ?]. by constructor.
  - intros s' id g (s & Hs & ->%ages_static)%Hl. cbn. by apply (sessions_reached t Ht).
  - intros h c s' Hc (s & Hs & ->%ages_static)%Hl Hid. cbn in *. exact (codes_login t Ht h c s Hc Hs Hid).
  - intros h i id Hci Hid. destruct (identifications_login t Ht h i id Hci Hid) as [? Hlog]. split; [done|].
    intros s' (s & Hs & ->%ages_static)%Hl Hsid. cbn in *. exact (Hlog s Hs Hsid).
  - intros s' Hs'. left. by apply Hl.
  - intros h c Hc. left. exists c. split; [done|by left].
  - intros id r Hr. left. exists r. split; [done|split; [lia|done]].
  - intros h i Hci. left. exists i. split; [done|]. repeat (split; [done|]). done.
  - intros c Hc. left. exists c. split; [done|by left].
Qed.

Lemma revoke_static {A} (f : SessionRow -> A) p now (l : list SessionRow) :
  (forall s, f (revoke_row now s) = f s) -> f <$> map (fun s => if revocable p s then revoke_row now s else s) l = f <$> l.
Proof. intros Hf. induction l as [|s l IH]; [done|]. cbn. rewrite IH. f_equal. by destruct (revocable p s). Qed.

Lemma moves_revoke p now t : consistent t -> moves t (revoke_sessions p now t).
Proof.
  intros Ht. apply moves_sessions; [| | |done].
  - intros s' (s & -> & Hs)%list_elem_of_fmap. exists s. split; [done|]. destruct (revocable p s) eqn:Hr; [|by left].
    right. unfold revocable in Hr. apply andb_true_iff in Hr as [_ Hr]. split; [by destruct (se_revoked s)|by exists now].
  - rewrite revoke_static by done. apply Ht.
  - rewrite revoke_static by done. apply Ht.
Qed.

Lemma NoDup_fmap_filter {A B} (f : A -> B) p (l : list A) : NoDup (f <$> l) -> NoDup (f <$> List.filter p l).
Proof.
  induction l as [|x l IH]; [done|]. cbn. intros [Hx Hl]%NoDup_cons. destruct (p x); [|by apply IH]. cbn. apply NoDup_cons. split; [|by apply IH].
  intros (y & Hy & Hin)%list_elem_of_fmap. apply list_elem_of_In, filter_In in Hin as [Hin _]. apply Hx. apply list_elem_of_fmap. exists y.
  split; [done|by apply list_elem_of_In].
Qed.

(** Codes only age, or go; or one is new, of a login. *)
Lemma moves_codes m u t :
  used t ⊆ u ->
  (forall h c', m !! h = Some c' -> (exists c, codes t !! h = Some c /\ code_ages c c') \/
     h ∉ used t /\ h ∈ u /\ co_parent c' ∈ used t /\ forall l, l ∈ sessions t -> se_id l = co_parent c' -> is_login l) ->
  consistent t -> moves t (with_used u (with_codes m t)).
Proof.
  intros Hu Hm Ht. split; constructor; cbn; try apply Ht; try done.
  - intros s Hs. destruct (sessions_used t Ht s Hs). auto.
  - intros s p Hs Hp. pose proof (parents_used t Ht s p Hs Hp). auto.
  - intros s id g Hs Hi Hg. destruct (sessions_reached t Ht s id g Hs Hi Hg). split; [by apply Hu|done].
  - intros h c Hc. destruct (Hm h c Hc) as [(c0 & Hc0 & Ha)|(_ & ? & ? & _)]; [|auto]. destruct (codes_used t Ht h c0 Hc0) as [? Hp].
    split; [by apply Hu|]. apply Hu. by destruct Ha as [->|(_ & now & ->)].
  - intros h c l Hc Hl Hid. destruct (Hm h c Hc) as [(c0 & Hc0 & Ha)|(_ & _ & _ & Hlog)]; [|by apply Hlog].
    apply (codes_login t Ht h c0 l Hc0 Hl). by destruct Ha as [->|(_ & now & ->)].
  - intros id r Hr. pose proof (terminals_used t Ht id r Hr). auto.
  - intros h i Hi. destruct (identifications_used t Ht h i Hi) as (? & ? & ?). split; [by apply Hu|]. split; [by apply Hu|done].
  - intros h i id Hi Hid. destruct (identifications_login t Ht h i id Hi Hid). split; [by apply Hu|done].
  - intros c Hc. destruct (keys_used t Ht c Hc). auto.
  - intros s Hs. left. exists s. split; [done|by left].
  - intros h c Hc. destruct (Hm h c Hc) as [?|(? & _)]; [by left|by right].
  - intros id r Hr. left. exists r. split; [done|split; [lia|done]].
  - intros h i Hi. left. exists i. split; [done|]. repeat (split; [done|]). done.
  - intros c Hc. left. exists c. split; [done|by left].
Qed.

(** Terminals only age; or one is new. *)
Lemma moves_terminals m u t :
  used t ⊆ u ->
  (forall id r', m !! id = Some r' -> (exists r, terminals t !! id = Some r /\ terminal_ages r r') \/ id ∉ used t /\ id ∈ u) ->
  consistent t -> moves t (with_used u (with_terminals m t)).
Proof.
  intros Hu Hm Ht.
  assert (Hr : forall id g, reached t id g -> reached (with_used u (with_terminals m t)) id g).
  { intros id g [Hi Hg]. split; [by apply Hu|]. cbn. intros r Hr. destruct (Hm id r Hr) as [(r0 & Hr0 & Ha & _)|[? _]]; [|done].
    specialize (Hg r0 Hr0). lia. }
  split; constructor; cbn; try apply Ht; try done.
  - intros s Hs. destruct (sessions_used t Ht s Hs). auto.
  - intros s p Hs Hp. pose proof (parents_used t Ht s p Hs Hp). auto.
  - intros s id g Hs Hi Hg. apply Hr. by eapply (sessions_reached t Ht).
  - intros h c Hc. destruct (codes_used t Ht h c Hc). auto.
  - intros id r Hid. destruct (Hm id r Hid) as [(r0 & Hr0 & _)|[_ ?]]; [|done]. apply Hu. by eapply (terminals_used t Ht).
  - intros h i Hi. destruct (identifications_used t Ht h i Hi) as [? ?]. split; [by apply Hu|by apply Hr].
  - intros h i id Hi Hid. destruct (identifications_login t Ht h i id Hi Hid). split; [by apply Hu|done].
  - intros c Hc. destruct (keys_used t Ht c Hc). auto.
  - intros s Hs. left. exists s. split; [done|by left].
  - intros h c Hc. left. exists c. split; [done|by left].
  - intros id r Hid. destruct (Hm id r Hid) as [?|[? _]]; [by left|by right].
  - intros h i Hi. left. exists i. split; [done|]. repeat (split; [done|]). done.
  - intros c Hc. left. exists c. split; [done|by left].
Qed.

(** Identifications only age, or go; or one is new, of a generation its terminal has reached. *)
Lemma moves_identifications m u t :
  used t ⊆ u ->
  (forall h i', m !! h = Some i' ->
     ((exists i, identifications t !! h = Some i /\ identification_ages i i') \/ h ∉ used t /\ h ∈ u /\ reached t (it_terminal i') (it_generation i')) /\
     forall id, it_session i' = Some id -> id ∈ u /\ forall l, l ∈ sessions t -> se_id l = id -> is_login l) ->
  consistent t -> moves t (with_used u (with_identifications m t)).
Proof.
  intros Hu Hm Ht.
  assert (Hr : forall id g, reached t id g -> reached (with_used u (with_identifications m t)) id g).
  { intros id g [Hi Hg]. split; [by apply Hu|done]. }
  split; constructor; cbn; try apply Ht; try done.
  - intros s Hs. destruct (sessions_used t Ht s Hs). auto.
  - intros s p Hs Hp. pose proof (parents_used t Ht s p Hs Hp). auto.
  - intros s id g Hs Hi Hg. apply Hr. by eapply (sessions_reached t Ht).
  - intros h c Hc. destruct (codes_used t Ht h c Hc). auto.
  - intros id r Hid. apply Hu. by eapply (terminals_used t Ht).
  - intros h i Hi. destruct (Hm h i Hi) as [[(i0 & Hi0 & Ha)|(_ & ? & ?)] _]; [|split; [done|by apply Hr]].
    destruct (identifications_used t Ht h i0 Hi0) as [? ?]. destruct Ha as (-> & _ & _ & _ & -> & _). split; [by apply Hu|by apply Hr].
  - intros h i id Hi Hid. by apply (proj2 (Hm h i Hi)).
  - intros c Hc. destruct (keys_used t Ht c Hc). auto.
  - intros s Hs. left. exists s. split; [done|by left].
  - intros h c Hc. left. exists c. split; [done|by left].
  - intros id r Hid. left. exists r. split; [done|split; [lia|done]].
  - intros h i Hi. destruct (Hm h i Hi) as [[?|(? & _)] _]; [by left|by right].
  - intros c Hc. left. exists c. split; [done|by left].
Qed.

(** Keys only age; or one is new. *)
Lemma moves_keys l u t :
  used t ⊆ u -> NoDup (cr_id <$> l) ->
  (forall c', c' ∈ l -> (exists c, c ∈ credentials t /\ key_ages c c') \/ (cr_id c' ∉ used t /\ cr_hash c' ∉ used t) /\ cr_id c' ∈ u /\ cr_hash c' ∈ u) ->
  consistent t -> moves t (with_used u (with_credentials l t)).
Proof.
  intros Hu Hn Hl Ht. split; constructor; cbn; try apply Ht; try done.
  - intros s Hs. destruct (sessions_used t Ht s Hs). auto.
  - intros s p Hs Hp. pose proof (parents_used t Ht s p Hs Hp). auto.
  - intros s id g Hs Hi Hg. destruct (sessions_reached t Ht s id g Hs Hi Hg). split; [by apply Hu|done].
  - intros h c Hc. destruct (codes_used t Ht h c Hc). auto.
  - intros id r Hid. apply Hu. by eapply (terminals_used t Ht).
  - intros h i Hi. destruct (identifications_used t Ht h i Hi) as (? & ? & ?). split; [by apply Hu|]. split; [by apply Hu|done].
  - intros h i id Hi Hid. destruct (identifications_login t Ht h i id Hi Hid). split; [by apply Hu|done].
  - intros c' Hc'. destruct (Hl c' Hc') as [(c & Hc & Ha)|(_ & ?)]; [|done]. destruct (keys_used t Ht c Hc). destruct Ha as [->|(_ & now & ->)]; auto.
  - intros s Hs. left. exists s. split; [done|by left].
  - intros h c Hc. left. exists c. split; [done|by left].
  - intros id r Hid. left. exists r. split; [done|split; [lia|done]].
  - intros h i Hi. left. exists i. split; [done|]. repeat (split; [done|]). done.
  - intros c Hc. destruct (Hl c Hc) as [?|(? & _)]; [by left|by right].
Qed.

(** A session is created with a fresh id and hash, of a login, or as the child of one. *)
Lemma moves_insert_session id hash now input log t :
  id ∉ used t -> hash ∉ used t -> well_formed (session_row id hash now input) ->
  match ns_parent input with
  | None => True
  | Some p => p ∈ used t /\ forall l, l ∈ sessions t -> se_id l = p -> derived (session_row id hash now input) l
  end ->
  (forall terminal g, ns_terminal input = Some terminal -> ns_generation input = Some g -> reached t (terminalId terminal) g) ->
  consistent t -> moves t (insert_session id hash now input log t).
Proof.
  intros Hid Hhash Hw Hp Ht Hc. unfold insert_session.
  set (t' := with_used _ _). enough (Hm : moves t t'). { destruct log; [|done]. eapply moves_trans; [done|]. apply moves_log, Hm. }
  assert (Hin : forall s, s ∈ sessions t' <-> s ∈ sessions t \/ s = session_row id hash now input).
  { intros s. cbn. rewrite elem_of_app, list_elem_of_singleton. done. }
  assert (Hself : se_parent (session_row id hash now input) <> Some id).
  { cbn. intros E. rewrite E in Hp. by destruct Hp. }
  assert (Hu : forall x, x ∈ used t -> x ∈ used t') by (intros x; cbn; set_solver).
  split; constructor.
  - cbn. rewrite fmap_app. apply NoDup_app. split; [apply Hc|]. split; [|apply NoDup_singleton].
    intros x (s & -> & Hs)%list_elem_of_fmap Hx. apply list_elem_of_singleton in Hx. cbn in Hx. destruct (sessions_used t Hc s Hs). congruence.
  - cbn. rewrite fmap_app. apply NoDup_app. split; [apply Hc|]. split; [|apply NoDup_singleton].
    intros x (s & -> & Hs)%list_elem_of_fmap Hx. apply list_elem_of_singleton in Hx. cbn in Hx. destruct (sessions_used t Hc s Hs). congruence.
  - intros s [Hs| ->]%Hin; [|cbn; set_solver]. destruct (sessions_used t Hc s Hs). auto.
  - intros s p [Hs| ->]%Hin E; [apply Hu; by eapply (parents_used t Hc)|]. cbn in E. rewrite E in Hp. apply Hu, Hp.
  - intros s l p [Hs| ->]%Hin E [Hl| ->]%Hin El.
    + by eapply (sessions_derived t Hc).
    + cbn in El. subst p. destruct Hid. by eapply (parents_used t Hc).
    + cbn in E. rewrite E in Hp. by apply Hp.
    + cbn in El. congruence.
  - intros s [Hs| ->]%Hin; [by apply (sessions_well_formed t Hc)|done].
  - intros s terminal g [Hs| ->]%Hin E Eg.
    + destruct (sessions_reached t Hc s terminal g Hs E Eg) as [? ?]. split; [by apply Hu|done].
    + cbn in E, Eg. destruct (ns_terminal input) as [tm|] eqn:En; [|done]. injection E as <-. destruct (Ht tm g eq_refl Eg) as [? ?]. split; [by apply Hu|done].
  - intros h c Hco. destruct (codes_used t Hc h c Hco). auto.
  - intros h c l Hco [Hl| ->]%Hin El; [by eapply (codes_login t Hc)|]. cbn in El. destruct (codes_used t Hc h c Hco) as [_ Hpu]. congruence.
  - intros tm r Hr. apply Hu. by eapply (terminals_used t Hc).
  - intros h i Hi. destruct (identifications_used t Hc h i Hi) as (? & ? & ?). split; [by apply Hu|]. split; [by apply Hu|done].
  - intros h i sid Hi Hsid. destruct (identifications_login t Hc h i sid Hi Hsid) as [? Hl]. split; [by apply Hu|].
    intros l [?| ->]%Hin El; [by apply Hl|]. cbn in El. congruence.
  - apply Hc.
  - intros c Hk. destruct (keys_used t Hc c Hk). auto.
  - apply Hc.
  - intros x. apply Hu.
  - intros s [Hs| ->]%Hin; [left; exists s; split; [done|by left]|]. right. by cbn.
  - intros h c Hco. left. exists c. split; [done|by left].
  - intros tm r Hr. left. exists r. split; [done|split; [lia|done]].
  - intros h i Hi. left. exists i. split; [done|]. repeat (split; [done|]). done.
  - intros c Hk. left. exists c. split; [done|by left].
Qed.

Lemma moves_delete p t : consistent t -> moves t (delete_sessions p t).
Proof.
  intros Ht. unfold delete_sessions. set (l := List.filter _ _).
  assert (Hl : moves t (with_sessions l t)).
  { apply moves_sessions; [| | |done]; [|apply NoDup_fmap_filter, Ht..].
    intros s (Hs & _)%list_elem_of_In%filter_In. exists s. split; [by apply list_elem_of_In|by left]. }
  set (m := filter _ _). eapply moves_trans; [exact Hl|]. apply (moves_codes m (used t) (with_sessions l t)); [done| |apply Hl].
  intros h c [Hc _]%map_lookup_filter_Some. left. exists c. split; [done|by left].
Qed.

Lemma moves_update_terminal id f t : (forall r, terminal_ages r (f r)) -> consistent t -> moves t (update_terminal id f t).
Proof.
  intros Hf Ht. refine (moves_terminals (alter f id (terminals t)) (used t) t _ _ _); [done| |done]. intros id' r Hr. left. destruct (decide (id = id')) as [<-|Hne].
  - rewrite lookup_alter_eq in Hr. destruct (terminals t !! id) as [r0|]; [|done]. injection Hr as <-. by exists r0.
  - rewrite lookup_alter_ne in Hr by done. exists r. split; [done|]. split; [lia|done].
Qed.

(** Identifications, each replaced by an aged one. *)
Lemma moves_age_identifications m t :
  (forall h i', m !! h = Some i' -> exists i, identifications t !! h = Some i /\ identification_ages i i' /\ it_session i' = it_session i) ->
  consistent t -> moves t (with_identifications m t).
Proof.
  intros Hm Ht. refine (moves_identifications m (used t) t _ _ _); [done| |done]. intros h i' Hi'. destruct (Hm h i' Hi') as (i & Hi & Ha & Es).
  split; [left; by exists i|]. intros id Eid. rewrite Es in Eid. by apply (identifications_login t Ht h i id).
Qed.

Lemma end_identification_ages now i : it_consumed i = None -> identification_ages i (end_identification now i).
Proof. intros Hi. repeat (split; [by rewrite ?Hi|]). done. Qed.

Lemma identification_ages_refl i : identification_ages i i.
Proof. by repeat (split; [done|]). Qed.

Lemma moves_end_identifications id now t : consistent t -> moves t (end_identifications id now t).
Proof.
  apply moves_age_identifications. intros h i' (i & Hi & Hi')%lookup_fmap_Some. exists i. split; [done|]. rewrite <- Hi.
  destruct (it_terminal i =? id)%string; [|split; [apply identification_ages_refl|done]]. cbn.
  destruct (it_consumed i) eqn:Ec; cbn; [split; [apply identification_ages_refl|done]|]. split; [by apply end_identification_ages|done].
Qed.

Lemma moves_prune_identifications P `{!forall x, Decision (P x)} t : consistent t -> moves t (with_identifications (filter P (identifications t)) t).
Proof. apply moves_age_identifications. intros h i [Hi _]%map_lookup_filter_Some. exists i. split; [done|]. split; [apply identification_ages_refl|done]. Qed.

Lemma moves_prune_codes P `{!forall x, Decision (P x)} t : consistent t -> moves t (with_codes (filter P (codes t)) t).
Proof. refine (moves_codes (filter P (codes t)) (used t) t _ _); [done|]. intros h c [Hc _]%map_lookup_filter_Some. left. exists c. split; [done|by left]. Qed.

Lemma moves_revoke_keys p now t : consistent t -> moves t (revoke_credentials p now t).
Proof.
  intros Ht. refine (moves_keys _ (used t) t _ _ _ _); [done| | |done].
  - rewrite <- list_fmap_compose. erewrite list_fmap_ext; [apply Ht|]. intros _ c _. cbn. by destruct (key_revocable p c).
  - intros c' (c & -> & Hc)%list_elem_of_fmap. left. exists c. split; [done|]. destruct (key_revocable p c) eqn:Hr; [|by left].
    right. unfold key_revocable in Hr. apply andb_true_iff in Hr as [_ Hr]. split; [by destruct (cr_revoked c)|by exists now].
Qed.

Lemma moves_insert_key row t : cr_id row ∉ used t -> cr_hash row ∉ used t -> consistent t -> moves t (insert_credential row t).
Proof.
  intros Hi Hh Ht. apply moves_keys; [set_solver| | |done].
  - rewrite fmap_app. apply NoDup_app. split; [apply Ht|]. split; [|apply NoDup_singleton].
    intros x (c & -> & Hc)%list_elem_of_fmap Hx. apply list_elem_of_singleton in Hx. destruct (keys_used t Ht c Hc). congruence.
  - intros c [Hc| ->%list_elem_of_singleton]%elem_of_app; [left; exists c; split; [done|by left]|]. right. split; [done|]. set_solver.
Qed.

(** ** A login that is over *)

(** A session ended: it was revoked, or its terminal was, is gone or moved on. *)
Definition ended (t : Iam) (s : SessionRow) : Prop :=
  se_revoked s <> None \/
  exists id g, se_terminal s = Some id /\ se_generation s = Some g /\
    forall r, terminals t !! id = Some r -> is_some (te_revoked r) = true \/ g < te_generation r.

(** The login is over: it ended, or its row is gone. *)
Definition over (login : string) (t : Iam) : Prop := login ∈ used t /\ forall l, l ∈ sessions t -> se_id l = login -> ended t l.

(** A session stands on the login it is, or was handed off from. *)
Definition stands_on (login : string) (s : SessionRow) : Prop := se_id s = login \/ se_parent s = Some login.

Lemma ended_ages t t' s s' : consistent t -> advances t t' -> s ∈ sessions t -> ages s s' -> ended t s -> ended t' s'.
Proof.
  intros Ht Ha Hs [->|(Hn & now & ->)] He; [|by left]. destruct He as [He|(id & g & Hid & Hg & Hr)]; [by left|]. right. exists id, g.
  split; [done|]. split; [done|]. intros r' Hr'. destruct (sessions_reached t Ht s id g Hs Hid Hg) as [Hu _].
  destruct (adv_terminals _ _ Ha id r' Hr') as [(r & Hr0 & Hgen & Hrev)|?]; [|done]. destruct (Hr r Hr0); [left; auto|right; lia].
Qed.

Section Over.
Context `{Hashing}.

Lemma over_stable login : stable (over login).
Proof.
  intros t t' Ht Ht' Ha [Hu Hl]. split; [by apply (adv_used _ _ Ha)|]. intros l' Hl' Hid.
  destruct (adv_sessions _ _ Ha l' Hl') as [(l & Hin & Hag)|[Hn _]]; [|congruence].
  apply (ended_ages t t' l l' Ht Ha Hin Hag). apply Hl; [done|]. by rewrite (ages_static _ _ Hag) in Hid.
Qed.

Lemma find_session (p : SessionRow -> bool) t s : List.find p (sessions t) = Some s -> s ∈ sessions t /\ p s = true.
Proof. intros Hf%find_some. by rewrite <- list_elem_of_In in Hf. Qed.

Lemma session_by_id_elem id t s : session_by_id id t = Some s -> s ∈ sessions t /\ se_id s = id.
Proof. intros [? ?%String.eqb_eq]%find_session. done. Qed.

Lemma parent_of_elem s t l : parent_of s t = Some l -> exists id, se_parent s = Some id /\ l ∈ sessions t /\ se_id l = id.
Proof. unfold parent_of. destruct (se_parent s) as [id|]; [|done]. cbn. intros [? ?]%session_by_id_elem. by exists id. Qed.

(** No session that stands on a login that is over is active. *)
Lemma over_inactive login now t s : consistent t -> over login t -> s ∈ sessions t -> stands_on login s -> active now t s = false.
Proof.
  intros Ht [_ Hl] Hs Hon. unfold active. destruct (se_revoked s) eqn:Er; [done|]. cbn. destruct (now <? se_expires s); [|done]. cbn.
  assert (Hend : ended t s \/ exists l, parent_of s t = Some l /\ ended t l \/ parent_of s t = None /\ se_parent s = Some login).
  { destruct Hon as [Hid|Hp]; [left; by apply Hl|]. destruct (parent_of s t) as [l|] eqn:Ep; [|right; exists s; by right].
    destruct (parent_of_elem s t l Ep) as (id & Hp' & Hin & Hid). right. exists l. left. split; [done|]. apply Hl; congruence. }
  assert (Hterm : forall m, ended t m -> se_terminal s = se_terminal m -> se_generation s = se_generation m -> se_revoked m = None -> terminal_enrolled s t = false).
  { intros m [Hm|(id & g & Hid & Hg & Hr)] Et Eg Em; [done|]. unfold terminal_enrolled. rewrite Et, Hid, Eg, Hg. cbn.
    destruct (terminals t !! id) as [r|] eqn:Etr; [|done]. destruct (Hr r eq_refl) as [->|Hlt]; [done|]. rewrite bool_decide_eq_false_2; [by rewrite andb_false_r|].
    intros [= ->]. lia. }
  destruct Hend as [He|(l & [[Ep He]|[Ep Hp]])].
  - rewrite (Hterm s He eq_refl eq_refl Er). by rewrite andb_false_r.
  - destruct (parent_of_elem s t l Ep) as (id & Hp & Hin & Hid). rewrite Hp, Ep. destruct (se_revoked l) eqn:El; [done|]. cbn.
    destruct (sessions_derived t Ht s l id Hs Hp Hin Hid) as [_ _ _ Et _ Eg _]. rewrite (Hterm l He Et Eg El). apply andb_false_r.
  - by rewrite Hp, Ep.
Qed.

(** ** What a read tells for later *)

(** The session was read: it can only have been revoked or deleted since. *)
Definition known (s : SessionRow) (t : Iam) : Prop :=
  se_id s ∈ used t /\ well_formed s /\ (forall s', s' ∈ sessions t -> se_id s' = se_id s -> ages s s') /\
  (forall id g, se_terminal s = Some id -> se_generation s = Some g -> reached t id g).

Lemma unique_key {A B} (f : A -> B) (l : list A) x y : NoDup (f <$> l) -> x ∈ l -> y ∈ l -> f x = f y -> x = y.
Proof.
  intros Hn Hx Hy E. apply list_elem_of_lookup in Hx as [i Hi]. apply list_elem_of_lookup in Hy as [j Hj].
  assert (i = j); [|congruence]. eapply NoDup_lookup; [exact Hn|..]; rewrite list_lookup_fmap; [by rewrite Hi|]. rewrite Hj. cbn. by rewrite E.
Qed.

Lemma unique_id t s s' : consistent t -> s ∈ sessions t -> s' ∈ sessions t -> se_id s = se_id s' -> s = s'.
Proof. intros Ht. apply (unique_key se_id), Ht. Qed.

Lemma unique_hash t s s' : consistent t -> s ∈ sessions t -> s' ∈ sessions t -> se_hash s = se_hash s' -> s = s'.
Proof. intros Ht. apply (unique_key se_hash), Ht. Qed.

Lemma session_known t s : consistent t -> s ∈ sessions t -> known s t.
Proof.
  intros Ht Hs. split; [by apply (sessions_used t Ht)|]. split; [by apply (sessions_well_formed t Ht)|]. split.
  - intros s' Hs' E. left. by apply (unique_id t).
  - intros id g. by apply (sessions_reached t Ht).
Qed.

Lemma reached_stable id g : stable (fun t => reached t id g).
Proof.
  intros t t' _ _ Ha [Hu Hg]. split; [by apply (adv_used _ _ Ha)|]. intros r' Hr'.
  destruct (adv_terminals _ _ Ha id r' Hr') as [(r & Hr & Hle & _)|?]; [|done]. specialize (Hg r Hr). lia.
Qed.

Lemma known_stable s : stable (known s).
Proof.
  intros t t' Ht Ht' Ha (Hu & Hw & Hs & Hr). split; [by apply (adv_used _ _ Ha)|]. split; [done|]. split.
  - intros s' Hs' E. destruct (adv_sessions _ _ Ha s' Hs') as [(s0 & Hs0 & Hag)|[Hn _]]; [|congruence].
    eapply ages_trans; [|exact Hag]. apply Hs; [done|]. by rewrite (ages_static _ _ Hag) in E.
  - intros id g Hi Hg. eapply reached_stable; [exact Ht|exact Ht'|exact Ha|]. by apply Hr.
Qed.

(** A code that was consumed stays so, or goes. *)
Definition spent (hash : string) (t : Iam) : Prop := hash ∈ used t /\ forall c, codes t !! hash = Some c -> is_some (co_consumed c) = true.

Lemma spent_stable hash : stable (spent hash).
Proof.
  intros t t' _ _ Ha [Hu Hc]. split; [by apply (adv_used _ _ Ha)|]. intros c' Hc'.
  destruct (adv_codes _ _ Ha hash c' Hc') as [(c & Hc0 & [->|(_ & now & ->)])|?]; [by apply Hc|done|done].
Qed.

Lemma login_known_stable id : stable (login_known id).
Proof.
  intros t t' _ _ Ha [Hu Hl]. split; [by apply (adv_used _ _ Ha)|]. intros l' Hl' E.
  destruct (adv_sessions _ _ Ha l' Hl') as [(l & Hin & Hag)|[Hn _]]; [|congruence]. rewrite (ages_static _ _ Hag) in *. cbn in *. exact (Hl l Hin E).
Qed.

Lemma code_login t h c : consistent t -> codes t !! h = Some c -> login_known (co_parent c) t.
Proof. intros Ht Hc. split; [by eapply (codes_used t Ht)|]. intros l Hl E. by eapply (codes_login t Ht). Qed.

Lemma known_login s t : known s t -> se_app s = None -> login_known (se_id s) t.
Proof.
  intros (Hu & Hw & Hs & _) Happ. split; [done|]. intros l Hl E. rewrite (ages_static _ _ (Hs l Hl E)). split; cbn; [done|]. by apply (wf_child s Hw).
Qed.

End Over.
