(* ===== verification/SignIn.v ===== *)
(** Signing in to applications: [iam/src/handoff.ts], [identification.ts], [auth/sessions.ts], [auth/handoff.ts], [auth/login.ts],
    [auth/terminals.ts] and the administration of sessions and terminals, as programs of [Interleave] over the tables of
    [Sessions].

    A program answers a [Reply]: what the browser is sent, its pages by their kind. The sign-in methods themselves, whose
    flows all end in [issueSession], are answered as the reply that starts them. [Crashed] is a throw no handler catches. *)

From S2P Require Import Prelude Permissions Credentials Token Authority Interleave Sessions.
From Stdlib Require Import ZArith Lia String Ascii.
From stdpp Require Import base tactics strings gmap list pretty.

Open Scope Z_scope.

(** ** cookies.ts *)

Record CookieOptions := mkCookieOptions { ck_maxAge : option Z; ck_httpOnly : bool; ck_secure : bool; ck_sameSite : option string; ck_path : option string }.

Definition serializeCookie (name value : string) (opts : CookieOptions) : string :=
  Js.join "; "
    ([name +:+ "=" +:+ value; "Path=" +:+ default "/" (ck_path opts)]
     ++ match ck_maxAge opts with Some n => ["Max-Age=" +:+ pretty n] | None => [] end
     ++ (if ck_httpOnly opts then ["HttpOnly"] else [])
     ++ (if ck_secure opts then ["Secure"] else [])
     ++ match ck_sameSite opts with Some s => if (s =? "")%string then [] else ["SameSite=" +:+ s] | None => [] end).

Definition clearCookie (name : string) (path : option string) : string :=
  serializeCookie name "" (mkCookieOptions (Some 0) true true (Some "Lax") path).

Fixpoint cookie_loop (parts : list string) (name : string) : option string :=
  match parts with
  | [] => None
  | part :: rest =>
      match cookie_part part with
      | Some (n, value) => if (n =? name)%string then Some value else cookie_loop rest name
      | None => cookie_loop rest name
      end
  end.

Definition readCookie (header : option string) (name : string) : option string :=
  match header with Some h => if (h =? "")%string then None else cookie_loop (Js.split ";" h) name | None => None end.

(** ** origin.ts *)

(** What the code reads of [new URL(value)]. *)
Record Address := mkAddress { ad_href : string; ad_protocol : string; ad_origin : string; ad_pathname : string; ad_search : string }.

(** The platform's URLs: parsing ([None] is a throw), and [new URL(path, base)] with its parameters set in order. *)
Class Addresses := {
  address : string -> option Address;
  located : string -> string -> list (string * string) -> string;
  encodeURIComponent : string -> string;
}.

Definition is_host_unit (c : ascii) : bool := Js.is_lower c || Js.is_digit c || Ascii.eqb c "." || Ascii.eqb c "_" || Ascii.eqb c "-".

Definition is_address_unit (c : ascii) : bool := Js.is_digit c || Js.in_range 97 102 c || Ascii.eqb c ":" || Ascii.eqb c ".".

(** [(?::[0-9]+)?$] *)
Definition csp_port (s : string) : bool :=
  match s with
  | EmptyString => true
  | String c digits => Ascii.eqb c ":" && negb (digits =? "")%string && Js.forall_units Js.is_digit digits
  end.

(** [[a-z0-9._-]+], then the port; [some] is whether a unit was read. *)
Fixpoint csp_host (some : bool) (s : string) : bool :=
  match s with
  | String c rest => if is_host_unit c then csp_host true rest else some && csp_port s
  | EmptyString => some
  end.

(** [[0-9a-f:.]+\]], then the port. *)
Fixpoint csp_address (some : bool) (s : string) : bool :=
  match s with
  | String c rest => if Ascii.eqb c "]" then some && csp_port rest else is_address_unit c && csp_address true rest
  | EmptyString => false
  end.

(** [CSP_SAFE_ORIGIN.test] *)
Definition csp_safe_origin (origin : string) : bool :=
  let rest :=
    if Js.startsWith origin "https://" then Some (Js.drop 8 origin)
    else if Js.startsWith origin "http://" then Some (Js.drop 7 origin) else None in
  match rest with
  | Some rest => match rest with String "[" rest => csp_address false rest | _ => csp_host false rest end
  | None => false
  end.

(** What the installation is configured with, its landing page, and the login's parameters. *)
Class Installation := {
  issuer_url : string;
  oidc_enabled : bool;
  password_enabled : bool;
  localDevLogin : bool;
  installationLanding : Directory -> string;
}.

(** [jose]: signing with the active key, and verifying a token's signature, issuer, audience and times at a time, with a
    tolerance; the payload and the header's [typ]. *)
Class Signing := {
  jwt_sign : AccessTokenClaims -> string;
  jwt_verify : Z -> string -> string -> option string -> Z -> option (json * option string);
}.

Section SignIn.
Context `{Hashing, Addresses, Installation, UrlParser, Signing}.

Definition normalizeOrigin (value : string) : option string :=
  match address value with
  | Some url =>
      if negb (ad_protocol url =? "http:")%string && negb (ad_protocol url =? "https:")%string then None
      else let origin := Js.toLowerCase (ad_origin url) in if csp_safe_origin origin then Some origin else None
  | None => None
  end.

(** ** http.ts *)

(** What a handler reads of its request; [rq_form] is what [readForm] answers. *)
Record Request := mkRequest {
  rq_cookie : option string; rq_fetch_site : option string; rq_origin : option string; rq_referer : option string;
  rq_params : list (string * string); rq_form : option (list (string * string));
}.

Definition param (key : string) (request : Request) : option string := lookup_field key (rq_params request).

Definition safeRedirect (raw : option string) : option string :=
  match raw with
  | None => None
  | Some raw =>
      if (raw =? "")%string then None
      else target ← address raw; own ← address issuer_url;
           if (ad_origin target =? ad_origin own)%string then Some (ad_href target) else None
  end.

Definition originOf (value : option string) : option string := v ← value; ad_origin <$> address v.

Definition sameOrigin (request : Request) : bool :=
  if match rq_fetch_site request with Some site => negb (site =? "same-origin")%string | None => false end then false
  else if bool_decide (rq_origin request = Some "null") then bool_decide (rq_fetch_site request = Some "same-origin")
  else match coalesce (rq_origin request) (originOf (rq_referer request)) with
       | None => false
       | Some origin =>
           match address origin, address issuer_url with
           | Some a, Some own => (ad_origin a =? ad_origin own)%string
           | _, _ => false
           end
       end.

(** ** What the handlers share *)

Definition IAM_USERS_MANAGE : string := "iam.users.manage".
Definition IAM_TERMINALS_MANAGE : string := "iam.terminals.manage".

(** [Math.floor(Date.now() / 1000)], and [unixNow()]. *)
Definition clock : iam Z := read (fun e _ => e_now e).

Definition getPrincipalById (id : string) : iam (option PrincipalRow) := read (fun _ t => @db_getPrincipalById (repositories (directory t)) id).

Definition permissionsOf (principal : PrincipalRow) (app : string) : iam (list PermissionEntry) :=
  read (fun _ t => @resolvePermissionsAt (repositories (directory t)) principal app).

(** [sessionUsable] *)
Definition sessionUsable (row : SessionRow) : bool :=
  match se_method row with
  | Oidc => oidc_enabled
  | Password => password_enabled
  | LocalDev => localDevLogin
  | TerminalAssertion => true
  end.

(** [IamAdministrationScope]; [Users None] is every application. *)
Inductive Administration := OfInstallation | OfUsers (apps : option (list string)).

Definition iamAdministrationScope (permissions : list PermissionEntry) : option Administration :=
  if permits permissions IAM_ADMIN None then Some OfInstallation
  else match scopedValues permissions IAM_USERS_MANAGE "app" with
       | None => Some (OfUsers None)
       | Some [] => None
       | Some apps => Some (OfUsers (Some apps))
       end.

Definition administersIam (id : string) : iam bool :=
  principal ← getPrincipalById id;
  match principal with
  | None => mret false
  | Some principal => permissions ← permissionsOf principal IAM_APP_ID; mret (is_some (iamAdministrationScope permissions))
  end.

(** The foreign keys of a new session. *)
Definition references_hold (input : NewSession) (t : Iam) : bool :=
  is_some (@db_getPrincipalById (repositories (directory t)) (ns_principal input))
  && match ns_parent input with Some id => is_some (session_by_id id t) | None => true end
  && match ns_terminal input with Some terminal => is_some (terminals t !! terminalId terminal) | None => true end.

(** [createSession], whose secret is drawn where its hash is stored: the id and the secret, or [None] on a throw. *)
Definition createSession (input : NewSession) (log : AuthLogRow) : iam (option (string * string)) :=
  atomic (fun e t =>
    if session_problem input false || negb (references_hold input t) then (None, t)
    else (Some (e_uuid e, e_random e), insert_session (e_uuid e) (hashToken (e_random e)) (e_now e) input (Some log) t)).

Definition log_row (app : string) (principal : option string) (allow : bool) (reason : string) (privileged : bool) (terminal : option SessionTerminal) :
  AuthLogRow := mkLog true app principal allow (Some reason) privileged terminal.

(** ** handoff.ts *)

Definition AUTH_CODE_TTL_SECONDS : Z := 120.
Definition AUTH_CALLBACK_PATH : string := "/__fabrika/auth/callback".

Definition resolveReturnUrl (app rawUrl : string) : iam (option string) :=
  match address rawUrl with
  | None => mret None
  | Some url =>
      match normalizeOrigin (ad_href url) with
      | None => mret None
      | Some origin =>
          registered ← listReturnOrigins app;
          mret (if Js.elem origin registered then Some (origin +:+ ad_pathname url +:+ ad_search url) else None)
      end
  end.

Definition is_secret_text (low high : nat) (value : string) : bool :=
  (low <=? String.length value)%nat && (String.length value <=? high)%nat && Js.forall_units is_handoff_unit value.

Definition validChallenge (value : string) : bool := is_secret_text 43 43 value.

Definition validVerifier (value : string) : bool := is_secret_text 43 128 value.

(** What follows the last [c]. *)
Fixpoint after_last (c : ascii) (s : string) : option string :=
  match s with
  | EmptyString => None
  | String d rest => match after_last c rest with Some tail => Some tail | None => if Ascii.eqb d c then Some rest else None end
  end.

Definition challengeFromCode (code : string) : option string :=
  challenge ← after_last "." code; if validChallenge challenge then Some challenge else None.

(** [issueCode] of a code drawn where its hash is stored; [None] when its login's row is gone. *)
Definition issueCode (app parent returnUrl challenge : string) (expiresAt : Z) : iam (option string) :=
  atomic (fun e t =>
    if is_some (session_by_id parent t) then
      let code := e_random e +:+ "." +:+ challenge in
      (Some code, insert_code (hashToken code) (mkCode app parent returnUrl expiresAt None) t)
    else (None, t)).

(** The code and its end; [None] is a throw. *)
Definition issueAuthCode (app parent returnUrl challenge : string) : iam (option (string * Z)) :=
  if negb (validChallenge challenge) then mret None
  else
    now ← clock;
    let expiresAt := now + AUTH_CODE_TTL_SECONDS in
    code ← issueCode app parent returnUrl challenge expiresAt;
    mret (option_map (fun code => (code, expiresAt)) code).

Record ExchangeAuthCodeInput := mkExchange { xc_code : string; xc_app : string; xc_verifier : string }.

Inductive ExchangeRefusal := invalid_code | expired_code | wrong_app | invalid_verifier | exchange_unknown | exchange_disabled.

(** A child session's secret, where the browser goes, and the session's end. *)
Record Redeemed := mkRedeemed { rd_session : string; rd_returnUrl : string; rd_expiresAt : Z }.

Record ExchangeOutcome := mkOutcome { ex_result : ExchangeRefusal + Redeemed; ex_principal : option string; ex_terminal : option SessionTerminal }.

Definition refused_exchange (reason : ExchangeRefusal) (principal : option string) (terminal : option SessionTerminal) : option ExchangeOutcome :=
  Some (mkOutcome (inl reason) principal terminal).

(** The challenge of the code is the verifier's. *)
Definition proves (code verifier : string) : bool :=
  match challengeFromCode code with
  | None => false
  | Some challenge => validVerifier verifier && (pkceChallenge verifier =? challenge)%string
  end.

Definition child_session (principal : PrincipalRow) (parent : SessionRow) (app : string) : NewSession :=
  mkNewSession (pr_id principal) (se_idp_sub parent) (se_email parent) (se_method parent) (se_expires parent) (Some app) (Some (se_id parent))
    (sessionTerminal parent) (se_generation parent).

(** A [None] is a throw. *)
Definition exchangeAuthCode (input : ExchangeAuthCodeInput) : iam (option ExchangeOutcome) :=
  let hash := hashToken (xc_code input) in
  now ← clock;
  consumed ← consumeCode hash now;
  match consumed with
  | None =>
      existing ← findCode hash;
      mret (refused_exchange (if is_some existing then expired_code else invalid_code) None None)
  | Some consumed =>
      if negb (co_app consumed =? xc_app input)%string then mret (refused_exchange wrong_app None None)
      else if negb (proves (xc_code input) (xc_verifier input)) then mret (refused_exchange invalid_verifier None None)
      else
        parent ← getActiveSessionById (co_parent consumed);
        match parent with
        | None => mret (refused_exchange invalid_code None None)
        | Some parent =>
            let terminal := sessionTerminal parent in
            if match terminal with Some t => negb (assertedBy t =? co_app consumed)%string | None => false end
            then mret (refused_exchange wrong_app (Some (se_principal parent)) terminal)
            else
              principal ← getPrincipalById (se_principal parent);
              match principal with
              | None => mret (refused_exchange exchange_unknown None terminal)
              | Some principal =>
                  if is_disabled principal then mret (refused_exchange exchange_disabled (Some (pr_id principal)) terminal)
                  else
                    created ← createSession (child_session principal parent (co_app consumed))
                                (log_row (xc_app input) (Some (pr_id principal)) true "handoff" false terminal);
                    mret (option_map (fun '(_, secret) =>
                             mkOutcome (inr (mkRedeemed secret (co_return_url consumed) (se_expires parent))) (Some (pr_id principal)) terminal) created)
              end
        end
  end.


(** ** auth/handoff.ts *)

Record Handoff := mkHandoff { ho_app : string; ho_returnUrl : string; ho_state : string; ho_challenge : string }.

(** What a handler answers. *)
Inductive Reply :=
| Found (location : string) (cookies : list string)
| Failed (kind : string) (status : Z)
| ChooseAccount (label : string) (handoff : Handoff)
| LoginPage (redirect : option string) (handoff : option Handoff)
| EnrolPage (labelProblem : bool)
| EnrolledPage (label : string) (cookies : list string)
| StartLocalLogin (redirect : option string) (handoff : option Handoff)
| StartOidc (redirect : option string) (handoff : option Handoff)
| Crashed.

Inductive HandoffReading := NoHandoff | HandoffOf (handoff : Handoff) | RefusedHandoff (kind : string).

Definition filled (value : option string) : option string := v ← value; if (v =? "")%string then None else Some v.

Definition readHandoff (app redirect state challenge : option string) : iam HandoffReading :=
  match filled app with
  | None => mret NoHandoff
  | Some app =>
      match filled redirect with
      | None => mret (RefusedHandoff "no_return_address")
      | Some redirect =>
          match state, challenge with
          | Some state, Some challenge =>
              if negb (handoffValue state) || negb (validChallenge challenge) then mret (RefusedHandoff "no_handoff_proof")
              else
                returnUrl ← resolveReturnUrl app redirect;
                mret match returnUrl with
                     | Some returnUrl => HandoffOf (mkHandoff app returnUrl state challenge)
                     | None => RefusedHandoff "unregistered_origin"
                     end
          | _, _ => mret (RefusedHandoff "no_handoff_proof")
          end
      end
  end.

Definition handoffOf (reading : HandoffReading) : option Handoff := match reading with HandoffOf handoff => Some handoff | _ => None end.

Definition handoffRedirectOr (handoff : option Handoff) (raw : option string) : option string :=
  match handoff with None => safeRedirect raw | Some handoff => Some (ho_returnUrl handoff) end.

(** The application's callback with a new code; [None] is a throw. *)
Definition handoffLocation (handoff : Handoff) (parent : string) : iam (option string) :=
  issued ← issueAuthCode (ho_app handoff) parent (ho_returnUrl handoff) (ho_challenge handoff);
  mret (option_map (fun i => located AUTH_CALLBACK_PATH (ho_returnUrl handoff) [("code", i.1); ("state", ho_state handoff)]) issued).

Definition handoffLoginUrl (handoff : Handoff) : string :=
  located "/auth/login" issuer_url
    [("app", ho_app handoff); ("redirect", ho_returnUrl handoff); ("state", ho_state handoff); ("code_challenge", ho_challenge handoff)].

(** ** auth/sessions.ts *)

Definition SESSION_TTL_SECONDS : Z := 30 * 24 * 60 * 60.

Definition sessionCookie (value : string) : string :=
  serializeCookie SESSION_COOKIE value (mkCookieOptions (Some SESSION_TTL_SECONDS) true true (Some "Lax") (Some "/")).

Definition currentSession (request : Request) : iam (option SessionRow) :=
  match readCookie (rq_cookie request) SESSION_COOKIE with
  | None => mret None
  | Some raw =>
      row ← getActiveSessionByHash (hashToken raw);
      mret match row with
           | Some row => if is_some (se_app row) then None else if sessionUsable row then Some row else None
           | None => None
           end
  end.

(** The person may use what is theirs: neither disabled nor only invited. *)
Definition is_active (principal : PrincipalRow) : bool := match principalStatus principal with StatusActive => true | _ => false end.

Definition currentLogin (request : Request) : iam (option (SessionRow * PrincipalRow)) :=
  row ← currentSession request;
  match row with
  | None => mret None
  | Some row =>
      principal ← getPrincipalById (se_principal row);
      mret match principal with
           | Some principal => if pr_is_user principal && is_active principal then Some (row, principal) else None
           | None => None
           end
  end.

(** [issueSession]'s input; [li_ending] are the cookies [clearOidc] adds. *)
Record LoginInput := mkLogin {
  li_principal : string; li_idp_sub : option string; li_email : option string; li_method : AuthenticationMethod; li_redirect : option string;
  li_reason : string; li_ending : list string; li_handoff : option Handoff;
}.

(** Where a login lands; [None] is a throw. *)
Definition landing (input : LoginInput) (login : string) : iam (option string) :=
  match li_handoff input with
  | Some handoff => handoffLocation handoff login
  | None => match li_redirect input with
            | Some redirect => mret (Some redirect)
            | None => read (fun _ t => Some (installationLanding (directory t)))
            end
  end.

Definition issueSession (input : LoginInput) : iam Reply :=
  now ← clock;
  created ← attempt e_fails
    (privileged ← administersIam (li_principal input);
     createSession (mkNewSession (li_principal input) (li_idp_sub input) (li_email input) (li_method input) (now + SESSION_TTL_SECONDS) None None None None)
       (log_row IAM_APP_ID (Some (li_principal input)) true (li_reason input) privileged None));
  match mjoin created with
  | None => mret (Failed "login_unavailable" 503)
  | Some (id, token) =>
      location ← landing input id;
      mret match location with Some location => Found location (sessionCookie token :: li_ending input) | None => Crashed end
  end.

(** [refuseLogin], of the answer [reply]. *)
Definition refuseLogin (principal : option string) (reason : string) (reply : Reply) : iam Reply :=
  written ← attempt e_fails (write (fun _ t => logged (log_row IAM_APP_ID principal false reason false None) t));
  mret (if is_some written then reply else Failed "login_unavailable" 503).

Definition endLogin (request : Request) : iam bool :=
  match filled (readCookie (rq_cookie request) SESSION_COOKIE) with
  | None => mret true
  | Some cookie =>
      ended ← attempt e_fails (revokeSessionByHash (hashToken cookie) (Some (IAM_APP_ID, Some "logout")));
      mret (is_some ended)
  end.

Definition signedOutRedirect (location : string) : Reply := Found location [clearCookie SESSION_COOKIE (Some "/")].

Definition landing_or (redirect : option string) : iam string :=
  match redirect with Some redirect => mret redirect | None => read (fun _ t => installationLanding (directory t)) end.

Definition handleLogout (request : Request) : iam Reply :=
  if negb (sameOrigin request) then mret (Failed "cross_origin" 403)
  else
    ended ← endLogin request;
    if negb ended then mret (Failed "logout_unavailable" 503)
    else location ← landing_or (safeRedirect (param "redirect" request)); mret (signedOutRedirect location).

(** ** auth/terminals.ts *)

Definition TERMINAL_COOKIE : string := FABRIKA_COOKIE_PREFIX +:+ "terminal".
Definition TERMINAL_COOKIE_MAX_AGE_SECONDS : Z := 400 * 24 * 60 * 60.
Definition MAX_IDENTIFICATION_ID_LENGTH : nat := 128.
Definition TERMINAL_ENROL_PATH : string := "/auth/terminals/enroll".
Definition IDENTIFICATION_QUERY_PARAMETER : string := "identification".
Definition IDENTIFICATION_TTL_SECONDS : Z := 120.
Definition COMPLETION_TTL_SECONDS : Z := 60.
Definition DEFAULT_TERMINAL_SESSION_TTL_SECONDS : Z := 300.
Definition MAX_TERMINAL_SESSION_TTL_SECONDS : Z := 3600.
Definition MAX_TERMINAL_LABEL_LENGTH : nat := 100.

(** [\p{Cc}] below 256. *)
Definition is_control (c : ascii) : bool := (Js.code c <=? 31)%nat || Js.in_range 127 159 c.

Definition terminalLabel (raw : string) : option string :=
  let label := Js.trim raw in
  if (String.length label =? 0)%nat || (MAX_TERMINAL_LABEL_LENGTH <? String.length label)%nat || negb (Js.forall_units (fun c => negb (is_control c)) label)
  then None else Some label.

Definition terminalCookie (value : string) : string :=
  serializeCookie TERMINAL_COOKIE value (mkCookieOptions (Some TERMINAL_COOKIE_MAX_AGE_SECONDS) true true (Some "Lax") (Some "/")).

Definition mayEnrol (principal : PrincipalRow) : iam bool :=
  permissions ← permissionsOf principal IAM_APP_ID; mret (permits permissions IAM_TERMINALS_MANAGE None).

(** The batch of an enrolment: the terminal's principal and row, and the end of the administrator's login. *)
Definition enrol_batch (label : string) (login : SessionRow) (principal : PrincipalRow) : iam string :=
  atomic (fun e t =>
    let row := mkTerminalRow label (hashToken (e_random e)) DEFAULT_TERMINAL_SESSION_TTL_SECONDS None None 0 in
    (e_random e,
     logged (mkLog false IAM_APP_ID (Some (pr_id principal)) true (Some "terminal_enrolment") false None)
       (revoke_sessions (fun s => (se_id s =? se_id login)%string) (e_now e)
         (enrol_terminal (e_uuid e) row
           (with_directory (insert_principal (service_principal (e_uuid e) label (e_now e)) (directory t)) t))))).

Definition enrol (request : Request) : iam Reply :=
  if negb (sameOrigin request) then mret (Failed "cross_origin" 403)
  else
    login ← currentLogin request;
    match login with
    | None => mret (Failed "terminal_enrolment_not_allowed" 403)
    | Some (login, principal) =>
        may ← mayEnrol principal;
        if negb may then mret (Failed "terminal_enrolment_not_allowed" 403)
        else match rq_form request with
             | None => mret (Failed "malformed_form" 400)
             | Some form =>
                 match terminalLabel (default "" (lookup_field "label" form)) with
                 | None => mret (EnrolPage true)
                 | Some label =>
                     enrolled ← attempt e_fails (enrol_batch label login principal);
                     mret match enrolled with
                          | None => Failed "terminal_enrolment_unavailable" 503
                          | Some token => EnrolledPage label [terminalCookie token; clearCookie SESSION_COOKIE (Some "/")]
                          end
                 end
             end
    end.

(** [post] is whether the request is one. *)
Definition handleTerminalEnrolment (post : bool) (request : Request) : iam Reply :=
  if post then enrol request
  else
    login ← currentLogin request;
    match login with
    | None => mret (Found ("/auth/login?redirect=" +:+ encodeURIComponent (located TERMINAL_ENROL_PATH issuer_url [])) [])
    | Some (_, principal) =>
        may ← mayEnrol principal;
        mret (if negb may then Failed "terminal_enrolment_not_allowed" 403 else EnrolPage false)
    end.

(** The terminal's id and row, with the cookie's value. *)
Definition browserTerminal (request : Request) : iam (option (string * TerminalRow * string)) :=
  match readCookie (rq_cookie request) TERMINAL_COOKIE with
  | None => mret None
  | Some token =>
      terminal ← getActiveByTokenHash (hashToken token);
      mret (option_map (fun '(id, row) => (id, row, token)) terminal)
  end.

(** [createIdentification] of an id drawn where its hash is stored. *)
Definition createIdentification (terminal : string) (handoff : Handoff) (expiresAt : Z) (log : AuthLogRow) : iam string :=
  atomic (fun e t => (e_random e,
    insert_identification (hashToken (e_random e)) terminal (ho_app handoff) (ho_returnUrl handoff) (ho_state handoff) (ho_challenge handoff)
      expiresAt (e_now e) (Some log) t)).

Definition getTerminalIdentifyPath (app : string) : iam (option string) := read (fun _ t => identifyPath (directory t) app).

(** [None] leaves the sign-in to go on. *)
Definition identificationRedirect (request : Request) (handoff : Handoff) : iam (option Reply) :=
  browser ← browserTerminal request;
  match browser with
  | None => mret None
  | Some (terminal, _, token) =>
      asserter ← getAsserter terminal (ho_app handoff);
      match asserter with
      | None => mret None
      | Some _ =>
          identify ← getTerminalIdentifyPath (ho_app handoff);
          match identify, normalizeOrigin (ho_returnUrl handoff) with
          | Some identify, Some origin =>
              now ← clock;
              id ← attempt e_fails
                (createIdentification terminal handoff (now + IDENTIFICATION_TTL_SECONDS)
                   (log_row IAM_APP_ID None true "terminal_identification" false (Some (mkTerminal terminal (ho_app handoff)))));
              mret (Some match id with
                         | None => Failed "login_unavailable" 503
                         | Some id => Found (located identify origin [(IDENTIFICATION_QUERY_PARAMETER, id)]) [terminalCookie token]
                         end)
          | _, _ => mret None
          end
      end
  end.

(** The [try] block of a completion. *)
Definition complete (hash terminal : string) : iam Reply :=
  now ← clock;
  completed ← completeIdentification hash terminal now;
  match completed with
  | None => mret (Failed "terminal_completion_refused" 403)
  | Some completed =>
      match it_session completed with
      | None => mret (Failed "terminal_completion_refused" 403)
      | Some id =>
          login ← getActiveSessionById id;
          match login with
          | None => mret (Failed "terminal_completion_refused" 403)
          | Some login =>
              location ← handoffLocation (mkHandoff (it_app completed) (it_return_url completed) (it_state completed) (it_challenge completed)) (se_id login);
              mret match location with Some location => Found location [] | None => Failed "login_unavailable" 503 end
          end
      end
  end.

Definition handleTerminalCompletion (request : Request) : iam Reply :=
  let id := default "" (param IDENTIFICATION_QUERY_PARAMETER request) in
  browser ← browserTerminal request;
  match browser with
  | None => mret (Failed "terminal_completion_refused" 403)
  | Some (terminal, _, _) =>
      if (id =? "")%string || (MAX_IDENTIFICATION_ID_LENGTH <? String.length id)%nat then mret (Failed "terminal_completion_refused" 403)
      else
        reply ← attempt e_fails (complete (hashToken id) terminal);
        mret (default (Failed "login_unavailable" 503) reply)
  end.

Definition handleTerminalRelease (request : Request) : iam Reply :=
  match filled (param "app" request), filled (param "redirect" request) with
  | Some app, Some redirect =>
      returnUrl ← resolveReturnUrl app redirect;
      match returnUrl with
      | None => mret (Failed "unregistered_origin" 400)
      | Some returnUrl =>
          browser ← browserTerminal request;
          match browser with
          | None => mret (Found returnUrl [])
          | Some (terminal, _, _) =>
              released ← attempt e_fails (release terminal (Some (IAM_APP_ID, Some "terminal_release")));
              mret (if is_some released then Found returnUrl [] else Failed "logout_unavailable" 503)
          end
      end
  | _, _ => mret (Failed "no_return_address" 400)
  end.

(** ** auth/login.ts *)

Definition JUST_SIGNED_IN_SECONDS : Z := 60.

Definition loginChoseApp (login : SessionRow) (app : string) : iam bool :=
  now ← clock;
  if now - JUST_SIGNED_IN_SECONDS <? se_created login then mret true else hasActiveChild (se_id login) app.

(** The sign-in a browser without a login starts. *)
Definition other_sign_in (redirect : option string) (handoff : option Handoff) : Reply :=
  if localDevLogin then StartLocalLogin redirect handoff
  else if password_enabled then LoginPage redirect handoff else StartOidc redirect handoff.

Definition handleLogin (request : Request) : iam Reply :=
  reading ← readHandoff (param "app" request) (param "redirect" request) (param "state" request) (param "code_challenge" request);
  match reading with
  | RefusedHandoff kind => mret (Failed kind 400)
  | _ =>
      let redirect := handoffRedirectOr (handoffOf reading) (param "redirect" request) in
      match handoffOf reading with
      | None => mret (other_sign_in redirect None)
      | Some handoff =>
          login ← currentLogin request;
          match login with
          | Some (login, principal) =>
              chose ← loginChoseApp login (ho_app handoff);
              if chose : bool then
                location ← handoffLocation handoff (se_id login);
                mret match location with Some location => Found location [] | None => Crashed end
              else mret (ChooseAccount (pr_label principal) handoff)
          | None =>
              identification ← identificationRedirect request handoff;
              mret (default (other_sign_in redirect (Some handoff)) identification)
          end
      end
  end.

Definition handleAccountChoice (request : Request) : iam Reply :=
  if negb (sameOrigin request) then mret (Failed "cross_origin" 403)
  else match rq_form request with
       | None => mret (Failed "malformed_form" 400)
       | Some form =>
           reading ← readHandoff (lookup_field "app" form) (lookup_field "redirect" form) (lookup_field "state" form) (lookup_field "code_challenge" form);
           match reading with
           | RefusedHandoff kind => mret (Failed kind 400)
           | NoHandoff => mret (Failed "malformed_form" 400)
           | HandoffOf handoff =>
               if bool_decide (lookup_field "decision" form = Some "another") then
                 ended ← endLogin request;
                 mret (if negb ended then Failed "logout_unavailable" 503 else signedOutRedirect (handoffLoginUrl handoff))
               else if bool_decide (lookup_field "decision" form = Some "continue") then
                 login ← currentLogin request;
                 location ← match login with None => mret (Some (handoffLoginUrl handoff)) | Some (login, _) => handoffLocation handoff (se_id login) end;
                 mret match location with Some location => Found location [] | None => Crashed end
               else mret (Failed "malformed_form" 400)
           end
       end.

(** ** signing.ts *)

Definition RESOURCE_ACCESS_TOKEN_TYP : string := "at+jwt".

Definition verifySigned (now : Z) (token : string) (audience : option string) (grace : Z) : option (AccessTokenClaims * option string) :=
  match jwt_verify now token issuer_url audience grace with
  | Some (payload, typ) => claims ← parseAccessClaims (Some payload); Some (claims, typ)
  | None => None
  end.

Definition verifyAccessToken (now : Z) (token : string) (audience : option string) (grace : Z) : option AccessTokenClaims :=
  match verifySigned now token audience grace with
  | Some (claims, typ) => if is_some typ || is_some (oauth claims) then None else Some claims
  | None => None
  end.

Definition verifyResourceAccessToken (now : Z) (token : string) (grace : Z) : option AccessTokenClaims :=
  match verifySigned now token None grace with
  | Some (claims, typ) => if bool_decide (typ = Some RESOURCE_ACCESS_TOKEN_TYP) && is_some (oauth claims) then Some claims else None
  | None => None
  end.

Definition AUDIT_TOKEN_EXPIRY_GRACE_SECONDS : Z := 60 * 60.

Definition verifiedTokenApp (now : Z) (credential : string) : option string :=
  match verifyAccessToken now credential None AUDIT_TOKEN_EXPIRY_GRACE_SECONDS with
  | Some native => Some (aud native)
  | None => claims ← verifyResourceAccessToken now credential AUDIT_TOKEN_EXPIRY_GRACE_SECONDS; oauth_app <$> oauth claims
  end.

(** ** identification.ts *)

(** An application's proof of itself; [tc_app] is what the transport pinned. *)
Record TerminalCaller := mkCaller { tc_app : string; tc_credential : option string }.

Inductive TerminalFailure := missing_token | invalid_token | not_found | invalid_principal.

(** The application asking. *)
Definition askingApp (caller : TerminalCaller) : iam (TerminalFailure + string) :=
  match tc_credential caller with
  | None => mret (inl missing_token)
  | Some token =>
      read (fun e _ => match verifyAccessToken (e_now e) token (Some (tc_app caller)) 0 with None => inl invalid_token | Some claims => inr (aud claims) end)
  end.

Definition openIdentification (app id : string) (now : Z) : iam (option (IdentificationRow * string * TerminalRow)) :=
  if (id =? "")%string || (MAX_IDENTIFICATION_ID_LENGTH <? String.length id)%nat then mret None
  else
    identification ← getIdentification (hashToken id);
    match identification with
    | None => mret None
    | Some i =>
        if negb (it_app i =? app)%string || is_some (it_consumed i) || (it_expires i <=? now) then mret None
        else
          terminal ← getTerminal (it_terminal i);
          match terminal with
          | None => mret None
          | Some row =>
              if is_some (te_revoked row) || negb (te_generation row =? it_generation i) then mret None
              else
                asserter ← getAsserter (it_terminal i) app;
                match asserter with
                | None => mret None
                | Some _ =>
                    principal ← getPrincipalById (it_terminal i);
                    mret match principal with
                         | Some principal => if is_active principal then Some (i, it_terminal i, row) else None
                         | None => None
                         end
                end
          end
    end.

(** The terminal's id and label, and when the identification ends. *)
Definition inspectIdentification (caller : TerminalCaller) (id : string) : iam (TerminalFailure + (string * string * Z)) :=
  asking ← askingApp caller;
  match asking with
  | inl failure => mret (inl failure)
  | inr app =>
      now ← clock;
      opened ← openIdentification app id now;
      mret match opened with Some (i, terminal, row) => inr (terminal, te_label row, it_expires i) | None => inl not_found end
  end.

Definition signsInAtTerminal (principal : PrincipalRow) : bool :=
  pr_is_user principal && bool_decide (pr_affiliation principal = Internal) && is_active principal.

Definition TERMINAL_COMPLETE_PATH : string := "/auth/terminals/complete".

(** The login an assertion opens. *)
Definition asserted_login (person : PrincipalRow) (terminal app : string) (row : TerminalRow) (i : IdentificationRow) (now : Z) : NewSession :=
  mkNewSession (pr_id person) None None TerminalAssertion (now + te_session_ttl row) None None (Some (mkTerminal terminal app)) (Some (it_generation i)).

(** The completion URL. *)
Definition assertIdentity (caller : TerminalCaller) (id person : string) : iam (TerminalFailure + string) :=
  asking ← askingApp caller;
  match asking with
  | inl failure => mret (inl failure)
  | inr app =>
      now ← clock;
      opened ← openIdentification app id now;
      match opened with
      | None => mret (inl not_found)
      | Some (i, terminal, row) =>
          principal ← (if (MAX_IDENTIFICATION_ID_LENGTH <? String.length person)%nat then mret None else getPrincipalById person);
          match principal with
          | None => mret (inl invalid_principal)
          | Some principal =>
              if negb (signsInAtTerminal principal) then mret (inl invalid_principal)
              else
                privileged ← administersIam (pr_id principal);
                consumed ← consumeIdentification (hashToken id) now (now + COMPLETION_TTL_SECONDS) (asserted_login principal terminal app row i now)
                  (log_row IAM_APP_ID (Some (pr_id principal)) true "terminal_assertion" privileged (Some (mkTerminal terminal app))) hashToken;
                mret match consumed with
                     | None => inl not_found
                     | Some _ => inr (located TERMINAL_COMPLETE_PATH issuer_url [(IDENTIFICATION_QUERY_PARAMETER, id)])
                     end
          end
      end
  end.

Definition cancelIdentification (caller : TerminalCaller) (id : string) : iam (TerminalFailure + unit) :=
  asking ← askingApp caller;
  match asking with
  | inl failure => mret (inl failure)
  | inr app =>
      if (id =? "")%string || (MAX_IDENTIFICATION_ID_LENGTH <? String.length id)%nat then mret (inl not_found)
      else
        cancelled ← Sessions.cancelIdentification (hashToken id) app;
        mret (if cancelled : bool then inr tt else inl not_found)
  end.

(** ** user-admin.ts *)

(** The administrator as the router resolved it. *)
Record ResolvedAdmin := mkAdmin { ad_permissions : list PermissionEntry; ad_is_user : bool; ad_audience : string; ad_session : bool }.

Definition administrationOf (admin : ResolvedAdmin) : option Administration :=
  match iamAdministrationScope (ad_permissions admin) with
  | Some (OfUsers apps) => if ad_is_user admin && negb (ad_audience admin =? IAM_APP_ID)%string && ad_session admin then Some (OfUsers apps) else None
  | other => other
  end.

Definition managesApp (d : Directory) (administration : Administration) (app : option string) : bool :=
  match administration with
  | OfInstallation => true
  | OfUsers apps =>
      match app with
      | None => false
      | Some app => negb (@reachesCrossAppAuthority (repositories d) app) && match apps with None => true | Some apps => Js.elem app apps end
      end
  end.

Definition isActable (d : Directory) (administration : Administration) (principal : PrincipalRow) : bool :=
  pr_is_user principal
  && negb (match pr_email principal with Some email => Js.elem (normalizeEmailIdentity email) (@bootstrapAdmins (repositories d)) | None => false end)
  && forallb (fun grant => managesApp d administration (grant_app grant)) (activeGrants d (pr_id principal)).

Definition canManagePrincipal (administration : Administration) (principal : PrincipalRow) : iam bool :=
  match administration with
  | OfInstallation => mret true
  | OfUsers _ => read (fun _ t => isActable (directory t) administration principal)
  end.

(** ** admin/sessions.ts *)

Record AdminFailure := mkFailure { af_status : Z; af_message : string }.

Definition UNACTABLE : AdminFailure :=
  mkFailure 403 "this person holds access outside the applications you administer; only an installation administrator acts on them".

Definition revokeSessionUseCase (administration : Administration) (id : string) : iam (AdminFailure + Z) :=
  row ← read (fun _ t => session_by_id id t);
  match row with
  | None => mret (inl (mkFailure 404 "session not found"))
  | Some row =>
      holder ← getPrincipalById (se_principal row);
      match holder with
      | None => mret (inl (mkFailure 404 "session not found"))
      | Some holder =>
          may ← canManagePrincipal administration holder;
          if negb may then mret (inl UNACTABLE)
          else revoked ← revokeSessionById id; mret (inr (if revoked : bool then 1 else 0))
      end
  end.

Definition revokeSessionsForPrincipalUseCase (administration : Administration) (id : string) : iam (AdminFailure + Z) :=
  principal ← getPrincipalById id;
  match principal with
  | None => mret (inl (mkFailure 404 "principal not found"))
  | Some principal =>
      may ← canManagePrincipal administration principal;
      if negb may then mret (inl UNACTABLE)
      else revoked ← revokeSessionsForPrincipal id; mret (inr (Z.of_nat revoked))
  end.

(** ** admin/terminals.ts *)

(** [[...new Set(l)]] *)
Fixpoint distinct (seen l : list string) : list string :=
  match l with [] => [] | x :: rest => if Js.elem x seen then distinct seen rest else x :: distinct (x :: seen) rest end.

(** [checkedAsserters], of what the directory lists at once. *)
Fixpoint checkedAsserters (d : Directory) (seen : list string) (requested : list (string * list string)) : AdminFailure + list (string * list string) :=
  match requested with
  | [] => inr []
  | (app, ceiling) :: rest =>
      if Js.elem app seen then inl (mkFailure 400 ("asserter listed twice: " +:+ app))
      else if negb (Js.elem app (knownApps d)) then inl (mkFailure 400 ("unknown app: " +:+ app))
      else if @reachesCrossAppAuthority (repositories d) app
      then inl (mkFailure 400 ("a platform audience cannot assert a person on a terminal: " +:+ app))
      else match List.find (fun pattern => negb (isActionAllowed pattern (actionCatalog d app))) ceiling with
           | Some pattern => inl (mkFailure 400 ("unknown action pattern for " +:+ app +:+ ": " +:+ pattern))
           | None =>
               match checkedAsserters d (app :: seen) rest with
               | inl failure => inl failure
               | inr asserters => inr ((app, distinct [] ceiling) :: asserters)
               end
           end
  end.

Definition setTerminalProfileUseCase (id rawLabel : string) (sessionTtl : Z) (asserters : list (string * list string)) : iam (AdminFailure + unit) :=
  match terminalLabel rawLabel with
  | None => mret (inl (mkFailure 400 "label must be 1–100 characters without control characters"))
  | Some label =>
      if (sessionTtl <? 1) || (MAX_TERMINAL_SESSION_TTL_SECONDS <? sessionTtl)
      then mret (inl (mkFailure 400 "sessionTtl must be a whole number of seconds from 1 to 3600"))
      else
        checked ← read (fun _ t => checkedAsserters (directory t) [] asserters);
        match checked with
        | inl failure => mret (inl failure)
        | inr asserters =>
            changed ← setProfile id (mkProfile label asserters sessionTtl);
            row ← getTerminal id;
            mret match row with
                 | None => inl (mkFailure 404 "terminal not found")
                 | Some _ => if changed : bool then inr tt else inl (mkFailure 409 "terminal is revoked")
                 end
        end
  end.

Definition revokeTerminalUseCase (id : string) : iam (AdminFailure + unit) :=
  row ← getTerminal id;
  match row with
  | None => mret (inl (mkFailure 404 "terminal not found"))
  | Some _ => _ ← revokeTerminal id; mret (inr tt)
  end.

(** ** cron.ts *)

(** The sweeps of these tables; [Promise.all] starts them in any order. *)
Definition sweeps : list (Z -> iam unit) := [pruneCodes; pruneSessions; pruneIdentifications].

(** ** Every handler keeps the discipline *)

(** A statement's proof: the step moves, and its answer tells. *)
Lemma among_statement {A} (P : Iam -> Prop) (o : Surroundings -> Iam -> A * Iam) (Q : A -> Iam -> Prop) :
  (forall a, stable (Q a)) ->
  (forall e t, consistent t -> unseen e t -> P t -> moves t (o e t).2 /\ Q (o e t).1 (o e t).2) -> among P (atomic o) Q.
Proof. intros HQ Ho. apply among_atomic; [done|]. intros e t Ht He HP. destruct (Ho e t Ht He HP) as [[? ?] ?]. by split. Qed.

(** A statement whose answer tells nothing. *)
Lemma among_step {A} (P : Iam -> Prop) (o : Surroundings -> Iam -> A * Iam) :
  (forall e t, consistent t -> unseen e t -> P t -> moves t (o e t).2) -> among P (atomic o) (fun _ _ => True).
Proof. intros Ho. apply among_statement; [intros _; apply stable_true|]. intros e t Ht He HP. split; [by apply Ho|done]. Qed.

Lemma among_any {A} (P : Iam -> Prop) (f : Surroundings -> Iam -> A) : among P (read f) (fun _ _ => True).
Proof. apply among_read; [intros _; apply stable_true|done]. Qed.

(** A read that tells something lasting of what it finds. *)
Lemma among_found {A} (P : Iam -> Prop) (f : Surroundings -> Iam -> option A) (R : A -> Iam -> Prop) :
  (forall a, stable (R a)) -> (forall e t a, consistent t -> P t -> f e t = Some a -> R a t) ->
  among P (read f) (fun o t => match o with Some a => R a t | None => True end).
Proof.
  intros HR Hf. apply among_read; [intros [a|]; [apply HR|apply stable_true]|]. intros e t Ht _ HP. destruct (f e t) eqn:E; [|done]. by apply (Hf e t).
Qed.

Lemma find_known P t s : consistent t -> List.find P (sessions t) = Some s -> known s t /\ s ∈ sessions t /\ P s = true.
Proof. intros Ht [Hs Hp]%find_session. split; [by apply session_known|done]. Qed.

Lemma getActiveSessionByHash_known hash :
  among (fun _ => True) (getActiveSessionByHash hash) (fun o t => match o with Some s => known s t /\ se_hash s = hash | None => True end).
Proof.
  apply among_found; [intros s; apply stable_and; [apply known_stable|apply stable_pure]|].
  intros e t s Ht _ (Hk & _ & [E _]%andb_true_iff)%find_known; [|done]. split; [done|]. by apply String.eqb_eq.
Qed.

Lemma getActiveSessionById_known id :
  among (fun _ => True) (getActiveSessionById id) (fun o t => match o with Some s => known s t /\ se_id s = id | None => True end).
Proof.
  apply among_found; [intros s; apply stable_and; [apply known_stable|apply stable_pure]|].
  intros e t s Ht _ (Hk & _ & [E _]%andb_true_iff)%find_known; [|done]. split; [done|]. by apply String.eqb_eq.
Qed.

Lemma getPrincipalById_keyed P id :
  among P (getPrincipalById id) (fun o _ => match o with Some row => pr_id row = id | None => True end).
Proof.
  eapply among_weaken; [apply (among_found P _ (fun row _ => pr_id row = id))|done|by intros [|]].
  - intros row. apply stable_pure.
  - intros e t row Ht _ E. by apply (principals_keyed t Ht).
Qed.

(** What a session to create must be. *)
Definition creatable (input : NewSession) (t : Iam) : Prop :=
  (forall id hash now, well_formed (session_row id hash now input)) /\
  match ns_parent input with
  | None => True
  | Some p => p ∈ used t /\ forall id hash now l, l ∈ sessions t -> se_id l = p -> derived (session_row id hash now input) l
  end /\
  (forall terminal g, ns_terminal input = Some terminal -> ns_generation input = Some g -> reached t (terminalId terminal) g).

Lemma creatable_stable input : stable (creatable input).
Proof.
  intros t t' Ht Ht' Ha (Hw & Hp & Hr). split; [done|]. split.
  - destruct (ns_parent input) as [p|]; [|done]. destruct Hp as [Hu Hd]. split; [by apply (adv_used _ _ Ha)|]. intros id hash now l' Hl' E.
    destruct (adv_sessions _ _ Ha l' Hl') as [(l & Hin & Hag)|[Hn _]]; [|congruence]. rewrite (ages_static _ _ Hag) in *. cbn in *.
    by destruct (Hd id hash now l Hin E) as [[? ?] ? ? ? ? ? ?].
  - intros terminal g Et Eg. eapply reached_stable; [exact Ht|exact Ht'|exact Ha|]. by apply (Hr terminal g).
Qed.

Lemma moves_create id hash now input log t :
  id ∉ used t -> hash ∉ used t -> creatable input t -> consistent t -> moves t (insert_session id hash now input log t).
Proof.
  intros Hid Hh (Hw & Hp & Hr) Ht. apply moves_insert_session; try done. destruct (ns_parent input) as [p|]; [|done].
  destruct Hp as [Hu Hd]. split; [done|]. intros l. by apply Hd.
Qed.

Lemma unseen_secret e t : unseen e t -> hashToken (e_random e) ∉ used t.
Proof. intros Hf. pose proof (unseen_random e t Hf "" "") as Hr. by rewrite str_app_nil_r in Hr. Qed.

Lemma inserted_in id hash now input log t : session_row id hash now input ∈ sessions (insert_session id hash now input log t).
Proof. unfold insert_session. destruct log; cbn; apply elem_of_app; right; by apply list_elem_of_singleton. Qed.

(** The session created, as later steps know it. *)
Definition created_as (input : NewSession) (id hash : string) (t : Iam) : Prop := exists now, known (session_row id hash now input) t.

Lemma createSession_creates input log :
  among (creatable input) (createSession input log)
    (fun o t => match o with Some (id, secret) => created_as input id (hashToken secret) t | None => True end).
Proof.
  apply among_statement.
  - intros [[id secret]|]; [|apply stable_true]. apply stable_ex. intros now. apply known_stable.
  - intros e t Ht He Hc. destruct (Sessions.session_problem input false || negb (references_hold input t)); cbn [fst snd]; [by split; [apply moves_refl|]|].
    assert (Hm : moves t (insert_session (e_uuid e) (hashToken (e_random e)) (e_now e) input (Some log) t)).
    { apply moves_create; [apply He|by apply unseen_secret|done|done]. }
    split; [done|]. exists (e_now e). apply session_known; [apply Hm|apply inserted_in].
Qed.

Lemma issueCode_safe app parent returnUrl challenge expiresAt :
  among (login_known parent) (issueCode app parent returnUrl challenge expiresAt) (fun _ _ => True).
Proof.
  apply among_step. intros e t Ht He [Hu Hl]. destruct (is_some (session_by_id parent t)); cbn; [|by apply moves_refl].
  unfold insert_code. set (h := hashToken _). assert (Hh : h ∉ used t) by (apply (unseen_random e t He "")).
  refine (moves_codes (<[h := mkCode app parent returnUrl expiresAt None]> (codes t)) ({[h]} ∪ used t) t _ _ Ht); [set_solver|].
  intros h' c Hc. destruct (decide (h = h')) as [<-|Hne].
  - rewrite lookup_insert_eq in Hc. injection Hc as <-. right. split; [done|]. split; [set_solver|]. by split.
  - rewrite lookup_insert_ne in Hc by done. left. exists c. split; [done|by left].
Qed.

Lemma among_past {A} (K : Iam -> Prop) (p : iam A) : stable K -> among (fun _ => True) p (fun _ _ => True) -> among K p (fun _ => K).
Proof.
  intros HK Hp. eapply among_weaken; [apply (among_keep _ _ _ K HK Hp)|by split|]. by intros a s _ [_ ?].
Qed.

Lemma among_knowing {A} (K : Iam -> Prop) (p : iam A) (Q : A -> Iam -> Prop) :
  stable K -> among (fun _ => True) p Q -> among K p (fun a t => Q a t /\ K t).
Proof. intros HK Hp. eapply among_weaken; [apply (among_keep _ _ _ K HK Hp)|by split|done]. Qed.

Lemma among_forget {A} (P : Iam -> Prop) (p : iam A) (Q : A -> Iam -> Prop) : among (fun _ => True) p Q -> among P p (fun _ _ => True).
Proof. intros Hp. by eapply among_weaken. Qed.

Lemma among_none {A} (P : Iam -> Prop) (a : A) : among P (mret a) (fun _ _ => True).
Proof. by apply among_done. Qed.

Lemma among_try {A} (P : Iam -> Prop) (p : iam A) : among P p (fun _ _ => True) -> among P (attempt e_fails p) (fun _ _ => True).
Proof. intros Hp. eapply among_weaken; [by apply among_attempt|done|done]. Qed.

Create HintDb amongst.
#[local] Hint Resolve among_any among_none : amongst.

(** A program each of whose statements may be run anywhere. *)
Ltac harmless :=
  cbv zeta;
  lazymatch goal with
  | |- among _ (match ?x with _ => _ end) _ => destruct x; harmless
  | |- among _ (_ ≫= _) _ => apply (among_bind _ _ _ (fun _ _ => True)); [harmless|intros ?; cbv beta; harmless]
  | |- among _ (attempt _ _) _ => apply among_try; harmless
  | |- _ => solve [auto with amongst]
  end.

(** Each statement. *)
Section Statements.
Context (P : Iam -> Prop).

Lemma clock_safe : among P clock (fun _ _ => True).
Proof. apply among_any. Qed.

Lemma getPrincipalById_safe id : among P (getPrincipalById id) (fun _ _ => True).
Proof. apply among_any. Qed.

Lemma permissionsOf_safe principal app : among P (permissionsOf principal app) (fun _ _ => True).
Proof. apply among_any. Qed.

Lemma listReturnOrigins_safe app : among P (listReturnOrigins app) (fun _ _ => True).
Proof. apply among_any. Qed.

Lemma hasActiveChild_safe parent app : among P (hasActiveChild parent app) (fun _ _ => True).
Proof. apply among_any. Qed.

Lemma findCode_safe hash : among P (findCode hash) (fun _ _ => True).
Proof. apply among_any. Qed.

Lemma getTerminal_safe id : among P (getTerminal id) (fun _ _ => True).
Proof. apply among_any. Qed.

Lemma getAsserter_safe id app : among P (getAsserter id app) (fun _ _ => True).
Proof. apply among_any. Qed.

Lemma getIdentification_safe hash : among P (getIdentification hash) (fun _ _ => True).
Proof. apply among_any. Qed.

Lemma getActiveByTokenHash_safe hash : among P (getActiveByTokenHash hash) (fun _ _ => True).
Proof. apply among_any. Qed.

Lemma getTerminalIdentifyPath_safe app : among P (getTerminalIdentifyPath app) (fun _ _ => True).
Proof. apply among_any. Qed.

Lemma getActiveSessionById_safe id : among P (getActiveSessionById id) (fun _ _ => True).
Proof. apply among_any. Qed.

Lemma getActiveSessionByHash_safe hash : among P (getActiveSessionByHash hash) (fun _ _ => True).
Proof. apply among_any. Qed.

Lemma revokeSessionByHash_safe hash log : among P (revokeSessionByHash hash log) (fun _ _ => True).
Proof.
  apply among_step. intros e t Ht _ _. cbn. destruct log as [[app reason]|]; [|by apply moves_revoke].
  eapply moves_trans; [by apply moves_revoke|]. apply moves_log. by apply moves_revoke.
Qed.

Lemma revokeSessionById_safe id : among P (revokeSessionById id) (fun _ _ => True).
Proof. apply among_step. intros e t Ht _ _. by apply moves_revoke. Qed.

Lemma revokeSessionsForPrincipal_safe id : among P (revokeSessionsForPrincipal id) (fun _ _ => True).
Proof. apply among_step. intros e t Ht _ _. by apply moves_revoke. Qed.

Lemma revokePasswordSessions_safe id : among P (revokePasswordSessions id) (fun _ _ => True).
Proof. apply among_step. intros e t Ht _ _. by apply moves_revoke. Qed.

Lemma pruneSessions_safe now : among P (pruneSessions now) (fun _ _ => True).
Proof. apply among_step. intros e t Ht _ _. by apply moves_delete. Qed.

Lemma pruneCodes_safe now : among P (pruneCodes now) (fun _ _ => True).
Proof. apply among_step. intros e t Ht _ _. by apply moves_prune_codes. Qed.

Lemma pruneIdentifications_safe now : among P (pruneIdentifications now) (fun _ _ => True).
Proof. apply among_step. intros e t Ht _ _. by apply moves_prune_identifications. Qed.

Lemma markCode_safe hash now : among P (markCode hash now) (fun _ _ => True).
Proof.
  apply among_step. intros e t Ht _ _. cbn. destruct (codes t !! hash) as [c|] eqn:Ec; [|by apply moves_refl].
  destruct (_ && _) eqn:Eu; cbn; [|by apply moves_refl]. apply andb_true_iff in Eu as [Eu _].
  refine (moves_codes (<[hash := consume_row now c]> (codes t)) (used t) t _ _ Ht); [done|]. intros h' c' Hc. left.
  destruct (decide (hash = h')) as [<-|Hne].
  - rewrite lookup_insert_eq in Hc. injection Hc as <-. exists c. split; [done|]. right. split; [by destruct (co_consumed c)|by exists now].
  - rewrite lookup_insert_ne in Hc by done. exists c'. split; [done|by left].
Qed.

Lemma moves_seen id now t : consistent t -> moves t (update_terminal id (seen_row now) t).
Proof. apply moves_update_terminal. intros r. split; [cbn; lia|done]. Qed.

Lemma createIdentification_safe terminal handoff expiresAt log : among P (createIdentification terminal handoff expiresAt log) (fun _ _ => True).
Proof.
  apply among_step. intros e t Ht He _. cbn [fst snd]. unfold insert_identification.
  set (h := hashToken (e_random e)). assert (Hh : h ∉ used t) by by apply unseen_secret. 
  match goal with |- moves _ (logged_if _ (update_terminal _ _ ?x)) => set (t1 := x) end.
  assert (Hm1 : moves t t1).
  { subst t1. destruct (terminals t !! terminal) as [r|] eqn:Er; [|by apply moves_refl]. apply moves_identifications; [set_solver| |done].
    intros h' i Hi. destruct (decide (h = h')) as [<-|Hne].
    - rewrite lookup_insert_eq in Hi. injection Hi as <-. split; [|done]. right. split; [done|]. split; [set_solver|]. split; [by eapply (terminals_used t Ht)|].
      cbn. intros r' Hr'. assert (r = r') as <- by congruence. lia.
    - rewrite lookup_insert_ne in Hi by done. split; [left; exists i; split; [done|apply identification_ages_refl]|]. intros id Eid.
      destruct (identifications_login t Ht h' i id Hi Eid) as [? ?]. split; [set_solver|done]. }
  eapply moves_trans; [exact Hm1|]. eapply moves_trans; [apply moves_seen, Hm1|]. apply moves_logged_if. apply moves_seen, Hm1.
Qed.

Lemma release_safe id log : among P (release id log) (fun _ _ => True).
Proof.
  apply among_step. intros e t Ht _ _. cbn [fst snd]. set (t1 := update_terminal id next_generation t).
  assert (Hm1 : moves t t1). { apply moves_update_terminal; [|done]. intros r. split; [cbn; lia|done]. }
  assert (Hm2 : moves t (end_identifications id (e_now e) t1)). { eapply moves_trans; [exact Hm1|]. apply moves_end_identifications, Hm1. }
  assert (Hm3 : moves t (revoke_sessions (on_terminal id) (e_now e) (end_identifications id (e_now e) t1))).
  { eapply moves_trans; [exact Hm2|]. apply moves_revoke, Hm2. }
  destruct log as [[app reason]|]; [|exact Hm3]. eapply moves_trans; [exact Hm3|]. apply moves_log, Hm3.
Qed.

Lemma revokeTerminal_safe id : among P (revokeTerminal id) (fun _ _ => True).
Proof.
  apply among_step. intros e t Ht _ _. cbn [fst snd]. 
  match goal with |- moves _ (if ?x then _ else _) => set (live := x) end.
  assert (Hm1 : moves t (end_identifications id (e_now e) t)) by by apply moves_end_identifications.
  assert (Hm2 : moves t (revoke_sessions (on_terminal id) (e_now e) (end_identifications id (e_now e) t))).
  { eapply moves_trans; [exact Hm1|]. apply moves_revoke, Hm1. }
  destruct live; [|exact Hm2]. eapply moves_trans; [exact Hm2|]. apply moves_update_terminal; [|apply Hm2]. intros r. split; [cbn; lia|done].
Qed.

Lemma setProfile_safe id profile : among P (setProfile id profile) (fun _ _ => True).
Proof.
  apply among_step. intros e t Ht _ _. cbn. destruct (terminals t !! id) as [r|] eqn:Er; [|by apply moves_refl].
  destruct (te_revoked r) eqn:Ev; cbn; [by apply moves_refl|]. set (m := <[id := _]> (terminals t)).
  assert (Hm1 : moves t (with_terminals m t)).
  { refine (moves_terminals m (used t) t _ _ Ht); [done|]. intros id' r' Hr'. left. subst m. destruct (decide (id = id')) as [<-|Hne].
    - rewrite lookup_insert_eq in Hr'. injection Hr' as <-. exists r. split; [done|]. split; [cbn; lia|done].
    - rewrite lookup_insert_ne in Hr' by done. exists r'. split; [done|]. split; [lia|done]. }
  eapply moves_trans; [exact Hm1|]. apply moves_same; try done; apply Hm1.
Qed.

Lemma completeIdentification_safe hash terminal now : among P (completeIdentification hash terminal now) (fun _ _ => True).
Proof.
  apply among_step. intros e t Ht _ _. cbn. destruct (identifications t !! hash) as [i|] eqn:Ei; [|by apply moves_refl].
  destruct (_ && _ && _ && _); cbn; [|by apply moves_refl]. apply moves_age_identifications; [|done]. intros h i' Hi'.
  destruct (decide (hash = h)) as [<-|Hne].
  - rewrite lookup_insert_eq in Hi'. injection Hi' as <-. exists i. split; [done|]. split; [|done]. by repeat (split; [done|]).
  - rewrite lookup_insert_ne in Hi' by done. exists i'. split; [done|]. split; [apply identification_ages_refl|done].
Qed.

Lemma sessions_cancel_safe hash app : among P (Sessions.cancelIdentification hash app) (fun _ _ => True).
Proof.
  apply among_step. intros e t Ht _ _. cbn. destruct (identifications t !! hash) as [i|] eqn:Ei; [|by apply moves_refl].
  destruct (_ && negb (is_some (it_consumed i))) eqn:Eu; cbn; [|by apply moves_refl]. apply andb_true_iff in Eu as [_ Eu].
  apply moves_age_identifications; [|done]. intros h i' Hi'. destruct (decide (hash = h)) as [<-|Hne].
  - rewrite lookup_insert_eq in Hi'. injection Hi' as <-. exists i. split; [done|]. split; [|done]. apply end_identification_ages. by destruct (it_consumed i).
  - rewrite lookup_insert_ne in Hi' by done. exists i'. split; [done|]. split; [apply identification_ages_refl|done].
Qed.

Lemma enrol_batch_safe label login principal : among P (enrol_batch label login principal) (fun _ _ => True).
Proof.
  apply among_step. intros e t Ht He _. cbn [fst snd]. set (d := insert_principal _ _). set (row := mkTerminalRow _ _ _ _ _ _).
  assert (Hm1 : moves t (with_directory d t)).
  { apply moves_same; try done. intros id r. cbn. destruct (String.eqb_spec id (e_uuid e)) as [->|Hne]; [by intros [= <-]|]. apply (principals_keyed t Ht). }
  assert (Hm2 : moves t (enrol_terminal (e_uuid e) row (with_directory d t))).
  { eapply moves_trans; [exact Hm1|]. apply moves_terminals; [set_solver| |apply Hm1]. intros id r Hr. destruct (decide (e_uuid e = id)) as [<-|Hne].
    - right. split; [apply He|set_solver].
    - rewrite lookup_insert_ne in Hr by done. left. exists r. split; [done|]. split; [lia|done]. }
  set (p := fun s => (se_id s =? se_id login)%string). assert (Hm3 : moves t (revoke_sessions p (e_now e) (enrol_terminal (e_uuid e) row (with_directory d t)))).
  { eapply moves_trans; [exact Hm2|]. apply moves_revoke, Hm2. }
  eapply moves_trans; [exact Hm3|]. apply moves_log, Hm3.
Qed.

End Statements.

#[local] Hint Resolve clock_safe getPrincipalById_safe permissionsOf_safe listReturnOrigins_safe hasActiveChild_safe findCode_safe getTerminal_safe
  getAsserter_safe getIdentification_safe getActiveByTokenHash_safe getTerminalIdentifyPath_safe getActiveSessionById_safe
  getActiveSessionByHash_safe revokeSessionByHash_safe revokeSessionById_safe revokeSessionsForPrincipal_safe pruneSessions_safe pruneCodes_safe
  pruneIdentifications_safe markCode_safe createIdentification_safe release_safe revokeTerminal_safe setProfile_safe completeIdentification_safe
  sessions_cancel_safe enrol_batch_safe : amongst.

Lemma administersIam_safe P id : among P (administersIam id) (fun _ _ => True).
Proof. unfold administersIam. harmless. Qed.

Lemma resolveReturnUrl_safe P app raw : among P (resolveReturnUrl app raw) (fun _ _ => True).
Proof. unfold resolveReturnUrl. harmless. Qed.

Lemma currentSession_known request :
  among (fun _ => True) (currentSession request) (fun o t => match o with Some s => login_known (se_id s) t | None => True end).
Proof.
  unfold currentSession. destruct (readCookie _ _) as [raw|]; [|by apply among_done]. eapply among_bind; [apply getActiveSessionByHash_known|].
  intros [s|]; apply among_done; [|done]. intros t _ [Hk _]. destruct (se_app s) eqn:Ea; [done|]. cbn. destruct (sessionUsable s); [|done]. by apply known_login.
Qed.

Lemma currentLogin_known request :
  among (fun _ => True) (currentLogin request) (fun o t => match o with Some (s, _) => login_known (se_id s) t | None => True end).
Proof.
  unfold currentLogin. eapply among_bind; [apply currentSession_known|]. intros [s|]; [|by apply among_done].
  eapply among_bind; [apply among_past; [apply login_known_stable|apply getPrincipalById_safe]|]. intros [principal|]; apply among_done; [|done].
  intros t _ Hk. by destruct (_ && _).
Qed.

Lemma currentLogin_safe P request : among P (currentLogin request) (fun _ _ => True).
Proof. eapply among_forget, currentLogin_known. Qed.

Lemma issueAuthCode_safe app parent returnUrl challenge : among (login_known parent) (issueAuthCode app parent returnUrl challenge) (fun _ _ => True).
Proof.
  unfold issueAuthCode. destruct (negb _); [by apply among_done|]. eapply among_bind; [apply among_past; [apply login_known_stable|apply clock_safe]|].
  intros now. cbv zeta. eapply among_bind; [apply issueCode_safe|]. intros code. by apply among_done.
Qed.

Lemma handoffLocation_safe handoff parent : among (login_known parent) (handoffLocation handoff parent) (fun _ _ => True).
Proof. unfold handoffLocation. eapply among_bind; [apply issueAuthCode_safe|]. intros issued. by apply among_done. Qed.

(** A handler started anywhere. *)
Definition safe {A} (p : iam A) : Prop := among (fun _ => True) p (fun _ _ => True).

#[local] Hint Resolve administersIam_safe resolveReturnUrl_safe currentLogin_safe : amongst.

Lemma readHandoff_safe P app redirect state challenge : among P (readHandoff app redirect state challenge) (fun _ _ => True).
Proof. unfold readHandoff. harmless. Qed.

Lemma endLogin_safe P request : among P (endLogin request) (fun _ _ => True).
Proof. unfold endLogin. harmless. Qed.

Lemma handleLogout_safe request : safe (handleLogout request).
Proof. unfold handleLogout, landing_or, safe. pose proof (fun P => endLogin_safe P request). harmless. Qed.

(** The input of a login: no terminal's, and of an identity provider's subject where its method has one. *)
Definition login_input (input : LoginInput) : Prop := li_method input <> TerminalAssertion.

Lemma landing_safe input login : among (login_known login) (landing input login) (fun _ _ => True).
Proof. unfold landing. destruct (li_handoff input); [apply handoffLocation_safe|]. harmless. Qed.

Lemma createSession_safe input log : among (creatable input) (createSession input log) (fun _ _ => True).
Proof. eapply among_weaken; [apply createSession_creates|done|done]. Qed.

Lemma issueSession_safe input : login_input input -> (subjectless (li_method input) = false -> li_idp_sub input <> None) -> safe (issueSession input).
Proof.
  intros Hm Hsub. unfold issueSession, safe. eapply among_bind; [apply clock_safe|]. intros now.
  set (session := mkNewSession _ _ _ _ _ _ _ _ _).
  assert (Hc : forall t, creatable session t).
  { intros t. split; [|split; done]. intros id hash created. constructor; cbn; try done.
    - intros Hn. destruct (subjectless (li_method input)); [done|]. by destruct (Hsub eq_refl).
  }
  eapply among_bind.
  - apply among_attempt. eapply among_bind; [apply administersIam_safe|]. intros privileged.
    eapply among_weaken; [apply createSession_creates|intros; apply Hc|]. intros o t _ Ho. exact Ho.
  - intros [[[id secret]|]|]; cbn [mjoin option_join]; [|harmless..]. eapply among_bind; [|intros location; apply among_none].
    eapply among_weaken; [apply landing_safe|cbn|done]. intros t _ (created & Hk). by apply known_login in Hk.
Qed.

Lemma refuseLogin_safe principal reason reply : safe (refuseLogin principal reason reply).
Proof.
  unfold refuseLogin, safe. apply (among_bind _ _ _ (fun _ _ => True)); [|intros; harmless]. apply among_try, among_step. intros e t Ht _ _. by apply moves_log.
Qed.

Lemma handleTerminalEnrolment_safe post request : safe (handleTerminalEnrolment post request).
Proof. unfold handleTerminalEnrolment, enrol, mayEnrol, safe. harmless. Qed.

Lemma browserTerminal_safe P request : among P (browserTerminal request) (fun _ _ => True).
Proof. unfold browserTerminal. harmless. Qed.

#[local] Hint Resolve readHandoff_safe endLogin_safe browserTerminal_safe : amongst.

Lemma identificationRedirect_safe P request handoff : among P (identificationRedirect request handoff) (fun _ _ => True).
Proof. unfold identificationRedirect. harmless. Qed.

Lemma handleTerminalRelease_safe request : safe (handleTerminalRelease request).
Proof. unfold handleTerminalRelease, safe. harmless. Qed.

Lemma loginChoseApp_safe P login app : among P (loginChoseApp login app) (fun _ _ => True).
Proof. unfold loginChoseApp. harmless. Qed.

#[local] Hint Resolve identificationRedirect_safe loginChoseApp_safe : amongst.

Lemma handleLogin_safe request : safe (handleLogin request).
Proof.
  unfold handleLogin, safe. apply (among_bind _ _ _ (fun _ _ => True)); [harmless|]. intros reading.
  destruct reading as [|handoff|kind]; cbv zeta; cbn [handoffOf]; [harmless| |harmless]. eapply among_bind; [apply currentLogin_known|].
  intros [[login principal]|]; [|harmless]. eapply among_bind; [apply among_past; [apply login_known_stable|apply loginChoseApp_safe]|].
  intros []; [|harmless]. eapply among_bind; [apply handoffLocation_safe|]. intros location. harmless.
Qed.

Lemma handleAccountChoice_safe request : safe (handleAccountChoice request).
Proof.
  unfold handleAccountChoice, safe. destruct (negb _); [harmless|]. destruct (rq_form request) as [form|]; [|harmless].
  apply (among_bind _ _ _ (fun _ _ => True)); [harmless|]. intros [|handoff|kind]; [harmless| |harmless]. destruct (bool_decide _); [harmless|].
  destruct (bool_decide _); [|harmless]. eapply among_bind; [apply currentLogin_known|]. intros login.
  apply (among_bind _ _ _ (fun _ _ => True)); [|intros; harmless]. destruct login as [[login principal]|]; [|harmless]. apply handoffLocation_safe.
Qed.

(** A completed identification names its login. *)
Lemma completeIdentification_known hash terminal now :
  among (fun _ => True) (completeIdentification hash terminal now)
    (fun o t => match o with Some i => match it_session i with Some id => login_known id t | None => True end | None => True end).
Proof.
  apply among_statement.
  - intros [i|]; [destruct (it_session i)|]; [apply login_known_stable|apply stable_true..].
  - intros e t Ht He HP. pose proof (completeIdentification_safe (fun _ => True) hash terminal now) as (R & _ & Hm & _).
    specialize (Hm e t Ht He HP). split; [by destruct Hm as (? & ? & _)|]. clear Hm. cbn. destruct (identifications t !! hash) as [i|] eqn:Ei; [|done].
    destruct (_ && _ && _ && _); cbn; [|done]. destruct (it_session i) as [id|] eqn:Eid; [|done].
    by apply (identifications_login t Ht hash i id).
Qed.

Lemma complete_safe hash terminal : safe (complete hash terminal).
Proof.
  unfold complete, safe. eapply among_bind; [apply clock_safe|]. intros now. eapply among_bind; [apply completeIdentification_known|].
  intros [i|]; [|harmless]. destruct (it_session i) as [id|]; [|harmless].
  eapply among_bind; [apply (among_knowing _ _ _ (login_known_stable id) (getActiveSessionById_known id))|cbv beta].
  intros [login|]; [|harmless]. cbv beta. apply (among_bind _ _ _ (fun _ _ => True)); [|intros; harmless].
  eapply among_weaken; [apply handoffLocation_safe|cbv beta|done]. by intros t _ [[_ ->] ?].
Qed.

Lemma handleTerminalCompletion_safe request : safe (handleTerminalCompletion request).
Proof.
  unfold handleTerminalCompletion, safe. apply (among_bind _ _ _ (fun _ _ => True)); [harmless|]. intros [[[terminal row] token]|]; [|harmless]. cbv zeta.
  destruct (_ || _); [harmless|]. apply (among_bind _ _ _ (fun _ _ => True)); [apply among_try, complete_safe|]. intros; harmless.
Qed.

(** An open identification was opened in a generation its terminal has reached. *)
Lemma openIdentification_known app id now :
  among (fun _ => True) (openIdentification app id now)
    (fun o t => match o with Some (i, terminal, _) => terminal = it_terminal i /\ reached t (it_terminal i) (it_generation i) | None => True end).
Proof.
  unfold openIdentification. destruct (_ || _); [by apply among_done|].
  eapply among_bind; [apply (among_found _ _ (fun i t => reached t (it_terminal i) (it_generation i)))|].
  - intros i. apply reached_stable.
  - intros e t i Ht _ Hi. by apply (identifications_used t Ht (hashToken id)).
  - intros [i|]; [|by apply among_done]. destruct (_ || _); [by apply among_done|].
    eapply among_bind; [apply among_past; [apply reached_stable|apply getTerminal_safe]|]. intros [row|]; [|by apply among_done].
    destruct (_ || _); [by apply among_done|].
    eapply among_bind; [apply among_past; [apply reached_stable|apply getAsserter_safe]|]. intros [asserter|]; [|by apply among_done].
    eapply among_bind; [apply among_past; [apply reached_stable|apply getPrincipalById_safe]|]. intros [principal|]; apply among_done; [|done].
    intros t _ Hr. by destruct (is_active principal).
Qed.

Lemma consume_commutes id hash now login log m t :
  insert_session id hash now login log (with_identifications m t) = with_identifications m (insert_session id hash now login log t).
Proof. unfold insert_session. by destruct log. Qed.

Lemma identifications_insert id hash now login log t : identifications (insert_session id hash now login log t) = identifications t.
Proof. unfold insert_session. by destruct log. Qed.

Lemma used_insert id hash now login log t : used (insert_session id hash now login log t) = {[id; hash]} ∪ used t.
Proof. unfold insert_session. by destruct log. Qed.

Lemma sessions_insert id hash now login log t :
  sessions (insert_session id hash now login log t) = sessions t ++ [session_row id hash now login].
Proof. unfold insert_session. by destruct log. Qed.

Lemma consumeIdentification_safe hash now completeBy login log :
  ns_app login = None -> ns_parent login = None ->
  among (creatable login) (consumeIdentification hash now completeBy login log hashToken) (fun _ _ => True).
Proof.
  intros Happ Hpar. apply among_step. intros e t Ht He Hc. destruct (identifications t !! hash) as [i|] eqn:Ei; cbn [fst snd]; [|by apply moves_refl].
  destruct (consumable now i t) eqn:Ec; cbn [fst snd]; [|by apply moves_refl]. rewrite consume_commutes.
  unfold consumable in Ec. apply andb_true_iff in Ec as [[Eu _]%andb_true_iff _].
  set (t1 := insert_session _ _ _ _ _ t).
  assert (Hm : moves t t1) by (apply moves_create; [apply He|by apply unseen_secret|done|done]).
  set (m := <[hash := _]> (identifications t)). eapply moves_trans; [exact Hm|]. refine (moves_identifications m (used t1) t1 _ _ _); [done| |apply Hm].
  intros h i' Hi'. subst m. destruct (decide (hash = h)) as [<-|Hne].
  - rewrite lookup_insert_eq in Hi'. injection Hi' as <-. split.
    + left. exists i. split; [by unfold t1; rewrite identifications_insert|]. repeat (split; [done|]). cbn. split; [|done]. by destruct (it_consumed i).
    + intros id [= <-]. unfold t1. rewrite used_insert. split; [set_solver|]. rewrite sessions_insert. intros l [Hl| ->%list_elem_of_singleton]%elem_of_app El.
      * destruct (unseen_uuid e t He). rewrite <- El. by apply (sessions_used t Ht).
      * by split.
  - rewrite lookup_insert_ne in Hi' by done. split; [left; exists i'; unfold t1; rewrite identifications_insert; split; [done|apply identification_ages_refl]|].
    intros id Eid. assert (Hi1 : identifications t1 !! h = Some i') by (unfold t1; by rewrite identifications_insert).
    apply (identifications_login t1 (proj1 Hm) h i' id Hi1 Eid).
Qed.

Lemma asserted_creatable person terminal app row i now t :
  terminal = it_terminal i -> reached t (it_terminal i) (it_generation i) -> creatable (asserted_login person terminal app row i now) t.
Proof.
  intros -> Hr. split; [|split; [done|]].
  - intros id hash created. by constructor.
  - intros tm g [= <-] [= <-]. exact Hr.
Qed.

Lemma askingApp_safe P caller : among P (askingApp caller) (fun _ _ => True).
Proof. unfold askingApp. harmless. Qed.

#[local] Hint Resolve askingApp_safe : amongst.

Lemma openIdentification_safe P app id now : among P (openIdentification app id now) (fun _ _ => True).
Proof. eapply among_forget, openIdentification_known. Qed.

#[local] Hint Resolve openIdentification_safe : amongst.

Lemma inspectIdentification_safe caller id : safe (inspectIdentification caller id).
Proof. unfold inspectIdentification, safe. harmless. Qed.

Lemma cancelIdentification_safe caller id : safe (cancelIdentification caller id).
Proof. unfold cancelIdentification, safe. harmless. Qed.

Lemma assertIdentity_safe caller id person : safe (assertIdentity caller id person).
Proof.
  unfold assertIdentity, safe. apply (among_bind _ _ _ (fun _ _ => True)); [harmless|]. intros [failure|app]; [harmless|].
  eapply among_bind; [apply clock_safe|]. intros now. eapply among_bind; [apply openIdentification_known|].
  intros [[[i terminal] row]|]; [|harmless]. set (K := fun t => terminal = it_terminal i /\ reached t (it_terminal i) (it_generation i)).
  assert (HK : stable K) by (apply stable_and; [apply stable_pure|apply reached_stable]).
  apply (among_bind _ _ _ (fun _ => K)).
  - apply among_past; [exact HK|]. harmless.
  - intros [principal|]; [|harmless]. destruct (negb _); [harmless|].
    eapply among_bind; [apply among_past; [exact HK|apply administersIam_safe]|]. intros privileged.
    apply (among_bind _ _ _ (fun _ _ => True)); [|intros; harmless].
    eapply among_weaken; [by apply consumeIdentification_safe|cbv beta|done]. intros t _ [? ?]. by apply asserted_creatable.
Qed.

Lemma canManagePrincipal_safe P administration principal : among P (canManagePrincipal administration principal) (fun _ _ => True).
Proof. unfold canManagePrincipal. harmless. Qed.

#[local] Hint Resolve canManagePrincipal_safe : amongst.

Lemma revokeSessionUseCase_safe administration id : safe (revokeSessionUseCase administration id).
Proof. unfold revokeSessionUseCase, safe. harmless. Qed.

Lemma revokeSessionsForPrincipalUseCase_safe administration id : safe (revokeSessionsForPrincipalUseCase administration id).
Proof. unfold revokeSessionsForPrincipalUseCase, safe. harmless. Qed.

Lemma setTerminalProfileUseCase_safe id label ttl asserters : safe (setTerminalProfileUseCase id label ttl asserters).
Proof. unfold setTerminalProfileUseCase, safe. harmless. Qed.

Lemma revokeTerminalUseCase_safe id : safe (revokeTerminalUseCase id).
Proof. unfold revokeTerminalUseCase, safe. harmless. Qed.

Lemma sweeps_safe sweep now : sweep ∈ sweeps -> safe (sweep now).
Proof.
  unfold sweeps, safe. rewrite !elem_of_cons, elem_of_nil. intros [->|[->|[->|[]]]]; auto with amongst.
Qed.

(** ** The exchange *)

(** What is stored under the code is its row [c], or what ageing left of it. *)
Definition row_of (hash : string) (c : AuthCodeRow) (t : Iam) : Prop := hash ∈ used t /\ forall c', codes t !! hash = Some c' -> code_ages c c'.

Lemma row_of_stable hash c : stable (row_of hash c).
Proof.
  intros t t' _ _ Ha [Hu Hc]. split; [by apply (adv_used _ _ Ha)|]. intros c' Hc'.
  destruct (adv_codes _ _ Ha hash c' Hc') as [(c1 & Hc1 & Hages)|?]; [|done]. eapply code_ages_trans; [by apply Hc|done].
Qed.

(** The row the code had before, if it had one. *)
Definition had_row (hash : string) (before : option AuthCodeRow) (t : Iam) : Prop := match before with Some c => row_of hash c t | None => True end.

Lemma had_row_stable hash before : stable (had_row hash before).
Proof. destruct before; [apply row_of_stable|apply stable_true]. Qed.

(** The code was consumed, unspent and before its end, and [c] was its row. *)
Definition spent_of (hash : string) (before : option AuthCodeRow) (c : AuthCodeRow) (t : Iam) : Prop :=
  (forall c0, before = Some c0 -> c0 = c) /\ co_consumed c = None /\ hash ∈ used t /\
  exists now, now < co_expires c /\ forall c', codes t !! hash = Some c' -> c' = consume_row now c.

Lemma spent_of_stable hash before c : stable (spent_of hash before c).
Proof.
  intros t t' _ _ Ha (Hb & Hn & Hu & now & Hlt & Hc). split; [done|]. split; [done|]. split; [by apply (adv_used _ _ Ha)|]. exists now. split; [done|]. intros c' Hc'.
  destruct (adv_codes _ _ Ha hash c' Hc') as [(c1 & Hc1 & [->|(Hn' & _)])|?]; [by apply Hc| |done]. by rewrite (Hc c1 Hc1) in Hn'.
Qed.

Lemma spent_of_spent hash before c t : spent_of hash before c t -> spent hash t.
Proof. intros (_ & _ & Hu & now & _ & Hc). split; [done|]. by intros c' ->%Hc. Qed.

Lemma consumeCode_known hash before now :
  among (had_row hash before) (consumeCode hash now)
    (fun o t => match o with Some c => exists c0 now, c = consume_row now c0 /\ spent_of hash before c0 t /\ login_known (co_parent c) t | None => True end).
Proof.
  unfold consumeCode. apply (among_bind _ _ _ (fun marked t => if marked : bool then exists c0, spent_of hash before c0 t else True)).
  - apply among_statement; [intros []; [apply stable_ex; intros c0; apply spent_of_stable|apply stable_true]|]. intros e t Ht He HP.
    pose proof (markCode_safe (fun _ => True) hash now) as (R & _ & Hm & _). specialize (Hm e t Ht He I). split; [by destruct Hm as (? & ? & _)|].
    clear Hm. cbn. destruct (codes t !! hash) as [c|] eqn:Ec; [|done]. destruct (_ && _) eqn:Eu; [|done]. apply andb_true_iff in Eu as [Eu El].
    assert (Hn : co_consumed c = None) by by destruct (co_consumed c). exists c. cbn. split.
    { intros c0 ->. destruct HP as [_ HP]. destruct (HP c Ec) as [->|(_ & now' & ->)]; done. }
    split; [done|]. split; [by apply (codes_used t Ht hash c)|]. exists now. split; [by apply Z.ltb_lt|]. cbn. intros c'. rewrite lookup_insert_eq. by intros [= <-].
  - intros []; [|by apply among_done].
    apply among_read.
    { intros [c|]; [|apply stable_true]. apply stable_ex. intros c0. apply stable_ex. intros now0. apply stable_and; [apply stable_pure|].
      apply stable_and; [apply spent_of_stable|apply login_known_stable]. }
    intros e t Ht _ [c0 Hs]. cbv beta. destruct (codes t !! hash) as [c|] eqn:Ec; [|done]. destruct Hs as (Hb & Hn & Hu & now0 & Hlt & Hc).
    exists c0, now0. split; [by apply Hc|]. split; [|by eapply code_login]. split; [done|]. split; [done|]. split; [done|]. by exists now0.
Qed.

Lemma session_terminal parent :
  well_formed parent -> terminalId <$> sessionTerminal parent = se_terminal parent /\ assertedBy <$> sessionTerminal parent = se_asserted_by parent.
Proof. intros [_ _ _ Ha _ _]. unfold sessionTerminal. destruct (se_terminal parent), (se_asserted_by parent); cbn in *; done. Qed.

Lemma child_derived principal parent app id hash now :
  well_formed parent -> is_login parent -> pr_id principal = se_principal parent -> derived (session_row id hash now (child_session principal parent app)) parent.
Proof. intros Hw Hl Hid. destruct (session_terminal parent Hw) as [Et Eb]. constructor; cbn; rewrite ?Et, ?Eb; done. Qed.

(** A child of its parent, when the terminal asserts for its application. *)
Lemma child_creatable principal parent app t :
  known parent t -> is_login parent -> pr_id principal = se_principal parent ->
  (forall terminal, sessionTerminal parent = Some terminal -> assertedBy terminal = app) -> creatable (child_session principal parent app) t.
Proof.
  intros (Hu & Hwf & Hk & Hr) Hl Hid Hterm. destruct (session_terminal parent Hwf) as [Et Eb]. split; [|split].
  - destruct Hwf as [Hc Hs Ht Ha Hg Hp]. intros id hash now. constructor; cbn; rewrite ?Et, ?Eb; try done. intros app' by_ [= <-] Hb.
    destruct (sessionTerminal parent) as [tm|]; [|by rewrite <- Eb in Hb]. cbn in Eb. rewrite <- Eb in Hb. injection Hb as <-. by apply Hterm.
  - split; [done|]. intros id hash now l Hin El. destruct (child_derived principal parent app id hash now Hwf Hl Hid) as [? ? ? ? ? ? ?].
    rewrite (ages_static _ _ (Hk l Hin El)). by constructor.
  - intros terminal g Etm Eg. cbn in Etm, Eg. apply Hr; [|done]. by rewrite <- Et, Etm.
Qed.

(** The text a code ends with proves the verifier: it is the challenge of one, of the form both have. *)
Definition challenge_met (code verifier : string) : Prop :=
  (43 <= String.length verifier <= 128)%nat /\ Js.forall_units is_handoff_unit verifier = true /\
  String.length (pkceChallenge verifier) = 43%nat /\ Js.forall_units is_handoff_unit (pkceChallenge verifier) = true /\
  exists drawn, code = drawn +:+ "." +:+ pkceChallenge verifier.

Lemma after_last_some c s rest : after_last c s = Some rest -> exists front, s = front +:+ String c rest.
Proof.
  revert rest. induction s as [|d s IH]; intros rest; cbn; [done|]. destruct (after_last c s) as [tail|].
  - intros [= <-]. destruct (IH tail eq_refl) as [front ->]. by exists (String d front).
  - destruct (Ascii.eqb_spec d c) as [->|]; [|done]. intros [= <-]. by exists "".
Qed.

Lemma secret_text_spec low high value : is_secret_text low high value = true -> (low <= String.length value <= high)%nat /\ Js.forall_units is_handoff_unit value = true.
Proof. unfold is_secret_text. rewrite !andb_true_iff, !Nat.leb_le. tauto. Qed.

Lemma proves_met code verifier : proves code verifier = true -> challenge_met code verifier.
Proof.
  unfold proves, challengeFromCode. destruct (after_last "." code) as [challenge|] eqn:Ea; [|done]. cbn [mbind option_bind].
  destruct (validChallenge challenge) eqn:Ec; [|done]. intros [Hv <-%String.eqb_eq]%andb_true_iff. apply secret_text_spec in Ec as [? ?], Hv as [? ?].
  destruct (after_last_some _ _ _ Ea) as [drawn ->]. split; [done|]. split; [done|]. split; [lia|]. split; [done|]. by exists drawn.
Qed.

(** What a redemption answers, of the code whose row [c] is: a child, for the application the code was issued for, of the
    login it was issued from. *)
Definition redeems (input : ExchangeAuthCodeInput) (before : option AuthCodeRow) (c : AuthCodeRow) (r : Redeemed) (t : Iam) : Prop :=
  challenge_met (xc_code input) (xc_verifier input) /\ co_app c = xc_app input /\ rd_returnUrl r = co_return_url c /\
  spent_of (hashToken (xc_code input)) before c t /\
  exists parent child, known parent t /\ known child t /\ se_id parent = co_parent c /\
    (forall terminal, sessionTerminal parent = Some terminal -> assertedBy terminal = co_app c) /\
    se_hash child = hashToken (rd_session r) /\ se_app child = Some (co_app c) /\ se_parent child = Some (co_parent c) /\
    derived child parent /\ se_expires child = rd_expiresAt r.

Definition exchange_outcome (input : ExchangeAuthCodeInput) (before : option AuthCodeRow) (o : option ExchangeOutcome) (t : Iam) : Prop :=
  match o with Some out => match ex_result out with inr r => exists c, redeems input before c r t | inl _ => True end | None => True end.

Lemma exchange_tells input before :
  among (had_row (hashToken (xc_code input)) before) (exchangeAuthCode input) (exchange_outcome input before).
Proof.
  unfold exchangeAuthCode. set (hash := hashToken _). eapply among_bind; [apply among_past; [apply had_row_stable|apply clock_safe]|]. intros now.
  eapply among_bind; [apply consumeCode_known|]. intros [c|]; [|apply (among_bind _ _ _ (fun _ _ => True)); [harmless|by intros; apply among_done]].
  destruct (String.eqb_spec (co_app c) (xc_app input)) as [Happ|_]; cbn [negb]; [|by apply among_done].
  destruct (proves _ _) eqn:Hproof; cbn [negb]; [|by apply among_done]. apply proves_met in Hproof.
  set (K := fun parent t => (exists c0 now, c = consume_row now c0 /\ spent_of hash before c0 t) /\ known parent t /\ se_id parent = co_parent c /\ is_login parent).
  assert (HK : forall parent, stable (K parent)).
  { intros parent. apply stable_and; [|apply stable_and; [apply known_stable|apply stable_pure]].
    apply stable_ex. intros c0. apply stable_ex. intros now0. apply stable_and; [apply stable_pure|apply spent_of_stable]. }
  eapply among_bind; [apply (among_found _ _ K HK)|].
  { intros e t parent Ht (c0 & now0 & Hc0 & Hs & _ & Hl) (Hk & Hin & [E%String.eqb_eq _]%andb_true_iff)%find_known; [|done]. unfold K. split; [by exists c0, now0|]. auto. }
  intros [parent|]; [|by apply among_done]. cbv zeta. cbv beta.
  destruct (match sessionTerminal parent with Some _ => _ | None => _ end) eqn:Hterm; [by apply among_done|].
  eapply among_bind; [eapply among_knowing; [exact (HK parent)|apply getPrincipalById_keyed]|]. intros [principal|]; [|by apply among_done]. cbv beta.
  destruct (is_disabled principal); [by apply among_done|].
  assert (Hasserts : forall terminal, sessionTerminal parent = Some terminal -> assertedBy terminal = co_app c).
  { intros tm Etm. rewrite Etm in Hterm. apply negb_false_iff in Hterm. by apply String.eqb_eq. }
  set (K' := fun t => pr_id principal = se_principal parent /\ K parent t). assert (HK' : stable K') by (apply stable_and; [apply stable_pure|apply HK]).
  eapply among_bind.
  - eapply among_weaken; [apply (among_keep _ _ _ K' HK' (createSession_creates (child_session principal parent (co_app c)) _))| |intros o t _ Ho; exact Ho].
    intros t _ [Hid Hk]. split; [|done]. destruct Hk as (_ & Hk & _ & Hl). by apply child_creatable.
  - intros [[id secret]|]; apply among_done; [|done]. intros t _ [(created & Hchild) (Hid & (c0 & now0 & -> & Hs) & Hk & E & Hl)]. cbn in *. exists c0.
    split; [done|]. split; [done|]. split; [done|]. split; [done|].
    exists parent, (session_row id (hashToken secret) created (child_session principal parent (co_app c0))). rewrite <- E.
    repeat (split; [done|]). split; [|done]. apply child_derived; try done. by destruct Hk as (_ & ? & _).
Qed.

End SignIn.

(** ** Properties *)

Section SignInProperties.
Context `{Hashing, Addresses, Installation, UrlParser, Signing}.

(** The exchange succeeded. *)
Definition redeemed (o : option ExchangeOutcome) : Prop := exists out r, o = Some out /\ ex_result out = inr r.

Lemma markCode_marks hash now e t :
  match codes t !! hash with
  | Some c => if negb (is_some (co_consumed c)) && (now <? co_expires c)
              then (true, with_codes (<[hash := consume_row now c]> (codes t)) t) else (false, t)
  | None => (false, t)
  end = (true, e) -> consistent t -> ~ spent hash t /\ spent hash e.
Proof.
  destruct (codes t !! hash) as [c|] eqn:Ec; [|done]. destruct (_ && _) eqn:Eu; [|done]. intros [= <-] Ht. apply andb_true_iff in Eu as [Eu _]. split.
  - intros [_ Hs]. specialize (Hs c Ec). by rewrite Hs in Eu.
  - split; [by apply (codes_used t Ht hash c)|]. cbn. intros c'. rewrite lookup_insert_eq. by intros [= <-].
Qed.

(** An exchange that succeeds consumed the code itself. *)
Lemma exchange_claims input : claims (spent (hashToken (xc_code input))) redeemed (exchangeAuthCode input).
Proof.
  unfold exchangeAuthCode. cbn. intros e t _ _. left. intros e1 t1 Ht1 _.
  match goal with |- claims _ _ (prog_bind (if ?r.1 then _ else _) _) \/ _ => destruct r as [marked t2] eqn:Em end. cbn [fst snd].
  destruct marked; [right; by apply (markCode_marks _ (e_now e))|]. left. cbn. intros e2 t2' _ _. left. intros (out & r & [= <-] & Hr). done.
Qed.

(** C9. A hand-off code is redeemed for exactly what it stands for. However the other handlers' steps fall between those
    of the exchange: when it answers a session, the code ends with the challenge of the verifier presented, its row was
    unspent and not expired and is spent now, it was issued for the application that asked, and the session is the child of
    the login the code was issued from, of that login's person, method, terminal and end, for that application and no other;
    the row is the one the store held when the exchange began, if it held one. *)
Theorem exchange_redeems (input : ExchangeAuthCodeInput) (t t' : Iam) (out : ExchangeOutcome) (r : Redeemed) :
  consistent t -> runs (exchangeAuthCode input) t (Some out) t' -> ex_result out = inr r ->
  exists c, redeems input (codes t !! hashToken (xc_code input)) c r t'.
Proof.
  intros Ht Hr Ho. assert (Hrow : had_row (hashToken (xc_code input)) (codes t !! hashToken (xc_code input)) t).
  { destruct (codes t !! _) as [c|] eqn:Ec; [|done]. split; [by apply (codes_used t Ht _ c)|]. intros c'. rewrite Ec. intros [= <-]. by left. }
  destruct (runs_sound _ _ _ _ _ _ (exchange_tells input _) Ht Hrow Hr) as (_ & _ & Hout). cbn in Hout. by rewrite Ho in Hout.
Qed.

(** A hand-off code is redeemed at most once: of two exchanges of one code, running at the same time and among any
    other handlers, one is refused. *)
Theorem exchange_once (a b : ExchangeAuthCodeInput) (t : Iam) (x y : option ExchangeOutcome) :
  consistent t -> xc_code a = xc_code b -> interleaved (exchangeAuthCode a) (exchangeAuthCode b) t x y -> ~ (redeemed x /\ redeemed y).
Proof.
  intros Ht Hcode Hi. apply (race (spent (hashToken (xc_code a))) redeemed redeemed _ _ t x y (spent_stable _) Hi Ht).
  - exists (fun _ => True). split; [apply stable_true|]. split; [done|]. by eapply among_forget, (exchange_tells _ None).
  - exists (fun _ => True). split; [apply stable_true|]. split; [done|]. by eapply among_forget, (exchange_tells _ None).
  - left. split; [apply exchange_claims|]. rewrite Hcode. apply exchange_claims.
Qed.

End SignInProperties.

(** ** Witnesses

    A small installation: hashes that grow with what they hash, so that a longer random value is a fresh one. *)
Module SignInDemo.

#[export] Instance hashing : Hashing := {| hashToken := fun s => "#" +:+ s; pkceChallenge := fun s => s |}.

#[export] Instance addresses : Addresses := {|
  address := fun value => if Js.startsWith value "https://" then Some (mkAddress value "https:" value "/" "") else None;
  located := fun base path _ => base +:+ path;
  encodeURIComponent := fun value => value |}.

#[export] Instance installation : Installation := {|
  issuer_url := "https://iam"; oidc_enabled := true; password_enabled := true; localDevLogin := false; installationLanding := fun _ => "https://iam/home" |}.

#[export] Instance signing : Signing := {| jwt_sign := fun claims => "signed." +:+ sub claims; jwt_verify := fun _ _ _ _ _ => None |}.

#[export] Instance urls : UrlParser := demo_url.

Fixpoint letters (n : nat) : string := match n with O => "" | S n => String "a" (letters n) end.

Definition env (n : nat) : Surroundings :=
  mkSurroundings (1000 + Z.of_nat n) ("id-" +:+ pretty n) ("other-" +:+ pretty n) (letters (100 * S n)) false.

(** Whether a step's random values are fresh. *)
Definition fresh (e : Surroundings) (t : Iam) : bool :=
  bool_decide (e_uuid e ∉ used t) && forallb (fun x => (String.length x <=? String.length (e_random e))%nat) (elements (used t)).

Lemma fresh_unseen e t : consistent t -> fresh e t = true -> unseen e t.
Proof.
  intros _ [Hu%bool_decide_eq_true Hr]%andb_true_iff. split; [done|]. intros prefix suffix Hin. rewrite forallb_forall in Hr.
  assert (Hle : (String.length (hashToken (prefix +:+ e_random e +:+ suffix)) <= String.length (e_random e))%nat).
  { apply Nat.leb_le, Hr. by rewrite <- list_elem_of_In, elem_of_elements. }
  cbn in Hle. rewrite !str_length_app in Hle. lia.
Qed.

Definition alice := mkPrincipal "p1" true (Some "sub-1") (Some "alice@x") "alice@x" None (Some 1) Internal.

Definition repos : Repositories := {|
  db_getPrincipalById := fun id => if (id =? "p1")%string then Some alice else None;
  db_getActiveGrantsForApp := fun id app _ =>
    if (id =? "p1")%string && (app =? "shop")%string then [mkGrant (Some "shop") None (Some (Some (JArr [JStr "task.read"]))) None None (Some 1100)] else [];
  db_listRoles := fun _ => []; db_isContractApp := fun app => (app =? "shop")%string; db_getRole := fun _ _ => None;
  db_getByPrincipal := fun _ => None; db_declaration := fun _ _ => None; platformAudiences := ["propustka"]; bootstrapAdmins := [] |}.

Definition dir : Directory :=
  mkDirectory repos (fun _ _ _ => None) (fun _ _ => None) (fun app => if (app =? "shop")%string then ["task.read"; "task.write"] else [])
    (fun _ => None) (fun _ => []) (fun _ => []) ["shop"].

Definition nothing : Iam := mkIam [] ∅ ∅ ∅ ∅ [] ∅ [] dir ∅.

Lemma nothing_consistent : consistent nothing.
Proof.
  assert (Hkeyed : keyed dir).
  { intros id row. cbn. destruct (String.eqb_spec id "p1") as [->|_]; [by intros [= <-]|done]. }
  by constructor; cbn; try apply NoDup_nil_2; try (intros *; rewrite ?lookup_empty, ?elem_of_nil; done).
Qed.

(** Alone, from a consistent state, a program keeps it so. *)
Lemma alone {A} (P : Iam -> Prop) (p : iam A) (Q : A -> Iam -> Prop) n t :
  among P p Q -> consistent t -> P t -> surrounded fresh env n p t = true ->
  runs p t (exec env n p t).1 (exec env n p t).2 /\ consistent (exec env n p t).2 /\ Q (exec env n p t).1 (exec env n p t).2.
Proof.
  intros Hp Ht HP Hs. assert (Hr : runs p t (exec env n p t).1 (exec env n p t).2) by by apply (@exec_runs _ _ iam_discipline _ fresh env p Q fresh_unseen P).
  destruct (runs_sound P p Q t _ _ Hp Ht HP Hr) as (? & _ & ?). done.
Qed.

(** Alice signs in, *)
Definition signing_in : iam (option (string * string)) :=
  createSession (mkNewSession "p1" (Some "sub-1") None Oidc 5000 None None None None) (log_row IAM_APP_ID (Some "p1") true "login" false None).

Definition signed_in : Iam := (exec env 0 signing_in nothing).2.

Lemma signed_in_consistent : consistent signed_in.
Proof.
  refine (proj1 (proj2 (alone _ signing_in _ 0 nothing (createSession_safe _ _) nothing_consistent _ _))); [|vm_compute; reflexivity].
  split; [|split; done]. intros id hash now. by constructor.
Qed.

(** chooses an application, *)
Definition choosing : iam (option (string * Z)) := issueAuthCode "shop" "id-0" "https://shop/inbox" (letters 43).

Definition chosen : Iam := (exec env 1 choosing signed_in).2.

Lemma chosen_consistent : consistent chosen.
Proof.
  refine (proj1 (proj2 (alone _ choosing _ 1 signed_in (issueAuthCode_safe _ _ _ _) signed_in_consistent _ _))); [|vm_compute; reflexivity].
  split; [vm_compute; reflexivity|]. intros l Hl. by apply list_elem_of_singleton in Hl as ->.
Qed.

(** and it exchanges the code. *)
Definition exchanging : ExchangeAuthCodeInput := mkExchange (letters 300 +:+ "." +:+ letters 43) "shop" (letters 43).

Definition exchanged : Iam := (exec env 3 (exchangeAuthCode exchanging) chosen).2.

Definition exchange_out : ExchangeOutcome := mkOutcome (inr (mkRedeemed (letters 900) "https://shop/inbox" 5000)) (Some "p1") None.

Lemma exchanging_runs : runs (exchangeAuthCode exchanging) chosen (Some exchange_out) exchanged /\ consistent exchanged.
Proof.
  destruct (alone _ (exchangeAuthCode exchanging) _ 3 chosen (exchange_tells exchanging None) chosen_consistent I) as (Hr & Hc & _); [vm_compute; reflexivity|].
  split; [|done]. replace (Some exchange_out) with (exec env 3 (exchangeAuthCode exchanging) chosen).1; [done|]. vm_compute. reflexivity.
Qed.

End SignInDemo.

Section SignInWitnesses.
Import SignInDemo.

Lemma exchange_redeems_witness :
  runs (exchangeAuthCode exchanging) chosen (Some exchange_out) exchanged /\
  exists c, redeems exchanging (codes chosen !! hashToken (xc_code exchanging)) c (mkRedeemed (letters 900) "https://shop/inbox" 5000) exchanged.
Proof.
  split; [apply exchanging_runs|].
  apply (exchange_redeems exchanging chosen exchanged exchange_out); [exact chosen_consistent|apply exchanging_runs|reflexivity].
Defined.

Lemma exchange_once_witness : exists y,
  interleaved (exchangeAuthCode exchanging) (exchangeAuthCode exchanging) chosen (Some exchange_out) y /\ redeemed (Some exchange_out) /\ ~ redeemed y.
Proof.
  exists (exec env 20 (exchangeAuthCode exchanging) exchanged).1.
  assert (Hi : interleaved (exchangeAuthCode exchanging) (exchangeAuthCode exchanging) chosen (Some exchange_out)
                 (exec env 20 (exchangeAuthCode exchanging) exchanged).1).
  { refine (runs_interleaved _ _ _ _ _ _ _ (proj1 exchanging_runs)
      (proj1 (alone _ (exchangeAuthCode exchanging) _ 20 exchanged (exchange_tells exchanging None) (proj2 exchanging_runs) I _))). vm_compute. reflexivity. }
  assert (Hr : redeemed (Some exchange_out)) by (eexists; eexists; split; reflexivity). split; [exact Hi|]. split; [exact Hr|].
  intros Hy. exact (exchange_once exchanging exchanging chosen _ _ chosen_consistent eq_refl Hi (conj Hr Hy)).
Defined.

End SignInWitnesses.
