(* ===== verification/Mint.v ===== *)
(** Minting access tokens and issuing keys: [iam/src/tokens.ts], [narrow-permissions.ts], [stored-chain.ts], [issue.ts] and the
    callers of [auth.ts], as programs of [Interleave] over the tables of [Sessions].

    A token is what [Signing] makes of its claims. What a principal or an issuer holds is resolved in one read, as
    [Authority] has it. A [None] among the answers is a throw no code catches. *)

From S2P Require Import Prelude Permissions Credentials Token Authority Interleave Sessions SignIn.
From Stdlib Require Import ZArith Lia String Ascii.
From stdpp Require Import base tactics strings gmap list.

Open Scope Z_scope.

(** ** narrow-permissions.ts *)

(** [KeyGrant]; an absent scope is [null]. *)
Definition KeyGrant : Type := string * option Scope.

(** [None] is [undefined]: the scopes do not overlap. *)
Definition narrowerScope (held limit : option Scope) : option (option Scope) :=
  match held, limit with
  | None, _ => Some limit
  | _, None => Some held
  | Some h, Some l => if same_scope h l then Some held else None
  end.

Definition narrowerAction (held limit : string) : option string :=
  if matchAction limit held then Some held else if matchAction held limit then Some limit else None.

Definition narrow_entry (held : PermissionEntry) (limit : KeyGrant) : option PermissionEntry :=
  match narrowerAction (action held) limit.1, narrowerScope (scope held) limit.2 with
  | Some act, Some sc => Some (mkEntry act sc (source held))
  | _, _ => None
  end.

(** The entries and the keys seen, after one more pair. *)
Definition narrow_step (held : PermissionEntry) (acc : list PermissionEntry * list string) (limit : KeyGrant) : list PermissionEntry * list string :=
  match narrow_entry held limit with
  | None => acc
  | Some e => if Js.elem (entryKey e) acc.2 then acc else (acc.1 ++ [e], acc.2 ++ [entryKey e])
  end.

Definition narrowPermissions (live : list PermissionEntry) (ceiling : list KeyGrant) : list PermissionEntry :=
  (foldl (fun acc held => foldl (narrow_step held) acc ceiling) ([], []) live).1.

(** ** stored-chain.ts *)

Fixpoint chain_loop (items : list json) (chain : list Scope) : option (list Scope) :=
  match items with
  | [] => Some chain
  | item :: rest =>
      match stringField (Some item) "type", stringField (Some item) "value" with
      | Some t, Some v => chain_loop rest (chain ++ [mkScope t v])
      | _, _ => None
      end
  end.

(** Of the parsed text. *)
Definition parseStoredChain (value : json) : option (list Scope) :=
  match value with JArr [] => None | JArr items => chain_loop items [] | _ => None end.

(** ** secret.ts *)

Fixpoint units_differ (a b : string) : N :=
  match a, b with
  | String x a, String y b => N.lor (N.lxor (N_of_ascii x) (N_of_ascii y)) (units_differ a b)
  | _, _ => 0%N
  end.

Definition timingSafeEqualHex (a b : string) : bool := (String.length a =? String.length b)%nat && (units_differ a b =? 0)%N.

(** In every position compared, and so exact: the comparison decides equality. *)
Lemma units_differ_none a b : String.length a = String.length b -> units_differ a b = 0%N <-> a = b.
Proof.
  revert b. induction a as [|x a IH]; intros [|y b] El; try done. injection El as El. cbn. rewrite N.lor_eq_0_iff, N.lxor_eq_0_iff, IH by done. split.
  - intros [E ->]. f_equal. by rewrite <- (ascii_N_embedding x), <- (ascii_N_embedding y), E.
  - by intros [= -> ->].
Qed.

Lemma timingSafeEqualHex_spec a b : timingSafeEqualHex a b = (a =? b)%string.
Proof.
  unfold timingSafeEqualHex. destruct (Nat.eqb_spec (String.length a) (String.length b)) as [El|Hn]; cbn.
  - destruct (String.eqb_spec a b) as [E|E], (N.eqb_spec (units_differ a b) 0) as [E'|E']; try done; rewrite units_differ_none in E' by done; done.
  - destruct (String.eqb_spec a b) as [->|]; done.
Qed.

(** The operator's provisioning key, empty for none. *)
Class Provisioning := { provisioningKey : string }.

Section Mint.
Context `{Hashing, Addresses, Installation, UrlParser, Signing, Provisioning}.

(** ** tokens.ts *)

Definition DEFAULT_TOKEN_TTL_SECONDS : Z := 300.
Definition MAX_ACCESS_TOKEN_BYTES : nat := 8192.
Definition MAX_APPLICATION_TOKEN_BYTES : nat := 24576.

Definition authorityAt (principal : PrincipalRow) (app : string) : iam ResolvedAuthority :=
  read (fun _ t => @resolveAuthorityAt (repositories (directory t)) principal app).

Definition principal_type (principal : PrincipalRow) : TokenPrincipalType := if pr_is_user principal then TypeUser else TypeService.

Definition mailboxClaim (principal : PrincipalRow) : option string := if pr_is_user principal then pr_email principal else None.

(** [signAccessToken]; [None] is the throw of [buildAccessClaims]. *)
Definition signAccessToken (params : AccessTokenParams) : option string :=
  match buildAccessClaims params with inl _ => None | inr claims => Some (jwt_sign claims) end.

Definition proxyMintedBound (app : string) : iam nat :=
  read (fun _ t => if @db_isContractApp (repositories (directory t)) app then MAX_APPLICATION_TOKEN_BYTES else MAX_ACCESS_TOKEN_BYTES).

Definition boundedToken (token : string) (bytes : nat) : option string := if (String.length token <=? bytes)%nat then Some token else None.

(** The earlier of a time and a deadline, where [None] is no deadline. *)
Definition until (deadline : option Z) (time : Z) : Z := match deadline with Some d => Z.min time d | None => time end.

Record TerminalAuthority := mkTerminalAuthority {
  ta_id : string; ta_label : string; ta_ceiling : list KeyGrant; ta_additions : list PermissionEntry; ta_authority : ResolvedAuthority }.

Definition terminalAuthority (terminal : SessionTerminal) (app : string) : iam (option TerminalAuthority) :=
  platform ← read (fun _ t => @reachesCrossAppAuthority (repositories (directory t)) app);
  if platform : bool then mret None
  else
    row ← getTerminal (terminalId terminal);
    match row with
    | None => mret None
    | Some row =>
        if is_some (te_revoked row) then mret None
        else
          asserter ← getAsserter (terminalId terminal) app;
          match asserter with
          | None => mret None
          | Some ceiling =>
              identify ← getTerminalIdentifyPath app;
              if negb (is_some identify) then mret None
              else
                principal ← getPrincipalById (terminalId terminal);
                match principal with
                | None => mret None
                | Some principal =>
                    if is_disabled principal then mret None
                    else
                      granted ← authorityAt principal app;
                      mret (Some (mkTerminalAuthority (terminalId terminal) (te_label row) (map (fun act => (act, None)) ceiling)
                                    (map (fun e => mkEntry (action e) (scope e) SourceTerminal) (au_permissions granted)) granted))
                end
          end
    end.

Definition withinTerminal (personal : list PermissionEntry) (terminal : TerminalAuthority) : list PermissionEntry :=
  narrowPermissions personal (ta_ceiling terminal) ++ ta_additions terminal.

(** What a token re-resolved on a terminal is held to. *)
Definition authorityOnTerminal (principal : PrincipalRow) (terminal app : string) : iam (option ResolvedAuthority) :=
  onTerminal ← terminalAuthority (mkTerminal terminal app) app;
  match onTerminal with
  | None => mret None
  | Some onTerminal =>
      personal ← authorityAt principal app;
      mret (Some (mkAuthority (withinTerminal (au_permissions personal) onTerminal) (au_supports personal ++ au_supports (ta_authority onTerminal))))
  end.

Inductive MintRefusal := no_session | invalid_session | unknown_principal | mint_disabled | token_too_large.

(** The token and its end. *)
Record MintOutcome := mkMint { mo_result : MintRefusal + (string * Z); mo_principal : option string; mo_terminal : option SessionTerminal }.

Definition refused_mint (reason : MintRefusal) (principal : option string) (terminal : option SessionTerminal) : option MintOutcome :=
  Some (mkMint (inl reason) principal terminal).

(** The permissions of a session's token. *)
Definition session_permissions (authority : ResolvedAuthority) (onTerminal : option TerminalAuthority) : list PermissionEntry :=
  match onTerminal with None => au_permissions authority | Some terminal => withinTerminal (au_permissions authority) terminal end.

(** When a session's token ends. *)
Definition session_deadline (authority : ResolvedAuthority) (onTerminal : option TerminalAuthority) (expires now : Z) : Z :=
  let own := match onTerminal with
             | None => au_permissions authority
             | Some terminal => narrowPermissions (au_permissions authority) (ta_ceiling terminal)
             end in
  until match onTerminal with None => None | Some terminal => authorityDeadline (au_supports (ta_authority terminal)) (ta_additions terminal) now end
    (until (authorityDeadline (au_supports authority) own now) (Z.min (now + DEFAULT_TOKEN_TTL_SECONDS) expires)).

Definition session_claims (principal : PrincipalRow) (app : string) (onTerminal : option TerminalAuthority) (permissions : list PermissionEntry)
  (now expiresAt : Z) : AccessTokenParams := {|
  p_iss := issuer_url; p_app := app; p_subject := pr_id principal; p_type := Some (principal_type principal); p_workload := None;
  p_label := Some (pr_label principal); p_email := mailboxClaim principal; p_session := true;
  p_terminal := option_map (fun terminal => Token.mkTerminal (ta_id terminal) (ta_label terminal)) onTerminal;
  p_permissions := permissions; p_issuedAt := NFinite now 0; p_expiresAt := NFinite expiresAt 0; p_link := None |}.

(** [mintToken] in its parts: from the authority on, *)
Definition signSession (row : SessionRow) (principal : PrincipalRow) (app : string) (authority : ResolvedAuthority)
  (onTerminal : option TerminalAuthority) : iam (option MintOutcome) :=
  now ← clock;
  let permissions := session_permissions authority onTerminal in
  let expiresAt := session_deadline authority onTerminal (se_expires row) now in
  bytes ← proxyMintedBound app;
  match signAccessToken (session_claims principal app onTerminal permissions now expiresAt) with
  | None => mret None
  | Some signed =>
      match boundedToken signed bytes with
      | None => mret (refused_mint token_too_large (Some (pr_id principal)) (sessionTerminal row))
      | Some token => mret (Some (mkMint (inr (token, expiresAt)) (Some (pr_id principal)) (sessionTerminal row)))
      end
  end.

(** from the person on, *)
Definition mintForPrincipal (row : SessionRow) (principal : PrincipalRow) (app : string) : iam (option MintOutcome) :=
  authority ← authorityAt principal app;
  onTerminal ← match sessionTerminal row with None => mret None | Some terminal => terminalAuthority terminal app end;
  if is_some (sessionTerminal row) && negb (is_some onTerminal)
  then mret (refused_mint invalid_session (Some (pr_id principal)) (sessionTerminal row))
  else signSession row principal app authority onTerminal.

(** and from the session's row on. *)
Definition mintFromSession (row : SessionRow) (app : string) : iam (option MintOutcome) :=
  let terminal := sessionTerminal row in
  let refused reason principal := mret (refused_mint reason principal terminal) in
  if match se_app row with Some bound => negb (bound =? app)%string | None => false end then refused invalid_session (Some (se_principal row))
  else if match terminal with Some tm => negb (assertedBy tm =? app)%string | None => false end then refused invalid_session (Some (se_principal row))
  else if negb (sessionUsable row) then refused invalid_session (Some (se_principal row))
  else
    principal ← getPrincipalById (se_principal row);
    match principal with
    | None => refused unknown_principal None
    | Some principal => if is_disabled principal then refused mint_disabled (Some (pr_id principal)) else mintForPrincipal row principal app
    end.

Definition mintToken (secret app : string) : iam (option MintOutcome) :=
  if (secret =? "")%string then mret (refused_mint no_session None None)
  else
    let hash := hashToken secret in
    row ← getActiveSessionByHash hash;
    match row with
    | None =>
        stored ← getSessionByHashForAudit hash;
        mret (refused_mint invalid_session (option_map se_principal stored) (stored ≫= sessionTerminal))
    | Some row => mintFromSession row app
    end.

(** *** Keys *)

Inductive CredentialRefusal := cred_unknown_principal | cred_disabled | wrong_app_key | issuer_unauthorized.

Record ResolvedCredential := mkResolvedCredential {
  rc_subject : string; rc_type : option TokenPrincipalType; rc_workload : option string; rc_label : option string; rc_email : option string;
  rc_permissions : list PermissionEntry; rc_expiresAt : option Z; rc_link : option LinkTokenClaims;
}.

Definition credentialGrantToEntry (grant : KeyGrant) : PermissionEntry := mkEntry grant.1 grant.2 SourceGrant.

Definition issuerAuthorityAt (issuer : option string) (app : string) (mount : option string) (required : list DelegatedAction) : iam (option (option Z)) :=
  read (fun e t => @issuerAuthority (repositories (directory t)) issuer app mount required (e_now e)).

Definition issuerCoverageAt (issuer app : string) (permissions : list PermissionEntry) : iam (option (list PermissionEntry * option Z)) :=
  read (fun e t => @issuerCoverage (repositories (directory t)) issuer app permissions (e_now e)).

Definition min_until (a b : option Z) : option Z :=
  match a, b with None, _ => b | _, None => a | Some x, Some y => Some (Z.min x y) end.

(** A key of nobody: its frozen grants, delegated by its issuer. *)
Definition resolveAnonymous (cred : CredentialRow) (app : string) (inline : list PermissionEntry) : iam (CredentialRefusal + ResolvedCredential) :=
  let resolved until link := inr (mkResolvedCredential (cr_id cred) None None (cr_label cred) None inline until link) in
  match cr_link cred with
  | None =>
      issuer ← issuerAuthorityAt (cr_issued_by cred) app None (map (fun e => mkDelegated (action e) [scope e]) inline);
      mret match issuer with None => inl issuer_unauthorized | Some until => resolved until None end
  | Some link =>
      match chain ← sl_chain link; parseStoredChain chain with
      | None => mret (inl wrong_app_key)
      | Some chain =>
          mount ← read (fun _ t => linkMount (directory t) app (sl_mount link));
          match mount with
          | None => mret (inl issuer_unauthorized)
          | Some (dimension, issued_by) =>
              if negb (bool_decide (sl_dimension link = Some dimension)) then mret (inl issuer_unauthorized)
              else
                issuer ← issuerAuthorityAt (cr_issued_by cred) app (Some (sl_mount link))
                           (map (fun act => mkDelegated act (map Some chain)) (issued_by :: map action inline));
                mret match issuer with None => inl issuer_unauthorized | Some until => resolved until (Some (mkLink (sl_mount link) chain)) end
          end
      end
  end.

(** What a bound key holds: the person's live set, or the inline part of it. *)
Definition downscoped (resolved inline : list PermissionEntry) : list PermissionEntry :=
  match inline with [] => resolved | _ => List.filter (fun e => permits resolved (action e) (scope e)) inline end.

Definition bound_to_principal (principal : PrincipalRow) (permissions : list PermissionEntry) (until : option Z) : ResolvedCredential :=
  mkResolvedCredential (pr_id principal) (Some (principal_type principal)) None (Some (pr_label principal)) (mailboxClaim principal) permissions until None.

(** [resolveCredential] in its parts: a person's or a service's key, from the live authority on, *)
Definition resolveBound (cred : CredentialRow) (principal : PrincipalRow) (app : string) (inline : list PermissionEntry) :
  iam (CredentialRefusal + ResolvedCredential) :=
  authority ← authorityAt principal app;
  now ← clock;
  let held := downscoped (au_permissions authority) inline in
  let heldUntil := authorityDeadline (au_supports authority) held now in
  match cr_issued_by cred with
  | None => mret (inr (bound_to_principal principal held heldUntil))
  | Some issuer =>
      if (issuer =? pr_id principal)%string then mret (inr (bound_to_principal principal held heldUntil))
      else
        issued ← issuerCoverageAt issuer app held;
        mret match issued with
             | None => inl issuer_unauthorized
             | Some (covered, issuedUntil) => inr (bound_to_principal principal covered (min_until heldUntil issuedUntil))
             end
  end.

(** a workload's key, *)
Definition resolveWorkload (principal : PrincipalRow) (workload : Workload) (app : string) : iam (CredentialRefusal + ResolvedCredential) :=
  if negb (wl_app workload =? app)%string then mret (inl wrong_app_key)
  else
    actions ← read (fun _ t => declaredActions (directory t) (wl_app workload) (wl_kind workload) (wl_name workload));
    mret (inr (mkResolvedCredential (pr_id principal) (Some (TypeWorkload (wl_kind workload))) (Some (wl_name workload)) (Some (pr_label principal)) None
                 (map (fun act => mkEntry act None SourceGrant) (default [] actions)) None None)).

(** and the key's row. *)
Definition resolveCredential (cred : CredentialRow) (app : string) : iam (CredentialRefusal + ResolvedCredential) :=
  if match cr_app cred with Some bound => negb (bound =? app)%string | None => negb (is_some (cr_principal cred)) end then mret (inl wrong_app_key)
  else
    grants ← getCredentialGrants (cr_id cred);
    let inline := map credentialGrantToEntry grants in
    match cr_principal cred with
    | None => resolveAnonymous cred app inline
    | Some id =>
        principal ← getPrincipalById id;
        match principal with
        | None => mret (inl cred_unknown_principal)
        | Some principal =>
            if is_disabled principal then mret (inl cred_disabled)
            else
              workload ← read (fun _ t => @db_getByPrincipal (repositories (directory t)) (pr_id principal));
              match workload with
              | Some workload => resolveWorkload principal workload app
              | None => resolveBound cred principal app inline
              end
        end
    end.

Inductive KeyRefusal := invalid_key | key_unknown_principal | key_disabled | key_token_too_large.

Record MintFromKeyOutcome := mkMintFromKey { mk_result : KeyRefusal + (string * Z); mk_principal : option string; mk_credential : option string }.

Definition key_reason (reason : CredentialRefusal) : KeyRefusal :=
  match reason with cred_unknown_principal => key_unknown_principal | cred_disabled => key_disabled | _ => invalid_key end.

Definition key_claims (app : string) (type : option TokenPrincipalType) (workload email : option string) (link : option LinkTokenClaims)
  (effective : ResolvedCredential) (now expiresAt : Z) : AccessTokenParams := {|
  p_iss := issuer_url; p_app := app; p_subject := rc_subject effective; p_type := type; p_workload := workload; p_label := rc_label effective;
  p_email := email; p_session := false; p_terminal := None; p_permissions := rc_permissions effective; p_issuedAt := NFinite now 0;
  p_expiresAt := NFinite expiresAt 0; p_link := link |}.

Definition mintFromKey (key app : string) : iam (option MintFromKeyOutcome) :=
  cred ← getActiveCredentialByHash (hashToken key);
  match cred with
  | None => mret (Some (mkMintFromKey (inl invalid_key) None None))
  | Some cred =>
      let answer r := Some (mkMintFromKey r (cr_principal cred) (Some (cr_id cred))) in
      effective ← resolveCredential cred app;
      match effective with
      | inl reason => mret (answer (inl (key_reason reason)))
      | inr effective =>
          now ← clock;
          let expiresAt := until (rc_expiresAt effective) (until (cr_expires cred) (now + DEFAULT_TOKEN_TTL_SECONDS)) in
          bytes ← proxyMintedBound app;
          mret match signAccessToken (key_claims app (rc_type effective) (rc_workload effective) (rc_email effective) (rc_link effective)
                                        effective now expiresAt) with
               | None => None
               | Some signed => answer match boundedToken signed bytes with None => inl key_token_too_large | Some token => inr (token, expiresAt) end
               end
      end
  end.

Definition refused_workload : option MintFromKeyOutcome := Some (mkMintFromKey (inl invalid_key) None None).

Definition mintFromWorkloadKey (key app : string) : iam (option MintFromKeyOutcome) :=
  cred ← getActiveCredentialByHash (hashToken key);
  match cred with
  | None => mret refused_workload
  | Some cred =>
      match cr_principal cred with
      | None => mret refused_workload
      | Some id =>
          if negb (bool_decide (cr_app cred = Some app)) then mret refused_workload
          else
            workload ← read (fun _ t => @db_getByPrincipal (repositories (directory t)) id);
            match workload with
            | None => mret refused_workload
            | Some workload =>
                if bool_decide (wl_kind workload = KindApp) || negb (wl_app workload =? app)%string then mret refused_workload
                else
                  effective ← resolveCredential cred app;
                  match effective with
                  | inl _ => mret refused_workload
                  | inr effective =>
                      if negb (bool_decide (rc_type effective = Some (TypeWorkload (wl_kind workload)))) then mret refused_workload
                      else
                        now ← clock;
                        let expiresAt := until (cr_expires cred) (now + DEFAULT_TOKEN_TTL_SECONDS) in
                        mret match signAccessToken (key_claims app (Some (TypeWorkload (wl_kind workload))) (Some (wl_name workload)) None None
                                                      effective now expiresAt) with
                             | None => None
                             | Some signed =>
                                 match boundedToken signed MAX_ACCESS_TOKEN_BYTES with
                                 | None => refused_workload
                                 | Some token => Some (mkMintFromKey (inr (token, expiresAt)) (Some id) (Some (cr_id cred)))
                                 end
                             end
                  end
            end
      end
  end.

(** ** auth.ts: the caller of a management operation *)

Definition provisioning_admin_permissions : list PermissionEntry := [mkEntry "*" None SourceBootstrap].

Record ResolvedCaller := mkResolvedCaller {
  ca_id : string; ca_type : option TokenPrincipalType; ca_label : option string; ca_permissions : list PermissionEntry; ca_terminal : option string;
  ca_verifiedApp : string;
}.

Inductive CallerRefusal := caller_missing_token | caller_invalid_token | caller_unknown_principal | caller_disabled.

Definition caller_reason (reason : CredentialRefusal) : CallerRefusal :=
  match reason with cred_unknown_principal => caller_unknown_principal | cred_disabled => caller_disabled | _ => caller_invalid_token end.

Definition resolveAnyCaller (app : string) (credential : option string) : iam (CallerRefusal + ResolvedCaller) :=
  match credential with
  | None => mret (inl caller_missing_token)
  | Some credential =>
      if Js.startsWith credential API_KEY_PREFIX then
        let presented := hashToken credential in
        let provisioning := Js.trim provisioningKey in
        if negb (provisioning =? "")%string && timingSafeEqualHex presented (hashToken provisioning)
        then mret (inr (mkResolvedCaller PROVISIONING_ADMIN_ID (Some TypeService) (Some "provisioning") provisioning_admin_permissions None app))
        else
          cred ← getActiveCredentialByHash presented;
          match cred with
          | None => mret (inl caller_invalid_token)
          | Some cred =>
              eff ← resolveCredential cred app;
              mret match eff with
                   | inl reason => inl (caller_reason reason)
                   | inr eff => inr (mkResolvedCaller (rc_subject eff) (rc_type eff) (rc_label eff) (rc_permissions eff) None (default app (cr_app cred)))
                   end
          end
      else
        read (fun e _ =>
          match verifyAccessToken (e_now e) credential (Some app) 0 with
          | None => inl caller_invalid_token
          | Some claims => inr (mkResolvedCaller (sub claims) (ptype claims) (label claims) (perms claims)
                                  (option_map terminal_id (terminal claims)) (aud claims))
          end)
  end.

Definition resolveCaller (app : string) (credential : option string) : iam (CallerRefusal + ResolvedCaller) :=
  resolution ← resolveAnyCaller app credential;
  mret match resolution with
       | inl reason => inl reason
       | inr caller => if is_some (isWorkloadKind (ca_type caller)) then inl caller_invalid_token else inr caller
       end.

Definition resolveLinkCaller (app : string) (credential : option string) : iam (CallerRefusal + ResolvedCaller) :=
  resolution ← resolveAnyCaller app credential;
  mret match resolution with
       | inl reason => inl reason
       | inr caller =>
           match ca_type caller with
           | Some (TypeWorkload KindWebhook) | Some (TypeWorkload KindPublic) | Some (TypeWorkload KindApp) => inl caller_invalid_token
           | _ => inr caller
           end
       end.

(** ** issue.ts *)

Definition MAX_KEY_LIFETIME_SECONDS : Z := 30 * 24 * 60 * 60.

Record Issuer := mkIssuer { is_id : string; is_permissions : list PermissionEntry }.

Record KeyServiceSpec := mkServiceSpec { sv_label : string; sv_permissions : list string; sv_scope : option Scope }.

Record IssueKeyInput := mkIssueKey {
  ik_service : option KeyServiceSpec; ik_principalId : option string; ik_permissions : list KeyGrant; ik_label : option string; ik_expiresAt : Z }.

(** The key and its id. *)
Record IssuedKey := mkIssued { ko_token : string; ko_id : string; ko_principalId : option string }.

(** [NOT_ALLOWED], and a refusal that names a problem. *)
Inductive IssueRefusal := NotAllowed | Malformed (problem : string).

Fixpoint findUncoveredGrant (permissions : list PermissionEntry) (grants : list KeyGrant) : option KeyGrant :=
  match grants with
  | [] => None
  | grant :: rest => if permits permissions grant.1 grant.2 then findUncoveredGrant permissions rest else Some grant
  end.

Definition keyExpiryProblem (expiresAt now : Z) : option string :=
  if negb (isSafeInteger expiresAt) || (expiresAt <=? now) then Some "expiresAt must be a future unix time in seconds"
  else if MAX_KEY_LIFETIME_SECONDS <? expiresAt - now then Some "expiresAt must be at most 2592000 seconds (30 days) ahead"
  else None.

Definition delegatedExpiry (issuer : Issuer) (app : string) (grants : list KeyGrant) (requested : Z) : iam (option Z) :=
  authority ← issuerAuthorityAt (Some (is_id issuer)) app None (map (fun grant => mkDelegated grant.1 [grant.2]) grants);
  match authority with
  | None => mret None
  | Some deadline =>
      now ← clock;
      let expiresAt := until deadline requested in
      mret (if now <? expiresAt then Some expiresAt else None)
  end.

Definition actionProblem (app : string) (actions : list string) : iam (option string) :=
  match firstWildcard actions with
  | Some wildcard => mret (Some ("a key lists exact actions, not the wildcard: " +:+ wildcard))
  | None =>
      read (fun _ t =>
        option_map (fun act => "unknown action: " +:+ act) (List.find (fun act => negb (Js.elem act (actionCatalog (directory t) app))) actions))
  end.

Definition with_token (random : string) : string := API_KEY_PREFIX +:+ random.

(** The directory after a grant of a service principal at one application. *)
Definition insert_grant (id : string) (row : GrantRow) (d : Directory) : Directory :=
  let repos := repositories d in
  mkDirectory
    {| db_getPrincipalById := db_getPrincipalById;
       db_getActiveGrantsForApp := fun principal app cross =>
         db_getActiveGrantsForApp principal app cross ++ (if (principal =? id)%string && bool_decide (grant_app row = Some app) then [row] else []);
       db_listRoles := db_listRoles; db_isContractApp := db_isContractApp; db_getRole := db_getRole; db_getByPrincipal := db_getByPrincipal;
       db_declaration := db_declaration; platformAudiences := platformAudiences; bootstrapAdmins := bootstrapAdmins |}
    (declaredActions d) (linkMount d) (actionCatalog d) (identifyPath d) (returnOrigins d)
    (fun principal => activeGrants d principal ++ (if (principal =? id)%string then [row] else [])) (knownApps d).

Definition service_grant (svc : KeyServiceSpec) (app : string) (expiresAt : Z) : GrantRow :=
  mkGrant (Some app) None (Some (Some (JArr (map JStr (sv_permissions svc))))) (option_map scope_type (sv_scope svc)) (option_map scope_value (sv_scope svc))
    (Some expiresAt).

(** The batch of a service key. *)
Definition issue_service_key (svc : KeyServiceSpec) (issuer : Issuer) (app : string) (expiresAt : Z) : iam (option IssuedKey) :=
  atomic (fun e t =>
    let principal := e_other e in
    let key := e_uuid e in
    let token := with_token (e_random e) in
    let row := mkCredential key (hashToken token) (Some (sv_label svc)) (Some principal) (Some app) (Some (is_id issuer)) (Some expiresAt) None None [] in
    if key_refused row t then (None, t)
    else (Some (mkIssued token key (Some principal)),
          insert_credential row
            (with_directory (insert_grant principal (service_grant svc app expiresAt)
                               (insert_principal (service_principal principal (sv_label svc) (e_now e)) (directory t))) t))).

(** [createCredential]; [None] is the guard's violation. *)
Definition createCredential (input : IssueKeyInput) (issuer : Issuer) (app : string) (expiresAt : Z) : iam (option IssuedKey) :=
  atomic (fun e t =>
    let token := with_token (e_random e) in
    let row := mkCredential (e_uuid e) (hashToken token) (ik_label input) (ik_principalId input) (Some app) (Some (is_id issuer)) (Some expiresAt)
                 None None (ik_permissions input) in
    if key_refused row t then (None, t) else (Some (mkIssued token (e_uuid e) (ik_principalId input)), insert_credential row t)).

Definition is_internal (principal : option PrincipalRow) : bool :=
  match principal with Some row => bool_decide (pr_affiliation row = Internal) | None => false end.

Definition issueServiceKey (svc : KeyServiceSpec) (requested : Z) (issuer : Issuer) (app : string) : iam (option (IssueRefusal + IssuedKey)) :=
  let grants := map (fun act => (act, sv_scope svc)) (sv_permissions svc) in
  if match grants with [] => true | _ => false end then mret (Some (inl NotAllowed))
  else
    problem ← actionProblem app (sv_permissions svc);
    match problem with
    | Some problem => mret (Some (inl (Malformed problem)))
    | None =>
        if is_some (findUncoveredGrant (is_permissions issuer) grants) then mret (Some (inl NotAllowed))
        else
          expiresAt ← delegatedExpiry issuer app grants requested;
          match expiresAt with
          | None => mret (Some (inl NotAllowed))
          | Some expiresAt => issued ← issue_service_key svc issuer app expiresAt; mret (option_map inr issued)
          end
    end.

Definition issueOwnKey (input : IssueKeyInput) (issuer : Issuer) (app : string) : iam (option (IssueRefusal + IssuedKey)) :=
  if match ik_principalId input with Some id => negb (id =? is_id issuer)%string | None => match ik_permissions input with [] => true | _ => false end end
  then mret (Some (inl NotAllowed))
  else
    problem ← actionProblem app (map fst (ik_permissions input));
    match problem with
    | Some problem => mret (Some (inl (Malformed problem)))
    | None =>
        if is_some (findUncoveredGrant (is_permissions issuer) (ik_permissions input)) then mret (Some (inl NotAllowed))
        else
          expiresAt ← match ik_principalId input with
                      | None => delegatedExpiry issuer app (ik_permissions input) (ik_expiresAt input)
                      | Some _ => mret (Some (ik_expiresAt input))
                      end;
          match expiresAt with
          | None => mret (Some (inl NotAllowed))
          | Some expiresAt => issued ← createCredential input issuer app expiresAt; mret (option_map inr issued)
          end
    end.

Definition issueKey (input : IssueKeyInput) (issuer : Issuer) (app : string) : iam (option (IssueRefusal + IssuedKey)) :=
  now ← clock;
  match keyExpiryProblem (ik_expiresAt input) now with
  | Some problem => mret (Some (inl (Malformed problem)))
  | None =>
      let selfBound := negb (is_some (ik_service input)) && bool_decide (ik_principalId input = Some (is_id issuer)) in
      internal ← (if selfBound then mret true else principal ← getPrincipalById (is_id issuer); mret (is_internal principal));
      if negb internal then mret (Some (inl NotAllowed))
      else match ik_service input with
           | Some svc => issueServiceKey svc (ik_expiresAt input) issuer app
           | None => issueOwnKey input issuer app
           end
  end.

Inductive RevokeKeyResult := KeyNotFound | KeyNotAllowed | KeyRevoked (revoked : bool).

Definition revokeKey (id : string) (revoker : Issuer) (app : string) : iam RevokeKeyResult :=
  cred ← getCredentialById id;
  match cred with
  | None => mret KeyNotFound
  | Some cred =>
      if negb (bool_decide (cr_app cred = Some app)) then mret KeyNotFound
      else
        refused ← (if bool_decide (cr_issued_by cred = Some (is_id revoker)) then mret false
                   else if is_some (cr_principal cred) then mret true
                   else grants ← getCredentialGrants (cr_id cred); mret (is_some (findUncoveredGrant (is_permissions revoker) grants)));
        if refused : bool then mret KeyNotAllowed else revoked ← revokeCredential (cr_id cred); mret (KeyRevoked revoked)
  end.

End Mint.

(** ** Narrowing *)

(** What a ceiling permits. *)
Definition ceiling_entries (ceiling : list KeyGrant) : list PermissionEntry := map (fun limit => mkEntry limit.1 limit.2 SourceGrant) ceiling.

(** The keys of such entries tell them apart. *)
Definition spaceless (e : PermissionEntry) : bool := plain_entry e && no_blank (sourceText (source e)).

Lemma matchAction_trans p q act : matchAction p q = true -> matchAction q act = true -> matchAction p act = true.
Proof.
  destruct (pattern_cases p) as [->|[[x ->]|[Hs He]]]; [done| |].
  - rewrite !matchAction_wildcard. intros (r & ->)%startsWith_spec Hq. apply startsWith_spec.
    destruct (pattern_cases ((x +:+ ".") +:+ r)) as [E|[[y E]|[Hs He]]].
    + destruct x as [|a [|b x]]; cbn in E; congruence.
    + rewrite E, matchAction_wildcard in Hq. apply startsWith_spec in Hq as (u & ->).
      assert (Hy : exists z, y +:+ "." = (x +:+ ".") +:+ z).
      { revert x r E. induction y as [|b y IH]; intros [|a x] r E; cbn in E.
        - by exists "".
        - exfalso. injection E as _ E. destruct x as [|c x]; cbn in E; [done|]. injection E as _ E. by destruct x.
        - injection E as <- _. by exists (y +:+ ".").
        - injection E as <- E. destruct (IH x r E) as [z Hz]. exists z. cbn. by rewrite Hz. }
      destruct Hy as [z ->]. exists (z +:+ u). by rewrite !str_app_assoc.
    + rewrite matchAction_exact in Hq by done. apply String.eqb_eq in Hq as <-. by exists r.
  - rewrite matchAction_exact by done. by intros <-%String.eqb_eq.
Qed.

Lemma prefix_total a b s : Js.startsWith s a = true -> Js.startsWith s b = true -> Js.startsWith a b = true \/ Js.startsWith b a = true.
Proof.
  rewrite !startsWith_spec. revert b s. induction a as [|x a IH]; intros b s (r & ->) (u & E); [right; by exists b|].
  destruct b as [|y b]; [left; by exists (String x a)|]. cbn in E. injection E as <- E.
  destruct (IH b (a +:+ r)) as [[v ->]|[v ->]]; [by exists r|by exists u|left|right]; by exists v.
Qed.

(** Two patterns of one action: one matches the other. *)
Lemma matchAction_comparable p q act : matchAction p act = true -> matchAction q act = true -> matchAction p q = true \/ matchAction q p = true.
Proof.
  destruct (pattern_cases p) as [->|[[x ->]|[Hs He]]]; [by left| |].
  - destruct (pattern_cases q) as [->|[[y ->]|[Hs He]]]; [by right| |].
    + rewrite !matchAction_wildcard. intros Hp Hq. destruct (prefix_total (x +:+ ".") (y +:+ ".") act Hp Hq) as [H'|H'].
      * right. apply startsWith_spec in H' as (v & E). apply startsWith_spec. exists (v +:+ "*").
        change (x +:+ ".*") with (x +:+ ("." +:+ "*")). by rewrite str_app_assoc, E, <- str_app_assoc.
      * left. apply startsWith_spec in H' as (v & E). apply startsWith_spec. exists (v +:+ "*").
        change (y +:+ ".*") with (y +:+ ("." +:+ "*")). by rewrite str_app_assoc, E, <- str_app_assoc.
    + rewrite (matchAction_exact q act Hs He). intros Hp ->%String.eqb_eq. by left.
  - rewrite (matchAction_exact p act Hs He). intros ->%String.eqb_eq Hq. by right.
Qed.

Lemma narrowerAction_spec held limit act :
  match narrowerAction held limit with Some a => matchAction a act | None => false end = matchAction held act && matchAction limit act.
Proof.
  unfold narrowerAction. destruct (matchAction limit held) eqn:E1.
  - destruct (matchAction held act) eqn:Eh; [|done]. by rewrite (matchAction_trans limit held act).
  - destruct (matchAction held limit) eqn:E2.
    + destruct (matchAction limit act) eqn:El; [by rewrite (matchAction_trans held limit act)|by rewrite andb_false_r].
    + symmetry. apply andb_false_iff. destruct (matchAction held act) eqn:Eh; [|by left]. destruct (matchAction limit act) eqn:El; [|by right].
      destruct (matchAction_comparable held limit act Eh El); congruence.
Qed.

Lemma narrowerScope_spec held limit act src (sc : option Scope) :
  match narrowerScope held limit with Some s => scopeOk (mkEntry act s src) sc | None => false end =
  scopeOk (mkEntry act held src) sc && scopeOk (mkEntry act limit src) sc.
Proof.
  unfold scopeOk. cbn. destruct held as [h|], limit as [l|]; cbn; [|by rewrite andb_true_r|done|done].
  destruct (same_scope h l) eqn:E; [apply same_scope_spec in E as <-; destruct sc as [s|]; [by rewrite andb_diag|done]|].
  destruct sc as [s|]; [|done]. destruct (same_scope h s) eqn:Eh; [|done]. apply same_scope_spec in Eh as <-. cbn.
  destruct (same_scope l h) eqn:El; [|done]. apply same_scope_spec in El as <-. destruct (same_scope_spec l l) as [_ Hl]. by rewrite Hl in E.
Qed.

(** The candidates, in the order of the loops. *)
Definition narrowed (live : list PermissionEntry) (ceiling : list KeyGrant) (e : PermissionEntry) : Prop :=
  exists held limit, held ∈ live /\ limit ∈ ceiling /\ narrow_entry held limit = Some e.

Lemma narrow_loop pairs acc :
  acc.2 = map entryKey acc.1 ->
  let r := foldl (fun acc p => narrow_step p.1 acc p.2) acc pairs in
  (forall e, e ∈ r.1 -> e ∈ acc.1 \/ exists p, p ∈ pairs /\ narrow_entry p.1 p.2 = Some e) /\
  (forall e, e ∈ acc.1 \/ (exists p, p ∈ pairs /\ narrow_entry p.1 p.2 = Some e) -> exists e', e' ∈ r.1 /\ entryKey e' = entryKey e).
Proof.
  revert acc. induction pairs as [|p pairs IH]; intros acc Ha; cbn zeta.
  { split; [by left|]. intros e [He|(p & Hp & _)]; [by exists e|by apply elem_of_nil in Hp]. }
  cbn [foldl]. set (acc1 := narrow_step p.1 acc p.2). assert (H1 : acc1.2 = map entryKey acc1.1).
  { subst acc1. unfold narrow_step. destruct (narrow_entry p.1 p.2); [|done]. destruct (Js.elem _ _); [done|]. cbn. by rewrite Ha, map_app. }
  assert (Hin : forall e, e ∈ acc1.1 -> e ∈ acc.1 \/ narrow_entry p.1 p.2 = Some e).
  { intros e. subst acc1. unfold narrow_step. destruct (narrow_entry p.1 p.2); [|by left]. destruct (Js.elem _ _); [by left|]. cbn.
    rewrite elem_of_app, list_elem_of_singleton. intros [?| ->]; [by left|by right]. }
  assert (Hout : forall e, e ∈ acc.1 \/ narrow_entry p.1 p.2 = Some e -> exists e', e' ∈ acc1.1 /\ entryKey e' = entryKey e).
  { intros e He. subst acc1. unfold narrow_step. destruct (narrow_entry p.1 p.2) as [c|] eqn:Ec; [|destruct He as [He|He]; [by exists e|done]].
    destruct (Js.elem (entryKey c) acc.2) eqn:Ek.
    - destruct He as [He|[= ->]]; [by exists e|]. apply elem_spec in Ek. rewrite Ha in Ek. apply list_elem_of_fmap in Ek as (e' & Ek & Hin'). by exists e'.
    - cbn. exists e. split; [|done]. rewrite elem_of_app, list_elem_of_singleton. destruct He as [He|[= ->]]; [by left|by right]. }
  destruct (IH acc1 H1) as [Hs Hc]. split.
  - intros e [He|(q & Hq & E)]%Hs.
    + destruct (Hin e He) as [?|?]; [by left|]. right. exists p. split; [by left|done].
    + right. exists q. split; [by right|done].
  - intros e He. assert (Hcase : (e ∈ acc.1 \/ narrow_entry p.1 p.2 = Some e) \/ exists q, q ∈ pairs /\ narrow_entry q.1 q.2 = Some e).
    { destruct He as [?|(q & [->|Hq]%elem_of_cons & E)]; [by left; left|by left; right|right; by exists q]. }
    destruct Hcase as [He'|Hq]; [|apply Hc; by right]. destruct (Hout e He') as (e1 & Hin1 & E1). destruct (Hc e1 (or_introl Hin1)) as (e2 & ? & E2).
    exists e2. split; [done|congruence].
Qed.

Lemma narrowPermissions_candidates live ceiling :
  (forall e, e ∈ narrowPermissions live ceiling -> narrowed live ceiling e) /\
  (forall e, narrowed live ceiling e -> exists e', e' ∈ narrowPermissions live ceiling /\ entryKey e' = entryKey e).
Proof.
  unfold narrowPermissions. erewrite foldl_ext.
  2:{ intros acc held. exact (eq_sym (foldl_map (fun acc p => narrow_step p.1 acc p.2) (fun limit => (held, limit)) ceiling acc)). }
  rewrite (foldl_flat_map (fun acc p => narrow_step p.1 acc p.2) (fun held => map (fun limit => (held, limit)) ceiling)).
  set (pairs := flat_map _ live). destruct (narrow_loop pairs ([], []) eq_refl) as [Hs Hc].
  assert (Hp : forall p, p ∈ pairs <-> p.1 ∈ live /\ p.2 ∈ ceiling).
  { intros p. subst pairs. rewrite !list_elem_of_In, in_flat_map. split.
    - intros (held & Hh & (limit & <- & Hl)%in_map_iff). done.
    - intros [Hh Hl]. exists p.1. split; [done|]. apply in_map_iff. exists p.2. by destruct p. }
  split.
  - intros e [He|(p & [Hh Hl]%Hp & E)]%Hs; [by apply elem_of_nil in He|]. by exists p.1, p.2.
  - intros e (held & limit & Hh & Hl & E). apply Hc. right. exists (held, limit). split; [by apply Hp|done].
Qed.

Lemma narrow_entry_spec held limit act sc :
  match narrow_entry held limit with Some e => scopeOk e sc && matchAction (action e) act | None => false end =
  (scopeOk held sc && matchAction (action held) act) && (scopeOk (mkEntry limit.1 limit.2 SourceGrant) sc && matchAction limit.1 act).
Proof.
  assert (Hb : forall x m y n : bool, (x && m) && (y && n) = (x && y) && (m && n)) by by intros [] [] [] [].
  rewrite Hb. pose proof (narrowerScope_spec (scope held) limit.2 act SourceGrant sc) as Hsc. unfold scopeOk in *. cbn in *. rewrite <- Hsc.
  rewrite <- narrowerAction_spec. unfold narrow_entry.
  destruct (narrowerAction (action held) limit.1), (narrowerScope (scope held) limit.2); cbn; [done|done|by rewrite andb_false_r|done].
Qed.

Lemma split_last_blank a b r r' : no_blank r = true -> no_blank r' = true -> a +:+ String " " r = b +:+ String " " r' -> a = b.
Proof.
  assert (Hin : forall s t, no_blank (s +:+ String " " t) = false).
  { intros s t. induction s as [|c s IH]; [done|]. cbn. fold (no_blank (s +:+ String " " t)). rewrite IH. by destruct (negb _). }
  revert b. induction a as [|x a IH]; intros [|y b] Hr Hr' E; cbn in E.
  - done.
  - injection E as _ E. by rewrite E, Hin in Hr.
  - injection E as _ E. by rewrite <- E, Hin in Hr'.
  - injection E as -> E. f_equal. by apply IH.
Qed.

Lemma entryKey_spaceless e e' :
  spaceless e = true -> spaceless e' = true -> entryKey e = entryKey e' -> action e = action e' /\ scope e = scope e'.
Proof.
  unfold spaceless, plain_entry, entryKey, supportKey. destruct e as [a s src], e' as [a' s' src']. cbn -[sourceText].
  intros Hp Hp' E. to_prop. apply split_last_blank in E; [|done|done]. apply split_unit_inj in E as [-> E]; [|done|done].
  split; [done|]. by apply scopeKey_inj.
Qed.

Lemma narrowed_spaceless live ceiling e :
  Forall (fun h => spaceless h = true) live -> Forall (fun l => spaceless l = true) (ceiling_entries ceiling) ->
  narrowed live ceiling e -> spaceless e = true.
Proof.
  intros Hlive Hceil (held & limit & Hh & Hl & E). rewrite Forall_forall in Hlive, Hceil. specialize (Hlive held Hh).
  assert (Hlim : spaceless (mkEntry limit.1 limit.2 SourceGrant) = true) by (apply Hceil, list_elem_of_fmap; by exists limit).
  revert E. unfold narrow_entry. destruct (narrowerAction (action held) limit.1) as [a|] eqn:Ea; [|done].
  destruct (narrowerScope (scope held) limit.2) as [s|] eqn:Es; [|done]. intros [= <-].
  unfold spaceless, plain_entry in *. cbn -[sourceText] in *. to_prop.
  assert (Ha : no_blank a = true).
  { unfold narrowerAction in Ea. destruct (matchAction limit.1 _); [by injection Ea as <-|]. destruct (matchAction _ limit.1); [by injection Ea as <-|done]. }
  unfold no_blank in Ha at 1. rewrite Ha. assert (Hs : match s with Some s => no_colon (scope_type s) | None => true end = true).
  { unfold narrowerScope in Es. destruct (scope held) as [h|]; [|by injection Es as <-]. destruct limit.2 as [l|]; [|by injection Es as <-].
    destruct (same_scope h l); [by injection Es as <-|done]. }
  rewrite Hs. done.
Qed.

(** Narrowing a person's permissions to a ceiling (an OAuth scope, a terminal's profile) is intersection: the result
    permits an action in a scope exactly when the person's live permissions and the ceiling both permit it. Never more
    needs no assumption; never less, that no action, scope value or source holds a space and no scope type a colon, as
    entries are deduplicated by a text key. *)
Theorem narrow_intersects (live : list PermissionEntry) (ceiling : list KeyGrant) (act : string) (sc : option Scope) :
  (permits (narrowPermissions live ceiling) act sc = true -> permits live act sc && permits (ceiling_entries ceiling) act sc = true) /\
  (Forall (fun h => spaceless h = true) live -> Forall (fun l => spaceless l = true) (ceiling_entries ceiling) ->
   permits (narrowPermissions live ceiling) act sc = permits live act sc && permits (ceiling_entries ceiling) act sc).
Proof.
  destruct (narrowPermissions_candidates live ceiling) as [Hs Hc].
  assert (Hsound : permits (narrowPermissions live ceiling) act sc = true -> permits live act sc && permits (ceiling_entries ceiling) act sc = true).
  { intros (e & (held & limit & Hh & Hl & E)%Hs & Hok & Hm)%permits_elem. pose proof (narrow_entry_spec held limit act sc) as Hn.
    rewrite E, Hok, Hm in Hn. symmetry in Hn. apply andb_true_iff in Hn as [[H1 H2]%andb_true_iff [H3 H4]%andb_true_iff].
    apply andb_true_iff. split; apply permits_elem; [by exists held|]. exists (mkEntry limit.1 limit.2 SourceGrant). split; [|done].
    apply list_elem_of_fmap. by exists limit. }
  split; [done|]. intros Hlive Hceil. destruct (permits live act sc && _) eqn:E.
  - apply andb_true_iff in E as [(held & Hh & Hok & Hm)%permits_elem (l & (limit & -> & Hl)%list_elem_of_fmap & Hok' & Hm')%permits_elem].
    pose proof (narrow_entry_spec held limit act sc) as Hn. rewrite Hok, Hm, Hok' in Hn. cbn [action] in Hm'. rewrite Hm' in Hn.
    destruct (narrow_entry held limit) as [e|] eqn:En; [|done]. cbn in Hn. apply andb_true_iff in Hn as [Ho Ha].
    assert (Hnar : narrowed live ceiling e) by by exists held, limit. destruct (Hc e Hnar) as (e' & He' & Ek).
    destruct (entryKey_spaceless e' e) as [Ea Esc]; [exact (narrowed_spaceless live ceiling e' Hlive Hceil (Hs e' He'))|exact (narrowed_spaceless live ceiling e Hlive Hceil Hnar)|done|].
    apply permits_elem. exists e'. split; [done|]. unfold scopeOk in *. by rewrite Ea, Esc.
  - destruct (permits (narrowPermissions live ceiling) act sc) eqn:En; [|done]. exact (eq_sym (Hsound eq_refl)).
Qed.

(** ** What a run saw *)

Section MintProperties.
Context `{Hashing, Addresses, Installation, UrlParser, Signing, Provisioning}.

(** At some moment since [t], and no later than [t']. *)
Definition seen (t : Iam) (Phi : Iam -> Prop) (t' : Iam) : Prop := exists tm, consistent tm /\ advances t tm /\ advances tm t' /\ Phi tm.

Lemma since_stable t : stable (fun s => advances t s).
Proof. intros s s' _ _ Ha Hs. by transitivity s. Qed.

Lemma seen_stable t Phi : stable (seen t Phi).
Proof. intros s s' _ _ Ha (tm & ? & ? & ? & ?). exists tm. split; [done|]. split; [done|]. split; [by transitivity s|done]. Qed.

(** A read adds what it saw to what is known. *)
Lemma among_sees {A} t (K : Iam -> Prop) (f : Surroundings -> Iam -> A) (Phi : A -> Iam -> Prop) :
  stable K -> (forall s, K s -> advances t s) -> (forall e s, consistent s -> K s -> Phi (f e s) s) ->
  among K (read f) (fun a s => K s /\ seen t (Phi a) s).
Proof.
  intros HK Ht HP. apply among_read; [intros a; apply stable_and; [done|apply seen_stable]|]. intros e s Hs _ HKs. split; [done|].
  exists s. split; [done|]. split; [by apply Ht|]. split; [reflexivity|by apply HP].
Qed.

(** A program that tells nothing keeps what is known. *)
Lemma among_still {A} (K : Iam -> Prop) (p : iam A) : stable K -> among (fun _ => True) p (fun _ _ => True) -> among K p (fun _ s => K s).
Proof. apply among_past. Qed.

(** The database's lookups at a moment. *)
Definition principal_at (id : string) (row : PrincipalRow) (t : Iam) : Prop := @db_getPrincipalById (repositories (directory t)) id = Some row.

Definition resolved_at (row : PrincipalRow) (app : string) (authority : ResolvedAuthority) (t : Iam) : Prop :=
  authority = @resolveAuthorityAt (repositories (directory t)) row app.

(** What [terminalAuthority] answers: at moments of the run, the terminal was enrolled, the application its asserter with
    that ceiling, and its principal, enabled, held that authority. *)
Definition terminal_seen (t : Iam) (terminal : SessionTerminal) (app : string) (ta : TerminalAuthority) (s : Iam) : Prop :=
  seen t (fun tm => exists r, terminals tm !! terminalId terminal = Some r /\ te_revoked r = None) s /\
  (exists ceiling, seen t (fun tm => asserters tm !! (terminalId terminal, app) = Some ceiling) s /\
     ta_ceiling ta = map (fun act => (act, None)) ceiling) /\
  (exists principal, pr_disabled_at principal = None /\ seen t (principal_at (terminalId terminal) principal) s /\
     seen t (resolved_at principal app (ta_authority ta)) s) /\
  ta_additions ta = map (fun e => mkEntry (action e) (scope e) SourceTerminal) (au_permissions (ta_authority ta)).

Lemma terminal_seen_stable t terminal app ta : stable (terminal_seen t terminal app ta).
Proof.
  apply stable_and; [apply seen_stable|]. apply stable_and; [|apply stable_and; [|apply stable_pure]].
  - apply stable_ex. intros c. apply stable_and; [apply seen_stable|apply stable_pure].
  - apply stable_ex. intros p. apply stable_and; [apply stable_pure|]. apply stable_and; apply seen_stable.
Qed.

Lemma terminalAuthority_seen t K terminal app :
  stable K -> (forall s, K s -> advances t s) ->
  among K (terminalAuthority terminal app) (fun o s => K s /\ match o with Some ta => terminal_seen t terminal app ta s | None => True end).
Proof.
  intros HK Ht. unfold terminalAuthority. eapply among_bind; [apply among_still, among_any; done|]. intros [|]; [by apply among_done|].
  eapply among_bind; [apply (among_sees t K _ (fun o tm => terminals tm !! terminalId terminal = o) HK Ht); done|].
  intros [r|]; [|apply among_done; by intros s _ [? _]]. destruct (te_revoked r) eqn:Er; cbn [is_some]; [apply among_done; by intros s _ [? _]|].
  set (K1 := fun s => K s /\ seen t (fun tm => terminals tm !! terminalId terminal = Some r) s). assert (HK1 : stable K1) by (apply stable_and; [done|apply seen_stable]).
  assert (Ht1 : forall s, K1 s -> advances t s) by (intros s [? _]; by apply Ht).
  eapply among_bind; [apply (among_sees t K1 _ (fun o tm => asserters tm !! (terminalId terminal, app) = o) HK1 Ht1); done|].
  intros [ceiling|]; [|apply among_done; by intros s _ [[? _] _]].
  set (K2 := fun s => K1 s /\ seen t (fun tm => asserters tm !! (terminalId terminal, app) = Some ceiling) s).
  assert (HK2 : stable K2) by (apply stable_and; [done|apply seen_stable]). assert (Ht2 : forall s, K2 s -> advances t s) by (intros s [? _]; by apply Ht1).
  eapply among_bind; [apply (among_still K2), getTerminalIdentifyPath_safe; done|]. intros [path|]; cbn [is_some negb]; [|apply among_done; by intros s _ [[? _] _]].
  eapply among_bind; [apply (among_sees t K2 _ (fun o tm => @db_getPrincipalById (repositories (directory tm)) (terminalId terminal) = o) HK2 Ht2); done|].
  intros [principal|]; [|apply among_done; by intros s _ [[[? _] _] _]].
  destruct (is_disabled principal) eqn:Ed; [apply among_done; by intros s _ [[[? _] _] _]|].
  set (K3 := fun s => K2 s /\ seen t (principal_at (terminalId terminal) principal) s). assert (HK3 : stable K3) by (apply stable_and; [done|apply seen_stable]).
  assert (Ht3 : forall s, K3 s -> advances t s) by (intros s [? _]; by apply Ht2).
  eapply among_bind; [apply (among_sees t K3 _ (resolved_at principal app) HK3 Ht3); done|]. intros granted. apply among_done.
  intros s _ [[[[? Hrow] Hceil] Hp] Hg]. split; [done|]. split; [|split; [|split; [|done]]].
  - destruct Hrow as (tm & ? & ? & ? & ?). exists tm. repeat (split; [done|]). by exists r.
  - by exists ceiling.
  - exists principal. split; [by apply is_disabled_false|]. by split.
Qed.

(** The session was good for a token at a moment of the run. *)
Definition usable_session (t : Iam) (secret app : string) (row : SessionRow) (s : Iam) : Prop :=
  seen t (fun tm => row ∈ sessions tm /\ exists now, active now tm row = true) s /\ se_hash row = hashToken secret /\
  (se_app row = None \/ se_app row = Some app) /\ (forall terminal, sessionTerminal row = Some terminal -> assertedBy terminal = app) /\
  sessionUsable row = true.

(** What a session's token carries, of authority the person, and on a terminal the terminal, held at moments of the run. *)
Definition session_authority (t : Iam) (app : string) (row : SessionRow) (authority : ResolvedAuthority) (onTerminal : option TerminalAuthority) (s : Iam) : Prop :=
  (exists principal, pr_disabled_at principal = None /\ seen t (principal_at (se_principal row) principal) s /\ seen t (resolved_at principal app authority) s) /\
  match sessionTerminal row with
  | None => onTerminal = None
  | Some terminal => exists ta, onTerminal = Some ta /\ terminal_seen t terminal app ta s
  end.

Lemma session_authority_stable t app row authority onTerminal : stable (session_authority t app row authority onTerminal).
Proof.
  apply stable_and.
  - apply stable_ex. intros p. apply stable_and; [apply stable_pure|]. apply stable_and; apply seen_stable.
  - destruct (sessionTerminal row); [|apply stable_pure]. apply stable_ex. intros ta. apply stable_and; [apply stable_pure|apply terminal_seen_stable].
Qed.

(** The minted token. *)
Definition minted (app : string) (row : SessionRow) (authority : ResolvedAuthority) (onTerminal : option TerminalAuthority) (token : string) (expiresAt : Z) :
  Prop :=
  exists now claims,
    token = jwt_sign claims /\ aud claims = app /\ sub claims = se_principal row /\ Token.session claims = true /\
    iat claims = NFinite now 0 /\ exp claims = NFinite expiresAt 0 /\ perms claims = session_permissions authority onTerminal /\
    expiresAt = session_deadline authority onTerminal (se_expires row) now.

Definition mint_tells (t : Iam) (secret app : string) (o : option MintOutcome) (s : Iam) : Prop :=
  forall out token expiresAt, o = Some out -> mo_result out = inr (token, expiresAt) ->
    exists row authority onTerminal,
      usable_session t secret app row s /\ session_authority t app row authority onTerminal s /\ minted app row authority onTerminal token expiresAt.

Lemma signed_claims params signed bytes token :
  signAccessToken params = Some signed -> boundedToken signed bytes = Some token ->
  exists claims, token = jwt_sign claims /\ buildAccessClaims params = inr claims.
Proof.
  unfold signAccessToken, boundedToken. destruct (buildAccessClaims params) as [|claims]; [done|]. intros [= <-]. destruct (_ <=? _)%nat; [|done].
  intros [= <-]. by exists claims.
Qed.

Lemma minted_token principal app row authority onTerminal now bytes signed token :
  pr_id principal = se_principal row ->
  signAccessToken (session_claims principal app onTerminal (session_permissions authority onTerminal) now
    (session_deadline authority onTerminal (se_expires row) now)) = Some signed ->
  boundedToken signed bytes = Some token -> minted app row authority onTerminal token (session_deadline authority onTerminal (se_expires row) now).
Proof.
  intros Hid Hs Hb. destruct (signed_claims _ _ _ _ Hs Hb) as (claims & -> & Hc). apply build_inv in Hc as (_ & _ & _ & _ & _ & ->).
  eexists now, _. split; [reflexivity|]. cbn. by rewrite Hid.
Qed.

Lemma mint_nothing t secret app K (r : option MintOutcome) : (forall out, r = Some out -> is_some (match mo_result out with inl _ => None | inr x => Some x end) = false) ->
  among K (mret r) (mint_tells t secret app).
Proof. intros Hr. apply among_done. intros s _ _ out token expiresAt E Eo. specialize (Hr out E). by rewrite Eo in Hr. Qed.

(** What is known of the session and its person's authority before the token is signed. *)
Definition authorized (t : Iam) (secret app : string) (row : SessionRow) (authority : ResolvedAuthority) (onTerminal : option TerminalAuthority) (s : Iam) : Prop :=
  usable_session t secret app row s /\ session_authority t app row authority onTerminal s.

Lemma authorized_stable t secret app row authority onTerminal : stable (authorized t secret app row authority onTerminal).
Proof. apply stable_and; [|apply session_authority_stable]. apply stable_and; [apply seen_stable|apply stable_pure]. Qed.

(** From the authority on: the token is signed. *)
Lemma signSession_tells t secret app row principal authority onTerminal :
  pr_id principal = se_principal row ->
  among (authorized t secret app row authority onTerminal) (signSession row principal app authority onTerminal) (mint_tells t secret app).
Proof.
  intros Hid. unfold signSession. pose proof (authorized_stable t secret app row authority onTerminal) as HK.
  eapply among_bind; [apply (among_still _ _ HK), clock_safe|]. intros now. cbv zeta.
  eapply among_bind; [apply (among_still _ _ HK), among_any|]. intros bytes.
  destruct (signAccessToken _) as [signed|] eqn:Es; [|by apply mint_nothing]. destruct (boundedToken signed bytes) as [token|] eqn:Eb; [|by apply mint_nothing; intros ? [= <-]].
  apply among_done. intros s _ [Hu Hsa] out token' expiresAt [= <-] [= <- <-]. exists row, authority, onTerminal. split; [done|]. split; [done|].
  by eapply minted_token.
Qed.

(** From the person on. *)
Lemma mintForPrincipal_tells t secret app row principal :
  pr_id principal = se_principal row -> pr_disabled_at principal = None ->
  among (fun s => advances t s /\ usable_session t secret app row s /\ seen t (principal_at (se_principal row) principal) s)
    (mintForPrincipal row principal app) (mint_tells t secret app).
Proof.
  intros Hid Hdis. unfold mintForPrincipal.
  set (K := fun s => advances t s /\ usable_session t secret app row s /\ seen t (principal_at (se_principal row) principal) s).
  assert (HK : stable K).
  { apply stable_and; [apply since_stable|]. apply stable_and; [apply stable_and; [apply seen_stable|apply stable_pure]|apply seen_stable]. }
  assert (Ht : forall s, K s -> advances t s) by by intros s [? _].
  eapply among_bind; [apply (among_sees t K _ (resolved_at principal app) HK Ht); done|]. intros authority.
  set (K2 := fun s => K s /\ seen t (resolved_at principal app authority) s). assert (HK2 : stable K2) by (apply stable_and; [done|apply seen_stable]).
  assert (Ht2 : forall s, K2 s -> advances t s) by (intros s [? _]; by apply Ht).
  apply (among_bind _ _ _ (fun o s => K2 s /\
    match sessionTerminal row with None => o = None | Some terminal => match o with Some ta => terminal_seen t terminal app ta s | None => True end end)).
  { destruct (sessionTerminal row) as [terminal|]; [|by apply among_done]. by apply terminalAuthority_seen. }
  intros onTerminal. destruct (is_some (sessionTerminal row) && negb (is_some onTerminal)) eqn:Eon; [by apply mint_nothing; intros ? [= <-]|].
  eapply among_weaken; [by apply signSession_tells| |done]. intros s _ [[[_ [Hu Hp]] Hau] Hon]. split; [done|]. split; [by exists principal|].
  destruct (sessionTerminal row) as [terminal|]; [|done]. destruct onTerminal as [ta|]; [|done]. by exists ta.
Qed.

Lemma mintFromSession_tells t secret app row :
  se_hash row = hashToken secret ->
  among (fun s => advances t s /\ seen t (fun tm => row ∈ sessions tm /\ exists now, active now tm row = true) s) (mintFromSession row app) (mint_tells t secret app).
Proof.
  intros Hhash. unfold mintFromSession. cbv zeta.
  destruct (match se_app row with Some _ => _ | None => _ end) eqn:Eapp; [by apply mint_nothing; intros ? [= <-]|].
  destruct (match sessionTerminal row with Some _ => _ | None => _ end) eqn:Eterm; [by apply mint_nothing; intros ? [= <-]|].
  destruct (sessionUsable row) eqn:Eus; cbn [negb]; [|by apply mint_nothing; intros ? [= <-]].
  assert (Hterm : forall terminal, sessionTerminal row = Some terminal -> assertedBy terminal = app).
  { intros terminal Et. rewrite Et in Eterm. apply negb_false_iff in Eterm. by apply String.eqb_eq. }
  assert (Happ : se_app row = None \/ se_app row = Some app).
  { destruct (se_app row) as [bound|]; [right|by left]. apply negb_false_iff, String.eqb_eq in Eapp. by rewrite Eapp. }
  set (K := fun s => advances t s /\ usable_session t secret app row s).
  assert (HK : stable K) by (apply stable_and; [apply since_stable|]; apply stable_and; [apply seen_stable|apply stable_pure]).
  assert (Ht : forall s, K s -> advances t s) by by intros s [? _].
  eapply (among_weaken K); [|by intros s _ [Ha Hseen]|done].
  eapply among_bind; [apply (among_sees t K _ (fun o tm => forall p, o = Some p -> principal_at (se_principal row) p tm /\ pr_id p = se_principal row) HK Ht)|].
  { intros e s Hs _ p E. split; [exact E|]. by apply (principals_keyed s Hs). }
  intros [principal|]; [|by apply mint_nothing; intros ? [= <-]]. destruct (is_disabled principal) eqn:Ed; [by apply mint_nothing; intros ? [= <-]|].
  eapply (among_weaken (fun s => pr_id principal = se_principal row /\
    advances t s /\ usable_session t secret app row s /\ seen t (principal_at (se_principal row) principal) s)).
  - apply among_pure. intros Hid. apply mintForPrincipal_tells; [done|by apply is_disabled_false].
  - intros s _ [[Ha Hu] (tm & ? & ? & ? & Hp)]. destruct (Hp principal eq_refl) as [Hp1 Hid]. split; [done|]. split; [done|]. split; [done|]. by exists tm.
  - done.
Qed.

Lemma mintToken_tells t secret app : among (fun s => advances t s) (mintToken secret app) (mint_tells t secret app).
Proof.
  unfold mintToken. destruct (secret =? "")%string; [by apply mint_nothing; intros ? [= <-]|]. cbv zeta.
  eapply among_bind; [apply (among_sees t (fun s => advances t s) _ (fun o tm => forall row, o = Some row ->
    (row ∈ sessions tm /\ exists now, active now tm row = true) /\ se_hash row = hashToken secret)); [apply since_stable|done|]|].
  { intros e s _ _ row [Hin [Eh Ha]%andb_true_iff]%find_session. apply String.eqb_eq in Eh. split; [split; [done|by exists (e_now e)]|done]. }
  intros [row|].
  - eapply (among_weaken (fun s => se_hash row = hashToken secret /\
      (advances t s /\ seen t (fun tm => row ∈ sessions tm /\ exists now, active now tm row = true) s)));
      [apply among_pure; intros Hh; by apply mintFromSession_tells| |done].
    intros s _ [Ha (tm & ? & ? & ? & Hr)]. destruct (Hr row eq_refl) as [Hrow Hh]. split; [done|]. split; [done|]. by exists tm.
  - apply (among_bind _ _ _ (fun _ _ => True)); [apply among_any|]. intros stored. by apply mint_nothing; intros ? [= <-].
Qed.

Lemma until_alive deadline x time : time < until deadline x <-> alive deadline time /\ time < x.
Proof. destruct deadline as [d|]; cbn; lia. Qed.

Lemma session_deadline_bounds authority onTerminal expires now :
  session_deadline authority onTerminal expires now <= expires /\ session_deadline authority onTerminal expires now <= now + DEFAULT_TOKEN_TTL_SECONDS.
Proof. unfold session_deadline, until. destruct onTerminal; repeat case_match; lia. Qed.

(** Until its end, everything the token carries is still held. *)
Lemma session_deadline_holds authority onTerminal expires now e time :
  (forall ta, onTerminal = Some ta -> ta_additions ta = map (fun e => mkEntry (action e) (scope e) SourceTerminal) (au_permissions (ta_authority ta))) ->
  e ∈ session_permissions authority onTerminal -> now <= time -> time < session_deadline authority onTerminal expires now ->
  holds_at authority e time \/ exists ta, onTerminal = Some ta /\ holds_at (ta_authority ta) e time.
Proof.
  intros Hadd He Hnow. unfold session_deadline. rewrite !until_alive. intros (Hterm & Hown & _).
  destruct onTerminal as [ta|]; cbn in He.
  - rewrite authorityDeadline_alive in Hterm, Hown by by left. unfold withinTerminal in He. apply elem_of_app in He as [He|He].
    + left. by apply Hown.
    + right. exists ta. split; [done|]. by apply Hterm.
  - rewrite authorityDeadline_alive in Hown by by left. left. by apply Hown.
Qed.

(** C11. A session's token carries no more than its person holds, and no longer. Whatever else runs: when [mintToken]
    answers a token, at moments of its run the session was active, for this application, and its person enabled; the
    token is the person's, its permissions are those the person held at the application (on a terminal: what of them the
    terminal's ceiling leaves, and the enrolled terminal's own), it ends with the session and within five minutes, and
    until it ends the grants behind each permission last. *)
Theorem mint_attenuates (t t' : Iam) (secret app : string) (out : MintOutcome) (token : string) (expiresAt : Z) :
  consistent t -> runs (mintToken secret app) t (Some out) t' -> mo_result out = inr (token, expiresAt) ->
  exists row authority onTerminal now claims,
    usable_session t secret app row t' /\ session_authority t app row authority onTerminal t' /\
    token = jwt_sign claims /\ aud claims = app /\ sub claims = se_principal row /\
    iat claims = NFinite now 0 /\ exp claims = NFinite expiresAt 0 /\ perms claims = session_permissions authority onTerminal /\
    expiresAt <= se_expires row /\ expiresAt <= now + DEFAULT_TOKEN_TTL_SECONDS /\
    forall e time, e ∈ perms claims -> now <= time -> time < expiresAt ->
      holds_at authority e time \/ exists ta, onTerminal = Some ta /\ holds_at (ta_authority ta) e time.
Proof.
  intros Ht Hr Ho. destruct (runs_sound _ _ _ _ _ _ (mintToken_tells t secret app) Ht ltac:(reflexivity) Hr) as (_ & _ & Htells).
  destruct (Htells out token expiresAt eq_refl Ho) as (row & authority & onTerminal & Hu & Ha & now & claims & -> & ? & ? & ? & ? & ? & Hp & ->).
  exists row, authority, onTerminal, now, claims. destruct (session_deadline_bounds authority onTerminal (se_expires row) now) as [? ?].
  repeat (split; [done|]). intros e time He Hnow Htime. rewrite Hp in He. eapply session_deadline_holds; try done.
  intros ta Eta. destruct Ha as [_ Ha]. destruct (sessionTerminal row); [|congruence]. destruct Ha as (ta' & E & (_ & _ & _ & Hadd)). congruence.
Qed.

(** *** Keys *)

Lemma permits_weaker live e act sc :
  permits live (action e) (scope e) = true -> scopeOk e sc = true -> matchAction (action e) act = true -> permits live act sc = true.
Proof.
  intros (h & Hh & Hok & Hm)%permits_elem Hsc Hact. apply permits_elem. exists h. split; [done|]. split; [|by eapply matchAction_trans].
  unfold scopeOk in *. destruct (scope h) as [s|]; [|done]. destruct (scope e) as [s'|]; [|done]. apply same_scope_spec in Hok as ->. done.
Qed.

Lemma downscoped_permits resolved inline act sc : permits (downscoped resolved inline) act sc = true -> permits resolved act sc = true.
Proof.
  unfold downscoped. destruct inline as [|e0 inline]; [done|]. intros (e & (_ & Hp)%list_elem_of_In%filter_In & Hsc & Hm)%permits_elem.
  by eapply permits_weaker.
Qed.

(** The frozen grants of a key at a moment. *)
Definition grants_at (cred : CredentialRow) (t : Iam) : list KeyGrant := flat_map cr_grants (List.filter (fun c => (cr_id c =? cr_id cred)%string) (credentials t)).

(** A key of nobody carries its frozen grants, each still delegated by its issuer: where it is granted, or, of a link's key,
    on the link's chain, where the issuer also holds the action the mount asks of it. *)
Definition delegated_key (t : Iam) (cred : CredentialRow) (app : string) (rc : ResolvedCredential) (s : Iam) : Prop :=
  cr_app cred = Some app /\ (exists grants, rc_permissions rc = map credentialGrantToEntry grants /\ seen t (fun tm => grants_at cred tm = grants) s) /\
  match cr_link cred with
  | None => seen t (fun tm => @delegated_by (repositories (directory tm)) (cr_issued_by cred) app None (map (fun e => mkDelegated (action e) [scope e]) (rc_permissions rc)) (rc_expiresAt rc)) s
  | Some link => exists chain dimension issued_by, sl_chain link ≫= parseStoredChain = Some chain /\ sl_dimension link = Some dimension /\
      rc_link rc = Some (mkLink (sl_mount link) chain) /\ seen t (fun tm => linkMount (directory tm) app (sl_mount link) = Some (dimension, issued_by)) s /\
      seen t (fun tm => @delegated_by (repositories (directory tm)) (cr_issued_by cred) app (Some (sl_mount link))
        (map (fun act => mkDelegated act (map Some chain)) (issued_by :: map action (rc_permissions rc))) (rc_expiresAt rc)) s
  end.

(** The principal held all of it, and each part until its grants end. *)
Definition held_by (principal : PrincipalRow) (app : string) (permissions : list PermissionEntry) (until : option Z) (tm : Iam) : Prop :=
  (forall act sc, permits permissions act sc = true -> permits (@resolvePermissionsAt (repositories (directory tm)) principal app) act sc = true) /\
  (@plain_at (repositories (directory tm)) principal app -> forall time e, e ∈ permissions -> alive until time ->
     @given_to (repositories (directory tm)) principal app (action e) (scope e) time).

(** A bound key carries its enabled principal's: a workload's declared actions; or no more than the principal holds, no more than
    the key's own grants where it has some, and, of a key another issued, no more than its issuer covers. *)
Definition bound_key (t : Iam) (cred : CredentialRow) (id app : string) (rc : ResolvedCredential) (s : Iam) : Prop :=
  rc_subject rc = id /\
  exists principal, pr_disabled_at principal = None /\ seen t (principal_at id principal) s /\
    ((exists workload, wl_app workload = app /\ seen t (fun tm => @db_getByPrincipal (repositories (directory tm)) id = Some workload) s /\
        exists actions, rc_permissions rc = map (fun act => mkEntry act None SourceGrant) (default [] actions) /\
          seen t (fun tm => declaredActions (directory tm) app (wl_kind workload) (wl_name workload) = actions) s) \/
     (seen t (held_by principal app (rc_permissions rc) (rc_expiresAt rc)) s /\
      (exists grants, seen t (fun tm => grants_at cred tm = grants) s /\ (grants <> [] -> rc_permissions rc ⊆ map credentialGrantToEntry grants)) /\
      (forall issuer, cr_issued_by cred = Some issuer -> issuer <> id ->
         seen t (fun tm => @covered_by (repositories (directory tm)) issuer app (rc_permissions rc) (rc_expiresAt rc)) s))).

Definition key_backed (t : Iam) (cred : CredentialRow) (app : string) (rc : ResolvedCredential) (s : Iam) : Prop :=
  (forall bound, cr_app cred = Some bound -> bound = app) /\
  match cr_principal cred with None => delegated_key t cred app rc s | Some id => bound_key t cred id app rc s end.

Ltac keeps := repeat first [apply stable_pure | apply seen_stable | apply stable_and | apply stable_or | apply stable_ex; intros ? | apply stable_all; intros ? | apply stable_impl; intros ?].

Lemma key_backed_stable t cred app rc : stable (key_backed t cred app rc).
Proof. unfold key_backed, delegated_key, bound_key. destruct (cr_principal cred) as [id|]; [keeps|]. destruct (cr_link cred); keeps. Qed.

Definition resolution_tells (t : Iam) (cred : CredentialRow) (app : string) (r : CredentialRefusal + ResolvedCredential) (s : Iam) : Prop :=
  match r with inr rc => key_backed t cred app rc s | inl _ => True end.

Lemma resolution_refused t cred app K reason : among K (mret (inl reason)) (resolution_tells t cred app).
Proof. by apply among_done. Qed.

Lemma resolveAnonymous_tells t cred app grants :
  cr_principal cred = None -> cr_app cred = Some app ->
  among (fun s => advances t s /\ seen t (fun tm => grants_at cred tm = grants) s) (resolveAnonymous cred app (map credentialGrantToEntry grants)) (resolution_tells t cred app).
Proof.
  intros Hpr Happ. unfold resolveAnonymous. cbv zeta. set (K := fun s => advances t s /\ seen t (fun tm => grants_at cred tm = grants) s).
  assert (HK : stable K) by (apply stable_and; [apply since_stable|apply seen_stable]). assert (Ht : forall s, K s -> advances t s) by by intros s [? _].
  set (inline := map credentialGrantToEntry grants).
  assert (Hask : forall K mount required, stable K -> (forall s, K s -> advances t s) -> among K (issuerAuthorityAt (cr_issued_by cred) app mount required)
    (fun o s => K s /\ seen t (fun tm => forall until_, o = Some until_ -> @delegated_by (repositories (directory tm)) (cr_issued_by cred) app mount required until_) s)).
  { intros K' mount required HK' Ht'. apply (among_sees t K' _ (fun o tm => forall until_, o = Some until_ -> @delegated_by (repositories (directory tm)) (cr_issued_by cred) app mount required until_) HK' Ht').
    intros e s _ _ until_. apply issuerAuthority_delegated. }
  assert (Hseen : forall s mount required until_, seen t (fun tm => forall u, Some until_ = Some u -> @delegated_by (repositories (directory tm)) (cr_issued_by cred) app mount required u) s ->
    seen t (fun tm => @delegated_by (repositories (directory tm)) (cr_issued_by cred) app mount required until_) s).
  { intros s mount required until_ (tm & ? & ? & ? & Hd). exists tm. split_and!; try done. by apply Hd. }
  destruct (cr_link cred) as [link|] eqn:El.
  - destruct (sl_chain link ≫= parseStoredChain) as [chain|] eqn:Ec; [|apply resolution_refused].
    eapply among_bind; [apply (among_sees t K _ (fun o tm => linkMount (directory tm) app (sl_mount link) = o) HK Ht); done|]. intros [[dimension issued_by]|]; [|apply resolution_refused].
    destruct (bool_decide (sl_dimension link = Some dimension)) eqn:Ed; cbn [negb]; [|apply resolution_refused]. apply bool_decide_eq_true in Ed.
    set (K' := fun s => K s /\ seen t (fun tm => linkMount (directory tm) app (sl_mount link) = Some (dimension, issued_by)) s).
    eapply among_bind; [apply (Hask K'); [apply stable_and; [done|apply seen_stable]|by intros s [? _]; apply Ht]|]. intros [until_|]; [|apply resolution_refused].
    apply among_done. intros s _ [[[_ Hg] Hm] Hi]. split; [by rewrite Happ; intros ? [= <-]|]. rewrite Hpr. split; [done|]. split; [by exists grants|]. rewrite El.
    exists chain, dimension, issued_by. split_and!; try done. by apply Hseen.
  - eapply among_bind; [by apply (Hask K)|]. intros [until_|]; [|apply resolution_refused].
    apply among_done. intros s _ [[_ Hg] Hi]. split; [by rewrite Happ; intros ? [= <-]|]. rewrite Hpr. split; [done|]. split; [by exists grants|]. rewrite El. by apply Hseen.
Qed.

Lemma downscoped_held authority inline : (forall e, e ∈ downscoped (au_permissions authority) inline -> permits (au_permissions authority) (action e) (scope e) = true) /\
  (inline <> [] -> downscoped (au_permissions authority) inline ⊆ inline).
Proof.
  unfold downscoped. destruct inline as [|e0 inline].
  - split; [|done]. intros e He. apply permits_elem. exists e. split; [done|]. split; [|apply matchAction_refl]. unfold scopeOk. destruct (scope e); [by apply same_scope_spec|done].
  - split; [by intros e [_ ?]%list_elem_of_In%filter_In|]. intros _ e [Hin _]%list_elem_of_In%filter_In. by apply list_elem_of_In.
Qed.

Lemma alive_min a b t : alive (min_until a b) t <-> alive a t /\ alive b t.
Proof. destruct a as [a|], b as [b|]; cbn; try tauto. lia. Qed.

(** A part of what a key may carry of its principal is held by it until the key's deadline. *)
Lemma downscoped_held_by `{R : Repositories} principal app inline now permissions until_ : permissions ⊆ downscoped (au_permissions (resolveAuthorityAt principal app)) inline ->
  (forall time, alive until_ time -> alive (authorityDeadline (au_supports (resolveAuthorityAt principal app)) (downscoped (au_permissions (resolveAuthorityAt principal app)) inline) now) time) ->
  (forall act sc, permits permissions act sc = true -> permits (resolvePermissionsAt principal app) act sc = true) /\
  (plain_at principal app -> forall time e, e ∈ permissions -> alive until_ time -> given_to principal app (action e) (scope e) time).
Proof.
  intros Hsub Hd. split.
  - intros act sc Hp. by apply (downscoped_permits _ inline), (permits_subset permissions).
  - intros Hpl time e He Ha. apply (carried_given _ _ _ now time Hpl (proj1 (downscoped_held _ inline)) (Hd _ Ha)). by apply Hsub.
Qed.

(** The live part of a bound key: from the principal's authority on. *)
Lemma resolveBound_tells t cred app principal grants :
  pr_disabled_at principal = None -> cr_principal cred = Some (pr_id principal) -> (forall bound, cr_app cred = Some bound -> bound = app) ->
  among (fun s => advances t s /\ seen t (principal_at (pr_id principal) principal) s /\ seen t (fun tm => grants_at cred tm = grants) s)
    (resolveBound cred principal app (map credentialGrantToEntry grants)) (resolution_tells t cred app).
Proof.
  intros Hdis Hpr Happ. unfold resolveBound. set (inline := map credentialGrantToEntry grants).
  set (K := fun s => advances t s /\ seen t (principal_at (pr_id principal) principal) s /\ seen t (fun tm => grants_at cred tm = grants) s).
  assert (HK : stable K) by (apply stable_and; [apply since_stable|apply stable_and; apply seen_stable]). assert (Ht : forall s, K s -> advances t s) by by intros s [? _].
  eapply among_bind; [apply (among_sees t K _ (resolved_at principal app) HK Ht); done|]. intros authority.
  set (K1 := fun s => K s /\ seen t (resolved_at principal app authority) s). assert (HK1 : stable K1) by (apply stable_and; [done|apply seen_stable]).
  assert (Ht1 : forall s, K1 s -> advances t s) by (intros s [? _]; by apply Ht).
  eapply among_bind; [apply (among_still K1), clock_safe; done|]. intros now. cbv zeta. set (deadline := authorityDeadline _ _ now).
  assert (Hend : forall permissions until_ s, K1 s -> permissions ⊆ downscoped (au_permissions authority) inline -> (forall time, alive until_ time -> alive deadline time) ->
    (forall issuer, cr_issued_by cred = Some issuer -> issuer <> pr_id principal -> seen t (fun tm => @covered_by (repositories (directory tm)) issuer app permissions until_) s) ->
    resolution_tells t cred app (inr (bound_to_principal principal permissions until_)) s).
  { intros permissions until_ s [(_ & Hp & Hg) (tm & ? & ? & ? & ->)] Hsub Hd Hi. split; [done|]. rewrite Hpr. split; [done|]. exists principal. split; [done|]. split; [done|]. right.
    split; [|split; [|done]].
    - exists tm. split_and!; try done; by apply (downscoped_held_by principal app inline now).
    - exists grants. split; [done|]. intros Hne. etransitivity; [exact Hsub|]. apply downscoped_held. by destruct grants. }
  destruct (cr_issued_by cred) as [issuer|]; [|by apply among_done; intros s _ Hs; apply Hend].
  destruct (String.eqb_spec issuer (pr_id principal)) as [->|Hne]; [by apply among_done; intros s _ Hs; apply Hend; [..|intros ? [= <-]]|].
  eapply among_bind; [apply (among_sees t K1 _ (fun o tm => forall covered until_, o = Some (covered, until_) -> covered ⊆ downscoped (au_permissions authority) inline /\
    @covered_by (repositories (directory tm)) issuer app covered until_) HK1 Ht1)|].
  { intros e s _ _ covered until_ E. by eapply issuerCoverage_covered. }
  intros [[covered until_]|]; [|apply resolution_refused]. apply among_done. intros s _ [Hs (tm & ? & ? & ? & Hc)]. destruct (Hc covered until_ eq_refl) as [Hsub Hcov].
  apply Hend; [done|done|by intros time [? _]%alive_min|]. intros ? [= <-] _. exists tm. split_and!; try done.
  eapply covered_by_sooner; [|exact Hcov]. by intros time [_ ?]%alive_min.
Qed.

Lemma resolveCredential_tells t cred app : among (fun s => advances t s) (resolveCredential cred app) (resolution_tells t cred app).
Proof.
  unfold resolveCredential. destruct (match cr_app cred with Some _ => _ | None => _ end) eqn:Eapp; [apply resolution_refused|].
  assert (Happ : forall bound, cr_app cred = Some bound -> bound = app).
  { intros bound E. rewrite E in Eapp. by apply negb_false_iff, String.eqb_eq in Eapp. }
  pose proof (since_stable t) as HK. eapply among_bind; [apply (among_sees t _ _ (fun grants tm => grants_at cred tm = grants) HK); done|].
  intros grants. cbv zeta. destruct (cr_principal cred) as [id|] eqn:Eid.
  - set (K := fun s => advances t s).
    eapply among_bind; [apply (among_sees t (fun s => advances t s /\ seen t (fun tm => grants_at cred tm = grants) s) _
      (fun o tm => forall p, o = Some p -> principal_at id p tm /\ pr_id p = id)); [apply stable_and; [done|apply seen_stable]|by intros s [? _]|]|].
    { intros e s Hs _ p E. split; [exact E|]. by apply (principals_keyed s Hs). }
    intros [principal|]; [|apply resolution_refused]. destruct (is_disabled principal) eqn:Ed; [apply resolution_refused|]. apply is_disabled_false in Ed.
    eapply (among_weaken (fun s => pr_id principal = id /\ (advances t s /\ seen t (principal_at id principal) s /\ seen t (fun tm => grants_at cred tm = grants) s))).
    + apply among_pure. intros Hid. set (K1 := fun s => advances t s /\ seen t (principal_at id principal) s /\ seen t (fun tm => grants_at cred tm = grants) s).
      assert (HK1 : stable K1) by (apply stable_and; [done|apply stable_and; apply seen_stable]). assert (Ht1 : forall s, K1 s -> advances t s) by by intros s [? _].
      eapply among_bind; [apply (among_sees t K1 _ (fun o tm => @db_getByPrincipal (repositories (directory tm)) (pr_id principal) = o) HK1 Ht1); done|].
      intros [workload|].
      * unfold resolveWorkload. destruct (String.eqb_spec (wl_app workload) app) as [Ew|_]; [|apply resolution_refused]. cbn [negb].
        set (K2 := fun s => K1 s /\ seen t (fun tm => @db_getByPrincipal (repositories (directory tm)) (pr_id principal) = Some workload) s).
        assert (HK2 : stable K2) by (apply stable_and; [done|apply seen_stable]). assert (Ht2 : forall s, K2 s -> advances t s) by (intros s [? _]; by apply Ht1).
        eapply among_bind; [apply (among_sees t K2 _ (fun o tm => declaredActions (directory tm) (wl_app workload) (wl_kind workload) (wl_name workload) = o) HK2 Ht2); done|].
        intros actions. apply among_done. intros s _ [[(_ & Hp & _) Hw] Hact]. split; [done|]. rewrite Eid. split; [done|]. exists principal.
        split; [done|]. split; [done|]. left. exists workload. rewrite Hid in Hw. split; [done|]. split; [done|]. exists actions. split; [done|]. by rewrite <- Ew.
      * eapply among_weaken; [apply resolveBound_tells; [done|by rewrite Hid|done]| |done]. intros s _ [(? & ? & ?) _]. by rewrite Hid.
    + intros s _ [[Ha Hg] (tm & ? & ? & ? & Hp)]. destruct (Hp principal eq_refl) as [? ?]. split; [done|]. split; [done|]. split; [by exists tm|done].
    + done.
  - destruct (cr_app cred) as [bound|] eqn:Eb; [|done]. rewrite (Happ bound eq_refl) in *. by apply resolveAnonymous_tells.
Qed.

(** The key, not revoked, was stored at a moment of the run. *)
Definition usable_key (t : Iam) (key : string) (cred : CredentialRow) (s : Iam) : Prop :=
  cr_hash cred = hashToken key /\ cr_revoked cred = None /\ seen t (fun tm => cred ∈ credentials tm) s.

Definition key_minted (t : Iam) (key app : string) (o : option MintFromKeyOutcome) (s : Iam) : Prop :=
  forall out token expiresAt, o = Some out -> mk_result out = inr (token, expiresAt) ->
    exists cred rc now claims,
      usable_key t key cred s /\ key_backed t cred app rc s /\
      token = jwt_sign claims /\ aud claims = app /\ sub claims = rc_subject rc /\ iat claims = NFinite now 0 /\ exp claims = NFinite expiresAt 0 /\
      perms claims = rc_permissions rc /\ expiresAt <= now + DEFAULT_TOKEN_TTL_SECONDS /\
      (forall expires, cr_expires cred = Some expires -> expiresAt <= expires) /\ (forall deadline, rc_expiresAt rc = Some deadline -> expiresAt <= deadline).

Lemma key_refusal t key app K (r : option MintFromKeyOutcome) : (forall out, r = Some out -> is_some (match mk_result out with inl _ => None | inr x => Some x end) = false) ->
  among K (mret r) (key_minted t key app).
Proof. intros Hr. apply among_done. intros s _ _ out token expiresAt E Eo. specialize (Hr out E). by rewrite Eo in Hr. Qed.

Lemma usable_key_stable t key cred : stable (usable_key t key cred).
Proof. unfold usable_key. keeps. Qed.

Lemma getActiveCredentialByHash_tells t key :
  among (fun s => advances t s) (getActiveCredentialByHash (hashToken key))
    (fun o s => advances t s /\ match o with Some cred => usable_key t key cred s | None => True end).
Proof.
  eapply among_weaken; [apply (among_sees t (fun s => advances t s) _ (fun o tm => forall cred, o = Some cred -> cr_hash cred = hashToken key /\
    cr_revoked cred = None /\ cred ∈ credentials tm)); [apply since_stable|done|]|done|].
  - intros e s _ _ cred [Hin [[Eh Er]%andb_true_iff _]%andb_true_iff]%find_some. split; [by apply String.eqb_eq|]. split; [by destruct (cr_revoked cred)|]. by apply list_elem_of_In.
  - intros [cred|] s _ [Ha (tm & ? & ? & ? & Hs)]; [|done]. split; [done|]. destruct (Hs cred eq_refl) as (? & ? & ?). split; [done|]. split; [done|]. by exists tm.
Qed.

Lemma mintFromKey_tells t key app : among (fun s => advances t s) (mintFromKey key app) (key_minted t key app).
Proof.
  unfold mintFromKey. eapply among_bind; [apply getActiveCredentialByHash_tells|]. intros [cred|]; [|by apply key_refusal; intros ? [= <-]]. cbv zeta.
  eapply among_bind; [apply (among_keep _ _ _ (usable_key t key cred) (usable_key_stable t key cred) (resolveCredential_tells t cred app))|].
  intros [reason|rc]; [by apply key_refusal; intros ? [= <-]|]. set (K := fun s => key_backed t cred app rc s /\ usable_key t key cred s).
  assert (HK : stable K) by (apply stable_and; [apply key_backed_stable|apply usable_key_stable]).
  eapply among_bind; [apply (among_still K), clock_safe; done|]. intros now. eapply among_bind; [apply (among_still K), among_any; done|]. intros bytes.
  destruct (signAccessToken _) as [signed|] eqn:Es; [|by apply key_refusal]. destruct (boundedToken signed bytes) as [token|] eqn:Eb; [|by apply key_refusal; intros ? [= <-]].
  apply among_done. intros s _ [Hk Hu] out token' expiresAt [= <-] [= <- <-]. destruct (signed_claims _ _ _ _ Es Eb) as (claims & -> & Hc).
  apply build_inv in Hc as (_ & _ & _ & _ & _ & ->). eexists cred, rc, now, _. split; [done|]. split; [done|]. split; [reflexivity|]. cbn.
  repeat (split; [done|]). unfold until. split; [|split].
  - repeat case_match; lia.
  - intros expires ->. case_match; lia.
  - intros deadline ->. case_match; lia.
Qed.

(** C12. A key's token carries no more than what stands behind the key, and no longer. Whatever else runs: when [mintFromKey]
    answers a token, at moments of its run the key was not revoked, and it is for this application. A key bound to a principal
    carried no permission its enabled principal did not hold there (a workload, what its declaration lists), none outside its
    own grants where it has some, and, when another issued it, none that issuer does not cover; a key of nobody carried its
    frozen grants, each of them still held by its enabled issuer, on its chain for a link's key. The token ends within five
    minutes and with the key, and at every moment before its end the grants read behind each permission, of the principal and
    of the issuer, still last (for a resolution whose text keys cannot collide). *)
Theorem key_attenuates (t t' : Iam) (key app : string) (out : MintFromKeyOutcome) (token : string) (expiresAt : Z) :
  consistent t -> runs (mintFromKey key app) t (Some out) t' -> mk_result out = inr (token, expiresAt) ->
  exists cred rc now claims,
    usable_key t key cred t' /\ key_backed t cred app rc t' /\
    token = jwt_sign claims /\ aud claims = app /\ sub claims = rc_subject rc /\ iat claims = NFinite now 0 /\ exp claims = NFinite expiresAt 0 /\
    perms claims = rc_permissions rc /\ expiresAt <= now + DEFAULT_TOKEN_TTL_SECONDS /\
    (forall expires, cr_expires cred = Some expires -> expiresAt <= expires) /\ (forall deadline, rc_expiresAt rc = Some deadline -> expiresAt <= deadline).
Proof.
  intros Ht Hr Ho. destruct (runs_sound _ _ _ _ _ _ (mintFromKey_tells t key app) Ht ltac:(reflexivity) Hr) as (_ & _ & Htells).
  by apply (Htells out token expiresAt).
Qed.

(** *** Issuing *)

(** A key's row, later: it can only have been revoked since. *)
Definition key_known (row : CredentialRow) (t : Iam) : Prop :=
  cr_id row ∈ used t /\ forall c, c ∈ credentials t -> cr_id c = cr_id row -> key_ages row c.

Lemma key_known_stable row : stable (key_known row).
Proof.
  intros t t' _ _ Ha [Hu Hk]. split; [by apply (adv_used _ _ Ha)|]. intros c' Hc' E.
  destruct (adv_keys _ _ Ha c' Hc') as [(c & Hc & Hag)|[Hn _]]; [|congruence]. eapply key_ages_trans; [|exact Hag]. apply Hk; [done|].
  by destruct Hag as [->|(_ & now & ->)].
Qed.

Lemma insert_known row t : cr_id row ∉ used t -> consistent t -> key_known row (insert_credential row t).
Proof.
  intros Hi Ht. split; [set_solver|]. intros c [Hc| ->%list_elem_of_singleton]%elem_of_app E; [|by left]. destruct (keys_used t Ht c Hc). congruence.
Qed.

Lemma unseen_token e t : unseen e t -> hashToken (with_token (e_random e)) ∉ used t.
Proof. intros He. pose proof (unseen_random e t He API_KEY_PREFIX "") as Hr. by rewrite str_app_nil_r in Hr. Qed.

(** The row a key was stored as. *)
Definition stored_as (input : IssueKeyInput) (issuer : Issuer) (app : string) (expiresAt : Z) (k : IssuedKey) (s : Iam) : Prop :=
  exists row, key_known row s /\ cr_id row = ko_id k /\ cr_hash row = hashToken (ko_token k) /\ cr_principal row = ko_principalId k /\
    cr_app row = Some app /\ cr_issued_by row = Some (is_id issuer) /\ cr_expires row = Some expiresAt /\ cr_link row = None /\
    match ik_service input with None => cr_principal row = ik_principalId input /\ cr_grants row = ik_permissions input | Some _ => cr_grants row = [] end.

Lemma stored_as_stable input issuer app expiresAt k : stable (stored_as input issuer app expiresAt k).
Proof. apply stable_ex. intros row. apply stable_and; [apply key_known_stable|apply stable_pure]. Qed.

Lemma createCredential_stores input issuer app expiresAt :
  ik_service input = None ->
  among (fun _ => True) (createCredential input issuer app expiresAt)
    (fun o s => match o with Some k => stored_as input issuer app expiresAt k s | None => True end).
Proof.
  intros Hsvc. apply among_statement; [intros [k|]; [apply stored_as_stable|apply stable_true]|]. intros e t Ht He _. cbv zeta.
  set (row := mkCredential _ _ _ _ _ _ _ _ _ _). destruct (key_refused row t); cbn [fst snd]; [by split; [apply moves_refl|]|]. split.
  - apply moves_insert_key; [apply He|by apply unseen_token|done].
  - exists row. split; [apply insert_known; [apply He|done]|]. rewrite Hsvc. by repeat (split; [done|]).
Qed.

Lemma issue_service_key_stores input svc issuer app expiresAt :
  ik_service input = Some svc ->
  among (fun _ => True) (issue_service_key svc issuer app expiresAt)
    (fun o s => match o with Some k => stored_as input issuer app expiresAt k s | None => True end).
Proof.
  intros Hsvc. apply among_statement; [intros [k|]; [apply stored_as_stable|apply stable_true]|]. intros e t Ht He _. cbv zeta.
  set (row := mkCredential _ _ _ _ _ _ _ _ _ _). destruct (key_refused row t); cbn [fst snd]; [by split; [apply moves_refl|]|].
  set (d := insert_grant _ _ _). assert (Hd : moves t (with_directory d t)).
  { apply moves_same; try done. intros id r. cbn. destruct (String.eqb_spec id (e_other e)) as [->|Hne]; [by intros [= <-]|]. apply (principals_keyed t Ht). }
  split.
  - eapply moves_trans; [exact Hd|]. apply moves_insert_key; [apply He|exact (unseen_token e t He)|apply Hd].
  - exists row. split; [apply insert_known; [apply He|apply Hd]|]. rewrite Hsvc. by repeat (split; [done|]).
Qed.

Lemma findUncoveredGrant_none permissions grants :
  findUncoveredGrant permissions grants = None <-> forall g, g ∈ grants -> permits permissions g.1 g.2 = true.
Proof.
  induction grants as [|g grants IH]; cbn; [split; [intros _ g Hg; by apply elem_of_nil in Hg|done]|].
  destruct (permits permissions g.1 g.2) eqn:E.
  - rewrite IH. split; [by intros Hg g' [->|?]%elem_of_cons; auto|intros Hg g' ?; apply Hg; by right].
  - split; [done|]. intros Hg. specialize (Hg g ltac:(by left)). congruence.
Qed.

(** Exact actions of the application's catalog, at a moment. *)
Definition cataloged (t : Iam) (app : string) (actions : list string) (s : Iam) : Prop :=
  Forall (fun act => Js.includes act "*" = false) actions /\ seen t (fun tm => Forall (fun act => act ∈ actionCatalog (directory tm) app) actions) s.

Lemma actionProblem_tells t app actions :
  among (fun s => advances t s) (actionProblem app actions) (fun o s => advances t s /\ (o = None -> cataloged t app actions s)).
Proof.
  unfold actionProblem. destruct (firstWildcard actions) eqn:Ew; [by apply among_done|].
  assert (Hw : Forall (fun act => Js.includes act "*" = false) actions).
  { apply List.Forall_forall. intros act Hin. exact (find_none _ _ Ew act Hin). }
  eapply among_weaken; [apply (among_sees t (fun s => advances t s) _
    (fun o tm => o = None -> Forall (fun act => act ∈ actionCatalog (directory tm) app) actions)); [apply since_stable|done|]|done|].
  - intros e s _ _. cbv beta. destruct (List.find _ actions) eqn:Ef; [done|]. intros _. apply List.Forall_forall. intros act Hin.
    pose proof (find_none _ _ Ef act Hin) as Hn. apply negb_false_iff in Hn. by apply elem_spec in Hn.
  - intros o s _ [Ha (tm & ? & ? & ? & Hc)]. split; [done|]. intros ->. split; [done|]. exists tm. repeat (split; [done|]). by apply Hc.
Qed.

(** The issuer holds each grant, until no earlier than the key's end. *)
Definition delegates (t : Iam) (issuer : Issuer) (app : string) (grants : list KeyGrant) (expiresAt : Z) (s : Iam) : Prop :=
  seen t (fun tm => exists now deadline, (forall d, deadline = Some d -> expiresAt <= d) /\
    @issuerAuthority (repositories (directory tm)) (Some (is_id issuer)) app None (map (fun g => mkDelegated g.1 [g.2]) grants) now = Some deadline) s.

Lemma delegatedExpiry_tells t issuer app grants requested :
  among (fun s => advances t s) (delegatedExpiry issuer app grants requested)
    (fun o s => match o with Some expiresAt => expiresAt <= requested /\ delegates t issuer app grants expiresAt s | None => True end).
Proof.
  unfold delegatedExpiry. eapply among_bind; [apply (among_sees t (fun s => advances t s) _ (fun o tm => exists now,
    @issuerAuthority (repositories (directory tm)) (Some (is_id issuer)) app None (map (fun g => mkDelegated g.1 [g.2]) grants) now = o)); [apply since_stable|done|]|].
  { intros e s _ _. by exists (e_now e). }
  intros [deadline|]; [|by apply among_done].
  set (K := seen t (fun tm => exists now, @issuerAuthority (repositories (directory tm)) (Some (is_id issuer)) app None (map (fun g => mkDelegated g.1 [g.2]) grants) now = Some deadline)).
  apply (among_pre K); [|by intros s _ [_ Hs]]. eapply among_bind; [apply (among_still K), clock_safe; apply seen_stable|]. intros now. cbv zeta.
  apply among_done. intros s _ (tm & ? & ? & ? & now' & Hi). destruct (now <? until deadline requested); [|done]. split.
  - unfold until. destruct deadline; lia.
  - exists tm. repeat (split; [done|]). exists now', deadline. split; [|done]. intros d ->. cbn. lia.
Qed.

(** What the grants of a key must be. *)
Definition granted_by (t : Iam) (input : IssueKeyInput) (issuer : Issuer) (app : string) (grants : list KeyGrant) (expiresAt : Z) (s : Iam) : Prop :=
  (forall g, g ∈ grants -> permits (is_permissions issuer) g.1 g.2 = true) /\ cataloged t app (map fst grants) s /\
  expiresAt <= ik_expiresAt input /\
  (ik_service input = None /\ ik_principalId input = Some (is_id issuer) \/ delegates t issuer app grants expiresAt s).

Lemma granted_by_stable t input issuer app grants expiresAt : stable (granted_by t input issuer app grants expiresAt).
Proof.
  apply stable_and; [apply stable_pure|]. apply stable_and; [apply stable_and; [apply stable_pure|apply seen_stable]|].
  apply stable_and; [apply stable_pure|]. apply stable_or; [apply stable_pure|apply seen_stable].
Qed.

Definition requested (input : IssueKeyInput) : list KeyGrant :=
  match ik_service input with Some svc => map (fun act => (act, sv_scope svc)) (sv_permissions svc) | None => ik_permissions input end.

Definition issue_tells (t : Iam) (input : IssueKeyInput) (issuer : Issuer) (app : string) (o : option (IssueRefusal + IssuedKey)) (s : Iam) : Prop :=
  forall k, o = Some (inr k) -> exists expiresAt, stored_as input issuer app expiresAt k s /\ granted_by t input issuer app (requested input) expiresAt s.

Lemma issue_refused t input issuer app K r : among K (mret (Some (inl r))) (issue_tells t input issuer app).
Proof. by apply among_done. Qed.

(** The last statement of an issue. *)
Lemma store_tells t input issuer app expiresAt (p : iam (option IssuedKey)) :
  among (fun _ => True) p (fun o s => match o with Some k => stored_as input issuer app expiresAt k s | None => True end) ->
  among (granted_by t input issuer app (requested input) expiresAt) (issued ← p; mret (option_map inr issued)) (issue_tells t input issuer app).
Proof.
  intros Hp. eapply among_bind; [eapply among_knowing; [apply granted_by_stable|exact Hp]|]. intros [k|]; apply among_done; [|done].
  intros s _ [Hs Hg] k' [= <-]. by exists expiresAt.
Qed.

Lemma issueServiceKey_tells t input svc issuer app :
  ik_service input = Some svc -> among (fun s => advances t s) (issueServiceKey svc (ik_expiresAt input) issuer app) (issue_tells t input issuer app).
Proof.
  intros Hsvc. unfold issueServiceKey. cbv zeta. set (grants := map _ (sv_permissions svc)). assert (Hreq : requested input = grants) by (unfold requested; by rewrite Hsvc).
  destruct (match grants with [] => true | _ => false end); [apply issue_refused|]. eapply among_bind; [apply actionProblem_tells|].
  intros [problem|]; [apply issue_refused|]. destruct (findUncoveredGrant _ _) eqn:Eg; [apply issue_refused|]. cbn [is_some]. pose proof (proj1 (findUncoveredGrant_none _ _) Eg) as Hper.
  apply (among_pre (fun s => advances t s /\ cataloged t app (sv_permissions svc) s)); [|by intros s _ [? Hc]; split; [|apply Hc]].
  eapply among_bind; [eapply among_keep; [|apply (delegatedExpiry_tells t)]; apply stable_and; [apply stable_pure|apply seen_stable]|].
  intros [expiresAt|]; [|apply issue_refused]. eapply among_weaken; [by apply store_tells, issue_service_key_stores| |done].
  intros s _ [[Hle Hd] Hc]. rewrite Hreq. split; [done|]. split; [|split; [done|by right]].
  replace (map fst grants) with (sv_permissions svc); [done|]. unfold grants. rewrite map_map. by rewrite map_id.
Qed.

Lemma issueOwnKey_tells t input issuer app :
  ik_service input = None -> among (fun s => advances t s) (issueOwnKey input issuer app) (issue_tells t input issuer app).
Proof.
  intros Hsvc. unfold issueOwnKey. assert (Hreq : requested input = ik_permissions input) by (unfold requested; by rewrite Hsvc).
  destruct (match ik_principalId input with Some _ => _ | None => _ end) eqn:Eid; [apply issue_refused|]. eapply among_bind; [apply actionProblem_tells|].
  intros [problem|]; [apply issue_refused|]. destruct (findUncoveredGrant _ _) eqn:Eg; [apply issue_refused|]. cbn [is_some]. pose proof (proj1 (findUncoveredGrant_none _ _) Eg) as Hper.
  set (C := cataloged t app (map fst (ik_permissions input))). assert (HC : stable C) by (apply stable_and; [apply stable_pure|apply seen_stable]).
  apply (among_pre (fun s => advances t s /\ C s)); [|by intros s _ [? Hc]; split; [|apply Hc]].
  apply (among_bind _ _ _ (fun o s => match o with Some expiresAt => granted_by t input issuer app (requested input) expiresAt s | None => True end)).
  - destruct (ik_principalId input) as [id|] eqn:Ei.
    + apply among_done. intros s _ [_ Hc]. rewrite Hreq. split; [done|]. split; [done|]. split; [lia|]. left. split; [done|].
      apply negb_false_iff, String.eqb_eq in Eid. by rewrite Ei, Eid.
    + eapply among_weaken; [eapply among_keep; [exact HC|apply (delegatedExpiry_tells t)]|done|]. intros [expiresAt|] s _ [Hd Hc]; [|done].
      destruct Hd as [Hle Hd]. rewrite Hreq. split; [done|]. split; [done|]. split; [done|by right].
  - intros [expiresAt|]; [|apply issue_refused]. by apply store_tells, createCredential_stores.
Qed.

(** Who may issue it: its own key, or an internal principal. *)
Definition may_issue (t : Iam) (input : IssueKeyInput) (issuer : Issuer) (s : Iam) : Prop :=
  ik_service input = None /\ ik_principalId input = Some (is_id issuer) \/
  seen t (fun tm => exists p, principal_at (is_id issuer) p tm /\ pr_affiliation p = Internal) s.

Lemma issueKey_tells t input issuer app :
  among (fun s => advances t s) (issueKey input issuer app)
    (fun o s => issue_tells t input issuer app o s /\ forall k, o = Some (inr k) -> may_issue t input issuer s /\
       exists now, now < ik_expiresAt input /\ ik_expiresAt input <= now + MAX_KEY_LIFETIME_SECONDS).
Proof.
  unfold issueKey. eapply among_bind; [apply (among_still (fun s => advances t s)), clock_safe; apply since_stable|]. intros now.
  destruct (keyExpiryProblem (ik_expiresAt input) now) as [problem|] eqn:Ek; [by apply among_done|]. cbv zeta.
  assert (Hexp : now < ik_expiresAt input /\ ik_expiresAt input <= now + MAX_KEY_LIFETIME_SECONDS).
  { unfold keyExpiryProblem in Ek. destruct (negb _ || _) eqn:E1; [done|]. destruct (_ <? _) eqn:E2; [done|].
    apply orb_false_iff in E1 as [_ E1]. apply Z.leb_gt in E1. apply Z.ltb_ge in E2. lia. }
  apply (among_bind _ _ _ (fun internal s => advances t s /\ (internal = true -> may_issue t input issuer s))).
  - destruct (negb (is_some (ik_service input)) && bool_decide (ik_principalId input = Some (is_id issuer))) eqn:Es.
    + apply among_done. intros s _ Ha. split; [done|]. intros _. left. apply andb_true_iff in Es as [Es Ep]. apply bool_decide_eq_true in Ep.
      split; [by destruct (ik_service input)|done].
    + eapply among_bind; [apply (among_sees t (fun s => advances t s) _ (fun o tm => forall p, o = Some p -> principal_at (is_id issuer) p tm)); [apply since_stable|done|done]|].
      intros o. apply among_done. intros s _ [Ha (tm & ? & ? & ? & Hp)]. split; [done|]. intros Hi. right. destruct o as [p|]; [|done].
      cbn in Hi. apply bool_decide_eq_true in Hi. exists tm. repeat (split; [done|]). exists p. split; [by apply Hp|done].
  - intros [|]; cbn [negb]; [|by apply among_done].
    set (M := may_issue t input issuer). assert (HM : stable M) by (apply stable_or; [apply stable_pure|apply seen_stable]).
    eapply (among_weaken (fun s => advances t s /\ M s) _ _ (fun o s => issue_tells t input issuer app o s /\ M s));
      [|by intros s _ [? Hm]; split; [|apply Hm]|intros o s _ [Ho Hm]; split; [done|]; intros k _; split; [done|by exists now]].
    apply among_keep; [done|]. destruct (ik_service input) as [svc|] eqn:Esvc; [by apply issueServiceKey_tells|by apply issueOwnKey_tells].
Qed.

(** A key carries no more than its issuer may give. Whatever else runs: when [issueKey] answers a key, its row is of
    this application, of the issuer, ends at most thirty days ahead and no later than asked; every action it lists is an
    exact one of the application's catalog and permitted to the issuer in its scope; and unless the key is the issuer's
    own, bound to itself, its issuer is internal, holds each grant live and the key ends with them. *)
Theorem issued_key_is_delegated (t t' : Iam) (input : IssueKeyInput) (issuer : Issuer) (app : string) (k : IssuedKey) :
  consistent t -> runs (issueKey input issuer app) t (Some (inr k)) t' ->
  may_issue t input issuer t' /\
  (exists now, now < ik_expiresAt input /\ ik_expiresAt input <= now + MAX_KEY_LIFETIME_SECONDS) /\
  exists expiresAt, stored_as input issuer app expiresAt k t' /\ granted_by t input issuer app (requested input) expiresAt t'.
Proof.
  intros Ht Hr. destruct (runs_sound _ _ _ _ _ _ (issueKey_tells t input issuer app) Ht ltac:(reflexivity) Hr) as (_ & _ & Hi & Hm).
  destruct (Hm k eq_refl) as [? ?]. split; [done|]. split; [done|]. by apply Hi.
Qed.

End MintProperties.

(** ** Witnesses *)
Module MintDemo.
Import SignInDemo.

#[export] Instance provisioning : Provisioning := {| provisioningKey := "" |}.

(** The token of the session [SignInDemo] exchanged, which ends with Alice's grant. *)
Definition minting : iam (option MintOutcome) := mintToken (letters 900) "shop".

Definition mint_out : MintOutcome := mkMint (inr ("signed.p1", 1100)) (Some "p1") None.

Lemma minting_runs : runs minting exchanged (Some mint_out) (exec env 10 minting exchanged).2.
Proof.
  destruct (alone _ minting _ 10 exchanged (mintToken_tells exchanged (letters 900) "shop") (proj2 exchanging_runs)) as (Hr & _);
    [reflexivity|vm_compute; reflexivity|].
  replace (Some mint_out) with (exec env 10 minting exchanged).1; [done|]. vm_compute. reflexivity.
Qed.

(** Alice issues a key of nobody with what she may read. *)
Definition issuing : IssueKeyInput := mkIssueKey None None [("task.read", None)] (Some "ci") 2000.
Definition issuer_alice : Issuer := mkIssuer "p1" [mkEntry "task.read" None SourceGrant].
Definition key : IssuedKey := mkIssued (with_token (letters 1600)) "id-15" None.
Definition issued : Iam := (exec env 10 (issueKey issuing issuer_alice "shop") exchanged).2.

Lemma issuing_runs : runs (issueKey issuing issuer_alice "shop") exchanged (Some (inr key)) issued /\ consistent issued.
Proof.
  destruct (alone _ (issueKey issuing issuer_alice "shop") _ 10 exchanged (issueKey_tells exchanged issuing issuer_alice "shop") (proj2 exchanging_runs))
    as (Hr & Hc & _); [reflexivity|vm_compute; reflexivity|]. split; [|done].
  replace (Some (inr key)) with (exec env 10 (issueKey issuing issuer_alice "shop") exchanged).1; [done|]. vm_compute. reflexivity.
Qed.

Definition key_minting : iam (option MintFromKeyOutcome) := mintFromKey (ko_token key) "shop".

Definition key_out : MintFromKeyOutcome := mkMintFromKey (inr ("signed.id-15", 1100)) None (Some "id-15").

Lemma key_minting_runs : runs key_minting issued (Some key_out) (exec env 20 key_minting issued).2.
Proof.
  destruct (alone _ key_minting _ 20 issued (mintFromKey_tells issued (ko_token key) "shop") (proj2 issuing_runs)) as (Hr & _);
    [reflexivity|vm_compute; reflexivity|].
  replace (Some key_out) with (exec env 20 key_minting issued).1; [done|]. vm_compute. reflexivity.
Qed.

End MintDemo.

Section MintWitnesses.
Import SignInDemo MintDemo.

Lemma narrow_intersects_witness :
  permits (narrowPermissions [mkEntry "task.*" None SourceGrant] [("task.read", None); ("user.*", None)]) "task.read" None = true.
Proof.
  rewrite (proj2 (narrow_intersects [mkEntry "task.*" None SourceGrant] [("task.read", None); ("user.*", None)] "task.read" None)); [reflexivity| |];
    repeat constructor.
Defined.

Lemma mint_attenuates_witness :
  runs minting exchanged (Some mint_out) (exec env 10 minting exchanged).2 /\
  exists row authority onTerminal claims,
    usable_session exchanged (letters 900) "shop" row (exec env 10 minting exchanged).2 /\
    session_authority exchanged "shop" row authority onTerminal (exec env 10 minting exchanged).2 /\
    jwt_sign claims = "signed.p1" /\ perms claims = session_permissions authority onTerminal /\ 1100 <= se_expires row.
Proof.
  split; [exact minting_runs|].
  destruct (mint_attenuates exchanged _ (letters 900) "shop" mint_out "signed.p1" 1100 (proj2 exchanging_runs) minting_runs eq_refl)
    as (row & authority & onTerminal & now & claims & Hu & Ha & Et & _ & _ & _ & _ & Hp & Hle & _).
  exists row, authority, onTerminal, claims. by rewrite <- Et.
Defined.

Lemma key_attenuates_witness :
  runs key_minting issued (Some key_out) (exec env 20 key_minting issued).2 /\
  exists cred rc, usable_key issued (ko_token key) cred (exec env 20 key_minting issued).2 /\
    key_backed issued cred "shop" rc (exec env 20 key_minting issued).2 /\ forall deadline, rc_expiresAt rc = Some deadline -> 1100 <= deadline.
Proof.
  split; [exact key_minting_runs|].
  destruct (key_attenuates issued _ (ko_token key) "shop" key_out "signed.id-15" 1100 (proj2 issuing_runs) key_minting_runs eq_refl)
    as (cred & rc & now & claims & Hu & Hb & _ & _ & _ & _ & _ & _ & _ & _ & Hd). by exists cred, rc.
Defined.

Lemma issued_key_is_delegated_witness :
  runs (issueKey issuing issuer_alice "shop") exchanged (Some (inr key)) issued /\
  exists expiresAt, stored_as issuing issuer_alice "shop" expiresAt key issued /\ expiresAt <= 2000.
Proof.
  split; [exact (proj1 issuing_runs)|].
  destruct (issued_key_is_delegated exchanged issued issuing issuer_alice "shop" key (proj2 exchanging_runs) (proj1 issuing_runs))
    as (_ & _ & expiresAt & Hs & _ & _ & Hle & _). by exists expiresAt.
Defined.

End MintWitnesses.
