(* ===== verification/Handlers.v ===== *)
(** IAM's handlers at once: every program of [SignIn] and [Mint], in any number, their steps interleaved in any order with
    each other's and with what the rest of IAM writes.

    [handler] lists the programs as [index.ts], [auth/routes.ts], [admin/router.ts] and [cron.ts] start them; a history is a
    path of [pool_step]. *)

From S2P Require Import Prelude Permissions Credentials Token Authority Interleave Sessions SignIn Mint.
From Stdlib Require Import ZArith Lia String Ascii.
From stdpp Require Import base tactics strings gmap list relations.

Open Scope Z_scope.

Section Handlers.
Context `{Hashing, Addresses, Installation, UrlParser, Signing, Provisioning}.

(** A program whose answer goes to its caller. *)
Definition run {A} (p : iam A) : iam unit := _ ← p; mret tt.

Inductive handler : iam unit -> Prop :=
| on_login request : handler (run (handleLogin request))
| on_account_choice request : handler (run (handleAccountChoice request))
| on_signed_in input : login_input input -> (subjectless (li_method input) = false -> li_idp_sub input <> None) -> handler (run (issueSession input))
| on_refused principal reason reply : handler (run (refuseLogin principal reason reply))
| on_logout request : handler (run (handleLogout request))
| on_exchange input : handler (run (exchangeAuthCode input))
| on_enrolment post request : handler (run (handleTerminalEnrolment post request))
| on_completion request : handler (run (handleTerminalCompletion request))
| on_release request : handler (run (handleTerminalRelease request))
| on_inspect caller id : handler (run (inspectIdentification caller id))
| on_assert caller id person : handler (run (assertIdentity caller id person))
| on_cancel caller id : handler (run (cancelIdentification caller id))
| on_revoke_session administration id : handler (run (revokeSessionUseCase administration id))
| on_revoke_sessions administration id : handler (run (revokeSessionsForPrincipalUseCase administration id))
| on_password_change id : handler (run (revokePasswordSessions id))
| on_terminal_profile id label ttl asserters : handler (run (setTerminalProfileUseCase id label ttl asserters))
| on_terminal_revoked id : handler (run (revokeTerminalUseCase id))
| on_mint secret app : handler (run (mintToken secret app))
| on_mint_key key app : handler (run (mintFromKey key app))
| on_mint_workload key app : handler (run (mintFromWorkloadKey key app))
| on_caller app credential : handler (run (resolveCaller app credential))
| on_issue input issuer app : handler (run (issueKey input issuer app))
| on_revoke_key id revoker app : handler (run (revokeKey id revoker app))
| on_revoke_keys id keep : handler (run (revokeCredentialsForPrincipal id keep))
| on_sweep sweep now : sweep ∈ sweeps -> handler (run (sweep now)).

(** What the rest of IAM writes: other tables, and the directory. *)
Definition elsewhere (t t' : Iam) : Prop :=
  sessions t' = sessions t /\ codes t' = codes t /\ terminals t' = terminals t /\ identifications t' = identifications t /\
  credentials t' = credentials t /\ used t ⊆ used t' /\ keyed (directory t').

(** A history, from a state with nothing in flight or a later one. *)
Definition history : relation (Iam * list (iam unit)) := rtc (pool_step handler elsewhere).

(** ** All keep the discipline *)

Lemma run_safe {A} (p : iam A) : safe p -> among (fun _ => True) (run p) (fun _ _ => True).
Proof. intros Hp. apply (among_bind _ _ _ (fun _ _ => True)); [exact Hp|]. intros. by apply among_done. Qed.

Lemma tells_safe {A} (p : iam A) (Q : Iam -> A -> Iam -> Prop) : (forall t, among (fun s => advances t s) p (Q t)) -> safe p.
Proof.
  intros Hp. eapply among_pre; [apply (among_exists (fun t s => advances t s))|].
  - intros t. eapply among_weaken; [apply Hp|done|done].
  - intros s _ _. by exists s.
Qed.

Lemma revokeCredential_safe P id : among P (revokeCredential id) (fun _ _ => True).
Proof. apply among_step. intros e t Ht _ _. by apply moves_revoke_keys. Qed.

Lemma revokeCredentialsForPrincipal_safe P id keep : among P (revokeCredentialsForPrincipal id keep) (fun _ _ => True).
Proof. apply among_step. intros e t Ht _ _. by apply moves_revoke_keys. Qed.

Lemma resolveCredential_safe cred app : safe (resolveCredential cred app).
Proof. eapply tells_safe. intros t. apply resolveCredential_tells. Qed.

Lemma mintFromWorkloadKey_safe key app : safe (mintFromWorkloadKey key app).
Proof.
  unfold mintFromWorkloadKey, safe. apply (among_bind _ _ _ (fun _ _ => True)); [apply among_any|]. intros [cred|]; [|by apply among_done].
  destruct (cr_principal cred); [|by apply among_done]. destruct (negb _); [by apply among_done|].
  apply (among_bind _ _ _ (fun _ _ => True)); [apply among_any|]. intros [workload|]; [|by apply among_done]. destruct (_ || _); [by apply among_done|].
  apply (among_bind _ _ _ (fun _ _ => True)); [apply resolveCredential_safe|]. intros [reason|effective]; [by apply among_done|].
  destruct (negb _); [by apply among_done|]. apply (among_bind _ _ _ (fun _ _ => True)); [apply among_any|]. intros now. by apply among_done.
Qed.

Lemma resolveCaller_safe app credential : safe (resolveCaller app credential).
Proof.
  unfold resolveCaller, resolveAnyCaller, safe. apply (among_bind _ _ _ (fun _ _ => True)); [|intros; by apply among_done].
  destruct credential as [credential|]; [|by apply among_done]. destruct (Js.startsWith _ _); [|apply among_any]. cbv zeta.
  destruct (_ && _); [by apply among_done|]. apply (among_bind _ _ _ (fun _ _ => True)); [apply among_any|]. intros [cred|]; [|by apply among_done].
  apply (among_bind _ _ _ (fun _ _ => True)); [apply resolveCredential_safe|]. intros eff. by apply among_done.
Qed.

Lemma revokeKey_safe id revoker app : safe (revokeKey id revoker app).
Proof.
  unfold revokeKey, safe. apply (among_bind _ _ _ (fun _ _ => True)); [apply among_any|]. intros [cred|]; [|by apply among_done].
  destruct (negb _); [by apply among_done|]. apply (among_bind _ _ _ (fun _ _ => True)).
  - destruct (bool_decide _); [by apply among_done|]. destruct (is_some _); [by apply among_done|].
    apply (among_bind _ _ _ (fun _ _ => True)); [apply among_any|]. intros. by apply among_done.
  - intros []; [by apply among_done|]. apply (among_bind _ _ _ (fun _ _ => True)); [apply revokeCredential_safe|]. intros. by apply among_done.
Qed.

Lemma handler_safe p : handler p -> among (fun _ => True) p (fun _ _ => True).
Proof.
  intros Hp. destruct Hp; apply run_safe.
  - apply handleLogin_safe.
  - apply handleAccountChoice_safe.
  - by apply issueSession_safe.
  - apply refuseLogin_safe.
  - apply handleLogout_safe.
  - eapply among_forget, (exchange_tells _ None).
  - apply handleTerminalEnrolment_safe.
  - apply handleTerminalCompletion_safe.
  - apply handleTerminalRelease_safe.
  - apply inspectIdentification_safe.
  - apply assertIdentity_safe.
  - apply cancelIdentification_safe.
  - apply revokeSessionUseCase_safe.
  - apply revokeSessionsForPrincipalUseCase_safe.
  - apply revokePasswordSessions_safe.
  - apply setTerminalProfileUseCase_safe.
  - apply revokeTerminalUseCase_safe.
  - eapply tells_safe. intros t. apply mintToken_tells.
  - eapply tells_safe. intros t. apply mintFromKey_tells.
  - apply mintFromWorkloadKey_safe.
  - apply resolveCaller_safe.
  - eapply tells_safe. intros t. apply issueKey_tells.
  - apply revokeKey_safe.
  - apply revokeCredentialsForPrincipal_safe.
  - by apply sweeps_safe.
Qed.

Lemma elsewhere_moves t t' : consistent t -> elsewhere t t' -> consistent t' /\ advances t t'.
Proof. intros Ht (Es & Ec & Et & Ei & Ek & Hu & Hd). by apply moves_same. Qed.

Lemma history_keeps c c' :
  consistent c.1 -> Forall (in_flight c.1) c.2 -> history c c' -> consistent c'.1 /\ advances c.1 c'.1 /\ Forall (in_flight c'.1) c'.2.
Proof. intros Hc Hps Hh. exact (pool_safe handler elsewhere c c' handler_safe elsewhere_moves Hc Hps Hh). Qed.

(** ** The end of a login *)

(** A program's first step alone. *)
Definition after {A} (p : iam A) (e : Surroundings) (t : Iam) : Iam := match p with Done _ => t | Await o _ => (o e t).2 end.

Lemma after_moves {A} (p : iam A) e t : among (fun _ => True) p (fun _ _ => True) -> consistent t -> unseen e t -> moves t (after p e t).
Proof. destruct p as [a|B o k]; cbn; [by intros; apply moves_refl|]. intros (R & _ & Ho & _) Ht He. by destruct (Ho e t Ht He I) as (? & ? & _). Qed.

(** The statements that end a login: a sign-out, an administrator's, a password's change, its terminal's release or
    revocation, an enrolment. *)
Inductive ended_by (l : SessionRow) (e : Surroundings) (t : Iam) : Iam -> Prop :=
| by_sign_out log : ended_by l e t (after (revokeSessionByHash (se_hash l) log) e t)
| by_administrator : ended_by l e t (after (revokeSessionById (se_id l)) e t)
| by_sign_out_everywhere : ended_by l e t (after (revokeSessionsForPrincipal (se_principal l)) e t)
| by_password : se_method l = Password -> ended_by l e t (after (revokePasswordSessions (se_principal l)) e t)
| by_release terminal log : se_terminal l = Some terminal -> ended_by l e t (after (release terminal log) e t)
| by_revoked_terminal terminal : se_terminal l = Some terminal -> ended_by l e t (after (revokeTerminal terminal) e t)
| by_enrolment label principal : ended_by l e t (after (enrol_batch label l principal) e t).

Lemma revoked_over p now l t t' :
  consistent t -> l ∈ sessions t -> p l = true -> sessions t' = sessions (revoke_sessions p now t) -> used t ⊆ used t' -> over (se_id l) t'.
Proof.
  intros Ht Hl Hp Es Hu. split; [by apply Hu, (sessions_used t Ht)|]. intros l' Hl' Eid. rewrite Es in Hl'.
  apply list_elem_of_fmap in Hl' as (s & -> & Hs). left.
  assert (s = l) as ->.
  { apply (unique_id t); try done. rewrite <- Eid. by destruct (revocable p s). }
  unfold revocable. rewrite Hp. cbn. by destruct (se_revoked l) eqn:Er; cbn; rewrite ?Er.
Qed.

Lemma ended_over l e t t' : consistent t -> unseen e t -> l ∈ sessions t -> ended_by l e t t' -> moves t t' /\ over (se_id l) t'.
Proof.
  intros Ht He Hl Hend. assert (Hm : moves t t').
  { destruct Hend; apply after_moves; try done; [apply revokeSessionByHash_safe|apply revokeSessionById_safe|apply revokeSessionsForPrincipal_safe
      |apply revokePasswordSessions_safe|apply release_safe|apply revokeTerminal_safe|apply enrol_batch_safe]. }
  split; [done|]. pose proof (adv_used _ _ (proj2 Hm)) as Hu. destruct Hend as [log| | |Em|terminal log Et|terminal Et|label principal].
  - apply (revoked_over (fun s => (se_hash s =? se_hash l)%string) (e_now e) l t); try done; [apply String.eqb_refl|]. by destruct log as [[? ?]|].
  - apply (revoked_over (fun s => (se_id s =? se_id l)%string) (e_now e) l t); try done. apply String.eqb_refl.
  - apply (revoked_over (fun s => (se_principal s =? se_principal l)%string) (e_now e) l t); try done. apply String.eqb_refl.
  - apply (revoked_over (fun s => (se_principal s =? se_principal l)%string && bool_decide (se_method s = Password)) (e_now e) l t); try done.
    by rewrite String.eqb_refl, bool_decide_eq_true_2.
  - apply (revoked_over (on_terminal terminal) (e_now e) l t); try done; [by apply bool_decide_eq_true_2|]. by destruct log as [[? ?]|].
  - apply (revoked_over (on_terminal terminal) (e_now e) l t); try done; [by apply bool_decide_eq_true_2|].
    cbn. destruct (terminals t !! terminal) as [r|]; [|done]. by destruct (te_revoked r).
  - apply (revoked_over (fun s => (se_id s =? se_id l)%string) (e_now e) l t); try done. apply String.eqb_refl.
Qed.

(** A secret that stands on the login, whatever is stored meanwhile. *)
Lemma over_no_mint login s secret app t t' out :
  consistent t -> over login t -> s ∈ sessions t -> stands_on login s -> hashToken secret = se_hash s ->
  runs (mintToken secret app) t (Some out) t' -> exists reason, mo_result out = inl reason.
Proof.
  intros Ht Hover Hs Hon Hsec Hr. destruct (mo_result out) as [reason|[token expiresAt]] eqn:Eo; [by exists reason|]. exfalso.
  destruct (runs_sound _ _ _ _ _ _ (mintToken_tells t secret app) Ht ltac:(reflexivity) Hr) as (_ & _ & Htells).
  destruct (Htells out token expiresAt eq_refl Eo) as (row & _ & _ & ((tm & Htm & Ha & _ & Hrow & now & Hact) & Hhash & _) & _).
  assert (Hon' : stands_on login row).
  { destruct (adv_sessions _ _ Ha row Hrow) as [(s0 & Hs0 & Hag)|[_ Hn]].
    - assert (s0 = s) as ->.
      { apply (unique_hash t); try done. rewrite <- Hsec, <- Hhash. by rewrite (ages_static _ _ Hag). }
      rewrite (ages_static _ _ Hag). exact Hon.
    - exfalso. apply Hn. rewrite Hhash, Hsec. by apply (sessions_used t Ht). }
  pose proof (over_stable login t tm Ht Htm Ha Hover) as Hover'. by rewrite (over_inactive login now tm row Htm Hover' Hrow Hon') in Hact.
Qed.

(** C4. Once a login ends, it is over everywhere, for good. Take any history of IAM's handlers, and in it any statement
    that ends a login: a sign-out, an administrator's revocation, a password's change, its terminal's release or
    revocation, an enrolment. In whatever state the handlers then in flight and later ones reach, in any order of their
    steps, no session that stands on that login is active: not it, not the sessions handed off from it, not one an
    exchange in flight created after the end; and no secret of such a session mints a token. *)
Theorem ended_login_is_over (t0 t t1 : Iam) (ps : list (iam unit)) (c : Iam * list (iam unit)) (e : Surroundings) (l : SessionRow) :
  consistent t0 -> history (t0, []) (t, ps) -> l ∈ sessions t -> unseen e t -> ended_by l e t t1 -> history (t1, ps) c ->
  forall s, s ∈ sessions c.1 -> stands_on (se_id l) s ->
    (forall now, active now c.1 s = false) /\
    forall secret app out t', hashToken secret = se_hash s -> runs (mintToken secret app) c.1 (Some out) t' -> exists reason, mo_result out = inl reason.
Proof.
  intros Ht0 Hh Hl He Hend Hh' s Hs Hon. destruct (history_keeps (t0, []) (t, ps) Ht0 (List.Forall_nil _) Hh) as (Ht & _ & Hps). cbn in Ht, Hps.
  destruct (ended_over l e t t1 Ht He Hl Hend) as [[Ht1 Ha1] Hover].
  assert (Hps1 : Forall (in_flight t1) ps) by (eapply Forall_impl; [exact Hps|]; intros p; by apply in_flight_stable).
  destruct (history_keeps (t1, ps) c Ht1 Hps1 Hh') as (Hc & Ha & _). cbn in Ha.
  pose proof (over_stable (se_id l) t1 c.1 Ht1 Hc Ha Hover) as Hov. split.
  - intros now. by apply (over_inactive (se_id l)).
  - intros secret app out t' Hsec Hr. by apply (over_no_mint (se_id l) s secret app c.1 t').
Qed.

End Handlers.

(** ** Witnesses *)
Section HandlersWitnesses.
Import SignInDemo MintDemo.

(** Alice's login of [SignInDemo], and the session exchanged for it. *)
Definition alice_login : SessionRow := hd (session_row "" "" 0 (mkNewSession "" None None Oidc 0 None None None None)) (sessions exchanged).
Definition alice_child : SessionRow := List.last (sessions exchanged) alice_login.

Lemma ended_login_is_over_witness :
  active 1010 exchanged alice_child = true /\
  active 1010 (after (revokeSessionById (se_id alice_login)) (env 10) exchanged) alice_child = false.
Proof.
  split; [vm_compute; reflexivity|].
  refine (proj1 (ended_login_is_over exchanged exchanged (after (revokeSessionById (se_id alice_login)) (env 10) exchanged) []
    (after (revokeSessionById (se_id alice_login)) (env 10) exchanged, []) (env 10) alice_login
    (proj2 exchanging_runs) (rtc_refl _ _) _ _ (by_administrator _ _ _) (rtc_refl _ _) alice_child _ _) 1010).
  - apply list_elem_of_In. vm_compute. left. reflexivity.
  - apply fresh_unseen; [exact (proj2 exchanging_runs)|vm_compute; reflexivity].
  - apply list_elem_of_In. vm_compute. right. left. reflexivity.
  - right. vm_compute. reflexivity.
Defined.

End HandlersWitnesses.
