(* ===== verification/Locks.v ===== *)
(** Leases: one row per key, and the holder that keeps it alive.

    [SqlDeployLocks] ([platform/src/deploy-locks-sql.ts]) is three single statements over a table of leases;
    [HeldLease] ([control/src/lease.ts]) renews its row and stops acting at a local deadline. The table is explicit
    state; a system of holders, each with its own clock, is a step relation. *)

From S2P Require Import Prelude.
From Stdlib Require Import ZArith Lia String Ascii.
From stdpp Require Import base tactics strings gmap list.

(** ** The lease table *)

Record LockRow := mkLock { lock_holder : string; lock_expires_at : Z }.
Definition LockTable : Type := gmap string LockRow.

(** [INSERT … ON CONFLICT (lock_key) DO UPDATE … WHERE expires_at <= ?]; the result is [changes > 0]. *)
Definition acquire (key holder : string) (ttlMs now : Z) (t : LockTable) : bool * LockTable :=
  let row := mkLock holder (now + ttlMs) in
  match t !! key with
  | None => (true, <[key := row]> t)
  | Some old => if (lock_expires_at old <=? now)%Z then (true, <[key := row]> t) else (false, t)
  end.

(** Whether [holder] holds a live lease of [key] at [now]. *)
Definition lease_live (key holder : string) (now : Z) (t : LockTable) : bool :=
  match t !! key with
  | Some old => (lock_holder old =? holder)%string && (now <? lock_expires_at old)%Z
  | None => false
  end.

Definition renew (key holder : string) (ttlMs now : Z) (t : LockTable) : bool * LockTable :=
  if lease_live key holder now t then (true, <[key := mkLock holder (now + ttlMs)]> t) else (false, t).

Definition release (key holder : string) (t : LockTable) : LockTable :=
  match t !! key with
  | Some old => if (lock_holder old =? holder)%string then delete key t else t
  | None => t
  end.

(** [IDENTIFIER]: a table name is interpolated into the statements. *)
Definition is_identifier (table : string) : bool :=
  match table with
  | EmptyString => false
  | String c rest =>
      (Js.is_letter c || Ascii.eqb c "_") && Js.forall_units (fun d => Js.is_letter d || Ascii.eqb d "_" || Js.is_digit d) rest
  end.

(** ** The holder *)

Definition LEASE_TTL_MS : Z := 90000.
Definition LEASE_RENEW_MS : Z := 30000.
Definition LOCAL_TTL_MS : Z := LEASE_TTL_MS - LEASE_RENEW_MS.

Definition runLeaseKey (appId env : string) : string := appId +:+ ":" +:+ env.
Definition namespaceLeaseKey (namespaceId : string) : string := "namespace:" +:+ namespaceId.
Definition CATALOG_LEASE_KEY : string := "operations-catalog-projection".

Inductive AbortKind := lease_lost | cancel_requested.

(** [HeldLease]: the aborted signal, the local deadline, and the renewal in flight, by the time it started at; the flag
    says whether the store has already renewed the row for it. *)
Record HeldLease := mkHeldLease {
  hl_key : string;
  hl_holder : string;
  hl_deadline : Z;
  hl_aborted : bool;
  hl_renewing : option (Z * bool);
}.

(** [new HeldLease(…, acquiredAt)] *)
Definition new_HeldLease (key holder : string) (acquiredAt : Z) : HeldLease :=
  mkHeldLease key holder (acquiredAt + LOCAL_TTL_MS) false None.

Definition abandon (l : HeldLease) : HeldLease := mkHeldLease (hl_key l) (hl_holder l) (hl_deadline l) true (hl_renewing l).

(** Throws [lease_lost] unless the lease is still held. *)
Definition assertHeld (now : Z) (l : HeldLease) : (AbortKind + unit) * HeldLease :=
  let l := if (hl_deadline l <=? now)%Z then abandon l else l in
  if hl_aborted l then (inl lease_lost, l) else (inr tt, l).

Record LeaseFence := mkFence { fence_holder : string; fence_nowMs : Z }.

(** The clock is read twice. *)
Definition fence (now now' : Z) (l : HeldLease) : (AbortKind + LeaseFence) * HeldLease :=
  match assertHeld now l with
  | (inl x, l) => (inl x, l)
  | (inr _, l) => (inr (mkFence (hl_holder l) now'), l)
  end.

Definition assertWritten (changed : bool) (l : HeldLease) : (AbortKind + unit) * HeldLease :=
  if changed then (inr tt, l) else (inl lease_lost, abandon l).

(** One turn of [renewLoop], after its wait: it breaks, and abandons, at or past the deadline. *)
Definition renew_start (started : Z) (l : HeldLease) : HeldLease :=
  if hl_aborted l then l
  else if (hl_deadline l <=? started)%Z then abandon l
  else mkHeldLease (hl_key l) (hl_holder l) (hl_deadline l) false (Some (started, false)).

(** The statement [renew] of the turn in flight, at the store. *)
Definition renew_at_store (now : Z) (l : HeldLease) (t : LockTable) : HeldLease * LockTable :=
  match hl_renewing l with
  | Some (started, false) =>
      match renew (hl_key l) (hl_holder l) LEASE_TTL_MS now t with
      | (true, t) => (mkHeldLease (hl_key l) (hl_holder l) (hl_deadline l) (hl_aborted l) (Some (started, true)), t)
      | (false, t) => (mkHeldLease (hl_key l) (hl_holder l) (hl_deadline l) true None, t)
      end
  | _ => (l, t)
  end.

(** The answer arrives before the race's timeout: the deadline moves on from when the turn started. *)
Definition renew_answer (l : HeldLease) : HeldLease :=
  match hl_renewing l with
  | Some (started, true) => mkHeldLease (hl_key l) (hl_holder l) (started + LOCAL_TTL_MS) (hl_aborted l) None
  | _ => l
  end.

(** Whether the holder still acts: [assertHeld] passes. *)
Definition acts (now : Z) (l : HeldLease) : bool := negb (hl_aborted l) && (now <? hl_deadline l)%Z.

Lemma assertHeld_acts now l : (assertHeld now l).1 = inr tt <-> acts now l = true.
Proof.
  unfold assertHeld, acts. destruct (Z.leb_spec (hl_deadline l) now), (Z.ltb_spec now (hl_deadline l)); try lia;
    destruct (hl_aborted l) eqn:E; cbn; rewrite ?E; split; done.
Qed.

(** ** A system of holders

    Each holder's process has its own clock, a fixed distance from the true time. A holder's name is a fresh UUID. *)

Record World := mkWorld { time : Z; table : LockTable; leases : gmap string (Z * HeldLease) }.

Definition clock (w : World) (skew : Z) : Z := (time w + skew)%Z.

Section System.
(** Clocks are at most this far from the true time. *)
Context (max_skew : Z).

Inductive step : World -> World -> Prop :=
| step_tick w t : (time w <= t)%Z -> step w (mkWorld t (table w) (leases w))
| step_acquire w key holder skew acquiredAt t :
    (Z.abs skew <= max_skew)%Z -> leases w !! holder = None -> (acquiredAt <= clock w skew)%Z ->
    acquire key holder LEASE_TTL_MS (clock w skew) (table w) = (true, t) ->
    step w (mkWorld (time w) t (<[holder := (skew, new_HeldLease key holder acquiredAt)]> (leases w)))
| step_acquire_refused w key holder skew t :
    acquire key holder LEASE_TTL_MS (clock w skew) (table w) = (false, t) -> step w (mkWorld (time w) t (leases w))
| step_renew_start w holder skew l :
    leases w !! holder = Some (skew, l) -> hl_renewing l = None ->
    step w (mkWorld (time w) (table w) (<[holder := (skew, renew_start (clock w skew) l)]> (leases w)))
| step_renew_at_store w holder skew l l' t :
    leases w !! holder = Some (skew, l) -> renew_at_store (clock w skew) l (table w) = (l', t) ->
    step w (mkWorld (time w) t (<[holder := (skew, l')]> (leases w)))
| step_renew_answer w holder skew l :
    leases w !! holder = Some (skew, l) ->
    step w (mkWorld (time w) (table w) (<[holder := (skew, renew_answer l)]> (leases w)))
| step_abandon w holder skew l :
    leases w !! holder = Some (skew, l) ->
    step w (mkWorld (time w) (table w) (<[holder := (skew, abandon l)]> (leases w)))
| step_release w holder skew l :
    leases w !! holder = Some (skew, l) -> hl_aborted l = true ->
    step w (mkWorld (time w) (release (hl_key l) holder (table w)) (leases w)).

Definition initial (w : World) : Prop := leases w = ∅.

Inductive reachable : World -> Prop :=
| reachable_initial w : initial w -> reachable w
| reachable_step w w' : reachable w -> step w w' -> reachable w'.

(** The row still is the holder's, live past every deadline it has or may still get; or its clock is past them all. *)
Definition backed (w : World) (holder : string) (skew : Z) (l : HeldLease) : Prop :=
  (exists expires, table w !! hl_key l = Some (mkLock holder expires) /\
     (hl_deadline l + LEASE_RENEW_MS <= expires)%Z /\
     (forall started, hl_renewing l = Some (started, true) -> (started + LEASE_TTL_MS <= expires)%Z)) \/
  ((hl_deadline l <= clock w skew)%Z /\
   (forall started, hl_renewing l = Some (started, true) -> (started + LOCAL_TTL_MS <= clock w skew)%Z)).

Record lease_ok (w : World) (holder : string) (skew : Z) (l : HeldLease) : Prop := {
  ok_holder : hl_holder l = holder;
  ok_deadline : (hl_deadline l <= clock w skew + LOCAL_TTL_MS)%Z;
  ok_skew : (Z.abs skew <= max_skew)%Z;
  ok_started : forall started b, hl_renewing l = Some (started, b) -> (started <= clock w skew)%Z;
  ok_backed : hl_aborted l = false -> backed w holder skew l;
}.

Definition world_ok (w : World) : Prop := forall holder skew l, leases w !! holder = Some (skew, l) -> lease_ok w holder skew l.

(** ** The invariant *)

Lemma acquire_row key holder ttl now t t' :
  acquire key holder ttl now t = (true, t') ->
  t' = <[key := mkLock holder (now + ttl)]> t /\ forall old, t !! key = Some old -> (lock_expires_at old <= now)%Z.
Proof.
  unfold acquire. destruct (t !! key) as [old|]; [|by intros [= <-]].
  destruct (Z.leb_spec (lock_expires_at old) now); [|done]. intros [= <-]. split; [done|]. by intros ? [= <-].
Qed.

Lemma acquire_refused key holder ttl now t t' : acquire key holder ttl now t = (false, t') -> t' = t.
Proof. unfold acquire. destruct (t !! key); [|done]. destruct (_ <=? _)%Z; [done|]. by intros [= <-]. Qed.

Lemma lease_live_spec key holder now t :
  lease_live key holder now t = true <-> exists expires, t !! key = Some (mkLock holder expires) /\ (now < expires)%Z.
Proof.
  unfold lease_live. destruct (t !! key) as [[h e]|]; cbn; [|split; [done|by intros (? & ? & _)]].
  rewrite andb_true_iff, String.eqb_eq, Z.ltb_lt. split; [intros [-> ?]; eauto|by intros (? & [= -> ->] & ?)].
Qed.

(** A holder's row changed by nobody else but an acquisition that found it expired. *)
Lemma backed_same_row w w' holder skew l :
  time w' = time w -> table w' !! hl_key l = table w !! hl_key l -> backed w holder skew l -> backed w' holder skew l.
Proof. unfold backed, clock. by intros -> ->. Qed.

Lemma backed_takeover w w' key holder skew l other s :
  time w' = time w -> (Z.abs skew <= max_skew)%Z -> (Z.abs s <= max_skew)%Z -> (2 * max_skew <= LEASE_RENEW_MS)%Z ->
  acquire key other LEASE_TTL_MS (clock w s) (table w) = (true, table w') ->
  backed w holder skew l -> backed w' holder skew l.
Proof.
  intros Ht Hs Hs' Hm [Hrow Hexp]%acquire_row Hb. destruct (decide (hl_key l = key)) as [<-|Hk].
  - right. unfold backed, clock in *. rewrite Ht. unfold LOCAL_TTL_MS, LEASE_TTL_MS, LEASE_RENEW_MS in *.
    destruct Hb as [(e & He & Hd & Hr)|[Hd Hr]]; [|done]. specialize (Hexp _ He). cbn in Hexp.
    split; [lia|]. intros st Hst. specialize (Hr st Hst). lia.
  - apply backed_same_row with (w := w); [done| |done].
    rewrite Hrow. by apply lookup_insert_ne.
Qed.

Lemma backed_own_row w w' key holder skew l other :
  time w' = time w -> other <> holder ->
  (forall k, k <> key -> table w' !! k = table w !! k) -> (exists e, table w !! key = Some (mkLock other e)) ->
  backed w holder skew l -> backed w' holder skew l.
Proof.
  intros Ht Hne Hk (e & He) Hb. destruct (decide (hl_key l = key)) as [<-|Hkey].
  - right. unfold backed, clock in *. rewrite Ht. destruct Hb as [(e' & He' & _)|Hb]; [|done]. congruence.
  - apply backed_same_row with (w := w); auto.
Qed.

Lemma renew_row key holder now t t' :
  renew key holder LEASE_TTL_MS now t = (true, t') ->
  lease_live key holder now t = true /\ t' = <[key := mkLock holder (now + LEASE_TTL_MS)]> t.
Proof. unfold renew. destruct (lease_live _ _ _ _); [|done]. by intros [= <-]. Qed.

Lemma renew_refused key holder ttl now t t' : renew key holder ttl now t = (false, t') -> t' = t.
Proof. unfold renew. destruct (lease_live _ _ _ _); [done|]. by intros [= <-]. Qed.

Lemma release_row key holder t :
  release key holder t = t \/ exists e, t !! key = Some (mkLock holder e) /\ release key holder t = delete key t.
Proof.
  unfold release. destruct (t !! key) as [[h e]|]; [|by left]. cbn. destruct (String.eqb_spec h holder) as [->|]; [right|by left].
  by exists e.
Qed.

(** A step of one holder's own lease, with the table as it was. *)
Lemma lease_ok_update w holder skew l l' :
  lease_ok w holder skew l -> hl_key l' = hl_key l -> hl_holder l' = hl_holder l ->
  (hl_aborted l' = false -> hl_aborted l = false) ->
  (hl_deadline l' <= clock w skew + LOCAL_TTL_MS)%Z ->
  (forall started b, hl_renewing l' = Some (started, b) -> (started <= clock w skew)%Z) ->
  (hl_deadline l' = hl_deadline l \/ hl_renewing l = Some (hl_deadline l' - LOCAL_TTL_MS, true)%Z) ->
  (forall started, hl_renewing l' = Some (started, true) -> hl_renewing l = Some (started, true)) ->
  lease_ok w holder skew l'.
Proof.
  intros [Hh Hd Hs Hst Hb] Hk Hh' Ha Hd' Hst' Hdl Hren. split; [congruence|done|done|done|].
  intros Hab. specialize (Hb (Ha Hab)). unfold backed in *. rewrite Hk.
  assert (Hsub : (hl_deadline l' - LOCAL_TTL_MS + LEASE_TTL_MS = hl_deadline l' + LEASE_RENEW_MS)%Z)
    by (unfold LOCAL_TTL_MS, LEASE_TTL_MS, LEASE_RENEW_MS; lia).
  destruct Hb as [(e & He & He1 & He2)|[Hc Hc2]]; [left; exists e; split_and!; [done| |by auto]|right; split; [|by auto]].
  - destruct Hdl as [->|Hr]; [done|]. specialize (He2 _ Hr). lia.
  - destruct Hdl as [->|Hr]; [done|]. specialize (Hc2 _ Hr). lia.
Qed.

Lemma tick_ok w t : (time w <= t)%Z -> world_ok w -> world_ok (mkWorld t (table w) (leases w)).
Proof.
  intros Ht Hw holder skew l Hl. destruct (Hw _ _ _ Hl) as [Hh Hd Hs Hst Hb]. unfold clock in *.
  split; cbn; unfold clock; cbn; [done|lia|done| |].
  - intros st b H. specialize (Hst _ _ H). lia.
  - intros Ha. unfold backed, clock in *. cbn. destruct (Hb Ha) as [?|[H1 H2]]; [by left|right].
    split; [lia|]. intros st H. specialize (H2 _ H). lia.
Qed.

(** Steps that change the table leave every other holder backed. *)
Lemma others_ok w w' (changed : string) x :
  time w' = time w -> leases w' = <[changed := x]> (leases w) -> world_ok w ->
  lease_ok w' changed x.1 x.2 ->
  (forall holder skew l, holder <> changed -> leases w !! holder = Some (skew, l) -> backed w holder skew l -> backed w' holder skew l) ->
  world_ok w'.
Proof.
  intros Ht Hl Hw Hx Hothers holder skew l. rewrite Hl. destruct (decide (changed = holder)) as [<-|Hne].
  - rewrite lookup_insert_eq. intros [= ->]. exact Hx.
  - rewrite lookup_insert_ne by done. intros Hin. destruct (Hw _ _ _ Hin) as [Hh Hd Hs Hst Hb].
    unfold clock in *. split; unfold clock; rewrite ?Ht; auto.
Qed.

(** A step of one holder alone. *)
Lemma own_step_ok w holder skew l' :
  world_ok w -> lease_ok w holder skew l' -> world_ok (mkWorld (time w) (table w) (<[holder := (skew, l')]> (leases w))).
Proof.
  intros Hw Hok. eapply others_ok with (w := w); [done|reflexivity|done| |done]. cbn. destruct Hok. by split.
Qed.

Lemma renew_at_store_ok w holder skew l l' t :
  leases w !! holder = Some (skew, l) -> renew_at_store (clock w skew) l (table w) = (l', t) -> world_ok w ->
  world_ok (mkWorld (time w) t (<[holder := (skew, l')]> (leases w))).
Proof.
  intros Hl Hr Hw. pose proof (Hw _ _ _ Hl) as Hok. unfold renew_at_store in Hr.
  destruct (hl_renewing l) as [[st []]|] eqn:Hren; [|destruct (renew _ _ _ _ _) as [[] t1] eqn:Hrow|]; injection Hr as <- <-;
    (eapply others_ok with (w := w); [done|reflexivity|done| |]); cbn.
  all: try done.
  - by destruct Hok.
  - apply renew_row in Hrow as [_ ->]. pose proof (ok_started _ _ _ _ Hok _ _ Hren).
    destruct Hok as [Hh Hd Hs Hst Hb]. split; unfold clock in *; cbn; try done; [congruence|].
    intros _. left. exists (time w + skew + LEASE_TTL_MS)%Z. rewrite <- Hh.
    split_and!; [apply lookup_insert_eq|cbn; unfold LOCAL_TTL_MS, LEASE_TTL_MS, LEASE_RENEW_MS in *; lia|].
    cbn. intros ? [= <-]. lia.
  - intros h s lo Hne Ho Hb. apply renew_row in Hrow as [(e & He & _)%lease_live_spec ->].
    apply (backed_own_row w _ (hl_key l) h s lo (hl_holder l)); try done; [rewrite (ok_holder _ _ _ _ Hok); congruence| |by exists e].
    intros k Hk. cbn. by apply lookup_insert_ne.
  - destruct Hok. by split.
  - intros h s lo Hne Ho Hb. apply renew_refused in Hrow as ->. done.
  - by destruct Hok.
Qed.

Lemma release_ok w holder skew l :
  leases w !! holder = Some (skew, l) -> hl_aborted l = true -> world_ok w ->
  world_ok (mkWorld (time w) (release (hl_key l) holder (table w)) (leases w)).
Proof.
  intros Hl Ha Hw h s lo Ho. cbn in Ho. pose proof (Hw _ _ _ Ho) as Hok.
  destruct Hok as [Hh Hd Hs Hst Hb]. split; try done. intros Hab. specialize (Hb Hab).
  destruct (release_row (hl_key l) holder (table w)) as [->|(e & He & ->)]; [done|].
  apply (backed_own_row w _ (hl_key l) h s lo holder); try done; [intros ->; rewrite Hl in Ho; injection Ho as <- <-; congruence| |by exists e].
  intros k Hk. cbn. by apply lookup_delete_ne.
Qed.

Lemma step_ok w w' : (2 * max_skew <= LEASE_RENEW_MS)%Z -> step w w' -> world_ok w -> world_ok w'.
Proof.
  intros Hm Hstep Hw. destruct Hstep.
  - by apply tick_ok.
  - eapply others_ok with (w := w); [done|reflexivity|done| |].
    + pose proof (acquire_row _ _ _ _ _ _ H2) as [-> _]. cbn. split; cbn; unfold clock in *; cbn; try done; [lia|].
      intros _. left. exists (time w + skew + LEASE_TTL_MS)%Z. 
      split_and!; [apply lookup_insert_eq|cbn; unfold LOCAL_TTL_MS, LEASE_TTL_MS, LEASE_RENEW_MS; lia|done].
    + intros h s l Hne Hl Hb. apply (backed_takeover w _ key h s l holder skew); try done. by eapply ok_skew, Hw.
  - apply acquire_refused in H as ->. by destruct w.
  - pose proof (Hw _ _ _ H) as Hok. apply own_step_ok; [done|].
    unfold renew_start. destruct (hl_aborted l) eqn:Ha; [|destruct (_ <=? _)%Z].
    + by destruct Hok.
    + eapply lease_ok_update; [exact Hok|..]; try done; [apply Hok|apply Hok|by left].
    + eapply lease_ok_update; [exact Hok|..]; try done; [apply Hok| |by left]. cbn. intros ? ? [= <- _]. lia.
  - pose proof (Hw _ _ _ H) as Hok. by eapply renew_at_store_ok.
  - pose proof (Hw _ _ _ H) as Hok. apply own_step_ok; [done|].
    unfold renew_answer. destruct (hl_renewing l) as [[st []]|] eqn:Hr; [|by destruct Hok..].
    pose proof (ok_started _ _ _ _ Hok _ _ Hr). eapply lease_ok_update; [exact Hok|..]; cbn; try done.
    + unfold clock in *. lia.
    + right. rewrite Hr. do 2 f_equal. lia.
  - pose proof (Hw _ _ _ H) as Hok. apply own_step_ok; [done|].
    eapply lease_ok_update; [exact Hok|..]; try done; [apply Hok|apply Hok|by left].
  - by eapply release_ok.
Qed.


Lemma reachable_ok w : (2 * max_skew <= LEASE_RENEW_MS)%Z -> reachable w -> world_ok w.
Proof.
  intros Hm Hr. induction Hr as [w Hi|w w' Hr IH Hstep]; [|by eapply step_ok].
  intros holder skew l. rewrite Hi, lookup_empty. done.
Qed.

(** ** Properties *)

(** C19. At most one holder acts on a key: in every interleaving of acquisitions, renewals in flight, expiries, losses and
    releases, with clocks that differ from the true time by at most half the renew period, two leases of one key that
    both pass [assertHeld], each by its own clock, are one lease. *)
Theorem lease_mutual_exclusion (w : World) (h1 h2 : string) (s1 s2 : Z) (l1 l2 : HeldLease) :
  (2 * max_skew <= LEASE_RENEW_MS)%Z -> reachable w ->
  leases w !! h1 = Some (s1, l1) -> leases w !! h2 = Some (s2, l2) -> hl_key l1 = hl_key l2 ->
  acts (clock w s1) l1 = true -> acts (clock w s2) l2 = true -> h1 = h2.
Proof.
  intros Hm Hr H1 H2 Hk A1 A2. pose proof (reachable_ok w Hm Hr) as Hok. unfold acts in *. to_prop.
  pose proof (ok_backed _ _ _ _ (Hok _ _ _ H1)) as B1. pose proof (ok_backed _ _ _ _ (Hok _ _ _ H2)) as B2.
  destruct B1 as [(e1 & E1 & _)|[? _]]; [done| |lia]. destruct B2 as [(e2 & E2 & _)|[? _]]; [done| |lia]. congruence.
Qed.

(** A write fenced by an acting holder succeeds as far as the lease goes: while [assertHeld] passes, the stored row is
    this holder's and live at every clock within the bound, so [acquire] by anyone is refused and the fence of its own
    writes matches. *)
Theorem acting_lease_is_stored (w : World) (holder other : string) (skew skew' : Z) (l : HeldLease) :
  (2 * max_skew <= LEASE_RENEW_MS)%Z -> reachable w -> leases w !! holder = Some (skew, l) -> acts (clock w skew) l = true ->
  (Z.abs skew' <= max_skew)%Z ->
  lease_live (hl_key l) holder (clock w skew) (table w) = true /\
  acquire (hl_key l) other LEASE_TTL_MS (clock w skew') (table w) = (false, table w).
Proof.
  intros Hm Hr Hl Ha Hs'. pose proof (reachable_ok w Hm Hr _ _ _ Hl) as Hok. pose proof (ok_skew _ _ _ _ Hok) as Hs.
  unfold acts in Ha. to_prop. destruct (ok_backed _ _ _ _ Hok) as [(e & He & Hd & _)|[? _]]; [done| |lia].
  assert (Hlive : (clock w skew < e)%Z /\ (clock w skew' < e)%Z) by (unfold clock, LEASE_RENEW_MS in *; lia).
  split.
  - apply lease_live_spec. exists e. split; [done|lia].
  - unfold acquire. rewrite He. cbn. by destruct (Z.leb_spec e (clock w skew')); [lia|].
Qed.

End System.

(** ** Witnesses *)

Lemma witness_reached :
  reachable 15000 (mkWorld 5 (<["app:prod" := mkLock "h1" 90005]> ∅) (<["h1" := (0%Z, new_HeldLease "app:prod" "h1" 5)]> ∅)).
Proof.
  eapply reachable_step.
  - apply reachable_initial with (w := mkWorld 5 ∅ ∅). done.
  - refine (step_acquire 15000 (mkWorld 5 ∅ ∅) "app:prod" "h1" 0 5 _ _ _ _ _); [lia|done|done|reflexivity].
Qed.

Lemma lease_mutual_exclusion_witness : "h1" = "h1".
Proof.
  apply (lease_mutual_exclusion 15000 _ "h1" "h1" 0 0 (new_HeldLease "app:prod" "h1" 5) (new_HeldLease "app:prod" "h1" 5)
    ltac:(vm_compute; congruence) witness_reached); reflexivity.
Defined.

Lemma acting_lease_is_stored_witness :
  acquire "app:prod" "h2" LEASE_TTL_MS 10005 (<["app:prod" := mkLock "h1" 90005]> ∅) = (false, <["app:prod" := mkLock "h1" 90005]> ∅).
Proof.
  apply (acting_lease_is_stored 15000 _ "h1" "h2" 0 10000 (new_HeldLease "app:prod" "h1" 5)
    ltac:(vm_compute; congruence) witness_reached); [reflexivity|reflexivity|lia].
Defined.
