(* ===== verification/Runs.v ===== *)
(** Runs: the lifecycle of a deploy as guarded, fenced single-row updates.

    [RunRepository] ([control/src/db/runs.ts]) writes a run only under the run's live lease ([mutateRun]) and only in the
    states its [WHERE] clause names; [publishRunSnapshot] is a compare-and-swap on the environment. The tables are
    explicit state; every write of the repository is a constructor of [RunWrite] and [perform] executes it. *)

From S2P Require Import Prelude Locks.
From Stdlib Require Import ZArith Lia String Ascii.
From stdpp Require Import base tactics strings gmap sorting list.

(** ** The tables *)

Inductive RunTrigger := Webhook | Manual | Poll.
Inductive RunStatus := Pending | Running | AwaitingApproval | Succeeded | Failed.

#[global] Instance RunStatus_eq_dec : EqDecision RunStatus.
Proof. solve_decision. Defined.

(** The columns no update names, and the ones updates write. *)
Record RunKey := mkRunKey {
  app_id : string;
  env : string;
  ref : string;
  trigger : RunTrigger;
  created_at : Z;
  actor : option string;
  lane : option string;
}.

Record RunRow := mkRun {
  run_key : RunKey;
  commit_sha : option string;
  status : RunStatus;
  exit_code : option Z;
  log_key : option string;
  started_at : option Z;
  finished_at : option Z;
  external_run_id : option string;
  provider_state_json : option string;
  cancel_requested_at : option Z;
  snapshot_json : option string;
  classification_json : option string;
  approval_json : option string;
  superseded_by : option string;
  migration_barrier : option bool;
}.

Definition set_commit_sha (v : option string) (r : RunRow) : RunRow :=
  mkRun (run_key r) v (status r) (exit_code r) (log_key r) (started_at r) (finished_at r) (external_run_id r)
    (provider_state_json r) (cancel_requested_at r) (snapshot_json r) (classification_json r) (approval_json r)
    (superseded_by r) (migration_barrier r).
Definition set_status (v : RunStatus) (r : RunRow) : RunRow :=
  mkRun (run_key r) (commit_sha r) v (exit_code r) (log_key r) (started_at r) (finished_at r) (external_run_id
    r) (provider_state_json r) (cancel_requested_at r) (snapshot_json r) (classification_json r) (approval_json
    r) (superseded_by r) (migration_barrier r).
Definition set_exit_code (v : option Z) (r : RunRow) : RunRow :=
  mkRun (run_key r) (commit_sha r) (status r) v (log_key r) (started_at r) (finished_at r) (external_run_id r)
    (provider_state_json r) (cancel_requested_at r) (snapshot_json r) (classification_json r) (approval_json r)
    (superseded_by r) (migration_barrier r).
Definition set_log_key (v : option string) (r : RunRow) : RunRow :=
  mkRun (run_key r) (commit_sha r) (status r) (exit_code r) v (started_at r) (finished_at r) (external_run_id r)
    (provider_state_json r) (cancel_requested_at r) (snapshot_json r) (classification_json r) (approval_json r)
    (superseded_by r) (migration_barrier r).
Definition set_started_at (v : option Z) (r : RunRow) : RunRow :=
  mkRun (run_key r) (commit_sha r) (status r) (exit_code r) (log_key r) v (finished_at r) (external_run_id r)
    (provider_state_json r) (cancel_requested_at r) (snapshot_json r) (classification_json r) (approval_json r)
    (superseded_by r) (migration_barrier r).
Definition set_finished_at (v : option Z) (r : RunRow) : RunRow :=
  mkRun (run_key r) (commit_sha r) (status r) (exit_code r) (log_key r) (started_at r) v (external_run_id r)
    (provider_state_json r) (cancel_requested_at r) (snapshot_json r) (classification_json r) (approval_json r)
    (superseded_by r) (migration_barrier r).
Definition set_external_run_id (v : option string) (r : RunRow) : RunRow :=
  mkRun (run_key r) (commit_sha r) (status r) (exit_code r) (log_key r) (started_at r) (finished_at r) v
    (provider_state_json r) (cancel_requested_at r) (snapshot_json r) (classification_json r) (approval_json r)
    (superseded_by r) (migration_barrier r).
Definition set_provider_state_json (v : option string) (r : RunRow) : RunRow :=
  mkRun (run_key r) (commit_sha r) (status r) (exit_code r) (log_key r) (started_at r) (finished_at r)
    (external_run_id r) v (cancel_requested_at r) (snapshot_json r) (classification_json r) (approval_json r)
    (superseded_by r) (migration_barrier r).
Definition set_cancel_requested_at (v : option Z) (r : RunRow) : RunRow :=
  mkRun (run_key r) (commit_sha r) (status r) (exit_code r) (log_key r) (started_at r) (finished_at r)
    (external_run_id r) (provider_state_json r) v (snapshot_json r) (classification_json r) (approval_json r)
    (superseded_by r) (migration_barrier r).
Definition set_snapshot_json (v : option string) (r : RunRow) : RunRow :=
  mkRun (run_key r) (commit_sha r) (status r) (exit_code r) (log_key r) (started_at r) (finished_at r)
    (external_run_id r) (provider_state_json r) (cancel_requested_at r) v (classification_json r) (approval_json
    r) (superseded_by r) (migration_barrier r).
Definition set_classification_json (v : option string) (r : RunRow) : RunRow :=
  mkRun (run_key r) (commit_sha r) (status r) (exit_code r) (log_key r) (started_at r) (finished_at r)
    (external_run_id r) (provider_state_json r) (cancel_requested_at r) (snapshot_json r) v (approval_json r)
    (superseded_by r) (migration_barrier r).
Definition set_approval_json (v : option string) (r : RunRow) : RunRow :=
  mkRun (run_key r) (commit_sha r) (status r) (exit_code r) (log_key r) (started_at r) (finished_at r)
    (external_run_id r) (provider_state_json r) (cancel_requested_at r) (snapshot_json r) (classification_json
    r) v (superseded_by r) (migration_barrier r).
Definition set_superseded_by (v : option string) (r : RunRow) : RunRow :=
  mkRun (run_key r) (commit_sha r) (status r) (exit_code r) (log_key r) (started_at r) (finished_at r)
    (external_run_id r) (provider_state_json r) (cancel_requested_at r) (snapshot_json r) (classification_json
    r) (approval_json r) v (migration_barrier r).
Definition set_migration_barrier (v : option bool) (r : RunRow) : RunRow :=
  mkRun (run_key r) (commit_sha r) (status r) (exit_code r) (log_key r) (started_at r) (finished_at r)
    (external_run_id r) (provider_state_json r) (cancel_requested_at r) (snapshot_json r) (classification_json
    r) (approval_json r) (superseded_by r) v.

(** [app_envs], in the columns a publication reads and writes, and [app_env_protection]. *)
Record EnvRow := mkEnv {
  provider : string;
  generation : Z;
  protection_revision : Z;
  published_run_id : option string;
  published_snapshot_json : option string;
}.
Record ProtectionRow := mkProtection { protected : bool; prot_generation : Z; prot_revision : Z }.

Record ControlDb := mkDb {
  runs : gmap string RunRow;
  deploy_locks : LockTable;
  app_envs : gmap (string * string) EnvRow;
  app_env_protection : gmap (string * string) ProtectionRow;
}.

Definition with_runs (rs : gmap string RunRow) (db : ControlDb) : ControlDb :=
  mkDb rs (deploy_locks db) (app_envs db) (app_env_protection db).

(** The rows with their ids. *)
Definition Row : Type := string * RunRow.
Definition rows (db : ControlDb) : list Row := map_to_list (runs db).

Definition env_of (r : RunRow) : string * string := (app_id (run_key r), env (run_key r)).
Definition lease_key (r : RunRow) : string := runLeaseKey (app_id (run_key r)) (env (run_key r)).

(** Ids are UUIDv7: text order is creation order. *)
Definition id_lt (a b : string) : bool := String.ltb a b.
Definition is_status (s : RunStatus) (r : RunRow) : bool :=
  match status r, s with
  | Pending, Pending | Running, Running | AwaitingApproval, AwaitingApproval | Succeeded, Succeeded | Failed, Failed => true
  | _, _ => false
  end.
Definition uncancelled (r : RunRow) : bool := negb (is_some (cancel_requested_at r)).
Definition same_env (a b : RunRow) : bool := bool_decide (env_of a = env_of b).
(** [lane IS NOT DISTINCT FROM lane] *)
Definition same_lane (a b : RunRow) : bool := bool_decide (lane (run_key a) = lane (run_key b)).

(** ** Text the provider owns *)

Definition MAX_PROVIDER_STATE_BYTES : nat := 16 * 1024.

(** The length in UTF-8. *)
Fixpoint byteLength (s : string) : nat :=
  match s with
  | EmptyString => 0
  | String c s' => (if (Js.code c <? 128)%nat then 1 else 2) + byteLength s'
  end.

(** The size check of [serializeProviderJson], on the serialized text: it throws past 16 KiB. *)
Definition fits_provider_state (serialized : string) : bool := (byteLength serialized <=? MAX_PROVIDER_STATE_BYTES)%nat.

(** ** Writes *)

(** One fenced update: the run's lease row must be the fence's, live at its time; [admits] is the statement's own guard.
    The result is whether a row was updated. *)
Definition mutateRun (id : string) (admits : ControlDb -> RunRow -> bool) (update : RunRow -> RunRow) (fence : LeaseFence)
    (db : ControlDb) : bool * ControlDb :=
  match runs db !! id with
  | None => (false, db)
  | Some r =>
      if admits db r && lease_live (lease_key r) (fence_holder fence) (fence_nowMs fence) (deploy_locks db)
      then (true, with_runs (<[id := update r]> (runs db)) db)
      else (false, db)
  end.

Definition running_uncancelled (_ : ControlDb) (r : RunRow) : bool := is_status Running r && uncancelled r.

(** A run created later, in the same environment and lane, that succeeded. *)
Definition supersedes (id : string) (r : RunRow) (newer : Row) : bool :=
  same_env newer.2 r && same_lane newer.2 r && id_lt id newer.1 && is_status Succeeded newer.2.

Definition another_running (id : string) (r : RunRow) (db : ControlDb) : bool :=
  existsb (fun active => same_env active.2 r && is_status Running active.2 && negb (active.1 =? id)%string) (rows db).

Definition createRun (id : string) (key : RunKey) (commitSha : option string) (db : ControlDb) : bool * ControlDb :=
  match runs db !! id with
  | Some _ => (false, db)
  | None =>
      (true, with_runs (<[id := mkRun key commitSha Pending None None None None None None None None None None None None]> (runs db)) db)
  end.

Definition recordInitialRunExternalId (id externalRunId : string) (providerState : option string) (fence : LeaseFence)
    (db : ControlDb) : bool * ControlDb :=
  if negb (from_option fits_provider_state true providerState) then (false, db)
  else
    mutateRun id (fun _ r => is_status Running r && negb (is_some (external_run_id r)))
      (fun r => let r := set_external_run_id (Some externalRunId) r in
                match providerState with Some state => set_provider_state_json (Some state) r | None => r end)
      fence db.

Definition checkpointRunProviderState (id providerState : string) (fence : LeaseFence) (db : ControlDb) : bool * ControlDb :=
  if negb (fits_provider_state providerState) then (false, db)
  else
    mutateRun id (fun _ r => is_status Running r && uncancelled r && is_some (external_run_id r))
      (set_provider_state_json (Some providerState)) fence db.

Definition markRunStarted (id logKey : string) (now : Z) (fence : LeaseFence) (db : ControlDb) : bool * ControlDb :=
  mutateRun id
    (fun db r => is_status Pending r && uncancelled r && negb (another_running id r db) && negb (existsb (supersedes id r) (rows db)))
    (fun r => set_log_key (Some logKey) (set_started_at (Some now) (set_status Running r))) fence db.

Definition markRunSuperseded (id supersededBy : string) (now : Z) (fence : LeaseFence) (db : ControlDb) : bool * ControlDb :=
  mutateRun id
    (fun db r => is_status Pending r && uncancelled r
       && existsb (fun newer => (newer.1 =? supersededBy)%string && supersedes id r newer) (rows db))
    (fun r => set_superseded_by (Some supersededBy) (set_finished_at (Some now) (set_status Failed r))) fence db.

(** [LOWER] folds ASCII letters. *)
Definition lower_ascii (c : ascii) : ascii := if Js.is_upper c then ascii_of_nat (Js.code c + 32) else c.
Fixpoint sql_lower (s : string) : string :=
  match s with EmptyString => EmptyString | String c s' => String (lower_ascii c) (sql_lower s') end.

Definition setRunCommit (id commitSha : string) (fence : LeaseFence) (db : ControlDb) : bool * ControlDb :=
  mutateRun id
    (fun _ r => is_status Running r && uncancelled r
       && match commit_sha r with None => true | Some sha => (sql_lower sha =? commitSha)%string end)
    (set_commit_sha (Some commitSha)) fence db.

Definition recordRunMigrationBarrier (id : string) (installs : bool) (fence : LeaseFence) (db : ControlDb) : bool * ControlDb :=
  mutateRun id running_uncancelled (set_migration_barrier (Some installs)) fence db.

Definition recordRunSnapshot (id snapshotJson : string) (fence : LeaseFence) (db : ControlDb) : bool * ControlDb :=
  mutateRun id running_uncancelled (set_snapshot_json (Some snapshotJson)) fence db.

Definition recordRunClassification (id classificationJson : string) (fence : LeaseFence) (db : ControlDb) : bool * ControlDb :=
  mutateRun id running_uncancelled (set_classification_json (Some classificationJson)) fence db.

Definition parkRunForApproval (id classificationJson : string) (fence : LeaseFence) (db : ControlDb) : bool * ControlDb :=
  mutateRun id running_uncancelled
    (fun r => set_classification_json (Some classificationJson) (set_status AwaitingApproval r)) fence db.

Definition parked_with (classificationJson : string) (_ : ControlDb) (r : RunRow) : bool :=
  is_status AwaitingApproval r && uncancelled r && bool_decide (classification_json r = Some classificationJson).

Definition approveParkedRun (id classificationJson approvalJson : string) (fence : LeaseFence) (db : ControlDb) : bool * ControlDb :=
  mutateRun id (parked_with classificationJson)
    (fun r => set_approval_json (Some approvalJson) (set_status Pending r)) fence db.

Definition rejectParkedRun (id classificationJson : string) (now : Z) (fence : LeaseFence) (db : ControlDb) : bool * ControlDb :=
  mutateRun id (parked_with classificationJson)
    (fun r => set_approval_json None (set_finished_at (Some now) (set_status Failed r))) fence db.

(** The one unfenced update. *)
Definition requestRunCancellation (id : string) (now : Z) (db : ControlDb) : bool * ControlDb :=
  match runs db !! id with
  | Some r =>
      if is_status Pending r || is_status Running r || is_status AwaitingApproval r
      then (true, with_runs (<[id := set_cancel_requested_at (Some (default now (cancel_requested_at r))) r]> (runs db)) db)
      else (false, db)
  | None => (false, db)
  end.

(** [succeeded] is the status to settle with. *)
Definition finished_status (succeeded : bool) : RunStatus := if succeeded then Succeeded else Failed.

Definition markRunFinished (id : string) (succeeded : bool) (exitCode : option Z) (now : Z) (fence : LeaseFence) (db : ControlDb)
    : bool * ControlDb :=
  mutateRun id (fun _ r => (is_status Pending r || is_status Running r) && uncancelled r)
    (fun r => set_finished_at (Some now) (set_exit_code exitCode (set_status (finished_status succeeded) r))) fence db.

Definition markRunCancellationFinished (id : string) (succeeded : bool) (now : Z) (fence : LeaseFence) (db : ControlDb)
    : bool * ControlDb :=
  mutateRun id
    (fun _ r => (is_status Pending r || is_status Running r || is_status AwaitingApproval r) && negb (uncancelled r))
    (fun r =>
       set_approval_json (if is_status AwaitingApproval r then None else approval_json r)
         (set_finished_at (Some now) (set_exit_code None (set_status (finished_status succeeded) r)))) fence db.

(** [defaultProtected], and the insert of [runCoordinateLockStatements]; its update changes nothing. *)
Definition defaultProtected (env : string) : bool := (env =? "prod")%string.

Definition runCoordinateLockStatements (id : string) (db : ControlDb) : ControlDb :=
  match runs db !! id with
  | None => db
  | Some r =>
      match app_env_protection db !! env_of r with
      | Some _ => db
      | None =>
          mkDb (runs db) (deploy_locks db) (app_envs db)
            (<[env_of r := mkProtection (defaultProtected (env (run_key r))) 0 0]> (app_env_protection db))
      end
  end.

Definition publishRunSnapshot (id : string) (expectedGeneration expectedRevision : Z) (snapshotJson : string) (fence : LeaseFence)
    (db : ControlDb) : bool * ControlDb :=
  let db := runCoordinateLockStatements id db in
  match runs db !! id with
  | None => (false, db)
  | Some r =>
      match app_envs db !! env_of r with
      | None => (false, db)
      | Some e =>
          if (generation e =? expectedGeneration)%Z && (protection_revision e =? expectedRevision)%Z
             && is_status Running r && uncancelled r && is_some (snapshot_json r)
             && lease_live (lease_key r) (fence_holder fence) (fence_nowMs fence) (deploy_locks db)
          then (true, mkDb (runs db) (deploy_locks db)
                        (<[env_of r := mkEnv (provider e) (generation e + 1) (protection_revision e) (Some id) (Some snapshotJson)]>
                           (app_envs db)) (app_env_protection db))
          else (false, db)
      end
  end.

(** ** Queries *)

(** [ORDER BY id DESC] *)
Definition newest_first (a b : Row) : Prop := id_lt a.1 b.1 = false.
#[global] Instance newest_first_dec : RelDecision newest_first.
Proof. unfold newest_first. solve_decision. Defined.

Definition by_id_desc (l : list Row) : list Row := merge_sort newest_first l.

(** [ORDER BY finished_at DESC, id DESC]; the rows are finished. *)
Definition latest_first (a b : Row) : Prop :=
  match (default 0%Z (finished_at a.2) ?= default 0%Z (finished_at b.2))%Z with
  | Gt => True
  | Eq => newest_first a b
  | Lt => False
  end.
#[global] Instance latest_first_dec : RelDecision latest_first.
Proof. intros a b. unfold latest_first. destruct (_ ?= _)%Z; apply _. Defined.

Definition by_finished_desc (l : list Row) : list Row := merge_sort latest_first l.

Definition where_rows (p : Row -> bool) (db : ControlDb) : list Row := List.filter p (rows db).

Definition at_env (appId envName : string) (row : Row) : bool := bool_decide (env_of row.2 = (appId, envName)).

Definition getRun (id : string) (db : ControlDb) : option RunRow := runs db !! id.

Definition getLatestRunForRef (appId envName refName : string) (db : ControlDb) : option Row :=
  head (by_id_desc (where_rows (fun row => at_env appId envName row && (ref (run_key row.2) =? refName)%string) db)).

Definition getLatestSucceededRun (appId envName : string) (db : ControlDb) : option Row :=
  head (by_finished_desc (where_rows (fun row => at_env appId envName row && is_status Succeeded row.2) db)).

Definition getSupersedingRun (id : string) (db : ControlDb) : option Row :=
  match runs db !! id with
  | None => None
  | Some older => head (by_id_desc (where_rows (supersedes id older) db))
  end.

Definition deployedMigrationBarrier (appId envName : string) (db : ControlDb) : bool :=
  match head (by_finished_desc (where_rows (fun row =>
      at_env appId envName row && is_status Succeeded row.2 && is_some (migration_barrier row.2)) db)) with
  | Some row => bool_decide (migration_barrier row.2 = Some true)
  | None => false
  end.

(** [ORDER BY id]: oldest first. *)
Definition listInFlightRuns (providerName : string) (db : ControlDb) : list Row :=
  rev (by_id_desc (where_rows (fun row =>
    (is_status Pending row.2 || is_status Running row.2)
    && match app_envs db !! env_of row.2 with Some e => (provider e =? providerName)%string | None => false end) db)).

Record RunFilter := mkFilter {
  f_appId : option string;
  f_env : option string;
  f_statuses : option (list RunStatus);
  f_before : option string;
  f_limit : nat;
}.

Definition matches_filter (filter : RunFilter) (row : Row) : bool :=
  from_option (fun a => (app_id (run_key row.2) =? a)%string) true (f_appId filter)
  && from_option (fun e => (env (run_key row.2) =? e)%string) true (f_env filter)
  && from_option (fun b => id_lt row.1 b) true (f_before filter)
  && from_option (fun ss => existsb (fun s => is_status s row.2) ss) true (f_statuses filter).

Definition listRuns (filter : RunFilter) (db : ControlDb) : list Row :=
  match f_statuses filter with
  | Some [] => []
  | _ => take (f_limit filter) (by_id_desc (where_rows (matches_filter filter) db))
  end.

Definition listLatestFailedRuns (db : ControlDb) : list Row :=
  by_id_desc (where_rows (fun row =>
    is_status Failed row.2 && is_some (app_envs db !! env_of row.2)
    && negb (existsb (fun later => same_env later.2 row.2 && id_lt row.1 later.1
                        && (is_status Succeeded later.2 || is_status Failed later.2)) (rows db))) db).

Definition listRunsAwaitingApproval (limit : nat) (db : ControlDb) : list Row :=
  take limit (by_id_desc (where_rows (fun row => is_status AwaitingApproval row.2) db)).

Definition listStaleRuns (maxAgeSeconds now : Z) (db : ControlDb) : list Row :=
  where_rows (fun row =>
    (is_status Pending row.2 || is_status Running row.2) && uncancelled row.2
    && (default (created_at (run_key row.2)) (started_at row.2) <? now - maxAgeSeconds)%Z
    && negb (is_some (external_run_id row.2))) db.

(** ** Every write, and the leases under it *)

Inductive RunWrite :=
| Create (id : string) (key : RunKey) (commitSha : option string)
| RecordExternalId (id externalRunId : string) (providerState : option string) (fence : LeaseFence)
| Checkpoint (id providerState : string) (fence : LeaseFence)
| Start (id logKey : string) (now : Z) (fence : LeaseFence)
| Supersede (id supersededBy : string) (now : Z) (fence : LeaseFence)
| SetCommit (id commitSha : string) (fence : LeaseFence)
| RecordBarrier (id : string) (installs : bool) (fence : LeaseFence)
| RecordSnapshot (id snapshotJson : string) (fence : LeaseFence)
| RecordClassification (id classificationJson : string) (fence : LeaseFence)
| Park (id classificationJson : string) (fence : LeaseFence)
| Approve (id classificationJson approvalJson : string) (fence : LeaseFence)
| Reject (id classificationJson : string) (now : Z) (fence : LeaseFence)
| RequestCancel (id : string) (now : Z)
| Finish (id : string) (succeeded : bool) (exitCode : option Z) (now : Z) (fence : LeaseFence)
| FinishCancelled (id : string) (succeeded : bool) (now : Z) (fence : LeaseFence)
| Publish (id : string) (expectedGeneration expectedRevision : Z) (snapshotJson : string) (fence : LeaseFence)
| AcquireLease (key holder : string) (ttlMs now : Z)
| RenewLease (key holder : string) (ttlMs now : Z)
| ReleaseLease (key holder : string).

Definition with_locks (result : bool * LockTable) (db : ControlDb) : bool * ControlDb :=
  (result.1, mkDb (runs db) result.2 (app_envs db) (app_env_protection db)).

Definition perform (w : RunWrite) (db : ControlDb) : bool * ControlDb :=
  match w with
  | Create id key commitSha => createRun id key commitSha db
  | RecordExternalId id ext state fence => recordInitialRunExternalId id ext state fence db
  | Checkpoint id state fence => checkpointRunProviderState id state fence db
  | Start id logKey now fence => markRunStarted id logKey now fence db
  | Supersede id by_ now fence => markRunSuperseded id by_ now fence db
  | SetCommit id sha fence => setRunCommit id sha fence db
  | RecordBarrier id installs fence => recordRunMigrationBarrier id installs fence db
  | RecordSnapshot id snapshot fence => recordRunSnapshot id snapshot fence db
  | RecordClassification id classification fence => recordRunClassification id classification fence db
  | Park id classification fence => parkRunForApproval id classification fence db
  | Approve id classification approval fence => approveParkedRun id classification approval fence db
  | Reject id classification now fence => rejectParkedRun id classification now fence db
  | RequestCancel id now => requestRunCancellation id now db
  | Finish id succeeded exitCode now fence => markRunFinished id succeeded exitCode now fence db
  | FinishCancelled id succeeded now fence => markRunCancellationFinished id succeeded now fence db
  | Publish id generation revision snapshot fence => publishRunSnapshot id generation revision snapshot fence db
  | AcquireLease key holder ttl now => with_locks (acquire key holder ttl now (deploy_locks db)) db
  | RenewLease key holder ttl now => with_locks (renew key holder ttl now (deploy_locks db)) db
  | ReleaseLease key holder => with_locks (true, release key holder (deploy_locks db)) db
  end.

Definition performs (ws : list RunWrite) (db : ControlDb) : ControlDb := foldl (fun db w => (perform w db).2) db ws.

(** ** What a write does to a row *)

Definition active (r : RunRow) : bool := is_status Pending r || is_status Running r || is_status AwaitingApproval r.

(** The fence a write carries. *)
Definition write_fence (w : RunWrite) : option LeaseFence :=
  match w with
  | RecordExternalId _ _ _ f | Checkpoint _ _ f | Start _ _ _ f | Supersede _ _ _ f | SetCommit _ _ f | RecordBarrier _ _ f
  | RecordSnapshot _ _ f | RecordClassification _ _ f | Park _ _ f | Approve _ _ _ f | Reject _ _ _ f | Finish _ _ _ _ f
  | FinishCancelled _ _ _ f | Publish _ _ _ _ f => Some f
  | _ => None
  end.

Definition fenced (w : RunWrite) (db : ControlDb) (r : RunRow) : Prop :=
  exists f, write_fence w = Some f /\ lease_live (lease_key r) (fence_holder f) (fence_nowMs f) (deploy_locks db) = true.

(** The writes a requested cancellation leaves possible. *)
Definition after_cancellation (w : RunWrite) : bool :=
  match w with RecordExternalId _ _ _ _ | RequestCancel _ _ | FinishCancelled _ _ _ _ => true | _ => false end.

Definition settles (w : RunWrite) : bool := match w with FinishCancelled _ _ _ _ => true | _ => false end.

(** One row changed from [r] to [r']. *)
Record row_change (w : RunWrite) (db : ControlDb) (id : string) (r r' : RunRow) : Prop := {
  ch_key : run_key r' = run_key r;
  ch_active : active r = true;
  ch_fenced : (exists now, w = RequestCancel id now) \/ fenced w db r;
  ch_cancelled : uncancelled r = false -> after_cancellation w = true /\ (settles w = true \/ status r' = status r);
  ch_running : status r' = Running ->
    status r = Running \/ (another_running id r db = false /\ existsb (supersedes id r) (rows db) = false);
  ch_finished : if active r' then finished_at r' = finished_at r else is_some (finished_at r') = true;
}.

Lemma mutateRun_cases id admits update fence db :
  mutateRun id admits update fence db = (false, db) \/
  exists r, runs db !! id = Some r /\ admits db r = true /\
    lease_live (lease_key r) (fence_holder fence) (fence_nowMs fence) (deploy_locks db) = true /\
    mutateRun id admits update fence db = (true, with_runs (<[id := update r]> (runs db)) db).
Proof.
  unfold mutateRun. destruct (runs db !! id) as [r|]; [|by left]. destruct (admits db r) eqn:Ha; [|by left].
  destruct (lease_live _ _ _ _) eqn:Hl; [right; by exists r|by left].
Qed.

Lemma is_status_spec s r : is_status s r = true <-> status r = s.
Proof. unfold is_status. destruct (status r), s; split; congruence. Qed.

Lemma active_spec r : active r = true <-> status r = Pending \/ status r = Running \/ status r = AwaitingApproval.
Proof. unfold active. rewrite !orb_true_iff, !is_status_spec. tauto. Qed.

Lemma not_active_spec r : active r = false <-> status r = Succeeded \/ status r = Failed.
Proof.
  pose proof (active_spec r). destruct (active r); split; try done; intros.
  - destruct (proj1 H eq_refl) as [E|[E|E]]; rewrite E in *; destruct H0; congruence.
  - destruct (status r); auto; destruct H as [_ H]; discriminate H; auto.
Qed.

(** The rows after a write: as they were, one more, or one changed. *)
Definition runs_after (w : RunWrite) (db db' : ControlDb) : Prop :=
  runs db' = runs db \/
  (exists id key commitSha, w = Create id key commitSha /\ runs db !! id = None /\
     runs db' = <[id := mkRun key commitSha Pending None None None None None None None None None None None None]> (runs db)) \/
  (exists id r r', runs db !! id = Some r /\ runs db' = <[id := r']> (runs db) /\ row_change w db id r r').

Lemma runs_after_mutate w id admits update fence db :
  write_fence w = Some fence ->
  (forall r, admits db r = true ->
     run_key (update r) = run_key r /\ active r = true /\
     (uncancelled r = false -> after_cancellation w = true /\ (settles w = true \/ status (update r) = status r)) /\
     (status (update r) = Running -> status r = Running \/ (another_running id r db = false /\ existsb (supersedes id r) (rows db) = false)) /\
     (if active (update r) then finished_at (update r) = finished_at r else is_some (finished_at (update r)) = true)) ->
  runs_after w db (mutateRun id admits update fence db).2.
Proof.
  intros Hf Hu. destruct (mutateRun_cases id admits update fence db) as [->|(r & Hr & Ha & Hl & ->)]; [by left|].
  right. right. exists id, r, (update r). split_and!; [done|done|].
  destruct (Hu r Ha) as (H1 & H2 & H3 & H4 & H5). split; auto. right. by exists fence.
Qed.

(** Case analysis on a row's status and cancellation, as the guard and the update read them. *)
Ltac row_cases :=
  intros r; unfold active, parked_with, running_uncancelled, uncancelled, is_status; cbn;
  destruct (status r) eqn:?; destruct (cancel_requested_at r) eqn:?; cbn; intros; to_prop; split_and!; intros; to_prop; eauto; try done.

Lemma runs_after_cancel id now db : runs_after (RequestCancel id now) db (requestRunCancellation id now db).2.
Proof.
  unfold requestRunCancellation. destruct (runs db !! id) as [r|] eqn:Hr; [|by left]. destruct (_ || _) eqn:Ha; [|by left].
  right. right. exists id, r, (set_cancel_requested_at (Some (default now (cancel_requested_at r))) r).
  split_and!; [done|done|]. split; cbn; try done; [left; by exists now|auto|auto|].
  unfold active, is_status in *. cbn. by destruct (status r).
Qed.

Lemma publish_runs id g v snapshot fence db : runs (publishRunSnapshot id g v snapshot fence db).2 = runs db.
Proof.
  unfold publishRunSnapshot, runCoordinateLockStatements.
  destruct (runs db !! id) as [r|] eqn:Hr; [|by rewrite Hr].
  destruct (app_env_protection db !! env_of r); cbn; rewrite Hr; (destruct (app_envs _ !! _); [|done]); by destruct (_ && _).
Qed.

Lemma perform_runs w db : runs_after w db (perform w db).2.
Proof.
  destruct w; cbn [perform]; try (by left); try (apply runs_after_cancel); try (left; apply publish_runs);
    unfold createRun, recordInitialRunExternalId, checkpointRunProviderState; try (case_match; [by left|]).
  1: by right; left; exists id, key, commitSha.
  1: by destruct providerState; (apply runs_after_mutate; [done|]; row_cases).
  all: apply runs_after_mutate; [done|].
  all: try destruct succeeded; cbn [finished_status].
  all: row_cases.
Qed.

(** ** Lemmas for sequences of writes *)

Lemma in_rows id r db : (id, r) ∈ rows db <-> runs db !! id = Some r.
Proof. apply elem_of_map_to_list. Qed.

Lemma another_running_false id r db :
  another_running id r db = false ->
  forall id2 r2, runs db !! id2 = Some r2 -> env_of r2 = env_of r -> status r2 = Running -> id2 = id.
Proof.
  unfold another_running. intros Hx id2 r2 Hr He Hs. destruct (decide (id2 = id)) as [|Hne]; [done|exfalso].
  apply Bool.not_true_iff_false in Hx. apply Hx, existsb_exists. exists (id2, r2). rewrite <- list_elem_of_In, in_rows.
  split; [done|]. cbn. unfold same_env. rewrite bool_decide_eq_true_2 by done. rewrite (proj2 (is_status_spec Running r2) Hs).
  by destruct (String.eqb_spec id2 id).
Qed.

(** At most one run of an environment runs, and exactly the settled runs carry the time they finished at. *)
Record db_ok (db : ControlDb) : Prop := {
  one_running : forall id1 id2 r1 r2, runs db !! id1 = Some r1 -> runs db !! id2 = Some r2 -> env_of r1 = env_of r2 ->
    status r1 = Running -> status r2 = Running -> id1 = id2;
  finished_stamped : forall id r, runs db !! id = Some r -> is_some (finished_at r) = negb (active r);
}.

Lemma change_ok w db db' id r r' :
  db_ok db -> runs db !! id = Some r -> runs db' = <[id := r']> (runs db) -> row_change w db id r r' -> db_ok db'.
Proof.
  intros [H1 H2] Hr Hdb Hc. pose proof (ch_key _ _ _ _ _ Hc) as Hk.
  assert (He : env_of r' = env_of r) by (unfold env_of; by rewrite Hk).
  assert (Hrun : status r' = Running -> forall id2 r2, runs db !! id2 = Some r2 -> env_of r2 = env_of r -> status r2 = Running -> id2 = id).
  { intros Hs id2 r2 Hr2 He2 Hs2. destruct (ch_running _ _ _ _ _ Hc Hs) as [Hold|[Hno _]]; [by eapply H1|].
    by eapply another_running_false. }
  split; rewrite Hdb.
  - intros id1 id2 r1 r2. rewrite !lookup_insert_Some.
    intros [[<- <-]|[Hn1 Hr1]] [[<- <-]|[Hn2 Hr2]] Henv Hs1 Hs2; [done| | |by eapply H1].
    + symmetry. eapply Hrun; eauto. congruence.
    + eapply Hrun; eauto. congruence.
  - intros id1 r1. rewrite lookup_insert_Some. intros [[<- <-]|[_ Hr1]]; [|by eapply H2].
    pose proof (ch_finished _ _ _ _ _ Hc) as Hf. destruct (active r'); [|done].
    rewrite Hf, (H2 _ _ Hr), (ch_active _ _ _ _ _ Hc). done.
Qed.

Lemma created_ok db db' id key commitSha :
  db_ok db -> runs db !! id = None ->
  runs db' = <[id := mkRun key commitSha Pending None None None None None None None None None None None None]> (runs db) -> db_ok db'.
Proof.
  intros [H1 H2] Hid Hdb. split; rewrite Hdb.
  - intros id1 id2 r1 r2. rewrite !lookup_insert_Some. intros [[<- <-]|[? ?]] [[<- <-]|[? ?]]; cbn; [done..|by eapply H1].
  - intros id1 r1. rewrite lookup_insert_Some. intros [[<- <-]|[? ?]]; [done|by eapply H2].
Qed.

Lemma perform_ok w db : db_ok db -> db_ok (perform w db).2.
Proof.
  intros Hok. destruct (perform_runs w db) as [Hs|[(id & key & sha & _ & Hid & Hdb)|(id & r & r' & Hr & Hdb & Hc)]].
  - destruct Hok as [H1 H2]. by split; rewrite Hs.
  - by eapply created_ok.
  - by eapply change_ok.
Qed.

(** Generations never go down. *)
Definition gen_at (db : ControlDb) (e : string * string) : Z := from_option generation 0%Z (app_envs db !! e).

Lemma publish_cases id g v snapshot fence db :
  ((publishRunSnapshot id g v snapshot fence db).1 = false /\ app_envs (publishRunSnapshot id g v snapshot fence db).2 = app_envs db) \/
  exists r e, runs db !! id = Some r /\ app_envs db !! env_of r = Some e /\ generation e = g /\ protection_revision e = v /\
    status r = Running /\ uncancelled r = true /\ is_some (snapshot_json r) = true /\
    lease_live (lease_key r) (fence_holder fence) (fence_nowMs fence) (deploy_locks db) = true /\
    (publishRunSnapshot id g v snapshot fence db).1 = true /\
    app_envs (publishRunSnapshot id g v snapshot fence db).2 =
      <[env_of r := mkEnv (provider e) (generation e + 1) (protection_revision e) (Some id) (Some snapshot)]> (app_envs db).
Proof.
  assert (Hlock : forall db, runs (runCoordinateLockStatements id db) = runs db /\
            app_envs (runCoordinateLockStatements id db) = app_envs db /\
            deploy_locks (runCoordinateLockStatements id db) = deploy_locks db).
  { intros db0. unfold runCoordinateLockStatements. destruct (runs db0 !! id); [|done]. by destruct (app_env_protection db0 !! _). }
  unfold publishRunSnapshot. cbn zeta. destruct (Hlock db) as (-> & -> & ->).
  destruct (runs db !! id) as [r|] eqn:Hr; [|left; split; [done|apply Hlock]].
  destruct (app_envs db !! env_of r) as [e|] eqn:He; [|left; split; [done|apply Hlock]].
  destruct (_ && _) eqn:Hg; [right|left; split; [done|apply Hlock]]. to_prop.
  exists r, e. split_and!; try done. by apply is_status_spec.
Qed.

Lemma perform_envs w db :
  app_envs (perform w db).2 = app_envs db \/ exists id g v s f, w = Publish id g v s f.
Proof.
  destruct w; cbn [perform]; try (by left); try (right; by eauto 6); left;
    unfold createRun, recordInitialRunExternalId, checkpointRunProviderState, requestRunCancellation;
    repeat (case_match; try done); cbn; try done;
    unfold markRunStarted, markRunSuperseded, setRunCommit, recordRunMigrationBarrier, recordRunSnapshot,
      recordRunClassification, parkRunForApproval, approveParkedRun, rejectParkedRun, markRunFinished, markRunCancellationFinished;
    match goal with |- context [mutateRun ?i ?a ?u ?f ?d] => destruct (mutateRun_cases i a u f d) as [->|(? & _ & _ & _ & ->)] end; done.
Qed.

Lemma perform_generation w db e : (gen_at db e <= gen_at (perform w db).2 e)%Z.
Proof.
  destruct (perform_envs w db) as [Hs|(id & g & v & s & f & ->)]; unfold gen_at; [by rewrite Hs|]. cbn [perform].
  destruct (publish_cases id g v s f db) as [[_ ->]|(r & en & _ & He & _ & _ & _ & _ & _ & _ & _ & ->)]; [done|].
  destruct (decide (env_of r = e)) as [<-|Hne]; [|by rewrite lookup_insert_ne].
  rewrite lookup_insert_eq, He. cbn. lia.
Qed.

Lemma performs_generation ws db e : (gen_at db e <= gen_at (performs ws db) e)%Z.
Proof.
  revert db. induction ws as [|w ws IH]; intros db; [done|]. cbn. etransitivity; [apply perform_generation|apply IH].
Qed.

(** A run's key is what it was created with. *)
Lemma perform_key w db id r :
  runs db !! id = Some r -> exists r', runs (perform w db).2 !! id = Some r' /\ run_key r' = run_key r.
Proof.
  intros Hr. destruct (perform_runs w db) as [->|[(i & key & sha & _ & Hi & ->)|(i & r0 & r' & Hi & -> & Hc)]].
  - by exists r.
  - exists r. rewrite lookup_insert_ne; [done|congruence].
  - destruct (decide (i = id)) as [->|Hne].
    + exists r'. rewrite lookup_insert_eq. split; [done|]. rewrite (ch_key _ _ _ _ _ Hc). congruence.
    + exists r. by rewrite lookup_insert_ne.
Qed.

Lemma performs_key ws db id r :
  runs db !! id = Some r -> exists r', runs (performs ws db) !! id = Some r' /\ run_key r' = run_key r.
Proof.
  revert db r. induction ws as [|w ws IH]; intros db r Hr; [by exists r|].
  destruct (perform_key w db id r Hr) as (r1 & Hr1 & Hk). destruct (IH _ _ Hr1) as (r2 & Hr2 & Hk2). exists r2. split; [done|congruence].
Qed.

Lemma finished_kept w db id r : runs db !! id = Some r -> active r = false -> runs (perform w db).2 !! id = Some r.
Proof.
  intros Hr Ha. destruct (perform_runs w db) as [->|[(i & key & sha & _ & Hi & ->)|(i & r0 & r' & Hi & -> & Hc)]]; [done| |].
  - rewrite lookup_insert_ne; [done|congruence].
  - rewrite lookup_insert_ne; [done|]. intros ->. pose proof (ch_active _ _ _ _ _ Hc). congruence.
Qed.

Lemma performs_ok ws db : db_ok db -> db_ok (performs ws db).
Proof. revert db. induction ws as [|w ws IH]; intros db Hok; [done|]. apply IH. by apply perform_ok. Qed.

(** The head of a sorted selection is a row of it, and there is one exactly when the selection is not empty. *)
Lemma head_by_id_desc l : head (by_id_desc l) = None <-> l = [].
Proof.
  unfold by_id_desc. pose proof (merge_sort_Permutation newest_first l) as Hp. split.
  - destruct (merge_sort newest_first l); [|done]. by apply Permutation_nil in Hp.
  - by intros ->.
Qed.

Lemma head_by_id_desc_in l row : head (by_id_desc l) = Some row -> row ∈ l.
Proof.
  unfold by_id_desc. intros H. rewrite <- (merge_sort_Permutation newest_first l).
  destruct (merge_sort newest_first l); [done|]. injection H as ->. left.
Qed.

Lemma getSupersedingRun_none id r db :
  runs db !! id = Some r -> getSupersedingRun id db = None <-> existsb (supersedes id r) (rows db) = false.
Proof.
  intros Hr. unfold getSupersedingRun, where_rows. rewrite Hr, head_by_id_desc, <- Bool.not_true_iff_false, existsb_exists. split.
  - intros Hn (x & Hin & Hx). assert (x ∈ List.filter (supersedes id r) (rows db)) as Hf by (by rewrite list_elem_of_In, filter_In).
    rewrite Hn in Hf. by apply elem_of_nil in Hf.
  - intros Hn. destruct (List.filter _ _) as [|x l] eqn:Hf; [done|]. exfalso. apply Hn. exists x.
    assert (In x (List.filter (supersedes id r) (rows db))) as Hin by (rewrite Hf; by left). by rewrite filter_In in Hin.
Qed.

Lemma getSupersedingRun_some id r row db :
  runs db !! id = Some r -> getSupersedingRun id db = Some row -> row ∈ rows db /\ supersedes id r row = true.
Proof.
  intros Hr. unfold getSupersedingRun, where_rows. rewrite Hr. intros H%head_by_id_desc_in.
  by rewrite list_elem_of_In, filter_In, <- list_elem_of_In in H.
Qed.

(** ** Properties *)

(** A settled run never changes again: after it succeeded or failed, no sequence of writes, cancellations, publications
    and lease changes, by anyone, alters any column of it. *)
Theorem finished_run_immutable (ws : list RunWrite) (db : ControlDb) (id : string) (r : RunRow) :
  runs db !! id = Some r -> active r = false -> runs (performs ws db) !! id = Some r.
Proof. revert db. induction ws as [|w ws IH]; intros db Hr Ha; [done|]. apply IH; [|done]. by apply finished_kept. Qed.

(** C20. However writes interleave, at most one run of an environment runs at a time, and a run carries the time it finished
    at exactly when it is settled. *)
Theorem one_running_per_environment (ws : list RunWrite) (db : ControlDb) : db_ok db -> db_ok (performs ws db).
Proof. apply performs_ok. Qed.

(** Every change of a run is authorized: a write that altered an existing run either requested its cancellation or held
    a live lease of exactly its application and environment; once a cancellation is requested, only a provider's id may
    still be recorded and only the cancellation's own settlement changes the status. *)
Theorem run_changes_are_fenced (w : RunWrite) (db : ControlDb) (id : string) (r r' : RunRow) :
  runs db !! id = Some r -> runs (perform w db).2 !! id = Some r' -> r' <> r ->
  run_key r' = run_key r /\ ((exists now, w = RequestCancel id now) \/ fenced w db r) /\
  (uncancelled r = false -> after_cancellation w = true /\ (settles w = true \/ status r' = status r)).
Proof.
  intros Hr Hr' Hne. destruct (perform_runs w db) as [Hs|[(i & key & sha & _ & Hi & Hs)|(i & r0 & r1 & Hi & Hs & Hc)]]; rewrite Hs in Hr'.
  - congruence.
  - rewrite lookup_insert_ne in Hr' by congruence. congruence.
  - destruct (decide (i = id)) as [->|Hn]; [|rewrite lookup_insert_ne in Hr' by done; congruence].
    rewrite lookup_insert_eq in Hr'. assert (r0 = r) as -> by congruence. injection Hr' as <-.
    split_and!; [apply Hc|apply Hc|apply Hc].
Qed.

(** An older run never deploys over a newer success: with a live lease, a pending uncancelled run of an idle environment
    starts exactly when [getSupersedingRun] finds nothing, and otherwise the run it finds, a later success of the same
    environment and lane, lets [markRunSuperseded] fail it. *)
Theorem start_or_superseded (db : ControlDb) (id logKey : string) (r : RunRow) (now : Z) (fence : LeaseFence) :
  runs db !! id = Some r -> status r = Pending -> uncancelled r = true -> another_running id r db = false ->
  lease_live (lease_key r) (fence_holder fence) (fence_nowMs fence) (deploy_locks db) = true ->
  match getSupersedingRun id db with
  | None => (markRunStarted id logKey now fence db).1 = true
  | Some (newer, row) =>
      (markRunStarted id logKey now fence db).1 = false /\ (markRunSuperseded id newer now fence db).1 = true /\
      runs db !! newer = Some row /\ status row = Succeeded /\ env_of row = env_of r /\ lane (run_key row) = lane (run_key r) /\
      id_lt id newer = true
  end.
Proof.
  intros Hr Hs Hu Ha Hl. unfold markRunStarted, markRunSuperseded, mutateRun. rewrite Hr.
  rewrite (proj2 (is_status_spec Pending r) Hs), Hu, Ha, Hl. cbn [andb negb].
  destruct (getSupersedingRun id db) as [[newer row]|] eqn:Hg.
  - apply (getSupersedingRun_some _ _ _ _ Hr) in Hg as [Hin Hsup]. apply list_elem_of_In in Hin as Hin'.
    assert (existsb (supersedes id r) (rows db) = true) as -> by (apply existsb_exists; eauto).
    assert (existsb (fun n => (n.1 =? newer)%string && supersedes id r n) (rows db) = true) as ->.
    { apply existsb_exists. exists (newer, row). split; [done|]. by rewrite Hsup, String.eqb_refl. }
    unfold supersedes, same_env, same_lane in Hsup. cbn in Hsup. to_prop. rewrite in_rows in Hin.
    repeat match goal with H : bool_decide _ = true |- _ => apply bool_decide_eq_true in H end.
    split_and!; try done. by apply is_status_spec.
  - apply (getSupersedingRun_none _ _ _ Hr) in Hg. by rewrite Hg.
Qed.

(** A publication is a compare-and-swap: it succeeds only for a running, uncancelled run with a recorded snapshot, under a
    live lease and at exactly the generation and protection revision it was classified against; and after it, whatever is
    written in between, no publication of the same environment at that generation succeeds again. *)
Theorem publication_is_cas (ws : list RunWrite) (db : ControlDb) (id id' snapshot snapshot' : string) (g v v' : Z)
    (fence fence' : LeaseFence) (r r' : RunRow) :
  runs db !! id = Some r -> (publishRunSnapshot id g v snapshot fence db).1 = true ->
  status r = Running /\ uncancelled r = true /\ is_some (snapshot_json r) = true /\
  lease_live (lease_key r) (fence_holder fence) (fence_nowMs fence) (deploy_locks db) = true /\
  (exists e, app_envs db !! env_of r = Some e /\ generation e = g /\ protection_revision e = v) /\
  (let later := performs ws (publishRunSnapshot id g v snapshot fence db).2 in
   runs later !! id' = Some r' -> env_of r' = env_of r -> (publishRunSnapshot id' g v' snapshot' fence' later).1 = false).
Proof.
  intros Hr Hp. destruct (publish_cases id g v snapshot fence db) as [[Hf _]|(r0 & e & Hr0 & He & Hg & Hv & Hs & Hu & Hsn & Hl & _ & Henv)].
  { congruence. }
  assert (r0 = r) as -> by congruence. split_and!; try done; [by exists e|]. cbn zeta. intros Hr' He'.
  assert (Hgen : (g + 1 <= gen_at (performs ws (publishRunSnapshot id g v snapshot fence db).2) (env_of r))%Z).
  { etransitivity; [|apply performs_generation]. unfold gen_at. rewrite Henv, lookup_insert_eq. cbn. lia. }
  destruct (publish_cases id' g v' snapshot' fence' (performs ws (publishRunSnapshot id g v snapshot fence db).2))
    as [[? _]|(r1 & e1 & Hr1 & He1 & Hg1 & _)]; [done|exfalso].
  assert (r1 = r') as -> by congruence. rewrite He' in He1. unfold gen_at in Hgen. rewrite He1 in Hgen. cbn in Hgen. lia.
Qed.

(** ** Witnesses *)

Module Demo.

Definition key := mkRunKey "app" "prod" "main" Manual 1 (Some "user:a") None.
Definition running := mkRun key None Running None (Some "log") (Some 2%Z) None None None None (Some "{}") None None None None.
Definition finished := set_finished_at (Some 3%Z) (set_status Succeeded running).
Definition pending := mkRun key None Pending None None None None None None None None None None None None.
Definition held : LeaseFence := mkFence "h" 100.
Definition db : ControlDb :=
  mkDb (<["1" := finished]> (<["2" := running]> ∅)) (<["app:prod" := mkLock "h" 90000]> ∅)
    (<[("app", "prod") := mkEnv "zerops" 4 1 None None]> ∅) ∅.
Definition queued : ControlDb := with_runs (<["0" := pending]> (<["1" := finished]> ∅)) db.
Definition writes := [Finish "2" true (Some 0%Z) 7 held; RequestCancel "1" 8].

End Demo.

Section Witnesses.
Import Demo.

Lemma finished_run_immutable_witness : runs (performs writes db) !! "1" = Some finished.
Proof. apply (finished_run_immutable writes db "1" finished); reflexivity. Defined.

Lemma one_running_per_environment_witness :
  db_ok (performs [Create "1" key None; AcquireLease "app:prod" "h" 90000 5; Start "1" "log" 6 held] (mkDb ∅ ∅ ∅ ∅)).
Proof. apply one_running_per_environment. split; cbn; intros *; rewrite lookup_empty; done. Defined.

Lemma run_changes_are_fenced_witness : run_key (set_snapshot_json (Some "s") running) = run_key running.
Proof.
  apply (run_changes_are_fenced (RecordSnapshot "2" "s" held) db "2" running (set_snapshot_json (Some "s") running));
    [reflexivity|reflexivity|discriminate].
Defined.

Lemma start_or_superseded_witness : (markRunStarted "0" "log" 9 held queued).1 = false /\ (markRunSuperseded "0" "1" 9 held queued).1 = true.
Proof.
  pose proof (start_or_superseded queued "0" "log" pending 9 held eq_refl eq_refl eq_refl eq_refl eq_refl) as H.
  split; apply H.
Defined.

Lemma publication_is_cas_witness : (publishRunSnapshot "2" 4 1 "s2" held (publishRunSnapshot "2" 4 1 "s" held db).2).1 = false.
Proof. by apply (publication_is_cas [] db "2" "2" "s" "s2" 4 1 1 held held running running). Defined.

End Witnesses.
