(* ===== verification/Health.v ===== *)
(** Operations: the state of a health check over its history, and the alerts it raises.

    [operations/src/health.ts]: the URL an HTTP check may reach, the attempt read from a response, the state and the
    transition decided from the prior state ([decideHttpHealth]), staleness, and the telemetry state. The fetch, the
    clock, the abort timer and the [URL] class are parameters. Counters are unbounded integers: JavaScript counts
    exactly to 2^53 attempts. *)

From S2P Require Import Prelude.
From Stdlib Require Import ZArith Lia String Ascii.
From stdpp Require Import base tactics strings list.

Definition DEFAULT_HEALTH_TIMEOUT_MS : Z := 5000.
Definition MAX_HEALTH_TIMEOUT_MS : Z := 30000.
Definition DEFAULT_FAILURE_THRESHOLD : Z := 3.
Definition DEFAULT_RECOVERY_THRESHOLD : Z := 2.

Inductive HealthState := Healthy | Degraded | FailedHealth | Stale | Unavailable.
Inductive HealthAlertKind := FailedCheck | Recovery | UnhealthyTelemetry.
Inductive HttpCheckDetailCode := DetailOk | DetailUnexpectedStatus | DetailRedirect | DetailTimeout | DetailCancelled | DetailNetworkError.

#[global] Instance HealthState_eq_dec : EqDecision HealthState.
Proof. solve_decision. Defined.

Record HttpHealthCheck := mkCheck {
  publicOrigin : string;
  path : string;
  expectedStatus : Z;
  timeoutMs : option Z;
}.

Record HttpCheckAttempt := mkAttempt {
  successful : bool;
  at_observedAt : Z;
  at_latencyMs : Z;
  at_status : option Z;
  at_detailCode : HttpCheckDetailCode;
}.

Record CurrentHttpHealth := mkCurrent {
  state : HealthState;
  observedAt : Z;
  latencyMs : Z;
  detailCode : HttpCheckDetailCode;
  consecutiveFailures : Z;
  consecutiveSuccesses : Z;
  transitionId : option string;
}.

(** [HealthTransition], without the source and the check the service adds. *)
Record HealthTransition := mkTransition {
  tr_id : string;
  tr_kind : HealthAlertKind;
  tr_from : option HealthState;
  tr_to : HealthState;
  tr_at : Z;
}.

(** [None] throws [RangeError]. *)
Definition positiveInteger (value : Z) : option Z :=
  if (Z.abs value <=? 9007199254740991)%Z && (0 <? value)%Z then Some value else None.

(** ** The attempt *)

(** [URL]; [None] is a throw of the constructor. *)
Class UrlParts (U : Type) := {
  new_URL : string -> option U;
  new_URL_on : string -> U -> option U;
  protocol : U -> string;
  username : U -> string;
  password : U -> string;
  pathname : U -> string;
  search : U -> string;
  hash : U -> string;
  origin : U -> string;
}.

Section Attempt.
Context {U : Type} `{UrlParts U}.

Definition resolveHealthCheckUrl (publicOrigin path : string) : option U :=
  o ← new_URL publicOrigin;
  if (negb (protocol o =? "https:")%string && negb (protocol o =? "http:")%string)
     || negb (username o =? "")%string || negb (password o =? "")%string then None
  else if negb (pathname o =? "/")%string || negb (search o =? "")%string || negb (hash o =? "")%string then None
  else if negb (Js.startsWith path "/") || Js.startsWith path "//" || Js.includes path "\" || Js.includes path "#" then None
  else
    target ← new_URL_on path o;
    if negb (origin target =? origin o)%string || negb (username target =? "")%string || negb (password target =? "")%string
    then None else Some target.

(** What the fetch comes to, and which abort fired before it did. *)
Inductive FetchOutcome :=
| Responded (opaqueRedirect : bool) (status : Z)
| Threw (timedOut cancelled : bool).

(** [None] throws before anything is fetched; [outcome] is the answer to the request for the target. *)
Definition runHttpHealthCheck (check : HttpHealthCheck) (outcome : U -> FetchOutcome) (startedAt endedAt : Z) : option HttpCheckAttempt :=
  target ← resolveHealthCheckUrl (publicOrigin check) (path check);
  timeout ← positiveInteger (default DEFAULT_HEALTH_TIMEOUT_MS (timeoutMs check));
  if (MAX_HEALTH_TIMEOUT_MS <? timeout)%Z then None
  else
    expected ← positiveInteger (expectedStatus check);
    if (expected <? 100)%Z || (599 <? expected)%Z then None
    else
      let latency := Z.max 0 (endedAt - startedAt) in
      Some match outcome target with
           | Responded opaque status =>
               if opaque || ((300 <=? status)%Z && (status <? 400)%Z)
               then mkAttempt false endedAt latency (if (status =? 0)%Z then None else Some status) DetailRedirect
               else if negb (status =? expected)%Z then mkAttempt false endedAt latency (Some status) DetailUnexpectedStatus
               else mkAttempt true endedAt latency (Some status) DetailOk
           | Threw timedOut cancelled =>
               mkAttempt false endedAt latency None
                 (if timedOut then DetailTimeout else if cancelled then DetailCancelled else DetailNetworkError)
           end.

End Attempt.

(** ** The decision *)

Definition transition_id (transition : option HealthTransition) (prior : option CurrentHttpHealth) : option string :=
  match transition with Some t => Some (tr_id t) | None => p ← prior; transitionId p end.

Definition prior_is (s : HealthState) (prior : option CurrentHttpHealth) : bool := bool_decide (state <$> prior = Some s).

(** The decision under thresholds already checked. *)
Definition decide_checked (failureThreshold recoveryThreshold : Z) (prior : option CurrentHttpHealth) (attempt : HttpCheckAttempt)
    (id : string) : CurrentHttpHealth * option HealthTransition :=
  if negb (successful attempt) then
    let failures := (from_option consecutiveFailures 0 prior + 1)%Z in
    let s := if (failureThreshold <=? failures)%Z then FailedHealth else Degraded in
    let transition := if bool_decide (s = FailedHealth) && negb (prior_is FailedHealth prior)
                      then Some (mkTransition id FailedCheck (state <$> prior) s (at_observedAt attempt)) else None in
    (mkCurrent s (at_observedAt attempt) (at_latencyMs attempt) (at_detailCode attempt) failures 0 (transition_id transition prior),
     transition)
  else
    let recovering := match prior with Some p => negb (bool_decide (state p = Healthy)) | None => false end in
    let successes := if recovering then (from_option consecutiveSuccesses 0 prior + 1)%Z else recoveryThreshold in
    let s := if recovering && (successes <? recoveryThreshold)%Z
             then (if prior_is FailedHealth prior then FailedHealth else Degraded) else Healthy in
    let transition := if bool_decide (s = Healthy) && prior_is FailedHealth prior
                      then Some (mkTransition id Recovery (state <$> prior) s (at_observedAt attempt)) else None in
    (mkCurrent s (at_observedAt attempt) (at_latencyMs attempt) (at_detailCode attempt) 0 successes (transition_id transition prior),
     transition).

Definition decideHttpHealth (prior : option CurrentHttpHealth) (attempt : HttpCheckAttempt) (id : string)
    (failureThreshold recoveryThreshold : option Z) : option (CurrentHttpHealth * option HealthTransition) :=
  f ← positiveInteger (default DEFAULT_FAILURE_THRESHOLD failureThreshold);
  r ← positiveInteger (default DEFAULT_RECOVERY_THRESHOLD recoveryThreshold);
  Some (decide_checked f r prior attempt id).

(** [None] throws. *)
Definition visibleHealthState (current : option CurrentHttpHealth) (now staleAfterMs : Z) : option HealthState :=
  match current with
  | None => Some Unavailable
  | Some c =>
      stale ← positiveInteger staleAfterMs;
      Some (if (stale <? now - observedAt c)%Z then Stale else state c)
  end.

(** ** Telemetry *)

Record TelemetryHealthObservation := mkTelemetry { tel_observedAt : Z; deadLetters : Z }.

Definition MAX_DEAD_LETTERS : Z := 0.

Definition evaluateTelemetryHealth (observation : TelemetryHealthObservation) : HealthState :=
  if (MAX_DEAD_LETTERS <? deadLetters observation)%Z then FailedHealth else Healthy.

Definition decideTelemetryTransition (prior : option HealthState) (current : HealthState) (at_ : Z) (id : string) : option HealthTransition :=
  if bool_decide (current = Healthy) || bool_decide (prior = Some FailedHealth) then None
  else Some (mkTransition id UnhealthyTelemetry prior current at_).

Definition alertKindText (kind : HealthAlertKind) : string :=
  match kind with FailedCheck => "failed_check" | Recovery => "recovery" | UnhealthyTelemetry => "unhealthy_telemetry" end.

Definition healthAlertDedupKey (id : string) (kind : HealthAlertKind) (channelId : string) : string :=
  "health:" +:+ id +:+ ":" +:+ alertKindText kind +:+ ":" +:+ channelId.

(** ** A history of attempts

    Newest first, as the service records them: each decision starts from the one before. *)

Section History.
Context (failureThreshold recoveryThreshold : Z) (id : string).

Fixpoint current_after (history : list HttpCheckAttempt) : option CurrentHttpHealth :=
  match history with
  | [] => None
  | attempt :: before => Some (decide_checked failureThreshold recoveryThreshold (current_after before) attempt id).1
  end.

(** The alert the newest attempt raises. *)
Definition alert_after (history : list HttpCheckAttempt) : option HealthAlertKind :=
  match history with
  | [] => None
  | attempt :: before =>
      tr_kind <$> (decide_checked failureThreshold recoveryThreshold (current_after before) attempt id).2
  end.

(** The latest attempts in a row that failed, or succeeded. *)
Fixpoint streak (outcome : bool) (history : list HttpCheckAttempt) : Z :=
  match history with
  | attempt :: before => if Bool.eqb (successful attempt) outcome then streak outcome before + 1 else 0
  | [] => 0
  end.

(** What was before the latest successes in a row. *)
Fixpoint before_successes (history : list HttpCheckAttempt) : list HttpCheckAttempt :=
  match history with
  | attempt :: before => if successful attempt then before_successes before else history
  | [] => []
  end.

(** The state by the history alone: a check has failed while its latest [failureThreshold] attempts did, or did until fewer
    successes than [recoveryThreshold] followed. *)
Definition state_of (history : list HttpCheckAttempt) : option HealthState :=
  match history with
  | [] => None
  | _ =>
      Some match before_successes history with
           | [] => Healthy
           | outage =>
               if (recoveryThreshold <=? streak true history)%Z then Healthy
               else if (failureThreshold <=? streak false outage)%Z then FailedHealth else Degraded
           end
  end.

End History.

Section HistoryLemmas.
Context (F R : Z) (id : string).
Context (HF : (1 <= F)%Z) (HR : (1 <= R)%Z).

Lemma streak_nonneg b h : (0 <= streak b h)%Z.
Proof. induction h as [|a h IH]; cbn; [done|]. destruct (Bool.eqb _ _); lia. Qed.

(** What a record knows of the history behind it. *)
Definition summarizes (c : CurrentHttpHealth) (h : list HttpCheckAttempt) : Prop :=
  consecutiveFailures c = streak false h /\ state_of F R h = Some (state c) /\
  (state c <> Healthy -> consecutiveSuccesses c = streak true h).

Lemma state_of_failed a h :
  successful a = false ->
  state_of F R (a :: h) = Some (if (F <=? streak false h + 1)%Z then FailedHealth else Degraded).
Proof. intros Ha. cbn. rewrite Ha. cbn. rewrite Ha. cbn. by destruct (Z.leb_spec R 0); [lia|]. Qed.

Lemma state_of_succeeded a h :
  successful a = true ->
  state_of F R (a :: h) =
  Some match before_successes h with
       | [] => Healthy
       | outage => if (R <=? streak true h + 1)%Z then Healthy else if (F <=? streak false outage)%Z then FailedHealth else Degraded
       end.
Proof. intros Ha. cbn. by rewrite Ha. Qed.

Lemma state_of_prior h s : state_of F R h = Some s ->
  s = match before_successes h with
      | [] => Healthy
      | outage => if (R <=? streak true h)%Z then Healthy else if (F <=? streak false outage)%Z then FailedHealth else Degraded
      end.
Proof. destruct h; [done|]. by intros [= <-]. Qed.

Lemma decide_summarizes a h c :
  summarizes c h -> summarizes (decide_checked F R (Some c) a id).1 (a :: h).
Proof.
  intros (Hf & Hs & Hc). unfold decide_checked. cbn [from_option]. destruct (successful a) eqn:Ha; cbn [negb].
  - pose proof (state_of_prior _ _ Hs) as Hp. unfold summarizes. rewrite (state_of_succeeded _ _ Ha). cbn [fst consecutiveFailures state consecutiveSuccesses].
    split; [cbn; by rewrite Ha|]. assert (Hst : streak true (a :: h) = (streak true h + 1)%Z) by (cbn; by rewrite Ha).
    unfold prior_is. cbn [fmap option_fmap option_map]. rewrite Hst.
    destruct (decide (state c = Healthy)) as [E|E].
    + rewrite (bool_decide_eq_true_2 _ E). cbn [negb andb]. split; [|done].
      rewrite E in Hp. destruct (before_successes h); [done|]. destruct (Z.leb_spec R (streak true h)); [|by destruct (_ <=? _)%Z].
      by destruct (Z.leb_spec R (streak true h + 1)); [|lia].
    + rewrite (bool_decide_eq_false_2 _ E). cbn [negb andb]. rewrite (Hc E).
      destruct (before_successes h) as [|x outage]; [done|]. destruct (Z.leb_spec R (streak true h)); [done|].
      destruct (Z.ltb_spec (streak true h + 1) R), (Z.leb_spec R (streak true h + 1)); try lia; split; try done.
      rewrite Hp. destruct (F <=? _)%Z; [by rewrite bool_decide_eq_true_2|by rewrite bool_decide_eq_false_2].
  - unfold summarizes. rewrite (state_of_failed _ _ Ha). cbn [fst consecutiveFailures state consecutiveSuccesses].
    rewrite Hf. cbn. rewrite Ha. by split_and!.
Qed.

Lemma first_summarizes a : summarizes (decide_checked F R None a id).1 [a].
Proof.
  unfold decide_checked, summarizes. destruct (successful a) eqn:Ha.
  - rewrite (state_of_succeeded _ _ Ha). cbn. rewrite Ha. by split_and!.
  - rewrite (state_of_failed _ _ Ha). cbn [from_option negb fst consecutiveFailures state consecutiveSuccesses streak].
    rewrite Ha. by split_and!.
Qed.

Lemma current_after_summarizes h c : current_after F R id h = Some c -> summarizes c h.
Proof.
  revert c. induction h as [|a h IH]; intros c; [done|]. cbn [current_after]. intros [= <-].
  destruct (current_after F R id h) as [c0|] eqn:E; [by apply decide_summarizes, IH|].
  destruct h; [apply first_summarizes|done].
Qed.

Lemma current_after_state h : state <$> current_after F R id h = state_of F R h.
Proof.
  destruct (current_after F R id h) as [c|] eqn:E.
  - apply current_after_summarizes in E as (_ & -> & _). done.
  - by destruct h.
Qed.

(** An alert is a change into or out of the failed state. *)
Lemma alert_after_states a h :
  alert_after F R id (a :: h) =
  if bool_decide (state_of F R (a :: h) = Some FailedHealth) && negb (bool_decide (state_of F R h = Some FailedHealth)) && negb (successful a)
  then Some FailedCheck
  else if bool_decide (state_of F R (a :: h) = Some Healthy) && bool_decide (state_of F R h = Some FailedHealth) && successful a
       then Some Recovery else None.
Proof.
  rewrite <- !current_after_state. cbn [alert_after current_after fmap option_fmap option_map].
  unfold decide_checked, prior_is. destruct (successful a); cbn [negb andb fst snd state].
  - rewrite andb_false_r, !andb_true_r.
    match goal with |- context [bool_decide (?s = Healthy)] =>
      replace (bool_decide (Some s = Some Healthy)) with (bool_decide (s = Healthy)) by (apply bool_decide_ext; split; congruence) end.
    by destruct (_ && _).
  - rewrite andb_true_r.
    match goal with |- context [bool_decide (?s = FailedHealth)] =>
      replace (bool_decide (Some s = Some FailedHealth)) with (bool_decide (s = FailedHealth)) by (apply bool_decide_ext; split; congruence) end.
    destruct (_ && _); [done|]. by rewrite andb_false_r.
Qed.

End HistoryLemmas.

(** ** Properties *)

Lemma failed_check_exactly F R id a h :
  (2 <= F)%Z -> (1 <= R)%Z ->
  alert_after F R id (a :: h) = Some FailedCheck <-> successful a = false /\ streak false (a :: h) = F.
Proof.
  intros HF HR. rewrite alert_after_states by lia. destruct (successful a) eqn:Ha.
  - rewrite andb_false_r. destruct (_ && _); split; try done; by intros [? _].
  - rewrite state_of_failed by (lia || done). cbn [streak negb]. rewrite Ha. cbn [Bool.eqb]. rewrite andb_true_r, !andb_false_r.
    assert (Hprior : state_of F R h = Some FailedHealth -> (streak false h < F)%Z -> (streak false h + 1 < F)%Z).
    { intros Hs%state_of_prior Hlt. destruct h as [|b h]; [done|]. cbn in *. destruct (successful b) eqn:Hb; cbn in *; [lia|].
      rewrite Hb in Hs. cbn in Hs. destruct (Z.leb_spec R 0); [lia|].
      destruct (Z.leb_spec F (streak false h + 1)); [lia|done]. }
    assert (Hlong : (F <= streak false h)%Z -> state_of F R h = Some FailedHealth).
    { intros Hle. destruct h as [|b h]; [cbn in Hle; lia|]. destruct (successful b) eqn:Hb; [cbn in Hle; rewrite Hb in Hle; cbn in Hle; lia|].
      rewrite state_of_failed by (lia || done). cbn in Hle. rewrite Hb in Hle. cbn in Hle. by destruct (Z.leb_spec F (streak false h + 1)); [|lia]. }
    destruct (Z.leb_spec F (streak false h + 1)) as [Hle|Hlt].
    + rewrite (bool_decide_eq_true_2 (Some FailedHealth = _)) by done. cbn [andb].
      destruct (decide (state_of F R h = Some FailedHealth)) as [E|E].
      * rewrite (bool_decide_eq_true_2 _ E). split; [done|]. intros [_ Heq]. specialize (Hprior E). lia.
      * rewrite (bool_decide_eq_false_2 _ E). split; [|done]. intros _. split; [done|].
        destruct (Z.le_gt_cases F (streak false h)) as [Hx|Hx]; [by apply Hlong in Hx|lia].
    + rewrite (bool_decide_eq_false_2 (Some Degraded = _)) by done. split; [done|]. intros [_ ?]. lia.
Qed.

Lemma recovery_exactly F R id a h :
  (1 <= F)%Z -> (1 <= R)%Z ->
  alert_after F R id (a :: h) = Some Recovery <->
  successful a = true /\ streak true (a :: h) = R /\ (F <= streak false (before_successes h))%Z.
Proof.
  intros HF HR. rewrite alert_after_states by lia. destruct (successful a) eqn:Ha.
  - rewrite andb_false_r, andb_true_r. rewrite state_of_succeeded by done.
    assert (Hst : streak true (a :: h) = (streak true h + 1)%Z) by (cbn; by rewrite Ha). rewrite Hst.
    destruct (before_successes h) as [|x outage] eqn:Hb.
    + assert (state_of F R h <> Some FailedHealth) as E by (intros Hs%state_of_prior; by rewrite Hb in Hs).
      rewrite (bool_decide_eq_false_2 _ E), andb_false_r. split; [done|]. cbn. intros (_ & _ & ?). lia.
    + assert (Hprior : state_of F R h = Some FailedHealth <-> (streak true h < R)%Z /\ (F <= streak false (x :: outage))%Z).
      { destruct h as [|y h']; [done|]. unfold state_of. rewrite Hb.
        destruct (Z.leb_spec R (streak true (y :: h'))), (Z.leb_spec F (streak false (x :: outage))); (split; [intros ?; try congruence|intros ?]); try done; try lia. }
      destruct (decide (state_of F R h = Some FailedHealth)) as [E|E].
      * rewrite (bool_decide_eq_true_2 _ E), andb_true_r. apply Hprior in E as [Hlt Hle].
        destruct (Z.leb_spec R (streak true h + 1)).
        -- rewrite bool_decide_eq_true_2 by done. split; [|done]. intros _. split_and!; [done|lia|done].
        -- rewrite bool_decide_eq_false_2; [split; [done|lia]|]. by destruct (F <=? _)%Z.
      * rewrite (bool_decide_eq_false_2 _ E), andb_false_r. split; [done|]. intros (_ & Hr & Hle). exfalso. apply E, Hprior. split; [lia|done].
  - rewrite !andb_false_r. destruct (_ && _); split; try done; by intros [? _].
Qed.

(** A health check's state and alerts are a function of its attempts alone: the state is [state_of] the history, a
    [failed_check] is raised at exactly the attempt that makes the latest failures in a row reach the threshold, once per
    outage however long it lasts, and a [recovery] at exactly the attempt that completes the successes the threshold
    asks for directly after such an outage. *)
Theorem http_health_history (F R : Z) (id : string) (a : HttpCheckAttempt) (h : list HttpCheckAttempt) :
  (2 <= F)%Z -> (1 <= R)%Z ->
  state <$> current_after F R id (a :: h) = state_of F R (a :: h) /\
  (alert_after F R id (a :: h) = Some FailedCheck <-> successful a = false /\ streak false (a :: h) = F) /\
  (alert_after F R id (a :: h) = Some Recovery <->
     successful a = true /\ streak true (a :: h) = R /\ (F <= streak false (before_successes h))%Z).
Proof.
  intros HF HR. split_and!; [apply current_after_state; lia|by apply failed_check_exactly|apply recovery_exactly; lia].
Qed.

(** ** Witnesses *)

Definition ok_at (t : Z) : HttpCheckAttempt := mkAttempt true t 10 (Some 200%Z) DetailOk.
Definition down_at (t : Z) : HttpCheckAttempt := mkAttempt false t 10 (Some 503%Z) DetailUnexpectedStatus.

Lemma http_health_history_witness :
  state_of 3 2 [ok_at 7; ok_at 6; down_at 5; down_at 4; down_at 3; down_at 2; ok_at 1] = Some Healthy /\
  alert_after 3 2 "t" [ok_at 7; ok_at 6; down_at 5; down_at 4; down_at 3; down_at 2; ok_at 1] = Some Recovery.
Proof.
  split; [reflexivity|].
  apply (http_health_history 3 2 "t" (ok_at 7) [ok_at 6; down_at 5; down_at 4; down_at 3; down_at 2; ok_at 1]); [lia|lia|].
  split_and!; [reflexivity|reflexivity|vm_compute; congruence].
Defined.

(** The alerts of a whole history, newest first. *)
Fixpoint alerts_of (F R : Z) (id : string) (h : list HttpCheckAttempt) : list HealthAlertKind :=
  match h with
  | [] => []
  | a :: before => (match alert_after F R id (a :: before) with Some k => [k] | None => [] end) ++ alerts_of F R id before
  end.

(** With the default thresholds, one failure between two recovering successes loses the recovery alert: the check that
    raised [failed_check] ends healthy, and no [recovery] was ever raised. *)
Example flapping_loses_recovery :
  state_of 3 2 [ok_at 7; ok_at 6; down_at 5; ok_at 4; down_at 3; down_at 2; down_at 1] = Some Healthy /\
  alerts_of 3 2 "t" [ok_at 7; ok_at 6; down_at 5; ok_at 4; down_at 3; down_at 2; down_at 1] = [FailedCheck].
Proof. by vm_compute. Qed.

(** The same flap followed by more failures raises [failed_check] twice, with no [recovery] in between. *)
Example flapping_repeats_failure :
  alerts_of 3 2 "t" [down_at 7; down_at 6; down_at 5; ok_at 4; down_at 3; down_at 2; down_at 1] = [FailedCheck; FailedCheck].
Proof. by vm_compute. Qed.
