(* ===== verification/Steps.v ===== *)
(** A provider's deploy steps, run in order.

    [provider-contract/src/steps.ts]: [runSteps] runs each step until the first failure or a cancellation and skips the
    rest. A step's work, the abort signal and the clock are the environment's: [runOne] moves its state. *)

From S2P Require Import Prelude.
From Stdlib Require Import ZArith Lia String Ascii.
From stdpp Require Import base tactics strings list.

Inductive StepStatus := StepSucceeded | StepFailed | StepSkipped.

#[global] Instance StepStatus_eq_dec : EqDecision StepStatus.
Proof. solve_decision. Defined.

Record DeployStepResult := mkStepResult {
  step_id : string;
  step_status : StepStatus;
  step_error : option string;
  step_startedAt : option Z;
  step_finishedAt : option Z;
}.

Record DeployStep := mkStep { id : string; description : string }.

Record RunStepsOptions := mkOptions { opt_appId : string; opt_env : string; opt_dryRun : bool }.

(** The log, line by line; the time a step took in milliseconds. *)
Inductive LogLine :=
| LogDeploy (appId env : string) (dryRun : bool) (count : nat)
| LogPlan (id description : string)
| LogCancelled (id : string)
| LogStarted (id : string)
| LogSucceeded (id : string) (milliseconds : Z)
| LogFailed (id message : string).

Definition CANCELLED : string := "deploy cancelled".

(** The run's environment [E]: whether the signal is aborted, the clock, and a step's work: [runOne] leads to the world in
    which the work has settled, resolved or rejected, or the signal was aborted before it did. *)
Class StepEnv (E : Type) := {
  aborted : E -> bool;
  clock : E -> Z;
  runOne : DeployStep -> E -> (string + unit) * E;
}.

Section Steps.
Context {E : Type} `{StepEnv E}.

(** [untilCancelled(runOne(step), signal)]: the work starts first; an abort before it settles wins. *)
Definition untilCancelled (step : DeployStep) (e : E) : (string + unit) * E :=
  let (outcome, e) := runOne step e in
  if aborted e then (inl CANCELLED, e) else (outcome, e).

Record StepsRun := mkStepsRun { results : list DeployStepResult; stopped : bool; logged : list LogLine; world : E }.

(** One turn of the loop. *)
Definition run_step (run : StepsRun) (step : DeployStep) : StepsRun :=
  if stopped run then
    mkStepsRun (results run ++ [mkStepResult (id step) StepSkipped None None None]) true (logged run) (world run)
  else if aborted (world run) then
    mkStepsRun (results run ++ [mkStepResult (id step) StepSkipped None None None]) true (logged run ++ [LogCancelled (id step)]) (world run)
  else
    let startedAt := clock (world run) in
    let (outcome, e) := untilCancelled step (world run) in
    let finishedAt := clock e in
    match outcome with
    | inr _ =>
        mkStepsRun (results run ++ [mkStepResult (id step) StepSucceeded None (Some startedAt) (Some finishedAt)]) false
          (logged run ++ [LogStarted (id step); LogSucceeded (id step) (finishedAt - startedAt)]) e
    | inl message =>
        mkStepsRun (results run ++ [mkStepResult (id step) StepFailed (Some message) (Some startedAt) (Some finishedAt)]) true
          (logged run ++ [LogStarted (id step); LogFailed (id step) message]) e
    end.

Definition plan_log (steps : list DeployStep) (options : RunStepsOptions) : list LogLine :=
  LogDeploy (opt_appId options) (opt_env options) (opt_dryRun options) (length steps)
  :: map (fun step => LogPlan (id step) (description step)) steps.

Definition runSteps (steps : list DeployStep) (options : RunStepsOptions) (e : E) : StepStatus * StepsRun :=
  let run := foldl run_step (mkStepsRun [] false (plan_log steps options) e) steps in
  (if stopped run then StepFailed else StepSucceeded, run).

(** ** What the loop does *)

Definition skipped (step : DeployStep) : DeployStepResult := mkStepResult (id step) StepSkipped None None None.

Lemma stopped_skips run steps :
  stopped run = true ->
  foldl run_step run steps = mkStepsRun (results run ++ map skipped steps) true (logged run) (world run).
Proof.
  revert run. induction steps as [|step steps IH]; intros run Hs; cbn.
  - rewrite app_nil_r, <- Hs. by destruct run.
  - rewrite IH; unfold run_step; rewrite Hs; [|done]. cbn. by rewrite <- app_assoc.
Qed.

(** The steps that succeed one after another, from world to world. *)
Inductive succeed : list DeployStep -> E -> list DeployStepResult -> E -> Prop :=
| succeed_nil e : succeed [] e [] e
| succeed_cons step steps e e' rs e'' :
    aborted e = false -> untilCancelled step e = (inr tt, e') -> succeed steps e' rs e'' ->
    succeed (step :: steps) e (mkStepResult (id step) StepSucceeded None (Some (clock e)) (Some (clock e')) :: rs) e''.

(** How the run of the rest begins once those are done. *)
Inductive ending : list DeployStep -> E -> list DeployStepResult -> bool -> E -> Prop :=
| ending_done e : ending [] e [] false e
| ending_cancelled step steps e : aborted e = true -> ending (step :: steps) e (map skipped (step :: steps)) true e
| ending_failed step steps e e' message :
    aborted e = false -> untilCancelled step e = (inl message, e') ->
    ending (step :: steps) e
      (mkStepResult (id step) StepFailed (Some message) (Some (clock e)) (Some (clock e')) :: map skipped steps) true e'.

Lemma loop_spec steps e rs0 log :
  exists done rest rs rs' stop e' e'' log',
    steps = done ++ rest /\ succeed done e rs e' /\ ending rest e' rs' stop e'' /\
    foldl run_step (mkStepsRun rs0 false log e) steps = mkStepsRun (rs0 ++ rs ++ rs') stop log' e''.
Proof.
  revert e rs0 log. induction steps as [|step steps IH]; intros e rs0 log.
  { exists [], [], [], [], false, e, e, log. rewrite !app_nil_r. split_and!; try done; constructor. }
  cbn [foldl]. unfold run_step at 2. cbn [stopped world results logged]. destruct (aborted e) eqn:Ha.
  - exists [], (step :: steps), [], (map skipped (step :: steps)), true, e, e. eexists. rewrite stopped_skips by done. cbn.
    split_and!; [done|constructor|by constructor|by rewrite <- app_assoc].
  - destruct (untilCancelled step e) as [[message|[]] e1] eqn:Hu.
    + eexists [], (step :: steps), [], _, true, e, e1, _. rewrite stopped_skips by done. cbn.
      split_and!; [done|constructor|by apply ending_failed|by rewrite <- app_assoc].
    + edestruct (IH e1) as (done & rest & rs & rs' & stop & e' & e'' & log' & -> & Hd & Hr & Hrun).
      exists (step :: done), rest. eexists (_ :: rs), rs', stop, e', e'', log'. split_and!; [done| |exact Hr|].
      * by eapply succeed_cons.
      * rewrite Hrun. by rewrite <- app_assoc.
Qed.

Lemma succeed_results steps e rs e' :
  succeed steps e rs e' -> map step_id rs = map id steps /\ Forall (fun r => step_status r = StepSucceeded) rs.
Proof. induction 1 as [|???????? _ [IH1 IH2]]; cbn; [by split; constructor|]. split; [congruence|by constructor]. Qed.

Lemma skipped_results steps :
  map step_id (map skipped steps) = map id steps /\ Forall (fun r => step_status r = StepSkipped) (map skipped steps).
Proof. induction steps as [|step steps [IH1 IH2]]; cbn; [by split; constructor|]. split; [congruence|by constructor]. Qed.

(** [runSteps] accounts for every step: the results name the steps in order; a prefix succeeded, each from the world the
    one before left; then either nothing is left, or the signal was aborted and nothing more ran, or one step failed;
    and every later step is skipped without running. The run is [succeeded] exactly when every step is. *)
Theorem runSteps_spec (steps : list DeployStep) (options : RunStepsOptions) (e : E) :
  let (status, run) := runSteps steps options e in
  map step_id (results run) = map id steps /\
  (status = StepSucceeded <-> Forall (fun r => step_status r = StepSucceeded) (results run)) /\
  exists done rest rs rs' e',
    steps = done ++ rest /\ results run = rs ++ rs' /\ succeed done e rs e' /\ ending rest e' rs' (stopped run) (world run).
Proof.
  unfold runSteps. destruct (loop_spec steps e [] (plan_log steps options)) as (done & rest & rs & rs' & stop & e' & e'' & log' & Hs & Hd & Hr & ->).
  cbn [app results stopped world].
  pose proof (succeed_results _ _ _ _ Hd) as [Hids Hall]. split_and!.
  - rewrite Hs, !map_app, Hids. f_equal. destruct Hr; [done|apply skipped_results|]. cbn. f_equal. apply skipped_results.
  - rewrite Forall_app. split; [intros Hst; split; [done|]|intros [_ Hf]].
    + destruct Hr; [constructor|done..].
    + destruct Hr as [|step rest e1 _|step rest e1 e2 m _ _]; [done|inversion Hf; done..].
  - exists done, rest, rs, rs', e'. by split_and!.
Qed.

End Steps.

Module Demo.
(** A world of steps to come: its clock, and what each step does. *)
#[export] Instance scripted : StepEnv (Z * list (string + unit)) := {|
  aborted := fun e => (9 <? e.1)%Z;
  clock := fst;
  runOne := fun _ e => match e.2 with o :: rest => (o, (e.1 + 1, rest)%Z) | [] => (inr tt, e) end;
|}.
Definition steps := [mkStep "a" "A"; mkStep "b" "B"; mkStep "c" "C"].
Definition options := mkOptions "app" "prod" false.
End Demo.

Section Checks.
Import Demo.

Example runSteps_fails :
  map step_status (results (runSteps steps options (1%Z, [inr tt; inl "boom"; inr tt])).2) =
  [StepSucceeded; StepFailed; StepSkipped].
Proof. by vm_compute. Qed.

End Checks.
