(* ===== verification/Diff.v ===== *)
(** The line diff of two texts.

    [canvas-kernel/src/client/diffLines.ts]: [computeLCS] fills a table of lengths and walks it back; [buildDiffLines]
    merges the two texts along the common subsequence. Rows of the table are lists; the two [while] loops carry fuel,
    and the theorem below shows the fuel given is enough. *)

From S2P Require Import Prelude.
From Stdlib Require Import ZArith Lia String Ascii.
From stdpp Require Import base tactics strings list.

Inductive DiffType := Same | Removed | Added.
Record DiffLine := mkDiffLine { type : DiffType; line : string }.

#[global] Instance DiffType_eq_dec : EqDecision DiffType.
Proof. solve_decision. Defined.

(** ** The table *)

(** [row[1..n]] from the row above, [prev], and the cell to the left. *)
Fixpoint fill_row (x : string) (b : list string) (prev : list nat) (left : nat) : list nat :=
  match b, prev with
  | y :: b', p :: ((q :: _) as prev') =>
      let v := if (x =? y)%string then p + 1 else Nat.max q left in
      v :: fill_row x b' prev' v
  | _, _ => []
  end.

Definition next_row (x : string) (b : list string) (prev : list nat) : list nat := 0 :: fill_row x b prev 0.

(** The rows from [prev] on. *)
Fixpoint fill (a b : list string) (prev : list nat) : list (list nat) :=
  match a with
  | [] => [prev]
  | x :: a' => prev :: fill a' b (next_row x b prev)
  end.

Definition dp (a b : list string) : list (list nat) := fill a b (replicate (S (length b)) 0).

(** [dp[i]?.[j] ?? 0] *)
Definition cell (table : list (list nat)) (i j : nat) : nat := default 0 (row ← table !! i; row !! j).

(** The walk back; [fuel] turns of the [while] loop. *)
Fixpoint walk (table : list (list nat)) (a b : list string) (fuel i j : nat) (result : list string) : list string :=
  match fuel, i, j with
  | S fuel', S i', S j' =>
      match a !! i' with
      | Some x =>
          if bool_decide (b !! j' = Some x) then walk table a b fuel' i' j' (x :: result)
          else if (cell table i j' <? cell table i' j)%nat then walk table a b fuel' i' j result
          else walk table a b fuel' i j' result
      | None => walk table a b fuel' i j' result
      end
  | _, _, _ => result
  end.

Definition computeLCS (a b : list string) : list string :=
  walk (dp a b) a b (length a + length b) (length a) (length b) [].

(** ** The merge *)

(** The three cursors are the lists still ahead; [None] is a loop that runs out of [fuel]. *)
Fixpoint merge (fuel : nat) (before after lcs : list string) : option (list DiffLine) :=
  match before, after with
  | [], [] => Some []
  | _, _ =>
      match fuel with
      | O => None
      | S fuel' =>
          let is_next line := bool_decide (head lcs = Some line) in
          match before, after with
          | x :: before', y :: after' =>
              if is_next x && is_next y then cons (mkDiffLine Same x) <$> merge fuel' before' after' (tail lcs)
              else if negb (is_next x) then cons (mkDiffLine Removed x) <$> merge fuel' before' after lcs
              else cons (mkDiffLine Added y) <$> merge fuel' before after' lcs
          | x :: before', [] =>
              if negb (is_next x) then cons (mkDiffLine Removed x) <$> merge fuel' before' after lcs
              else merge fuel' before after lcs
          | [], y :: after' => cons (mkDiffLine Added y) <$> merge fuel' before after' lcs
          | [], [] => Some []
          end
      end
  end.

Definition buildDiffLines (before after : string) : option (list DiffLine) :=
  let beforeLines := Js.split "010" before in
  let afterLines := Js.split "010" after in
  merge (length beforeLines + length afterLines) beforeLines afterLines (computeLCS beforeLines afterLines).

(** ** The reference: the length of a longest common subsequence, from the end of both lists *)

Fixpoint lcs_length (ra rb : list string) : nat :=
  match ra with
  | [] => 0
  | x :: ra' =>
      (fix inner (rb : list string) : nat :=
         match rb with
         | [] => 0
         | y :: rb' => if (x =? y)%string then S (lcs_length ra' rb') else Nat.max (lcs_length ra' rb) (inner rb')
         end) rb
  end.

Lemma lcs_length_nil_r ra : lcs_length ra [] = 0.
Proof. by destruct ra. Qed.

Lemma lcs_length_cons x y ra rb :
  lcs_length (x :: ra) (y :: rb) =
  if (x =? y)%string then S (lcs_length ra rb) else Nat.max (lcs_length ra (y :: rb)) (lcs_length (x :: ra) rb).
Proof. done. Qed.

(** No common subsequence is longer. *)
Lemma lcs_length_max s ra rb : sublist s ra -> sublist s rb -> length s <= lcs_length ra rb.
Proof.
  revert s rb. induction ra as [|x ra IHa]; intros s rb.
  { intros ->%sublist_nil_r. cbn. lia. }
  revert s. induction rb as [|y rb IHb]; intros s Ha Hb.
  { apply sublist_nil_r in Hb as ->. cbn. lia. }
  rewrite lcs_length_cons. destruct (String.eqb_spec x y) as [<-|Hne].
  - destruct s as [|z s]; [cbn; lia|]. apply sublist_cons_l in Ha as (a1 & a2 & Ha & Hs). apply sublist_cons_l in Hb as (b1 & b2 & Hb & Hs').
    assert (sublist s ra). { destruct a1; injection Ha; intros; subst; [done|]. by apply sublist_inserts_l, sublist_cons. }
    assert (sublist s rb). { destruct b1; injection Hb; intros; subst; [done|]. by apply sublist_inserts_l, sublist_cons. }
    pose proof (IHa s rb ltac:(done) ltac:(done)). cbn [length]. lia.
  - inversion Ha as [|? s' ? Ha'|? ? ? Ha']; subst.
    + inversion Hb as [|? ? ? Hb'|? ? ? Hb']; subst; [congruence|]. specialize (IHb _ Ha Hb'). lia.
    + specialize (IHa _ _ Ha' Hb). lia.
Qed.

(** ** The table holds those lengths *)

(** The first [n] lines, last first. *)
Definition upto (n : nat) (l : list string) : list string := rev (take n l).

Lemma upto_S n l x : l !! n = Some x -> upto (S n) l = x :: upto n l.
Proof. intros H. unfold upto. rewrite (take_S_r _ _ _ H), rev_app_distr. done. Qed.

Lemma upto_all l : upto (length l) l = rev l.
Proof. unfold upto. by rewrite firstn_all. Qed.

(** A row that holds the lengths against the first [i] lines of [a]. *)
Definition row_ok (ra b : list string) (row : list nat) : Prop :=
  length row = S (length b) /\ forall j, j <= length b -> row !! j = Some (lcs_length ra (upto j b)).

Lemma fill_row_spec x ra b n :
  forall m prev left,
  m + n = length b -> row_ok ra b prev ->
  left = lcs_length (x :: ra) (upto m b) ->
  length (fill_row x (drop m b) (drop m prev) left) = n /\
  forall k, k < n -> fill_row x (drop m b) (drop m prev) left !! k = Some (lcs_length (x :: ra) (upto (m + S k) b)).
Proof.
  induction n as [|n IH]; intros m prev left Hm Hrow Hleft.
  { rewrite (drop_ge b) by lia. cbn. split; [done|lia]. }
  destruct Hrow as [Hlen Hrow]. assert (m < length b) as Hlt by lia.
  destruct (lookup_lt_is_Some_2 b m Hlt) as [y Hy].
  assert (Hp : prev !! m = Some (lcs_length ra (upto m b))) by (apply Hrow; lia).
  assert (Hq : prev !! S m = Some (lcs_length ra (upto (S m) b))) by (apply Hrow; lia).
  rewrite (drop_S _ _ _ Hy), (drop_S _ _ _ Hp), (drop_S _ _ _ Hq). cbn [fill_row].
  set (v := if (x =? y)%string then _ else _).
  assert (Hv : v = lcs_length (x :: ra) (upto (S m) b)).
  { unfold v. rewrite (upto_S _ _ _ Hy), lcs_length_cons, Hleft. destruct (x =? y)%string; [lia|done]. }
  rewrite <- (drop_S _ _ _ Hq).
  destruct (IH (S m) prev v ltac:(lia) (conj Hlen Hrow) Hv) as [Hl Hk]. split; [cbn; by rewrite Hl|].
  intros [|k] Hkn; cbn [lookup list_lookup].
  - rewrite Hv. by rewrite Nat.add_1_r.
  - etransitivity; [apply (Hk k); lia|]. do 3 f_equal. lia.
Qed.

Lemma next_row_ok x ra b prev : row_ok ra b prev -> row_ok (x :: ra) b (next_row x b prev).
Proof.
  intros Hrow. destruct (fill_row_spec x ra b (length b) 0 prev 0 eq_refl Hrow) as [Hl Hk]; [done|]. rewrite !drop_0 in *.
  split; [unfold next_row; cbn; by rewrite Hl|]. intros [|j] Hj; unfold next_row; cbn [lookup list_lookup].
  - done.
  - etransitivity; [apply (Hk j); lia|]. done.
Qed.

Lemma fill_spec a b ra prev i :
  row_ok ra b prev -> i <= length a ->
  exists row, fill a b prev !! i = Some row /\ row_ok (upto i a ++ ra) b row.
Proof.
  revert ra prev i. induction a as [|x a IH]; intros ra prev i Hrow Hi.
  - assert (i = 0) as -> by (cbn in Hi; lia). by exists prev.
  - destruct i as [|i]; [by exists prev|]. cbn in Hi.
    destruct (IH (x :: ra) (next_row x b prev) i (next_row_ok _ _ _ _ Hrow) ltac:(lia)) as (row & Hr & Hok).
    exists row. split; [done|]. unfold upto in *. cbn. by rewrite <- app_assoc.
Qed.

Lemma first_row_ok b : row_ok [] b (replicate (S (length b)) 0).
Proof.
  split; [by rewrite length_replicate|]. intros j Hj. rewrite lookup_replicate_2 by lia. done.
Qed.

Lemma cell_spec a b i j :
  i <= length a -> j <= length b -> cell (dp a b) i j = lcs_length (upto i a) (upto j b).
Proof.
  intros Hi Hj. destruct (fill_spec a b [] _ i (first_row_ok b) Hi) as (row & Hr & _ & Hok). unfold cell, dp.
  rewrite Hr. cbn [mbind option_bind]. rewrite (Hok j Hj). cbn. by rewrite app_nil_r.
Qed.

(** ** The walk finds a longest one *)

Lemma walk_spec a b fuel i j result :
  i + j <= fuel -> i <= length a -> j <= length b ->
  exists s, walk (dp a b) a b fuel i j result = s ++ result /\ sublist s (take i a) /\ sublist s (take j b) /\
    length s = lcs_length (upto i a) (upto j b).
Proof.
  revert i j result. induction fuel as [|fuel IH]; intros i j result Hf Hi Hj.
  { assert (i = 0) as -> by lia. exists []. cbn. split_and!; try done; apply sublist_nil_l. }
  destruct i as [|i]; [exists []; cbn; split_and!; try done; apply sublist_nil_l|].
  destruct j as [|j]; [exists []; cbn [walk]; split_and!; try done; [apply sublist_nil_l..|by rewrite lcs_length_nil_r]|].
  destruct (lookup_lt_is_Some_2 a i ltac:(lia)) as [x Hx]. destruct (lookup_lt_is_Some_2 b j ltac:(lia)) as [y Hy].
  cbn [walk]. rewrite Hx, Hy, !cell_spec by lia.
  rewrite (upto_S _ _ _ Hx), (upto_S _ _ _ Hy), lcs_length_cons, <- (upto_S _ _ _ Hx), <- (upto_S _ _ _ Hy).
  rewrite (take_S_r _ _ _ Hx), (take_S_r _ _ _ Hy).
  case_bool_decide as Heq.
  - injection Heq as <-. rewrite String.eqb_refl. destruct (IH i j (y :: result)) as (s & Hs & Ha & Hb & Hl); [lia..|].
    exists (s ++ [y]). rewrite Hs, <- app_assoc, length_app, Hl. cbn. split_and!; [done|by apply sublist_app..|lia].
  - assert ((x =? y)%string = false) as -> by (apply String.eqb_neq; congruence).
    destruct (Nat.ltb_spec (lcs_length (upto (S i) a) (upto j b)) (lcs_length (upto i a) (upto (S j) b))).
    + destruct (IH i (S j) result) as (s & Hs & Ha & Hb & Hl); [lia..|]. exists s. rewrite (take_S_r _ _ _ Hy) in Hb.
      split_and!; [done|by apply sublist_inserts_r|done|lia].
    + destruct (IH (S i) j result) as (s & Hs & Ha & Hb & Hl); [lia..|]. exists s. rewrite (take_S_r _ _ _ Hx) in Ha.
      split_and!; [done|done|by apply sublist_inserts_r|lia].
Qed.

Lemma computeLCS_common a b : sublist (computeLCS a b) a /\ sublist (computeLCS a b) b.
Proof.
  unfold computeLCS. destruct (walk_spec a b (length a + length b) (length a) (length b) []) as (s & -> & Ha & Hb & _); [lia..|].
  rewrite firstn_all in Ha. rewrite firstn_all in Hb. by rewrite app_nil_r.
Qed.

Lemma sublist_rev (l k : list string) : sublist l k -> sublist (rev l) (rev k).
Proof.
  induction 1 as [|x l k _ IH|x l k _ IH]; cbn; [constructor| |].
  - by apply sublist_app.
  - by apply sublist_inserts_r.
Qed.

Lemma computeLCS_longest a b s : sublist s a -> sublist s b -> length s <= length (computeLCS a b).
Proof.
  intros Ha%sublist_rev Hb%sublist_rev. pose proof (lcs_length_max _ _ _ Ha Hb) as Hm. rewrite length_rev in Hm.
  unfold computeLCS. destruct (walk_spec a b (length a + length b) (length a) (length b) []) as (r & -> & _ & _ & Hl); [lia..|].
  rewrite app_nil_r, Hl, !upto_all. done.
Qed.

(** ** The merge *)

Definition lines_of (p : DiffType -> bool) (l : list DiffLine) : list string := map line (List.filter (fun d => p (type d)) l).
Definition is_type (t u : DiffType) : bool := bool_decide (t = u).
Definition not_type (t u : DiffType) : bool := negb (bool_decide (t = u)).

(** What the diff says of both texts. *)
Definition diffs (before after lcs : list string) (d : list DiffLine) : Prop :=
  lines_of (not_type Added) d = before /\ lines_of (not_type Removed) d = after /\ lines_of (is_type Same) d = lcs.

Lemma diffs_same before after lcs d x :
  diffs before after lcs d -> diffs (x :: before) (x :: after) (x :: lcs) (mkDiffLine Same x :: d).
Proof. unfold diffs. intros (<- & <- & <-). done. Qed.

Lemma diffs_removed before after lcs d x : diffs before after lcs d -> diffs (x :: before) after lcs (mkDiffLine Removed x :: d).
Proof. unfold diffs. intros (<- & <- & <-). done. Qed.

Lemma diffs_added before after lcs d x : diffs before after lcs d -> diffs before (x :: after) lcs (mkDiffLine Added x :: d).
Proof. unfold diffs. intros (<- & <- & <-). done. Qed.

Lemma sublist_tail (l k : list string) x : sublist (x :: l) (x :: k) -> sublist l k.
Proof. intros H. inversion H as [|? ? ? H'|? ? ? H']; subst; [done|]. etransitivity; [|exact H']. by apply sublist_cons. Qed.

Lemma sublist_other (l k : list string) x : sublist l (x :: k) -> head l <> Some x -> sublist l k.
Proof. intros H Hx. inversion H as [|? ? ? H'|? ? ? H']; subst; [by destruct Hx|done]. Qed.

Lemma merge_spec fuel before after lcs :
  length before + length after <= fuel -> sublist lcs before -> sublist lcs after ->
  exists d, merge fuel before after lcs = Some d /\ diffs before after lcs d.
Proof.
  revert before after lcs. induction fuel as [|fuel IH]; intros before after lcs Hf Hb Ha.
  { destruct before, after; cbn in Hf; try lia. apply sublist_nil_r in Hb as ->. by exists []. }
  destruct before as [|x before], after as [|y after]; cbn [merge].
  - apply sublist_nil_r in Hb as ->. by exists [].
  - apply sublist_nil_r in Hb as ->. destruct (IH [] after []) as (d & -> & Hd); [cbn in *; lia|apply sublist_nil_l..|].
    eexists. split; [done|]. by apply diffs_added.
  - apply sublist_nil_r in Ha as ->. cbn. destruct (IH before [] []) as (d & -> & Hd); [cbn in *; lia|apply sublist_nil_l..|].
    eexists. split; [done|]. by apply diffs_removed.
  - destruct (bool_decide (head lcs = Some x)) eqn:Ex; cbn [andb negb].
    + apply bool_decide_eq_true in Ex. destruct lcs as [|z lcs]; [done|]. injection Ex as ->. cbn [head tail].
      destruct (bool_decide (Some x = Some y)) eqn:Ey.
      * apply bool_decide_eq_true in Ey. injection Ey as <-.
        destruct (IH before after lcs) as (d & -> & Hd); [cbn in *; lia|by eapply sublist_tail..|].
        eexists. split; [done|]. by apply diffs_same.
      * apply bool_decide_eq_false in Ey.
        destruct (IH (x :: before) after (x :: lcs)) as (d & -> & Hd); [cbn in *; lia|done|by eapply sublist_other|].
        eexists. split; [done|]. by apply diffs_added.
    + apply bool_decide_eq_false in Ex.
      destruct (IH before (y :: after) lcs) as (d & -> & Hd); [cbn in *; lia|by eapply sublist_other|done|].
      eexists. split; [done|]. by apply diffs_removed.
Qed.

(** ** Properties *)

(** The line diff is exact and minimal, and its loop ends: [buildDiffLines] always produces a diff; its lines that are not
    added are the old text, its lines that are not removed are the new one, in order, and no two texts with those lines
    have more lines in common than it marks as the same. *)
Theorem buildDiffLines_spec (before after : string) :
  exists d, buildDiffLines before after = Some d /\
    Js.join (String "010" "") (lines_of (not_type Added) d) = before /\
    Js.join (String "010" "") (lines_of (not_type Removed) d) = after /\
    forall s, sublist s (Js.split "010" before) -> sublist s (Js.split "010" after) ->
      length s <= length (lines_of (is_type Same) d).
Proof.
  unfold buildDiffLines. destruct (computeLCS_common (Js.split "010" before) (Js.split "010" after)) as [Hb Ha].
  destruct (merge_spec _ _ _ _ (le_n _) Hb Ha) as (d & Hd & H1 & H2 & H3). exists d. split; [exact Hd|].
  rewrite H1, H2, H3, !join_split. split_and!; [done|done|]. intros s. apply computeLCS_longest.
Qed.

Example diff_small :
  buildDiffLines ("a" +:+ String "010" ("b" +:+ String "010" "c")) ("b" +:+ String "010" ("c" +:+ String "010" "d")) =
  Some [mkDiffLine Removed "a"; mkDiffLine Same "b"; mkDiffLine Same "c"; mkDiffLine Added "d"].
Proof. by vm_compute. Qed.
