(* ===== verification/Jobs.v ===== *)
(** The job queue: claims under a visibility timeout, and the consumer that settles each delivery.

    [platform-node/src/job-queue-postgres.ts]: [PostgresJobQueue]'s statements over an explicit table, and one pass of
    [PostgresJobConsumer]. The handler, the decoder, the clock and the database's availability are the environment's;
    the polling timer is not modelled: a pass is [poll]. *)

From S2P Require Import Prelude.
From Stdlib Require Import ZArith Lia String Ascii.
From stdpp Require Import base tactics strings gmap sorting list.

(** ** The table *)

Record JobRow := mkJobRow {
  queue : string;
  payload : string;
  visible_at : Z;
  attempts : Z;
  max_attempts : Z;
  created_at : Z;
}.

Notation JobTable := (gmap string JobRow).

(** A claimed delivery, its payload still text. *)
Record Job := mkJob { job_id : string; job_payload : string; job_attempts : Z; job_maxAttempts : Z }.

Definition DEFAULT_MAX_ATTEMPTS : Z := 5.

(** [send], with the id minted on the queue's clock and the serialized message; the delay is in milliseconds here. *)
Definition send (queueName : string) (maxAttempts : Z) (id message : string) (delayMs now : Z) (t : JobTable) : JobTable :=
  match t !! id with
  | Some _ => t
  | None => <[id := mkJobRow queueName message (now + Z.max 0 delayMs) 0 maxAttempts now]> t
  end.

(** [ORDER BY visible_at, id] *)
Definition due_before (a b : string * JobRow) : Prop :=
  match (visible_at a.2 ?= visible_at b.2)%Z with
  | Lt => True
  | Eq => String.ltb b.1 a.1 = false
  | Gt => False
  end.
#[global] Instance due_before_dec : RelDecision due_before.
Proof. intros a b. unfold due_before. destruct (_ ?= _)%Z; apply _. Defined.

Definition id_order (a b : string) : Prop := String.ltb b a = false.
#[global] Instance id_order_dec : RelDecision id_order.
Proof. unfold id_order. solve_decision. Defined.

(** The sub-select; [locked] are the rows another transaction holds, which it skips. *)
Definition claimable (queueName : string) (now : Z) (locked : string -> bool) (row : string * JobRow) : bool :=
  (queue row.2 =? queueName)%string && (visible_at row.2 <=? now)%Z && negb (locked row.1).

Definition selected (queueName : string) (now : Z) (limit : nat) (locked : string -> bool) (t : JobTable) : list string :=
  map fst (take limit (merge_sort due_before (List.filter (claimable queueName now locked) (map_to_list t)))).

Definition hide (visibleAt : Z) (row : JobRow) : JobRow :=
  mkJobRow (queue row) (payload row) visibleAt (attempts row + 1) (max_attempts row) (created_at row).

Definition delivery (t : JobTable) (id : string) : option Job :=
  row ← t !! id; Some (mkJob id (payload row) (attempts row) (max_attempts row)).

(** [claimRaw]: the statement hides and counts the selected rows; the result is in id order. *)
Definition claimRaw (queueName : string) (limit : nat) (visibilityTimeoutMs now : Z) (locked : string -> bool) (t : JobTable)
    : list Job * JobTable :=
  let ids := selected queueName now limit locked t in
  let t' := foldr (fun id t => alter (hide (now + visibilityTimeoutMs)) id t) t ids in
  (omap (delivery t') (merge_sort id_order ids), t').

Definition ack (id : string) (t : JobTable) : JobTable := delete id t.

Definition defer (id : string) (delayMs now : Z) (t : JobTable) : JobTable :=
  alter (fun row => mkJobRow (queue row) (payload row) (now + delayMs) (attempts row) (max_attempts row) (created_at row)) id t.

(** ** The consumer *)

(** [decode] is [JSON.parse] and the caller's narrowing; [None] throws. [handle] says whether the handler resolved. [write_ok]
    says whether the next settling statement reaches the database. *)
Class ConsumerEnv (E T : Type) := {
  now : E -> Z;
  decode : string -> option T;
  handle : Job -> T -> E -> bool * E;
  write_ok : E -> bool;
}.

(** [1_000 * 2 ** attempts], at most a minute. *)
Definition retryDelayMs (attempts : Z) : Z := Z.min 60000 (1000 * 2 ^ attempts).

Definition spent (job : Job) : bool := (job_maxAttempts job <=? job_attempts job)%Z.

Section Consumer.
Context {E T : Type} `{ConsumerEnv E T}.

(** The statements of a settlement: one that does not reach the database changes nothing, and [poll] logs the throw. *)
Definition settle (f : JobTable -> JobTable) (e : E) (t : JobTable) : JobTable := if write_ok e then f t else t.

Definition give_back (job : Job) (e : E) (t : JobTable) : JobTable :=
  if spent job then settle (ack (job_id job)) e t
  else settle (defer (job_id job) (retryDelayMs (job_attempts job)) (now e)) e t.

Definition handleRaw (job : Job) (e : E) (t : JobTable) : E * JobTable :=
  match decode (job_payload job) with
  | None => (e, give_back job e t)
  | Some message =>
      let (ok, e) := handle job message e in
      (e, if ok then settle (ack (job_id job)) e t else give_back job e t)
  end.

(** The rest of the pass; also which jobs the handler resolved. *)
Fixpoint handle_all (jobs : list Job) (e : E) (t : JobTable) (resolved : list string) : list string * E * JobTable :=
  match jobs with
  | [] => (resolved, e, t)
  | job :: rest =>
      let ok := match decode (job_payload job) with Some message => (handle job message e).1 | None => false end in
      let (e', t') := handleRaw job e t in
      handle_all rest e' t' (if ok then resolved ++ [job_id job] else resolved)
  end.

Definition poll (queueName : string) (batchSize : nat) (visibilityTimeoutMs : Z) (locked : string -> bool) (e : E) (t : JobTable)
    : list string * E * JobTable :=
  let (jobs, t) := claimRaw queueName batchSize visibilityTimeoutMs (now e) locked t in
  handle_all jobs e t [].

End Consumer.

(** ** Claims *)

Lemma selected_in queueName now limit locked t id :
  id ∈ selected queueName now limit locked t ->
  exists row, t !! id = Some row /\ queue row = queueName /\ (visible_at row <= now)%Z /\ locked id = false.
Proof.
  intros ([i row] & -> & Hin)%list_elem_of_fmap. apply elem_of_take in Hin as (k & Hk & _). apply list_elem_of_lookup_2 in Hk.
  rewrite (merge_sort_Permutation due_before) in Hk. apply list_elem_of_In, filter_In in Hk as [Hk Hc].
  apply list_elem_of_In, elem_of_map_to_list in Hk. unfold claimable in Hc. to_prop. by exists row.
Qed.

Lemma filter_fst_nodup {A B} (p : A * B -> bool) (l : list (A * B)) : NoDup l.*1 -> NoDup (List.filter p l).*1.
Proof.
  induction l as [|x l IH]; [done|]. cbn. intros [Hx Hl]%NoDup_cons. destruct (p x); [|by apply IH].
  cbn. apply NoDup_cons. split; [|by apply IH]. intros (y & Hy & Hin)%list_elem_of_fmap. apply Hx. rewrite Hy.
  apply list_elem_of_fmap_2. apply list_elem_of_In, filter_In in Hin as [Hin _]. by apply list_elem_of_In.
Qed.

Lemma selected_nodup queueName now limit locked t : NoDup (selected queueName now limit locked t).
Proof.
  assert (Hn : NoDup (merge_sort due_before (List.filter (claimable queueName now locked) (map_to_list t))).*1).
  { rewrite (merge_sort_Permutation due_before). apply filter_fst_nodup, NoDup_fst_map_to_list. }
  eapply sublist_NoDup; [exact Hn|]. apply fmap_sublist, sublist_take.
Qed.

Lemma hidden_lookup ids f (t : JobTable) id :
  NoDup ids -> foldr (fun id t => alter f id t) t ids !! id = if decide (id ∈ ids) then f <$> t !! id else t !! id.
Proof.
  induction ids as [|i ids IH]; intros Hn; [by rewrite decide_False by set_solver|]. apply NoDup_cons in Hn as [Hi Hn].
  cbn [foldr]. destruct (decide (id = i)) as [->|Hne].
  - rewrite lookup_alter_eq, IH, decide_False, decide_True by (done || set_solver). done.
  - rewrite lookup_alter_ne, IH by done. destruct (decide (id ∈ ids)), (decide (id ∈ i :: ids)); set_solver.
Qed.

(** What a claim does to a row and delivers of it. *)
Lemma claim_row queueName limit timeout now locked t id :
  let ids := selected queueName now limit locked t in
  let '(jobs, t') := claimRaw queueName limit timeout now locked t in
  t' !! id = (if decide (id ∈ ids) then hide (now + timeout) <$> t !! id else t !! id) /\
  map job_id jobs = merge_sort id_order ids /\
  (forall job, job ∈ jobs -> exists row, t !! job_id job = Some row /\ job = mkJob (job_id job) (payload row) (attempts row + 1) (max_attempts row)).
Proof.
  cbn zeta. unfold claimRaw. cbn zeta. set (ids := selected _ _ _ _ _). pose proof (selected_nodup queueName now limit locked t) as Hn. fold ids in Hn.
  split; [by apply hidden_lookup|].
  assert (Hsub : forall l, (forall x, x ∈ l -> x ∈ ids) ->
     map job_id (omap (delivery (foldr (fun id t => alter (hide (now + timeout)) id t) t ids)) l) = l /\
     forall job, job ∈ omap (delivery (foldr (fun id t => alter (hide (now + timeout)) id t) t ids)) l ->
       exists row, t !! job_id job = Some row /\ job = mkJob (job_id job) (payload row) (attempts row + 1) (max_attempts row)).
  { induction l as [|x l IH]; intros Hl; [split; [done|set_solver]|]. assert (Hx : x ∈ ids) by (apply Hl; left).
    pose proof Hx as (row & Hrow & _)%selected_in.
    assert (Hd : delivery (foldr (fun id t => alter (hide (now + timeout)) id t) t ids) x =
                 Some (mkJob x (payload row) (attempts row + 1) (max_attempts row))).
    { unfold delivery. rewrite hidden_lookup, decide_True, Hrow by done. done. }
    cbn [omap list_omap]. rewrite Hd.
    destruct IH as [IH1 IH2]; [intros; apply Hl; by right|]. split; [cbn; by f_equal|].
    intros job [->|Hj]%elem_of_cons; [|by apply IH2]. by exists row. }
  apply Hsub. intros x Hx. by rewrite (merge_sort_Permutation id_order) in Hx.
Qed.

(** ** Settlements *)

Definition at_time (v : Z) (row : JobRow) : JobRow :=
  mkJobRow (queue row) (payload row) v (attempts row) (max_attempts row) (created_at row).

Section ConsumerLemmas.
Context {E T : Type} `{ConsumerEnv E T}.

(** How a settlement leaves the job's own row: dropped, kept as it was, or visible again at another time. *)
Definition settled (dropped : Prop) (before after : option JobRow) : Prop :=
  (after = None /\ dropped) \/ after = before \/ exists v, after = at_time v <$> before.

Lemma settle_spec f e (t : JobTable) id dropped :
  (forall i, i <> id -> f t !! i = t !! i) /\ settled dropped (t !! id) (f t !! id) ->
  (forall i, i <> id -> settle f e t !! i = t !! i) /\ settled dropped (t !! id) (settle f e t !! id).
Proof. unfold settle. destruct (write_ok e); intros; [done|]. split; [done|]. by right; left. Qed.

Lemma ack_settles id (t : JobTable) (dropped : Prop) :
  dropped -> (forall i, i <> id -> ack id t !! i = t !! i) /\ settled dropped (t !! id) (ack id t !! id).
Proof. intros Hd. unfold ack. split; [intros; by apply lookup_delete_ne|]. left. split; [apply lookup_delete_eq|done]. Qed.

Lemma defer_settles id delay n (t : JobTable) (dropped : Prop) :
  (forall i, i <> id -> defer id delay n t !! i = t !! i) /\ settled dropped (t !! id) (defer id delay n t !! id).
Proof.
  unfold defer. split; [intros; by apply lookup_alter_ne|]. right. right. exists (n + delay)%Z. apply lookup_alter_eq.
Qed.

(** Whether the handler resolves this delivery. *)
Definition resolves (job : Job) (e : E) : bool :=
  match decode (job_payload job) with Some message => (handle job message e).1 | None => false end.

Lemma handleRaw_spec job e t :
  (forall i, i <> job_id job -> (handleRaw job e t).2 !! i = t !! i) /\
  settled (resolves job e = true \/ spent job = true) (t !! job_id job) ((handleRaw job e t).2 !! job_id job).
Proof.
  assert (Hback : forall e', (forall i, i <> job_id job -> give_back job e' t !! i = t !! i) /\
            settled (resolves job e = true \/ spent job = true) (t !! job_id job) (give_back job e' t !! job_id job)).
  { intros e'. unfold give_back. destruct (spent job) eqn:Hs; apply settle_spec; [|apply defer_settles].
    apply ack_settles. by right. }
  unfold handleRaw. destruct (decode (job_payload job)) as [m|] eqn:Hd; [|apply Hback].
  destruct (handle job m e) as [ok e'] eqn:Hh. cbn. destruct ok; [|apply Hback].
  apply settle_spec, ack_settles. left. unfold resolves. by rewrite Hd, Hh.
Qed.

Lemma handle_all_spec jobs e t acc :
  NoDup (map job_id jobs) ->
  let '(resolved, _, t') := handle_all jobs e t acc in
  (forall id, id ∈ acc -> id ∈ resolved) /\
  (forall id, id ∉ map job_id jobs -> t' !! id = t !! id) /\
  (forall job, job ∈ jobs -> settled (job_id job ∈ resolved \/ spent job = true) (t !! job_id job) (t' !! job_id job)).
Proof.
  revert e t acc. induction jobs as [|job jobs IH]; intros e t acc Hn; cbn [handle_all].
  { split_and!; [done|done|]. intros ? []%elem_of_nil. }
  cbn [map] in Hn. apply NoDup_cons in Hn as [Hj Hn].
  change (match decode (job_payload job) with Some message => (handle job message e).1 | None => false end) with (resolves job e).
  pose proof (handleRaw_spec job e t) as [Hother Hown].
  destruct (handleRaw job e t) as [e1 t1] eqn:Hr. cbn in Hother, Hown.
  specialize (IH e1 t1 (if resolves job e then acc ++ [job_id job] else acc) Hn).
  destruct (handle_all jobs e1 t1 _) as [[resolved e2] t2] eqn:Ha. destruct IH as (Hacc & Hrest & Hjobs). split_and!.
  - intros id Hid. apply Hacc. destruct (resolves job e); [|done]. apply elem_of_app. by left.
  - intros id Hid. rewrite Hrest by set_solver. apply Hother. set_solver.
  - intros job' [->|Hin]%elem_of_cons.
    + rewrite (Hrest _ Hj). destruct Hown as [[Hnone Hd]|Hkept]; [left|by right]. split; [done|].
      destruct Hd as [Hd|Hd]; [left|by right]. apply Hacc. rewrite Hd, elem_of_app. right. left.
    + rewrite <- (Hother (job_id job')); [by apply Hjobs|]. intros Heq. apply Hj. rewrite <- Heq. by apply list_elem_of_fmap_2.
Qed.

Lemma claimed_nodup queueName limit timeout n locked t :
  NoDup (map job_id (claimRaw queueName limit timeout n locked t).1).
Proof.
  pose proof (claim_row queueName limit timeout n locked t "") as Hc. cbn zeta in Hc. destruct (claimRaw _ _ _ _ _ _) as [jobs t'].
  destruct Hc as (_ & Hids & _). cbn [fst]. rewrite Hids, (merge_sort_Permutation id_order). apply selected_nodup.
Qed.

(** ** Properties *)

(** No job is lost and none is touched out of turn: after one pass of a consumer, whatever its handlers throw and however
    many of its own writes fail, a job that was not due, or that another transaction held, is as it was; a due job it
    claimed has one attempt more and is still stored, unless its handler resolved it or that attempt was its last. *)
Theorem poll_loses_nothing (queueName : string) (batchSize : nat) (visibilityTimeoutMs : Z) (locked : string -> bool) (e : E) (t : JobTable) :
  let '(resolved, _, t') := poll queueName batchSize visibilityTimeoutMs locked e t in
  forall id,
    (t' !! id = t !! id /\ id ∉ selected queueName (now e) batchSize locked t) \/
    exists row, t !! id = Some row /\ queue row = queueName /\ (visible_at row <= now e)%Z /\ locked id = false /\
      match t' !! id with
      | None => id ∈ resolved \/ (max_attempts row <= attempts row + 1)%Z
      | Some row' => exists v, row' = at_time v (hide (now e + visibilityTimeoutMs) row)
      end.
Proof.
  unfold poll. pose proof (claimed_nodup queueName batchSize visibilityTimeoutMs (now e) locked t) as Hn.
  pose proof (claim_row queueName batchSize visibilityTimeoutMs (now e) locked t) as Hc. cbn zeta in Hc.
  destruct (claimRaw _ _ _ _ _ _) as [jobs t1]. cbn in Hn.
  pose proof (handle_all_spec jobs e t1 [] Hn) as Ha. destruct (handle_all jobs e t1 []) as [[resolved e'] t'].
  destruct Ha as (_ & Hrest & Hjobs). intros id. destruct (Hc id) as (Hid & Hids & Hrows).
  destruct (decide (id ∈ selected queueName (now e) batchSize locked t)) as [Hsel|Hsel].
  - right. pose proof Hsel as (row & Hrow & Hq & Hv & Hl)%selected_in. exists row. split_and!; try done.
    assert (id ∈ map job_id jobs) as (job & -> & Hin)%list_elem_of_fmap by (by rewrite Hids, (merge_sort_Permutation id_order)).
    destruct (Hrows _ Hin) as (row0 & Hrow0 & Hjob). assert (row0 = row) as -> by congruence.
    specialize (Hjobs _ Hin). rewrite Hid, Hrow in Hjobs. destruct Hjobs as [[-> Hd]|[->|(v & ->)]]; cbn.
    + destruct Hd as [Hd|Hd]; [by left|right]. unfold spent in Hd. rewrite Hjob in Hd. cbn in Hd. to_prop. done.
    + exists (now e + visibilityTimeoutMs)%Z. done.
    + exists v. done.
  - left. split; [|done]. rewrite Hrest; [done|]. by rewrite Hids, (merge_sort_Permutation id_order).
Qed.

End ConsumerLemmas.

(** A claimed row is out of every claim's sight until its timeout. *)
Lemma claim_hides queueName limit limit' timeout n n' locked locked' t id :
  id ∈ selected queueName n limit locked t -> (n' < n + timeout)%Z ->
  id ∉ selected queueName n' limit' locked' (claimRaw queueName limit timeout n locked t).2.
Proof.
  intros Hs Hlt (row & Hrow & _ & Hv & _)%selected_in. pose proof (claim_row queueName limit timeout n locked t id) as Hc. cbn zeta in Hc.
  destruct (claimRaw _ _ _ _ _ _) as [jobs t']. destruct Hc as (Hid & _). cbn in Hrow. rewrite Hid, decide_True in Hrow by done.
  destruct (t !! id); [|done]. injection Hrow as <-. cbn in Hv. lia.
Qed.
