(* ===== verification/Digest.v ===== *)
(** Digests: SHA-256 in JavaScript's 32-bit arithmetic, and the header that carries a digest.

    [auth-core/src/sha256.ts] is modelled operation by operation (bitwise operators on signed 32-bit integers, sums as
    doubles, [Uint32Array] stores) and proved equal to FIPS 180-4 on unsigned words; [auth-core/src/endpoint-digest.ts]
    gives the digest's form and [X-Fabrika-Endpoint]. *)

From S2P Require Import Prelude Authorize.
From Stdlib Require Import ZArith Lia String Ascii Morphisms Setoid.
From stdpp Require Import base tactics strings list.

#[local] Open Scope Z_scope.

(** ** 32-bit integers *)

(** [x >>> 0], and a store into a [Uint32Array]. *)
Definition u32 (x : Z) : Z := x mod 2 ^ 32.

(** [ToInt32] *)
Definition i32 (x : Z) : Z := let y := u32 x in if y <? 2 ^ 31 then y else y - 2 ^ 32.

Definition js_and (a b : Z) : Z := Z.land (i32 a) (i32 b).
Definition js_or (a b : Z) : Z := Z.lor (i32 a) (i32 b).
Definition js_xor (a b : Z) : Z := Z.lxor (i32 a) (i32 b).
Definition js_not (a : Z) : Z := Z.lnot (i32 a).
Definition js_shl (a k : Z) : Z := i32 (Z.shiftl (i32 a) k).
Definition js_ushr (a k : Z) : Z := Z.shiftr (u32 a) k.

Definition ROUND_CONSTANTS : list Z :=
  [ 1116352408; 1899447441; 3049323471; 3921009573; 961987163; 1508970993; 2453635748; 2870763221;
    3624381080; 310598401; 607225278; 1426881987; 1925078388; 2162078206; 2614888103; 3248222580;
    3835390401; 4022224774; 264347078; 604807628; 770255983; 1249150122; 1555081692; 1996064986;
    2554220882; 2821834349; 2952996808; 3210313671; 3336571891; 3584528711; 113926993; 338241895;
    666307205; 773529912; 1294757372; 1396182291; 1695183700; 1986661051; 2177026350; 2456956037;
    2730485921; 2820302411; 3259730800; 3345764771; 3516065817; 3600352804; 4094571909; 275423344;
    430227734; 506948616; 659060556; 883997877; 958139571; 1322822218; 1537002063; 1747873779;
    1955562222; 2024104815; 2227730452; 2361852424; 2428436474; 2756734187; 3204031479; 3329325298 ].

(** A [Uint32Array] of eight words, and the eight working variables. *)
Record Words := mkWords { wa : Z; wb : Z; wc : Z; wd : Z; we : Z; wf : Z; wg : Z; wh : Z }.

Definition INITIAL_HASH : Words :=
  mkWords 1779033703 3144134277 1013904242 2773480762 1359893119 2600822924 528734635 1541459225.

Definition rotateRight (value bits : Z) : Z := js_or (js_ushr value bits) (js_shl value (32 - bits)).

(** ** The message *)

(** [TextEncoder.encode] *)
Fixpoint utf8 (s : string) : list Z :=
  match s with
  | EmptyString => []
  | String c s' =>
      let n := Z.of_nat (Js.code c) in
      (if n <? 128 then [n] else [192 + n / 64; 128 + n mod 64]) ++ utf8 s'
  end.

(** [view.setUint32], big-endian *)
Definition be32 (x : Z) : list Z :=
  [Z.shiftr (u32 x) 24 mod 256; Z.shiftr (u32 x) 16 mod 256; Z.shiftr (u32 x) 8 mod 256; u32 x mod 256].

(** [view.getUint32] *)
Definition getUint32 (bytes : list Z) (at_ : nat) : Z :=
  nth at_ bytes 0 * 2 ^ 24 + nth (at_ + 1) bytes 0 * 2 ^ 16 + nth (at_ + 2) bytes 0 * 2 ^ 8 + nth (at_ + 3) bytes 0.

(** [padded], after its stores. *)
Definition pad (bytes : list Z) : list Z :=
  let n := length bytes in
  let size := (((n + 9 + 63) / 64) * 64)%nat in
  let bitLength := Z.of_nat n * 8 in
  let padded := <[n := 128]> (list_inserts 0 bytes (replicate size 0)) in
  list_inserts (size - 4) (be32 (u32 bitLength)) (list_inserts (size - 8) (be32 (bitLength / 2 ^ 32)) padded).

(** ** The rounds *)

(** The schedule's words from the first sixteen on; [?? 0] never applies. *)
Fixpoint schedule (n : nat) (w : list Z) : list Z :=
  match n with
  | O => w
  | S n' =>
      let i := length w in
      let early := nth (i - 15) w 0 in
      let late := nth (i - 2) w 0 in
      let sigma0 := js_xor (js_xor (rotateRight early 7) (rotateRight early 18)) (js_ushr early 3) in
      let sigma1 := js_xor (js_xor (rotateRight late 17) (rotateRight late 19)) (js_ushr late 10) in
      schedule n' (w ++ [u32 (nth (i - 16) w 0 + sigma0 + nth (i - 7) w 0 + sigma1)])
  end.

Definition round (s : Words) (k w : Z) : Words :=
  let '(mkWords a b c d e f g h) := s in
  let sum1 := js_xor (js_xor (rotateRight e 6) (rotateRight e 11)) (rotateRight e 25) in
  let choice := js_xor (js_and e f) (js_and (js_not e) g) in
  let first := u32 (h + sum1 + choice + k + w) in
  let sum0 := js_xor (js_xor (rotateRight a 2) (rotateRight a 13)) (rotateRight a 22) in
  let majority := js_xor (js_xor (js_and a b) (js_and a c)) (js_and b c) in
  let second := u32 (sum0 + majority) in
  mkWords (u32 (first + second)) a b c (u32 (d + first)) e f g.

Definition add_words (x y : Words) : Words :=
  mkWords (u32 (wa x + wa y)) (u32 (wb x + wb y)) (u32 (wc x + wc y)) (u32 (wd x + wd y))
    (u32 (we x + we y)) (u32 (wf x + wf y)) (u32 (wg x + wg y)) (u32 (wh x + wh y)).

Definition first_words (padded : list Z) (offset : nat) : list Z :=
  map (fun index => u32 (getUint32 padded (offset + index * 4))) (seq 0 16).

Definition rounds (step : Words -> Z -> Z -> Words) (w : list Z) (hash : Words) : Words :=
  foldl (fun s kw => step s kw.1 kw.2) hash (combine ROUND_CONSTANTS w).

Definition block (padded : list Z) (hash : Words) (offset : nat) : Words :=
  add_words hash (rounds round (schedule 48 (first_words padded offset)) hash).

Definition offsets (padded : list Z) : list nat := map (fun i => (i * 64)%nat) (seq 0 (length padded / 64)).

Definition sha256Words (bytes : list Z) : Words :=
  let padded := pad bytes in foldl (block padded) INITIAL_HASH (offsets padded).

(** ** Hexadecimal *)

Definition hex_digit (n : Z) : ascii := ascii_of_nat (Z.to_nat (if n <? 10 then 48 + n else 87 + n)).

(** [n.toString(16)] for [0 <= n < 16 ^ (S fuel)] *)
Fixpoint toString16 (fuel : nat) (n : Z) : string :=
  match fuel with
  | O => String (hex_digit (n mod 16)) ""
  | S fuel' => if n <? 16 then String (hex_digit n) "" else toString16 fuel' (n / 16) +:+ String (hex_digit (n mod 16)) ""
  end.

Fixpoint zeros (n : nat) : string := match n with O => "" | S n' => String "0" (zeros n') end.

(** [s.padStart(size, '0')] *)
Definition padStart (size : nat) (s : string) : string := zeros (size - String.length s) +:+ s.

Definition hex8 (word : Z) : string := padStart 8 (toString16 8 word).

Definition hex (w : Words) : string :=
  hex8 (wa w) +:+ hex8 (wb w) +:+ hex8 (wc w) +:+ hex8 (wd w) +:+ hex8 (we w) +:+ hex8 (wf w) +:+ hex8 (wg w) +:+ hex8 (wh w).

Definition sha256Hex (text : string) : string := hex (sha256Words (utf8 text)).

Example sha256_empty : sha256Hex "" = "e3b0c44298fc1c149afbf4c8996fb92427ae41e4649b934ca495991b7852b855".
Proof. by vm_compute. Qed.

Example sha256_abc : sha256Hex "abc" = "ba7816bf8f01cfea414140de5dae2223b00361a396177a9cb410ff61f20015ad".
Proof. by vm_compute. Qed.

Example sha256_two_blocks :
  sha256Hex "abcdbcdecdefdefgefghfghighijhijkijkljklmklmnlmnomnopnopq" =
  "248d6a61d20638b8e5c026930c3e6039a33ce45964ff2167f6ecedd419db06c1".
Proof. by vm_compute. Qed.

(** ** FIPS 180-4, on unsigned 32-bit words *)

Module Fips.

Definition rotr (n x : Z) : Z := Z.lor (Z.shiftr x n) (Z.shiftl x (32 - n) mod 2 ^ 32).
Definition shr (n x : Z) : Z := Z.shiftr x n.
Definition complement (x : Z) : Z := Z.lxor x (Z.ones 32).

Definition Ch (x y z : Z) : Z := Z.lxor (Z.land x y) (Z.land (complement x) z).
Definition Maj (x y z : Z) : Z := Z.lxor (Z.lxor (Z.land x y) (Z.land x z)) (Z.land y z).
Definition Sigma0 (x : Z) : Z := Z.lxor (Z.lxor (rotr 2 x) (rotr 13 x)) (rotr 22 x).
Definition Sigma1 (x : Z) : Z := Z.lxor (Z.lxor (rotr 6 x) (rotr 11 x)) (rotr 25 x).
Definition sigma0 (x : Z) : Z := Z.lxor (Z.lxor (rotr 7 x) (rotr 18 x)) (shr 3 x).
Definition sigma1 (x : Z) : Z := Z.lxor (Z.lxor (rotr 17 x) (rotr 19 x)) (shr 10 x).

(** 5.1.1: a one bit, the fewest zeros that leave room, and the length in bits as 64 bits. *)
Definition padding (n : nat) : nat := ((119 - n mod 64) mod 64)%nat.
Definition be64 (x : Z) : list Z := map (fun k => x / 2 ^ (8 * k) mod 256) [7; 6; 5; 4; 3; 2; 1; 0].
Definition pad (message : list Z) : list Z :=
  message ++ [128] ++ replicate (padding (length message)) 0 ++ be64 (8 * Z.of_nat (length message)).

Fixpoint expand (n : nat) (w : list Z) : list Z :=
  match n with
  | O => w
  | S n' =>
      let t := length w in
      expand n' (w ++ [(sigma1 (nth (t - 2) w 0) + nth (t - 7) w 0 + sigma0 (nth (t - 15) w 0) + nth (t - 16) w 0) mod 2 ^ 32])
  end.

Definition round (s : Words) (k w : Z) : Words :=
  let '(mkWords a b c d e f g h) := s in
  let T1 := (h + Sigma1 e + Ch e f g + k + w) mod 2 ^ 32 in
  let T2 := (Sigma0 a + Maj a b c) mod 2 ^ 32 in
  mkWords ((T1 + T2) mod 2 ^ 32) a b c ((d + T1) mod 2 ^ 32) e f g.

Definition word (bytes : list Z) (at_ : nat) : Z :=
  foldl (fun acc i => acc * 256 + nth (at_ + i) bytes 0) 0 [0; 1; 2; 3]%nat.

Definition block (padded : list Z) (hash : Words) (offset : nat) : Words :=
  add_words hash (rounds round (expand 48 (map (fun i => word padded (offset + i * 4)) (seq 0 16))) hash).

Definition digest (message : list Z) : Words :=
  let padded := pad message in foldl (block padded) INITIAL_HASH (offsets padded).

End Fips.

(** ** The two agree *)

Definition is_word (x : Z) : Prop := 0 <= x < 2 ^ 32.

Lemma u32_word x : is_word (u32 x).
Proof. apply Z.mod_pos_bound. done. Qed.

Lemma u32_id x : is_word x -> u32 x = x.
Proof. apply Z.mod_small. Qed.

Lemma u32_u32 x : u32 (u32 x) = u32 x.
Proof. apply u32_id, u32_word. Qed.

Lemma u32_i32 x : u32 (i32 x) = u32 x.
Proof.
  unfold i32. destruct (_ <? _); [apply u32_u32|]. unfold u32. rewrite <- (Z.mod_add _ 1) by done.
  replace (x mod 2 ^ 32 - 2 ^ 32 + 1 * 2 ^ 32) with (x mod 2 ^ 32) by lia. apply Z.mod_mod. done.
Qed.

Lemma u32_ones x : u32 x = Z.land x (Z.ones 32).
Proof. unfold u32. by rewrite Z.land_ones. Qed.

(** Words modulo 2^32: sums may be reduced anywhere. *)
Definition cong (x y : Z) : Prop := u32 x = u32 y.

#[local] Instance cong_equiv : Equivalence cong.
Proof. split; unfold cong; [by intros ?|by intros ? ? ->|by intros ? ? ? -> ->]. Qed.

#[local] Instance cong_add : Proper (cong ==> cong ==> cong) Z.add.
Proof. intros x x' Hx y y' Hy. unfold cong, u32 in *. by rewrite Z.add_mod, Hx, Hy, <- Z.add_mod. Qed.

#[local] Instance u32_proper : Proper (cong ==> eq) u32.
Proof. by intros x y. Qed.

Lemma cong_u32 x : cong (u32 x) x.
Proof. apply u32_u32. Qed.

(** A bitwise operator on [ToInt32] values is the same on the words. *)
Lemma u32_bitwise (f : Z -> Z -> Z) (b : bool -> bool -> bool) x y :
  (forall x y n, Z.testbit (f x y) n = b (Z.testbit x n) (Z.testbit y n)) -> b false false = false ->
  u32 (f (i32 x) (i32 y)) = f (u32 x) (u32 y).
Proof.
  intros Hf Hb. rewrite <- (u32_i32 x), <- (u32_i32 y), !u32_ones. apply Z.bits_inj'. intros n Hn.
  rewrite Z.land_spec, !Hf, !Z.land_spec. destruct (Z.lt_ge_cases n 32).
  - rewrite Z.ones_spec_low by lia. by rewrite !andb_true_r.
  - rewrite Z.ones_spec_high by lia. by rewrite !andb_false_r.
Qed.

Lemma u32_js_xor x y : u32 (js_xor x y) = Z.lxor (u32 x) (u32 y).
Proof. apply (u32_bitwise Z.lxor xorb); [|done]. apply Z.lxor_spec. Qed.

Lemma u32_js_and x y : u32 (js_and x y) = Z.land (u32 x) (u32 y).
Proof. apply (u32_bitwise Z.land andb); [|done]. apply Z.land_spec. Qed.

Lemma u32_js_or x y : u32 (js_or x y) = Z.lor (u32 x) (u32 y).
Proof. apply (u32_bitwise Z.lor orb); [|done]. apply Z.lor_spec. Qed.

Lemma u32_js_not x : u32 (js_not x) = Fips.complement (u32 x).
Proof.
  unfold js_not, Fips.complement. rewrite <- (u32_i32 x), !u32_ones. apply Z.bits_inj'. intros n Hn.
  rewrite Z.land_spec, Z.lxor_spec, Z.land_spec, Z.lnot_spec by done. destruct (Z.lt_ge_cases n 32).
  - rewrite Z.ones_spec_low by lia. by rewrite !andb_true_r, xorb_true_r.
  - rewrite Z.ones_spec_high by lia. by rewrite !andb_false_r.
Qed.

Lemma shiftr_word x k : 0 <= k -> is_word x -> is_word (Z.shiftr x k).
Proof.
  intros Hk [H0 H1]. rewrite Z.shiftr_div_pow2 by done. split; [apply Z.div_pos; lia|].
  apply Z.div_lt_upper_bound; [lia|]. nia.
Qed.

Lemma u32_js_ushr x k : 0 <= k -> u32 (js_ushr x k) = Fips.shr k (u32 x).
Proof. intros Hk. apply u32_id, shiftr_word; [done|apply u32_word]. Qed.

Lemma u32_js_shl x k : 0 <= k -> u32 (js_shl x k) = u32 (Z.shiftl (u32 x) k).
Proof.
  intros Hk. unfold js_shl. rewrite u32_i32, !Z.shiftl_mul_pow2 by done. unfold u32 at 1 2.
  rewrite <- Z.mul_mod_idemp_l by done. fold (u32 (i32 x)). by rewrite u32_i32.
Qed.

Lemma u32_rotateRight x k : 0 <= k <= 32 -> u32 (rotateRight x k) = Fips.rotr k (u32 x).
Proof.
  intros Hk. unfold rotateRight. rewrite u32_js_or, u32_js_ushr, u32_js_shl by lia. done.
Qed.

Lemma cong_of x y : u32 x = y -> cong x y.
Proof. intros <-. symmetry. apply cong_u32. Qed.

Lemma rotr_of x k : is_word x -> 0 <= k <= 32 -> u32 (rotateRight x k) = Fips.rotr k x.
Proof. intros Hx Hk. by rewrite u32_rotateRight, (u32_id _ Hx). Qed.

(** Each of FIPS's six functions is the source's expression, as a word. *)
Lemma sums_of x : is_word x ->
  cong (js_xor (js_xor (rotateRight x 6) (rotateRight x 11)) (rotateRight x 25)) (Fips.Sigma1 x) /\
  cong (js_xor (js_xor (rotateRight x 2) (rotateRight x 13)) (rotateRight x 22)) (Fips.Sigma0 x) /\
  cong (js_xor (js_xor (rotateRight x 7) (rotateRight x 18)) (js_ushr x 3)) (Fips.sigma0 x) /\
  cong (js_xor (js_xor (rotateRight x 17) (rotateRight x 19)) (js_ushr x 10)) (Fips.sigma1 x).
Proof.
  intros Hx. split_and!; apply cong_of; rewrite !u32_js_xor, ?u32_js_ushr, !rotr_of by (done || lia); rewrite ?(u32_id _ Hx); done.
Qed.

Lemma choice_of e f g : is_word e -> is_word f -> is_word g ->
  cong (js_xor (js_and e f) (js_and (js_not e) g)) (Fips.Ch e f g).
Proof.
  intros He Hf Hg. apply cong_of. rewrite u32_js_xor, !u32_js_and, u32_js_not. by rewrite !u32_id.
Qed.

Lemma majority_of a b c : is_word a -> is_word b -> is_word c ->
  cong (js_xor (js_xor (js_and a b) (js_and a c)) (js_and b c)) (Fips.Maj a b c).
Proof. intros Ha Hb Hc. apply cong_of. rewrite !u32_js_xor, !u32_js_and. by rewrite !u32_id. Qed.

Definition words_ok (s : Words) : Prop :=
  is_word (wa s) /\ is_word (wb s) /\ is_word (wc s) /\ is_word (wd s) /\
  is_word (we s) /\ is_word (wf s) /\ is_word (wg s) /\ is_word (wh s).

Lemma add_words_ok x y : words_ok (add_words x y).
Proof. unfold words_ok, add_words. split_and!; cbn; apply u32_word. Qed.

Lemma round_fips s k w : words_ok s -> round s k w = Fips.round s k w /\ words_ok (round s k w).
Proof.
  destruct s as [a b c d e f g h]. intros (Ha & Hb & Hc & Hd & He & Hf & Hg & Hh). cbn [wa wb wc wd we wf wg wh] in *.
  destruct (sums_of a Ha) as (_ & H0 & _). destruct (sums_of e He) as (H1 & _).
  pose proof (choice_of e f g He Hf Hg) as Hch. pose proof (majority_of a b c Ha Hb Hc) as Hmaj.
  unfold round, Fips.round. split.
  - fold (u32 (h + Fips.Sigma1 e + Fips.Ch e f g + k + w)). fold (u32 (Fips.Sigma0 a + Fips.Maj a b c)).
    rewrite <- H1, <- Hch, <- H0, <- Hmaj. done.
  - split_and!; cbn; try done; apply u32_word.
Qed.

Lemma nth_word w i : Forall is_word w -> is_word (nth i w 0).
Proof.
  intros Hw. destruct (nth_in_or_default i w 0) as [Hin| ->]; [|by split].
  rewrite Forall_forall in Hw. apply Hw. by apply list_elem_of_In.
Qed.

Lemma schedule_fips n w : Forall is_word w -> schedule n w = Fips.expand n w.
Proof.
  revert w. induction n as [|n IH]; intros w Hw; [done|]. cbn [schedule Fips.expand].
  match goal with |- schedule n (w ++ [?x]) = Fips.expand n (w ++ [?y]) => assert (x = y) as -> end.
  - destruct (sums_of (nth (length w - 15) w 0) (nth_word _ _ Hw)) as (_ & _ & H0 & _).
    destruct (sums_of (nth (length w - 2) w 0) (nth_word _ _ Hw)) as (_ & _ & _ & H1).
    rewrite H0, H1. unfold u32. f_equal. lia.
  - apply IH. apply Forall_app. split; [done|]. apply Forall_singleton. apply Z.mod_pos_bound. done.
Qed.

Lemma rounds_fips ks w s : words_ok s ->
  foldl (fun s kw => round s kw.1 kw.2) s (combine ks w) = foldl (fun s kw => Fips.round s kw.1 kw.2) s (combine ks w).
Proof.
  revert w s. induction ks as [|k ks IH]; intros [|x w] s Hs; try done. cbn [combine foldl fst snd].
  destruct (round_fips s k x Hs) as [Heq Hok]. rewrite <- Heq. by apply IH.
Qed.

(** ** Bytes and padding *)

Definition is_byte (x : Z) : Prop := 0 <= x < 256.

Lemma nth_byte l i : Forall is_byte l -> is_byte (nth i l 0).
Proof.
  intros Hl. destruct (nth_in_or_default i l 0) as [Hin| ->]; [|by split].
  rewrite Forall_forall in Hl. apply Hl. by apply list_elem_of_In.
Qed.

Lemma word_fips l i : Forall is_byte l -> u32 (getUint32 l i) = Fips.word l i /\ is_word (Fips.word l i).
Proof.
  intros Hl. pose proof (nth_byte l i Hl). pose proof (nth_byte l (i + 1) Hl). pose proof (nth_byte l (i + 2) Hl).
  pose proof (nth_byte l (i + 3) Hl). unfold is_byte, is_word, Fips.word, getUint32 in *. cbn [foldl].
  replace (i + 0)%nat with i by lia.
  set (b0 := nth i l 0) in *. set (b1 := nth (i + 1) l 0) in *. set (b2 := nth (i + 2) l 0) in *. set (b3 := nth (i + 3) l 0) in *.
  change (2 ^ 24) with 16777216. change (2 ^ 16) with 65536. change (2 ^ 8) with 256. change (2 ^ 32) with 4294967296.
  split; [|lia]. rewrite u32_id; [lia|]. unfold is_word. change (2 ^ 32) with 4294967296. lia.
Qed.

Lemma first_words_fips padded offset : Forall is_byte padded ->
  first_words padded offset = map (fun i => Fips.word padded (offset + i * 4)) (seq 0 16) /\
  Forall is_word (first_words padded offset).
Proof.
  intros Hp. split.
  - apply map_ext. intros i. by apply word_fips.
  - apply Forall_map, Forall_forall. intros i _. apply u32_word.
Qed.

Lemma block_fips padded hash offset : Forall is_byte padded -> words_ok hash ->
  block padded hash offset = Fips.block padded hash offset /\ words_ok (block padded hash offset).
Proof.
  intros Hp Hh. destruct (first_words_fips padded offset Hp) as [Hw Hok]. split.
  - unfold block, Fips.block, rounds. by rewrite rounds_fips, schedule_fips, Hw.
  - apply add_words_ok.
Qed.

Lemma blocks_fips padded os hash : Forall is_byte padded -> words_ok hash ->
  foldl (block padded) hash os = foldl (Fips.block padded) hash os /\ words_ok (foldl (block padded) hash os).
Proof.
  intros Hp. revert hash. induction os as [|o os IH]; intros hash Hh; [done|]. cbn.
  destruct (block_fips padded hash o Hp Hh) as [Heq Hok]. rewrite <- Heq. by apply IH.
Qed.

(** Stores over a stretch of a list. *)
Lemma inserts_over {A} (a k r c : list A) :
  length k = length r -> list_inserts (length a) k (a ++ r ++ c) = a ++ k ++ c.
Proof.
  revert a r. induction k as [|y k IH]; intros a [|x r] Hl; try done. cbn [list_inserts].
  replace (S (length a)) with (length (a ++ [x])) by (rewrite length_app; cbn; lia).
  replace (a ++ (x :: r) ++ c) with ((a ++ [x]) ++ r ++ c) by (by rewrite <- app_assoc).
  rewrite IH by (cbn in Hl; lia). rewrite <- app_assoc. cbn. rewrite insert_app_r_alt by lia. by rewrite Nat.sub_diag.
Qed.

Lemma low_byte y j : 0 <= j <= 24 -> Z.shiftr (u32 y) j mod 256 = y / 2 ^ j mod 256.
Proof.
  intros Hj. unfold u32. rewrite Z.shiftr_div_pow2 by lia. change 256 with (2 ^ 8). apply Z.bits_inj'. intros n Hn.
  destruct (Z.lt_ge_cases n 8).
  - rewrite !Z.mod_pow2_bits_low, !Z.div_pow2_bits, Z.mod_pow2_bits_low by lia. done.
  - rewrite !Z.mod_pow2_bits_high by lia. done.
Qed.

Lemma be32_be64 x : 0 <= x -> be32 (x / 2 ^ 32) ++ be32 (u32 x) = Fips.be64 x.
Proof.
  intros Hx. unfold be32, Fips.be64. rewrite u32_u32. cbn [app map].
  rewrite !low_byte by lia.
  repeat match goal with |- context [x / 2 ^ 32 / 2 ^ ?j] => rewrite (Z.div_div x (2 ^ 32) (2 ^ j)), <- Z.pow_add_r by lia end.
  assert (forall y, u32 y mod 256 = y mod 256) as Hlow.
  { intros y. rewrite <- (Z.shiftr_0_r (u32 y)), low_byte by lia. by rewrite Z.pow_0_r, Z.div_1_r. }
  rewrite !Hlow. cbn [Z.mul Z.add]. by rewrite Z.pow_0_r, Z.div_1_r.
Qed.

Lemma pad_fips bytes : pad bytes = Fips.pad bytes.
Proof.
  unfold pad, Fips.pad. cbn zeta. set (n := length bytes). set (z := Fips.padding n).
  assert (Hsize : (((n + 9 + 63) / 64) * 64 = n + 1 + z + 8)%nat).
  { unfold z, Fips.padding. pose proof (Nat.div_mod_eq n 64). pose proof (Nat.mod_upper_bound n 64 ltac:(lia)).
    pose proof (Nat.div_mod_eq (n + 9 + 63) 64). pose proof (Nat.mod_upper_bound (n + 9 + 63) 64 ltac:(lia)).
    pose proof (Nat.div_mod_eq (119 - n mod 64) 64). pose proof (Nat.mod_upper_bound (119 - n mod 64) 64 ltac:(lia)). lia. }
  rewrite Hsize.
  assert (Hrep : replicate (n + 1 + z + 8) 0 = [] ++ replicate n 0 ++ ([0] ++ replicate z 0 ++ replicate 4 0 ++ replicate 4 0)).
  { cbn [app]. rewrite !replicate_add. by rewrite <- !app_assoc. }
  rewrite Hrep. rewrite (inserts_over [] bytes (replicate n 0)) by (by rewrite length_replicate). cbn [app].
  rewrite insert_app_r_alt by lia. rewrite Nat.sub_diag. cbn [insert list_insert].
  replace (n + 1 + z + 8 - 8)%nat with (length (bytes ++ [128] ++ replicate z 0)) by (rewrite !length_app, length_replicate; cbn; lia).
  replace (bytes ++ 128 :: replicate z 0 ++ replicate 4 0 ++ replicate 4 0)
    with ((bytes ++ [128] ++ replicate z 0) ++ replicate 4 0 ++ replicate 4 0) by (by rewrite <- !app_assoc).
  rewrite inserts_over by done.
  replace (n + 1 + z + 8 - 4)%nat with (length ((bytes ++ [128] ++ replicate z 0) ++ be32 (Z.of_nat n * 8 / 2 ^ 32)))
    by (rewrite !length_app, length_replicate; cbn; lia).
  rewrite (app_assoc _ (be32 _) (replicate 4 0)).
  rewrite <- (app_nil_r (replicate 4 0)) at 1. rewrite inserts_over by done. rewrite app_nil_r, <- app_assoc.
  rewrite be32_be64 by lia. rewrite <- !app_assoc. by rewrite Z.mul_comm.
Qed.

Lemma utf8_bytes s : Forall is_byte (utf8 s).
Proof.
  induction s as [|c s IH]; cbn; [done|]. apply Forall_app. split; [|done].
  assert (Hc : (Js.code c < 256)%nat) by apply nat_ascii_bounded.
  assert (0 <= Z.of_nat (Js.code c) / 64 <= 3) by (split; [apply Z.div_pos|apply Z.lt_succ_r, Z.div_lt_upper_bound]; lia).
  pose proof (Z.mod_pos_bound (Z.of_nat (Js.code c)) 64 ltac:(lia)).
  destruct (Z.ltb_spec (Z.of_nat (Js.code c)) 128); repeat constructor; unfold is_byte; lia.
Qed.

Lemma pad_bytes message : Forall is_byte message -> Forall is_byte (Fips.pad message).
Proof.
  intros Hm. unfold Fips.pad. rewrite !Forall_app. split_and!; [done|by repeat constructor| |].
  - apply Forall_forall. intros x [-> _]%elem_of_replicate. done.
  - apply Forall_map, Forall_forall. intros k _. apply Z.mod_pos_bound. done.
Qed.

Lemma initial_ok : words_ok INITIAL_HASH.
Proof. by repeat split. Qed.

Lemma sha256_fips text : sha256Words (utf8 text) = Fips.digest (utf8 text) /\ words_ok (sha256Words (utf8 text)).
Proof.
  unfold sha256Words, Fips.digest. cbn zeta. rewrite pad_fips. apply blocks_fips; [|apply initial_ok]. apply pad_bytes, utf8_bytes.
Qed.

(** ** The digest's form, and the header that carries it ([endpoint-digest.ts]) *)

#[local] Open Scope nat_scope.

Definition is_lower_hex (c : ascii) : bool := Js.is_digit c || Js.in_range 97 102 c.

(** [DIGEST_PATTERN.test] *)
Definition isDigest (value : string) : bool :=
  Js.startsWith value "sha256:" && (String.length value =? 71) && Js.forall_units is_lower_hex (Js.drop 7 value).

Definition digestOf (text : string) : string := "sha256:" +:+ sha256Hex text.

Fixpoint lastIndexOf (c : ascii) (s : string) : option nat :=
  match s with
  | EmptyString => None
  | String d s' =>
      match lastIndexOf c s' with
      | Some i => Some (S i)
      | None => if Ascii.eqb c d then Some 0 else None
      end
  end.

(** The id and the digest; a separator at -1 or 0 is refused. *)
Definition parseEndpointHeader (value : string) : option (string * string) :=
  match lastIndexOf "@" value with
  | None | Some 0 => None
  | Some separator =>
      let digest := Js.drop (S separator) value in
      if isDigest digest then Some (Js.take separator value, digest) else None
  end.

Lemma hex_digit_lower n : (0 <= n < 16)%Z -> is_lower_hex (hex_digit n) = true.
Proof.
  intros Hn. assert (Hin : In (Z.to_nat n) (seq 0 16)) by (apply in_seq; lia). rewrite <-(Z2Nat.id n) by lia.
  revert Hin. generalize (Z.to_nat n). apply List.Forall_forall. by repeat constructor.
Qed.

Lemma toString16_form fuel n :
  (0 <= n < 16 ^ Z.of_nat (S fuel))%Z ->
  Js.forall_units is_lower_hex (toString16 fuel n) = true /\
  forall k, (n < 16 ^ Z.of_nat (S k))%Z -> String.length (toString16 fuel n) <= S k.
Proof.
  revert n. induction fuel as [|fuel IH]; intros n Hn; cbn [toString16].
  { pose proof (Z.mod_pos_bound n 16 ltac:(lia)). split; [cbn; by rewrite hex_digit_lower|cbn; lia]. }
  destruct (Z.ltb_spec n 16); [split; [cbn; by rewrite hex_digit_lower by lia|cbn; lia]|].
  assert (Hdiv : (0 <= n / 16 < 16 ^ Z.of_nat (S fuel))%Z).
  { split; [apply Z.div_pos; lia|]. apply Z.div_lt_upper_bound; [lia|]. rewrite <- Z.pow_succ_r by lia.
    replace (Z.succ (Z.of_nat (S fuel))) with (Z.of_nat (S (S fuel))) by lia. lia. }
  destruct (IH _ Hdiv) as [Hf Hl]. pose proof (Z.mod_pos_bound n 16 ltac:(lia)). split.
  - rewrite forall_units_app, Hf. cbn. by rewrite hex_digit_lower.
  - intros k Hk. rewrite str_length_app. cbn [String.length]. destruct k as [|k]; [cbn in Hk; lia|].
    assert (String.length (toString16 fuel (n / 16)) <= S k); [|lia]. apply Hl. apply Z.div_lt_upper_bound; [lia|].
    rewrite <- Z.pow_succ_r by lia. replace (Z.succ (Z.of_nat (S k))) with (Z.of_nat (S (S k))) by lia. lia.
Qed.

Lemma zeros_form n : Js.forall_units is_lower_hex (zeros n) = true /\ String.length (zeros n) = n.
Proof. induction n as [|n [IH1 IH2]]; [done|]. cbn. by rewrite IH1, IH2. Qed.

Lemma hex8_form w : is_word w -> Js.forall_units is_lower_hex (hex8 w) = true /\ String.length (hex8 w) = 8.
Proof.
  intros Hw. unfold is_word in Hw. destruct (toString16_form 8 w) as [Hf Hl]; [change (16 ^ Z.of_nat 9)%Z with 68719476736%Z; lia|].
  specialize (Hl 7 ltac:(change (16 ^ Z.of_nat 8)%Z with 4294967296%Z; lia)).
  unfold hex8, padStart. destruct (zeros_form (8 - String.length (toString16 8 w))) as [Hz Hzl].
  rewrite forall_units_app, Hz, Hf, str_length_app, Hzl. split; [done|lia].
Qed.

Lemma hex_form s : words_ok s -> Js.forall_units is_lower_hex (hex s) = true /\ String.length (hex s) = 64.
Proof.
  intros (Ha & Hb & Hc & Hd & He & Hf & Hg & Hh). unfold hex. rewrite !forall_units_app, !str_length_app.
  repeat match goal with H : is_word ?w |- _ => apply hex8_form in H as [-> ->] end. done.
Qed.

Lemma digestOf_form text : isDigest (digestOf text) = true.
Proof.
  destruct (hex_form (sha256Words (utf8 text)) (proj2 (sha256_fips text))) as [Hf Hl].
  unfold isDigest, digestOf, sha256Hex. revert Hf Hl. generalize (hex (sha256Words (utf8 text))) as h. intros h Hf Hl.
  rewrite str_length_app, Hl. change (Js.drop 7 ("sha256:" +:+ h)) with h. rewrite Hf. cbn. by destruct h.
Qed.

Lemma lastIndexOf_last c a b :
  Js.forall_units (fun d => negb (Ascii.eqb c d)) b = true -> lastIndexOf c (a +:+ String c b) = Some (String.length a).
Proof.
  intros Hb. assert (Hnone : forall b, Js.forall_units (fun d => negb (Ascii.eqb c d)) b = true -> lastIndexOf c b = None).
  { induction b0 as [|d b0 IH]; [done|]. cbn. intros [Hd H]%andb_prop. rewrite IH by done. by destruct (Ascii.eqb c d). }
  induction a as [|d a IH]; cbn; [by rewrite (Hnone _ Hb), Ascii.eqb_refl|]. by rewrite IH.
Qed.

Lemma lastIndexOf_split c s i :
  lastIndexOf c s = Some i ->
  s = Js.take i s +:+ String c (Js.drop (S i) s) /\ String.length (Js.take i s) = i.
Proof.
  revert i. induction s as [|d s IH]; intros i; [done|]. cbn [lastIndexOf]. destruct (lastIndexOf c s) as [j|].
  - intros [= <-]. destruct (IH j eq_refl) as [Hs Hl]. cbn [Js.take Js.drop]. split; [cbn; by f_equal|cbn; lia].
  - destruct (Ascii.eqb_spec c d) as [->|]; [|done]. intros [= <-]. by split.
Qed.

Lemma hex_no_at s : Js.forall_units is_lower_hex s = true -> Js.forall_units (fun d => negb (Ascii.eqb "@" d)) s = true.
Proof. apply forall_units_impl. intros c Hc. by destruct (Ascii.eqb_spec "@" c) as [<-|]. Qed.

Lemma digest_no_at d : isDigest d = true -> Js.forall_units (fun u => negb (Ascii.eqb "@" u)) d = true.
Proof.
  unfold isDigest. intros H. to_prop. match goal with H : Js.startsWith d _ = true |- _ => apply startsWith_spec in H as [t ->] end.
  rewrite forall_units_app. cbn -[Js.forall_units]. apply andb_true_iff. split; [done|]. by apply hex_no_at.
Qed.

(** ** Properties *)

(** C33. [sha256Hex] is FIPS 180-4's SHA-256: on every text, the signed 32-bit operators, the double sums and the typed-array
    stores compute the standard's digest of the text's UTF-8 bytes, and what is written has a digest's form. *)
Theorem sha256Hex_is_fips (text : string) :
  sha256Hex text = hex (Fips.digest (utf8 text)) /\ isDigest (digestOf text) = true.
Proof. split; [unfold sha256Hex; by rewrite (proj1 (sha256_fips text))|apply digestOf_form]. Qed.

(** The endpoint header round-trips: what the proxy formats for an endpoint and a digest the application reads back, for
    any nonempty id, an at sign in it included; and the application reads only what the proxy could have formatted. *)
Theorem endpoint_header_roundtrip (value id digest : string) :
  parseEndpointHeader value = Some (id, digest) <-> id <> "" /\ isDigest digest = true /\ value = formatEndpointHeader id digest.
Proof.
  unfold parseEndpointHeader, formatEndpointHeader. split.
  - destruct (lastIndexOf "@" value) as [[|i]|] eqn:Hl; [done| |done]. destruct (isDigest _) eqn:Hd; [|done]. intros [= <- <-].
    apply lastIndexOf_split in Hl as [Hv Hlen]. split_and!; [|done|exact Hv]. intros Hnil. change (Js.take (S i) value = "") in Hnil. by rewrite Hnil in Hlen.
  - intros (Hne & Hd & ->). change ("@" +:+ digest) with (String "@" digest).
    assert (Hl : lastIndexOf "@" (id +:+ String "@" digest) = Some (String.length id)) by (apply lastIndexOf_last, digest_no_at, Hd).
    rewrite Hl. destruct id as [|c id]; [done|]. cbn [String.length].
    assert (Hdrop : Js.drop (S (S (String.length id))) (String c id +:+ String "@" digest) = digest).
    { clear. cbn. induction id as [|d id IH]; [done|]. cbn. exact IH. }
    rewrite Hdrop, Hd. do 2 f_equal. exact (str_take_app (String c id) (String "@" digest)).
Qed.
