(* ===== verification/SchemaDiff.v ===== *)
(** The classification of a changed schema: the schema part of [control/src/approval/diff.ts].

    A change is a list of lines, each of which widens access, narrows it or leaves it. The words of a line are left out, and
    with them the marks that place something beside a line (the environment's origins, a job the line says starts).
    A comparison that throws answers [None]. *)

From S2P Require Import Prelude Json Shapes.
From Stdlib Require Import ZArith Lia String Ascii.
From stdpp Require Import base tactics strings gmap list.

(** ** Lines *)

Inductive AccessEffect := Widens | Narrows | Neutral.

#[global] Instance AccessEffect_eq_dec : EqDecision AccessEffect.
Proof. solve_decision. Defined.

(** Why a line needs closer review. *)
Inductive ReviewReason := OffRoad | AnyoneCalls | GetMutation | People | Adoption.

Record Line := mkLine {
  effect : AccessEffect;
  reason : option ReviewReason;
}.

Definition widening : Line := mkLine Widens None.
Definition neutral : Line := mkLine Neutral None.
Definition narrowing : Line := mkLine Narrows None.
Definition closer (r : ReviewReason) (e : AccessEffect) : Line := mkLine e (Some r).

Definition widens (l : Line) : bool := bool_decide (effect l = Widens).

(** No line of a change widens access. *)
Definition no_widening (l : list Line) : bool := forallb (fun x => negb (widens x)) l.

(** The two effects of a boolean choice between lines. *)
Definition either (gains : bool) : Line := if gains then widening else narrowing.

(** [[...new Set([...a, ...b])].sort(…)] *)
Definition union_names (a b : list string) : list string := sort_by code_unit_le (remove_dups (a ++ b)).

Definition setLines (before after : list string) (added removed : string -> Line) : list Line :=
  flat_map (fun value => if negb (Js.elem value before) then [added value] else if negb (Js.elem value after) then [removed value] else [])
    (union_names before after).

Definition setChanges (before after : list string) : list Line := setLines before after (fun _ => widening) (fun _ => narrowing).

Section Text.
Context `{NumberText}.

(** [canonicalJson(a) === canonicalJson(b)] *)
Definition same_text (a b : json) : bool := (canonicalJson a =? canonicalJson b)%string.

Definition valueChange (before after : json) : list Line := if same_text before after then [] else [widening].

End Text.

(** ** Limits and constraints *)

Definition limitChange {A} (eqb ltb : A -> A -> bool) (before after : option A) : list Line :=
  match before, after with
  | None, None => []
  | Some b, Some a => if eqb b a then [] else [either (ltb b a)]
  | _, None => [widening]
  | None, Some _ => [narrowing]
  end.

Definition lowerLimitChange {A} (eqb ltb : A -> A -> bool) (before after : option A) : list Line :=
  match before, after with
  | None, None => []
  | Some b, Some a => if eqb b a then [] else [either (negb (ltb b a))]
  | Some _, None => [widening]
  | None, Some _ => [narrowing]
  end.

Definition constraintChange {A} (eqb : A -> A -> bool) (before after : option A) : list Line :=
  match before, after with
  | None, None => []
  | None, Some _ => [narrowing]
  | Some b, Some a => if eqb b a then [] else [widening]
  | Some _, None => [widening]
  end.

Definition flagChange (before after : bool) (gained lost : Line) : list Line :=
  if Bool.eqb before after then [] else [if after then gained else lost].

Record Bound := mkBound { bound_value : option finite; bound_exclusive : bool }.

(** [before.value === after.value], of a number or [null] *)
Definition same_value (before after : option finite) : bool :=
  match before, after with
  | None, None => true
  | Some b, Some a => num_eq b a
  | _, _ => false
  end.

(** The direction is 1 for a minimum ([true]) and -1 for a maximum. A difference of two finite doubles has the sign of
    their order. *)
Definition boundChange (before after : Bound) (minimum : bool) : list Line :=
  if same_value (bound_value before) (bound_value after) && Bool.eqb (bound_exclusive before) (bound_exclusive after) then []
  else
    let tighter := match bound_value after with
                   | None => false
                   | Some a => match bound_value before with
                               | None => true
                               | Some b => (if minimum then num_lt b a else num_lt a b) || (num_eq a b && bound_exclusive after)
                               end
                   end in
    [either (negb tighter)].

Definition stringChanges (from to : StringShape) : list Line :=
  constraintChange String.eqb (s_format from) (s_format to)
  ++ lowerLimitChange Z.eqb Z.ltb (s_minLength from) (s_minLength to)
  ++ limitChange Z.eqb Z.ltb (s_maxLength from) (s_maxLength to)
  ++ constraintChange String.eqb (s_pattern from) (s_pattern to)
  ++ constraintChange String.eqb (s_startsWith from) (s_startsWith to)
  ++ constraintChange String.eqb (s_endsWith from) (s_endsWith to)
  ++ constraintChange String.eqb (s_includes from) (s_includes to).

Definition numberChanges (from to : NumberShape) : list Line :=
  flagChange (n_int from) (n_int to) narrowing widening
  ++ boundChange (mkBound (n_min from) (n_exclusiveMin from)) (mkBound (n_min to) (n_exclusiveMin to)) true
  ++ boundChange (mkBound (n_max from) (n_exclusiveMax from)) (mkBound (n_max to) (n_exclusiveMax to)) false
  ++ constraintChange num_eq (n_multipleOf from) (n_multipleOf to).

(** ** Schemas *)

Inductive Side := Input | Output.

Record Unwrapped := mkUnwrapped { u_optional : bool; u_nullable : bool; u_core : SchemaShape }.

Fixpoint unwrapped_loop (optional nullable : bool) (core : SchemaShape) : Unwrapped :=
  match core with
  | SOptional inner => unwrapped_loop true nullable inner
  | SNullable inner => unwrapped_loop optional true inner
  | _ => mkUnwrapped optional nullable core
  end.

Definition unwrapped (s : SchemaShape) : Unwrapped := unwrapped_loop false false s.

(** What reading a name of a plain object finds: its own field, nothing, a function of [Object.prototype], or
    [Object.prototype] itself. *)
Inductive Member := Own (s : SchemaShape) | Absent | InheritedFunction | InheritedObject.

Definition OBJECT_METHODS : list string :=
  [ "constructor"; "hasOwnProperty"; "isPrototypeOf"; "propertyIsEnumerable"; "toLocaleString"; "toString"; "valueOf";
    "__defineGetter__"; "__defineSetter__"; "__lookupGetter__"; "__lookupSetter__" ].

Definition member (fields : list (string * SchemaShape)) (name : string) : Member :=
  match lookup_field name fields with
  | Some s => Own s
  | None => if (name =? "__proto__")%string then InheritedObject
            else if Js.elem name OBJECT_METHODS then InheritedFunction else Absent
  end.

Section Schemas.
Context `{NumberText}.

Definition finiteValues (s : SchemaShape) : option (list string) :=
  match s with
  | SLiteral v => Some [canonicalJson (scalar_json v)]
  | SEnum values => Some (map (fun v => canonicalJson (JStr v)) values)
  | _ => None
  end.

(** [schemaChanges] of two schemas, over what compares the core of the first with another. *)
Definition shapeChanges (core : SchemaShape -> option (list Line)) (from to : SchemaShape) : option (list Line) :=
  if same_text (shape_json from) (shape_json to) then Some []
  else
    let before := unwrapped from in
    let after := unwrapped to in
    lines ← core (u_core after);
    Some (flagChange (u_optional before) (u_optional after) widening narrowing
          ++ flagChange (u_nullable before) (u_nullable after) widening narrowing ++ lines).

(** [schemaChanges] against [Object.prototype], which is no optional, nullable or equal schema: its core is shown as a
    changed value. *)
Definition prototypeChanges (optional nullable optional' nullable' : bool) : list Line :=
  flagChange optional optional' widening narrowing ++ flagChange nullable nullable' widening narrowing ++ [widening].

(** One field of [fieldChanges]; a function's JSON text is [undefined], which [shown] fails to read. *)
Definition memberChanges (side : Side) (changes : SchemaShape -> SchemaShape -> option (list Line)) (before after : Member)
    : option (list Line) :=
  match before, after with
  | Absent, _ => Some [widening]
  | Own s, Absent => Some [either (match side with Input => negb (u_optional (unwrapped s)) | Output => false end)]
  | Own s, Own t => changes s t
  | Own s, InheritedObject => Some (prototypeChanges (u_optional (unwrapped s)) (u_nullable (unwrapped s)) false false)
  | InheritedObject, Own t => Some (prototypeChanges false false (u_optional (unwrapped t)) (u_nullable (unwrapped t)))
  | _, _ => None
  end.

(** Lines in order; the first comparison that throws ends them. *)
Fixpoint concat_lines (l : list (option (list Line))) : option (list Line) :=
  match l with
  | [] => Some []
  | x :: l' => a ← x; b ← concat_lines l'; Some (a ++ b)
  end.

(** [fieldChanges] over what compares each field of the first object with another schema. *)
Definition fieldChanges (side : Side) (changes : string -> SchemaShape -> SchemaShape -> option (list Line))
    (from to : list (string * SchemaShape)) : option (list Line) :=
  concat_lines (map (fun field => memberChanges side (changes field) (member from field) (member to field))
    (union_names (map fst from) (map fst to))).

Definition valueSetChanges (from to : list string) : list Line := setChanges from to.

(** [coreChanges]; on a wrapped schema it compares the core, so it recurses on the first schema. *)
Fixpoint coreChanges (side : Side) (from : SchemaShape) (to : SchemaShape) : option (list Line) :=
  match from with
  | SOptional inner | SNullable inner => coreChanges side inner to
  | _ =>
      if same_text (shape_json from) (shape_json to) then Some []
      else match finiteValues from, finiteValues to with
           | Some fromValues, Some toValues => Some (valueSetChanges fromValues toValues)
           | _, _ =>
               match from, to with
               | SObject fields, SObject fields' =>
                   let comparers := map (fun field => (field.1, coreChanges side field.2)) fields in
                   fieldChanges side
                     (fun name => shapeChanges (default (fun _ => None) (lookup_field name comparers)))
                     fields fields'
               | SString s, SString s' => Some (stringChanges s s')
               | SNumber n, SNumber n' => Some (numberChanges n n')
               | SArray items lo hi, SArray items' lo' hi' =>
                   lines ← shapeChanges (coreChanges side items) items items';
                   Some (lowerLimitChange Z.eqb Z.ltb lo lo' ++ limitChange Z.eqb Z.ltb hi hi' ++ lines)
               | _, _ => Some (valueChange (shape_json from) (shape_json to))
               end
           end
  end.

Definition schemaChanges (side : Side) (from to : option SchemaShape) : option (list Line) :=
  match from, to with
  | Some s, Some t => shapeChanges (coreChanges side s) s t
  | None, None => Some []
  | _, _ => Some [widening]
  end.

End Schemas.

(** ** Lines that do not widen *)

Lemma no_widening_app a b : no_widening (a ++ b) = no_widening a && no_widening b.
Proof. apply forallb_app. Qed.

Lemma no_widening_either b : no_widening [either b] = negb b.
Proof. by destruct b. Qed.

Lemma flag_sound before after : no_widening (flagChange before after widening narrowing) = true -> after = true -> before = true.
Proof. by destruct before, after. Qed.

Lemma flag_reversed before after : no_widening (flagChange before after narrowing widening) = true -> before = true -> after = true.
Proof. by destruct before, after. Qed.

Lemma constraint_sound {A} eqb (before after : option A) (p : A -> bool) :
  (forall a b, eqb a b = true -> p a = p b) -> no_widening (constraintChange eqb before after) = true -> if_some after p = true -> if_some before p = true.
Proof.
  intros He. destruct before as [b|], after as [a|]; cbn; try done. destruct (eqb b a) eqn:E; [by rewrite (He _ _ E)|done].
Qed.

Lemma limit_sound before after (n : Z) : no_widening (limitChange Z.eqb Z.ltb before after) = true ->
  if_some after (fun m => n <=? m)%Z = true -> if_some before (fun m => n <=? m)%Z = true.
Proof.
  destruct before as [b|], after as [a|]; cbn; try done. destruct (Z.eqb_spec b a) as [->|N]; [done|].
  rewrite no_widening_either. unfold negb. destruct (Z.ltb_spec b a); [done|]. rewrite !Z.leb_le. lia.
Qed.

Lemma lower_limit_sound before after (n : Z) : no_widening (lowerLimitChange Z.eqb Z.ltb before after) = true ->
  if_some after (fun m => m <=? n)%Z = true -> if_some before (fun m => m <=? n)%Z = true.
Proof.
  destruct before as [b|], after as [a|]; cbn; try done. destruct (Z.eqb_spec b a) as [->|N]; [done|].
  rewrite no_widening_either. unfold negb. destruct (Z.ltb_spec b a); [|done]. rewrite !Z.leb_le. lia.
Qed.

Lemma num_le_refl a : num_le a a = true.
Proof. apply Z.leb_refl. Qed.

Lemma num_eq_le a b x : num_eq a b = true -> num_le a x = num_le b x /\ num_le x a = num_le x b.
Proof. unfold num_eq. rewrite bool_decide_eq_true. intros E. split; by apply num_le_normal. Qed.

Lemma num_lt_le a b : num_lt a b = true -> num_le a b = true.
Proof. unfold num_lt. destruct (num_le_total a b) as [->| ->]; done. Qed.

Lemma num_lt_le_trans a b c : num_lt a b = true -> num_le b c = true -> num_lt a c = true.
Proof.
  unfold num_lt. intros Hab Hbc. destruct (num_le c a) eqn:E; [|done]. by rewrite (num_le_trans b c a) in Hab.
Qed.

Lemma num_le_lt_trans a b c : num_le a b = true -> num_lt b c = true -> num_lt a c = true.
Proof.
  unfold num_lt. intros Hab Hbc. destruct (num_le c a) eqn:E; [|done]. by rewrite (num_le_trans c a b) in Hbc.
Qed.

Lemma minimum_sound b eb a ea x : no_widening (boundChange (mkBound b eb) (mkBound a ea) true) = true ->
  above a ea x = true -> above b eb x = true.
Proof.
  unfold boundChange, above. cbn [bound_value bound_exclusive]. destruct b as [b|], a as [a|]; cbn [same_value if_some]; try done.
  destruct (num_eq b a) eqn:E; cbn [andb].
  - destruct (num_eq_le _ _ x E) as [E1 E2], (num_eq_le _ _ b E) as [E3 _]. rewrite num_le_refl in E3. destruct (Bool.eqb_spec eb ea) as [->|N].
    + intros _. unfold num_lt. by rewrite E1, E2.
    + rewrite no_widening_either, negb_involutive. unfold num_lt at 1. rewrite <-E3. cbn. intros [_ ->]%andb_true_iff.
      destruct eb; [done|]. unfold num_lt. rewrite <-E2. intros Hx%num_lt_le. exact Hx.
  - rewrite no_widening_either, negb_involutive, orb_true_iff. intros [Hl|[Ee _]%andb_true_iff] Ha.
    + assert (Hx : num_lt b x = true) by (destruct ea; [by apply (num_lt_le_trans b a), num_lt_le|by apply (num_lt_le_trans b a)]).
      destruct eb; [done|by apply num_lt_le].
    + unfold num_eq in *. rewrite bool_decide_eq_true in Ee. rewrite Ee, bool_decide_eq_false in E. done.
Qed.

Lemma maximum_sound b eb a ea x : no_widening (boundChange (mkBound b eb) (mkBound a ea) false) = true ->
  below a ea x = true -> below b eb x = true.
Proof.
  unfold boundChange, below. cbn [bound_value bound_exclusive]. destruct b as [b|], a as [a|]; cbn [same_value if_some]; try done.
  destruct (num_eq b a) eqn:E; cbn [andb].
  - destruct (num_eq_le _ _ x E) as [E1 E2], (num_eq_le _ _ b E) as [_ E3]. rewrite num_le_refl in E3. destruct (Bool.eqb_spec eb ea) as [->|N].
    + intros _. unfold num_lt. by rewrite E1, E2.
    + rewrite no_widening_either, negb_involutive. unfold num_lt at 1. rewrite <-E3. cbn. intros [_ ->]%andb_true_iff.
      destruct eb; [done|]. unfold num_lt. rewrite <-E1. intros Hx%num_lt_le. exact Hx.
  - rewrite no_widening_either, negb_involutive, orb_true_iff. intros [Hl|[Ee _]%andb_true_iff] Ha.
    + assert (Hx : num_lt x b = true) by (destruct ea; [by apply (num_le_lt_trans x a); [apply num_lt_le|]|by apply (num_le_lt_trans x a)]).
      destruct eb; [done|by apply num_lt_le].
    + unfold num_eq in *. rewrite bool_decide_eq_true in Ee. rewrite Ee, bool_decide_eq_false in E. done.
Qed.

Lemma union_names_elem x a b : x ∈ union_names a b <-> x ∈ a \/ x ∈ b.
Proof. unfold union_names. rewrite sort_by_Permutation, elem_of_remove_dups. apply elem_of_app. Qed.

Lemma not_elem_false x l : Js.elem x l = false <-> x ∉ l.
Proof. rewrite <-elem_spec. by destruct (Js.elem x l). Qed.

(** What a list gains always shows. *)
Lemma setLines_sound before after added removed :
  (forall x, widens (added x) = true) -> no_widening (setLines before after added removed) = true -> forall x, x ∈ after -> x ∈ before.
Proof.
  intros Ha. unfold no_widening, setLines. rewrite forallb_forall. intros Hn x Hx. destruct (Js.elem x before) eqn:E; [by apply elem_spec|].
  assert (Hin : List.In (added x) (flat_map (fun value => if negb (Js.elem value before) then [added value]
    else if negb (Js.elem value after) then [removed value] else []) (union_names before after))).
  { apply in_flat_map. exists x. split; [apply list_elem_of_In, union_names_elem; by right|]. rewrite E. by left. }
  apply Hn in Hin. by rewrite Ha in Hin.
Qed.

Lemma setChanges_sound before after : no_widening (setChanges before after) = true -> forall x, x ∈ after -> x ∈ before.
Proof. by apply setLines_sound. Qed.

Section Sound.
Context `{ZodChecks}.

Lemma string_sound from to x : no_widening (stringChanges from to) = true -> string_admits to x = true -> string_admits from x = true.
Proof.
  unfold stringChanges, string_admits, length_between. rewrite !no_widening_app, !andb_true_iff. intros (?&?&?&?&?&?&?) [[[[[? [? ?]] ?] ?] ?] ?].
  repeat split; try (eapply constraint_sound; [|eassumption..]; by intros ?? ->%String.eqb_eq).
  - eapply lower_limit_sound; eassumption.
  - eapply limit_sound; eassumption.
Qed.

Lemma number_sound from to x : no_widening (numberChanges from to) = true -> number_admits to x = true -> number_admits from x = true.
Proof.
  unfold numberChanges, number_admits. rewrite !no_widening_app, !andb_true_iff. intros (Hi&?&?&?) [[[Ht ?] ?] ?].
  repeat split.
  - destruct (n_int from) eqn:E; [|done]. rewrite (flag_reversed _ _ Hi eq_refl) in Ht. exact Ht.
  - eapply minimum_sound; eassumption.
  - eapply maximum_sound; eassumption.
  - eapply constraint_sound; [|eassumption..]. intros a b E. unfold num_eq in E. rewrite bool_decide_eq_true in E. by rewrite E.
Qed.

(** ** Optional and nullable layers *)

Definition is_null (v : option json) : bool := match v with Some JNull => true | _ => false end.

Lemma unwrapped_loop_spec o n s v :
  let u := unwrapped_loop o n s in
  (u_optional u && negb (is_some v)) || (u_nullable u && is_null v) || admits (u_core u) v
  = (o && negb (is_some v)) || (n && is_null v) || admits s v.
Proof.
  cbn zeta. revert o n. induction s; intros p q; try done; cbn [unwrapped_loop]; rewrite IHs;
    destruct v as [[]|], p, q; cbn; try done; by rewrite ?orb_true_r.
Qed.

Lemma unwrapped_spec s v : admits s v
  = (u_optional (unwrapped s) && negb (is_some v)) || (u_nullable (unwrapped s) && is_null v) || admits (u_core (unwrapped s)) v.
Proof. symmetry. apply (unwrapped_loop_spec false false s v). Qed.

Lemma unwrapped_loop_core o n s : u_core (unwrapped_loop o n s) = u_core (unwrapped s).
Proof.
  unfold unwrapped. revert o n. induction s; intros p q; try done; cbn [unwrapped_loop].
  - by rewrite (IHs true q), (IHs true false).
  - by rewrite (IHs p true), (IHs false true).
Qed.

Lemma unwrapped_well_formed s : well_formed s -> well_formed (u_core (unwrapped s)).
Proof.
  induction s; try done; cbn [well_formed]; unfold unwrapped in *; cbn [unwrapped_loop]; rewrite unwrapped_loop_core; auto.
Qed.

(** ** Listed values *)

Context `{NumberTextLaws}.

(** A listed value is admitted by its text; [NaN] shares the text of [null], but is no JSON value. *)
Lemma scalar_admits_text l x : scalar_admits l x = true <-> x <> JNum NNotFinite /\ canonicalJson x = canonicalJson (scalar_json l).
Proof.
  rewrite canonical_normal. destruct l as [s|n|b|], x as [|c|m|t|l|o]; cbn [scalar_json scalar_admits]; rewrite ?normal_finite_json; cbn [normal];
    try (split; [intros; done|]; intros [? [=]]; done);
    try (destruct (num_normal m) as [x|] eqn:Em; [|apply num_normal_None in Em as ->]).
  1, 2, 7, 8, 9, 10: by split; [|intros [? ?]].
  - rewrite String.eqb_eq. split; [by intros ->|by intros [_ [= ->]]].
  - rewrite bool_decide_eq_true. split; [intros [= <-]; split; [by intros [= ->]|done]|by intros [_ [= ->]]].
  - rewrite bool_decide_eq_true. by split; [|intros [? ?]].
  - rewrite Bool.eqb_true_iff. split; [by intros ->|by intros [_ [= ->]]].
Qed.

Lemma finiteValues_admits s vs x : finiteValues s = Some vs ->
  (admits s (Some x) = true <-> x <> JNum NNotFinite /\ canonicalJson x ∈ vs).
Proof.
  destruct s; cbn [finiteValues]; intros [= <-].
  - cbn [admits]. rewrite scalar_admits_text, list_elem_of_singleton. done.
  - split.
    + destruct x as [| | |t| |]; try done. cbn [admits]. rewrite elem_spec. intros Ht. split; [done|].
      by apply (list_elem_of_fmap_2 (fun v => canonicalJson (JStr v))).
    + intros [_ Hx]. apply list_elem_of_fmap in Hx as (t & E & Ht). apply (canonical_normal x (JStr t)) in E.
      destruct x as [| |m| | |]; cbn in E; try done; [by destruct (num_normal m)|]. injection E as ->. cbn. by apply elem_spec.
Qed.

Lemma values_sound from to fs ts v : finiteValues from = Some fs -> finiteValues to = Some ts ->
  no_widening (valueSetChanges fs ts) = true -> admits to v = true -> admits from v = true.
Proof.
  intros Hf Ht Hn. destruct v as [x|]; [|by destruct to]. rewrite (finiteValues_admits _ _ _ Hf), (finiteValues_admits _ _ _ Ht).
  intros [Hx Hin]. split; [done|]. by apply (setChanges_sound _ _ Hn).
Qed.

(** ** Schemas *)

(** A comparison of cores that shows every value the second core admits and the first does not. *)
Definition core_sound (core : SchemaShape -> option (list Line)) (from : SchemaShape) : Prop :=
  forall to lines, well_formed to -> core to = Some lines -> no_widening lines = true ->
    forall v, admits to v = true -> admits from v = true.

Lemma same_text_agree s t : well_formed s -> well_formed t -> same_text (shape_json s) (shape_json t) = true -> agree s t.
Proof. intros Ws Wt. unfold same_text. rewrite String.eqb_eq. by apply canonical_text_agree. Qed.

Lemma shape_sound core from to lines : core_sound core (u_core (unwrapped from)) -> well_formed from -> well_formed to ->
  shapeChanges core from to = Some lines -> no_widening lines = true -> forall v, admits to v = true -> admits from v = true.
Proof.
  intros Hc Wf Wt. unfold shapeChanges. destruct (same_text _ _) eqn:E.
  { intros _ _ v. by rewrite (same_text_agree _ _ Wf Wt E v). }
  cbn. destruct (core (u_core (unwrapped to))) as [l|] eqn:El; [|done]. intros [= <-]. rewrite !no_widening_app, !andb_true_iff.
  intros (Ho & Hn & Hl) v. rewrite (unwrapped_spec from), (unwrapped_spec to), !orb_true_iff, !andb_true_iff. intros [[[Hu Hv]|[Hu Hv]]|Hv].
  - left. left. split; [by apply (flag_sound _ _ Ho)|done].
  - left. right. split; [by apply (flag_sound _ _ Hn)|done].
  - right. eapply Hc; [by apply unwrapped_well_formed|exact El|exact Hl|exact Hv].
Qed.

Lemma concat_lines_in l lines x : concat_lines l = Some lines -> x ∈ l ->
  exists ls, x = Some ls /\ (no_widening lines = true -> no_widening ls = true).
Proof.
  revert lines. induction l as [|y l IH]; intros lines; [set_solver|]. cbn. destruct y as [a|]; [|done]. cbn.
  destruct (concat_lines l) as [b|]; [|done]. intros [= <-] [->|Hx]%elem_of_cons.
  - exists a. split; [done|]. by rewrite no_widening_app, andb_true_iff; intros [? _].
  - destruct (IH b eq_refl Hx) as (ls & -> & Hls). exists ls. split; [done|]. rewrite no_widening_app, andb_true_iff. by intros [_ ?]; apply Hls.
Qed.

Lemma prototypeChanges_widens o n o' n' : no_widening (prototypeChanges o n o' n') = false.
Proof. by destruct o, n, o', n'. Qed.

(** What the lines of one name of two objects show, when none widens. *)
Lemma memberChanges_sound changes from to name lines :
  memberChanges Input changes (member from name) (member to name) = Some lines -> no_widening lines = true ->
  match lookup_field name from, lookup_field name to with
  | Some s, Some t => changes s t = Some lines
  | Some s, None => u_optional (unwrapped s) = true
  | None, Some _ => False
  | None, None => True
  end.
Proof.
  unfold member. destruct (lookup_field name from) as [s|], (lookup_field name to) as [t|]; cbn -[String.eqb Js.elem].
  - done.
  - destruct (name =? "__proto__")%string; [intros [= <-]; by rewrite prototypeChanges_widens|].
    destruct (Js.elem name OBJECT_METHODS); [done|]. intros [= <-]. rewrite no_widening_either. by destruct (u_optional _).
  - destruct (name =? "__proto__")%string; [intros [= <-]; by rewrite prototypeChanges_widens|].
    destruct (Js.elem name OBJECT_METHODS); [done|]. by intros [= <-].
  - done.
Qed.

Lemma fields_sound changes fields fields' lines o : NoDup (map fst fields) -> NoDup (map fst fields') ->
  fieldChanges Input changes fields fields' = Some lines -> no_widening lines = true ->
  (forall name s t ls v, lookup_field name fields = Some s -> lookup_field name fields' = Some t -> changes name s t = Some ls ->
     no_widening ls = true -> admits t v = true -> admits s v = true) ->
  admits (SObject fields') (Some (JObj o)) = true -> admits (SObject fields) (Some (JObj o)) = true.
Proof.
  intros Hd Hd' Hl Hn Hc. rewrite !object_admits by done. intros [Hf Hx].
  assert (Hm : forall name, name ∈ map fst fields \/ name ∈ map fst fields' -> exists ls, no_widening ls = true /\
    memberChanges Input (changes name) (member fields name) (member fields' name) = Some ls).
  { intros name Hin. destruct (concat_lines_in _ _ (memberChanges Input (changes name) (member fields name) (member fields' name)) Hl)
      as (ls & E & Hls); [|exists ls; auto].
    apply (list_elem_of_fmap_2 (fun field => memberChanges Input (changes field) (member fields field) (member fields' field))).
    by apply union_names_elem. }
  assert (In_fst : forall (l : list (string * SchemaShape)) k, is_some (lookup_field k l) = true -> k ∈ map fst l).
  { intros l k. pose proof (lookup_field_None k l). destruct (lookup_field k l); [|done]. intros _.
    destruct (decide (k ∈ map fst l)); [done|naive_solver]. }
  split.
  - intros k s Hs. destruct (Hm k) as (ls & Hls & E); [left; apply In_fst; by rewrite Hs|].
    apply memberChanges_sound in E; [|done]. rewrite Hs in E. destruct (lookup_field k fields') as [t|] eqn:Ht.
    + eapply Hc; eauto.
    + rewrite unwrapped_spec, E. destruct (lookup_field k o) as [x|] eqn:Ek; [|done]. exfalso.
      assert (Hk : exists y, (k, y) ∈ o).
      { clear -Ek. induction o as [|[k' y] o IH]; [done|]. cbn -[String.eqb] in Ek. destruct (String.eqb_spec k k') as [->|N].
        - exists y. by left.
        - destruct IH as [z Hz]; [done|]. exists z. by right. }
      destruct Hk as [y Hy]. apply Hx in Hy. by rewrite Ht in Hy.
  - intros k x Hk. specialize (Hx k x Hk). destruct (Hm k) as (ls & Hls & E); [right; by apply In_fst|].
    apply memberChanges_sound in E; [|done]. by destruct (lookup_field k fields), (lookup_field k fields').
Qed.

Definition wrapped (s : SchemaShape) : bool := match s with SOptional _ | SNullable _ => true | _ => false end.

(** The cases of [coreChanges] on a schema that is neither optional nor nullable. *)
Lemma coreChanges_cases from to lines : wrapped from = false -> coreChanges Input from to = Some lines ->
  same_text (shape_json from) (shape_json to) = true
  \/ (exists fs ts, finiteValues from = Some fs /\ finiteValues to = Some ts /\ lines = valueSetChanges fs ts)
  \/ match from, to with
     | SObject fields, SObject fields' => fieldChanges Input (fun name => shapeChanges (default (fun _ => None)
         (lookup_field name (map (fun field => (field.1, coreChanges Input field.2)) fields)))) fields fields' = Some lines
     | SString s, SString s' => lines = stringChanges s s'
     | SNumber n, SNumber n' => lines = numberChanges n n'
     | SArray items lo hi, SArray items' lo' hi' => exists ls, shapeChanges (coreChanges Input items) items items' = Some ls /\
         lines = lowerLimitChange Z.eqb Z.ltb lo lo' ++ limitChange Z.eqb Z.ltb hi hi' ++ ls
     | _, _ => lines = [widening]
     end.
Proof.
  intros Hw Hl. destruct (same_text (shape_json from) (shape_json to)) eqn:E; [by left|]. right.
  assert (Hv : valueChange (shape_json from) (shape_json to) = [widening]) by (unfold valueChange; by rewrite E).
  destruct from; try discriminate Hw; cbn [coreChanges] in Hl; rewrite E in Hl; clear E; destruct to; cbn [finiteValues] in Hl;
    rewrite ?Hv in Hl; try (right; by injection Hl); try (left; eexists _, _; (split; [reflexivity|]); (split; [reflexivity|]); by injection Hl).
  - right. destruct (shapeChanges _ _ _) as [ls|] eqn:Es; [|done]. exists ls. by injection Hl.
  - by right.
Qed.

Lemma core_unwrapped from to : coreChanges Input from to = coreChanges Input (u_core (unwrapped from)) to.
Proof.
  induction from; try done; unfold unwrapped; cbn [unwrapped_loop coreChanges]; by rewrite unwrapped_loop_core.
Qed.

Lemma core_not_wrapped s : wrapped (u_core (unwrapped s)) = false.
Proof. induction s; try done; unfold unwrapped; cbn [unwrapped_loop]; by rewrite unwrapped_loop_core. Qed.

(** Every value the new core admits and the old one does not is shown by a line that widens. *)
Lemma coreChanges_sound from : well_formed from -> core_sound (coreChanges Input from) (u_core (unwrapped from)).
Proof.
  assert (Plain : forall s, wrapped s = false -> u_core (unwrapped s) = s) by (by intros []).
  induction from as [s Hs|items lo hi IH|items rest _ _|key value _ _|fields IH|inner IH|inner IH|options _] using shape_rect'; intros Wf.
  6, 7: cbn [well_formed] in Wf; intros to lines Wt Hl; unfold unwrapped; cbn [unwrapped_loop coreChanges] in *; rewrite unwrapped_loop_core; by apply IH.
  all: intros to lines Wt Hl Hn v Hv; rewrite Plain by first [done|by destruct s]; apply coreChanges_cases in Hl as [E|[(fs & ts & Ef & Et & ->)|Hl]];
    [by rewrite (same_text_agree _ _ Wf Wt E v)|by eapply values_sound| |by first [done|destruct s]].
  - destruct s; try done; destruct to; subst lines; try done; destruct v as [[]|]; try done; cbn [admits] in *.
    + by eapply string_sound.
    + match goal with |- context [num_normal ?m] => destruct (num_normal m); [|done] end. eapply number_sound; eassumption.
  - destruct to as [| | | | | |items' lo' hi'| | | | | | | |]; try (by subst). destruct Hl as (ls & Hs & ->).
    rewrite !no_widening_app, !andb_true_iff in Hn. destruct Hn as (Hlo & Hhi & Hn). destruct v as [[| | | |l|]|]; try done.
    cbn [admits well_formed] in *. unfold length_between in *. rewrite !andb_true_iff in Hv |- *. destruct Hv as [[Hmin Hmax] Hv].
    repeat split; [eapply lower_limit_sound; eassumption|eapply limit_sound; eassumption|].
    rewrite forallb_forall in Hv |- *. intros x Hx. eapply shape_sound; [apply IH|..]; eauto.
  - by subst.
  - by subst.
  - destruct to as [| | | | | | | | |fields'| | | | |]; try (by subst). destruct v as [[| | | | |o]|]; try done.
    cbn [well_formed] in Wf, Wt. rewrite Forall_foldr in Wf, Wt. destruct Wf as [Hd Wf], Wt as [Hd' Wt].
    eapply fields_sound; [done|done|exact Hl|done| |exact Hv].
    intros name s t ls w Hs Ht. cbn beta. rewrite (lookup_field_map (coreChanges Input)), Hs. cbn [fmap option_fmap option_map default]. intros Hc Hls.
    apply lookup_field_Some in Hs, Ht; [|done..]. rewrite Forall_forall in IH, Wf, Wt.
    eapply shape_sound; [apply (IH _ Hs), (Wf _ Hs)|by apply (Wf _ Hs)|by apply (Wt _ Ht)|exact Hc|exact Hls].
  - by subst.
Qed.

End Sound.

(** C15. An input whose change shows no line that widens admits no value the old input refused: whatever the new schema
    admits, the old one admitted. *)
Theorem schemaChanges_sound `{ZodChecks} `{NumberTextLaws} (from to : SchemaShape) (lines : list Line) (v : option json) :
  well_formed from -> well_formed to -> schemaChanges Input (Some from) (Some to) = Some lines -> no_widening lines = true ->
  admits to v = true -> admits from v = true.
Proof. intros Wf Wt Hl Hn. by eapply shape_sound; [apply coreChanges_sound|..]. Qed.

(** ** When a comparison throws *)

(** No object of the schema has a field named like a method of [Object.prototype]. *)
Fixpoint plain_names (s : SchemaShape) : bool :=
  match s with
  | SArray items _ _ => plain_names items
  | STuple items rest => forallb plain_names items && match rest with Some r => plain_names r | None => true end
  | SRecord key value => plain_names key && plain_names value
  | SObject fields => forallb (fun field => negb (Js.elem field.1 OBJECT_METHODS) && plain_names field.2) fields
  | SOptional inner | SNullable inner => plain_names inner
  | SUnion options => forallb plain_names options
  | _ => true
  end.

Section Total.
Context `{NumberText}.

Definition total (from : SchemaShape) : Prop := forall side to, plain_names to = true -> is_Some (coreChanges side from to).

Lemma plain_core s : plain_names s = true -> plain_names (u_core (unwrapped s)) = true.
Proof. induction s; try done; cbn [plain_names]; unfold unwrapped in *; cbn [unwrapped_loop]; rewrite unwrapped_loop_core; auto. Qed.

Lemma shape_total core from to : (forall to', plain_names to' = true -> is_Some (core to')) -> plain_names to = true -> is_Some (shapeChanges core from to).
Proof.
  intros Hc Ht. unfold shapeChanges. destruct (same_text _ _); [by eexists|].
  destruct (Hc (u_core (unwrapped to))) as [ls ->]; [by apply plain_core|]. by eexists.
Qed.

Lemma concat_lines_total l : Forall is_Some l -> is_Some (concat_lines l).
Proof. induction 1 as [|x l [a ->] Hl [b Hb]]; cbn; [by eexists|]. rewrite Hb. by eexists. Qed.

Lemma fields_total side changes fields fields' :
  forallb (fun field => negb (Js.elem field.1 OBJECT_METHODS) && plain_names field.2) fields = true ->
  forallb (fun field => negb (Js.elem field.1 OBJECT_METHODS) && plain_names field.2) fields' = true ->
  (forall name s t, lookup_field name fields = Some s -> plain_names t = true -> is_Some (changes name s t)) ->
  is_Some (fieldChanges side changes fields fields').
Proof.
  rewrite !forallb_forall. intros Hf Hf' Hc. apply concat_lines_total. apply Forall_fmap, Forall_forall. intros name Hn.
  assert (Hm : Js.elem name OBJECT_METHODS = false).
  { apply union_names_elem in Hn as [Hn|Hn]; apply list_elem_of_fmap in Hn as ([k s] & -> & Hk); apply list_elem_of_In in Hk;
      [apply Hf in Hk|apply Hf' in Hk]; cbn [fst] in *; by destruct (Js.elem _ _). }
  unfold compose, member. destruct (lookup_field name fields) as [s|] eqn:Es, (lookup_field name fields') as [t|] eqn:Et; rewrite ?Hm.
  - eapply Hc; [done|]. apply lookup_field_in, list_elem_of_In, Hf' in Et. cbn in Et. by apply andb_true_iff in Et as [_ ?].
  - destruct (name =? "__proto__")%string; by eexists.
  - destruct (name =? "__proto__")%string; by eexists.
  - exfalso. apply lookup_field_None in Es, Et. apply union_names_elem in Hn. naive_solver.
Qed.

Lemma coreChanges_total from : plain_names from = true -> total from.
Proof.
  induction from as [s Hs|items lo hi IH|items rest _ _|key value _ _|fields IH|inner IH|inner IH|options _] using shape_rect';
    intros Hp side to Ht; cbn [coreChanges]; try (by apply IH).
  all: try (destruct s; try done; cbn [coreChanges]);
    (destruct (same_text _ _); [by eexists|]); destruct to; cbn [finiteValues]; try (by eexists).
  - cbn [plain_names] in *. destruct (shape_total (coreChanges side items) items to) as [ls ->]; [intros; by apply IH|done|by eexists].
  - cbn [plain_names] in *. apply fields_total; [done..|]. intros name s t Hs Hpt.
    rewrite (lookup_field_map (coreChanges side)), Hs. cbn [fmap option_fmap option_map default]. apply shape_total; [|done].
    apply lookup_field_in in Hs. rewrite Forall_forall in IH. pose proof (IH _ Hs) as IHs. apply list_elem_of_In in Hs.
    rewrite forallb_forall in Hp. apply Hp in Hs. apply andb_true_iff in Hs as [_ Hs]. intros to' Hto'. by apply (IHs Hs side).
Qed.

End Total.

(** The comparison of two schemas answers lines unless a field of one of them is named like a method of
    [Object.prototype]. *)
Theorem schemaChanges_answers `{NumberText} (side : Side) (from to : SchemaShape) :
  plain_names from = true -> plain_names to = true -> is_Some (schemaChanges side (Some from) (Some to)).
Proof. intros Hf Ht. apply shape_total; [intros to' Ht'; by apply coreChanges_total|done]. Qed.

(** An added field named [constructor] stops the comparison: reading it from the old fields finds [Object], whose JSON
    text is [undefined]. *)
Lemma field_constructor_throws :
  schemaChanges Input (Some (SObject [])) (Some (SObject [("constructor", SOptional SBoolean)])) = None.
Proof. by vm_compute. Qed.

(** Checks for the example: no named formats, patterns, tokens or files. *)
#[export] Instance demo_checks : ZodChecks := {|
  format_ok _ _ := false; pattern_ok _ _ := false; int_ok x := (0 <=? x.2)%Z; multiple_ok _ _ := true;
  token_ok _ _ := false; file_ok _ _ := false |}.

Definition demo_title (maxLength : Z) : SchemaShape := SString (mkStringShape None None (Some maxLength) None None None None).

Definition demo_from : SchemaShape := SObject [("title", demo_title 5); ("tags", SArray (SEnum ["a"; "b"; "c"]) None None); ("note", SOptional SBoolean)].
Definition demo_to : SchemaShape := SObject [("tags", SArray (SEnum ["c"; "a"]) None (Some 2%Z)); ("title", demo_title 3)].
Definition demo_value : json := JObj [("title", JStr "abc"); ("tags", JArr [JStr "c"])].

Lemma schemaChanges_sound_witness :
  schemaChanges Input (Some demo_from) (Some demo_to) = Some [narrowing; narrowing; narrowing; narrowing]
  /\ admits demo_from (Some demo_value) = true.
Proof.
  split; [by vm_compute|].
  apply (schemaChanges_sound demo_from demo_to [narrowing; narrowing; narrowing; narrowing] (Some demo_value)).
  - split; [|repeat split]. apply (bool_decide_unpack _). by vm_compute.
  - split; [|repeat split]. apply (bool_decide_unpack _). by vm_compute.
  - by vm_compute.
  - by vm_compute.
  - by vm_compute.
Defined.

Lemma schemaChanges_answers_witness : is_Some (schemaChanges Output (Some demo_to) (Some demo_from)).
Proof. apply (schemaChanges_answers Output demo_to demo_from); by vm_compute. Defined.
