(* ===== verification/Rules.v ===== *)
(** The rows of an endpoint table as a contract declares them ([EndpointRow] of [auth-core/src/contract.ts]), and the rules
    the proxy applies to one, with their digest ([auth-core/src/endpoint-digest.ts], [contract-canonical.ts]). *)

From S2P Require Import Prelude Json Shapes Permissions Endpoints Headers Authorize Digest.
From Stdlib Require Import ZArith Lia String Ascii.
From stdpp Require Import base tactics strings gmap list.

(** ** Rows *)

Record EndpointSource := mkSource { source_kind : string; source_name : string }.

#[global] Instance EndpointSource_eq_dec : EqDecision EndpointSource.
Proof. solve_decision. Defined.

#[global] Instance EndpointResponse_eq_dec : EqDecision EndpointResponse.
Proof. intros [] []; by (left; done) || (right; done). Defined.

#[global] Instance CrossOriginForm_eq_dec : EqDecision CrossOriginForm.
Proof. intros [] []; by (left; done) || (right; done). Defined.

Record AttachmentShape := mkAttachment {
  a_format : string;
  a_filename : string;
  a_maxBytes : Z;
  a_maxRows : Z;
  a_columns : list (string * SchemaShape);
}.

Inductive OutputShape := OutSchema (s : SchemaShape) | OutAttachment (a : AttachmentShape) | OutRedirect (origins : list string).

Record EndpointRow := mkEndpointRow {
  e_id : string;
  e_source : EndpointSource;
  e_kind : string;
  e_method : string;
  e_path : string;
  e_callers : list string;
  e_requirement : option Requirement;
  e_admission : option BodyAdmission;
  e_input : option SchemaShape;
  e_output : option OutputShape;
  e_crossOrigin : option CrossOriginForm;
  e_response : option EndpointResponse;
  e_cache : option EndpointCache;
  e_authorization : bool;
}.

#[global] Instance EndpointRow_pattern : EndpointPattern EndpointRow :=
  {| ep_id := e_id; ep_method := e_method; ep_path := e_path |}.

(** What the rules read of a dimension: the actions of its members. *)
Record DimensionMembers := mkMembers { members_manage : string; members_list : string }.

(** What the comparison of two endpoint tables reads of an artifact; a mount is its kind, the public variables it serves. *)
Record ContractArtifact := mkArtifact {
  art_dimensions : list (string * option DimensionMembers);
  art_mounts : list (string * (string * list string));
  art_endpoints : list EndpointRow;
  art_reservedPrefixes : list string;
}.

(** ** Delegation *)

Inductive EndpointDelegation := DelegatesMembers | DelegatesCreates.

Definition form_dimension (access : AccessForm) : option string :=
  match access with FormOver d | FormIn d _ | FormOn d _ | FormCreates d => Some d | FormApp => None end.

Definition endpointDelegation (artifact : ContractArtifact) (row : EndpointRow) : option EndpointDelegation :=
  match e_requirement row with
  | Some (ReqAction requirement) =>
      match req_access requirement with
      | FormCreates _ => Some DelegatesCreates
      | FormApp => None
      | FormOver dimension | FormIn dimension _ | FormOn dimension _ =>
          managed ← lookup_field dimension (art_dimensions artifact);
          members ← managed;
          if (members_manage members =? req_action requirement)%string then Some DelegatesMembers else None
      end
  | _ => None
  end.

(** ** As JSON *)

Definition access_json (access : AccessForm) : json :=
  match access with
  | FormOver d => JObj [("form", JStr "over"); ("dimension", JStr d)]
  | FormIn d from => JObj [("form", JStr "in"); ("dimension", JStr d); ("from", JStr from)]
  | FormOn d from => JObj [("form", JStr "on"); ("dimension", JStr d); ("from", opt_json JStr from)]
  | FormCreates d => JObj [("form", JStr "creates"); ("dimension", JStr d)]
  | FormApp => JObj [("form", JStr "app")]
  end.

Definition requirement_json (requirement : Requirement) : json :=
  match requirement with
  | ReqAuthenticated => JObj [("kind", JStr "authenticated")]
  | ReqMember => JObj [("kind", JStr "member")]
  | ReqAction r => JObj [("kind", JStr "action"); ("action", JStr (req_action r)); ("access", access_json (req_access r))]
  | ReqCapabilities capabilities => JObj [("kind", JStr "capabilities");
      ("capabilities", JObj (map (fun capability => (capability.1,
        JObj [("action", JStr (req_action capability.2)); ("access", access_json (req_access capability.2))])) capabilities))]
  end.

Definition admission_json (a : BodyAdmission) : json :=
  JObj [("contentTypes", JArr (map JStr (contentTypes a))); ("maxBytes", opt_json int_json (maxBytes a))].

Definition delegation_json (d : EndpointDelegation) : json :=
  JStr (match d with DelegatesMembers => "members" | DelegatesCreates => "creates" end).

Definition cache_json (c : EndpointCache) : json :=
  match c with MaxAgeSeconds n => JObj [("maxAgeSeconds", int_json (Z.of_N n))] | Immutable => JStr "immutable" end.

Definition crossOrigin_json (c : CrossOriginForm) : json := JStr (match c with CrossEnvironment => "environment" | CrossAny => "any" end).
Definition response_json (r : EndpointResponse) : json := JStr (match r with FileResponse => "file" | InlineFileResponse => "inline-file" end).

(** ** The digest of a row's rules *)

(** [EndpointRules], of an application's row or an installation's; [rules_oauth] is the latter's scopes. *)
Record EndpointRules := mkRules {
  rules_kind : string;
  rules_method : string;
  rules_path : string;
  rules_callers : list string;
  rules_requirement : option Requirement;
  rules_admission : option BodyAdmission;
  rules_delegation : option EndpointDelegation;
  rules_oauth : option (list string);
  rules_crossOrigin : option CrossOriginForm;
  rules_response : option EndpointResponse;
  rules_cache : option EndpointCache;
  rules_authorization : bool;
}.

Definition sortedCodeUnits (values : list string) : list string := sort_by code_unit_le values.

Definition canonicalAdmission (a : BodyAdmission) : BodyAdmission := mkAdmission (sortedCodeUnits (contentTypes a)) (maxBytes a).

(** [...(value === undefined ? {} : { key: value })] *)
Definition present (fields : list (string * option json)) : list (string * json) :=
  omap (fun field => pair field.1 <$> field.2) fields.

Definition rules_json (r : EndpointRules) : json :=
  JObj (present
    [ ("kind", Some (JStr (rules_kind r))); ("method", Some (JStr (rules_method r))); ("path", Some (JStr (rules_path r)));
      ("callers", Some (JArr (map JStr (sortedCodeUnits (rules_callers r)))));
      ("requirement", Some (opt_json requirement_json (rules_requirement r)));
      ("admission", Some (opt_json (fun a => admission_json (canonicalAdmission a)) (rules_admission r)));
      ("delegation", Some (opt_json delegation_json (rules_delegation r)));
      ("oauth", (fun scopes => JObj [("scopes", JArr (map JStr (sortedCodeUnits scopes)))]) <$> rules_oauth r);
      ("crossOrigin", crossOrigin_json <$> rules_crossOrigin r); ("response", response_json <$> rules_response r);
      ("cache", cache_json <$> rules_cache r);
      ("authorization", if rules_authorization r then Some (JStr "forward") else None) ]).

(** The rules an artifact's row stands for: [endpointDigest]. *)
Definition row_rules (artifact : ContractArtifact) (row : EndpointRow) : EndpointRules :=
  mkRules (e_kind row) (e_method row) (e_path row) (e_callers row) (e_requirement row) (e_admission row)
    (endpointDelegation artifact row) None (e_crossOrigin row) (e_response row) (e_cache row) (e_authorization row).

Section Digest.
Context `{NumberText}.

(** The text [requirementDigest] hashes. *)
Definition rules_text (r : EndpointRules) : string := canonicalJson (rules_json r).

Definition requirementDigest (r : EndpointRules) : string := digestOf (rules_text r).

Definition endpointDigest (artifact : ContractArtifact) (row : EndpointRow) : string := requirementDigest (row_rules artifact row).

End Digest.

(** ** Objects with optional fields *)

Lemma present_keys (l : list (string * option json)) : map fst (present l) `sublist_of` map fst l.
Proof. induction l as [|[k [x|]] l IH]; cbn; [constructor|by constructor|by constructor]. Qed.

Lemma present_nodup (l : list (string * option json)) : NoDup (map fst l) -> NoDup (map fst (present l)).
Proof. intros Hd. eapply sublist_NoDup; [exact Hd|apply present_keys]. Qed.

Lemma lookup_present k (l : list (string * option json)) : NoDup (map fst l) ->
  lookup_field k (present l) = (x ← lookup_field k l; x).
Proof.
  induction l as [|[k' x] l IH]; [done|]. cbn -[String.eqb]. rewrite NoDup_cons. intros [Hk Hd]. specialize (IH Hd).
  destruct (String.eqb_spec k k') as [->|N].
  - destruct x as [x|]; cbn; [by rewrite String.eqb_refl|]. fold (present l). rewrite IH.
    by apply lookup_field_None in Hk as ->.
  - destruct x as [x|]; cbn; [destruct (String.eqb_spec k k'); [done|]|]; exact IH.
Qed.

(** One field of two objects with the same normal form; [None] is an absent field. *)
Lemma present_field k l l' : NoDup (map fst l) -> NoDup (map fst l') -> normal (JObj (present l)) = normal (JObj (present l')) ->
  normal <$> (x ← lookup_field k l; x) = normal <$> (x ← lookup_field k l'; x).
Proof. intros Hd Hd' E. rewrite <-!lookup_present by done. apply normal_lookup; [by apply present_nodup..|exact E]. Qed.

Lemma present_normal l l' : map (fun f => (f.1, normal <$> f.2)) l = map (fun f => (f.1, normal <$> f.2)) l' ->
  normal (JObj (present l)) = normal (JObj (present l')).
Proof.
  intros E. cbn [normal]. do 2 f_equal. revert l' E. induction l as [|[k x] l IH]; intros [|[k' x'] l'] E; try discriminate E; [done|].
  cbn [map fst snd] in E. injection E as -> Ex E. apply IH in E. destruct x, x'; cbn in Ex |- *; try discriminate Ex; [|exact E].
  injection Ex as ->. by f_equal.
Qed.

Ltac closed_nodup := apply (bool_decide_unpack _); by vm_compute.

Ltac present_of E k :=
  let F := fresh "F" in
  pose proof E as F; apply (present_field k) in F; [|closed_nodup|closed_nodup]; cbn -[normal opt_json] in F.

(** ** Equal texts *)

Lemma access_inj a b : normal (access_json a) = normal (access_json b) -> a = b.
Proof.
  intros E. destruct a, b; cbn [access_json] in E; field_of E "form"; try discriminate F; try done; try field_of E "dimension"; try field_of E "from";
    repeat match goal with H : normal (JStr _) = normal (JStr _) |- _ => injection H as -> end; try done.
  by apply opt_str_inj in F1 as ->.
Qed.

Lemma action_inj r r' : normal (JStr (req_action r)) = normal (JStr (req_action r')) ->
  normal (access_json (req_access r)) = normal (access_json (req_access r')) -> r = r'.
Proof. destruct r, r'; cbn -[normal access_json]. intros [= ->] ->%access_inj. done. Qed.

(** The same requirement, its capabilities in any order. *)
Definition same_requirement (a b : Requirement) : Prop :=
  match a, b with
  | ReqCapabilities c, ReqCapabilities c' => c ≡ₚ c'
  | _, _ => a = b
  end.

Definition requirement_ok (r : Requirement) : Prop := match r with ReqCapabilities c => NoDup (map fst c) | _ => True end.

Definition capability_json (r : ActionRequirement) : json := JObj [("action", JStr (req_action r)); ("access", access_json (req_access r))].

Lemma capability_inj r r' : normal (capability_json r) = normal (capability_json r') -> r = r'.
Proof. intros E. unfold capability_json in E. field_of E "action". field_of E "access". by apply action_inj. Qed.

Lemma map_pair_inj {A B} (f : A -> B) (l l' : list (string * A)) : (forall a b, f a = f b -> a = b) ->
  map (fun x => (x.1, f x.2)) l = map (fun x => (x.1, f x.2)) l' -> l = l'.
Proof.
  intros Hf. revert l'. induction l as [|[k a] l IH]; intros [|[k' b] l'] [=]; [done|]. subst. f_equal; [f_equal|]; auto.
Qed.

Lemma requirement_inj a b : requirement_ok a -> requirement_ok b ->
  normal (requirement_json a) = normal (requirement_json b) <-> same_requirement a b.
Proof.
  intros Ha Hb. split.
  - intros E. destruct a as [| |c|r], b as [| |c'|r']; cbn [requirement_json] in E; field_of E "kind"; try discriminate F; try done.
    + field_of E "capabilities". injection F0 as F0. cbn [same_requirement].
      rewrite !map_map in F0. cbn [fst snd] in F0.
      change (sortKeys (map (fun x => (x.1, normal (capability_json x.2))) c)
              = sortKeys (map (fun x => (x.1, normal (capability_json x.2))) c')) in F0.
      rewrite (sortKeys_map (fun r => normal (capability_json r)) c), (sortKeys_map (fun r => normal (capability_json r)) c') in F0.
      apply (map_pair_inj (fun r => normal (capability_json r))) in F0; [|by apply capability_inj].
      by rewrite <-(sortKeys_Permutation c), <-(sortKeys_Permutation c'), F0.
    + field_of E "action". field_of E "access". cbn. f_equal. by apply action_inj.
  - destruct a as [| |c|r], b as [| |c'|r']; cbn [same_requirement]; try by intros [=]; subst. intros Hp. cbn [requirement_json].
    change (normal (JObj [("kind", JStr "capabilities"); ("capabilities", JObj (map (fun x => (x.1, capability_json x.2)) c))])
      = normal (JObj [("kind", JStr "capabilities"); ("capabilities", JObj (map (fun x => (x.1, capability_json x.2)) c'))])).
    assert (E : normal (JObj (map (fun x => (x.1, capability_json x.2)) c)) = normal (JObj (map (fun x => (x.1, capability_json x.2)) c'))).
    { cbn [normal]. f_equal. rewrite !map_map. cbn [fst snd]. by apply (sortKeys_canonical_map (fun r => normal (capability_json r))). }
    cbn [normal map fst snd]. cbn [normal] in E. by rewrite E.
Qed.

Lemma opt_json_inj {A} (f : A -> json) (R : A -> A -> Prop) a b :
  (forall x y, a = Some x -> b = Some y -> normal (f x) = normal (f y) <-> R x y) -> (forall x, normal (f x) <> VNull) ->
  normal (opt_json f a) = normal (opt_json f b) <-> option_Forall2 R a b.
Proof.
  intros Hf Hn. destruct a as [x|], b as [y|]; cbn [opt_json].
  - rewrite Hf by done. split; [by constructor|]. by inversion 1.
  - split; [intros E; by destruct (Hn x)|by inversion 1].
  - split; [intros E; by destruct (Hn y)|by inversion 1].
  - split; [by constructor|done].
Qed.

Lemma fmap_json_inj {A} (f : A -> json) (R : A -> A -> Prop) a b : (forall x y, normal (f x) = normal (f y) <-> R x y) ->
  normal <$> (f <$> a) = normal <$> (f <$> b) <-> option_Forall2 R a b.
Proof.
  intros Hf. destruct a as [x|], b as [y|]; cbn.
  - split; [intros [= E%Hf]; by constructor|]. inversion 1; subst. f_equal. by apply Hf.
  - by split; [|inversion 1].
  - by split; [|inversion 1].
  - by split; [constructor|].
Qed.

Lemma sorted_strs l l' : normal (JArr (map JStr (sortedCodeUnits l))) = normal (JArr (map JStr (sortedCodeUnits l'))) <-> l ≡ₚ l'.
Proof.
  split.
  - intros E%normal_strs_inj. unfold sortedCodeUnits in E. by rewrite <-(sort_by_Permutation code_unit_le l), <-(sort_by_Permutation code_unit_le l'), E.
  - intros Hp. assert (sortedCodeUnits l = sortedCodeUnits l') as ->; [|done].
    apply sort_by_canonical; [apply code_unit_le_total|apply code_unit_le_trans| |exact Hp]. intros a b _ _. apply code_unit_le_antisym.
Qed.

(** The same admission, its content types in any order. *)
Definition same_admission (a b : BodyAdmission) : Prop := contentTypes a ≡ₚ contentTypes b /\ maxBytes a = maxBytes b.

Lemma admission_inj a b : normal (admission_json a) = normal (admission_json b) -> a = b.
Proof.
  intros E. unfold admission_json in E. field_of E "contentTypes". field_of E "maxBytes". apply normal_strs_inj in F. apply opt_int_inj in F0.
  destruct a, b; cbn in *. by subst.
Qed.

Lemma canonical_admission_inj a b : normal (admission_json (canonicalAdmission a)) = normal (admission_json (canonicalAdmission b)) <-> same_admission a b.
Proof.
  split.
  - intros E%admission_inj. unfold canonicalAdmission in E. injection E as E Eb. split; [|done]. apply sorted_strs. by rewrite E.
  - intros [Hp Eb]. apply sorted_strs in Hp. unfold admission_json, canonicalAdmission. cbn [contentTypes maxBytes]. rewrite Eb.
    apply normal_strs_inj in Hp. by rewrite Hp.
Qed.

Lemma cache_inj a b : normal (cache_json a) = normal (cache_json b) <-> a = b.
Proof.
  split; [|by intros ->]. destruct a as [n|], b as [m|]; intros E; try done. unfold cache_json in E. field_of E "maxAgeSeconds".
  apply normal_int_inj in F. f_equal. lia.
Qed.

(** What the proxy applies, whatever the order of callers, content types, scopes and capabilities. *)
Record same_rules (a b : EndpointRules) : Prop := {
  same_kind : rules_kind a = rules_kind b;
  same_method : rules_method a = rules_method b;
  same_path : rules_path a = rules_path b;
  same_callers : rules_callers a ≡ₚ rules_callers b;
  same_requirements : option_Forall2 same_requirement (rules_requirement a) (rules_requirement b);
  same_admissions : option_Forall2 same_admission (rules_admission a) (rules_admission b);
  same_delegation : rules_delegation a = rules_delegation b;
  same_oauth : option_Forall2 (≡ₚ) (rules_oauth a) (rules_oauth b);
  same_crossOrigin : rules_crossOrigin a = rules_crossOrigin b;
  same_response : rules_response a = rules_response b;
  same_cache : rules_cache a = rules_cache b;
  same_authorization : rules_authorization a = rules_authorization b;
}.

Lemma rules_normal a b : from_option requirement_ok True (rules_requirement a) -> from_option requirement_ok True (rules_requirement b) ->
  normal (rules_json a) = normal (rules_json b) <-> same_rules a b.
Proof.
  intros Ha Hb.
  assert (Req : normal (opt_json requirement_json (rules_requirement a)) = normal (opt_json requirement_json (rules_requirement b))
                <-> option_Forall2 same_requirement (rules_requirement a) (rules_requirement b)).
  { apply opt_json_inj; [|by intros []]. intros x y Ex Ey. rewrite Ex in Ha. rewrite Ey in Hb. by apply requirement_inj. }
  assert (Adm : normal (opt_json (fun a => admission_json (canonicalAdmission a)) (rules_admission a))
                = normal (opt_json (fun a => admission_json (canonicalAdmission a)) (rules_admission b))
                <-> option_Forall2 same_admission (rules_admission a) (rules_admission b)).
  { apply opt_json_inj; [|done]. intros x y _ _. apply canonical_admission_inj. }
  assert (Oauth : normal <$> ((fun scopes => JObj [("scopes", JArr (map JStr (sortedCodeUnits scopes)))]) <$> rules_oauth a)
                  = normal <$> ((fun scopes => JObj [("scopes", JArr (map JStr (sortedCodeUnits scopes)))]) <$> rules_oauth b)
                  <-> option_Forall2 (≡ₚ) (rules_oauth a) (rules_oauth b)).
  { apply fmap_json_inj. intros x y. rewrite <-sorted_strs. split; [intros E; by field_of E "scopes"|]. intros E. cbn [normal map fst snd]. cbn [normal] in E. by rewrite E. }
  assert (Deleg : normal (opt_json delegation_json (rules_delegation a)) = normal (opt_json delegation_json (rules_delegation b))
                  <-> rules_delegation a = rules_delegation b).
  { split; [|by intros ->]. by destruct (rules_delegation a) as [[]|], (rules_delegation b) as [[]|]. }
  split.
  - intros E. unfold rules_json in E. present_of E "kind". present_of E "method". present_of E "path". present_of E "callers".
    present_of E "requirement". present_of E "admission". present_of E "delegation". present_of E "oauth". present_of E "crossOrigin".
    present_of E "response". present_of E "cache". present_of E "authorization".
    injection F as F. injection F0 as F0. injection F1 as F1. apply (inj Some) in F2, F3, F4, F5. apply sorted_strs in F2.
    apply Req in F3. apply Adm in F4. apply Deleg in F5. apply Oauth in F6.
    split; try done.
    + by destruct (rules_crossOrigin a) as [[]|], (rules_crossOrigin b) as [[]|].
    + by destruct (rules_response a) as [[]|], (rules_response b) as [[]|].
    + apply (fmap_json_inj cache_json eq) in F9; [|apply cache_inj]. by destruct F9 as [x y ->|].
    + by destruct (rules_authorization a), (rules_authorization b).
  - intros [Ek Em Ep Ec Er Ea Ed Eo Ex Es Eh Et]. apply present_normal. cbn [map fst snd]. rewrite Ek, Em, Ep, Ed, Ex, Es, Eh, Et.
    apply sorted_strs in Ec. apply Req in Er. apply Adm in Ea. apply Oauth in Eo. cbn [fmap option_fmap option_map] in *.
    by rewrite Ec, Er, Ea, Eo.
Qed.

(** The digest the proxy sends with a request stands for the rules it applied and for nothing else: two rows hash
    the same text exactly when every rule is the same, whatever the order of callers, content types, scopes and
    capabilities, so rows whose rules are the same have one digest. *)
Theorem requirementDigest_covers `{NumberTextLaws} (a b : EndpointRules) :
  from_option requirement_ok True (rules_requirement a) -> from_option requirement_ok True (rules_requirement b) ->
  (rules_text a = rules_text b <-> same_rules a b) /\ (same_rules a b -> requirementDigest a = requirementDigest b).
Proof.
  intros Ha Hb. assert (E : rules_text a = rules_text b <-> same_rules a b).
  { rewrite <-rules_normal by done. apply canonical_normal. }
  split; [exact E|]. intros Hs%E. unfold requirementDigest. by rewrite Hs.
Qed.

Definition demo_rules (callers capabilities : list string) : EndpointRules :=
  mkRules "public" "POST" "/api/note" callers
    (Some (ReqCapabilities (map (fun name => (name, mkActionReq name FormApp)) capabilities)))
    (Some (mkAdmission callers None)) None None None None None false.

Lemma requirementDigest_covers_witness :
  requirementDigest (demo_rules ["human"; "machine"] ["a"; "b"]) = requirementDigest (demo_rules ["machine"; "human"] ["b"; "a"])
  /\ rules_text (demo_rules ["human"] ["a"]) <> rules_text (demo_rules ["human"] ["b"]).
Proof.
  split.
  - apply (requirementDigest_covers (demo_rules ["human"; "machine"] ["a"; "b"]) (demo_rules ["machine"; "human"] ["b"; "a"]));
      [apply (bool_decide_unpack _); by vm_compute|apply (bool_decide_unpack _); by vm_compute|].
    repeat split; try done; cbn; repeat constructor; cbn; apply (bool_decide_unpack _); by vm_compute.
  - intros E%(requirementDigest_covers (demo_rules ["human"] ["a"]) (demo_rules ["human"] ["b"]));
      [|apply (bool_decide_unpack _); by vm_compute|apply (bool_decide_unpack _); by vm_compute].
    pose proof (same_requirements _ _ E) as R. cbn in R. inversion R as [? ? P|]; subst. cbn in P. apply Permutation_length_1_inv in P. discriminate P.
Defined.
