(* ===== verification/Probe.v ===== *)
(** The paths that stand for every path a pattern matches: [probePaths] of [control/src/approval/diff.ts], with the proof
    that they tell apart whatever the patterns of two endpoint tables tell apart. *)

From S2P Require Import Prelude Endpoints.
From Stdlib Require Import ZArith Lia String Ascii.
From stdpp Require Import base tactics strings gmap list.

(** ** The enumeration *)

Definition segmentsOf (path : string) : list string :=
  if (path =? "/")%string then [] else Js.split "/" (Js.drop 1 path).

Definition isLiteralSegment (segment : string) : bool := negb (segment =? "*")%string && negb (Js.startsWith segment ":").

(** Whether the last segment of a pattern is its wildcard. *)
Definition open_ended (segments : list string) : bool := bool_decide (last segments = Some "*").

Definition mayMatch (segments : list string) (index : nat) (value : string) : bool :=
  match segments !! index with
  | None => open_ended segments && (length segments <=? index)%nat
  | Some segment => if (segment =? "*")%string then true
                    else if Js.startsWith segment ":" then negb (value =? "")%string else (segment =? value)%string
  end.

(** [[...new Set(l)]]: first occurrences. *)
Definition uniq {A} `{EqDecision A} (l : list A) : list A := reverse (remove_dups (reverse l)).

Definition longest (l : list string) : nat := foldr (fun s n => Nat.max (String.length s) n) 0 l.

(** The loop that appends [x] until no literal is the value; a value longer than every literal is none of them. *)
Fixpoint fresh_from (fuel : nat) (literals : list string) (fresh : string) : string :=
  match fuel with
  | 0 => fresh
  | S fuel => if Js.elem fresh literals then fresh_from fuel literals (fresh +:+ "x") else fresh
  end.

Definition fresh_value (literals : list string) : string := fresh_from (longest literals) literals "x".

Section Extend.
Variables (own : list string) (fresh : string).

Definition pastWildcard (index : nat) : bool := open_ended own && (length own - 1 <=? index)%nat.

(** The literals that a pattern which may still match has next. *)
Definition next_literals (index : nat) (live : list (list string)) : list string :=
  uniq (flat_map (fun segments => match segments !! index with
                                  | Some segment => if isLiteralSegment segment && (negb (segment =? "")%string || pastWildcard index) then [segment] else []
                                  | None => []
                                  end) live).

Definition probe_values (index : nat) (live : list (list string)) : list string :=
  let mine := own !! index in
  if from_option isLiteralSegment false mine then option_list mine
  else next_literals index live ++ [fresh] ++ (if pastWildcard index && (0 <? index)%nat then [""] else []).

(** [extend]: the segments of each path, in order. *)
Fixpoint extend (fuel : nat) (prefix : list string) (live : list (list string)) : list (list string) :=
  let index := length prefix in
  prefix ::
  (if bool_decide (last prefix = Some "") || (bool_decide (own !! index = None) && negb (pastWildcard index)) then []
   else if forallb (fun segments => open_ended segments && (length segments <=? index)%nat) live then []
   else match fuel with
        | 0 => []
        | S fuel => flat_map (fun value => extend fuel (prefix ++ [value]) (List.filter (fun segments => mayMatch segments index value) live))
                      (uniq (probe_values index live))
        end).

End Extend.

Definition longest_pattern (all : list (list string)) : nat := foldr (fun s n => Nat.max (length s) n) 0 all.

(** A path goes one segment past the longest pattern at most. *)
Definition probeSegments (pattern : string) (patterns : list string) : list (list string) :=
  let own := segmentsOf pattern in
  let all := own :: map segmentsOf patterns in
  let literals := List.filter isLiteralSegment (concat all) in
  extend own (fresh_value literals) (S (longest_pattern all)) [] all.

Definition pathOf (segments : list string) : string := "/" +:+ Js.join "/" segments.

Definition probePaths (pattern : string) (patterns : list string) : list string := uniq (map pathOf (probeSegments pattern patterns)).

Example probe_wildcard : probePaths "/files/*" ["/files/:id"; "/files/new"; "/x"] =
  ["/"; "/files"; "/files/new"; "/files/new/xx"; "/files/new/"; "/files/xx"; "/files/xx/xx"; "/files/xx/"; "/files/"].
Proof. vm_compute. reflexivity. Qed.

(** ** What a pattern matches *)

Lemma uniq_elem {A} `{EqDecision A} (x : A) l : x ∈ uniq l <-> x ∈ l.
Proof. unfold uniq. by rewrite elem_of_reverse, elem_of_remove_dups, elem_of_reverse. Qed.

(** Every segment the pattern reads may match. *)
Definition fits (segments path : list string) : Prop := forall j v, path !! j = Some v -> mayMatch segments j v = true.

(** The pattern ends with a path of [n] segments; the root wildcard matches the root. *)
Definition ends (segments : list string) (n : nat) : Prop :=
  if open_ended segments then length segments <= n \/ length segments = 1 /\ n = 0 else length segments = n.

Definition raw_match (segments path : list string) : Prop := fits segments path /\ ends segments (length path).

(** A wildcard is the last segment. *)
Definition wild_last (segments : list string) : Prop := forall i, segments !! i = Some "*" -> length segments = S i.

Lemma longest_in x l : x ∈ l -> String.length x <= longest l.
Proof. intros H. unfold longest. induction l as [|y l IH]; [set_solver|]. apply elem_of_cons in H as [->|H]; cbn; [|specialize (IH H)]; lia. Qed.

Lemma fresh_from_spec fuel literals fresh : longest literals < String.length fresh + fuel ->
  fresh_from fuel literals fresh ∉ literals /\ exists tail, fresh_from fuel literals fresh = fresh +:+ tail /\ Js.forall_units (Ascii.eqb "x") tail = true.
Proof.
  revert fresh. induction fuel as [|fuel IH]; intros fresh Hl; cbn [fresh_from].
  - split; [|exists ""; by rewrite str_app_nil_r]. intros Hin.
    apply longest_in in Hin. lia.
  - destruct (Js.elem fresh literals) eqn:E.
    + destruct (IH (fresh +:+ "x")) as (Hn & tail & Ef & Ht); [rewrite str_length_app; cbn; lia|]. split; [done|].
      exists ("x" +:+ tail). rewrite Ef. split; [by rewrite str_app_assoc|done].
    + split; [|exists ""; by rewrite str_app_nil_r]. intros Hin%elem_spec. congruence.
Qed.

Lemma fresh_value_spec literals : fresh_value literals ∉ literals /\ exists tail, fresh_value literals = String "x" tail /\ Js.forall_units (Ascii.eqb "x") tail = true.
Proof. unfold fresh_value. destruct (fresh_from_spec (longest literals) literals "x") as (Hn & tail & E & Ht); [cbn; lia|]. eauto. Qed.

Lemma longest_pattern_in all r : r ∈ all -> length r <= longest_pattern all.
Proof. intros H. unfold longest_pattern. induction all as [|y l IH]; [set_solver|]. apply elem_of_cons in H as [->|H]; cbn; [|specialize (IH H)]; lia. Qed.

Lemma mayMatch_literal r i s v : r !! i = Some s -> isLiteralSegment s = true -> mayMatch r i v = (s =? v)%string.
Proof. intros Hr. unfold mayMatch, isLiteralSegment. rewrite Hr. destruct (s =? "*")%string, (Js.startsWith s ":"); done. Qed.

Lemma mayMatch_other r i v w : from_option isLiteralSegment false (r !! i) = false -> v <> "" -> w <> "" -> mayMatch r i v = mayMatch r i w.
Proof.
  unfold mayMatch, isLiteralSegment. destruct (r !! i) as [s|]; cbn; [|done]. destruct (s =? "*")%string; [done|].
  destruct (Js.startsWith s ":"); [|done]. intros _ Hv Hw. by destruct (String.eqb_spec v ""), (String.eqb_spec w "").
Qed.

Section Complete.
Variables (own : list string) (fresh : string) (all : list (list string)).
Hypothesis own_in : own ∈ all.
Hypothesis wild_lasts : forall r, r ∈ all -> wild_last r.
Hypothesis fresh_new : forall r i s, r ∈ all -> r !! i = Some s -> isLiteralSegment s = true -> s <> fresh.
Hypothesis fresh_not_empty : fresh <> "".

(** The prefix that stands for another: each segment itself, or the fresh value for a segment that is not empty. *)
Definition stands_for (path q : list string) : Prop := Forall2 (fun v w => w = v \/ w = fresh /\ v <> "") path q.

(** The patterns that may match a path so far are the ones left. *)
Definition live_for (path : list string) (live : list (list string)) : Prop := forall r, r ∈ live <-> r ∈ all /\ fits r path.

Lemma fits_app r path v : fits r (path ++ [v]) <-> fits r path /\ mayMatch r (length path) v = true.
Proof.
  unfold fits. split.
  - intros H. split; [|apply H; by rewrite lookup_app_r, Nat.sub_diag by lia].
    intros j w Hj. apply H. by apply lookup_app_l_Some.
  - intros [H Hv] j w Hj. apply lookup_snoc_Some in Hj as [[_ Hj]|[-> <-]]; auto.
Qed.

Lemma fits_nil r : fits r [].
Proof. by intros j v. Qed.

Lemma next_literals_elem index live s : s ∈ next_literals own index live <->
  exists r, r ∈ live /\ r !! index = Some s /\ isLiteralSegment s = true /\ (s <> "" \/ pastWildcard own index = true).
Proof.
  unfold next_literals. rewrite uniq_elem, list_elem_of_In, in_flat_map. split.
  - intros (r & Hr & Hs). exists r. split; [by apply list_elem_of_In|]. destruct (r !! index) as [x|]; [|done].
    destruct (isLiteralSegment x) eqn:Hx; cbn [andb] in Hs; [|done]. destruct (negb (x =? "")%string || _) eqn:Hc; [|done].
    destruct Hs as [->|[]]. apply orb_true_iff in Hc as [Hc|Hc]; (split; [done|]); (split; [done|]); [left|by right].
    by destruct (String.eqb_spec s "").
  - intros (r & Hr & Hi & Hl & Hc). exists r. split; [by apply list_elem_of_In|]. rewrite Hi, Hl. cbn [andb].
    assert (negb (s =? "")%string || pastWildcard own index = true) as ->; [|by left].
    apply orb_true_iff. destruct Hc as [Hc| ->]; [left|by right]. by destruct (String.eqb_spec s "").
Qed.

(** The value that stands for a segment is tried, and no pattern tells the two apart. *)
Lemma probe_step pre live v : live_for pre live -> own ∈ live -> mayMatch own (length pre) v = true ->
  (own !! length pre = None -> pastWildcard own (length pre) = true) -> (v = "" -> 0 < length pre) ->
  exists w, w ∈ probe_values own fresh (length pre) live /\ (w = v \/ w = fresh /\ v <> "") /\
    forall r, r ∈ live -> mayMatch r (length pre) v = mayMatch r (length pre) w.
Proof.
  intros Hlive Hown Hv Hpast Hempty. set (i := length pre) in *. unfold probe_values.
  destruct (from_option isLiteralSegment false (own !! i)) eqn:Hmine.
  { destruct (own !! i) as [mine|] eqn:Ei; [|done]. cbn in Hmine. rewrite (mayMatch_literal own i mine v) in Hv by done.
    apply String.eqb_eq in Hv as ->. exists v. split; [cbn; set_solver|]. auto. }
  set (values := next_literals own i live ++ [fresh] ++ (if pastWildcard own i && (0 <? i)%nat then [""] else [])).
  destruct (decide (v ∈ values)) as [Hin|Hnot]; [exists v; auto|]. exists fresh.
  assert (Hne : v <> "").
  { intros ->. apply Hnot. unfold values. assert (Hp : pastWildcard own i = true).
    { destruct (own !! i) as [mine|] eqn:Ei; [|by apply Hpast]. unfold mayMatch in Hv. rewrite Ei in Hv. unfold isLiteralSegment in Hmine. cbn in Hmine.
      destruct (String.eqb_spec mine "*") as [Em|_]; [subst mine|by destruct (Js.startsWith mine ":")].
      unfold pastWildcard, open_ended. apply (wild_lasts own own_in) in Ei as El. rewrite El. apply andb_true_iff. split; [|apply Nat.leb_le; lia].
      apply bool_decide_eq_true. rewrite last_lookup, El. exact Ei. }
    rewrite Hp. specialize (Hempty eq_refl). destruct (Nat.ltb_spec 0 i); [|lia]. set_solver. }
  split; [unfold values; set_solver|]. split; [by right|]. intros r Hr.
  destruct (from_option isLiteralSegment false (r !! i)) eqn:Hl; [|by apply mayMatch_other].
  destruct (r !! i) as [s|] eqn:Es; [|done]. cbn in Hl. rewrite !(mayMatch_literal r i s) by done.
  assert (s <> fresh) by (apply (fresh_new r i s); [by apply Hlive|done..]).
  assert (s <> v).
  { intros ->. apply Hnot. unfold values. apply elem_of_app. left. apply next_literals_elem. exists r. auto. }
  by destruct (String.eqb_spec s v), (String.eqb_spec s fresh).
Qed.

(** Only the last segment may be empty, and not the only one. *)
Definition proper (path : list string) : Prop := forall i, path !! i = Some "" -> S i = length path /\ 0 < i.

(** What a probe says of the path it stands for. *)
Record represents (path q : list string) : Prop := {
  represents_match : forall r, r ∈ all -> (raw_match r path <-> raw_match r q);
  represents_prefix : exists pre, pre `prefix_of` path /\ stands_for pre q;
  represents_length : length q = length path \/ forall r, r ∈ all -> raw_match r path -> length r <= length q;
}.

Definition passed (r : list string) (i : nat) : bool := open_ended r && (length r <=? i)%nat.

(** Past its wildcard a pattern matches whatever follows. *)
Lemma passed_fits r pre rest : passed r (length pre) = true -> fits r pre -> fits r (pre ++ rest).
Proof.
  intros [Ho Hl%Nat.leb_le]%andb_true_iff Hf j v Hj. destruct (decide (j < length pre)) as [Hlt|Hge].
  - apply Hf. by rewrite lookup_app_l in Hj.
  - unfold mayMatch. rewrite (lookup_ge_None_2 r j) by lia. rewrite Ho. apply Nat.leb_le. lia.
Qed.

Lemma passed_match r pre rest : passed r (length pre) = true -> fits r pre -> raw_match r (pre ++ rest).
Proof.
  intros Hp Hf. split; [by apply passed_fits|]. apply andb_true_iff in Hp as [Ho Hl%Nat.leb_le]. unfold ends. rewrite Ho.
  left. rewrite length_app. lia.
Qed.

Lemma represents_end path q live : stands_for path q -> live_for path live -> live_for q live -> represents path q.
Proof.
  intros Hs Hp Hq. apply Forall2_length in Hs as Hlen. split; [|exists path; by split|by left].
  intros r Hr. unfold raw_match. rewrite Hlen. specialize (Hp r). specialize (Hq r). naive_solver.
Qed.

Lemma represents_passed pre rest q live : stands_for pre q -> live_for pre live -> live_for q live ->
  (forall r, r ∈ live -> passed r (length pre) = true) -> represents (pre ++ rest) q.
Proof.
  intros Hs Hp Hq Hall. apply Forall2_length in Hs as Hlen.
  assert (Hfit : forall r, r ∈ all -> raw_match r (pre ++ rest) -> r ∈ live).
  { intros r Hr [Hf _]. apply Hp. split; [done|]. intros j v Hj. apply Hf. by apply lookup_app_l_Some. }
  split; [|exists pre; by split; [apply prefix_app_r|]|].
  - intros r Hr. split; intros Hm.
    + apply Hfit in Hm; [|done]. rewrite <-(app_nil_r q). apply passed_match; [rewrite <-Hlen; by apply Hall|by apply Hq].
    + assert (Hl : r ∈ live) by (apply Hq; by destruct Hm). apply passed_match; [by apply Hall|by apply Hp].
  - right. intros r Hr Hm. apply Hfit in Hm; [|done]. apply Hall, andb_true_iff in Hm as [_ Hm%Nat.leb_le]. lia.
Qed.

Lemma live_step pre live v w : live_for pre live -> (forall r, r ∈ live -> mayMatch r (length pre) v = mayMatch r (length pre) w) ->
  live_for (pre ++ [v]) (List.filter (fun r => mayMatch r (length pre) w) live).
Proof.
  intros Hl He r. rewrite fits_app, list_elem_of_In, filter_In, <-list_elem_of_In. split.
  - intros [Hr Hm]. rewrite (He r Hr). apply Hl in Hr as [? ?]. auto.
  - intros (Hr & Hf & Hm). assert (Hin : r ∈ live) by (apply Hl; auto). rewrite <-(He r Hin). auto.
Qed.

Lemma extend_complete fuel pre q rest live : stands_for pre q -> live_for pre live -> live_for q live ->
  raw_match own (pre ++ rest) -> proper (pre ++ rest) -> longest_pattern all < fuel + length pre ->
  exists out, out ∈ extend own fresh fuel q live /\ represents (pre ++ rest) out.
Proof.
  revert pre q rest live. induction fuel as [|fuel IH]; intros pre q rest live Hs Hp Hq Hm Hproper Hfuel;
    apply Forall2_length in Hs as Hlen.
  - exists q. split; [by left|]. eapply represents_passed; eauto. intros r Hr. apply Hp in Hr as [Hr Hf].
    apply longest_pattern_in in Hr as Hle. destruct pre as [|v pre _] using rev_ind; [cbn in *; lia|].
    apply fits_app in Hf as [_ Hv]. rewrite length_app in *. cbn in *. unfold mayMatch in Hv.
    rewrite lookup_ge_None_2 in Hv by lia. apply andb_true_iff in Hv as [Ho Hl%Nat.leb_le]. apply andb_true_iff. split; [done|apply Nat.leb_le; lia].
  - destruct rest as [|v rest].
    { exists q. rewrite app_nil_r. split; [by left|by eapply represents_end]. }
    assert (Hown : own ∈ live). { apply Hp. split; [done|]. intros j x Hj. apply Hm. by apply lookup_app_l_Some. }
    assert (Hv : (pre ++ v :: rest) !! length pre = Some v) by (rewrite lookup_app_r, Nat.sub_diag by lia; done).
    cbn [extend]. rewrite <-Hlen.
    destruct (forallb (fun r => open_ended r && (length r <=? length pre)%nat) live) eqn:Hall.
    { exists q. split; [by left|]. eapply represents_passed; eauto. rewrite forallb_forall in Hall. intros r Hr. apply Hall. by apply list_elem_of_In. }
    assert (Hpast : own !! length pre = None -> pastWildcard own (length pre) = true).
    { intros Hn. apply lookup_ge_None in Hn. destruct Hm as [_ He]. unfold ends in He. unfold pastWildcard. rewrite length_app in He. cbn in He.
      destruct (open_ended own); [|lia]. apply Nat.leb_le. lia. }
    assert (Hstop : bool_decide (last q = Some "") || (bool_decide (own !! length pre = None) && negb (pastWildcard own (length pre))) = false).
    { apply orb_false_iff. split.
      - apply bool_decide_eq_false. intros Hlast. rewrite last_lookup, <-Hlen in Hlast.
        destruct (Forall2_lookup_r _ _ _ _ _ Hs Hlast) as (x & Hx & [E|[E _]]); [subst x|by destruct fresh_not_empty].
        destruct (Hproper (pred (length pre))) as [E _]; [apply lookup_app_l_Some, Hx|].
        rewrite length_app in E. cbn in E. apply lookup_lt_Some in Hx. lia.
      - destruct (own !! length pre) eqn:Eo; [done|]. by rewrite Hpast. }
    rewrite Hstop.
    destruct (probe_step pre live v Hp Hown) as (w & Hw & Hvw & Heq).
    { by apply Hm. } { done. } { intros ->. by destruct (Hproper _ Hv). }
    destruct (IH (pre ++ [v]) (q ++ [w]) rest (List.filter (fun r => mayMatch r (length pre) w) live)) as (out & Hout & Hrep).
    + apply Forall2_app; [exact Hs|]. by constructor.
    + by apply live_step.
    + rewrite Hlen. apply live_step; [exact Hq|done].
    + by rewrite <-app_assoc.
    + by rewrite <-app_assoc.
    + rewrite length_app. cbn. lia.
    + rewrite <-app_assoc in Hrep. exists out. split; [|exact Hrep]. right. apply list_elem_of_In, in_flat_map. exists w.
      split; [apply list_elem_of_In, uniq_elem, Hw|by apply list_elem_of_In].
Qed.

End Complete.

(** ** The matcher reads patterns the same way *)

Definition segment_text (s : Segment) (text : string) : Prop :=
  match s with
  | SegLiteral value => text = value /\ isLiteralSegment text = true
  | SegParam _ => text <> "*" /\ Js.startsWith text ":" = true
  | SegWildcard => text = "*"
  end.

Lemma parseSegments_text raw names segs : parseSegments raw names = inr segs ->
  Forall2 segment_text segs raw /\ wild_last raw.
Proof.
  revert names segs. induction raw as [|s raw IH]; intros names segs; cbn -[Js.includes Js.startsWith String.eqb parameterName Js.elem].
  { intros [= <-]. split; [constructor|by intros i]. }
  assert (Hcons : forall l, wild_last l -> s <> "*" -> wild_last (s :: l)).
  { intros l Hl Hs [|i] Hi; [by injection Hi|]. cbn. f_equal. by apply Hl. }
  destruct (String.eqb_spec s "*") as [->|Hs].
  { destruct raw; [|done]. intros [= <-]. split; [by repeat constructor|]. intros [|i] Hi; done. }
  destruct (Js.includes s "*"); [done|]. destruct (Js.startsWith s ":") eqn:Hc.
  - destruct (parameterName s) as [name|]; [|done]. destruct (Js.elem name PROTOTYPE_NAMES); [done|].
    destruct (Js.elem name names); [done|]. destruct (parseSegments raw (names ++ [name])) as [|segs'] eqn:E; [done|].
    intros [= <-]. apply IH in E as [Ht Hw]. split; [by constructor|by apply Hcons].
  - destruct (parseSegments raw names) as [|segs'] eqn:E; [done|]. intros [= <-]. apply IH in E as [Ht Hw].
    split; [|by apply Hcons]. constructor; [|done]. split; [done|]. unfold isLiteralSegment. rewrite Hc.
    by destruct (String.eqb_spec s "*").
Qed.

Lemma mayMatch_cons s r j v : s <> "*" -> mayMatch (s :: r) (S j) v = mayMatch r j v.
Proof.
  intros Hs. unfold mayMatch. cbn [lookup list_lookup length]. destruct (r !! j); [done|].
  assert (open_ended (s :: r) = open_ended r) as ->; [|done]. unfold open_ended. destruct r; [|done]. cbn.
  apply bool_decide_ext. naive_solver.
Qed.

Lemma open_cons s r : s <> "*" -> open_ended (s :: r) = open_ended r.
Proof. intros Hs. unfold open_ended. destruct r; [|done]. apply bool_decide_ext. cbn. naive_solver. Qed.

Lemma fits_cons s r v path : s <> "*" -> fits (s :: r) (v :: path) <-> mayMatch (s :: r) 0 v = true /\ fits r path.
Proof.
  intros Hs. unfold fits. split.
  - intros H. split; [by apply H|]. intros j w Hj. rewrite <-(mayMatch_cons s) by done. by apply H.
  - intros [H0 H] [|j] w Hj; [by injection Hj as ->|]. rewrite mayMatch_cons by done. by apply H.
Qed.

(** [ends], from position [i] of a longer pattern and path. *)
Definition ends_from (i : nat) (r : list string) (n : nat) : Prop :=
  if open_ended r then length r <= n \/ i = 0 /\ length r = 1 /\ n = 0 else length r = n.

Lemma ends_cons i s r n : s <> "*" -> ends_from i (s :: r) (S n) <-> ends_from (S i) r n.
Proof. intros Hs. unfold ends_from. rewrite open_cons by done. cbn [length]. destruct (open_ended r); lia. Qed.

Lemma match_text i segs raw path ps : Forall2 segment_text segs raw -> wild_last raw ->
  is_Some (matchSegments_from i segs path ps) <-> fits raw path /\ ends_from i raw (length path).
Proof.
  intros Ht. revert i path ps. induction Ht as [|x s segs raw Hx Ht IH]; intros i path ps Hw.
  { unfold ends_from. destruct path as [|v path]; cbn; split.
    - intros _. split; [|done]. intros j v Hj. done.
    - by eexists.
    - by intros [? ?].
    - intros [_ ?]. done. }
  assert (Hlast : s <> "*" -> wild_last raw).
  { intros _ j Hj. specialize (Hw (S j) Hj). cbn in Hw. congruence. }
  assert (Hstep : s <> "*" -> forall v path' ps', matchSegments_from i (x :: segs) (v :: path') ps
      = (if mayMatch (s :: raw) 0 v then matchSegments_from (S i) segs path' ps' else None) ->
      is_Some (matchSegments_from i (x :: segs) (v :: path') ps) <-> fits (s :: raw) (v :: path') /\ ends_from i (s :: raw) (length (v :: path'))).
  { intros Hs v path' ps' ->. rewrite fits_cons by done. cbn [length]. rewrite ends_cons by done. specialize (IH (S i) path' ps' (Hlast Hs)).
    destruct (mayMatch (s :: raw) 0 v); [rewrite IH; tauto|]. split; [by intros [? ?]|by intros [[? _] _]]. }
  assert (Hempty : s <> "*" -> ~ (fits (s :: raw) [] /\ ends_from i (s :: raw) 0)).
  { intros Hs [_ He]. unfold ends_from in He. rewrite open_cons in He by done. cbn in He. destruct (open_ended raw) eqn:Eo; [|done].
    destruct He as [He|(_ & He & _)]; [lia|]. destruct raw; [done|]. done. }
  destruct x as [value|name|]; cbn [segment_text] in Hx.
  - destruct Hx as [-> Hl]. assert (Hs : value <> "*") by (intros ->; done).
    destruct path as [|v path]; [cbn [matchSegments_from]; split; [intros [? Hd]; discriminate Hd|intros Hd; by destruct (Hempty Hs)]|].
    apply (Hstep Hs v path ps). cbn [matchSegments_from]. by rewrite (mayMatch_literal _ _ value).
  - destruct Hx as [Hs Hc]. destruct path as [|v path]; [cbn [matchSegments_from]; split; [intros [? Hd]; discriminate Hd|intros Hd; by destruct (Hempty Hs)]|].
    apply (Hstep Hs v path (ps ++ [(name, v)])). cbn [matchSegments_from]. unfold mayMatch. cbn [lookup list_lookup].
    rewrite Hc. destruct (String.eqb_spec s "*"); [done|]. by destruct (v =? "")%string.
  - subst s. assert (raw = []) as ->. { specialize (Hw 0 eq_refl). cbn in Hw. by destruct raw. }
    cbn [matchSegments_from]. unfold ends_from. change (open_ended ["*"]) with true. cbn [length]. split.
    + intros Hm. destruct ((i =? 0)%nat || (0 <? length path)%nat) eqn:Eo; [|by destruct Hm as [? Hm]]. apply orb_true_iff in Eo.
      split; [|destruct Eo as [->%Nat.eqb_eq|?%Nat.ltb_lt]; lia]. intros [|j] v Hj; done.
    + intros [_ He]. assert ((i =? 0)%nat || (0 <? length path)%nat = true) as ->; [|by eexists].
      apply orb_true_iff. rewrite Nat.eqb_eq, Nat.ltb_lt. lia.
Qed.

Lemma pattern_text path segs : parsePattern path = inr segs -> Forall2 segment_text segs (segmentsOf path) /\ wild_last (segmentsOf path).
Proof. unfold parsePattern. destruct (negb (isCanonicalPath path)); [done|]. apply parseSegments_text. Qed.

Lemma matchSegments_raw path segs target : parsePattern path = inr segs ->
  is_Some (matchSegments segs target) <-> raw_match (segmentsOf path) target.
Proof.
  intros [Ht Hw]%pattern_text. unfold matchSegments. rewrite (match_text 0 segs _ target [] Ht Hw). unfold raw_match, ends_from, ends.
  destruct (open_ended _); tauto.
Qed.

(** ** Canonical paths, segment by segment *)

Definition no_unit (c : ascii) (s : string) : bool := Js.forall_units (fun d => negb (Ascii.eqb d c)) s.

Lemma prefix_first sep needle s : no_unit sep needle = true ->
  String.prefix needle s = String.prefix needle (hd "" (Js.split sep s)).
Proof.
  revert s. induction needle as [|n needle IH]; intros s Hn; [assert (He : forall t, String.prefix "" t = true) by (by intros []); by rewrite !He|].
  unfold no_unit in Hn. cbn in Hn. apply andb_true_iff in Hn as [Hc Hn]. destruct s as [|c s]; [done|]. cbn [Js.split].
  destruct (Ascii.eqb_spec c sep) as [->|N].
  - cbn [hd]. cbn. destruct (ascii_dec n sep) as [->|_]; [|done]. by rewrite Ascii.eqb_refl in Hc.
  - specialize (IH s Hn). destruct (Js.split sep s) as [|w ws] eqn:E; [by apply split_not_nil in E|]. cbn [hd] in *. cbn.
    by destruct (ascii_dec n c).
Qed.

(** A needle without the separator lies within one piece. *)
Lemma includes_split sep needle s : needle <> "" -> no_unit sep needle = true ->
  Js.includes s needle = existsb (fun w => Js.includes w needle) (Js.split sep s).
Proof.
  intros Hne Hn. induction s as [|c s IH]; [cbn [Js.split existsb]; by rewrite orb_false_r|].
  cbn [Js.includes Js.split]. rewrite IH, (prefix_first sep) by done. cbn [Js.split]. destruct (Ascii.eqb_spec c sep) as [->|N].
  - cbn [hd existsb Js.includes]. by rewrite orb_false_r.
  - destruct (Js.split sep s) as [|w ws] eqn:E; [by apply split_not_nil in E|]. cbn [hd existsb Js.includes]. by rewrite orb_assoc.
Qed.

Lemma lower_slash c : Ascii.eqb (Js.lower_unit c) "/" = Ascii.eqb c "/".
Proof. by destruct c as [[] [] [] [] [] [] [] []]. Qed.

Lemma split_lower s : Js.split "/" (Js.toLowerCase s) = map Js.toLowerCase (Js.split "/" s).
Proof.
  induction s as [|c s IH]; [done|]. cbn [Js.toLowerCase Js.split]. rewrite lower_slash, IH. destruct (Ascii.eqb c "/"); [done|].
  by destruct (Js.split "/" s).
Qed.

Lemma existsb_map {A B} (f : A -> B) p l : existsb p (map f l) = existsb (fun x => p (f x)) l.
Proof. induction l as [|x l IH]; [done|]. cbn. by rewrite IH. Qed.

(** What a canonical path asks of each segment. *)
Definition segment_ok (s : string) : bool :=
  negb (isDotSegment s) && isDecodable s && no_unit "/" s && negb (Js.includes s "\") && negb (hasEncodedSeparator s).

Lemma hasEncodedSeparator_split s : hasEncodedSeparator s = existsb hasEncodedSeparator (Js.split "/" s).
Proof.
  unfold hasEncodedSeparator. rewrite !(includes_split "/" _ (Js.toLowerCase s)), split_lower, !existsb_map by done.
  induction (Js.split "/" s) as [|w l IH]; [done|]. cbn [existsb]. rewrite <-IH.
  destruct (Js.includes (Js.toLowerCase w) "%2f"), (Js.includes (Js.toLowerCase w) "%5c"), (existsb _ l); cbn; rewrite ?orb_true_r; done.
Qed.

Lemma canonicalSegments_spec l : canonicalSegments l = true <->
  (forall i, l !! i = Some "" -> S i = length l) /\ forall s, s ∈ l -> isDotSegment s = false /\ isDecodable s = true.
Proof.
  induction l as [|s l IH]; cbn [canonicalSegments]; [split; [split; [by intros|set_solver]|done]|].
  rewrite !andb_true_iff, IH, orb_true_iff, !negb_true_iff, String.eqb_neq. split.
  - intros [[[He Hd] Hu] [Hi Hs]]. split.
    + intros [|i] Hl; [injection Hl as ->; destruct He as [He|He]; [done|]; by destruct l|]. cbn. f_equal. by apply Hi.
    + intros x [->|Hx]%elem_of_cons; auto.
  - intros [Hi Hs]. destruct (Hs s) as [Hd Hu]; [by left|]. repeat split; auto.
    + destruct (decide (s = "")) as [->|N]; [right|by left]. specialize (Hi 0 eq_refl). cbn in Hi. by destruct l.
    + intros i Hl. specialize (Hi (S i) Hl). cbn in Hi. congruence.
    + apply Hs. by right.
    + apply Hs. by right.
Qed.

Lemma canonical_segments p : isCanonicalPath p = true ->
  p = pathOf (segmentsOf p) /\ proper (segmentsOf p) /\ Forall (fun s => segment_ok s = true) (segmentsOf p).
Proof.
  unfold isCanonicalPath, segmentsOf. destruct (String.eqb_spec p "/") as [->|Hp]; [split; [done|]; split; [by intros|constructor]|].
  destruct (Js.startsWith p "/") eqn:Hs; [|done]. destruct (Js.includes p "\") eqn:Hb; [done|]. destruct (hasEncodedSeparator p) eqn:He; [done|].
  cbn [negb orb]. apply startsWith_spec in Hs as [t ->]. change (Js.drop 1 ("/" +:+ t)) with t. change ("/" +:+ t) with (String "/" t) in *.
  rewrite canonicalSegments_spec. intros [Hlast Hall].
  assert (Ht : t <> "") by (by intros ->). pose proof (split_not_nil "/" t) as Hnil. pose proof (split_no_sep "/" t) as Hsep.
  split; [|split].
  - unfold pathOf. by rewrite join_split.
  - intros i Hi. split; [by apply Hlast|]. destruct i as [|i]; [|lia]. exfalso. pose proof (Hlast 0 Hi) as Hl.
    apply Ht. rewrite <-(join_split "/" t). destruct (Js.split "/" t) as [|w [|w' l]]; [done| |done]. by injection Hi as ->.
  - rewrite hasEncodedSeparator_split in He. rewrite (includes_split "/") in Hb by done. cbn [Js.split Ascii.eqb existsb] in He, Hb.
    change (Js.split "/" (String "/" t)) with ("" :: Js.split "/" t) in He, Hb. cbn [existsb] in He, Hb.
    apply orb_false_iff in He as [_ He], Hb as [_ Hb]. rewrite Forall_forall in Hsep |- *. intros s Hin. destruct (Hall s Hin) as [Hd Hu].
    unfold segment_ok. rewrite Hd, Hu, (Hsep s Hin : no_unit "/" s = true). apply list_elem_of_In in Hin.
    destruct (Js.includes s "\") eqn:Eb; [exfalso|destruct (hasEncodedSeparator s) eqn:Ee; [exfalso|done]].
    + apply not_true_iff_false in Hb. apply Hb. apply existsb_exists. eauto.
    + apply not_true_iff_false in He. apply He. apply existsb_exists. eauto.
Qed.

Lemma segments_canonical q : proper q -> Forall (fun s => segment_ok s = true) q ->
  isCanonicalPath (pathOf q) = true /\ segmentsOf (pathOf q) = q.
Proof.
  intros Hp Hq. destruct q as [|s q]; [done|]. set (l := s :: q) in *.
  assert (Hsplit : Js.split "/" (Js.join "/" l) = l).
  { apply (split_join "/"); [done|]. eapply Forall_impl; [exact Hq|]. unfold segment_ok. intros x. rewrite !andb_true_iff. tauto. }
  assert (Hne : (pathOf l =? "/")%string = false).
  { apply String.eqb_neq. unfold pathOf. intros E. change ("/" +:+ Js.join "/" l) with (String "/" (Js.join "/" l)) in E.
    assert (Hj : Js.join "/" l = "") by congruence. rewrite Hj in Hsplit. unfold l in *. cbn in Hsplit. injection Hsplit as <- <-.
    destruct (Hp 0 eq_refl). lia. }
  unfold isCanonicalPath, segmentsOf. rewrite Hne.
  change (Js.drop 1 (pathOf l)) with (Js.join "/" l). rewrite Hsplit. split; [|done].
  assert (Js.startsWith (pathOf l) "/" = true) as -> by (apply startsWith_spec; by exists (Js.join "/" l)). cbn [negb orb].
  assert (Hfull : Js.split "/" (pathOf l) = "" :: l).
  { unfold pathOf. change ("/" +:+ Js.join "/" l) with (String "/" (Js.join "/" l)). cbn [Js.split]. by rewrite Hsplit. }
  assert (Hin : forall p, p "" = false -> (forall x, segment_ok x = true -> p x = false) -> existsb p ("" :: l) = false).
  { intros p He Hx. cbn [existsb]. rewrite He. cbn [orb]. rewrite Forall_forall in Hq. apply not_true_iff_false. intros (x & Hxl & Hpx)%existsb_exists.
    apply list_elem_of_In, Hq, Hx in Hxl. congruence. }
  unfold segment_ok in Hin. rewrite (includes_split "/"), hasEncodedSeparator_split, Hfull by done. rewrite !Hin; [|done| |done|].
  - apply canonicalSegments_spec. split; [by apply Hp|]. intros x Hx. rewrite Forall_forall in Hq. apply Hq in Hx.
    unfold segment_ok in Hx. rewrite !andb_true_iff, negb_true_iff in Hx. tauto.
  - intros x. rewrite !andb_true_iff, !negb_true_iff. tauto.
  - intros x. rewrite !andb_true_iff, !negb_true_iff. tauto.
Qed.

Lemma x_segment_ok tail : Js.forall_units (Ascii.eqb "x") tail = true -> segment_ok (String "x" tail) = true.
Proof.
  intros Ht. assert (Hall : forall c, c <> "x"%char -> Js.includes (String "x" tail) (String c "") = false).
  { intros c Hc. apply not_true_iff_false. rewrite includes_spec. intros (a & b & E). assert (Hu : Js.forall_units (Ascii.eqb "x") (String "x" tail) = true) by done.
    rewrite E, !forall_units_app in Hu. cbn [Js.forall_units] in Hu. rewrite !andb_true_iff, Ascii.eqb_eq in Hu.
    destruct Hu as (_ & [Hu _] & _). congruence. }
  unfold segment_ok. rewrite !andb_true_iff, !negb_true_iff. repeat split.
  - unfold isDotSegment. cbn -[String.eqb]. by destruct tail as [|d [|e t]].
  - clear Hall. change (decodable [] tail = true). induction tail as [|c t IH]; [done|]. cbn [Js.forall_units] in Ht.
    apply andb_true_iff in Ht as [Hc%Ascii.eqb_eq Ht]. subst c. by apply IH.
  - clear Hall. change (no_unit "/" tail = true). eapply forall_units_impl; [|exact Ht]. by intros c <-%Ascii.eqb_eq.
  - by apply Hall.
  - assert (Hl : Js.toLowerCase (String "x" tail) = String "x" tail).
    { clear Hall. change (String "x" (Js.toLowerCase tail) = String "x" tail). f_equal. induction tail as [|c t IH]; [done|]. cbn [Js.forall_units] in Ht.
      apply andb_true_iff in Ht as [Hc%Ascii.eqb_eq Ht]. subst c. cbn [Js.toLowerCase]. by rewrite IH. }
    assert (Hp : forall n, Js.includes (String "x" tail) (String "%" n) = false).
    { intros n. apply not_true_iff_false. rewrite includes_spec. intros (a & b & E). pose proof (Hall "%"%char) as Hc. rewrite <-not_true_iff_false in Hc.
      apply Hc; [done|]. apply includes_spec. exists a, (n +:+ b). by rewrite E. }
    unfold hasEncodedSeparator. by rewrite Hl, !Hp.
Qed.

Lemma stands_for_ok fresh pre q path : (exists tail, fresh = String "x" tail /\ Js.forall_units (Ascii.eqb "x") tail = true) ->
  pre `prefix_of` path -> stands_for fresh pre q -> proper path -> Forall (fun s => segment_ok s = true) path ->
  proper q /\ Forall (fun s => segment_ok s = true) q.
Proof.
  intros (tail & -> & Ht) [rest ->] Hs Hp Hok. apply Forall2_length in Hs as Hlen. split.
  - intros i Hi. destruct (Forall2_lookup_r _ _ _ _ _ Hs Hi) as (v & Hv & [E|[E _]]); [subst v|done].
    destruct (Hp i) as [E H0]; [by apply lookup_app_l_Some|]. rewrite length_app in E. apply lookup_lt_Some in Hv. lia.
  - apply Forall_app in Hok as [Hok _]. apply Forall_lookup. intros i w Hw.
    destruct (Forall2_lookup_r _ _ _ _ _ Hs Hw) as (v & Hv & [->|[-> _]]); [|by apply x_segment_ok].
    rewrite Forall_lookup in Hok. by eapply Hok.
Qed.

(** ** Reserved prefixes, segment by segment *)

Lemma split_app_sep sep a b : Js.split sep (a +:+ String sep b) = Js.split sep a ++ Js.split sep b.
Proof.
  induction a as [|c a IH]; cbn [String.append Js.split]; [by rewrite Ascii.eqb_refl|]. rewrite IH.
  destruct (Ascii.eqb c sep); [done|]. destruct (Js.split sep a) as [|w ws] eqn:E; [by apply split_not_nil in E|done].
Qed.

Lemma join_app_sep sep (l r : list string) : l <> [] -> r <> [] ->
  Js.join (String sep "") (l ++ r) = Js.join (String sep "") l +:+ String sep (Js.join (String sep "") r).
Proof.
  intros Hl Hr. induction l as [|w l IH]; [done|]. destruct l as [|w' l].
  - destruct r as [|x r]; [done|]. reflexivity.
  - change (Js.join (String sep "") ((w :: w' :: l) ++ r)) with (w +:+ String sep (Js.join (String sep "") ((w' :: l) ++ r))).
    rewrite IH by done. change (Js.join (String sep "") (w :: w' :: l)) with (w +:+ String sep (Js.join (String sep "") (w' :: l))).
    by rewrite <-str_app_assoc.
Qed.

(** A path is under a prefix when its segments start with the prefix's and go on. *)
Lemma isUnder_segments (ps xs : list string) : xs <> [] -> Js.split "/" (Js.join "/" xs) = xs -> (ps <> [] -> Js.split "/" (Js.join "/" ps) = ps) ->
  isUnder (pathOf ps) (pathOf xs) = true <-> exists rest, rest <> [] /\ ps = xs ++ rest.
Proof.
  intros Hx Hsx Hsp. unfold isUnder, pathOf. rewrite startsWith_spec. split.
  - intros [t E]. rewrite <-!str_app_assoc in E. change ("/" +:+ ?s) with (String "/" s) in E. injection E as E. cbn [String.append] in E.
    exists (Js.split "/" t). split; [apply split_not_nil|]. assert (Hp : ps <> []).
    { intros ->. apply (f_equal String.length) in E. rewrite str_length_app in E. cbn in E. lia. }
    rewrite <-(Hsp Hp), E, split_app_sep, Hsx. done.
  - intros (rest & Hr & ->). exists (Js.join "/" rest). rewrite (join_app_sep "/") by done. by rewrite <-!str_app_assoc.
Qed.

Lemma under_loop p q prefixes l : (forall x, x ∈ prefixes -> isUnder p x = isUnder q x) ->
  longestPrefix_loop p prefixes l = longestPrefix_loop q prefixes l.
Proof.
  revert l. induction prefixes as [|x prefixes IH]; intros l H; [done|]. cbn [longestPrefix_loop]. rewrite (H x) by by left.
  apply IH. intros y Hy. apply H. by right.
Qed.

Lemma longest_loop_spec p prefixes l :
  match longestPrefix_loop p prefixes l with
  | Some best => (l = Some best \/ best ∈ prefixes /\ isUnder p best = true)
      /\ (forall x, x ∈ prefixes -> isUnder p x = true -> String.length x <= String.length best)
      /\ (forall x, l = Some x -> String.length x <= String.length best)
  | None => l = None /\ forall x, x ∈ prefixes -> isUnder p x = false
  end.
Proof.
  revert l. induction prefixes as [|x prefixes IH]; intros l; cbn [longestPrefix_loop].
  { destruct l as [b|]; [|split; [done|set_solver]]. split; [by left|]. split; [set_solver|]. by intros ? [= <-]. }
  set (l' := if isUnder p x && _ then Some x else l). specialize (IH l'). destruct (longestPrefix_loop p prefixes l') as [best|].
  - destruct IH as (Hb & Hx & Hl). subst l'. destruct (isUnder p x) eqn:Hu; cbn [andb] in *.
    + destruct l as [b|].
      * destruct (Nat.ltb_spec (String.length b) (String.length x)).
        -- specialize (Hl x eq_refl). split; [|split].
           ++ destruct Hb as [[= ->]|[? ?]]; right; (split; [|done]); [by left|by right].
           ++ intros y [->|Hy]%elem_of_cons; auto.
           ++ intros y [= <-]. lia.
        -- specialize (Hl b eq_refl) as Hlb. split; [|split].
           ++ destruct Hb as [?|[? ?]]; [by left|right; split; [by right|done]].
           ++ intros y [->|Hy]%elem_of_cons Hyu; [lia|auto].
           ++ done.
      * specialize (Hl x eq_refl). split; [|split].
        -- destruct Hb as [[= ->]|[? ?]]; right; (split; [|done]); [by left|by right].
        -- intros y [->|Hy]%elem_of_cons; auto.
        -- done.
    + split; [|split; [|done]].
      * destruct Hb as [?|[? ?]]; [by left|right; split; [by right|done]].
      * intros y [->|Hy]%elem_of_cons Hyu; [congruence|auto].
  - destruct IH as [Hl Hx]. subst l'. destruct (isUnder p x) eqn:Hu; cbn [andb] in Hl.
    + destruct l as [b|]; [|done]. by destruct (String.length b <? String.length x)%nat.
    + split; [done|]. intros y [->|Hy]%elem_of_cons; auto.
Qed.

Lemma longestPrefixOf_spec p prefixes :
  match longestPrefixOf p prefixes with
  | Some best => best ∈ prefixes /\ isUnder p best = true /\ forall x, x ∈ prefixes -> isUnder p x = true -> String.length x <= String.length best
  | None => forall x, x ∈ prefixes -> isUnder p x = false
  end.
Proof.
  pose proof (longest_loop_spec p prefixes None) as H. unfold longestPrefixOf. destruct (longestPrefix_loop p prefixes None).
  - destruct H as ([?|[? ?]] & ? & _); [done|]. auto.
  - by destruct H.
Qed.

Lemma ok_split l : l <> [] -> Forall (fun s => segment_ok s = true) l -> Js.split "/" (Js.join "/" l) = l.
Proof.
  intros Hl Hok. apply (split_join "/"); [done|]. eapply Forall_impl; [exact Hok|]. unfold segment_ok. intros x. rewrite !andb_true_iff. tauto.
Qed.

Lemma pattern_canonical path segs : parsePattern path = inr segs -> isCanonicalPath path = true.
Proof. unfold parsePattern. by destruct (isCanonicalPath path). Qed.

Lemma reserved_prefix_segments x : isReservedPrefix x = true ->
  x = pathOf (segmentsOf x) /\ segmentsOf x <> [] /\ Forall (fun s => segment_ok s = true) (segmentsOf x)
  /\ Forall (fun s => isLiteralSegment s = true) (segmentsOf x).
Proof.
  unfold isReservedPrefix. destruct (parsePattern x) as [|segs] eqn:E; [done|]. rewrite !andb_true_iff. intros [[Hl _] Hlit].
  pose proof (pattern_canonical _ _ E) as Hc. apply canonical_segments in Hc as (Hx & _ & Hok). apply pattern_text in E as [Ht _].
  split; [done|]. split; [|split; [done|]].
  - intros Hn. rewrite Hn in Ht. apply Forall2_nil_inv_r in Ht as ->. done.
  - rewrite forallb_forall in Hlit. clear -Ht Hlit. induction Ht as [|s t segs l Hs Ht IH]; [constructor|]. constructor.
    + specialize (Hlit s ltac:(by left)). destruct s; try done. by destruct Hs.
    + apply IH. intros y Hy. apply Hlit. by right.
Qed.

Lemma app_prefix_of (a b r s : list string) : a ++ r = b ++ s -> length a <= length b -> exists t, b = a ++ t.
Proof. intros E Hl. destruct (app_eq_inv _ _ _ _ E) as [(k & -> & ->)|(k & -> & ->)]; [|by exists k]. rewrite length_app in Hl. exists []. destruct k; [by rewrite !app_nil_r|]. cbn in Hl. lia. Qed.

Lemma join_longer (l t : list string) : l <> [] -> t <> [] -> String.length (pathOf l) < String.length (pathOf (l ++ t)).
Proof. intros Hl Ht. unfold pathOf. rewrite (join_app_sep "/") by done. rewrite !str_length_app. cbn. lia. Qed.

Lemma fits_literals r path l : Forall (fun s => isLiteralSegment s = true) l -> l `prefix_of` r -> fits r path -> length l <= length path -> l `prefix_of` path.
Proof.
  intros Hl [k ->] Hf Hlen. exists (drop (length l) path). rewrite <-(take_drop (length l) path) at 1. f_equal. apply list_eq. intros i.
  destruct (decide (i < length l)) as [Hi|Hi]; [|rewrite !lookup_ge_None_2; [done|lia|rewrite length_take; lia]].
  rewrite lookup_take. destruct (lookup_lt_is_Some_2 l i Hi) as [s Hs], (lookup_lt_is_Some_2 path i) as [v Hv]; [lia|].
  specialize (Hf i v Hv). rewrite (mayMatch_literal _ _ s) in Hf.
  - apply String.eqb_eq in Hf as ->. rewrite decide_True by done. by rewrite Hs, Hv.
  - by apply lookup_app_l_Some.
  - rewrite Forall_lookup in Hl. by eapply Hl.
Qed.

Lemma reserved_same all fresh rs ps q prefixes :
  rs ∈ all -> raw_match rs ps -> represents fresh all ps q ->
  Forall (fun s => segment_ok s = true) ps -> Forall (fun s => segment_ok s = true) q -> Forall (fun s => segment_ok s = true) rs ->
  Forall (fun x => isReservedPrefix x = true) prefixes -> (forall x, x ∈ prefixes -> fresh ∉ segmentsOf x) ->
  (forall l, longestPrefixOf (pathOf ps) prefixes = Some l -> isUnder (pathOf rs) l = true) ->
  longestPrefixOf (pathOf ps) prefixes = longestPrefixOf (pathOf q) prefixes.
Proof.
  intros Hin Hm [Hrm (pre & [more ->] & Hs) Hlen] Hok Hokq Hokr Hpre Hfresh Hres. apply under_loop. intros x Hx.
  rewrite Forall_forall in Hpre. pose proof (Hpre x Hx) as Hrx. apply reserved_prefix_segments in Hrx as (Ex & Hx0 & Hxok & Hxlit).
  set (xs := segmentsOf x) in *. rewrite Ex.
  assert (U : forall l, Forall (fun s => segment_ok s = true) l -> isUnder (pathOf l) (pathOf xs) = true <-> exists rest, rest <> [] /\ l = xs ++ rest).
  { intros l Hl. apply isUnder_segments; [done|by apply ok_split|intros; by apply ok_split]. }
  apply Bool.eq_true_iff_eq. rewrite (U _ Hok), (U _ Hokq). split.
  - intros (rest & Hr & E). pose proof (longestPrefixOf_spec (pathOf (pre ++ more)) prefixes) as Hlong.
    destruct (longestPrefixOf (pathOf (pre ++ more)) prefixes) as [l|]; [|exfalso].
    2: { specialize (Hlong x Hx). rewrite Ex in Hlong. rewrite (proj2 (U _ Hok)) in Hlong; [done|]. by exists rest. }
    destruct Hlong as (Hl & Hul & Hmax). specialize (Hres l eq_refl). pose proof (Hpre l Hl) as Hrl.
    apply reserved_prefix_segments in Hrl as (El & Hl0 & Hlok & Hllit). set (ls := segmentsOf l) in *. rewrite El in Hul, Hres.
    apply isUnder_segments in Hul as (rest' & Hr' & E'); [|done|by apply ok_split|intros; by apply ok_split].
    apply isUnder_segments in Hres as (tail & Ht & Ers); [|done|by apply ok_split|intros; by apply ok_split].
    assert (Hxl : length xs <= length ls).
    { destruct (decide (length xs <= length ls)) as [?|Hgt]; [done|exfalso]. destruct (app_prefix_of ls xs rest' rest) as [t Et]; [congruence|lia|].
      assert (String.length x <= String.length l) by (apply Hmax; [done|]; rewrite Ex; apply U; [done|by exists rest]).
      assert (t <> []) by (intros ->; rewrite Et, app_nil_r in Hgt; lia). pose proof (join_longer ls t Hl0 ltac:(done)). rewrite <-Et, <-Ex, <-El in *. lia. }
    destruct (app_prefix_of xs ls rest rest') as [t Et]; [congruence|done|].
    assert (Hql : length ls < length q).
    { destruct Hlen as [->|Hlen]; [rewrite E', length_app; destruct rest'; [done|cbn; lia]|].
      specialize (Hlen rs Hin Hm). rewrite Ers, length_app in Hlen. destruct tail; [done|cbn in *; lia]. }
    apply (Hrm rs Hin) in Hm as [Hf _]. destruct (fits_literals rs q ls) as [rest2 Eq]; [done|by exists tail|done|lia|].
    exists (t ++ rest2). rewrite Eq, Et, <-app_assoc. split; [|done]. intros Hn. apply app_eq_nil in Hn as [-> ->].
    rewrite Eq, app_nil_r in Hql. lia.
  - intros (rest & Hr & ->). assert (Hpre2 : xs `prefix_of` pre).
    { exists (drop (length xs) pre). rewrite <-(take_drop (length xs) pre) at 1. f_equal.
      apply (Forall2_app_inv_r _ _ _ _) in Hs as (l1 & l2 & H1 & H2 & ->). apply Forall2_length in H1 as Hl1. rewrite take_app_length' by done.
      clear -H1 Hfresh Hx. specialize (Hfresh x Hx). fold xs in Hfresh. revert H1 Hfresh. clear Hx. generalize xs. intros ys H1.
      induction H1 as [|a b l1 ys Hab H1 IH]; intros Hf; [done|]. apply not_elem_of_cons in Hf as [Hb Hf].
      destruct Hab as [->|[E _]]; [by rewrite IH|]. congruence. }
    destruct Hpre2 as [k ->]. exists (k ++ more). rewrite <-app_assoc. split; [|done]. intros Hn. apply app_eq_nil in Hn as [-> ->].
    apply Forall2_length in Hs. rewrite !length_app in Hs. destruct rest; [done|]. cbn in Hs. lia.
Qed.

(** ** A probe is planned like the paths it stands for *)

Section Plan.
Context {Row : Type} `{EndpointPattern Row}.
Variables (rows : list Row) (prefixes : list string) (table : CompiledEndpointTable Row).
Hypothesis compiled : compileEndpointTable rows prefixes = inr table.

Lemma analyse_prefixes_ok l seen : analyse_prefixes l seen = [] -> Forall (fun x => isReservedPrefix x = true) l.
Proof.
  revert seen. induction l as [|x l IH]; intros seen; [constructor|]. cbn -[isReservedPrefix Js.elem]. intros [Hx Hl]%app_eq_nil.
  constructor; [|by eapply IH]. by destruct (isReservedPrefix x).
Qed.

Lemma compiled_prefixes : Forall (fun x => isReservedPrefix x = true) prefixes.
Proof.
  pose proof compiled as Hc. unfold compileEndpointTable, analyse in Hc. destruct (analyse_rows rows [] ∅) as [problems cs].
  destruct (problems ++ analyse_prefixes prefixes []) eqn:E; [|done]. apply app_eq_nil in E as [_ E]. by eapply analyse_prefixes_ok.
Qed.

Lemma compiled_rows e : e ∈ table_endpoints table -> row e ∈ rows /\ parsePattern (ep_path (row e)) = inr (segments e).
Proof.
  pose proof compiled as Hc. unfold compileEndpointTable in Hc. destruct (analyse rows prefixes) as [|cs] eqn:E; [done|]. injection Hc as <-.
  apply analyse_ok in E as (Hr & Hp & _). intros He. cbn in He. rewrite <-Hr. split; [by apply list_elem_of_fmap_2|].
  rewrite Forall_forall in Hp. by apply (Hp e).
Qed.

Lemma candidate_some reserved method path (e : CompiledEndpoint Row) : is_Some (candidate reserved method path e) <->
  servesMethod (ep_method (row e)) method = true /\ (forall x, reserved = Some x -> isUnder (ep_path (row e)) x = true)
  /\ is_Some (matchSegments (segments e) path).
Proof.
  unfold candidate. destruct (servesMethod (ep_method (row e)) method); cbn [negb orb].
  - destruct reserved as [x|].
    + destruct (isUnder (ep_path (row e)) x) eqn:E; cbn [negb].
      * split; [|tauto]. intros Hm. split; [done|]. split; [|done]. by intros ? [= <-].
      * split; [by intros [? ?]|]. intros (_ & Hx & _). specialize (Hx x eq_refl). congruence.
    + split; [|tauto]. intros Hm. by split.
  - split; [by intros [? ?]|]. by intros [? _].
Qed.

Variables (all : list (list string)) (fresh : string).
Hypothesis rows_in : forall r, r ∈ rows -> segmentsOf (ep_path r) ∈ all.
Hypothesis fresh_prefixes : forall x, x ∈ prefixes -> fresh ∉ segmentsOf x.

Lemma plan_same method p q found params : isCanonicalPath p = true -> represents fresh all (segmentsOf p) q ->
  proper q -> Forall (fun s => segment_ok s = true) q -> planEndpoint table method p = Endpoint found params ->
  exists params', planEndpoint table method (pathOf q) = Endpoint found params'.
Proof.
  intros Hp Hrep Hq Hqok Hplan. destruct (segments_canonical q Hq Hqok) as [Hqc Hqs].
  destruct (canonical_segments p Hp) as (Ep & Hpp & Hpok).
  destruct (planEndpoint_cases rows prefixes table method p compiled) as [[? _]|[(_ & Hn & _)|(_ & e & ps & Hpl & He & Hb)]]; [congruence|congruence|].
  rewrite Hplan in Hpl. injection Hpl as -> ->.
  assert (Match : forall e', e' ∈ table_endpoints table -> is_Some (matchSegments (segments e') (segmentsOf p)) <-> is_Some (matchSegments (segments e') q)).
  { intros e' He'. apply compiled_rows in He' as [Hin Hpat]. rewrite !(matchSegments_raw _ _ _ Hpat).
    destruct Hrep as [Hm _ _]. apply Hm. by apply rows_in. }
  assert (Hres : longestPrefixOf p prefixes = longestPrefixOf (pathOf q) prefixes).
  { destruct Hb as (Hin & Hc & _). apply candidate_some in Hc as (_ & Hu & Hm). apply compiled_rows in Hin as [Hin Hpat].
    apply (matchSegments_raw _ _ _ Hpat) in Hm. apply pattern_canonical, canonical_segments in Hpat as (Er & _ & Hrok).
    rewrite Ep. eapply reserved_same; [by apply rows_in|exact Hm|exact Hrep|exact Hpok|exact Hqok|exact Hrok|apply compiled_prefixes|exact fresh_prefixes|].
    intros l Hl. rewrite <-Er. apply Hu. by rewrite Ep. }
  assert (Same : forall e', e' ∈ table_endpoints table -> competes (longestPrefixOf p prefixes) method (splitPath p) e'
      <-> competes (longestPrefixOf (pathOf q) prefixes) method (splitPath (pathOf q)) e').
  { intros e' He'. unfold competes. rewrite !candidate_some, Hres. change (splitPath (pathOf q)) with (segmentsOf (pathOf q)). rewrite Hqs.
    by rewrite (Match e' He'). }
  destruct (planEndpoint_best rows prefixes table method (pathOf q) e compiled) as (ps' & Hpl' & _); [|exact Hqc|by exists ps'].
  destruct Hb as (Hin & Hc & Hbest). split; [done|]. split; [by apply Same|]. intros e' He' Hc'. apply Hbest; [done|by apply Same].
Qed.

End Plan.

(** Every path [pattern] matches is represented by a probe, whatever the patterns beside it. *)
Lemma probe_exists pattern patterns p : is_Some (match parsePattern pattern with inr s => Some s | inl _ => None end) ->
  (forall x, x ∈ patterns -> wild_last (segmentsOf x)) -> isCanonicalPath p = true -> raw_match (segmentsOf pattern) (segmentsOf p) ->
  exists q, pathOf q ∈ probePaths pattern patterns /\ proper q /\ Forall (fun s => segment_ok s = true) q
    /\ represents (fresh_value (List.filter isLiteralSegment (concat (segmentsOf pattern :: map segmentsOf patterns))))
         (segmentsOf pattern :: map segmentsOf patterns) (segmentsOf p) q.
Proof.
  intros Hpat Hwild Hp Hm. set (all := segmentsOf pattern :: map segmentsOf patterns).
  set (fresh := fresh_value (List.filter isLiteralSegment (concat all))).
  destruct (canonical_segments p Hp) as (_ & Hpp & Hpok). destruct (fresh_value_spec (List.filter isLiteralSegment (concat all))) as [Hnew Hx].
  destruct (extend_complete (segmentsOf pattern) fresh all) with (fuel := S (longest_pattern all)) (pre := @nil string) (q := @nil string)
    (rest := segmentsOf p) (live := all) as (q & Hq & Hrep).
  - by left.
  - intros r [->|Hr]%elem_of_cons.
    + destruct (parsePattern pattern) as [|segs] eqn:E; [by destruct Hpat|]. by apply pattern_text in E as [_ ?].
    + apply list_elem_of_fmap in Hr as (x & -> & Hr). by apply Hwild.
  - intros r i s Hr Hi Hs ->. apply Hnew, list_elem_of_In, filter_In. split; [|done]. apply in_concat.
    exists r. split; [by apply list_elem_of_In|]. by apply list_elem_of_In, list_elem_of_lookup_2 with i.
  - fold fresh in Hx. destruct Hx as (tail & -> & _). done.
  - constructor.
  - intros r. split; [|tauto]. intros Hr. split; [done|apply fits_nil].
  - intros r. split; [|tauto]. intros Hr. split; [done|apply fits_nil].
  - done.
  - done.
  - cbn. lia.
  - exists q. split; [|].
    + unfold probePaths, probeSegments. fold all. fold fresh. apply uniq_elem, list_elem_of_fmap. by exists q.
    + destruct Hrep as [Hr1 (pre & Hpre & Hs) Hr3] eqn:?. destruct (stands_for_ok fresh pre q (segmentsOf p)) as [? ?]; [exact Hx|exact Hpre|exact Hs|done|done|].
      split; [done|]. by split.
Qed.
