(* ===== verification/Approval.v ===== *)
(** The approval of a changed endpoint table: the endpoints of [control/src/approval/diff.ts].

    A deploy whose change widens no access is published without a human; this file compares two tables as the code does
    and shows that a change without a line that widens lets no request in that was refused before. *)

From S2P Require Import Prelude Json Shapes SchemaDiff Permissions Endpoints Token Headers Authorize Rules Probe.
From Stdlib Require Import ZArith Lia String Ascii.
From stdpp Require Import base tactics strings gmap list.

(** ** Rows as JSON *)

Definition column_json (column : string * SchemaShape) : json := JObj [("name", JStr column.1); ("shape", shape_json column.2)].

Definition output_json (o : OutputShape) : json :=
  match o with
  | OutSchema s => shape_json s
  | OutAttachment a => typed "attachment"
      [ ("format", JStr (a_format a)); ("filename", JStr (a_filename a)); ("maxBytes", int_json (a_maxBytes a));
        ("maxRows", int_json (a_maxRows a)); ("columns", JArr (map column_json (a_columns a))) ]
  | OutRedirect origins => typed "redirect" [("origins", JArr (map JStr origins))]
  end.

Definition row_json (r : EndpointRow) : json :=
  JObj (present
    [ ("id", Some (JStr (e_id r)));
      ("source", Some (JObj [("kind", JStr (source_kind (e_source r))); ("name", JStr (source_name (e_source r)))]));
      ("method", Some (JStr (e_method r))); ("path", Some (JStr (e_path r)));
      ("admission", Some (opt_json admission_json (e_admission r))); ("input", Some (opt_json shape_json (e_input r)));
      ("output", Some (opt_json output_json (e_output r))); ("crossOrigin", crossOrigin_json <$> e_crossOrigin r);
      ("response", response_json <$> e_response r); ("cache", cache_json <$> e_cache r);
      ("authorization", if e_authorization r then Some (JStr "forward") else None);
      ("kind", Some (JStr (e_kind r))); ("callers", Some (JArr (map JStr (e_callers r))));
      ("requirement", Some (opt_json requirement_json (e_requirement r))) ]).

(** ** Whether one row admits no more than another *)

Definition opensToAnyone (row : EndpointRow) : bool :=
  (e_kind row =? "health")%string || (e_kind row =? "public-spa")%string || (e_kind row =? "public")%string.

Definition readsPathParameter (row : EndpointRow) : bool :=
  match e_requirement row with
  | Some (ReqAction requirement) =>
      match req_access requirement with
      | FormIn _ from | FormOn _ (Some from) => Js.elem (":" +:+ from) (segmentsOf (e_path row))
      | _ => false
      end
  | _ => false
  end.

Definition crossOriginRank (form : option CrossOriginForm) : nat :=
  match form with None => 0 | Some CrossEnvironment => 1 | Some CrossAny => 2 end.

Section Diff.
Context `{NumberText}.

(** The fields of [ADMITS_NO_MORE] that can refuse, in its order. *)
Definition kind_no_more (after before : EndpointRow) : bool :=
  match e_requirement before with
  | None => opensToAnyone before && (is_some (e_requirement after) || opensToAnyone after)
  | Some _ => (e_kind after =? e_kind before)%string
  end.

Definition requirement_no_more (after before : EndpointRow) : bool :=
  match e_requirement before, e_requirement after with
  | None, _ => opensToAnyone before
  | Some _, None => false
  | Some b, Some a => if readsPathParameter after || readsPathParameter before then false else same_text (requirement_json a) (requirement_json b)
  end.

Definition callers_no_more (after before : EndpointRow) : bool :=
  match e_requirement before with
  | None => opensToAnyone before
  | Some _ => forallb (fun caller => (negb (caller =? "link")%string || bool_decide (e_source after = e_source before)) && Js.elem caller (e_callers before))
                (e_callers after)
  end.

Definition admission_no_more (after before : EndpointRow) : bool :=
  negb (is_some (e_admission after)) || same_text (opt_json admission_json (e_admission after)) (opt_json admission_json (e_admission before)).

Definition ADMITS_NO_MORE : list (EndpointRow -> EndpointRow -> bool) :=
  [ kind_no_more; requirement_no_more; callers_no_more; admission_no_more;
    (fun after before => crossOriginRank (e_crossOrigin after) <=? crossOriginRank (e_crossOrigin before))%nat;
    (fun after before => bool_decide (e_response after = e_response before));
    (fun after before => same_text (opt_json cache_json (e_cache after)) (opt_json cache_json (e_cache before)));
    (fun after before => negb (e_authorization after) || Bool.eqb (e_authorization after) (e_authorization before));
    (fun after before => e_method after =? e_method before)%string ].

(** A row and the artifact it is read from. *)
Definition SidedRow : Type := EndpointRow * ContractArtifact.

Definition admitsNoMoreThan (after before : SidedRow) : bool :=
  if negb (forallb (fun admits => admits after.1 before.1) ADMITS_NO_MORE) then false
  else match e_requirement before.1 with
       | None => true
       | Some _ => same_text (opt_json delegation_json (endpointDelegation after.2 after.1)) (opt_json delegation_json (endpointDelegation before.2 before.1))
       end.

(** ** Where the paths of a removed endpoint go *)

Record Fate := mkFate { fate_effect : AccessEffect; answering : list EndpointRow }.

(** [reached.set(now.endpoint.id, now.endpoint)] *)
Definition reach_set (reached : list EndpointRow) (row : EndpointRow) : list EndpointRow :=
  if existsb (fun r => (e_id r =? e_id row)%string) reached then reached else reached ++ [row].

(** The loop of [fallThrough]: the rows the probes reach now, and whether one is denied. *)
Fixpoint probe_loop (row : EndpointRow) (before after : CompiledEndpointTable EndpointRow) (paths : list string)
    (reached : list EndpointRow) (denied : bool) : list EndpointRow * bool :=
  match paths with
  | [] => (reached, denied)
  | path :: paths =>
      match planEndpoint before (e_method row) path with
      | Endpoint found _ =>
          if (e_id found =? e_id row)%string then
            match planEndpoint after (e_method row) path with
            | Endpoint now _ => probe_loop row before after paths (reach_set reached now) denied
            | _ => probe_loop row before after paths reached true
            end
          else probe_loop row before after paths reached denied
      | _ => probe_loop row before after paths reached denied
      end
  end.

Definition fallThrough (row : EndpointRow) (baseline candidate : ContractArtifact)
    (before after : CompiledEndpointTable EndpointRow) : Fate :=
  let patterns := map e_path (art_endpoints baseline ++ art_endpoints candidate) in
  let '(answering, denied) := probe_loop row before after (probePaths (e_path row) patterns) [] false in
  match answering with
  | [] => mkFate Narrows []
  | _ =>
      let fewer := forallb (fun other => admitsNoMoreThan (other, candidate) (row, baseline)) answering in
      let same := fewer && forallb (fun other => admitsNoMoreThan (row, baseline) (other, candidate)) answering in
      mkFate (if negb fewer then Widens else if same && negb denied then Neutral else Narrows) answering
  end.

(** ** One changed endpoint *)

Definition crossOriginChanges (from to : option CrossOriginForm) : list Line :=
  match from, to with
  | None, None | Some CrossEnvironment, Some CrossEnvironment | Some CrossAny, Some CrossAny => []
  | Some _, None => [narrowing]
  | Some CrossAny, Some CrossEnvironment => [narrowing]
  | _, Some _ => [widening]
  end.

Definition cacheChange (from to : option EndpointCache) : list Line :=
  if same_text (opt_json cache_json from) (opt_json cache_json to) then [] else [neutral].

Definition authorizationChange (from to : bool) : list Line :=
  if Bool.eqb from to then [] else [if to then widening else narrowing].

Definition admissionChanges (from to : option BodyAdmission) : list Line :=
  match from, to with
  | None, None => []
  | None, Some _ => [widening]
  | Some _, None => [narrowing]
  | Some before, Some after =>
      let bigger := match maxBytes after, maxBytes before with
                    | None, b => is_some b
                    | Some a, Some b => (b <? a)%Z
                    | Some _, None => false
                    end in
      setChanges (contentTypes before) (contentTypes after)
      ++ (if bool_decide (maxBytes before = maxBytes after) then [] else [either bigger])
  end.

Definition attachmentChanges (from to : AttachmentShape) : option (list Line) :=
  columns ← fieldChanges Output (fun _ s t => schemaChanges Output (Some s) (Some t)) (a_columns from) (a_columns to);
  Some (valueChange (JStr (a_format from)) (JStr (a_format to))
        ++ (if (a_filename from =? a_filename to)%string then [] else [narrowing])
        ++ limitChange Z.eqb Z.ltb (Some (a_maxBytes from)) (Some (a_maxBytes to))
        ++ limitChange Z.eqb Z.ltb (Some (a_maxRows from)) (Some (a_maxRows to))
        ++ columns).

Definition isFileShape (o : OutputShape) : option string := match o with OutSchema (SFile kind) => Some kind | _ => None end.

(** [from === null || isSchemaOutput(from)], and the schema. *)
Definition schema_output (o : option OutputShape) : option (option SchemaShape) :=
  match o with
  | None => Some None
  | Some (OutSchema (SFile _)) => None
  | Some (OutSchema s) => Some (Some s)
  | Some _ => None
  end.

Definition outputChanges (from to : option OutputShape) : option (list Line) :=
  match from ≫= isFileShape, to ≫= isFileShape, from, to with
  | Some k, Some k', _, _ => Some (valueChange (JStr k) (JStr k'))
  | _, _, Some (OutAttachment a), Some (OutAttachment b) => attachmentChanges a b
  | _, _, Some (OutRedirect a), Some (OutRedirect b) => Some (setChanges a b)
  | _, _, _, _ =>
      match schema_output from, schema_output to with
      | Some s, Some t => schemaChanges Output s t
      | _, _ => Some [widening]
      end
  end.

Definition endpointChanges (from to : EndpointRow) : option (list Line) :=
  let becomesPublic := is_some (e_requirement from) && ((e_kind to =? "public-spa")%string || (e_kind to =? "public")%string) in
  input ← schemaChanges Input (e_input from) (e_input to);
  output ← outputChanges (e_output from) (e_output to);
  Some ((if negb becomesPublic then [] else if (e_kind to =? "public")%string then [closer AnyoneCalls Widens] else [widening])
        ++ valueChange (JStr (e_kind from)) (JStr (e_kind to))
        ++ valueChange (JStr (e_method from +:+ " " +:+ e_path from)) (JStr (e_method to +:+ " " +:+ e_path to))
        ++ setChanges (e_callers from) (e_callers to)
        ++ valueChange (opt_json requirement_json (e_requirement from)) (opt_json requirement_json (e_requirement to))
        ++ admissionChanges (e_admission from) (e_admission to)
        ++ crossOriginChanges (e_crossOrigin from) (e_crossOrigin to)
        ++ cacheChange (e_cache from) (e_cache to)
        ++ authorizationChange (e_authorization from) (e_authorization to)
        ++ input ++ output).

(** ** Keys and tables *)

(** [compareKeyed] over two maps as association lists; [added], [removed] and [changed] are [lines]. *)
Definition compareKeyed {T} (as_json : T -> json) (added removed : string -> T -> list Line) (changed : string -> T -> T -> option (list Line))
    (before after : list (string * T)) : option (list Line) :=
  concat_lines (map (fun key =>
    match lookup_field key before, lookup_field key after with
    | None, Some to => Some (added key to)
    | Some from, None => Some (removed key from)
    | Some from, Some to => if same_text (as_json from) (as_json to) then Some [] else changed key from to
    | None, None => Some []
    end) (union_names (map fst before) (map fst after))).

Definition endpointMap (rows : list EndpointRow) : list (string * EndpointRow) := map (fun row => (e_id row, row)) rows.

(** The line of a new endpoint. *)
Definition newEndpoint (row : EndpointRow) : Line :=
  if (e_kind row =? "public")%string then closer AnyoneCalls Widens else widening.

Definition mount_of (row : EndpointRow) (baseline candidate : ContractArtifact) : option string :=
  let name := source_name (e_source row) in
  if (source_kind (e_source row) =? "mount")%string && is_some (lookup_field name (art_mounts baseline))
     && negb (is_some (lookup_field name (art_mounts candidate)))
  then Some name else None.

(** One line for a removed mount: the strongest effect of its routes and of the public variables its pages lose. *)
Definition removedMountChange (mount : string) (fates : list Fate) (baseline : ContractArtifact) : Line :=
  let artifact := lookup_field mount (art_mounts baseline) in
  let served := match artifact with Some (_, names) => names | None => [] end in
  let effects := map fate_effect fates ++ (if (0 <? length served)%nat then [Narrows] else []) in
  let keepsAccess := match artifact with Some (kind, names) => (kind =? "spa")%string && (length names =? 0)%nat | None => false end in
  let effect := if existsb (fun e => bool_decide (e = Widens)) effects then Widens
                else if negb keepsAccess || existsb (fun e => bool_decide (e = Narrows)) effects then Narrows else Neutral in
  mkLine effect None.

(** The rows the candidate no longer has. *)
Definition removed_rows (baseline candidate : ContractArtifact) : list EndpointRow :=
  List.filter (fun row => negb (is_some (lookup_field (e_id row) (endpointMap (art_endpoints candidate))))) (art_endpoints baseline).

Definition removedLines (baseline candidate : ContractArtifact) (before after : CompiledEndpointTable EndpointRow) : list Line :=
  let rows := removed_rows baseline candidate in
  let fate row := fallThrough row baseline candidate before after in
  let alone := List.filter (fun row => negb (is_some (mount_of row baseline candidate))) rows in
  let mounts := uniq (omap (fun row => mount_of row baseline candidate) rows) in
  map (fun row => mkLine (fate_effect (fate row)) None) alone
  ++ map (fun mount => removedMountChange mount
            (map fate (List.filter (fun row => bool_decide (mount_of row baseline candidate = Some mount)) rows)) baseline) mounts.

(** [compareEndpoints], then the reserved prefixes as [compareContracts] compares them. *)
Definition compareEndpoints (baseline candidate : ContractArtifact) (before after : CompiledEndpointTable EndpointRow) : option (list Line) :=
  keyed ← compareKeyed row_json (fun _ row => [newEndpoint row]) (fun _ _ => []) (fun _ => endpointChanges)
            (endpointMap (art_endpoints baseline)) (endpointMap (art_endpoints candidate));
  Some (keyed ++ removedLines baseline candidate before after
        ++ setLines (art_reservedPrefixes baseline) (art_reservedPrefixes candidate) (fun _ => narrowing) (fun _ => widening)).

End Diff.

(** ** What a row admits *)

(** Where a browser request comes from: the application's own origin, one the environment lists, or any other. *)
Inductive Origin := SameOrigin | ListedOrigin | OtherOrigin.

(** A request, as far as the rules of a row can refuse it: its verified token, the media type and size of its body, and
    its origin. *)
Record Attempt := mkAttempt {
  at_claims : option AccessTokenClaims;
  at_body : option (string * Z);
  at_origin : Origin;
}.

Definition admits_origin (form : option CrossOriginForm) (origin : Origin) : bool :=
  match origin, form with
  | SameOrigin, _ | ListedOrigin, Some _ | OtherOrigin, Some CrossAny => true
  | _, _ => false
  end.

Definition admits_body (admission : option BodyAdmission) (body : option (string * Z)) : bool :=
  match body, admission with
  | None, _ => true
  | Some (media, size), Some a => Js.elem media (contentTypes a) && if_some (maxBytes a) (fun limit => size <=? limit)%Z
  | Some _, None => false
  end.

(** A link key is of one link mount, and opens the rows of that mount only. *)
Definition link_bound (row : EndpointRow) (claims : AccessTokenClaims) : bool :=
  match link claims with
  | Some l => (source_kind (e_source row) =? "mount")%string && (source_name (e_source row) =? link_mount l)%string
  | None => false
  end.

Definition admits_claims (row : EndpointRow) (requirement : Requirement) (claims : AccessTokenClaims) : bool :=
  match callerOf claims with
  | None => false
  | Some caller => Js.elem caller (e_callers row) && callerAdmittedAt caller (e_path row)
                   && (negb (caller =? "link")%string || link_bound row claims) && satisfies requirement (perms claims)
  end.

Definition admits_caller (row : EndpointRow) (claims : option AccessTokenClaims) : bool :=
  match e_requirement row with
  | None => true
  | Some requirement => match claims with None => false | Some claims => admits_claims row requirement claims end
  end.

Definition row_admits (row : EndpointRow) (t : Attempt) : bool :=
  admits_caller row (at_claims t) && admits_body (e_admission row) (at_body t) && admits_origin (e_crossOrigin row) (at_origin t).

(** What every row of a contract satisfies: its method, the place of an [app:] caller's rows, and objects that name each
    key once. *)
Record row_ok (row : EndpointRow) : Prop := {
  ok_method : e_method row = "GET" \/ e_method row = "POST";
  ok_callers : forall caller, caller ∈ e_callers row -> callerAdmittedAt caller (e_path row) = true;
  ok_requirement : from_option requirement_ok True (e_requirement row);
  ok_input : from_option well_formed True (e_input row);
}.

Section Sound.
Context `{NumberTextLaws}.

Lemma same_text_normal a b : same_text a b = true <-> normal a = normal b.
Proof. unfold same_text. rewrite String.eqb_eq. apply canonical_normal. Qed.

Lemma valueChange_sound a b : no_widening (valueChange a b) = true -> normal a = normal b.
Proof. unfold valueChange. destruct (same_text a b) eqn:E; [|done]. intros _. by apply same_text_normal. Qed.

Lemma satisfies_same a b entries : same_requirement a b -> satisfies a entries = satisfies b entries.
Proof.
  destruct a as [| |c|r], b as [| |c'|r']; cbn [same_requirement]; try (by intros [=]; subst). intros Hp. cbn [satisfies].
  apply Bool.eq_true_iff_eq. rewrite !forallb_forall. setoid_rewrite <-list_elem_of_In. by setoid_rewrite Hp.
Qed.

Lemma same_requirement_sym a b : same_requirement a b -> same_requirement b a.
Proof. by destruct a, b; cbn. Qed.

Lemma requirements_same a b : from_option requirement_ok True a -> from_option requirement_ok True b ->
  normal (opt_json requirement_json a) = normal (opt_json requirement_json b) -> option_Forall2 same_requirement a b.
Proof.
  intros Ha Hb. apply (opt_json_inj requirement_json same_requirement); [|by intros []]. intros x y -> ->. by apply requirement_inj.
Qed.

Lemma origin_rank a b o : crossOriginRank a <= crossOriginRank b -> admits_origin a o = true -> admits_origin b o = true.
Proof. destruct a as [[]|], b as [[]|], o; cbn; lia || done. Qed.

Lemma body_same a b body : normal (opt_json admission_json a) = normal (opt_json admission_json b) -> admits_body a body = admits_body b body.
Proof.
  intros E. apply (opt_json_inj admission_json eq) in E; [by destruct E as [x y ->|]| |done].
  intros x y _ _. split; [apply admission_inj|by intros ->].
Qed.

Lemma claims_mono a b ra rb claims : (forall c, c ∈ e_callers a -> c ∈ e_callers b /\ (c = "link" -> e_source a = e_source b)) -> row_ok b ->
  same_requirement ra rb -> admits_claims a ra claims = true -> admits_claims b rb claims = true.
Proof.
  intros Hc Hok Hs. unfold admits_claims. destruct (callerOf claims) as [caller|]; [|done]. rewrite !andb_true_iff, !elem_spec.
  intros [[[Hin _] Hl] Hp]. destruct (Hc caller Hin) as [Hb Hsrc]. repeat split; [done|by apply ok_callers| |by rewrite <-(satisfies_same ra rb)].
  destruct (String.eqb_spec caller "link") as [->|N]; [|done]. cbn in *. unfold link_bound in *. by rewrite <-(Hsrc eq_refl).
Qed.

(** ** One row after another *)

Lemma admitsNoMoreThan_sound a b art art' t : row_ok a -> row_ok b -> admitsNoMoreThan (a, art) (b, art') = true ->
  row_admits a t = true -> row_admits b t = true.
Proof.
  intros Ha Hb Hn. unfold admitsNoMoreThan in Hn. cbn [fst snd] in Hn. destruct (forallb _ ADMITS_NO_MORE) eqn:E; [|done]. clear Hn.
  unfold ADMITS_NO_MORE in E. cbn [forallb] in E. rewrite !andb_true_iff in E. destruct E as (Hk & Hr & Hc & Hadm & Horig & _).
  unfold row_admits. rewrite !andb_true_iff. intros [[Hcal Hbody] Hor]. repeat split.
  - unfold admits_caller in *. unfold kind_no_more, requirement_no_more, callers_no_more in Hk, Hr, Hc.
    destruct (e_requirement b) as [rb|] eqn:Erb; [|done]. destruct (e_requirement a) as [ra|] eqn:Era; [|done].
    destruct (readsPathParameter a || readsPathParameter b); [done|]. destruct (at_claims t) as [claims|]; [|done].
    eapply claims_mono; [|exact Hb| |exact Hcal].
    + intros c Hin. rewrite forallb_forall in Hc. apply list_elem_of_In, Hc, andb_true_iff in Hin as [Hl Hin]. split; [by apply elem_spec|].
      intros ->. cbn in Hl. by apply bool_decide_eq_true in Hl.
    + apply same_text_normal in Hr. pose proof (ok_requirement _ Ha) as Oa. pose proof (ok_requirement _ Hb) as Ob. rewrite Era in Oa. rewrite Erb in Ob.
      by apply requirement_inj.
  - unfold admission_no_more in Hadm. destruct (e_admission a) as [x|] eqn:Ea; cbn [is_some negb orb] in Hadm.
    + apply same_text_normal in Hadm. by rewrite <-(body_same _ _ (at_body t) Hadm).
    + by destruct (at_body t) as [[]|].
  - apply Nat.leb_le in Horig. by eapply origin_rank.
Qed.

(** What a row both tables hold, unchanged or changed without a line that widens, keeps of the old one. *)
Record kept `{ZodChecks} (from to : EndpointRow) : Prop := {
  kept_method : e_method from = e_method to;
  kept_path : e_path from = e_path to;
  kept_admits : forall t, row_admits to t = true -> row_admits from t = true;
  kept_input : match e_input from, e_input to with
               | Some s, Some s' => forall v, admits s' v = true -> admits s v = true
               | None, None => True
               | _, _ => False
               end;
}.

Lemma admission_sound from to body : no_widening (admissionChanges from to) = true -> admits_body to body = true -> admits_body from body = true.
Proof.
  destruct body as [[media size]|]; [|done]. destruct from as [b|], to as [a|]; cbn [admissionChanges admits_body]; try done.
  rewrite no_widening_app, !andb_true_iff, !elem_spec. intros [Ht Hs] [Hm Hl]. split; [by apply (setChanges_sound _ _ Ht)|].
  case_bool_decide as E; [by rewrite E|]. rewrite no_widening_either, negb_true_iff in Hs.
  destruct (maxBytes b) as [x|], (maxBytes a) as [y|]; cbn in *; try done. rewrite Z.leb_le in *. apply Z.ltb_ge in Hs. lia.
Qed.

Lemma crossOrigin_sound from to o : no_widening (crossOriginChanges from to) = true -> admits_origin to o = true -> admits_origin from o = true.
Proof. intros Hn. apply origin_rank. destruct from as [[]|], to as [[]|]; cbn in *; lia || done. Qed.

Lemma route_inj m m' p p' : m = "GET" \/ m = "POST" -> m' = "GET" \/ m' = "POST" -> m +:+ " " +:+ p = m' +:+ " " +:+ p' -> m = m' /\ p = p'.
Proof. intros [->| ->] [->| ->] E; cbn in E; try done; by injection E as ->. Qed.

Context `{ZodChecks}.

Lemma input_sound from to lines : from_option well_formed True from -> from_option well_formed True to ->
  schemaChanges Input from to = Some lines -> no_widening lines = true ->
  match from, to with
  | Some s, Some s' => forall v, admits s' v = true -> admits s v = true
  | None, None => True
  | _, _ => False
  end.
Proof.
  intros Hf Ht. destruct from as [s|], to as [s'|]; cbn [schemaChanges]; try (by intros [= <-]).
  intros Hl Hn v. by eapply shape_sound; [apply coreChanges_sound|..].
Qed.

Lemma endpointChanges_kept from to lines : row_ok from -> row_ok to -> e_source from = e_source to ->
  endpointChanges from to = Some lines -> no_widening lines = true -> kept from to.
Proof.
  intros Hf Ht Hsrc. unfold endpointChanges. destruct (schemaChanges Input (e_input from) (e_input to)) as [input|] eqn:Ei; [|done]. cbn.
  destruct (outputChanges (e_output from) (e_output to)) as [output|]; [|done]. cbn -[valueChange]. intros [= <-]. rewrite !no_widening_app, !andb_true_iff.
  intros (_ & _ & Hroute & Hcall & Hreq & Hadm & Horig & _ & _ & Hin & _).
  apply valueChange_sound in Hroute. injection Hroute as Hroute. apply route_inj in Hroute as [Em Ep]; [|apply Hf|apply Ht].
  split; [done|done| |].
  - intros t. unfold row_admits. rewrite !andb_true_iff. intros [[Hc Hb] Ho]. repeat split; [|by eapply admission_sound|by eapply crossOrigin_sound].
    apply valueChange_sound, requirements_same in Hreq; [|apply Hf|apply Ht]. unfold admits_caller in *. destruct Hreq as [ra rb Hr|]; [|done].
    destruct (at_claims t) as [claims|]; [|done].
    eapply claims_mono; [|exact Hf| |exact Hc].
    + intros c Hin'. split; [by apply (setChanges_sound _ _ Hcall)|done].
    + by apply same_requirement_sym.
  - eapply input_sound; [apply Hf|apply Ht|exact Ei|exact Hin].
Qed.

Lemma same_row_kept from to : row_ok from -> row_ok to -> same_text (row_json from) (row_json to) = true -> kept from to.
Proof.
  intros Hf Ht E. apply same_text_normal in E. unfold row_json in E. present_of E "method". present_of E "path". present_of E "admission".
  present_of E "input". present_of E "crossOrigin". present_of E "callers". present_of E "requirement". present_of E "source".
  injection F as F. injection F0 as F0. apply (inj Some) in F1, F2, F4, F5, F6.
  apply normal_strs_inj in F4. apply requirements_same in F5; [|apply Hf|apply Ht].
  field_of F6 "kind". field_of F6 "name". injection F7 as F7. injection F8 as F8.
  assert (Hsrc : e_source from = e_source to) by (destruct (e_source from), (e_source to); cbn in *; congruence).
  assert (Hx : e_crossOrigin from = e_crossOrigin to) by (by destruct (e_crossOrigin from) as [[]|], (e_crossOrigin to) as [[]|]).
  split; [done|done| |].
  - intros t. unfold row_admits. rewrite !andb_true_iff, Hx. rewrite (body_same _ _ (at_body t) F1). intros [[Hc Hb] Ho]. repeat split; [|done|done].
    unfold admits_caller in *. destruct F5 as [ra rb Hr|]; [|done]. destruct (at_claims t) as [claims|]; [|done].
    eapply claims_mono; [|exact Hf|by apply same_requirement_sym|exact Hc]. intros c Hin. rewrite F4. by split.
  - destruct (e_input from) as [s|] eqn:Es, (e_input to) as [s'|] eqn:Es'; cbn [opt_json] in F2; try (by destruct s); try (by destruct s'); [|done].
    pose proof (ok_input _ Hf) as Wf. pose proof (ok_input _ Ht) as Wt. rewrite Es in Wf. rewrite Es' in Wt.
    intros v. by rewrite (normal_agree s s' Wf Wt F2 v).
Qed.

(** The lines of the two endpoint maps, for one key. *)
Lemma compareKeyed_line {T} as_json added removed changed (before after : list (string * T)) lines key : 
  compareKeyed as_json added removed changed before after = Some lines -> no_widening lines = true ->
  match lookup_field key before, lookup_field key after with
  | None, Some to => no_widening (added key to) = true
  | Some from, Some to => same_text (as_json from) (as_json to) = true \/ exists ls, changed key from to = Some ls /\ no_widening ls = true
  | _, None => True
  end.
Proof.
  intros Hl Hn. destruct (lookup_field key after) as [to|] eqn:Et; [|by destruct (lookup_field key before)].
  set (f := fun key => match lookup_field key before, lookup_field key after with
    | None, Some to => Some (added key to) | Some from, None => Some (removed key from)
    | Some from, Some to => if same_text (as_json from) (as_json to) then Some [] else changed key from to | None, None => Some [] end).
  destruct (concat_lines_in _ _ (f key) Hl) as (ls & E & Hls).
  { apply (list_elem_of_fmap_2 f), union_names_elem. right. apply lookup_field_in in Et. by apply (list_elem_of_fmap_2 fst) in Et. }
  specialize (Hls Hn). unfold f in E. rewrite Et in E. destruct (lookup_field key before) as [from|]; [|by injection E as ->].
  destruct (same_text (as_json from) (as_json to)); [by left|right; eauto].
Qed.

End Sound.

(** ** The tables *)

Lemma endpointMap_fst rows : map fst (endpointMap rows) = map e_id rows.
Proof. unfold endpointMap. by rewrite map_map. Qed.

Lemma lookup_endpoint id row rows : lookup_field id (endpointMap rows) = Some row -> row ∈ rows /\ e_id row = id.
Proof.
  intros Hl%lookup_field_in. unfold endpointMap in Hl. apply list_elem_of_fmap in Hl as (r & [= -> ->] & Hr). auto.
Qed.

Lemma endpoint_lookup row rows : NoDup (map e_id rows) -> row ∈ rows -> lookup_field (e_id row) (endpointMap rows) = Some row.
Proof.
  intros Hd Hr. apply lookup_field_Some; [by rewrite endpointMap_fst|]. by apply (list_elem_of_fmap_2 (fun row => (e_id row, row))).
Qed.

Lemma analyse_rows_ids {Row} `{EndpointPattern Row} (rows : list Row) ids shapes compiled : analyse_rows rows ids shapes = ([], compiled) ->
  NoDup (map ep_id rows) /\ forall r, r ∈ rows -> ep_id r ∉ ids.
Proof.
  revert ids shapes compiled. induction rows as [|r rows IH]; intros ids shapes compiled; cbn -[Js.elem]; [intros _; split; [constructor|set_solver]|].
  destruct (parsePattern (ep_path r)) as [problem|segs]; [|].
  { destruct (analyse_rows rows _ _). intros [= E _]. by destruct (Js.elem (ep_id r) ids). }
  destruct (analyse_rows rows (ids ++ [ep_id r]) _) as [problems cs] eqn:E. intros [= Ep _].
  destruct (Js.elem (ep_id r) ids) eqn:Eid; [done|]. destruct (List.find _ _); [done|]. cbn in Ep. subst problems.
  apply IH in E as [Hd Hn]. apply not_elem_false in Eid. split.
  - constructor; [|done]. intros (x & Ex & Hx)%list_elem_of_fmap. apply (Hn x Hx). rewrite <-Ex. set_solver.
  - intros x [->|Hx]%elem_of_cons; [done|]. specialize (Hn x Hx). set_solver.
Qed.

Lemma compiled_ids {Row} `{EndpointPattern Row} (rows : list Row) prefixes table : compileEndpointTable rows prefixes = inr table -> NoDup (map ep_id rows).
Proof.
  unfold compileEndpointTable, analyse. destruct (analyse_rows rows [] ∅) as [problems cs] eqn:E.
  destruct (problems ++ analyse_prefixes prefixes []) eqn:En; [|done]. apply app_eq_nil in En as [-> _]. intros _.
  by apply analyse_rows_ids in E as [? _].
Qed.

(** ** A removed endpoint *)

Lemma reach_set_in reached row : exists r, r ∈ reach_set reached row /\ e_id r = e_id row.
Proof.
  unfold reach_set. destruct (existsb (fun r => (e_id r =? e_id row)%string) reached) eqn:E.
  - apply existsb_exists in E as (r & Hr & E%String.eqb_eq). exists r. by rewrite list_elem_of_In.
  - exists row. set_solver.
Qed.

Lemma reach_set_mono reached row r : r ∈ reached -> r ∈ reach_set reached row.
Proof. unfold reach_set. destruct (existsb _ reached); set_solver. Qed.

Lemma probe_loop_mono row before after paths reached denied r : r ∈ reached -> r ∈ (probe_loop row before after paths reached denied).1.
Proof.
  revert reached denied. induction paths as [|p paths IH]; intros reached denied Hr; cbn [probe_loop]; [done|].
  repeat case_match; eauto using reach_set_mono.
Qed.

(** Every row reached is one the new table plans. *)
Lemma probe_loop_from row before after paths reached denied r : r ∈ (probe_loop row before after paths reached denied).1 ->
  r ∈ reached \/ exists path params, planEndpoint after (e_method row) path = Endpoint r params.
Proof.
  revert reached denied. induction paths as [|p paths IH]; intros reached denied; cbn [probe_loop]; [by left|].
  repeat case_match; try (apply IH). intros [Hr|Hr]%IH; [|by right]. unfold reach_set in Hr. destruct (existsb _ reached); [by left|].
  apply elem_of_app in Hr as [Hr|Hr]; [by left|]. apply list_elem_of_singleton in Hr as ->. right. eauto.
Qed.

Lemma probe_loop_reaches row before after paths reached denied path found params now params' : path ∈ paths ->
  planEndpoint before (e_method row) path = Endpoint found params -> e_id found = e_id row ->
  planEndpoint after (e_method row) path = Endpoint now params' ->
  exists r, r ∈ (probe_loop row before after paths reached denied).1 /\ e_id r = e_id now.
Proof.
  intros Hp Hb Hid Ha. revert reached denied. induction paths as [|p paths IH]; intros reached denied; [set_solver|]. cbn [probe_loop].
  apply elem_of_cons in Hp as [<-|Hp].
  - rewrite Hb, Ha. destruct (String.eqb_spec (e_id found) (e_id row)); [|done]. destruct (reach_set_in reached now) as (r & Hr & E).
    exists r. split; [by apply probe_loop_mono|done].
  - specialize (IH Hp). repeat case_match; apply IH.
Qed.

Section Tables.
Context `{NumberText}.
Variables (baseline candidate : ContractArtifact) (before after : CompiledEndpointTable EndpointRow).
Hypothesis compiled_before : compileEndpointTable (art_endpoints baseline) (art_reservedPrefixes baseline) = inr before.
Hypothesis compiled_after : compileEndpointTable (art_endpoints candidate) (art_reservedPrefixes candidate) = inr after.

(** Every reserved prefix has an endpoint under it, in one table or the other. *)
Hypothesis prefixes_served : forall x, x ∈ art_reservedPrefixes baseline ++ art_reservedPrefixes candidate ->
  exists row, row ∈ art_endpoints baseline ++ art_endpoints candidate /\ isUnder (e_path row) x = true.

Let patterns := map e_path (art_endpoints baseline ++ art_endpoints candidate).

Lemma planned_row method path row params : planEndpoint after method path = Endpoint row params -> row ∈ art_endpoints candidate.
Proof.
  intros Hp. destruct (planEndpoint_cases _ _ _ method path compiled_after) as [[_ E]|[(_ & E & _)|(_ & e & ps & E & _ & Hin & _)]]; [congruence|congruence|].
  rewrite Hp in E. injection E as -> ->. eapply compiled_rows in Hin as [? _]; [done|exact compiled_after].
Qed.

Lemma pattern_parses row : row ∈ art_endpoints baseline ++ art_endpoints candidate -> exists segs, parsePattern (e_path row) = inr segs.
Proof.
  assert (P : forall rows prefixes (t : CompiledEndpointTable EndpointRow), compileEndpointTable rows prefixes = inr t -> forall r, r ∈ rows -> exists segs, parsePattern (e_path r) = inr segs).
  { intros rows prefixes t Hc r Hr. unfold compileEndpointTable in Hc. destruct (analyse rows prefixes) as [|cs] eqn:E; [done|].
    apply analyse_ok in E as (Em & Hp & _). rewrite <-Em in Hr. apply list_elem_of_fmap in Hr as (e & -> & He). rewrite Forall_forall in Hp.
    exists (segments e). by apply (Hp e). }
  intros [Hr|Hr]%elem_of_app; [by eapply P in Hr; [|exact compiled_before]|by eapply P in Hr; [|exact compiled_after]].
Qed.

Lemma fresh_not_reserved row x : x ∈ art_reservedPrefixes baseline ++ art_reservedPrefixes candidate ->
  fresh_value (List.filter isLiteralSegment (concat (segmentsOf (e_path row) :: map segmentsOf patterns))) ∉ segmentsOf x.
Proof.
  intros Hx. destruct (prefixes_served x Hx) as (r & Hr & Hu). destruct (pattern_parses r Hr) as [segs Hp].
  assert (Hres : isReservedPrefix x = true).
  { apply elem_of_app in Hx as [Hx|Hx]; [pose proof (compiled_prefixes _ _ _ compiled_before) as F|pose proof (compiled_prefixes _ _ _ compiled_after) as F];
      rewrite Forall_forall in F; by apply F. }
  apply reserved_prefix_segments in Hres as (Ex & Hx0 & Hxok & Hlit). apply pattern_canonical, canonical_segments in Hp as (Er & _ & Hrok).
  rewrite Er, Ex in Hu. apply isUnder_segments in Hu as (rest & _ & E); [|done|by apply ok_split|intros; by apply ok_split].
  intros Hin. destruct (fresh_value_spec (List.filter isLiteralSegment (concat (segmentsOf (e_path row) :: map segmentsOf patterns)))) as [Hn _].
  apply Hn, list_elem_of_In, filter_In. rewrite Forall_forall in Hlit. split; [|by apply Hlit]. apply in_concat. exists (segmentsOf (e_path r)).
  split; [right; apply list_elem_of_In, (list_elem_of_fmap_2 segmentsOf); by apply (list_elem_of_fmap_2 e_path)|].
  apply list_elem_of_In. rewrite E. set_solver.
Qed.

(** Whoever answers a path of a removed endpoint is among the rows its probes reach. *)
Lemma fallThrough_reaches row path params now params' : row ∈ art_endpoints baseline ->
  planEndpoint before (e_method row) path = Endpoint row params -> planEndpoint after (e_method row) path = Endpoint now params' ->
  now ∈ answering (fallThrough row baseline candidate before after).
Proof.
  intros Hrow Hb Ha.
  assert (Hrow' : row ∈ art_endpoints baseline ++ art_endpoints candidate) by (apply elem_of_app; by left).
  destruct (pattern_parses row Hrow') as [segs Hsegs].
  destruct (planEndpoint_cases _ _ _ (e_method row) path compiled_before) as [[_ E]|[(_ & E & _)|(Hcan & e & ps & E & _ & Hin & Hc & _)]]; [congruence|congruence|].
  rewrite Hb in E. injection E as E _. apply candidate_some in Hc as (_ & _ & Hm). eapply compiled_rows in Hin as [_ Hpat]; [|exact compiled_before].
  apply (matchSegments_raw _ _ _ Hpat) in Hm. cbn in Hm. rewrite <-E in Hm.
  destruct (probe_exists (e_path row) patterns path) as (q & Hq & Hqp & Hqok & Hrep); [by rewrite Hsegs| |done|exact Hm|].
  { intros x (r & -> & Hr)%list_elem_of_fmap. destruct (pattern_parses r Hr) as [s Hs]. by apply pattern_text in Hs as [_ ?]. }
  assert (In : forall r, r ∈ art_endpoints baseline ++ art_endpoints candidate -> segmentsOf (ep_path r) ∈ segmentsOf (e_path row) :: map segmentsOf patterns).
  { intros r Hr. right. apply (list_elem_of_fmap_2 segmentsOf). by apply (list_elem_of_fmap_2 e_path). }
  destruct (plan_same _ _ _ compiled_before _ _ (fun r Hr => In r ltac:(apply elem_of_app; by left))
    (fun x Hx => fresh_not_reserved row x ltac:(apply elem_of_app; by left)) _ _ _ _ _ Hcan Hrep Hqp Hqok Hb) as [ps1 Hb'].
  destruct (plan_same _ _ _ compiled_after _ _ (fun r Hr => In r ltac:(apply elem_of_app; by right))
    (fun x Hx => fresh_not_reserved row x ltac:(apply elem_of_app; by right)) _ _ _ _ _ Hcan Hrep Hqp Hqok Ha) as [ps2 Ha'].
  unfold fallThrough. fold patterns. destruct (probe_loop_reaches row before after _ [] false _ _ _ _ _ Hq Hb' eq_refl Ha') as (r & Hr & Hid).
  pose proof (probe_loop_from row before after (probePaths (e_path row) patterns) [] false r Hr) as [?|(p & ps3 & Hplan)]; [set_solver|].
  assert (r = now) as ->.
  { apply planned_row in Hplan, Ha. pose proof (compiled_ids _ _ _ compiled_after) as Hd.
    pose proof (endpoint_lookup r _ Hd Hplan) as L1. pose proof (endpoint_lookup now _ Hd Ha) as L2. rewrite Hid in L1. congruence. }
  destruct (probe_loop row before after (probePaths (e_path row) patterns) [] false) as [answers denied]. cbn in Hr. by destruct answers.
Qed.

Lemma fallThrough_sound row path params now params' : row ∈ art_endpoints baseline ->
  fate_effect (fallThrough row baseline candidate before after) <> Widens ->
  planEndpoint before (e_method row) path = Endpoint row params -> planEndpoint after (e_method row) path = Endpoint now params' ->
  admitsNoMoreThan (now, candidate) (row, baseline) = true.
Proof.
  intros Hrow Hf Hb Ha. pose proof (fallThrough_reaches row path params now params' Hrow Hb Ha) as Hin. unfold fallThrough in *.
  destruct (probe_loop _ _ _ _ _ _) as [[|x answers] denied]; [by apply elem_of_nil in Hin|]. cbn [fate_effect answering] in *.
  destruct (forallb (fun other => admitsNoMoreThan (other, candidate) (row, baseline)) (x :: answers)) eqn:E; [|done].
  rewrite forallb_forall in E. apply E. by apply list_elem_of_In.
Qed.

End Tables.

(** ** Prefixes and specificity *)

(** A pattern under a reserved prefix of the path is more specific than one that is not. *)
Lemma under_more_specific segs raw segs' raw' ls path : Forall2 segment_text segs raw -> Forall2 segment_text segs' raw' ->
  Forall (fun s => isLiteralSegment s = true) ls -> (exists t, raw = ls ++ t) -> (exists more, more <> [] /\ path = ls ++ more) ->
  wild_last raw' -> fits raw' path -> (if open_ended raw' then length raw' <= length path else length raw' = length path) ->
  ~ (exists t, t <> [] /\ raw' = ls ++ t) -> (compareSpecificity segs segs' < 0)%Z.
Proof.
  intros Hs. revert segs' raw' path raw Hs. revert segs. induction ls as [|l ls IH]; intros segs segs' raw' path raw Hs Hs' Hlit [t ->] (more & Hm & ->) Hw Hf He Hn.
  - destruct raw' as [|s raw']; [|destruct Hn; by exists (s :: raw')]. cbn in He. by destruct more.
  - apply Forall_cons in Hlit as [Hl Hlit]. inversion Hs as [|x ? segs0 ? Hx Hs0]; subst. destruct raw' as [|s raw']; [done|].
    inversion Hs' as [|x' ? segs1 ? Hx' Hs1]; subst.
    assert (x = SegLiteral l) as ->.
    { destruct x; cbn in Hx; [by destruct Hx as [-> _]| |].
      - destruct Hx as [_ Hx]. unfold isLiteralSegment in Hl. rewrite Hx in Hl. by destruct (l =? "*")%string.
      - by subst l. }
    destruct x' as [v|name|]; cbn [segment_text] in Hx'; [|reflexivity|reflexivity]. destruct Hx' as [-> Hv].
    assert (Hstar : v <> "*") by (intros ->; done). apply fits_cons in Hf as [H0 Hf]; [|done].
    rewrite (mayMatch_literal _ _ v) in H0 by done. apply String.eqb_eq in H0 as ->. cbn.
    eapply (IH segs0 segs1 raw' (ls ++ more) (ls ++ t)); [done|done|done|by exists t|by exists more| |done| |].
    + intros i Hi. specialize (Hw (S i) Hi). cbn in Hw. congruence.
    + rewrite open_cons in He by done. cbn in He. destruct (open_ended raw'); lia.
    + intros (t' & Ht' & ->). apply Hn. by exists t'.
Qed.

(** Under the longest of the prefixes a path is under, a pattern is under the others. *)
Lemma under_longer path x y p : isReservedPrefix x = true -> isReservedPrefix y = true -> isCanonicalPath path = true -> isCanonicalPath p = true ->
  isUnder p x = true -> isUnder p y = true -> String.length x <= String.length y -> isUnder path y = true -> isUnder path x = true.
Proof.
  intros Hx Hy Hpath Hp. apply reserved_prefix_segments in Hx as (Ex & Hx0 & Hxok & _), Hy as (Ey & Hy0 & Hyok & _).
  apply canonical_segments in Hpath as (Epath & _ & Hpathok), Hp as (Ep & _ & Hpok). rewrite Ex, Ey, Epath, Ep.
  rewrite !isUnder_segments by first [done|by apply ok_split|intros; by apply ok_split].
  intros (r1 & Hr1 & E1) (r2 & Hr2 & E2) Hle (r3 & Hr3 & E3).
  destruct (decide (length (segmentsOf x) <= length (segmentsOf y))) as [Hl|Hl].
  - destruct (app_prefix_of (segmentsOf x) (segmentsOf y) r1 r2) as [t Et]; [congruence|done|]. exists (t ++ r3).
    rewrite E3, Et, <-app_assoc. split; [|done]. by intros [_ ?]%app_eq_nil.
  - exfalso. destruct (app_prefix_of (segmentsOf y) (segmentsOf x) r2 r1) as [t Et]; [congruence|lia|].
    assert (t <> []) by (intros ->; rewrite Et, app_nil_r in Hl; lia). pose proof (join_longer (segmentsOf y) t Hy0 ltac:(done)) as Hj. rewrite <-Et in Hj. lia.
Qed.

(** ** The table *)

Lemma removed_sound `{NumberText} baseline candidate before after row : no_widening (removedLines baseline candidate before after) = true ->
  row ∈ art_endpoints baseline -> lookup_field (e_id row) (endpointMap (art_endpoints candidate)) = None ->
  fate_effect (fallThrough row baseline candidate before after) <> Widens.
Proof.
  intros Hn Hrow Hl Hw. unfold removedLines in Hn. cbn zeta in Hn. rewrite no_widening_app, andb_true_iff in Hn. destruct Hn as [H1 H2].
  unfold no_widening in H1, H2. rewrite forallb_forall in H1, H2.
  assert (Hrem : row ∈ removed_rows baseline candidate).
  { apply list_elem_of_In, filter_In. split; [by apply list_elem_of_In|]. by rewrite Hl. }
  destruct (mount_of row baseline candidate) as [mount|] eqn:Em.
  - specialize (H2 (removedMountChange mount (map (fun row => fallThrough row baseline candidate before after)
      (List.filter (fun row => bool_decide (mount_of row baseline candidate = Some mount)) (removed_rows baseline candidate))) baseline)).
    assert (Hwid : widens (removedMountChange mount (map (fun row => fallThrough row baseline candidate before after)
      (List.filter (fun row => bool_decide (mount_of row baseline candidate = Some mount)) (removed_rows baseline candidate))) baseline) = true).
    { unfold removedMountChange. match goal with |- context [existsb (fun e => bool_decide (e = Widens)) ?l] => assert (existsb (fun e => bool_decide (e = Widens)) l = true) as ->; [|done] end.
      apply existsb_exists. exists Widens. split; [|done]. apply in_or_app. left. rewrite <-Hw. apply (in_map fate_effect), (in_map (fun row => fallThrough row baseline candidate before after)), filter_In.
      split; [by apply list_elem_of_In|]. by apply bool_decide_eq_true. }
    rewrite Hwid in H2. discriminate H2. apply in_map_iff. exists mount. split; [done|]. apply list_elem_of_In, uniq_elem, list_elem_of_omap. by exists row.
  - specialize (H1 (mkLine (fate_effect (fallThrough row baseline candidate before after)) None)). rewrite Hw in H1. discriminate H1.
    apply in_map_iff. exists row. rewrite Hw. split; [done|]. apply filter_In. rewrite Em. split; [by apply list_elem_of_In|done].
Qed.

Lemma prefixes_sound before after : no_widening (setLines before after (fun _ => narrowing) (fun _ => widening)) = true -> forall x, x ∈ before -> x ∈ after.
Proof.
  unfold no_widening, setLines. rewrite forallb_forall. intros Hn x Hx. destruct (Js.elem x after) eqn:E; [by apply elem_spec|].
  assert (Hin : List.In widening (flat_map (fun value => if negb (Js.elem value before) then [narrowing]
    else if negb (Js.elem value after) then [widening] else []) (union_names before after))); [|by apply Hn in Hin].
  apply in_flat_map. exists x. split; [apply list_elem_of_In, union_names_elem; by left|]. rewrite E. apply elem_spec in Hx as ->. by left.
Qed.

Section Table.
Context `{NumberTextLaws} `{ZodChecks}.
Variables (baseline candidate : ContractArtifact) (before after : CompiledEndpointTable EndpointRow).
Hypothesis compiled_before : compileEndpointTable (art_endpoints baseline) (art_reservedPrefixes baseline) = inr before.
Hypothesis compiled_after : compileEndpointTable (art_endpoints candidate) (art_reservedPrefixes candidate) = inr after.
Hypothesis prefixes_served : forall x, x ∈ art_reservedPrefixes baseline ++ art_reservedPrefixes candidate ->
  exists row, row ∈ art_endpoints baseline ++ art_endpoints candidate /\ isUnder (e_path row) x = true.
Hypothesis rows_ok : forall row, row ∈ art_endpoints baseline ++ art_endpoints candidate -> row_ok row.
Hypothesis sources : forall from to, from ∈ art_endpoints baseline -> to ∈ art_endpoints candidate -> e_id from = e_id to -> e_source from = e_source to.

Lemma method_of row method : row_ok row -> servesMethod (e_method row) method = true -> method = e_method row.
Proof. intros Hok. unfold servesMethod. destruct (ok_method _ Hok) as [->| ->]; cbn -[String.eqb]; by intros <-%String.eqb_eq. Qed.

(** A row of both tables whose lines do not widen. *)
Lemma keyed_kept keyed to : compareKeyed row_json (fun _ row => [newEndpoint row]) (fun _ _ => []) (fun _ => endpointChanges)
    (endpointMap (art_endpoints baseline)) (endpointMap (art_endpoints candidate)) = Some keyed -> no_widening keyed = true ->
  to ∈ art_endpoints candidate -> exists from, from ∈ art_endpoints baseline /\ e_id from = e_id to /\ kept from to.
Proof.
  intros Hk Hn Hto. pose proof (endpoint_lookup to _ (compiled_ids _ _ _ compiled_after) Hto) as Lt.
  pose proof (compareKeyed_line _ _ _ _ _ _ _ (e_id to) Hk Hn) as Hline. rewrite Lt in Hline.
  destruct (lookup_field (e_id to) (endpointMap (art_endpoints baseline))) as [from|] eqn:Lf.
  - apply lookup_endpoint in Lf as [Hf Hid]. exists from. split; [done|]. split; [done|].
    assert (row_ok from) by (apply rows_ok, elem_of_app; by left). assert (row_ok to) by (apply rows_ok, elem_of_app; by right).
    destruct Hline as [Hs|(ls & Hl & Hls)]; [by apply same_row_kept|]. eapply endpointChanges_kept; eauto.
  - unfold newEndpoint in Hline. by destruct (e_kind to =? "public")%string.
Qed.

(** A kept row competes for a path in the old table when it is planned for it in the new one. *)
Lemma kept_competes from to e method path : from ∈ art_endpoints baseline -> kept from to ->
  (forall x, x ∈ art_reservedPrefixes baseline -> x ∈ art_reservedPrefixes candidate) -> isCanonicalPath path = true ->
  e ∈ table_endpoints after -> row e = to -> competes (longestPrefixOf path (art_reservedPrefixes candidate)) method (splitPath path) e ->
  exists e0, e0 ∈ table_endpoints before /\ row e0 = from /\ segments e0 = segments e
    /\ competes (longestPrefixOf path (art_reservedPrefixes baseline)) method (splitPath path) e0.
Proof.
  intros Hfrom Hk Hpre Hcan He Hto Hc. pose proof (kept_path _ _ Hk) as Ep. pose proof (kept_method _ _ Hk) as Em.
  destruct (compiled_rows _ _ _ compiled_after e He) as [Hrow Hpat]. rewrite Hto in Hrow, Hpat. cbn in Hpat.
  assert (Hrows : map row (table_endpoints before) = art_endpoints baseline).
  { pose proof compiled_before as Hb. unfold compileEndpointTable in Hb. destruct (analyse _ _) as [|cs] eqn:E; [done|]. injection Hb as <-. by apply analyse_ok in E as [? _]. }
  rewrite <-Hrows in Hfrom. apply list_elem_of_fmap in Hfrom as (e0 & E0 & He0). exists e0. split; [done|]. split; [done|].
  destruct (compiled_rows _ _ _ compiled_before e0 He0) as [_ Hpat0]. rewrite <-E0 in Hpat0. cbn in Hpat0. rewrite Ep, Hpat in Hpat0. injection Hpat0 as Hseg.
  split; [done|]. apply candidate_some in Hc as (Hserve & Hu & Hmatch). apply candidate_some. rewrite <-E0, <-Hseg. rewrite Hto in Hserve, Hu. cbn in *.
  rewrite Em, Ep. split; [done|]. split; [|done]. intros x Hx.
  pose proof (longestPrefixOf_spec path (art_reservedPrefixes baseline)) as Hspec. rewrite Hx in Hspec. destruct Hspec as (Hin & Hux & _).
  pose proof (longestPrefixOf_spec path (art_reservedPrefixes candidate)) as Hspec.
  pose proof (compiled_prefixes _ _ _ compiled_after) as Hres. rewrite Forall_forall in Hres.
  destruct (longestPrefixOf path (art_reservedPrefixes candidate)) as [y|].
  - destruct Hspec as (Hiny & Huy & Hmax). apply (under_longer _ x y path); [by apply Hres, Hpre|by apply Hres|by eapply pattern_canonical|done|done|done|by apply Hmax, Hux; apply Hpre|by apply Hu].
  - specialize (Hspec x (Hpre x Hin)). congruence.
Qed.

(** Of two kept rows, the one the old table plans before the other keeps that place in the new one, if both answer. *)
Lemma kept_not_more_specific from from' to to' e e0 e' method path : from ∈ art_endpoints baseline -> kept from to ->
  isCanonicalPath path = true -> best_of (longestPrefixOf path (art_reservedPrefixes candidate)) method (splitPath path) (table_endpoints after) e ->
  row e = to -> e' ∈ table_endpoints after -> row e' = to' -> segments e' = segments e0 -> kept from' to' ->
  competes (longestPrefixOf path (art_reservedPrefixes baseline)) method (splitPath path) e0 -> row e0 = from' -> e_id from' <> e_id from ->
  e_id from = e_id to -> e_id from' = e_id to' -> (compareSpecificity (segments e) (segments e') < 0)%Z.
Proof.
  intros Hfrom Hk Hcan (Hin & Hcomp & Hbest) Hto He' Hto' Hseg Hk' Hc0 E0 Hne Hid Hid'.
  assert (Hserve : servesMethod (ep_method (row e')) method = true /\ is_Some (matchSegments (segments e') (splitPath path))).
  { apply candidate_some in Hc0 as (Hs & _ & Hm). rewrite E0 in Hs. rewrite Hto', Hseg. cbn in *. rewrite <-(kept_method _ _ Hk'). done. }
  destruct Hserve as [Hserve Hmatch].
  destruct (decide (is_Some (Endpoints.candidate (longestPrefixOf path (art_reservedPrefixes candidate)) method (splitPath path) e'))) as [Hc|Hc].
  { destruct (Hbest e' He' Hc) as [->|Hlt]; [|done]. exfalso. apply Hne. by rewrite Hid, Hid', <-Hto, <-Hto'. }
  pose proof (longestPrefixOf_spec path (art_reservedPrefixes candidate)) as Hspec.
  destruct (longestPrefixOf path (art_reservedPrefixes candidate)) as [y|]; [|exfalso; apply Hc, candidate_some; naive_solver].
  destruct Hspec as (Hiny & Huy & _). apply candidate_some in Hcomp as (_ & Hu & _). specialize (Hu y eq_refl).
  assert (Hnu : isUnder (ep_path (row e')) y = false).
  { destruct (isUnder (ep_path (row e')) y) eqn:E; [|done]. exfalso. apply Hc, candidate_some. split; [done|]. split; [|done]. by intros ? [= <-]. }
  destruct (compiled_rows _ _ _ compiled_after e Hin) as [_ Hpat], (compiled_rows _ _ _ compiled_after e' He') as [_ Hpat'].
  pose proof (compiled_prefixes _ _ _ compiled_after) as Hres. rewrite Forall_forall in Hres.
  apply Hres, reserved_prefix_segments in Hiny as (Ey & Hy0 & Hyok & Hlit).
  pose proof (pattern_canonical _ _ Hpat) as Hc1. pose proof (pattern_canonical _ _ Hpat') as Hc2.
  apply canonical_segments in Hc1 as (Er & _ & Hrok), Hc2 as (Er' & _ & Hrok'), Hcan as (Epath & _ & Hpok).
  rewrite Ey, Er in Hu. rewrite Ey, Epath in Huy. rewrite Ey, Er' in Hnu.
  apply isUnder_segments in Hu as (t & Ht & Et); [|done|by apply ok_split|intros; by apply ok_split].
  apply isUnder_segments in Huy as (more & Hmore & Emore); [|done|by apply ok_split|intros; by apply ok_split].
  apply (matchSegments_raw _ _ _ Hpat') in Hmatch as [Hf He]. apply pattern_text in Hpat as [Hs _], Hpat' as [Hs' Hw'].
  apply (under_more_specific _ _ _ _ (segmentsOf y) (segmentsOf path) Hs Hs'); [done|by exists t|by exists more|done|exact Hf| |].
  - unfold ends in He. destruct (open_ended _); [|done]. destruct He as [?|[_ Hz]]; [done|].
    change (splitPath path) with (segmentsOf path) in Hz. rewrite Emore, length_app in Hz. destruct more; [done|cbn in Hz; lia].
  - intros (t' & Ht' & E'). apply not_true_iff_false in Hnu. apply Hnu.
    apply isUnder_segments; [done|by apply ok_split|intros; by apply ok_split|]. by exists t'.
Qed.

(** Whoever the new table lets in, the old one did. *)
Lemma table_sound lines method path now params' : compareEndpoints baseline candidate before after = Some lines -> no_widening lines = true ->
  planEndpoint after method path = Endpoint now params' ->
  exists was params, planEndpoint before method path = Endpoint was params /\
    (forall t, row_admits now t = true -> row_admits was t = true) /\
    (e_id was = e_id now -> match e_input was, e_input now with
                            | Some s, Some s' => forall v, admits s' v = true -> admits s v = true
                            | None, None => True
                            | _, _ => False
                            end).
Proof.
  unfold compareEndpoints. destruct (compareKeyed _ _ _ _ _ _) as [keyed|] eqn:Hk; [|done]. cbn -[removedLines setLines]. intros [= <-].
  rewrite !no_widening_app, !andb_true_iff. intros (Hkeyed & Hremoved & Hprefixes) Hplan.
  pose proof (prefixes_sound _ _ Hprefixes) as Hpre.
  destruct (planEndpoint_cases _ _ _ method path compiled_after) as [[_ E]|[(_ & E & _)|(Hcan & e & ps & E & _ & Hbest)]]; [congruence|congruence|].
  rewrite Hplan in E. injection E as E _. symmetry in E. pose proof Hbest as (Hin & Hcomp & _).
  destruct (compiled_rows _ _ _ compiled_after e Hin) as [Hnow _]. rewrite E in Hnow.
  destruct (keyed_kept keyed now Hk Hkeyed Hnow) as (from & Hfrom & Hid & Hkept).
  destruct (kept_competes from now e method path Hfrom Hkept Hpre Hcan Hin E Hcomp) as (e0 & He0 & Erow0 & Eseg0 & Hc0).
  destruct (planEndpoint_cases _ _ _ method path compiled_before) as [[? _]|[(_ & _ & Hnone)|(_ & b & params & Hb & _ & Hbbest)]]; [congruence| |].
  { specialize (Hnone e0 He0). destruct Hc0 as [x Hx]. congruence. }
  exists (row b), params. split; [done|]. pose proof Hbbest as (Hbin & Hbc & Hball).
  destruct (compiled_rows _ _ _ compiled_before b Hbin) as [Hbrow _].
  destruct (Hball e0 He0 Hc0) as [E0|Hlt]; [subst e0; rewrite Erow0; by split; [apply Hkept|intros _; apply Hkept]|].
  assert (Hne : e_id (row b) <> e_id from).
  { intros Hsame. pose proof (compiled_ids _ _ _ compiled_before) as Hd.
    pose proof (endpoint_lookup _ _ Hd Hbrow) as L1. pose proof (endpoint_lookup _ _ Hd Hfrom) as L2. rewrite Hsame in L1.
    assert (Eb : row b = row e0) by congruence. destruct (compiled_rows _ _ _ compiled_before b Hbin) as [_ P1], (compiled_rows _ _ _ compiled_before e0 He0) as [_ P2].
    rewrite Eb, P2 in P1. injection P1 as P1. rewrite P1 in Hlt. rewrite (proj2 (cmp_zero _ _)) in Hlt; [lia|done]. }
  split; [|by intros Hsame; rewrite <-Hid in Hsame].
  destruct (lookup_field (e_id (row b)) (endpointMap (art_endpoints candidate))) as [to'|] eqn:Lt.
  - exfalso. apply lookup_endpoint in Lt as [Hto' Hid'].
    destruct (keyed_kept keyed to' Hk Hkeyed Hto') as (from' & Hfrom' & Hidf & Hkept').
    assert (from' = row b) as ->.
    { pose proof (compiled_ids _ _ _ compiled_before) as Hd. pose proof (endpoint_lookup _ _ Hd Hbrow) as L1. pose proof (endpoint_lookup _ _ Hd Hfrom') as L2.
      rewrite Hidf, Hid' in L2. congruence. }
    assert (Hrows : map row (table_endpoints after) = art_endpoints candidate).
    { pose proof compiled_after as Ha. unfold compileEndpointTable in Ha. destruct (analyse _ _) as [|cs] eqn:Ea; [done|]. injection Ha as <-. by apply analyse_ok in Ea as [? _]. }
    rewrite <-Hrows in Hto'. apply list_elem_of_fmap in Hto' as (e' & Ee' & He').
    assert (Eseg' : segments e' = segments b).
    { destruct (compiled_rows _ _ _ compiled_after e' He') as [_ P1], (compiled_rows _ _ _ compiled_before b Hbin) as [_ P2].
      rewrite <-Ee' in P1. cbn in P1, P2. rewrite <-(kept_path _ _ Hkept'), P2 in P1. by injection P1. }
    pose proof (kept_not_more_specific from (row b) now to' e b e' method path Hfrom Hkept Hcan Hbest E He' (eq_sym Ee') Eseg' Hkept' Hbc eq_refl Hne Hid Hidf) as Hlt'.
    rewrite Eseg' in Hlt'. rewrite cmp_antisym, Eseg0 in Hlt. lia.
  - intros t. pose proof (removed_sound _ _ _ _ _ Hremoved Hbrow Lt) as Hfate.
    assert (Hmethod : method = e_method (row b)).
    { apply candidate_some in Hbc as (Hs & _). apply method_of; [apply rows_ok, elem_of_app; by left|done]. }
    apply (admitsNoMoreThan_sound now (row b) candidate baseline t).
    + apply rows_ok, elem_of_app. by right.
    + apply rows_ok, elem_of_app. by left.
    + eapply (fallThrough_sound baseline candidate before after compiled_before compiled_after prefixes_served (row b) path params now params');
        [done|done|by rewrite <-Hmethod|by rewrite <-Hmethod].
Qed.

End Table.

(** ** The approval of an endpoint table *)

(** C8. A change of the endpoint table that shows no widening line opens nothing: every request the new table serves was
    served by the old one, and whatever caller, body and origin the row that answers now admits, the row that answered
    then admitted too; where the same endpoint still answers, it accepts no input it did not accept. So a release
    published without a human lets no request in that the approved one refused. The rows and tables are those a contract
    builds, and a reserved prefix covers some row of one of the two. *)
Theorem approval_sound `{NumberTextLaws} `{ZodChecks} (baseline candidate : ContractArtifact)
    (before after : CompiledEndpointTable EndpointRow) lines method path now params' :
  compileEndpointTable (art_endpoints baseline) (art_reservedPrefixes baseline) = inr before ->
  compileEndpointTable (art_endpoints candidate) (art_reservedPrefixes candidate) = inr after ->
  (forall x, x ∈ art_reservedPrefixes baseline ++ art_reservedPrefixes candidate ->
     exists row, row ∈ art_endpoints baseline ++ art_endpoints candidate /\ isUnder (e_path row) x = true) ->
  (forall row, row ∈ art_endpoints baseline ++ art_endpoints candidate -> row_ok row) ->
  (forall from to, from ∈ art_endpoints baseline -> to ∈ art_endpoints candidate -> e_id from = e_id to -> e_source from = e_source to) ->
  compareEndpoints baseline candidate before after = Some lines -> no_widening lines = true ->
  planEndpoint after method path = Endpoint now params' ->
  exists was params, planEndpoint before method path = Endpoint was params /\
    (forall t, row_admits now t = true -> row_admits was t = true) /\
    (e_id was = e_id now -> match e_input was, e_input now with
                            | Some s, Some s' => forall v, admits s' v = true -> admits s v = true
                            | None, None => True
                            | _, _ => False
                            end).
Proof. intros Hb Ha Hp Hok Hs. eapply table_sound; done. Qed.

(** ** Examples *)

Definition demo_mount_row (id kind method path : string) (callers : list string) (requirement : option Requirement) (input : option SchemaShape) : EndpointRow :=
  mkEndpointRow id (mkSource "mount" "web") kind method path callers requirement None input None None None None false.

Definition demo_note (callers : list string) (input : SchemaShape) : EndpointRow :=
  demo_mount_row "web.note" "command" "POST" "/api/note" callers (Some ReqMember) (Some input).
Definition demo_page : EndpointRow := demo_mount_row "page" "spa" "GET" "/docs/:page" ["human"] (Some ReqMember) None.
Definition demo_docs : EndpointRow := demo_mount_row "docs" "spa" "GET" "/docs/*" ["human"] (Some ReqMember) None.

Definition demo_baseline : ContractArtifact :=
  mkArtifact [] [("web", ("rpc", []))] [demo_note ["human"; "machine"] demo_from; demo_page; demo_docs] ["/api"].
Definition demo_candidate : ContractArtifact :=
  mkArtifact [] [("web", ("rpc", []))] [demo_docs; demo_note ["human"] demo_to] ["/api"].

Definition demo_compiled (artifact : ContractArtifact) : CompiledEndpointTable EndpointRow :=
  match compileEndpointTable (art_endpoints artifact) (art_reservedPrefixes artifact) with inr table => table | inl _ => mkTable [] [] end.

Lemma demo_rows_ok row : row ∈ art_endpoints demo_baseline ++ art_endpoints demo_candidate -> row_ok row.
Proof.
  intros Hin. assert (Hall : Forall row_ok (art_endpoints demo_baseline ++ art_endpoints demo_candidate)); [|by rewrite Forall_forall in Hall; apply Hall].
  repeat constructor; cbn; try (by left); try (by right); try done; try (intros c Hc; repeat (apply elem_of_cons in Hc as [->|Hc]; [done|]); by apply elem_of_nil in Hc);
    apply (bool_decide_unpack _); by vm_compute.
Qed.

Lemma demo_prefixes_served x : x ∈ art_reservedPrefixes demo_baseline ++ art_reservedPrefixes demo_candidate ->
  exists row, row ∈ art_endpoints demo_baseline ++ art_endpoints demo_candidate /\ isUnder (e_path row) x = true.
Proof.
  intros Hx. exists (demo_note ["human"; "machine"] demo_from). split; [by left|]. revert x Hx. apply Forall_forall. by repeat constructor.
Qed.

Lemma demo_sources from to : from ∈ art_endpoints demo_baseline -> to ∈ art_endpoints demo_candidate -> e_id from = e_id to -> e_source from = e_source to.
Proof.
  assert (Hs : forall row, row ∈ art_endpoints demo_baseline ++ art_endpoints demo_candidate -> e_source row = mkSource "mount" "web").
  { apply Forall_forall. by repeat constructor. }
  intros Hf Ht _. rewrite (Hs from), (Hs to); [done|apply elem_of_app; by right|apply elem_of_app; by left].
Qed.

Lemma approval_sound_witness :
  (exists lines, compareEndpoints demo_baseline demo_candidate (demo_compiled demo_baseline) (demo_compiled demo_candidate) = Some lines
     /\ no_widening lines = true)
  /\ exists was params, planEndpoint (demo_compiled demo_baseline) "GET" "/docs/intro" = Endpoint was params
     /\ (forall t, row_admits demo_docs t = true -> row_admits was t = true) /\ (e_id was = "docs" -> e_input was = None).
Proof.
  assert (E : exists lines, compareEndpoints demo_baseline demo_candidate (demo_compiled demo_baseline) (demo_compiled demo_candidate) = Some lines
     /\ no_widening lines = true) by (eexists; split; [vm_compute; reflexivity|by vm_compute]).
  split; [exact E|]. destruct E as (lines & Hl & Hn).
  destruct (approval_sound demo_baseline demo_candidate (demo_compiled demo_baseline) (demo_compiled demo_candidate) lines "GET" "/docs/intro" demo_docs [])
    as (was & params & Hplan & Hadm & Hin);
    [by vm_compute|by vm_compute|exact demo_prefixes_served|exact demo_rows_ok|exact demo_sources|exact Hl|exact Hn|by vm_compute|].
  exists was, params. split; [exact Hplan|]. split; [exact Hadm|]. intros Hid. specialize (Hin Hid). cbn in Hin.
  destruct (e_input was); [destruct Hin|reflexivity].
Defined.

(** A reserved prefix that covers no row, such as that of a mount without procedures, can hide the probes: the one fresh
    segment [probePaths] tries is [x], so with [/x] reserved the probe [/x/x] is denied on both sides, and a removed route that falls to a public one reads as denied. *)
Lemma empty_prefix_hides_widening :
  let page := demo_mount_row "page" "spa" "GET" "/:page/:part" ["human"] (Some ReqMember) None in
  let all := demo_mount_row "all" "public-spa" "GET" "/*" [] None None in
  let baseline := mkArtifact [] [] [page; all] ["/x"] in
  let candidate := mkArtifact [] [] [all] ["/x"] in
  let before := demo_compiled baseline in
  let after := demo_compiled candidate in
  planEndpoint before "GET" "/secret/plan" = Endpoint page [("page", "secret"); ("part", "plan")] /\
  planEndpoint after "GET" "/secret/plan" = Endpoint all [] /\
  row_admits page (mkAttempt None None SameOrigin) = false /\ row_admits all (mkAttempt None None SameOrigin) = true /\
  no_widening <$> compareEndpoints baseline candidate before after = Some true.
Proof. by vm_compute. Qed.
