(* ===== verification/JobLeases.v ===== *)
(** Job leases, kicks and wakes: the tables that decide which run of a job acts and when the next one starts
    ([db/src/job-leases.ts], [job-wakes.ts], the fence of [capability.ts], the object's alarm of
    [app/src/cloudflare/application.ts]).

    The three tables and the object's alarm are one record; a statement is one atomic step on it, and what throws in a
    transaction leaves nothing. A stored time is its microseconds, as Postgres keeps it; a wake's due time and the alarm are
    milliseconds. SQLite stores milliseconds only, so there every time is a multiple of 1000, and no row is ever locked.
    What a statement meets of the world around it, the clock and the rows other transactions hold, is a [Moment]. *)

From S2P Require Import Prelude.
From Stdlib Require Import ZArith Lia String Ascii.
From stdpp Require Import base tactics strings gmap list.

Open Scope Z_scope.

(** ** The tables *)

Inductive SqlDialect := Postgres | Sqlite.

Inductive JobOutcome := Succeeded | Failed.

(** A row of [fabrika_job_leases]. *)
Record JobLeaseState := mkLease {
  generation : Z; holder : option string; expiresAt : Z; attemptDeadline : Z; firstSeenAt : Z; lastStartedAt : option Z;
  lastFinishedAt : option Z; lastStatus : option JobOutcome; lastSucceededAt : option Z; lastDurationMs : option Z;
  lastMissedReportedAt : option Z;
}.

Record LeaseFence := mkFence { f_job : string; f_holder : string; f_generation : Z }.

Inductive WakeReason := Cron | Kick | Claim | Retry.

(** A row of [fabrika_wakes]. *)
Record Wake := mkWake { w_id : string; w_job : string; w_reason : WakeReason; dueAt : Z; attempt : Z; dedupe : option string; owned : bool }.

#[export] Instance reason_eq_dec : EqDecision WakeReason.
Proof. solve_decision. Defined.

#[export] Instance fence_eq_dec : EqDecision LeaseFence.
Proof. solve_decision. Defined.

#[export] Instance wake_eq_dec : EqDecision Wake.
Proof. solve_decision. Defined.

(** The tables, by their primary keys, and the alarm that commits with them on an object. *)
Record Tables := mkTables { leases : gmap string JobLeaseState; wakes : list Wake; kicks : gmap string bool; alarm : option Z }.

Definition with_leases (l : gmap string JobLeaseState) (t : Tables) : Tables := mkTables l (wakes t) (kicks t) (alarm t).
Definition with_wakes (w : list Wake) (t : Tables) : Tables := mkTables (leases t) w (kicks t) (alarm t).
Definition with_kicks (k : gmap string bool) (t : Tables) : Tables := mkTables (leases t) (wakes t) k (alarm t).
Definition with_alarm (a : option Z) (t : Tables) : Tables := mkTables (leases t) (wakes t) (kicks t) a.

Inductive StoreFailure := DatabaseError | QueryRefused (reason : string).

Definition op (A : Type) : Type := eff Tables StoreFailure A.

Definition refused {A} : op A := Eff.throw (QueryRefused "invalid_argument").

(** What a statement meets: [now()], the clock after it ([clock_timestamp()]), whether another transaction holds the job's
    lease row, and which wakes' rows one holds. *)
Record Moment := mkMoment { m_now : Z; m_clock : Z; lease_held : bool; wake_held : string -> bool }.

(** [runtime.projectWakes], in the transaction of every change. *)
Class Runtime := { projectWakes : Moment -> op unit }.

(** What the store relies on: the projection changes none of its tables. *)
Class RuntimeLaws `{Runtime} := {
  project_frame m t r t' : projectWakes m t = (r, t') -> leases t' = leases t /\ wakes t' = wakes t /\ kicks t' = kicks t;
}.

(** [floor(extract(epoch from t) * 1000)] *)
Definition epoch_ms (t : Z) : Z := t / 1000.

Definition MS : Z := 1000.

Section Store.
Context (dialect : SqlDialect) `{Runtime}.

(** An [INTEGER] column: 32 bits in Postgres, 64 in SQLite. *)
Definition integer_column (z : Z) : StoreFailure + Z :=
  let bound := match dialect with Postgres => 2 ^ 31 | Sqlite => 2 ^ 63 end in
  if (- bound <=? z) && (z <? bound) then inr z else inl DatabaseError.

(** [(extract(epoch from now() - last_started_at) * 1000)::int]; a cast to an integer rounds, half away from zero. *)
Definition run_ms (now started : Z) : Z :=
  let d := now - started in if 0 <=? d then (d + 500) / 1000 else - ((- d + 500) / 1000).

Definition last_duration (now : Z) (started : option Z) : StoreFailure + option Z :=
  match started with
  | None => inr None
  | Some started => match integer_column (run_ms now started) with inl e => inl e | inr ms => inr (Some ms) end
  end.

(** Whether a row another transaction holds is skipped ([skip locked]). *)
Definition skips (held : bool) : bool := match dialect with Postgres => held | Sqlite => false end.

(** ** The lease statements

    Each is an update of one row: [None] when its [where] does not hold. *)

Definition reap_row (now : Z) (l : JobLeaseState) : option (StoreFailure + JobLeaseState) :=
  if is_some (holder l) && (expiresAt l <=? now) then
    Some match last_duration now (lastStartedAt l) with
         | inl e => inl e
         | inr duration => inr (mkLease (generation l) None (expiresAt l) (attemptDeadline l) (firstSeenAt l) (lastStartedAt l) (Some now)
             (Some Failed) (lastSucceededAt l) duration (lastMissedReportedAt l))
         end
  else None.

(** What a taken or renewed lease becomes: a new generation for [by], until [expires]. *)
Definition hand (by_ : string) (expires deadline : Z) (started : option Z) (l : JobLeaseState) : StoreFailure + JobLeaseState :=
  match integer_column (generation l + 1) with
  | inl e => inl e
  | inr generation => inr (mkLease generation (Some by_) expires deadline (firstSeenAt l) started (lastFinishedAt l) (lastStatus l)
      (lastSucceededAt l) (lastDurationMs l) (lastMissedReportedAt l))
  end.

(** The update of [SQL_ACQUIRE]'s conflict, and [SQL_TRY_ACQUIRE]: of a free lease. *)
Definition acquire_row (by_ : string) (now leaseMs attemptMs : Z) (l : JobLeaseState) : option (StoreFailure + JobLeaseState) :=
  if is_some (holder l) then None else Some (hand by_ (now + leaseMs * MS) (now + attemptMs * MS) (Some now) l).

(** [where job = $1 and generation = $2 and holder = $3] *)
Definition holds (fence : LeaseFence) (l : JobLeaseState) : bool :=
  (generation l =? f_generation fence) && match holder l with Some h => (h =? f_holder fence)%string | None => false end.

Definition renew_row (fence : LeaseFence) (by_ : string) (now leaseMs attemptMs : Z) (l : JobLeaseState) : option (StoreFailure + JobLeaseState) :=
  if holds fence l && (now <? expiresAt l) then Some (hand by_ (now + leaseMs * MS) (now + attemptMs * MS) (lastStartedAt l) l) else None.

Definition finish_row (fence : LeaseFence) (outcome : JobOutcome) (now : Z) (l : JobLeaseState) : option (StoreFailure + JobLeaseState) :=
  if holds fence l then
    Some match last_duration now (lastStartedAt l) with
         | inl e => inl e
         | inr duration => inr (mkLease (generation l) None (expiresAt l) (attemptDeadline l) (firstSeenAt l) (lastStartedAt l) (Some now)
             (Some outcome) match outcome with Succeeded => Some now | Failed => lastSucceededAt l end duration (lastMissedReportedAt l))
         end
  else None.

Definition overdue_row (now periodMs : Z) (l : JobLeaseState) : option (StoreFailure + JobLeaseState) :=
  if (from_option id (firstSeenAt l) (lastSucceededAt l) <? now - 2 * periodMs * MS)
     && match lastMissedReportedAt l with None => true | Some reported => reported <=? now - periodMs * MS end
  then Some (inr (mkLease (generation l) (holder l) (expiresAt l) (attemptDeadline l) (firstSeenAt l) (lastStartedAt l) (lastFinishedAt l)
         (lastStatus l) (lastSucceededAt l) (lastDurationMs l) (Some now)))
  else None.

(** [update … where job = $1 and … returning …] *)
Definition update_lease (job : string) (row : JobLeaseState -> option (StoreFailure + JobLeaseState)) : op (option JobLeaseState) :=
  t ← Eff.get;
  match leases t !! job with
  | None => mret None
  | Some l =>
      match row l with
      | None => mret None
      | Some (inl e) => Eff.throw e
      | Some (inr l) => _ ← Eff.modify (with_leases (<[job := l]> (leases t))); mret (Some l)
      end
  end.

Definition new_lease (now : Z) : JobLeaseState := mkLease 0 None now now now None None None None None None.

Definition SQL_REGISTER (job : string) (m : Moment) : op unit :=
  Eff.modify (fun t => match leases t !! job with Some _ => t | None => with_leases (<[job := new_lease (m_now m)]> (leases t)) t end).

(** [insert … on conflict (job) do update … where holder is null] *)
Definition SQL_ACQUIRE (job by_ : string) (leaseMs attemptMs : Z) (m : Moment) : op (option JobLeaseState) :=
  t ← Eff.get;
  match leases t !! job with
  | Some _ => update_lease job (acquire_row by_ (m_now m) leaseMs attemptMs)
  | None =>
      let l := mkLease 1 (Some by_) (m_now m + leaseMs * MS) (m_now m + attemptMs * MS) (m_now m) (Some (m_now m)) None None None None None in
      _ ← Eff.modify (with_leases (<[job := l]> (leases t))); mret (Some l)
  end.

(** [with free as (… holder is null for update skip locked) update …] *)
Definition SQL_TRY_ACQUIRE (job by_ : string) (leaseMs attemptMs : Z) (m : Moment) : op (option JobLeaseState) :=
  if skips (lease_held m) then mret None else update_lease job (acquire_row by_ (m_now m) leaseMs attemptMs).

(** ** The wake statements *)

(** The start of the job's current run: [(select … last_started_at … where job = $1)]. *)
Definition run_start (job : string) (t : Tables) : option Z := l ← leases t !! job; epoch_ms <$> lastStartedAt l.

(** [update fabrika_wakes set … where p] *)
Definition update_wakes (p : Wake -> bool) (f : Wake -> Wake) (t : Tables) : Tables := with_wakes (map (fun w => if p w then f w else w) (wakes t)) t.

(** [delete from fabrika_wakes where p] *)
Definition delete_wakes (p : Wake -> bool) (t : Tables) : Tables := with_wakes (List.filter (fun w => negb (p w)) (wakes t)) t.

Definition of_job (job : string) (w : Wake) : bool := (w_job w =? job)%string.

Definition set_owned (o : bool) (w : Wake) : Wake := mkWake (w_id w) (w_job w) (w_reason w) (dueAt w) (attempt w) (dedupe w) o.

Definition set_due (due : Z) (w : Wake) : Wake := mkWake (w_id w) (w_job w) (w_reason w) due (attempt w) (dedupe w) (owned w).

Definition SQL_OWN (job : string) (m : Moment) : op unit :=
  Eff.modify (fun t => update_wakes (fun w => of_job job w && negb (skips (wake_held m (w_id w))))
    (fun w => set_owned match run_start job t with Some start => dueAt w <=? start | None => false end w) t).

Definition SQL_DISOWN (job : string) (m : Moment) : op unit :=
  Eff.modify (update_wakes (fun w => of_job job w && owned w && negb (skips (wake_held m (w_id w)))) (set_owned false)).

Definition SQL_CONSUME (job : string) : op unit := Eff.modify (delete_wakes (fun w => of_job job w && owned w)).

Definition SQL_RETRY (job : string) (at_ : Z) : op unit :=
  t ← Eff.get;
  if forallb (fun w => negb (of_job job w && owned w) || match integer_column (attempt w + 1) with inr _ => true | inl _ => false end) (wakes t)
  then Eff.modify (update_wakes (fun w => of_job job w && owned w)
         (fun w => mkWake (w_id w) (w_job w) (w_reason w) at_ (attempt w + 1) (dedupe w) false))
  else Eff.throw DatabaseError.

(** What a merge into a pending wake leaves of it. *)
Definition merged (due : Z) (reason : WakeReason) (w : Wake) : Wake :=
  set_owned (owned w && bool_decide (reason = Cron)) (set_due (Z.min (dueAt w) due) w).

(** The conflict of the unique index on [dedupe]. *)
Definition same_key (new w : Wake) : bool := is_some (dedupe new) && bool_decide (dedupe w = dedupe new).

(** [insert … on conflict (dedupe) where dedupe is not null do update … where job = excluded.job returning …]: the row that
    holds the wake, or none when another job holds its key. A key that is already an id's is refused by the table. *)
Definition SQL_SCHEDULE (new : Wake) : op (option Wake) :=
  t ← Eff.get;
  match List.find (same_key new) (wakes t) with
  | Some held =>
      if of_job (w_job new) held then
        _ ← Eff.modify (update_wakes (same_key new) (merged (dueAt new) (w_reason new))); mret (Some (merged (dueAt new) (w_reason new) held))
      else mret None
  | None =>
      if existsb (fun w => (w_id w =? w_id new)%string) (wakes t) then Eff.throw DatabaseError
      else _ ← Eff.modify (fun t => with_wakes (wakes t ++ [new]) t); mret (Some new)
  end.

(** [order by due_at, id] *)
Definition wake_before (a b : Wake) : bool := (dueAt a <? dueAt b) || (dueAt a =? dueAt b) && code_unit_le (w_id a) (w_id b).

Definition SQL_PENDING (job : string) (t : Tables) : list Wake := sort_by wake_before (List.filter (of_job job) (wakes t)).

(** Whether the lease [l.holder is null or l.expires_at <= clock_timestamp()] of a left join is free. *)
Definition lease_free (clock : Z) (l : option JobLeaseState) : bool :=
  match l with None => true | Some l => negb (is_some (holder l)) || (expiresAt l <=? clock) end.

Definition min_opt (a b : option Z) : option Z :=
  match a, b with Some a, Some b => Some (Z.min a b) | None, b => b | a, None => a end.

Definition min_of (l : list Z) : option Z := foldr (fun a => min_opt (Some a)) None l.

(** The two candidates of [SQL_NEXT]. *)
Definition next_wake (clock : Z) (t : Tables) : option Z :=
  min_of (map dueAt (List.filter (fun w => lease_free clock (leases t !! w_job w)) (wakes t))).

Definition next_held (t : Tables) : option Z :=
  epoch_ms <$> min_of (map (fun e => expiresAt e.2) (List.filter (fun e => is_some (holder e.2)) (map_to_list (leases t)))).

(** ** [JobWakes] *)

Record NewWake := mkNewWake { n_job : string; n_reason : WakeReason; n_due : option Z; n_dedupe : option string }.

(** [epochOf], [nonEmpty]: [None] is an invalid [Date]. *)
Definition epochOf (time : option Z) : StoreFailure + Z :=
  match time with Some time => inr time | None => inl (QueryRefused "invalid_argument") end.

Definition nonEmpty (s : string) : StoreFailure + string :=
  if (s =? "")%string then inl (QueryRefused "invalid_argument") else inr s.

(** [uuid] is [uuidv7()]. *)
Definition newWake (uuid : string) (wake : NewWake) : op Wake :=
  job ← Eff.lift (nonEmpty (n_job wake));
  due ← Eff.lift (epochOf (n_due wake));
  key ← match n_dedupe wake with None => mret None | Some key => key ← Eff.lift (nonEmpty key); mret (Some key) end;
  mret (mkWake uuid job (n_reason wake) due 0 key false).

Definition insert (new : Wake) : op Wake :=
  row ← SQL_SCHEDULE new;
  match row with Some row => mret row | None => refused end.

Definition schedule (uuid : string) (wake : NewWake) (m : Moment) : op Wake :=
  new ← newWake uuid wake;
  Eff.transaction (scheduled ← insert new; _ ← projectWakes m; mret scheduled).

Definition pending (job : string) : op (list Wake) := Eff.gets (SQL_PENDING job).

Definition next (m : Moment) (t : Tables) : option Z := min_opt (next_wake (m_clock m) t) (next_held t).

Definition untilNext (m : Moment) (t : Tables) : option Z := (fun n => n - epoch_ms (m_clock m)) <$> next m t.

(** [order by job] *)
Definition expiredHolders (m : Moment) (t : Tables) : list string :=
  sort_by code_unit_le (map fst (List.filter (fun e => is_some (holder e.2) && (expiresAt e.2 <=? m_clock m)) (map_to_list (leases t)))).

Record DeclaredJob := mkDeclared { d_job : string; d_expression : string }.

Definition cronKey (job expression : string) : string := "cron:" +:+ job +:+ ":" +:+ expression.

(** The [where not exists] of [SQL_RECONCILE]. *)
Definition undeclared (declared : list DeclaredJob) (w : Wake) : bool :=
  negb (existsb (fun d => (d_job d =? w_job w)%string
    && (negb (bool_decide (w_reason w = Cron)) || bool_decide (dedupe w = Some (cronKey (d_job d) (d_expression d))))) declared).

Definition reconcile (declared : list DeclaredJob) (m : Moment) : op Z :=
  _ ← if existsb (fun d => (d_job d =? "")%string || (d_expression d =? "")%string) declared then refused else mret tt;
  Eff.transaction (
    removed ← Eff.gets (fun t => List.filter (undeclared declared) (wakes t));
    _ ← Eff.modify (delete_wakes (undeclared declared));
    _ ← projectWakes m;
    mret (Z.of_nat (length removed))).

Definition hastened (ids : list string) (m : Moment) (w : Wake) : bool := Js.elem (w_id w) ids && (epoch_ms (m_now m) <? dueAt w).

(** Outside production, which refuses it. *)
Definition hasten (ids : list string) (m : Moment) : op Z :=
  _ ← if Js.elem "" ids then refused else mret tt;
  Eff.transaction (
    moved ← Eff.gets (fun t => List.filter (hastened ids m) (wakes t));
    _ ← Eff.modify (update_wakes (hastened ids m) (set_due (epoch_ms (m_now m))));
    _ ← projectWakes m;
    mret (Z.of_nat (length moved))).

(** ** What a finish does with its wakes *)

Inductive FinishWakes :=
| Completed (nextCron : option (string * option Z))
| RetryAt (at_ : option Z).

(** [finishWakes]: an instruction checked, with the default filled in; [None] leaves the wakes. *)
Definition finishWakes (outcome : JobOutcome) (instruction : option FinishWakes) : StoreFailure + option FinishWakes :=
  match instruction with
  | None => inr match outcome with Succeeded => Some (Completed None) | Failed => None end
  | Some (RetryAt at_) =>
      match outcome with
      | Succeeded => inl (QueryRefused "invalid_argument")
      | Failed => match epochOf at_ with inl e => inl e | inr _ => inr (Some (RetryAt at_)) end
      end
  | Some (Completed None) => inr (Some (Completed None))
  | Some (Completed (Some (expression, due))) =>
      match nonEmpty expression, epochOf due with
      | inl e, _ => inl e
      | _, inl e => inl e
      | inr _, inr _ => inr (Some (Completed (Some (expression, due))))
      end
  end.

Inductive LeaseChange := Reaped | Acquired | Renewed | Finished (instruction : option FinishWakes).

(** [uuid] names the cron wake a finish schedules. *)
Definition leaseProjection (uuid job : string) (change : LeaseChange) (m : Moment) : op unit :=
  _ ← match change with Acquired => SQL_OWN job m | _ => mret tt end;
  _ ← match change with
      | Finished (Some (RetryAt at_)) => at_ ← Eff.lift (epochOf at_); SQL_RETRY job at_
      | Finished (Some (Completed nextCron)) =>
          _ ← SQL_CONSUME job;
          match nextCron with
          | None => mret tt
          | Some (expression, due) => new ← newWake uuid (mkNewWake job Cron due (Some (cronKey job expression))); _ ← insert new; mret tt
          end
      | _ => mret tt
      end;
  _ ← match change with Finished _ | Reaped => SQL_DISOWN job m | _ => mret tt end;
  projectWakes m.

(** ** [JobLeases] *)

(** A lease statement and, when it changed the lease, its projection, in one transaction. *)
Definition changing (statement : op (option JobLeaseState)) (uuid job : string) (change : LeaseChange) (m : Moment) : op (option JobLeaseState) :=
  Eff.transaction (
    found ← statement;
    _ ← match found with Some _ => leaseProjection uuid job change m | None => mret tt end;
    mret found).

Definition milliseconds (value : Z) : StoreFailure + Z :=
  if negb (isSafeInteger value) || (value <? 1) then inl (QueryRefused "invalid_argument") else inr value.

Definition fenceOf (job by_ : string) (row : option JobLeaseState) : op (option LeaseFence) :=
  match row with
  | None => mret None
  | Some l => if isSafeInteger (generation l) then mret (Some (mkFence job by_ (generation l))) else Eff.throw (QueryRefused "unexpected_row")
  end.

Definition register (job : string) (m : Moment) : op unit := SQL_REGISTER job m.

Definition reapCrashed (job : string) (m : Moment) : op bool :=
  found ← changing (update_lease job (reap_row (m_now m))) "" job Reaped m; mret (is_some found).

Definition acquire (job by_ : string) (attemptMs leaseMs : Z) (m : Moment) : op (option LeaseFence) :=
  leaseMs ← Eff.lift (milliseconds leaseMs);
  attemptMs ← Eff.lift (milliseconds attemptMs);
  row ← changing (SQL_ACQUIRE job by_ leaseMs attemptMs m) "" job Acquired m;
  fenceOf job by_ row.

Definition tryAcquire (job by_ : string) (attemptMs leaseMs : Z) (m : Moment) : op (option LeaseFence) :=
  leaseMs ← Eff.lift (milliseconds leaseMs);
  attemptMs ← Eff.lift (milliseconds attemptMs);
  row ← changing (SQL_TRY_ACQUIRE job by_ leaseMs attemptMs m) "" job Acquired m;
  fenceOf job by_ row.

Definition renew (fence : LeaseFence) (by_ : string) (attemptMs leaseMs : Z) (m : Moment) : op (option LeaseFence) :=
  leaseMs ← Eff.lift (milliseconds leaseMs);
  attemptMs ← Eff.lift (milliseconds attemptMs);
  row ← changing (update_lease (f_job fence) (renew_row fence by_ (m_now m) leaseMs attemptMs)) "" (f_job fence) Renewed m;
  fenceOf (f_job fence) by_ row.

Definition finish (uuid : string) (fence : LeaseFence) (outcome : JobOutcome) (instruction : option FinishWakes) (m : Moment) : op bool :=
  instruction ← Eff.lift (finishWakes outcome instruction);
  found ← changing (update_lease (f_job fence) (finish_row fence outcome (m_now m))) uuid (f_job fence) (Finished instruction) m;
  mret (is_some found).

Definition markPending (job : string) : op unit := Eff.modify (fun t => with_kicks (<[job := true]> (kicks t)) t).

Definition takePending (job : string) : op bool :=
  t ← Eff.get;
  match kicks t !! job with
  | Some true => _ ← Eff.modify (with_kicks (<[job := false]> (kicks t))); mret true
  | _ => mret false
  end.

(** The claim: when the job last succeeded, and when it was first seen. *)
Definition claimOverdue (job : string) (periodMs : Z) (m : Moment) : op (option (option Z * Z)) :=
  periodMs ← Eff.lift (milliseconds periodMs);
  row ← update_lease job (overdue_row (m_now m) periodMs);
  mret ((fun l => (lastSucceededAt l, firstSeenAt l)) <$> row).

Definition state (job : string) : op (option JobLeaseState) := Eff.gets (fun t => leases t !! job).

(** [SQL_STILL_HELD]: whether the attempt may write. *)
Definition still_held (fence : LeaseFence) (clock : Z) (t : Tables) : bool :=
  match leases t !! f_job fence with Some l => holds fence l && (clock <? attemptDeadline l) | None => false end.

(** What a read leaves on the row it answers: [for share] keeps every other transaction from changing it until the reader's
    transaction ends. *)
Inductive RowLock := ForShare | Unlocked.

(** [SQL_FENCE]: the same check, which on Postgres locks the row it answers. *)
Definition SQL_FENCE (fence : LeaseFence) (clock : Z) (t : Tables) : option RowLock :=
  if still_held fence clock t then Some match dialect with Postgres => ForShare | Sqlite => Unlocked end else None.

(** ** The claim wake of an attempt *)

Definition claimKey (job : string) : string := "claim:" +:+ job.

(** Each attempt's earliest re-arm so far, by the job and generation of its fence. *)
Definition Rearms : Type := gmap (string * Z) (option Z).

Definition earliest_rearm (earlier candidate : option Z) : option Z :=
  match earlier, candidate with None, _ => candidate | Some _, None => earlier | Some earlier, Some candidate => Some (Z.min earlier candidate) end.

(** [rearmClaim]: what the process remembers of the attempt, and the statements, in the claim's transaction. [due] is a
    [Date], or [null]. *)
Definition rearmClaim (uuid : string) (rearms : Rearms) (fence : LeaseFence) (due : option (option Z)) (m : Moment) : Rearms * op unit :=
  match match due with None => inr None | Some time => match epochOf time with inl e => inl e | inr time => inr (Some time) end end with
  | inl e => (rearms, Eff.throw e)
  | inr candidate =>
      let job := f_job fence in
      let due := earliest_rearm (mjoin (rearms !! (job, f_generation fence))) candidate in
      (<[(job, f_generation fence) := due]> rearms,
       _ ← Eff.modify (delete_wakes (fun w => of_job job w && bool_decide (dedupe w = Some (claimKey job))));
       _ ← match due with
           | None => mret tt
           | Some due => new ← newWake uuid (mkNewWake job Claim (Some due) (Some (claimKey job))); _ ← insert new; mret tt
           end;
       projectWakes m)
  end.

End Store.

(** ** The runtimes *)

(** A data layer without a projection. *)
Definition no_projection : Runtime := {| projectWakes := fun _ => mret tt |}.

(** [armAlarm] *)
Definition armAlarm (at_ : option Z) : op unit := Eff.modify (with_alarm at_).

(** The Cloudflare object's: the alarm armed at the next wake, in the same transaction. *)
Definition object_runtime : Runtime := {| projectWakes := fun m => t ← Eff.get; armAlarm (next m t) |}.

(** ** Calls

    What any process may ask of the tables, and what they hold after a history of such calls. *)

Inductive Call :=
| CRegister (job : string)
| CReap (job : string)
| CAcquire (job by_ : string) (attemptMs leaseMs : Z)
| CTryAcquire (job by_ : string) (attemptMs leaseMs : Z)
| CRenew (fence : LeaseFence) (by_ : string) (attemptMs leaseMs : Z)
| CFinish (uuid : string) (fence : LeaseFence) (outcome : JobOutcome) (instruction : option FinishWakes)
| CMarkPending (job : string)
| CTakePending (job : string)
| CClaimOverdue (job : string) (periodMs : Z)
| CSchedule (uuid : string) (wake : NewWake)
| CReconcile (declared : list DeclaredJob)
| CHasten (ids : list string)
| CRearm (uuid : string) (rearms : Rearms) (fence : LeaseFence) (due : option (option Z)).

Section Calls.
Context (dialect : SqlDialect) `{Runtime}.

(** The fence a call hands out, if it does. *)
Definition perform (m : Moment) (c : Call) : op (option LeaseFence) :=
  match c with
  | CRegister job => _ ← register job m; mret None
  | CReap job => _ ← reapCrashed dialect job m; mret None
  | CAcquire job by_ attemptMs leaseMs => acquire dialect job by_ attemptMs leaseMs m
  | CTryAcquire job by_ attemptMs leaseMs => tryAcquire dialect job by_ attemptMs leaseMs m
  | CRenew fence by_ attemptMs leaseMs => renew dialect fence by_ attemptMs leaseMs m
  | CFinish uuid fence outcome instruction => _ ← finish dialect uuid fence outcome instruction m; mret None
  | CMarkPending job => _ ← markPending job; mret None
  | CTakePending job => _ ← takePending job; mret None
  | CClaimOverdue job periodMs => _ ← claimOverdue job periodMs m; mret None
  | CSchedule uuid wake => _ ← schedule uuid wake m; mret None
  | CReconcile declared => _ ← reconcile declared m; mret None
  | CHasten ids => _ ← hasten ids m; mret None
  | CRearm uuid rearms fence due => _ ← Eff.transaction (rearmClaim uuid rearms fence due m).2; mret None
  end.

Definition after (history : list (Moment * Call)) (t : Tables) : Tables := foldl (fun t call => (perform call.1 call.2 t).2) t history.

End Calls.

(** ** A wake is pending until a run that took it finishes *)

(** [w'] is what has become of [w]: the same unit of work, due no later, and nobody's. *)
Definition same_unit (w w' : Wake) : Prop :=
  w_id w' = w_id w /\ w_job w' = w_job w /\ w_reason w' = w_reason w /\ dedupe w' = dedupe w /\ dueAt w' <= dueAt w /\ owned w' = false.

Definition still_pending (w : Wake) (t : Tables) : Prop := exists w', w' ∈ wakes t /\ same_unit w w'.

(** The calls that may take a pending wake away: a run of its job that starts and then owns it, a claim's re-arm of the same
    key, and the contract's own wakes being dropped. *)
Definition leaves_wake (w : Wake) (c : Call) : Prop :=
  match c with
  | CAcquire job _ _ _ | CTryAcquire job _ _ _ => job <> w_job w
  | CReconcile declared => undeclared declared w = false
  | CRearm _ _ fence _ => f_job fence = w_job w -> dedupe w <> Some (claimKey (w_job w))
  | _ => True
  end.

Section Wakes.
Context (dialect : SqlDialect) `{RuntimeLaws}.

Lemma pending_wakes w t t' : wakes t' = wakes t -> still_pending w t -> still_pending w t'.
Proof. intros E (w' & ? & ?). exists w'. by rewrite E. Qed.

Lemma pending_update p f w t :
  (forall w', same_unit w w' -> p w' = true -> same_unit w (f w')) -> still_pending w t -> still_pending w (update_wakes p f t).
Proof.
  intros Hf (w' & Hin & Hs). exists (if p w' then f w' else w'). split.
  - cbn. apply list_elem_of_fmap. by exists w'.
  - destruct (p w') eqn:Ep; auto.
Qed.

Lemma pending_delete p w t : (forall w', same_unit w w' -> p w' = false) -> still_pending w t -> still_pending w (delete_wakes p t).
Proof. intros Hp (w' & Hin & Hs). exists w'. split; [|done]. cbn. apply list_elem_of_In, filter_In. split; [by apply list_elem_of_In|]. by rewrite Hp. Qed.

Lemma pending_projects w m : Eff.keeps (still_pending w) (projectWakes m).
Proof. intros t Ht. destruct (projectWakes m t) as [r t'] eqn:E. apply project_frame in E as (_ & E & _). by apply (pending_wakes w t). Qed.

#[local] Hint Resolve pending_projects : eff.

Lemma pending_leases w job row : Eff.keeps (still_pending w) (update_lease job row).
Proof. unfold update_lease. by keeps_auto. Qed.

Lemma pending_insert w new : Eff.keeps (still_pending w) (insert new).
Proof.
  unfold insert, SQL_SCHEDULE. keeps_auto.
  - apply pending_update; [|done]. intros w' (? & ? & ? & ? & ? & Ho) _. unfold same_unit. cbn. rewrite Ho. split_and!; try done. lia.
  - destruct H1 as (w' & ? & ?). exists w'. split; [|done]. cbn. apply elem_of_app. by left.
Qed.

#[local] Hint Resolve pending_leases pending_insert : eff.

Lemma same_unit_owned w w' : same_unit w w' -> owned w' = false.
Proof. by intros (_ & _ & _ & _ & _ & ?). Qed.

Lemma same_unit_job w w' : same_unit w w' -> w_job w' = w_job w.
Proof. by intros (_ & ? & _). Qed.

Lemma pending_newWake w uuid wake : Eff.keeps (still_pending w) (newWake uuid wake).
Proof. unfold newWake. by keeps_auto. Qed.

#[local] Hint Resolve pending_newWake : eff.

Lemma pending_projection w uuid job change m :
  (change = Acquired -> job <> w_job w) -> Eff.keeps (still_pending w) (leaseProjection dialect uuid job change m).
Proof.
  intros Hj. unfold leaseProjection, SQL_OWN, SQL_DISOWN, SQL_CONSUME, SQL_RETRY, refused.
  assert (Hmine : forall w', same_unit w w' -> of_job job w' && owned w' = false) by (intros w' Hs; rewrite (same_unit_owned w w' Hs); apply andb_false_r).
  keeps_auto.
  all: first [apply pending_delete; [|done]; exact Hmine | apply pending_update; [|done]; intros w' Hs Hp].
  - destruct (Hj eq_refl). apply andb_true_iff in Hp as [Hp _]. apply String.eqb_eq in Hp. rewrite <-Hp. by apply same_unit_job.
  - by rewrite Hmine in Hp.
  - by rewrite Hmine in Hp.
  - by rewrite Hmine in Hp.
Qed.

Lemma pending_changing w statement uuid job change m :
  (change = Acquired -> job <> w_job w) -> Eff.keeps (still_pending w) statement -> Eff.keeps (still_pending w) (changing dialect statement uuid job change m).
Proof. intros Hj Hs. unfold changing. keeps_auto. by apply pending_projection. Qed.

Lemma pending_perform w m c : leaves_wake w c -> Eff.keeps (still_pending w) (perform dialect m c).
Proof.
  intros Hc. unfold perform. destruct c; cbn in Hc.
  all: unfold register, SQL_REGISTER, reapCrashed, acquire, tryAcquire, renew, finish, markPending, takePending, claimOverdue, schedule, reconcile, hasten, SQL_ACQUIRE,
    SQL_TRY_ACQUIRE, refused, fenceOf.
  all: keeps_auto; try (apply pending_changing; [by intros|keeps_auto]); try done.
  all: try (by destruct (leases _ !! _)).
  - apply pending_delete; [|done]. intros w' (_ & Ej & Er & Ed & _). rewrite <-Hc. unfold undeclared. by rewrite Ej, Er, Ed.
  - apply pending_update; [|done]. intros w' (? & ? & ? & ? & ? & ?) Hp. apply andb_true_iff in Hp as [_ Hp%Z.ltb_lt]. unfold same_unit. cbn. split_and!; try done. lia.
  - unfold rearmClaim. destruct (match due with None => _ | Some _ => _ end) as [e|candidate]; [by apply keeps_throw|]. cbn [snd]. keeps_auto.
    apply pending_delete; [|done]. intros w' (_ & Ej & _ & Ed & _). apply not_true_iff_false. intros [Hj%String.eqb_eq Hd%bool_decide_eq_true]%andb_true_iff.
    rewrite Ej in Hj. rewrite Ed, <-Hj in Hd. by apply Hc; [|rewrite Hj in Hd |- *].
Qed.

Lemma pending_after w history t :
  Forall (fun call => leaves_wake w call.2) history -> still_pending w t -> still_pending w (after dialect history t).
Proof.
  revert t. induction history as [|[m c] history IH]; intros t Hh Ht; [done|]. apply Forall_cons in Hh as [Hc Hh]. apply (IH _ Hh). by apply pending_perform.
Qed.

End Wakes.

(** *** Scheduling *)

Section Scheduling.
Context (dialect : SqlDialect) `{RuntimeLaws}.

(** What a scheduled row is to the wake asked for. *)
Definition holds_wake (new row : Wake) : Prop :=
  w_job row = w_job new /\ dedupe row = dedupe new /\ dueAt row <= dueAt new /\ (owned row = true -> owned new = true \/ w_reason new = Cron).

Lemma insert_inr new row t t' :
  insert new t = (inr row, t') ->
  row ∈ wakes t' /\ holds_wake new row /\ leases t' = leases t /\ kicks t' = kicks t /\ alarm t' = alarm t.
Proof.
  unfold insert. intros E. apply eff_bind_inr in E as (found & t1 & E & Er). destruct found as [row'|]; [|done]. injection Er as -> ->.
  unfold SQL_SCHEDULE, mbind, eff_bind, Eff.get in E. cbn in E. destruct (List.find (same_key new) (wakes t)) as [held|] eqn:Ef.
  - apply find_some in Ef as [Hin Hk]. destruct (of_job (w_job new) held) eqn:Ej; [|done]. cbn in E. injection E as <- <-. unfold same_key in Hk.
    apply andb_true_iff in Hk as [Hk Hd%bool_decide_eq_true]. split_and!; [|apply String.eqb_eq in Ej; split_and!; cbn; [done|done|lia|]|done|done|done].
    + cbn. apply list_elem_of_fmap. exists held. split; [|by apply list_elem_of_In]. unfold same_key. by rewrite Hk, bool_decide_eq_true_2.
    + intros [_ Hr%bool_decide_eq_true]%andb_true_iff. by right.
  - destruct (existsb _ _); [done|]. cbn in E. injection E as <- <-. cbn. split_and!; try done; [|split_and!; try done; auto]. apply elem_of_app. right. by apply list_elem_of_singleton.
Qed.

Lemma newWake_inr uuid wake new t t' :
  newWake uuid wake t = (inr new, t') ->
  t' = t /\ w_id new = uuid /\ w_job new = n_job wake /\ n_due wake = Some (dueAt new) /\ w_reason new = n_reason wake /\ dedupe new = n_dedupe wake /\ owned new = false
  /\ attempt new = 0 /\ n_job wake <> "".
Proof.
  unfold newWake. intros E. apply eff_bind_inr in E as (job & t1 & [Ej ->]%lift_inr & E). apply eff_bind_inr in E as (due & t1 & [Ed ->]%lift_inr & E).
  apply eff_bind_inr in E as (key & t1 & Ek & [= <- <-]). unfold nonEmpty in Ej. destruct (n_job wake =? "")%string eqn:Hj; [done|]. injection Ej as <-.
  unfold epochOf in Ed. destruct (n_due wake) as [d|]; [|done]. injection Ed as <-. apply String.eqb_neq in Hj. cbn.
  destruct (n_dedupe wake) as [k|]; [|by injection Ek as <- <-]. apply eff_bind_inr in Ek as (k' & t2 & [Ek ->]%lift_inr & [= <- <-]).
  unfold nonEmpty in Ek. destruct (k =? "")%string; [done|]. by injection Ek as <-.
Qed.

Lemma schedule_inr uuid wake m w t t' :
  schedule uuid wake m t = (inr w, t') ->
  w ∈ wakes t' /\ w_job w = n_job wake /\ dedupe w = n_dedupe wake /\ (exists due, n_due wake = Some due /\ dueAt w <= due) /\ (owned w = true -> n_reason wake = Cron)
  /\ leases t' = leases t /\ kicks t' = kicks t.
Proof.
  unfold schedule. intros E. apply eff_bind_inr in E as (new & t1 & (-> & _ & Ej & Ed & Er & Ek & Eo & _)%newWake_inr & E). apply transaction_inr in E.
  apply eff_bind_inr in E as (row & t1 & Ei & E). apply eff_bind_inr in E as (? & t2 & (Hl & Hw & Hk)%project_frame & [= <- <-]).
  apply insert_inr in Ei as (Hin & (Hj & Hd & Hdue & Ho) & Hl' & Hk' & _). rewrite Hw, Hl, Hk, Hj, Hd. split_and!; try done.
  - by exists (dueAt new).
  - intros Hr. rewrite <-Er. destruct (Ho Hr) as [?|?]; congruence.
Qed.

(** A scheduled wake that no run owns stays pending, due no later, through whatever any process asks of the tables,
    until a run of its job starts after it: the finish of a run that was already going neither consumes nor postpones it.
    (The exceptions are the calls that replace it: the contract dropping the job, and the claim's own re-arm of its key.) *)
Theorem wake_outlives_finish uuid wake m w t t' history :
  schedule uuid wake m t = (inr w, t') -> n_reason wake <> Cron \/ owned w = false -> Forall (fun call => leaves_wake w call.2) history ->
  exists w' due, w' ∈ wakes (after dialect history t') /\ w_id w' = w_id w /\ w_job w' = n_job wake /\ n_due wake = Some due /\ dueAt w' <= due /\ owned w' = false.
Proof.
  intros (Hin & Hj & _ & (due & Hd & Hle) & Ho & _)%schedule_inr Hr Hh.
  assert (Hf : owned w = false) by (destruct Hr as [Hr|Hr]; [|done]; apply not_true_iff_false; intros Hw; by apply Hr, Ho).
  destruct (pending_after dialect w history t') as (w' & Hin' & Hs); [done|exists w; split_and!; try done; unfold same_unit; split_and!; try done; lia|].
  exists w', due. destruct Hs as (? & Hj' & _ & _ & Hle' & ?). split_and!; [done|done|congruence|done|lia|done].
Qed.

End Scheduling.

(** ** The object's alarm *)

(** The alarm is set, and fires no later than each pending wake is due (or, while a run holds its job's lease, than that
    lease expires), and no later than each held lease expires. *)
Definition armed (t : Tables) : Prop :=
  (forall w, w ∈ wakes t -> exists a, alarm t = Some a /\
     (a <= dueAt w \/ exists l, leases t !! w_job w = Some l /\ holder l <> None /\ a <= epoch_ms (expiresAt l))) /\
  (forall job l, leases t !! job = Some l -> holder l <> None -> exists a, alarm t = Some a /\ a <= epoch_ms (expiresAt l)).

Section Alarm.
Context (dialect : SqlDialect).

#[local] Existing Instance object_runtime.

#[export] Instance object_laws : @RuntimeLaws object_runtime.
Proof. split. intros m t r t' E. cbn in E. by injection E as <- <-. Qed.

#[export] Instance no_projection_laws : @RuntimeLaws no_projection.
Proof. split. intros m t r t' E. cbn in E. by injection E as <- <-. Qed.

Lemma min_opt_le a b x : (a = Some x \/ b = Some x) -> exists y, min_opt a b = Some y /\ y <= x.
Proof. intros [->| ->]; [destruct b as [b|]|destruct a as [a|]]; cbn; eexists; split; try done; lia. Qed.

Lemma min_of_le l x : x ∈ l -> exists y, min_of l = Some y /\ y <= x.
Proof.
  induction l as [|a l IH]; [by intros ?%elem_of_nil|]. intros [->|Hin]%elem_of_cons; cbn [min_of foldr]; [apply min_opt_le; by left|].
  destruct (IH Hin) as (y & Ey & Hy). destruct (min_opt_le (Some a) (min_of l) y) as (z & Ez & Hz); [by right|]. exists z. split; [done|lia].
Qed.

Lemma next_held_le t job l : leases t !! job = Some l -> holder l <> None -> exists y, next_held t = Some y /\ y <= epoch_ms (expiresAt l).
Proof.
  intros Hl Hh. unfold next_held. destruct (min_of_le (map (fun e => expiresAt e.2) (List.filter (fun e : string * JobLeaseState => is_some (holder e.2)) (map_to_list (leases t)))) (expiresAt l)) as (y & -> & Hy).
  - apply list_elem_of_fmap. exists (job, l). split; [done|]. apply list_elem_of_In, filter_In. split; [by apply list_elem_of_In, elem_of_map_to_list|]. cbn. by destruct (holder l).
  - exists (epoch_ms y). split; [done|]. by apply Z.div_le_mono.
Qed.

Lemma next_wake_le clock t w : w ∈ wakes t -> lease_free clock (leases t !! w_job w) = true -> exists y, next_wake clock t = Some y /\ y <= dueAt w.
Proof.
  intros Hw Hf. apply min_of_le. apply list_elem_of_fmap. exists w. split; [done|]. apply list_elem_of_In, filter_In. split; [by apply list_elem_of_In|done].
Qed.

(** The alarm armed at [next] is early enough, whatever the clock. *)
Lemma next_armed m t : armed (with_alarm (next m t) t).
Proof.
  split; cbn.
  - intros w Hw. unfold next. destruct (lease_free (m_clock m) (leases t !! w_job w)) eqn:Ef.
    + destruct (next_wake_le _ t w Hw Ef) as (y & Ey & Hy). destruct (min_opt_le (next_wake (m_clock m) t) (next_held t) y) as (z & -> & Hz); [by left|].
      exists z. split; [done|]. left. lia.
    + unfold lease_free in Ef. destruct (leases t !! w_job w) as [l|] eqn:El; [|done]. apply orb_false_iff in Ef as [Eh _].
      assert (Hh : holder l <> None) by (by destruct (holder l)). destruct (next_held_le t _ l El Hh) as (y & Ey & Hy).
      destruct (min_opt_le (next_wake (m_clock m) t) (next_held t) y) as (z & -> & Hz); [by right|]. exists z. split; [done|]. right. exists l. split_and!; [done|done|lia].
  - intros job l El Hh. destruct (next_held_le t _ l El Hh) as (y & Ey & Hy). unfold next.
    destruct (min_opt_le (next_wake (m_clock m) t) (next_held t) y) as (z & -> & Hz); [by right|]. exists z. split; [done|lia].
Qed.

(** [ends I o]: whatever the state, where [o] returns, [I] holds. *)
Definition ends {A} (I : Tables -> Prop) (o : op A) : Prop := forall t a t', o t = (inr a, t') -> I t'.

Lemma ends_project m : ends armed (projectWakes m).
Proof. intros t a t' [= <- <-]. apply next_armed. Qed.

Lemma ends_bind {A B} I (o : op A) (f : A -> op B) : (forall a, ends I (f a)) -> ends I (o ≫= f).
Proof. intros Hf t b t' E. apply eff_bind_inr in E as (a & t1 & _ & E). by eapply Hf. Qed.

Lemma ends_ret {A B} I (o : op A) (b : B) : ends I o -> ends I (o ≫= fun _ => mret b).
Proof. intros Ho t b' t' E. apply eff_bind_inr in E as (a & t1 & E & [= _ <-]). by eapply Ho. Qed.

Lemma armed_transaction {A} (o : op A) : ends armed o -> Eff.keeps armed (Eff.transaction o).
Proof. intros Ho t Ht. unfold Eff.transaction. destruct (o t) as [[e|a] t'] eqn:E; [done|]. by eapply Ho. Qed.

Lemma armed_changing statement uuid job change m :
  (forall t t', statement t = (inr None, t') -> t' = t) -> Eff.keeps armed (changing dialect statement uuid job change m).
Proof.
  intros Hs t Ht. destruct (changing dialect statement uuid job change m t) as [[e|a] t'] eqn:E; unfold changing in E; [by apply transaction_inl in E as [-> _]|].
  apply transaction_inr in E. cbn.
  apply eff_bind_inr in E as (found & t1 & E1 & E). destruct found as [l|]; [|apply Hs in E1 as ->; by injection E as _ <-].
  apply eff_bind_inr in E as ([] & t2 & E & [= _ <-]). revert E. apply ends_bind. intros _. apply ends_bind. intros _. apply ends_bind. intros _. apply ends_project.
Qed.

Lemma update_lease_none job row t t' : update_lease job row t = (inr None, t') -> t' = t.
Proof. unfold update_lease, mbind, eff_bind, Eff.get. cbn. destruct (leases t !! job) as [l|]; [destruct (row l) as [[e|l']|]|]; by intros [=]. Qed.

Lemma armed_same t t' :
  wakes t' = wakes t -> alarm t' = alarm t ->
  (forall job l', leases t' !! job = Some l' -> holder l' <> None -> exists l, leases t !! job = Some l /\ holder l <> None /\ expiresAt l = expiresAt l') ->
  (forall job l, leases t !! job = Some l -> holder l <> None -> exists l', leases t' !! job = Some l' /\ holder l' <> None /\ expiresAt l' = expiresAt l) ->
  armed t -> armed t'.
Proof.
  intros Ew Ea Hb Hf [Hw Hl]. split; rewrite ?Ew, ?Ea.
  - intros w Hin. destruct (Hw w Hin) as (a & Ha & [?|(l & El & Eh & ?)]); exists a; split; auto. right. destruct (Hf _ l El Eh) as (l' & ? & ? & Ee). exists l'. by rewrite Ee.
  - intros job l' El' Eh'. destruct (Hb job l' El' Eh') as (l & El & Eh & Ee). destruct (Hl job l El Eh) as (a & ? & ?). exists a. by rewrite <-Ee.
Qed.

Lemma newWake_keeps I uuid wake : Eff.keeps I (newWake uuid wake).
Proof. unfold newWake. by keeps_auto. Qed.

Lemma armed_register job m : Eff.keeps armed (register job m).
Proof.
  intros t Ht. cbn. destruct (leases t !! job) as [l|] eqn:El; [done|]. revert Ht. apply armed_same; [done|done|..]; cbn.
  - intros job' l'. destruct (decide (job = job')) as [<-|?]; [rewrite lookup_insert_eq; by intros [= <-]|]. rewrite lookup_insert_ne by done. by exists l'.
  - intros job' l' El'. exists l'. by rewrite lookup_insert_ne by congruence.
Qed.

Lemma armed_overdue job periodMs m : Eff.keeps armed (claimOverdue job periodMs m).
Proof.
  unfold claimOverdue. keeps_auto. intros t Ht. unfold update_lease, mbind, eff_bind, Eff.get. cbn. destruct (leases t !! job) as [l|] eqn:El; [|done].
  unfold overdue_row. destruct (_ && _); [|done]. cbn. revert Ht. apply armed_same; [done|done|..]; cbn; intros job' l'; destruct (decide (job = job')) as [<-|?].
  - rewrite lookup_insert_eq. intros [= <-] Hh. by exists l.
  - rewrite lookup_insert_ne by done. by exists l'.
  - rewrite El. intros [= ->] Hh. rewrite lookup_insert_eq. eexists. split; [done|]. done.
  - intros Hl Hh. rewrite lookup_insert_ne by done. by exists l'.
Qed.

#[local] Hint Resolve newWake_keeps armed_register armed_overdue ends_project ends_ret : eff.

(** Every statement that changes a wake or a lease ends by arming the alarm, in its own transaction. *)
Lemma armed_perform m c : Eff.keeps armed (perform dialect m c).
Proof.
  destruct c; unfold perform, reapCrashed, acquire, tryAcquire, renew, finish, markPending, takePending, schedule, reconcile, hasten, refused, fenceOf.
  all: repeat first [solve [eauto 3 with eff] | apply armed_changing | match goal with |- Eff.keeps _ (Eff.transaction _) => apply armed_transaction end | keeps_step].
  all: try by (apply update_lease_none).
  - unfold SQL_ACQUIRE. intros t t'. unfold mbind, eff_bind, Eff.get. cbn. destruct (leases t !! job); [apply update_lease_none|]. by intros [=].
  - unfold SQL_TRY_ACQUIRE. intros t t'. destruct (skips _ _); [by intros [= <-]|]. apply update_lease_none.
  - apply ends_bind. intros ?. eauto with eff.
  - apply ends_bind. intros ?. apply ends_bind. intros ?. eauto with eff.
  - apply ends_bind. intros ?. apply ends_bind. intros ?. eauto with eff.
  - unfold rearmClaim. destruct (match due with None => _ | Some _ => _ end) as [e|candidate]; [by intros ? ? ?|]. cbn [snd].
    apply ends_bind. intros ?. apply ends_bind. intros ?. eauto with eff.
Qed.

Lemma after_armed history : armed (after dialect history (mkTables ∅ [] ∅ None)).
Proof.
  assert (H0 : armed (mkTables ∅ [] ∅ None)) by (split; [intros w Hw; by apply elem_of_nil in Hw|intros job l Hl; cbn in Hl; by rewrite lookup_empty in Hl]).
  revert H0. generalize (mkTables ∅ [] ∅ None). induction history as [|[m c] history IH]; intros t Ht; [done|]. apply IH. by apply armed_perform.
Qed.

(** However calls of any processes interleave, and whatever their clocks, the object's alarm is armed: it fires no
    later than any pending wake is due (while a run holds the wake's job, no later than that lease expires), and a run that
    crashes leaves a lease whose expiry it fires by. So no pending work waits without an alarm. *)
Theorem alarm_never_late history : armed (after dialect history (mkTables ∅ [] ∅ None)).
Proof. apply after_armed. Qed.

End Alarm.

(** ** The fence *)

(** A lease never goes back: its generation grows whenever it is handed on, and under one generation the only change of
    holder is to none. *)
Definition advances (l l' : JobLeaseState) : Prop :=
  generation l < generation l' \/ (generation l' = generation l /\ (holder l' = holder l \/ holder l' = None)).

Definition leases_advance (t t' : Tables) : Prop :=
  forall job l, leases t !! job = Some l -> exists l', leases t' !! job = Some l' /\ advances l l'.

(** The lease [fence] was handed with. *)
Definition handed_by (fence : LeaseFence) (t t' : Tables) : Prop :=
  exists l', leases t' !! f_job fence = Some l' /\ holds fence l' = true /\ forall l, leases t !! f_job fence = Some l -> generation l < generation l'.

Section Fencing.
Context (dialect : SqlDialect) `{RuntimeLaws}.

Lemma advances_refl l : advances l l.
Proof. right. auto. Qed.

Lemma leases_advance_same t t' : leases t' = leases t -> leases_advance t t'.
Proof. intros E job l Hl. exists l. rewrite E. split; [done|]. apply advances_refl. Qed.

Lemma leases_advance_insert t t' job l' :
  leases t' = <[job := l']> (leases t) -> (forall l, leases t !! job = Some l -> advances l l') -> leases_advance t t'.
Proof.
  intros E Ha job' l Hl. rewrite E. destruct (decide (job = job')) as [<-|Hne].
  - exists l'. rewrite lookup_insert_eq. auto.
  - exists l. rewrite lookup_insert_ne by done. split; [done|]. apply advances_refl.
Qed.

Lemma project_leases L m : Eff.keeps (fun t => leases t = L) (projectWakes m).
Proof. intros t Ht. destruct (projectWakes m t) as [r t'] eqn:E. apply project_frame in E as (E & _). cbn. congruence. Qed.

#[local] Hint Resolve project_leases : eff.

Lemma projection_leases L uuid job change m : Eff.keeps (fun t => leases t = L) (leaseProjection dialect uuid job change m).
Proof. unfold leaseProjection, SQL_OWN, SQL_DISOWN, SQL_CONSUME, SQL_RETRY, insert, SQL_SCHEDULE, newWake, refused. by keeps_auto. Qed.

(** A lease statement's transaction answers as the statement does, and leaves the leases as it does. *)
Lemma changing_leases statement uuid job change m t r t' :
  changing dialect statement uuid job change m t = (r, t') ->
  (exists e, r = inl e /\ t' = t) \/ exists found t1, r = inr found /\ statement t = (inr found, t1) /\ leases t' = leases t1.
Proof.
  unfold changing. intros E. destruct r as [e|found]; [apply transaction_inl in E as [-> _]; left; by exists e|]. apply transaction_inr in E.
  apply eff_bind_inr in E as (found' & t1 & Es & E). apply eff_bind_inr in E as ([] & t2 & E & [= <- <-]). right. exists found', t1. split_and!; [done|done|].
  destruct found' as [l|]; [|by injection E as <-]. pose proof (projection_leases (leases t1) uuid job change m t1 eq_refl) as Hp. rewrite E in Hp. exact Hp.
Qed.

Lemma update_lease_cases job row t r t' :
  update_lease job row t = (r, t') ->
  (t' = t /\ (r = inr None \/ exists e, r = inl e)) \/
  exists l l', leases t !! job = Some l /\ row l = Some (inr l') /\ r = inr (Some l') /\ t' = with_leases (<[job := l']> (leases t)) t.
Proof.
  unfold update_lease, mbind, eff_bind, Eff.get. cbn. destruct (leases t !! job) as [l|] eqn:El; [|intros [= <- <-]; left; auto].
  destruct (row l) as [[e|l']|] eqn:Er; cbn; intros [= <- <-]; [left; split; [done|]; right; by exists e| |left; auto]. right. exists l, l'. done.
Qed.

Lemma hand_inr by_ expires deadline started l l' :
  hand dialect by_ expires deadline started l = inr l' -> generation l' = generation l + 1 /\ holder l' = Some by_ /\ expiresAt l' = expires
    /\ attemptDeadline l' = deadline /\ lastStartedAt l' = started.
Proof. unfold hand. destruct (integer_column dialect (generation l + 1)) as [e|g] eqn:Eg; [done|]. unfold integer_column in Eg. destruct (_ && _); [|done]. injection Eg as <-. by intros [= <-]. Qed.

(** What each lease statement does to a row. *)
Lemma reap_row_inr now l l' : reap_row dialect now l = Some (inr l') -> generation l' = generation l /\ holder l' = None /\ holder l <> None /\ expiresAt l <= now.
Proof.
  unfold reap_row. destruct (holder l); [|done]. destruct (expiresAt l <=? now) eqn:E; [|done]. apply Z.leb_le in E. cbn. destruct (last_duration _ _ _); [done|]. by intros [= <-].
Qed.

Lemma acquire_row_inr by_ now leaseMs attemptMs l l' :
  acquire_row dialect by_ now leaseMs attemptMs l = Some (inr l') ->
  holder l = None /\ generation l' = generation l + 1 /\ holder l' = Some by_ /\ expiresAt l' = now + leaseMs * MS /\ lastStartedAt l' = Some now.
Proof. unfold acquire_row. destruct (holder l); [done|]. cbn. intros [= E%hand_inr]. tauto. Qed.

Lemma renew_row_inr fence by_ now leaseMs attemptMs l l' :
  renew_row dialect fence by_ now leaseMs attemptMs l = Some (inr l') -> holds fence l = true /\ generation l' = generation l + 1 /\ holder l' = Some by_.
Proof. unfold renew_row. destruct (holds fence l); [|done]. destruct (now <? expiresAt l); [|done]. cbn. intros [= E%hand_inr]. tauto. Qed.

Lemma finish_row_inr fence outcome now l l' :
  finish_row dialect fence outcome now l = Some (inr l') -> holds fence l = true /\ generation l' = generation l /\ holder l' = None.
Proof. unfold finish_row. destruct (holds fence l); [|done]. destruct (last_duration _ _ _); [done|]. by intros [= <-]. Qed.

Lemma overdue_row_inr now periodMs l l' : overdue_row now periodMs l = Some (inr l') -> generation l' = generation l /\ holder l' = holder l.
Proof. unfold overdue_row. destruct (_ && _); [|done]. by intros [= <-]. Qed.

Lemma holds_spec fence l : holds fence l = true <-> generation l = f_generation fence /\ holder l = Some (f_holder fence).
Proof.
  unfold holds. rewrite andb_true_iff, Z.eqb_eq. destruct (holder l) as [h|]; [|by split; intros [? ?]]. rewrite String.eqb_eq. split; intros [? ?]; split; congruence.
Qed.

Lemma fenceOf_inr job by_ found t f t' :
  fenceOf job by_ found t = (inr (Some f), t') -> t' = t /\ exists l, found = Some l /\ f = mkFence job by_ (generation l).
Proof. unfold fenceOf. destruct found as [l|]; [|done]. destruct (isSafeInteger _); [|done]. intros [= <- <-]. split; [done|]. by exists l. Qed.

Lemma fenceOf_state job by_ found t : (fenceOf job by_ found t).2 = t.
Proof. unfold fenceOf. destruct found as [l|]; [|done]. by destruct (isSafeInteger _). Qed.

(** A statement that hands the lease of [job] to [by_], or leaves the leases. *)
Definition hands (statement : op (option JobLeaseState)) (job by_ : string) : Prop :=
  forall t r t', statement t = (r, t') -> (leases t' = leases t /\ (r = inr None \/ exists e, r = inl e)) \/
    exists l', r = inr (Some l') /\ leases t' = <[job := l']> (leases t) /\ holder l' = Some by_ /\ forall l, leases t !! job = Some l -> generation l < generation l'.

Lemma hands_update job by_ row :
  (forall l l', row l = Some (inr l') -> generation l' = generation l + 1 /\ holder l' = Some by_) -> hands (update_lease job row) job by_.
Proof.
  intros Hr t r t' [[-> ?]|(l & l' & El & Er & -> & ->)]%update_lease_cases; [by left|]. destruct (Hr _ _ Er) as [Hg Hh]. right. exists l'. split_and!; [done|done|done|].
  intros l0. rewrite El. intros [= <-]. lia.
Qed.

Lemma hands_acquire job by_ leaseMs attemptMs m : hands (SQL_ACQUIRE dialect job by_ leaseMs attemptMs m) job by_.
Proof.
  intros t r t' E. unfold SQL_ACQUIRE, mbind, eff_bind, Eff.get in E. cbn in E. destruct (leases t !! job) as [l|] eqn:El.
  - rewrite <-El. refine (hands_update job by_ _ _ t r t' E). intros l1 l2 (? & ? & ? & _)%acquire_row_inr. done.
  - cbn in E. injection E as <- <-. right. eexists. split_and!; [done|done|done|]. congruence.
Qed.

(** A hand-out with its checks and its fence. *)
Lemma hands_fence statement job by_ change m t r t' :
  hands statement job by_ ->
  (row ← changing dialect statement "" job change m; fenceOf job by_ row) t = (r, t') ->
  leases_advance t t' /\ forall f, r = inr (Some f) -> handed_by f t t'.
Proof.
  intros Hs E. unfold mbind, eff_bind in E. destruct (changing dialect statement "" job change m t) as [r1 t1] eqn:Ec.
  apply changing_leases in Ec as [(e & -> & ->)|(found & t2 & -> & Est & El)].
  - injection E as <- <-. split; [by apply leases_advance_same|done].
  - assert (t' = t1) as -> by (pose proof (fenceOf_state job by_ found t1) as Hf; by rewrite E in Hf).
    apply Hs in Est as [(Ht & [[= ->]|(e & [=])])|(l' & [= ->] & Ht & Hh & Hg)].
    + split; [apply leases_advance_same; congruence|]. intros f ->. by apply fenceOf_inr in E as (_ & l & [=] & _).
    + split.
      * eapply leases_advance_insert; [by rewrite El|]. intros l Hl. left. by apply Hg.
      * intros f ->. apply fenceOf_inr in E as (_ & l & [= <-] & ->). exists l'. cbn. rewrite El, Ht, lookup_insert_eq. split_and!; [done| |done].
        apply holds_spec. by cbn.
Qed.

Lemma lift_step {A B} (v : StoreFailure + A) (f : A -> op B) t r t' :
  (Eff.lift v ≫= f) t = (r, t') -> (exists e, r = inl e /\ t' = t) \/ exists a, v = inr a /\ f a t = (r, t').
Proof. unfold mbind, eff_bind. destruct v as [e|a]; cbn; [intros [= <- <-]; left; by exists e|]. intros E. right. by exists a. Qed.

(** A lease statement that hands nothing out. *)
Lemma changing_advances job row uuid change m t r t' :
  (forall l l', row l = Some (inr l') -> advances l l') -> changing dialect (update_lease job row) uuid job change m t = (r, t') -> leases_advance t t'.
Proof.
  intros Hr [(e & -> & ->)|(found & t1 & -> & Es & El)]%changing_leases; [by apply leases_advance_same|].
  apply update_lease_cases in Es as [[-> _]|(l & l' & Hl & Er & _ & ->)]; [by apply leases_advance_same|]. apply (leases_advance_insert t t' job l'); [done|].
  intros l0. rewrite Hl. intros [= <-]. by apply Hr.
Qed.

Lemma discard {A} (o : op A) t (r : StoreFailure + option LeaseFence) t' :
  (_ ← o; mret None) t = (r, t') -> exists r1, o t = (r1, t') /\ forall f, r <> inr (Some f).
Proof. unfold mbind, eff_bind. destruct (o t) as [[e|a] t1]; cbn; intros [= <- <-]; eauto. Qed.

Lemma bind_state {A B} (o : op A) (f : A -> B) t r t' : (a ← o; mret (f a)) t = (r, t') -> exists r1, o t = (r1, t').
Proof. unfold mbind, eff_bind. destruct (o t) as [[e|a] t1]; cbn; intros [= _ <-]; eauto. Qed.

Lemma keeps_leases_advance {A} (o : op A) t r t' : Eff.keeps (fun s => leases s = leases t) o -> o t = (r, t') -> leases_advance t t'.
Proof. intros Hk E. pose proof (Hk t eq_refl) as Hl. rewrite E in Hl. by apply leases_advance_same. Qed.

(** What every call does to the leases. *)
Lemma perform_leases m c t r t' :
  perform dialect m c t = (r, t') -> leases_advance t t' /\ forall f, r = inr (Some f) -> handed_by f t t'.
Proof.
  destruct c as [job|job|job by_ attemptMs leaseMs|job by_ attemptMs leaseMs|fence by_ attemptMs leaseMs|uuid fence outcome instruction|job|job|job periodMs|uuid wake|declared|ids|uuid rearms fence due];
    cbn [perform]; intros E.
  3: unfold acquire in E. 4: unfold tryAcquire in E. 5: unfold renew in E.
  3-5: apply lift_step in E as [(e & -> & ->)|(ms & _ & E)]; [split; [by apply leases_advance_same|done]|];
    apply lift_step in E as [(e & -> & ->)|(ms' & _ & E)]; [split; [by apply leases_advance_same|done]|]; revert E; apply hands_fence.
  3: apply hands_acquire.
  3: { unfold SQL_TRY_ACQUIRE. destruct (skips _ _); [intros t1 r1 t2 [= <- <-]; left; auto|]. apply hands_update. intros l1 l2 (? & ? & ? & _)%acquire_row_inr. done. }
  3: { apply hands_update. by intros l1 l2 (_ & ? & ?)%renew_row_inr. }
  all: apply discard in E as (r1 & E & Hn); split; [|by intros f Hf; destruct (Hn f)]; clear Hn r.
  - cbn in E. injection E as _ <-. destruct (leases t !! job) eqn:El; [by apply leases_advance_same|]. eapply leases_advance_insert; [done|]. congruence.
  - unfold reapCrashed in E. apply bind_state in E as (r2 & E). revert E. apply changing_advances. intros l l' (? & ? & _)%reap_row_inr. right. auto.
  - unfold finish in E. apply lift_step in E as [(e & _ & ->)|(i & _ & E)]; [by apply leases_advance_same|]. apply bind_state in E as (r2 & E).
    revert E. apply changing_advances. intros l l' (_ & ? & ?)%finish_row_inr. right. auto.
  - revert E. apply keeps_leases_advance. unfold markPending. by keeps_auto.
  - revert E. apply keeps_leases_advance. unfold takePending. by keeps_auto.
  - unfold claimOverdue in E. apply lift_step in E as [(e & _ & ->)|(i & _ & E)]; [by apply leases_advance_same|]. apply bind_state in E as (r2 & E).
    apply update_lease_cases in E as [[-> _]|(l & l' & Hl & Er & _ & ->)]; [by apply leases_advance_same|]. apply (leases_advance_insert t _ job l'); [done|].
    intros l0. rewrite Hl. intros [= <-]. apply overdue_row_inr in Er as [? ?]. right. auto.
  - revert E. apply keeps_leases_advance. unfold schedule, newWake, insert, SQL_SCHEDULE, refused. by keeps_auto.
  - revert E. apply keeps_leases_advance. unfold reconcile, refused. by keeps_auto.
  - revert E. apply keeps_leases_advance. unfold hasten, refused. by keeps_auto.
  - revert E. apply keeps_leases_advance. apply keeps_transaction. unfold rearmClaim. destruct (match due with None => _ | Some _ => _ end); cbn [snd]; [by apply keeps_throw|].
    unfold newWake, insert, SQL_SCHEDULE, refused. by keeps_auto.
Qed.

(** *** Fenced transactions

    [fencedTransaction] reads the lease when it begins ([SQL_FENCE]), does its work, reads the lease again
    ([SQL_STILL_HELD]) and commits: four steps, and other processes run between any two of them. What holds a takeover off
    meanwhile is the database: on Postgres the lock the first read took, until the transaction ends; an object's SQLite lets
    no other event in while a transaction is open. [refuseEnded] refuses an attempt the runner ended, before the work and
    after it. *)

(** How far a fenced transaction is: at its work, past the [refuseEnded] that follows it, past the second check, which
    answered at [clock]. *)
Inductive Phase := Working | Worked | Checked (clock : Z).

(** An open fenced transaction, with the lock it holds on its lease's row. *)
Record Attempt := mkAttempt { a_fence : LeaseFence; a_lock : RowLock; a_phase : Phase }.

Record World := mkWorld { tables : Tables; opened : list Attempt; ended : list LeaseFence }.

(** What is seen of a step: a lease handed to an attempt, and the writes of an attempt committed, whose second check answered
    at [clock], a time of the database's. *)
Inductive Event := Handed (fence : LeaseFence) | Committed (fence : LeaseFence) (clock : Z) | Silent.

Definition answered (r : StoreFailure + option LeaseFence) : Event := match r with inr (Some fence) => Handed fence | _ => Silent end.

(** Whether the open transactions let another one begin here: on SQLite none may be open. *)
Definition lets_in (open : list Attempt) : Prop := match dialect with Postgres => True | Sqlite => open = [] end.

(** Whether they let a call of another transaction change the tables so: not a row that one of them has locked. A call whose
    statement waits for the lock is one that happens after it. *)
Definition lets_change (open : list Attempt) (t t' : Tables) : Prop :=
  forall a, a ∈ open -> a_lock a = ForShare -> leases t' !! f_job (a_fence a) = leases t !! f_job (a_fence a).

Inductive step : World -> Event -> World -> Prop :=
| step_call m c w r t' :
    lets_in (opened w) -> perform dialect m c (tables w) = (r, t') -> lets_change (opened w) (tables w) t' ->
    step w (answered r) (mkWorld t' (opened w) (ended w))
| step_begin fence clock lock w :
    lets_in (opened w) -> SQL_FENCE dialect fence clock (tables w) = Some lock -> fence ∉ ended w ->
    step w Silent (mkWorld (tables w) (mkAttempt fence lock Working :: opened w) (ended w))
| step_work fence lock w before_ after_ :
    opened w = before_ ++ mkAttempt fence lock Working :: after_ -> fence ∉ ended w ->
    step w Silent (mkWorld (tables w) (before_ ++ mkAttempt fence lock Worked :: after_) (ended w))
| step_check fence clock lock w before_ after_ :
    opened w = before_ ++ mkAttempt fence lock Worked :: after_ -> still_held fence clock (tables w) = true ->
    step w Silent (mkWorld (tables w) (before_ ++ mkAttempt fence lock (Checked clock) :: after_) (ended w))
| step_commit fence clock lock w before_ after_ t' :
    opened w = before_ ++ mkAttempt fence lock (Checked clock) :: after_ -> leases t' = leases (tables w) ->
    step w (Committed fence clock) (mkWorld t' (before_ ++ after_) (ended w))
| step_rollback a w before_ after_ :
    opened w = before_ ++ a :: after_ -> step w Silent (mkWorld (tables w) (before_ ++ after_) (ended w))
| step_end fence w : step w Silent (mkWorld (tables w) (opened w) (fence :: ended w)).

(** The events of a history, oldest first. *)
Inductive history_of : World -> list Event -> World -> Prop :=
| history_nil w : history_of w [] w
| history_step w e w1 es w2 : step w e w1 -> history_of w1 es w2 -> history_of w (e :: es) w2.

(** What a hand-out leaves true for ever: the lease is under that fence, or has been released, or is of a later generation. *)
Definition at_least (fence : LeaseFence) (t : Tables) : Prop :=
  exists l, leases t !! f_job fence = Some l /\
    (f_generation fence < generation l \/ (generation l = f_generation fence /\ (holder l = Some (f_holder fence) \/ holder l = None))).

Lemma at_least_advance fence t t' : leases_advance t t' -> at_least fence t -> at_least fence t'.
Proof.
  intros Ha (l & El & Hl). destruct (Ha _ _ El) as (l' & El' & Hl'). exists l'. split; [done|].
  destruct Hl' as [?|[Hg [Hh|Hh]]]; destruct Hl as [?|[Hg' [Hh'|Hh']]]; try (left; lia); right; rewrite Hg, Hh; auto.
Qed.

Lemma step_advances w e w' : step w e w' -> leases_advance (tables w) (tables w').
Proof. destruct 1 as [? ? ? ? ? _ E _| | | | | |]; cbn; try (by apply leases_advance_same). by apply perform_leases in E as [? _]. Qed.

Lemma handed_at_least fence t t' : handed_by fence t t' -> at_least fence t'.
Proof. intros (l & El & [? ?]%holds_spec & _). exists l. split; [done|]. right. auto. Qed.

Lemma step_handed w fence w' : step w (Handed fence) w' -> at_least fence (tables w').
Proof.
  intros Hs. inversion Hs as [m c w0 r t' _ E _ Hw He| | | | | |]; subst. cbn. apply perform_leases in E as [_ Hf].
  destruct r as [?|[f|]]; cbn in He; [done| |done]. injection He as <-. by eapply handed_at_least, Hf.
Qed.

(** What the second check found still holds, for as long as the transaction is open: this is what the lock is for. *)
Definition check_stands (t : Tables) (a : Attempt) : Prop :=
  (dialect = Postgres -> a_lock a = ForShare) /\ forall clock, a_phase a = Checked clock -> still_held (a_fence a) clock t = true.

Definition checks_stand (w : World) : Prop := Forall (check_stands (tables w)) (opened w).

Lemma check_stands_same t t' a : leases t' !! f_job (a_fence a) = leases t !! f_job (a_fence a) -> check_stands t a -> check_stands t' a.
Proof. intros E [Hl Hc]. split; [done|]. intros clock Ha. unfold still_held. rewrite E. by apply Hc. Qed.

Lemma step_stands w e w' : checks_stand w -> step w e w' -> checks_stand w'.
Proof.
  unfold checks_stand. intros Hw Hs.
  destruct Hs as [m c w r t' Hin _ Hch|fence clock lock w _ Hf _|fence lock w b a Eo _|fence clock lock w b a Eo Hh|fence clock lock w b a t' Eo El|a0 w b a Eo|fence w]; cbn.
  - apply Forall_forall. intros a Ha. eapply Forall_forall in Hw; [|exact Ha]. apply (check_stands_same (tables w)); [|done].
    apply (Hch a Ha). unfold lets_in in Hin. destruct dialect eqn:Ed; [by apply Hw|]. rewrite Hin in Ha. by apply elem_of_nil in Ha.
  - constructor; [|done]. split; [|done]. intros ->. unfold SQL_FENCE in Hf. cbn. destruct (still_held _ _ _); [by injection Hf as <-|done].
  - rewrite Eo in Hw. apply Forall_app in Hw as [Hb [[Hl _] Ha]%Forall_cons]. apply Forall_app. split; [done|]. by constructor.
  - rewrite Eo in Hw. apply Forall_app in Hw as [Hb [[Hl _] Ha]%Forall_cons]. apply Forall_app. split; [done|]. constructor; [|done]. split; [done|]. by intros ? [= <-].
  - rewrite Eo in Hw. apply Forall_app in Hw as [Hb [_ Ha]%Forall_cons].
    apply (Forall_impl _ _ _ (proj2 (Forall_app _ _ _) (conj Hb Ha))). intros a1. by apply check_stands_same; rewrite El.
  - rewrite Eo in Hw. apply Forall_app in Hw as [Hb [_ Ha]%Forall_cons]. by apply Forall_app.
  - done.
Qed.

Lemma history_stands w es w' : history_of w es w' -> checks_stand w -> checks_stand w'.
Proof. induction 1 as [|w e w1 es w2 Hs _ IH]; [done|]. intros Hw. by eapply IH, step_stands. Qed.

Lemma step_committed w fence clock w' :
  checks_stand w -> step w (Committed fence clock) w' ->
  exists l, leases (tables w) !! f_job fence = Some l /\ generation l = f_generation fence /\ holder l = Some (f_holder fence) /\ clock < attemptDeadline l.
Proof.
  intros Hw Hs. inversion Hs as [m c w0 r t' _ E _ Hw0 He| | | |f c lock w0 b a t' Ef El| |]; subst; [by destruct r as [?|[?|]]|].
  unfold checks_stand in Hw. rewrite Ef in Hw. apply Forall_app in Hw as [_ [[_ Hh] _]%Forall_cons]. specialize (Hh clock eq_refl). unfold still_held in Hh. cbn in Hh.
  destruct (leases (tables w) !! f_job fence) as [l|]; [|done]. apply andb_true_iff in Hh as [[? ?]%holds_spec ?%Z.ltb_lt]. by exists l.
Qed.

Lemma committed_later w es w' fence fence' clock :
  history_of w es w' -> checks_stand w -> at_least fence (tables w) -> Committed fence' clock ∈ es -> f_job fence' = f_job fence ->
  f_generation fence <= f_generation fence' /\ (f_generation fence' = f_generation fence -> fence' = fence).
Proof.
  intros Hh. induction Hh as [w|w e w1 es w2 Hs Hh IH]; intros Hw Ha Hin Hj; [by apply elem_of_nil in Hin|]. apply elem_of_cons in Hin as [<-|Hin].
  - apply step_committed in Hs as (l & El & Hg & Ho & _); [|done]. destruct Ha as (l' & El' & Hl). rewrite <-Hj, El in El'. injection El' as <-. rewrite Hg, Ho in Hl.
    split; [lia|]. intros Heq. destruct Hl as [?|[_ [?|?]]]; [lia| |done]. destruct fence, fence'; cbn in *. congruence.
  - apply IH; [by eapply step_stands| |done|done]. by eapply at_least_advance, Ha; eapply step_advances.
Qed.

Lemma history_app w es1 es2 w' : history_of w (es1 ++ es2) w' -> exists w1, history_of w es1 w1 /\ history_of w1 es2 w'.
Proof.
  revert w. induction es1 as [|e es1 IH]; intros w Hh; [exists w; split; [constructor|done]|].
  inversion Hh as [|w0 e0 w1 es0 w2 Hs Hh1]; subst. destruct (IH w1 Hh1) as (w3 & ? & ?). exists w3. split; [|done]. by econstructor.
Qed.

(** C22. Once an attempt has been handed a job's lease, no other attempt's writes commit that were fenced by the same or an
    earlier generation of it, in whatever order calls, the four steps of every fenced transaction and processes interleave.
    When an attempt's writes commit, the lease is still its own, under the generation it was handed, although its last check
    of it came earlier; and that check came before the attempt's deadline, by the database's clock. *)
Theorem no_stale_commit w before_ fence between fence' clock after_ w' :
  opened w = [] -> history_of w (before_ ++ Handed fence :: between ++ Committed fence' clock :: after_) w' -> f_job fence' = f_job fence ->
  f_generation fence <= f_generation fence' /\ (f_generation fence' = f_generation fence -> fence' = fence) /\
  exists w1 l, history_of w (before_ ++ Handed fence :: between) w1 /\ leases (tables w1) !! f_job fence = Some l /\
    generation l = f_generation fence' /\ holder l = Some (f_holder fence') /\ clock < attemptDeadline l.
Proof.
  intros Ho Hh Hj. assert (Hw : checks_stand w) by (unfold checks_stand; by rewrite Ho).
  pose proof Hh as Hh'. apply history_app in Hh as (w1 & H1 & Hh). inversion Hh as [|w0 e0 w2 es0 w3 Hs Hh2]; subst.
  assert (Hw2 : checks_stand w2) by (by eapply step_stands, Hs; eapply history_stands).
  destruct (committed_later w2 _ w' fence fence' clock Hh2 Hw2 (step_handed _ _ _ Hs)) as [Hle Heq]; [apply elem_of_app; right; by left|done|].
  split_and!; [done|done|]. rewrite app_comm_cons, app_assoc in Hh'. apply history_app in Hh' as (w4 & Hb & Hc). inversion Hc as [|w5 e5 w6 es5 w7 Hs' _]; subst.
  apply step_committed in Hs' as (l & El & ? & ? & ?); [|by eapply history_stands]. exists w4, l. rewrite <-Hj. done.
Qed.

End Fencing.

(** *** A run *)

Definition demo_moment (now : Z) : Moment := mkMoment now now false (fun _ => false).

(** A run of job [sync] took its lease at second 1. *)
Definition demo_running : Tables :=
  (perform (H := no_projection) Postgres (demo_moment 1000000) (CAcquire "sync" "a1" 60000 120000) (mkTables ∅ [] ∅ None)).2.

Definition demo_kick : NewWake := mkNewWake "sync" Kick (Some 2000) (Some "kick:sync:2").

Lemma wake_outlives_finish_witness :
  exists w t', schedule (H := no_projection) "u1" demo_kick (demo_moment 2000000) demo_running = (inr w, t') /\
    exists w', w' ∈ wakes (after (H := no_projection) Postgres [(demo_moment 3000000, CFinish "u2" (mkFence "sync" "a1" 1) Succeeded None)] t') /\ w_id w' = "u1".
Proof.
  destruct (schedule (H := no_projection) "u1" demo_kick (demo_moment 2000000) demo_running) as [[e|w] t'] eqn:E; [apply (f_equal fst) in E; by vm_compute in E|].
  exists w, t'. split; [done|].
  destruct (wake_outlives_finish (H := no_projection) Postgres "u1" demo_kick (demo_moment 2000000) w demo_running t' [(demo_moment 3000000, CFinish "u2" (mkFence "sync" "a1" 1) Succeeded None)])
    as (w' & due & Hin & Hid & _); [exact E|by left|by repeat constructor|].
  exists w'. split; [done|]. rewrite Hid. apply (f_equal fst) in E. vm_compute in E. by injection E as <-.
Defined.

(** A whole fenced transaction of that run: it begins, works, checks and commits. *)
Lemma no_stale_commit_witness :
  exists w', history_of (H := no_projection) Postgres (mkWorld (mkTables ∅ [] ∅ None) [] [])
    ([] ++ Handed (mkFence "sync" "a1" 1) :: [Silent; Silent; Silent] ++ Committed (mkFence "sync" "a1" 1) 2000000 :: []) w' /\
    exists w1 l, leases (tables w1) !! "sync" = Some l /\ 2000000 < attemptDeadline l.
Proof.
  assert (Hh : history_of (H := no_projection) Postgres (mkWorld (mkTables ∅ [] ∅ None) [] [])
    ([] ++ Handed (mkFence "sync" "a1" 1) :: [Silent; Silent; Silent] ++ Committed (mkFence "sync" "a1" 1) 2000000 :: []) (mkWorld demo_running [] [])).
  { econstructor; [|econstructor; [|econstructor; [|econstructor; [|econstructor; [|constructor]]]]].
    - refine (step_call (H := no_projection) Postgres (demo_moment 1000000) (CAcquire "sync" "a1" 60000 120000) _ (inr (Some (mkFence "sync" "a1" 1))) demo_running I _ _); [|by intros ? ?%elem_of_nil].
      etransitivity; [apply surjective_pairing|]. apply f_equal2; [by vm_compute|done].
    - apply (step_begin (H := no_projection) Postgres (mkFence "sync" "a1" 1) 1500000 ForShare); [exact I|by vm_compute|by intros ?%elem_of_nil].
    - apply (step_work (H := no_projection) Postgres (mkFence "sync" "a1" 1) ForShare _ [] []); [done|by intros ?%elem_of_nil].
    - apply (step_check (H := no_projection) Postgres (mkFence "sync" "a1" 1) 2000000 ForShare _ [] []); [done|by vm_compute].
    - by refine (step_commit (H := no_projection) Postgres (mkFence "sync" "a1" 1) 2000000 ForShare _ [] [] demo_running _ _). }
  exists (mkWorld demo_running [] []). split; [exact Hh|].
  destruct (no_stale_commit (H := no_projection) Postgres (mkWorld (mkTables ∅ [] ∅ None) [] []) _ _ _ _ _ _ _ eq_refl Hh eq_refl) as (_ & _ & w1 & l & _ & ? & _ & _ & ?). by exists w1, l.
Defined.

(** *** A lease nobody can reap

    On Postgres the duration of a reaped run is cast to a 32-bit integer, so a lease whose run started 2{^31} milliseconds ago
    or earlier (an environment that was stopped for a month in the middle of a run) cannot be reaped: the statement fails,
    now and at every later time, and no run of the job starts again. *)
Lemma reap_overflows m t job l started h by_ attemptMs leaseMs :
  leases t !! job = Some l -> holder l = Some h -> lastStartedAt l = Some started -> expiresAt l <= m_now m -> started + 2 ^ 31 * 1000 <= m_now m ->
  milliseconds attemptMs = inr attemptMs -> milliseconds leaseMs = inr leaseMs ->
  reapCrashed (H := no_projection) Postgres job m t = (inl DatabaseError, t) /\ acquire (H := no_projection) Postgres job by_ attemptMs leaseMs m t = (inr None, t).
Proof.
  intros El Eh Es He Hs Ha Hl.
  assert (Ed : last_duration Postgres (m_now m) (lastStartedAt l) = inl DatabaseError).
  { rewrite Es. unfold last_duration, integer_column, run_ms. rewrite (proj2 (Z.leb_le 0 _)) by lia. set (q := (_ / _)). assert (2 ^ 31 <= q) by (apply Z.div_le_lower_bound; lia).
    by rewrite (proj2 (Z.ltb_ge q (2 ^ 31))), andb_false_r by lia. }
  split.
  - unfold reapCrashed, changing, Eff.transaction, update_lease, mbind, eff_bind, Eff.get. cbn. rewrite El. unfold reap_row. by rewrite Eh, (proj2 (Z.leb_le _ _) He), Ed.
  - unfold acquire, mbind at 1, eff_bind at 1. rewrite Hl. cbn. rewrite Ha. cbn.
    unfold changing, Eff.transaction, SQL_ACQUIRE, update_lease, mbind, eff_bind, Eff.get. cbn. rewrite !El. unfold acquire_row. by rewrite Eh.
Qed.
