(* ===== verification/Scheduler.v ===== *)
(** The job scheduler over the wakes and leases ([app/src/jobs/runner.ts]: [nextFire], [completion], [surveil], [jobScheduler],
    the [wake] of [ContractJobs]; the alarm's transaction of [app/src/cloudflare/application.ts]).

    An operation is a computation on the tables of [JobLeases.v]. The alarm's [take] is statements in one transaction, so a
    single [Moment] serves them all. What is reported to Operations is the list of reports. *)

From S2P Require Import Prelude Calendar Json Cron JobLeases.
From Stdlib Require Import ZArith Lia String Ascii Sorted.
From stdpp Require Import base tactics strings gmap list.

Open Scope Z_scope.

(** ** The next fire of a schedule *)

Definition NEXT_FIRE_DAYS : nat := 366 * 5.

Definition ascending (values : list Z) : list Z := sort_by (fun left right => left <=? right) values.

(** The minutes of a day the schedule names, oldest first. *)
Definition day_fires (schedule : CronSchedule) (date : Z) : list Z :=
  flat_map (fun hour => map (fun minute => date + (hour * 60 + minute) * MINUTE_MS) (ascending (minutes schedule))) (ascending (hours schedule)).

(** The loop over the days from [date] on; [first] is the day's first scheduled minute, due exactly when the day matches. *)
Fixpoint fire_search (fuel : nat) (schedule : CronSchedule) (first date after : Z) : option Z :=
  match fuel with
  | O => None
  | S fuel =>
      let rest := fire_search fuel schedule first (date + MS_PER_DAY) after in
      if isDueAt schedule (date + first * MINUTE_MS) then
        match List.find (fun time => after <? time) (day_fires schedule date) with Some time => Some time | None => rest end
      else rest
  end.

Definition nextFire (schedule : CronSchedule) (after : Z) : option Z :=
  match ascending (hours schedule), ascending (minutes schedule) with
  | firstHour :: _, firstMinute :: _ =>
      fire_search (S NEXT_FIRE_DAYS) schedule (firstHour * 60 + firstMinute) (date_utc (getUTCFullYear after) (getUTCMonth after) (getUTCDate after)) after
  | _, _ => None
  end.

Example weekdays_next : (fun s => nextFire s 1767225600000) <$> parseCron "30 6 * * 1-5" = Some (Some 1767249000000).
Proof. by vm_compute. Qed.

(** ** Jobs *)

(** A job's schedule as the scheduler and a finish read it, with its attempt's time. *)
Record Scheduled := mkScheduled { s_name : string; s_expression : string; s_schedule : CronSchedule; s_timeoutMs : Z }.

Definition LEASE_GRACE_MS : Z := 60000.

Definition JOB_CHECK_INTERVAL_MS : Z := 60000.

(** What Operations hears. *)
Inductive Report := ReportCrashed (job : string) | ReportMissed (job : string) (lastSucceededAt : option Z) (firstSeenAt periodMinutes : Z).

(** [Math.round] of a quotient *)
Definition round_div (a b : Z) : Z := (2 * a + b) / (2 * b).

Section Scheduler.
Context (dialect : SqlDialect) `{Runtime}.

(** The wakes due by [now], a [Date]'s milliseconds. *)
Definition due_by (now : Z) (wakes : list Wake) : list Wake := List.filter (fun w => dueAt w <=? now) wakes.

Definition ownedByHolder (job : string) (now : Z) : op bool :=
  lease ← state job;
  match lease with
  | None => mret false
  | Some l => if negb (is_some (holder l)) then mret false else wakes ← pending job; mret (forallb owned (due_by now wakes))
  end.

Definition ownedWakes (job : string) : op (list Wake) := wakes ← pending job; mret (List.filter owned wakes).

(** [surveil]: the reports it sends. *)
Definition surveil (job : Scheduled) (m : Moment) : op (list Report) :=
  reaped ← reapCrashed dialect (s_name job) m;
  let crashed := if reaped : bool then [ReportCrashed (s_name job)] else [] in
  match periodAt (s_schedule job) (epoch_ms (m_now m)) with
  | None => mret crashed
  | Some period =>
      claim ← claimOverdue (s_name job) period m;
      mret (crashed ++ match claim with
                       | None => []
                       | Some (last, seen) => [ReportMissed (s_name job) (epoch_ms <$> last) (epoch_ms seen) (round_div period 60000)]
                       end)
  end.

(** A step for each of a list, in order, and what they report. *)
Fixpoint each {A} (step : A -> op (list Report)) (items : list A) : op (list Report) :=
  match items with
  | [] => mret []
  | item :: items => reports ← step item; rest ← each step items; mret (reports ++ rest)
  end.

Definition reap_reporting (job : string) (m : Moment) : op (list Report) :=
  reaped ← reapCrashed dialect job m; mret (if reaped : bool then [ReportCrashed job] else []).

Section Declared.
Context (declared : list Scheduled).

Definition byName (name : string) : option Scheduled := List.find (fun job => (s_name job =? name)%string) (rev declared).

(** [repair], once the object's barrier admitted it; [uuids] name the cron wakes. *)
Definition repair (uuids : string -> string) (m : Moment) : op (list Report) :=
  expired ← Eff.gets (expiredHolders m);
  crashed ← each (fun job => reap_reporting job m) expired;
  surveilled ← each (fun job => _ ← register (s_name job) m; surveil job m) declared;
  _ ← reconcile (map (fun job => mkDeclared (s_name job) (s_expression job)) declared) m;
  _ ← each (fun job => match nextFire (s_schedule job) (epoch_ms (m_now m)) with
                       | None => mret []
                       | Some due => _ ← schedule (uuids (s_name job)) (mkNewWake (s_name job) Cron (Some due) (Some (cronKey (s_name job) (s_expression job)))) m; mret []
                       end) declared;
  mret (crashed ++ surveilled).

Definition orphans (m : Moment) : op (list string) :=
  expired ← Eff.gets (expiredHolders m); mret (List.filter (fun job => negb (is_some (byName job))) expired).

(** How far ahead the latest of the wakes due within [withinMs] is. *)
Definition earlyBy (withinMs : Z) (m : Moment) : op Z :=
  Eff.gets (fun t => fold_left (fun early job =>
    fold_left (fun early w => let ahead := dueAt w - epoch_ms (m_now m) in if ahead <=? withinMs then Z.max early ahead else early)
      (SQL_PENDING (s_name job) t) early) declared 0).

Record TakenLease := mkTaken { taken_fence : option LeaseFence; reaped : bool }.

(** [attempt] is the new attempt's id. *)
Definition take (attempt name : string) (m : Moment) : op TakenLease :=
  match byName name with
  | None => reaped ← reapCrashed dialect name m; mret (mkTaken None reaped)
  | Some job =>
      _ ← register name m;
      reaped ← reapCrashed dialect name m;
      wakes ← pending name;
      let now := epoch_ms (m_now m) in
      match due_by now wakes with
      | [] => mret (mkTaken None reaped)
      | _ =>
          fence ← tryAcquire dialect name attempt (s_timeoutMs job) (s_timeoutMs job + LEASE_GRACE_MS) m;
          _ ← match fence with
              | Some _ => mret tt
              | None => mine ← ownedByHolder name now; if mine : bool then mret tt else markPending name
              end;
          mret (mkTaken fence reaped)
      end
  end.

(** The alarm's transaction for one job: what it takes, and the alarm armed from the projection. *)
Definition alarm_take (attempt name : string) (m : Moment) : op TakenLease :=
  Eff.transaction (taken ← take attempt name m; t ← Eff.get; _ ← armAlarm (next m t); mret taken).

(** The timer's refresh on Bun: the jobs it kicks, and how long until a wake is due next. [reconciled] is whether an earlier
    call dropped the wakes of removed jobs. *)
Definition wake (reconciled : bool) (kickable : list string) (m : Moment) : op (list Report * list string * option Z) :=
  _ ← if reconciled then mret 0 else reconcile (map (fun job => mkDeclared (s_name job) (s_expression job)) declared) m;
  crashed ← each (fun job => reap_reporting (s_name job) m) declared;
  let now := epoch_ms (m_now m) in
  kicked ← (fix go names := match names with
                            | [] => mret []
                            | name :: names =>
                                wakes ← pending name;
                                mine ← match due_by now wakes with [] => mret true | _ => ownedByHolder name now end;
                                rest ← go names; mret (if mine : bool then rest else name :: rest)
                            end) kickable;
  at_ ← Eff.gets (next m);
  mret (crashed, kicked, (fun at_ => Z.max 0 (at_ - now)) <$> at_).

(** The periodic check of the serving process: every job registered and surveilled; a job whose check fails does not stop
    the others. *)
Fixpoint check (jobs : list Scheduled) (m : Moment) : op (list Report) :=
  match jobs with
  | [] => mret []
  | job :: jobs =>
      reports ← Eff.catch (_ ← register (s_name job) m; surveil job m) (fun _ => mret []);
      rest ← check jobs m; mret (reports ++ rest)
  end.

End Declared.
End Scheduler.

(** ** The next fire is the first *)

Notation oldest_first := (StronglySorted Z.lt).

Lemma ascending_elem l v : v ∈ ascending l <-> v ∈ l.
Proof. unfold ascending. by rewrite (sort_by_Permutation _ l). Qed.

Lemma ascending_sorted l : NoDup l -> oldest_first (ascending l).
Proof.
  intros Hn. assert (Hs : StronglySorted (fun a b => (a <=? b) = true) (ascending l)).
  { apply sort_by_sorted; intros *; rewrite ?Z.leb_le; lia. }
  rewrite <-(sort_by_Permutation (fun left right => left <=? right) l) in Hn. fold (ascending l) in Hn.
  induction Hs as [|x m Hs IH Hx]; constructor; apply NoDup_cons in Hn as [Hx' Hn]; [by apply IH|]. apply Forall_forall. intros y Hy.
  rewrite Forall_forall in Hx. specialize (Hx y Hy). apply Z.leb_le in Hx. assert (x <> y) by (by intros ->). lia.
Qed.

Lemma find_least after l t : oldest_first l -> List.find (fun time => after <? time) l = Some t -> t ∈ l /\ after < t /\ forall t', t' ∈ l -> after < t' -> t <= t'.
Proof.
  induction 1 as [|x l Hs IH Hx]; [done|]. cbn [List.find]. destruct (after <? x) eqn:E.
  - intros [= <-]. apply Z.ltb_lt in E. split_and!; [by left|done|]. intros t' [->|Ht]%elem_of_cons _; [lia|]. rewrite Forall_forall in Hx. specialize (Hx t' Ht). lia.
  - intros Hf. apply Z.ltb_ge in E. destruct (IH Hf) as (Hin & Ha & Hl). split_and!; [by right|done|]. intros t' [->|Ht]%elem_of_cons Ha'; [lia|]. by apply Hl.
Qed.

Lemma find_none after l t : List.find (fun time => after <? time) l = None -> t ∈ l -> t <= after.
Proof. intros Hf Hin%list_elem_of_In. apply (List.find_none _ _ Hf) in Hin. by apply Z.ltb_ge in Hin. Qed.

Lemma lt_sorted_app (a b : list Z) : oldest_first a -> oldest_first b -> (forall x y, x ∈ a -> y ∈ b -> x < y) -> oldest_first (a ++ b).
Proof.
  intros Ha Hb Hl. induction Ha as [|x a Ha IH Hx]; cbn; [done|]. constructor.
  - apply IH. intros. apply Hl; [by right|done].
  - apply Forall_app. split; [done|]. apply Forall_forall. intros y Hy. apply Hl; [by left|done].
Qed.

Section Fires.
Variable s : CronSchedule.
Hypothesis ok : schedule_ok s.

Lemma day_fires_elem n t : t ∈ day_fires s (n * MS_PER_DAY) <-> day t = n /\ t mod MINUTE_MS = 0 /\ getUTCMinutes t ∈ minutes s /\ getUTCHours t ∈ hours s.
Proof.
  rewrite <-day_times_due by done. unfold day_fires, day_times. rewrite !list_elem_of_In, !in_flat_map. setoid_rewrite in_map_iff. setoid_rewrite <-list_elem_of_In.
  setoid_rewrite ascending_elem. by setoid_rewrite descending_elem.
Qed.

Lemma day_fires_sorted n : oldest_first (day_fires s (n * MS_PER_DAY)).
Proof.
  unfold day_fires. pose proof (ascending_sorted _ (ok_hours _ ok)) as Hh.
  assert (Hr : forall h, h ∈ ascending (hours s) -> 0 <= h < 24) by (intros h; rewrite ascending_elem; apply (ok_hour _ ok)).
  assert (Hm : forall m, m ∈ ascending (minutes s) -> 0 <= m < 60) by (intros m; rewrite ascending_elem; apply (ok_minute _ ok)).
  revert Hr. induction Hh as [|h hs Hs IH Hx]; intros Hr; cbn [flat_map]; [constructor|]. apply lt_sorted_app.
  - pose proof (ascending_sorted _ (ok_minutes _ ok)) as Hms. clear -Hms. induction Hms as [|m ms Hs IH Hx]; cbn; constructor; [done|].
    rewrite Forall_forall in *. intros t (m' & -> & Hm')%list_elem_of_fmap. specialize (Hx m' Hm'). unfold MINUTE_MS. lia.
  - apply IH. intros h' Hh'. apply Hr. by right.
  - intros x y (m & -> & Hin)%list_elem_of_fmap Hy. apply list_elem_of_In, in_flat_map in Hy as (h' & Hh' & Hy). apply list_elem_of_In in Hh', Hy.
    apply list_elem_of_fmap in Hy as (m' & -> & Hin'). rewrite Forall_forall in Hx. specialize (Hx h' Hh'). pose proof (Hm m Hin). pose proof (Hm m' Hin'). unfold MINUTE_MS. lia.
Qed.

Lemma first_due n h m : h ∈ hours s -> m ∈ minutes s -> isDueAt s (n * MS_PER_DAY + (h * 60 + m) * MINUTE_MS) = dayMatches s (n * MS_PER_DAY).
Proof.
  intros Hh Hm. pose proof (ok_hour _ ok h Hh). pose proof (ok_minute _ ok m Hm). destruct (fields_time n h m 0 0) as (Ed & Eh & Em & _); [lia..|]. cbv zeta in *.
  replace (n * MS_PER_DAY + (h * 60 + m) * MINUTE_MS) with (n * MS_PER_DAY + (h * 60 + m) * 60000 + 0 * 1000 + 0) by (unfold MINUTE_MS; lia).
  unfold isDueAt. rewrite Eh, Em, <-dayMatches_day, Ed. by rewrite (proj2 (has_spec _ _) Hm), (proj2 (has_spec _ _) Hh).
Qed.

Lemma fire_search_spec h m after : h ∈ hours s -> m ∈ minutes s -> forall fuel n,
  match fire_search fuel s (h * 60 + m) (n * MS_PER_DAY) after with
  | Some t => due s t /\ after < t /\ n <= day t < n + Z.of_nat fuel /\ forall t', due s t' -> after < t' -> n <= day t' -> t <= t'
  | None => forall t', due s t' -> after < t' -> n <= day t' < n + Z.of_nat fuel -> False
  end.
Proof.
  intros Hh Hm fuel. induction fuel as [|fuel IH]; intros n; cbn [fire_search]; [lia|]. cbv zeta. rewrite first_due by done.
  replace (n * MS_PER_DAY + MS_PER_DAY) with ((n + 1) * MS_PER_DAY) by lia. specialize (IH (n + 1)).
  assert (Hday : forall t, due s t -> day t = n -> dayMatches s (n * MS_PER_DAY) = true /\ t ∈ day_fires s (n * MS_PER_DAY)).
  { intros t [Hmod Hd] Ed. unfold isDueAt in Hd. apply andb_true_iff in Hd as [[Hmi%has_spec Hho%has_spec]%andb_true_iff Hdm]. split; [by rewrite <-Ed, dayMatches_day|]. by apply day_fires_elem. }
  assert (Hrest : (forall t, due s t -> after < t -> day t = n -> False) ->
    match fire_search fuel s (h * 60 + m) ((n + 1) * MS_PER_DAY) after with
    | Some t => due s t /\ after < t /\ n <= day t < n + Z.of_nat (S fuel) /\ forall t', due s t' -> after < t' -> n <= day t' -> t <= t'
    | None => forall t', due s t' -> after < t' -> n <= day t' < n + Z.of_nat (S fuel) -> False
    end).
  { intros Hno. destruct (fire_search _ _ _ _ _) as [t|].
    - destruct IH as (Hd & Ha & Hr & Hl). split_and!; [done|done|lia|lia|]. intros t' Hd' Ha' Hn. destruct (decide (day t' = n)); [by destruct (Hno t')|]. apply Hl; [done|done|lia].
    - intros t' Hd' Ha' Hn. destruct (decide (day t' = n)); [by apply (Hno t')|]. apply (IH t'); [done|done|lia]. }
  destruct (dayMatches s (n * MS_PER_DAY)) eqn:Em; [|apply Hrest; intros t Hd Ha Ed; destruct (Hday t Hd Ed) as [? _]; congruence].
  destruct (List.find _ _) as [t|] eqn:Ef.
  - apply find_least in Ef as (Hin & Ha & Hl); [|apply day_fires_sorted]. apply day_fires_elem in Hin as (Ed & Hmod & Hmi & Hho). split_and!; [split; [done|]|done|lia|lia|].
    + unfold isDueAt. rewrite (proj2 (has_spec _ _) Hmi), (proj2 (has_spec _ _) Hho), <-dayMatches_day, Ed. done.
    + intros t' Hd' Ha' Hn. destruct (decide (day t' = n)) as [Ed'|]; [apply Hl; [by apply (Hday t')|done]|].
      pose proof (Z.div_le_mono t' t 86400000). unfold day, MS_PER_DAY in *. lia.
  - apply Hrest. intros t Hd Ha Ed. apply (find_none _ _ t) in Ef; [lia|]. by apply Hday.
Qed.

End Fires.

(** The next fire of a schedule is its first due minute after the instant: none between is skipped, and [null] means
    none falls within five years. *)
Theorem nextFire_first (expression : string) (s : CronSchedule) (after : Z) :
  parseCron expression = Some s -> 100 <= getUTCFullYear after ->
  match nextFire s after with
  | Some t => due s t /\ after < t /\ forall t', due s t' -> after < t' -> t <= t'
  | None => forall t', due s t' -> after < t' -> Z.of_nat NEXT_FIRE_DAYS < day t' - day after
  end.
Proof.
  intros Hs%parseCron_ok Hy. unfold nextFire. rewrite date_utc_civil by done.
  assert (Hlater : forall t', after < t' -> day after <= day t') by (intros t' ?; unfold day; apply Z.div_le_mono; [done|lia]).
  assert (Hnone : (forall h m, h ∈ hours s -> m ∈ minutes s -> False) -> forall t', due s t' -> False).
  { intros Hno t' [_ Hd]. unfold isDueAt in Hd. apply andb_true_iff in Hd as [[?%has_spec ?%has_spec]%andb_true_iff _]. by eapply Hno. }
  destruct (ascending (hours s)) as [|h hs] eqn:Eh.
  { intros t' Hd. destruct (Hnone) with (t' := t'); [|done]. intros h m Hh _. apply ascending_elem in Hh. rewrite Eh in Hh. by apply elem_of_nil in Hh. }
  destruct (ascending (minutes s)) as [|m ms] eqn:Em.
  { intros t' Hd. destruct (Hnone) with (t' := t'); [|done]. intros h' m _ Hm. apply ascending_elem in Hm. rewrite Em in Hm. by apply elem_of_nil in Hm. }
  assert (Hh : h ∈ hours s) by (apply ascending_elem; rewrite Eh; by left). assert (Hm : m ∈ minutes s) by (apply ascending_elem; rewrite Em; by left).
  pose proof (fire_search_spec s Hs h m after Hh Hm (S NEXT_FIRE_DAYS) (day after)) as Hf. destruct (fire_search _ _ _ _ _) as [t|].
  - destruct Hf as (Hd & Ha & _ & Hl). split_and!; [done|done|]. intros t' Hd' Ha'. apply Hl; auto.
  - intros t' Hd' Ha'. specialize (Hf t' Hd' Ha'). specialize (Hlater t' Ha'). destruct (decide (day t' < day after + Z.of_nat (S NEXT_FIRE_DAYS))); [|lia]. by destruct Hf.
Qed.

Definition demo_schedule : CronSchedule := Eval vm_compute in from_option id (mkSchedule [] [] [] [] [] false) (parseCron "30 6 * * 1-5").

Lemma nextFire_first_witness :
  parseCron "30 6 * * 1-5" = Some demo_schedule /\ 100 <= getUTCFullYear 1767225600000 /\ nextFire demo_schedule 1767225600000 = Some 1767249000000 /\
    forall t', due demo_schedule t' -> 1767225600000 < t' -> 1767249000000 <= t'.
Proof.
  assert (E : parseCron "30 6 * * 1-5" = Some demo_schedule) by (by vm_compute).
  assert (En : nextFire demo_schedule 1767225600000 = Some 1767249000000) by (by vm_compute). split_and!; [done|by vm_compute|done|].
  assert (Hy : 100 <= getUTCFullYear 1767225600000) by (by vm_compute).
  pose proof (nextFire_first "30 6 * * 1-5" demo_schedule 1767225600000 E Hy) as Hn. rewrite En in Hn. apply Hn.
Defined.

(** ** Due work runs

    On an object: SQLite, whose transactions nothing interleaves, and the alarm in the same storage. *)

(** Runs the first step of a sequence. *)
Ltac run_step E := refine (eq_trans (eff_bind_run _ _ _ _ _ E) _); cbv beta iota.

Lemma lift_run {A} (v : StoreFailure + A) (a : A) (t : Tables) : v = inr a -> Eff.lift v t = (inr a, t).
Proof. by intros ->. Qed.

Section Liveness.

#[local] Existing Instance object_runtime.

(** [w'] is the same unit of work as [w], whoever owns it. *)
Definition same_work (w w' : Wake) : Prop := w_id w' = w_id w /\ w_job w' = w_job w /\ dueAt w' = dueAt w.

(** Every wake of [t] is still one of [t']. *)
Definition keeps_work (t t' : Tables) : Prop := forall w, w ∈ wakes t -> exists w', w' ∈ wakes t' /\ same_work w w'.

(** A time SQLite can store: its years have four digits. *)
Definition storable (time : Z) : Prop := 0 <= time < 2 ^ 60.

Lemma keeps_work_refl t t' : wakes t' = wakes t -> keeps_work t t'.
Proof. intros E w Hw. exists w. rewrite E. done. Qed.

Lemma keeps_work_trans t1 t2 t3 : keeps_work t1 t2 -> keeps_work t2 t3 -> keeps_work t1 t3.
Proof.
  intros H1 H2 w Hw. destruct (H1 w Hw) as (w1 & Hw1 & ? & ? & ?). destruct (H2 w1 Hw1) as (w2 & ? & ? & ? & ?). exists w2. split; [done|]. split_and!; congruence.
Qed.

Lemma keeps_work_update p f t t' : (forall w, same_work w (f w)) -> wakes t' = wakes (update_wakes p f t) -> keeps_work t t'.
Proof.
  intros Hf E w Hw. exists (if p w then f w else w). rewrite E. split; [cbn; apply list_elem_of_fmap; by exists w|]. destruct (p w); [apply Hf|done].
Qed.

Lemma storable_duration now started : storable now -> storable started -> exists ms, last_duration Sqlite now (Some started) = inr (Some ms).
Proof.
  unfold storable. intros Hn Hs. unfold last_duration, integer_column, run_ms. assert (Hd : - 2 ^ 62 <= now - started < 2 ^ 62) by lia. revert Hd. generalize (now - started). intros d Hd.
  set (q := if 0 <=? d then _ else _). assert (Hq : - 2 ^ 62 <= q < 2 ^ 62).
  { unfold q. destruct (0 <=? d) eqn:E; [apply Z.leb_le in E|apply Z.leb_gt in E].
    - pose proof (Z.div_pos (d + 500) 1000). pose proof (Z.mul_div_le (d + 500) 1000). lia.
    - pose proof (Z.div_pos (- d + 500) 1000). pose proof (Z.mul_div_le (- d + 500) 1000). lia. }
  rewrite (proj2 (Z.leb_le _ _)), (proj2 (Z.ltb_lt _ _)) by lia. by eexists.
Qed.

Definition storable_start (l : JobLeaseState) : Prop := match lastStartedAt l with Some started => storable started | None => True end.

Lemma storable_last now l : storable now -> storable_start l -> exists d, last_duration Sqlite now (lastStartedAt l) = inr d.
Proof. unfold storable_start. intros Hn. destruct (lastStartedAt l) as [s|]; [|by exists None]. intros Hs. destruct (storable_duration now s Hn Hs) as (ms & ->). by eexists. Qed.

Lemma update_lease_some job row t l l' :
  leases t !! job = Some l -> row l = Some (inr l') -> update_lease job row t = (inr (Some l'), with_leases (<[job := l']> (leases t)) t).
Proof. intros El Er. unfold update_lease, mbind, eff_bind, Eff.get. cbn. by rewrite El, Er. Qed.

Lemma changing_some statement uuid job change m t l t1 t2 :
  statement t = (inr (Some l), t1) -> leaseProjection Sqlite uuid job change m t1 = (inr tt, t2) -> changing Sqlite statement uuid job change m t = (inr (Some l), t2).
Proof. intros Es Ep. unfold changing, Eff.transaction.
  assert (E : (found ← statement; _ ← match found with Some _ => leaseProjection Sqlite uuid job change m | None => mret tt end; mret found) t = (inr (Some l), t2)).
  { run_step Es. by run_step Ep. }
  by rewrite E. Qed.

(** A lease no live run holds: reaped if it is held, and free afterwards. *)
Lemma reap_frees job m t l :
  leases t !! job = Some l -> (holder l = None \/ expiresAt l <= m_now m) -> storable (m_now m) -> storable_start l ->
  exists r t1 l1, reapCrashed Sqlite job m t = (inr r, t1) /\ leases t1 !! job = Some l1 /\ holder l1 = None /\ generation l1 = generation l /\ keeps_work t t1.
Proof.
  intros El Hf Hn Hs. destruct (holder l) as [h|] eqn:Eh.
  - destruct Hf as [?|He]; [done|]. destruct (storable_last (m_now m) l Hn Hs) as (d & Ed).
    assert (Er : exists l1, reap_row Sqlite (m_now m) l = Some (inr l1) /\ holder l1 = None /\ generation l1 = generation l).
    { unfold reap_row. rewrite Eh, (proj2 (Z.leb_le _ _) He), Ed. by eexists. }
    destruct Er as (l1 & Er & Eh1 & Eg). pose proof (update_lease_some job _ t l l1 El Er) as Eu. eexists true, _, l1. split.
    { by run_step (changing_some _ "" job Reaped m t l1 _ _ Eu eq_refl). }
    split_and!; [by cbn; rewrite lookup_insert_eq|done|done|].
    by apply (keeps_work_update (fun w => of_job job w && owned w && negb (skips Sqlite (wake_held m (w_id w)))) (set_owned false)).
  - exists false, t, l. split; [|split_and!; [done|done|done|by apply keeps_work_refl]].
    unfold reapCrashed, changing, Eff.transaction, update_lease, mbind, eff_bind, Eff.get. cbn. rewrite El. unfold reap_row. by rewrite Eh.
Qed.

(** A free lease: taken, and the run owns exactly the wakes due by its start. *)
Lemma try_takes job attempt timeoutMs leaseMs m t l :
  leases t !! job = Some l -> holder l = None -> 0 <= generation l < MAX_SAFE_INTEGER -> milliseconds timeoutMs = inr timeoutMs -> milliseconds leaseMs = inr leaseMs ->
  exists fence t1 l1, tryAcquire Sqlite job attempt timeoutMs leaseMs m t = (inr (Some fence), t1) /\ f_job fence = job /\
    leases t1 !! job = Some l1 /\ holds fence l1 = true /\ lastStartedAt l1 = Some (m_now m) /\ keeps_work t t1 /\
    forall w, w ∈ wakes t1 -> w_job w = job -> owned w = (dueAt w <=? epoch_ms (m_now m)).
Proof.
  intros El Eh Hg Ht Hl. unfold MAX_SAFE_INTEGER in Hg.
  assert (Er : exists l1, acquire_row Sqlite attempt (m_now m) leaseMs timeoutMs l = Some (inr l1) /\ holder l1 = Some attempt /\ generation l1 = generation l + 1 /\ lastStartedAt l1 = Some (m_now m)).
  { unfold acquire_row. rewrite Eh. cbn. unfold hand, integer_column. rewrite (proj2 (Z.leb_le _ _)), (proj2 (Z.ltb_lt _ _)) by lia. by eexists. }
  destruct Er as (l1 & Er & Eh1 & Eg & Es). pose proof (update_lease_some job _ t l l1 El Er) as Eu.
  set (t1 := with_leases (<[job := l1]> (leases t)) t).
  assert (Ep : exists t2, leaseProjection Sqlite "" job Acquired m t1 = (inr tt, t2) /\ leases t2 = leases t1 /\
    wakes t2 = map (fun w => if of_job job w then set_owned (dueAt w <=? epoch_ms (m_now m)) w else w) (wakes t)).
  { eexists. split; [reflexivity|]. split; [done|]. cbn. apply map_ext. intros w. unfold run_start. cbn. rewrite lookup_insert_eq. cbn. rewrite Es, andb_true_r. done. }
  destruct Ep as (t2 & Ep & El2 & Ew). exists (mkFence job attempt (generation l1)), t2, l1. split_and!; [|done| |by apply holds_spec|done| |].
  - unfold tryAcquire. run_step (lift_run _ _ t Hl). run_step (lift_run _ _ t Ht).
    run_step (changing_some _ "" job Acquired m t l1 _ _ Eu Ep). unfold fenceOf, isSafeInteger, MAX_SAFE_INTEGER. by rewrite (proj2 (Z.leb_le _ _)) by lia.
  - rewrite El2. cbn. by rewrite lookup_insert_eq.
  - intros w Hw. exists (if of_job job w then set_owned (dueAt w <=? epoch_ms (m_now m)) w else w). rewrite Ew. split; [apply list_elem_of_fmap; by exists w|by destruct (of_job job w)].
  - intros w Hw Hj. rewrite Ew in Hw. apply list_elem_of_fmap in Hw as (w0 & -> & Hw0). destruct (of_job job w0) eqn:Ej; [done|]. unfold of_job in Ej. apply String.eqb_neq in Ej. done.
Qed.

(** The finish of the run that holds the lease consumes what it owns. *)
Lemma finish_consumes uuid fence m t l :
  leases t !! f_job fence = Some l -> holds fence l = true -> storable (m_now m) -> storable_start l ->
  exists t1, finish Sqlite uuid fence Succeeded (Some (Completed None)) m t = (inr true, t1) /\
    forall w, w ∈ wakes t1 -> w_job w = f_job fence -> exists w0, w0 ∈ wakes t /\ same_work w0 w /\ owned w0 = false.
Proof.
  intros El Hh Hn Hs. destruct (storable_last (m_now m) l Hn Hs) as (d & Ed).
  assert (Er : exists l1, finish_row Sqlite fence Succeeded (m_now m) l = Some (inr l1)) by (unfold finish_row; rewrite Hh, Ed; by eexists).
  destruct Er as (l1 & Er). pose proof (update_lease_some (f_job fence) _ t l l1 El Er) as Eu. eexists. split.
  { unfold finish. run_step (lift_run (finishWakes Succeeded (Some (Completed None))) _ t eq_refl).
    by run_step (changing_some _ uuid (f_job fence) (Finished (Some (Completed None))) m t l1 _ _ Eu eq_refl). }
  cbn. intros w Hw Hj. apply list_elem_of_fmap in Hw as (w0 & -> & Hw0). apply list_elem_of_In, filter_In in Hw0 as [Hw0 Hp]. apply list_elem_of_In in Hw0.
  exists w0. split; [done|]. assert (Ej : w_job w0 = f_job fence) by (by destruct (_ && _)). split; [by destruct (_ && _)|].
  unfold of_job in Hp. rewrite Ej, String.eqb_refl in Hp. by apply negb_true_iff in Hp.
Qed.

(** A job's due wakes as the alarm reads them. *)
Lemma due_pending job now t w : w ∈ wakes t -> w_job w = job -> dueAt w <= now -> w ∈ due_by now (SQL_PENDING job t).
Proof.
  intros Hw Hj Hd. unfold due_by. apply list_elem_of_In, filter_In. split; [|by apply Z.leb_le]. apply list_elem_of_In. unfold SQL_PENDING.
  rewrite (sort_by_Permutation wake_before). apply list_elem_of_In, filter_In. split; [by apply list_elem_of_In|]. by apply String.eqb_eq.
Qed.

(** Due work of a job no live run holds: taken, owned and, once the run finishes, gone. *)
Lemma due_taken declared attempt uuid w job m m' t :
  w ∈ wakes t -> byName declared (w_job w) = Some job -> 1 <= s_timeoutMs job <= 2 ^ 50 -> dueAt w <= epoch_ms (m_now m) ->
  storable (m_now m) -> storable (m_now m') ->
  (forall l, leases t !! w_job w = Some l -> (holder l = None \/ expiresAt l <= m_now m) /\ storable_start l /\ 0 <= generation l < MAX_SAFE_INTEGER) ->
  exists fence reaped t1, alarm_take Sqlite declared attempt (w_job w) m t = (inr (mkTaken (Some fence) reaped), t1) /\
    (exists w1, w1 ∈ wakes t1 /\ same_work w w1 /\ owned w1 = true) /\
    exists t2, finish Sqlite uuid fence Succeeded (Some (Completed None)) m' t1 = (inr true, t2) /\
      forall w2, w2 ∈ wakes t2 -> w_job w2 = w_job w -> epoch_ms (m_now m) < dueAt w2.
Proof.
  intros Hw Hj Hto Hdue Hn Hn' Hl.
  (* register *)
  assert (Hreg : exists t0 l0, register (w_job w) m t = (inr tt, t0) /\ leases t0 !! w_job w = Some l0 /\ wakes t0 = wakes t /\
    (holder l0 = None \/ expiresAt l0 <= m_now m) /\ storable_start l0 /\ 0 <= generation l0 < MAX_SAFE_INTEGER).
  { destruct (leases t !! w_job w) as [l|] eqn:El.
    - exists t, l. destruct (Hl l eq_refl) as (? & ? & ?). split_and!; try done; try lia. unfold register, SQL_REGISTER, Eff.modify. by rewrite El.
    - exists (with_leases (<[w_job w := new_lease (m_now m)]> (leases t)) t), (new_lease (m_now m)). unfold register, SQL_REGISTER, Eff.modify. rewrite El.
      split; [done|]. split; [apply lookup_insert_eq|]. split_and!; try done. by left. }
  destruct Hreg as (t0 & l0 & Ereg & El0 & Ew0 & Hf & Hs & Hg).
  destruct (reap_frees _ m t0 l0 El0 Hf Hn Hs) as (r & t1 & l1 & Ereap & El1 & Eh1 & Eg1 & Hk1).
  destruct (try_takes (w_job w) attempt (s_timeoutMs job) (s_timeoutMs job + LEASE_GRACE_MS) m t1 l1) as (fence & t2 & l2 & Etry & Ef & El2 & Hh2 & Es2 & Hk2 & Ho2);
    [done|done|lia|unfold milliseconds, isSafeInteger, MAX_SAFE_INTEGER; rewrite (proj2 (Z.leb_le _ _)), (proj2 (Z.ltb_ge _ _)) by lia; done|
     unfold milliseconds, isSafeInteger, MAX_SAFE_INTEGER, LEASE_GRACE_MS; rewrite (proj2 (Z.leb_le _ _)), (proj2 (Z.ltb_ge _ _)) by lia; done|].
  assert (Hk : keeps_work t t2) by (eapply keeps_work_trans; [by apply (keeps_work_refl t t0)|by eapply keeps_work_trans]).
  assert (Hpend : exists w' ws, due_by (epoch_ms (m_now m)) (SQL_PENDING (w_job w) t1) = w' :: ws).
  { destruct (keeps_work_trans t t0 t1 (keeps_work_refl t t0 Ew0) Hk1 w Hw) as (w' & Hw' & _ & Hj' & Hd').
    destruct (due_by _ _) as [|x xs] eqn:Ed; [exfalso|by eexists _, _].
    pose proof (due_pending (w_job w) (epoch_ms (m_now m)) t1 w' Hw' Hj' ltac:(lia)) as Hin. rewrite Ed in Hin. by apply elem_of_nil in Hin. }
  destruct Hpend as (w' & ws & Epend).
  exists fence, r, (with_alarm (next m t2) t2). split_and!.
  - assert (Etake : take Sqlite declared attempt (w_job w) m t = (inr (mkTaken (Some fence) r), t2)).
    { unfold take. rewrite Hj. run_step Ereg. run_step Ereap. run_step (eq_refl : pending (w_job w) t1 = (inr (SQL_PENDING (w_job w) t1), t1)). cbv zeta. rewrite Epend.
      by run_step Etry. }
    unfold alarm_take, Eff.transaction, mbind at 1, eff_bind at 1. by rewrite Etake.
  - destruct (Hk w Hw) as (w1 & Hw1 & Hi & Hj1 & Hd1). exists w1. split_and!; [done|done|]. rewrite (Ho2 w1 Hw1 Hj1). apply Z.leb_le. lia.
  - destruct (finish_consumes uuid fence m' (with_alarm (next m t2) t2) l2) as (t3 & Efin & Hrest); [by rewrite Ef|done|done|unfold storable_start; by rewrite Es2|].
    exists t3. split; [done|]. intros w2 Hw2 Hj2. destruct (Hrest w2 Hw2) as (w3 & Hw3 & (_ & Hj3 & Hd3) & Ho3); [by rewrite Ef|]. rewrite (Ho2 w3 Hw3) in Ho3 by congruence.
    apply Z.leb_gt in Ho3. lia.
Qed.

(** A flag that was set stays set until somebody takes it. *)
Lemma flag_projects job m : Eff.keeps (fun t => kicks t !! job = Some true) (projectWakes m).
Proof. intros t Ht. done. Qed.

#[local] Hint Resolve flag_projects : eff.

Lemma flag_insert job new : Eff.keeps (fun t => kicks t !! job = Some true) (JobLeases.insert new).
Proof. unfold JobLeases.insert, SQL_SCHEDULE, JobLeases.refused. by keeps_auto. Qed.

#[local] Hint Resolve flag_insert : eff.

Lemma flag_projection job uuid name change m : Eff.keeps (fun t => kicks t !! job = Some true) (leaseProjection Sqlite uuid name change m).
Proof. unfold leaseProjection, newWake, SQL_OWN, SQL_DISOWN, SQL_CONSUME, SQL_RETRY, JobLeases.refused. by keeps_auto. Qed.

#[local] Hint Resolve flag_projection : eff.

Lemma flag_set job name value t : (name = job -> value = true) -> kicks t !! job = Some true -> <[name := value]> (kicks t) !! job = Some true.
Proof. intros Hv Ht. destruct (decide (name = job)) as [->|]; [rewrite lookup_insert_eq, Hv; done|by rewrite lookup_insert_ne]. Qed.

Lemma flag_stays job history t :
  Forall (fun call => call.2 <> CTakePending job) history -> kicks t !! job = Some true -> kicks (after Sqlite history t) !! job = Some true.
Proof.
  revert t. induction history as [|[m c] history IH]; intros t Hh Ht; [done|]. apply Forall_cons in Hh as [Hc Hh]. apply (IH _ Hh). cbn in Hc |- *.
  cut (Eff.keeps (fun t => kicks t !! job = Some true) (perform Sqlite m c)); [by intros Hk; apply Hk|]. clear t Ht.
  unfold perform. destruct c; unfold register, SQL_REGISTER, reapCrashed, JobLeases.acquire, tryAcquire, JobLeases.renew, finish, markPending, claimOverdue, JobLeases.schedule, reconcile,
    hasten, SQL_ACQUIRE, SQL_TRY_ACQUIRE, update_lease, JobLeases.refused, fenceOf, changing, newWake.
  all: keeps_auto; try (by destruct (leases _ !! _)).
  - by apply flag_set.
  - unfold takePending. intros s Hs. unfold mbind, eff_bind, Eff.get. cbn. destruct (kicks s !! job0) as [[]|]; [|done..]. apply flag_set; [|done]. by intros ->.
  - unfold rearmClaim. destruct (match due with None => _ | Some _ => _ end) as [e|candidate]; [by apply keeps_throw|]. cbn [snd]. unfold newWake. by keeps_auto.
Qed.

(** Due work of a job a live run holds: nothing is lost, and the run owns all of it or is asked to run once more. *)
Lemma due_handed declared attempt w job m t l h :
  w ∈ wakes t -> byName declared (w_job w) = Some job -> 1 <= s_timeoutMs job <= 2 ^ 50 -> dueAt w <= epoch_ms (m_now m) ->
  leases t !! w_job w = Some l -> holder l = Some h -> m_now m < expiresAt l ->
  exists t1, alarm_take Sqlite declared attempt (w_job w) m t = (inr (mkTaken None false), t1) /\ leases t1 = leases t /\ wakes t1 = wakes t /\
    (owned w = true \/ kicks t1 !! w_job w = Some true) /\ exists a, alarm t1 = Some a /\ a <= epoch_ms (expiresAt l).
Proof.
  intros Hw Hj Hto Hdue El Eh Hlive. pose proof (due_pending (w_job w) _ t w Hw eq_refl Hdue) as Hd. set (due := due_by _ _) in Hd.
  assert (Hms : forall ms, 1 <= ms <= 2 ^ 51 -> milliseconds ms = inr ms).
  { intros ms ?. unfold milliseconds, isSafeInteger, MAX_SAFE_INTEGER. by rewrite (proj2 (Z.leb_le _ _)), (proj2 (Z.ltb_ge _ _)) by lia. }
  set (t1 := if forallb owned due then t else with_kicks (<[w_job w := true]> (kicks t)) t).
  assert (E1 : leases t1 = leases t /\ wakes t1 = wakes t) by (unfold t1; by destruct (forallb _ _)). destruct E1 as [El1 Ew1].
  assert (Etake : take Sqlite declared attempt (w_job w) m t = (inr (mkTaken None false), t1)).
  { unfold take. rewrite Hj.
    assert (Ereg : register (w_job w) m t = (inr tt, t)) by (unfold register, SQL_REGISTER, Eff.modify; by rewrite El). run_step Ereg.
    assert (Ereap : reapCrashed Sqlite (w_job w) m t = (inr false, t)).
    { unfold reapCrashed, changing, Eff.transaction, update_lease, mbind, eff_bind, Eff.get. cbn. rewrite El. unfold reap_row. by rewrite Eh, (proj2 (Z.leb_gt _ _) Hlive). }
    run_step Ereap. run_step (eq_refl : pending (w_job w) t = (inr (SQL_PENDING (w_job w) t), t)). cbv zeta. fold due.
    assert (Etry : tryAcquire Sqlite (w_job w) attempt (s_timeoutMs job) (s_timeoutMs job + LEASE_GRACE_MS) m t = (inr None, t)).
    { unfold tryAcquire. run_step (lift_run _ _ t (Hms (s_timeoutMs job + LEASE_GRACE_MS) ltac:(unfold LEASE_GRACE_MS; lia))). run_step (lift_run _ _ t (Hms (s_timeoutMs job) ltac:(lia))).
      unfold changing, Eff.transaction, SQL_TRY_ACQUIRE, update_lease, mbind, eff_bind, Eff.get. cbn. rewrite El. unfold acquire_row. by rewrite Eh. }
    assert (Eown : ownedByHolder (w_job w) (epoch_ms (m_now m)) t = (inr (forallb owned due), t)).
    { unfold ownedByHolder, state, Eff.gets, mbind, eff_bind. cbn. rewrite El, Eh. done. }
    assert (Eflag : (mine ← ownedByHolder (w_job w) (epoch_ms (m_now m)); if mine : bool then mret tt else markPending (w_job w)) t = (inr tt, t1)).
    { refine (eq_trans (eff_bind_run _ _ _ _ _ Eown) _). cbv beta. unfold t1. by destruct (forallb _ _). }
    assert (Hne : due <> []) by (intros E; rewrite E in Hd; by apply elem_of_nil in Hd). destruct due as [|x xs]; [done|]. run_step Etry. by run_step Eflag. }
  exists (with_alarm (next m t1) t1). split_and!; [|done|done| |].
  - unfold alarm_take, Eff.transaction, mbind at 1, eff_bind at 1. by rewrite Etake.
  - cbn. unfold t1. destruct (forallb owned due) eqn:Ea; [left|right; apply lookup_insert_eq].
    rewrite forallb_forall in Ea. apply Ea. by apply list_elem_of_In.
  - destruct (next_held_le t1 (w_job w) l) as (a & Ea & Hle); [by rewrite El1|by rewrite Eh|].
    cbn. unfold next. rewrite Ea. destruct (next_wake _ t1) as [n|]; cbn; eexists; (split; [done|lia]).
Qed.

(** C21. Pending work runs. After any history of calls the alarm is set no later than a wake is due, or, while a run holds
    its job, than that run's lease expires. Once the wake is due, the alarm's transaction does one of two things. When no
    live run holds the job, whatever became of the run that last held it, it takes the job's lease, its run owns every due
    wake of the job, and its finish leaves none of them. When a live run holds it, no wake and no lease is touched, the alarm
    is set no later than that lease expires, and either the run owns the wake, which was due when it started, or the job's
    pending flag is set and stays until a run takes it: a run that takes it runs the job once more. *)
Theorem pending_work_runs declared history attempt uuid w job m m' :
  let t := after Sqlite history (mkTables ∅ [] ∅ None) in
  w ∈ wakes t -> byName declared (w_job w) = Some job -> 1 <= s_timeoutMs job <= 2 ^ 50 ->
  dueAt w <= epoch_ms (m_now m) -> storable (m_now m) -> storable (m_now m') ->
  (forall l, leases t !! w_job w = Some l -> storable_start l /\ 0 <= generation l < MAX_SAFE_INTEGER) ->
  (exists a, alarm t = Some a /\ (a <= dueAt w \/ exists l, leases t !! w_job w = Some l /\ a <= epoch_ms (expiresAt l))) /\
  ((forall l, leases t !! w_job w = Some l -> holder l = None \/ expiresAt l <= m_now m) ->
   exists fence reaped t1, alarm_take Sqlite declared attempt (w_job w) m t = (inr (mkTaken (Some fence) reaped), t1) /\
     (exists w1, w1 ∈ wakes t1 /\ same_work w w1 /\ owned w1 = true) /\
     exists t2, finish Sqlite uuid fence Succeeded (Some (Completed None)) m' t1 = (inr true, t2) /\
       forall w2, w2 ∈ wakes t2 -> w_job w2 = w_job w -> epoch_ms (m_now m) < dueAt w2) /\
  (forall l, leases t !! w_job w = Some l -> holder l <> None -> m_now m < expiresAt l ->
   exists t1, alarm_take Sqlite declared attempt (w_job w) m t = (inr (mkTaken None false), t1) /\ leases t1 = leases t /\ wakes t1 = wakes t /\
     (exists a, alarm t1 = Some a /\ a <= epoch_ms (expiresAt l)) /\
     (owned w = true \/ forall later, Forall (fun call => call.2 <> CTakePending (w_job w)) later ->
        exists t2, takePending (w_job w) (after Sqlite later t1) = (inr true, t2))).
Proof.
  cbv zeta. set (t := after _ _ (mkTables ∅ [] ∅ None)). intros Hw Hj Hto Hdue Hn Hn' Hl. split_and!.
  - destruct (after_armed Sqlite history) as [Ha _]. destruct (Ha w Hw) as (a & ? & [?|(l & ? & _ & ?)]); exists a; eauto.
  - intros Hf. eapply due_taken; eauto 6.
  - intros l El Eh Hlive. destruct (holder l) as [h|] eqn:Eh'; [|done].
    destruct (due_handed declared attempt w job m t l h) as (t1 & ? & ? & ? & Hh & ?); [done..|]. exists t1. split_and!; try done.
    destruct Hh as [?|Hk]; [by left|right]. intros later Hlater. pose proof (flag_stays (w_job w) later t1 Hlater Hk) as E.
    unfold takePending, mbind, eff_bind, Eff.get. cbn. rewrite E. by eexists.
Qed.

End Liveness.

(** A kick's wake, written while a run that then crashed held the lease. *)
Definition demo_history : list (Moment * Call) :=
  [(demo_moment 1000000, CAcquire "sync" "a1" 60000 120000); (demo_moment 2000000, CSchedule "u1" demo_kick)].

Definition demo_jobs : list Scheduled := [mkScheduled "sync" "30 6 * * 1-5" demo_schedule 60000].

Lemma pending_work_runs_witness :
  exists fence reaped t1, alarm_take (H := object_runtime) Sqlite demo_jobs "a2" "sync" (demo_moment 200000000) (after (H := object_runtime) Sqlite demo_history (mkTables ∅ [] ∅ None))
    = (inr (mkTaken (Some fence) reaped), t1) /\ exists w1, w1 ∈ wakes t1 /\ w_id w1 = "u1" /\ owned w1 = true.
Proof.
  set (w := mkWake "u1" "sync" Kick 2000 0 (Some "kick:sync:2") false).
  destruct (pending_work_runs demo_jobs demo_history "a2" "u2" w (mkScheduled "sync" "30 6 * * 1-5" demo_schedule 60000) (demo_moment 200000000) (demo_moment 201000000))
    as (_ & Htaken & _).
  - assert (E : wakes (after (H := object_runtime) Sqlite demo_history (mkTables ∅ [] ∅ None)) = [w]) by (by vm_compute). rewrite E. by left.
  - done.
  - cbn. lia.
  - by vm_compute.
  - unfold storable. cbn. lia.
  - unfold storable. cbn. lia.
  - assert (E : leases (after (H := object_runtime) Sqlite demo_history (mkTables ∅ [] ∅ None)) !! "sync"
      = Some (mkLease 1 (Some "a1") 121000000 61000000 1000000 (Some 1000000) None None None None None)) by (by vm_compute).
    change (w_job w) with "sync". rewrite E. intros l [= <-]. cbn. unfold storable_start, storable, MAX_SAFE_INTEGER. cbn. split_and!; lia.
  - destruct Htaken as (fence & reaped & t1 & Ht & (w1 & Hw1 & (Hid & _) & Ho) & _).
    + assert (E : leases (after (H := object_runtime) Sqlite demo_history (mkTables ∅ [] ∅ None)) !! "sync"
        = Some (mkLease 1 (Some "a1") 121000000 61000000 1000000 (Some 1000000) None None None None None)) by (by vm_compute).
      change (w_job w) with "sync". rewrite E. intros l [= <-]. right. cbn. lia.
    + exists fence, reaped, t1. split; [exact Ht|]. by exists w1.
Defined.
