(* ===== verification/JobRunner.v ===== *)
(** One run of a job ([app/src/jobs/runner.ts]: [runJob], [runOnce], [runLeased], [attemptOnce], [kickOnce], [handOver],
    [runFrameworkJob]; [failureCode] of [app/src/implement/failures.ts], [kickRecorder] of [invocation.ts],
    [mayRetryDelivery] of [email/src/email.ts]).

    A run is a sequence of steps; between two of them the world moves on. What it has become at each step, what other
    processes asked of the tables meanwhile, the clocks, whether the run was told to stop, whether the database answers, and
    what IAM and the handler answered, is an environment, a function of the number of the step; every theorem is about every
    environment. A run throws only what the lease store throws. The trace is what the run did. *)

From S2P Require Import Prelude Calendar Json Cron JobLeases Scheduler.
From Stdlib Require Import ZArith Lia String Ascii.
From stdpp Require Import base tactics strings gmap list.

Open Scope Z_scope.

(** ** Failures *)

Inductive JobFailureCode :=
| Jtimeout | Jlease_lost | Jhandler_failed | Jquery_refused | Jcapability_refused | Jframework_fault | Junavailable | Jdriver_failed
| Jcrashed | Junauthorized | Jiam_unavailable | Jstopped | Jmail_failed.

#[export] Instance code_eq_dec : EqDecision JobFailureCode.
Proof. solve_decision. Defined.

(** [JobFailure], without the words of its reason and without what was thrown; [final] is whether another attempt must not run. *)
Record JobFailure := mkFailure { fail_code : JobFailureCode; why : option string; final : bool }.

Definition failure (code : JobFailureCode) : JobFailure := mkFailure code None false.

(** [EMAIL_DELIVERY_ERRORS]: by code, whether it may be retried, and whether the message was certainly not sent. *)
Definition EMAIL_DELIVERY_ERRORS : list (string * (bool * bool)) :=
  [ ("invalid_configuration", (false, true)); ("invalid_message", (false, true)); ("mail_not_configured", (false, true)); ("aborted", (true, false));
    ("network_error", (true, false)); ("request_timeout", (true, false)); ("request_in_progress", (true, false)); ("idempotency_conflict", (false, false));
    ("provider_unauthorized", (false, true)); ("rate_limited", (true, true)); ("quota_exceeded", (true, true)); ("provider_rejected", (false, true));
    ("provider_unavailable", (true, false)); ("malformed_response", (true, false)) ].

(** What a handler throws, by the framework's own classes; a delivery error has a code of the catalog. *)
Inductive Thrown :=
| LeaseLostError
| EmailDeliveryError (code : string) (retryable not_sent : bool)
| ServerFault (reason : string) (status : Z)
| CapabilityRefusedError (reason : string)
| CapabilityError (reason : string)
| QueryRefusedError (reason : string)
| StructuralError (status : Z)
| OtherError.

Definition mayRetryDelivery (retryable not_sent idempotent : bool) : bool := retryable && (not_sent || idempotent).

Inductive RequestFailureCode := framework_fault | unavailable | capability_refused | query_refused | handler_status | handler_failed.

Definition failureCode (error : Thrown) : RequestFailureCode :=
  match error with
  | ServerFault _ status => if status =? 503 then unavailable else framework_fault
  | CapabilityRefusedError _ | CapabilityError _ => capability_refused
  | QueryRefusedError _ => query_refused
  | StructuralError _ => handler_status
  | LeaseLostError | EmailDeliveryError _ _ _ | OtherError => handler_failed
  end.

Definition failureReason (error : Thrown) : option string :=
  match error with
  | ServerFault reason _ | CapabilityRefusedError reason | CapabilityError reason | QueryRefusedError reason => Some reason
  | _ => None
  end.

(** [idempotent] is the transport's, false for a job that declares none. *)
Definition failureOf (error : Thrown) (idempotent : bool) : JobFailure :=
  match error with
  | LeaseLostError => failure Jlease_lost
  | EmailDeliveryError code retryable not_sent => mkFailure Jmail_failed (Some code) (negb (mayRetryDelivery retryable not_sent idempotent))
  | _ =>
      match error with
      | ServerFault "iam_unavailable" _ => failure Jiam_unavailable
      | ServerFault "workload_unauthorized" _ => failure Junauthorized
      | _ =>
          match failureCode error with
          | handler_failed | handler_status => failure Jhandler_failed
          | framework_fault => mkFailure Jframework_fault (failureReason error) false
          | unavailable => mkFailure Junavailable (failureReason error) false
          | capability_refused => mkFailure Jcapability_refused (failureReason error) false
          | query_refused => mkFailure Jquery_refused (failureReason error) false
          end
      end
  end.

(** ** Kicks *)

Record RecordedKick := mkKick { kick_job : string; kick_at : option Z }.

Definition kicked (kicks : list RecordedKick) : list string :=
  fold_left (fun jobs job => if Js.elem job jobs then jobs else jobs ++ [job]) (map kick_job (List.filter (fun kick => negb (is_some (kick_at kick))) kicks)) [].

Section KickWakes.
(** The text of a whole number. *)
Context (number_text : Z -> string).

Definition kickKey (job : string) (due : Z) : string := "kick:" +:+ job +:+ ":" +:+ number_text (due / 1000).

(** [wakes.set(dedupe, …)]: a key keeps its place. *)
Fixpoint keep_wake (key : string) (new : NewWake) (wakes : list (string * NewWake)) : list (string * NewWake) :=
  match wakes with
  | [] => [(key, new)]
  | (k, kept) :: wakes =>
      if (k =? key)%string then
        (k, match n_due kept, n_due new with Some old, Some due => if due <? old then new else kept | _, _ => kept end) :: wakes
      else (k, kept) :: keep_wake key new wakes
  end.

Definition kick_wakes (kicks : list RecordedKick) (now : Z) : list NewWake :=
  map snd (fold_left (fun wakes kick =>
    let due := from_option id now (kick_at kick) in let key := kickKey (kick_job kick) due in
    keep_wake key (mkNewWake (kick_job kick) Kick (Some due) (Some key)) wakes) kicks []).

End KickWakes.

(** ** The environment of a run *)

(** What IAM answered for the job's key, and what the handler did, each in its race with the attempt's deadline and the
    run's stop. *)
Inductive Exchange := ExchangeTimedOut | ExchangeStopped | ExchangeHeld | ExchangeRefused (iam_down : bool).

Inductive Handler := HandlerTimedOut | HandlerStopped | HandlerThrew (error : Thrown) | HandlerReturned (kicks : list RecordedKick).

Record Interval := mkInterval {
  others : list (Moment * Call); (* what other processes asked of the tables since the last step *)
  moment : Moment;               (* what the step's statement meets *)
  clock_now : Z;                 (* [nowOf(clock)] *)
  aborted : bool;                (* [control.signal.aborted] *)
  denied : bool;                 (* the database answers no statement *)
  out_of_segment : bool;         (* the segment ended before the awaited step settled *)
  jitter : Z;                    (* [clock.random()], as what the backoff adds to half its ceiling *)
  uuid : string;                 (* [uuidv7()] *)
  exchange : Exchange;
  handler : Handler;
  late : list RecordedKick;      (* what a handler that outlived an earlier attempt had kicked when it returned, if one did *)
  returned_late : bool;
}.

(** What a run does: an attempt's handler starts, its frame ends, and what the attempt came to; a kick's wake written; a
    finish of the lease and whether it was still held; a report; and the jobs kicked. *)
Inductive Action :=
| Started (attempt : Z) (fence : LeaseFence)
| Ended (fence : LeaseFence)
| Tried (attempt : Z) (outcome : option JobFailure)
| Wrote (wake : NewWake)
| FinishedAs (fence : LeaseFence) (outcome : JobOutcome) (applied : bool)
| Reported (code : JobFailureCode) (attempts : Z)
| Kicked (jobs : list string).

(** A run in progress: the tables, the number of the step, the attempts of the run, the recorder of its kicks
    ([kicked.recorder]), how many handlers outlived their attempts, and what it did, newest first. *)
Record RunState := mkRun {
  store : Tables; at_step : nat; progress : Z; recorder : option (list RecordedKick); outlived : nat; trace : list Action }.

Definition with_store (t : Tables) (s : RunState) : RunState := mkRun t (at_step s) (progress s) (recorder s) (outlived s) (trace s).
Definition with_progress (n : Z) (s : RunState) : RunState := mkRun (store s) (at_step s) n (recorder s) (outlived s) (trace s).
Definition with_recorder (k : option (list RecordedKick)) (n : nat) (s : RunState) : RunState := mkRun (store s) (at_step s) (progress s) k n (trace s).
Definition with_action (a : Action) (s : RunState) : RunState := mkRun (store s) (at_step s) (progress s) (recorder s) (outlived s) (a :: trace s).

(** A run throws what the lease store throws. *)
Inductive LeaseStoreError := StoreThrew.

Definition run (A : Type) : Type := eff RunState LeaseStoreError A.

Inductive JobRunResult :=
| RunSucceeded (attempts : Z)
| RunFailed (attempts : Z) (code : JobFailureCode) (reason : option string)
| RunSkipped.

Definition is_succeeded (r : JobRunResult) : bool := match r with RunSucceeded _ => true | _ => false end.
Definition is_skipped (r : JobRunResult) : bool := match r with RunSkipped => true | _ => false end.

(** [BoundJob], as a run reads it: its schedule and timeout, its retries, and whether its transport is idempotent. *)
Record BoundJob := mkBound { b_scheduled : Scheduled; b_retries : Z; b_idempotent : bool }.

Definition b_name (job : BoundJob) : string := s_name (b_scheduled job).
Definition timeoutMs (job : BoundJob) : Z := s_timeoutMs (b_scheduled job).

Definition SEGMENT_FINISH_RESERVE_MS : Z := 30000.
Definition BACKOFF_BASE_MS : Z := 1000.
Definition BACKOFF_MAX_MS : Z := 5 * 60000.

Definition finishReserveMs (timeoutMs : Z) : Z := Z.min SEGMENT_FINISH_RESERVE_MS (timeoutMs / 10).

(** [Math.min(BACKOFF_MAX_MS, BACKOFF_BASE_MS * 2 ** (attempt - 1))] *)
Definition ceiling (attempt : Z) : Z := Z.min BACKOFF_MAX_MS (BACKOFF_BASE_MS * 2 ^ (attempt - 1)).

(** How a run takes the lease, and how a failed attempt is retried. *)
Inductive Acquisition := AcquireWait | AcquireTry | AcquireFence (fence : LeaseFence).

Inductive Retries := Inline | Durable.

Section Run.
Context (dialect : SqlDialect) `{Runtime} (number_text : Z -> string) (env : nat -> Interval).

Definition here : run Interval := Eff.gets (fun s => env (at_step s)).

(** An [await]: the world moves on to the next step. A handler that outlived an earlier attempt may return meanwhile, and
    sets the recorder the attempts share. *)
Definition elapse : run Interval :=
  _ ← Eff.modify (fun s =>
    let i := env (S (at_step s)) in
    let t := after dialect (others i) (store s) in
    match outlived s with
    | S n => if returned_late i then mkRun t (S (at_step s)) (progress s) (Some (late i)) n (trace s)
             else mkRun t (S (at_step s)) (progress s) (recorder s) (S n) (trace s)
    | O => mkRun t (S (at_step s)) (progress s) (recorder s) O (trace s)
    end);
  here.

Definition note (a : Action) : run unit := Eff.modify (with_action a).

Definition set_progress (attempts : Z) : run unit := Eff.modify (with_progress attempts).

(** A statement awaited; what the store throws, the run throws. *)
Definition ask {A} (statement : Interval -> op A) : run A :=
  i ← elapse;
  if denied i then Eff.throw StoreThrew
  else fun s => match statement i (store s) with
                | (inl _, t) => (inl StoreThrew, with_store t s)
                | (inr a, t) => (inr a, with_store t s)
                end.

Definition isStopped : run bool := i ← here; mret (aborted i).

(** [backoffMs], with the jitter drawn at the step. *)
Definition backoffMs (attempt : Z) : run Z := i ← here; mret (ceiling attempt / 2 + jitter i).

(** [failed]: one report. *)
Definition failed (attempts : Z) (outcome : JobFailure) : run JobRunResult :=
  _ ← note (Reported (fail_code outcome) attempts); _ ← elapse; mret (RunFailed attempts (fail_code outcome) (why outcome)).

Definition outOfSegment (attempts : Z) : JobRunResult := RunFailed attempts Jtimeout None.

Definition markPending_safely (job : BoundJob) : run bool :=
  Eff.catch (_ ← ask (fun _ => markPending (b_name job)); mret true) (fun _ => mret false).

Definition pendingTaken (job : BoundJob) : run bool := Eff.catch (ask (fun _ => takePending (b_name job))) (fun _ => mret false).

(** ** An attempt *)

(** [remainingMs]: what is left of a time, never below zero. *)
Definition remainingMs (deadline : Z) : run Z := i ← here; mret (Z.max 0 (deadline - clock_now i)).

(** [leases.cancelInFlight], waited for only while the segment lasts; it throws when the database answers none of its
    statements. *)
Definition cancelInFlight (segmentEnd : option Z) : run unit :=
  i ← elapse;
  if is_some segmentEnd && out_of_segment i then mret tt else if denied i then Eff.throw StoreThrew else mret tt.

(** The handler's half of an attempt, once IAM signed the job's authority. Either way the frame ends, and the attempt's
    statements are cancelled. *)
Definition run_handler (job : BoundJob) (fence : LeaseFence) (attempt : Z) (segmentEnd : option Z) : run (option JobFailure) :=
  _ ← note (Started attempt fence);
  i ← elapse;
  _ ← match handler i with
      | HandlerTimedOut | HandlerStopped => Eff.modify (fun s => with_recorder (recorder s) (S (outlived s)) s)
      | HandlerThrew _ => mret tt
      | HandlerReturned kicks => Eff.modify (fun s => with_recorder (Some kicks) (outlived s) s)
      end;
  _ ← note (Ended fence);
  _ ← cancelInFlight segmentEnd;
  mret match handler i with
       | HandlerTimedOut => Some (failure Jtimeout)
       | HandlerStopped => Some (failure Jstopped)
       | HandlerThrew error => Some (failureOf error (b_idempotent job))
       | HandlerReturned _ => None
       end.

(** [attemptOnce]: the attempt's failure, if it failed. *)
Definition attemptOnce (job : BoundJob) (fence : LeaseFence) (attempt deadline : Z) (segmentEnd : option Z) : run (option JobFailure) :=
  _ ← Eff.modify (fun s => with_recorder None (outlived s) s);
  stopped ← isStopped;
  if stopped : bool then mret (Some (failure Jstopped))
  else
    i ← elapse;
    match exchange i with
    | ExchangeTimedOut => mret (Some (failure Jtimeout))
    | ExchangeStopped => mret (Some (failure Jstopped))
    | answer =>
        stopped ← isStopped;
        if stopped : bool then mret (Some (failure Jstopped))
        else
          match answer with
          | ExchangeRefused iam_down => mret (Some (failure (if iam_down : bool then Jiam_unavailable else Junauthorized)))
          | _ =>
              budget ← remainingMs deadline;
              if budget =? 0 then mret (Some (failure Jtimeout)) else run_handler job fence attempt segmentEnd
          end
    end.

(** ** A run under a lease *)

Definition leaseMs (job : BoundJob) : Z := timeoutMs job + LEASE_GRACE_MS.

(** [surveil], its statements awaited one by one. *)
Definition surveil_steps (job : Scheduled) : run unit :=
  _ ← ask (fun i => reapCrashed dialect (s_name job) (moment i));
  now ← ask (fun i => mret (epoch_ms (m_now (moment i))));
  match periodAt (s_schedule job) now with
  | None => mret tt
  | Some period => _ ← ask (fun i => claimOverdue (s_name job) period (moment i)); mret tt
  end.

(** [completion], its reads awaited one by one. *)
Definition completion (job : Scheduled) (durable : bool) : run FinishWakes :=
  wakes ← if durable then mret [] else ask (fun _ => pending (s_name job));
  if negb durable && negb (existsb (fun w => bool_decide (w_reason w = Cron)) wakes) then mret (Completed None)
  else
    now ← ask (fun i => mret (epoch_ms (m_now (moment i))));
    mret match nextFire (s_schedule job) now with
         | None => Completed None
         | Some due => Completed (Some (s_expression job, Some due))
         end.

(** The lease a run takes, with its registration; [None] when another run holds it, or the run was told to stop. *)
Definition take_lease (job : BoundJob) (acquisition : Acquisition) : run (option LeaseFence) :=
  match acquisition with
  | AcquireFence fence => mret (Some fence)
  | _ =>
      _ ← ask (fun i => register (b_name job) (moment i));
      stopped ← isStopped;
      if stopped : bool then mret None
      else match acquisition with
           | AcquireWait =>
               _ ← surveil_steps (b_scheduled job);
               ask (fun i => acquire dialect (b_name job) (uuid i) (timeoutMs job) (leaseMs job) (moment i))
           | _ => ask (fun i => tryAcquire dialect (b_name job) (uuid i) (timeoutMs job) (leaseMs job) (moment i))
           end
  end.

(** The time an attempt that starts at [start] may last to. *)
Definition attemptEnd (job : BoundJob) (segmentEnd : option Z) (start : Z) : Z :=
  match segmentEnd with
  | None => start + timeoutMs job
  | Some segment => Z.min (start + timeoutMs job) (segment - finishReserveMs (timeoutMs job))
  end.

(** What the attempts of a run came to: the fence of the last one, and how it ended; or the run lost its lease. *)
Inductive Attempts := LeaseLost | Attempted (fence : LeaseFence) (outcome : option JobFailure).

(** The inline retries: at most [fuel] more attempts, each under a renewed lease. *)
Fixpoint retry_loop (fuel : nat) (job : BoundJob) (segmentEnd : option Z) (fence : LeaseFence) (outcome : option JobFailure) : run Attempts :=
  match fuel, outcome with
  | S fuel, Some failed_as =>
      attempts ← Eff.gets progress;
      if negb (bool_decide (fail_code failed_as = Jstopped)) && negb (final failed_as) && (attempts <? b_retries job + 1) then
        delay ← backoffMs attempts;
        renewed ← ask (fun i => renew dialect fence (uuid i) (delay + timeoutMs job) (delay + leaseMs job) (moment i));
        match renewed with
        | None => mret LeaseLost
        | Some fence =>
            i ← here;
            let deadline := attemptEnd job segmentEnd (clock_now i + delay) in
            _ ← elapse;
            _ ← set_progress (attempts + 1);
            outcome ← attemptOnce job fence (attempts + 1) deadline segmentEnd;
            _ ← note (Tried (attempts + 1) outcome);
            retry_loop fuel job segmentEnd fence outcome
        end
      else mret (Attempted fence outcome)
  | _, _ => mret (Attempted fence outcome)
  end.

Inductive FinishAnswer := FinishSegmentOver | FinishAnswered (applied : bool).

(** The finish, unless the segment ended first: [wakes] is awaited only while the segment lasts. *)
Definition run_finish (segmentEnd : option Z) (fence : LeaseFence) (outcome : JobOutcome) (wakes : run FinishWakes) : run FinishAnswer :=
  wakes ← wakes;
  i ← here;
  left ← match segmentEnd with None => mret 1 | Some segment => remainingMs segment end;
  if is_some segmentEnd && (out_of_segment i || (left =? 0)) then mret FinishSegmentOver
  else
    done ← ask (fun i => finish dialect (uuid i) fence outcome (Some wakes) (moment i));
    _ ← note (FinishedAs fence outcome done);
    mret (FinishAnswered done).

Fixpoint schedule_all (wakes : list NewWake) : run unit :=
  match wakes with
  | [] => mret tt
  | wake :: wakes => _ ← ask (fun i => schedule (uuid i) wake (moment i)); _ ← note (Wrote wake); schedule_all wakes
  end.

(** What a run does once its attempts are over. The kicks are written before the finish, so that a crash in between leaves
    them to the scheduler. *)
Definition settle (job : BoundJob) (durable : bool) (segmentEnd : option Z) (fence : LeaseFence) (outcome : option JobFailure) : run JobRunResult :=
  attempts ← Eff.gets progress;
  match outcome with
  | None =>
      kicks ← Eff.gets (fun s => from_option id [] (recorder s));
      now ← ask (fun i => mret (epoch_ms (m_now (moment i))));
      _ ← schedule_all (kick_wakes number_text kicks now);
      answer ← run_finish segmentEnd fence Succeeded (completion (b_scheduled job) durable);
      match answer with
      | FinishSegmentOver => mret (outOfSegment attempts)
      | FinishAnswered true => _ ← note (Kicked (kicked kicks)); _ ← elapse; mret (RunSucceeded attempts)
      | FinishAnswered false => failed attempts (failure Jlease_lost)
      end
  | Some outcome =>
      if bool_decide (fail_code outcome = Jstopped) then
        done ← ask (fun i => finish dialect (uuid i) fence Failed None (moment i));
        _ ← note (FinishedAs fence Failed done);
        mret (RunFailed attempts Jstopped None)
      else if durable && negb (final outcome) && (attempts <? b_retries job + 1) then
        i ← here;
        delay ← backoffMs attempts;
        _ ← elapse;
        answer ← run_finish segmentEnd fence Failed (mret (RetryAt (Some (clock_now i + delay))));
        match answer with
        | FinishSegmentOver => mret (outOfSegment attempts)
        | FinishAnswered false => failed attempts (failure Jlease_lost)
        | FinishAnswered true => mret (RunFailed attempts (fail_code outcome) (why outcome))
        end
      else
        answer ← run_finish segmentEnd fence Failed (completion (b_scheduled job) durable);
        match answer with
        | FinishSegmentOver => mret (outOfSegment attempts)
        | FinishAnswered _ => failed attempts outcome
        end
  end.

Definition max_attempt (wakes : list Wake) : Z := fold_left (fun most w => Z.max most (attempt w)) wakes 0.

Definition runLeased (job : BoundJob) (acquisition : Acquisition) (retries : Retries) : run JobRunResult :=
  lease ← take_lease job acquisition;
  match lease with
  | None => mret RunSkipped
  | Some fence =>
      i ← here;
      let segmentEnd := match retries with Durable => Some (clock_now i + timeoutMs job) | Inline => None end in
      let deadline := attemptEnd job segmentEnd (clock_now i) in
      _ ← pendingTaken job;
      owned ← match retries with Durable => ask (fun _ => ownedWakes (b_name job)) | Inline => mret [] end;
      let durable := (0 <? length owned)%nat in
      let first := if durable then max_attempt owned + 1 else 1 in
      _ ← set_progress first;
      outcome ← attemptOnce job fence first deadline segmentEnd;
      _ ← note (Tried first outcome);
      over ← if durable then mret (Attempted fence outcome) else retry_loop (Z.to_nat (b_retries job)) job segmentEnd fence outcome;
      match over with
      | LeaseLost => attempts ← Eff.gets progress; failed attempts (failure Jlease_lost)
      | Attempted fence outcome => settle job durable segmentEnd fence outcome
      end
  end.

Definition runOnce (job : BoundJob) (acquisition : Acquisition) (retries : Retries) : run JobRunResult :=
  _ ← set_progress 0;
  Eff.catch (runLeased job acquisition retries) (fun _ =>
    attempts ← Eff.gets progress;
    stopped ← isStopped;
    if stopped : bool then mret (RunFailed attempts Jstopped None) else failed attempts (failure Jdriver_failed)).

(** The loop of [runJob]: one more run while a kick arrived after the last one started and it succeeded. [hand_over] is the run
    of [handOver], once it set the flag. [None] is no answer of the code, only a lack of fuel. *)
Fixpoint follow_up (rounds : nat) (job : BoundJob) (retries : Retries) (hand_over : run (option JobRunResult)) (result : JobRunResult) : run (option JobRunResult) :=
  stopped ← isStopped;
  again ← if is_succeeded result && negb stopped then pendingTaken job else mret false;
  if again : bool then
    match rounds with
    | O => mret None
    | S rounds =>
        next ← runOnce job AcquireTry retries;
        if negb (is_skipped next) then follow_up rounds job retries hand_over next
        else
          marked ← markPending_safely job;
          if marked : bool then
            handed ← hand_over;
            mret match handed with None => None | Some handed => Some (if is_skipped handed then result else handed) end
          else mret (Some result)
    end
  else mret (Some result).

Fixpoint runJob (fuel : nat) (job : BoundJob) (acquisition : Acquisition) (retries : Retries) : run (option JobRunResult) :=
  match fuel with
  | O => mret None
  | S fuel => result ← runOnce job acquisition retries; follow_up fuel job retries (runJob fuel job AcquireTry retries) result
  end.

(** [runFrameworkJob]: one attempt without credential or retries; [acquired] is the lease the alarm took. *)
Definition runFrameworkJob (job : BoundJob) (acquired : option LeaseFence) : run JobRunResult :=
  _ ← set_progress 0;
  taken ← match acquired with
          | Some fence => mret (Some (Some fence))
          | None =>
              Eff.catch (
                _ ← ask (fun i => register (b_name job) (moment i));
                _ ← surveil_steps (b_scheduled job);
                fence ← ask (fun i => acquire dialect (b_name job) (uuid i) (timeoutMs job) (leaseMs job) (moment i));
                mret (Some fence)) (fun _ => mret None)
          end;
  match taken with
  | None => failed 0 (failure Jdriver_failed)
  | Some None => mret RunSkipped
  | Some (Some fence) =>
      i ← here;
      let segmentEnd := match acquired with Some _ => Some (clock_now i + timeoutMs job) | None => None end in
      _ ← note (Started 1 fence);
      i ← elapse;
      let outcome := match handler i with
                     | HandlerTimedOut => Some (failure Jtimeout)
                     | HandlerStopped => Some (failure Jstopped)
                     | HandlerThrew error => Some (failureOf error false)
                     | HandlerReturned _ => None
                     end in
      _ ← note (Ended fence);
      _ ← note (Tried 1 outcome);
      let stopped_it := match outcome with Some o => bool_decide (fail_code o = Jstopped) | None => false end in
      over ← Eff.catch (
        _ ← cancelInFlight segmentEnd;
        wakes ← if negb (is_some outcome) || (is_some acquired && negb stopped_it)
                then wakes ← completion (b_scheduled job) (is_some acquired); mret (Some wakes)
                else _ ← elapse; mret None;
        i ← here;
        left ← match segmentEnd with None => mret 1 | Some segment => remainingMs segment end;
        if is_some segmentEnd && (out_of_segment i || (left =? 0)) then mret (Some (outOfSegment 1))
        else
          done ← ask (fun i => finish dialect (uuid i) fence match outcome with None => Succeeded | Some _ => Failed end wakes (moment i));
          _ ← note (FinishedAs fence match outcome with None => Succeeded | Some _ => Failed end done);
          match outcome with
          | None => if done : bool then mret (Some (RunSucceeded 1)) else result ← failed 1 (failure Jlease_lost); mret (Some result)
          | Some _ => mret None
          end) (fun _ =>
        stopped ← isStopped;
        if stopped : bool then mret None else result ← failed 1 (failure Jdriver_failed); mret (Some result));
      match over with
      | Some result => mret result
      | None =>
          stopped ← isStopped;
          match outcome with
          | None => mret (RunFailed 1 Jstopped None)
          | Some outcome => if stopped_it || stopped then mret (RunFailed 1 Jstopped None) else failed 1 outcome
          end
      end
  end.

(** [kickOnce] *)
Definition kickOnce (fuel : nat) (job : BoundJob) : run unit :=
  stopped ← isStopped;
  if stopped : bool then _ ← markPending_safely job; mret tt
  else
    result ← runJob fuel job AcquireTry Inline;
    match result with
    | Some RunSkipped => marked ← markPending_safely job; if marked : bool then _ ← runJob fuel job AcquireTry Inline; mret tt else mret tt
    | _ => mret tt
    end.

End Run.

(** ** A run follows its protocol *)

(** Where a run stands. *)
Inductive Phase :=
| PReady
| PAttempt (n : Z) (fence : LeaseFence)
| PEnded (n : Z)
| PTried (n : Z) (outcome : option JobFailure) (woken : list string) (* the jobs whose kicks' wakes are written *)
| PFinished (succeeded applied : bool) (woken : list string)
| PKicked
| PReported.

Section Protocol.
(** The job's retries, and whether a failed attempt is retried in the run itself. *)
Variables (retries : Z) (inline : bool).

(** Another attempt may follow one that failed: unless it was stopped, or a repeat could do harm, or the attempts are used up. *)
Definition retryable (n : Z) (outcome : option JobFailure) : bool :=
  match outcome with
  | Some o => negb (bool_decide (fail_code o = Jstopped)) && negb (final o) && (n <? retries + 1)
  | None => false
  end.

(** The protocol: a frame ends before the next attempt; a further attempt only after a retryable failure, and numbered next;
    kicks' wakes only after an attempt that succeeded, and all of them before the finish; one finish, as the last attempt came
    out, and under inline retries only when they are used up; jobs kicked only after a finish that still held the lease, each
    of them a job whose wake is written; a report only of a run that did not succeed. *)
Definition advance (p : Phase) (a : Action) : option Phase :=
  match p, a with
  | PReady, Started n fence => Some (PAttempt n fence)
  | PReady, Tried n (Some o) => Some (PTried n (Some o) [])
  | PAttempt n fence, Ended fence' => if bool_decide (fence = fence') then Some (PEnded n) else None
  | PEnded n, Tried n' outcome => if n =? n' then Some (PTried n outcome []) else None
  | PTried n outcome _, Started n' fence => if retryable n outcome && (n' =? n + 1) then Some (PAttempt n' fence) else None
  | PTried n outcome _, Tried n' (Some o) => if retryable n outcome && (n' =? n + 1) then Some (PTried n' (Some o) []) else None
  | PTried n None woken, Wrote wake => if bool_decide (n_reason wake = Kick) then Some (PTried n None (n_job wake :: woken)) else None
  | PTried n None woken, FinishedAs _ Succeeded applied => Some (PFinished true applied woken)
  | PTried n (Some o) woken, FinishedAs _ Failed applied => if inline && retryable n (Some o) then None else Some (PFinished false applied woken)
  | PFinished true true woken, Kicked jobs => if forallb (fun job => Js.elem job woken) jobs then Some PKicked else None
  | PFinished true true _, Reported _ _ | PKicked, Reported _ _ => None
  | _, Reported _ _ => Some PReported
  | _, _ => None
  end.

(** The phase a trace (newest first) leads to, if every action of it was allowed. *)
Fixpoint phase_of (trace : list Action) : option Phase :=
  match trace with
  | [] => Some PReady
  | a :: trace => match phase_of trace with Some p => advance p a | None => None end
  end.

End Protocol.

(** *** Every kick is a wake *)

Section KickedJobs.
Context (number_text : Z -> string).

(** The text of a whole number has no colon. *)
Definition digits_only : Prop := forall n, Js.forall_units (fun c => negb (Ascii.eqb c ":")) (number_text n) = true.

Hypothesis digits : digits_only.

Lemma colon_cut a b n m : Js.forall_units (fun c => negb (Ascii.eqb c ":")) n = true -> Js.forall_units (fun c => negb (Ascii.eqb c ":")) m = true ->
  a +:+ ":" +:+ n = b +:+ ":" +:+ m -> a = b.
Proof.
  change (":" +:+ n) with (String ":" n). change (":" +:+ m) with (String ":" m).
  assert (Hcolon : forall a n, Js.forall_units (fun c => negb (Ascii.eqb c ":")) (a +:+ String ":" n) = false).
  { intros a0 n0. induction a0 as [|c a0 IH]; [done|]. cbn [String.app Js.forall_units]. rewrite IH. apply andb_false_r. }
  intros Hn Hm. revert b. induction a as [|c a IH]; intros [|c' b]; cbn; [done| | |].
  - intros [= _ ->]. by rewrite Hcolon in Hn.
  - intros [= _ <-]. by rewrite Hcolon in Hm.
  - intros [= -> E]. f_equal. by apply IH.
Qed.

Lemma kickKey_job job due job' due' : kickKey number_text job due = kickKey number_text job' due' -> job = job'.
Proof. unfold kickKey. intros E. cbn in E. injection E as E. by eapply colon_cut, E. Qed.

(** A kept wake is a kick, under a key of its job. *)
Definition keyed (e : string * NewWake) : Prop := n_reason e.2 = Kick /\ exists due, e.1 = kickKey number_text (n_job e.2) due.

Lemma keep_wake_keyed key new wakes : keyed (key, new) -> Forall keyed wakes -> Forall keyed (keep_wake key new wakes).
Proof.
  intros Hn Hw. induction Hw as [|[k kept] wakes Hk Hw IH]; cbn [keep_wake]; [by constructor|]. destruct (String.eqb_spec k key) as [->|].
  - constructor; [|done]. destruct (n_due kept), (n_due new); try done. by destruct (_ <? _).
  - by constructor.
Qed.

Lemma keep_wake_keys key new wakes k : k = key \/ k ∈ map fst wakes -> k ∈ map fst (keep_wake key new wakes).
Proof.
  induction wakes as [|[k' kept] wakes IH]; cbn [keep_wake map fst]; [intros [->|Hk]; [by left|by apply elem_of_nil in Hk]|]. rewrite elem_of_cons.
  destruct (String.eqb_spec k' key) as [->|]; cbn [map fst]; rewrite elem_of_cons; [by intros [->|[->|?]]; auto|]. intros [->|[->|?]]; auto.
Qed.

Lemma kick_wakes_jobs kicks now :
  Forall (fun wake => n_reason wake = Kick) (kick_wakes number_text kicks now) /\
  forall kick, kick ∈ kicks -> exists wake, wake ∈ kick_wakes number_text kicks now /\ n_job wake = kick_job kick.
Proof.
  unfold kick_wakes. match goal with |- context [fold_left ?f kicks []] => set (add := f) end.
  assert (Hfold : forall wakes, Forall keyed wakes -> Forall keyed (fold_left add kicks wakes) /\
    (forall k, k ∈ map fst wakes -> k ∈ map fst (fold_left add kicks wakes)) /\
    forall kick, kick ∈ kicks -> kickKey number_text (kick_job kick) (from_option id now (kick_at kick)) ∈ map fst (fold_left add kicks wakes)).
  { induction kicks as [|kick kicks IH]; intros wakes Hw; cbn [fold_left]; [split_and!; [done|done|]; intros kick Hk; by apply elem_of_nil in Hk|].
    set (due := from_option id now (kick_at kick)).
    assert (Hadd : Forall keyed (add wakes kick)) by (apply keep_wake_keyed; [split; [done|]; by exists due|done]).
    destruct (IH _ Hadd) as (H1 & H2 & H3). split_and!; [done| |].
    - intros k Hk. apply H2, keep_wake_keys. by right.
    - intros kick' [->|Hk]%elem_of_cons; [|by apply H3]. apply H2, keep_wake_keys. by left. }
  destruct (Hfold [] (Forall_nil_2 _)) as (Hk & _ & Hin). clear Hfold. set (wakes := fold_left add kicks []) in *. split.
  - apply Forall_forall. intros w (e & -> & He)%list_elem_of_fmap. eapply Forall_forall in Hk as [? _]; [|exact He]. done.
  - intros kick Hkick. apply Hin, list_elem_of_fmap in Hkick as (e & E & He). exists e.2. split; [apply list_elem_of_fmap; by exists e|].
    eapply Forall_forall in Hk as (_ & due & Ee); [|exact He]. symmetry. eapply kickKey_job. by rewrite E, Ee.
Qed.

Lemma kicked_recorded kicks job : job ∈ kicked kicks -> exists kick, kick ∈ kicks /\ kick_job kick = job.
Proof.
  unfold kicked. intros Hj.
  assert (Hf : forall names seen, job ∈ fold_left (fun jobs j => if Js.elem j jobs then jobs else jobs ++ [j]) names seen -> job ∈ seen \/ job ∈ names).
  { induction names as [|name names IH]; intros seen; cbn [fold_left]; [by left|]. intros [Hs|Hs]%IH; [|right; by right].
    destruct (Js.elem name seen); [by left|]. apply elem_of_app in Hs as [?|[->|Hs]%elem_of_cons]; [by left|right; by left|by apply elem_of_nil in Hs]. }
  destruct (Hf _ _ Hj) as [Hs|(kick & -> & Hk)%list_elem_of_fmap]; [by apply elem_of_nil in Hs|].
  apply list_elem_of_In, filter_In in Hk as [Hk _]. exists kick. split; [by apply list_elem_of_In|done].
Qed.

(** Every job a run kicks has a wake among those it wrote. *)
Lemma kicked_woken kicks now : forallb (fun job => Js.elem job (rev (map n_job (kick_wakes number_text kicks now)))) (kicked kicks) = true.
Proof.
  apply forallb_forall. intros job Hj%list_elem_of_In. destruct (kicked_recorded kicks job Hj) as (kick & Hk & <-).
  destruct (proj2 (kick_wakes_jobs kicks now) kick Hk) as (wake & Hw & Ej). apply elem_spec. rewrite <-Ej. apply list_elem_of_In, in_rev. rewrite rev_involutive.
  apply list_elem_of_In, list_elem_of_fmap. by exists wake.
Qed.

End KickedJobs.

Section Runs.
Context (dialect : SqlDialect) `{Runtime} (number_text : Z -> string) (env : nat -> Interval).

(** [steady m]: [m] does nothing the trace shows, and leaves the count of attempts. *)
Definition steady {A} (m : run A) : Prop := forall s, trace (m s).2 = trace s /\ progress (m s).2 = progress s.

Lemma steady_ret {A} (a : A) : steady (mret a).
Proof. done. Qed.

Lemma steady_throw {A} x : steady (A := A) (Eff.throw x).
Proof. done. Qed.

Lemma steady_bind {A B} (m : run A) (f : A -> run B) : steady m -> (forall a, steady (f a)) -> steady (m ≫= f).
Proof.
  intros Hm Hf s. destruct (Hm s) as [Ht Hp]. unfold mbind, eff_bind. destruct (m s) as [[x|a] s1]; [done|]. cbn in *. destruct (Hf a s1) as [-> ->]. done.
Qed.

Lemma steady_catch {A} (m : run A) h : steady m -> (forall x, steady (h x)) -> steady (Eff.catch m h).
Proof. intros Hm Hh s. destruct (Hm s) as [Ht Hp]. unfold Eff.catch. destruct (m s) as [[x|a] s1]; [|done]. cbn in *. destruct (Hh x s1) as [-> ->]. done. Qed.

Lemma steady_modify f : (forall s, trace (f s) = trace s /\ progress (f s) = progress s) -> steady (Eff.modify f).
Proof. intros Hf s. apply Hf. Qed.

Lemma steady_gets {A} (f : RunState -> A) : steady (Eff.gets f).
Proof. done. Qed.

Lemma steady_elapse : steady (elapse dialect env).
Proof. unfold elapse. apply steady_bind; [|done]. apply steady_modify. intros s. cbv zeta. destruct (outlived s); [done|]. by destruct (returned_late _). Qed.

Lemma steady_ask {A} (o : Interval -> op A) : steady (ask dialect env o).
Proof. unfold ask. apply steady_bind; [apply steady_elapse|]. intros i. destruct (denied i); [done|]. intros s. by destruct (o i (store s)) as [[e|a] t]. Qed.

#[local] Hint Resolve steady_ret steady_throw steady_gets steady_elapse steady_ask : eff.

Ltac steady_auto :=
  repeat first
    [ solve [eauto 2 with eff]
    | match goal with
      | |- steady (_ ≫= _) => apply steady_bind; [|intros ?]
      | |- steady (Eff.catch _ _) => apply steady_catch; [|intros ?]
      | |- steady (match ?x with _ => _ end) => destruct x
      end ].

Lemma steady_here : steady (here env).
Proof. apply steady_gets. Qed.

Lemma steady_isStopped : steady (isStopped env).
Proof. unfold isStopped, here. steady_auto. Qed.

Lemma steady_backoff n : steady (backoffMs env n).
Proof. unfold backoffMs, here. steady_auto. Qed.

Lemma steady_remaining d : steady (remainingMs env d).
Proof. unfold remainingMs, here. steady_auto. Qed.

Lemma steady_pendingTaken job : steady (pendingTaken dialect env job).
Proof. unfold pendingTaken. steady_auto. Qed.

Lemma steady_markPending job : steady (markPending_safely dialect env job).
Proof. unfold markPending_safely. steady_auto. Qed.

Lemma steady_cancel segmentEnd : steady (cancelInFlight dialect env segmentEnd).
Proof. unfold cancelInFlight. steady_auto. Qed.

Lemma steady_surveil job : steady (surveil_steps dialect env job).
Proof. unfold surveil_steps. steady_auto. Qed.

Lemma steady_completion job durable : steady (completion dialect env job durable).
Proof. unfold completion. steady_auto. Qed.

#[local] Hint Resolve steady_here steady_isStopped steady_backoff steady_remaining steady_pendingTaken steady_markPending steady_cancel steady_surveil steady_completion : eff.

Lemma steady_take job acquisition : steady (take_lease dialect env job acquisition).
Proof. unfold take_lease. steady_auto. Qed.

#[local] Hint Resolve steady_take : eff.

Definition is_inline (mode : Retries) : bool := match mode with Inline => true | Durable => false end.

Section OneJob.
Context (job : BoundJob) (mode : Retries).

#[local] Notation inline := (is_inline mode).

Definition phase (s : RunState) : option Phase := phase_of (b_retries job) inline (trace s).

Definition stands (p : Phase) (k : Z) (s : RunState) : Prop := phase s = Some p /\ progress s = k.

(** Whether a finish of the run found the lease held and the attempt succeeded. *)
Definition won (p : Phase) : bool := match p with PKicked | PFinished true true _ => true | _ => false end.

(** The run may still fail: it has not finished its lease as succeeded. *)
Definition unfinished (s : RunState) : Prop := exists p, phase s = Some p /\ won p = false.

(** What a result says of the phase. *)
Definition told (r : JobRunResult) (s : RunState) : Prop :=
  match r with RunSucceeded _ => phase s = Some PKicked | RunFailed _ _ _ => unfinished s | RunSkipped => phase s = Some PReady end.

Lemma hoare_steady {A} (m : run A) p k : steady m -> Eff.hoare (stands p k) m (fun _ => stands p k) (fun _ => stands p k).
Proof. intros Hm s [Hp Hk]. destruct (Hm s) as [Et Ek]. unfold stands, phase. destruct (m s) as [[x|a] s']; cbn in *; by rewrite Et, Ek. Qed.

Lemma unfinished_steady {A} (m : run A) : steady m -> Eff.hoare unfinished m (fun _ => unfinished) (fun _ => unfinished).
Proof. intros Hm s (p & Hp & ?). destruct (Hm s) as [Et Ek]. unfold unfinished, phase. destruct (m s) as [[x|a] s']; cbn in *; rewrite Et; by exists p. Qed.

Lemma stands_unfinished p k s : won p = false -> stands p k s -> unfinished s.
Proof. intros ? [? _]. by exists p. Qed.

Lemma hoare_note a p p' k E : advance (b_retries job) inline p a = Some p' -> Eff.hoare (stands p k) (note a) (fun _ => stands p' k) E.
Proof. intros Ha s [Hp Hk]. cbn. unfold stands, phase. cbn. unfold phase in Hp. by rewrite Hp. Qed.

(** A step that changes neither, then the rest. *)
Lemma hoare_pass {A B} (m : run A) (f : A -> run B) p k Q E :
  steady m -> (forall s, stands p k s -> E StoreThrew s) -> (forall a, Eff.hoare (stands p k) (f a) Q E) -> Eff.hoare (stands p k) (m ≫= f) Q E.
Proof.
  intros Hm HE Hf. eapply hoare_bind; [|exact Hf]. eapply hoare_weaken; [by apply hoare_steady|done|done|]. intros [] s. apply HE.
Qed.

Lemma hoare_progress p k n E : Eff.hoare (stands p k) (set_progress n) (fun _ => stands p n) E.
Proof. by intros s [Hp _]. Qed.

Lemma hoare_attempts {B} (f : Z -> run B) p k Q E : Eff.hoare (stands p k) (f k) Q E -> Eff.hoare (stands p k) (n ← Eff.gets progress; f n) Q E.
Proof. intros Hf s Hs. unfold mbind, eff_bind, Eff.gets. rewrite (proj2 Hs). by apply Hf. Qed.

Lemma failed_told attempts o : Eff.hoare unfinished (failed dialect env attempts o) told (fun _ _ => False).
Proof.
  intros s (p & Hp & Hf). unfold failed, mbind, eff_bind, note, Eff.modify. cbv beta iota zeta.
  set (s1 := with_action _ s). assert (Hs1 : unfinished s1).
  { exists PReported. split; [|done]. unfold phase, s1. cbn. unfold phase in Hp. rewrite Hp. by destruct p as [| | |? [?|] ?|[] [] ?| |]. }
  pose proof (unfinished_steady (elapse dialect env) steady_elapse s1 Hs1) as He. unfold elapse, here, mbind, eff_bind, Eff.modify, Eff.gets in *. cbn in *. exact He.
Qed.

(** Where an attempt may start as the [n]th. *)
Definition ready (p : Phase) (n : Z) : Prop := p = PReady \/ exists n0 o0, p = PTried n0 o0 [] /\ retryable (b_retries job) n0 o0 = true /\ n = n0 + 1.

Lemma ready_started p n fence : ready p n -> advance (b_retries job) inline p (Started n fence) = Some (PAttempt n fence).
Proof. intros [->|(n0 & [o0|] & -> & Hr & ->)]; [done| |done]. cbn [advance]. by rewrite Hr, Z.eqb_refl. Qed.

Lemma ready_tried p n o : ready p n -> advance (b_retries job) inline p (Tried n (Some o)) = Some (PTried n (Some o) []).
Proof. intros [->|(n0 & [o0|] & -> & Hr & ->)]; [done| |done]. cbn [advance]. by rewrite Hr, Z.eqb_refl. Qed.

Lemma ready_unfinished p n k s : ready p n -> stands p k s -> unfinished s.
Proof. intros [->|(n0 & o0 & -> & _)]; by apply stands_unfinished. Qed.

Definition tried (p : Phase) (n k : Z) (o : option JobFailure) (s : RunState) : Prop :=
  (stands p k s /\ is_some o = true) \/ stands (PEnded n) k s.

Lemma run_handler_spec fence n p k segmentEnd : ready p n ->
  Eff.hoare (stands p k) (run_handler dialect env job fence n segmentEnd) (tried p n k) (fun _ => unfinished).
Proof.
  intros Hr. unfold run_handler. eapply hoare_bind; [by apply (hoare_note _ _ (PAttempt n fence)), ready_started|]. intros [].
  apply hoare_pass; [apply steady_elapse|intros s; by apply stands_unfinished|]. intros i.
  apply hoare_pass; [destruct (handler i); first [apply steady_ret|by apply steady_modify]|intros s; by apply stands_unfinished|]. intros _.
  eapply hoare_bind; [apply (hoare_note _ _ (PEnded n)); cbn; by rewrite bool_decide_eq_true_2|]. intros [].
  apply hoare_pass; [apply steady_cancel|intros s; by apply stands_unfinished|]. intros _. intros s Hs. by right.
Qed.

Lemma attemptOnce_spec fence n deadline segmentEnd p k : ready p n ->
  Eff.hoare (stands p k) (attemptOnce dialect env job fence n deadline segmentEnd) (tried p n k) (fun _ => unfinished).
Proof.
  intros Hr. unfold attemptOnce.
  assert (Hfail : forall o, Eff.hoare (stands p k) (mret (Some o) : run (option JobFailure)) (tried p n k) (fun _ => unfinished)) by (intros o s Hs; left; done).
  pose proof (fun s => ready_unfinished p n k s Hr) as Hu. apply hoare_pass; [by apply steady_modify|done|]. intros _.
  apply hoare_pass; [apply steady_isStopped|done|]. intros [|]; [apply Hfail|].
  apply hoare_pass; [apply steady_elapse|done|]. intros i. destruct (exchange i) as [| | |down]; try apply Hfail.
  all: apply hoare_pass; [apply steady_isStopped|done|]; intros [|]; [apply Hfail|]; try apply Hfail.
  apply hoare_pass; [apply steady_remaining|done|]. intros budget. destruct (budget =? 0); [apply Hfail|]. by apply run_handler_spec.
Qed.

(** An attempt and what it came to. *)
Lemma tried_spec p n k o E : ready p n -> Eff.hoare (tried p n k o) (note (Tried n o)) (fun _ => stands (PTried n o []) k) E.
Proof.
  intros Hr s [[Hs Ho]|Hs].
  - destruct o as [o|]; [|done]. by eapply hoare_note; [by apply ready_tried|].
  - eapply hoare_note; [|exact Hs]. cbn. by rewrite Z.eqb_refl.
Qed.

Definition attempted (r : Attempts) (s : RunState) : Prop :=
  match r with
  | LeaseLost => unfinished s
  | Attempted _ o => exists n, stands (PTried n o []) n s /\ (inline = true -> retryable (b_retries job) n o = false)
  end.

Lemma retry_loop_spec fuel segmentEnd fence n o : (Z.to_nat (b_retries job + 1 - n) <= fuel)%nat ->
  Eff.hoare (stands (PTried n o []) n) (retry_loop dialect env fuel job segmentEnd fence o) attempted (fun _ => unfinished).
Proof.
  revert fence n o. induction fuel as [|fuel IH]; intros fence n o Hfuel; cbn [retry_loop].
  - intros s Hs. exists n. split; [done|]. intros _. destruct o as [o|]; [|done]. unfold retryable. rewrite (proj2 (Z.ltb_ge n _)) by lia. apply andb_false_r.
  - destruct o as [o|]; [|intros s Hs; by exists n].
    assert (Hu : forall s, stands (PTried n (Some o) []) n s -> unfinished s) by (intros s; by apply stands_unfinished).
    apply hoare_attempts.
    destruct (negb _ && _ && _) eqn:Er.
    + assert (Hr : ready (PTried n (Some o) []) (n + 1)) by (right; exists n, (Some o); done).
      apply hoare_pass; [apply steady_backoff|done|]. intros delay. apply hoare_pass; [apply steady_ask|done|]. intros [fence'|]; [|intros s Hs; by apply Hu].
      apply hoare_pass; [apply steady_here|done|]. intros i. cbv zeta. apply hoare_pass; [apply steady_elapse|done|]. intros _.
      eapply hoare_bind; [apply hoare_progress|]. intros [].
      eapply hoare_bind; [by apply attemptOnce_spec|]. intros o'. eapply hoare_bind; [by apply tried_spec|]. intros []. apply IH. lia.
    + intros s Hs. exists n. split; [done|]. intros _. exact Er.
Qed.

Definition finished (n : Z) (o : option JobFailure) (woken : list string) (k : Z) (a : FinishAnswer) (s : RunState) : Prop :=
  match a with FinishSegmentOver => stands (PTried n o woken) k s | FinishAnswered b => stands (PFinished (negb (is_some o)) b woken) k s end.

Definition outcome_of (o : option JobFailure) : JobOutcome := match o with None => Succeeded | Some _ => Failed end.

Lemma finished_as n o woken fence b : inline && retryable (b_retries job) n o = false ->
  advance (b_retries job) inline (PTried n o woken) (FinishedAs fence (outcome_of o) b) = Some (PFinished (negb (is_some o)) b woken).
Proof. intros Hr. destruct o as [o|]; cbn [advance outcome_of is_some negb]; [by rewrite Hr|done]. Qed.

Lemma run_finish_spec segmentEnd fence n o woken k wakes : steady wakes -> inline && retryable (b_retries job) n o = false ->
  Eff.hoare (stands (PTried n o woken) k) (run_finish dialect env segmentEnd fence (outcome_of o) wakes) (finished n o woken k) (fun _ => unfinished).
Proof.
  intros Hw Hr. assert (Hu : forall s, stands (PTried n o woken) k s -> unfinished s) by (intros s; by apply stands_unfinished). unfold run_finish.
  apply hoare_pass; [done|done|]. intros w. apply hoare_pass; [apply steady_here|done|]. intros i.
  apply hoare_pass; [destruct segmentEnd; [apply steady_remaining|apply steady_ret]|done|]. intros left.
  destruct (is_some segmentEnd && _); [by intros s Hs|]. apply hoare_pass; [apply steady_ask|done|]. intros b.
  eapply hoare_bind; [by apply hoare_note, finished_as|]. intros []. by intros s Hs.
Qed.

(** Waiting throws nothing. *)
Lemma elapse_stands p k E : Eff.hoare (stands p k) (elapse dialect env) (fun _ => stands p k) E.
Proof.
  intros s Hs. pose proof (hoare_steady (elapse dialect env) p k steady_elapse s Hs) as He. unfold elapse, here, mbind, eff_bind, Eff.modify, Eff.gets in *. exact He.
Qed.

(** The wakes of the kicks, all of them before the finish. *)
Lemma schedule_all_spec wakes n woken k : Forall (fun wake => n_reason wake = Kick) wakes ->
  Eff.hoare (stands (PTried n None woken) k) (schedule_all dialect env wakes) (fun _ => stands (PTried n None (rev (map n_job wakes) ++ woken)) k) (fun _ => unfinished).
Proof.
  intros Hw. revert woken. induction Hw as [|wake wakes Hk Hw IH]; intros woken; cbn [schedule_all map rev]; [by intros s|].
  apply hoare_pass; [apply steady_ask|intros s; by apply stands_unfinished|]. intros row.
  eapply hoare_bind; [apply (hoare_note _ _ (PTried n None (n_job wake :: woken))); cbn; by rewrite bool_decide_eq_true_2|]. intros [].
  rewrite <-app_assoc. apply IH.
Qed.

(** After an attempt that succeeded. *)
Lemma settle_success durable segmentEnd fence n : digits_only number_text ->
  Eff.hoare (stands (PTried n None []) n) (settle dialect number_text env job durable segmentEnd fence None) told (fun _ => unfinished).
Proof.
  intros Hdigits. unfold settle. apply hoare_attempts.
  assert (Hu : forall woken s, stands (PTried n None woken) n s -> unfinished s) by (intros woken s; by apply stands_unfinished).
  apply hoare_pass; [apply steady_gets|apply Hu|]. intros kicks. apply hoare_pass; [apply steady_ask|apply Hu|]. intros now.
  eapply hoare_bind; [apply schedule_all_spec, kick_wakes_jobs, Hdigits|]. intros []. rewrite app_nil_r. set (woken := rev _).
  eapply hoare_bind; [apply (run_finish_spec segmentEnd fence n None woken n); [apply steady_completion|apply andb_false_r]|]. intros [|[]]; [by intros s Hs; eapply Hu| |].
  - eapply hoare_bind; [apply (hoare_note _ _ PKicked); cbn; unfold woken; by rewrite kicked_woken|]. intros [].
    eapply hoare_bind; [apply elapse_stands|]. intros i s Hs. exact (proj1 Hs).
  - eapply hoare_weaken; [apply failed_told|intros s; by apply stands_unfinished|done|done].
Qed.

(** After a last attempt that failed. *)
Lemma settle_failure durable segmentEnd fence n o :
  (durable = true -> inline = false) -> (inline = true -> retryable (b_retries job) n (Some o) = false) ->
  Eff.hoare (stands (PTried n (Some o) []) n) (settle dialect number_text env job durable segmentEnd fence (Some o)) told (fun _ => unfinished).
Proof.
  intros Hd Hi. assert (Hr : inline && retryable (b_retries job) n (Some o) = false) by (destruct (is_inline mode) eqn:E; [by rewrite Hi|done]).
  assert (Hu : forall s, stands (PTried n (Some o) []) n s -> unfinished s) by (intros s; by apply stands_unfinished).
  assert (Hf : forall b attempts x, Eff.hoare (stands (PFinished false b []) n) (failed dialect env attempts x) told (fun _ => unfinished)).
  { intros b attempts x. eapply hoare_weaken; [apply failed_told|intros s; by apply stands_unfinished|done|done]. }
  unfold settle. apply hoare_attempts. destruct (bool_decide (fail_code o = Jstopped)).
  - apply hoare_pass; [apply steady_ask|done|]. intros b. eapply hoare_bind; [by apply hoare_note, (finished_as n (Some o))|]. intros [] s Hs. by eapply stands_unfinished, Hs.
  - destruct (durable && _ && _).
    + apply hoare_pass; [apply steady_here|done|]. intros i. apply hoare_pass; [apply steady_backoff|done|]. intros delay. apply hoare_pass; [apply steady_elapse|done|]. intros _.
      eapply hoare_bind; [by apply (run_finish_spec segmentEnd fence n (Some o) [] n), Hr|]. intros [|[]]; [by intros s Hs; apply Hu| |apply Hf].
      intros s Hs. by eapply stands_unfinished, Hs.
    + eapply hoare_bind; [by apply (run_finish_spec segmentEnd fence n (Some o) [] n), Hr; apply steady_completion|]. intros [|b]; [by intros s Hs; apply Hu|apply Hf].
Qed.

Lemma settle_stands durable segmentEnd fence n o : digits_only number_text ->
  (durable = true -> inline = false) -> (inline = true -> retryable (b_retries job) n o = false) ->
  Eff.hoare (stands (PTried n o []) n) (settle dialect number_text env job durable segmentEnd fence o) told (fun _ => unfinished).
Proof. intros Hdigits Hd Hi. destruct o as [o|]; [by apply settle_failure|by apply settle_success]. Qed.

Lemma runLeased_spec acquisition : digits_only number_text -> 0 <= b_retries job ->
  Eff.hoare (stands PReady 0) (runLeased dialect number_text env job acquisition mode) told (fun _ => unfinished).
Proof.
  intros Hdigits Hret. assert (Hu : forall k s, stands PReady k s -> unfinished s) by (intros k s; by apply stands_unfinished). unfold runLeased.
  apply hoare_pass; [apply steady_take|apply Hu|]. intros [fence|]; [|intros s Hs; exact (proj1 Hs)].
  apply hoare_pass; [apply steady_here|apply Hu|]. intros i. cbv zeta. apply hoare_pass; [apply steady_pendingTaken|apply Hu|]. intros _.
  set (segmentEnd := match mode with Inline => _ | Durable => _ end).
  eapply hoare_bind with (R := fun owned s => stands PReady 0 s /\ (owned = [] \/ inline = false)).
  { destruct mode; cbn [is_inline]; [intros s Hs; split; [done|by left]|]. eapply hoare_weaken; [apply (hoare_steady (ask dialect env (fun _ => ownedWakes (b_name job)))), steady_ask|done| |].
    - intros a s Hs. split; [exact Hs|by right].
    - intros x s. apply Hu. }
  intros owned s0 [Hs0 Hown]. revert s0 Hs0. set (durable := (0 <? length owned)%nat).
  assert (Hd : durable = true -> inline = false) by (intros Hd; destruct Hown as [->|?]; done). set (first := if durable then _ else 1).
  match goal with |- forall s0, stands PReady 0 s0 -> match ?m s0 with _ => _ end => change (Eff.hoare (stands PReady 0) m told (fun _ => unfinished)) end.
  eapply hoare_bind; [apply (hoare_progress _ _ first)|]. intros []. eapply hoare_bind; [apply (attemptOnce_spec fence first _ segmentEnd PReady first); by left|]. intros o.
  eapply hoare_bind; [by apply tried_spec; left|]. intros [].
  eapply hoare_bind with (R := attempted).
  - destruct durable eqn:Edur.
    + intros s Hs. exists first. split; [exact Hs|]. rewrite Hd by done. done.
    + apply retry_loop_spec. unfold first. lia.
  - intros [|fence' o'].
    + intros s Hs. cbn in Hs. unfold mbind, eff_bind, Eff.gets. pose proof (failed_told (progress s) (failure Jlease_lost) s Hs) as Hf. by destruct (failed _ _ _ _ s) as [[?|?] ?].
    + intros s (n & Hs & Hi). by apply (settle_stands durable segmentEnd fence' n o').
Qed.

(** *** What a run that succeeded kicked *)

(** A handler of the run asked for these kicks: one that returned in its attempt, or one that outlived its attempt and
    returned later. *)
Definition asked_for (kicks : list RecordedKick) : Prop :=
  exists k, handler (env k) = HandlerReturned kicks \/ (returned_late (env k) = true /\ late (env k) = kicks).

Definition unsucceeded (s : RunState) : Prop := forall fence b, FinishedAs fence Succeeded b ∉ trace s.

(** Once a run finished as succeeded, whether the lease was still held or not, every kick a handler asked for has its wake; and
    when it answers success, the last it did was to start those that are due at once. *)
Definition kicks_written (r : JobRunResult) (s : RunState) : Prop :=
  (exists fence b, FinishedAs fence Succeeded b ∈ trace s) -> exists kicks, asked_for kicks /\
    (forall kick, kick ∈ kicks -> exists wake, Wrote wake ∈ trace s /\ n_job wake = kick_job kick) /\
    (forall n, r = RunSucceeded n -> head (trace s) = Some (Kicked (kicked kicks))).

Lemma unsucceeded_written r s : unsucceeded s -> kicks_written r s.
Proof. intros Hu (fence & b & Hin). by destruct (Hu fence b). Qed.

Lemma unsucceeded_steady {A} (m : run A) : steady m -> Eff.hoare unsucceeded m (fun _ => unsucceeded) (fun _ => unsucceeded).
Proof. intros Hm s Hs. destruct (Hm s) as [Et _]. unfold unsucceeded. destruct (m s) as [[x|a] s']; cbn in Et; by rewrite Et. Qed.

Lemma unsucceeded_pass {A B} (m : run A) (f : A -> run B) Q : steady m -> (forall a, Eff.hoare unsucceeded (f a) Q (fun _ => unsucceeded)) ->
  Eff.hoare unsucceeded (m ≫= f) Q (fun _ => unsucceeded).
Proof. intros Hm Hf. eapply hoare_bind; [by apply unsucceeded_steady|exact Hf]. Qed.

Lemma unsucceeded_note a E : (forall fence b, a <> FinishedAs fence Succeeded b) -> Eff.hoare unsucceeded (note a) (fun _ => unsucceeded) E.
Proof. intros Ha s Hs fence b. cbn. intros [E'|Hin]%elem_of_cons; [by apply (Ha fence b)|by destruct (Hs fence b)]. Qed.

(** The recorder of an attempt that succeeded holds what a handler asked for. *)
Definition kicks_recorded (s : RunState) : Prop := exists kicks, recorder s = Some kicks /\ asked_for kicks.

Definition got (o : option JobFailure) (s : RunState) : Prop := unsucceeded s /\ (o = None -> kicks_recorded s).

Definition keeps_recorded {A} (m : run A) : Prop := forall s, kicks_recorded s -> kicks_recorded (m s).2.

Lemma recorded_elapse : keeps_recorded (elapse dialect env).
Proof.
  intros s (kicks & Hk & Ha). unfold elapse, here, mbind, eff_bind, Eff.modify, Eff.gets. cbn. destruct (outlived s); [by exists kicks|].
  destruct (returned_late _) eqn:El; [|by exists kicks]. eexists. split; [done|]. exists (S (at_step s)). by right.
Qed.

Lemma recorded_cancel segmentEnd : keeps_recorded (cancelInFlight dialect env segmentEnd).
Proof.
  assert (Hb : forall A B (m : run A) (f : A -> run B), keeps_recorded m -> (forall a, keeps_recorded (f a)) -> keeps_recorded (m ≫= f)).
  { intros A B m f Hm Hf s Hs. specialize (Hm s Hs). unfold mbind, eff_bind. destruct (m s) as [[x|a] s']; [done|]. by apply Hf. }
  unfold cancelInFlight. repeat first [by intros s Hs | apply recorded_elapse | apply Hb; [|intros ?]
    | match goal with |- keeps_recorded (match ?x with _ => _ end) => destruct x end].
Qed.

Lemma run_handler_got fence n segmentEnd : Eff.hoare unsucceeded (run_handler dialect env job fence n segmentEnd) got (fun _ => unsucceeded).
Proof.
  unfold run_handler. eapply hoare_bind; [by apply unsucceeded_note|]. intros [].
  eapply hoare_bind with (R := fun i s => unsucceeded s /\ exists k, i = env k).
  { intros s Hs. pose proof (unsucceeded_steady (elapse dialect env) steady_elapse s Hs) as He. unfold elapse, here, mbind, eff_bind, Eff.modify, Eff.gets in *.
    cbn in *. split; [exact He|]. by eexists. }
  intros i. set (result := match handler i with HandlerReturned _ => None | _ => _ end).
  eapply hoare_bind with (R := fun _ => got result).
  - intros s (Hs & k & ->). subst result. destruct (handler (env k)) as [kicks| | |] eqn:Eh; cbn; split; try exact Hs; try done. intros _. exists kicks. split; [done|]. exists k. by left.
  - intros []. eapply hoare_bind with (R := fun _ => got result).
    { intros s [Hs Hg]. split; [by apply (unsucceeded_note (Ended fence) (fun _ _ => True) ltac:(done) s)|exact Hg]. }
    intros []. eapply hoare_bind with (R := fun _ => got result); [|by intros _ s].
    intros s [Hs Hg]. pose proof (unsucceeded_steady _ (steady_cancel segmentEnd) s Hs) as Hu. pose proof (recorded_cancel segmentEnd s) as Hr.
    destruct (cancelInFlight dialect env segmentEnd s) as [[x|a] s']; [exact Hu|]. split; [exact Hu|]. intros Eo. by apply Hr, Hg.
Qed.

Lemma attemptOnce_got fence n deadline segmentEnd : Eff.hoare unsucceeded (attemptOnce dialect env job fence n deadline segmentEnd) got (fun _ => unsucceeded).
Proof.
  assert (Hfail : forall o, Eff.hoare unsucceeded (mret (Some o) : run (option JobFailure)) got (fun _ => unsucceeded)) by by intros o s.
  unfold attemptOnce. apply unsucceeded_pass; [by apply steady_modify|]. intros _. apply unsucceeded_pass; [apply steady_isStopped|]. intros [|]; [apply Hfail|].
  apply unsucceeded_pass; [apply steady_elapse|]. intros i. destruct (exchange i); try apply Hfail.
  all: apply unsucceeded_pass; [apply steady_isStopped|]; intros [|]; [apply Hfail|]; try apply Hfail.
  apply unsucceeded_pass; [apply steady_remaining|]. intros budget. destruct (budget =? 0); [apply Hfail|]. apply run_handler_got.
Qed.

Lemma tried_got n o : Eff.hoare (got o) (note (Tried n o)) (fun _ => got o) (fun _ => unsucceeded).
Proof. intros s [Hs Hg]. split; [by apply (unsucceeded_note (Tried n o) (fun _ _ => True) ltac:(done) s)|exact Hg]. Qed.

Definition attempts_got (r : Attempts) (s : RunState) : Prop := match r with LeaseLost => unsucceeded s | Attempted _ o => got o s end.

Lemma retry_loop_got fuel segmentEnd fence o : Eff.hoare (got o) (retry_loop dialect env fuel job segmentEnd fence o) attempts_got (fun _ => unsucceeded).
Proof.
  revert fence o. induction fuel as [|fuel IH]; intros fence [o|]; cbn [retry_loop]; try by intros s.
  eapply (hoare_weaken _ unsucceeded _ _ _ _ (fun _ => unsucceeded)); [|by intros s [? _]|intros a s Ha; exact Ha|done]. apply unsucceeded_pass; [apply steady_gets|]. intros attempts.
  destruct (_ && _ && _); [|by intros s Hs; split]. apply unsucceeded_pass; [apply steady_backoff|]. intros delay. apply unsucceeded_pass; [apply steady_ask|].
  intros [fence'|]; [|by intros s]. apply unsucceeded_pass; [apply steady_here|]. intros i. cbv zeta. apply unsucceeded_pass; [apply steady_elapse|]. intros _.
  apply (hoare_bind _ _ _ (fun _ => unsucceeded)); [by intros s|]. intros []. eapply hoare_bind; [apply attemptOnce_got|]. intros o'. eapply hoare_bind; [apply tried_got|].
  intros []. apply IH.
Qed.

(** Every kick has its wake. *)
Definition woken_all (kicks : list RecordedKick) (s : RunState) : Prop := forall kick, kick ∈ kicks -> exists wake, Wrote wake ∈ trace s /\ n_job wake = kick_job kick.

Lemma woken_all_later kicks s s' : (exists later, trace s' = later ++ trace s) -> woken_all kicks s -> woken_all kicks s'.
Proof. intros (later & E) Hw kick Hk. destruct (Hw kick Hk) as (wake & Hin & ?). exists wake. split; [|done]. rewrite E. apply elem_of_app. by right. Qed.

Lemma schedule_all_written wakes : Eff.hoare unsucceeded (schedule_all dialect env wakes)
  (fun _ s => unsucceeded s /\ forall wake, wake ∈ wakes -> Wrote wake ∈ trace s) (fun _ => unsucceeded).
Proof.
  assert (Hgo : forall wakes before_, Eff.hoare (fun s => unsucceeded s /\ forall wake, wake ∈ before_ -> Wrote wake ∈ trace s) (schedule_all dialect env wakes)
    (fun _ s => unsucceeded s /\ forall wake, wake ∈ before_ ++ wakes -> Wrote wake ∈ trace s) (fun _ => unsucceeded)).
  { intros wakes'. induction wakes' as [|wake wakes' IH]; intros before_; cbn [schedule_all]; [intros s; by rewrite app_nil_r|].
    set (pre := fun s => unsucceeded s /\ forall w, w ∈ before_ -> Wrote w ∈ trace s). apply (hoare_bind _ _ _ (fun _ => pre)).
    - intros s [Hs Hb]. match goal with |- context [ask dialect env ?o s] => pose proof (steady_ask o s) as [Et _]; destruct (ask dialect env o s) as [[x|row] s'] end;
        cbn in Et; unfold pre, unsucceeded; by rewrite Et.
    - intros row. eapply hoare_bind with (R := fun _ s => unsucceeded s /\ forall w, w ∈ before_ ++ [wake] -> Wrote w ∈ trace s).
      + intros s [Hs Hb]. split; [by apply (unsucceeded_note (Wrote wake) (fun _ _ => True) ltac:(done) s)|].
        intros w [Hw|Hw%list_elem_of_singleton]%elem_of_app; cbn; apply elem_of_cons; [right; by apply Hb|left; by subst].
      + intros []. eapply hoare_weaken; [apply (IH (before_ ++ [wake]))|intros s Hs; exact Hs| |intros x s Hs; exact Hs]. intros a s. by rewrite <-app_assoc. }
  eapply hoare_weaken; [apply (Hgo wakes [])|intros s Hs; split; [done|]; intros w Hw; by apply elem_of_nil in Hw|done|done].
Qed.

Lemma failed_adds attempts o s : exists later, trace (failed dialect env attempts o s).2 = later ++ trace s /\ exists r, (failed dialect env attempts o s).1 = inr (RunFailed attempts (fail_code o) r) /\
  forall fence b, FinishedAs fence Succeeded b ∉ later.
Proof.
  unfold failed, note, mbind, eff_bind, Eff.modify. cbv beta iota zeta. set (s1 := with_action _ s). pose proof (proj1 (steady_elapse s1)) as Et.
  assert (Hi : exists i, (elapse dialect env s1).1 = inr i) by (unfold elapse, here, mbind, eff_bind, Eff.modify, Eff.gets; by eexists).
  destruct (elapse dialect env s1) as [r s'], Hi as (i & Hi). cbn in *. subst r. cbn. exists [Reported (fail_code o) attempts]. rewrite Et. split; [done|]. eexists. split; [done|].
  intros fence b Hin%list_elem_of_singleton. done.
Qed.

Lemma failed_written attempts o : Eff.hoare unsucceeded (failed dialect env attempts o) kicks_written (fun _ => unsucceeded).
Proof.
  intros s Hs. destruct (failed_adds attempts o s) as (later & Et & r & Er & Hl). destruct (failed dialect env attempts o s) as [x s']. cbn in *. subst x.
  apply unsucceeded_written. intros fence b. rewrite Et. intros [Hin|Hin]%elem_of_app; [by destruct (Hl fence b)|by destruct (Hs fence b)].
Qed.

Lemma run_finish_written segmentEnd fence outcome wakes kicks : steady wakes ->
  Eff.hoare (fun s => unsucceeded s /\ woken_all kicks s) (run_finish dialect env segmentEnd fence outcome wakes)
    (fun a s => woken_all kicks s /\ (outcome = Failed \/ a = FinishSegmentOver -> unsucceeded s)) (fun _ => unsucceeded).
Proof.
  intros Hw. set (pre := fun s => unsucceeded s /\ woken_all kicks s).
  assert (Hpass : forall A B (m : run A) (f : A -> run B) Q, steady m -> (forall a, Eff.hoare pre (f a) Q (fun _ => unsucceeded)) -> Eff.hoare pre (m ≫= f) Q (fun _ => unsucceeded)).
  { intros A B m f Q Hm Hf. apply (hoare_bind _ _ _ (fun _ => pre)); [|exact Hf]. intros s [Hs Hk]. destruct (Hm s) as [Et _]. unfold pre, unsucceeded, woken_all in *.
    destruct (m s) as [[x|a] s']; cbn in Et; by rewrite Et. }
  unfold run_finish. apply Hpass; [done|]. intros w. apply Hpass; [apply steady_here|]. intros i. apply Hpass; [destruct segmentEnd; [apply steady_remaining|apply steady_ret]|].
  intros left. destruct (is_some segmentEnd && _); [intros s [Hs Hk]; split; [exact Hk|by intros _]|]. apply Hpass; [apply steady_ask|]. intros b.
  apply (hoare_bind _ _ _ (fun _ s => woken_all kicks s /\ (outcome = Failed -> unsucceeded s))).
  - intros s [Hs Hk]. split; [eapply woken_all_later, Hk; by exists [FinishedAs fence outcome b]|]. intros ->. by apply (unsucceeded_note (FinishedAs fence Failed b) (fun _ _ => True) ltac:(done) s).
  - intros []. intros s [Hk Hf]. split; [done|]. intros [?|?]; [auto|done].
Qed.

Lemma settle_failed_written durable segmentEnd fence o :
  Eff.hoare unsucceeded (settle dialect number_text env job durable segmentEnd fence (Some o)) kicks_written (fun _ => unsucceeded).
Proof.
  assert (Hr : forall r, Eff.hoare unsucceeded (mret r : run JobRunResult) kicks_written (fun _ => unsucceeded)) by (intros r s; by apply unsucceeded_written).
  assert (Hfin : forall wakes, steady wakes -> Eff.hoare unsucceeded (run_finish dialect env segmentEnd fence Failed wakes) (fun _ => unsucceeded) (fun _ => unsucceeded)).
  { intros wakes Hw. eapply hoare_weaken; [by apply (run_finish_written segmentEnd fence Failed wakes [])| | |intros x s Hs; exact Hs].
    - intros s Hs. split; [done|]. intros kick Hk. by apply elem_of_nil in Hk.
    - intros a s [_ Hs]. apply Hs. by left. }
  unfold settle. apply unsucceeded_pass; [apply steady_gets|]. intros attempts. destruct (bool_decide _).
  - apply unsucceeded_pass; [apply steady_ask|]. intros b. eapply hoare_bind; [by apply unsucceeded_note|]. intros []. apply Hr.
  - destruct (durable && _ && _).
    + apply unsucceeded_pass; [apply steady_here|]. intros i. apply unsucceeded_pass; [apply steady_backoff|]. intros delay. apply unsucceeded_pass; [apply steady_elapse|]. intros _.
      eapply hoare_bind; [by apply Hfin|]. intros [|[]]; [apply Hr..|apply failed_written].
    + eapply hoare_bind; [apply Hfin, steady_completion|]. intros [|b]; [apply Hr|apply failed_written].
Qed.

Lemma settle_success_written durable segmentEnd fence : digits_only number_text ->
  Eff.hoare (got None) (settle dialect number_text env job durable segmentEnd fence None) kicks_written (fun _ => unsucceeded).
Proof.
  intros Hdigits s [Hu Hg]. destruct (Hg eq_refl) as (kicks & Hk & Hask). unfold settle, mbind at 1, eff_bind at 1, Eff.gets at 1.
  unfold mbind at 1, eff_bind at 1, Eff.gets at 1. rewrite Hk. cbn [from_option id]. set (attempts := progress s). clearbody attempts. clear Hk Hg. revert s Hu.
  match goal with |- forall s, unsucceeded s -> match ?m s with _ => _ end => change (Eff.hoare unsucceeded m kicks_written (fun _ => unsucceeded)) end.
  apply unsucceeded_pass; [apply steady_ask|]. intros now. destruct (kick_wakes_jobs number_text Hdigits kicks now) as [_ Hjobs].
  eapply hoare_bind; [apply schedule_all_written|]. intros [].
  eapply hoare_bind with (R := fun a s => woken_all kicks s /\ (Succeeded = Failed \/ a = FinishSegmentOver -> unsucceeded s)).
  { eapply hoare_weaken; [apply (run_finish_written segmentEnd fence Succeeded (completion dialect env (b_scheduled job) durable) kicks), steady_completion| |intros a s Hs; exact Hs|intros x s Hs; exact Hs].
    intros s [Hs Hw]. split; [exact Hs|]. intros kick Hin. destruct (Hjobs kick Hin) as (wake & Hw' & Hj). exists wake. split; [by apply Hw|done]. }
  intros [|[]] s [Hw Hs].
  - apply unsucceeded_written, Hs. by right.
  - unfold mbind, eff_bind, note, Eff.modify. cbv beta iota zeta. set (s1 := with_action _ s). pose proof (proj1 (steady_elapse s1)) as Et.
    assert (Hi : exists i, (elapse dialect env s1).1 = inr i) by (unfold elapse, here, mbind, eff_bind, Eff.modify, Eff.gets; by eexists).
    destruct (elapse dialect env s1) as [r s'], Hi as (i & Hi). cbn in Hi, Et. subst r. cbn. intros _. exists kicks. split_and!; [done| |].
    + eapply woken_all_later, Hw. exists [Kicked (kicked kicks)]. by rewrite Et.
    + intros n _. by rewrite Et.
  - destruct (failed_adds attempts (failure Jlease_lost) s) as (later & Et & r & Er & _). destruct (failed dialect env attempts _ s) as [x s']. cbn in Et, Er. subst x.
    intros _. exists kicks. split_and!; [done| |done]. eapply woken_all_later, Hw. by exists later.
Qed.

Lemma runLeased_written acquisition : digits_only number_text ->
  Eff.hoare unsucceeded (runLeased dialect number_text env job acquisition mode) kicks_written (fun _ => unsucceeded).
Proof.
  intros Hdigits. unfold runLeased. apply unsucceeded_pass; [apply steady_take|]. intros [fence|]; [|intros s; by apply unsucceeded_written].
  apply unsucceeded_pass; [apply steady_here|]. intros i. cbv zeta. apply unsucceeded_pass; [apply steady_pendingTaken|]. intros _.
  apply unsucceeded_pass; [destruct mode; first [apply steady_ret|apply steady_ask]|]. intros owned.
  apply (hoare_bind _ _ _ (fun _ => unsucceeded)); [by intros s|]. intros []. eapply hoare_bind; [apply attemptOnce_got|]. intros o.
  eapply hoare_bind; [apply tried_got|]. intros []. eapply hoare_bind with (R := attempts_got).
  - destruct (0 <? length owned)%nat; [by intros s|apply retry_loop_got].
  - intros [|fence' [o'|]].
    + apply (hoare_bind _ _ _ (fun _ => unsucceeded)); [by intros s|]. intros n. apply failed_written.
    + intros s [Hs _]. by apply settle_failed_written.
    + by apply settle_success_written.
Qed.

Lemma runOnce_told acquisition : digits_only number_text -> 0 <= b_retries job -> forall k,
  Eff.hoare (stands PReady k) (runOnce dialect number_text env job acquisition mode) told (fun _ _ => False).
Proof.
  intros Hdigits Hret k. unfold runOnce. eapply hoare_bind; [apply hoare_progress|]. intros []. eapply hoare_catch; [by apply runLeased_spec|]. intros [].
  apply (hoare_bind _ _ _ (fun _ => unfinished)); [by intros s0|]. intros attempts. apply (hoare_bind _ _ _ (fun _ => unfinished)).
  - intros s0 Hs0. pose proof (unfinished_steady (isStopped env) steady_isStopped s0 Hs0) as He. unfold isStopped, here, mbind, eff_bind, Eff.gets in *. exact He.
  - intros [|]; [by intros s0|]. apply failed_told.
Qed.

Lemma runOnce_written acquisition : digits_only number_text ->
  Eff.hoare unsucceeded (runOnce dialect number_text env job acquisition mode) kicks_written (fun _ => unsucceeded).
Proof.
  intros Hdigits. unfold runOnce. apply (hoare_bind _ _ _ (fun _ => unsucceeded)); [by intros s|]. intros [].
  eapply hoare_catch; [by apply runLeased_written|]. intros []. apply unsucceeded_pass; [apply steady_gets|]. intros attempts.
  apply unsucceeded_pass; [apply steady_isStopped|]. intros [|]; [intros s; by apply unsucceeded_written|apply failed_written].
Qed.

(** C23. A run of a job follows its protocol whatever its environment does (other processes, clocks, a database that does not
    answer, a stop, handlers that outlive their attempt): an attempt's frame ends before the next attempt starts; another
    attempt follows only a failure that may be repeated, so never one whose message may have been delivered, and at most as
    often as the job's retries allow, and a run that retries inline gives up no earlier; it finishes its lease at most once,
    as its last attempt came out. Kicks follow success alone, and as wakes first: only after an attempt that succeeded does it
    write a wake, the wake of a kick, and it writes them before the finish, so that one whose lease is lost by then leaves
    them to the scheduler; it answers success and starts the kicked jobs only after a finish that found the lease still held,
    and starts none whose wake it has not written. No kick is lost: a run that finished as succeeded, even one that had lost its
    lease by then, wrote a wake for every kick a handler of it asked for, and when it answers success, it started those due at
    once. *)
Theorem run_follows_protocol acquisition s : digits_only number_text -> 0 <= b_retries job -> trace s = [] ->
  exists r s', runOnce dialect number_text env job acquisition mode s = (inr r, s') /\ told r s' /\ kicks_written r s'.
Proof.
  intros Hdigits Hret Ht. assert (Hp : stands PReady (progress s) s) by (unfold stands, phase; by rewrite Ht).
  assert (Hu : unsucceeded s) by (intros fence b; rewrite Ht; apply not_elem_of_nil).
  pose proof (runOnce_told acquisition Hdigits Hret _ s Hp) as Hh. pose proof (runOnce_written acquisition Hdigits s Hu) as Hw.
  destruct (runOnce dialect number_text env job acquisition mode s) as [[x|r] s']; [done|]. by exists r, s'.
Qed.

End OneJob.

(** *** Runs end *)

Definition climbs {A} (m : run A) : Prop := forall s, (at_step s <= at_step (m s).2)%nat.

Lemma climbs_bind {A B} (m : run A) (f : A -> run B) : climbs m -> (forall a, climbs (f a)) -> climbs (m ≫= f).
Proof.
  intros Hm Hf s. specialize (Hm s). unfold mbind, eff_bind. destruct (m s) as [[x|a] s1]; cbn in *; [done|]. specialize (Hf a s1). lia.
Qed.

Lemma climbs_catch {A} (m : run A) h : climbs m -> (forall x, climbs (h x)) -> climbs (Eff.catch m h).
Proof. intros Hm Hh s. specialize (Hm s). unfold Eff.catch. destruct (m s) as [[x|a] s1]; cbn in *; [|done]. specialize (Hh x s1). lia. Qed.

Lemma climbs_still {A} (m : run A) : (forall s, at_step (m s).2 = at_step s) -> climbs m.
Proof. intros Hm s. by rewrite Hm. Qed.

Lemma elapse_next s : at_step (elapse dialect env s).2 = S (at_step s).
Proof. unfold elapse, here, mbind, eff_bind, Eff.modify, Eff.gets. cbn. destruct (outlived s); [done|]. by destruct (returned_late _). Qed.

Lemma ask_next {A} (o : Interval -> op A) s : at_step (ask dialect env o s).2 = S (at_step s).
Proof.
  unfold ask, mbind, eff_bind. pose proof (elapse_next s) as He. destruct (elapse dialect env s) as [[x|i] s1]; cbn in *; [done|]. destruct (denied i); [done|].
  by destruct (o i (store s1)) as [[e|a] t].
Qed.

Lemma climbs_elapse : climbs (elapse dialect env).
Proof. intros s. rewrite elapse_next. lia. Qed.

Lemma climbs_ask {A} (o : Interval -> op A) : climbs (ask dialect env o).
Proof. intros s. rewrite ask_next. lia. Qed.

Lemma climbs_note a : climbs (note a).
Proof. by apply climbs_still. Qed.

Lemma climbs_progress n : climbs (set_progress n).
Proof. by apply climbs_still. Qed.

Lemma climbs_ret {A} (a : A) : climbs (mret a).
Proof. by apply climbs_still. Qed.

Lemma climbs_throw {A} x : climbs (A := A) (Eff.throw x).
Proof. by apply climbs_still. Qed.

Lemma climbs_gets {A} (f : RunState -> A) : climbs (Eff.gets f).
Proof. by apply climbs_still. Qed.

Lemma climbs_recorder (f : RunState -> option (list RecordedKick)) g : climbs (Eff.modify (fun s => with_recorder (f s) (g s) s)).
Proof. by apply climbs_still. Qed.

#[local] Hint Resolve climbs_elapse climbs_ask climbs_note climbs_progress climbs_ret climbs_throw climbs_gets climbs_recorder : eff.

Ltac climbs_auto :=
  repeat first
    [ solve [eauto 2 with eff]
    | match goal with
      | |- climbs (_ ≫= _) => apply climbs_bind; [|intros ?]
      | |- climbs (Eff.catch _ _) => apply climbs_catch; [|intros ?]
      | |- climbs (match ?x with _ => _ end) => destruct x
      end ].

Section Quiet.
Context `{!RuntimeLaws} (job : BoundJob) (mode : Retries).

Lemma climbs_attempt fence n deadline segmentEnd : climbs (attemptOnce dialect env job fence n deadline segmentEnd).
Proof. unfold attemptOnce, run_handler, cancelInFlight, isStopped, remainingMs, here. climbs_auto. Qed.

#[local] Hint Resolve climbs_attempt : eff.

Lemma climbs_retry fuel segmentEnd fence o : climbs (retry_loop dialect env fuel job segmentEnd fence o).
Proof.
  revert fence o. induction fuel as [|fuel IH]; intros fence o; cbn [retry_loop]; unfold backoffMs, here; climbs_auto.
Qed.

Lemma climbs_schedule_all wakes : climbs (schedule_all dialect env wakes).
Proof. induction wakes; cbn [schedule_all]; climbs_auto. Qed.

#[local] Hint Resolve climbs_retry climbs_schedule_all : eff.

Lemma climbs_settle durable segmentEnd fence o : climbs (settle dialect number_text env job durable segmentEnd fence o).
Proof. unfold settle, run_finish, completion, failed, backoffMs, remainingMs, here. climbs_auto. Qed.

#[local] Hint Resolve climbs_settle : eff.

Lemma climbs_taken : climbs (pendingTaken dialect env job).
Proof. unfold pendingTaken. climbs_auto. Qed.

Lemma climbs_take acquisition : climbs (take_lease dialect env job acquisition).
Proof. unfold take_lease, surveil_steps, isStopped, here. climbs_auto. Qed.

#[local] Hint Resolve climbs_taken climbs_take : eff.

Lemma climbs_leased acquisition : climbs (runLeased dialect number_text env job acquisition mode).
Proof. unfold runLeased, failed, here. climbs_auto. Qed.

Lemma bind_next {A B} (m : run A) (f : A -> run B) s : (at_step s < at_step (m s).2)%nat -> (forall a, climbs (f a)) -> (at_step s < at_step ((m ≫= f) s).2)%nat.
Proof. intros Hm Hf. unfold mbind, eff_bind. destruct (m s) as [[x|a] s1]; cbn in *; [done|]. specialize (Hf a s1). lia. Qed.

(** A run takes at least one step. *)
Lemma leased_next acquisition s : (at_step s < at_step (runLeased dialect number_text env job acquisition mode s).2)%nat.
Proof.
  assert (Ht : forall s, (at_step s < at_step (pendingTaken dialect env job s).2)%nat).
  { intros s0. unfold pendingTaken, Eff.catch. pose proof (ask_next (fun _ => takePending (b_name job)) s0) as Ha. destruct (ask _ _ _ s0) as [[x|b] s1]; cbn in *; lia. }
  unfold runLeased. destruct acquisition as [| |fence].
  1-2: apply bind_next; [|intros ?; unfold failed, here; climbs_auto]; unfold take_lease; apply bind_next; [rewrite ask_next; lia|]; intros ?; unfold surveil_steps, isStopped, here; climbs_auto.
  change ((mret (Some fence) : run (option LeaseFence)) ≫= ?f) with (f (Some fence)). cbn [take_lease].
  unfold mbind at 1, eff_bind at 1. cbn [mret eff_ret]. cbv beta iota. unfold mbind at 1, eff_bind at 1. cbn [here Eff.gets]. cbv beta iota zeta.
  apply bind_next; [apply Ht|]. intros ?. unfold failed, here. climbs_auto.
Qed.

Lemma once_next acquisition s : (at_step s < at_step (runOnce dialect number_text env job acquisition mode s).2)%nat.
Proof.
  unfold runOnce. unfold mbind at 1, eff_bind at 1. cbn [set_progress Eff.modify]. cbv beta iota. unfold Eff.catch.
  pose proof (leased_next acquisition (with_progress 0 s)) as Hl. destruct (runLeased _ _ _ _ _ _ _) as [[x|r] s1]; cbn in Hl; [|done].
  match goal with |- (_ < at_step (?m s1).2)%nat => assert (Hc : climbs m) by (unfold isStopped, failed, here; climbs_auto); specialize (Hc s1) end. lia.
Qed.

(** From step [N] on, either the run is told to stop, or the database answers and no other process marks the job pending. *)
Context (N : nat).

Definition told_to_stop : Prop := forall k, (N <= k)%nat -> aborted (env k) = true.

Definition left_alone : Prop :=
  forall k, (N <= k)%nat -> denied (env k) = false /\ forall m c, (m, c) ∈ others (env k) -> c <> CMarkPending (b_name job).

Hypothesis quiet : told_to_stop \/ left_alone.

Definition flag_clear (t : Tables) : Prop := kicks t !! b_name job <> Some true.

Lemma clear_same t t' : kicks t' = kicks t -> flag_clear t -> flag_clear t'.
Proof. unfold flag_clear. by intros ->. Qed.

Lemma clear_projects m : Eff.keeps flag_clear (projectWakes m).
Proof. intros t Ht. destruct (projectWakes m t) as [r t'] eqn:E. apply project_frame in E as (_ & _ & E). by apply (clear_same t). Qed.

Lemma clear_take name : Eff.keeps flag_clear (takePending name).
Proof.
  unfold takePending. intros t Ht. unfold mbind, eff_bind, Eff.get. cbn. destruct (kicks t !! name) as [[]|] eqn:Ek; [|done|done]. cbn. unfold flag_clear. cbn.
  destruct (decide (name = b_name job)) as [->|Hne]; [by rewrite lookup_insert_eq|by rewrite lookup_insert_ne].
Qed.

#[local] Hint Resolve clear_projects clear_take : eff.

Lemma clear_lease name row : Eff.keeps flag_clear (update_lease name row).
Proof. unfold update_lease. by keeps_auto. Qed.

Lemma clear_projection u name change m : Eff.keeps flag_clear (leaseProjection dialect u name change m).
Proof. unfold leaseProjection, SQL_OWN, SQL_DISOWN, SQL_CONSUME, SQL_RETRY, JobLeases.insert, SQL_SCHEDULE, newWake, refused. by keeps_auto. Qed.

#[local] Hint Resolve clear_lease clear_projection : eff.

Lemma clear_fence name by_ row : Eff.keeps flag_clear (fenceOf name by_ row).
Proof. unfold fenceOf. by keeps_auto. Qed.

#[local] Hint Resolve clear_fence : eff.

Lemma clear_acquire name by_ a l m : Eff.keeps flag_clear (acquire dialect name by_ a l m).
Proof. unfold acquire, changing, SQL_ACQUIRE. by keeps_auto. Qed.

Lemma clear_try name by_ a l m : Eff.keeps flag_clear (tryAcquire dialect name by_ a l m).
Proof. unfold tryAcquire, changing, SQL_TRY_ACQUIRE. by keeps_auto. Qed.

Lemma clear_renew fence by_ a l m : Eff.keeps flag_clear (renew dialect fence by_ a l m).
Proof. unfold renew, changing. by keeps_auto. Qed.

Lemma clear_finish u fence o i m : Eff.keeps flag_clear (finish dialect u fence o i m).
Proof. unfold finish, changing. by keeps_auto. Qed.

Lemma clear_reap name m : Eff.keeps flag_clear (reapCrashed dialect name m).
Proof. unfold reapCrashed, changing. by keeps_auto. Qed.

Lemma clear_register name m : Eff.keeps flag_clear (register name m).
Proof. unfold register, SQL_REGISTER. apply keeps_modify. intros t Ht. by destruct (leases t !! name). Qed.

Lemma clear_schedule u wake m : Eff.keeps flag_clear (schedule u wake m).
Proof. unfold schedule, newWake, JobLeases.insert, SQL_SCHEDULE, refused. by keeps_auto. Qed.

Lemma clear_overdue name p m : Eff.keeps flag_clear (claimOverdue name p m).
Proof. unfold claimOverdue. by keeps_auto. Qed.

#[local] Hint Resolve clear_acquire clear_try clear_renew clear_finish clear_reap clear_register clear_schedule clear_overdue : eff.

Lemma clear_perform m c : c <> CMarkPending (b_name job) -> Eff.keeps flag_clear (perform dialect m c).
Proof.
  intros Hc. unfold perform. destruct c as [| | | | | |name| | | | | |u rearms fence due]; keeps_auto.
  - unfold markPending. apply keeps_modify. intros t Ht. unfold flag_clear. cbn. rewrite lookup_insert_ne by congruence. done.
  - unfold reconcile, refused. by keeps_auto.
  - unfold hasten, refused. by keeps_auto.
  - unfold rearmClaim. destruct (match due with None => _ | Some _ => _ end); cbn [snd]; [by apply keeps_throw|].
    unfold newWake, JobLeases.insert, SQL_SCHEDULE, refused. by keeps_auto.
Qed.

Lemma clear_after history t : (forall m c, (m, c) ∈ history -> c <> CMarkPending (b_name job)) -> flag_clear t -> flag_clear (after dialect history t).
Proof.
  revert t. induction history as [|[m c] history IH]; intros t Hh Ht; [done|]. apply IH; [intros m' c' Hin; apply (Hh m'); by right|].
  apply clear_perform; [apply (Hh m); by left|done].
Qed.

(** Past step [N], told to stop or with the flag clear. *)
Definition calm (s : RunState) : Prop := (N <= at_step s)%nat /\ (told_to_stop \/ flag_clear (store s)).

Lemma calm_elapse : Eff.keeps calm (elapse dialect env).
Proof.
  intros s [Hn Hs]. split; [rewrite elapse_next; lia|]. destruct quiet as [?|alone]; [by left|]. destruct Hs as [?|Hs]; [by left|right].
  assert (Ha : flag_clear (after dialect (others (env (S (at_step s)))) (store s))) by (apply clear_after; [apply alone; lia|done]).
  unfold elapse, here, mbind, eff_bind, Eff.modify, Eff.gets. cbn. destruct (outlived s); [done|]. by destruct (returned_late _).
Qed.

Lemma calm_ask {A} (o : Interval -> op A) : (forall i, Eff.keeps flag_clear (o i)) -> Eff.keeps calm (ask dialect env o).
Proof.
  intros Ho s Hs. unfold ask, mbind, eff_bind. pose proof (calm_elapse s Hs) as He. destruct (elapse dialect env s) as [[x|i] s1]; cbn in *; [done|].
  destruct (denied i); [done|]. destruct He as [Hn He]. specialize (Ho i (store s1)). destruct (o i (store s1)) as [[e|a] t]; cbn in *; (split; [done|]); destruct He; auto.
Qed.

Lemma calm_modify f : (forall s, store (f s) = store s /\ at_step (f s) = at_step s) -> Eff.keeps (X := LeaseStoreError) calm (Eff.modify f).
Proof. intros Hf s [Hn Hs]. destruct (Hf s) as [E1 E2]. split; cbn; by rewrite ?E1, ?E2. Qed.

Lemma calm_catch {A} (m : run A) h : Eff.keeps calm m -> (forall x, Eff.keeps calm (h x)) -> Eff.keeps calm (Eff.catch m h).
Proof. intros Hm Hh s Hs. specialize (Hm s Hs). unfold Eff.catch. destruct (m s) as [[x|a] s1]; cbn in *; [by apply Hh|done]. Qed.

Lemma calm_note a : Eff.keeps calm (note a).
Proof. by apply calm_modify. Qed.

Lemma calm_progress n : Eff.keeps calm (set_progress n).
Proof. by apply calm_modify. Qed.

#[local] Hint Resolve calm_elapse calm_note calm_progress : eff.

Ltac calm_auto :=
  repeat first
    [ solve [eauto 3 with eff]
    | apply calm_ask; intros ?
    | apply calm_catch; [|intros ?]
    | match goal with |- Eff.keeps calm (Eff.modify _) => by apply calm_modify end
    | keeps_step ].

Lemma calm_attempt fence n deadline segmentEnd : Eff.keeps calm (attemptOnce dialect env job fence n deadline segmentEnd).
Proof. unfold attemptOnce, run_handler, cancelInFlight, isStopped, remainingMs, here. calm_auto. Qed.

#[local] Hint Resolve calm_attempt : eff.

Lemma calm_retry fuel segmentEnd fence o : Eff.keeps calm (retry_loop dialect env fuel job segmentEnd fence o).
Proof. revert fence o. induction fuel as [|fuel IH]; intros fence o; cbn [retry_loop]; unfold backoffMs, here; calm_auto. Qed.

Lemma calm_schedule_all wakes : Eff.keeps calm (schedule_all dialect env wakes).
Proof. induction wakes; cbn [schedule_all]; calm_auto. Qed.

#[local] Hint Resolve calm_retry calm_schedule_all : eff.

Lemma calm_settle durable segmentEnd fence o : Eff.keeps calm (settle dialect number_text env job durable segmentEnd fence o).
Proof. unfold settle, run_finish, completion, failed, backoffMs, remainingMs, here, pending. calm_auto. Qed.

#[local] Hint Resolve calm_settle : eff.

(** Past step [N], a pending flag that was read is clear. *)
Lemma taken_calm s : (N <= at_step s)%nat -> calm (pendingTaken dialect env job s).2.
Proof.
  intros Hn. destruct quiet as [?|alone]; [split; [pose proof (climbs_taken s); lia|by left]|].
  destruct (alone (S (at_step s))) as [Hd _]; [lia|]. unfold pendingTaken, Eff.catch, ask, mbind, eff_bind. pose proof (elapse_next s) as He.
  assert (Hi : (elapse dialect env s).1 = inr (env (S (at_step s)))).
  { unfold elapse, here, mbind, eff_bind, Eff.modify, Eff.gets. cbn. destruct (outlived s); [done|]. by destruct (returned_late _). }
  destruct (elapse dialect env s) as [[x|i] s1]; cbn in *; [done|]. injection Hi as ->. rewrite Hd. unfold takePending, mbind, eff_bind, Eff.get. cbn.
  destruct (kicks (store s1) !! b_name job) as [[]|] eqn:Ek; cbn; (split; [cbn; lia|right; unfold flag_clear; cbn]); rewrite ?lookup_insert_eq, ?Ek; done.
Qed.

(** A run past step [N] that succeeds leaves the flag clear. *)
Lemma leased_calm acquisition s r s' :
  (N <= at_step s)%nat -> runLeased dialect number_text env job acquisition mode s = (inr r, s') -> is_succeeded r = true -> calm s'.
Proof.
  intros Hn E Hr. unfold runLeased in E. apply eff_bind_inr in E as (lease & s1 & Et & E).
  assert (Hn1 : (N <= at_step s1)%nat) by (pose proof (climbs_take acquisition s) as Hc; rewrite Et in Hc; cbn in Hc; lia).
  destruct lease as [fence|]; [|by injection E as <- _]. apply eff_bind_inr in E as (i & s2 & [= <- <-] & E). cbv zeta in E.
  apply eff_bind_inr in E as (b & s2 & Ep & E). pose proof (taken_calm s1 Hn1) as Hc. rewrite Ep in Hc. cbn in Hc. revert E.
  match goal with |- ?m s2 = _ -> _ => assert (Hk : Eff.keeps calm m) end.
  { unfold failed, here, ownedWakes, pending. calm_auto. }
  intros E. specialize (Hk s2 Hc). rewrite E in Hk. exact Hk.
Qed.

Lemma once_returns acquisition s : exists r s', runOnce dialect number_text env job acquisition mode s = (inr r, s') /\ (at_step s < at_step s')%nat /\
  ((N <= at_step s)%nat -> is_succeeded r = true -> calm s').
Proof.
  pose proof (once_next acquisition s) as Hn. destruct (runOnce dialect number_text env job acquisition mode s) as [[x|r] s'] eqn:E; cbn in Hn.
  - exfalso. unfold runOnce in E. unfold mbind at 1, eff_bind at 1 in E. cbn [set_progress Eff.modify] in E. cbv beta iota in E. unfold Eff.catch in E.
    destruct (runLeased _ _ _ _ _ _ _) as [[[]|r] s1]; [|done]. unfold isStopped, failed, elapse, here, mbind, eff_bind, Eff.gets, Eff.modify, note in E. cbn in E. by destruct (aborted _).
  - exists r, s'. split_and!; [done|done|]. intros HN Hr. unfold runOnce in E. unfold mbind at 1, eff_bind at 1 in E. cbn [set_progress Eff.modify] in E. cbv beta iota in E. unfold Eff.catch in E.
    destruct (runLeased dialect number_text env job acquisition mode (with_progress 0 s)) as [[[]|r1] s1] eqn:El.
    + unfold isStopped, failed, elapse, here, mbind, eff_bind, Eff.gets, Eff.modify, note in E. cbn in E. destruct (aborted _); by injection E as <- _.
    + injection E as <- <-. eapply leased_calm; [|done|done]. done.
Qed.

(** [m] answers, and takes no step back. *)
Definition answers {A} (m : run A) (s : RunState) : Prop := exists a s', m s = (inr a, s') /\ (at_step s <= at_step s')%nat.

Lemma taken_answers s : exists b s', pendingTaken dialect env job s = (inr b, s') /\ (at_step s <= at_step s')%nat /\ (calm s -> b = false \/ told_to_stop).
Proof.
  pose proof (climbs_taken s) as Hc. unfold pendingTaken, Eff.catch in *. destruct (ask _ _ _ s) as [[[]|b] s1] eqn:E; cbn in Hc; [exists false, s1; auto|].
  exists b, s1. split_and!; [done|done|]. intros Hs. pose proof (calm_elapse s Hs) as He. unfold ask, mbind, eff_bind in E.
  destruct (elapse dialect env s) as [[x|i] s2]; [done|]. destruct He as [_ [?|He]]; [by right|left]. destruct (denied i); [done|].
  unfold takePending, mbind, eff_bind, Eff.get in E. cbn in E, He.
  destruct (kicks (store s2) !! b_name job) as [[]|] eqn:Ek; [by destruct He|by injection E as <- _|by injection E as <- _].
Qed.

Lemma mark_answers s : exists b s', markPending_safely dialect env job s = (inr b, s') /\ (at_step s <= at_step s')%nat.
Proof.
  unfold markPending_safely. assert (Hc : climbs (markPending_safely dialect env job)) by (unfold markPending_safely; climbs_auto). specialize (Hc s).
  unfold markPending_safely, Eff.catch in *. destruct ((_ ← ask dialect env (fun _ => markPending (b_name job)); mret true) s) as [[[]|b] s1]; cbn in Hc; by eexists _, s1.
Qed.

Lemma stopped_run s : isStopped env s = (inr (aborted (env (at_step s))), s).
Proof. done. Qed.

Lemma follow_up_ends rounds hand_over : forall result s,
  (is_succeeded result = true -> calm s) \/
  ((N - at_step s < rounds)%nat /\ forall s', (at_step s < at_step s')%nat -> exists r s2, hand_over s' = (inr (Some r), s2)) ->
  exists r s', follow_up dialect number_text env rounds job mode hand_over result s = (inr (Some r), s').
Proof.
  induction rounds as [|rounds IH]; intros result s Hr; cbn [follow_up].
  all: unfold mbind at 1, eff_bind at 1; rewrite stopped_run.
  all: destruct (is_succeeded result && negb (aborted (env (at_step s)))) eqn:Eg; [|by eexists _, _].
  all: apply andb_true_iff in Eg as [Es Ega]; destruct (taken_answers s) as (b & s1 & Et & H1 & Hb); unfold mbind at 1, eff_bind at 1; rewrite Et.
  all: destruct b; [|by eexists _, _]; destruct Hr as [Hr|[Hr Hh]];
    [specialize (Hr Es); destruct (Hb Hr) as [?|Hstop]; [done|]; rewrite Hstop in Ega; [done|by destruct Hr]|].
  { lia. }
  destruct (once_returns AcquireTry s1) as (r & s2 & Er & H2 & Hcalm). unfold mbind at 1, eff_bind at 1. rewrite Er. destruct (is_skipped r) eqn:Ek; cbn [negb].
  - destruct (mark_answers s2) as (m & s3 & Em & H3). unfold mbind at 1, eff_bind at 1. rewrite Em. destruct m; [|by eexists _, _].
    destruct (Hh s3) as (r' & s4 & E4); [lia|]. unfold mbind at 1, eff_bind at 1. rewrite E4. by eexists _, s4.
  - apply IH. destruct (decide (N <= at_step s1)%nat) as [Hn|Hn]; [left; by apply Hcalm|]. right. split; [lia|]. intros s' Hs'. apply Hh. lia.
Qed.

(** C36. A run of a job ends: once it is told to stop, whatever the database and the other processes do then, or once the
    database answers and no other process marks the job any more, [runJob] answers, with a fuel of one run for each step until
    then and one more. Every follow-up run and every hand-over uses up a kick, and none starts after the stop. *)
Theorem runJob_ends fuel acquisition s : (N - at_step s < fuel)%nat ->
  exists r s', runJob dialect number_text env fuel job acquisition mode s = (inr (Some r), s').
Proof.
  revert acquisition s. induction fuel as [|fuel IH]; intros acquisition s Hf; [lia|]. cbn [runJob].
  destruct (once_returns acquisition s) as (r & s1 & Er & H1 & Hcalm). unfold mbind at 1, eff_bind at 1. rewrite Er. apply follow_up_ends.
  destruct (decide (N <= at_step s)%nat) as [Hn|Hn]; [left; by apply Hcalm|]. right. split; [lia|]. intros s' Hs'. apply IH. lia.
Qed.

End Quiet.
End Runs.

(** ** Runs *)

(** A quiet world at one moment, in which IAM holds the job's key and [ran k] is what a handler does at step [k]. *)
Definition demo_env (ran : nat -> Handler) (late_at : option nat) (k : nat) : Interval :=
  mkInterval [] (demo_moment 1000000) 1000 false false false 0 "u" ExchangeHeld (ran k) [mkKick "old" None] (bool_decide (late_at = Some k)).

Definition demo_job : BoundJob := mkBound (mkScheduled "sync" "30 6 * * 1-5" demo_schedule 60000) 1 false.

Definition demo_start : RunState := mkRun (mkTables ∅ [] ∅ None) 0 0 None 0 [].

Definition demo_text (_ : Z) : string := "0".

#[local] Existing Instance no_projection.

Lemma run_follows_protocol_witness :
  exists s', runOnce Postgres demo_text (demo_env (fun _ => HandlerReturned [mkKick "other" None]) None) demo_job AcquireTry Inline demo_start = (inr (RunSucceeded 1), s') /\
    phase demo_job Inline s' = Some PKicked /\
    exists kicks, (forall kick, kick ∈ kicks -> exists wake, Wrote wake ∈ trace s' /\ n_job wake = kick_job kick) /\ head (trace s') = Some (Kicked (kicked kicks)).
Proof.
  set (env := demo_env _ None).
  destruct (run_follows_protocol Postgres demo_text env demo_job Inline AcquireTry demo_start) as (r & s' & E & Ht & Hw); [by intros n|by vm_compute|done|].
  exists s'. assert (Er : (runOnce Postgres demo_text env demo_job AcquireTry Inline demo_start).1 = inr (RunSucceeded 1)) by (by vm_compute).
  assert (Ef : existsb (fun a => match a with FinishedAs _ Succeeded _ => true | _ => false end) (trace (runOnce Postgres demo_text env demo_job AcquireTry Inline demo_start).2) = true) by (by vm_compute).
  rewrite E in Er, Ef. cbn in Er, Ef. injection Er as ->. split; [exact E|]. split; [exact Ht|].
  apply existsb_exists in Ef as (a & Hin%list_elem_of_In & Ha). destruct a as [| | | |fence [] b| |]; try done.
  destruct Hw as (kicks & _ & Hk & Hh); [by exists fence, b|]. exists kicks. split; [exact Hk|]. by apply (Hh 1).
Defined.

Lemma runJob_ends_witness :
  exists r s', runJob Postgres demo_text (demo_env (fun _ => HandlerReturned []) None) 1 demo_job AcquireTry Inline demo_start = (inr (Some r), s').
Proof.
  apply (runJob_ends Postgres demo_text (demo_env (fun _ => HandlerReturned []) None) demo_job Inline 0); [|cbn; lia].
  right. intros k _. split; [done|]. intros m c Hin. by apply elem_of_nil in Hin.
Defined.

(** A handler that outlived its attempt overwrites the kicks of the attempt that succeeded: the recorder is the run's, not
    the attempt's. Here attempt 1 times out and its handler returns while attempt 2's statements are cancelled: the run
    kicks [old], which the failed attempt kicked, and not [new]. *)
Example stale_kicks_replace :
  head (trace (runOnce Postgres demo_text
    (demo_env (fun k => if (k =? 5)%nat then HandlerTimedOut else HandlerReturned [mkKick "new" None]) (Some 11%nat)) demo_job AcquireTry Inline demo_start).2)
  = Some (Kicked ["old"]).
Proof. by vm_compute. Qed.
