(* ===== verification/Policy.v ===== *)
(** The access policy of every table of an application ([db/src/policy.ts]): the containment chain of each table, and the checks without which the data layer could not enforce it.

    A thrown [PolicyError] is [PolicyError], without its message. [OutOfFuel] is no answer of the code: the recursion over
    tables and dimensions carries fuel, and [linkTables_sound] shows it never runs out. A set of names is the list of its
    names. *)

From S2P Require Import Prelude Json.
From Stdlib Require Import ZArith Lia String Ascii.
From stdpp Require Import base tactics strings list.

Inductive PolicyFailure := PolicyError | OutOfFuel.

Definition policy (A : Type) : Type := PolicyFailure + A.

#[global] Instance policy_ret : MRet policy := fun A a => inr a.
#[global] Instance policy_bind : MBind policy := fun A B f m => match m with inl e => inl e | inr a => f a end.

Definition throw {A} : policy A := inl PolicyError.

(** Throws unless [b]. *)
Definition require (b : bool) : policy unit := if b then inr tt else throw.

Fixpoint mapM_ {A B} (f : A -> policy B) (l : list A) : policy (list B) :=
  match l with [] => mret [] | x :: l => y ← f x; ys ← mapM_ f l; mret (y :: ys) end.

(** ** Tables *)

Record Container := mkContainer { link_dimension : string; link_column : string }.

#[global] Instance Container_eq_dec : EqDecision Container.
Proof. solve_decision. Defined.

Record ForeignKey := mkForeignKey { fk_columns : list string; fk_table : string; fk_references : list string }.

Inductive ScopeModel :=
| ScopeDimension (dimension key : string) (container : option Container)
| ScopeChild (parent key column : string) (inherit : list string)
| ScopeReference (reason : string)
| ScopeApp (reason key : string).

(** A child's [column] and [inherit], when omitted, are derived from its parent while the tables are linked. *)
Inductive ParsedScope :=
| ParsedDimension (dimension key : string) (container : option Container)
| ParsedChild (parent key : string) (column : option string) (inherit : option (list string))
| ParsedReference (reason : string)
| ParsedApp (reason key : string).

Record ActionModel := mkActions {
  act_read : list string;
  act_insert : list string;
  act_update : list string;
  act_delete : list string;
  appRead : list string;
  appCount : list string;
}.

Record QueueModel := mkQueue { q_attempts : string; q_due : string; q_maxAttempts : Z }.

Definition DEFAULT_MAX_ATTEMPTS : Z := 10.

(** What [ParsedTable] and [TableModel] share; [S] is the type of the scope. *)
Record TableOf (S : Type) := mkTableOf {
  t_name : string;
  t_scope : S;
  t_actions : ActionModel;
  t_columns : list string;
  t_visible : list string;
  t_insert : list string;
  t_update : list string;
  t_version : option string;
  t_createdBy : option string;
  t_queue : option QueueModel;
  t_files : list (string * string);
  t_columnReads : list (string * string);
  t_columnWrites : list (string * string);
  t_dates : list string;
  t_timestamps : list string;
  t_booleans : list string;
  t_json : list string;
  t_foreignKeys : list ForeignKey;
  t_view : bool;
}.

Arguments mkTableOf {S}.
Arguments t_name {S}.
Arguments t_scope {S}.
Arguments t_actions {S}.
Arguments t_columns {S}.
Arguments t_visible {S}.
Arguments t_insert {S}.
Arguments t_update {S}.
Arguments t_version {S}.
Arguments t_createdBy {S}.
Arguments t_queue {S}.
Arguments t_files {S}.
Arguments t_columnReads {S}.
Arguments t_columnWrites {S}.
Arguments t_dates {S}.
Arguments t_timestamps {S}.
Arguments t_booleans {S}.
Arguments t_json {S}.
Arguments t_foreignKeys {S}.
Arguments t_view {S}.

Definition ParsedTable : Type := TableOf ParsedScope.

Record TableModel := mkModel { model_table :> TableOf ScopeModel; chain : list Container }.

(** [{ ...table, scope }] *)
Definition with_scope {S T} (table : TableOf S) (scope : T) : TableOf T :=
  mkTableOf (t_name table) scope (t_actions table) (t_columns table) (t_visible table) (t_insert table) (t_update table) (t_version table)
    (t_createdBy table) (t_queue table) (t_files table) (t_columnReads table) (t_columnWrites table) (t_dates table) (t_timestamps table)
    (t_booleans table) (t_json table) (t_foreignKeys table) (t_view table).

Definition TableModels : Type := list (string * TableModel).

Definition modelOf (models : TableModels) (table : string) : option TableModel := lookup_field table models.

(** ** What an action reaches of a table *)

Definition updatableBy {S} (model : TableOf S) (action : string) : list string :=
  if Js.elem action (act_update (t_actions model)) then t_update model
  else map fst (List.filter (fun column => (column.2 =? action)%string) (t_columnWrites model)).

Definition namesAction {S} (model : TableOf S) (action : string) : bool :=
  let actions := t_actions model in
  Js.elem action (act_read actions) || Js.elem action (act_insert actions) || Js.elem action (act_update actions) || Js.elem action (act_delete actions)
  || existsb (fun column => (column.2 =? action)%string) (t_columnWrites model).

Definition visibleFor {S} (model : TableOf S) (action : string) : list string :=
  List.filter (fun name => match lookup_field name (t_columnReads model) with None => true | Some declared => (declared =? action)%string end) (t_columns model).

Definition updateActions {S} (model : TableOf S) : list string :=
  fold_left (fun actions write => if Js.elem write actions then actions else actions ++ [write]) (map snd (t_columnWrites model)) (act_update (t_actions model)).

(** ** The columns the layer stamps *)

Record Stamp := mkStamp { stamp_column : string; insertable : bool }.

Definition scope_key (scope : ParsedScope) : option string :=
  match scope with ParsedDimension _ key _ | ParsedChild _ key _ _ | ParsedApp _ key => Some key | ParsedReference _ => None end.

Definition stampsOf (table : ParsedTable) (chain : list Container) : list Stamp :=
  match scope_key (t_scope table) with Some key => [mkStamp key false] | None => [] end
  ++ map (fun link => mkStamp (link_column link) false) chain
  ++ match t_version table with Some version => [mkStamp version false] | None => [] end
  ++ match t_createdBy table with Some createdBy => [mkStamp createdBy false] | None => [] end
  ++ match t_queue table with Some queue => [mkStamp (q_attempts queue) false; mkStamp (q_due queue) true] | None => [] end.

(** The loop of [checkStamps]; [earlier] are the columns of the stamps before. *)
Fixpoint stamps_checked (table : ParsedTable) (earlier : list string) (stamps : list Stamp) : policy unit :=
  match stamps with
  | [] => mret tt
  | stamp :: stamps =>
      let column := stamp_column stamp in
      if t_view table then
        _ ← require (negb (Js.elem column (t_json table)));
        stamps_checked table (earlier ++ [column]) stamps
      else
        _ ← require (negb (Js.elem column earlier));
        _ ← require (negb ((negb (insertable stamp) && Js.elem column (t_insert table)) || Js.elem column (t_update table)));
        _ ← require (negb (is_some (lookup_field column (t_columnWrites table))));
        _ ← require (negb (Js.elem column (t_json table)));
        stamps_checked table (earlier ++ [column]) stamps
  end.

Definition checkStamps (table : ParsedTable) (chain : list Container) : policy unit := stamps_checked table [] (stampsOf table chain).

(** ** Foreign keys *)

Definition references (table : ParsedTable) (column target key : string) : bool :=
  existsb (fun foreignKey => (fk_table foreignKey =? target)%string
    && existsb (fun pair => (pair.1 =? column)%string && (pair.2 =? key)%string) (zip (fk_columns foreignKey) (fk_references foreignKey))) (t_foreignKeys table).

(** The key of the table that owns a dimension. *)
Definition owner_key (owner : ParsedTable) : string := match t_scope owner with ParsedDimension _ key _ => key | _ => "" end.

Definition requireReference (table : ParsedTable) (link : Container) (owner : ParsedTable) : policy unit :=
  require (references table (link_column link) (t_name owner) (owner_key owner)).

Definition coversPairs (foreignKey : ForeignKey) (pairs : list (string * string)) : bool :=
  forallb (fun pair => existsb (fun entry => (entry.1 =? pair.1)%string && (entry.2 =? pair.2)%string)
    (zip (fk_columns foreignKey) (fk_references foreignKey))) pairs.

Definition requireCoveringKey (table : ParsedTable) (link : Container) (owner : ParsedTable) (ownerChain : list Container) : policy unit :=
  if (length ownerChain =? 0)%nat then mret tt
  else if negb (forallb (fun above => Js.elem (link_column above) (t_columns table)) ownerChain) then mret tt
  else let pairs := (link_column link, owner_key owner) :: map (fun above => (link_column above, link_column above)) ownerChain in
       require (existsb (fun foreignKey => (fk_table foreignKey =? t_name owner)%string && coversPairs foreignKey pairs) (t_foreignKeys table)).

Definition parentColumn (table : ParsedTable) (column : string) : policy string :=
  _ ← require (Js.elem column (t_columns table)); mret column.

(** ** Linking *)

(** The container of each dimension of the vocabulary. *)
Definition Containment : Type := list (string * option string).

Record Resolved := mkResolved { resolved_scope : ScopeModel; resolved_chain : list Container }.

Section Link.
Variables (parsed : list ParsedTable) (containment : Containment).

(** [byName]: the last table of a name. *)
Definition byName (name : string) : option ParsedTable := last (List.filter (fun table => (t_name table =? name)%string) parsed).

Definition owns (dimension : string) (table : ParsedTable) : bool :=
  match t_scope table with ParsedDimension d _ _ => (d =? dimension)%string | _ => false end.

Definition owners (dimension : string) : option ParsedTable := List.find (owns dimension) parsed.

Definition container_of (dimension : string) : option string := mjoin (lookup_field dimension containment).

Definition checkForeignKeys (table : ParsedTable) : policy unit :=
  _ ← mapM_ (fun foreignKey =>
        match byName (fk_table foreignKey) with
        | None => throw
        | Some target => require (forallb (fun referenced => Js.elem referenced (t_columns target)) (fk_references foreignKey))
        end) (t_foreignKeys table);
  mret tt.

(** [above] of [resolveChain]: past a dimension no table owns, the vocabulary's ancestry. *)
Fixpoint above (fuel : nat) (chainOf : ParsedTable -> policy (list Container)) (dimension : string) : policy (list Container) :=
  match fuel with
  | O => inl OutOfFuel
  | S fuel =>
      match owners dimension with
      | Some owner => chainOf owner
      | None =>
          match container_of dimension with
          | None => mret []
          | Some container => rest ← above fuel chainOf container; mret (mkContainer container (container +:+ "_id") :: rest)
          end
      end
  end.

Definition resolveChain (table : ParsedTable) (chainOf : ParsedTable -> policy (list Container)) : policy Resolved :=
  match t_scope table with
  | ParsedDimension dimension key None => mret (mkResolved (ScopeDimension dimension key None) [])
  | ParsedDimension dimension key (Some container) =>
      _ ← match owners (link_dimension container) with
          | Some owner => _ ← requireReference table container owner; ownerChain ← chainOf owner; requireCoveringKey table container owner ownerChain
          | None => mret tt
          end;
      rest ← above (S (length containment)) chainOf (link_dimension container);
      mret (mkResolved (ScopeDimension dimension key (Some container)) (container :: rest))
  | ParsedReference reason => mret (mkResolved (ScopeReference reason) [])
  | ParsedApp reason key => mret (mkResolved (ScopeApp reason key) [])
  | ParsedChild parentName key column inherit =>
      match byName parentName with
      | Some parent =>
          match t_scope parent with
          | ParsedDimension dimension _ _ =>
              parentChain ← chainOf parent;
              let expected := map link_column parentChain in
              let inherit := default expected inherit in
              let inherited := remove_dups inherit in
              _ ← require ((length inherit =? length expected)%nat && (length inherited =? length expected)%nat
                           && forallb (fun name => Js.elem name inherited) expected);
              column ← match column with Some column => mret column | None => parentColumn table (dimension +:+ "_id") end;
              let link := mkContainer dimension column in
              _ ← (if t_view table then mret tt
                   else _ ← requireReference table link parent; requireCoveringKey table link parent parentChain);
              mret (mkResolved (ScopeChild parentName key column inherit) (link :: parentChain))
          | _ => throw
          end
      | None => throw
      end
  end.

(** [resolve], without its cache of the tables resolved before. *)
Fixpoint resolve (fuel : nat) (visiting : list string) (table : ParsedTable) : policy Resolved :=
  match fuel with
  | O => inl OutOfFuel
  | S fuel =>
      if Js.elem (t_name table) visiting then throw
      else
        result ← resolveChain table (fun next => result ← resolve fuel (visiting ++ [t_name table]) next; mret (resolved_chain result));
        _ ← require (forallb (fun link => Js.elem (link_column link) (t_columns table)) (resolved_chain result));
        _ ← checkStamps table (resolved_chain result);
        mret result
  end.

(** One table per dimension. *)
Fixpoint one_owner (tables : list ParsedTable) (seen : list string) : policy unit :=
  match tables with
  | [] => mret tt
  | table :: tables =>
      match t_scope table with
      | ParsedDimension dimension _ _ => _ ← require (negb (Js.elem dimension seen)); one_owner tables (dimension :: seen)
      | _ => one_owner tables seen
      end
  end.

Definition linkTables : policy TableModels :=
  _ ← one_owner parsed [];
  _ ← mapM_ checkForeignKeys parsed;
  mapM_ (fun table =>
    result ← resolve (S (length parsed)) [] table;
    mret (t_name table, mkModel (with_scope table (resolved_scope result)) (resolved_chain result))) parsed.

End Link.

(** ** What linking establishes *)

Lemma require_true b u : require b = inr u -> b = true.
Proof. by destruct b. Qed.

Lemma bind_inr {A B} (m : policy A) (f : A -> policy B) b : (m ≫= f) = inr b -> exists a, m = inr a /\ f a = inr b.
Proof. destruct m as [|a]; [done|]. intros H. by exists a. Qed.

(** Takes apart a computation that did not throw. *)
Ltac succeeded :=
  repeat match goal with
  | H : (_ ≫= _) = inr _ |- _ => apply bind_inr in H as (? & ? & H)
  | H : require _ = inr _ |- _ => apply require_true in H
  | H : mret _ = inr _ |- _ => injection H as H
  end.

Lemma mapM_inr {A B} (f : A -> policy B) l l' : mapM_ f l = inr l' -> Forall2 (fun x y => f x = inr y) l l'.
Proof.
  revert l'. induction l as [|x l IH]; intros l' H; cbn [mapM_] in H; succeeded; subst; constructor; [done|by apply IH].
Qed.

Lemma Forall2_elem_l {A B} (P : A -> B -> Prop) l k x : Forall2 P l k -> x ∈ l -> exists y, y ∈ k /\ P x y.
Proof. intros H [i Hi]%list_elem_of_lookup. destruct (Forall2_lookup_l _ _ _ _ _ H Hi) as (y & Hy & Hp). exists y. split; [by eapply list_elem_of_lookup_2|done]. Qed.

Lemma Forall2_elem_r {A B} (P : A -> B -> Prop) l k y : Forall2 P l k -> y ∈ k -> exists x, x ∈ l /\ P x y.
Proof. intros H [i Hi]%list_elem_of_lookup. destruct (Forall2_lookup_r _ _ _ _ _ H Hi) as (x & Hx & Hp). exists x. split; [by eapply list_elem_of_lookup_2|done]. Qed.

Lemma mapM_fuel {A B} (f : A -> policy B) l : (forall x, x ∈ l -> f x <> inl OutOfFuel) -> mapM_ f l <> inl OutOfFuel.
Proof.
  induction l as [|x l IH]; intros H; cbn [mapM_]; [done|]. pose proof (H x ltac:(by left)). destruct (f x) as [[]|y]; cbn; [done|done|].
  assert (mapM_ f l <> inl OutOfFuel) by (apply IH; intros; apply H; by right). by destruct (mapM_ f l) as [[]|ys].
Qed.

Definition key_of (scope : ScopeModel) : option string :=
  match scope with ScopeDimension _ key _ | ScopeChild _ key _ _ | ScopeApp _ key => Some key | ScopeReference _ => None end.

(** The columns of a model the layer writes itself. *)
Definition stamped (m : TableModel) : list string :=
  option_list (key_of (t_scope m)) ++ map link_column (chain m) ++ option_list (t_version m) ++ option_list (t_createdBy m)
  ++ match t_queue m with Some queue => [q_attempts queue; q_due queue] | None => [] end.

(** A foreign key ties a row's link, and the chain above it, to one row of the owner. *)
Definition covering (m : TableModel) (link : Container) (owner : TableModel) : Prop :=
  exists fk, fk ∈ t_foreignKeys m /\ fk_table fk = t_name owner
    /\ (forall key, key_of (t_scope owner) = Some key -> (link_column link, key) ∈ zip (fk_columns fk) (fk_references fk))
    /\ (forall up, up ∈ chain owner -> (link_column up, link_column up) ∈ zip (fk_columns fk) (fk_references fk)).

(** The chain of a model is its own link and the chain of the table that owns it. *)
Definition chained (models : TableModels) (m : TableModel) : Prop :=
  match t_scope m with
  | ScopeDimension _ _ None | ScopeReference _ | ScopeApp _ _ => chain m = []
  | ScopeDimension _ _ (Some container) => exists rest, chain m = container :: rest /\
      (forall name (owner : TableModel) key up, (name, owner) ∈ models -> t_scope owner = ScopeDimension (link_dimension container) key up ->
         rest = chain owner /\ covering m container owner)
  | ScopeChild parent _ column _ => exists (owner : TableModel) dimension key up, (parent, owner) ∈ models /\ t_scope owner = ScopeDimension dimension key up /\
      chain m = mkContainer dimension column :: chain owner /\ (t_view m = false -> covering m (mkContainer dimension column) owner)
  end.

(** What the layer relies on of one table. *)
Record model_ok (m : TableModel) : Prop := {
  chain_columns : forall link, link ∈ chain m -> link_column link ∈ t_columns m;
  chain_dimensions : NoDup (map link_dimension (chain m));
  own_dimension : forall d key up, t_scope m = ScopeDimension d key up -> d ∉ map link_dimension (chain m);
  stamps_distinct : t_view m = false -> NoDup (stamped m);
  stamps_not_updated : t_view m = false -> forall column, column ∈ stamped m -> column ∉ t_update m /\ lookup_field column (t_columnWrites m) = None;
  stamps_not_inserted : t_view m = false -> forall column, column ∈ stamped m -> column ∈ t_insert m -> q_due <$> t_queue m = Some column;
  stamps_scalar : forall column, column ∈ stamped m -> column ∉ t_json m;
}.

Section Linked.
Variables (parsed : list ParsedTable) (containment : Containment).

(** The vocabulary's containment ends: its parse refuses a cycle. *)
Fixpoint ends (n : nat) (dimension : string) : bool :=
  match container_of containment dimension with
  | None => true
  | Some container => match n with O => false | S n => ends n container end
  end.

Hypothesis acyclic : forall dimension, ends (length containment) dimension = true.

(** A dimension table lies in the container the vocabulary puts its dimension in. *)
Hypothesis placed : forall table dimension key container, table ∈ parsed -> t_scope table = ParsedDimension dimension key container ->
  link_dimension <$> container = container_of containment dimension.

Fixpoint ancestors (n : nat) (dimension : string) : list string :=
  match n with
  | O => []
  | S n => match container_of containment dimension with None => [] | Some container => container :: ancestors n container end
  end.

Lemma ends_mono n m d : ends n d = true -> n <= m -> ends m d = true.
Proof.
  revert m d. induction n as [|n IH]; intros [|m] d; cbn; destruct (container_of containment d); try done; [lia|]. intros. apply IH; [done|lia].
Qed.

Lemma ancestors_enough n m d : ends n d = true -> n <= m -> ancestors m d = ancestors n d.
Proof.
  revert m d. induction n as [|n IH]; intros [|m] d; cbn; destruct (container_of containment d); try done; [lia|]. intros. f_equal. apply IH; [done|lia].
Qed.

Lemma ancestors_step d c : container_of containment d = Some c ->
  ancestors (length containment) d = c :: ancestors (length containment) c.
Proof.
  intros Hc. pose proof (acyclic d) as Hd. destruct (length containment) as [|n] eqn:En; cbn in Hd |- *; rewrite Hc in *; [done|].
  f_equal. exact (eq_sym (ancestors_enough n (S n) c Hd ltac:(lia))).
Qed.

Lemma ancestors_end n d a : ends n d = true -> a ∈ ancestors (length containment) d -> exists m, m < n /\ ends m a = true.
Proof.
  revert d. induction n as [|n IH]; intros d Hd Ha.
  - cbn in Hd. destruct (container_of containment d) eqn:E; [done|]. destruct (length containment); cbn in Ha; rewrite ?E in Ha; by apply elem_of_nil in Ha.
  - cbn in Hd. destruct (container_of containment d) as [c|] eqn:E.
    + rewrite (ancestors_step _ _ E) in Ha. apply elem_of_cons in Ha as [->|Ha]; [exists n; split; [lia|done]|]. destruct (IH c Hd Ha) as (m & ? & ?). exists m. split; [lia|done].
    + destruct (length containment); cbn in Ha; rewrite ?E in Ha; by apply elem_of_nil in Ha.
Qed.

(** No dimension is among its own ancestors. *)
Lemma ancestors_irreflexive d : d ∉ ancestors (length containment) d.
Proof.
  assert (H : forall n, ends n d = true -> d ∉ ancestors (length containment) d).
  { induction n as [n IH] using (well_founded_induction Nat.lt_wf_0). intros Hn Hd. destruct (ancestors_end _ _ _ Hn Hd) as (m & ? & ?). by apply (IH m). }
  by apply (H (length containment)).
Qed.

Lemma ancestors_trans n d a b : ends n d = true -> a ∈ ancestors (length containment) d -> b ∈ ancestors (length containment) a ->
  b ∈ ancestors (length containment) d.
Proof.
  revert d. induction n as [|n IH]; intros d Hd Ha Hb; destruct (container_of containment d) as [c|] eqn:E; cbn in Hd; rewrite E in Hd; try done.
  - destruct (length containment); cbn in Ha; rewrite ?E in Ha; by apply elem_of_nil in Ha.
  - rewrite (ancestors_step _ _ E) in *. apply elem_of_cons in Ha as [->|Ha]; right; [done|]. by eapply IH.
  - destruct (length containment); cbn in Ha; rewrite ?E in Ha; by apply elem_of_nil in Ha.
Qed.

Lemma ancestors_NoDup n d : ends n d = true -> NoDup (ancestors (length containment) d).
Proof.
  revert d. induction n as [|n IH]; intros d Hd; destruct (container_of containment d) as [c|] eqn:E; cbn in Hd; rewrite E in Hd; try done.
  - destruct (length containment); cbn; rewrite ?E; constructor.
  - rewrite (ancestors_step _ _ E). constructor; [apply ancestors_irreflexive|by apply IH].
  - destruct (length containment); cbn; rewrite ?E; constructor.
Qed.

(** *** Owners *)

Lemma owners_spec d table : owners parsed d = Some table -> table ∈ parsed /\ exists key container, t_scope table = ParsedDimension d key container.
Proof.
  intros H. apply find_some in H as [Hin Ho]. split; [by apply list_elem_of_In|]. unfold owns in Ho.
  destruct (t_scope table); try done. apply String.eqb_eq in Ho as ->. by eexists _, _.
Qed.

Lemma byName_spec name table : byName parsed name = Some table -> table ∈ parsed /\ t_name table = name.
Proof.
  intros [l El]%last_Some. assert (Hin : table ∈ List.filter (fun t => (t_name t =? name)%string) parsed) by (rewrite El; apply elem_of_app; right; by left).
  apply list_elem_of_In, filter_In in Hin as [Hin E]. split; [by apply list_elem_of_In|by apply String.eqb_eq].
Qed.

(** *** Dimensions *)

(** The chains a recursive call answers are the ancestors. *)
Definition answers_ancestors (chainOf : ParsedTable -> policy (list Container)) : Prop :=
  forall next ch d key c, next ∈ parsed -> chainOf next = inr ch -> t_scope next = ParsedDimension d key c ->
    map link_dimension ch = ancestors (length containment) d.

Lemma above_dims chainOf n d ch : answers_ancestors chainOf -> above parsed containment n chainOf d = inr ch ->
  map link_dimension ch = ancestors (length containment) d.
Proof.
  intros Hc. revert d ch. induction n as [|n IH]; intros d ch; cbn [above]; [done|]. destruct (owners parsed d) as [owner|] eqn:E.
  - intros H. apply owners_spec in E as (Hin & key & c & Es). by eapply Hc.
  - destruct (container_of containment d) as [c|] eqn:Ec; intros H; succeeded; subst ch.
    + cbn [map link_dimension]. match goal with H : above _ _ _ _ c = inr _ |- _ => apply IH in H as -> end. symmetry. by apply ancestors_step.
    + destruct (length containment); cbn; by rewrite ?Ec.
Qed.

(** The dimensions a table's chain lies in. *)
Definition in_dimensions (table : ParsedTable) (ch : list Container) : Prop :=
  match t_scope table with
  | ParsedDimension d _ _ => map link_dimension ch = ancestors (length containment) d
  | ParsedChild _ _ _ _ => exists d, map link_dimension ch = d :: ancestors (length containment) d
  | _ => ch = []
  end.

Lemma resolveChain_dims chainOf table r : table ∈ parsed -> answers_ancestors chainOf -> resolveChain parsed containment table chainOf = inr r ->
  in_dimensions table (resolved_chain r) /\ key_of (resolved_scope r) = scope_key (t_scope table).
Proof.
  intros Hin Hc H. unfold resolveChain in H. unfold in_dimensions.
  destruct (t_scope table) as [d key [c|]|parent key column inherit|reason|reason key] eqn:Es.
  - succeeded. subst r. cbn. split; [|done]. pose proof (placed _ _ _ _ Hin Es) as Hp. cbn in Hp. transitivity (link_dimension c :: ancestors (length containment) (link_dimension c)); [|symmetry; by apply ancestors_step].
    f_equal. by eapply above_dims.
  - injection H as <-. cbn. split; [|done]. pose proof (placed _ _ _ _ Hin Es) as Hp. cbn in Hp. destruct (length containment); cbn; by rewrite <-?Hp.
  - destruct (byName parsed parent) as [owner|] eqn:Eb; [|done]. apply byName_spec in Eb as [Hp _].
    destruct (t_scope owner) as [d okey c| | |] eqn:Eo; try done. succeeded. subst r. cbn. split; [|done]. exists d. f_equal. by eapply Hc.
  - by injection H as <-.
  - by injection H as <-.
Qed.

Lemma resolve_dims fuel visiting table r : table ∈ parsed -> resolve parsed containment fuel visiting table = inr r ->
  in_dimensions table (resolved_chain r) /\ key_of (resolved_scope r) = scope_key (t_scope table)
  /\ (forall link, link ∈ resolved_chain r -> link_column link ∈ t_columns table) /\ checkStamps table (resolved_chain r) = inr tt.
Proof.
  revert visiting table r. induction fuel as [|fuel IH]; intros visiting table r Hin H; cbn [resolve] in H; [done|].
  destruct (Js.elem _ _); [done|]. apply bind_inr in H as (r' & Hr & H). succeeded. subst r'. destruct x0.
  apply resolveChain_dims in Hr as [Hd Hk]; [|done|].
  - split_and!; [done|done| |done]. intros link Hl. match goal with F : forallb _ _ = true |- _ => rewrite forallb_forall in F; apply list_elem_of_In, F, elem_spec in Hl end. done.
  - intros next ch d key c Hn Hch Es. succeeded. subst ch. match goal with Q : resolve _ _ _ _ _ = inr _ |- _ => apply IH in Q as [Hdims _]; [|done] end.
    unfold in_dimensions in Hdims. by rewrite Es in Hdims.
Qed.

(** *** Fuel *)

Lemma bind_fuel {A B} (m : policy A) (f : A -> policy B) : m <> inl OutOfFuel -> (forall a, f a <> inl OutOfFuel) -> (m ≫= f) <> inl OutOfFuel.
Proof. destruct m as [[]|a]; cbn; intros; done || auto. Qed.

Lemma require_fuel b : require b <> inl OutOfFuel.
Proof. by destruct b. Qed.

Lemma above_fuel chainOf n d : (forall next, next ∈ parsed -> chainOf next <> inl OutOfFuel) -> ends n d = true ->
  above parsed containment (S n) chainOf d <> inl OutOfFuel.
Proof.
  intros Hc. revert d. induction n as [|n IH]; intros d Hd; cbn [above ends] in *; destruct (owners parsed d) as [owner|] eqn:E;
    try (apply Hc; by apply owners_spec in E as [? _]); destruct (container_of containment d); try done.
  apply bind_fuel; [by apply IH|done].
Qed.

Lemma coveringKey_fuel table link owner ch : requireCoveringKey table link owner ch <> inl OutOfFuel.
Proof. unfold requireCoveringKey. destruct (_ =? 0)%nat; [done|]. destruct (negb _); [done|]. apply require_fuel. Qed.

Lemma resolveChain_fuel chainOf table : (forall next, next ∈ parsed -> chainOf next <> inl OutOfFuel) ->
  resolveChain parsed containment table chainOf <> inl OutOfFuel.
Proof.
  intros Hc. unfold resolveChain. destruct (t_scope table) as [d key [c|]|parent key column inherit|reason|reason key]; try done.
  - apply bind_fuel.
    + destruct (owners parsed _) as [owner|] eqn:E; [|done]. apply owners_spec in E as [Hin _].
      apply bind_fuel; [apply require_fuel|]. intros _. apply bind_fuel; [by apply Hc|]. intros ch. apply coveringKey_fuel.
    + intros _. apply bind_fuel; [by apply above_fuel|done].
  - destruct (byName parsed parent) as [owner|] eqn:E; [|done]. apply byName_spec in E as [Hin _]. destruct (t_scope owner); try done.
    apply bind_fuel; [by apply Hc|]. intros ch. apply bind_fuel; [apply require_fuel|]. intros _. apply bind_fuel.
    + destruct column; [done|]. apply bind_fuel; [apply require_fuel|done].
    + intros col. apply bind_fuel; [|done]. destruct (t_view table); [done|]. apply bind_fuel; [apply require_fuel|]. intros _. apply coveringKey_fuel.
Qed.

Lemma stamps_fuel table earlier stamps : stamps_checked table earlier stamps <> inl OutOfFuel.
Proof.
  revert earlier. induction stamps as [|stamp stamps IH]; intros earlier; cbn [stamps_checked]; [done|].
  destruct (t_view table); repeat (apply bind_fuel; [apply require_fuel|intros _]); apply IH.
Qed.

Lemma resolve_fuel fuel visiting table : table ∈ parsed -> NoDup visiting -> visiting ⊆ map t_name parsed ->
  fuel + length visiting = S (length parsed) -> resolve parsed containment fuel visiting table <> inl OutOfFuel.
Proof.
  revert visiting table. induction fuel as [|fuel IH]; intros visiting table Hin Hd Hsub Hlen; cbn [resolve].
  - apply NoDup_submseteq in Hsub; [|done]. apply submseteq_length in Hsub. rewrite length_map in Hsub. exfalso. apply (Nat.nle_succ_diag_l (length parsed)). rewrite <-Hlen. exact Hsub.
  - destruct (Js.elem (t_name table) visiting) eqn:E; [done|]. apply bind_fuel.
    + apply resolveChain_fuel. intros next Hn. apply bind_fuel; [|done]. apply IH; [done| | |rewrite length_app; cbn; lia].
      * apply NoDup_app. split; [done|]. split; [|apply NoDup_singleton]. intros x Hx ->%list_elem_of_singleton. apply elem_spec in Hx. congruence.
      * intros x [Hx| ->%list_elem_of_singleton]%elem_of_app; [by apply Hsub|]. apply list_elem_of_fmap. by exists table.
    + intros r. apply bind_fuel; [apply require_fuel|]. intros _. apply bind_fuel; [apply stamps_fuel|done].
Qed.

(** *** The result does not depend on the path that reached a table *)

Definition agree_on (c c' : ParsedTable -> policy (list Container)) : Prop :=
  forall next a b, next ∈ parsed -> c next = inr a -> c' next = inr b -> a = b.

Lemma above_det c c' n d a b : agree_on c c' -> above parsed containment n c d = inr a -> above parsed containment n c' d = inr b -> a = b.
Proof.
  intros Hc. revert d a b. induction n as [|n IH]; intros d a b; cbn [above]; [done|]. destruct (owners parsed d) as [owner|] eqn:E.
  - apply owners_spec in E as [Hin _]. by apply Hc.
  - destruct (container_of containment d); intros H H'; succeeded; subst; [f_equal; by eapply IH|done].
Qed.

Lemma resolveChain_det c c' table r r' : agree_on c c' -> resolveChain parsed containment table c = inr r ->
  resolveChain parsed containment table c' = inr r' -> r = r'.
Proof.
  intros Hc H H'. unfold resolveChain in *. destruct (t_scope table) as [d key [up|]|parent key column inherit|reason|reason key]; try congruence.
  - succeeded. subst r r'. f_equal. f_equal. by eapply above_det.
  - destruct (byName parsed parent) as [owner|] eqn:E; [|done]. apply byName_spec in E as [Hin _]. destruct (t_scope owner); try done.
    apply bind_inr in H as (a & Ha & H), H' as (b & Hb & H'). assert (a = b) as -> by (by eapply Hc). congruence || (succeeded; subst; congruence).
Qed.

Lemma resolve_det f f' v v' table r r' : table ∈ parsed -> resolve parsed containment f v table = inr r -> resolve parsed containment f' v' table = inr r' -> r = r'.
Proof.
  revert f' v v' table r r'. induction f as [|f IH]; intros [|f'] v v' table r r' Hin H H'; try done. cbn [resolve] in *.
  destruct (Js.elem _ v); [done|]. destruct (Js.elem _ v'); [done|]. apply bind_inr in H as (a & Ha & H), H' as (b & Hb & H'). succeeded. subst.
  eapply resolveChain_det; [|exact Ha|exact Hb]. intros next u w Hn Hu Hw. succeeded. subst. f_equal. by eapply IH.
Qed.

(** *** What the checks establish *)

Lemma stamps_sound table earlier stamps : t_view table = false -> stamps_checked table earlier stamps = inr tt -> NoDup earlier ->
  NoDup (earlier ++ map stamp_column stamps) /\
  forall stamp, stamp ∈ stamps -> (stamp_column stamp ∈ t_insert table -> insertable stamp = true) /\ stamp_column stamp ∉ t_update table
    /\ lookup_field (stamp_column stamp) (t_columnWrites table) = None /\ stamp_column stamp ∉ t_json table.
Proof.
  intros Hv. revert earlier. induction stamps as [|stamp stamps IH]; intros earlier H Hd; cbn [stamps_checked] in H.
  - rewrite app_nil_r. split; [done|]. by intros ? ?%elem_of_nil.
  - rewrite Hv in H. cbv zeta in H. apply bind_inr in H as ([] & H1%require_true%negb_true_iff & H). apply bind_inr in H as ([] & H2%require_true%negb_true_iff & H).
    apply bind_inr in H as ([] & H3%require_true%negb_true_iff & H). apply bind_inr in H as ([] & H4%require_true%negb_true_iff & H). apply IH in H as [Hn Hs].
    + split; [by rewrite <-app_assoc in Hn|]. intros s [->|Hin]%elem_of_cons; [|by apply Hs]. apply orb_false_iff in H2 as [H2 H2'].
      split_and!.
      * intros Hi%elem_spec. rewrite Hi, andb_true_r in H2. by apply negb_false_iff in H2.
      * intros Hi%elem_spec. congruence.
      * by destruct (lookup_field (stamp_column stamp) (t_columnWrites table)).
      * intros Hi%elem_spec. congruence.
    + apply NoDup_app. split; [done|]. split; [|apply NoDup_singleton]. intros x Hx ->%list_elem_of_singleton. apply elem_spec in Hx. congruence.
Qed.

Lemma stamps_json table earlier stamps stamp : stamps_checked table earlier stamps = inr tt -> stamp ∈ stamps -> stamp_column stamp ∉ t_json table.
Proof.
  revert earlier. induction stamps as [|s stamps IH]; intros earlier H Hin; [by apply elem_of_nil in Hin|]. cbn [stamps_checked] in H.
  destruct (t_view table); cbv zeta in H; succeeded; rewrite negb_true_iff in *;
    (apply elem_of_cons in Hin as [->|Hin]; [intros ?%elem_spec; congruence|by eapply IH]).
Qed.

Lemma covering_checked table link owner ch : requireReference table link owner = inr tt -> requireCoveringKey table link owner ch = inr tt ->
  (forall up, up ∈ ch -> link_column up ∈ t_columns table) ->
  exists fk, fk ∈ t_foreignKeys table /\ fk_table fk = t_name owner /\ (link_column link, owner_key owner) ∈ zip (fk_columns fk) (fk_references fk)
    /\ forall up, up ∈ ch -> (link_column up, link_column up) ∈ zip (fk_columns fk) (fk_references fk).
Proof.
  intros Hr Hk Hin. unfold requireReference in Hr. apply require_true in Hr. unfold references in Hr. apply existsb_exists in Hr as (fk & Hfk & Hr).
  apply andb_true_iff in Hr as [Ht%String.eqb_eq Hp]. apply existsb_exists in Hp as ([a b] & Hab & Hp). apply andb_true_iff in Hp as [Ea%String.eqb_eq Eb%String.eqb_eq]. cbn in Ea, Eb. subst a b.
  unfold requireCoveringKey in Hk. destruct (Nat.eqb_spec (length ch) 0) as [E|E].
  { destruct ch; [|done]. exists fk. split_and!; [by apply list_elem_of_In|done|by apply list_elem_of_In|]. by intros ? ?%elem_of_nil. }
  assert (forallb (fun up => Js.elem (link_column up) (t_columns table)) ch = true) as Hall.
  { apply forallb_forall. intros up Hup. apply elem_spec, Hin. by apply list_elem_of_In. }
  rewrite Hall in Hk. cbn [negb] in Hk. apply require_true, existsb_exists in Hk as (fk' & Hfk' & Hk). apply andb_true_iff in Hk as [Ht'%String.eqb_eq Hk].
  unfold coversPairs in Hk. rewrite forallb_forall in Hk.
  assert (Hpair : forall x y, List.In (x, y) ((link_column link, owner_key owner) :: map (fun above => (link_column above, link_column above)) ch) -> (x, y) ∈ zip (fk_columns fk') (fk_references fk')).
  { intros x y Hxy. apply Hk in Hxy. apply existsb_exists in Hxy as ([x' y'] & Hz & Hxy). apply andb_true_iff in Hxy as [Ex%String.eqb_eq Ey%String.eqb_eq].
    cbn in Ex, Ey. subst x' y'. by apply list_elem_of_In. }
  exists fk'. split_and!; [by apply list_elem_of_In|done|apply Hpair; by left|]. intros up Hup. apply Hpair. right. apply in_map_iff. exists up. split; [done|by apply list_elem_of_In].
Qed.

(** *** The models *)

Lemma one_owner_spec tables seen : one_owner tables seen = inr tt ->
  (forall t d, t ∈ tables -> owns d t = true -> d ∉ seen) /\
  (forall t t' d, t ∈ tables -> t' ∈ tables -> owns d t = true -> owns d t' = true -> t = t').
Proof.
  revert seen. induction tables as [|t tables IH]; intros seen H; [split; [intros t d Ht|intros t t' d Ht]; by apply elem_of_nil in Ht|]. cbn [one_owner] in H.
  assert (Hrest : exists seen', one_owner tables seen' = inr tt /\ (forall x, x ∈ seen -> x ∈ seen') /\
    (forall d, owns d t = true -> d ∉ seen /\ d ∈ seen')).
  { unfold owns. destruct (t_scope t) as [d key c| | |]; try (exists seen; by split_and!). apply bind_inr in H as ([] & Hr%require_true & H).
    exists (d :: seen). split_and!; [done|by right|]. intros d' <-%String.eqb_eq. split; [|by left].
    intros Hin%elem_spec. by rewrite Hin in Hr. }
  destruct Hrest as (seen' & Hs & Hsub & Ho). destruct (IH seen' Hs) as [H1 H2]. split.
  - intros x d [->|Hx]%elem_of_cons Hd; [by apply Ho|]. intros Hin. by apply (H1 x d Hx Hd), Hsub.
  - intros x y d [->|Hx]%elem_of_cons [->|Hy]%elem_of_cons Hd Hd'; [done|exfalso|exfalso|by eapply H2].
    + by apply (H1 y d Hy Hd'), Ho.
    + by apply (H1 x d Hx Hd), Ho.
Qed.

Definition top_fuel : nat := S (length parsed).

(** A model is its table as resolved from nowhere. *)
Definition is_model (name : string) (m : TableModel) (t : ParsedTable) (r : Resolved) : Prop :=
  t ∈ parsed /\ name = t_name t /\ resolve parsed containment top_fuel [] t = inr r /\ m = mkModel (with_scope t (resolved_scope r)) (resolved_chain r).

Lemma linked_models (models : TableModels) : linkTables parsed containment = inr models ->
  map fst models = map t_name parsed /\ (forall name (m : TableModel), (name, m) ∈ models -> exists t r, is_model name m t r)
  /\ (forall t, t ∈ parsed -> exists m r, (t_name t, m) ∈ models /\ is_model (t_name t) m t r).
Proof.
  unfold linkTables. intros H. apply bind_inr in H as (? & _ & H). apply bind_inr in H as (? & _ & H). apply mapM_inr in H.
  assert (Hone : forall t nm, t ∈ parsed -> (result ← resolve parsed containment (S (length parsed)) [] t;
      mret (t_name t, mkModel (with_scope t (resolved_scope result)) (resolved_chain result))) = inr nm -> exists r, is_model nm.1 nm.2 t r).
  { intros t nm Ht Hm. apply bind_inr in Hm as (r & Hr & Hm). injection Hm as <-. by exists r. }
  split_and!.
  - clear Hone. induction H as [|t nm ts nms Ht H IH]; [done|]. apply bind_inr in Ht as (r & _ & Ht). injection Ht as <-. cbn. by f_equal.
  - intros name m Hin. destruct (Forall2_elem_r _ _ _ _ H Hin) as (t & Ht & Hm). destruct (Hone t (name, m) Ht Hm) as [r Hr]. by exists t, r.
  - intros t Ht. destruct (Forall2_elem_l _ _ _ _ H Ht) as ([name m] & Hin & Hm). destruct (Hone t (name, m) Ht Hm) as [r Hr].
    assert (name = t_name t) as -> by apply Hr. by exists m, r.
Qed.

Lemma model_of_name models name (m : TableModel) : linkTables parsed containment = inr models -> (name, m) ∈ models -> t_name m = name.
Proof. intros Hl Hin. apply linked_models in Hl as (_ & Hm & _). apply Hm in Hin as (t & r & _ & -> & _ & ->). done. Qed.

Lemma resolve_inv v t r : resolve parsed containment top_fuel v t = inr r ->
  exists chainOf, resolveChain parsed containment t chainOf = inr r /\
    forall next ch, chainOf next = inr ch -> exists r', resolve parsed containment (length parsed) (v ++ [t_name t]) next = inr r' /\ ch = resolved_chain r'.
Proof.
  unfold top_fuel. cbn [resolve]. destruct (Js.elem _ _); [done|]. intros H. apply bind_inr in H as (r' & Hr & H).
  apply bind_inr in H as (? & _ & H). apply bind_inr in H as (? & _ & H). injection H as ->. eexists. split; [exact Hr|].
  intros next ch Hch. cbn beta in Hch. apply bind_inr in Hch as (r2 & Hr2 & Hch). injection Hch as <-. by exists r2.
Qed.

(** The scope of a model is its table's. *)
Lemma resolved_dimension name m t r : is_model name m t r -> forall d key c,
  t_scope m = ScopeDimension d key c <-> t_scope t = ParsedDimension d key c.
Proof.
  intros (Hin & _ & Hr & ->) d key c. apply resolve_inv in Hr as (chainOf & Hr & _). cbn [t_scope with_scope model_table]. unfold resolveChain in Hr.
  destruct (t_scope t) as [d' key' [up|]|parent key' column inherit|reason|reason key'].
  - succeeded. subst r. cbn. naive_solver.
  - injection Hr as <-. cbn. naive_solver.
  - destruct (byName parsed parent) as [owner|]; [|done]. destruct (t_scope owner); try done. succeeded. subst r. cbn. naive_solver.
  - injection Hr as <-. cbn. naive_solver.
  - injection Hr as <-. cbn. naive_solver.
Qed.

Lemma stamped_stamps name m t r : is_model name m t r -> key_of (resolved_scope r) = scope_key (t_scope t) ->
  stamped m = map stamp_column (stampsOf t (chain m)).
Proof.
  intros (_ & _ & _ & ->) Hk. unfold stamped, stampsOf. cbn [model_table with_scope t_scope chain t_version t_createdBy t_queue]. rewrite Hk, !map_app, map_map.
  destruct (scope_key (t_scope t)), (t_version t), (t_createdBy t), (t_queue t); done.
Qed.

(** The one stamp an insert may set is the queue's due time. *)
Lemma insertable_stamp table ch stamp : stamp ∈ stampsOf table ch -> insertable stamp = true -> q_due <$> t_queue table = Some (stamp_column stamp).
Proof.
  unfold stampsOf. rewrite !elem_of_app. intros Hin Hi.
  destruct Hin as [Hin|[(link & -> & _)%list_elem_of_fmap|[Hin|[Hin|Hin]]]]; [|done| | |].
  - destruct (scope_key _); [apply list_elem_of_singleton in Hin as ->; done|by apply elem_of_nil in Hin].
  - destruct (t_version table); [apply list_elem_of_singleton in Hin as ->; done|by apply elem_of_nil in Hin].
  - destruct (t_createdBy table); [apply list_elem_of_singleton in Hin as ->; done|by apply elem_of_nil in Hin].
  - destruct (t_queue table); [|by apply elem_of_nil in Hin]. apply elem_of_cons in Hin as [->|Hin]; [done|]. by apply list_elem_of_singleton in Hin as ->.
Qed.

Lemma linked_ok name m t r : is_model name m t r -> model_ok m.
Proof.
  intros Hm. pose proof Hm as (Hin & _ & Hr & Em). destruct (resolve_dims _ _ _ _ Hin Hr) as (Hd & Hk & Hcol & Hst).
  pose proof (stamped_stamps _ _ _ _ Hm Hk) as Es. assert (Ech : chain m = resolved_chain r) by (by rewrite Em). unfold checkStamps in Hst. rewrite <-Ech in *.
  assert (Ev : t_view m = t_view t /\ t_update m = t_update t /\ t_insert m = t_insert t /\ t_columnWrites m = t_columnWrites t /\ t_json m = t_json t
    /\ t_queue m = t_queue t /\ t_columns m = t_columns t) by (by rewrite Em). destruct Ev as (Ev & Eu & Ei & Ew & Ej & Eq & Ec).
  split.
  - intros link Hl. rewrite Ec. by apply Hcol.
  - unfold in_dimensions in Hd. destruct (t_scope t).
    + rewrite Hd. by eapply ancestors_NoDup.
    + destruct Hd as [d ->]. constructor; [apply ancestors_irreflexive|by eapply ancestors_NoDup].
    + rewrite Hd. constructor.
    + rewrite Hd. constructor.
  - intros d key up Hs. apply (resolved_dimension _ _ _ _ Hm) in Hs. unfold in_dimensions in Hd. rewrite Hs in Hd. rewrite Hd. apply ancestors_irreflexive.
  - intros Hv. rewrite Ev in Hv. apply (stamps_sound t [] _ Hv) in Hst as [Hn _]; [|constructor]. by rewrite Es.
  - intros Hv column Hc. rewrite Ev in Hv. apply (stamps_sound t [] _ Hv) in Hst as [_ Hs]; [|constructor]. rewrite Es in Hc.
    apply list_elem_of_fmap in Hc as (stamp & -> & Hc). rewrite Eu, Ew. by destruct (Hs _ Hc) as (_ & ? & ? & _).
  - intros Hv column Hc Hi. rewrite Ev in Hv. apply (stamps_sound t [] _ Hv) in Hst as [_ Hs]; [|constructor]. rewrite Es in Hc. rewrite Ei in Hi. rewrite Eq.
    apply list_elem_of_fmap in Hc as (stamp & -> & Hc). eapply insertable_stamp; [done|]. by apply (Hs _ Hc).
  - intros column Hc. rewrite Es in Hc. apply list_elem_of_fmap in Hc as (stamp & -> & Hc). rewrite Ej. by eapply stamps_json.
Qed.

(** The owner's part of a chain is the owner's own. *)
Lemma owner_chain models name (owner : TableModel) t r v next ch : linkTables parsed containment = inr models -> (name, owner) ∈ models -> is_model name owner t r ->
  next = t -> (exists r', resolve parsed containment (length parsed) v next = inr r' /\ ch = resolved_chain r') -> ch = chain owner.
Proof.
  intros _ _ (Hin & _ & Hr & ->) -> (r' & Hr' & ->). cbn. f_equal. by eapply resolve_det.
Qed.

Lemma owner_key_of name (owner : TableModel) t r key : is_model name owner t r -> key_of (t_scope owner) = Some key ->
  (exists d k c, t_scope t = ParsedDimension d k c) -> owner_key t = key.
Proof.
  intros Hm Hk (d & k & c & Es). pose proof (proj2 (resolved_dimension _ _ _ _ Hm d k c) Es) as Eo. rewrite Eo in Hk. cbn in Hk. unfold owner_key. rewrite Es. congruence.
Qed.

Lemma linked_chained models name (m : TableModel) t r : linkTables parsed containment = inr models -> is_model name m t r -> chained models m.
Proof.
  intros Hl Hm. pose proof Hm as (Hin & Hname & Hr & Em). pose proof (linked_models _ Hl) as (_ & Hback & Hof).
  assert (Ho : one_owner parsed [] = inr tt) by (unfold linkTables in Hl; apply bind_inr in Hl as ([] & ? & _); done). apply one_owner_spec in Ho as [_ Huniq].
  destruct (resolve_dims _ _ _ _ Hin Hr) as (_ & _ & Hcol & _). assert (Efk : t_foreignKeys m = t_foreignKeys t /\ t_view m = t_view t) by (by rewrite Em). destruct Efk as [Efk Ev].
  assert (Es : t_scope m = resolved_scope r /\ chain m = resolved_chain r) by (by rewrite Em). destruct Es as [Es Ec].
  apply resolve_inv in Hr as (chainOf & Hr & Hof'). unfold chained. rewrite Es, Ec. unfold resolveChain in Hr.
  destruct (t_scope t) as [d key [c|]|parent key column inherit|reason|reason key] eqn:Et.
  - apply bind_inr in Hr as ([] & Hown & Hr). apply bind_inr in Hr as (rest & Hrest & Hr). injection Hr as <-. cbn [resolved_scope resolved_chain] in *.
    exists rest. split; [done|]. intros oname owner okey up Hmod Hos. destruct (Hback _ _ Hmod) as (ot & or & Hom).
    pose proof (proj1 (resolved_dimension _ _ _ _ Hom _ _ _) Hos) as Eot. pose proof Hom as (Hoin & _ & _ & _).
    destruct (owners parsed (link_dimension c)) as [o|] eqn:Eo.
    2:{ exfalso. unfold owners in Eo. eapply find_none in Eo; [|by apply list_elem_of_In]. unfold owns in Eo. rewrite Eot, String.eqb_refl in Eo. done. }
    pose proof (owners_spec _ _ Eo) as (Hoin' & k' & c' & Eo').
    assert (o = ot) as -> by (apply (Huniq _ _ (link_dimension c)); [done|done|unfold owns; rewrite Eo'; by apply String.eqb_refl|unfold owns; rewrite Eot; by apply String.eqb_refl]).
    apply bind_inr in Hown as ([] & Href & Hown). apply bind_inr in Hown as (ch & Hch & Hcov).
    assert (ch = chain owner) as -> by (eapply owner_chain; [done|exact Hmod|exact Hom|reflexivity|by apply Hof']).
    cbn [above] in Hrest. rewrite Eo in Hrest. assert (rest = chain owner) as -> by congruence. split; [done|].
    destruct (covering_checked _ _ _ _ Href Hcov) as (fk & Hfk & Ht & Hk & Hu); [intros u Hu; apply Hcol; by right|].
    exists fk. rewrite Efk. split_and!; [done| | |done].
    + rewrite Ht. destruct Hom as (_ & _ & _ & ->). done.
    + intros k Hko. erewrite <-(owner_key_of _ _ _ _ k Hom Hko); [done|]. by eexists _, _, _.
  - injection Hr as <-. done.
  - destruct (byName parsed parent) as [owner|] eqn:Eb; [|done]. apply byName_spec in Eb as [Hoin Hon].
    destruct (t_scope owner) as [d okey up| | |] eqn:Eo; try done.
    apply bind_inr in Hr as (pch & Hpch & Hr). apply bind_inr in Hr as ([] & _ & Hr). apply bind_inr in Hr as (col & _ & Hr).
    apply bind_inr in Hr as ([] & Hcov & Hr). injection Hr as <-. cbn [resolved_scope resolved_chain] in *.
    destruct (Hof owner Hoin) as (om & or & Hmod & Hom). exists om, d, okey, up. rewrite Hon in Hmod. split; [done|].
    split; [by apply (resolved_dimension _ _ _ _ Hom)|].
    assert (pch = chain om) as -> by (eapply owner_chain; [done|exact Hmod|rewrite <-Hon; exact Hom|reflexivity|by apply Hof']).
    split; [done|]. intros Hv. rewrite Ev in Hv. rewrite Hv in Hcov. apply bind_inr in Hcov as ([] & Href & Hcov).
    destruct (covering_checked _ _ _ _ Href Hcov) as (fk & Hfk & Ht & Hk & Hu); [intros u Hu; apply Hcol; by right|].
    exists fk. rewrite Efk. split_and!; [done| | |done].
    + rewrite Ht. destruct Hom as (_ & _ & _ & ->). done.
    + intros k Hko. erewrite <-(owner_key_of _ _ _ _ k Hom Hko); [done|]. by eexists _, _, _.
  - injection Hr as <-. done.
  - injection Hr as <-. done.
Qed.

End Linked.

(** ** A linked application *)

(** What every component of the data layer relies on of the models of one application. *)
Record linked (models : TableModels) : Prop := {
  linked_names : NoDup (map fst models);
  linked_each : forall name (m : TableModel), (name, m) ∈ models -> t_name m = name /\ model_ok m /\ chained models m;
  linked_owner : forall n1 n2 (o1 o2 : TableModel) d k1 k2 c1 c2, (n1, o1) ∈ models -> (n2, o2) ∈ models ->
    t_scope o1 = ScopeDimension d k1 c1 -> t_scope o2 = ScopeDimension d k2 c2 -> o1 = o2;
}.

Lemma modelOf_in models name (m : TableModel) : modelOf models name = Some m -> (name, m) ∈ models.
Proof. apply lookup_field_in. Qed.

Lemma in_modelOf models name (m : TableModel) : linked models -> (name, m) ∈ models -> modelOf models name = Some m.
Proof. intros Hl. apply in_lookup_field, Hl. Qed.

(** A linked application is what [linkTables] accepts of tables with names of their own. *)
Lemma linkTables_linked parsed containment models :
  (forall dimension, ends containment (length containment) dimension = true) ->
  (forall table dimension key container, table ∈ parsed -> t_scope table = ParsedDimension dimension key container ->
     link_dimension <$> container = container_of containment dimension) ->
  NoDup (map t_name parsed) -> linkTables parsed containment = inr models -> linked models.
Proof.
  intros Ha Hp Hd Hl. destruct (linked_models _ _ _ Hl) as (Hn & Hback & _). assert (Hnd : NoDup (map fst models)) by (by rewrite Hn). split; [done| |].
  - intros name m Hin. split; [by eapply model_of_name|]. destruct (Hback _ _ Hin) as (t & r & Hm). split; [by eapply linked_ok|by eapply linked_chained].
  - intros n1 n2 o1 o2 d k1 k2 c1 c2 H1 H2 E1 E2.
    assert (Ho : one_owner parsed [] = inr tt) by (unfold linkTables in Hl; apply bind_inr in Hl as ([] & ? & _); done). apply one_owner_spec in Ho as [_ Huniq].
    destruct (Hback _ _ H1) as (t1 & r1 & M1), (Hback _ _ H2) as (t2 & r2 & M2).
    apply (resolved_dimension _ _ _ _ _ _ M1) in E1. apply (resolved_dimension _ _ _ _ _ _ M2) in E2. destruct M1 as (I1 & N1 & R1 & ->), M2 as (I2 & N2 & R2 & ->).
    assert (t1 = t2) as -> by (apply (Huniq _ _ d); [done|done|unfold owns; rewrite E1; by apply String.eqb_refl|unfold owns; rewrite E2; by apply String.eqb_refl]).
    assert (r1 = r2) as -> by congruence. done.
Qed.

(** C29. Linking the tables of an application always ends, and what it accepts the data layer can enforce: every table
    carries its whole containment chain, no dimension twice and never its own; the chain is the table's own link followed by
    the chain of the table that owns it, tied to one row of that table by one foreign key; and the columns the layer stamps
    (key, chain, version, creator, queue) are distinct, no handler's write sets one, and no JSON column is among them. *)
Theorem linkTables_sound (parsed : list ParsedTable) (containment : Containment) :
  (forall dimension, ends containment (length containment) dimension = true) ->
  (forall table dimension key container, table ∈ parsed -> t_scope table = ParsedDimension dimension key container ->
     link_dimension <$> container = container_of containment dimension) ->
  linkTables parsed containment <> inl OutOfFuel /\
  (forall models, linkTables parsed containment = inr models ->
     map fst models = map t_name parsed /\ forall name (m : TableModel), (name, m) ∈ models -> t_name m = name /\ model_ok m /\ chained models m).
Proof.
  intros Ha Hp. split.
  - unfold linkTables. apply bind_fuel; [|intros _; apply bind_fuel].
    + generalize ([] : list string). generalize parsed. clear. induction parsed as [|t l IH]; intros seen; cbn [one_owner]; [done|].
      destruct (t_scope t); try apply IH. apply bind_fuel; [apply require_fuel|]. intros _. apply IH.
    + apply mapM_fuel. intros t Ht. apply bind_fuel; [|done]. apply mapM_fuel. intros fk Hfk. destruct (byName _ _); [apply require_fuel|done].
    + intros _. apply mapM_fuel. intros t Ht. apply bind_fuel; [|done]. apply (resolve_fuel parsed containment Ha); [done|constructor|by intros ? ?%elem_of_nil|cbn; lia].
  - intros models Hl. split; [by eapply linked_models|]. intros name m Hin. split; [by eapply model_of_name|].
    destruct (linked_models _ _ _ Hl) as (_ & Hback & _). destruct (Hback _ _ Hin) as (t & r & Hm). split; [by eapply linked_ok|by eapply linked_chained].
Qed.

(** ** An application with organizations, their projects and the projects' tasks *)

Definition demo_actions (actions : list string) : ActionModel := mkActions ["notes.read"] actions actions actions [] [].

Definition demo_orgs : ParsedTable :=
  mkTableOf "orgs" (ParsedDimension "org" "id" None) (demo_actions []) ["id"; "name"] ["id"; "name"] [] [] None None None [] [] [] [] [] [] [] [] false.

Definition demo_projects : ParsedTable :=
  mkTableOf "projects" (ParsedDimension "project" "id" (Some (mkContainer "org" "org_id"))) (demo_actions ["notes.write"])
    ["id"; "org_id"; "title"; "rev"] ["id"; "org_id"; "title"; "rev"] ["title"] ["title"] (Some "rev") None None [] [] [] [] [] [] []
    [mkForeignKey ["org_id"] "orgs" ["id"]] false.

Definition demo_tasks : ParsedTable :=
  mkTableOf "tasks" (ParsedChild "projects" "id" None None) (demo_actions ["notes.write"])
    ["id"; "project_id"; "org_id"; "text"] ["id"; "project_id"; "org_id"; "text"] ["text"] ["text"] None None None [] [] [] [] [] [] []
    [mkForeignKey ["project_id"; "org_id"] "projects" ["id"; "org_id"]] false.

Definition demo_containment : Containment := [("org", None); ("project", Some "org")].
Definition demo_tables : list ParsedTable := [demo_orgs; demo_projects; demo_tasks].
Definition demo_models : TableModels := match linkTables demo_tables demo_containment with inr models => models | inl _ => [] end.

Example demo_chain : chain <$> modelOf demo_models "tasks" = Some [mkContainer "project" "project_id"; mkContainer "org" "org_id"].
Proof. by vm_compute. Qed.

Lemma demo_ends dimension : ends demo_containment (length demo_containment) dimension = true.
Proof.
  unfold demo_containment. cbn -[String.eqb]. unfold container_of. cbn -[String.eqb].
  destruct (String.eqb_spec dimension "org") as [->|]; cbn -[String.eqb]; [done|]. by destruct (String.eqb_spec dimension "project") as [->|].
Qed.

Lemma demo_placed table dimension key container : table ∈ demo_tables -> t_scope table = ParsedDimension dimension key container ->
  link_dimension <$> container = container_of demo_containment dimension.
Proof.
  intros Hin Hs. unfold demo_tables in Hin. rewrite !elem_of_cons, elem_of_nil in Hin. destruct Hin as [->|[->|[->|[]]]]; cbn in Hs; by simplify_eq.
Qed.

Lemma linkTables_sound_witness : map fst demo_models = ["orgs"; "projects"; "tasks"] /\ forall name (m : TableModel), (name, m) ∈ demo_models -> model_ok m.
Proof.
  destruct (linkTables_sound demo_tables demo_containment demo_ends demo_placed) as [_ H].
  destruct (H demo_models) as [Hn Hm]; [by vm_compute|]. split; [exact Hn|]. intros name m Hin. by destruct (Hm name m Hin) as (_ & ? & _).
Defined.
