(* ===== verification/Store.v ===== *)
(** The data layer's scope predicates: the rows a capability reaches of a table ([db/src/store.ts], [links.ts], [nodes.ts],
    [capability.ts]).

    Every statement carries a scope predicate made from the capability the framework resolved; the model keeps the predicate
    as data and evaluates it on rows. This file holds the capabilities, what each matches of a table, and the rows a
    capability authorizes; [Writes.v] runs the statements. What a capability resolves to is a class. [Misdeclared] is a
    [PolicyError] thrown while a statement runs: a column holds another type than its policy declares. *)

From S2P Require Import Prelude Calendar Temporal Policy.
From Stdlib Require Import ZArith Lia String Ascii.
From stdpp Require Import base tactics strings gmap list.

(** ** Errors *)

(** [CapabilityError] and [QueryRefusedError] with their code, and the rest of [errors.ts] a store throws. *)
Inductive StoreError :=
| CapabilityError (code : string)
| QueryRefused (code : string)
| NotFoundError
| ConflictError
| Misdeclared
| DatabaseRefused.

Definition checked (A : Type) : Type := StoreError + A.

#[global] Instance checked_ret : MRet checked := fun A a => inr a.
#[global] Instance checked_bind : MBind checked := fun A B f m => match m with inl e => inl e | inr a => f a end.

Definition fails {A} (e : StoreError) : checked A := inl e.

(** Throws [e] unless [b]. *)
Definition ensure (b : bool) (e : StoreError) : checked unit := if b then inr tt else inl e.

(** ** Rows and predicates *)

Inductive Primitive :=
| PText (s : string)
| PInteger (z : Z)
| PReal (n : jsnum)
| PBigint (z : Z)
| PBool (b : bool)
| PDate (time : option Z).

#[global] Instance jsnum_eq_dec : EqDecision jsnum.
Proof. solve_decision. Defined.

#[global] Instance Primitive_eq_dec : EqDecision Primitive.
Proof. solve_decision. Defined.

(** A row, column by column; a column that is absent is null. *)
Notation Row := (gmap string Primitive).

(** The values a write binds; [None] is null. *)
Notation Values := (gmap string (option Primitive)).

Notation Database := (gmap string (list Row)).

Definition rows_of (db : Database) (table : string) : list Row := default [] (db !! table).

(** [set_values values row]: the row after [set column = value] for each. *)
Definition set_values (values : Values) (row : Row) : Row :=
  merge (fun given old => match given with Some value => value | None => old end) values row.

Inductive Predicate :=
| Everything
| Equals (column : string) (value : Primitive)
| InList (column : string) (values : list string)
| And (a b : Predicate)
| Or (a b : Predicate).

Fixpoint matches (p : Predicate) (row : Row) : bool :=
  match p with
  | Everything => true
  | Equals column value => bool_decide (row !! column = Some value)
  | InList column values => match row !! column with Some (PText s) => Js.elem s values | _ => false end
  | And a b => matches a row && matches b row
  | Or a b => matches a row || matches b row
  end.

Definition allOf (nodes : list Predicate) : checked Predicate :=
  match nodes with [] => fails (QueryRefused "statement_shape") | node :: nodes => mret (fold_left And nodes node) end.

Definition anyOf (nodes : list Predicate) : checked Predicate :=
  match nodes with [] => fails (QueryRefused "statement_shape") | node :: nodes => mret (fold_left Or nodes node) end.

(** ** Capabilities *)

Record RefGrant := mkRef { r_dimension : string; r_action : string; r_principal : string; r_id : string; r_chain : list (string * string) }.

Record ContainerGrant := mkContainerGrant { cg_dimension : string; cg_values : list string }.

Definition MAX_WITHIN_VALUES : nat := 1000.

(** [w_values] is [None] for ['all']. *)
Record WithinGrant := mkWithin {
  w_dimension : string;
  w_action : string;
  w_principal : string;
  w_values : option (list string);
  w_containers : list ContainerGrant;
  w_contained : list ContainerGrant;
}.

Record AppGrant := mkAppGrant { a_action : string; a_principal : string }.

Record RowGrant := mkRowGrant { row_table : string; row_action : string; row_principal : string; row_id : string; row_chain : list (string * string) }.

Inductive CapabilityGrant := GrantRef (g : RefGrant) | GrantWithin (g : WithinGrant) | GrantApp (g : AppGrant) | GrantRow (g : RowGrant).

Definition grant_action (grant : CapabilityGrant) : string :=
  match grant with GrantRef g => r_action g | GrantWithin g => w_action g | GrantApp g => a_action g | GrantRow g => row_action g end.

(** The framework's side: what an authentic capability grants, or the error it throws. *)
Class CapabilityAuthority (Cap : Type) := resolve : Cap -> checked CapabilityGrant.

(** ** Contexts *)

Record TableContext := mkContext { ctx_model : TableModel; ctx_parent : option TableModel; ctx_destination : option TableModel }.

Definition is_owner (dimension : string) (model : TableModel) : bool :=
  match t_scope model with ScopeDimension d _ _ => (d =? dimension)%string | _ => false end.

Definition ownerOf (models : TableModels) (dimension : string) : option TableModel := List.find (is_owner dimension) (map snd models).

Definition destinationOf (models : TableModels) (model : TableModel) (parent : option TableModel) : option TableModel :=
  match t_scope model with
  | ScopeChild _ _ _ _ => parent
  | ScopeDimension _ _ (Some container) => ownerOf models (link_dimension container)
  | _ => None
  end.

Definition contextOf (models : TableModels) (model : TableModel) : TableContext :=
  let parent := match t_scope model with ScopeChild parent _ _ _ => modelOf models parent | _ => None end in
  mkContext model parent (destinationOf models model parent).

(** ** Scopes *)

Record DimensionScopeModel := mkDimensionScope { ds_dimension : string; ds_key : string; ds_container : option Container }.

Definition dimensionScope (model : TableModel) : checked DimensionScopeModel :=
  match t_scope model with ScopeDimension d key container => mret (mkDimensionScope d key container) | _ => fails (CapabilityError "table_kind") end.

Record ChildScopeModel := mkChildScope { cs_key : string; cs_column : string; cs_parent : DimensionScopeModel }.

Definition childScope (context : TableContext) : checked ChildScopeModel :=
  match t_scope (ctx_model context), ctx_parent context with
  | ScopeChild _ key column _, Some parent => scope ← dimensionScope parent; mret (mkChildScope key column scope)
  | _, _ => fails (CapabilityError "table_kind")
  end.

Definition listDimension (scope : DimensionScopeModel) : string :=
  match ds_container scope with Some container => link_dimension container | None => ds_dimension scope end.

Inductive Operation := OpRead | OpInsert | OpUpdate | OpDelete.

Definition actions_of (model : TableModel) (operation : Operation) : list string :=
  let actions := t_actions model in
  match operation with OpRead => act_read actions | OpInsert => act_insert actions | OpUpdate => act_update actions | OpDelete => act_delete actions end.

Definition requiredActions (context : TableContext) (operation : Operation) : checked (list string) :=
  match actions_of (ctx_model context) operation with [] => fails (CapabilityError "undeclared_operation") | actions => mret actions end.

Definition checkAction (context : TableContext) (operation : Operation) (action : string) : checked unit :=
  actions ← requiredActions context operation; ensure (Js.elem action actions) (CapabilityError "wrong_action").

(** [checkGrant], of the dimension and action of a [Ref] or a [Within]. *)
Definition checkGrant (context : TableContext) (grant_dimension action dimension : string) (operation : Operation) : checked unit :=
  _ ← requiredActions context operation;
  _ ← ensure (grant_dimension =? dimension)%string (CapabilityError "wrong_capability");
  checkAction context operation action.

(** ** Links *)

(** The link of a dimension and what follows it. *)
Fixpoint linksAbove_in (links : list Container) (dimension : string) : list Container :=
  match links with
  | [] => []
  | link :: links => if (link_dimension link =? dimension)%string then links else linksAbove_in links dimension
  end.

Definition linksAbove (model : TableModel) (dimension : string) : list Container := linksAbove_in (chain model) dimension.

Fixpoint linksBelow_in (links : list Container) (dimension : string) : option (list Container) :=
  match links with
  | [] => None
  | link :: links => if (link_dimension link =? dimension)%string then Some [] else cons link <$> linksBelow_in links dimension
  end.

(** The object a [Ref] of the model's own dimension names, with every link of its chain; a child's chain. *)
Definition selfLinks (model : TableModel) : checked (list Container) :=
  scope ← dimensionScope model; mret (mkContainer (ds_dimension scope) (ds_key scope) :: chain model).

Definition links (model : TableModel) : list Container :=
  match t_scope model with ScopeDimension d key _ => mkContainer d key :: chain model | _ => chain model end.

Definition linksBelow (model : TableModel) (dimension : string) : list Container := default [] (linksBelow_in (links model) dimension).

Definition linkOf (links : list Container) (dimension : string) : option Container :=
  List.find (fun link => (link_dimension link =? dimension)%string) links.

Fixpoint containedTests_loop (below above : list Container) (dimension : string) (contained : list ContainerGrant) : checked (list (string * list string)) :=
  match contained with
  | [] => mret []
  | grant :: contained =>
      if (cg_dimension grant =? dimension)%string || is_some (linkOf above (cg_dimension grant)) then fails (CapabilityError "unenforceable")
      else
        tests ← containedTests_loop below above dimension contained;
        mret match linkOf below (cg_dimension grant) with
             | Some link => if (0 <? length (cg_values grant))%nat then (link_column link, cg_values grant) :: tests else tests
             | None => tests
             end
  end.

Definition containedTests (model : TableModel) (grant : WithinGrant) : checked (list (string * list string)) :=
  containedTests_loop (linksBelow model (w_dimension grant)) (linksAbove model (w_dimension grant)) (w_dimension grant) (w_contained grant).

Definition count_values (grants : list ContainerGrant) : nat := foldr (fun grant n => (length (cg_values grant) + n)%nat) 0%nat grants.

Definition withinCount (grant : WithinGrant) : nat :=
  match w_values grant with None => 0 | Some values => length values + count_values (w_containers grant) + count_values (w_contained grant) end.

(** The tests of a [Within]'s containers, each on the column of its own link. *)
Fixpoint containerTests (above : list Container) (containers : list ContainerGrant) : checked (list (string * list string)) :=
  match containers with
  | [] => mret []
  | container :: containers =>
      match linkOf above (cg_dimension container) with
      | None => fails (CapabilityError "unenforceable")
      | Some link =>
          tests ← containerTests above containers;
          mret (if (0 <? length (cg_values container))%nat then (link_column link, cg_values container) :: tests else tests)
      end
  end.

(** Every test of a [Within] that is not ['all']: its own, its containers' and its contained dimensions'. *)
Definition withinTests (model : TableModel) (column : string) (grant : WithinGrant) (values : list string) : checked (list (string * list string)) :=
  containers ← containerTests (linksAbove model (w_dimension grant)) (w_containers grant);
  contained ← containedTests model grant;
  _ ← ensure (withinCount grant <=? MAX_WITHIN_VALUES)%nat (CapabilityError "within_size");
  mret ((if (0 <? length values)%nat then [(column, values)] else []) ++ containers ++ contained).

Definition withinPredicate (model : TableModel) (column : string) (grant : WithinGrant) : checked (option Predicate) :=
  match w_values grant with
  | None => mret (Some Everything)
  | Some values =>
      tests ← withinTests model column grant values;
      match map (fun test => InList test.1 test.2) tests with
      | [] => mret None
      | predicates => p ← anyOf predicates; mret (Some p)
      end
  end.

(** ** The values a [Ref] addresses *)

Definition chainValue (grant_chain : list (string * string)) (dimension : string) : checked string :=
  match lookup_field dimension grant_chain with Some value => mret value | None => fails (CapabilityError "out_of_reach") end.

Fixpoint chain_values (grant_chain : list (string * string)) (links : list Container) : checked (list (Container * string)) :=
  match links with
  | [] => mret []
  | link :: links => value ← chainValue grant_chain (link_dimension link); values ← chain_values grant_chain links; mret ((link, value) :: values)
  end.

Definition linkValues (links : list Container) (grant : RefGrant) : checked (list (Container * string)) :=
  match links with
  | [] => fails (CapabilityError "out_of_reach")
  | first :: rest =>
      _ ← ensure (forallb (fun entry => Js.elem entry.1 (map link_dimension rest)) (r_chain grant)) (CapabilityError "unenforceable");
      values ← chain_values (r_chain grant) rest;
      mret ((first, r_id grant) :: values)
  end.

Definition linksPredicate (values : list (Container * string)) : checked Predicate :=
  allOf (map (fun entry => Equals (link_column entry.1) (PText entry.2)) values).

Definition keyOf (model : TableModel) : checked string :=
  match key_of (t_scope model) with Some key => mret key | None => fails (CapabilityError "undeclared_operation") end.


(** ** What each kind of capability matches *)

Section Scopes.
Context {Cap : Type} `{CapabilityAuthority Cap}.

Definition refGrant (context : TableContext) (capability : Cap) (dimension : string) (operation : Operation) : checked RefGrant :=
  grant ← resolve capability;
  match grant with
  | GrantRef grant => _ ← checkGrant context (r_dimension grant) (r_action grant) dimension operation; mret grant
  | _ => fails (CapabilityError "wrong_capability")
  end.

Definition withinGrant (context : TableContext) (capability : Cap) (dimension : string) (operation : Operation) : checked WithinGrant :=
  grant ← resolve capability;
  match grant with
  | GrantWithin grant => _ ← checkGrant context (w_dimension grant) (w_action grant) dimension operation; mret grant
  | _ => fails (CapabilityError "wrong_capability")
  end.

(** This object, over the whole chain the [Ref] carries. *)
Definition objectPredicate (context : TableContext) (capability : Cap) (operation : Operation) : checked Predicate :=
  scope ← dimensionScope (ctx_model context);
  grant ← refGrant context capability (ds_dimension scope) operation;
  self ← selfLinks (ctx_model context);
  values ← linkValues self grant;
  linksPredicate values.

(** Rows of a dimension table within the scope values of its list dimension; [None] matches no row. *)
Definition dimensionListPredicate (context : TableContext) (capability : Cap) (operation : Operation) : checked (option Predicate) :=
  scope ← dimensionScope (ctx_model context);
  grant ← withinGrant context capability (listDimension scope) operation;
  withinPredicate (ctx_model context) match ds_container scope with Some container => link_column container | None => ds_key scope end grant.

Definition parentPredicate (context : TableContext) (grant : RefGrant) : checked Predicate :=
  values ← linkValues (chain (ctx_model context)) grant; linksPredicate values.

Definition childListPredicate (context : TableContext) (capability : Cap) (operation : Operation) : checked (option Predicate) :=
  scope ← childScope context;
  grant ← resolve capability;
  match grant with
  | GrantRef grant =>
      _ ← checkGrant context (r_dimension grant) (r_action grant) (ds_dimension (cs_parent scope)) operation;
      predicate ← parentPredicate context grant; mret (Some predicate)
  | GrantApp _ | GrantRow _ => fails (CapabilityError "wrong_capability")
  | GrantWithin grant =>
      _ ← checkGrant context (w_dimension grant) (w_action grant) (listDimension (cs_parent scope)) operation;
      withinPredicate (ctx_model context)
        match ds_container (cs_parent scope) with Some container => link_column container | None => cs_column scope end grant
  end.

(** The column that places a row in a dimension. *)
Definition reachColumn (model : TableModel) (dimension : string) : option string :=
  let link := link_column <$> linkOf (chain model) dimension in
  match t_scope model with
  | ScopeDimension own key None => if (own =? dimension)%string then Some key else link
  | _ => link
  end.

(** Rows of a table a [Within] of any dimension of its chain lists. *)
Definition reachPredicate (context : TableContext) (capability : Cap) : checked (option Predicate) :=
  grant ← resolve capability;
  match grant with
  | GrantWithin grant =>
      _ ← checkAction context OpRead (w_action grant);
      match reachColumn (ctx_model context) (w_dimension grant) with
      | None => fails (CapabilityError "out_of_reach")
      | Some column => withinPredicate (ctx_model context) column grant
      end
  | _ => fails (CapabilityError "wrong_capability")
  end.

Inductive ScopeUse := UseRead | UseUpdate | UseDelete.

(** A fragment its author marks as the target of an UPDATE ([update]) or a DELETE. *)
Definition checkWriteTarget (context : TableContext) (grant : CapabilityGrant) (update : bool) : checked unit :=
  let model := ctx_model context in
  let app_table := match t_scope model with ScopeApp _ _ => true | _ => false end in
  let app_grant := match grant with GrantApp _ => true | _ => false end in
  _ ← ensure (negb (app_grant && negb app_table)) (CapabilityError "table_kind");
  _ ← ensure (negb (negb app_grant && app_table)) (CapabilityError "table_kind");
  let actions := if update then act_update (t_actions model) else act_delete (t_actions model) in
  if Js.elem (grant_action grant) actions then mret tt
  else
    let columnWrites := List.filter (fun write => negb (Js.elem write actions)) (if update then updateActions model else []) in
    _ ← ensure (negb ((length actions =? 0)%nat && (length columnWrites =? 0)%nat)) (CapabilityError "undeclared_operation");
    ensure (Js.elem (grant_action grant) columnWrites) (CapabilityError "wrong_action").

Inductive AppReach := ReachRows | ReachCounts.

Definition checkRecordReach (context : TableContext) (action : string) (reach : AppReach) : checked unit :=
  let actions := t_actions (ctx_model context) in
  ensure (Js.elem action (act_read actions) || Js.elem action (appRead actions)
          || match reach with ReachCounts => Js.elem action (appCount actions) | ReachRows => false end) (CapabilityError "wrong_action").

Definition checkAppReach (context : TableContext) (action : string) : checked unit :=
  match t_scope (ctx_model context) with
  | ScopeApp _ _ => ensure (namesAction (ctx_model context) action) (CapabilityError "wrong_action")
  | ScopeDimension _ _ _ | ScopeChild _ _ _ _ => checkRecordReach context action ReachRows
  | ScopeReference _ => fails (CapabilityError "table_kind")
  end.

(** Every row of a dimension or child table, for an [app] capability that reaches it. *)
Definition appRecordPredicate (context : TableContext) (capability : Cap) (reach : AppReach) : checked Predicate :=
  grant ← resolve capability;
  match grant with
  | GrantApp grant =>
      _ ← match t_scope (ctx_model context) with ScopeDimension _ _ _ | ScopeChild _ _ _ _ => mret tt | _ => fails (CapabilityError "table_kind") end;
      _ ← checkRecordReach context (a_action grant) reach;
      mret Everything
  | _ => fails (CapabilityError "wrong_capability")
  end.

Definition checkApplicationTable (context : TableContext) : checked unit :=
  match t_scope (ctx_model context) with ScopeApp _ _ => mret tt | _ => fails (CapabilityError "table_kind") end.

Definition appGrant (context : TableContext) (capability : Cap) (operation : Operation) : checked AppGrant :=
  grant ← resolve capability;
  match grant with
  | GrantApp grant =>
      _ ← match operation with OpRead => mret tt | _ => checkApplicationTable context end;
      _ ← checkAppReach context (a_action grant);
      _ ← checkAction context operation (a_action grant);
      mret grant
  | _ => fails (CapabilityError "wrong_capability")
  end.

Definition appListPredicate (context : TableContext) (capability : Cap) : checked Predicate :=
  _ ← appGrant context capability OpRead; mret Everything.

(** Every row of an application table, for a scoped site's [Ref] or [Within] of its read action. *)
Definition scopedApplicationRead (context : TableContext) (capability : Cap) : checked Predicate :=
  grant ← resolve capability;
  _ ← checkApplicationTable context;
  _ ← match grant with GrantApp _ => fails (CapabilityError "wrong_capability") | _ => mret tt end;
  read ← requiredActions context OpRead;
  _ ← ensure (Js.elem (grant_action grant) read) (CapabilityError "wrong_action");
  mret Everything.

(** The row of an application table [key] names; [None] is anything but a string. *)
Definition appKeyPredicate (model : TableModel) (key : option string) : checked Predicate :=
  match key with
  | Some key =>
      _ ← ensure (negb (key =? "")%string) (QueryRefused "row_address");
      column ← keyOf model; mret (Equals column (PText key))
  | None => fails (QueryRefused "row_address")
  end.

Definition appRowPredicate (context : TableContext) (capability : Cap) (key : option string) (operation : Operation) : checked Predicate :=
  _ ← checkApplicationTable context; _ ← appGrant context capability operation; appKeyPredicate (ctx_model context) key.

(** What a claim of a queue table leases through a capability. *)
Definition claimScope (context : TableContext) (capability : Cap) : checked (CapabilityGrant * option Predicate) :=
  let model := ctx_model context in
  grant ← resolve capability;
  _ ← ensure (is_some (t_queue model)) (CapabilityError "undeclared_operation");
  match grant with
  | GrantApp _ => grant ← appGrant context capability OpUpdate; mret (GrantApp grant, Some Everything)
  | GrantWithin grant =>
      _ ← match t_scope model with ScopeApp _ _ => fails (CapabilityError "table_kind") | _ => mret tt end;
      _ ← checkAction context OpUpdate (w_action grant);
      match reachColumn model (w_dimension grant) with
      | None => fails (CapabilityError "out_of_reach")
      | Some column => scope ← withinPredicate model column grant; mret (GrantWithin grant, scope)
      end
  | _ => fails (CapabilityError "wrong_capability")
  end.

(** The containment columns a claimed row carries, as the capability names them. *)
Fixpoint row_terms (links : list Container) (carried : list (string * string)) : checked (list Predicate) :=
  match links with
  | [] => mret []
  | link :: links =>
      match lookup_field (link_column link) carried with
      | None => fails (CapabilityError "unenforceable")
      | Some value => terms ← row_terms links carried; mret (Equals (link_column link) (PText value) :: terms)
      end
  end.

(** The one row a claim's [row.ref] names. *)
Definition claimedRowPredicate (context : TableContext) (capability : Cap) (operation : Operation) : checked Predicate :=
  let model := ctx_model context in
  grant ← resolve capability;
  match grant with
  | GrantRow grant =>
      _ ← ensure (row_table grant =? t_name model)%string (CapabilityError "wrong_capability");
      _ ← checkAction context operation (row_action grant);
      key ← keyOf model;
      terms ← row_terms (chain model) (row_chain grant);
      allOf (Equals key (PText (row_id grant)) :: terms)
  | _ => fails (CapabilityError "wrong_capability")
  end.

(** An action that updates columns of the table: its update action, or a column's own. *)
Definition checkUpdating (context : TableContext) (action : string) : checked unit :=
  match updateActions (ctx_model context) with
  | [] => fails (CapabilityError "undeclared_operation")
  | actions => ensure (existsb (fun update => (update =? action)%string) actions) (CapabilityError "wrong_action")
  end.

Definition updatingRef (context : TableContext) (capability : Cap) (dimension : string) : checked RefGrant :=
  grant ← resolve capability;
  match grant with
  | GrantRef grant =>
      _ ← ensure (r_dimension grant =? dimension)%string (CapabilityError "wrong_capability");
      _ ← checkUpdating context (r_action grant); mret grant
  | _ => fails (CapabilityError "wrong_capability")
  end.

Definition updatingApp (context : TableContext) (capability : Cap) : checked AppGrant :=
  grant ← resolve capability;
  match grant with
  | GrantApp grant => _ ← checkApplicationTable context; _ ← checkUpdating context (a_action grant); mret grant
  | _ => fails (CapabilityError "wrong_capability")
  end.

Definition childObjectPredicate (context : TableContext) (parent : Cap) (key : option string) (operation : Operation) : checked Predicate :=
  scope ← childScope context;
  key ← match key with Some key => _ ← ensure (negb (key =? "")%string) (QueryRefused "row_address"); mret key | None => fails (QueryRefused "row_address") end;
  grant ← refGrant context parent (ds_dimension (cs_parent scope)) operation;
  predicate ← parentPredicate context grant;
  allOf [Equals (cs_key scope) (PText key); predicate].

(** [ctx.sql.scope]'s tests: every row, or a disjunction of conjunctions. *)
Inductive ScopeTest := TestIs (column value : string) | TestIn (column : string) (values : list string).
Inductive ScopeTerms := AllRows | Groups (groups : list (list ScopeTest)).

(** The links from a dimension on. *)
Fixpoint linksFrom (links : list Container) (dimension : string) : option (list Container) :=
  match links with
  | [] => None
  | link :: rest => if (link_dimension link =? dimension)%string then Some links else linksFrom rest dimension
  end.

Definition scopeTerms (context : TableContext) (capability : Cap) (use : ScopeUse) : checked ScopeTerms :=
  let model := ctx_model context in
  grant ← resolve capability;
  _ ← match grant with GrantRow _ => fails (CapabilityError "wrong_capability") | _ => mret tt end;
  _ ← match use with UseRead => mret tt | UseUpdate => checkWriteTarget context grant true | UseDelete => checkWriteTarget context grant false end;
  match grant, t_scope model with
  | GrantApp grant, _ => _ ← match use with UseRead => checkAppReach context (a_action grant) | _ => mret tt end; mret AllRows
  | _, ScopeApp _ _ => _ ← scopedApplicationRead context capability; mret AllRows
  | GrantRef grant, _ =>
      match linksFrom (links model) (r_dimension grant) with
      | None => fails (CapabilityError "out_of_reach")
      | Some reached =>
          _ ← match use with UseRead => ensure (namesAction model (r_action grant)) (CapabilityError "wrong_action") | _ => mret tt end;
          values ← linkValues reached grant;
          mret (Groups [map (fun entry => TestIs (link_column entry.1) entry.2) values])
      end
  | GrantWithin grant, _ =>
      match reachColumn model (w_dimension grant) with
      | None => fails (CapabilityError "out_of_reach")
      | Some column =>
          _ ← match use with UseRead => ensure (Js.elem (w_action grant) (act_read (t_actions model))) (CapabilityError "wrong_action") | _ => mret tt end;
          match w_values grant with
          | None => mret AllRows
          | Some values => tests ← withinTests model column grant values; mret (Groups (map (fun test => [TestIn test.1 test.2]) tests))
          end
      end
  | GrantRow _, _ => fails (CapabilityError "wrong_capability")
  end.

End Scopes.

(** ** The contract: the rows a capability authorizes

    A row lies in a value of a dimension when the column of the table's link of that dimension holds it. A [Ref] authorizes
    the rows that lie in its object and in every container its chain names; a [Within] those that lie in a value it grants,
    in its own dimension or in one above or inside it. *)

Definition lies_in (m : TableModel) (row : Row) (dimension value : string) : Prop :=
  exists link, link ∈ links m /\ link_dimension link = dimension /\ row !! link_column link = Some (PText value).

Definition grants_value (g : WithinGrant) (values : list string) (dimension value : string) : Prop :=
  (dimension = w_dimension g /\ value ∈ values) \/
  exists c, c ∈ w_containers g ++ w_contained g /\ cg_dimension c = dimension /\ value ∈ cg_values c.

Definition authorized (m : TableModel) (grant : CapabilityGrant) (row : Row) : Prop :=
  match grant with
  | GrantRef g => lies_in m row (r_dimension g) (r_id g) /\ forall dimension value, lookup_field dimension (r_chain g) = Some value -> lies_in m row dimension value
  | GrantWithin g =>
      match w_values g with
      | None => True
      | Some values => exists dimension value, grants_value g values dimension value /\ lies_in m row dimension value
      end
  | GrantApp _ => True
  | GrantRow g =>
      row_table g = t_name m /\ (exists key, key_of (t_scope m) = Some key /\ row !! key = Some (PText (row_id g))) /\
      forall link, link ∈ chain m -> exists value, lookup_field (link_column link) (row_chain g) = Some value /\ row !! link_column link = Some (PText value)
  end.

Definition holds (p : option Predicate) (row : Row) : bool := match p with Some p => matches p row | None => false end.

(** *** Predicates *)

Lemma checked_bind_inr {A B} (m : checked A) (f : A -> checked B) b : (m ≫= f) = inr b -> exists a, m = inr a /\ f a = inr b.
Proof. destruct m as [|a]; [done|]. intros E. by exists a. Qed.

Lemma ensure_inr b e u : ensure b e = inr u -> b = true.
Proof. by destruct b. Qed.

(** Takes apart a check that did not throw. *)
Ltac passed :=
  repeat match goal with
  | H : (_ ≫= _) = inr _ |- _ => apply checked_bind_inr in H as (? & ? & H)
  | H : ensure _ _ = inr _ |- _ => apply ensure_inr in H
  | H : mret _ = inr _ |- _ => injection H as H
  | H : fails _ = inr _ |- _ => discriminate H
  end.

Lemma matches_fold_and p nodes row : matches (fold_left And nodes p) row = matches p row && forallb (fun q => matches q row) nodes.
Proof.
  revert p. induction nodes as [|q nodes IH]; intros p; cbn [fold_left forallb]; [by rewrite andb_true_r|]. rewrite IH. cbn [matches]. by rewrite andb_assoc.
Qed.

Lemma matches_fold_or p nodes row : matches (fold_left Or nodes p) row = matches p row || existsb (fun q => matches q row) nodes.
Proof.
  revert p. induction nodes as [|q nodes IH]; intros p; cbn [fold_left existsb]; [by rewrite orb_false_r|]. rewrite IH. cbn [matches]. by rewrite orb_assoc.
Qed.

Lemma allOf_matches nodes p row : allOf nodes = inr p -> matches p row = forallb (fun q => matches q row) nodes.
Proof. destruct nodes as [|q nodes]; [done|]. intros [= <-]. apply matches_fold_and. Qed.

Lemma anyOf_matches nodes p row : anyOf nodes = inr p -> matches p row = existsb (fun q => matches q row) nodes.
Proof. destruct nodes as [|q nodes]; [done|]. intros [= <-]. apply matches_fold_or. Qed.

Lemma equals_matches column v row : matches (Equals column v) row = true <-> row !! column = Some v.
Proof. apply bool_decide_eq_true. Qed.

Lemma inList_matches column values row : matches (InList column values) row = true <-> exists v, v ∈ values /\ row !! column = Some (PText v).
Proof.
  cbn [matches]. split.
  - destruct (row !! column) as [[]|] eqn:E; try done. intros Hs. exists s. split; [by apply elem_spec|done].
  - intros (v & Hv & ->). by apply elem_spec.
Qed.

(** *** Links *)

Lemma linkOf_spec l dimension link : linkOf l dimension = Some link -> link ∈ l /\ link_dimension link = dimension.
Proof. intros E. apply find_some in E as [Hin E]. apply String.eqb_eq in E. split; [by apply list_elem_of_In|done]. Qed.

Lemma linkOf_none l dimension link : linkOf l dimension = None -> link ∈ l -> link_dimension link <> dimension.
Proof. intros E Hin Hd. eapply find_none in E; [|by apply list_elem_of_In]. cbn in E. by rewrite Hd, String.eqb_refl in E. Qed.

(** A dimension has one link. *)
Lemma link_unique l a b : NoDup (map link_dimension l) -> a ∈ l -> b ∈ l -> link_dimension a = link_dimension b -> a = b.
Proof.
  induction l as [|c l IH]; cbn [map]; [by intros _ ?%elem_of_nil|]. intros [Hc Hd]%NoDup_cons Ha Hb E. apply elem_of_cons in Ha, Hb. destruct Ha as [->|Ha], Hb as [->|Hb]; [done| | |by apply IH].
  - destruct Hc. apply list_elem_of_fmap. by exists b.
  - destruct Hc. apply list_elem_of_fmap. by exists a.
Qed.

Lemma links_nodup m : model_ok m -> NoDup (map link_dimension (links m)).
Proof.
  intros Hm. unfold links. destruct (t_scope m) eqn:E; try apply Hm. cbn. constructor; [by eapply (own_dimension m Hm)|apply Hm].
Qed.

Lemma linksFrom_split l dimension from : linksFrom l dimension = Some from ->
  exists below link above, l = below ++ link :: above /\ from = link :: above /\ link_dimension link = dimension.
Proof.
  induction l as [|link l IH]; cbn [linksFrom]; [done|]. destruct (String.eqb_spec (link_dimension link) dimension) as [Ed|N].
  - intros [= <-]. by exists [], link, l.
  - intros (below & x & above & -> & -> & Hd)%IH. by exists (link :: below), x, above.
Qed.

(** [column] places a row in [dimension], between the links the layer takes for inside and for above it. *)
Definition reaches (m : TableModel) (column dimension : string) : Prop :=
  exists link, links m = linksBelow m dimension ++ link :: linksAbove m dimension /\ link_dimension link = dimension /\ link_column link = column.

Lemma below_above l link dimension : NoDup (map link_dimension l) -> link ∈ l -> link_dimension link = dimension ->
  l = default [] (linksBelow_in l dimension) ++ link :: linksAbove_in l dimension.
Proof.
  induction l as [|x l IH]; cbn [map linksBelow_in linksAbove_in]; [by intros _ ?%elem_of_nil|]. intros [Hx Hd]%NoDup_cons Hin Ed.
  destruct (String.eqb_spec (link_dimension x) dimension) as [Ex|Ex].
  - cbn. f_equal. apply elem_of_cons in Hin as [->|Hin]; [done|]. destruct Hx. apply list_elem_of_fmap. exists link. split; [congruence|done].
  - apply elem_of_cons in Hin as [->|Hin]; [done|]. specialize (IH Hd Hin Ed). destruct (linksBelow_in l dimension) as [below|] eqn:E.
    + cbn in IH |- *. by rewrite IH at 1.
    + exfalso. clear - E Hin Ed. induction l as [|y l IH]; [by apply elem_of_nil in Hin|]. cbn in E. destruct (String.eqb_spec (link_dimension y) dimension); [done|].
      apply elem_of_cons in Hin as [->|Hin]; [done|]. apply IH; [|done]. by destruct (linksBelow_in l dimension).
Qed.

(** A table in no container has no chain. *)
Definition top_level (m : TableModel) : Prop := forall d key, t_scope m = ScopeDimension d key None -> chain m = [].

Lemma chained_top models m : chained models m -> top_level m.
Proof. intros Hc d key E. unfold chained in Hc. by rewrite E in Hc. Qed.

Lemma chain_reaches m link : model_ok m -> link ∈ chain m -> reaches m (link_column link) (link_dimension link).
Proof.
  intros Hm Hin. exists link. split_and!; [|done|done]. unfold linksAbove, linksBelow. pose proof (links_nodup m Hm) as Hd.
  assert (Hl : link ∈ links m) by (unfold links; destruct (t_scope m); [by right|done..]).
  rewrite (below_above _ _ _ Hd Hl eq_refl) at 1. f_equal. f_equal. unfold links in *. destruct (t_scope m) eqn:E; [|done..].
  cbn [linksAbove_in link_dimension]. destruct (String.eqb_spec dimension (link_dimension link)) as [Ed|]; [|done].
  exfalso. eapply (own_dimension m Hm); [done|]. rewrite Ed. apply list_elem_of_fmap. by exists link.
Qed.

Lemma reachColumn_reaches m column dimension : model_ok m -> top_level m -> reachColumn m dimension = Some column -> reaches m column dimension.
Proof.
  intros Hm Ht. unfold reachColumn. assert (Hlink : link_column <$> linkOf (chain m) dimension = Some column -> reaches m column dimension).
  { destruct (linkOf (chain m) dimension) as [link|] eqn:E; [|done]. cbn. intros [= <-]. apply linkOf_spec in E as [Hin <-]. by apply chain_reaches. }
  destruct (t_scope m) as [own key [up|]| | |] eqn:E; try done. destruct (String.eqb_spec own dimension) as [->|]; [|done]. intros [= <-].
  exists (mkContainer dimension key). unfold linksBelow, linksAbove, links. rewrite E, (Ht _ _ E). cbn. by rewrite String.eqb_refl.
Qed.

(** *** What a [Within] matches *)

(** A row passes a test when its column holds one of the values. *)
Definition passes (row : Row) (test : string * list string) : Prop := exists v, v ∈ test.2 /\ row !! test.1 = Some (PText v).

(** A row lies in a value of a link. *)
Definition lies_through (l : list Container) (row : Row) (c : ContainerGrant) : Prop :=
  exists link v, link ∈ l /\ link_dimension link = cg_dimension c /\ v ∈ cg_values c /\ row !! link_column link = Some (PText v).

Lemma pushed_test (row : Row) link c tests :
  (exists test, test ∈ (if (0 <? length (cg_values c))%nat then (link_column link, cg_values c) :: tests else tests) /\ passes row test)
  <-> (exists v, v ∈ cg_values c /\ row !! link_column link = Some (PText v)) \/ exists test, test ∈ tests /\ passes row test.
Proof.
  destruct (cg_values c) as [|w values]; cbn.
  - split; [by right|]. intros [(v & Hv & _)|Ht]; [by apply elem_of_nil in Hv|done].
  - split.
    + intros (test & [->|Hin]%elem_of_cons & Hp); [by left|]. right. by exists test.
    + intros [Hv|(test & Hin & Hp)]; [exists (link_column link, w :: values); split; [by left|done]|]. exists test. split; [by right|done].
Qed.

Lemma containerTests_exact l cs tests row : NoDup (map link_dimension l) -> containerTests l cs = inr tests ->
  (exists test, test ∈ tests /\ passes row test) <-> exists c, c ∈ cs /\ lies_through l row c.
Proof.
  intros Hd. revert tests. induction cs as [|c cs IH]; intros tests E; cbn [containerTests] in E; passed.
  - subst tests. split; [intros (? & ?%elem_of_nil & _)|intros (? & ?%elem_of_nil & _)]; done.
  - destruct (linkOf l (cg_dimension c)) as [link|] eqn:El; [|done]. passed. subst tests. apply linkOf_spec in El as [Hin Hl]. rewrite pushed_test, IH by done. split.
    + intros [(v & Hv & Hr)|(c' & Hc & Ht)]; [|exists c'; split; [by right|done]]. exists c. split; [by left|]. by exists link, v.
    + intros (c' & [->|Hc]%elem_of_cons & Ht); [|right; by exists c']. left. destruct Ht as (link' & v & Hin' & Hl' & Hv & Hr). exists v. split; [done|].
      by rewrite (link_unique l link link') by (done || congruence).
Qed.

Lemma containers_above l cs tests c : containerTests l cs = inr tests -> c ∈ cs -> exists link, link ∈ l /\ link_dimension link = cg_dimension c.
Proof.
  revert tests. induction cs as [|c' cs IH]; intros tests E; cbn [containerTests] in E; [by intros ?%elem_of_nil|].
  destruct (linkOf l (cg_dimension c')) as [link|] eqn:El; [|done]. passed. intros [->|Hin]%elem_of_cons; [|by eapply IH]. apply linkOf_spec in El. by exists link.
Qed.

Lemma containedTests_exact below above d cs tests row : NoDup (map link_dimension below) -> containedTests_loop below above d cs = inr tests ->
  ((exists test, test ∈ tests /\ passes row test) <-> exists c, c ∈ cs /\ lies_through below row c)
  /\ forall c, c ∈ cs -> cg_dimension c <> d /\ linkOf above (cg_dimension c) = None.
Proof.
  intros Hd. revert tests. induction cs as [|c cs IH]; intros tests E; cbn [containedTests_loop] in E.
  - passed. subst tests. split; [|by intros ? ?%elem_of_nil]. split; [intros (? & ?%elem_of_nil & _)|intros (? & ?%elem_of_nil & _)]; done.
  - destruct (_ || _) eqn:Ec; [done|]. apply orb_false_iff in Ec as [Ec Ea]. apply String.eqb_neq in Ec. passed. subst tests.
    match goal with H : containedTests_loop _ _ _ _ = inr _ |- _ => apply IH in H as [IHt IHc] end. split.
    2:{ intros c' [->|Hc]%elem_of_cons; [split; [done|by destruct (linkOf above _)]|by apply IHc]. }
    destruct (linkOf below (cg_dimension c)) as [link|] eqn:El.
    + apply linkOf_spec in El as [Hin Hl]. rewrite pushed_test, IHt. split.
      * intros [(v & Hv & Hr)|(c' & Hc & Ht)]; [|exists c'; split; [by right|done]]. exists c. split; [by left|]. by exists link, v.
      * intros (c' & [->|Hc]%elem_of_cons & Ht); [|right; by exists c']. left. destruct Ht as (link' & v & Hin' & Hl' & Hv & Hr). exists v. split; [done|].
        by rewrite (link_unique below link link') by (done || congruence).
    + rewrite IHt. split; [intros (c' & Hc & Ht); exists c'; split; [by right|done]|]. intros (c' & [->|Hc]%elem_of_cons & Ht); [|by exists c'].
      destruct Ht as (link' & v & Hin' & Hl' & _). by destruct (linkOf_none _ _ _ El Hin').
Qed.

(** The tests of a [Within] pass exactly the rows that lie in a value it grants. *)
Lemma withinTests_exact m column g values tests row : model_ok m -> reaches m column (w_dimension g) -> w_values g = Some values ->
  withinTests m column g values = inr tests -> (exists test, test ∈ tests /\ passes row test) <-> authorized m (GrantWithin g) row.
Proof.
  intros Hm (link & Hlinks & Hdim & Hcol) Ev E. unfold withinTests in E. passed. subst tests.
  pose proof (links_nodup m Hm) as Hd. rewrite Hlinks in Hd. rewrite map_app in Hd. apply NoDup_app in Hd as (Hb & _ & Ha). cbn [map] in Ha. apply NoDup_cons in Ha as [_ Ha].
  rename H into E1, H0 into E2. unfold containedTests in E2. destruct (containedTests_exact _ _ _ _ _ row Hb E2) as [Hin Hout]. pose proof (containerTests_exact _ _ _ row Ha E1) as Hup.
  unfold authorized. rewrite Ev. split.
  - intros (test & Ht & Hp). rewrite !elem_of_app in Ht. destruct Ht as [Ht|[Ht|Ht]].
    + destruct values as [|w ws]; cbn in Ht; [by apply elem_of_nil in Ht|]. apply list_elem_of_singleton in Ht as ->. destruct Hp as (v & Hv & Hr).
      exists (w_dimension g), v. split; [by left|]. exists link. rewrite Hlinks, elem_of_app. split_and!; [right; by left|done|by rewrite Hcol].
    + destruct (proj1 Hup (ex_intro _ test (conj Ht Hp))) as (c & Hc & l & v & Hl & Hld & Hv & Hr).
      exists (cg_dimension c), v. split; [right; exists c; rewrite elem_of_app; auto|]. exists l. rewrite Hlinks, elem_of_app. split_and!; [right; by right|done|done].
    + destruct (proj1 Hin (ex_intro _ test (conj Ht Hp))) as (c & Hc & l & v & Hl & Hld & Hv & Hr).
      exists (cg_dimension c), v. split; [right; exists c; rewrite elem_of_app; auto|]. exists l. rewrite Hlinks, elem_of_app. split_and!; [by left|done|done].
  - intros (d & v & Hg & l & Hl & Hld & Hr).
    assert (Hone : forall c, c ∈ links m -> link_dimension c = d -> c = l) by (intros c Hc Hcd; apply (link_unique (links m)); [by apply links_nodup|done|done|congruence]).
    destruct Hg as [[-> Hv]|(c & Hc & Hcd & Hv)].
    + exists (column, values). rewrite !elem_of_app. split.
      * left. destruct values; [by apply elem_of_nil in Hv|]. by left.
      * exists v. split; [done|]. assert (link = l) as <- by (apply Hone; [rewrite Hlinks, elem_of_app; right; by left|done]). cbn. by rewrite <-Hcol.
    + apply elem_of_app in Hc as [Hc|Hc].
      * destruct (containers_above _ _ _ _ E1 Hc) as (l' & Hl' & Hld'). assert (l' = l) as -> by (apply Hone; [rewrite Hlinks, elem_of_app; right; by right|congruence]).
        destruct (proj2 Hup) as (test & Ht & Hp); [exists c; split; [done|]; exists l, v; split_and!; congruence|]. exists test. rewrite !elem_of_app. auto.
      * destruct (Hout c Hc) as [Hn Hnone]. destruct (proj2 Hin) as (test & Ht & Hp); [|exists test; rewrite !elem_of_app; auto].
        exists c. split; [done|]. exists l, v. split_and!; [|congruence|done|done]. rewrite Hlinks in Hl. apply elem_of_app in Hl as [Hl|[->|Hl]%elem_of_cons]; [done|congruence|].
        exfalso. eapply linkOf_none; [exact Hnone|exact Hl|congruence].
Qed.

Lemma withinPredicate_exact m column g p row : model_ok m -> reaches m column (w_dimension g) -> withinPredicate m column g = inr p ->
  holds p row = true <-> authorized m (GrantWithin g) row.
Proof.
  intros Hm Hr E. unfold withinPredicate in E. destruct (w_values g) as [values|] eqn:Ev; [|injection E as <-; cbn; by rewrite Ev].
  apply checked_bind_inr in E as (tests & Et & E). rewrite <-(withinTests_exact _ _ _ _ _ row Hm Hr Ev Et). destruct tests as [|test tests].
  - injection E as <-. cbn. split; [done|]. by intros (? & ?%elem_of_nil & _).
  - cbn [map] in E. apply checked_bind_inr in E as (q & Eq & E). injection E as <-. cbn [holds]. rewrite (anyOf_matches _ _ row Eq).
    change (InList test.1 test.2 :: map _ tests) with (map (fun test => InList test.1 test.2) (test :: tests)). rewrite existsb_exists. split.
    + intros (q' & Hin & Hq). apply in_map_iff in Hin as (t & <- & Hin). exists t. split; [by apply list_elem_of_In|]. by apply inList_matches.
    + intros (t & Hin & Hp). exists (InList t.1 t.2). split; [apply in_map_iff; exists t; split; [done|by apply list_elem_of_In]|]. by apply inList_matches.
Qed.

(** *** What a [Ref] matches *)

Lemma chainValue_spec carried dimension value : chainValue carried dimension = inr value -> lookup_field dimension carried = Some value.
Proof. unfold chainValue. by destruct (lookup_field dimension carried) as [v|]; [intros [= ->]|]. Qed.

Lemma chain_values_spec carried l values : chain_values carried l = inr values ->
  map fst values = l /\ forall entry, entry ∈ values -> lookup_field (link_dimension entry.1) carried = Some entry.2.
Proof.
  revert values. induction l as [|link l IH]; intros values E; cbn [chain_values] in E; passed.
  - subst values. split; [done|]. by intros ? ?%elem_of_nil.
  - subst values. match goal with H : chain_values _ _ = inr _, H' : chainValue _ _ = inr _ |- _ => apply IH in H as [<- Hv]; apply chainValue_spec in H' end.
    split; [done|]. intros entry [->|Hin]%elem_of_cons; [done|by apply Hv].
Qed.

(** A [Ref]'s values test exactly the rows that lie in its object and in each container of its chain. *)
Lemma linkValues_exact m below link above g values row : NoDup (map link_dimension (links m)) -> links m = below ++ link :: above ->
  link_dimension link = r_dimension g -> linkValues (link :: above) g = inr values ->
  (forall entry, entry ∈ values -> row !! link_column entry.1 = Some (PText entry.2)) <-> authorized m (GrantRef g) row.
Proof.
  intros Hd Hl Hld E. cbn [linkValues] in E. passed. subst values. rename H into Hcov.
  match goal with H : chain_values _ _ = inr _ |- _ => apply chain_values_spec in H as [Habove Hv] end.
  assert (Hin : forall l, l ∈ link :: above -> l ∈ links m) by (intros l Hin; rewrite Hl, elem_of_app; by right). cbn [authorized]. split.
  - intros Hr. split; [exists link; split_and!; [apply Hin; by left|done|apply (Hr (link, r_id g)); by left]|].
    intros d v Hdv. rewrite forallb_forall in Hcov. pose proof (Hcov (d, v)) as Hc. cbn in Hc. rewrite elem_spec in Hc.
    apply lookup_field_in in Hdv as Hdv'. apply list_elem_of_In in Hdv'. apply Hc in Hdv'. apply list_elem_of_fmap in Hdv' as (up & -> & Hup).
    rewrite <-Habove in Hup. apply list_elem_of_fmap in Hup as (entry & -> & Hentry). exists entry.1. pose proof (Hv _ Hentry). assert (entry.2 = v) as <- by congruence.
    split_and!; [apply Hin; right; rewrite <-Habove; apply list_elem_of_fmap; by exists entry|done|apply Hr; by right].
  - intros [(l & Hl1 & Hl2 & Hrow) Hup] entry [->|Hentry]%elem_of_cons.
    + cbn. by rewrite (link_unique (links m) link l) by (done || congruence || (apply Hin; by left)).
    + pose proof (Hv _ Hentry) as He. destruct (Hup _ _ He) as (l' & Hl'1 & Hl'2 & Hrow'). rewrite (link_unique (links m) entry.1 l') by (done || (apply Hin; right; rewrite <-Habove; apply list_elem_of_fmap; by exists entry)). done.
Qed.

Lemma linksPredicate_exact values p row : linksPredicate values = inr p ->
  matches p row = true <-> forall entry, entry ∈ values -> row !! link_column entry.1 = Some (PText entry.2).
Proof.
  intros E. unfold linksPredicate in E. rewrite (allOf_matches _ _ row E), forallb_forall. split.
  - intros Hq entry Hin. apply equals_matches. apply Hq. apply in_map_iff. exists entry. split; [done|by apply list_elem_of_In].
  - intros Hq q (entry & <- & Hin)%in_map_iff. apply equals_matches, Hq. by apply list_elem_of_In.
Qed.

(** *** The predicates of the handles *)

Section Handles.
Context {Cap : Type} `{CapabilityAuthority Cap}.
Variables (models : TableModels) (name : string) (m : TableModel).
Hypotheses (Hlinked : linked models) (Hin : (name, m) ∈ models).

Lemma in_ok : model_ok m.
Proof. by eapply (linked_each models Hlinked). Qed.

Lemma in_chained : chained models m.
Proof. by eapply (linked_each models Hlinked). Qed.

Lemma in_top : top_level m.
Proof. eapply chained_top, in_chained. Qed.

Lemma requiredActions_spec context operation actions : requiredActions context operation = inr actions -> actions = actions_of (ctx_model context) operation.
Proof. unfold requiredActions. destruct (actions_of _ _); [done|]. by intros [= <-]. Qed.

Lemma checkAction_spec context operation action u : checkAction context operation action = inr u -> action ∈ actions_of (ctx_model context) operation.
Proof. unfold checkAction. intros E. passed. apply requiredActions_spec in H0 as ->. by apply elem_spec. Qed.

Lemma checkGrant_spec context d action d' operation u : checkGrant context d action d' operation = inr u ->
  d = d' /\ action ∈ actions_of (ctx_model context) operation.
Proof. unfold checkGrant. intros E. passed. split; [by apply String.eqb_eq|by eapply checkAction_spec]. Qed.

Lemma refGrant_spec context capability d operation g : refGrant context capability d operation = inr g ->
  resolve capability = inr (GrantRef g) /\ r_dimension g = d /\ r_action g ∈ actions_of (ctx_model context) operation.
Proof.
  unfold refGrant. intros E. apply checked_bind_inr in E as (g' & Er & E). destruct g' as [g'| | |]; try done. passed. subst g'. split; [done|]. by eapply checkGrant_spec.
Qed.

Lemma withinGrant_spec context capability d operation g : withinGrant context capability d operation = inr g ->
  resolve capability = inr (GrantWithin g) /\ w_dimension g = d /\ w_action g ∈ actions_of (ctx_model context) operation.
Proof.
  unfold withinGrant. intros E. apply checked_bind_inr in E as (g' & Er & E). destruct g' as [|g'| |]; try done. passed. subst g'. split; [done|]. by eapply checkGrant_spec.
Qed.

(** A capability that allows an operation on a table, and its rows. *)
Definition allows (capability : Cap) (operation : Operation) (p : option Predicate) : Prop :=
  exists grant, resolve capability = inr grant /\ grant_action grant ∈ actions_of m operation /\ forall row, holds p row = true <-> authorized m grant row.

Lemma objectPredicate_exact capability operation p : objectPredicate (contextOf models m) capability operation = inr p -> allows capability operation (Some p).
Proof.
  unfold objectPredicate, selfLinks, dimensionScope. cbn [ctx_model contextOf]. destruct (t_scope m) as [d key up| | |] eqn:Es; try done. cbn [mbind checked_bind mret checked_ret ds_dimension ds_key].
  intros E. apply checked_bind_inr in E as (g & Eg & E). apply checked_bind_inr in E as (values & Ev & E).
  apply refGrant_spec in Eg as (Er & Ed & Ha). exists (GrantRef g). split_and!; [done|exact Ha|]. intros row. cbn [holds]. rewrite (linksPredicate_exact _ _ row E).
  eapply (linkValues_exact m []); [apply links_nodup, in_ok|unfold links; by rewrite Es|by cbn|exact Ev].
Qed.

Lemma listColumn_reach d key up : t_scope m = ScopeDimension d key up ->
  reachColumn m (match up with Some c => link_dimension c | None => d end) = Some (match up with Some c => link_column c | None => key end).
Proof.
  intros Es. pose proof in_chained as Hc. unfold chained in Hc. unfold reachColumn. rewrite Es in *. destruct up as [c|].
  - destruct Hc as (rest & -> & _). unfold linkOf. cbn [List.find]. by rewrite String.eqb_refl.
  - by rewrite String.eqb_refl.
Qed.

Lemma dimensionList_exact capability operation p : dimensionListPredicate (contextOf models m) capability operation = inr p -> allows capability operation p.
Proof.
  unfold dimensionListPredicate, dimensionScope, listDimension. cbn [ctx_model contextOf]. destruct (t_scope m) as [d key up| | |] eqn:Es; try done.
  cbn [mbind checked_bind mret checked_ret ds_dimension ds_key ds_container]. intros E. apply checked_bind_inr in E as (g & Eg & E).
  apply withinGrant_spec in Eg as (Er & Ed & Ha). exists (GrantWithin g). split_and!; [done|exact Ha|]. intros row.
  eapply withinPredicate_exact; [apply in_ok| |exact E]. apply reachColumn_reaches; [apply in_ok|apply in_top|]. rewrite Ed. by apply listColumn_reach.
Qed.

(** What the context of a child table says of its parent. *)
Lemma childScope_spec scope : childScope (contextOf models m) = inr scope ->
  exists parent inherit (owner : TableModel), t_scope m = ScopeChild parent (cs_key scope) (cs_column scope) inherit /\ (parent, owner) ∈ models /\
    t_scope owner = ScopeDimension (ds_dimension (cs_parent scope)) (ds_key (cs_parent scope)) (ds_container (cs_parent scope)) /\
    chain m = mkContainer (ds_dimension (cs_parent scope)) (cs_column scope) :: chain owner.
Proof.
  unfold childScope. cbn [ctx_model ctx_parent contextOf]. destruct (t_scope m) as [|parent key column inherit| |] eqn:Es; try done.
  pose proof in_chained as Hc. unfold chained in Hc. rewrite Es in Hc. destruct Hc as (owner & d & okey & up & Hown & Eo & Hch & _).
  rewrite (in_modelOf _ _ _ Hlinked Hown). unfold dimensionScope. rewrite Eo. cbn. intros [= <-]. cbn. by exists parent, inherit, owner.
Qed.

Lemma parentPredicate_exact scope g p row : childScope (contextOf models m) = inr scope -> r_dimension g = ds_dimension (cs_parent scope) ->
  parentPredicate (contextOf models m) g = inr p -> matches p row = true <-> authorized m (GrantRef g) row.
Proof.
  intros Es Ed E. destruct (childScope_spec _ Es) as (parent & inherit & owner & Em & _ & _ & Hch). unfold parentPredicate in E. cbn [ctx_model contextOf] in E.
  apply checked_bind_inr in E as (values & Ev & E). rewrite (linksPredicate_exact _ _ row E). rewrite Hch in Ev.
  eapply (linkValues_exact m []); [apply links_nodup, in_ok|unfold links; by rewrite Em, Hch|by cbn|exact Ev].
Qed.

Lemma childList_exact capability operation p : childListPredicate (contextOf models m) capability operation = inr p -> allows capability operation p.
Proof.
  unfold childListPredicate. intros E. apply checked_bind_inr in E as (scope & Es & E). apply checked_bind_inr in E as (g & Er & E). exists g.
  destruct g as [g|g| |]; try done.
  - apply checked_bind_inr in E as (u & Ec & E). apply checkGrant_spec in Ec as [Ed Ha]. apply checked_bind_inr in E as (q & Eq & E). injection E as <-.
    split_and!; [done|exact Ha|]. intros row. by eapply parentPredicate_exact.
  - apply checked_bind_inr in E as (u & Ec & E). apply checkGrant_spec in Ec as [Ed Ha]. split_and!; [done|exact Ha|]. intros row.
    eapply withinPredicate_exact; [apply in_ok| |exact E]. apply reachColumn_reaches; [apply in_ok|apply in_top|]. rewrite Ed.
    destruct (childScope_spec _ Es) as (parent & inherit & owner & Em & Hown & Eo & Hch). unfold reachColumn. rewrite Em, Hch. unfold listDimension.
    destruct (ds_container (cs_parent scope)) as [c|] eqn:Eup.
    + destruct (linked_each models Hlinked _ _ Hown) as (_ & _ & Hco). unfold chained in Hco. rewrite Eo in Hco. destruct Hco as (rest & Erest & _). rewrite Erest in *.
      unfold linkOf. cbn [List.find link_dimension]. destruct (String.eqb_spec (ds_dimension (cs_parent scope)) (link_dimension c)) as [Edc|]; [|by rewrite String.eqb_refl].
      exfalso. pose proof (chain_dimensions m in_ok) as Hd. rewrite Hch in Hd. cbn in Hd. apply NoDup_cons in Hd as [Hd _]. apply Hd. rewrite Edc. by left.
    + unfold linkOf. cbn. by rewrite String.eqb_refl.
Qed.

Lemma childObject_exact parent key operation p : childObjectPredicate (contextOf models m) parent key operation = inr p ->
  exists id column, key = Some id /\ key_of (t_scope m) = Some column /\ exists q, allows parent operation (Some q) /\
    forall row, matches p row = true <-> row !! column = Some (PText id) /\ matches q row = true.
Proof.
  unfold childObjectPredicate. intros E. apply checked_bind_inr in E as (scope & Es & E). destruct (childScope_spec _ Es) as (pn & inherit & owner & Em & _).
  destruct key as [id|]; [|done]. apply checked_bind_inr in E as (id' & Eid & E). passed. subst id'. exists id, (cs_key scope). split; [done|]. rewrite Em. split; [done|].
  match goal with H : refGrant _ _ _ _ = inr ?g, H' : parentPredicate _ ?g = inr ?q |- _ => apply refGrant_spec in H as (Er & Ed & Ha); exists q; split;
    [exists (GrantRef g); split_and!; [done|exact Ha|]; intros row; by eapply parentPredicate_exact|] end.
  intros row. rewrite (allOf_matches _ _ row E). cbn [forallb]. by rewrite andb_true_r, andb_true_iff, equals_matches.
Qed.

Lemma reach_exact capability p : reachPredicate (contextOf models m) capability = inr p -> allows capability OpRead p.
Proof.
  unfold reachPredicate. intros E. apply checked_bind_inr in E as (g & Er & E). exists g. destruct g as [|g| |]; try done.
  apply checked_bind_inr in E as (u & Ec & E). apply checkAction_spec in Ec. split_and!; [done|exact Ec|]. intros row. cbn [ctx_model contextOf] in E.
  destruct (reachColumn m (w_dimension g)) as [column|] eqn:Ecol; [|done]. eapply withinPredicate_exact; [apply in_ok| |exact E]. by apply reachColumn_reaches; [apply in_ok|apply in_top|].
Qed.

Lemma appGrant_spec context capability operation g : appGrant context capability operation = inr g ->
  resolve capability = inr (GrantApp g) /\ a_action g ∈ actions_of (ctx_model context) operation.
Proof.
  unfold appGrant. intros E. apply checked_bind_inr in E as (g' & Er & E). destruct g' as [| |g'|]; try done. passed. subst g'. split; [done|]. by eapply checkAction_spec.
Qed.

Lemma reached_exact g column p row : reachColumn m (w_dimension g) = Some column -> withinPredicate m column g = inr p ->
  holds p row = true <-> authorized m (GrantWithin g) row.
Proof. intros Hc. apply withinPredicate_exact; [apply in_ok|]. by apply reachColumn_reaches; [apply in_ok|apply in_top|]. Qed.

Lemma claimScope_exact capability g p : claimScope (contextOf models m) capability = inr (g, p) -> is_some (t_queue m) = true /\ allows capability OpUpdate p.
Proof.
  unfold claimScope. intros E. apply checked_bind_inr in E as (g' & Er & E). apply checked_bind_inr in E as (u & Eq%ensure_inr & E). split; [done|]. exists g'.
  destruct g' as [|g'|g'|]; try done.
  - apply checked_bind_inr in E as (u1 & _ & E). apply checked_bind_inr in E as (u2 & Ec & E). apply checkAction_spec in Ec. cbn [ctx_model contextOf] in *.
    destruct (reachColumn m (w_dimension g')) as [column|] eqn:Ecol; [|done]. passed. simplify_eq. split_and!; [done|exact Ec|]. intros row. by eapply reached_exact.
  - passed. match goal with H : appGrant _ _ _ = inr _ |- _ => apply appGrant_spec in H as [Er' Ha] end. simplify_eq. rewrite Er in Er'. simplify_eq. by split_and!.
Qed.

Lemma row_terms_exact l carried terms row : row_terms l carried = inr terms ->
  forallb (fun q => matches q row) terms = true <->
  forall link, link ∈ l -> exists value, lookup_field (link_column link) carried = Some value /\ row !! link_column link = Some (PText value).
Proof.
  revert terms. induction l as [|link l IH]; intros terms E; cbn [row_terms] in E; passed.
  - subst terms. split; [by intros _ ? ?%elem_of_nil|done].
  - destruct (lookup_field (link_column link) carried) as [value|] eqn:Ev; [|done]. passed. subst terms. cbn [forallb]. rewrite andb_true_iff, equals_matches, IH by done. split.
    + intros [Hr Hl] link' [->|Hin']%elem_of_cons; [by exists value|by apply Hl].
    + intros Hl. split; [destruct (Hl link) as (v & Hv & Hr); [by left|congruence]|]. intros link' Hin'. apply Hl. by right.
Qed.

Lemma keyOf_spec model key : keyOf model = inr key <-> key_of (t_scope model) = Some key.
Proof. unfold keyOf. destruct (key_of _); [split; by intros [= ->]|done]. Qed.

Lemma claimedRow_exact capability operation p : claimedRowPredicate (contextOf models m) capability operation = inr p -> allows capability operation (Some p).
Proof.
  unfold claimedRowPredicate. intros E. apply checked_bind_inr in E as (g & Er & E). destruct g as [| | |g]; try done. exists (GrantRow g).
  apply checked_bind_inr in E as (u1 & Et%ensure_inr%String.eqb_eq & E). apply checked_bind_inr in E as (u2 & Ec & E). apply checkAction_spec in Ec.
  apply checked_bind_inr in E as (key & Ek%keyOf_spec & E). apply checked_bind_inr in E as (terms & Eterms & E). cbn [ctx_model contextOf] in *.
  split_and!; [done|exact Ec|]. intros row. cbn [holds authorized]. rewrite (allOf_matches _ _ row E). cbn [forallb]. rewrite andb_true_iff, equals_matches, (row_terms_exact _ _ _ row Eterms).
  rewrite Ek. split.
  - intros [Hk Hl]. split_and!; [done|by exists key|done].
  - intros (_ & (key' & Hk' & Hr) & Hl). simplify_eq. done.
Qed.

(** *** The tests of a fragment's scope *)

Definition test_holds (row : Row) (test : ScopeTest) : bool :=
  match test with TestIs column value => matches (Equals column (PText value)) row | TestIn column values => matches (InList column values) row end.

(** The predicate [ctx.sql.scope] writes of its tests. *)
Definition terms_hold (terms : ScopeTerms) (row : Row) : bool :=
  match terms with AllRows => true | Groups groups => existsb (fun tests => forallb (test_holds row) tests) groups end.

Lemma groups_pass tests row : terms_hold (Groups (map (fun test => [TestIn test.1 test.2]) tests)) row = true <-> exists test, test ∈ tests /\ passes row test.
Proof.
  cbn [terms_hold]. rewrite existsb_exists. split.
  - intros (group & (test & <- & Hin')%in_map_iff & Ht). exists test. split; [by apply list_elem_of_In|]. cbn [forallb test_holds] in Ht. rewrite andb_true_r in Ht. by apply inList_matches.
  - intros (test & Ht & Hp). exists [TestIn test.1 test.2]. split; [apply in_map_iff; exists test; split; [done|by apply list_elem_of_In]|].
    cbn [forallb test_holds]. rewrite andb_true_r. by apply inList_matches.
Qed.

Lemma ref_terms values row : terms_hold (Groups [map (fun entry => TestIs (link_column entry.1) entry.2) values]) row = true
  <-> forall entry : Container * string, entry ∈ values -> row !! link_column entry.1 = Some (PText entry.2).
Proof.
  cbn [terms_hold existsb]. rewrite orb_false_r, forallb_forall. split.
  - intros Hq entry He. apply equals_matches. apply (Hq (TestIs (link_column entry.1) entry.2)). apply in_map_iff. exists entry. split; [done|by apply list_elem_of_In].
  - intros Hq test (entry & <- & He)%in_map_iff. apply equals_matches, Hq. by apply list_elem_of_In.
Qed.

(** The tests hold of exactly the rows the capability authorizes. *)
Lemma scopeTerms_rows capability use terms : scopeTerms (contextOf models m) capability use = inr terms ->
  exists grant, resolve capability = inr grant /\ forall row, (forall reason key, t_scope m <> ScopeApp reason key) -> terms_hold terms row = true <-> authorized m grant row.
Proof.
  unfold scopeTerms. intros E. apply checked_bind_inr in E as (g & Er & E). exists g. split; [done|]. intros row Hmode. cbn [ctx_model contextOf] in E.
  apply checked_bind_inr in E as (u1 & Hrow & E). apply checked_bind_inr in E as (u2 & _ & E).
  destruct g as [g|g|g|g]; [| |passed; by subst terms|done].
  - assert (Eg : match linksFrom (links m) (r_dimension g) with None => fails (CapabilityError "out_of_reach") | Some reached =>
        _ ← match use with UseRead => ensure (namesAction m (r_action g)) (CapabilityError "wrong_action") | _ => mret tt end;
        values ← linkValues reached g; mret (Groups [map (fun entry => TestIs (link_column entry.1) entry.2) values]) end = inr terms).
    { destruct (t_scope m) as [| | |reason key]; [exact E|exact E|exact E|by destruct (Hmode reason key)]. }
    clear E. destruct (linksFrom (links m) (r_dimension g)) as [reached|] eqn:Ef; [|done]. apply linksFrom_split in Ef as (below & link & above & Hl & -> & Hd).
    apply checked_bind_inr in Eg as (u3 & _ & Eg). apply checked_bind_inr in Eg as (values & Ev & Eg). injection Eg as <-. rewrite ref_terms.
    eapply linkValues_exact; [apply links_nodup, in_ok|exact Hl|done|exact Ev].
  - assert (Eg : match reachColumn m (w_dimension g) with None => fails (CapabilityError "out_of_reach") | Some column =>
        _ ← match use with UseRead => ensure (Js.elem (w_action g) (act_read (t_actions m))) (CapabilityError "wrong_action") | _ => mret tt end;
        match w_values g with None => mret AllRows | Some values => tests ← withinTests m column g values; mret (Groups (map (fun test => [TestIn test.1 test.2]) tests)) end end = inr terms).
    { destruct (t_scope m) as [| | |reason key]; [exact E|exact E|exact E|by destruct (Hmode reason key)]. }
    clear E. destruct (reachColumn m (w_dimension g)) as [column|] eqn:Ecol; [|done]. apply checked_bind_inr in Eg as (u3 & _ & Eg).
    destruct (w_values g) as [values|] eqn:Ev; [|injection Eg as <-; cbn; by rewrite Ev]. apply checked_bind_inr in Eg as (tests & Et & Eg). injection Eg as <-.
    rewrite groups_pass. eapply withinTests_exact; [apply in_ok|by apply reachColumn_reaches; [apply in_ok|apply in_top|]|exact Ev|exact Et].
Qed.

End Handles.

(** What a fragment needs its capability's action to be. *)
Definition use_allowed (m : TableModel) (grant : CapabilityGrant) (use : ScopeUse) : Prop :=
  match use with
  | UseUpdate => grant_action grant ∈ act_update (t_actions m) \/ grant_action grant ∈ updateActions m
  | UseDelete => grant_action grant ∈ act_delete (t_actions m)
  | UseRead => grant_action grant ∈ act_read (t_actions m)
      \/ match grant with GrantRef g => namesAction m (r_action g) = true | GrantApp g => namesAction m (a_action g) = true \/ a_action g ∈ appRead (t_actions m) | _ => False end
  end.

Lemma checkWriteTarget_spec context grant update u : checkWriteTarget context grant update = inr u ->
  (if update then grant_action grant ∈ act_update (t_actions (ctx_model context)) \/ grant_action grant ∈ updateActions (ctx_model context)
   else grant_action grant ∈ act_delete (t_actions (ctx_model context)))
  /\ ((exists reason key, t_scope (ctx_model context) = ScopeApp reason key) <-> exists g, grant = GrantApp g).
Proof.
  unfold checkWriteTarget. intros E. passed. rename H into Ea, H0 into Eb. split.
  - destruct (Js.elem _ _) eqn:El; [apply elem_spec in El; destruct update; [by left|done]|]. passed. rename E into Ec. apply elem_spec, list_elem_of_In, filter_In in Ec as [Ec _].
    destruct update; [right; by apply list_elem_of_In|done].
  - destruct grant, (t_scope (ctx_model context)); try done; split; intros; destruct_and?; naive_solver.
Qed.

Lemma scoped_read_action `{CapabilityAuthority Cap} context capability p g : scopedApplicationRead context capability = inr p -> resolve capability = inr g ->
  grant_action g ∈ act_read (t_actions (ctx_model context)).
Proof.
  unfold scopedApplicationRead. intros E Er. apply checked_bind_inr in E as (g' & Er' & E). assert (g' = g) as -> by congruence. passed.
  match goal with Hr : requiredActions _ _ = inr _ |- _ => apply requiredActions_spec in Hr as -> end. by apply elem_spec.
Qed.

Lemma appReach_spec context action u : checkAppReach context action = inr u ->
  action ∈ act_read (t_actions (ctx_model context)) \/ namesAction (ctx_model context) action = true \/ action ∈ appRead (t_actions (ctx_model context)).
Proof.
  unfold checkAppReach, checkRecordReach. destruct (t_scope _); intros E; passed; rewrite ?orb_false_r, ?orb_true_iff, ?elem_spec in E; intuition.
Qed.

(** The capability's action is one the fragment may use the table with. *)
Lemma scopeTerms_action `{CapabilityAuthority Cap} context capability use terms g : scopeTerms context capability use = inr terms -> resolve capability = inr g ->
  use_allowed (ctx_model context) g use.
Proof.
  unfold scopeTerms. intros E Er. apply checked_bind_inr in E as (g' & Er' & E). assert (g' = g) as -> by congruence.
  apply checked_bind_inr in E as (u1 & Hrow & E). apply checked_bind_inr in E as (u2 & Hw & E).
  destruct use; [|by apply checkWriteTarget_spec in Hw as [Hw _]..]. clear Hw. unfold use_allowed.
  destruct g as [g|g|g|g]; [| | |done].
  - destruct (t_scope (ctx_model context)); [| | |apply checked_bind_inr in E as (? & E & _); left; by eapply scoped_read_action].
    all: destruct (linksFrom _ _); [|done]; passed; by right.
  - destruct (t_scope (ctx_model context)); [| | |apply checked_bind_inr in E as (? & E & _); left; by eapply scoped_read_action].
    all: destruct (reachColumn _ _); [|done]; apply checked_bind_inr in E as (? & Hr%ensure_inr & _); left; by apply elem_spec.
  - passed. match goal with Ha : checkAppReach _ _ = inr _ |- _ => apply appReach_spec in Ha end. cbn. tauto.
Qed.

Lemma scopeTerms_app `{CapabilityAuthority Cap} context capability use terms reason key : t_scope (ctx_model context) = ScopeApp reason key ->
  scopeTerms context capability use = inr terms -> terms = AllRows.
Proof.
  unfold scopeTerms. intros Es E. apply checked_bind_inr in E as (g & _ & E). apply checked_bind_inr in E as (u1 & Hrow & E). apply checked_bind_inr in E as (u2 & _ & E).
  rewrite Es in E. destruct g; by passed.
Qed.

(** C27. A fragment of SQL scoped by [ctx.sql.scope] sees what the table's handles see: whatever capability is given, for
    reading or as the target of an UPDATE or a DELETE, the tests written into the statement hold of exactly the rows the
    capability authorizes (every row of an application table), and its action is one the table's policy names for that use. *)
Theorem scopeTerms_exact `{CapabilityAuthority Cap} (models : TableModels) name (m : TableModel) (capability : Cap) use terms :
  linked models -> (name, m) ∈ models -> scopeTerms (contextOf models m) capability use = inr terms ->
  exists grant, resolve capability = inr grant /\ use_allowed m grant use
    /\ forall row, terms_hold terms row = true <-> (exists reason key, t_scope m = ScopeApp reason key) \/ authorized m grant row.
Proof.
  intros Hl Hin E. destruct (scopeTerms_rows models name m Hl Hin _ _ _ E) as (g & Er & Hrows). exists g. split_and!; [done|by eapply (scopeTerms_action (contextOf models m))|].
  intros row. destruct (t_scope m) as [| | |reason key] eqn:Es.
  4:{ rewrite (scopeTerms_app (contextOf models m) _ _ _ _ _ Es E). split; [intros _; left; by eexists _, _|done]. }
  all: rewrite Hrows by (intros ? ? [=]); split; [by right|intros [(? & ? & [=])|Ha]; done].
Qed.

(** ** The demo application *)

Lemma demo_linked : linked demo_models.
Proof.
  eapply (linkTables_linked demo_tables demo_containment); [apply demo_ends|apply demo_placed| |by vm_compute].
  cbn. repeat constructor; set_solver.
Qed.

(** Capabilities that are what they grant. *)
Definition demo_authority : CapabilityAuthority CapabilityGrant := fun grant => inr grant.

Definition demo_model (name : string) : TableModel :=
  default (mkModel (with_scope demo_orgs (ScopeReference "")) []) (modelOf demo_models name).

Lemma demo_in name : Js.elem name ["orgs"; "projects"; "tasks"] = true -> (name, demo_model name) ∈ demo_models.
Proof.
  intros Hn%elem_spec. rewrite !elem_of_cons, elem_of_nil in Hn. destruct Hn as [->|[->|[->|[]]]]; apply modelOf_in; by vm_compute.
Qed.

Definition demo_within : CapabilityGrant :=
  GrantWithin (mkWithin "project" "notes.read" "u1" (Some ["p1"]) [mkContainerGrant "org" ["o2"]] []).

Definition demo_task (id project org : string) : Row := {["id" := PText id; "project_id" := PText project; "org_id" := PText org]}.

Lemma scopeTerms_exact_witness : exists terms,
  scopeTerms (H := demo_authority) (contextOf demo_models (demo_model "tasks")) demo_within UseRead = inr terms /\
  terms_hold terms (demo_task "t1" "p1" "o1") = true /\ terms_hold terms (demo_task "t2" "p2" "o1") = false /\
  ~ authorized (demo_model "tasks") demo_within (demo_task "t2" "p2" "o1").
Proof.
  destruct (scopeTerms (H := demo_authority) (contextOf demo_models (demo_model "tasks")) demo_within UseRead) as [e|terms] eqn:E; [by vm_compute in E|].
  exists terms. split; [done|].
  destruct (scopeTerms_exact (H := demo_authority) demo_models "tasks" (demo_model "tasks") demo_within UseRead terms demo_linked (demo_in "tasks" eq_refl) E) as (g & Er & _ & Hrows).
  injection Er as <-. vm_compute in E. injection E as <-. split_and!; [by vm_compute|by vm_compute|].
  intros Ha. assert (Hf : terms_hold (Groups [[TestIn "project_id" ["p1"]]; [TestIn "org_id" ["o2"]]]) (demo_task "t2" "p2" "o1") = true) by (apply Hrows; by right).
  by vm_compute in Hf.
Defined.
