(* ===== verification/Writes.v ===== *)
(** Reads and writes of the data layer's tables ([db/src/store.ts], [db/src/json.ts], [db/src/file-columns.ts]): the values a
    write takes, the statements, and the handles of dimension, child and application tables.

    A table is the list of its rows. A statement is a function on the database; a mutation runs in a transaction, which keeps
    nothing when it throws. What the database does besides (defaults, constraints, cascades, [+ 1], unique indexes) is the
    class [Schema]. The dialect is Postgres. A select's paging, order and joins, the text a read answers days and timestamps
    in, and the lease that fences a job's writes are left out; a store has no file binding, so its file columns take [null]
    only, whatever [readValues] accepted. *)

From S2P Require Import Prelude Calendar Json Temporal Policy Store.
From Stdlib Require Import ZArith Lia String Ascii.
From stdpp Require Import base tactics strings gmap list.

(** ** Values *)

(** A JavaScript value given to a write: an object with the file reference it is, if it is one, and its own properties,
    [None] for an accessor; [Foreign] is a function, a symbol, an instance of a class or a sparse array. *)
Inductive Input :=
| Undefined
| Null
| Prim (p : Primitive)
| ArrayOf (items : list Input)
| ObjectOf (holding : option (string * string)) (fields : list (string * option Input))
| Foreign.

Definition MAX_JSON_DEPTH : nat := 64.

Definition NUL : string := String (ascii_of_nat 0) "".

Definition invalid_value {A} : checked A := fails (QueryRefused "invalid_value").

Definition json_text (value : string) : checked string :=
  _ ← ensure (negb (Js.includes value NUL)) (QueryRefused "invalid_value"); mret (jsonString value).

Section Json.
Context `{NumberText}.

Definition json_number (n : jsnum) : checked string :=
  match num_normal n with None => invalid_value | Some x => mret (number_text x) end.

(** [written]; [depth] is what is left of [MAX_JSON_DEPTH]. *)
Fixpoint written (value : Input) (depth : nat) : checked string :=
  match value with
  | Prim (PText s) => json_text s
  | Null => mret "null"
  | Prim (PBool b) => mret (if b then "true" else "false")
  | Prim (PInteger z) => json_number (NFinite z 0)
  | Prim (PReal n) => json_number n
  | Undefined | Prim (PBigint _) | Prim (PDate _) | Foreign => invalid_value
  | ArrayOf items =>
      match depth with
      | O => invalid_value
      | S depth =>
          texts ← (fix go items :=
            match items with [] => mret [] | item :: items => text ← written item depth; texts ← go items; mret (text :: texts) end) items;
          mret ("[" +:+ Js.join "," texts +:+ "]")
      end
  | ObjectOf _ fields =>
      match depth with
      | O => invalid_value
      | S depth =>
          members ← (fix go fields :=
            match fields with
            | [] => mret []
            | (_, None) :: _ => invalid_value
            | (_, Some Undefined) :: fields => go fields
            | (key, Some member) :: fields => key ← json_text key; text ← written member depth; members ← go fields; mret ((key +:+ ":" +:+ text) :: members)
            end) fields;
          mret ("{" +:+ Js.join "," members +:+ "}")
      end
  end.

Definition jsonInput (value : Input) : checked string := written value MAX_JSON_DEPTH.

(** A write's value for a file column. *)
Definition fileValue (model : TableModel) (column : string) (value : Input) : checked (option Primitive) :=
  match value with
  | Null => mret None
  | ObjectOf (Some (id, kind)) _ =>
      _ ← ensure (bool_decide (lookup_field column (t_files model) = Some kind)) (QueryRefused "file_value"); mret (Some (PText id))
  | _ => fails (QueryRefused "file_value")
  end.

Definition or_invalid (text : option string) : checked string := match text with Some text => mret text | None => invalid_value end.

Definition temporalText (model : TableModel) (column value : string) : checked string :=
  if Js.elem column (t_dates model) then or_invalid (dayInput value)
  else if Js.elem column (t_timestamps model) then or_invalid (timestampInput value)
  else mret value.

Definition invalid_argument {A} : checked A := fails (QueryRefused "invalid_argument").

(** The keys of a write's values, checked before any value is read. *)
Fixpoint check_keys (allowed : list string) (fields : list (string * option Input)) : checked (list (string * Input)) :=
  match fields with
  | [] => mret []
  | (_, None) :: _ => invalid_argument
  | (key, Some value) :: fields =>
      _ ← ensure (Js.elem key allowed) (QueryRefused "unknown_column");
      fields ← check_keys allowed fields; mret ((key, value) :: fields)
  end.

Definition read_value (model : TableModel) (key : string) (value : Input) : checked (option Primitive) :=
  if is_some (lookup_field key (t_files model)) then fileValue model key value
  else if Js.elem key (t_json model) then match value with Null => mret None | _ => text ← jsonInput value; mret (Some (PText text)) end
  else match value with
       | Null => mret None
       | Prim (PText s) => text ← temporalText model key s; mret (Some (PText text))
       | Prim p => mret (Some p)
       | _ => invalid_argument
       end.

Fixpoint copy_values (model : TableModel) (fields : list (string * Input)) (copied : Values) : checked Values :=
  match fields with
  | [] => mret copied
  | (_, Undefined) :: fields => copy_values model fields copied
  | (key, value) :: fields => value ← read_value model key value; copy_values model fields (<[key := value]> copied)
  end.

Definition readValues (values : Input) (allowed : list string) (model : TableModel) : checked Values :=
  match values with
  | ObjectOf _ fields => fields ← check_keys allowed fields; copy_values model fields ∅
  | _ => invalid_argument
  end.

End Json.

(** ** The database *)

(** What the database does of its own: column defaults, [+ 1] on a column's value, the unique indexes, and a statement that
    leaves these rows in a table, with its constraints and cascades ([None]: refused). *)
Class Schema := {
  defaults : string -> Row;
  plus_one : Primitive -> option Primitive;
  unique_index : string -> list string -> bool;
  commit_rows : Database -> string -> list Row -> option Database;
}.

Definition tx (A : Type) : Type := eff Database StoreError A.

Notation lift := Eff.lift.

(** [returning key as id, version as version]; [None] is null, or a table without a version. *)
Record Acknowledgement := mkAck { ack_id : option Primitive; ack_version : option Primitive }.

Definition acknowledgement (key : string) (version : option string) (row : Row) : Acknowledgement :=
  mkAck (row !! key) (match version with Some version => row !! version | None => None end).

Section Statements.
Context `{Schema}.

Definition put_rows (table : string) (rows : list Row) : tx unit :=
  fun db => match commit_rows db table rows with Some db => (inr tt, db) | None => (inl DatabaseRefused, db) end.

(** [select … from table where …]: the rows, in the table's order. *)
Definition select_rows (table : string) (where_ : Predicate) : tx (list Row) :=
  Eff.gets (fun db => List.filter (matches where_) (rows_of db table)).

(** [insert into table …]: the row written. *)
Definition insert_row (table : string) (values : Values) : tx Row :=
  rows ← Eff.gets (fun db => rows_of db table);
  let row := set_values values (defaults table) in
  _ ← put_rows table (rows ++ [row]); mret row.

(** Two rows conflict on an index when they agree on each of its columns, none of them null. *)
Definition conflicts (columns : list string) (a b : Row) : bool :=
  forallb (fun column => match a !! column with Some value => bool_decide (b !! column = Some value) | None => false end) columns.

(** [insert … on conflict (columns) do nothing]: the row, unless one conflicts. *)
Definition insert_row_on_conflict (table : string) (values : Values) (columns : list string) : tx (option Row) :=
  if negb (unique_index table columns) then Eff.throw DatabaseRefused
  else
    rows ← Eff.gets (fun db => rows_of db table);
    if existsb (conflicts columns (set_values values (defaults table))) rows then mret None
    else row ← insert_row table values; mret (Some row).

(** [set …, version = version + 1] of one row. *)
Definition changed_row (changes : Values) (version : option string) (row : Row) : option Row :=
  match version with
  | None => Some (set_values changes row)
  | Some version =>
      match row !! version with
      | None => Some (set_values changes row)
      | Some old => new ← plus_one old; Some (<[version := new]> (set_values changes row))
      end
  end.

(** The rows of a table after an update, and those it changed. *)
Fixpoint updated_rows (changes : Values) (version : option string) (where_ : Predicate) (rows : list Row) : option (list Row * list Row) :=
  match rows with
  | [] => Some ([], [])
  | row :: rows =>
      '(all, changed) ← updated_rows changes version where_ rows;
      if matches where_ row then new ← changed_row changes version row; Some (new :: all, new :: changed) else Some (row :: all, changed)
  end.

(** [update table set … where …]: the rows changed, as they are now. *)
Definition update_rows (table : string) (changes : Values) (version : option string) (where_ : Predicate) : tx (list Row) :=
  rows ← Eff.gets (fun db => rows_of db table);
  match updated_rows changes version where_ rows with
  | None => Eff.throw DatabaseRefused
  | Some (all, changed) => _ ← put_rows table all; mret changed
  end.

(** [delete from table where …]: the rows deleted. *)
Definition delete_rows (table : string) (where_ : Predicate) : tx (list Row) :=
  rows ← Eff.gets (fun db => rows_of db table);
  _ ← put_rows table (List.filter (fun row => negb (matches where_ row)) rows);
  mret (List.filter (matches where_) rows).

(** ** One row at a time *)

Definition stampInsert (context : TableContext) (principal : string) (values : Values) (key keyValue : string) : Values :=
  let values := <[key := Some (PText keyValue)]> values in
  let values := match t_version (ctx_model context) with Some version => <[version := Some (PInteger 1)]> values | None => values end in
  match t_createdBy (ctx_model context) with Some createdBy => <[createdBy := Some (PText principal)]> values | None => values end.

Definition stampChain (values : Values) (entries : list (Container * string)) : Values :=
  fold_left (fun values entry => <[link_column entry.1 := Some (PText entry.2)]> values) entries values.

(** [expected] is the [expectVersion] of the first option, when it is a primitive. *)
Definition versionArgument (context : TableContext) (expected : option Primitive) : checked (option Predicate) :=
  match t_version (ctx_model context), expected with
  | None, _ => mret None
  | Some version, Some (PInteger z) => _ ← ensure (isSafeInteger z) (QueryRefused "version_required"); mret (Some (Equals version (PInteger z)))
  | Some _, _ => fails (QueryRefused "version_required")
  end.

Definition scopedWhere (conditions : option Predicate) (scope : Predicate) : Predicate :=
  match conditions with None => scope | Some conditions => And conditions scope end.

(** What a read answers of a row. *)
Definition project (columns : list string) (row : Row) : list (string * option Primitive) := map (fun column => (column, row !! column)) columns.

(** A finished select: the columns chosen, or the table's visible ones, and what the caller's conditions say of a row. *)
Record Select := mkSelect { sel_columns : option (list string); sel_conditions : Row -> bool }.

Definition selectRows (context : TableContext) (scope : option Predicate) (state : Select) (visible : list string) : tx (list (list (string * option Primitive))) :=
  match scope with
  | None => mret []
  | Some scope =>
      rows ← select_rows (t_name (ctx_model context)) scope;
      mret (map (project (default visible (sel_columns state))) (List.filter (sel_conditions state) rows))
  end.

Definition selectOne (context : TableContext) (scope : Predicate) (visible : list string) : tx (list (string * option Primitive)) :=
  rows ← select_rows (t_name (ctx_model context)) scope;
  match rows with [] => Eff.throw NotFoundError | row :: _ => mret (project visible row) end.

(** [guard], of a statement other than a select. *)
Definition write_guard (context : TableContext) : checked unit := ensure (negb (t_view (ctx_model context))) (QueryRefused "read_only").

Definition checkVersion (context : TableContext) (ack : Acknowledgement) : checked unit :=
  match t_version (ctx_model context) with
  | None => mret tt
  | Some _ => match ack_version ack with Some (PInteger z) => ensure (isSafeInteger z) Misdeclared | _ => fails Misdeclared end
  end.

(** [referenceFiles] without a binding: a write of a file column throws. *)
Definition referenceFiles (model : TableModel) (values : Values) : checked unit :=
  ensure (negb (existsb (fun column => match values !! column.1 with Some (Some (PText _)) => true | _ => false end) (t_files model))) (QueryRefused "file_value").

Definition lockDestination (context : TableContext) (grant : RefGrant) : tx unit :=
  match ctx_destination context with
  | None => mret tt
  | Some owner =>
      self ← lift (selfLinks owner); values ← lift (linkValues self grant); scope ← lift (linksPredicate values); _ ← lift (keyOf owner);
      rows ← select_rows (t_name owner) scope;
      match rows with [] => Eff.throw NotFoundError | _ => mret tt end
  end.

(** [lockDestination], of a write that has one. *)
Definition lock_given (context : TableContext) (destination : option RefGrant) : tx unit :=
  match destination with Some grant => lockDestination context grant | None => mret tt end.

Definition answer (context : TableContext) (row : Row) : checked Acknowledgement :=
  key ← keyOf (ctx_model context); mret (acknowledgement key (t_version (ctx_model context)) row).

Definition insertRow (context : TableContext) (values : Values) (destination : option RefGrant) : tx Acknowledgement :=
  Eff.transaction (
    _ ← lock_given context destination;
    _ ← lift (keyOf (ctx_model context));
    _ ← lift (write_guard context);
    row ← insert_row (t_name (ctx_model context)) values;
    ack ← lift (answer context row);
    _ ← lift (checkVersion context ack);
    _ ← lift (referenceFiles (ctx_model context) values);
    mret ack).

(** The rows a write addresses: the scope, and the caller's conditions beside it. *)
Record Addressed := mkAddressed { ad_scope : Predicate; ad_conditions : option Predicate }.

Definition addressed (scope : Predicate) : Addressed := mkAddressed scope None.

Definition conditionsWith (target : Addressed) (expectedVersion : option Predicate) : option Predicate :=
  match ad_conditions target, expectedVersion with
  | None, _ => expectedVersion
  | Some conditions, None => Some conditions
  | Some conditions, Some expected => Some (And conditions expected)
  end.

(** A write of no row: 409 under [expectVersion] when the row is still there, else 404. *)
Definition missingOrChanged {A} (context : TableContext) (target : Addressed) (expectedVersion : option Predicate) : tx A :=
  match expectedVersion with
  | None => Eff.throw NotFoundError
  | Some _ =>
      existing ← select_rows (t_name (ctx_model context)) (scopedWhere (ad_conditions target) (ad_scope target));
      match existing with [] => Eff.throw NotFoundError | _ => Eff.throw ConflictError end
  end.

(** The statement of an update: one that sets nothing reads the acknowledgement. *)
Definition update_statement (context : TableContext) (changes : Values) (where_ : Predicate) : tx (list Row) :=
  let model := ctx_model context in
  if bool_decide (changes = ∅) then select_rows (t_name model) where_
  else _ ← lift (write_guard context); update_rows (t_name model) changes (t_version model) where_.

Definition updateRow (context : TableContext) (target : Addressed) (changes : Values) (expectedVersion : option Predicate) (destination : option RefGrant)
    : tx Acknowledgement :=
  _ ← lift (keyOf (ctx_model context));
  Eff.transaction (
    _ ← lock_given context destination;
    rows ← update_statement context changes (scopedWhere (conditionsWith target expectedVersion) (ad_scope target));
    match rows with
    | row :: _ =>
        ack ← lift (answer context row);
        _ ← lift (checkVersion context ack);
        _ ← lift (referenceFiles (ctx_model context) changes);
        mret ack
    | [] => missingOrChanged context target expectedVersion
    end).

Definition removeRow (context : TableContext) (target : Addressed) (expectedVersion : option Predicate) : tx unit :=
  _ ← lift (keyOf (ctx_model context));
  Eff.transaction (
    _ ← lift (write_guard context);
    rows ← delete_rows (t_name (ctx_model context)) (scopedWhere (conditionsWith target expectedVersion) (ad_scope target));
    match rows with [] => missingOrChanged context target expectedVersion | _ => mret tt end).

(** *** Inserts *)

Record OnConflict := mkOnConflict { oc_columns : list string; oc_update : bool; oc_updates : Values }.

(** [plainOptions]: a plain object's own data properties, each of [allowed]. *)
Fixpoint plain_fields (allowed : list string) (fields : list (string * option Input)) : checked (list (string * Input)) :=
  match fields with
  | [] => mret []
  | (key, value) :: fields =>
      _ ← ensure (Js.elem key allowed) (QueryRefused "invalid_argument");
      match value with
      | None => invalid_argument
      | Some value => fields ← plain_fields allowed fields; mret ((key, value) :: fields)
      end
  end.

Definition plainOptions (value : Input) (allowed : list string) : checked (list (string * Input)) :=
  match value with ObjectOf _ fields => plain_fields allowed fields | _ => invalid_argument end.

(** [ownEntry]: [undefined] when there is none. *)
Definition ownEntry (fields : list (string * Input)) (key : string) : Input := default Undefined (lookup_field key fields).

Fixpoint conflict_columns (model : TableModel) (items : list Input) : checked (list string) :=
  match items with
  | [] => mret []
  | Prim (PText name) :: items =>
      _ ← ensure (Js.elem name (t_columns model)) (QueryRefused "on_conflict");
      _ ← ensure (negb (Js.elem name (t_json model))) (QueryRefused "on_conflict");
      names ← conflict_columns model items; mret (name :: names)
  | _ => fails (QueryRefused "on_conflict")
  end.

(** The values given for the table's update columns. *)
Definition updates_of (model : TableModel) (given : Values) : Values := filter (fun entry => entry.1 ∈ t_update model) given.

Definition onConflictOf (context : TableContext) (options : Input) (action : string) (given : Values) : checked (option OnConflict) :=
  let model := ctx_model context in
  match options with
  | Undefined => mret None
  | _ =>
      read ← plainOptions options ["onConflict"];
      match ownEntry read "onConflict" with
      | Undefined => mret None
      | input =>
          conflict ← plainOptions input ["columns"; "do"];
          columns ← match ownEntry conflict "columns" with ArrayOf items => conflict_columns model items | _ => fails (QueryRefused "on_conflict") end;
          _ ← ensure (0 <? length columns)%nat (QueryRefused "on_conflict");
          match ownEntry conflict "do" with
          | Prim (PText mode) =>
              if (mode =? "nothing")%string then mret (Some (mkOnConflict columns false ∅))
              else if (mode =? "update")%string then
                _ ← ensure (Js.elem action (act_update (t_actions model))) (CapabilityError "wrong_action");
                mret (Some (mkOnConflict columns true (updates_of model given)))
              else fails (QueryRefused "on_conflict")
          | _ => fails (QueryRefused "on_conflict")
          end
      end
  end.

(** Each of [columns] equals its value in the insert; one it leaves empty is refused. *)
Fixpoint equal_columns (values : Values) (columns : list string) : checked (list Predicate) :=
  match columns with
  | [] => mret []
  | name :: columns =>
      match values !! name with
      | Some (Some value) => rest ← equal_columns values columns; mret (Equals name value :: rest)
      | _ => fails (QueryRefused "on_conflict")
      end
  end.

(** The containment columns an insert stamps: the chain's, or a top-level object's own key. *)
Definition containment_columns (model : TableModel) : list string :=
  map link_column (chain model) ++ match t_scope model with ScopeDimension _ key None => [key] | _ => [] end.

Definition insertedScope (context : TableContext) (values : Values) : checked Predicate :=
  terms ← equal_columns values (containment_columns (ctx_model context));
  match terms with [] => mret Everything | _ => allOf terms end.

(** What an insert answers: [None] of the acknowledgement is [{ inserted: false }] alone. *)
Record Inserted := mkInserted { acknowledged : option Acknowledgement; inserted : bool }.

Fixpoint insert_attempts (attempts : nat) (context : TableContext) (values : Values) (conflict : OnConflict) (matching : list Predicate) (scope : option Predicate)
    : tx Inserted :=
  let model := ctx_model context in
  match attempts with
  | O => Eff.throw ConflictError
  | S attempts =>
      _ ← lift (keyOf model);
      _ ← lift (write_guard context);
      row ← insert_row_on_conflict (t_name model) values (oc_columns conflict);
      match row with
      | Some row =>
          ack ← lift (answer context row); _ ← lift (checkVersion context ack); _ ← lift (referenceFiles model values);
          mret (mkInserted (Some ack) true)
      | None =>
          match scope with
          | None => mret (mkInserted None false)
          | Some scope =>
              where_ ← lift (allOf matching);
              rows ← update_statement context (oc_updates conflict) (scopedWhere (Some where_) scope);
              match rows with
              | row :: _ =>
                  ack ← lift (answer context row); _ ← lift (checkVersion context ack); _ ← lift (referenceFiles model (oc_updates conflict));
                  mret (mkInserted (Some ack) false)
              | [] => insert_attempts attempts context values conflict matching (Some scope)
              end
          end
      end
  end.

Definition insertOnConflict (context : TableContext) (values : Values) (conflict : OnConflict) : tx Inserted :=
  matching ← lift (equal_columns values (oc_columns conflict));
  scope ← lift (if oc_update conflict then scope ← insertedScope context values; mret (Some scope) else mret None);
  insert_attempts 2 context values conflict matching scope.

(** An insert's row, the destination it locks, and what it does on a conflict. *)
Record PreparedInsert := mkPrepared { pi_row : Values; pi_destination : option RefGrant; pi_conflict : option OnConflict }.

Definition insertPrepared (context : TableContext) (prepared : PreparedInsert) : tx Inserted :=
  match pi_conflict prepared with
  | None => ack ← insertRow context (pi_row prepared) (pi_destination prepared); mret (mkInserted (Some ack) true)
  | Some conflict => Eff.transaction (_ ← lock_given context (pi_destination prepared); insertOnConflict context (pi_row prepared) conflict)
  end.

End Statements.

(** ** The handles

    [uuid] is the key [uuidv7] makes. *)

Section Handles.
Context `{Schema, NumberText} {Cap : Type} `{CapabilityAuthority Cap}.

Definition prepareDimensionInsert (context : TableContext) (target : Cap) (values options : Input) (uuid : string) : checked PreparedInsert :=
  let model := ctx_model context in
  scope ← dimensionScope model;
  grant ← refGrant context target (listDimension scope) OpInsert;
  row ← readValues values (t_insert model) model;
  conflict ← onConflictOf context options (r_action grant) row;
  match ds_container scope with
  | None =>
      _ ← linkValues [mkContainer (ds_dimension scope) (ds_key scope)] grant;
      mret (mkPrepared (stampInsert context (r_principal grant) row (ds_key scope) (r_id grant)) None conflict)
  | Some _ =>
      entries ← linkValues (chain model) grant;
      mret (mkPrepared (stampChain (stampInsert context (r_principal grant) row (ds_key scope) uuid) entries) (Some grant) conflict)
  end.

Definition prepareApplicationInsert (context : TableContext) (capability : Cap) (values options : Input) (uuid : string) : checked PreparedInsert :=
  let model := ctx_model context in
  grant ← appGrant context capability OpInsert;
  row ← readValues values (t_insert model) model;
  conflict ← onConflictOf context options (a_action grant) row;
  key ← keyOf model;
  mret (mkPrepared (stampInsert context (a_principal grant) row key uuid) None conflict).

Definition prepareChildInsert (context : TableContext) (parent : Cap) (values options : Input) (uuid : string) : checked PreparedInsert :=
  let model := ctx_model context in
  scope ← childScope context;
  grant ← refGrant context parent (ds_dimension (cs_parent scope)) OpInsert;
  row ← readValues values (t_insert model) model;
  conflict ← onConflictOf context options (r_action grant) row;
  entries ← linkValues (chain model) grant;
  mret (mkPrepared (stampChain (stampInsert context (r_principal grant) row (cs_key scope) uuid) entries) (Some grant) conflict).

(** [insertIntoDimension], [insertIntoApplication] and [insertIntoChild]. *)
Definition insert_prepared_row (context : TableContext) (prepared : checked PreparedInsert) : tx Acknowledgement :=
  prepared ← lift prepared; insertRow context (pi_row prepared) (pi_destination prepared).

Definition insertIntoDimension (context : TableContext) (target : Cap) (values : Input) (uuid : string) : tx Acknowledgement :=
  insert_prepared_row context (prepareDimensionInsert context target values Undefined uuid).

Definition insertIntoApplication (context : TableContext) (capability : Cap) (values : Input) (uuid : string) : tx Acknowledgement :=
  insert_prepared_row context (prepareApplicationInsert context capability values Undefined uuid).

Definition insertIntoChild (context : TableContext) (parent : Cap) (values : Input) (uuid : string) : tx Acknowledgement :=
  insert_prepared_row context (prepareChildInsert context parent values Undefined uuid).

Definition update_target (context : TableContext) (scope : checked Predicate) (values : Input) (expected : option Primitive) : tx Acknowledgement :=
  let model := ctx_model context in
  scope ← lift scope;
  changes ← lift (readValues values (t_update model) model);
  version ← lift (versionArgument context expected);
  updateRow context (addressed scope) changes version None.

Definition remove_target (context : TableContext) (scope : checked Predicate) : tx unit :=
  scope ← lift scope; removeRow context (addressed scope) None.

(** [DimensionTable] *)

Definition DimensionTable_select (context : TableContext) (within : Cap) (state : Select) : tx (list (list (string * option Primitive))) :=
  scope ← lift (dimensionListPredicate context within OpRead); selectRows context scope state (t_visible (ctx_model context)).

Definition DimensionTable_get (context : TableContext) (ref : Cap) : tx (list (string * option Primitive)) :=
  scope ← lift (objectPredicate context ref OpRead); selectOne context scope (t_visible (ctx_model context)).

Definition DimensionTable_update (context : TableContext) (ref : Cap) (values : Input) (expected : option Primitive) : tx Acknowledgement :=
  update_target context (objectPredicate context ref OpUpdate) values expected.

Definition DimensionTable_remove (context : TableContext) (ref : Cap) : tx unit := remove_target context (objectPredicate context ref OpDelete).

Definition DimensionTable_move (context : TableContext) (ref to : Cap) : tx (Acknowledgement * list (string * string)) :=
  let model := ctx_model context in
  own ← lift (dimensionScope model);
  match ds_container own with
  | None => Eff.throw (CapabilityError "table_kind")
  | Some container =>
      scope ← lift (objectPredicate context ref OpDelete);
      target ← lift (refGrant context to (link_dimension container) OpInsert);
      values ← lift (linkValues (chain model) target);
      ack ← updateRow context (addressed scope) (stampChain ∅ values) None (Some target);
      mret (ack, map (fun entry => (link_dimension entry.1, entry.2)) values)
  end.

(** [ChildTable] *)

Definition ChildTable_select (context : TableContext) (scope : Cap) (state : Select) : tx (list (list (string * option Primitive))) :=
  predicate ← lift (childListPredicate context scope OpRead); selectRows context predicate state (t_visible (ctx_model context)).

Definition ChildTable_get (context : TableContext) (parent : Cap) (key : option string) : tx (list (string * option Primitive)) :=
  scope ← lift (childObjectPredicate context parent key OpRead); selectOne context scope (t_visible (ctx_model context)).

Definition ChildTable_update (context : TableContext) (parent : Cap) (key : option string) (values : Input) (expected : option Primitive) : tx Acknowledgement :=
  update_target context (childObjectPredicate context parent key OpUpdate) values expected.

Definition ChildTable_remove (context : TableContext) (parent : Cap) (key : option string) : tx unit :=
  remove_target context (childObjectPredicate context parent key OpDelete).

(** The operations of an application table ([appProbeOf]). *)

Definition every (context : TableContext) (capability : Cap) : checked Predicate :=
  grant ← resolve capability;
  match grant with GrantApp _ => appListPredicate context capability | _ => scopedApplicationRead context capability end.

Definition app_get (context : TableContext) (capability : Cap) (key : option string) : tx (list (string * option Primitive)) :=
  grant ← lift (resolve capability);
  scope ← lift match grant with
               | GrantApp _ => appRowPredicate context capability key OpRead
               | _ => _ ← scopedApplicationRead context capability; appKeyPredicate (ctx_model context) key
               end;
  selectOne context scope (t_visible (ctx_model context)).

Definition app_select (context : TableContext) (capability : Cap) : tx (list (list (string * option Primitive))) :=
  scope ← lift (every context capability); selectRows context (Some scope) (mkSelect None (fun _ => true)) (t_visible (ctx_model context)).

Definition app_update (context : TableContext) (capability : Cap) (key : option string) (values : Input) (expected : option Primitive) : tx Acknowledgement :=
  update_target context (appRowPredicate context capability key OpUpdate) values expected.

Definition app_remove (context : TableContext) (capability : Cap) (key : option string) : tx unit :=
  remove_target context (appRowPredicate context capability key OpDelete).

(** ** The locator *)

Definition locatedOwner (models : TableModels) (dimension : string) : checked TableModel :=
  match ownerOf models dimension with Some owner => mret owner | None => fails (QueryRefused "unknown_table") end.

Fixpoint located_chain (links : list Container) (row : Row) : checked (list (string * string)) :=
  match links with
  | [] => mret []
  | link :: links =>
      match row !! link_column link with
      | Some (PText value) => rest ← located_chain links row; mret ((link_dimension link, value) :: rest)
      | _ => fails Misdeclared
      end
  end.

(** The containment of an object: [None] when it is not there. *)
Definition locateObject (models : TableModels) (dimension id : string) : tx (option (list (string * string))) :=
  owner ← lift (locatedOwner models dimension);
  _ ← lift (ensure (negb (id =? "")%string) (QueryRefused "row_address"));
  key ← lift (keyOf owner);
  rows ← select_rows (t_name owner) (Equals key (PText id));
  match rows with [] => mret None | row :: _ => found ← lift (located_chain (chain owner) row); mret (Some found) end.

End Handles.

(** ** Laws of the database *)

(** A statement leaves its table's rows as it says (no trigger or cascade rewrites them), and [+ 1] counts an [INTEGER]. *)
Class SchemaLaws `{Schema} := {
  commit_keeps db table rows db' : commit_rows db table rows = Some db' -> rows_of db' table = rows;
  plus_one_integer z : (z < 2 ^ 31 - 1)%Z -> plus_one (PInteger z) = Some (PInteger (z + 1));
  plus_one_bounded z new : plus_one (PInteger z) = Some new -> new = PInteger (z + 1);
}.

(** *** Running *)

Lemma lift_bind {A B} (m : checked A) (f : A -> tx B) db : (lift m ≫= f) db = match m with inl e => (inl e, db) | inr a => f a db end.
Proof. by destruct m. Qed.

Lemma gets_bind {A B} (g : Database -> A) (f : A -> tx B) db : (Eff.gets g ≫= f) db = f (g db) db.
Proof. done. Qed.

Lemma select_rows_inr table w db rows db' : select_rows table w db = (inr rows, db') -> rows = List.filter (matches w) (rows_of db table) /\ db' = db.
Proof. unfold select_rows, Eff.gets. by intros [= <- <-]. Qed.

(** Takes apart a run that answered. *)
Ltac ran :=
  repeat match goal with
  | H : @mbind _ _ _ _ _ _ _ = (inr _, _) |- _ => apply eff_bind_inr in H as (? & ? & ? & H)
  | H : lift _ _ = (inr _, _) |- _ => apply lift_inr in H as [? ->]
  | H : @mret _ _ _ _ _ = (inr _, _) |- _ => injection H as ? ?
  | H : Eff.gets _ _ = (inr _, _) |- _ => injection H as ? ?
  | H : @mret _ _ _ _ = inr _ |- _ => injection H as ?
  end.

(** *** What changes nothing *)

Definition reads_only {A} (m : tx A) : Prop := forall db, (m db).2 = db.

Lemma reads_bind {A B} (m : tx A) (f : A -> tx B) : reads_only m -> (forall a, reads_only (f a)) -> reads_only (m ≫= f).
Proof.
  intros Hm Hf db. unfold mbind, eff_bind. specialize (Hm db). destruct (m db) as [[e'|a] db1]; cbn in Hm; subst db1; [done|apply Hf].
Qed.

Lemma reads_lift {A} (m : checked A) : reads_only (lift m).
Proof. by destruct m. Qed.

(** *** Statements *)

Section Rows.
Context `{Schema, !SchemaLaws}.

Lemma updated_rows_spec changes version w rows all changed : updated_rows changes version w rows = Some (all, changed) ->
  Forall2 (fun old new => if matches w old then changed_row changes version old = Some new /\ new ∈ changed else new = old) rows all
  /\ (changed = [] <-> forall row, row ∈ rows -> matches w row = false)
  /\ Forall (fun new => exists old, old ∈ rows /\ matches w old = true /\ changed_row changes version old = Some new) changed.
Proof.
  revert all changed. induction rows as [|row rows IH]; intros all changed E; cbn [updated_rows] in E.
  - injection E as <- <-. split_and!; [constructor| |constructor]. split; [by intros _ ? ?%elem_of_nil|done].
  - destruct (updated_rows changes version w rows) as [[all' changed']|] eqn:Eu; [|done]. cbn in E. destruct (IH _ _ eq_refl) as (Hf & He & Hc).
    assert (Hc' : Forall (fun new => exists old, old ∈ row :: rows /\ matches w old = true /\ changed_row changes version old = Some new) changed').
    { eapply Forall_impl; [exact Hc|]. intros new (old & Hin & Ho). exists old. split; [by right|done]. }
    destruct (matches w row) eqn:Em.
    + destruct (changed_row changes version row) as [new|] eqn:En; [|done]. injection E as <- <-. split_and!.
      * constructor; [rewrite Em; split; [done|by left]|]. eapply Forall2_impl; [exact Hf|]. intros old new'. cbn. destruct (matches w old); [|done]. intros [? ?]. split; [done|by right].
      * split; [done|]. intros Hn. specialize (Hn row ltac:(by left)). congruence.
      * constructor; [|done]. exists row. split; [by left|done].
    + injection E as <- <-. split_and!; [constructor; [by rewrite Em|done]| |done]. rewrite He. split.
      * intros Hn r [->|Hr]%elem_of_cons; [done|by apply Hn].
      * intros Hn r Hr. apply Hn. by right.
Qed.

Lemma set_values_lookup (values : gmap string (option Primitive)) (row : gmap string Primitive) column :
  set_values values row !! column = match values !! column with Some given => given | None => row !! column end.
Proof. unfold set_values. rewrite (lookup_merge (M := gmap string)). by destruct (values !! column) as [[]|], (row !! column). Qed.

(** An update changes the columns it sets, and the version. *)
Lemma changed_row_spec changes version old new : changed_row changes version old = Some new ->
  forall column, Some column <> version -> new !! column = match changes !! column with Some given => given | None => old !! column end.
Proof.
  unfold changed_row. intros E column Hc. destruct version as [v|]; [|injection E as <-; by rewrite set_values_lookup].
  destruct (old !! v) as [z|]; [|injection E as <-; by rewrite set_values_lookup]. destruct (plus_one z) as [z'|]; [|done]. injection E as <-.
  rewrite lookup_insert_ne by congruence. by rewrite set_values_lookup.
Qed.

(** An update of an [INTEGER] version adds one to it. *)
Lemma changed_row_version changes v old new z : changed_row changes (Some v) old = Some new -> old !! v = Some (PInteger z) -> new !! v = Some (PInteger (z + 1)).
Proof.
  unfold changed_row. intros E Ev. rewrite Ev in E. destruct (plus_one (PInteger z)) as [z'|] eqn:Ep; [|done]. apply plus_one_bounded in Ep as ->. injection E as <-. by rewrite lookup_insert_eq.
Qed.

Lemma put_rows_inr table rows db u db' : put_rows table rows db = (inr u, db') -> rows_of db' table = rows.
Proof. unfold put_rows. destruct (commit_rows db table rows) as [db1|] eqn:E; [|done]. intros [= _ <-]. by eapply commit_keeps. Qed.

Lemma filter_nil {A} (p : A -> bool) l : List.filter p l = [] <-> forall x, x ∈ l -> p x = false.
Proof.
  induction l as [|x l IH]; cbn [List.filter]; [split; [by intros _ ? ?%elem_of_nil|done]|]. destruct (p x) eqn:E.
  - split; [done|]. intros Hn. specialize (Hn x ltac:(by left)). congruence.
  - rewrite IH. split; [intros Hn y [->|Hy]%elem_of_cons; [done|by apply Hn]|]. intros Hn y Hy. apply Hn. by right.
Qed.

End Rows.

(** ** Reads *)

Lemma selectRows_run context scope state visible db : selectRows context scope state visible db =
  (inr (map (project (default visible (sel_columns state)))
     (List.filter (fun row => holds scope row && sel_conditions state row) (rows_of db (t_name (ctx_model context))))), db).
Proof.
  assert (Hf : forall (p q : Row -> bool) l, List.filter q (List.filter p l) = List.filter (fun row => p row && q row) l).
  { intros p q l. induction l as [|x l IH]; [done|]. cbn [List.filter]. destruct (p x); cbn [List.filter andb]; [destruct (q x); by rewrite IH|done]. }
  unfold selectRows. destruct scope as [scope|]; cbn [holds].
  - unfold select_rows. rewrite gets_bind. cbn. by rewrite Hf.
  - replace (List.filter _ _) with ([] : list Row); [done|]. symmetry. by apply filter_nil.
Qed.

Lemma selectOne_run context scope visible db :
  selectOne context scope visible db =
  (match List.filter (matches scope) (rows_of db (t_name (ctx_model context))) with [] => inl NotFoundError | row :: _ => inr (project visible row) end, db).
Proof. unfold selectOne, select_rows. rewrite gets_bind. by destruct (List.filter _ _). Qed.

Section Reads.
Context `{Schema, NumberText} {Cap : Type} `{CapabilityAuthority Cap}.
Variables (models : TableModels) (name : string) (m : TableModel).
Hypotheses (Hlinked : linked models) (Hin : (name, m) ∈ models).

Lemma model_name : t_name m = name.
Proof. by eapply (linked_each models Hlinked). Qed.

(** The rows a select answers are those its capability authorizes, among those the caller asked for. *)
Lemma select_rows_exact capability p state visible db : allows m capability OpRead p ->
  exists grant (reached : Row -> bool), resolve capability = inr grant /\ grant_action grant ∈ act_read (t_actions m)
    /\ (forall row, reached row = true <-> authorized m grant row)
    /\ selectRows (contextOf models m) p state visible db =
       (inr (map (project (default visible (sel_columns state))) (List.filter (fun row => reached row && sel_conditions state row) (rows_of db name))), db).
Proof.
  intros (g & Er & Ha & Hrows). exists g, (holds p). split_and!; [done|done|done|]. rewrite selectRows_run. cbn [ctx_model contextOf]. by rewrite model_name.
Qed.

End Reads.

(** C26. A select of a dimension or child table changes nothing and answers exactly the rows its capability authorizes, among
    those the caller's conditions hold of, with the columns asked for: a [Ref] lists the rows of its object and of every
    container in its chain, a [Within] the rows in a value it grants, wherever they lie in the containment; and the
    capability's action is one of the table's read actions. *)
Theorem select_exact `{CapabilityAuthority Cap} (models : TableModels) name (m : TableModel) (capability : Cap) state db rows db' :
  linked models -> (name, m) ∈ models ->
  DimensionTable_select (contextOf models m) capability state db = (inr rows, db') \/ ChildTable_select (contextOf models m) capability state db = (inr rows, db') ->
  db' = db /\ exists grant (reached : Row -> bool), resolve capability = inr grant /\ grant_action grant ∈ act_read (t_actions m)
    /\ (forall row, reached row = true <-> authorized m grant row)
    /\ rows = map (project (default (t_visible m) (sel_columns state))) (List.filter (fun row => reached row && sel_conditions state row) (rows_of db name)).
Proof.
  intros Hl Hin [E|E].
  - unfold DimensionTable_select in E. rewrite lift_bind in E. destruct (dimensionListPredicate _ _ _) as [|p] eqn:Ep; [done|].
    apply (dimensionList_exact models name m Hl Hin) in Ep. destruct (select_rows_exact models name m Hl Hin _ _ state (t_visible m) db Ep) as (g & r & Er & Ha & Hr & Es).
    change (t_visible (ctx_model (contextOf models m))) with (t_visible m) in E. rewrite Es in E. injection E as <- <-. split; [done|]. by exists g, r.
  - unfold ChildTable_select in E. rewrite lift_bind in E. destruct (childListPredicate _ _ _) as [|p] eqn:Ep; [done|].
    apply (childList_exact models name m Hl Hin) in Ep. destruct (select_rows_exact models name m Hl Hin _ _ state (t_visible m) db Ep) as (g & r & Er & Ha & Hr & Es).
    change (t_visible (ctx_model (contextOf models m))) with (t_visible m) in E. rewrite Es in E. injection E as <- <-. split; [done|]. by exists g, r.
Qed.

Definition demo_db : Database :=
  {["projects" := [{["id" := PText "p1"; "org_id" := PText "o1"; "rev" := PInteger 1]}; {["id" := PText "p2"; "org_id" := PText "o2"; "rev" := PInteger 4]}];
    "tasks" := [demo_task "t1" "p1" "o1"; demo_task "t2" "p2" "o2"; demo_task "t3" "p3" "o1"]]}.

Definition demo_ref (action : string) : CapabilityGrant := GrantRef (mkRef "project" action "u1" "p1" [("org", "o1")]).

Lemma select_exact_witness :
  (ChildTable_select (H1 := demo_authority) (contextOf demo_models (demo_model "tasks")) (demo_ref "notes.read") (mkSelect (Some ["id"]) (fun _ => true)) demo_db).1
    = inr [[("id", Some (PText "t1"))]] /\
  exists reached : Row -> bool, reached (demo_task "t3" "p3" "o1") = false /\ forall row, reached row = true <-> authorized (demo_model "tasks") (demo_ref "notes.read") row.
Proof.
  destruct (ChildTable_select (H1 := demo_authority) (contextOf demo_models (demo_model "tasks")) (demo_ref "notes.read") (mkSelect (Some ["id"]) (fun _ => true)) demo_db)
    as [[e|rows] db'] eqn:E; [apply (f_equal fst) in E; by vm_compute in E|].
  split; [apply (f_equal fst) in E; rewrite <-E; by vm_compute|].
  destruct (select_exact (H := demo_authority) demo_models "tasks" (demo_model "tasks") _ _ _ _ _ demo_linked (demo_in "tasks" eq_refl) (or_intror E)) as (_ & g & r & Er & _ & Hr & _).
  injection Er as <-. exists r. split; [|done]. destruct (r (demo_task "t3" "p3" "o1")) eqn:Et; [|done]. apply Hr in Et as [(link & Hlink & Hd & Hv) _].
  assert (El : links (demo_model "tasks") = [mkContainer "project" "project_id"; mkContainer "org" "org_id"]) by (by vm_compute).
  rewrite El, !elem_of_cons, elem_of_nil in Hlink. destruct Hlink as [->|[->|[]]]; by vm_compute in Hv, Hd.
Defined.

(** ** One object *)

Lemma located_chain_spec l row found : located_chain l row = inr found ->
  map fst found = map link_dimension l /\
  forall link, link ∈ l -> exists value, (link_dimension link, value) ∈ found /\ row !! link_column link = Some (PText value).
Proof.
  revert found. induction l as [|link l IH]; intros found E; cbn [located_chain] in E.
  - injection E as <-. split; [done|]. by intros ? ?%elem_of_nil.
  - destruct (row !! link_column link) as [[value| | | | |]|] eqn:Ev; try done. apply checked_bind_inr in E as (rest & Er & E). injection E as <-.
    apply IH in Er as [En Hr]. split; [cbn; by f_equal|]. intros link' [->|Hin]%elem_of_cons; [exists value; split; [by left|done]|].
    destruct (Hr _ Hin) as (v & Hv & Hrow). exists v. split; [by right|done].
Qed.

Lemma chain_values_total carried l : NoDup (map fst carried) -> (forall link, link ∈ l -> exists value, (link_dimension link, value) ∈ carried) ->
  exists values, chain_values carried l = inr values.
Proof.
  intros Hd. induction l as [|link l IH]; intros Hl; cbn [chain_values]; [by eexists|]. destruct (Hl link) as (v & Hv); [by left|].
  unfold chainValue. rewrite (in_lookup_field _ _ _ Hd Hv). destruct IH as (values & Ev); [intros; apply Hl; by right|]. eexists. cbn. by rewrite Ev.
Qed.

Section Located.
Context {Cap : Type} `{CapabilityAuthority Cap}.
Variables (models : TableModels) (name : string) (m : TableModel).
Hypotheses (Hlinked : linked models) (Hin : (name, m) ∈ models).

Lemma owner_found d key up : t_scope m = ScopeDimension d key up -> ownerOf models d = Some m.
Proof.
  intros Es. unfold ownerOf. destruct (List.find (is_owner d) (map snd models)) as [o|] eqn:Ef.
  - apply find_some in Ef as [Ho Hd]. apply in_map_iff in Ho as ([n o'] & <- & Ho). apply list_elem_of_In in Ho. unfold is_owner in Hd. cbn in Hd.
    destruct (t_scope o') as [d' k' u'| | |] eqn:Eo; try done. apply String.eqb_eq in Hd as ->. f_equal. by eapply (linked_owner models Hlinked).
  - exfalso. eapply find_none in Ef; [|apply in_map_iff; exists (name, m); split; [done|by apply list_elem_of_In]]. unfold is_owner in Ef. cbn in Ef. by rewrite Es, String.eqb_refl in Ef.
Qed.

(** A [Ref] with the chain the locator answered names its object: the check of its chain passes. *)
Lemma located_predicate capability d key up action principal id found row : t_scope m = ScopeDimension d key up ->
  resolve capability = inr (GrantRef (mkRef d action principal id found)) -> action ∈ act_read (t_actions m) ->
  located_chain (chain m) row = inr found -> row !! key = Some (PText id) ->
  exists p, objectPredicate (contextOf models m) capability OpRead = inr p /\ matches p row = true /\ forall other, matches p other = true -> other !! key = Some (PText id).
Proof.
  intros Es Er Ha Hl Hrow. apply located_chain_spec in Hl as [En Hl]. pose proof (in_ok models name m Hlinked Hin) as Hok.
  assert (Hd : NoDup (map fst found)) by (rewrite En; apply Hok). destruct (chain_values_total found (chain m) Hd) as (values & Ev).
  { intros link Hlink. destruct (Hl _ Hlink) as (v & Hv & _). by exists v. }
  assert (Elv : linkValues (mkContainer d key :: chain m) (mkRef d action principal id found) = inr ((mkContainer d key, id) :: values)).
  { cbn [linkValues r_chain r_id]. replace (forallb _ _) with true; [cbn; by rewrite Ev|]. symmetry. apply forallb_forall. intros [d' v] Hf%list_elem_of_In.
    cbn. apply elem_spec. rewrite <-En. apply list_elem_of_fmap. by exists (d', v). }
  assert (Eg : refGrant (contextOf models m) capability d OpRead = inr (mkRef d action principal id found)).
  { unfold refGrant. rewrite Er. cbn [mbind checked_bind]. unfold checkGrant, checkAction, requiredActions. cbn [ctx_model contextOf actions_of r_dimension r_action].
    destruct (act_read (t_actions m)) as [|a actions] eqn:Ea; [by apply elem_of_nil in Ha|]. cbn [mbind checked_bind mret checked_ret]. rewrite String.eqb_refl.
    apply elem_spec in Ha. cbn [ensure mbind checked_bind]. by rewrite Ha. }
  destruct (linksPredicate ((mkContainer d key, id) :: values)) as [|p] eqn:Ep; [done|]. exists p. split_and!.
  - unfold objectPredicate, dimensionScope, selfLinks, dimensionScope. cbn [ctx_model contextOf]. rewrite Es. cbn [mbind checked_bind mret checked_ret ds_dimension ds_key].
    rewrite Eg. cbn [mbind checked_bind]. rewrite Elv. by cbn [mbind checked_bind].
  - apply (linksPredicate_exact _ _ row Ep). intros entry [->|He]%elem_of_cons; [done|]. apply chain_values_spec in Ev as [El Ev]. pose proof (Ev _ He) as Hv.
    assert (Hc : entry.1 ∈ chain m) by (rewrite <-El; apply list_elem_of_fmap; by exists entry). destruct (Hl _ Hc) as (v & Hv' & Hr). apply (in_lookup_field _ _ _ Hd) in Hv'. congruence.
  - intros other Ho. apply (proj1 (linksPredicate_exact _ _ other Ep) Ho (mkContainer d key, id)). by left.
Qed.

End Located.

Lemma find_first {A} (p q : A -> bool) l x rest : List.filter p l = x :: rest -> q x = true -> (forall y, q y = true -> p y = true) -> exists rest', List.filter q l = x :: rest'.
Proof.
  intros E Hq Hqp. induction l as [|y l IH]; [done|]. cbn [List.filter] in E |- *. destruct (p y) eqn:Ep.
  - injection E as -> E. rewrite Hq. by eexists.
  - destruct (q y) eqn:Eq; [|by apply IH]. apply Hqp in Eq. congruence.
Qed.

(** The locator and the handles agree: the chain [locateObject] answers for an object is the one its [Ref] needs. A
    capability minted with it reads the object now, the very row that was located, and locating an id no row has answers
    nothing, so that a [Ref] of it is a 404 whatever chain it carries. Neither changes the database. *)
Theorem located_ref_reads `{CapabilityAuthority Cap} (models : TableModels) name (m : TableModel) (capability : Cap) d key up action principal id carried found db db' :
  linked models -> (name, m) ∈ models -> t_scope m = ScopeDimension d key up ->
  resolve capability = inr (GrantRef (mkRef d action principal id carried)) -> action ∈ act_read (t_actions m) ->
  locateObject models d id db = (inr found, db') ->
  db' = db /\
  match found with
  | Some chain => carried = chain -> exists row, row ∈ rows_of db name /\ row !! key = Some (PText id)
      /\ DimensionTable_get (contextOf models m) capability db = (inr (project (t_visible m) row), db)
  | None => forall fields, DimensionTable_get (contextOf models m) capability db <> (inr fields, db)
  end.
Proof.
  intros Hl Hin Es Er Ha E. pose proof (model_name models name m Hl Hin) as Hname. unfold locateObject, locatedOwner in E. rewrite (owner_found models name m Hl Hin _ _ _ Es) in E.
  apply eff_bind_inr in E as (o & db1 & [[= <-] ->]%lift_inr & E). apply eff_bind_inr in E as (u & db1 & [_ ->]%lift_inr & E).
  apply eff_bind_inr in E as (k & db1 & [Hk%keyOf_spec ->]%lift_inr & E). rewrite Es in Hk. injection Hk as <-.
  apply eff_bind_inr in E as (rows & db1 & [-> ->]%select_rows_inr & E). rewrite <-Hname in *. clear Hname.
  destruct (List.filter _ _) as [|row rest] eqn:Ef in E.
  - injection E as <- <-. split; [done|]. intros fields Hget. unfold DimensionTable_get in Hget. rewrite lift_bind in Hget.
    destruct (objectPredicate _ _ _) as [|p] eqn:Ep; [done|]. destruct (objectPredicate_exact models (t_name m) m Hl Hin _ _ _ Ep) as (g & Er' & _ & Hp). rewrite Er in Er'. injection Er' as <-.
    rewrite selectOne_run in Hget. change (ctx_model (contextOf models m)) with m in Hget.
    replace (List.filter (matches p) _) with ([] : list Row) in Hget; [done|]. symmetry. apply filter_nil. intros row Hrow. destruct (matches p row) eqn:Em; [|done].
    apply (Hp row) in Em as [(link & Hlink & Hd & Hv) _]. rewrite filter_nil in Ef. specialize (Ef row Hrow). cbn in Hd, Hv.
    assert (link = mkContainer d key) as ->.
    { eapply (link_unique (links m)); [apply links_nodup; by eapply in_ok|done| |done]. unfold links. rewrite Es. by left. }
    apply equals_matches in Hv. cbn [link_column] in Hv. congruence.
  - apply eff_bind_inr in E as (found' & db1 & Ec & E). apply lift_inr in Ec as [Ec ->]. injection E as <- <-. split; [done|]. intros ->.
    assert (Hrow : row ∈ List.filter (matches (Equals key (PText id))) (rows_of db (t_name m))) by (rewrite Ef; by left).
    apply list_elem_of_In, filter_In in Hrow as [Hrow Hk%equals_matches]. apply list_elem_of_In in Hrow.
    destruct (located_predicate models (t_name m) m Hl Hin capability d key up action principal id found' row Es Er Ha Ec Hk) as (p & Ep & Hm & Hp). exists row. split_and!; [done|done|].
    unfold DimensionTable_get. rewrite lift_bind, Ep, selectOne_run. change (ctx_model (contextOf models m)) with m.
    destruct (find_first _ (matches p) _ _ _ Ef Hm) as (rest' & ->); [|done]. intros y Hy. apply equals_matches. by apply Hp.
Qed.

Lemma located_ref_reads_witness :
  (DimensionTable_get (H1 := demo_authority) (contextOf demo_models (demo_model "projects")) (demo_ref "notes.read") demo_db).1
    = inr [("id", Some (PText "p1")); ("org_id", Some (PText "o1")); ("title", None); ("rev", Some (PInteger 1))] /\
  exists row : Row, row ∈ rows_of demo_db "projects" /\ row !! "id" = Some (PText "p1").
Proof.
  split; [by vm_compute|].
  destruct (locateObject demo_models "project" "p1" demo_db) as [[e|found] db'] eqn:E; [apply (f_equal fst) in E; by vm_compute in E|].
  destruct (located_ref_reads (H := demo_authority) demo_models "projects" (demo_model "projects") (demo_ref "notes.read") "project" "id"
    (Some (mkContainer "org" "org_id")) "notes.read" "u1" "p1" [("org", "o1")] found demo_db db' demo_linked (demo_in "projects" eq_refl)) as [_ Hf];
    [by vm_compute|done|apply elem_spec; by vm_compute|exact E|].
  apply (f_equal fst) in E. vm_compute in E. injection E as <-. destruct (Hf eq_refl) as (row & Hin & Hk & _). by exists row.
Defined.

(** ** Updates and deletes *)

Lemma reads_lock context destination : reads_only (lock_given context destination).
Proof.
  unfold lock_given, lockDestination. destruct destination as [g|]; [|done]. destruct (ctx_destination context); [|done].
  repeat (apply reads_bind; [apply reads_lift|intros ?]). apply reads_bind; [done|]. intros rows. by destruct rows.
Qed.

(** The rows one handle call addresses: those its capability authorizes, and of a child table the one with the key given. *)
Definition addresses (m : TableModel) (grant : CapabilityGrant) (key : option string) (row : Row) : Prop :=
  authorized m grant row /\ match key with None => True | Some id => exists column, key_of (t_scope m) = Some column /\ row !! column = Some (PText id) end.

(** A scope predicate of one operation holds of exactly the rows the call addresses. *)
Definition scoped_to `{CapabilityAuthority Cap} (m : TableModel) (capability : Cap) (operation : Operation) (key : option string) (scope : Predicate) : Prop :=
  exists grant, resolve capability = inr grant /\ grant_action grant ∈ actions_of m operation /\ forall row, matches scope row = true <-> addresses m grant key row.

Section Updates.
Context `{Schema, !SchemaLaws, NumberText} {Cap : Type} `{CapabilityAuthority Cap}.
Variables (models : TableModels) (name : string) (m : TableModel).
Hypotheses (Hlinked : linked models) (Hin : (name, m) ∈ models).

Lemma object_scoped capability operation scope : objectPredicate (contextOf models m) capability operation = inr scope -> scoped_to m capability operation None scope.
Proof.
  intros E. destruct (objectPredicate_exact models name m Hlinked Hin _ _ _ E) as (g & Er & Ha & Hr). exists g. split_and!; [done|done|]. intros row. unfold addresses. rewrite <-Hr. tauto.
Qed.

Lemma child_scoped parent key operation scope : childObjectPredicate (contextOf models m) parent key operation = inr scope -> scoped_to m parent operation key scope.
Proof.
  intros E. destruct (childObject_exact models name m Hlinked Hin _ _ _ _ E) as (id & column & -> & Hk & q & (g & Er & Ha & Hr) & Hs). exists g. split_and!; [done|done|]. intros row.
  rewrite Hs. unfold addresses. specialize (Hr row). cbn [holds] in Hr. rewrite <-Hr. split.
  - intros [? ?]. split; [done|]. by exists column.
  - intros [? (c & Hc & ?)]. split; [|done]. congruence.
Qed.

Lemma app_scoped capability key operation scope : appRowPredicate (contextOf models m) capability key operation = inr scope -> scoped_to m capability operation key scope.
Proof.
  unfold appRowPredicate. intros E. apply checked_bind_inr in E as (u & _ & E). apply checked_bind_inr in E as (g & Eg & E). apply appGrant_spec in Eg as [Er Ha].
  exists (GrantApp g). split_and!; [done|exact Ha|]. intros row. unfold appKeyPredicate in E. destruct key as [id|]; [|done]. apply checked_bind_inr in E as (u' & _ & E).
  apply checked_bind_inr in E as (column & Hk%keyOf_spec & E). injection E as <-. rewrite equals_matches. cbn [ctx_model contextOf] in Hk. unfold addresses. cbn [authorized]. split.
  - intros Hr. split; [done|]. by exists column.
  - intros [_ (c & Hc & Hr)]. congruence.
Qed.

Lemma update_statement_inr context changes w db rows db' : update_statement context changes w db = (inr rows, db') ->
  (changes = ∅ /\ db' = db /\ rows = List.filter (matches w) (rows_of db (t_name (ctx_model context)))) \/
  (t_view (ctx_model context) = false /\
   updated_rows changes (t_version (ctx_model context)) w (rows_of db (t_name (ctx_model context))) = Some (rows_of db' (t_name (ctx_model context)), rows)).
Proof.
  unfold update_statement. destruct (bool_decide (changes = ∅)) eqn:Eb; [apply bool_decide_eq_true in Eb|].
  - intros [-> ->]%select_rows_inr. by left.
  - intros E. right. rewrite lift_bind in E. unfold write_guard in E. destruct (t_view (ctx_model context)); [done|]. cbn [ensure negb] in E. split; [done|].
    unfold update_rows in E. rewrite gets_bind in E. destruct (updated_rows _ _ _ _) as [[all changed]|]; [|done].
    apply eff_bind_inr in E as (u & db1 & Hp & [= <- <-]). by apply put_rows_inr in Hp as ->.
Qed.

Lemma updateRow_inr context target changes expected destination ack db db' : updateRow context target changes expected destination db = (inr ack, db') ->
  lock_given context destination db = (inr tt, db) /\
  exists row rest, answer context row = inr ack /\ checkVersion context ack = inr tt
    /\ update_statement context changes (scopedWhere (conditionsWith target expected) (ad_scope target)) db = (inr (row :: rest), db').
Proof.
  unfold updateRow. intros E. apply eff_bind_inr in E as (key & db1 & [_ ->]%lift_inr & E%transaction_inr). apply eff_bind_inr in E as ([] & db1 & El & E).
  pose proof (reads_lock context destination db) as Hr. rewrite El in Hr. cbn in Hr. subst db1. split; [done|].
  apply eff_bind_inr in E as (rows & db2 & Es & E). destruct rows as [|row rest].
  - unfold missingOrChanged in E. destruct expected; [|done]. apply eff_bind_inr in E as (existing & ? & _ & E). by destruct existing.
  - apply eff_bind_inr in E as (ack' & ? & [Ea ->]%lift_inr & E). apply eff_bind_inr in E as ([] & ? & [Ev ->]%lift_inr & E).
    apply eff_bind_inr in E as (? & ? & [_ ->]%lift_inr & [= <- <-]). by exists row, rest.
Qed.

Lemma copy_values_keys model fields copied values column : copy_values model fields copied = inr values -> is_Some (values !! column) ->
  column ∈ map fst fields \/ is_Some (copied !! column).
Proof.
  revert copied. induction fields as [|[key v] fields IH]; intros copied E Hc; cbn [copy_values] in E; [injection E as <-; by right|].
  assert (Hone : copy_values model fields copied = inr values \/ exists x, copy_values model fields (<[key := x]> copied) = inr values).
  { destruct v; try (apply checked_bind_inr in E as (x & _ & E); right; by exists x). by left. }
  destruct Hone as [E'|[x E']]; (destruct (IH _ E' Hc) as [Hf|Hf]; [left; by right|]); [by right|].
  destruct (decide (column = key)) as [->|N]; [left; by left|]. rewrite lookup_insert_ne in Hf by done. by right.
Qed.

(** What a write takes sets columns the policy lets it set. *)
Lemma readValues_allowed values allowed model given column : readValues values allowed model = inr given -> is_Some (given !! column) -> column ∈ allowed.
Proof.
  unfold readValues. destruct values as [| | | |holding fields|]; try done. intros E Hc. apply checked_bind_inr in E as (read & Er & E).
  destruct (copy_values_keys _ _ _ _ _ E Hc) as [Hk|Hk]; [|by rewrite lookup_empty in Hk; destruct Hk]. clear E Hc. revert read Er Hk.
  induction fields as [|[key [v|]] fields IH]; intros read Er Hk; cbn [check_keys] in Er; [injection Er as <-; by apply elem_of_nil in Hk| |done].
  apply checked_bind_inr in Er as (u & Ha%ensure_inr & Er). apply checked_bind_inr in Er as (rest & Er & [= <-]). cbn in Hk.
  apply elem_of_cons in Hk as [->|Hk]; [by apply elem_spec|by eapply IH].
Qed.

(** A row keeps what a capability tells it by, when its key and chain are as they were. *)
Lemma authorized_kept grant (old new : Row) : (forall column, column ∈ option_list (key_of (t_scope m)) ++ map link_column (chain m) -> new !! column = old !! column) ->
  authorized m grant old -> authorized m grant new.
Proof.
  intros Hk. assert (Hl : forall d v, lies_in m old d v -> lies_in m new d v).
  { intros d v (link & Hlink & Hd & Hv). exists link. split_and!; [done|done|]. rewrite Hk; [done|]. rewrite elem_of_app. unfold links in Hlink.
    destruct (t_scope m); cbn; [apply elem_of_cons in Hlink as [->|Hlink]; [left; by left|]| | |]; right; apply list_elem_of_fmap; by exists link. }
  destruct grant as [g|g|g|g]; cbn [authorized]; [| |done|].
  - intros [H1' H2']. split; [by apply Hl|]. intros d v Hd. apply Hl. by apply H2'.
  - destruct (w_values g); [|done]. intros (d & v & Hg & Hv). exists d, v. split; [done|by apply Hl].
  - intros (Ht & (key & Hkey & Hv) & Hc). split_and!; [done| |].
    + exists key. split; [done|]. rewrite Hk; [done|]. rewrite Hkey. by left.
    + intros link Hlink. destruct (Hc _ Hlink) as (v & Hf & Hv'). exists v. split; [done|]. rewrite Hk; [done|]. rewrite elem_of_app. right. apply list_elem_of_fmap. by exists link.
Qed.

Lemma addresses_kept grant key (old new : Row) : (forall column, column ∈ option_list (key_of (t_scope m)) ++ map link_column (chain m) -> new !! column = old !! column) ->
  addresses m grant key old -> addresses m grant key new.
Proof.
  intros Hk [Ha Hkey]. split; [by eapply authorized_kept|]. destruct key as [id|]; [|done]. destruct Hkey as (column & Hc & Hv). exists column. split; [done|].
  rewrite Hk; [done|]. rewrite Hc. by left.
Qed.

(** The columns that place a row: neither its policy's update columns nor its version. *)
Lemma placing_columns column : t_view m = false -> column ∈ option_list (key_of (t_scope m)) ++ map link_column (chain m) ->
  column ∉ t_update m /\ t_version m <> Some column.
Proof.
  intros Hv Hc. pose proof (in_ok models name m Hlinked Hin) as Hok. assert (Hs : column ∈ stamped m) by (unfold stamped; rewrite !elem_of_app in *; tauto).
  split; [by apply (stamps_not_updated m Hok Hv)|]. intros Hver. pose proof (stamps_distinct m Hok Hv) as Hd. unfold stamped in Hd. rewrite Hver, app_assoc in Hd.
  apply NoDup_app in Hd as (_ & Hd & _). apply (Hd column); [done|]. by left.
Qed.

(** What an update does to one row it changes. *)
Definition updated_row (grant : CapabilityGrant) (key : option string) (expected : option Primitive) (old new : Row) : Prop :=
  addresses m grant key old /\ addresses m grant key new
  /\ (forall column, column ∉ t_update m -> t_version m <> Some column -> new !! column = old !! column)
  /\ forall version, t_version m = Some version ->
       exists z, expected = Some (PInteger z) /\ old !! version = Some (PInteger z) /\ new !! version = Some (PInteger (z + 1)).

Lemma versionArgument_spec context expected version : versionArgument context expected = inr version ->
  match t_version (ctx_model context) with
  | None => version = None
  | Some column => exists z, expected = Some (PInteger z) /\ version = Some (Equals column (PInteger z))
  end.
Proof.
  unfold versionArgument. destruct (t_version (ctx_model context)) as [column|]; [|by intros [= <-]]. destruct expected as [[| z| | | |]|]; try done.
  intros E. apply checked_bind_inr in E as (u & _ & [= <-]). by exists z.
Qed.

Lemma scoped_where conditions scope row : matches (scopedWhere conditions scope) row = holds (Some (default Everything conditions)) row && matches scope row.
Proof. by destruct conditions. Qed.

Lemma changed_row_updated grant key values changes expected version scope old new : t_view m = false ->
  (forall row, matches scope row = true <-> addresses m grant key row) ->
  readValues values (t_update m) m = inr changes -> versionArgument (contextOf models m) expected = inr version ->
  matches (scopedWhere version scope) old = true -> changed_row changes (t_version m) old = Some new -> updated_row grant key expected old new.
Proof.
  intros Hv Hs Hr Ha Hm Hc. rewrite scoped_where in Hm. apply andb_true_iff in Hm as [Hexp Hm]. apply Hs in Hm.
  assert (Hkeep : forall column, column ∉ t_update m -> t_version m <> Some column -> new !! column = old !! column).
  { intros column Hu Hver. rewrite (changed_row_spec _ _ _ _ Hc) by done. destruct (changes !! column) eqn:Ec; [|done]. destruct Hu. eapply readValues_allowed; [exact Hr|by eexists]. }
  split_and!; [done| |done|].
  - eapply addresses_kept; [|exact Hm]. intros column Hcol. destruct (placing_columns column Hv Hcol). by apply Hkeep.
  - intros column Hver. apply versionArgument_spec in Ha. cbn [ctx_model contextOf] in Ha. rewrite Hver in Ha, Hc. destruct Ha as (z & -> & ->).
    cbn [default holds] in Hexp. apply equals_matches in Hexp. exists z. split_and!; [done|done|]. by eapply changed_row_version.
Qed.

Lemma update_target_spec capability key scope values expected db r db' :
  (forall p, scope = inr p -> scoped_to m capability OpUpdate key p) ->
  update_target (contextOf models m) scope values expected db = (r, db') ->
  match r with
  | inl _ => db' = db
  | inr _ => exists grant, resolve capability = inr grant /\ grant_action grant ∈ act_update (t_actions m) /\
      Forall2 (fun old new => new = old \/ updated_row grant key expected old new) (rows_of db name) (rows_of db' name)
  end.
Proof.
  intros Hscope. unfold update_target. rewrite lift_bind. destruct scope as [e|p]; [by intros [= <- <-]|]. destruct (Hscope p eq_refl) as (g & Er & Ha & Hs).
  rewrite lift_bind. cbn [ctx_model contextOf]. destruct (readValues _ _ _) as [e|changes] eqn:Ev; [by intros [= <- <-]|]. rewrite lift_bind.
  destruct (versionArgument _ _) as [e|version] eqn:Eversion; [by intros [= <- <-]|]. intros E. destruct r as [e|ack].
  - unfold updateRow in E. rewrite lift_bind in E. destruct (keyOf _); [by injection E as <- <-|]. by apply transaction_inl in E as [-> _].
  - apply updateRow_inr in E as (_ & row & rest & _ & _ & E). exists g. split_and!; [done|done|]. rewrite <-(model_name models name m Hlinked Hin).
    apply update_statement_inr in E as [(_ & -> & _)|[Hv E]]; [apply Forall_Forall2_diag, Forall_true; by left|]. cbn [ctx_model contextOf] in E.
    apply updated_rows_spec in E as (Hf & _). eapply Forall2_impl; [exact Hf|]. cbn beta. intros old new Hrow. cbn [conditionsWith addressed ad_conditions ad_scope] in Hrow.
    destruct (matches _ old) eqn:Em; [|by left]. destruct Hrow as [Hc _]. right. by eapply changed_row_updated.
Qed.

End Updates.

(** C3. An update writes only what its capability reaches. When it throws, the database is as it was. When it answers, every
    row of the table is as it was, except rows the capability authorizes (with the key given, in a child or application table), under one of
    the table's update actions; in those only columns the policy lets a handler update have changed, so that they keep
    their key, their whole containment chain, their creator and their queue columns and are still authorized; and where the
    table has a version, each carried exactly the version the caller expected and now carries the next. *)
Theorem update_confined `{Schema, !SchemaLaws, NumberText} {Cap : Type} `{CapabilityAuthority Cap} (models : TableModels) name (m : TableModel) (capability : Cap) key values expected db r db' :
  linked models -> (name, m) ∈ models ->
  (key = None /\ DimensionTable_update (contextOf models m) capability values expected db = (r, db'))
    \/ ChildTable_update (contextOf models m) capability key values expected db = (r, db')
    \/ app_update (contextOf models m) capability key values expected db = (r, db') ->
  match r with
  | inl _ => db' = db
  | inr _ => exists grant, resolve capability = inr grant /\ grant_action grant ∈ act_update (t_actions m) /\
      Forall2 (fun old new => new = old \/ updated_row m grant key expected old new) (rows_of db name) (rows_of db' name)
  end.
Proof.
  intros Hl Hin [[-> E]|[E|E]]; (eapply update_target_spec; [exact Hl|exact Hin| |exact E]); intros p Ep; [by eapply object_scoped|by eapply child_scoped|by eapply app_scoped].
Qed.

Definition demo_schema : Schema := {|
  defaults := fun _ => ∅;
  plus_one := fun value => match value with PInteger z => Some (PInteger (z + 1)) | _ => None end;
  unique_index := fun _ columns => bool_decide (columns = ["id"]);
  commit_rows := fun db table rows => Some (<[table := rows]> db);
|}.

Lemma demo_schema_laws : SchemaLaws (H := demo_schema).
Proof.
  split; cbn.
  - intros db table rows db' [= <-]. unfold rows_of. by rewrite lookup_insert_eq.
  - done.
  - by intros z new [= <-].
Defined.

Definition title (value : Input) : Input := ObjectOf None [("title", Some value)].

Lemma update_confined_witness :
  (DimensionTable_update (H := demo_schema) (H1 := demo_authority) (contextOf demo_models (demo_model "projects")) (demo_ref "notes.write") (title (Prim (PText "New"))) (Some (PInteger 1)) demo_db).1
    = inr (mkAck (Some (PText "p1")) (Some (PInteger 2))) /\
  (DimensionTable_update (H := demo_schema) (H1 := demo_authority) (contextOf demo_models (demo_model "projects")) (demo_ref "notes.write") (title (Prim (PText "New"))) (Some (PInteger 3)) demo_db).1
    = inl ConflictError /\
  exists db' : Database, Forall2 (fun old new => new = old \/ updated_row (demo_model "projects") (demo_ref "notes.write") None (Some (PInteger 1)) old new)
    (rows_of demo_db "projects") (rows_of db' "projects").
Proof.
  split; [by vm_compute|]. split; [by vm_compute|].
  destruct (DimensionTable_update (H := demo_schema) (H1 := demo_authority) (contextOf demo_models (demo_model "projects")) (demo_ref "notes.write") (title (Prim (PText "New"))) (Some (PInteger 1)) demo_db)
    as [[e|ack] db'] eqn:E; [apply (f_equal fst) in E; by vm_compute in E|].
  pose proof (update_confined (H0 := demo_schema_laws) (H2 := demo_authority) demo_models "projects" (demo_model "projects") _ None _ _ _ _ _ demo_linked (demo_in "projects" eq_refl) (or_introl (conj eq_refl E)))
    as (g & Er & _ & Hf). injection Er as <-. by exists db'.
Defined.

(** Induction on a value, through its items and members. *)
Section InputInduction.
Variable P : Input -> Prop.
Hypothesis P_leaf : forall v, match v with ArrayOf _ | ObjectOf _ _ => False | _ => True end -> P v.
Hypothesis P_array : forall items, Forall P items -> P (ArrayOf items).
Hypothesis P_object : forall holding fields, Forall (fun field : string * option Input => match field.2 with Some v => P v | None => True end) fields -> P (ObjectOf holding fields).

Fixpoint Input_nested (v : Input) : P v :=
  match v with
  | ArrayOf items => P_array items ((fix go l : Forall P l :=
      match l with [] => Forall_nil_2 _ | x :: l' => Forall_cons_2 _ _ _ (Input_nested x) (go l') end) items)
  | ObjectOf holding fields => P_object holding fields ((fix go l : Forall (fun field => match field.2 with Some v => P v | None => True end) l :=
      match l with
      | [] => Forall_nil_2 _
      | (key, member) :: l' =>
          Forall_cons_2 _ (key, member) _ (match member as o return match o with Some v => P v | None => True end with Some v => Input_nested v | None => I end) (go l')
      end) fields)
  | Undefined => P_leaf Undefined I
  | Null => P_leaf Null I
  | Prim p => P_leaf (Prim p) I
  | Foreign => P_leaf Foreign I
  end.
End InputInduction.

(** ** What a refusal says *)

(** A check throws neither of the two errors that tell of the rows. *)
Definition refuses {A} (c : checked A) : Prop := match c with inl NotFoundError | inl ConflictError => False | _ => True end.

Lemma refuses_bind {A B} (c : checked A) (f : A -> checked B) : refuses c -> (forall a, c = inr a -> refuses (f a)) -> refuses (c ≫= f).
Proof. destruct c as [[]|a]; cbn; try done. intros _ Hf. by apply Hf. Qed.

Lemma refuses_ensure b code : refuses (ensure b (QueryRefused code)) /\ refuses (ensure b (CapabilityError code)).
Proof. by destruct b. Qed.

(** Walks a check: the class' answer is given, every throw of the code is a refusal. *)
Ltac refusing :=
  repeat first
    [ done | apply refuses_ensure | by eauto with refuses
    | apply refuses_bind; [|intros ? ?] | progress cbn [refuses fails mret checked_ret invalid_value invalid_argument]
    | match goal with |- context [match ?x with _ => _ end] => destruct x eqn:? end ].

Create HintDb refuses.

Lemma refuses_checkGrant context d action d' operation : refuses (checkGrant context d action d' operation).
Proof. unfold checkGrant, checkAction, requiredActions. refusing. Qed.

Lemma refuses_dimensionScope (m : TableModel) : refuses (dimensionScope m).
Proof. unfold dimensionScope. refusing. Qed.

Lemma refuses_childScope context : refuses (childScope context).
Proof. pose proof refuses_dimensionScope. unfold childScope. refusing. Qed.

Lemma refuses_chainValues carried l : refuses (chain_values carried l).
Proof. induction l as [|link l IH]; cbn [chain_values]; [done|]. unfold chainValue. refusing. Qed.

#[export] Hint Resolve refuses_checkGrant refuses_dimensionScope refuses_childScope refuses_chainValues : refuses.

Lemma refuses_linkValues l g : refuses (linkValues l g).
Proof. unfold linkValues. refusing. Qed.

Lemma refuses_linksPredicate values : refuses (linksPredicate values).
Proof. unfold linksPredicate, allOf. refusing. Qed.

#[export] Hint Resolve refuses_linkValues refuses_linksPredicate : refuses.

Section Refuse.
Context `{NumberText} {Cap : Type} `{CapabilityAuthority Cap}.

Lemma refuses_refGrant context (capability : Cap) d operation g : resolve capability = inr g -> refuses (refGrant context capability d operation).
Proof. intros Er. unfold refGrant. rewrite Er. cbn [mbind checked_bind]. refusing. Qed.

Lemma refuses_object context (capability : Cap) operation g : resolve capability = inr g -> refuses (objectPredicate context capability operation).
Proof. intros Er. pose proof (fun d => refuses_refGrant context capability d operation g Er). unfold objectPredicate, selfLinks. refusing. Qed.

Lemma refuses_child context (parent : Cap) key operation g : resolve parent = inr g -> refuses (childObjectPredicate context parent key operation).
Proof.
  intros Er. pose proof (fun d => refuses_refGrant context parent d operation g Er). unfold childObjectPredicate, parentPredicate, allOf. refusing.
Qed.

Lemma refuses_json_text s : refuses (json_text s).
Proof. unfold json_text. refusing. Qed.

Lemma refuses_json_number n : refuses (json_number n).
Proof. unfold json_number. refusing. Qed.

Lemma refuses_written value : forall depth, refuses (written value depth).
Proof.
  pose proof refuses_json_text. pose proof refuses_json_number. induction value as [v Hv|items IH|holding fields IH] using Input_nested; intros depth.
  - destruct v as [| |[]| | |]; try done; cbn [written]; auto.
  - cbn [written]. destruct depth as [|depth]; [done|]. apply refuses_bind; [|done]. induction IH as [|item items Hi _ IH]; [done|]. cbn. refusing.
  - cbn [written]. destruct depth as [|depth]; [done|]. apply refuses_bind; [|done]. induction IH as [|[key member] fields Hi _ IH]; [done|].
    destruct member as [v|]; [|done]. cbn in Hi |- *. destruct v; [exact IH|..]; refusing.
Qed.

Lemma refuses_readValues values allowed model : refuses (readValues values allowed model).
Proof.
  pose proof refuses_written. unfold readValues. destruct values as [| | | |holding fields|]; try done. apply refuses_bind.
  - induction fields as [|[key [v|]] fields IH]; cbn [check_keys]; refusing.
  - intros read _. generalize (∅ : Values). induction read as [|[key v] read IH]; intros copied; cbn [copy_values]; [done|].
    assert (Hone : refuses (read_value model key v)) by (unfold read_value, fileValue, jsonInput, temporalText, or_invalid; refusing).
    destruct v; try apply IH; (apply refuses_bind; [exact Hone|intros; apply IH]).
Qed.

Lemma refuses_app context (capability : Cap) key operation g : resolve capability = inr g -> refuses (appRowPredicate context capability key operation).
Proof.
  intros Er. unfold appRowPredicate, appGrant, checkApplicationTable, checkAppReach, checkRecordReach, checkAction, requiredActions, appKeyPredicate, keyOf.
  apply refuses_bind; [refusing|intros ? _]. rewrite Er. cbn [mbind checked_bind]. refusing.
Qed.

Lemma refuses_versionArgument context expected : refuses (versionArgument context expected).
Proof. unfold versionArgument. refusing. Qed.

End Refuse.

Definition tells_of_rows (e : StoreError) : bool := match e with NotFoundError | ConflictError => true | _ => false end.

Lemma refuses_told {A} (c : checked A) e : refuses c -> c = inl e -> tells_of_rows e = false.
Proof. intros Hc ->. by destruct e. Qed.

Section Outcome.
Context `{Schema, !SchemaLaws}.

Lemma statement_refuses context changes w db e db' : update_statement context changes w db = (inl e, db') -> tells_of_rows e = false.
Proof.
  unfold update_statement, write_guard, update_rows. destruct (bool_decide _); [done|]. rewrite lift_bind. destruct (t_view _); cbn [negb ensure]; [by intros [= <- _]|].
  rewrite gets_bind. destruct (updated_rows _ _ _ _) as [[all changed]|]; [|by intros [= <- _]].
  unfold mbind, eff_bind, put_rows. destruct (commit_rows _ _ _); [done|]. by intros [= <- _].
Qed.

Lemma statement_none context changes w db db' : update_statement context changes w db = (inr [], db') ->
  rows_of db' (t_name (ctx_model context)) = rows_of db (t_name (ctx_model context)) /\ forall row, row ∈ rows_of db (t_name (ctx_model context)) -> matches w row = false.
Proof.
  intros [(_ & -> & Hf)|[_ E]]%update_statement_inr; [split; [done|]; by apply filter_nil|].
  apply updated_rows_spec in E as (Hf & Hn & _). assert (Hno := proj1 Hn eq_refl). split; [|done]. clear - Hf Hno.
  induction Hf as [|old new olds news Hrow Hf IH]; [done|]. rewrite Hno in Hrow by (by left). f_equal; [done|]. apply IH. intros row Hr. apply Hno. by right.
Qed.

(** What the error of a write says of the rows its scope holds of. *)
Definition told (scope : Predicate) (version : option Predicate) (rows : list Row) (e : StoreError) : Prop :=
  match e with
  | NotFoundError => forall row, row ∈ rows -> matches scope row = false
  | ConflictError => version <> None /\ (exists row, row ∈ rows /\ matches scope row = true) /\ forall row, row ∈ rows -> matches (scopedWhere version scope) row = false
  | _ => True
  end.

Lemma told_other scope version rows e : tells_of_rows e = false -> told scope version rows e.
Proof. by destruct e. Qed.

Lemma missing_told {A} context scope version db e db' : (forall row, row ∈ rows_of db (t_name (ctx_model context)) -> matches (scopedWhere version scope) row = false) ->
  missingOrChanged (A := A) context (addressed scope) version db = (inl e, db') -> told scope version (rows_of db (t_name (ctx_model context))) e.
Proof.
  intros Hno E. unfold missingOrChanged in E. destruct version as [version|]; [|by injection E as <- _].
  unfold select_rows in E. rewrite gets_bind in E. cbn [scopedWhere addressed ad_conditions ad_scope] in E. destruct (List.filter _ _) as [|row rest] eqn:Ef in E.
  - injection E as <- _. exact (proj1 (filter_nil _ _) Ef).
  - injection E as <- _. split_and!; [done| |done]. assert (Hr : row ∈ row :: rest) by (by left). rewrite <-Ef in Hr. apply list_elem_of_In, filter_In in Hr as [Hr Hm].
    exists row. split; [by apply list_elem_of_In|done].
Qed.

Lemma updateRow_told context scope changes version db e db' : updateRow context (addressed scope) changes version None db = (inl e, db') ->
  told scope version (rows_of db (t_name (ctx_model context))) e.
Proof.
  unfold updateRow. rewrite lift_bind. destruct (keyOf _) as [e'|key] eqn:Ek.
  { intros [= <- _]. apply told_other. unfold keyOf in Ek. destruct (key_of _); [done|]. by injection Ek as <-. }
  intros [_ [db1 E]]%transaction_inl. unfold mbind at 1, eff_bind at 1 in E. cbn [lock_given] in E. cbn [mret eff_ret] in E. unfold mbind at 1, eff_bind at 1 in E.
  destruct (update_statement _ _ _ db) as [[e'|rows] db2] eqn:Es; [injection E as <- _; by eapply told_other, statement_refuses|].
  destruct rows as [|row rest].
  - apply statement_none in Es as [Hsame Hno]. rewrite <-Hsame in *. by eapply missing_told.
  - apply told_other. rewrite lift_bind in E. unfold answer in E. rewrite Ek in E. cbn [mbind checked_bind mret checked_ret] in E. rewrite lift_bind in E.
    unfold checkVersion, referenceFiles in E. destruct (t_version _).
    + destruct (ack_version _) as [[| z| | | |]|]; try by injection E as <- _. destruct (isSafeInteger z); cbn [ensure] in E; [|by injection E as <- _].
      rewrite lift_bind in E. destruct (negb _); cbn [ensure] in E; [done|by injection E as <- _].
    + rewrite lift_bind in E. destruct (negb _); cbn [ensure] in E; [done|by injection E as <- _].
Qed.

Lemma removeRow_told context scope db e db' : removeRow context (addressed scope) None db = (inl e, db') ->
  told scope None (rows_of db (t_name (ctx_model context))) e.
Proof.
  unfold removeRow. rewrite lift_bind. destruct (keyOf _) as [e'|key] eqn:Ek.
  { intros [= <- _]. apply told_other. unfold keyOf in Ek. destruct (key_of _); [done|]. by injection Ek as <-. }
  intros [_ [db1 E]]%transaction_inl. rewrite lift_bind in E. unfold write_guard in E. destruct (t_view _); cbn [negb ensure] in E; [by injection E as <- _|].
  unfold delete_rows in E. unfold mbind at 1, eff_bind at 1 in E. rewrite gets_bind in E. unfold mbind at 1, eff_bind at 1 in E. unfold put_rows in E.
  destruct (commit_rows _ _ _) as [db2|]; [|by injection E as <- _]. cbn [mret eff_ret] in E.
  cbn [scopedWhere conditionsWith addressed ad_conditions ad_scope] in E. destruct (List.filter (matches scope) _) eqn:Ef; [|done].
  injection E as <- _. exact (proj1 (filter_nil _ _) Ef).
Qed.

Lemma removeRow_inr context target version db u db' : removeRow context target version db = (inr u, db') ->
  let w := scopedWhere (conditionsWith target version) (ad_scope target) in let rows := rows_of db (t_name (ctx_model context)) in
  rows_of db' (t_name (ctx_model context)) = List.filter (fun row => negb (matches w row)) rows /\ exists row, row ∈ rows /\ matches w row = true.
Proof.
  unfold removeRow. intros E. apply eff_bind_inr in E as (key & db1 & [_ ->]%lift_inr & E%transaction_inr). apply eff_bind_inr in E as (u1 & db1 & [_ ->]%lift_inr & E).
  apply eff_bind_inr in E as (rows & db1 & Hd & E). unfold delete_rows in Hd. rewrite gets_bind in Hd. apply eff_bind_inr in Hd as (u2 & db2 & Hp%put_rows_inr & [= <- <-]).
  destruct (List.filter (matches _) _) as [|row rest] eqn:Ef in E.
  - unfold missingOrChanged in E. destruct version; [|done]. apply eff_bind_inr in E as (existing & ? & _ & E). by destruct existing.
  - injection E as _ <-. split; [done|]. assert (Hr : row ∈ row :: rest) by (by left). rewrite <-Ef in Hr. apply list_elem_of_In, filter_In in Hr as [Hr Hm].
    exists row. split; [by apply list_elem_of_In|done].
Qed.

End Outcome.

(** C40. The two errors of an update tell the truth about the rows. It answers 404 only when the table holds no row the call
    addresses, and 409 only when it holds one and none that it addresses carries the version the caller expected: a
    capability that does not reach a row cannot tell it from one that is not there. *)
Theorem update_outcome `{Schema, !SchemaLaws, NumberText} {Cap : Type} `{CapabilityAuthority Cap} (models : TableModels) name (m : TableModel) (capability : Cap) grant key values expected db e db' :
  linked models -> (name, m) ∈ models -> resolve capability = inr grant ->
  (key = None /\ DimensionTable_update (contextOf models m) capability values expected db = (inl e, db'))
    \/ ChildTable_update (contextOf models m) capability key values expected db = (inl e, db')
    \/ app_update (contextOf models m) capability key values expected db = (inl e, db') ->
  match e with
  | NotFoundError => forall row, row ∈ rows_of db name -> ~ addresses m grant key row
  | ConflictError => (exists row, row ∈ rows_of db name /\ addresses m grant key row) /\
      exists column z, t_version m = Some column /\ expected = Some (PInteger z) /\
        forall row, row ∈ rows_of db name -> addresses m grant key row -> row !! column <> Some (PInteger z)
  | _ => True
  end.
Proof.
  intros Hl Hin Er E. pose proof (model_name models name m Hl Hin) as <-.
  assert (Hsc : exists scope, refuses scope /\ (forall p, scope = inr p -> scoped_to m capability OpUpdate key p) /\ update_target (contextOf models m) scope values expected db = (inl e, db')).
  { destruct E as [[-> E]|[E|E]]; eexists; (split; [|split; [|exact E]]); [by eapply refuses_object| |by eapply refuses_child| |by eapply refuses_app|]; intros p Ep;
      [by eapply object_scoped|by eapply child_scoped|by eapply app_scoped]. }
  clear E. destruct Hsc as (scope & Href & Hsc & E). assert (Hother : tells_of_rows e = false -> match e with NotFoundError => forall row, row ∈ rows_of db (t_name m) -> ~ addresses m grant key row
    | ConflictError => (exists row, row ∈ rows_of db (t_name m) /\ addresses m grant key row) /\ exists column z, t_version m = Some column /\ expected = Some (PInteger z) /\
        forall row, row ∈ rows_of db (t_name m) -> addresses m grant key row -> row !! column <> Some (PInteger z) | _ => True end) by (by destruct e).
  unfold update_target in E. rewrite lift_bind in E. destruct scope as [e'|p]; [injection E as -> _; by apply Hother, (refuses_told _ _ Href)|].
  rewrite lift_bind in E. destruct (readValues _ _ _) as [e'|changes] eqn:Ev; [injection E as -> _; eapply Hother, refuses_told; [|exact Ev]; apply refuses_readValues|].
  rewrite lift_bind in E. destruct (versionArgument _ _) as [e'|version] eqn:Ea; [injection E as -> _; eapply Hother, refuses_told; [|exact Ea]; apply refuses_versionArgument|].
  destruct (Hsc p eq_refl) as (g & Er' & _ & Hp). assert (g = grant) as -> by congruence. apply updateRow_told in E. cbn [ctx_model contextOf] in E. clear Hother.
  destruct e; try done; cbn [told] in E.
  - intros row Hr Ha. apply Hp in Ha. rewrite E in Ha by done. done.
  - destruct E as (Hv & (row & Hr & Hm) & Hno). split; [exists row; split; [done|by apply Hp]|]. apply versionArgument_spec in Ea. cbn [ctx_model contextOf] in Ea.
    destruct (t_version m) as [column|]; [|done]. destruct Ea as (z & -> & ->). exists column, z. split_and!; [done|done|]. intros row' Hr' Ha Hz.
    specialize (Hno row' Hr'). apply Hp in Ha. rewrite scoped_where in Hno. cbn [default holds] in Hno. rewrite Ha, andb_true_r in Hno. apply equals_matches in Hz.
    change (matches (Equals column (PInteger z)) row' = false) in Hno. congruence.
Qed.

Lemma update_outcome_witness : exists row : Row, row ∈ rows_of demo_db "projects" /\ addresses (demo_model "projects") (demo_ref "notes.write") None row.
Proof.
  destruct (DimensionTable_update (H := demo_schema) (H1 := demo_authority) (contextOf demo_models (demo_model "projects")) (demo_ref "notes.write") (title (Prim (PText "New"))) (Some (PInteger 3)) demo_db)
    as [[e|ack] db'] eqn:E; [|apply (f_equal fst) in E; by vm_compute in E].
  assert (e = ConflictError) as -> by (apply (f_equal fst) in E; vm_compute in E; by injection E as <-).
  destruct (update_outcome (H0 := demo_schema_laws) (H2 := demo_authority) demo_models "projects" (demo_model "projects") _ (demo_ref "notes.write") None _ _ _ _ _ demo_linked
    (demo_in "projects" eq_refl) eq_refl (or_introl (conj eq_refl E))) as [Hrow _]. exact Hrow.
Defined.

(** A delete removes exactly the rows its capability addresses, under one of the table's delete actions, and keeps the
    others in their order; it removes at least one, or throws and leaves the database as it was, a 404 only when the table
    holds no such row. *)
Theorem remove_exact `{Schema, !SchemaLaws} {Cap : Type} `{CapabilityAuthority Cap} (models : TableModels) name (m : TableModel) (capability : Cap) grant key db r db' :
  linked models -> (name, m) ∈ models -> resolve capability = inr grant ->
  (key = None /\ DimensionTable_remove (contextOf models m) capability db = (r, db')) \/ ChildTable_remove (contextOf models m) capability key db = (r, db')
    \/ app_remove (contextOf models m) capability key db = (r, db') ->
  match r with
  | inr _ => grant_action grant ∈ act_delete (t_actions m) /\ exists reached : Row -> bool, (forall row, reached row = true <-> addresses m grant key row)
      /\ rows_of db' name = List.filter (fun row => negb (reached row)) (rows_of db name) /\ exists row, row ∈ rows_of db name /\ addresses m grant key row
  | inl e => db' = db /\ (e = NotFoundError -> forall row, row ∈ rows_of db name -> ~ addresses m grant key row)
  end.
Proof.
  intros Hl Hin Er E. pose proof (model_name models name m Hl Hin) as <-.
  assert (Hsc : exists scope, refuses scope /\ (forall p, scope = inr p -> scoped_to m capability OpDelete key p) /\ remove_target (contextOf models m) scope db = (r, db')).
  { destruct E as [[-> E]|[E|E]]; eexists; (split; [|split; [|exact E]]); [by eapply refuses_object| |by eapply refuses_child| |by eapply refuses_app|]; intros p Ep;
      [by eapply object_scoped|by eapply child_scoped|by eapply app_scoped]. }
  clear E. destruct Hsc as (scope & Href & Hsc & E). unfold remove_target in E. rewrite lift_bind in E. destruct scope as [e'|p].
  { injection E as <- <-. split; [done|]. intros ->. pose proof (refuses_told _ _ Href eq_refl) as Ht. done. }
  destruct (Hsc p eq_refl) as (g & Er' & Ha & Hp). assert (g = grant) as -> by congruence. destruct r as [e|u].
  - split.
    + unfold removeRow in E. rewrite lift_bind in E. destruct (keyOf _); [by injection E as _ <-|]. by apply transaction_inl in E as [-> _].
    + intros ->. apply removeRow_told in E. cbn [told ctx_model contextOf] in E. intros row Hr Hrow. apply Hp in Hrow. rewrite E in Hrow by done. done.
  - apply removeRow_inr in E as [Hrows (row & Hr & Hm)]. cbn [scopedWhere conditionsWith addressed ad_conditions ad_scope ctx_model contextOf] in *. split; [exact Ha|].
    exists (matches p). split_and!; [done|done|]. exists row. split; [done|by apply Hp].
Qed.

Lemma remove_exact_witness :
  exists db', (ChildTable_remove (H := demo_schema) (H1 := demo_authority) (contextOf demo_models (demo_model "tasks")) (demo_ref "notes.write") (Some "t1") demo_db) = (inr tt, db')
    /\ exists reached : Row -> bool, rows_of db' "tasks" = List.filter (fun row => negb (reached row)) (rows_of demo_db "tasks").
Proof.
  destruct (ChildTable_remove (H := demo_schema) (H1 := demo_authority) (contextOf demo_models (demo_model "tasks")) (demo_ref "notes.write") (Some "t1") demo_db) as [[e|[]] db'] eqn:E;
    [apply (f_equal fst) in E; by vm_compute in E|]. exists db'. split; [done|].
  destruct (remove_exact (H0 := demo_schema_laws) (H1 := demo_authority) demo_models "tasks" (demo_model "tasks") _ (demo_ref "notes.write") (Some "t1") _ _ _ demo_linked
    (demo_in "tasks" eq_refl) eq_refl (or_intror (or_introl E))) as (_ & reached & _ & Hrows & _). by exists reached.
Defined.
