(* ===== verification/Inserts.v ===== *)
(** What inserts and moves of the data layer establish ([db/src/store.ts]): a new row lies where its capability says, under a
    row that exists, and a conflict updates nothing outside. The definitions are in [Writes.v]. *)

From S2P Require Import Prelude Calendar Json Temporal Policy Store Writes.
From Stdlib Require Import ZArith Lia String Ascii.
From stdpp Require Import base tactics strings gmap list.

(** ** Stamps *)

(** The columns of [entries] hold their values, if no two are the same column; the others are as they were. *)
Lemma stampChain_other entries (values : Values) column : column ∉ map (fun entry => link_column entry.1) entries -> stampChain values entries !! column = values !! column.
Proof.
  unfold stampChain. revert values. induction entries as [|entry entries IH]; intros values Hc; [done|]. cbn [fold_left]. cbn in Hc. apply not_elem_of_cons in Hc as [Hne Hc].
  rewrite IH by done. by rewrite lookup_insert_ne by done.
Qed.

Lemma stampChain_lookup entries (values : Values) entry : NoDup (map (fun entry => link_column entry.1) entries) -> entry ∈ entries ->
  stampChain values entries !! link_column entry.1 = Some (Some (PText entry.2)).
Proof.
  revert values. induction entries as [|e entries IH]; intros values; [by intros _ ?%elem_of_nil|]. cbn [map]. intros [Hn Hd]%NoDup_cons [->|Hin]%elem_of_cons.
  - change (stampChain values (e :: entries)) with (stampChain (<[link_column e.1 := Some (PText e.2)]> values) entries). rewrite stampChain_other by done. by rewrite lookup_insert_eq.
  - change (stampChain values (e :: entries)) with (stampChain (<[link_column e.1 := Some (PText e.2)]> values) entries). by apply IH.
Qed.

(** What [stampInsert] writes, where the columns it stamps are distinct. *)
Record insert_stamped (m : TableModel) (principal key keyValue : string) (values : Values) : Prop := {
  stamped_key : values !! key = Some (Some (PText keyValue));
  stamped_version : forall column, t_version m = Some column -> values !! column = Some (Some (PInteger 1));
  stamped_creator : forall column, t_createdBy m = Some column -> values !! column = Some (Some (PText principal));
}.

Lemma stampInsert_other context principal (values : Values) key keyValue column : column <> key -> t_version (ctx_model context) <> Some column ->
  t_createdBy (ctx_model context) <> Some column -> stampInsert context principal values key keyValue !! column = values !! column.
Proof.
  intros Hk Hv Hc. unfold stampInsert. destruct (t_createdBy _); destruct (t_version _); rewrite ?lookup_insert_ne by congruence; done.
Qed.

Section Stamped.
Variables (models : TableModels) (name : string) (m : TableModel).
Hypotheses (Hlinked : linked models) (Hin : (name, m) ∈ models) (Hview : t_view m = false).

Lemma stamps_apart key : key_of (t_scope m) = Some key ->
  key ∉ map link_column (chain m) /\ t_version m <> Some key /\ t_createdBy m <> Some key
  /\ (forall column, column ∈ map link_column (chain m) -> t_version m <> Some column /\ t_createdBy m <> Some column)
  /\ (forall column, t_version m = Some column -> t_createdBy m <> Some column) /\ NoDup (map link_column (chain m)).
Proof.
  intros Hk. pose proof (stamps_distinct m (in_ok models name m Hlinked Hin) Hview) as Hd. unfold stamped in Hd. rewrite Hk in Hd. cbn in Hd.
  apply NoDup_cons in Hd as [Hkey Hd]. apply NoDup_app in Hd as (Hch & Hapart & Hd). apply NoDup_app in Hd as (_ & Hver & _). rewrite !elem_of_app in Hkey.
  split_and!; [tauto| | | | |done].
  - intros E. rewrite E in Hkey. apply Hkey. right. left. by left.
  - intros E. rewrite E in Hkey. apply Hkey. do 2 right. left. by left.
  - intros column Hc. specialize (Hapart column Hc). rewrite !elem_of_app in Hapart. split; intros E; rewrite E in Hapart; apply Hapart; [left; by left|right; left; by left].
  - intros column E1 E2. rewrite E1 in Hver. apply (Hver column); [by left|]. rewrite E2. by left.
Qed.

Lemma stampInsert_stamped principal given key keyValue : key_of (t_scope m) = Some key ->
  insert_stamped m principal key keyValue (stampInsert (contextOf models m) principal given key keyValue).
Proof.
  intros Hk. destruct (stamps_apart key Hk) as (_ & Hv & Hc & _ & Hvc & _). unfold stampInsert. cbn [ctx_model contextOf]. split.
  - destruct (t_createdBy m); destruct (t_version m); rewrite ?lookup_insert_ne by congruence; by rewrite lookup_insert_eq.
  - intros column E. rewrite E in *. specialize (Hvc column eq_refl). destruct (t_createdBy m); rewrite ?lookup_insert_ne by congruence; by rewrite lookup_insert_eq.
  - intros column E. rewrite E. by rewrite lookup_insert_eq.
Qed.

(** The chain leaves the other stamps alone. *)
Lemma stampChain_stamped principal key keyValue (values : Values) entries : key_of (t_scope m) = Some key -> (forall entry, entry ∈ entries -> entry.1 ∈ chain m) ->
  insert_stamped m principal key keyValue values -> insert_stamped m principal key keyValue (stampChain values entries).
Proof.
  intros Hk He [H1 H2 H3]. destruct (stamps_apart key Hk) as (Hkc & _ & _ & Hch & _ & _).
  assert (Hc : forall column, column ∉ map link_column (chain m) -> stampChain values entries !! column = values !! column).
  { intros column Hn. apply stampChain_other. intros (entry & -> & Hentry)%list_elem_of_fmap. apply Hn, list_elem_of_fmap. exists entry.1. split; [done|by apply He]. }
  split; [by rewrite Hc|intros column E; rewrite Hc; [by apply H2|]|intros column E; rewrite Hc; [by apply H3|]]; intros Hn; destruct (Hch column Hn); done.
Qed.

End Stamped.

(** ** Where a row lies *)

(** A row lies under a row of the table that owns its first link, and in the same containers: the pairs of its covering
    foreign key are equal. *)
Definition placed_under (m owner : TableModel) (row parent : Row) : Prop :=
  exists link key id, chain m = link :: chain owner /\ key_of (t_scope owner) = Some key /\
    row !! link_column link = Some (PText id) /\ parent !! key = Some (PText id) /\
    forall up, up ∈ chain owner -> is_Some (row !! link_column up) /\ row !! link_column up = parent !! link_column up.

(** The table an insert or a move lands under has a row its [Ref] names. *)
Lemma lockDestination_inr models owner g db context : linked models -> ctx_destination context = Some owner -> (exists n, (n, owner) ∈ models) ->
  lockDestination context g db = (inr tt, db) ->
  exists d key up values parent, t_scope owner = ScopeDimension d key up /\ linkValues (mkContainer d key :: chain owner) g = inr values /\
    parent ∈ rows_of db (t_name owner) /\ forall entry, entry ∈ values -> parent !! link_column entry.1 = Some (PText entry.2).
Proof.
  intros Hl Hd [n Hn] E. unfold lockDestination in E. rewrite Hd in E. apply eff_bind_inr in E as (self & db1 & [Es ->]%lift_inr & E).
  apply eff_bind_inr in E as (values & db1 & [Ev ->]%lift_inr & E). apply eff_bind_inr in E as (scope & db1 & [Ep ->]%lift_inr & E).
  apply eff_bind_inr in E as (key' & db1 & [_ ->]%lift_inr & E). apply eff_bind_inr in E as (rows & db1 & [-> ->]%select_rows_inr & E).
  unfold selfLinks, dimensionScope in Es. destruct (t_scope owner) as [d key up| | |] eqn:Eo; try done. injection Es as <-.
  destruct (List.filter _ _) as [|parent rest] eqn:Ef in E; [done|]. assert (Hr : parent ∈ parent :: rest) by (by left). rewrite <-Ef in Hr.
  apply list_elem_of_In, filter_In in Hr as [Hr Hm]. exists d, key, up, values, parent. split_and!; [done|done|by apply list_elem_of_In|]. by apply (linksPredicate_exact _ _ parent Ep).
Qed.

Lemma linkValues_shape first rest g values : linkValues (first :: rest) g = inr values ->
  exists entries, values = (first, r_id g) :: entries /\ map fst entries = rest /\ forall entry, entry ∈ entries -> lookup_field (link_dimension entry.1) (r_chain g) = Some entry.2.
Proof.
  cbn [linkValues]. intros E. passed. subst values. match goal with H : chain_values _ _ = inr ?v |- _ => exists v; apply chain_values_spec in H end. naive_solver.
Qed.

(** Both a row and its destination hold the values of the [Ref]: one lies under the other. *)
Lemma values_placed m owner link g entries values d key up (row parent : Row) : chain m = link :: chain owner -> t_scope owner = ScopeDimension d key up ->
  NoDup (map link_dimension (chain owner)) ->
  linkValues (chain m) g = inr entries -> (forall entry, entry ∈ entries -> row !! link_column entry.1 = Some (PText entry.2)) ->
  linkValues (mkContainer d key :: chain owner) g = inr values -> (forall entry, entry ∈ values -> parent !! link_column entry.1 = Some (PText entry.2)) ->
  placed_under m owner row parent.
Proof.
  intros Hch Eo Hd E Hrow E' Hparent. rewrite Hch in E. apply linkValues_shape in E as (es & -> & Hes & Hel), E' as (ps & -> & Hps & Hpl).
  exists link, key, (r_id g). split_and!; [done|by rewrite Eo| | |].
  - apply (Hrow (link, r_id g)). by left.
  - apply (Hparent (mkContainer d key, r_id g)). by left.
  - intros u Hu. pose proof Hu as Hu'. rewrite <-Hes in Hu. rewrite <-Hps in Hu'. apply list_elem_of_fmap in Hu as (e & -> & He), Hu' as (p & Ep & Hp).
    pose proof (Hel e He) as L1. pose proof (Hpl p Hp) as L2. rewrite <-Ep in L2. assert (e.2 = p.2) by congruence.
    rewrite (Hrow e) by (by right). split; [by eexists|]. rewrite Ep, (Hparent p) by (by right). congruence.
Qed.

(** ** What an insert is prepared to write *)

Section Prepared.
Context `{Schema, !SchemaLaws, NumberText} {Cap : Type} `{CapabilityAuthority Cap}.
Variables (models : TableModels) (name : string) (m : TableModel).
Hypotheses (Hlinked : linked models) (Hin : (name, m) ∈ models).

(** The table an insert lands under owns the rest of the chain. *)
Lemma destination_chain owner : ctx_destination (contextOf models m) = Some owner ->
  exists n link, (n, owner) ∈ models /\ chain m = link :: chain owner.
Proof.
  pose proof (in_chained models name m Hlinked Hin) as Hc. unfold chained in Hc. cbn [ctx_destination contextOf]. unfold destinationOf.
  destruct (t_scope m) as [d key [c|]|parent key column inherit| |] eqn:Es; try done.
  - destruct Hc as (rest & Hch & Hown). unfold ownerOf. intros E. apply find_some in E as [Ho Hd]. apply in_map_iff in Ho as ([n o] & <- & Ho). apply list_elem_of_In in Ho. cbn in *.
    unfold is_owner in Hd. destruct (t_scope o) as [d' k' u'| | |] eqn:Eo; try done. apply String.eqb_eq in Hd as ->. destruct (Hown _ _ _ _ Ho Eo) as [-> _]. by exists n, c.
  - destruct Hc as (owner' & d & okey & up & Hown & Eo & Hch & _). rewrite (in_modelOf _ _ _ Hlinked Hown). intros [= <-]. by eexists parent, _.
Qed.

Lemma onConflictOf_spec context options action given conflict : onConflictOf context options action given = inr (Some conflict) ->
  oc_updates conflict = (if oc_update conflict then updates_of (ctx_model context) given else ∅) /\ (oc_update conflict = true -> action ∈ act_update (t_actions (ctx_model context))).
Proof.
  assert (Hin' : forall input, (conflict' ← plainOptions input ["columns"; "do"];
          columns ← match ownEntry conflict' "columns" with ArrayOf items => conflict_columns (ctx_model context) items | _ => fails (QueryRefused "on_conflict") end;
          _ ← ensure (0 <? length columns)%nat (QueryRefused "on_conflict");
          match ownEntry conflict' "do" with
          | Prim (PText mode) =>
              if (mode =? "nothing")%string then mret (Some (mkOnConflict columns false ∅))
              else if (mode =? "update")%string then
                _ ← ensure (Js.elem action (act_update (t_actions (ctx_model context)))) (CapabilityError "wrong_action");
                mret (Some (mkOnConflict columns true (updates_of (ctx_model context) given)))
              else fails (QueryRefused "on_conflict")
          | _ => fails (QueryRefused "on_conflict")
          end) = inr (Some conflict) ->
    oc_updates conflict = (if oc_update conflict then updates_of (ctx_model context) given else ∅) /\ (oc_update conflict = true -> action ∈ act_update (t_actions (ctx_model context)))).
  { intros input E. apply checked_bind_inr in E as (c & _ & E). apply checked_bind_inr in E as (columns & _ & E). apply checked_bind_inr in E as (u & _ & E).
    destruct (ownEntry c "do") as [| |[mode| | | | |]| | |]; try done. destruct (mode =? "nothing")%string; [by injection E as <-|]. destruct (mode =? "update")%string; [|done].
    apply checked_bind_inr in E as (u' & Ha%ensure_inr & E). injection E as <-. split; [done|]. intros _. by apply elem_spec. }
  unfold onConflictOf. destruct options; [done|..]; intros E; apply checked_bind_inr in E as (read & _ & E); destruct (ownEntry read "onConflict") eqn:Ei; try done; by eapply Hin'.
Qed.

(** A top-level object under its own [Ref], or a row of a container or a parent. *)
Inductive prepared (g : RefGrant) (key uuid : string) (given : Values) (p : PreparedInsert) : Prop :=
| prepared_top d entry : t_scope m = ScopeDimension d key None -> r_dimension g = d -> linkValues [mkContainer d key] g = inr [entry] ->
    pi_row p = stampInsert (contextOf models m) (r_principal g) given key (r_id g) -> pi_destination p = None -> prepared g key uuid given p
| prepared_under link above entries : chain m = link :: above -> link_dimension link = r_dimension g -> linkValues (chain m) g = inr entries ->
    pi_row p = stampChain (stampInsert (contextOf models m) (r_principal g) given key uuid) entries -> pi_destination p = Some g -> prepared g key uuid given p.

Lemma dimension_prepared capability values options uuid p : prepareDimensionInsert (contextOf models m) capability values options uuid = inr p ->
  exists g key given, resolve capability = inr (GrantRef g) /\ r_action g ∈ act_insert (t_actions m) /\ key_of (t_scope m) = Some key
    /\ readValues values (t_insert m) m = inr given /\ onConflictOf (contextOf models m) options (r_action g) given = inr (pi_conflict p) /\ prepared g key uuid given p.
Proof.
  unfold prepareDimensionInsert, dimensionScope, listDimension. cbn [ctx_model contextOf]. destruct (t_scope m) as [d key up| | |] eqn:Es; try done.
  cbn [mbind checked_bind mret checked_ret ds_dimension ds_key ds_container]. intros E. apply checked_bind_inr in E as (g & Eg & E). apply refGrant_spec in Eg as (Er & Ed & Ha).
  apply checked_bind_inr in E as (given & Ev & E). apply checked_bind_inr in E as (conflict & Ec & E). exists g, key, given.
  pose proof (in_chained models name m Hlinked Hin) as Hc. unfold chained in Hc. rewrite Es in Hc. destruct up as [c|].
  - apply checked_bind_inr in E as (entries & Ee & E). injection E as <-. destruct Hc as (rest & Hch & _). split_and!; [done|done|done|done|done|].
    eapply prepared_under; [exact Hch|by rewrite Ed|exact Ee|done|done].
  - apply checked_bind_inr in E as (entries & Ee & E). injection E as <-. split_and!; [done|done|done|done|done|].
    destruct (linkValues_shape _ _ _ _ Ee) as (es & -> & Hes & _). destruct es; [|done]. by eapply prepared_top.
Qed.

Lemma child_prepared capability values options uuid p : prepareChildInsert (contextOf models m) capability values options uuid = inr p ->
  exists g key given, resolve capability = inr (GrantRef g) /\ r_action g ∈ act_insert (t_actions m) /\ key_of (t_scope m) = Some key
    /\ readValues values (t_insert m) m = inr given /\ onConflictOf (contextOf models m) options (r_action g) given = inr (pi_conflict p) /\ prepared g key uuid given p.
Proof.
  unfold prepareChildInsert. intros E. apply checked_bind_inr in E as (scope & Es & E). apply checked_bind_inr in E as (g & Eg & E). apply refGrant_spec in Eg as (Er & Ed & Ha).
  apply checked_bind_inr in E as (given & Ev & E). apply checked_bind_inr in E as (conflict & Ec & E). apply checked_bind_inr in E as (entries & Ee & E). injection E as <-.
  destruct (childScope_spec models name m Hlinked Hin scope Es) as (parent & inherit & owner & Em & _ & _ & Hch). exists g, (cs_key scope), given.
  split_and!; [done|done|by rewrite Em|done|done|]. eapply prepared_under; [exact Hch|by rewrite Ed|exact Ee|done|done].
Qed.

Lemma entries_in_chain g entries entry : linkValues (chain m) g = inr entries -> entry ∈ entries -> entry.1 ∈ chain m.
Proof.
  destruct (chain m) as [|first rest]; [done|]. intros (es & -> & Hes & _)%linkValues_shape [->|He]%elem_of_cons; [by left|]. right. rewrite <-Hes. apply list_elem_of_fmap. by exists entry.
Qed.

Lemma entries_columns g entries : linkValues (chain m) g = inr entries -> map (fun entry => link_column entry.1) entries = map link_column (chain m).
Proof.
  destruct (chain m) as [|first rest]; [done|]. intros (es & -> & <- & _)%linkValues_shape. cbn. f_equal. by rewrite map_map.
Qed.

(** What the new row holds. *)
Record placed_row (g : RefGrant) (key uuid : string) (table_defaults row : Row) : Prop := {
  row_authorized : authorized m (GrantRef g) row;
  row_key : row !! key = Some (PText (match chain m with [] => r_id g | _ => uuid end));
  row_version : forall column, t_version m = Some column -> row !! column = Some (PInteger 1);
  row_creator : forall column, t_createdBy m = Some column -> row !! column = Some (PText (r_principal g));
  row_untouched : forall column, column ∉ t_insert m -> column ∉ stamped m -> row !! column = table_defaults !! column;
}.

Lemma prepared_row g key uuid values given p d0 : t_view m = false -> key_of (t_scope m) = Some key -> readValues values (t_insert m) m = inr given ->
  prepared g key uuid given p -> placed_row g key uuid d0 (set_values (pi_row p) d0).
Proof.
  intros Hv Hk Hr Hp. pose proof (links_nodup m (in_ok models name m Hlinked Hin)) as Hd.
  destruct (stamps_apart models name m Hlinked Hin Hv key Hk) as (Hkc & _ & _ & Hch & _ & Hcols).
  assert (Hgiven : forall column, column ∉ t_insert m -> given !! column = None).
  { intros column Hc. destruct (given !! column) eqn:E; [|done]. destruct Hc. eapply readValues_allowed; [exact Hr|by eexists]. }
  assert (Hfree : forall column, column ∉ stamped m -> column <> key /\ t_version m <> Some column /\ t_createdBy m <> Some column /\ column ∉ map link_column (chain m)).
  { intros column Hc. unfold stamped in Hc. rewrite Hk in Hc. rewrite !elem_of_app in Hc. cbn in Hc. split_and!.
    - intros ->. apply Hc. left. by left.
    - intros E. apply Hc. rewrite E. right. right. left. by left.
    - intros E. apply Hc. rewrite E. do 3 right. left. by left.
    - tauto. }
  destruct Hp as [d entry Es Ed El -> _|link above entries Hchain Hdim El -> _].
  - destruct (stampInsert_stamped models name m Hlinked Hin Hv (r_principal g) given key (r_id g) Hk) as [H1' H2' H3'].
    assert (Hc0 : chain m = []) by (eapply (in_top models name m Hlinked Hin); exact Es). split.
    + apply (linkValues_exact m [] (mkContainer d key) [] g [entry]); [exact Hd|unfold links; by rewrite Es, Hc0|by cbn|exact El|].
      destruct (linkValues_shape _ _ _ _ El) as (es & [= -> <-] & _). intros e ->%list_elem_of_singleton. cbn. by rewrite set_values_lookup, H1'.
    + rewrite Hc0, set_values_lookup. by rewrite H1'.
    + intros column E. rewrite set_values_lookup. by rewrite (H2' _ E).
    + intros column E. rewrite set_values_lookup. by rewrite (H3' _ E).
    + intros column Hi Hs. destruct (Hfree _ Hs) as (? & ? & ? & _). rewrite set_values_lookup, stampInsert_other by done. by rewrite Hgiven.
  - pose proof (stampChain_stamped models name m Hlinked Hin Hv (r_principal g) key uuid _ entries Hk (fun entry => entries_in_chain g entries entry El)
      (stampInsert_stamped models name m Hlinked Hin Hv (r_principal g) given key uuid Hk)) as [H1' H2' H3']. split.
    + assert (Hlinks : exists below, links m = below ++ link :: above) by (unfold links; rewrite Hchain; destruct (t_scope m); [by eexists [_]|by exists []..]). destruct Hlinks as [below Hlinks].
      rewrite Hchain in El. apply (linkValues_exact m below link above g entries _ Hd Hlinks Hdim El). rewrite <-Hchain in El. intros entry He.
      rewrite set_values_lookup, (stampChain_lookup entries); [done|by rewrite (entries_columns _ _ El)|done].
    + rewrite Hchain, set_values_lookup. by rewrite H1'.
    + intros column E. rewrite set_values_lookup. by rewrite (H2' _ E).
    + intros column E. rewrite set_values_lookup. by rewrite (H3' _ E).
    + intros column Hi Hs. destruct (Hfree _ Hs) as (? & ? & ? & Hcc). rewrite set_values_lookup, stampChain_other by (by rewrite (entries_columns _ _ El)).
      rewrite stampInsert_other by done. by rewrite Hgiven.
Qed.

End Prepared.

Section Inserting.
Context `{Schema, !SchemaLaws, NumberText} {Cap : Type} `{CapabilityAuthority Cap}.
Variables (models : TableModels) (name : string) (m : TableModel).
Hypotheses (Hlinked : linked models) (Hin : (name, m) ∈ models).

Lemma insertRow_inr context values destination ack db db' : insertRow context values destination db = (inr ack, db') ->
  t_view (ctx_model context) = false /\ lock_given context destination db = (inr tt, db) /\
  let row := set_values values (defaults (t_name (ctx_model context))) in
  answer context row = inr ack /\ rows_of db' (t_name (ctx_model context)) = rows_of db (t_name (ctx_model context)) ++ [row].
Proof.
  unfold insertRow. intros E%transaction_inr. apply eff_bind_inr in E as ([] & db1 & El & E). pose proof (reads_lock context destination db) as Hr. rewrite El in Hr. cbn in Hr. subst db1.
  apply eff_bind_inr in E as (key & db1 & [_ ->]%lift_inr & E). apply eff_bind_inr in E as (u & db1 & [Hv ->]%lift_inr & E). apply ensure_inr, negb_true_iff in Hv.
  apply eff_bind_inr in E as (row & db1 & Hi & E). unfold insert_row in Hi. rewrite gets_bind in Hi. apply eff_bind_inr in Hi as (u1 & db2 & Hp%put_rows_inr & [= <- <-]).
  apply eff_bind_inr in E as (ack' & db3 & [Ha ->]%lift_inr & E). apply eff_bind_inr in E as (u2 & db3 & [_ ->]%lift_inr & E). apply eff_bind_inr in E as (u3 & db3 & [_ ->]%lift_inr & [= <- <-]).
  by split_and!.
Qed.

(** The lock of a prepared insert finds the row the new one lies under. *)
Lemma locked_parent g key uuid given p d0 owner db : t_view m = false -> key_of (t_scope m) = Some key ->
  prepared models m g key uuid given p -> ctx_destination (contextOf models m) = Some owner -> lock_given (contextOf models m) (pi_destination p) db = (inr tt, db) ->
  exists parent, parent ∈ rows_of db (t_name owner) /\ placed_under m owner (set_values (pi_row p) d0) parent.
Proof.
  intros Hv Hk Hp Hdest El. destruct Hp as [d entry Es _ _ _ _|link above entries Hchain _ Ee Erow Epi].
  - exfalso. cbn [ctx_destination contextOf] in Hdest. unfold destinationOf in Hdest. by rewrite Es in Hdest.
  - rewrite Epi in El. cbn [lock_given] in El. destruct (destination_chain models name m Hlinked Hin owner Hdest) as (n & link' & Hn & Hch).
    destruct (lockDestination_inr models owner g db _ Hlinked Hdest (ex_intro _ n Hn) El) as (d & okey & up & values & parent & Eo & Ev & Hparent & Hvalues).
    exists parent. split; [done|]. eapply values_placed; [exact Hch|exact Eo|by apply (in_ok models n owner Hlinked Hn)|exact Ee| |exact Ev|exact Hvalues].
    intros e He. rewrite set_values_lookup, Erow. rewrite (stampChain_lookup entries); [done| |done]. rewrite (entries_columns m g entries Ee).
    by apply (stamps_apart models name m Hlinked Hin Hv key Hk).
Qed.

(** Everything an insert that answered has done. *)
Definition inserted_row (capability : Cap) (uuid : string) (ack : Acknowledgement) (db db' : Database) : Prop :=
  exists g key row, resolve capability = inr (GrantRef g) /\ r_action g ∈ act_insert (t_actions m) /\ key_of (t_scope m) = Some key
    /\ rows_of db' name = rows_of db name ++ [row] /\ placed_row m g key uuid (defaults name) row /\ ack_id ack = row !! key
    /\ forall owner, ctx_destination (contextOf models m) = Some owner -> exists parent, parent ∈ rows_of db (t_name owner) /\ placed_under m owner row parent.

Lemma prepared_inserted capability g key uuid values given p ack db db' : resolve capability = inr (GrantRef g) -> r_action g ∈ act_insert (t_actions m) ->
  key_of (t_scope m) = Some key -> readValues values (t_insert m) m = inr given -> prepared models m g key uuid given p ->
  insertRow (contextOf models m) (pi_row p) (pi_destination p) db = (inr ack, db') -> inserted_row capability uuid ack db db'.
Proof.
  intros Er Ha Hk Hr Hp E. apply insertRow_inr in E as (Hv & El & Hans & Hrows). cbn [ctx_model contextOf] in *. rewrite (model_name models name m Hlinked Hin) in *.
  exists g, key, (set_values (pi_row p) (defaults name)). split_and!; [done|done|done|exact Hrows|by eapply (prepared_row models name m)| |].
  - unfold answer in Hans. apply checked_bind_inr in Hans as (k & Hk'%keyOf_spec & [= <-]). cbn [ctx_model contextOf] in Hk'. by assert (k = key) as -> by congruence.
  - intros owner Hd. by eapply locked_parent.
Qed.

End Inserting.

(** C6. An insert lands where its capability says. When it throws, the database is as it was. When it answers, the table has
    one row more: the capability is a [Ref] of the container, the parent or, for a top-level table, of the object itself,
    under an insert action; the row lies in it, chain included; the key, the version 1 and the creator are the layer's,
    whatever values were given; a column that is neither stamped nor an insert column has its default; and where a table
    owns the destination, that table holds the row the new one lies under, every pair of the covering foreign key equal. *)
Theorem insert_placed `{Schema, !SchemaLaws, NumberText} {Cap : Type} `{CapabilityAuthority Cap} (models : TableModels) name (m : TableModel) (capability : Cap) values uuid db r db' :
  linked models -> (name, m) ∈ models ->
  insertIntoDimension (contextOf models m) capability values uuid db = (r, db') \/ insertIntoChild (contextOf models m) capability values uuid db = (r, db') ->
  match r with inl _ => db' = db | inr ack => inserted_row models name m capability uuid ack db db' end.
Proof.
  intros Hl Hin E. assert (Hp : exists prepared_, insert_prepared_row (contextOf models m) prepared_ db = (r, db') /\ forall p, prepared_ = inr p ->
      exists g key given, resolve capability = inr (GrantRef g) /\ r_action g ∈ act_insert (t_actions m) /\ key_of (t_scope m) = Some key
        /\ readValues values (t_insert m) m = inr given /\ prepared models m g key uuid given p).
  { destruct E as [E|E]; eexists; (split; [exact E|]); intros p Ep; [eapply (dimension_prepared models name m Hl Hin) in Ep|eapply (child_prepared models name m Hl Hin) in Ep];
      destruct Ep as (g & key & given & ? & ? & ? & ? & _ & ?); by exists g, key, given. }
  clear E. destruct Hp as (prep & E & Hp). unfold insert_prepared_row in E. rewrite lift_bind in E. destruct prep as [e|p]; [by injection E as <- <-|].
  destruct r as [e|ack]; [unfold insertRow in E; by apply transaction_inl in E as [-> _]|]. destruct (Hp p eq_refl) as (g & key & given & ? & ? & ? & ? & ?). by eapply prepared_inserted.
Qed.

Definition text (value : string) : Input := ObjectOf None [("text", Some (Prim (PText value)))].

Lemma insert_placed_witness : exists db' row parent,
  insertIntoChild (H := demo_schema) (H1 := demo_authority) (contextOf demo_models (demo_model "tasks")) (demo_ref "notes.write") (text "Call") "t9" demo_db
    = (inr (mkAck (Some (PText "t9")) None), db') /\
  rows_of db' "tasks" = rows_of demo_db "tasks" ++ [row] /\ authorized (demo_model "tasks") (demo_ref "notes.write") row /\
  parent ∈ rows_of demo_db "projects" /\ placed_under (demo_model "tasks") (demo_model "projects") row parent.
Proof.
  destruct (insertIntoChild (H := demo_schema) (H1 := demo_authority) (contextOf demo_models (demo_model "tasks")) (demo_ref "notes.write") (text "Call") "t9" demo_db)
    as [[e|ack] db'] eqn:E; [apply (f_equal fst) in E; by vm_compute in E|].
  pose proof (insert_placed (H0 := demo_schema_laws) (H2 := demo_authority) demo_models "tasks" (demo_model "tasks") _ _ _ _ _ _ demo_linked (demo_in "tasks" eq_refl) (or_intror E)) as Hi.
  apply (f_equal fst) in E. vm_compute in E. injection E as <-. destruct Hi as (g & key & row & Er & _ & _ & Hrows & Hrow & _ & Hparent). injection Er as <-.
  destruct (Hparent (demo_model "projects")) as (parent & Hin & Hp); [by vm_compute|]. exists db', row, parent. split_and!; [done|done|by destruct Hrow|exact Hin|exact Hp].
Defined.

(** ** Inserts that meet a row *)

Section Conflicts.
Context `{Schema, !SchemaLaws}.

Lemma insert_on_conflict_inr table values columns row db db' : insert_row_on_conflict table values columns db = (inr row, db') ->
  match row with
  | Some row => row = set_values values (defaults table) /\ rows_of db' table = rows_of db table ++ [row]
  | None => db' = db
  end.
Proof.
  unfold insert_row_on_conflict. destruct (negb _); [done|]. rewrite gets_bind. destruct (existsb _ _); [by intros [= <- <-]|]. intros E.
  apply eff_bind_inr in E as (r & db1 & Hi & [= <- <-]). unfold insert_row in Hi. rewrite gets_bind in Hi. by apply eff_bind_inr in Hi as (u & db2 & Hp%put_rows_inr & [= <- <-]).
Qed.

(** How a conflict's update leaves a row. *)
Definition met (model : TableModel) (updates : Values) (scope : option Predicate) (old new : Row) : Prop :=
  new = old \/ exists p, scope = Some p /\ matches p old = true /\ t_view model = false /\ changed_row updates (t_version model) old = Some new.

Lemma attempts_inr n context values conflict matching scope res db db' : insert_attempts n context values conflict matching scope db = (inr res, db') ->
  let table := t_name (ctx_model context) in
  (inserted res = true /\ t_view (ctx_model context) = false /\ let row := set_values values (defaults table) in
     exists ack, acknowledged res = Some ack /\ answer context row = inr ack /\ rows_of db' table = rows_of db table ++ [row]) \/
  (inserted res = false /\ Forall2 (met (ctx_model context) (oc_updates conflict) scope) (rows_of db table) (rows_of db' table) /\ (scope = None -> db' = db)).
Proof.
  revert db. induction n as [|n IH]; intros db E; cbn [insert_attempts] in E; [done|]. apply eff_bind_inr in E as (key & db1 & [_ ->]%lift_inr & E).
  apply eff_bind_inr in E as (u & db1 & [Hv%ensure_inr%negb_true_iff ->]%lift_inr & E). apply eff_bind_inr in E as (row & db1 & Hi%insert_on_conflict_inr & E). destruct row as [row|].
  - destruct Hi as [-> Hrows]. apply eff_bind_inr in E as (ack & db2 & [Ha ->]%lift_inr & E). apply eff_bind_inr in E as (u1 & db2 & [_ ->]%lift_inr & E).
    apply eff_bind_inr in E as (u2 & db2 & [_ ->]%lift_inr & [= <- <-]). left. split_and!; [done|done|]. by exists ack.
  - subst db1. destruct scope as [p|]; [|injection E as <- <-; right; split_and!; [done|apply Forall_Forall2_diag, Forall_true; by left|done]].
    apply eff_bind_inr in E as (w & db1 & [_ ->]%lift_inr & E). apply eff_bind_inr in E as (rows & db1 & Hs & E). destruct rows as [|row rest].
    + apply statement_none in Hs as [Hsame _]. apply IH in E. cbv zeta in *. rewrite Hsame in E. destruct E as [E|(Hi & Hf & _)]; [by left|]. right. by split_and!.
    + apply eff_bind_inr in E as (ack & db2 & [Ha ->]%lift_inr & E). apply eff_bind_inr in E as (u1 & db2 & [_ ->]%lift_inr & E).
      apply eff_bind_inr in E as (u2 & db2 & [_ ->]%lift_inr & [= <- <-]). right. split_and!; [done| |done].
      apply update_statement_inr in Hs as [(_ & -> & _)|[_ Hs]]; [apply Forall_Forall2_diag, Forall_true; by left|]. apply updated_rows_spec in Hs as (Hf & _).
      eapply Forall2_impl; [exact Hf|]. cbn beta. intros old new Hrow. rewrite scoped_where in Hrow. destruct (holds _ old); cbn [andb] in Hrow; [|by left].
      destruct (matches p old) eqn:Em; [|by left]. right. exists p. by destruct Hrow.
Qed.

End Conflicts.

Lemma equal_columns_exact values columns terms row : equal_columns values columns = inr terms ->
  forallb (fun q => matches q row) terms = true <-> forall column, column ∈ columns -> exists value, values !! column = Some (Some value) /\ row !! column = Some value.
Proof.
  revert terms. induction columns as [|column columns IH]; intros terms E; cbn [equal_columns] in E.
  - injection E as <-. split; [by intros _ ? ?%elem_of_nil|done].
  - destruct (values !! column) as [[value|]|] eqn:Ev; try done. apply checked_bind_inr in E as (rest & Er & [= <-]). cbn [forallb]. rewrite andb_true_iff, equals_matches, (IH _ Er). split.
    + intros [Hr Hc] c [->|Hin]%elem_of_cons; [by exists value|by apply Hc].
    + intros Hc. split; [destruct (Hc column) as (v & Hv & Hr); [by left|congruence]|]. intros c Hin. apply Hc. by right.
Qed.

Lemma insertedScope_exact context values p row : insertedScope context values = inr p ->
  matches p row = true <-> forall column, column ∈ containment_columns (ctx_model context) -> exists value, values !! column = Some (Some value) /\ row !! column = Some value.
Proof.
  unfold insertedScope. intros E. apply checked_bind_inr in E as (terms & Et & E). rewrite <-(equal_columns_exact _ _ _ row Et). destruct terms as [|q terms]; [by injection E as <-|].
  by rewrite (allOf_matches _ _ row E).
Qed.

Section Containment.
Context `{Schema, !SchemaLaws, NumberText} {Cap : Type} `{CapabilityAuthority Cap}.
Variables (models : TableModels) (name : string) (m : TableModel).
Hypotheses (Hlinked : linked models) (Hin : (name, m) ∈ models).

(** The rows in an insert's own containment are rows its [Ref] authorizes. *)
Lemma containment_authorized g key uuid given p scope row : t_view m = false -> key_of (t_scope m) = Some key -> prepared models m g key uuid given p ->
  insertedScope (contextOf models m) (pi_row p) = inr scope -> matches scope row = true -> authorized m (GrantRef g) row.
Proof.
  intros Hv Hk Hp Es Hm. pose proof (proj1 (insertedScope_exact _ _ _ row Es) Hm) as Hc. clear Hm. rename Hc into Hm. cbn [ctx_model contextOf] in Hm. pose proof (links_nodup m (in_ok models name m Hlinked Hin)) as Hd.
  destruct Hp as [d entry Et Ed El Erow _|link above entries Hchain Hdim El Erow _].
  - assert (Hc0 : chain m = []) by (eapply (in_top models name m Hlinked Hin); exact Et).
    apply (linkValues_exact m [] (mkContainer d key) [] g [entry]); [exact Hd|unfold links; by rewrite Et, Hc0|by cbn|exact El|].
    destruct (linkValues_shape _ _ _ _ El) as (es & [= -> <-] & _). intros e ->%list_elem_of_singleton. destruct (Hm key) as (v & Hv' & Hr).
    { unfold containment_columns. rewrite Et, Hc0. by left. }
    rewrite Erow, (stamped_key _ _ _ _ _ (stampInsert_stamped models name m Hlinked Hin Hv (r_principal g) given key (r_id g) Hk)) in Hv'. by injection Hv' as <-.
  - assert (Hlinks : exists below, links m = below ++ link :: above) by (unfold links; rewrite Hchain; destruct (t_scope m); [by eexists [_]|by exists []..]). destruct Hlinks as [below Hlinks].
    pose proof El as El'. rewrite Hchain in El'. apply (linkValues_exact m below link above g entries _ Hd Hlinks Hdim El'). intros entry He.
    destruct (Hm (link_column entry.1)) as (v & Hv' & Hr).
    { unfold containment_columns. apply elem_of_app. left. apply list_elem_of_fmap. exists entry.1. split; [done|by eapply entries_in_chain]. }
    rewrite Erow, (stampChain_lookup entries) in Hv'; [by injection Hv' as <-| |done]. rewrite (entries_columns m g entries El).
    by apply (stamps_apart models name m Hlinked Hin Hv key Hk).
Qed.

(** What an insert's conflict does to a row of the table. *)
Definition conflict_updated (g : RefGrant) (old new : Row) : Prop :=
  r_action g ∈ act_update (t_actions m) /\ authorized m (GrantRef g) old /\ authorized m (GrantRef g) new
  /\ forall column, column ∉ t_update m -> t_version m <> Some column -> new !! column = old !! column.

Definition insert_answered (capability : Cap) (uuid : string) (res : Inserted) (db db' : Database) : Prop :=
  if inserted res then exists ack, acknowledged res = Some ack /\ inserted_row models name m capability uuid ack db db'
  else exists g, resolve capability = inr (GrantRef g) /\ r_action g ∈ act_insert (t_actions m) /\
    Forall2 (fun old new => new = old \/ conflict_updated g old new) (rows_of db name) (rows_of db' name).

Lemma conflict_answered capability g key uuid values given options p res db db' : resolve capability = inr (GrantRef g) -> r_action g ∈ act_insert (t_actions m) ->
  key_of (t_scope m) = Some key -> readValues values (t_insert m) m = inr given -> onConflictOf (contextOf models m) options (r_action g) given = inr (pi_conflict p) ->
  prepared models m g key uuid given p -> insertPrepared (contextOf models m) p db = (inr res, db') -> insert_answered capability uuid res db db'.
Proof.
  intros Er Ha Hk Hr Hoc Hp E. unfold insertPrepared in E. destruct (pi_conflict p) as [conflict|] eqn:Ec.
  2:{ apply eff_bind_inr in E as (ack & db1 & E & [= <- <-]). unfold insert_answered. cbn. exists ack. split; [done|]. by eapply prepared_inserted. }
  apply transaction_inr, eff_bind_inr in E as ([] & db1 & El & E). pose proof (reads_lock (contextOf models m) (pi_destination p) db) as Hro. rewrite El in Hro. cbn in Hro. subst db1.
  unfold insertOnConflict in E. apply eff_bind_inr in E as (matching & db1 & [_ ->]%lift_inr & E). apply eff_bind_inr in E as (scope & db1 & [Es ->]%lift_inr & E).
  apply onConflictOf_spec in Hoc as [Hup Hact]. cbn [ctx_model contextOf] in *. apply attempts_inr in E. cbn [ctx_model contextOf] in E. rewrite (model_name models name m Hlinked Hin) in E.
  unfold insert_answered. destruct E as [(-> & Hv & ack & Eack & Hans & Hrows)|(-> & Hf & _)].
  - exists ack. split; [done|]. exists g, key, (set_values (pi_row p) (defaults name)). split_and!; [done|done|done|exact Hrows|by eapply (prepared_row models name m)| |].
    + unfold answer in Hans. apply checked_bind_inr in Hans as (k & Hk'%keyOf_spec & [= <-]). cbn [ctx_model contextOf] in Hk'. by assert (k = key) as -> by congruence.
    + intros owner Hd. by eapply locked_parent.
  - exists g. split_and!; [done|done|]. eapply Forall2_impl; [exact Hf|]. cbn beta. intros old new [->|(q & -> & Hq & Hv & Hc)]; [by left|]. right.
    destruct (oc_update conflict); [|by injection Es]. apply checked_bind_inr in Es as (q' & Es & [= ->]).
    assert (Hkeep : forall column, column ∉ t_update m -> t_version m <> Some column -> new !! column = old !! column).
    { intros column Hu Hver. rewrite (changed_row_spec _ _ _ _ Hc) by done. rewrite Hup. unfold updates_of. by rewrite map_lookup_filter_None_2 by (right; intros ? _; done). }
    pose proof (containment_authorized g key uuid given p q old Hv Hk Hp Es Hq) as Hauth. split_and!; [by apply Hact|done| |done].
    eapply (authorized_kept m); [|exact Hauth]. intros column Hcol. destruct (placing_columns models name m Hlinked Hin column Hv Hcol). by apply Hkeep.
Qed.

End Containment.

(** An insert with [onConflict] writes nothing outside its own containment. Either the row is inserted exactly as an insert
    without it would, whose key answers [inserted: true]; or no row is added, and each row of the table is as it was or, when
    [do: 'update'] was asked for under one of the table's update actions, is a row in the very containment the insert stamped
    that keeps it, with only update columns and the version changed. When it throws, the database is as it was. *)
Theorem conflict_contained `{Schema, !SchemaLaws, NumberText} {Cap : Type} `{CapabilityAuthority Cap} (models : TableModels) name (m : TableModel) (capability : Cap)
    values options uuid p db r db' :
  linked models -> (name, m) ∈ models ->
  prepareDimensionInsert (contextOf models m) capability values options uuid = inr p \/ prepareChildInsert (contextOf models m) capability values options uuid = inr p ->
  insertPrepared (contextOf models m) p db = (r, db') ->
  match r with inl _ => db' = db | inr res => insert_answered models name m capability uuid res db db' end.
Proof.
  intros Hl Hin Hp E. destruct r as [e|res].
  - unfold insertPrepared in E. destruct (pi_conflict p); [by apply transaction_inl in E as [-> _]|]. unfold mbind, eff_bind in E.
    destruct (insertRow _ _ _ db) as [[e'|ack] db1] eqn:Ei; [|done]. injection E as -> ->. by apply transaction_inl in Ei as [-> _].
  - destruct Hp as [Hp|Hp]; [apply (dimension_prepared models name m Hl Hin) in Hp|apply (child_prepared models name m Hl Hin) in Hp];
      destruct Hp as (g & key & given & ? & ? & ? & ? & ? & ?); by eapply conflict_answered.
Qed.

Definition on_conflict_update : Input :=
  ObjectOf None [("onConflict", Some (ObjectOf None [("columns", Some (ArrayOf [Prim (PText "id")])); ("do", Some (Prim (PText "update")))]))].

(** A task whose key is taken in the same project: its text is updated. *)
Lemma conflict_contained_witness : exists p res db',
  prepareChildInsert (H0 := demo_number_text) (H1 := demo_authority) (contextOf demo_models (demo_model "tasks")) (demo_ref "notes.write") (text "Call") on_conflict_update "t1" = inr p /\
  insertPrepared (H := demo_schema) (contextOf demo_models (demo_model "tasks")) p demo_db = (inr res, db') /\ inserted res = false /\
  Forall2 (fun old new => new = old \/ conflict_updated (demo_model "tasks") (mkRef "project" "notes.write" "u1" "p1" [("org", "o1")]) old new)
    (rows_of demo_db "tasks") (rows_of db' "tasks").
Proof.
  destruct (prepareChildInsert (H0 := demo_number_text) (H1 := demo_authority) (contextOf demo_models (demo_model "tasks")) (demo_ref "notes.write") (text "Call") on_conflict_update "t1")
    as [e|p] eqn:Ep; [by vm_compute in Ep|].
  destruct (insertPrepared (H := demo_schema) (contextOf demo_models (demo_model "tasks")) p demo_db) as [r db'] eqn:E.
  pose proof (conflict_contained (H0 := demo_schema_laws) (H1 := demo_number_text) (H2 := demo_authority) demo_models "tasks" (demo_model "tasks") _ _ _ _ _ _ _ _ demo_linked (demo_in "tasks" eq_refl) (or_intror Ep) E) as Ha.
  assert (Er : exists res, r = inr res /\ inserted res = false).
  { apply (f_equal fst) in E. vm_compute in Ep. injection Ep as <-. vm_compute in E. subst r. by eexists. }
  destruct Er as (res & -> & Ei). unfold insert_answered in Ha. rewrite Ei in Ha. destruct Ha as (g & Eg & _ & Hf). injection Eg as <-. by exists p, res, db'.
Defined.

(** ** Moves *)

Lemma located_values l (values : list (Container * string)) (row : Row) : map fst values = l -> (forall entry, entry ∈ values -> row !! link_column entry.1 = Some (PText entry.2)) ->
  located_chain l row = inr (map (fun entry => (link_dimension entry.1, entry.2)) values).
Proof.
  intros <-. induction values as [|entry values IH]; intros Hr; [done|]. cbn [map located_chain fst]. rewrite (Hr entry) by (by left). cbn [map].
  rewrite IH; [done|]. intros e He. apply Hr. by right.
Qed.

(** What a move does to one row. *)
Definition moved_row (models : TableModels) (m : TableModel) (grant : CapabilityGrant) (target : RefGrant) (found : list (string * string)) (db : Database) (old new : Row) : Prop :=
  authorized m grant old /\ authorized m (GrantRef target) new /\ located_chain (chain m) new = inr found
  /\ (forall column, column ∉ map link_column (chain m) -> t_version m <> Some column -> new !! column = old !! column)
  /\ forall owner, ctx_destination (contextOf models m) = Some owner -> exists parent, parent ∈ rows_of db (t_name owner) /\ placed_under m owner new parent.

(** A move takes an object out of the reach of one capability into that of another. Under a delete action at the source and
    an insert action at the target, it changes rows the source capability authorizes and no other; only their containment
    columns and their version change; each then lies in the target, under a row of the owning table that exists and lies
    where the target [Ref] says; and the chain it answers is what the locator answers of the moved row. When it throws, the
    database is as it was. *)
Theorem move_contained `{Schema, !SchemaLaws} {Cap : Type} `{CapabilityAuthority Cap} (models : TableModels) name (m : TableModel) (ref to : Cap) db r db' :
  linked models -> (name, m) ∈ models -> DimensionTable_move (contextOf models m) ref to db = (r, db') ->
  match r with
  | inl _ => db' = db
  | inr (_, found) => exists grant target, resolve ref = inr grant /\ grant_action grant ∈ act_delete (t_actions m)
      /\ resolve to = inr (GrantRef target) /\ r_action target ∈ act_insert (t_actions m)
      /\ Forall2 (fun old new => new = old \/ moved_row models m grant target found db old new) (rows_of db name) (rows_of db' name)
  end.
Proof.
  intros Hl Hin E. unfold DimensionTable_move in E. cbn [ctx_model contextOf] in E. unfold dimensionScope in E. destruct (t_scope m) as [d key up| | |] eqn:Es; try by injection E as <- <-.
  rewrite lift_bind in E. cbn [mret checked_ret ds_container] in E. destruct up as [c|]; [|by injection E as <- <-].
  rewrite lift_bind in E. destruct (objectPredicate _ _ _) as [e|p] eqn:Ep; [by injection E as <- <-|].
  rewrite lift_bind in E. destruct (refGrant _ _ _ _) as [e|target] eqn:Et; [by injection E as <- <-|].
  rewrite lift_bind in E. destruct (linkValues _ _) as [e|values] eqn:Ev; [by injection E as <- <-|].
  unfold mbind, eff_bind in E. destruct (updateRow _ _ _ _ _ db) as [[e|ack] db1] eqn:Eu.
  { injection E as <- <-. unfold updateRow in Eu. rewrite lift_bind in Eu. destruct (keyOf _); [by injection Eu as _ <-|]. by apply transaction_inl in Eu as [-> _]. }
  injection E as <- <-. destruct (objectPredicate_exact models name m Hl Hin _ _ _ Ep) as (g & Er & Ha & Hp). apply refGrant_spec in Et as (Er' & Ed & Ha').
  exists g, target. split_and!; [done|done|done|done|]. apply updateRow_inr in Eu as (Elock & row & rest & _ & _ & Eu). cbn [ctx_model contextOf addressed ad_scope conditionsWith ad_conditions scopedWhere] in Eu.
  rewrite <-(model_name models name m Hl Hin). apply update_statement_inr in Eu as [(_ & -> & _)|[Hv Eu]]; [apply Forall_Forall2_diag, Forall_true; by left|].
  cbn [ctx_model contextOf] in Eu. apply updated_rows_spec in Eu as (Hf & _). eapply Forall2_impl; [exact Hf|]. cbn beta. intros old new Hrow.
  destruct (matches p old) eqn:Em; [|by left]. destruct Hrow as [Hc _]. right.
  assert (Hk : key_of (t_scope m) = Some key) by (by rewrite Es). destruct (stamps_apart models name m Hl Hin Hv key Hk) as (_ & _ & _ & Hch & _ & Hcols).
  pose proof (in_chained models name m Hl Hin) as Hchained. unfold chained in Hchained. rewrite Es in Hchained. destruct Hchained as (above & Hchain & _).
  assert (Hnew : forall entry, entry ∈ values -> new !! link_column entry.1 = Some (PText entry.2)).
  { intros entry He. rewrite (changed_row_spec _ _ _ _ Hc) by (intros E; destruct (Hch (link_column entry.1)) as [Hn _]; [|done]; apply list_elem_of_fmap; exists entry.1; split; [done|by eapply entries_in_chain]).
    rewrite (stampChain_lookup values); [done|by rewrite (entries_columns m target values Ev)|done]. }
  split_and!.
  - by apply (Hp old).
  - assert (Ev' := Ev). rewrite Hchain in Ev'. apply (linkValues_exact m [mkContainer d key] c above target values); [apply links_nodup; by eapply in_ok|unfold links; by rewrite Es, Hchain|by rewrite Ed|exact Ev'|done].
  - apply located_values; [|done]. rewrite Hchain in Ev |- *. by destruct (linkValues_shape _ _ _ _ Ev) as (es & -> & <- & _).
  - intros column Hcol Hver. rewrite (changed_row_spec _ _ _ _ Hc) by done. by rewrite stampChain_other, lookup_empty by (by rewrite (entries_columns m target values Ev)).
  - intros owner Hdest. destruct (destination_chain models name m Hl Hin owner Hdest) as (n & link' & Hn & Hch'). cbn [lock_given] in Elock.
    destruct (lockDestination_inr models owner target db _ Hl Hdest (ex_intro _ n Hn) Elock) as (d' & okey & up & ovalues & parent & Eo & Eov & Hparent & Hvalues).
    exists parent. split; [done|]. eapply values_placed; [exact Hch'|exact Eo|by apply (in_ok models n owner Hl Hn)|exact Ev|exact Hnew|exact Eov|exact Hvalues].
Qed.

Definition move_db : Database := <["orgs" := [{["id" := PText "o1"]}; {["id" := PText "o2"]}]]> demo_db.

Definition to_org (org : string) : CapabilityGrant := GrantRef (mkRef "org" "notes.write" "u1" org []).

Lemma move_contained_witness : exists db',
  DimensionTable_move (H := demo_schema) (H1 := demo_authority) (contextOf demo_models (demo_model "projects")) (demo_ref "notes.write") (to_org "o2") move_db
    = (inr (mkAck (Some (PText "p1")) (Some (PInteger 2)), [("org", "o2")]), db') /\
  Forall2 (fun old new => new = old \/ moved_row demo_models (demo_model "projects") (demo_ref "notes.write") (mkRef "org" "notes.write" "u1" "o2" []) [("org", "o2")] move_db old new)
    (rows_of move_db "projects") (rows_of db' "projects").
Proof.
  destruct (DimensionTable_move (H := demo_schema) (H1 := demo_authority) (contextOf demo_models (demo_model "projects")) (demo_ref "notes.write") (to_org "o2") move_db)
    as [r db'] eqn:E. assert (r = inr (mkAck (Some (PText "p1")) (Some (PInteger 2)), [("org", "o2")])) as -> by (apply (f_equal fst) in E; change (r = _) with ((r, db').1 = inr (mkAck (Some (PText "p1")) (Some (PInteger 2)), [("org", "o2")])); rewrite <-E; by vm_compute).
  pose proof (move_contained (H0 := demo_schema_laws) (H1 := demo_authority) demo_models "projects" (demo_model "projects") _ _ _ _ _ demo_linked (demo_in "projects" eq_refl) E) as (g & target & Er & _ & Er' & _ & Hf).
  injection Er as <-. injection Er' as <-. by exists db'.
Defined.
