(* ===== verification/AppCapability.v ===== *)
(** The capabilities of an application's requests ([app/src/implement/capability.ts], [boundTo] of [invocation.ts]).

    A capability, a request's frame, an issuer and a map are JavaScript objects, which the code compares by identity: here
    each is its place on a heap, so a value of application code is a capability that was constructed or some other value.
    [currentRequest] is what the asynchronous context holds when an operation runs, an argument of the operations that read
    it. Maps are on the heap because application code can write to the map it handed in or was handed. *)

From S2P Require Import Prelude JobLeases Store.
From Stdlib Require Import Lia String Ascii.
From stdpp Require Import base tactics strings list.

(** ** Refusals *)

(** [CAPABILITY_REFUSALS] *)
Inductive CapabilityRefusal :=
| not_minted | ended | foreign_work | wrong_target | undeclared_action | undeclared_dimension | undeclared_kick | undeclared_binding
| undeclared_signs | undeclared_egress | wrong_binding | missing_id | wrong_capability.

#[export] Instance refusal_eq_dec : EqDecision CapabilityRefusal.
Proof. solve_decision. Defined.

Inductive CapabilityThrown := CapabilityRefusedError (reason : CapabilityRefusal) | CapabilityLimitError (count : nat).

(** ** Frames and maps *)

Record RequestFrame := mkFrame {
  frame_id : string;
  frame_fence : option LeaseFence;
  frame_readOnly : bool;
  frame_endpoint : option string;
  frame_ended : bool;
}.

Definition end_frame (frame : RequestFrame) : RequestFrame :=
  mkFrame (frame_id frame) (frame_fence frame) (frame_readOnly frame) (frame_endpoint frame) true.

(** A [Map] from strings to strings, in insertion order. *)
Notation Links := (list (string * string)).

(** [map.set(key, value)]: a key keeps its place. *)
Fixpoint map_set (key value : string) (links : Links) : Links :=
  match links with
  | [] => [(key, value)]
  | (k, v) :: links => if (k =? key)%string then (k, value) :: links else (k, v) :: map_set key value links
  end.

(** [chainOf]: the links [forEach] visits, in order. *)
Definition chainOf (map : Links) : Links := foldl (fun links link => links ++ [link]) [] map.

(** [mapOf]: a fresh map of the chain. *)
Definition mapOf (chain : Links) : Links := foldl (fun map link => map_set link.1 link.2 map) [] chain.

Definition copyOf (values : list string) : list string := foldl (fun copy value => copy ++ [value]) [] values.

Definition containerGrantsOf (containers : list ContainerGrant) : list ContainerGrant :=
  foldl (fun copy container => copy ++ [mkContainerGrant (cg_dimension container) (copyOf (cg_values container))]) [] containers.

#[local] Arguments chainOf : simpl never.
#[local] Arguments mapOf : simpl never.
#[local] Arguments copyOf : simpl never.
#[local] Arguments containerGrantsOf : simpl never.

(** ** The heap *)

(** The private fields of a capability: what it grants, a chain as its links, the frame and the issuer it was minted for. *)
Record Bound := mkBound { bound_grant : CapabilityGrant; bound_frame : nat; bound_issuer : nat }.

Record Heap := mkHeap { frames : list RequestFrame; issuers : nat; maps : list Links; capabilities : list Bound }.

Definition no_objects : Heap := mkHeap [] 0 [] [].

(** A value handed in as a capability. *)
Inductive value := Capability (place : nat) | NoCapability.

Definition with_frames (fs : list RequestFrame) (h : Heap) : Heap := mkHeap fs (issuers h) (maps h) (capabilities h).
Definition with_maps (ms : list Links) (h : Heap) : Heap := mkHeap (frames h) (issuers h) ms (capabilities h).

Notation act := (eff Heap CapabilityThrown).

Definition refuse {A} (reason : CapabilityRefusal) : act A := Eff.throw (CapabilityRefusedError reason).

Definition newFrame (id : string) (fence : option LeaseFence) (readOnly : bool) (endpoint : option string) : act nat := fun h =>
  (inr (length (frames h)), with_frames (frames h ++ [mkFrame id fence readOnly endpoint false]) h).

(** [frame.end()] *)
Definition endFrame (frame : nat) : act unit := Eff.modify (fun h => with_frames (alter end_frame frame (frames h)) h).

Definition newMap (links : Links) : act nat := fun h => (inr (length (maps h)), with_maps (maps h ++ [links]) h).

Definition setMap (map : nat) (key value : string) : act unit := Eff.modify (fun h => with_maps (alter (map_set key value) map (maps h)) h).

Definition map_at (map : nat) : act Links := Eff.gets (fun h => default [] (maps h !! map)).

Definition isEnded (frame : nat) (h : Heap) : bool := from_option frame_ended true (frames h !! frame).

(** [isActiveRequest] *)
Definition isActiveRequest (current : option nat) (frame : nat) : bool := bool_decide (current = Some frame).

Definition requestIsReadOnly (current : option nat) (h : Heap) : bool :=
  from_option frame_readOnly false (current ≫= fun frame => frames h !! frame).

(** ** The constructors *)

(** A capability's constructor, once it accepted its arguments. *)
Definition construct (issuer frame : nat) (grant : CapabilityGrant) : act value := fun h =>
  (inr (Capability (length (capabilities h))), mkHeap (frames h) (issuers h) (maps h) (capabilities h ++ [mkBound grant frame issuer])).

(** [token] is whether the caller holds [MINT]. *)
Definition new_Ref (token : bool) (issuer frame : nat) (dimension action principal id : string) (chain : nat) : act value :=
  if negb token then refuse not_minted
  else links ← map_at chain; construct issuer frame (GrantRef (mkRef dimension action principal id (chainOf links))).

Definition group_count (groups : list ContainerGrant) : nat := foldl (fun count group => count + length (cg_values group)) 0 groups.

Definition within_count (values : option (list string)) (held inside : list ContainerGrant) : nat :=
  match values with None => 0 | Some values => length values end + group_count held + group_count inside.

(** [values = None] is ['all']. *)
Definition new_Within (token : bool) (issuer frame : nat) (dimension action principal : string) (values : option (list string))
    (containers contained : list ContainerGrant) : act value :=
  if negb token then refuse not_minted
  else
    let held := match values with None => [] | Some _ => containerGrantsOf containers end in
    let inside := match values with None => [] | Some _ => containerGrantsOf contained end in
    let count := within_count values held inside in
    if (MAX_WITHIN_VALUES <? count)%nat then Eff.throw (CapabilityLimitError count)
    else construct issuer frame (GrantWithin (mkWithin dimension action principal (copyOf <$> values) held inside)).

Definition new_AppCapability (token : bool) (issuer frame : nat) (action principal : string) : act value :=
  if negb token then refuse not_minted else construct issuer frame (GrantApp (mkAppGrant action principal)).

(** The chain of [grant] is the contents of the map at [chain]. *)
Definition new_RowRef (token : bool) (issuer frame : nat) (table action principal id : string) (chain : nat) : act value :=
  if negb token then refuse not_minted
  else links ← map_at chain; construct issuer frame (GrantRow (mkRowGrant table action principal id (chainOf links))).

(** [createCapabilityIssuer]: a new identity; its [mint] and [authority] are the operations below at that issuer. *)
Definition createCapabilityIssuer : act nat := fun h => (inr (issuers h), mkHeap (frames h) (S (issuers h)) (maps h) (capabilities h)).

(** ** The authority *)

(** What [readRef], [readWithin], [readApp] and [readRow] read, a chain as a fresh map. *)
Definition grant_read (grant : CapabilityGrant) : CapabilityGrant :=
  match grant with
  | GrantRef g => GrantRef (mkRef (r_dimension g) (r_action g) (r_principal g) (r_id g) (mapOf (r_chain g)))
  | GrantRow g => GrantRow (mkRowGrant (row_table g) (row_action g) (row_principal g) (row_id g) (mapOf (row_chain g)))
  | _ => grant
  end.

Definition read (v : value) (h : Heap) : option Bound :=
  match v with
  | NoCapability => None
  | Capability place => (fun b => mkBound (grant_read (bound_grant b)) (bound_frame b) (bound_issuer b)) <$> capabilities h !! place
  end.

(** The map a read chain is handed out as. *)
Definition chain_of (grant : CapabilityGrant) : option Links :=
  match grant with GrantRef g => Some (r_chain g) | GrantRow g => Some (row_chain g) | _ => None end.

(** [authority.resolve] *)
Definition resolve (issuer : nat) (current : option nat) (v : value) : act CapabilityGrant :=
  bound ← Eff.gets (read v);
  match bound with
  | None => refuse not_minted
  | Some bound =>
      if negb (bound_issuer bound =? issuer)%nat then refuse not_minted
      else
        _ ← match chain_of (bound_grant bound) with Some links => _ ← newMap links; mret tt | None => mret tt end;
        over ← Eff.gets (isEnded (bound_frame bound));
        if over : bool then refuse ended
        else if negb (isActiveRequest current (bound_frame bound)) then refuse foreign_work
        else mret (bound_grant bound)
  end.

(** [authority.row] *)
Definition row (issuer : nat) (current : option nat) (table action principal id : string) (chain : nat) : act value :=
  match current with
  | None => refuse ended
  | Some frame =>
      over ← Eff.gets (isEnded frame);
      if over : bool then refuse ended else new_RowRef true issuer frame table action principal id chain
  end.

(** [authority.fence] *)
Definition fence (current : option nat) (h : Heap) : option LeaseFence := current ≫= fun frame => frames h !! frame ≫= frame_fence.

(** [boundTo]: the check of a handle of [frame], whose own work has [over]. *)
Definition boundTo (frame : nat) (over : bool) (current : option nat) : act unit :=
  finished ← Eff.gets (isEnded frame);
  if (finished : bool) || over then refuse ended
  else if negb (isActiveRequest current frame) then refuse foreign_work
  else mret tt.

(** ** Everything that may happen *)

(** What the framework and application code do, in any order. An operation on a frame or a map that does not exist cannot be
    written and does nothing. *)
Inductive Op :=
| ONewFrame (id : string) (fence : option LeaseFence) (readOnly : bool) (endpoint : option string)
| OEndFrame (frame : nat)
| OIssuer
| ONewMap (links : Links)
| OSetMap (map : nat) (key value : string)
| ORef (token : bool) (issuer frame : nat) (dimension action principal id : string) (chain : nat)
| OWithin (token : bool) (issuer frame : nat) (dimension action principal : string) (values : option (list string)) (containers contained : list ContainerGrant)
| OApp (token : bool) (issuer frame : nat) (action principal : string)
| ORow (issuer : nat) (current : option nat) (table action principal id : string) (chain : nat)
| OResolve (issuer : nat) (current : option nat) (v : value).

Inductive Outcome := Made (v : value) | Granted (grant : CapabilityGrant) | Refused (e : CapabilityThrown) | Quiet.

Definition outcome {A} (f : A -> Outcome) (m : act A) (h : Heap) : Outcome * Heap :=
  match m h with (inl e, h') => (Refused e, h') | (inr a, h') => (f a, h') end.

Definition perform (op : Op) (h : Heap) : Outcome * Heap :=
  match op with
  | ONewFrame id fence readOnly endpoint => outcome (fun _ => Quiet) (newFrame id fence readOnly endpoint) h
  | OEndFrame frame => outcome (fun _ => Quiet) (endFrame frame) h
  | OIssuer => outcome (fun _ => Quiet) createCapabilityIssuer h
  | ONewMap links => outcome (fun _ => Quiet) (newMap (mapOf links)) h
  | OSetMap map key value => outcome (fun _ => Quiet) (setMap map key value) h
  | ORef token issuer frame dimension action principal id chain =>
      if (frame <? length (frames h))%nat then outcome Made (new_Ref token issuer frame dimension action principal id chain) h else (Quiet, h)
  | OWithin token issuer frame dimension action principal values containers contained =>
      if (frame <? length (frames h))%nat then outcome Made (new_Within token issuer frame dimension action principal values containers contained) h else (Quiet, h)
  | OApp token issuer frame action principal =>
      if (frame <? length (frames h))%nat then outcome Made (new_AppCapability token issuer frame action principal) h else (Quiet, h)
  | ORow issuer current table action principal id chain => outcome Made (row issuer current table action principal id chain) h
  | OResolve issuer current v => outcome Granted (resolve issuer current v) h
  end.

Definition run_from (h : Heap) (ops : list Op) : Heap := foldl (fun h op => (perform op h).2) h ops.

Notation run := (run_from no_objects).

(** ** Copies *)

Lemma foldl_snoc_map {A B} (f : A -> B) l acc : foldl (fun copy x => copy ++ [f x]) acc l = acc ++ map f l.
Proof. revert acc. induction l as [|x l IH]; intros acc; cbn; [by rewrite app_nil_r|]. by rewrite IH, <- app_assoc. Qed.

Lemma chainOf_same map : chainOf map = map.
Proof. unfold chainOf. rewrite (foldl_snoc_map id). apply map_id. Qed.

Lemma copyOf_same values : copyOf values = values.
Proof. unfold copyOf. rewrite (foldl_snoc_map id). apply map_id. Qed.

Lemma containerGrantsOf_same containers : containerGrantsOf containers = containers.
Proof.
  unfold containerGrantsOf. rewrite foldl_snoc_map. cbn. rewrite <- (map_id containers) at 2. apply map_ext. intros [d vs]. cbn. by rewrite copyOf_same.
Qed.

(** A map has each key once. *)
Definition is_map (links : Links) : Prop := NoDup links.*1.

Lemma map_set_keys key value links : (map_set key value links).*1 = if decide (key ∈ links.*1) then links.*1 else links.*1 ++ [key].
Proof.
  induction links as [|[k v] links IH]; cbn; [done|]. destruct (String.eqb_spec k key) as [->|Hne]; cbn.
  - by rewrite decide_True by by left.
  - rewrite IH. destruct (decide (key ∈ links.*1)); [by rewrite decide_True by by right|]. rewrite decide_False; [done|]. intros [?|?]%elem_of_cons; congruence.
Qed.

Lemma map_set_is_map key value links : is_map links -> is_map (map_set key value links).
Proof.
  unfold is_map. intros Hm. rewrite map_set_keys. destruct (decide _) as [|Hn]; [done|]. apply NoDup_app. repeat split; [done| |apply NoDup_singleton].
  by intros k Hk ->%list_elem_of_singleton.
Qed.

Lemma map_set_new key value links : key ∉ links.*1 -> map_set key value links = links ++ [(key, value)].
Proof.
  induction links as [|[k v] links IH]; cbn; [done|]. intros [Hk Hn]%not_elem_of_cons. destruct (String.eqb_spec k key); [congruence|]. by rewrite IH.
Qed.

Lemma mapOf_from map links : is_map (map ++ links) -> foldl (fun map link => map_set link.1 link.2 map) map links = map ++ links.
Proof.
  revert map. induction links as [|[k v] links IH]; intros map Hm; cbn; [by rewrite app_nil_r|].
  rewrite map_set_new, IH; rewrite <- ?app_assoc; [done|done|]. unfold is_map in Hm. rewrite fmap_app in Hm. apply NoDup_app in Hm as (_ & Hn & _).
  intros Hk. by apply (Hn _ Hk); left.
Qed.

Lemma mapOf_same links : is_map links -> mapOf links = links.
Proof. intros Hm. exact (mapOf_from [] links Hm). Qed.

Lemma mapOf_is_map links : is_map (mapOf links).
Proof.
  unfold mapOf. assert (H : is_map []) by constructor. revert H. generalize (@nil (string * string)). induction links as [|l links IH]; intros m Hm; cbn; [done|].
  by apply IH, map_set_is_map.
Qed.

(** ** What a step does *)

#[local] Arguments Nat.ltb : simpl never.
#[local] Arguments Nat.leb : simpl never.

(** What an operation mints, and for which issuer and frame: a chain is the map's contents then. *)
Definition mints (op : Op) (h : Heap) : option Bound :=
  let links_at map := default [] (maps h !! map) in
  match op with
  | ORef true issuer frame d a p id chain =>
      if (frame <? length (frames h))%nat then Some (mkBound (GrantRef (mkRef d a p id (links_at chain))) frame issuer) else None
  | OWithin true issuer frame d a p values held inside =>
      let held := if values then held else [] in
      let inside := if values then inside else [] in
      if (frame <? length (frames h))%nat && (within_count values held inside <=? MAX_WITHIN_VALUES)%nat
      then Some (mkBound (GrantWithin (mkWithin d a p values held inside)) frame issuer) else None
  | OApp true issuer frame a p => if (frame <? length (frames h))%nat then Some (mkBound (GrantApp (mkAppGrant a p)) frame issuer) else None
  | ORow issuer (Some frame) t a p id chain =>
      if isEnded frame h then None else Some (mkBound (GrantRow (mkRowGrant t a p id (links_at chain))) frame issuer)
  | _ => None
  end.

Lemma within_same values containers contained :
  (match values with None => [] | Some _ => containerGrantsOf containers end) = (if values : option (list string) then containers else []) /\
  (match values with None => [] | Some _ => containerGrantsOf contained end) = (if values then contained else []) /\ copyOf <$> values = values.
Proof. destruct values as [vs|]; cbn; [by rewrite !containerGrantsOf_same, copyOf_same|done]. Qed.

(** An operation adds to the capabilities exactly what it mints. *)
Lemma perform_capabilities op h : capabilities (perform op h).2 = capabilities h ++ option_list (mints op h).
Proof.
  destruct op as [| | | | |token iss f d a p id c|token iss f d a p vs held inside|token iss f a p|iss [f|] t a p id c|iss cur v];
    cbn [perform mints option_list]; unfold outcome, newFrame, endFrame, createCapabilityIssuer, newMap, setMap; cbn; rewrite ?app_nil_r; try done.
  - destruct token, (f <? length (frames h))%nat; cbn; rewrite ?app_nil_r; try done. unfold map_at, mbind, eff_bind, Eff.gets, construct. cbn. by rewrite chainOf_same.
  - destruct token, (f <? length (frames h))%nat; cbn [andb option_list]; unfold new_Within; cbn [negb]; rewrite ?app_nil_r; try done.
    destruct (within_same vs held inside) as (-> & -> & ->). rewrite Nat.leb_antisym. destruct (MAX_WITHIN_VALUES <? _)%nat; cbn; by rewrite ?app_nil_r.
  - destruct token, (f <? length (frames h))%nat; cbn; by rewrite ?app_nil_r.
  - unfold row, mbind, eff_bind, Eff.gets. destruct (isEnded f h); cbn; [by rewrite app_nil_r|]. unfold map_at, Eff.gets, construct. cbn. by rewrite chainOf_same.
  - unfold resolve, mbind, eff_bind, Eff.gets, refuse, Eff.throw. destruct (read v h) as [b|]; [|done]. destruct (negb (_ =? _)%nat); [done|].
    destruct (chain_of _); cbn; destruct (isEnded _ _); try done; by destruct (isActiveRequest _ _).
Qed.

Lemma perform_made op h v : (perform op h).1 = Made v <-> exists b, mints op h = Some b /\ v = Capability (length (capabilities h)).
Proof.
  destruct op as [| | | | |token iss f d a p id c|token iss f d a p vs held inside|token iss f a p|iss [f|] t a p id c|iss cur w];
    cbn [perform mints]; unfold outcome, newFrame, endFrame, createCapabilityIssuer, newMap, setMap; cbn; try naive_solver.
  - destruct token, (f <? length (frames h))%nat; cbn; naive_solver.
  - destruct token, (f <? length (frames h))%nat; cbn [andb]; unfold new_Within; cbn [negb]; try naive_solver.
    destruct (within_same vs held inside) as (-> & -> & ->). rewrite Nat.leb_antisym. destruct (MAX_WITHIN_VALUES <? _)%nat; cbn; naive_solver.
  - destruct token, (f <? length (frames h))%nat; cbn; naive_solver.
  - unfold row, mbind, eff_bind, Eff.gets. destruct (isEnded f h); cbn; naive_solver.
  - unfold resolve, mbind, eff_bind, Eff.gets, refuse, Eff.throw. destruct (read w h) as [b|]; [|naive_solver]. destruct (negb (_ =? _)%nat); [naive_solver|].
    destruct (chain_of _); cbn; destruct (isEnded _ _); try naive_solver; destruct (isActiveRequest _ _); cbn; naive_solver.
Qed.

(** What an operation does to the frames: it adds one that runs, or ends one. *)
Lemma perform_frames op h :
  frames (perform op h).2 = match op with
                            | ONewFrame id fence ro ep => frames h ++ [mkFrame id fence ro ep false]
                            | OEndFrame f => alter end_frame f (frames h)
                            | _ => frames h
                            end.
Proof.
  destruct op as [| | | | |token iss f d a p id c|token iss f d a p vs held inside|token iss f a p|iss [f|] t a p id c|iss cur v]; try done; cbn [perform].
  - destruct token, (f <? length (frames h))%nat; done.
  - destruct token, (f <? length (frames h))%nat; try done. unfold outcome, new_Within. cbn [negb]. by destruct (MAX_WITHIN_VALUES <? _)%nat.
  - destruct token, (f <? length (frames h))%nat; done.
  - unfold outcome, row, mbind, eff_bind, Eff.gets. by destruct (isEnded f h).
  - unfold outcome, resolve, mbind, eff_bind, Eff.gets, refuse, Eff.throw. destruct (read v h) as [b|]; [|done]. destruct (negb (_ =? _)%nat); [done|].
    destruct (chain_of _); cbn; destruct (isEnded _ _); try done; by destruct (isActiveRequest _ _).
Qed.

Definition maps_ok (h : Heap) : Prop := Forall is_map (maps h).

Definition grants_ok (h : Heap) : Prop := Forall (fun b => from_option is_map True (chain_of (bound_grant b))) (capabilities h).

Lemma maps_ok_at h m : maps_ok h -> is_map (default [] (maps h !! m)).
Proof. intros Hm. destruct (maps h !! m) as [links|] eqn:E; cbn; [by eapply Forall_lookup_1|constructor]. Qed.

Lemma mints_ok op h b : maps_ok h -> mints op h = Some b -> from_option is_map True (chain_of (bound_grant b)).
Proof.
  intros Hm. destruct op as [| | | | |[] iss f d a p id c|[] iss f d a p vs held inside|[] iss f a p|iss [f|] t a p id c|iss cur v]; cbn; try done; case_match; try done;
    intros [= <-]; cbn; by try apply maps_ok_at.
Qed.

Lemma grant_read_map grant : from_option is_map True (chain_of (grant_read grant)).
Proof. destruct grant; cbn; try done; apply mapOf_is_map. Qed.

Lemma perform_maps op h : maps_ok h -> maps_ok (perform op h).2.
Proof.
  intros Hm. unfold maps_ok in *.
  destruct op as [| | | | |token iss f d a p id c|token iss f d a p vs held inside|token iss f a p|iss [f|] t a p id c|iss cur v]; try done; cbn [perform].
  - apply Forall_app. split; [done|]. constructor; [apply mapOf_is_map|done].
  - cbn. unfold with_maps. cbn. apply Forall_alter; [done|]. intros links _ Hl. by apply map_set_is_map.
  - destruct token, (f <? length (frames h))%nat; done.
  - destruct token, (f <? length (frames h))%nat; try done. unfold outcome, new_Within. cbn [negb]. by destruct (MAX_WITHIN_VALUES <? _)%nat.
  - destruct token, (f <? length (frames h))%nat; done.
  - unfold outcome, row, mbind, eff_bind, Eff.gets. by destruct (isEnded f h).
  - unfold outcome, resolve, mbind, eff_bind, Eff.gets, refuse, Eff.throw. destruct (read v h) as [b|] eqn:Er; [|done]. destruct (negb (_ =? _)%nat); [done|].
    assert (Hb : from_option is_map True (chain_of (bound_grant b))).
    { destruct v as [n|]; cbn in Er; [|done]. apply fmap_Some in Er as (b0 & _ & ->). apply grant_read_map. }
    destruct (chain_of _) as [links|]; cbn; destruct (isEnded _ _); try destruct (isActiveRequest _ _); cbn; try done; apply Forall_app; (split; [done|]); by constructor.
Qed.

Lemma perform_grants op h : maps_ok h -> grants_ok h -> grants_ok (perform op h).2.
Proof.
  intros Hm Hg. unfold grants_ok. rewrite perform_capabilities. apply Forall_app. split; [done|]. destruct (mints op h) as [b|] eqn:E; cbn; [|done].
  constructor; [by eapply mints_ok|done].
Qed.

Lemma run_snoc ops op : run (ops ++ [op]) = (perform op (run ops)).2.
Proof. unfold run_from. by rewrite foldl_app. Qed.

Lemma run_ok ops : maps_ok (run ops) /\ grants_ok (run ops).
Proof.
  induction ops as [|op ops [Hm Hg]] using rev_ind; [by split; constructor|]. rewrite run_snoc. split; [by apply perform_maps|by apply perform_grants].
Qed.

(** ** Whole histories *)

(** [ops] minted [v] from [issuer], in [frame], with [grant]. *)
Definition minted (ops : list Op) (v : value) (b : Bound) : Prop :=
  exists pre op post, ops = pre ++ op :: post /\ mints op (run pre) = Some b /\ (perform op (run pre)).1 = Made v.

(** [frame] was created, and ended since. *)
Definition frame_over (ops : list Op) (frame : nat) : Prop :=
  exists pre post, ops = pre ++ OEndFrame frame :: post /\ frame < length (frames (run pre)).

Lemma snoc_cases {A} (P : list A -> A -> list A -> Prop) l x :
  (exists pre y post, l ++ [x] = pre ++ y :: post /\ P pre y post) <-> (exists pre y post, l = pre ++ y :: post /\ P pre y (post ++ [x])) \/ P l x [].
Proof.
  split.
  - intros (pre & y & post & He & HP). destruct post as [|z post _] using rev_ind.
    + apply app_inj_tail in He as [-> ->]. by right.
    + rewrite app_comm_cons, app_assoc in He. apply app_inj_tail in He as [-> ->]. left. by exists pre, y, post.
  - intros [(pre & y & post & -> & HP)|HP]; [|by exists l, x, []]. exists pre, y, (post ++ [x]). by rewrite <- app_assoc.
Qed.

Lemma minted_spec ops n b : minted ops (Capability n) b <-> capabilities (run ops) !! n = Some b.
Proof.
  induction ops as [|op ops IH] using rev_ind.
  - split; [|done]. intros (pre & op & post & He & _). by destruct pre.
  - rewrite run_snoc, perform_capabilities. unfold minted.
    rewrite (snoc_cases (fun pre op _ => mints op (run pre) = Some b /\ (perform op (run pre)).1 = Made (Capability n))).
    change (minted ops (Capability n) b \/ (mints op (run ops) = Some b /\ (perform op (run ops)).1 = Made (Capability n)) <->
      (capabilities (run ops) ++ option_list (mints op (run ops))) !! n = Some b). rewrite IH, perform_made, lookup_app_Some.
    split.
    + intros [?|[Hm (b' & Hm' & [= ->])]]; [by left|]. right. split; [done|]. by rewrite Hm, Nat.sub_diag.
    + intros [?|[Hle Hb]]; [by left|]. right. destruct (mints op (run ops)) as [b'|]; cbn in Hb; [|done].
      destruct (n - _) eqn:En; cbn in Hb; [|done]. injection Hb as ->. split; [done|]. exists b. split; [done|]. f_equal. lia.
Qed.

Lemma run_from_app h pre post : run_from h (pre ++ post) = run_from (run_from h pre) post.
Proof. unfold run_from. by rewrite foldl_app. Qed.

Lemma frames_grow h ops : length (frames h) <= length (frames (run_from h ops)).
Proof.
  revert h. induction ops as [|op ops IH]; intros h; cbn; [done|]. etransitivity; [|apply IH]. rewrite perform_frames.
  destruct op; rewrite ?length_app, ?length_alter; cbn; lia.
Qed.

Lemma frame_over_spec ops f : f < length (frames (run ops)) -> isEnded f (run ops) = true <-> frame_over ops f.
Proof.
  induction ops as [|op ops IH] using rev_ind; [cbn; lia|]. unfold frame_over.
  assert (Hs : (exists pre post, ops ++ [op] = pre ++ OEndFrame f :: post /\ f < length (frames (run pre))) <->
    frame_over ops f \/ (op = OEndFrame f /\ f < length (frames (run ops)))).
  { pose proof (snoc_cases (fun pre y _ => y = OEndFrame f /\ f < length (frames (run pre))) ops op) as Hc. unfold frame_over. split.
    - intros (pre & post & He & Hf). destruct (proj1 Hc) as [(p & y & q & -> & -> & ?)|[-> ?]]; [by exists pre, (OEndFrame f), post|left; by exists p, q|by right].
    - intros [(pre & post & -> & Hf)|[-> Hf]]; [|by exists ops, []]. exists pre, (post ++ [op]). by rewrite <- app_assoc. }
  rewrite Hs, run_snoc. unfold isEnded in *. rewrite perform_frames. intros Hf.
  destruct op; try (rewrite IH by done; naive_solver).
  - rewrite length_app in Hf. cbn in Hf. destruct (decide (f = length (frames (run ops)))) as [->|Hne].
    + rewrite lookup_app_r, Nat.sub_diag by done. cbn. split; [done|]. intros [(pre & post & He & Hl)|[? ?]]; [|done].
      exfalso. pose proof (frames_grow (run pre) (OEndFrame (length (frames (run ops))) :: post)) as Hg. rewrite <- run_from_app, <- He in Hg. lia.
    + rewrite lookup_app_l by lia. rewrite IH by lia. naive_solver.
  - rewrite length_alter in Hf. destruct (decide (frame = f)) as [->|Hne].
    + rewrite list_lookup_alter_eq. destruct (frames (run ops) !! f) eqn:E; cbn; [naive_solver|]. apply lookup_ge_None in E. lia.
    + rewrite list_lookup_alter_ne by done. rewrite IH by done. naive_solver.
Qed.

(** A capability's frame existed when it was minted. *)
Lemma mints_frame op h b : mints op h = Some b -> bound_frame b < length (frames h).
Proof.
  destruct op as [| | | | |[] iss f d a p id c|[] iss f d a p vs held inside|[] iss f a p|iss [f|] t a p id c|iss cur v]; cbn [mints]; try done.
  1-3: case_match; try done; intros [= <-]; cbn; to_prop; lia.
  unfold isEnded. destruct (frames h !! f) eqn:E; cbn; [|done]. case_match; [done|]. intros [= <-]. by eapply lookup_lt_Some.
Qed.

Lemma minted_frame ops v b : minted ops v b -> bound_frame b < length (frames (run ops)).
Proof.
  intros (pre & op & post & -> & Hm & _). eapply Nat.lt_le_trans; [by eapply mints_frame|]. rewrite run_from_app. apply frames_grow.
Qed.

Lemma minted_value ops v b : minted ops v b -> exists n, v = Capability n.
Proof. intros (pre & op & post & _ & _ & (b' & _ & ->)%perform_made). by eexists. Qed.

Lemma grant_read_same grant : from_option is_map True (chain_of grant) -> grant_read grant = grant.
Proof. destruct grant as [[]| | |[]]; cbn; intros Hm; by rewrite ?mapOf_same. Qed.

(** What a value is read as is what it was minted with, whatever was written to maps since. *)
Lemma read_spec ops v b : read v (run ops) = Some b <-> minted ops v b.
Proof.
  split.
  - destruct v as [n|]; cbn; [|done]. intros (b0 & Hb & ->)%fmap_Some. apply minted_spec. rewrite Hb. f_equal. destruct b0 as [g f i]. cbn. f_equal.
    symmetry. apply grant_read_same. destruct (run_ok ops) as [_ Hg]. exact (Forall_lookup_1 _ _ _ _ Hg Hb).
  - intros Hm. destruct (minted_value _ _ _ Hm) as [n ->]. apply minted_spec in Hm. cbn. rewrite Hm. cbn. destruct b as [g f i]. cbn. f_equal. f_equal.
    apply grant_read_same. destruct (run_ok ops) as [_ Hg]. exact (Forall_lookup_1 _ _ _ _ Hg Hm).
Qed.

Lemma isActive_spec current frame : isActiveRequest current frame = true <-> current = Some frame.
Proof. apply bool_decide_eq_true. Qed.

Lemma resolve_inr issuer current v h g :
  (resolve issuer current v h).1 = inr g <->
  exists f, read v h = Some (mkBound g f issuer) /\ isEnded f h = false /\ current = Some f.
Proof.
  unfold resolve, mbind, eff_bind, Eff.gets, refuse, Eff.throw. destruct (read v h) as [[g' f i]|]; [|naive_solver]. cbn.
  destruct (decide (i = issuer)) as [->|Hne]; [|rewrite (proj2 (Nat.eqb_neq _ _) Hne); cbn; naive_solver].
  assert (Hlen : forall ms, isEnded f (with_maps ms h) = isEnded f h) by done.
  rewrite Nat.eqb_refl. pose proof (isActive_spec current f) as Ha.
  transitivity (g' = g /\ isEnded f h = false /\ current = Some f).
  - rewrite <- Ha. destruct (chain_of g'); cbn; rewrite ?Hlen; clear Hlen Ha; destruct (isEnded f h), (isActiveRequest current f); cbn; naive_solver.
  - clear. naive_solver.
Qed.

(** C13. The authority of an issuer accepts a value exactly when that issuer minted it, in the request that runs now, and the
    request has not ended; it then grants what was minted, a chain as it was at minting, whatever application code did to the
    maps it handed in or was handed, and whatever else was minted, ended or resolved in between. So a capability forged,
    minted by another issuer, kept past its request or used from other work is refused. *)
Theorem resolve_exact ops issuer current v g :
  (resolve issuer current v (run ops)).1 = inr g <->
  exists f, minted ops v (mkBound g f issuer) /\ current = Some f /\ ~ frame_over ops f.
Proof.
  rewrite resolve_inr. split.
  - intros (f & Hr & He & ->). apply read_spec in Hr. exists f. repeat split; [done|]. rewrite <- frame_over_spec by exact (minted_frame _ _ _ Hr). by rewrite He.
  - intros (f & Hm & -> & Ho). exists f. rewrite read_spec. repeat split; [done|]. rewrite <- frame_over_spec in Ho by exact (minted_frame _ _ _ Hm).
    by destruct (isEnded f (run ops)).
Qed.

(** A [Within] carries every value the caller holds, or is refused: never a part of them. *)
Lemma within_whole issuer frame d a p values containers contained h :
  (new_Within true issuer frame d a p values containers contained h).1 =
  let held := if values then containers else [] in let inside := if values then contained else [] in
  if (MAX_WITHIN_VALUES <? within_count values held inside)%nat then inl (CapabilityLimitError (within_count values held inside))
  else inr (Capability (length (capabilities h))).
Proof. unfold new_Within. cbn [negb]. destruct (within_same values containers contained) as (-> & -> & ->). by destruct (_ <? _)%nat. Qed.

(** A handle's check passes exactly while its frame and its own work last, in that frame. *)
Lemma boundTo_exact frame over current h :
  (boundTo frame over current h).1 = inr tt <-> isEnded frame h = false /\ over = false /\ current = Some frame.
Proof.
  unfold boundTo, mbind, eff_bind, Eff.gets, refuse, Eff.throw. destruct (isEnded frame h), over; cbn; try naive_solver.
  rewrite <- isActive_spec. destruct (isActiveRequest current frame); cbn; naive_solver.
Qed.

(** ** For the data layer *)

Definition refusal_code (reason : CapabilityRefusal) : string :=
  match reason with
  | not_minted => "not_minted" | ended => "ended" | foreign_work => "foreign_work" | wrong_target => "wrong_target"
  | undeclared_action => "undeclared_action" | undeclared_dimension => "undeclared_dimension" | undeclared_kick => "undeclared_kick"
  | undeclared_binding => "undeclared_binding" | undeclared_signs => "undeclared_signs" | undeclared_egress => "undeclared_egress"
  | wrong_binding => "wrong_binding" | missing_id => "missing_id" | wrong_capability => "wrong_capability"
  end.

(** What a statement of the data layer asks while [current] runs; a refusal passes through the store under its code. *)
Definition authority (issuer : nat) (current : option nat) (h : Heap) : CapabilityAuthority value := fun v =>
  match (resolve issuer current v h).1 with
  | inr grant => inr grant
  | inl (CapabilityRefusedError reason) => inl (CapabilityError (refusal_code reason))
  | inl (CapabilityLimitError _) => inl (CapabilityError "")
  end.

Lemma authority_grants issuer current h v g : authority issuer current h v = inr g <-> (resolve issuer current v h).1 = inr g.
Proof. unfold authority. destruct (resolve issuer current v h).1 as [[]|]; naive_solver. Qed.
