(* ===== verification/Project.v ===== *)
(** Output projection ([app/src/implement/project.ts]): what a handler returned, reduced to the fields its output schema
    declares.

    [Unknown] is a JavaScript value as the code inspects one, an object by its own fields. zod is not under [src/]: [Schema]
    is the structure of a schema as [project] reads it, [ZOther] any schema it does not look into, and [safeParse] a class. *)

From S2P Require Import Prelude.
From Stdlib Require Import ZArith Lia String Ascii.
From stdpp Require Import base tactics strings option list.

(** ** Values and schemas *)

Inductive Unknown :=
| UUndefined
| UNull
| UBool (b : bool)
| UNum (n : jsnum)
| UStr (s : string)
| UArr (items : list Unknown)
| UObj (fields : list (string * Unknown))
| UOther (kind : nat).

Fixpoint of_json (v : json) : Unknown :=
  match v with
  | JNull => UNull
  | JBool b => UBool b
  | JNum n => UNum n
  | JStr s => UStr s
  | JArr items => UArr (map of_json items)
  | JObj fields => UObj (map (fun field => (field.1, of_json field.2)) fields)
  end.

Inductive Schema :=
| ZObject (shape : list (string * Schema))
| ZArray (element : Schema)
| ZTuple (items : list Schema) (rest : option Schema)
| ZRecord (valueType : Schema)
| ZOptional (innerType : Schema)
| ZDefault (innerType : Schema)
| ZNullable (innerType : Schema)
| ZUnion (options : list Schema)
| ZOther (kind : nat).

Record Issue := mkIssue { issue_path : list string; issue_code : string; issue_message : string }.

Class Zod := { safeParse : Schema -> Unknown -> list Issue + Unknown }.

Definition accepts `{Zod} (schema : Schema) (value : Unknown) : bool := match safeParse schema value with inr _ => true | inl _ => false end.

Definition isRecord (value : Unknown) : bool := match value with UObj _ => true | _ => false end.

(** ** project *)

Section Project.
Context `{Zod}.

(** [None] is a [ProjectionRefusedError]. *)
Fixpoint project (schema : Schema) (value : Unknown) {struct schema} : option Unknown :=
  match schema with
  | ZObject shape =>
      match value with
      | UObj fields =>
          UObj <$> (fix declared shape :=
            match shape with
            | [] => Some []
            | (name, field) :: shape =>
                match lookup_field name fields with
                | None => declared shape
                | Some item => item ← project field item; rest ← declared shape; Some ((name, item) :: rest)
                end
            end) shape
      | _ => Some value
      end
  | ZArray element => match value with UArr items => UArr <$> mapM (project element) items | _ => Some value end
  | ZTuple positions rest =>
      match value with
      | UArr items =>
          UArr <$> (fix at_each positions items {struct positions} :=
            match positions with
            | [] => match rest with Some rest => mapM (project rest) items | None => Some items end
            | position :: positions =>
                match items with
                | [] => Some []
                | item :: items => item ← project position item; others ← at_each positions items; Some (item :: others)
                end
            end) positions items
      | _ => Some value
      end
  | ZRecord valueType =>
      match value with
      | UObj fields => UObj <$> mapM (fun field => item ← project valueType field.2; Some (field.1, item)) fields
      | _ => Some value
      end
  | ZOptional inner | ZDefault inner => match value with UUndefined => Some value | _ => project inner value end
  | ZNullable inner => match value with UNull => Some value | _ => project inner value end
  | ZUnion options =>
      (fix first options :=
        match options with
        | [] => None
        | option :: options =>
            match project option value with
            | Some candidate => if accepts option candidate then Some candidate else first options
            | None => first options
            end
        end) options
  | ZOther _ => Some value
  end.

End Project.

(** ** Two values that differ in what a schema does not declare *)

Section SchemaInduction.
Variable P : Schema -> Prop.
Hypothesis P_object : forall shape, Forall (fun field => P field.2) shape -> P (ZObject shape).
Hypothesis P_array : forall element, P element -> P (ZArray element).
Hypothesis P_tuple : forall items rest, Forall P items -> from_option P True rest -> P (ZTuple items rest).
Hypothesis P_record : forall v, P v -> P (ZRecord v).
Hypothesis P_optional : forall i, P i -> P (ZOptional i).
Hypothesis P_default : forall i, P i -> P (ZDefault i).
Hypothesis P_nullable : forall i, P i -> P (ZNullable i).
Hypothesis P_union : forall options, Forall P options -> P (ZUnion options).
Hypothesis P_other : forall k, P (ZOther k).

(** Induction through the lists. *)
Fixpoint schema_rect' (s : Schema) : P s :=
  match s with
  | ZObject shape => P_object shape ((fix go l : Forall (fun field => P field.2) l :=
      match l with [] => Forall_nil_2 _ | x :: l' => Forall_cons_2 _ _ _ (schema_rect' x.2) (go l') end) shape)
  | ZArray e => P_array e (schema_rect' e)
  | ZTuple items rest => P_tuple items rest ((fix go l : Forall P l :=
      match l with [] => Forall_nil_2 _ | x :: l' => Forall_cons_2 _ _ _ (schema_rect' x) (go l') end) items)
      match rest with Some r => schema_rect' r | None => I end
  | ZRecord v => P_record v (schema_rect' v)
  | ZOptional i => P_optional i (schema_rect' i)
  | ZDefault i => P_default i (schema_rect' i)
  | ZNullable i => P_nullable i (schema_rect' i)
  | ZUnion options => P_union options ((fix go l : Forall P l :=
      match l with [] => Forall_nil_2 _ | x :: l' => Forall_cons_2 _ _ _ (schema_rect' x) (go l') end) options)
  | ZOther k => P_other k
  end.
End SchemaInduction.

(** [alike s v w]: [v] and [w] are equal wherever [s] declares something; an object may hold any other field. *)
Fixpoint alike (schema : Schema) (v w : Unknown) {struct schema} : Prop :=
  match schema with
  | ZObject shape =>
      match v, w with
      | UObj fields, UObj fields' =>
          (fix declared shape := match shape with
            | [] => True
            | (name, field) :: shape =>
                match lookup_field name fields, lookup_field name fields' with
                | Some x, Some y => alike field x y
                | None, None => True
                | _, _ => False
                end /\ declared shape
            end) shape
      | _, _ => v = w
      end
  | ZArray element => match v, w with UArr xs, UArr ys => Forall2 (alike element) xs ys | _, _ => v = w end
  | ZTuple positions rest =>
      match v, w with
      | UArr xs, UArr ys =>
          (fix at_each positions xs ys {struct positions} :=
            match positions with
            | [] => match rest with Some rest => Forall2 (alike rest) xs ys | None => xs = ys end
            | position :: positions =>
                match xs, ys with
                | [], [] => True
                | x :: xs, y :: ys => alike position x y /\ at_each positions xs ys
                | _, _ => False
                end
            end) positions xs ys
      | _, _ => v = w
      end
  | ZRecord valueType =>
      match v, w with UObj fields, UObj fields' => Forall2 (fun x y => x.1 = y.1 /\ alike valueType x.2 y.2) fields fields' | _, _ => v = w end
  | ZOptional inner | ZDefault inner => match v, w with UUndefined, UUndefined => True | UUndefined, _ | _, UUndefined => False | _, _ => alike inner v w end
  | ZNullable inner => match v, w with UNull, UNull => True | UNull, _ | _, UNull => False | _, _ => alike inner v w end
  | ZUnion options => (fix each options := match options with [] => True | option :: options => alike option v w /\ each options end) options
  | ZOther _ => v = w
  end.

Lemma mapM_alike {A B} (R : A -> A -> Prop) (f : A -> option B) xs ys :
  (forall x y, R x y -> f x = f y) -> Forall2 R xs ys -> mapM f xs = mapM f ys.
Proof. intros Hf. induction 1 as [|x y xs ys Hxy _ IH]; [done|]. cbn. by rewrite (Hf x y Hxy), IH. Qed.

Section Private.
Context `{Zod}.

(** Undeclared data is private: two results of a handler that agree wherever the output schema declares something are
    projected to the same value, or refused alike, whatever else they hold at any depth, below arrays, tuples, records,
    optional parts and unions. So nothing a schema does not declare reaches an answer, not even which branch of a union it takes. *)
Theorem project_private schema v w : alike schema v w -> project schema v = project schema w.
Proof.
  revert v w. induction schema as [shape IH|element IH|positions rest IH IHr|valueType IH|inner IH|inner IH|inner IH|options IH|k] using schema_rect'; intros v w Ha.
  - destruct v as [| | | | | |fields|], w as [| | | | | |fields'|]; try (injection Ha as <-); try done. cbn in Ha |- *. f_equal. induction IH as [|[name field] shape Hf _ IHs]; [done|].
    destruct Ha as [Hx Hs]. cbn in Hf. destruct (lookup_field name fields) as [x|], (lookup_field name fields') as [y|]; try done; [|by apply IHs].
    rewrite (Hf x y Hx). destruct (project field y); [|done]. cbn. by rewrite (IHs Hs).
  - destruct v, w; try (injection Ha as <-); try done. cbn in Ha |- *. f_equal. by apply (mapM_alike (alike element)).
  - destruct v as [| | | | |xs| |], w as [| | | | |ys| |]; try (injection Ha as <-); try done. cbn in Ha |- *. f_equal.
    revert xs ys Ha. induction IH as [|position positions Hp _ IHs]; intros xs ys Ha.
    + destruct rest as [rest|]; [|by subst]. by apply (mapM_alike (alike rest)).
    + destruct xs as [|x xs], ys as [|y ys]; try done. destruct Ha as [Hx Hs]. rewrite (Hp x y Hx). destruct (project position y); [|done]. cbn. by rewrite (IHs xs ys Hs).
  - destruct v as [| | | | | |fields|], w as [| | | | | |fields'|]; try (injection Ha as <-); try done. cbn in Ha |- *. f_equal.
    apply (mapM_alike (fun x y => x.1 = y.1 /\ alike valueType x.2 y.2)); [|done]. intros [k x] [k' y] [Hk Hx]. cbn in *. by rewrite Hk, (IH x y Hx).
  - destruct v, w; cbn in Ha |- *; try done; by apply IH.
  - destruct v, w; cbn in Ha |- *; try done; by apply IH.
  - destruct v, w; cbn in Ha |- *; try done; by apply IH.
  - cbn in Ha |- *. induction IH as [|option options Ho _ IHs]; [done|]. destruct Ha as [Hx Hs]. rewrite (Ho v w Hx). by rewrite (IHs Hs).
  - by cbn in Ha; subst.
Qed.

(** An object keeps the declared fields it has, in the order of their declaration. *)
Lemma project_object_keys shape fields out : project (ZObject shape) (UObj fields) = Some (UObj out) ->
  out.*1 = List.filter (fun name => is_some (lookup_field name fields)) shape.*1.
Proof.
  cbn. set (go := fix declared shape := match shape with [] => _ | _ => _ end). intros (out' & Ho & [= <-])%fmap_Some. revert out Ho.
  induction shape as [|[name field] shape IH]; intros out; cbn; [by intros [= <-]|]. destruct (lookup_field name fields) as [item|]; cbn; [|by apply IH].
  intros (x & _ & (rest & Hr & [= <-])%bind_Some)%bind_Some. cbn. f_equal. by apply IH.
Qed.

End Private.

(** ** An example *)

Module Demo.

(** Scalars pass; of an object, exactly the declared fields, of an array, every element. *)
Fixpoint parse (schema : Schema) (value : Unknown) : bool :=
  match schema, value with
  | ZObject shape, UObj fields =>
      (fix each shape fields := match shape, fields with
        | [], [] => true
        | (name, field) :: shape, (k, item) :: fields => (name =? k)%string && parse field item && each shape fields
        | _, _ => false
        end) shape fields
  | ZOther 0, UStr _ | ZOther 1, UNum _ => true
  | _, _ => false
  end.

#[export] Instance zod : Zod := {| safeParse schema value := if parse schema value then inr value else inl [mkIssue [] "invalid_type" "Invalid input"] |}.

(** A list of notes or of counters; a row of the database holds more. *)
Definition schema : Schema := ZArray (ZUnion [ZObject [("id", ZOther 0); ("title", ZOther 0)]; ZObject [("count", ZOther 1)]]).

Definition rows (secret : string) : Unknown :=
  UArr [UObj [("title", UStr "T"); ("secret", UStr secret); ("id", UStr "n1")]; UObj [("count", UNum (NFinite 3 0)); ("secret", UStr secret)]].

End Demo.

#[local] Existing Instance Demo.zod.

Lemma project_private_witness :
  project Demo.schema (Demo.rows "a") = Some (UArr [UObj [("id", UStr "n1"); ("title", UStr "T")]; UObj [("count", UNum (NFinite 3 0))]]) /\
  project Demo.schema (Demo.rows "a") = project Demo.schema (Demo.rows "b").
Proof. split; [reflexivity|]. apply project_private. cbn. repeat constructor. Defined.
