(* ===== verification/Faults.v ===== *)
(** What an application throws while it answers a request, and what that answers and reports ([app/src/errors.ts],
    [app/src/implement/faults.ts], [failures.ts]; [errorResponse] of [dispatch.ts]).

    A thrown value is what the code reads of one: its structural fields, its [name] when it is an [Error], and which of the
    framework's own classes it belongs to. A status that is no whole number is left out. *)

From S2P Require Import Prelude Project AppCapability.
From Stdlib Require Import ZArith Lia String Ascii.
From stdpp Require Import base tactics strings list sets.

Open Scope Z_scope.

(** ** Thrown values *)

(** [StructuralError]: the fields a thrown value may expose. *)
Record StructuralError := mkStructural { httpStatus : Z; type : string; message : string; issues : option Unknown; loginUrl : option string }.

(** The classes the framework tells apart by [instanceof]; [ServerFault] carries its reason of [SERVER_FAULTS]. *)
Inductive FrameworkClass :=
| ServerFault (reason : string) (status : Z)
| RefusedCapability (reason : CapabilityRefusal)
| CapabilityLimit
| StoreCapability (reason : string)
| QueryRefused (reason : string)
| MaintenanceFenceError.

Record Raised := mkRaised { structural : option StructuralError; error_name : string; class : option FrameworkClass }.

(** [class HttpError] and its subclasses. *)
Definition http_error (name : string) (status : Z) (type message : string) (issues : option Unknown) : Raised :=
  mkRaised (Some (mkStructural status type message issues None)) name None.

Definition HttpError (status : Z) (type message : string) : Raised := http_error "HttpError" status type message None.
Definition BadRequestError (message : string) : Raised := http_error "BadRequestError" 400 "bad_request" message None.
Definition UnauthorizedError (message : string) : Raised := http_error "UnauthorizedError" 401 "auth" message None.
Definition ForbiddenError (message : string) : Raised := http_error "ForbiddenError" 403 "forbidden" message None.
Definition NotFoundError (message : string) : Raised := http_error "NotFoundError" 404 "not_found" message None.

Definition Fault (reason : string) (status : Z) : Raised := mkRaised None "ServerFault" (Some (ServerFault reason status)).
Definition Refused (reason : CapabilityRefusal) : Raised := mkRaised None "CapabilityRefusedError" (Some (RefusedCapability reason)).
Definition MaintenanceFence : Raised := mkRaised None "MaintenanceFenceError" (Some MaintenanceFenceError).

(** What a capability's constructor throws. *)
Definition of_capability (e : CapabilityThrown) : Raised :=
  match e with
  | CapabilityRefusedError reason => Refused reason
  | CapabilityLimitError _ => mkRaised None "CapabilityLimitError" (Some CapabilityLimit)
  end.

Definition isStructuralError (error : Raised) : bool := is_some (structural error).

#[global] Instance raised_bind : MBind (sum Raised) := fun A B f m => match m with inl e => inl e | inr a => f a end.
#[global] Instance raised_fmap : FMap (sum Raised) := fun A B f m => match m with inl e => inl e | inr a => inr (f a) end.

(** ** Responses *)

Inductive Body := NoBody | JsonBody (value : Unknown) | TextBody (text : string) | StreamBody (source : nat).

Record Response := mkResponse { status : Z; headers : list (string * string); body : Body }.

(** [new Response(body, { status })]: a [RangeError] for a status no answer has, a [TypeError] for a body where there is none. *)
Definition new_Response (status : Z) (headers : list (string * string)) (body : Body) : Raised + Response :=
  if negb ((200 <=? status) && (status <=? 599)) then inl (mkRaised None "RangeError" None)
  else if existsb (Z.eqb status) [204; 205; 304] && negb match body with NoBody => true | _ => false end then inl (mkRaised None "TypeError" None)
  else inr (mkResponse status headers body).

Definition jsonResponse (value : Unknown) (status : Z) : Raised + Response :=
  new_Response status [("content-type", "application/json")] (JsonBody value).

Definition opt_field (name : string) (o : option Unknown) : list (string * Unknown) := match o with Some v => [(name, v)] | None => [] end.

(** [toErrorResponse] of a structural error: [readStructuralError] takes its fields as they are. *)
Definition toErrorResponse (error : StructuralError) : Raised + Response :=
  jsonResponse (UObj [("error", UObj ([("type", UStr (type error)); ("message", UStr (message error))] ++ opt_field "issues" (issues error)
                                        ++ opt_field "loginUrl" (UStr <$> loginUrl error)))]) (httpStatus error).

Definition structural_of (error : Raised) : StructuralError :=
  default (mkStructural 500 "internal" "Internal error" None None) (structural error).

Definition envelope (type message : string) : Unknown := UObj [("error", UObj [("type", UStr type); ("message", UStr message)])].

(** [serverError] *)
Definition serverError (status : Z) : Raised + Response :=
  if status =? 503 then jsonResponse (envelope "unavailable" "Service unavailable") 503
  else jsonResponse (envelope "internal" "Internal error") status.

Definition LIMIT_MESSAGE : string := "The caller holds the action in more scope values than one list may carry (1000)".

(** [errorResponse]; its line in the server log is left out. *)
Definition errorResponse (error : Raised) : Raised + Response :=
  let reported := match class error with
    | Some CapabilityLimit => toErrorResponse (structural_of (ForbiddenError LIMIT_MESSAGE))
    | _ =>
        if (error_name error =? "NotFoundError")%string then toErrorResponse (structural_of (NotFoundError "Not found"))
        else if (error_name error =? "ConflictError")%string
        then toErrorResponse (structural_of (HttpError 409 "conflict" "The object changed since it was read"))
        else match class error with
             | Some (ServerFault _ status) => serverError status
             | _ => serverError (match structural error with Some s => httpStatus s | None => 500 end)
             end
    end in
  match structural error with
  | Some s => if httpStatus s <? 500 then toErrorResponse s else reported
  | None => reported
  end.

(** [maintenanceRefusal] *)
Definition MAINTENANCE_RETRY_AFTER_S : string := "30".

Definition maintenanceRefusal : Response :=
  mkResponse 503 [("content-type", "application/json"); ("retry-after", MAINTENANCE_RETRY_AFTER_S)] (JsonBody (envelope "unavailable" "Service unavailable")).

(** ** Reports *)

Inductive RequestFailureCode := framework_fault | unavailable | capability_refused | query_refused | handler_status | handler_failed.

Definition failureCode (error : Raised) : RequestFailureCode :=
  match class error with
  | Some (ServerFault _ status) => if status =? 503 then unavailable else framework_fault
  | Some (RefusedCapability _) | Some (StoreCapability _) => capability_refused
  | Some (QueryRefused _) => query_refused
  | _ => if isStructuralError error then handler_status else handler_failed
  end.

(** [failureReason]: the reason; its text is the catalog's, a function of the reason. *)
Definition failureReason (error : Raised) : option string :=
  match class error with
  | Some (ServerFault reason _) | Some (StoreCapability reason) | Some (QueryRefused reason) => Some reason
  | Some (RefusedCapability reason) => Some (refusal_code reason)
  | _ => None
  end.

Definition MAX_FAILURE_REPORTS_PER_MINUTE : Z := 30.
Definition MINUTE_MS : Z := 60000.

(** [MinuteBudget] *)
Record MinuteBudget := mkBudget { limit : Z; window : Z; admitted : Z }.

Definition new_MinuteBudget (limit : Z) : MinuteBudget := mkBudget limit (-1) 0.

Definition admit_report (now : Z) (b : MinuteBudget) : bool * MinuteBudget :=
  let current := now / MINUTE_MS in
  let b := if current =? window b then b else mkBudget (limit b) current 0 in
  (admitted b + 1 <=? limit b, mkBudget (limit b) (window b) (admitted b + 1)).

Record RequestFailure := mkFailure { endpoint : string; selected : bool; requestId : option string; failure_status : Z; error : Raised }.

(** [REQUEST_ID.test] *)
Definition is_request_id (id : string) : bool :=
  Js.forall_units (fun c => Js.is_digit c || Js.is_letter c || Ascii.eqb c "-") id && (1 <=? String.length id)%nat && (String.length id <=? 64)%nat.

(** An event as [OperationsReporter.report] gets it: its fingerprint and tags; what was thrown goes to the reporter, which scrubs it. *)
Record Report := mkReport { fingerprint : list string; tags : list (string * string) }.

Definition code_text (code : RequestFailureCode) : string :=
  match code with
  | framework_fault => "framework_fault" | unavailable => "unavailable" | capability_refused => "capability_refused"
  | query_refused => "query_refused" | handler_status => "handler_status" | handler_failed => "handler_failed"
  end.

(** [FailureReports.record]: the log line's words after [fabrika:], the event when the budget admits one, and whether the
    author's sink sees it. [status_text] is the text of a whole number. *)
Definition record_failure (status_text : Z -> string) (reporter : bool) (now : Z) (failure : RequestFailure) (b : MinuteBudget) :
    (list string * option Report) * MinuteBudget :=
  let code := code_text (failureCode (error failure)) in
  let line := [endpoint failure; code] ++ option_list (failureReason (error failure)) in
  if negb reporter then ((line, None), b)
  else
    let (room, b) := admit_report now b in
    if negb room then ((line, None), b)
    else
      let tags := [("endpoint", endpoint failure); ("code", code); ("status", status_text (failure_status failure))]
        ++ match failureReason (error failure) with Some reason => [("reason", reason)] | None => [] end
        ++ match requestId failure with Some id => if is_request_id id then [("request", id)] else [] | None => [] end in
      ((line, Some (mkReport ["fabrika-request-failed"; endpoint failure; code] tags)), b).

(** ** What an error answers *)

(** A status a JSON answer can carry. *)
Definition answerable (status : Z) : bool := (200 <=? status) && (status <=? 599) && negb (existsb (Z.eqb status) [204; 205; 304]).

Lemma jsonResponse_spec value status :
  jsonResponse value status = if answerable status then inr (mkResponse status [("content-type", "application/json")] (JsonBody value))
    else inl (mkRaised None (if (200 <=? status) && (status <=? 599) then "TypeError" else "RangeError") None).
Proof.
  unfold jsonResponse, new_Response, answerable. destruct ((200 <=? status) && (status <=? 599)); [|done]. cbn [negb andb]. by destruct (existsb _ _).
Qed.

Lemma jsonResponse_inr value status r : jsonResponse value status = inr r -> r = mkResponse status [("content-type", "application/json")] (JsonBody value).
Proof. rewrite jsonResponse_spec. by destruct (answerable status); intros [= <-]. Qed.

(** The status an error answers with, when its structural status is one. *)
Definition error_status (e : Raised) : Z :=
  match structural e with
  | Some s => if httpStatus s <? 500 then httpStatus s else
      match class e with Some CapabilityLimit => 403 | _ =>
        if (error_name e =? "NotFoundError")%string then 404 else if (error_name e =? "ConflictError")%string then 409
        else match class e with Some (ServerFault _ status) => status | _ => httpStatus s end end
  | None =>
      match class e with Some CapabilityLimit => 403 | _ =>
        if (error_name e =? "NotFoundError")%string then 404 else if (error_name e =? "ConflictError")%string then 409
        else match class e with Some (ServerFault _ status) => status | _ => 500 end end
  end.

Lemma serverError_spec status :
  serverError status = jsonResponse (if status =? 503 then envelope "unavailable" "Service unavailable" else envelope "internal" "Internal error") status.
Proof. unfold serverError. by destruct (Z.eqb_spec status 503) as [->|]. Qed.

(** The words an answer may have: of a client error, its own; otherwise fixed ones. *)
Definition fixed_body (status : Z) : Unknown :=
  if status =? 503 then envelope "unavailable" "Service unavailable" else envelope "internal" "Internal error".

(** C39. What an error answers. A client error that carries its own status answers its own words. Any other thrown value, a
    refused capability, a driver's error or whatever application code threw included, answers one of five fixed bodies: every
    answer of 500 and above has the body its status fixes, so nothing of what failed leaves the server; and an answer is made
    exactly when the status is one that a JSON answer can carry. *)
Theorem errorResponse_fixed e :
  match errorResponse e with
  | inl _ => answerable (error_status e) = false
  | inr r =>
      status r = error_status e /\ answerable (error_status e) = true /\ headers r = [("content-type", "application/json")] /\
      (500 <= status r -> body r = JsonBody (fixed_body (status r))) /\
      (status r < 500 ->
         (exists s, structural e = Some s /\ httpStatus s = status r /\ toErrorResponse s = inr r) \/
         body r ∈ [JsonBody (envelope "forbidden" LIMIT_MESSAGE); JsonBody (envelope "not_found" "Not found");
                   JsonBody (envelope "conflict" "The object changed since it was read"); JsonBody (fixed_body (status r))])
  end.
Proof.
  assert (Hserver : forall z s, match serverError z with
    | inl _ => answerable z = false
    | inr r => status r = z /\ answerable z = true /\ headers r = [("content-type", "application/json")] /\ (500 <= status r -> body r = JsonBody (fixed_body (status r))) /\
        (status r < 500 -> s r \/ body r ∈ [JsonBody (envelope "forbidden" LIMIT_MESSAGE); JsonBody (envelope "not_found" "Not found");
                   JsonBody (envelope "conflict" "The object changed since it was read"); JsonBody (fixed_body (status r))]) end).
  { intros z s. rewrite serverError_spec, jsonResponse_spec. destruct (answerable z) eqn:Ea; [|done]. cbn. split_and!; [done..|]. intros _. right. set_solver. }
  unfold errorResponse, error_status. destruct (structural e) as [s|] eqn:Es.
  - destruct (Z.ltb_spec (httpStatus s) 500) as [Hlt|Hge].
    + unfold toErrorResponse. rewrite jsonResponse_spec. destruct (answerable _) eqn:Ea; [|done]. cbn. split_and!; [done..|lia|]. intros _. left. exists s.
      split_and!; [done|done|]. unfold toErrorResponse. by rewrite jsonResponse_spec, Ea.
    + destruct (class e) as [[]|]; cbn; repeat (destruct (_ =? _)%string); try apply Hserver; cbn; split_and!; try done; try lia; intros _; right; set_solver.
  - destruct (class e) as [[]|]; cbn; repeat (destruct (_ =? _)%string); try apply Hserver; cbn; split_and!; try done; try lia; intros _; right; set_solver.
Qed.

(** Whatever an application throws, the code of its report is the class's, never its [name]. *)
Lemma failureCode_class e e' : class e = class e' -> isStructuralError e = isStructuralError e' -> failureCode e = failureCode e'.
Proof. intros Hc Hs. unfold failureCode. by rewrite Hc, Hs. Qed.

Lemma admit_bound now b : 0 <= admitted b -> (admit_report now b).1 = true -> 0 < admitted (admit_report now b).2 <= limit b.
Proof. unfold admit_report. destruct (_ =? window b); cbn; rewrite Z.leb_le; lia. Qed.
