(* ===== verification/Params.v ===== *)
(** Flat parameters of a request ([app/src/implement/params.ts]): a GET procedure's input, a POST's query and a native form's
    body, each value read as its field's shape reads it.

    [Number(text)] is a class: the exact value of the double a text reads as, when that is finite. *)

From S2P Require Import Prelude Json Shapes Project Faults.
From Stdlib Require Import ZArith Lia String Ascii.
From stdpp Require Import base tactics strings option list.

Class NumberRead := { to_number : string -> option (Z * Z) }.

Definition MAX_URL_LENGTH : nat := 8192.

Section Params.
Context `{NumberText} `{NumberRead}.

(** [canonicalNumber]: [String(number) === value]. *)
Definition canonicalNumber (value : string) : option (Z * Z) :=
  match to_number value with
  | Some number =>
      if negb (value =? "")%string && (number_text (normal_finite number) =? value)%string then Some (normal_finite number) else None
  | None => None
  end.

Fixpoint readsText (shape : SchemaShape) : bool :=
  match shape with
  | SString _ | SEnum _ => true
  | SLiteral (LitStr _) => true
  | SOptional inner | SNullable inner => readsText inner
  | SUnion options => existsb readsText options
  | _ => false
  end.

Definition number_value (value : string) : Unknown :=
  match canonicalNumber value with Some n => UNum (NFinite n.1 n.2) | None => UStr value end.

Definition boolean_value (value : string) : Unknown :=
  if (value =? "true")%string then UBool true else if (value =? "false")%string then UBool false else UStr value.

Definition null_value (value : string) : Unknown := if (value =? "null")%string then UNull else UStr value.

(** Whether a value that was read is still the parameter's own text, [read === value]. *)
Definition is_text (value : string) (read : Unknown) : bool := match read with UStr s => (s =? value)%string | _ => false end.

Fixpoint scalarOf (shape : SchemaShape) (value : string) : Unknown :=
  match shape with
  | SOptional inner => scalarOf inner value
  | SNullable inner => if (value =? "null")%string && negb (readsText inner) then UNull else scalarOf inner value
  | SNumber _ => number_value value
  | SBoolean => boolean_value value
  | SNull => null_value value
  | SLiteral (LitStr _) => UStr value
  | SLiteral (LitNum _) => number_value value
  | SLiteral (LitBool _) => boolean_value value
  | SLiteral LitNull => null_value value
  | SUnion options =>
      (fix first options :=
        match options with
        | [] => UStr value
        | option :: options =>
            let read := scalarOf option value in
            if negb (is_text value read) || readsText option then read else first options
        end) options
  | _ => UStr value
  end.

(** [read[name] = …] on an object literal: a key keeps its place, and [__proto__] makes no field of its own. *)
Definition own_fields (fields : list (string * SchemaShape)) (name value : string) : Unknown :=
  match lookup_field name fields with None => UStr value | Some field => scalarOf field value end.

Definition shape_fields (shape : option SchemaShape) : list (string * SchemaShape) :=
  match shape with Some (SObject fields) => fields | _ => [] end.

Fixpoint read_params (fields : list (string * SchemaShape)) (read : list (string * Unknown)) (params : list (string * string)) : Raised + list (string * Unknown) :=
  match params with
  | [] => inr read
  | (name, value) :: params =>
      match lookup_field name read with
      | Some _ => inl (BadRequestError ("the parameter '" +:+ name +:+ "' is sent twice"))
      | None => read_params fields (if (name =? "__proto__")%string then read else read ++ [(name, own_fields fields name value)]) params
      end
  end.

(** [paramsObject], of the pairs of [URLSearchParams] in order. *)
Definition paramsObject (params : list (string * string)) (shape : option SchemaShape) : Raised + list (string * Unknown) :=
  read_params (shape_fields shape) [] params.

(** [urlParams]: [search] reads the parameters of a URL. *)
Definition urlParams (search : string -> list (string * string)) (url : string) : Raised + list (string * string) :=
  if (MAX_URL_LENGTH <? String.length url)%nat then inl (HttpError 414 "url_too_long" "The URL is longer than 8192 characters") else inr (search url).

(** ** One value, one spelling *)

(** The one text a value is read from. *)
Definition spelling (read : Unknown) : option string :=
  match read with
  | UStr s => Some s
  | UNum (NFinite m e) => Some (number_text (m, e))
  | UBool b => Some (if b then "true" else "false")
  | UNull => Some "null"
  | _ => None
  end.

Lemma number_spelling value : spelling (number_value value) = Some value.
Proof.
  unfold number_value, canonicalNumber. destruct (to_number value) as [n|]; [|done]. destruct (negb _ && _) eqn:E; [|done]. to_prop. cbn [spelling].
  rewrite <- surjective_pairing. by f_equal.
Qed.

Lemma boolean_spelling value : spelling (boolean_value value) = Some value.
Proof. unfold boolean_value. destruct (String.eqb_spec value "true") as [->|]; [done|]. by destruct (String.eqb_spec value "false") as [->|]. Qed.

Lemma null_spelling value : spelling (null_value value) = Some value.
Proof. unfold null_value. by destruct (String.eqb_spec value "null") as [->|]. Qed.

Lemma scalar_spelling shape value : spelling (scalarOf shape value) = Some value.
Proof.
  induction shape as [s Hs|i mi ma IH|items rest IH IHr|k v IHk IHv|fields IH|inner IH|inner IH|options IH] using shape_rect'; cbn [scalarOf]; try done.
  - destruct s as [| | | |[]| | | | | | | | | |]; try done; cbn [scalarOf]; first [apply number_spelling|apply boolean_spelling|apply null_spelling].
  - destruct (String.eqb_spec value "null") as [->|]; cbn [andb]; [|done]. by destruct (negb (readsText inner)).
  - induction IH as [|option options Ho _ IHo]; [done|]. destruct (negb _ || _); [done|apply IHo].
Qed.

Lemma read_params_spec fields params read out : read_params fields read params = inr out ->
  exists kept, kept = List.filter (fun p => negb (p.1 =? "__proto__")%string) params /\
    out = read ++ map (fun p => (p.1, own_fields fields p.1 p.2)) kept /\ (NoDup read.*1 -> NoDup out.*1).
Proof.
  revert read. induction params as [|[name value] params IH]; intros read; cbn.
  - intros [= <-]. exists []. split_and!; [done|by rewrite app_nil_r|done].
  - destruct (lookup_field name read) eqn:El; [done|]. intros Hr. destruct (IH _ Hr) as (kept & -> & -> & Hd). destruct (String.eqb_spec name "__proto__") as [->|Hne]; cbn.
    + by eexists.
    + eexists. split; [done|]. split; [by rewrite <- app_assoc|]. intros Hn. apply Hd. rewrite fmap_app. apply NoDup_app. split_and!; [done| |apply NoDup_singleton].
      intros k Hk ->%list_elem_of_singleton. cbn in Hk. apply list_elem_of_fmap in Hk as ([k' v] & Hk & Hin). cbn in Hk. subst.
      by rewrite (in_lookup_field _ _ _ Hn Hin) in El.
Qed.

Lemma own_spelling fields name value : spelling (own_fields fields name value) = Some value.
Proof. unfold own_fields. destruct (lookup_field name fields); [apply scalar_spelling|done]. Qed.

(** Fields with the same keys and values, each key once. *)
Lemma same_fields {A} (f g : list (string * A)) : NoDup f.*1 -> NoDup g.*1 -> (forall k, lookup_field k f = lookup_field k g) -> f ≡ₚ g.
Proof.
  intros Hf Hg He. apply NoDup_Permutation; [by eapply NoDup_fmap_1|by eapply NoDup_fmap_1|]. intros [k v]. split; intros Hin.
  - apply lookup_field_in. rewrite <- He. by apply in_lookup_field.
  - apply lookup_field_in. rewrite He. by apply in_lookup_field.
Qed.

(** One value has one spelling: requests whose parameters read as the same object under a shape sent the same parameters,
    up to their order, and each name once; a number, a boolean and [null] are read from their canonical text only. A
    parameter named [__proto__] is the exception: an object literal takes no such field, so it is dropped unread. *)
Theorem paramsObject_canonical shape p q f g :
  paramsObject p shape = inr f -> paramsObject q shape = inr g -> (forall k, lookup_field k f = lookup_field k g) ->
  let sent := List.filter (fun param => negb (param.1 =? "__proto__")%string) in
  sent p ≡ₚ sent q /\ NoDup (sent p).*1.
Proof.
  intros (kp & Ekp & -> & Hdp)%read_params_spec (kq & Ekq & -> & Hdq)%read_params_spec He. cbn zeta. rewrite <- Ekp, <- Ekq. cbn [app] in *.
  specialize (Hdp (NoDup_nil_2)). specialize (Hdq (NoDup_nil_2)).
  set (spell := fun field : string * Unknown => (field.1, default "" (spelling field.2))).
  assert (Hs : forall l, map spell (map (fun p => (p.1, own_fields (shape_fields shape) p.1 p.2)) l) = l).
  { intros l. rewrite map_map. rewrite <- (map_id l) at 2. apply map_ext. intros [k v]. unfold spell. cbn. by rewrite own_spelling. }
  split.
  - rewrite <- (Hs kp), <- (Hs kq). apply Permutation_map. by apply same_fields.
  - assert (Hk : forall l, (map (fun p => (p.1, own_fields (shape_fields shape) p.1 p.2)) l).*1 = l.*1).
    { intros l. induction l as [|[k v] l IH]; [done|]. cbn. by rewrite IH. }
    by rewrite Hk in Hdp.
Qed.

End Params.

(** ** An example *)

Module Demo.

(** A reader that takes no number. *)
Definition reader : NumberRead := {| to_number _ := None |}.

Definition shape : SchemaShape := SObject [("on", SOptional SBoolean); ("name", SNullable (SString (mkStringShape None None None None None None None)))].

End Demo.

#[local] Existing Instance Demo.reader.

Lemma paramsObject_canonical_witness :
  paramsObject [("on", "true"); ("name", "null")] (Some Demo.shape) = inr [("on", UBool true); ("name", UStr "null")] /\
  NoDup (List.filter (fun param => negb (param.1 =? "__proto__")%string) [("on", "true"); ("name", "null")]).*1.
Proof.
  split; [reflexivity|].
  apply (paramsObject_canonical (Some Demo.shape) [("on", "true"); ("name", "null")] [("name", "null"); ("on", "true")]
    [("on", UBool true); ("name", UStr "null")] [("name", UStr "null"); ("on", UBool true)]); [reflexivity|reflexivity|].
  intros k. cbn [lookup_field]. destruct (String.eqb_spec k "on") as [->|]; [reflexivity|]. by destruct (k =? "name")%string.
Defined.

(** A name sent twice is refused, and a parameter [__proto__] is dropped. *)
Example paramsObject_twice : paramsObject [("a", "1"); ("a", "2")] None = inl (BadRequestError "the parameter 'a' is sent twice").
Proof. reflexivity. Qed.

Example paramsObject_proto : paramsObject [("__proto__", "1"); ("__proto__", "2")] None = inr [].
Proof. reflexivity. Qed.
