(* ===== verification/SignedTokens.v ===== *)
(** Signed tokens at run time ([app/src/implement/tokens.ts]): the keys of the environment, [ctx.tokens.sign], and the
    verification of the token fields of an input.

    Node's [createHmac], [Buffer] and [JSON] are the class [TokenTexts]: the HMAC-SHA256 of a text under a secret, in base64url,
    and the base64url of a value's JSON with its reading. *)

From S2P Require Import Prelude Json Shapes Project AppCapability Faults.
From Stdlib Require Import ZArith Lia String Ascii.
From stdpp Require Import base tactics strings option countable list.

Open Scope Z_scope.

Definition DAY_SECONDS : Z := 86400.
Definition MIN_SECRET_BYTES : nat := 32.

Definition is_base64url_unit (c : ascii) : bool := Js.is_letter c || Js.is_digit c || Ascii.eqb c "_" || Ascii.eqb c "-".

(** [KEY_ID.test], [BASE64URL.test] *)
Definition is_key_id (id : string) : bool := Js.forall_units is_base64url_unit id && (8 <=? String.length id)%nat && (String.length id <=? 64)%nat.
Definition is_base64url (text : string) : bool := Js.forall_units is_base64url_unit text && negb (text =? "")%string.

Class TokenTexts := {
  hmac : string -> string -> string;           (* by secret and text *)
  base64url_bytes : string -> string;          (* [Buffer.from(text, 'base64url')] *)
  payload_text : json -> string;               (* [Buffer.from(JSON.stringify(value)).toString('base64url')] *)
  payload_json : string -> option json;        (* its reading; [None] when [JSON.parse] throws *)
}.

Class TokenTextLaws `{TokenTexts} := {
  hmac_base64url secret text : is_base64url (hmac secret text) = true;
  payload_base64url value : is_base64url (payload_text value) = true;
  payload_reads_back value : payload_json (payload_text value) = Some value;
}.

(** ** JSON of a value *)

(** What [JSON.stringify] writes of a value: a part that is undefined, a function or a symbol is left out of an object and is
    [null] in an array. *)
Fixpoint json_of (v : Unknown) : option json :=
  match v with
  | UUndefined | UOther _ => None
  | UNull => Some JNull
  | UBool b => Some (JBool b)
  | UNum n => Some (JNum n)
  | UStr s => Some (JStr s)
  | UArr items => Some (JArr (map (fun item => default JNull (json_of item)) items))
  | UObj fields => Some (JObj (omap (fun field => (fun j => (field.1, j)) <$> json_of field.2) fields))
  end.

(** The whole number a double is; [Number.isSafeInteger] asks that it is one. *)
Definition whole (n : jsnum) : option Z :=
  match num_normal n with
  | Some (m, e) => if 0 <=? e then Some (m * 2 ^ e) else None
  | None => None
  end.

Definition safe_integer (n : jsnum) : option Z := z ← whole n; if isSafeInteger z then Some z else None.

Lemma whole_integer z : whole (NFinite z 0) = Some z.
Proof.
  unfold whole, num_normal. destruct z as [|m|m]; [done|..]; pose proof (odd_mantissa_value m 0) as Hv; destruct (odd_mantissa m 0) as [m' e']; cbn [fst snd] in Hv; destruct Hv as [Hle He];
    rewrite Z.sub_0_r in He; rewrite (proj2 (Z.leb_le _ _)) by done; f_equal; lia.
Qed.

(** ** Keys *)

Record TokenKey := mkKey { key_id : string; key_secret : string }.

Record RuntimePurpose := mkPurpose { p_claims : Schema; maxDays : Z }.

Section Tokens.
Context `{Zod} `{TokenTexts}.

Fixpoint read_entries (keys : list TokenKey) (entries : list string) : option (list TokenKey) :=
  match entries with
  | [] => Some keys
  | entry :: entries =>
      match Js.indexOf ":" entry with
      | None => None
      | Some separator =>
          let id := Js.take separator entry in
          let encoded := Js.drop (S separator) entry in
          let secret := base64url_bytes encoded in
          if negb (is_key_id id) || negb (is_base64url encoded) || (String.length secret <? MIN_SECRET_BYTES)%nat || existsb (fun key => (key_id key =? id)%string) keys
          then None
          else read_entries (keys ++ [mkKey id secret]) entries
      end
  end.

(** [readTokenKeys]: [value] is [FABRIKA_TOKEN_KEYS], [purposes] whether the contract declares any; the left is a problem. *)
Definition readTokenKeys (value : option string) (purposes : bool) : unit + option (list TokenKey) :=
  let value := Js.trim (default "" value) in
  if negb purposes then inr None
  else if (value =? "")%string then inl tt
  else match read_entries [] (Js.split "," value) with None => inl tt | Some keys => inr (Some keys) end.

(** [SignedTokens] *)
Record SignedTokens := mkSigned { purposes : list (string * RuntimePurpose); keys : list TokenKey }.

Definition signature (key : TokenKey) (payload : string) : string := hmac (key_secret key) (key_id key +:+ "." +:+ payload).

Definition invalid : Raised := BadRequestError "The signed token is not valid".
Definition expired : Raised := BadRequestError "The signed token has expired".

Definition token_of (key : TokenKey) (payload : string) : string := key_id key +:+ "." +:+ payload +:+ "." +:+ signature key payload.

Definition payload_of (purpose : string) (expiresAt : Z) (claims : Unknown) : json :=
  JObj ([("p", JStr purpose); ("x", JNum (NFinite expiresAt 0))] ++ match json_of claims with Some c => [("c", c)] | None => [] end).

(** What [Reflect.get(options, 'days')] is, as a safe integer. *)
Definition days_of (options : Unknown) : option Z :=
  match options with
  | UObj fields => match lookup_field "days" fields with Some (UNum n) => safe_integer n | _ => None end
  | _ => None
  end.

(** [#sign], at [now] in milliseconds. *)
Definition sign (t : SignedTokens) (now : Z) (signs : list string) (purpose : string) (claims options : Unknown) : Raised + string :=
  match (if Js.elem purpose signs then lookup_field purpose (purposes t) else None) with
  | None => inl (Refused undeclared_signs)
  | Some declared =>
      match days_of options with
      | None => inl (Refused undeclared_signs)
      | Some days =>
          if (days <? 1) || (maxDays declared <? days) then inl (Refused undeclared_signs)
          else match safeParse (p_claims declared) claims with
               | inl _ => inl (Fault "token_claims_refused" 500)
               | inr data =>
                   match keys t with
                   | [] => inl (Fault "token_keys_missing" 500)
                   | key :: _ => inr (token_of key (payload_text (payload_of purpose (now / 1000 + days * DAY_SECONDS) data)))
                   end
               end
      end
  end.

(** [parsePayload]: its purpose, expiry and claims. *)
Definition parsePayload (payload : string) : option (string * Z * Unknown) :=
  match payload_json payload with
  | Some (JObj fields) =>
      if forallb (fun field => Js.elem field.1 ["p"; "x"; "c"]) fields then
        match lookup_field "p" fields, lookup_field "x" fields with
        | Some (JStr p), Some (JNum x) => x ← safe_integer x; Some (p, x, from_option of_json UUndefined (lookup_field "c" fields))
        | _, _ => None
        end
      else None
  | _ => None
  end.

Definition verify (t : SignedTokens) (now : Z) (purpose token : string) : Raised + Unknown :=
  let parts := Js.split "." token in
  let id := nth 0 parts "" in
  let payload := nth 1 parts "" in
  let given := nth 2 parts "" in
  match List.find (fun candidate => (key_id candidate =? id)%string) (keys t), lookup_field purpose (purposes t) with
  | Some key, Some declared =>
      if (3 <? length parts)%nat || negb (is_base64url payload) || negb (is_base64url given) then inl invalid
      else if negb (given =? signature key payload)%string then inl invalid
      else
        match parsePayload payload with
        | None => inl invalid
        | Some (p, x, c) =>
            if negb (p =? purpose)%string then inl invalid
            else if x <=? now / 1000 then inl expired
            else match safeParse (p_claims declared) c with
                 | inr data => if isRecord data then inr data else inl invalid
                 | inl _ => inl invalid
                 end
        end
  | _, _ => inl invalid
  end.

(** ** Token fields *)

Definition token_purpose (shape : SchemaShape) : option string :=
  match shape with
  | SOptional (SToken purpose) | SToken purpose => Some purpose
  | _ => None
  end.

(** [tokenFields] *)
Definition tokenFields (shape : option SchemaShape) : list (string * string) :=
  match shape with
  | Some (SObject fields) => omap (fun field => (fun purpose => (field.1, purpose)) <$> token_purpose field.2) fields
  | _ => []
  end.

(** [collectTexts] *)
Fixpoint collectTexts (value : Unknown) : list string :=
  match value with
  | UStr s => [s]
  | UArr items => flat_map collectTexts items
  | UObj fields => flat_map (fun field => collectTexts field.2) fields
  | _ => []
  end.

Fixpoint set_field (name : string) (value : Unknown) (fields : list (string * Unknown)) : list (string * Unknown) :=
  match fields with
  | [] => [(name, value)]
  | (k, v) :: fields => if (k =? name)%string then (k, value) :: fields else (k, v) :: set_field name value fields
  end.

(** [verifyFields]: the fields with each token replaced by its claims, and the texts the claims carry, added to [into]. *)
Fixpoint verify_each (t : SignedTokens) (now : Z) (tokens : list (string * string)) (value verified : list (string * Unknown)) (into : list string)
    : Raised + list (string * Unknown) * list string :=
  match tokens with
  | [] => inr (verified, into)
  | (field, purpose) :: tokens =>
      match lookup_field field value with
      | Some (UStr text) =>
          match verify t now purpose text with
          | inl e => inl e
          | inr claims => verify_each t now tokens value (set_field field claims verified) (into ++ collectTexts claims)
          end
      | _ => verify_each t now tokens value verified into
      end
  end.

Definition verifyFields (t : SignedTokens) (now : Z) (shape : option SchemaShape) (value : list (string * Unknown)) (into : list string) :=
  verify_each t now (tokenFields shape) value value into.

(** ** What verifies *)

Definition keys_ok (t : SignedTokens) : Prop := Forall (fun key => is_key_id (key_id key) = true) (keys t).

Lemma base64url_no_dot s : Js.forall_units is_base64url_unit s = true -> Js.forall_units (fun c => negb (Ascii.eqb c ".")) s = true.
Proof. apply forall_units_impl. intros c. destruct (Ascii.eqb_spec c ".") as [->|]; done. Qed.

Lemma split_dots a b c : Js.forall_units is_base64url_unit a = true -> Js.forall_units is_base64url_unit b = true -> Js.forall_units is_base64url_unit c = true ->
  Js.split "." (a +:+ "." +:+ b +:+ "." +:+ c) = [a; b; c].
Proof. intros Ha Hb Hc. apply (split_join "." [a; b; c]); [done|]. repeat constructor; by apply base64url_no_dot. Qed.

Lemma split_three s a b c : Js.split "." s = [a; b; c] -> s = a +:+ "." +:+ b +:+ "." +:+ c.
Proof. intros Hs. by rewrite <- (join_split "." s), Hs. Qed.

Lemma find_key t id key : List.find (fun candidate => (key_id candidate =? id)%string) (keys t) = Some key -> key ∈ keys t /\ key_id key = id.
Proof. intros [Hin He]%find_some. split; [by apply list_elem_of_In|by apply String.eqb_eq]. Qed.

Context `{!TokenTextLaws}.

Lemma signature_units key payload : is_base64url (signature key payload) = true.
Proof. apply hmac_base64url. Qed.

Lemma base64url_units s : is_base64url s = true -> Js.forall_units is_base64url_unit s = true.
Proof. unfold is_base64url. by intros [? _]%andb_prop. Qed.

Lemma token_split t key payload : keys_ok t -> key ∈ keys t -> is_base64url payload = true -> Js.split "." (token_of key payload) = [key_id key; payload; signature key payload].
Proof.
  intros Hk Hin Hp. apply split_dots; [|by apply base64url_units|by apply base64url_units, signature_units].
  pose proof (proj1 (Forall_forall _ _) Hk _ Hin) as Hid. unfold is_key_id in Hid. by to_prop.
Qed.

(** *** A token, as its documentation has it *)

(** The characters of base64url. *)
Definition BASE64URL_ALPHABET : string := "ABCDEFGHIJKLMNOPQRSTUVWXYZabcdefghijklmnopqrstuvwxyz0123456789-_".

Definition in_base64url (text : string) : Prop :=
  text <> "" /\ forall c, c ∈ list_ascii_of_string text -> c ∈ list_ascii_of_string BASE64URL_ALPHABET.

(** The double [n] is the whole number [x]. *)
Definition is_whole (n : jsnum) (x : Z) : Prop := exists m e, n = NFinite m e /\ x * 2 ^ Z.max 0 (- e) = m * 2 ^ Z.max 0 e.

(** What the payload of a token of [purpose] says: its purpose, when it expires, in seconds, and its claims, and nothing else. *)
Definition payload_says (purpose : string) (x : Z) (c : Unknown) (payload : string) : Prop :=
  exists fields n, payload_json payload = Some (JObj fields) /\ (forall name v, (name, v) ∈ fields -> name = "p" \/ name = "x" \/ name = "c") /\
    lookup_field "p" fields = Some (JStr purpose) /\ lookup_field "x" fields = Some (JNum n) /\ is_whole n x /\ Z.abs x <= 2 ^ 53 - 1 /\
    match lookup_field "c" fields with Some v => c = of_json v | None => c = UUndefined end.

(** A token an environment signed: a key's id, the payload, and the HMAC of the two as they stand there, under that key's
    secret; of two keys of one id the first signs. *)
Definition signed_text (t : SignedTokens) (payload token : string) : Prop :=
  exists before id secret after, keys t = before ++ mkKey id secret :: after /\ Forall (fun key => key_id key <> id) before /\
    token = id +:+ "." +:+ payload +:+ "." +:+ hmac secret (id +:+ "." +:+ payload).

Lemma base64url_alphabet c : is_base64url_unit c = existsb (Ascii.eqb c) (list_ascii_of_string BASE64URL_ALPHABET).
Proof. by destruct c as [[] [] [] [] [] [] [] []]. Qed.

Lemma is_base64url_spec text : is_base64url text = true <-> in_base64url text.
Proof.
  unfold is_base64url, in_base64url. rewrite andb_true_iff, negb_true_iff, String.eqb_neq.
  enough (E : Js.forall_units is_base64url_unit text = true <-> forall c, c ∈ list_ascii_of_string text -> c ∈ list_ascii_of_string BASE64URL_ALPHABET) by tauto.
  assert (Hunit : forall c, is_base64url_unit c = true <-> c ∈ list_ascii_of_string BASE64URL_ALPHABET).
  { intros c. rewrite base64url_alphabet, existsb_exists. setoid_rewrite <- list_elem_of_In. setoid_rewrite Ascii.eqb_eq. naive_solver. }
  induction text as [|c text IH]; cbn; [split; [intros _ c Hc; by apply elem_of_nil in Hc|done]|]. rewrite andb_true_iff, IH, Hunit. setoid_rewrite elem_of_cons. naive_solver.
Qed.

Lemma odd_mantissa_odd m e : Z.odd (Z.pos (odd_mantissa m e).1) = true.
Proof. revert e. induction m as [m _|m IH|]; intros e; cbn [odd_mantissa fst]; [done|apply IH|done]. Qed.

(** A mantissa and an exponent whose sign does not matter. *)
Lemma whole_mantissa (m m' e e' : Z) x : e <= e' -> m = m' * 2 ^ (e' - e) -> Z.odd m' = true ->
  (if 0 <=? e' then Some (m' * 2 ^ e') else None) = Some x <-> x * 2 ^ Z.max 0 (- e) = m * 2 ^ Z.max 0 e.
Proof.
  intros Hle -> Hodd. assert (Hpow : forall k, 0 <= k -> 0 < 2 ^ k) by (intros k ?; by apply Z.pow_pos_nonneg).
  assert (E : m' * 2 ^ (e' - e) * 2 ^ Z.max 0 e = (m' * 2 ^ Z.max 0 e') * 2 ^ (Z.max 0 e + (e' - e) - Z.max 0 e')).
  { rewrite <-!Z.mul_assoc, <-!Z.pow_add_r by lia. f_equal. f_equal. lia. }
  rewrite E. destruct (Z.leb_spec 0 e').
  - replace (Z.max 0 e + (e' - e) - Z.max 0 e') with (Z.max 0 (- e)) by lia. replace (Z.max 0 e') with e' by lia. specialize (Hpow (Z.max 0 (- e)) ltac:(lia)).
    split; [by intros [= <-]|]. intros Hx. f_equal. apply Z.mul_reg_r in Hx; lia.
  - split; [done|]. intros Hx. exfalso. replace (Z.max 0 e') with 0 in Hx by lia. replace (Z.max 0 (- e)) with ((- e' - 1 + 1) + (e' - e)) in Hx by lia.
    replace (Z.max 0 e + (e' - e) - 0) with (e' - e) in Hx by lia. rewrite Z.pow_add_r, Z.mul_assoc, Z.mul_1_r in Hx by lia. specialize (Hpow (e' - e) ltac:(lia)).
    apply Z.mul_reg_r in Hx; [|lia]. rewrite <-Hx, Z.pow_add_r, Z.mul_assoc, Z.odd_mul in Hodd by lia. by rewrite andb_comm in Hodd.
Qed.

Lemma whole_spec n x : whole n = Some x <-> is_whole n x.
Proof.
  unfold is_whole, whole, num_normal. destruct n as [[|m|m] e|]; [| | |split; [done|by intros (? & ? & ? & _)]].
  - cbn. assert (0 < 2 ^ Z.max 0 (- e)) by (apply Z.pow_pos_nonneg; lia). split; [intros [= <-]; by exists 0, e|]. intros (m & e0 & [= <- <-] & Hx). f_equal. nia.
  - pose proof (odd_mantissa_value m e) as [Hle Hv]. pose proof (odd_mantissa_odd m e) as Ho. destruct (odd_mantissa m e) as [m' e']. cbn in Hle, Hv, Ho.
    rewrite (whole_mantissa (Z.pos m) (Z.pos m') e e' x) by done. split; [intros Hx; by exists (Z.pos m), e|by intros (? & ? & [= <- <-] & Hx)].
  - pose proof (odd_mantissa_value m e) as [Hle Hv]. pose proof (odd_mantissa_odd m e) as Ho. destruct (odd_mantissa m e) as [m' e']. cbn in Hle, Hv, Ho.
    rewrite (whole_mantissa (Z.neg m) (Z.neg m') e e' x) by (try done; rewrite <-!Pos2Z.opp_pos, Hv; lia). split; [intros Hx; by exists (Z.neg m), e|by intros (? & ? & [= <- <-] & Hx)].
Qed.

Lemma parsePayload_spec payload purpose x c : parsePayload payload = Some (purpose, x, c) <-> payload_says purpose x c payload.
Proof.
  assert (Hsafe : forall n x, safe_integer n = Some x <-> is_whole n x /\ Z.abs x <= 2 ^ 53 - 1).
  { intros n x0. unfold safe_integer. rewrite <-whole_spec. destruct (whole n) as [z|]; cbn; [|naive_solver]. unfold isSafeInteger, MAX_SAFE_INTEGER.
    destruct (Z.leb_spec (Z.abs z) (2 ^ 53 - 1)) as [Hz|Hz]; (split; [intros [= <-]|intros [[= <-] ?]]); (done || lia). }
  assert (Hnames : forall fields : list (string * json), forallb (fun field => Js.elem field.1 ["p"; "x"; "c"]) fields = true <->
    forall name v, (name, v) ∈ fields -> name = "p" \/ name = "x" \/ name = "c").
  { intros fields. rewrite forallb_forall. split.
    - intros Hf name v Hin. apply list_elem_of_In, Hf, elem_spec in Hin. cbn in Hin. rewrite !elem_of_cons in Hin. destruct Hin as [?|[?|[?|Hin]]]; [auto..|by apply elem_of_nil in Hin].
    - intros Hf [name v] Hin%list_elem_of_In. apply elem_spec. cbn. destruct (Hf _ _ Hin) as [->|[->| ->]]; repeat (first [by left|right]). }
  unfold parsePayload, payload_says. destruct (payload_json payload) as [[| | | | |fields]|] eqn:Ej; try (split; [done|by intros (? & ? & [=] & _)]).
  destruct (forallb _ fields) eqn:Ef; [|split; [done|]; intros (fields' & n & [= <-] & Hn & _); apply Hnames in Hn; congruence].
  split.
  - destruct (lookup_field "p" fields) as [[]|] eqn:Ep; try done. destruct (lookup_field "x" fields) as [[]|] eqn:Ex; try done. destruct (safe_integer n) as [x'|] eqn:Es; [|done].
    intros [= -> -> <-]. apply Hsafe in Es as [? ?]. exists fields, n. split_and!; try done; [by apply Hnames|]. by destruct (lookup_field "c" fields).
  - intros (fields' & n & [= <-] & _ & -> & -> & Hw & Ha & Hc). rewrite (proj2 (Hsafe n x) (conj Hw Ha)). cbn. destruct (lookup_field "c" fields); by subst.
Qed.

Lemma signed_text_find t payload token : signed_text t payload token <->
  exists key, List.find (fun candidate => (key_id candidate =? key_id key)%string) (keys t) = Some key /\ token = token_of key payload.
Proof.
  unfold signed_text, token_of, signature. split.
  - intros (before & id & secret & after & -> & Hb & ->). exists (mkKey id secret). split; [|done]. cbn [key_id].
    induction Hb as [|key before Hk _ IH]; cbn; [by rewrite String.eqb_refl|]. by rewrite (proj2 (String.eqb_neq _ _) Hk).
  - intros (key & Hf & ->). assert (Hsplit : exists before after, keys t = before ++ key :: after /\ Forall (fun k => key_id k <> key_id key) before).
    { revert Hf. induction (keys t) as [|k l IH]; cbn; [done|]. destruct (String.eqb_spec (key_id k) (key_id key)) as [He|Hne].
      - intros [= ->]. by exists [], l.
      - intros (before & after & -> & Hb)%IH. exists (k :: before), after. split; [done|]. by constructor. }
    destruct Hsplit as (before & after & El & Hb). exists before, (key_id key), (key_secret key), after. by destruct key.
Qed.

(** C32. A token verifies for a purpose with some claims exactly when it is the text this environment signs: the id of one of
    its keys, a payload in base64url, and the HMAC of that very id and payload under the key's secret, spelled as the signer
    spells it; and the payload is of that very purpose, has not expired, and has claims that the purpose's schema admits as a
    record, and nothing else. So a token of one purpose never passes as another's, a changed payload needs the secret, and
    each key and payload has one text that verifies. *)
Theorem verify_exact t now purpose token claims : keys_ok t ->
  verify t now purpose token = inr claims <->
  exists declared payload x c,
    lookup_field purpose (purposes t) = Some declared /\ in_base64url payload /\ signed_text t payload token /\ payload_says purpose x c payload /\ now / 1000 < x /\
    safeParse (p_claims declared) c = inr claims /\ exists fields, claims = UObj fields.
Proof.
  intros Hk. split.
  - unfold verify. destruct (List.find _ _) as [key|] eqn:Ef; [|done]. destruct (lookup_field purpose _) as [declared|] eqn:Ed; [|done].
    destruct (_ || _) eqn:Eo; [done|]. to_prop. destruct (negb (_ =? _)%string) eqn:Es; [done|]. to_prop.
    destruct (parsePayload _) as [[[p x] c]|] eqn:Ep; [|done]. destruct (negb (_ =? _)%string) eqn:Eq; [done|]. to_prop. subst p. destruct (Z.leb_spec x (now / 1000)); [done|].
    destruct (safeParse _ c) as [|data] eqn:Ec; [done|]. destruct (isRecord data) eqn:Er; [|done]. intros [= <-].
    destruct (find_key _ _ _ Ef) as [Hin He]. exists declared, (nth 1 (Js.split "." token) ""), x, c. split_and!; try done; [by apply is_base64url_spec| |by apply parsePayload_spec|by destruct data; eauto].
    apply signed_text_find. exists key. rewrite He. split; [done|].
    destruct (Js.split "." token) as [|a [|b [|g [|]]]] eqn:E; cbn in *; try done; try lia; try (by rewrite ?orb_true_r in *).
    unfold token_of. rewrite He. apply split_three. by rewrite E; f_equal; f_equal; f_equal.
  - intros (declared & payload & x & c & Hd & Hp%is_base64url_spec & (key & Hf & ->)%signed_text_find & Hpp%parsePayload_spec & Hx & Hc & (fields & ->)).
    unfold verify. destruct (find_key _ _ _ Hf) as [Hin _].
    rewrite (token_split t) by done. cbn [nth length]. rewrite Hf, Hd, Hp, signature_units, String.eqb_refl, Hpp, String.eqb_refl. cbn.
    rewrite (proj2 (Z.leb_gt _ _)) by done. by rewrite Hc.
Qed.

(** The keys of [FABRIKA_TOKEN_KEYS] are well formed, each id once. *)
Lemma read_entries_ok entries old new : Forall (fun key => is_key_id (key_id key) = true) old -> NoDup (map key_id old) ->
  read_entries old entries = Some new -> Forall (fun key => is_key_id (key_id key) = true /\ (MIN_SECRET_BYTES <= String.length (key_secret key))%nat \/ key ∈ old) new /\
    Forall (fun key => is_key_id (key_id key) = true) new /\ NoDup (map key_id new).
Proof.
  revert old. induction entries as [|entry entries IH]; intros old Hk Hd; cbn [read_entries].
  - intros [= <-]. split_and!; [|done|done]. apply Forall_forall. by right.
  - destruct (Js.indexOf ":" entry) as [separator|]; [|done]. destruct (_ || _) eqn:E; [done|]. to_prop. intros Hr. apply IH in Hr as (Ha & Hb & Hc).
    + split_and!; [|done|done]. eapply Forall_impl; [exact Ha|]. intros key [?|[?|Hnew]%elem_of_app]; [by left|by right|]. apply list_elem_of_singleton in Hnew as ->. left. by split.
    + apply Forall_app. split; [done|]. by repeat constructor.
    + rewrite map_app. cbn. apply NoDup_app. split_and!; [done| |apply NoDup_singleton]. intros k Hin ->%list_elem_of_singleton.
      apply list_elem_of_fmap in Hin as (key & Hid & Hin). match goal with H : existsb _ old = false |- _ => apply not_true_iff_false in H; apply H end.
      apply existsb_exists. exists key. split; [by apply list_elem_of_In|]. by rewrite <- Hid, String.eqb_refl.
Qed.

Lemma readTokenKeys_ok value declared keys : readTokenKeys value declared = inr (Some keys) -> forall purposes, keys_ok (mkSigned purposes keys).
Proof.
  unfold readTokenKeys. destruct declared; [|done]. destruct (_ =? _)%string; [done|]. destruct (read_entries _ _) as [ks|] eqn:E; [|done]. intros [= <-] purposes.
  by apply read_entries_ok in E as (_ & ? & _); [| |constructor].
Qed.

Lemma payload_parsed purpose x claims : isSafeInteger x = true ->
  parsePayload (payload_text (payload_of purpose x claims)) = Some (purpose, x, from_option of_json UUndefined (json_of claims)).
Proof.
  intros Hx. unfold parsePayload. rewrite payload_reads_back. unfold payload_of. destruct (json_of claims) as [c|]; cbn -[safe_integer].
  all: replace (safe_integer (NFinite x 0)) with (Some x); [done|]; symmetry; unfold safe_integer; rewrite whole_integer; cbn; by rewrite Hx.
Qed.

(** A token that a site signed reads back: within the purpose's longest lifetime, whoever verifies it for that purpose in
    this environment before it expires gets the very claims the purpose's schema admitted, and from its last second on a
    refusal that says so; nothing is signed for a purpose the site does not declare, or for longer. *)
Theorem sign_verify t now now' signs purpose claims options token :
  keys_ok t -> 0 <= now <= MAX_SAFE_INTEGER -> (forall declared, lookup_field purpose (purposes t) = Some declared -> maxDays declared <= 100000) ->
  (forall declared data, lookup_field purpose (purposes t) = Some declared -> safeParse (p_claims declared) claims = inr data ->
     isRecord data = true /\ safeParse (p_claims declared) (from_option of_json UUndefined (json_of data)) = inr data) ->
  sign t now signs purpose claims options = inr token ->
  exists declared days data, purpose ∈ signs /\ lookup_field purpose (purposes t) = Some declared /\ 1 <= days <= maxDays declared /\
    safeParse (p_claims declared) claims = inr data /\
    verify t now' purpose token = if now / 1000 + days * DAY_SECONDS <=? now' / 1000 then inl expired else inr data.
Proof.
  intros Hk Hnow Hmax Hback. unfold sign. destruct (Js.elem purpose signs) eqn:Es; [|done]. destruct (lookup_field purpose (purposes t)) as [declared|] eqn:Ed; [|done].
  destruct (days_of options) as [days|]; [|done]. destruct (_ || _) eqn:Eo; [done|]. to_prop. destruct (safeParse _ claims) as [|data] eqn:Ec; [done|].
  destruct (keys t) as [|key ks] eqn:Ek; [done|]. intros [= <-]. exists declared, days, data. apply elem_spec in Es. split_and!; [done|done|lia|lia|done|].
  destruct (Hback _ _ eq_refl Ec) as [Hr Hd]. specialize (Hmax _ eq_refl).
  assert (Hsafe : isSafeInteger (now / 1000 + days * DAY_SECONDS) = true).
  { apply Z.leb_le. unfold MAX_SAFE_INTEGER, DAY_SECONDS in *. assert (0 <= now / 1000 <= now / 1000) by (split; [apply Z.div_pos; lia|lia]).
    assert (now / 1000 <= 9007199254741) by (apply Z.div_le_upper_bound; lia). lia. }
  unfold verify. rewrite (token_split t) by (first [done|by rewrite Ek; left|apply payload_base64url]). cbn [nth length]. rewrite Ek. cbn [List.find].
  rewrite String.eqb_refl, Ed, payload_base64url, signature_units, String.eqb_refl, payload_parsed by done. rewrite String.eqb_refl. cbn.
  destruct (_ <=? _); [done|]. by rewrite Hd, Hr.
Qed.

(** Only the texts of verified tokens are carried. *)
Lemma verify_each_carried t now tokens value verified into out carried : verify_each t now tokens value verified into = inr (out, carried) ->
  forall text, text ∈ carried -> text ∈ into \/ exists field purpose token claims, (field, purpose) ∈ tokens /\ lookup_field field value = Some (UStr token) /\
    verify t now purpose token = inr claims /\ text ∈ collectTexts claims.
Proof.
  revert verified into. induction tokens as [|[field purpose] tokens IH]; intros verified into; cbn [verify_each]; [intros [= _ <-]; by left|].
  assert (Hkeep : verify_each t now tokens value verified into = inr (out, carried) -> forall text, text ∈ carried ->
    text ∈ into \/ exists f p token claims, (f, p) ∈ (field, purpose) :: tokens /\ lookup_field f value = Some (UStr token) /\ verify t now p token = inr claims /\ text ∈ collectTexts claims).
  { intros Hv text Hin. destruct (IH _ _ Hv text Hin) as [?|(f & p & tok & c & ? & ?)]; [by left|]. right. exists f, p, tok, c. split; [by right|done]. }
  destruct (lookup_field field value) as [[]|] eqn:El; try exact Hkeep. destruct (verify t now purpose s) as [|claims] eqn:Ev; [done|].
  intros Hv text Hin. destruct (IH _ _ Hv text Hin) as [[?|?]%elem_of_app|(f & p & tok & c & ? & ?)]; [by left| |].
  - right. exists field, purpose, s, claims. split; [by left|done].
  - right. exists f, p, tok, c. split; [by right|done].
Qed.

End Tokens.

(** ** An example *)

Module Demo.

Fixpoint tree_of (v : json) : gen_tree (bool + jsnum + string) :=
  match v with
  | JNull => GenNode 0 []
  | JBool b => GenLeaf (inl (inl b))
  | JNum n => GenLeaf (inl (inr n))
  | JStr s => GenLeaf (inr s)
  | JArr items => GenNode 1 (map tree_of items)
  | JObj fields => GenNode 2 (map (fun field => GenNode 3 [GenLeaf (inr field.1); tree_of field.2]) fields)
  end.

Fixpoint of_tree (t : gen_tree (bool + jsnum + string)) : json :=
  match t with
  | GenLeaf (inl (inl b)) => JBool b
  | GenLeaf (inl (inr n)) => JNum n
  | GenLeaf (inr s) => JStr s
  | GenNode 1 items => JArr (map of_tree items)
  | GenNode 2 fields => JObj (map (fun field => match field with GenNode _ [GenLeaf (inr k); v] => (k, of_tree v) | _ => ("", JNull) end) fields)
  | GenNode _ _ => JNull
  end.

Lemma of_tree_of v : of_tree (tree_of v) = v.
Proof.
  induction v as [| | | |items IH|fields IH] using json_rect'; cbn; try done; f_equal; rewrite map_map.
  - induction IH as [|x l Hx _ IHl]; [done|]. cbn. by rewrite Hx, IHl.
  - induction IH as [|[k x] l Hx _ IHl]; [done|]. cbn in *. by rewrite Hx, IHl.
Qed.

#[export] Instance jsnum_countable : Countable jsnum.
Proof. apply (inj_countable' (fun n => match n with NFinite m e => Some (m, e) | NNotFinite => None end) (fun o => match o with Some (m, e) => NFinite m e | None => NNotFinite end)). by intros []. Defined.

Fixpoint bits (p : positive) : string := match p with xH => "1" | xO p => String "0" (bits p) | xI p => String "1" (bits p) end.

Fixpoint of_bits (s : string) : option positive :=
  match s with
  | EmptyString => None
  | String c EmptyString => Some xH
  | String c s => (if Ascii.eqb c "0" then xO else xI) <$> of_bits s
  end.

Lemma of_bits_bits p : of_bits (bits p) = Some p.
Proof. induction p as [p IH|p IH|]; cbn; [..|done]; rewrite IH; by destruct p. Qed.

Lemma bits_base64url p : is_base64url (bits p) = true.
Proof. unfold is_base64url. apply andb_true_intro. split; [|by destruct p]. by induction p. Qed.

#[export] Instance texts : TokenTexts := {|
  hmac secret text := "sig";
  base64url_bytes text := text;
  payload_text value := bits (encode (tree_of value));
  payload_json text := p ← of_bits text; of_tree <$> decode p;
|}.

#[export] Instance text_laws : TokenTextLaws.
Proof.
  split; [done|intros v; apply bits_base64url|]. intros v. cbn. rewrite of_bits_bits. cbn. rewrite decode_encode. cbn. by rewrite of_tree_of.
Qed.

#[export] Instance zod : Zod := {| safeParse _ value := inr value |}.

Definition claims : Unknown := UObj [("email", UStr "a@b.c")].
Definition tokens : SignedTokens := mkSigned [("invite", mkPurpose (ZOther 0) 30)] [mkKey "key_2024" ""].
Definition options : Unknown := UObj [("days", UNum (NFinite 7 0))].

End Demo.

#[local] Existing Instances Demo.texts Demo.text_laws Demo.zod.

Lemma sign_verify_witness : exists token,
  sign Demo.tokens 1000000 ["invite"] "invite" Demo.claims Demo.options = inr token /\ verify Demo.tokens 605799000 "invite" token = inr Demo.claims /\
  exists declared days data, "invite" ∈ ["invite"] /\ lookup_field "invite" (purposes Demo.tokens) = Some declared /\ 1 <= days <= maxDays declared /\
    safeParse (p_claims declared) Demo.claims = inr data /\
    verify Demo.tokens 605800000 "invite" token = if 1000000 / 1000 + days * DAY_SECONDS <=? 605800000 / 1000 then inl expired else inr data.
Proof.
  destruct (sign Demo.tokens 1000000 ["invite"] "invite" Demo.claims Demo.options) as [|token] eqn:E; [by vm_compute in E|]. exists token. split; [done|]. split.
  - vm_compute in E. injection E as <-. by vm_compute.
  - apply (sign_verify Demo.tokens 1000000 605800000 ["invite"] "invite" Demo.claims Demo.options token); [by repeat constructor|done| | |exact E].
    + by intros declared [= <-].
    + intros declared data [= <-] [= <-]. split; reflexivity.
Defined.

Lemma verify_exact_witness : exists token,
  verify Demo.tokens 605000000 "invite" token = inr Demo.claims /\
  exists declared payload x c, lookup_field "invite" (purposes Demo.tokens) = Some declared /\ in_base64url payload /\ signed_text Demo.tokens payload token /\
    payload_says "invite" x c payload /\ 605000000 / 1000 < x /\ safeParse (p_claims declared) c = inr Demo.claims /\ exists fields, Demo.claims = UObj fields.
Proof.
  destruct (sign Demo.tokens 1000000 ["invite"] "invite" Demo.claims Demo.options) as [|token] eqn:E; [by vm_compute in E|]. exists token.
  assert (Hv : verify Demo.tokens 605000000 "invite" token = inr Demo.claims) by (vm_compute in E; injection E as <-; by vm_compute).
  split; [exact Hv|]. apply (verify_exact Demo.tokens 605000000 "invite" token Demo.claims); [by repeat constructor|exact Hv].
Defined.
