(* ===== verification/Clients.v ===== *)
(** Who calls an application, and how much one client may ([app/src/implement/client-address.ts], [principal.ts],
    [public.ts]). *)

From S2P Require Import Prelude Json Permissions Token Digest.
From Stdlib Require Import ZArith Lia String Ascii DecimalString.
From stdpp Require Import base tactics strings option list.

Open Scope Z_scope.

(** ** Addresses *)

Definition MAX_ADDRESS_LENGTH : nat := 64.

(** The value of decimal and of hexadecimal digits. *)
Definition digit_of (c : ascii) : Z :=
  let n := Z.of_nat (Js.code c) in if Js.is_digit c then n - 48 else n - 87.

Fixpoint value_in (base acc : Z) (s : string) : Z := match s with EmptyString => acc | String c s => value_in base (base * acc + digit_of c) s end.

(** [25[0-5]|2[0-4]\d|1\d\d|[1-9]?\d]: a decimal octet without a leading zero. *)
Definition is_octet (s : string) : bool :=
  Js.forall_units Js.is_digit s && (1 <=? String.length s)%nat && (String.length s <=? 3)%nat
  && ((String.length s =? 1)%nat || negb (Js.startsWith s "0")) && (value_in 10 0 s <=? 255).

(** [IPV4.test] *)
Definition is_ipv4 (s : string) : bool :=
  match Js.split "." s with [a; b; c; d] => is_octet a && is_octet b && is_octet c && is_octet d | _ => false end.

(** [HEXTET.test] *)
Definition is_hextet (s : string) : bool := Js.forall_units is_lower_hex s && (1 <=? String.length s)%nat && (String.length s <=? 4)%nat.

(** [address.split('::')] *)
Fixpoint split_double (s : string) : list string :=
  match s with
  | EmptyString => [""]
  | String c s' =>
      match c, s' with
      | ":"%char, String ":"%char rest => "" :: split_double rest
      | _, _ => match split_double s' with [] => [String c ""] | w :: ws => String c w :: ws end
      end
  end.

(** [groupsOf], of the parts of a half. *)
Fixpoint groups_of (parts : list string) : option (list Z) :=
  match parts with
  | [] => Some []
  | part :: parts =>
      if match parts with [] => is_ipv4 part | _ => false end then
        match map (value_in 10 0) (Js.split "." part) with [a; b; c; d] => Some [a * 256 + b; c * 256 + d] | _ => None end
      else if is_hextet part then groups ← groups_of parts; Some (value_in 16 0 part :: groups)
      else None
  end.

Definition groupsOf (half : string) : option (list Z) := if (half =? "")%string then Some [] else groups_of (Js.split ":" half).

Definition ipv6Groups (text : string) : option (list Z) :=
  let address := nth 0 (Js.split "%" text) "" in
  match split_double address with
  | [whole] => head ← groupsOf whole; if (length head =? 8)%nat then Some head else None
  | [head; tail] =>
      head ← groupsOf head; tail ← groupsOf tail;
      let missing := 8 - Z.of_nat (length head) - Z.of_nat (length tail) in
      if missing <? 1 then None else Some (head ++ replicate (Z.to_nat missing) 0 ++ tail)
  | _ => None
  end.

(** [n.toString(16)], of a group. *)
Definition hex_text (n : Z) : string := toString16 8 n.

(** The text of an octet. *)
Definition octet_text (n : Z) : string :=
  let unit d := ascii_of_nat (Z.to_nat (48 + d)) in
  if n <? 10 then String (unit n) ""
  else if n <? 100 then String (unit (n / 10)) (String (unit (n mod 10)) "")
  else String (unit (n / 100)) (String (unit (n / 10 mod 10)) (String (unit (n mod 10)) "")).

(** The address of a header's value, as it is compared. *)
Definition address_of (header : option string) : string := Js.toLowerCase (Js.trim (nth 0 (Js.split "," (default "" header)) "")).

Definition unbracketed (value : string) : string :=
  if Js.startsWith value "[" && Js.endsWith value "]" then Js.dropLast (Js.drop 1 value) else value.

Definition is_mapped (groups : list Z) : bool := forallb (Z.eqb 0) (take 5 groups) && (nth 5 groups 0 =? 65535).

Definition prefix_text (groups : list Z) : string := Js.join ":" (map hex_text (take 4 groups)) +:+ "::/64".

Definition clientKey (header : option string) : string :=
  let value := address_of header in
  if (value =? "")%string || (MAX_ADDRESS_LENGTH <? String.length value)%nat then "unknown"
  else if is_ipv4 value then value
  else match ipv6Groups (unbracketed value) with
       | None => "unknown"
       | Some groups =>
           if is_mapped groups then
             let high := nth 6 groups 0 in let low := nth 7 groups 0 in
             Js.join "." (map octet_text [Z.shiftr high 8; Z.land high 255; Z.shiftr low 8; Z.land low 255])
           else prefix_text groups
       end.

Definition clientBucket (header : option string) : string := "client:" +:+ sha256Hex (clientKey header).

(** ** Principals *)

(** [Principal]: a person, a machine, the holder of a share link, another application. *)
Inductive Principal :=
| UserPrincipal (id label email : string) (terminal : option TerminalTokenClaims)
| ServicePrincipal (id label : string)
| LinkHolder (credentialId : string)
| AppPrincipal (app id : string).

Inductive PresentedBy := Presented (caller : string) (principal : Principal) | NoCaller | NoMailbox.

Definition presentedBy (claims : AccessTokenClaims) : PresentedBy :=
  match callerOf claims with
  | None => NoCaller
  | Some caller =>
      if (caller =? "human")%string then
        match email claims with
        | None => NoMailbox
        | Some email => Presented caller (UserPrincipal (sub claims) (default (sub claims) (label claims)) email (terminal claims))
        end
      else if (caller =? "machine")%string then Presented caller (ServicePrincipal (sub claims) (default (sub claims) (label claims)))
      else if (caller =? "link")%string then Presented caller (LinkHolder (sub claims))
      else if (caller =? OAUTH_CALLER)%string then NoCaller
      else Presented caller (AppPrincipal (Js.drop (String.length APP_CALLER_PREFIX) caller) (sub claims))
  end.

(** [set.add] *)
Definition set_add (x : string) (set : list string) : list string := if Js.elem x set then set else set ++ [x].

Record ScopedActions := mkScoped { sa_type : string; sa_value : string; sa_actions : list string }.

Record PageCaller := mkPageCaller { pc_label : string; pc_email : string; pc_app : list string; pc_scopes : list ScopedActions }.

(** [JSON.stringify([type, value])] *)
Definition scope_key (s : Scope) : string := jsonStrings [scope_type s; scope_value s].

(** [scoped.set(key, …)] with the actions held added. *)
Fixpoint add_scoped (s : Scope) (held : list string) (scoped : list (string * ScopedActions)) : list (string * ScopedActions) :=
  match scoped with
  | [] => [(scope_key s, mkScoped (scope_type s) (scope_value s) (foldl (fun set a => set_add a set) [] held))]
  | (key, value) :: scoped =>
      if (key =? scope_key s)%string
      then (key, mkScoped (sa_type value) (sa_value value) (foldl (fun set a => set_add a set) (sa_actions value) held)) :: scoped
      else (key, value) :: add_scoped s held scoped
  end.

Definition covered (actions : list string) (pattern : string) : list string := List.filter (matchAction pattern) actions.

Fixpoint page_loop (actions : list string) (perms : list PermissionEntry) (app : list string) (scoped : list (string * ScopedActions)) :=
  match perms with
  | [] => (app, scoped)
  | entry :: perms =>
      match covered actions (action entry) with
      | [] => page_loop actions perms app scoped
      | held =>
          match scope entry with
          | None => page_loop actions perms (foldl (fun set a => set_add a set) app held) scoped
          | Some s => page_loop actions perms app (add_scoped s held scoped)
          end
      end
  end.

(** [pageCallerOf], of a person's label and mailbox. *)
Definition pageCallerOf (label email : string) (perms : list PermissionEntry) (actions : list string) : PageCaller :=
  let (app, scoped) := page_loop actions perms [] [] in
  mkPageCaller label email (sort_by code_unit_le app)
    (map (fun entry => mkScoped (sa_type entry.2) (sa_value entry.2) (sort_by code_unit_le (sa_actions entry.2)))
       (sort_by (fun a b => code_unit_le a.1 b.1) scoped)).

(** ** Admission *)

Definition ENDPOINT_BUCKET : string := "endpoint".
Definition MAX_USER_AGENT_LENGTH : nat := 256.

Record AdmissionRate := mkRate { perClient : option Z; perCaller : option Z; perEndpoint : option Z; bytesPerHour : option Z }.

(** [bucketsOf]: the client's first, then the caller's, then the endpoint's. *)
Definition bucketsOf (rate : AdmissionRate) (client : option string) (caller : option string) : list (string * Z) :=
  match perClient rate with Some limit => [(clientBucket client, limit)] | None => [] end
  ++ match perCaller rate, caller with Some limit, Some caller => [("caller:" +:+ sha256Hex caller, limit)] | _, _ => [] end
  ++ match perEndpoint rate with Some limit => [(ENDPOINT_BUCKET, limit)] | None => [] end.

Record RequestClient := mkClient { client_ip : option string; client_userAgent : option string }.

(** [requestClient], of the two headers it reads. *)
Definition requestClient (address agent : option string) (vouched : bool) : RequestClient :=
  let ip := if vouched then Js.trim (default "" address) else "" in
  mkClient (if (ip =? "")%string || (clientKey (Some ip) =? "unknown")%string then None else Some ip)
           (match agent with Some agent => if (agent =? "")%string then None else Some (Js.take MAX_USER_AGENT_LENGTH agent) | None => None end).

(** [InFlightShare]: what it holds, and for each place it gave whether its release was called. *)
Record InFlightShare := mkShare { share_limit : Z; share_held : Z; releases : list bool }.

Definition new_InFlightShare (limit : Z) : InFlightShare := mkShare limit 0 [].

(** [enter]: the place it gives, or [None]. *)
Definition enter (s : InFlightShare) : option nat * InFlightShare :=
  if share_limit s <=? share_held s then (None, s)
  else (Some (length (releases s)), mkShare (share_limit s) (share_held s + 1) (releases s ++ [false])).

Definition release (place : nat) (s : InFlightShare) : InFlightShare :=
  match releases s !! place with
  | Some false => mkShare (share_limit s) (share_held s - 1) (<[place := true]> (releases s))
  | _ => s
  end.

Definition publicShareOf (connections : Z) : Z := Z.max 1 (connections / 4).

(** *** Boot *)

Inductive ChallengeProvider := Turnstile | Altcha.

Record ProcedureChallenge := mkChallengeRule { ch_provider : ChallengeProvider; ch_secret : string; ch_action : string }.

Record ProcedureArtifact := mkProcedure { pa_rate : AdmissionRate; pa_challenge : option ProcedureChallenge; pa_timeoutMs : Z }.

(** [AdmittedChallenge]: the verifier's provider and secret, and the action it expects; ALTCHA's issues too. *)
Record AdmittedChallenge := mkAdmitted { ac_provider : ChallengeProvider; ac_secret : string; ac_action : string; ac_issues : bool }.

Record ProcedureAdmission := mkAdmission { adm_rate : AdmissionRate; adm_challenge : option AdmittedChallenge; adm_repeatable : option string; adm_timeoutMs : Z }.

Definition REQUEST_BUDGET_MS : Z := 10000.
Definition ALTCHA_MIN_KEY_LENGTH : nat := 32.

Definition DEFAULT_ADMISSION : ProcedureAdmission := mkAdmission (mkRate None None None None) None None REQUEST_BUDGET_MS.

(** [procedureAdmission]: [None] after a problem; [application] are the variables that are texts. *)
Definition procedureAdmission (rules : option ProcedureArtifact) (application : string -> option string) (repeatable : option string) : option ProcedureAdmission :=
  match rules with
  | None => Some DEFAULT_ADMISSION
  | Some rules =>
      match pa_challenge rules with
      | None => Some (mkAdmission (pa_rate rules) None None (pa_timeoutMs rules))
      | Some challenge =>
          let secret := Js.trim (default "" (application (ch_secret challenge))) in
          if (secret =? "")%string then None
          else match ch_provider challenge with
               | Altcha =>
                   if (String.length secret <? ALTCHA_MIN_KEY_LENGTH)%nat then None
                   else Some (mkAdmission (pa_rate rules) (Some (mkAdmitted Altcha secret (ch_action challenge) true)) repeatable (pa_timeoutMs rules))
               | Turnstile =>
                   Some (mkAdmission (pa_rate rules) (Some (mkAdmitted Turnstile secret (ch_action challenge) false)) repeatable (pa_timeoutMs rules))
               end
      end
  end.

(** ** One key for a subscriber *)

Definition is_group (n : Z) : Prop := 0 <= n < 65536.

Lemma digit_of_bound c : is_lower_hex c = true -> 0 <= digit_of c < 16.
Proof.
  unfold is_lower_hex, digit_of, Js.is_digit, Js.in_range. destruct ((48 <=? Js.code c) && (Js.code c <=? 57))%nat eqn:E; intros Hc.
  - to_prop. lia.
  - rewrite orb_false_l in Hc. to_prop. lia.
Qed.

Lemma value_bound s acc : Js.forall_units is_lower_hex s = true -> 0 <= acc -> 0 <= value_in 16 acc s < (acc + 1) * 16 ^ Z.of_nat (String.length s).
Proof.
  revert acc. induction s as [|c s IH]; intros acc; cbn [Js.forall_units value_in String.length]; [intros _ ?; rewrite Z.pow_0_r; lia|].
  intros [Hc Hs]%andb_prop Ha. pose proof (digit_of_bound c Hc). specialize (IH (16 * acc + digit_of c) Hs ltac:(lia)).
  rewrite Nat2Z.inj_succ, Z.pow_succ_r by lia. assert (0 < 16 ^ Z.of_nat (String.length s)) by (apply Z.pow_pos_nonneg; lia). nia.
Qed.

Lemma hextet_group s : is_hextet s = true -> is_group (value_in 16 0 s).
Proof.
  unfold is_hextet. intros [[Hs H1]%andb_prop H4]%andb_prop. apply Nat.leb_le in H4. pose proof (value_bound s 0 Hs ltac:(lia)) as Hb.
  assert (16 ^ Z.of_nat (String.length s) <= 16 ^ 4) by (apply Z.pow_le_mono_r; lia). unfold is_group. change 65536 with (16 ^ 4). lia.
Qed.

Lemma value_nonneg s acc : Js.forall_units Js.is_digit s = true -> 0 <= acc -> 0 <= value_in 10 acc s.
Proof.
  revert acc. induction s as [|c s IH]; intros acc; cbn [Js.forall_units value_in]; [done|]. intros [Hc Hs]%andb_prop Ha. apply IH; [done|].
  unfold digit_of. rewrite Hc. unfold Js.is_digit, Js.in_range in Hc. to_prop. lia.
Qed.

Lemma octet_value s : is_octet s = true -> 0 <= value_in 10 0 s <= 255.
Proof. unfold is_octet. intros Ho. to_prop. split; [by apply value_nonneg|done]. Qed.

Lemma ipv4_groups part a b c d : is_ipv4 part = true -> map (value_in 10 0) (Js.split "." part) = [a; b; c; d] -> is_group (a * 256 + b) /\ is_group (c * 256 + d).
Proof.
  unfold is_ipv4. destruct (Js.split "." part) as [|w [|x [|y [|z []]]]]; try done. intros Ho [= <- <- <- <-]. to_prop.
  repeat match goal with H : is_octet _ = true |- _ => apply octet_value in H end. unfold is_group. lia.
Qed.

Lemma groups_of_range parts groups : groups_of parts = Some groups -> Forall is_group groups.
Proof.
  revert groups. induction parts as [|part parts IH]; intros groups; cbn [groups_of]; [by intros [= <-]|].
  destruct (match parts with [] => is_ipv4 part | _ => false end) eqn:E4.
  - destruct parts; [|done]. destruct (map _ _) as [|a [|b [|c [|d []]]]] eqn:Em; try done. intros [= <-]. destruct (ipv4_groups _ _ _ _ _ E4 Em). by rewrite !Forall_cons.
  - destruct (is_hextet part) eqn:Eh; [|done]. intros (gs & Hg & [= <-])%bind_Some. constructor; [by apply hextet_group|by apply IH].
Qed.

Lemma groupsOf_range half groups : groupsOf half = Some groups -> Forall is_group groups.
Proof. unfold groupsOf. destruct (half =? "")%string; [by intros [= <-]|apply groups_of_range]. Qed.

Lemma ipv6Groups_range text groups : ipv6Groups text = Some groups -> length groups = 8%nat /\ Forall is_group groups.
Proof.
  unfold ipv6Groups. destruct (split_double _) as [|a [|b []]]; try done.
  - intros (head & Hh & Hl)%bind_Some. destruct (Nat.eqb_spec (length head) 8); [|done]. injection Hl as <-. split; [done|by eapply groupsOf_range].
  - intros (head & Hh & (tail & Ht & Hm)%bind_Some)%bind_Some. destruct (Z.ltb_spec (8 - Z.of_nat (length head) - Z.of_nat (length tail)) 1); [done|]. injection Hm as <-.
    rewrite !length_app, length_replicate. split; [lia|]. apply Forall_app. split; [by eapply groupsOf_range|]. apply Forall_app. split; [|by eapply groupsOf_range].
    apply Forall_replicate. unfold is_group. lia.
Qed.

Lemma value_in_app s t acc : value_in 16 acc (s +:+ t) = value_in 16 (value_in 16 acc s) t.
Proof. revert acc. induction s as [|c s IH]; intros acc; cbn; [done|apply IH]. Qed.

Lemma hex_digit_value n : 0 <= n < 16 -> digit_of (hex_digit n) = n.
Proof.
  intros Hn. assert (Hall : forallb (fun k => digit_of (hex_digit (Z.of_nat k)) =? Z.of_nat k) (seq 0 16) = true) by (by vm_compute).
  rewrite forallb_forall in Hall. specialize (Hall (Z.to_nat n)). rewrite Z2Nat.id in Hall by lia. apply Z.eqb_eq, Hall. apply in_seq. lia.
Qed.

Lemma toString16_value fuel n : 0 <= n < 16 ^ (Z.of_nat fuel + 1) -> value_in 16 0 (toString16 fuel n) = n.
Proof.
  revert n. induction fuel as [|fuel IH]; intros n Hn; cbn [toString16].
  - cbn [value_in]. rewrite Z.mod_small by (cbn in Hn; lia). rewrite hex_digit_value by (cbn in Hn; lia). lia.
  - destruct (Z.ltb_spec n 16) as [Hlt|Hge]; [cbn [value_in]; rewrite hex_digit_value by lia; lia|].
    assert (Hm : 0 <= n mod 16 < 16) by (apply Z.mod_pos_bound; lia).
    rewrite value_in_app, IH.
    + cbn [value_in]. rewrite hex_digit_value by done. pose proof (Z.div_mod n 16 ltac:(lia)). lia.
    + split; [apply Z.div_pos; lia|]. apply Z.div_lt_upper_bound; [lia|]. replace (Z.of_nat (S fuel) + 1) with (Z.succ (Z.of_nat fuel + 1)) in Hn by lia.
      rewrite Z.pow_succ_r in Hn by lia. lia.
Qed.

Lemma hex_text_value n : is_group n -> value_in 16 0 (hex_text n) = n.
Proof. intros Hn. apply toString16_value. unfold is_group in Hn. cbn. lia. Qed.

Lemma toString16_units fuel n : 0 <= n -> Js.forall_units is_lower_hex (toString16 fuel n) = true.
Proof.
  revert n. induction fuel as [|fuel IH]; intros n Hn; cbn [toString16].
  - cbn. by rewrite hex_digit_lower by (apply Z.mod_pos_bound; lia).
  - destruct (Z.ltb_spec n 16); [cbn; by rewrite hex_digit_lower by lia|]. rewrite forall_units_app, IH by (apply Z.div_pos; lia). cbn.
    by rewrite hex_digit_lower by (apply Z.mod_pos_bound; lia).
Qed.

Lemma hex_text_no_colon n : is_group n -> Js.forall_units (fun c => negb (Ascii.eqb c ":")) (hex_text n) = true.
Proof.
  intros Hn. eapply forall_units_impl; [|apply toString16_units; unfold is_group in Hn; lia]. intros c. by destruct (Ascii.eqb_spec c ":") as [->|].
Qed.

Lemma prefix_text_join ga : (4 <= length ga)%nat -> prefix_text ga = Js.join ":" (map hex_text (take 4 ga) ++ [""; "/64"]).
Proof.
  unfold prefix_text. destruct ga as [|a [|b [|c [|d ga]]]]; cbn [length take map app]; try lia. intros _. unfold Js.join. cbn [String.concat].
  by rewrite <- !str_app_assoc.
Qed.

Lemma prefix_text_inj ga gb : length ga = 8%nat -> length gb = 8%nat -> Forall is_group ga -> Forall is_group gb ->
  prefix_text ga = prefix_text gb -> take 4 ga = take 4 gb.
Proof.
  intros La Lb Ha Hb. rewrite !prefix_text_join by lia. intros He.
  assert (Hparts : forall g, Forall is_group g -> Forall (fun w => Js.forall_units (fun c => negb (Ascii.eqb c ":")) w = true) (map hex_text (take 4 g) ++ [""; "/64"])).
  { intros g Hg. apply Forall_app. split; [|by repeat constructor]. apply Forall_map. apply (Forall_impl is_group); [by apply Forall_take|]. intros n. apply hex_text_no_colon. }
  assert (Hne : forall g, map hex_text (take 4 g) ++ [""; "/64"] <> []) by (intros g Hn; by apply app_eq_nil in Hn as [_ ?]).
  apply (f_equal (Js.split ":")) in He. rewrite !(split_join ":") in He by (apply Hne || by apply Hparts).
  apply app_inv_tail in He. apply (f_equal (map (value_in 16 0))) in He. rewrite !map_map in He.
  assert (Hid : forall g, Forall is_group g -> map (fun x => value_in 16 0 (hex_text x)) g = g).
  { intros g Hg. induction Hg as [|x g Hx _ IH]; [done|]. cbn [map]. by rewrite hex_text_value, IH. }
  by rewrite !Hid in He by (by apply Forall_take).
Qed.

(** *** Addresses, as they are written

    What the text of an address means, apart from the code that reads it: the dotted decimals of IPv4 and the forms of IPv6
    (eight groups, groups around one [::], an IPv4 tail), in lower case. *)

(** The decimal text of an octet. *)
Definition dec (n : nat) : string := NilZero.string_of_uint (Nat.to_uint n).

Definition octet (n : nat) : Prop := (n < 256)%nat.

Definition v4_text (a b c d : nat) : string := dec a +:+ "." +:+ dec b +:+ "." +:+ dec c +:+ "." +:+ dec d.

(** The value of hexadecimal digits, by their place. *)
Inductive hex_reads : string -> Z -> Prop :=
| hex_nothing : hex_reads "" 0
| hex_digits s v d c : hex_reads s v -> String.get d "0123456789abcdef" = Some c -> hex_reads (s +:+ String c "") (16 * v + Z.of_nat d).

Definition hextet (s : string) (h : Z) : Prop := hex_reads s h /\ (1 <= String.length s <= 4)%nat.

(** Groups with a colon between each two. *)
Inductive reads_groups : string -> list Z -> Prop :=
| groups_one s h : hextet s h -> reads_groups s [h]
| groups_more s h rest groups : hextet s h -> reads_groups rest groups -> reads_groups (s +:+ ":" +:+ rest) (h :: groups).

(** Groups of which an IPv4 address, as two groups, may be the last. *)
Inductive reads_tail : string -> list Z -> Prop :=
| tail_groups s groups : reads_groups s groups -> reads_tail s groups
| tail_v4 a b c d : octet a -> octet b -> octet c -> octet d -> reads_tail (v4_text a b c d) [Z.of_nat (a * 256 + b); Z.of_nat (c * 256 + d)]
| tail_more s h rest groups : hextet s h -> reads_tail rest groups -> reads_tail (s +:+ ":" +:+ rest) (h :: groups).

(** The eight groups of an IPv6 address. *)
Inductive reads_v6 : string -> list Z -> Prop :=
| v6_whole s groups : reads_tail s groups -> length groups = 8%nat -> reads_v6 s groups
| v6_double head h tail t : (head = "" /\ h = [] \/ reads_groups head h) -> (tail = "" /\ t = [] \/ reads_tail tail t) -> (length h + length t <= 7)%nat ->
    reads_v6 (head +:+ "::" +:+ tail) (h ++ replicate (8 - length h - length t) 0 ++ t).

(** Who holds an address: an IPv4 address is one subscriber's, an IPv6 address is of the subscriber of its /64, and one that
    maps an IPv4 address is that address's. An IPv6 address may be bracketed and may name a zone. *)
Inductive Subscriber := OfV4 (a b c d : nat) | OfPrefix (prefix : list Z).

Definition mapped_v4 (groups : list Z) (a b c d : nat) : Prop :=
  octet a /\ octet b /\ octet c /\ octet d /\ groups = [0; 0; 0; 0; 0; 65535; Z.of_nat (a * 256 + b); Z.of_nat (c * 256 + d)].

Inductive zoned : string -> list Z -> Prop :=
| zoned_plain s groups : reads_v6 s groups -> zoned s groups
| zoned_named s zone groups : reads_v6 s groups -> zoned (s +:+ "%" +:+ zone) groups.

Inductive written : string -> list Z -> Prop :=
| written_bare s groups : zoned s groups -> written s groups
| written_brackets s groups : zoned s groups -> written ("[" +:+ s +:+ "]") groups.

Inductive held_by_subscriber : string -> Subscriber -> Prop :=
| held_v4 a b c d : octet a -> octet b -> octet c -> octet d -> held_by_subscriber (v4_text a b c d) (OfV4 a b c d)
| held_mapped s groups a b c d : written s groups -> mapped_v4 groups a b c d -> held_by_subscriber s (OfV4 a b c d)
| held_prefix s groups : written s groups -> (forall a b c d, ~ mapped_v4 groups a b c d) -> held_by_subscriber s (OfPrefix (take 4 groups)).

(** The address a header carries: the first of its list, without the white space around it and in lower case. *)
Definition names (header : option string) (text : string) : Prop :=
  exists first rest, header = Some (first +:+ rest) /\ Js.forall_units (fun c => negb (Ascii.eqb c ",")) first = true /\ (rest = "" \/ exists more, rest = String "," more) /\
    Js.toLowerCase (Js.trim first) = text /\ (String.length text <= 64)%nat.

(** *** The code reads them so *)

Definition without (sep : ascii) (s : string) : bool := Js.forall_units (fun c => negb (Ascii.eqb c sep)) s.

(** Every octet, checked one by one. *)
Lemma octet_reads n : octet n ->
  is_octet (dec n) = true /\ value_in 10 0 (dec n) = Z.of_nat n /\ octet_text (Z.of_nat n) = dec n /\ Js.forall_units Js.is_digit (dec n) = true.
Proof.
  intros Hn. assert (Hall : forallb (fun n => is_octet (dec n) && (value_in 10 0 (dec n) =? Z.of_nat n) && (octet_text (Z.of_nat n) =? dec n)%string && Js.forall_units Js.is_digit (dec n)) (seq 0 256) = true)
    by (by vm_compute).
  rewrite forallb_forall in Hall. specialize (Hall n ltac:(apply in_seq; unfold octet in Hn; lia)). to_prop. done.
Qed.

Lemma digits_without sep s : Js.is_digit sep = false -> Js.forall_units Js.is_digit s = true -> without sep s = true.
Proof. intros Hs. apply forall_units_impl. intros c Hc. destruct (Ascii.eqb_spec c sep) as [->|]; [congruence|done]. Qed.

Lemma v4_split a b c d : octet a -> octet b -> octet c -> octet d -> Js.split "." (v4_text a b c d) = [dec a; dec b; dec c; dec d].
Proof.
  intros Ha Hb Hc Hd. change (v4_text a b c d) with (Js.join "." [dec a; dec b; dec c; dec d]). apply (split_join "."); [done|].
  repeat constructor; apply digits_without; try done; by apply octet_reads.
Qed.

Lemma v4_is_ipv4 a b c d : octet a -> octet b -> octet c -> octet d -> is_ipv4 (v4_text a b c d) = true.
Proof. intros Ha Hb Hc Hd. unfold is_ipv4. rewrite v4_split by done. by rewrite (proj1 (octet_reads a Ha)), (proj1 (octet_reads b Hb)), (proj1 (octet_reads c Hc)), (proj1 (octet_reads d Hd)). Qed.

Lemma v4_values a b c d : octet a -> octet b -> octet c -> octet d -> map (value_in 10 0) (Js.split "." (v4_text a b c d)) = [Z.of_nat a; Z.of_nat b; Z.of_nat c; Z.of_nat d].
Proof. intros Ha Hb Hc Hd. rewrite v4_split by done. cbn [map].
  by rewrite (proj1 (proj2 (octet_reads a Ha))), (proj1 (proj2 (octet_reads b Hb))), (proj1 (proj2 (octet_reads c Hc))), (proj1 (proj2 (octet_reads d Hd))).
Qed.

Lemma v4_text_inj a b c d a' b' c' d' : octet a -> octet b -> octet c -> octet d -> octet a' -> octet b' -> octet c' -> octet d' ->
  v4_text a b c d = v4_text a' b' c' d' -> OfV4 a b c d = OfV4 a' b' c' d'.
Proof. intros ? ? ? ? ? ? ? ? E. apply (f_equal (fun s => map (value_in 10 0) (Js.split "." s))) in E. rewrite !v4_values in E by done. injection E as ? ? ? ?. f_equal; lia. Qed.

Lemma v4_without sep a b c d : Js.is_digit sep = false -> sep <> "."%char -> octet a -> octet b -> octet c -> octet d -> without sep (v4_text a b c d) = true.
Proof.
  intros Hs Hdot Ha Hb Hc Hd. unfold without, v4_text. rewrite !forall_units_app. cbn [Js.forall_units]. rewrite (proj2 (Ascii.eqb_neq "." sep)) by congruence.
  assert (Hw : forall n, octet n -> Js.forall_units (fun x => negb (Ascii.eqb x sep)) (dec n) = true) by (intros n Hn; apply digits_without; [done|by apply octet_reads]).
  by rewrite !Hw.
Qed.

Lemma hex_digit_reads d c : String.get d "0123456789abcdef" = Some c -> is_lower_hex c = true /\ digit_of c = Z.of_nat d.
Proof. do 16 (destruct d as [|d]; [by intros [= <-]|]). by destruct d. Qed.

Lemma hex_reads_value s v : hex_reads s v -> Js.forall_units is_lower_hex s = true /\ value_in 16 0 s = v.
Proof.
  induction 1 as [|s v d c _ [Hu Hv] Hd]; [done|]. apply hex_digit_reads in Hd as [Hc Hd]. rewrite forall_units_app, value_in_app, Hu, Hv. cbn. rewrite Hc, Hd. done.
Qed.

Lemma hextet_reads s h : hextet s h -> is_hextet s = true /\ value_in 16 0 s = h.
Proof.
  intros [[Hu Hv]%hex_reads_value [H1 H4]]. split; [|done]. unfold is_hextet. rewrite Hu. by rewrite (proj2 (Nat.leb_le _ _) H1), (proj2 (Nat.leb_le _ _) H4).
Qed.

Lemma hextet_without sep s h : is_lower_hex sep = false -> hextet s h -> without sep s = true.
Proof. intros Hs [[Hu _]%hex_reads_value _]. revert Hu. apply forall_units_impl. intros c Hc. destruct (Ascii.eqb_spec c sep) as [->|]; [congruence|done]. Qed.

Lemma hextet_not_ipv4 s h : hextet s h -> is_ipv4 s = false.
Proof. intros Hs. unfold is_ipv4. by rewrite (split_word "." s) by (by eapply (hextet_without "."), Hs). Qed.

(** The code's reading of the parts of a half. *)
Lemma tail_split_cons s h rest parts groups : hextet s h -> Js.split ":" rest = parts -> parts <> [] -> groups_of parts = Some groups ->
  groups_of (Js.split ":" (s +:+ ":" +:+ rest)) = Some (h :: groups).
Proof.
  intros Hs Hr Hp Hg. change (s +:+ ":" +:+ rest) with (s +:+ String ":" rest). rewrite split_prefix, Hr by (by eapply (hextet_without ":"), Hs).
  destruct parts as [|part parts]; [done|]. cbn [groups_of]. destruct (hextet_reads _ _ Hs) as [-> ->]. cbn [groups_of] in Hg. by rewrite Hg.
Qed.

Lemma reads_tail_groups s groups : reads_tail s groups -> groups_of (Js.split ":" s) = Some groups.
Proof.
  assert (Hplain : forall s groups, reads_groups s groups -> groups_of (Js.split ":" s) = Some groups).
  { induction 1 as [s0 h Hs|s0 h rest gs Hs Hr IH].
    - rewrite split_word by (by eapply (hextet_without ":"), Hs). cbn [groups_of]. rewrite (hextet_not_ipv4 _ _ Hs). by destruct (hextet_reads _ _ Hs) as [-> ->].
    - eapply tail_split_cons; [done|done|apply split_not_nil|done]. }
  induction 1 as [s0 gs Hg|a b c d Ha Hb Hc Hd|s0 h rest gs Hs Hr IH]; [by apply Hplain| |].
  - rewrite split_word by (by apply v4_without). cbn [groups_of]. rewrite v4_is_ipv4, v4_values by done. f_equal. f_equal; [lia|]. f_equal. lia.
  - eapply tail_split_cons; [done|done|apply split_not_nil|done].
Qed.

(** The texts of groups hold nothing but colons between their parts. *)
Definition starts_colon (s : string) : bool := match s with String c _ => Ascii.eqb c ":" | EmptyString => false end.

Fixpoint no_double (s : string) : bool :=
  match s with
  | String c s => negb (Ascii.eqb c ":" && starts_colon s) && no_double s
  | EmptyString => true
  end.

Definition plain_start (s : string) : Prop := exists c s', s = String c s' /\ c <> ":"%char /\ c <> "["%char.

Lemma no_double_word s rest : without ":" s = true -> no_double rest = true -> no_double (s +:+ rest) = true.
Proof.
  intros Hs Hd. induction s as [|c s IH]; [done|]. unfold without in *. cbn [Js.forall_units] in Hs. apply andb_prop in Hs as [Hc Hs].
  cbn [String.app no_double]. apply negb_true_iff in Hc. by rewrite Hc, (IH Hs).
Qed.

Lemma no_double_colon r : plain_start r -> no_double r = true -> no_double (String ":" r) = true.
Proof.
  intros (c & s & -> & Hc & _) Hd. change (negb (starts_colon (String c s)) && no_double (String c s) = true). rewrite Hd. cbn. by rewrite (proj2 (Ascii.eqb_neq c ":") Hc).
Qed.

Lemma nonempty_plain s : (1 <= String.length s)%nat -> without ":" s = true -> without "[" s = true -> forall rest, plain_start (s +:+ rest).
Proof.
  intros Hl Hc Hb rest. destruct s as [|c s]; [cbn in Hl; lia|]. exists c, (s +:+ rest). unfold without in *. cbn [Js.forall_units] in Hc, Hb. split; [done|].
  destruct (Ascii.eqb_spec c ":"), (Ascii.eqb_spec c "["); done.
Qed.

(** What every text of groups is. *)
Definition calm (s : string) : Prop :=
  plain_start s /\ no_double s = true /\ (forall r, plain_start r -> no_double r = true -> no_double (s +:+ String ":" r) = true) /\ no_double (s +:+ ":") = true /\ without "%" s = true.

Lemma calm_word s : (1 <= String.length s)%nat -> without ":" s = true -> without "[" s = true -> without "%" s = true -> calm s.
Proof.
  intros Hl Hc Hb Hp. split_and!; [| | | |done].
  - rewrite <-(str_app_nil_r s). by apply nonempty_plain.
  - rewrite <-(str_app_nil_r s). by apply no_double_word.
  - intros r Hr Hd. apply no_double_word; [done|by apply no_double_colon].
  - by apply no_double_word.
Qed.

Lemma calm_hextet s h : hextet s h -> calm s.
Proof. intros Hs. apply calm_word; [by destruct Hs as [_ [? _]]|by eapply (hextet_without ":"), Hs|by eapply (hextet_without "["), Hs|by eapply (hextet_without "%"), Hs]. Qed.

Lemma calm_more s h rest : hextet s h -> calm rest -> calm (s +:+ ":" +:+ rest).
Proof.
  intros Hs (Hp & Hd & Hm & Hc & Hz). destruct (calm_hextet _ _ Hs) as (Hps & Hds & Hms & Hcs & Hzs). change (s +:+ ":" +:+ rest) with (s +:+ String ":" rest). split_and!.
  - destruct Hps as (c & s' & -> & ?). by exists c, (s' +:+ String ":" rest).
  - by apply Hms.
  - intros r Hr Hdr. rewrite <-str_app_assoc. change (String ":" rest +:+ String ":" r) with (String ":" (rest +:+ String ":" r)). apply Hms; [|by apply Hm].
    destruct Hp as (c & s' & -> & ?). by exists c, (s' +:+ String ":" r).
  - rewrite <-str_app_assoc. change (String ":" rest +:+ ":") with (String ":" (rest +:+ ":")). apply Hms; [|done]. destruct Hp as (c & s' & -> & ?). by exists c, (s' +:+ ":").
  - unfold without in *. rewrite forall_units_app, Hzs. exact Hz.
Qed.

Lemma reads_groups_calm s groups : reads_groups s groups -> calm s.
Proof. induction 1; [by eapply calm_hextet|by eapply calm_more]. Qed.

Lemma reads_tail_calm s groups : reads_tail s groups -> calm s.
Proof.
  induction 1 as [s0 gs Hg|a b c d Ha Hb Hc Hd|s0 h rest gs Hs Hr IH]; [by eapply reads_groups_calm| |by eapply calm_more].
  apply calm_word; [|by apply v4_without..]. unfold v4_text. rewrite !str_length_app. cbn [String.length]. lia.
Qed.

Lemma split_double_step c s : split_double (String c s) =
  if Ascii.eqb c ":" && starts_colon s then "" :: split_double (Js.drop 1 s) else match split_double s with [] => [String c ""] | w :: ws => String c w :: ws end.
Proof.
  destruct (Ascii.eqb_spec c ":") as [->|Hc]; cbn [andb].
  - destruct s as [|c' s]; [done|]. cbn [starts_colon]. destruct (Ascii.eqb_spec c' ":") as [->|Hc']; [by destruct s|].
    destruct c' as [[] [] [] [] [] [] [] []]; first [reflexivity|by destruct Hc'].
  - destruct c as [[] [] [] [] [] [] [] []]; first [reflexivity|by destruct Hc].
Qed.

Lemma split_double_word s : no_double s = true -> split_double s = [s].
Proof.
  induction s as [|c s IH]; [done|]. cbn [no_double]. intros [Hc Hs]%andb_prop. apply negb_true_iff in Hc. rewrite split_double_step, Hc, (IH Hs). done.
Qed.

Lemma split_double_cut h t : no_double (h +:+ ":") = true -> split_double (h +:+ "::" +:+ t) = h :: split_double t.
Proof.
  induction h as [|c h IH]; intros Hd.
  - change ("" +:+ "::" +:+ t) with (String ":" (String ":" t)). rewrite split_double_step. cbn. by destruct t.
  - cbn [String.app no_double] in Hd. apply andb_prop in Hd as [Hc Hs]. apply negb_true_iff in Hc. change (String c h +:+ "::" +:+ t) with (String c (h +:+ "::" +:+ t)).
    rewrite split_double_step. replace (starts_colon (h +:+ "::" +:+ t)) with (starts_colon (h +:+ ":")) by (by destruct h). by rewrite Hc, (IH Hs).
Qed.

Lemma groupsOf_tail s groups : reads_tail s groups -> groupsOf s = Some groups.
Proof.
  intros Hs. unfold groupsOf. destruct (reads_tail_calm _ _ Hs) as [(c & s' & -> & _) _]. cbn [String.eqb]. by apply reads_tail_groups.
Qed.

Lemma reads_v6_without s groups : reads_v6 s groups -> without "%" s = true.
Proof.
  destruct 1 as [s groups Hs _|head h tail t Hh Ht _]; [by apply reads_tail_calm in Hs as (_ & _ & _ & _ & ?)|].
  unfold without. rewrite !forall_units_app. apply andb_true_intro. split; [|apply andb_true_intro; split; [done|]].
  - destruct Hh as [[-> _]|Hh]; [done|]. by apply reads_groups_calm in Hh as (_ & _ & _ & _ & ?).
  - destruct Ht as [[-> _]|Ht]; [done|]. by apply reads_tail_calm in Ht as (_ & _ & _ & _ & ?).
Qed.

(** The code reads the groups of every spelling. *)
Lemma zoned_groups s groups : zoned s groups -> ipv6Groups s = Some groups.
Proof.
  intros Hz. assert (Hs : exists address, nth 0 (Js.split "%" s) "" = address /\ reads_v6 address groups).
  { destruct Hz as [s groups Hs|s zone groups Hs]; exists s; (split; [|done]); pose proof (reads_v6_without _ _ Hs) as Hw; [by rewrite (split_word "%" s)|].
    change (s +:+ "%" +:+ zone) with (s +:+ String "%" zone). by rewrite split_prefix. }
  unfold ipv6Groups. destruct Hs as (address & -> & Hs). cbv zeta. destruct Hs as [address groups Hs Hl|head h tail t Hh Ht Hl].
  - destruct (reads_tail_calm _ _ Hs) as (_ & Hd & _). rewrite split_double_word by done. rewrite (groupsOf_tail _ _ Hs). cbn. by rewrite Hl.
  - assert (Eh : no_double (head +:+ ":") = true /\ groupsOf head = Some h).
    { destruct Hh as [[-> ->]|Hh]; [done|]. split; [by apply reads_groups_calm in Hh as (_ & _ & _ & ? & _)|by apply groupsOf_tail, tail_groups]. }
    assert (Et : split_double tail = [tail] /\ groupsOf tail = Some t).
    { destruct Ht as [[-> ->]|Ht]; [done|]. split; [apply split_double_word; by apply reads_tail_calm in Ht as (_ & ? & _)|by apply groupsOf_tail]. }
    destruct Eh as [Eh Eh'], Et as [Et Et']. rewrite split_double_cut, Et by done. cbn. rewrite Eh', Et'. cbn. destruct (Z.ltb_spec (8 - Z.of_nat (length h) - Z.of_nat (length t)) 1); [lia|].
    by replace (Z.to_nat (8 - Z.of_nat (length h) - Z.of_nat (length t))) with (8 - length h - length t)%nat by lia.
Qed.

Lemma without_app sep s t : without sep (s +:+ t) = without sep s && without sep t.
Proof. apply forall_units_app. Qed.

Lemma zoned_shape s groups : zoned s groups -> (exists c s', s = String c s' /\ c <> "["%char) /\ without ":" s = false.
Proof.
  assert (Hcolon : forall s gs, reads_tail s gs -> (2 < length gs)%nat -> without ":" s = false).
  { destruct 1 as [s0 gs [s1 h Hs|s1 h rest gs0 Hs Hr]| |s1 h rest gs Hs Hr]; cbn [length]; try lia; intros _; rewrite !without_app; cbn; apply andb_false_r. }
  assert (Hv6 : forall s gs, reads_v6 s gs -> (exists c s', s = String c s' /\ c <> "["%char) /\ without ":" s = false).
  { destruct 1 as [s0 gs Hs Hl|head h tail t Hh _ _].
    - split; [|by apply (Hcolon _ gs); [|lia]]. apply reads_tail_calm in Hs as [(c & s' & -> & _ & ?) _]. by exists c, s'.
    - rewrite !without_app. cbn. split; [|by rewrite andb_false_r]. destruct Hh as [[-> _]|Hh]; [by exists ":"%char, (String ":" tail)|].
      apply reads_groups_calm in Hh as [(c & s' & -> & _ & ?) _]. by exists c, (s' +:+ "::" +:+ tail). }
  destruct 1 as [s gs Hs|s zone gs Hs]; [by eapply Hv6|]. destruct (Hv6 _ _ Hs) as [(c & s' & -> & ?) Hc]. split; [by exists c, (s' +:+ "%" +:+ zone)|]. by rewrite without_app, Hc.
Qed.

Lemma ipv4_without s : is_ipv4 s = true -> without ":" s = true.
Proof.
  unfold is_ipv4. destruct (Js.split "." s) as [|a [|b [|c [|d []]]]] eqn:E; try done. intros Ho. to_prop.
  assert (Hw : forall w, is_octet w = true -> without ":" w = true) by (intros w Hw; unfold is_octet in Hw; to_prop; by apply digits_without).
  assert (Es : s = a +:+ "." +:+ b +:+ "." +:+ c +:+ "." +:+ d) by (rewrite <-(join_split "." s), E; done).
  rewrite Es, !without_app, (Hw a), (Hw b), (Hw c), (Hw d) by done. reflexivity.
Qed.

Lemma written_read s groups : written s groups -> is_ipv4 s = false /\ s <> "" /\ ipv6Groups (unbracketed s) = Some groups /\ length groups = 8%nat /\ Forall is_group groups.
Proof.
  assert (H4 : forall s, without ":" s = false -> is_ipv4 s = false) by (intros s0 Hs; destruct (is_ipv4 s0) eqn:E; [apply ipv4_without in E; congruence|done]).
  destruct 1 as [s groups Hs|s groups Hs]; destruct (zoned_shape _ _ Hs) as [(c & s' & -> & Hc) Hcolon]; pose proof (zoned_groups _ _ Hs) as Hg; destruct (ipv6Groups_range _ _ Hg) as [Hl Hr].
  - split_and!; [by apply H4|done| |done|done]. unfold unbracketed. destruct (Js.startsWith (String c s') "[") eqn:E; [|done].
    apply startsWith_spec in E as [t Et]. by injection Et as -> _.
  - split_and!; [|done| |done|done]; [apply H4; rewrite !without_app, Hcolon; done|]. unfold unbracketed.
    replace (Js.startsWith ("[" +:+ String c s' +:+ "]") "[") with true by (symmetry; apply startsWith_spec; by eexists).
    replace (Js.endsWith ("[" +:+ String c s' +:+ "]") "]") with true by (symmetry; apply endsWith_spec; exists ("[" +:+ String c s'); by rewrite str_app_assoc). cbn [andb].
    change (Js.drop 1 ("[" +:+ String c s' +:+ "]")) with (String c s' +:+ String "]" ""). by rewrite dropLast_snoc.
Qed.

(** The code's test for a mapped address. *)
Lemma mapped_spec groups : length groups = 8%nat -> Forall is_group groups -> is_mapped groups = true <-> exists a b c d, mapped_v4 groups a b c d.
Proof.
  intros Hl Hr. unfold is_mapped, mapped_v4. split.
  - do 8 (destruct groups as [|? groups]; [done|]). destruct groups; [|done]. cbn [take forallb nth]. intros Hm. to_prop. subst.
    rewrite !Forall_cons in Hr. destruct Hr as (_ & _ & _ & _ & _ & _ & Hh & Hlo & _). unfold is_group in *.
    exists (Z.to_nat (z5 / 256)), (Z.to_nat (z5 mod 256)), (Z.to_nat (z6 / 256)), (Z.to_nat (z6 mod 256)).
    assert (Hq : forall z, 0 <= z < 65536 -> 0 <= z / 256 < 256 /\ 0 <= z mod 256 < 256 /\ z = z / 256 * 256 + z mod 256).
    { intros z Hz. pose proof (Z.mod_pos_bound z 256 ltac:(lia)). pose proof (Z.div_mod z 256 ltac:(lia)). split; [split; [apply Z.div_pos; lia|apply Z.div_lt_upper_bound; lia]|lia]. }
    destruct (Hq z5 Hh) as (? & ? & E5), (Hq z6 Hlo) as (? & ? & E6). unfold octet. split_and!; try lia. repeat f_equal; lia.
  - by intros (a & b & c & d & _ & _ & _ & _ & ->).
Qed.

Lemma names_address header text : names header text -> address_of header = text /\ (String.length text <= MAX_ADDRESS_LENGTH)%nat.
Proof.
  intros (first & rest & -> & Hf & Hr & <- & Hl). split; [|done]. unfold address_of. cbn [default from_option id]. f_equal. f_equal.
  destruct Hr as [->|(more & ->)]; [by rewrite str_app_nil_r, (split_word "," first)|by rewrite split_prefix].
Qed.

(** The key, by the text a header carries. *)
Lemma key_of_text header text : names header text -> text <> "" ->
  clientKey header = if is_ipv4 text then text else match ipv6Groups (unbracketed text) with
    | None => "unknown"
    | Some groups =>
        if is_mapped groups then Js.join "." (map octet_text [Z.shiftr (nth 6 groups 0) 8; Z.land (nth 6 groups 0) 255; Z.shiftr (nth 7 groups 0) 8; Z.land (nth 7 groups 0) 255])
        else prefix_text groups
    end.
Proof.
  intros [Ha Hl]%names_address Hne. unfold clientKey. rewrite Ha. apply Nat.ltb_ge in Hl. by rewrite (proj2 (String.eqb_neq _ _) Hne), Hl.
Qed.

Lemma v4_text_nonempty a b c d : v4_text a b c d <> "".
Proof. intros E. apply (f_equal String.length) in E. unfold v4_text in E. rewrite !str_length_app in E. cbn [String.length] in E. lia. Qed.

Lemma octets_of_group x y : octet x -> octet y ->
  octet_text (Z.shiftr (Z.of_nat (x * 256 + y)) 8) = dec x /\ octet_text (Z.land (Z.of_nat (x * 256 + y)) 255) = dec y.
Proof.
  intros Hx Hy. pose proof (octet_reads x Hx) as (_ & _ & Ex & _). pose proof (octet_reads y Hy) as (_ & _ & Ey & _). unfold octet in *.
  rewrite Z.shiftr_div_pow2, (Z.land_ones _ 8) by lia. change (2 ^ 8) with 256.
  replace (Z.of_nat (x * 256 + y)) with (Z.of_nat y + Z.of_nat x * 256) by lia. by rewrite Z.div_add, Z.mod_add, Z.div_small, Z.mod_small, Z.add_0_l by lia.
Qed.

Lemma v4_key header text a b c d : names header text -> held_by_subscriber text (OfV4 a b c d) -> clientKey header = v4_text a b c d /\ octet a /\ octet b /\ octet c /\ octet d.
Proof.
  intros Hn Hs. inversion Hs as [? ? ? ? Oa Ob Oc Od|? groups ? ? ? ? Hw Hm|]; subst.
  - rewrite (key_of_text _ _ Hn) by apply v4_text_nonempty. by rewrite v4_is_ipv4.
  - destruct (written_read _ _ Hw) as (H4 & Hne & Hg & Hlen & Hr). pose proof Hm as (Oa & Ob & Oc & Od & Eg). split; [|done].
    rewrite (key_of_text _ _ Hn), H4, Hg, (proj2 (mapped_spec groups Hlen Hr)) by (done || by exists a, b, c, d). rewrite Eg. cbn [nth].
    destruct (octets_of_group a b Oa Ob) as [E1 E2], (octets_of_group c d Oc Od) as [E3 E4]. cbn [map]. by rewrite E1, E2, E3, E4.
Qed.

Lemma prefix_key header text prefix : names header text -> held_by_subscriber text (OfPrefix prefix) ->
  exists groups, prefix = take 4 groups /\ clientKey header = prefix_text groups /\ length groups = 8%nat /\ Forall is_group groups.
Proof.
  intros Hn Hs. inversion Hs as [|  |? groups Hw Hm]; subst. destruct (written_read _ _ Hw) as (H4 & Hne & Hg & Hlen & Hr). exists groups. split_and!; [done| |done|done].
  rewrite (key_of_text _ _ Hn), H4, Hg by done. destruct (is_mapped groups) eqn:E; [|done]. apply mapped_spec in E as (a & b & c & d & Hmap); [|done|done]. by destruct (Hm a b c d).
Qed.

Lemma prefix_text_colon groups : without ":" (prefix_text groups) = false.
Proof. unfold prefix_text. rewrite without_app. apply andb_false_r. Qed.

(** C34. The key a per-client limit counts is one for each subscriber: a header that carries an address, in any spelling and
    letter case, bracketed or not, with a zone or without, has the key of the subscriber who holds it, and two headers have the
    same key exactly when their subscribers are the same: an IPv4 address, by itself or mapped into IPv6, is a subscriber of
    its own, counted by its dotted decimals, and every other IPv6 address is of the subscriber of its /64. None of them is
    counted as [unknown]. *)
Theorem clientKey_subscriber a b ta tb sa sb :
  names a ta -> names b tb -> held_by_subscriber ta sa -> held_by_subscriber tb sb ->
  (clientKey a = clientKey b <-> sa = sb) /\ clientKey a <> "unknown" /\ (forall w x y z, sa = OfV4 w x y z -> clientKey a = v4_text w x y z).
Proof.
  intros Na Nb Ha Hb. destruct sa as [a1 a2 a3 a4|pa].
  - destruct (v4_key _ _ _ _ _ _ Na Ha) as (-> & ? & ? & ? & ?). split; [|split; [|by intros ? ? ? ? [= -> -> -> ->]]].
    + destruct sb as [b1 b2 b3 b4|pb]; [destruct (v4_key _ _ _ _ _ _ Nb Hb) as (-> & ? & ? & ? & ?)|destruct (prefix_key _ _ _ Nb Hb) as (gb & -> & -> & _)].
      * split; [by apply v4_text_inj|by intros [= -> -> -> ->]].
      * split; [|done]. intros E. apply (f_equal (without ":")) in E. by rewrite prefix_text_colon, v4_without in E.
    + intros E. apply (f_equal (without "u")) in E. by rewrite v4_without in E.
  - destruct (prefix_key _ _ _ Na Ha) as (ga & -> & -> & La & Ra). split; [|split; [|done]].
    + destruct sb as [b1 b2 b3 b4|pb]; [destruct (v4_key _ _ _ _ _ _ Nb Hb) as (-> & ? & ? & ? & ?)|destruct (prefix_key _ _ _ Nb Hb) as (gb & -> & -> & Lb & Rb)].
      * split; [|done]. intros E. apply (f_equal (without ":")) in E. by rewrite prefix_text_colon, v4_without in E.
      * split; [intros E; f_equal; by apply prefix_text_inj|]. intros [= E]. unfold prefix_text. by rewrite E.
    + intros E. apply (f_equal (without ":")) in E. by rewrite prefix_text_colon in E.
Qed.

(** Two spellings of addresses of one /64. *)
Lemma clientKey_subscriber_witness :
  clientKey (Some "2001:DB8::1, 10.0.0.1") = clientKey (Some "[2001:db8:0:0:ff::%eth0]") /\ clientKey (Some "::FFFF:192.0.2.1") = clientKey (Some "192.0.2.1").
Proof.
  assert (Hone : forall d c, String.get d "0123456789abcdef" = Some c -> hextet (String c "") (Z.of_nat d)).
  { intros d c Hd. split; [|cbn; lia]. exact (hex_digits "" 0 d c hex_nothing Hd). }
  assert (H0 : hextet "0" 0) by (by apply (Hone 0%nat)). assert (H1 : hextet "1" 1) by (by apply (Hone 1%nat)).
  assert (H2001 : hextet "2001" 8193).
  { split; [|cbn; lia]. apply (hex_digits "200" 512 1); [|done]. apply (hex_digits "20" 32 0); [|done]. apply (hex_digits "2" 2 0); [|done]. by apply (hex_digits "" 0 2 _ hex_nothing). }
  assert (Hdb8 : hextet "db8" 3512).
  { split; [|cbn; lia]. apply (hex_digits "db" 219 8); [|done]. apply (hex_digits "d" 13 11); [|done]. by apply (hex_digits "" 0 13 _ hex_nothing). }
  assert (Hff : hextet "ff" 255) by (split; [|cbn; lia]; apply (hex_digits "f" 15 15); [|done]; by apply (hex_digits "" 0 15 _ hex_nothing)).
  assert (Hffff : hextet "ffff" 65535).
  { split; [|cbn; lia]. apply (hex_digits "fff" 4095 15); [|done]. apply (hex_digits "ff" 255 15); [|done]. by destruct Hff. }
  assert (Hpair : reads_groups "2001:db8" [8193; 3512]) by (apply (groups_more "2001" 8193 "db8"); [done|by apply groups_one]).
  assert (Ha : held_by_subscriber "2001:db8::1" (OfPrefix [8193; 3512; 0; 0])).
  { refine (held_prefix _ [8193; 3512; 0; 0; 0; 0; 0; 1] _ _); [|by intros ? ? ? ? (_ & _ & _ & _ & [=])]. apply written_bare, zoned_plain.
    apply (v6_double "2001:db8" [8193; 3512] "1" [1]); [by right|right; by apply tail_groups, groups_one|cbn; lia]. }
  assert (Hb : held_by_subscriber "[2001:db8:0:0:ff::%eth0]" (OfPrefix [8193; 3512; 0; 0])).
  { refine (held_prefix _ [8193; 3512; 0; 0; 255; 0; 0; 0] _ _); [|by intros ? ? ? ? (_ & _ & _ & _ & [=])]. apply (written_brackets "2001:db8:0:0:ff::%eth0").
    apply (zoned_named "2001:db8:0:0:ff::" "eth0"). apply (v6_double "2001:db8:0:0:ff" [8193; 3512; 0; 0; 255] "" []); [right|by left|cbn; lia].
    apply (groups_more "2001" 8193 "db8:0:0:ff"); [done|]. apply (groups_more "db8" 3512 "0:0:ff"); [done|]. apply (groups_more "0" 0 "0:ff"); [done|].
    apply (groups_more "0" 0 "ff"); [done|]. by apply groups_one. }
  assert (Hm : held_by_subscriber "::ffff:192.0.2.1" (OfV4 192 0 2 1)).
  { refine (held_mapped _ [0; 0; 0; 0; 0; 65535; 49152; 513] _ _ _ _ _ _); [|by unfold mapped_v4, octet; repeat split; lia]. apply written_bare, zoned_plain.
    apply (v6_double "" [] "ffff:192.0.2.1" [65535; 49152; 513]); [by left|right|cbn; lia]. apply (tail_more "ffff" 65535 "192.0.2.1"); [done|].
    apply (tail_v4 192 0 2 1); unfold octet; lia. }
  assert (Hv : held_by_subscriber "192.0.2.1" (OfV4 192 0 2 1)) by (apply (held_v4 192 0 2 1); unfold octet; lia).
  split.
  - apply (clientKey_subscriber _ _ "2001:db8::1" "[2001:db8:0:0:ff::%eth0]" (OfPrefix [8193; 3512; 0; 0]) (OfPrefix [8193; 3512; 0; 0])); [| |done|done|done].
    + exists "2001:DB8::1", ", 10.0.0.1". split_and!; try done; [right; by eexists|cbn; lia].
    + exists "[2001:db8:0:0:ff::%eth0]", "". split_and!; try done; [by left|cbn; lia].
  - apply (clientKey_subscriber _ _ "::ffff:192.0.2.1" "192.0.2.1" (OfV4 192 0 2 1) (OfV4 192 0 2 1)); [| |done|done|done].
    + exists "::FFFF:192.0.2.1", "". split_and!; try done; [by left|cbn; lia].
    + exists "192.0.2.1", "". split_and!; try done; [by left|cbn; lia].
Defined.

(** A mapped spelling counts as the IPv4 address. *)
Example clientKey_mapped : clientKey (Some "::ffff:192.0.2.1") = "192.0.2.1" /\ clientKey (Some "2001:db8:1:2:3::") = "2001:db8:1:2::/64".
Proof. by split; vm_compute. Qed.

(** ** What a page's caller may do *)

Lemma elem_of_set_add x y set : y ∈ set_add x set <-> y = x \/ y ∈ set.
Proof.
  unfold set_add. destruct (Js.elem x set) eqn:E.
  - apply elem_spec in E. naive_solver.
  - rewrite elem_of_app, list_elem_of_singleton. naive_solver.
Qed.

Lemma set_adds_elem y held set : y ∈ foldl (fun set a => set_add a set) set held <-> y ∈ held \/ y ∈ set.
Proof.
  revert set. induction held as [|a held IH]; intros set; cbn; [rewrite elem_of_nil; naive_solver|]. rewrite IH, elem_of_set_add, elem_of_cons. naive_solver.
Qed.

Lemma set_adds_nodup held set : NoDup set -> NoDup (foldl (fun set a => set_add a set) set held).
Proof.
  revert set. induction held as [|a held IH]; intros set Hs; cbn; [done|]. apply IH. unfold set_add. destruct (Js.elem a set) eqn:E; [done|].
  apply NoDup_app. split_and!; [done| |apply NoDup_singleton]. intros y Hy Heq. apply list_elem_of_singleton in Heq as ->. by apply elem_spec in Hy; rewrite Hy in E.
Qed.

Lemma covered_elem actions pattern a : a ∈ covered actions pattern <-> a ∈ actions /\ matchAction pattern a = true.
Proof. unfold covered. rewrite !list_elem_of_In, filter_In. done. Qed.

Lemma scope_key_inj s s' : scope_key s = scope_key s' -> s = s'.
Proof.
  intros He. assert (H1 : jsonString (scope_type s) +:+ ("," +:+ (jsonString (scope_value s) +:+ "]")) = jsonString (scope_type s') +:+ ("," +:+ (jsonString (scope_value s') +:+ "]"))).
  { apply (f_equal (Js.drop 1)) in He. rewrite !str_app_assoc. rewrite <- (str_app_assoc _ ","), <- (str_app_assoc (jsonString (scope_type s')) ","). exact He. }
  apply jsonString_inj in H1 as [Ht H1]. apply (f_equal (Js.drop 1)) in H1. apply (jsonString_inj _ _ "]" "]") in H1 as [Hv _].
  destruct s, s'; cbn in *; by subst.
Qed.

#[local] Arguments scope_key : simpl never.

(** The actions recorded for a scope. *)
Definition scoped_has (scoped : list (string * ScopedActions)) (s : Scope) (a : string) : Prop :=
  exists value, (scope_key s, value) ∈ scoped /\ sa_type value = scope_type s /\ sa_value value = scope_value s /\ a ∈ sa_actions value.

(** Every key is its scope's, each once. *)
Definition scoped_ok (scoped : list (string * ScopedActions)) : Prop :=
  NoDup scoped.*1 /\ Forall (fun entry => entry.1 = scope_key (mkScope (sa_type entry.2) (sa_value entry.2))) scoped.

Lemma add_scoped_keys s held scoped key : key ∈ (add_scoped s held scoped).*1 <-> key = scope_key s \/ key ∈ scoped.*1.
Proof.
  induction scoped as [|[k v] scoped IH]; cbn; [rewrite list_elem_of_singleton, elem_of_nil; tauto|].
  destruct (String.eqb_spec k (scope_key s)) as [->|]; cbn; rewrite !elem_of_cons; [tauto|]. rewrite IH. tauto.
Qed.

Lemma add_scoped_ok s held scoped : scoped_ok scoped -> scoped_ok (add_scoped s held scoped).
Proof.
  unfold scoped_ok. induction scoped as [|[k v] scoped IH]; intros [Hd Hk]; cbn [add_scoped].
  - split; [by apply NoDup_singleton|]. constructor; [by destruct s|done].
  - inversion Hd as [|? ? Hn Hd']; inversion Hk as [|? ? Hkey Hk']; subst. destruct (String.eqb_spec k (scope_key s)) as [->|Hne]; [split; [done|by constructor]|].
    destruct (IH (conj Hd' Hk')) as [? ?]. split; [|by constructor]. cbn. constructor; [|done]. rewrite add_scoped_keys. by intros [?|?].
Qed.

Lemma add_scoped_has s held scoped s' a : scoped_ok scoped ->
  scoped_has (add_scoped s held scoped) s' a <-> (s' = s /\ a ∈ held) \/ scoped_has scoped s' a.
Proof.
  unfold scoped_has, scoped_ok.
  induction scoped as [|[k v] scoped IH]; intros [Hd Hk]; cbn [add_scoped].
  - split.
    + intros (value & Hin & Ht & Hv & Ha). apply list_elem_of_singleton in Hin. apply pair_equal_spec in Hin as [Hkey ->]. cbn in *. left. apply scope_key_inj in Hkey as ->. split; [done|].
      apply set_adds_elem in Ha as [?|Ha]; [done|]. by apply elem_of_nil in Ha.
    + intros [[-> Ha]|(value & Hin & _)]; [|by apply elem_of_nil in Hin]. eexists. split; [by left|]. cbn. split_and!; [done|done|]. apply set_adds_elem. by left.
  - inversion Hd as [|? ? Hn Hd']; inversion Hk as [|? ? Hkey Hk']; subst. cbn in *. destruct (String.eqb_spec k (scope_key s)) as [->|Hne].
    + apply scope_key_inj in Hkey. destruct s as [t w]. injection Hkey as -> ->. setoid_rewrite elem_of_cons. split.
      * intros (value & [Heq|Hin] & Ht & Hv & Ha).
        -- apply pair_equal_spec in Heq as [Hs ->]. apply scope_key_inj in Hs as ->. cbn in *. apply set_adds_elem in Ha as [?|?]; [by left|]. right. exists v. split_and!; [by left|done..].
        -- right. exists value. split_and!; [by right|done..].
      * intros [[-> Ha]|(value & [Heq|Hin] & Ht & Hv & Ha)].
        -- eexists. split; [by left|]. cbn. split_and!; [done|done|]. apply set_adds_elem. by left.
        -- apply pair_equal_spec in Heq as [Hs ->]. apply scope_key_inj in Hs as ->. eexists. split; [by left|]. cbn. split_and!; [done|done|]. apply set_adds_elem. by right.
        -- exists value. split_and!; [by right|done..].
    + setoid_rewrite elem_of_cons. specialize (IH (conj Hd' Hk')). split.
      * intros (value & [Heq|Hin] & Hrest); [right; exists value; split; [by left|done]|]. destruct (proj1 IH) as [?|(value' & ? & ?)]; [by exists value|by left|].
        right. exists value'. split; [by right|done].
      * intros [?|(value & [Heq|Hin] & Hrest)].
        -- destruct (proj2 IH) as (value & ? & ?); [by left|]. exists value. split; [by right|done].
        -- exists value. split; [by left|done].
        -- destruct (proj2 IH) as (value' & ? & ?); [right; by exists value|]. exists value'. split; [by right|done].
Qed.

Lemma page_loop_spec actions perms app scoped app' scoped' : scoped_ok scoped -> page_loop actions perms app scoped = (app', scoped') ->
  scoped_ok scoped' /\
  (forall a, a ∈ app' <-> a ∈ app \/ (a ∈ actions /\ exists e, e ∈ perms /\ scope e = None /\ matchAction (action e) a = true)) /\
  (forall s a, scoped_has scoped' s a <-> scoped_has scoped s a \/ (a ∈ actions /\ exists e, e ∈ perms /\ scope e = Some s /\ matchAction (action e) a = true)).
Proof.
  revert app scoped. induction perms as [|e perms IH]; intros app scoped Hok; cbn [page_loop].
  - intros [= <- <-]. split_and!; [done|intros a|intros s a]; split; try naive_solver; intros [?|(_ & e & He & _)]; try done; by apply elem_of_nil in He.
  - pose proof (covered_elem actions (action e)) as Hc. destruct (covered actions (action e)) as [|h held] eqn:Eh.
    + intros Hl. destruct (IH _ _ Hok Hl) as (? & Ha & Hs). split_and!; [done|intros a; rewrite Ha|intros s a; rewrite Hs].
      all: split; [intros [?|(? & e' & ? & ?)]; [by left|right; split; [done|]; exists e'; split; [by right|done]]|].
      all: intros [?|(Hin & e' & [->|?]%elem_of_cons & Hsc & Hm)]; [by left| |right; split; [done|]; by exists e'].
      all: exfalso; eapply not_elem_of_nil; by apply Hc.
    + destruct (scope e) as [s0|] eqn:Es.
      * intros Hl. destruct (IH _ _ (add_scoped_ok s0 (h :: held) scoped Hok) Hl) as (? & Ha & Hs). split_and!; [done|intros a; rewrite Ha|intros s a; rewrite Hs, add_scoped_has by done].
        -- split; [intros [?|(? & e' & ? & ?)]; [by left|right; split; [done|]; exists e'; split; [by right|done]]|].
           intros [?|(Hin & e' & [->|?]%elem_of_cons & Hsc & Hm)]; [by left|congruence|right; split; [done|]; by exists e'].
        -- rewrite Hc. split.
           ++ intros [[[-> [Hin Hm]]|?]|(Hin & e' & ? & ?)]; [right; split; [done|]; exists e; split; [by left|done]|by left|]. right. split; [done|]. exists e'. split; [by right|done].
           ++ intros [?|(Hin & e' & [->|?]%elem_of_cons & Hsc & Hm)]; [left; by right| |right; split; [done|]; by exists e'].
              left; left. split; [congruence|done].
      * intros Hl. destruct (IH _ _ Hok Hl) as (? & Ha & Hs). split_and!; [done|intros a; rewrite Ha, set_adds_elem, Hc|intros s a; rewrite Hs].
        -- split.
           ++ intros [[[Hin Hm]|?]|(Hin & e' & ? & ?)]; [right; split; [done|]; exists e; split; [by left|done]|by left|]. right. split; [done|]. exists e'. split; [by right|done].
           ++ intros [?|(Hin & e' & [->|?]%elem_of_cons & Hsc & Hm)]; [left; by right|left; by left|right; split; [done|]; by exists e'].
        -- split; [intros [?|(? & e' & ? & ?)]; [by left|right; split; [done|]; exists e'; split; [by right|done]]|].
           intros [?|(Hin & e' & [->|?]%elem_of_cons & Hsc & Hm)]; [by left|congruence|right; split; [done|]; by exists e'].
Qed.

Lemma sorted_elem {A} (le : A -> A -> bool) l x : x ∈ sort_by le l <-> x ∈ l.
Proof. by rewrite (sort_by_Permutation le l). Qed.

Definition listed (page : PageCaller) (s : Scope) (a : string) : Prop :=
  exists sa, sa ∈ pc_scopes page /\ sa_type sa = scope_type s /\ sa_value sa = scope_value s /\ a ∈ sa_actions sa.

Lemma listed_spec label email scoped app s a : scoped_ok scoped ->
  listed (mkPageCaller label email app (map (fun entry => mkScoped (sa_type entry.2) (sa_value entry.2) (sort_by code_unit_le (sa_actions entry.2)))
    (sort_by (fun a b => code_unit_le a.1 b.1) scoped))) s a <-> scoped_has scoped s a.
Proof.
  intros [Hd Hk]. unfold listed. cbn [pc_scopes]. split.
  - intros (sa & Hin & Ht & Hv & Hact). apply list_elem_of_fmap in Hin as ([k v] & -> & Hin). cbn in *. rewrite sorted_elem in Hin. rewrite sorted_elem in Hact. exists v. split_and!; try done.
    replace (scope_key s) with k; [done|]. pose proof (proj1 (Forall_forall _ _) Hk _ Hin) as He. cbn in He. rewrite He. destruct s; cbn in *; by subst.
  - intros (v & Hin & Ht & Hv & Hact). eexists. split; [apply list_elem_of_fmap; exists (scope_key s, v); split; [reflexivity|by rewrite sorted_elem]|].
    cbn. split_and!; [done|done|]. by rewrite sorted_elem.
Qed.

(** The caller document a page reads says exactly what the person's token permits: of the contract's actions, those it
    permits without a scope are listed for the application, and those it permits in a scope are listed there or under that
    scope, whether an entry names the action or a pattern covers it; each scope is listed once. So a page that looks an action
    up gets the answer the authorization kernel gives. *)
Theorem pageCallerOf_exact label email perms actions :
  let page := pageCallerOf label email perms actions in
  (forall a, a ∈ pc_app page <-> a ∈ actions /\ permits perms a None = true) /\
  (forall s a, a ∈ pc_app page \/ listed page s a <-> a ∈ actions /\ permits perms a (Some s) = true) /\
  NoDup (map (fun sa => mkScope (sa_type sa) (sa_value sa)) (pc_scopes page)).
Proof.
  cbn zeta. unfold pageCallerOf. destruct (page_loop actions perms [] []) as [app scoped] eqn:El. assert (Hnil : scoped_ok []) by (split; constructor).
  destruct (page_loop_spec _ _ _ _ _ _ Hnil El) as (Hok & Ha & Hs).
  assert (Happ : forall a, a ∈ sort_by code_unit_le app <-> a ∈ actions /\ permits perms a None = true).
  { intros a. rewrite sorted_elem, Ha, permits_elem. split.
    - intros [Hn|(? & e & He & Hsc & Hm)]; [by apply elem_of_nil in Hn|]. split; [done|]. exists e. unfold scopeOk. by rewrite Hsc.
    - intros [? (e & He & Hsc & Hm)]. right. split; [done|]. exists e. unfold scopeOk in Hsc. by destruct (scope e). }
  split_and!; [exact Happ| |].
  - intros s a. rewrite listed_spec, Hs by done. cbn [pc_app]. rewrite Happ, !permits_elem. split.
    + intros [[? (e & He & Hsc & Hm)]|[(v & Hn & _)|(? & e & He & Hsc & Hm)]].
      * split; [done|]. exists e. split_and!; [done| |done]. unfold scopeOk in *. by destruct (scope e).
      * by apply elem_of_nil in Hn.
      * split; [done|]. exists e. split_and!; [done| |done]. unfold scopeOk. rewrite Hsc. by apply same_scope_spec.
    + intros [Hin (e & He & Hsc & Hm)]. unfold scopeOk in Hsc. destruct (scope e) as [es|] eqn:Ee.
      * apply same_scope_spec in Hsc as ->. right. right. split; [done|]. by exists e.
      * left. split; [done|]. exists e. unfold scopeOk. by rewrite Ee.
  - cbn [pc_scopes]. rewrite map_map. cbn. destruct Hok as [Hd Hk]. apply (NoDup_fmap_1 scope_key).
    change (NoDup (map scope_key (map (fun x => mkScope (sa_type x.2) (sa_value x.2)) (sort_by (fun a b => code_unit_le a.1 b.1) scoped)))). rewrite map_map.
    rewrite (sort_by_Permutation _ scoped). erewrite map_ext_in; [exact Hd|]. intros [k v] Hin. apply list_elem_of_In in Hin. symmetry. exact (proj1 (Forall_forall _ _) Hk _ Hin).
Qed.

(** ** The in-flight share *)

Inductive ShareOp := SEnter | SRelease (place : nat).

Definition share_step (s : InFlightShare) (op : ShareOp) : InFlightShare := match op with SEnter => (enter s).2 | SRelease place => release place s end.

Definition out_of (s : InFlightShare) : Z := Z.of_nat (length (List.filter negb (releases s))).

Lemma filter_negb_insert l place : l !! place = Some false -> Z.of_nat (length (List.filter negb (<[place := true]> l))) = Z.of_nat (length (List.filter negb l)) - 1.
Proof.
  revert place. induction l as [|b l IH]; intros [|place] Hp; try done.
  - injection Hp as ->. cbn -[Z.of_nat]. lia.
  - specialize (IH _ Hp). change (<[S place:=true]> (b :: l)) with (b :: <[place:=true]> l). destruct b; cbn [List.filter negb length]; lia.
Qed.

(** The share counts every request that entered and was not released, each release once however often it is called, never
    more than its limit, and refuses a request exactly when it is full; so whatever order anonymous requests come and go in,
    they hold at most their part of the connections, and a place given back is free again. *)
Theorem InFlightShare_bounded limit ops : 0 <= limit ->
  let s := foldl share_step (new_InFlightShare limit) ops in
  share_held s = out_of s /\ 0 <= out_of s <= limit /\ ((enter s).1 = None <-> out_of s = limit).
Proof.
  intros Hl s. assert (Hinv : share_limit s = limit /\ share_held s = out_of s /\ 0 <= out_of s <= limit).
  { unfold s. clear s. induction ops as [|op ops IH] using rev_ind; [cbn; unfold out_of; cbn; lia|]. rewrite foldl_app. cbn [foldl].
    destruct (foldl share_step _ ops) as [l h rs]. unfold out_of in *. cbn -[Z.of_nat] in IH. destruct op as [|place]; cbn [share_step].
    - unfold enter. cbn -[Z.of_nat]. destruct (Z.leb_spec l h); cbn -[Z.of_nat]; [lia|]. rewrite List.filter_app. cbn -[Z.of_nat]. rewrite length_app. cbn -[Z.of_nat]. lia.
    - unfold release. cbn -[Z.of_nat]. destruct (rs !! place) as [[]|] eqn:E; cbn -[Z.of_nat]; try lia. rewrite filter_negb_insert by done.
      assert (0 < Z.of_nat (length (List.filter negb rs))); [|lia]. apply list_elem_of_lookup_2, list_elem_of_In in E.
      assert (Hin : In false (List.filter negb rs)) by (by apply filter_In). destruct (List.filter negb rs); [done|cbn -[Z.of_nat]; lia]. }
  destruct Hinv as (Hlim & Hh & Hb). split; [done|]. split; [done|]. unfold enter. rewrite Hlim, Hh. destruct (Z.leb_spec limit (out_of s)); cbn; [split; [lia|done]|split; [done|lia]].
Qed.

Lemma InFlightShare_bounded_witness :
  let s := foldl share_step (new_InFlightShare 2) [SEnter; SEnter; SRelease 0; SRelease 0; SEnter] in
  share_held s = out_of s /\ 0 <= out_of s <= 2 /\ ((enter s).1 = None <-> out_of s = 2).
Proof. apply InFlightShare_bounded. lia. Defined.
