(* ===== verification/Signatures.v ===== *)
(** A webhook delivery's signature, over the raw body ([app/src/implement/verifiers.ts]).

    The platform's cryptography and text decoding are the class [DeliveryCrypto]: the HMAC and SHA-256 of bytes, UTF-8 read
    strictly, base64 read, and the parameters of a form and of a URL. A header is looked up by its name, in any case. *)

From S2P Require Import Prelude Project Digest.
From Stdlib Require Import ZArith Lia String Ascii Sorted.
From stdpp Require Import base tactics strings option list.

Open Scope Z_scope.

Definition WEBHOOK_TIMESTAMP_TOLERANCE_MS : Z := 5 * 60 * 1000.
Definition STANDARD_SECRET_PREFIX : string := "whsec_".
Definition FORM_URLENCODED_TYPE : string := "application/x-www-form-urlencoded".

Inductive HmacAlgorithm := Sha1 | Sha256 | Sha512.
Inductive Encoding := Hex | Base64.

(** [HmacScheme]; [h_timestamped] is [signed: 'timestamp.body']. *)
Record HmacScheme := mkHmac {
  h_header : string;
  h_algorithm : HmacAlgorithm;
  h_encoding : Encoding;
  h_prefix : option string;
  h_timestamp : option string;
  h_timestamped : bool;
  h_id : option string;
}.

Inductive WebhookScheme := SchemeGithub | SchemeSlack | SchemeStandard | SchemeStripe | SchemeTwilio | SchemeHmac (scheme : HmacScheme) | SchemeBasic | SchemeBearer.

Notation Bytes := (list Z).

(** [SignedDelivery] *)
Record SignedDelivery := mkDelivery { d_headers : string -> option string; d_body : Bytes; d_url : option string }.

Class DeliveryCrypto := {
  hmac : HmacAlgorithm -> Bytes -> Bytes -> Bytes;
  sha256 : Bytes -> Bytes;
  utf8_text : Bytes -> option string;
  base64_bytes : string -> Bytes;
  form_parameters : string -> list (string * string);
  url_parameters : string -> option (list (string * string));
}.

(** ** Texts *)

Definition is_base64_unit (c : ascii) : bool := Js.is_letter c || Js.is_digit c || Ascii.eqb c "+" || Ascii.eqb c "/".

(** [/^(?:[A-Za-z0-9+/]{4})*(?:[A-Za-z0-9+/]{2}==|[A-Za-z0-9+/]{3}=)?$/] *)
Fixpoint is_base64 (fuel : nat) (s : string) : bool :=
  match fuel with
  | O => false
  | S fuel =>
      match s with
      | EmptyString => true
      | String a (String b (String c (String d rest))) =>
          (is_base64_unit a && is_base64_unit b && is_base64_unit c && is_base64_unit d && is_base64 fuel rest)
          || ((rest =? "")%string && is_base64_unit a && is_base64_unit b && ((Ascii.eqb c "=" && Ascii.eqb d "=") || (is_base64_unit c && Ascii.eqb d "=")))
      | _ => false
      end
  end.

Definition hex_unit_value (c : ascii) : Z :=
  let n := Z.of_nat (Js.code c) in if Js.is_digit c then n - 48 else if Js.in_range 97 102 c then n - 87 else n - 55.

Fixpoint hex_bytes (s : string) : option Bytes :=
  match s with
  | EmptyString => Some []
  | String a (String b rest) =>
      if Js.is_hex a && Js.is_hex b then bytes ← hex_bytes rest; Some (16 * hex_unit_value a + hex_unit_value b :: bytes) else None
  | _ => None
  end.

Section Verifiers.
Context `{DeliveryCrypto}.

(** [decode] *)
Definition decode (text : string) (encoding : Encoding) : option Bytes :=
  match encoding with
  | Hex => if (text =? "")%string then None else hex_bytes text
  | Base64 => if is_base64 (S (String.length text)) text && negb (text =? "")%string then Some (base64_bytes text) else None
  end.

(** [standardKey] *)
Definition standardKey (secret : string) : option Bytes :=
  if Js.startsWith secret STANDARD_SECRET_PREFIX then decode (Js.drop (String.length STANDARD_SECRET_PREFIX) secret) Base64 else None.

Definition decimal_value (s : string) : Z := (fix go acc s := match s with EmptyString => acc | String c s => go (10 * acc + (Z.of_nat (Js.code c) - 48)) s end) 0 s.

(** [fresh], at [now] in milliseconds. *)
Definition fresh (timestamp : string) (now : Z) : bool :=
  Js.forall_units Js.is_digit timestamp && (1 <=? String.length timestamp)%nat && (String.length timestamp <=? 12)%nat
  && (Z.abs (now - decimal_value timestamp * 1000) <=? WEBHOOK_TIMESTAMP_TOLERANCE_MS).

Definition prefixed (head : string) (body : Bytes) : Bytes := utf8 head ++ body.

(** [signedContent] *)
Definition signedContent (parts : list string) (body : Bytes) : Bytes :=
  match parts with [] => body | _ => prefixed (Js.join "." parts +:+ ".") body end.

(** [hmacVerifies]: [crypto.subtle.verify] computes the HMAC and compares. *)
Definition hmacVerifies (algorithm : HmacAlgorithm) (key : Bytes) (signatures : list Bytes) (content : Bytes) : bool :=
  if (length signatures =? 0)%nat || (length key =? 0)%nat then false
  else foldl (fun verified signature => bool_decide (signature = hmac algorithm key content) || verified) false signatures.

Definition GITHUB : HmacScheme := mkHmac "X-Hub-Signature-256" Sha256 Hex (Some "sha256=") None false None.

Definition verifyHmac (scheme : HmacScheme) (headers : string -> option string) (key body : Bytes) (now : Z) : bool :=
  match headers (h_header scheme) with
  | None => false
  | Some header =>
      let prefix := default "" (h_prefix scheme) in
      if negb (Js.startsWith header prefix) then false
      else
        match decode (Js.drop (String.length prefix) header) (h_encoding scheme) with
        | None => false
        | Some signature =>
            match match h_id scheme with
                  | None => Some []
                  | Some name => id ← headers name; if (id =? "")%string then None else Some [id]
                  end with
            | None => false
            | Some parts =>
                if h_timestamped scheme then
                  match h_timestamp scheme ≫= headers with
                  | None => false
                  | Some timestamp =>
                      if negb (fresh timestamp now) then false
                      else hmacVerifies (h_algorithm scheme) key [signature] (signedContent (parts ++ [timestamp]) body)
                  end
                else hmacVerifies (h_algorithm scheme) key [signature] (signedContent parts body)
            end
        end
  end.

(** One item of [Stripe-Signature], added to the timestamp and the signatures read before it. *)
Definition stripe_item (read : option string * list Bytes) (item : string) : option string * list Bytes :=
  match Js.indexOf "=" item with
  | Some (S before as separator) =>
      let name := Js.trim (Js.take separator item) in
      let value := Js.trim (Js.drop (S separator) item) in
      if (name =? "t")%string then (Some value, read.2)
      else if (name =? "v1")%string then (read.1, read.2 ++ option_list (decode value Hex))
      else read
  | _ => read
  end.

Definition verifyStripe (header : option string) (key body : Bytes) (now : Z) : bool :=
  match header with
  | None => false
  | Some header =>
      let (timestamp, signatures) := foldl stripe_item (None, []) (Js.split "," header) in
      match timestamp with
      | Some timestamp => if fresh timestamp now then hmacVerifies Sha256 key signatures (signedContent [timestamp] body) else false
      | None => false
      end
  end.

Definition verifySlack (headers : string -> option string) (key body : Bytes) (now : Z) : bool :=
  match headers "X-Slack-Request-Timestamp", headers "X-Slack-Signature" with
  | Some timestamp, Some header =>
      if negb (Js.startsWith header "v0=") || negb (fresh timestamp now) then false
      else match decode (Js.drop 3 header) Hex with
           | Some signature => hmacVerifies Sha256 key [signature] (prefixed ("v0:" +:+ timestamp +:+ ":") body)
           | None => false
           end
  | _, _ => false
  end.

(** The order of [compareText] on names, then on values. *)
Definition parameter_le (a b : string * string) : bool := if (a.1 =? b.1)%string then code_unit_le a.2 b.2 else code_unit_le a.1 b.1.

Definition media_type (header : option string) : option string := (fun value => Js.toLowerCase (Js.trim (nth 0 (Js.split ";" value) ""))) <$> header.

Definition hex_pair (byte : Z) : string := padStart 2 (toString16 2 byte).

Definition hex_of (bytes : Bytes) : string := Js.join "" (map hex_pair bytes).

Definition twilioSigned (delivery : SignedDelivery) : option string :=
  match d_url delivery with
  | None => None
  | Some url =>
      if bool_decide (media_type (d_headers delivery "Content-Type") = Some FORM_URLENCODED_TYPE) then
        text ← utf8_text (d_body delivery);
        Some (url +:+ Js.join "" (map (fun p => p.1 +:+ p.2) (sort_by parameter_le (form_parameters text))))
      else
        match url_parameters url with
        | None => None
        | Some parameters =>
            match lookup_field "bodySHA256" parameters with
            | Some claimed => if (Js.toLowerCase claimed =? hex_of (sha256 (d_body delivery)))%string then Some url else None
            | None => None
            end
        end
  end.

Definition verifyTwilio (delivery : SignedDelivery) (key : Bytes) : bool :=
  match d_headers delivery "X-Twilio-Signature" ≫= (fun header => decode header Base64), twilioSigned delivery with
  | Some signature, Some content => hmacVerifies Sha1 key [signature] (utf8 content)
  | _, _ => false
  end.

Definition verifyStandard (headers : string -> option string) (key : option Bytes) (body : Bytes) (now : Z) : bool :=
  match key, headers "webhook-id", headers "webhook-timestamp", headers "webhook-signature" with
  | Some key, Some id, Some timestamp, Some header =>
      if (id =? "")%string || negb (fresh timestamp now) then false
      else
        let signatures := flat_map (fun entry => if Js.startsWith entry "v1," then option_list (decode (Js.drop 3 entry) Base64) else []) (Js.split " " header) in
        hmacVerifies Sha256 key signatures (signedContent [id; timestamp] body)
  | _, _, _, _ => false
  end.

(** [/^Basic ([A-Za-z0-9+/]+={0,2})$/i] and [/^Bearer (\S+)$/i], without the scheme's name. *)
Definition after_scheme (scheme authorization : string) : option string :=
  let n := String.length scheme in
  if (Js.toLowerCase (Js.take n authorization) =? scheme)%string && Js.startsWith (Js.drop n authorization) " " then Some (Js.drop (S n) authorization) else None.

(** Base64 units, then at most two padding signs. *)
Fixpoint padded_units (s : string) : bool :=
  match s with
  | EmptyString => true
  | String c rest => if is_base64_unit c then padded_units rest else (s =? "=")%string || (s =? "==")%string
  end.

Definition basicPassword (authorization : option string) : option string :=
  authorization ← authorization;
  encoded ← after_scheme "basic" authorization;
  if match encoded with String c _ => is_base64_unit c | EmptyString => false end && padded_units encoded then
    credentials ← decode encoded Base64;
    text ← utf8_text credentials;
    separator ← Js.indexOf ":" text;
    Some (Js.drop (S separator) text)
  else None.

Definition bearerToken (authorization : option string) : option string :=
  authorization ← authorization;
  token ← after_scheme "bearer" authorization;
  if negb (token =? "")%string && Js.forall_units (fun c => negb (Js.is_space c)) token then Some token else None.

(** The loop of [sameText]: a byte that is missing reads as 0. *)
Fixpoint difference (given expected : Bytes) : Z :=
  match given with
  | [] => 0
  | byte :: given => Z.lor (Z.lxor byte (hd 0 expected)) (difference given (tl expected))
  end.

Definition sameText (given : option string) (expected : string) : bool :=
  match given with
  | None => false
  | Some given => if (expected =? "")%string then false else difference (sha256 (utf8 given)) (sha256 (utf8 expected)) =? 0
  end.

Definition verifyDelivery (scheme : WebhookScheme) (delivery : SignedDelivery) (secret : string) (now : Z) : bool :=
  let headers := d_headers delivery in
  let body := d_body delivery in
  match scheme with
  | SchemeGithub => verifyHmac GITHUB headers (utf8 secret) body now
  | SchemeSlack => verifySlack headers (utf8 secret) body now
  | SchemeStripe => verifyStripe (headers "Stripe-Signature") (utf8 secret) body now
  | SchemeStandard => verifyStandard headers (standardKey secret) body now
  | SchemeTwilio => verifyTwilio delivery (utf8 secret)
  | SchemeHmac scheme => verifyHmac scheme headers (utf8 secret) body now
  | SchemeBasic => sameText (basicPassword (headers "Authorization")) secret
  | SchemeBearer => sameText (bearerToken (headers "Authorization")) secret
  end.

End Verifiers.

(** The account a GitHub payload names; [number_text] is the text of a whole number. *)
Definition githubAccounts (number_text : Z -> string) (whole : jsnum -> option Z) (payload : Unknown) : list string :=
  flat_map (fun kind =>
    match payload with
    | UObj fields =>
        match lookup_field kind fields with
        | Some (UObj holder) =>
            match lookup_field "id" holder with
            | Some (UNum n) => match whole n with Some id => if isSafeInteger id && (0 <? id) then [kind +:+ ":" +:+ number_text id] else [] | None => [] end
            | _ => []
            end
        | _ => []
        end
    | _ => []
    end) ["installation"; "repository"].

(** ** What a signature proves

    The texts of the headers, as their providers document them, without the code's own readers. *)

(** [text] spells the bytes in hexadecimal, in either case. *)
Definition hex_alphabet : string := "0123456789abcdef".
Definition hex_unit (n : Z) : ascii := default "0"%char (String.get (Z.to_nat n) hex_alphabet).

Fixpoint spelled (bytes : Bytes) : string :=
  match bytes with [] => "" | byte :: bytes => String (hex_unit (byte / 16)) (String (hex_unit (byte mod 16)) (spelled bytes)) end.

Definition is_byte (byte : Z) : Prop := 0 <= byte < 256.

Definition reads_hex (text : string) (bytes : Bytes) : Prop := bytes <> [] /\ Forall is_byte bytes /\ Js.toLowerCase text = spelled bytes.

(** [text] is base64 of whole groups: units of the alphabet, then at most two padding signs. *)
Definition base64_alphabet : string := "ABCDEFGHIJKLMNOPQRSTUVWXYZabcdefghijklmnopqrstuvwxyz0123456789+/".
Definition in_alphabet (c : ascii) : bool := match Js.indexOf c base64_alphabet with Some _ => true | None => false end.

Definition base64_text (text : string) : Prop :=
  exists units padding, text = units +:+ padding /\ units <> "" /\ Js.forall_units in_alphabet units = true /\ padding ∈ [""; "="; "=="] /\
    (String.length text mod 4 = 0)%nat.

(** The number a text of decimal digits writes. *)
Fixpoint decimal (s : string) : Z :=
  match s with EmptyString => 0 | String c rest => (Z.of_nat (Js.code c) - 48) * 10 ^ Z.of_nat (String.length rest) + decimal rest end.

(** [timestamp] is one to twelve digits, of seconds within five minutes of [now]. *)
Definition in_time (timestamp : string) (now : Z) : Prop :=
  Js.forall_units Js.is_digit timestamp = true /\ (1 <= String.length timestamp <= 12)%nat /\ Z.abs (now - decimal timestamp * 1000) <= 300000.

Definition holds_no (c : ascii) (s : string) : Prop := Js.forall_units (fun d => negb (Ascii.eqb d c)) s = true.

(** The item names a field and gives its value: [name=value], with white space around either. *)
Definition names_field (item name value : string) : Prop :=
  exists left right, item = left +:+ "=" +:+ right /\ left <> "" /\ holds_no "=" left /\ Js.trim left = name /\ Js.trim right = value.

(** The timestamp is the last item of that name. *)
Definition last_timestamp (items : list string) (timestamp : string) : Prop :=
  exists before item after, items = before ++ item :: after /\ names_field item "t" timestamp /\ Forall (fun later => forall value, ~ names_field later "t" value) after.

(** A parameter comes before another by its name, then by its value. *)
Definition parameter_before (a b : string * string) : Prop := String.compare a.1 b.1 = Lt \/ a.1 = b.1 /\ String.compare a.2 b.2 <> Gt.

(** The media type of a [Content-Type], what stands before its first semicolon, is that of a form. *)
Definition is_form (header : option string) : Prop :=
  exists head rest, (header = Some head \/ header = Some (head +:+ ";" +:+ rest)) /\ holds_no ";" head /\ Js.toLowerCase (Js.trim head) = "application/x-www-form-urlencoded".

(** [authorization] is of a scheme, in any case, and [credential] is what follows its one space. *)
Definition presents (scheme : string) (authorization : option string) (credential : string) : Prop :=
  exists written, authorization = Some (written +:+ " " +:+ credential) /\ Js.toLowerCase written = scheme.

Section Authentic.
Context `{DeliveryCrypto}.

(** [text] carries the bytes in the scheme's encoding. *)
Definition carries (encoding : Encoding) (text : string) (bytes : Bytes) : Prop :=
  match encoding with Hex => reads_hex text bytes | Base64 => base64_text text /\ bytes = base64_bytes text end.

(** The texts a scheme's HMAC puts before the body: its id and its timestamp, when it names them. *)
Definition signed_parts (scheme : HmacScheme) (headers : string -> option string) (now : Z) (parts : list string) : Prop :=
  exists ids times, parts = ids ++ times /\
    match h_id scheme with None => ids = [] | Some name => exists id, headers name = Some id /\ id <> "" /\ ids = [id] end /\
    (if h_timestamped scheme then exists name timestamp, h_timestamp scheme = Some name /\ headers name = Some timestamp /\ in_time timestamp now /\ times = [timestamp]
     else times = []).

(** The body behind its parts, each with a dot after it. *)
Definition behind (parts : list string) (body : Bytes) : Bytes := utf8 (String.concat "" (map (fun part => part +:+ ".") parts)) ++ body.

(** Who holds [secret] sent this body: the header presents the HMAC, under the secret's key, of the body behind what the scheme
    says stands before it. *)
Definition authentic_hmac (scheme : HmacScheme) (headers : string -> option string) (key body : Bytes) (now : Z) : Prop :=
  exists encoded parts, headers (h_header scheme) = Some (default "" (h_prefix scheme) +:+ encoded) /\ signed_parts scheme headers now parts /\
    key <> [] /\ carries (h_encoding scheme) encoded (hmac (h_algorithm scheme) key (behind parts body)).

(** What Twilio signs: the URL it posted to and a form's parameters in their order, or a URL that names the hash of the body. *)
Definition twilio_signs (delivery : SignedDelivery) (content : string) : Prop :=
  exists url, d_url delivery = Some url /\
    ((is_form (d_headers delivery "Content-Type") /\ exists text parameters, utf8_text (d_body delivery) = Some text /\ parameters ≡ₚ form_parameters text /\
        StronglySorted parameter_before parameters /\ content = url +:+ String.concat "" (map (fun p => p.1 +:+ p.2) parameters)) \/
     (~ is_form (d_headers delivery "Content-Type") /\ content = url /\ exists parameters before claimed after, url_parameters url = Some parameters /\
        parameters = before ++ ("bodySHA256", claimed) :: after /\ "bodySHA256" ∉ map fst before /\ reads_hex claimed (sha256 (d_body delivery)))).

Definition authentic (scheme : WebhookScheme) (delivery : SignedDelivery) (secret : string) (now : Z) : Prop :=
  let headers := d_headers delivery in
  let body := d_body delivery in
  let key := utf8 secret in
  match scheme with
  | SchemeGithub => exists encoded, headers "X-Hub-Signature-256" = Some ("sha256=" +:+ encoded) /\ key <> [] /\ reads_hex encoded (hmac Sha256 key body)
  | SchemeHmac scheme => authentic_hmac scheme headers key body now
  | SchemeSlack => exists timestamp encoded, headers "X-Slack-Request-Timestamp" = Some timestamp /\ headers "X-Slack-Signature" = Some ("v0=" +:+ encoded) /\
      in_time timestamp now /\ key <> [] /\ reads_hex encoded (hmac Sha256 key (utf8 ("v0:" +:+ timestamp +:+ ":") ++ body))
  | SchemeStripe => exists header timestamp signature encoded, headers "Stripe-Signature" = Some header /\ last_timestamp (Js.split "," header) timestamp /\
      in_time timestamp now /\ key <> [] /\ signature ∈ Js.split "," header /\ names_field signature "v1" encoded /\
      reads_hex encoded (hmac Sha256 key (utf8 (timestamp +:+ ".") ++ body))
  | SchemeStandard => exists encoded_key id timestamp header encoded, secret = "whsec_" +:+ encoded_key /\ base64_text encoded_key /\ base64_bytes encoded_key <> [] /\
      headers "webhook-id" = Some id /\ id <> "" /\ headers "webhook-timestamp" = Some timestamp /\ in_time timestamp now /\
      headers "webhook-signature" = Some header /\ ("v1," +:+ encoded) ∈ Js.split " " header /\ base64_text encoded /\
      base64_bytes encoded = hmac Sha256 (base64_bytes encoded_key) (utf8 (id +:+ "." +:+ timestamp +:+ ".") ++ body)
  | SchemeTwilio => exists header content, headers "X-Twilio-Signature" = Some header /\ twilio_signs delivery content /\ key <> [] /\
      base64_text header /\ base64_bytes header = hmac Sha1 key (utf8 content)
  | SchemeBasic => exists credential user password, presents "basic" (headers "Authorization") credential /\ base64_text credential /\
      utf8_text (base64_bytes credential) = Some (user +:+ ":" +:+ password) /\ holds_no ":" user /\ secret <> "" /\ sha256 (utf8 password) = sha256 key
  | SchemeBearer => exists token, presents "bearer" (headers "Authorization") token /\ token <> "" /\ Js.forall_units (fun c => negb (Js.is_space c)) token = true /\
      secret <> "" /\ sha256 (utf8 token) = sha256 key
  end.

(** *** Its readers *)

Lemma every_ascii (p : ascii -> bool) : forallb (fun n => p (ascii_of_nat n)) (seq 0 256) = true -> forall c, p c = true.
Proof.
  intros Hall c. rewrite forallb_forall in Hall. rewrite <- (ascii_nat_embedding c). apply Hall, in_seq. pose proof (nat_ascii_bounded c). lia.
Qed.

Lemma in_alphabet_spec c : in_alphabet c = is_base64_unit c.
Proof. apply eqb_prop. revert c. apply (every_ascii (fun c => Bool.eqb (in_alphabet c) (is_base64_unit c))). by vm_compute. Qed.

Lemma hex_unit_exact c n : 0 <= n < 16 -> Js.lower_unit c = hex_unit n <-> Js.is_hex c = true /\ hex_unit_value c = n.
Proof.
  intros Hn.
  assert (Hall : forallb (fun n => eqb (Ascii.eqb (Js.lower_unit c) (hex_unit n)) (Js.is_hex c && (hex_unit_value c =? n))) (map Z.of_nat (seq 0 16)) = true).
  { revert c. apply every_ascii. by vm_compute. }
  rewrite forallb_forall in Hall. assert (Hin : List.In n (map Z.of_nat (seq 0 16))) by (apply in_map_iff; exists (Z.to_nat n); rewrite in_seq; lia).
  apply Hall, eqb_prop in Hin. rewrite <- Z.eqb_eq, <- andb_true_iff, <- Hin. by rewrite Ascii.eqb_eq.
Qed.

Lemma hex_value_range c : Js.is_hex c = true -> 0 <= hex_unit_value c < 16.
Proof.
  intros Hc. assert (Hall : negb (Js.is_hex c) || ((0 <=? hex_unit_value c) && (hex_unit_value c <? 16)) = true) by (revert c Hc; intros c _; revert c; apply every_ascii; by vm_compute).
  rewrite Hc in Hall. cbn [negb orb] in Hall. lia.
Qed.

Lemma hex_bytes_exact text bytes : hex_bytes text = Some bytes <-> Forall is_byte bytes /\ Js.toLowerCase text = spelled bytes.
Proof.
  assert (Hind : forall n text bytes, (String.length text <= n)%nat -> hex_bytes text = Some bytes <-> Forall is_byte bytes /\ Js.toLowerCase text = spelled bytes);
    [|by eapply Hind]. clear. induction n as [|n IH]; intros text bytes Hl.
  - destruct text; [|cbn in Hl; lia]. cbn. split; [by intros [= <-]|]. intros [_ E]. by destruct bytes.
  - destruct text as [|a [|b rest]]; cbn [hex_bytes Js.toLowerCase].
    + split; [by intros [= <-]|]. intros [_ E]. by destruct bytes.
    + split; [done|]. intros [_ E]. by destruct bytes.
    + split.
      * destruct (Js.is_hex a && Js.is_hex b) eqn:Hab; [|done]. apply andb_true_iff in Hab as [Ha Hb]. destruct (hex_bytes rest) as [bs|] eqn:Er; [|done]. intros [= <-].
        apply IH in Er as [Hbs Er]; [|cbn in Hl; lia]. pose proof (hex_value_range a Ha) as Ra. pose proof (hex_value_range b Hb) as Rb.
        split; [constructor; [unfold is_byte; lia|done]|]. cbn [spelled].
        replace ((16 * hex_unit_value a + hex_unit_value b) / 16) with (hex_unit_value a) by (rewrite Z.mul_comm, Z.div_add_l by lia; rewrite (Z.div_small (hex_unit_value b)); lia).
        replace ((16 * hex_unit_value a + hex_unit_value b) mod 16) with (hex_unit_value b) by (rewrite Z.add_comm, Z.mul_comm, Z_mod_plus_full; rewrite Z.mod_small; lia).
        by rewrite (proj2 (hex_unit_exact a _ Ra) (conj Ha eq_refl)), (proj2 (hex_unit_exact b _ Rb) (conj Hb eq_refl)), Er.
      * intros [Hbs E]. destruct bytes as [|byte bytes]; [done|]. apply Forall_cons in Hbs as [Hb Hbs]. cbn [spelled] in E. injection E as Ea Eb Er. unfold is_byte in Hb.
        apply hex_unit_exact in Ea as [Ha Hav]; [|split; [apply Z.div_pos; lia|apply Z.div_lt_upper_bound; lia]]. apply hex_unit_exact in Eb as [Hb' Hbv]; [|apply Z.mod_pos_bound; lia].
        rewrite Ha, Hb'. cbn [andb]. rewrite (proj2 (IH rest bytes ltac:(cbn in Hl; lia)) (conj Hbs Er)). cbn. do 2 f_equal. rewrite Hav, Hbv. symmetry. apply Z.div_mod. lia.
Qed.

Lemma decode_hex text bytes : decode text Hex = Some bytes <-> reads_hex text bytes.
Proof.
  unfold decode, reads_hex. destruct (String.eqb_spec text "") as [->|Hne].
  - split; [done|]. intros (Hn & _ & E). by destruct bytes.
  - rewrite hex_bytes_exact. split; [|tauto]. intros [Hb E]. split; [|done]. intros ->. destruct text; [done|]. cbn in E. discriminate.
Qed.

Lemma base64_fixed n text : (String.length text <= n)%nat -> is_base64 (S n) text = true <-> text = "" \/ base64_text text.
Proof.
  revert text. induction n as [n IH] using lt_wf_ind. intros text Hl. destruct text as [|a [|b [|c [|d rest]]]]; cbn [is_base64].
  - split; [by left|done].
  - split; [done|]. intros [?|(u & q & _ & _ & _ & _ & Hm)]; [done|]. by cbn in Hm.
  - split; [done|]. intros [?|(u & q & _ & _ & _ & _ & Hm)]; [done|]. by cbn in Hm.
  - split; [done|]. intros [?|(u & q & _ & _ & _ & _ & Hm)]; [done|]. by cbn in Hm.
  - destruct n as [|n]; [cbn in Hl; lia|]. assert (Hrest : (String.length rest <= n)%nat) by (cbn in Hl; lia).
    assert (Hm4 : forall s, (String.length (String a (String b (String c (String d s)))) mod 4 = String.length s mod 4)%nat).
    { intros s. cbn [String.length]. replace (S (S (S (S (String.length s))))) with (String.length s + 1 * 4)%nat by lia. apply Nat.Div0.mod_add. }
    rewrite orb_true_iff, !andb_true_iff, (IH n ltac:(lia) rest Hrest), String.eqb_eq, orb_true_iff, !andb_true_iff, !Ascii.eqb_eq, <- !in_alphabet_spec. split.
    + intros [((((Ha & Hb) & Hc) & Hd) & Hr)|(((-> & Ha) & Hb) & Hp)]; right.
      * destruct Hr as [->|(u & q & -> & Hu & Hal & Hq & Hm)].
        -- exists (String a (String b (String c (String d "")))), "". cbn. rewrite Ha, Hb, Hc, Hd. split_and!; try done. left.
        -- exists (String a (String b (String c (String d u)))), q. rewrite Hm4. cbn [String.append Js.forall_units]. by rewrite Ha, Hb, Hc, Hd.
      * destruct Hp as [[-> ->]|[Hc ->]].
        -- exists (String a (String b "")), "==". cbn. rewrite Ha, Hb. split_and!; try done. right. right. left.
        -- exists (String a (String b (String c ""))), "=". cbn. rewrite Ha, Hb, Hc. split_and!; try done. right. left.
    + intros [?|(u & q & E & Hu & Hal & Hq & Hm)]; [done|]. rewrite Hm4 in Hm.
      assert (Hq' : q = "" \/ q = "=" \/ q = "==") by (rewrite !elem_of_cons, elem_of_nil in Hq; tauto).
      assert (Hlen : (String.length (String a (String b (String c (String d rest)))) = String.length u + String.length q)%nat) by by rewrite E, str_length_app.
      destruct u as [|a' [|b' [|c' [|d' u]]]]; cbn [Js.forall_units] in Hal; rewrite ?andb_true_iff in Hal; [done|destruct Hq' as [->|[->| ->]]; cbn in Hlen; lia| | |].
      * destruct Hq' as [->|[->| ->]]; [cbn in Hlen; lia|cbn in Hlen; lia|]. cbn in E. injection E as -> -> -> -> ->. right. split; [|by left]. tauto.
      * destruct Hq' as [->|[->| ->]]; [cbn in Hlen; lia| |].
        -- cbn in E. injection E as -> -> -> -> ->. right. split; [|right; tauto]. tauto.
        -- cbn in E. injection E as -> -> -> -> ->. by cbn in Hm.
      * cbn [String.append] in E. injection E as -> -> -> -> ->. left. split; [tauto|]. destruct u as [|e u].
        -- destruct Hq' as [->|[->| ->]]; cbn in Hm |- *; [by left|done|done].
        -- right. exists (String e u), q. split_and!; try done. tauto.
Qed.

Lemma decode_base64 text bytes : decode text Base64 = Some bytes <-> base64_text text /\ bytes = base64_bytes text.
Proof.
  assert (Hne : base64_text text -> text <> "") by (intros (u & q & -> & Hu & _) E; by destruct u).
  unfold decode. destruct (is_base64 _ text && _) eqn:Eb.
  - apply andb_true_iff in Eb as [Eb Hn]. apply base64_fixed in Eb as [->|Eb]; [done| |done]. split; [intros [= <-]; done|by intros [_ ->]].
  - split; [done|]. intros [Ht _]. rewrite (proj2 (base64_fixed (String.length text) text ltac:(done)) (or_intror Ht)) in Eb. cbn in Eb.
    by rewrite (proj2 (String.eqb_neq text "") (Hne Ht)) in Eb.
Qed.

Lemma decode_carries encoding text bytes : decode text encoding = Some bytes <-> carries encoding text bytes.
Proof. destruct encoding; [apply decode_hex|apply decode_base64]. Qed.

Lemma decimal_value_spec s : decimal_value s = decimal s.
Proof.
  unfold decimal_value. set (go := fix go acc s := match s with EmptyString => acc | String c s => go (10 * acc + (Z.of_nat (Js.code c) - 48)) s end).
  assert (Hgo : forall s acc, go acc s = acc * 10 ^ Z.of_nat (String.length s) + decimal s); [|by rewrite Hgo].
  clear s. induction s as [|c s IH]; intros acc; cbn [go decimal String.length]; [cbn; lia|]. fold go. rewrite IH, Nat2Z.inj_succ, Z.pow_succ_r by lia. lia.
Qed.

Lemma fresh_spec timestamp now : fresh timestamp now = true <-> in_time timestamp now.
Proof. unfold fresh, in_time. rewrite decimal_value_spec, !andb_true_iff, !Nat.leb_le, Z.leb_le. change WEBHOOK_TIMESTAMP_TOLERANCE_MS with 300000. tauto. Qed.

Lemma indexOf_split c s n : Js.indexOf c s = Some n -> s = Js.take n s +:+ String c (Js.drop (S n) s) /\ holds_no c (Js.take n s) /\ String.length (Js.take n s) = n.
Proof.
  revert n. induction s as [|d s IH]; intros n; cbn [Js.indexOf]; [done|]. destruct (Ascii.eqb_spec c d) as [<-|Hne]; [intros [= <-]; by destruct s|].
  destruct (Js.indexOf c s) as [m|]; [|done]. intros [= <-]. destruct (IH m eq_refl) as (E & Hno & Hl). cbn. split; [by f_equal|]. split; [|by f_equal].
  unfold holds_no. cbn. destruct (Ascii.eqb_spec d c); [congruence|done].
Qed.

Lemma indexOf_found c left right : holds_no c left -> Js.indexOf c (left +:+ String c right) = Some (String.length left).
Proof.
  induction left as [|d left IH]; unfold holds_no; cbn; [by rewrite Ascii.eqb_refl|]. rewrite andb_true_iff. intros [Hd Hl].
  destruct (Ascii.eqb_spec c d) as [->|]; [by rewrite Ascii.eqb_refl in Hd|]. by rewrite (IH Hl).
Qed.

Lemma drop_app left right : Js.drop (String.length left) (left +:+ right) = right.
Proof. induction left as [|c left IH]; [done|]. exact IH. Qed.

Lemma drop_after left c right : Js.drop (S (String.length left)) (left +:+ String c right) = right.
Proof. induction left as [|d left IH]; [done|]. exact IH. Qed.

Lemma hmacVerifies_spec algorithm key signatures content : hmacVerifies algorithm key signatures content = true <-> key <> [] /\ hmac algorithm key content ∈ signatures.
Proof.
  assert (Hfold : forall l b, foldl (fun verified signature => bool_decide (signature = hmac algorithm key content) || verified) b l = true <-> b = true \/ hmac algorithm key content ∈ l).
  { intros l. induction l as [|s l IH]; intros b; cbn [foldl]; [rewrite elem_of_nil; tauto|]. rewrite IH, orb_true_iff, bool_decide_eq_true, elem_of_cons.
    split; intros [?|?]; intuition congruence. }
  unfold hmacVerifies. destruct signatures as [|s l]; [cbn; rewrite elem_of_nil; naive_solver|]. destruct key as [|k key]; [cbn; naive_solver|].
  cbn [length Nat.eqb orb]. rewrite Hfold. naive_solver.
Qed.

Lemma starts_drop header prefix : Js.startsWith header prefix = true <-> header = prefix +:+ Js.drop (String.length prefix) header.
Proof.
  rewrite startsWith_spec. split; [|by eexists]. intros [t ->]. f_equal. induction prefix as [|c prefix IH]; [done|]. cbn. exact IH.
Qed.

Lemma drop_prefix n (prefix rest : string) : String.length prefix = n -> Js.drop n (prefix +:+ rest) = rest.
Proof. intros <-. induction prefix as [|c prefix IH]; [done|]. cbn. exact IH. Qed.

Lemma starts_prefix (prefix rest : string) : Js.startsWith (prefix +:+ rest) prefix = true.
Proof. apply startsWith_spec. by eexists. Qed.

Lemma behind_signed parts body : signedContent parts body = behind parts body.
Proof.
  unfold behind. destruct parts as [|part parts]; [done|]. unfold signedContent, prefixed. do 2 f_equal. unfold Js.join. revert part. induction parts as [|p parts IH]; intros part.
  - done.
  - change (String.concat "." (part :: p :: parts)) with (part +:+ "." +:+ String.concat "." (p :: parts)).
    change (String.concat "" (map (fun part => part +:+ ".") (part :: p :: parts))) with ((part +:+ ".") +:+ String.concat "" (map (fun part => part +:+ ".") (p :: parts))).
    rewrite <- (IH p), <- !str_app_assoc. done.
Qed.

Lemma verifyHmac_exact scheme headers key body now : verifyHmac scheme headers key body now = true <-> authentic_hmac scheme headers key body now.
Proof.
  unfold verifyHmac, authentic_hmac, signed_parts. setoid_rewrite <- behind_signed. setoid_rewrite <- decode_carries. split.
  - destruct (headers (h_header scheme)) as [header|]; [|done]. destruct (Js.startsWith header _) eqn:Ep; [|done]. cbn [negb]. apply starts_drop in Ep.
    destruct (decode _ _) as [signature|] eqn:Ed; [|done]. intros Hv. exists (Js.drop (String.length (default "" (h_prefix scheme))) header). rewrite <- Ep.
    assert (Hids : exists ids, match h_id scheme with None => Some [] | Some name => id ← headers name; if (id =? "")%string then None else Some [id] end = Some ids /\
      match h_id scheme with None => ids = [] | Some name => exists id, headers name = Some id /\ id <> "" /\ ids = [id] end).
    { destruct (h_id scheme) as [name|]; [|by exists []]. destruct (headers name) as [id|]; [|done]. cbn in *. destruct (String.eqb_spec id ""); [done|].
      exists [id]. split; [done|]. by exists id. }
    destruct Hids as (ids & Hids & Hid). rewrite Hids in Hv. destruct (h_timestamped scheme).
    + destruct (h_timestamp scheme) as [name|] eqn:En; cbn in Hv; [|done]. destruct (headers name) as [timestamp|] eqn:Et; [|done].
      destruct (fresh timestamp now) eqn:Ef; [|done]. cbn [negb] in Hv. apply hmacVerifies_spec in Hv as [Hk Hs]. apply list_elem_of_singleton in Hs.
      exists (ids ++ [timestamp]). split_and!; [done| |done|congruence]. exists ids, [timestamp]. split_and!; [done|done|]. exists name, timestamp. by rewrite <- fresh_spec.
    + apply hmacVerifies_spec in Hv as [Hk Hs]. apply list_elem_of_singleton in Hs. exists ids. split_and!; [done| |done|congruence]. exists ids, []. by rewrite app_nil_r.
  - intros (encoded & parts & -> & (ids & times & -> & Hids & Ht) & Hk & Hd). rewrite starts_prefix, (drop_prefix _ _ encoded eq_refl), Hd. cbn [negb].
    replace (match h_id scheme with None => _ | Some name => _ end) with (Some ids).
    + destruct (h_timestamped scheme).
      * destruct Ht as (name & timestamp & -> & Ht & Hf & ->). cbn [mbind option_bind]. rewrite Ht, (proj2 (fresh_spec _ _) Hf). apply hmacVerifies_spec. split; [done|by left].
      * subst times. rewrite app_nil_r in *. apply hmacVerifies_spec. split; [done|by left].
    + destruct (h_id scheme) as [name|]; [|by subst]. destruct Hids as (id & -> & Hn & ->). cbn. by rewrite (proj2 (String.eqb_neq _ _) Hn).
Qed.

Lemma verifyGithub_exact headers key body now : verifyHmac GITHUB headers key body now = true <->
  exists encoded, headers "X-Hub-Signature-256" = Some ("sha256=" +:+ encoded) /\ key <> [] /\ reads_hex encoded (hmac Sha256 key body).
Proof.
  rewrite verifyHmac_exact. unfold authentic_hmac, signed_parts. cbn. split.
  - intros (encoded & parts & Hh & (ids & times & -> & -> & ->) & Hk & Hc). by exists encoded.
  - intros (encoded & Hh & Hk & Hc). exists encoded, []. split_and!; try done. by exists [], [].
Qed.

Lemma verifySlack_exact headers key body now : verifySlack headers key body now = true <->
  exists timestamp encoded, headers "X-Slack-Request-Timestamp" = Some timestamp /\ headers "X-Slack-Signature" = Some ("v0=" +:+ encoded) /\
    in_time timestamp now /\ key <> [] /\ reads_hex encoded (hmac Sha256 key (utf8 ("v0:" +:+ timestamp +:+ ":") ++ body)).
Proof.
  setoid_rewrite <- decode_hex. unfold verifySlack. destruct (headers "X-Slack-Request-Timestamp") as [timestamp|]; [|naive_solver]. destruct (headers "X-Slack-Signature") as [header|]; [|naive_solver].
  split.
  - destruct (Js.startsWith header "v0=") eqn:Ep; [|done]. destruct (fresh timestamp now) eqn:Ef; [|done]. cbn [negb orb]. apply starts_drop in Ep. apply fresh_spec in Ef.
    destruct (decode _ Hex) as [signature|] eqn:Ed; [|done]. intros [Hk Hs]%hmacVerifies_spec. apply list_elem_of_singleton in Hs.
    exists timestamp, (Js.drop 3 header). split_and!; [done|by f_equal|apply Ef..|done|]. rewrite Ed. by rewrite <- Hs.
  - intros (ts & encoded & [= <-] & Eh & Hf & Hk & Hd). apply (inj Some) in Eh as ->.
    rewrite starts_prefix, (proj2 (fresh_spec _ _) Hf), (drop_prefix 3 "v0=" encoded eq_refl), Hd. cbn [negb orb].
    apply hmacVerifies_spec. split; [done|by left].
Qed.

Lemma standardKey_exact secret key : standardKey secret = Some key <-> exists encoded, secret = "whsec_" +:+ encoded /\ base64_text encoded /\ key = base64_bytes encoded.
Proof.
  unfold standardKey. destruct (Js.startsWith secret STANDARD_SECRET_PREFIX) eqn:Ep.
  - apply starts_drop in Ep. rewrite decode_base64. split; [intros Hd; by exists (Js.drop (String.length STANDARD_SECRET_PREFIX) secret)|].
    intros (encoded & -> & Hd). change "whsec_" with STANDARD_SECRET_PREFIX. by rewrite drop_app.
  - split; [done|]. intros (encoded & -> & _). by rewrite (starts_prefix STANDARD_SECRET_PREFIX) in Ep.
Qed.

Lemma verifyStandard_exact headers secret body now : verifyStandard headers (standardKey secret) body now = true <->
  exists encoded_key id timestamp header encoded, secret = "whsec_" +:+ encoded_key /\ base64_text encoded_key /\ base64_bytes encoded_key <> [] /\
    headers "webhook-id" = Some id /\ id <> "" /\ headers "webhook-timestamp" = Some timestamp /\ in_time timestamp now /\
    headers "webhook-signature" = Some header /\ ("v1," +:+ encoded) ∈ Js.split " " header /\ base64_text encoded /\
    base64_bytes encoded = hmac Sha256 (base64_bytes encoded_key) (utf8 (id +:+ "." +:+ timestamp +:+ ".") ++ body).
Proof.
  assert (Hin : forall header sig, sig ∈ flat_map (fun entry => if Js.startsWith entry "v1," then option_list (decode (Js.drop 3 entry) Base64) else []) (Js.split " " header) <->
    exists encoded, ("v1," +:+ encoded) ∈ Js.split " " header /\ decode encoded Base64 = Some sig).
  { intros header sig. rewrite list_elem_of_In, in_flat_map. split.
    - intros (entry & Hin & Hs). destruct (Js.startsWith entry "v1,") eqn:Ep; [|done]. apply starts_drop in Ep. exists (Js.drop (String.length "v1,") entry). split; [rewrite <- Ep; by apply list_elem_of_In|].
      change (Js.drop 3 entry) with (Js.drop (String.length "v1,") entry) in Hs. destruct (decode _ _); [|done]. by destruct Hs as [->|[]].
    - intros (encoded & Hin & Hd). exists ("v1," +:+ encoded). split; [by apply list_elem_of_In|]. rewrite starts_prefix, (drop_prefix 3 "v1," encoded eq_refl), Hd. by left. }
  assert (Hsigned : forall id timestamp, signedContent [id; timestamp] body = utf8 (id +:+ "." +:+ timestamp +:+ ".") ++ body).
  { intros id timestamp. unfold signedContent, prefixed, Js.join. cbn [String.concat]. by rewrite <- !str_app_assoc. }
  unfold verifyStandard. split.
  - destruct (standardKey secret) as [key|] eqn:Ek; [|done]. apply standardKey_exact in Ek as (encoded_key & -> & Hb & ->).
    destruct (headers "webhook-id") as [id|]; [|done]. destruct (headers "webhook-timestamp") as [timestamp|]; [|done]. destruct (headers "webhook-signature") as [header|]; [|done].
    destruct (String.eqb_spec id ""); [done|]. destruct (fresh timestamp now) eqn:Ef; [|done]. cbn [negb orb]. apply fresh_spec in Ef.
    intros [Hk (encoded & He & Hd)%Hin]%hmacVerifies_spec. apply decode_base64 in Hd as [Hd Hs]. exists encoded_key, id, timestamp, header, encoded. split_and!; try done; try apply Ef.
    by rewrite <- Hs, Hsigned.
  - intros (ek & id & ts & header & encoded & -> & Hb & Hk & -> & Hi & -> & Hf & -> & He & Hd & Hs). rewrite (proj2 (standardKey_exact _ (base64_bytes ek))) by (by exists ek).
    rewrite (proj2 (String.eqb_neq _ _) Hi), (proj2 (fresh_spec _ _) Hf). cbn [negb orb].
    apply hmacVerifies_spec. split; [done|]. apply Hin. exists encoded. split; [done|]. apply decode_base64. by rewrite Hsigned.
Qed.

(** *** Stripe's header *)

Lemma stripe_item_named read item name value : names_field item name value ->
  stripe_item read item = (if (name =? "t")%string then (Some value, read.2) else if (name =? "v1")%string then (read.1, read.2 ++ option_list (decode value Hex)) else read).
Proof.
  intros (left & right & -> & Hne & Hno & <- & <-). unfold stripe_item. cbn [String.append]. rewrite (indexOf_found _ _ _ Hno). destruct left as [|c left]; [done|]. cbn [String.length]. cbv zeta.
  change (S (String.length left)) with (String.length (String c left)). by rewrite (str_take_app (String c left)), (drop_after (String c left)).
Qed.

Lemma names_field_unique item name value name' value' : names_field item name value -> names_field item name' value' -> name = name' /\ value = value'.
Proof.
  intros (l & r & -> & _ & Hl & <- & <-) (l' & r' & E & _ & Hl' & <- & <-). pose proof (indexOf_found _ _ r Hl) as H1. pose proof (indexOf_found _ _ r' Hl') as H2.
  cbn [String.append] in E. rewrite E in H1. assert (Hlen : String.length l' = String.length l) by congruence.
  assert (El : l = l') by (rewrite <- (str_take_app l (String "=" r)), E, <- Hlen; apply str_take_app). subst l'. apply (f_equal (Js.drop (S (String.length l)))) in E. by rewrite !drop_after in E; subst.
Qed.

Lemma named_or_not item : (exists name value, names_field item name value) \/ forall name value, ~ names_field item name value.
Proof.
  destruct (Js.indexOf "=" item) as [[|before]|] eqn:Ei.
  - right. intros name value (left & right & -> & Hne & Hno & _). cbn [String.append] in Ei. rewrite (indexOf_found _ _ _ Hno) in Ei. by destruct left.
  - left. destruct (indexOf_split _ _ _ Ei) as (E & Hno & Hl). eexists _, _, (Js.take (S before) item), (Js.drop (S (S before)) item). split; [exact E|]. split; [|done].
    intros En. by rewrite En in Hl.
  - right. intros name value (left & right & -> & _ & Hno & _). cbn [String.append] in Ei. by rewrite (indexOf_found _ _ _ Hno) in Ei.
Qed.

Lemma stripe_item_none read item : (forall name value, ~ names_field item name value) -> stripe_item read item = read.
Proof.
  intros Hn. unfold stripe_item. destruct (Js.indexOf "=" item) as [[|before]|] eqn:Ei; [done| |done]. destruct (indexOf_split _ _ _ Ei) as (E & Hno & Hl).
  exfalso. eapply Hn. exists (Js.take (S before) item), (Js.drop (S (S before)) item). split; [exact E|]. split; [|done]. intros En. by rewrite En in Hl.
Qed.

Lemma last_timestamp_snoc items item ts : last_timestamp (items ++ [item]) ts <->
  names_field item "t" ts \/ last_timestamp items ts /\ forall value, ~ names_field item "t" value.
Proof.
  split.
  - intros (before & it & after & E & Hn & Hl). destruct after as [|x after _] using rev_ind; [apply app_inj_tail in E as [-> ->]; by left|].
    rewrite app_comm_cons, app_assoc in E. apply app_inj_tail in E as [-> ->]. apply Forall_app in Hl as [Hl Hx]. apply Forall_cons in Hx as [Hx _]. right. split; [by exists before, it, after|done].
  - intros [Hn|[(before & it & after & -> & Hn & Hl) Hx]]; [by exists items, item, []|]. exists before, it, (after ++ [item]). rewrite <- app_assoc. split; [done|]. split; [done|].
    apply Forall_app. split; [done|]. by constructor.
Qed.

(** What the loop over the items reads: the last timestamp, and every signature. *)
Lemma stripe_reads items : let got := foldl stripe_item (None, []) items in
  (forall ts, got.1 = Some ts <-> last_timestamp items ts) /\
  forall sig, sig ∈ got.2 <-> exists item encoded, item ∈ items /\ names_field item "v1" encoded /\ decode encoded Hex = Some sig.
Proof.
  cbn zeta. induction items as [|item items [H1 H2]] using rev_ind.
  { cbn. split; [intros ts; split; [done|intros (b & i & af & E & _); by destruct b]|]. intros sig. split; [by intros ?%elem_of_nil|]. by intros (? & ? & Hn%elem_of_nil & _). }
  rewrite foldl_snoc. set (got := foldl stripe_item (None, []) items) in *.
  assert (Hsnoc : forall sig, (exists it encoded, it ∈ items ++ [item] /\ names_field it "v1" encoded /\ decode encoded Hex = Some sig) <->
    sig ∈ got.2 \/ exists encoded, names_field item "v1" encoded /\ decode encoded Hex = Some sig).
  { intros sig. rewrite H2. setoid_rewrite elem_of_app. setoid_rewrite list_elem_of_singleton. naive_solver. }
  destruct (named_or_not item) as [(name & value & Hn)|Hn].
  - rewrite (stripe_item_named _ _ _ _ Hn). assert (Hu : forall name' value', names_field item name' value' -> name = name' /\ value = value') by (intros ? ?; by apply names_field_unique).
    split; [intros ts; rewrite last_timestamp_snoc|intros sig; rewrite Hsnoc]; destruct (String.eqb_spec name "t") as [->|Ht]; try destruct (String.eqb_spec name "v1") as [->|Hv]; cbn [fst snd].
    + split; [intros [= <-]; by left|]. intros [Hts|[_ Hno]]; [by destruct (Hu _ _ Hts) as [_ ->]|by destruct (Hno value)].
    + rewrite H1. split; [intros Hl; right; split; [done|]; by intros v [? _]%Hu|]. intros [[? _]%Hu|[? _]]; done.
    + rewrite H1. split; [intros Hl; right; split; [done|]; by intros v [? _]%Hu|]. intros [[? _]%Hu|[? _]]; done.
    + split; [by left|]. intros [?|(e & [? _]%Hu & _)]; done.
    + rewrite elem_of_app. split.
      * intros [?|Hs]; [by left|right]. exists value. split; [done|]. destruct (decode value Hex); [by apply list_elem_of_singleton in Hs as ->|by apply elem_of_nil in Hs].
      * intros [?|(e & [_ <-]%Hu & Hd)]; [by left|right]. rewrite Hd. by left.
    + split; [by left|]. intros [?|(e & [? _]%Hu & _)]; done.
  - rewrite (stripe_item_none _ _ Hn). split; [intros ts; rewrite last_timestamp_snoc, H1; naive_solver|intros sig; rewrite Hsnoc; naive_solver].
Qed.

Lemma verifyStripe_exact header key body now : verifyStripe header key body now = true <->
  exists text timestamp signature encoded, header = Some text /\ last_timestamp (Js.split "," text) timestamp /\ in_time timestamp now /\ key <> [] /\
    signature ∈ Js.split "," text /\ names_field signature "v1" encoded /\ reads_hex encoded (hmac Sha256 key (utf8 (timestamp +:+ ".") ++ body)).
Proof.
  unfold verifyStripe. destruct header as [text|]; [|naive_solver]. destruct (stripe_reads (Js.split "," text)) as [Ht Hs]. destruct (foldl stripe_item (None, []) (Js.split "," text)) as [ts sigs]. cbn in Ht, Hs. split.
  - destruct ts as [timestamp|]; [|done]. destruct (fresh timestamp now) eqn:Ef; [|done]. apply fresh_spec in Ef. intros [Hk (item & encoded & Hin & Hn & Hd)%Hs]%hmacVerifies_spec.
    exists text, timestamp, item, encoded. split_and!; try done; try apply Ef; [by apply Ht|by apply decode_hex].
  - intros (? & timestamp & item & encoded & [= <-] & Hl & Hf & Hk & Hin & Hn & Hd). apply Ht in Hl as ->. rewrite (proj2 (fresh_spec _ _) Hf). apply hmacVerifies_spec. split; [done|].
    apply Hs. exists item, encoded. split_and!; try done. by apply decode_hex.
Qed.

Lemma difference_zero l l' : length l = length l' -> difference l l' = 0 <-> l = l'.
Proof.
  revert l'. induction l as [|b l IH]; intros [|b' l']; try done. intros [= Hl]. cbn [difference hd tl]. rewrite Z.lor_eq_0_iff, Z.lxor_eq_0_iff, IH by done. naive_solver.
Qed.

(** *** Twilio's content *)

Lemma string_compare_self s : String.compare s s = Eq.
Proof. pose proof (String.compare_antisym s s). by destruct (String.compare s s). Qed.

Lemma parameter_le_before a b : parameter_le a b = true <-> parameter_before a b.
Proof.
  unfold parameter_le, parameter_before, code_unit_le, String.ltb. destruct (String.eqb_spec a.1 b.1) as [E|Hne].
  - rewrite (String.compare_antisym b.2 a.2). destruct (String.compare a.2 b.2) eqn:Ec; cbn; split; intros Hx; try done; try (by right); by destruct Hx as [Hx|[_ Hx]]; [rewrite E, string_compare_self in Hx|].
  - rewrite (String.compare_antisym b.1 a.1). destruct (String.compare a.1 b.1) eqn:Ec; cbn; split; intros Hx; try done; try (by left); try (by destruct Hx as [?|[? _]]).
    all: by apply String.compare_eq_iff in Ec.
Qed.

Lemma parameter_le_total a b : parameter_le a b = true \/ parameter_le b a = true.
Proof.
  unfold parameter_le. rewrite (String.eqb_sym b.1). destruct (a.1 =? b.1)%string; apply code_unit_le_total.
Qed.

Lemma parameter_le_antisym a b : parameter_le a b = true -> parameter_le b a = true -> a = b.
Proof.
  unfold parameter_le. rewrite (String.eqb_sym b.1). destruct a as [n v], b as [n' v']. cbn. destruct (String.eqb_spec n n') as [->|Hne].
  - intros H1 H2. by rewrite (code_unit_le_antisym v v').
  - intros H1 H2. by destruct Hne; apply code_unit_le_antisym.
Qed.

Lemma parameter_le_trans a b c : parameter_le a b = true -> parameter_le b c = true -> parameter_le a c = true.
Proof.
  unfold parameter_le. destruct a as [n v], b as [n' v'], c as [n'' v'']. cbn.
  destruct (String.eqb_spec n n') as [->|Hab], (String.eqb_spec n' n'') as [->|Hbc]; intros H1 H2.
  - by eapply code_unit_le_trans.
  - done.
  - by rewrite (proj2 (String.eqb_neq _ _) Hab).
  - destruct (String.eqb_spec n n'') as [->|_]; [|by eapply code_unit_le_trans]. by destruct Hab; apply code_unit_le_antisym.
Qed.

Lemma sorted_parameters l l' : l' ≡ₚ l /\ StronglySorted parameter_before l' <-> l' = sort_by parameter_le l.
Proof.
  assert (Heq : forall l, StronglySorted parameter_before l <-> StronglySorted (fun a b => parameter_le a b = true) l).
  { intros l0. split; intros Hs; induction Hs as [|x l0 Hs IH Hx]; constructor; try done; eapply List.Forall_impl; try exact Hx; intros y; apply parameter_le_before. }
  rewrite Heq. split.
  - intros [Hp Hs]. apply (sorted_permutation parameter_le); [intros ? ? _ _; apply parameter_le_antisym|by rewrite sort_by_Permutation|done|].
    apply sort_by_sorted; [apply parameter_le_total|apply parameter_le_trans].
  - intros ->. split; [apply sort_by_Permutation|]. apply sort_by_sorted; [apply parameter_le_total|apply parameter_le_trans].
Qed.

Lemma media_type_form header : media_type header = Some FORM_URLENCODED_TYPE <-> is_form header.
Proof.
  unfold media_type, is_form. change FORM_URLENCODED_TYPE with "application/x-www-form-urlencoded". destruct header as [value|]; cbn [fmap option_fmap option_map]; [|split; [done|by intros (? & ? & [?|?] & _)]].
  assert (Hsplit : exists head rest, (value = head \/ value = head +:+ ";" +:+ rest) /\ holds_no ";" head /\ nth 0 (Js.split ";" value) "" = head).
  { destruct (Js.indexOf ";" value) as [n|] eqn:Ei.
    - destruct (indexOf_split _ _ _ Ei) as (E & Hno & _). exists (Js.take n value), (Js.drop (S n) value). split; [right; exact E|]. split; [done|]. rewrite E at 1. by rewrite split_prefix.
    - assert (Hno : holds_no ";" value).
      { clear -Ei. unfold holds_no. induction value as [|c value IH]; [done|]. cbn [Js.indexOf Js.forall_units] in *. destruct (Ascii.eqb_spec ";" c) as [|Hne]; [done|].
        destruct (Js.indexOf ";" value); [done|]. rewrite IH by done. by destruct (Ascii.eqb_spec c ";") as [->|]. }
      exists value, "". split; [by left|]. split; [done|]. by rewrite split_word. }
  destruct Hsplit as (head & rest & Hv & Hno & ->). split.
  - intros [= E]. exists head, rest. split; [destruct Hv as [->| ->]; [by left|by right]|done].
  - intros (head' & rest' & Hv' & Hno' & E). enough (head = head') as -> by by rewrite E.
    assert (Hu : forall h r v, v = h \/ v = h +:+ ";" +:+ r -> holds_no ";" h -> nth 0 (Js.split ";" v) "" = h).
    { intros h r v [->| ->] Hh; [by rewrite split_word|]. cbn [String.append]. by rewrite split_prefix. }
    rewrite <- (Hu head rest value Hv Hno). apply (Hu head' rest'); [|done]. destruct Hv' as [[= E']|[= E']]; [by left|by right].
Qed.

Lemma lookup_first {A} key (l : list (string * A)) value : lookup_field key l = Some value <-> exists before after, l = before ++ (key, value) :: after /\ key ∉ map fst before.
Proof.
  induction l as [|[k v] l IH]; cbn [lookup_field]; [split; [done|by intros ([] & ? & ? & _)]|]. destruct (String.eqb_spec key k) as [->|Hne].
  - split; [intros [= ->]; exists [], l; split; [done|apply not_elem_of_nil]|]. intros ([|[k' v'] before] & after & E & Hno); [by injection E as ->|].
    injection E as -> -> _. destruct Hno. by left.
  - rewrite IH. split.
    + intros (before & after & -> & Hno). exists ((k, v) :: before), after. split; [done|]. cbn. by intros [?|?]%elem_of_cons.
    + intros ([|[k' v'] before] & after & E & Hno); [by injection E|]. injection E as -> -> ->. exists before, after. split; [done|]. intros Hin. apply Hno. by right.
Qed.

(** What SHA-256 documents: 32 bytes, whatever the text. *)
Class DeliveryCryptoLaws := { sha256_length bytes : length (sha256 bytes) = 32%nat; sha256_bytes bytes : Forall is_byte (sha256 bytes) }.

Context `{!DeliveryCryptoLaws}.

Lemma hex_of_spelled bytes : Forall is_byte bytes -> hex_of bytes = spelled bytes.
Proof.
  intros Hb. unfold hex_of, Js.join. assert (Hpair : forall byte rest, is_byte byte -> hex_pair byte +:+ rest = String (hex_unit (byte / 16)) (String (hex_unit (byte mod 16)) rest)).
  { intros byte rest Hbyte. assert (Hall : forallb (fun n => (hex_pair n =? String (hex_unit (n / 16)) (String (hex_unit (n mod 16)) ""))%string) (map Z.of_nat (seq 0 256)) = true) by by vm_compute.
    rewrite forallb_forall in Hall. assert (Hin : List.In byte (map Z.of_nat (seq 0 256))) by (apply in_map_iff; exists (Z.to_nat byte); rewrite in_seq; unfold is_byte in Hbyte; lia).
    apply Hall, String.eqb_eq in Hin. by rewrite Hin. }
  induction Hb as [|byte bytes Hbyte Hb IH]; [done|]. cbn [map spelled]. rewrite <- IH, <- Hpair by done. destruct bytes; [by cbn; rewrite str_app_nil_r|done].
Qed.

Lemma claims_hash claimed body : (Js.toLowerCase claimed =? hex_of (sha256 body))%string = true <-> reads_hex claimed (sha256 body).
Proof.
  rewrite String.eqb_eq, hex_of_spelled by apply sha256_bytes. unfold reads_hex. split; [|tauto]. intros E. split; [|split; [apply sha256_bytes|done]].
  intros Hn. pose proof (sha256_length body) as Hl. by rewrite Hn in Hl.
Qed.

Lemma twilioSigned_exact delivery content : twilioSigned delivery = Some content <-> twilio_signs delivery content.
Proof.
  unfold twilioSigned, twilio_signs. destruct (d_url delivery) as [url|]; [|naive_solver]. case_bool_decide as Hm.
  - apply media_type_form in Hm. split.
    + destruct (utf8_text (d_body delivery)) as [text|]; [|done]. intros [= <-]. exists url. split; [done|]. left. split; [done|].
      exists text, (sort_by parameter_le (form_parameters text)). destruct (proj2 (sorted_parameters (form_parameters text) _) eq_refl). done.
    + intros (? & [= <-] & [(_ & text & parameters & -> & Hp & Hs & ->)|[? _]]); [|done]. cbn. by rewrite (proj1 (sorted_parameters _ _) (conj Hp Hs)).
  - assert (Hn : ~ is_form (d_headers delivery "Content-Type")) by (intros ?%media_type_form; done). split.
    + destruct (url_parameters url) as [parameters|] eqn:Eu; [|done]. destruct (lookup_field "bodySHA256" parameters) as [claimed|] eqn:El; [|done].
      destruct (_ =? _)%string eqn:Ec; [|done]. intros [= <-]. apply claims_hash in Ec. apply lookup_first in El as (before & after & E & Hno).
      exists url. split; [done|]. right. split; [done|]. split; [done|]. by exists parameters, before, claimed, after.
    + intros (? & [= <-] & [[? _]|(_ & -> & parameters & before & claimed & after & -> & E & Hno & Hc)]); [done|].
      rewrite (proj2 (lookup_first _ _ claimed) (ex_intro _ before (ex_intro _ after (conj E Hno)))). by rewrite (proj2 (claims_hash _ _) Hc).
Qed.

Lemma verifyTwilio_exact delivery key : verifyTwilio delivery key = true <->
  exists header content, d_headers delivery "X-Twilio-Signature" = Some header /\ twilio_signs delivery content /\ key <> [] /\
    base64_text header /\ base64_bytes header = hmac Sha1 key (utf8 content).
Proof.
  setoid_rewrite <- twilioSigned_exact. unfold verifyTwilio. destruct (d_headers delivery "X-Twilio-Signature") as [header|]; cbn [mbind option_bind]; [|naive_solver]. split.
  - destruct (decode header Base64) as [signature|] eqn:Ed; [|done]. apply decode_base64 in Ed as [Ht ->]. destruct (twilioSigned delivery) as [content|]; [|done]. intros [Hk Hs]%hmacVerifies_spec.
    apply list_elem_of_singleton in Hs. by exists header, content.
  - intros (h & content & [= <-] & -> & Hk & Ht & Hs). rewrite (proj2 (decode_base64 header (base64_bytes header)) (conj Ht eq_refl)). apply hmacVerifies_spec. split; [done|]. rewrite Hs. by left.
Qed.

(** *** Passwords and tokens *)

Lemma after_scheme_exact scheme authorization credential : (forall written, Js.toLowerCase written = scheme -> String.length written = String.length scheme) ->
  after_scheme scheme authorization = Some credential <-> presents scheme (Some authorization) credential.
Proof.
  intros Hlen. unfold after_scheme, presents. cbv zeta. split.
  - destruct (_ && _) eqn:Ea; [|done]. apply andb_true_iff in Ea as [El%String.eqb_eq Es%starts_drop]. intros [= <-]. exists (Js.take (String.length scheme) authorization). split; [|done]. f_equal.
    rewrite <- (take_drop_str (String.length scheme) authorization) at 1. f_equal. rewrite Es. f_equal. clear. change (String.length " ") with 1%nat. revert authorization.
    induction (String.length scheme) as [|n IH]; intros [|c authorization]; try done. exact (IH authorization).
  - intros (written & [= ->] & Hw). rewrite <- (Hlen written Hw). rewrite str_take_app, Hw, String.eqb_refl, drop_app. cbn [andb]. replace (Js.startsWith _ _) with true by (by destruct credential). f_equal. apply (drop_after written " " credential).
Qed.

Lemma lower_length s : String.length (Js.toLowerCase s) = String.length s.
Proof. induction s as [|c s IH]; [done|]. cbn. by rewrite IH. Qed.

Lemma scheme_length scheme written : Js.toLowerCase written = scheme -> String.length written = String.length scheme.
Proof. intros <-. by rewrite lower_length. Qed.

Lemma sameText_exact given expected : sameText given expected = true <-> exists text, given = Some text /\ expected <> "" /\ sha256 (utf8 text) = sha256 (utf8 expected).
Proof.
  unfold sameText. destruct given as [given|]; [|naive_solver]. destruct (String.eqb_spec expected "") as [->|Hne]; [naive_solver|].
  rewrite Z.eqb_eq, difference_zero by by rewrite !sha256_length. naive_solver.
Qed.

Lemma bearerToken_exact authorization token : bearerToken authorization = Some token <->
  presents "bearer" authorization token /\ token <> "" /\ Js.forall_units (fun c => negb (Js.is_space c)) token = true.
Proof.
  unfold bearerToken. destruct authorization as [authorization|]; cbn [mbind option_bind]; [|split; [done|by intros [(? & ? & _) _]]].
  rewrite <- after_scheme_exact by apply scheme_length. destruct (after_scheme "bearer" authorization) as [found|]; cbn [mbind option_bind]; [|naive_solver].
  destruct (String.eqb_spec found "") as [->|Hne]; cbn [negb andb]; [naive_solver|]. destruct (Js.forall_units _ found) eqn:Ef; split; try done.
  - by intros [= <-].
  - by intros [[= ->] _].
  - intros ([= ->] & _ & Ht). congruence.
Qed.

Lemma padded_base64 encoded : base64_text encoded -> match encoded with String c _ => is_base64_unit c | EmptyString => false end && padded_units encoded = true.
Proof.
  intros (units & padding & -> & Hu & Hal & Hp & _). assert (Hp' : padding = "" \/ padding = "=" \/ padding = "==") by (rewrite !elem_of_cons, elem_of_nil in Hp; tauto). apply andb_true_iff. split.
  - destruct units as [|c units]; [done|]. cbn in *. apply andb_true_iff in Hal as [Hal _]. by rewrite in_alphabet_spec in Hal.
  - clear Hu. induction units as [|c units IH]; [by destruct Hp' as [->|[->| ->]]|]. cbn in *. apply andb_true_iff in Hal as [Hc Hal]. rewrite in_alphabet_spec in Hc. rewrite Hc. by apply IH.
Qed.

Lemma basicPassword_exact authorization password : basicPassword authorization = Some password <->
  exists credential user, presents "basic" authorization credential /\ base64_text credential /\
    utf8_text (base64_bytes credential) = Some (user +:+ ":" +:+ password) /\ holds_no ":" user.
Proof.
  unfold basicPassword. destruct authorization as [authorization|]; cbn [mbind option_bind]; [|split; [done|by intros (? & ? & (? & ? & _) & _)]].
  setoid_rewrite <- after_scheme_exact; [|apply scheme_length]. destruct (after_scheme "basic" authorization) as [encoded|]; cbn [mbind option_bind]; [|naive_solver]. split.
  - destruct (_ && _); [|done]. destruct (decode encoded Base64) as [bytes|] eqn:Ed; [|done]. apply decode_base64 in Ed as [Ht ->]. cbn. destruct (utf8_text _) as [text|] eqn:Eu; [|done]. cbn.
    destruct (Js.indexOf ":" text) as [n|] eqn:Ei; [|done]. cbn. intros [= <-]. destruct (indexOf_split _ _ _ Ei) as (E & Hno & _). exists encoded, (Js.take n text).
    split; [done|]. split; [done|]. split; [|done]. rewrite Eu. f_equal. exact E.
  - intros (credential & user & [= <-] & Ht & Hu & Hno). rewrite (padded_base64 _ Ht), (proj2 (decode_base64 encoded _) (conj Ht eq_refl)). cbn [mbind option_bind]. rewrite Hu.
    cbn [mbind option_bind String.append]. rewrite (indexOf_found _ _ _ Hno). cbn [mbind option_bind]. f_equal. apply (drop_after user ":" password).
Qed.

(** C16. A delivery passes exactly when it is authentic under its binding's secret: for every HMAC scheme, the signature its headers
    present is the HMAC, by the scheme's algorithm and the secret's key, which is not empty, of the whole raw body behind the id
    and the timestamp the scheme signs, and a signed timestamp lies within five minutes of the clock; of Stripe's header, one of
    the items named [v1], under the last item named [t]; for Twilio, of the public URL with the form's parameters in their order,
    or of a URL that names the hash of the body; and a password or token whose digest is the secret's. A missing header, another
    encoding, an empty secret or a stale timestamp never passes. *)
Theorem verifyDelivery_exact scheme delivery secret now : verifyDelivery scheme delivery secret now = true <-> authentic scheme delivery secret now.
Proof.
  unfold verifyDelivery, authentic. destruct scheme as [| | | | |s| |].
  - apply verifyGithub_exact.
  - apply verifySlack_exact.
  - apply verifyStandard_exact.
  - apply verifyStripe_exact.
  - apply verifyTwilio_exact.
  - apply verifyHmac_exact.
  - rewrite sameText_exact. setoid_rewrite basicPassword_exact. naive_solver.
  - rewrite sameText_exact. setoid_rewrite bearerToken_exact. naive_solver.
Qed.

End Authentic.

(** ** An example *)

Module Demo.

Definition digest (bytes : Bytes) : Bytes :=
  let w := sha256Words bytes in be32 (wa w) ++ be32 (wb w) ++ be32 (wc w) ++ be32 (wd w) ++ be32 (we w) ++ be32 (wf w) ++ be32 (wg w) ++ be32 (wh w).

#[export] Instance crypto : DeliveryCrypto := {|
  hmac _ key content := digest (key ++ content);
  sha256 := digest;
  utf8_text _ := None;
  base64_bytes _ := [];
  form_parameters _ := [];
  url_parameters _ := None;
|}.

#[export] Instance crypto_laws : DeliveryCryptoLaws.
Proof.
  split; [done|]. intros bytes. cbn [sha256 crypto]. unfold digest, be32. rewrite !Forall_app. split_and!; repeat constructor; unfold is_byte; try (apply Z.mod_pos_bound; lia).
Qed.

Definition body : Bytes := utf8 "{id:1}".

Definition delivery : SignedDelivery :=
  mkDelivery (fun name => if (name =? "X-Hub-Signature-256")%string then Some ("sha256=" +:+ hex_of (digest (utf8 "secret" ++ body))) else None) body None.

End Demo.

Lemma verifyDelivery_exact_witness :
  verifyDelivery (H := Demo.crypto) SchemeGithub Demo.delivery "secret" 0 = true /\ authentic (H := Demo.crypto) SchemeGithub Demo.delivery "secret" 0 /\
  verifyDelivery (H := Demo.crypto) SchemeGithub Demo.delivery "other" 0 = false.
Proof.
  assert (Hv : verifyDelivery (H := Demo.crypto) SchemeGithub Demo.delivery "secret" 0 = true) by (by vm_compute).
  split; [exact Hv|]. split; [|by vm_compute]. apply (verifyDelivery_exact (H := Demo.crypto) (H0 := Demo.crypto_laws) SchemeGithub Demo.delivery "secret" 0). exact Hv.
Defined.
