(* ===== verification/FrameworkTables.v ===== *)
(** The framework's own tables of an application: webhook bindings and the deliveries claimed under them
    ([db/src/framework-tables.ts]), and the buckets, challenges and byte budgets of admission ([db/src/admissions.ts]).

    A statement is one atomic step on its table, with the clock it reads: on Postgres the time its transaction began, which may
    be before that of a statement that took effect first, so the clocks of a sequence of steps need not be in order. A prune
    removes any part of what has expired (the statement removes a bounded batch and skips locked rows), so an operation
    carries which rows its prune met. *)

From S2P Require Import Prelude.
From Stdlib Require Import ZArith Lia String Ascii Sorted.
From stdpp Require Import base tactics strings gmap list.

Open Scope Z_scope.

(** ** Webhooks *)

Record WebhookBinding := mkBinding { b_webhook : string; b_scope : string * string; b_account : string; b_secret : string; b_createdBy : string; b_createdAt : Z }.

(** A delivery's row: when it was claimed, and its lease; [None] is a completed delivery. *)
Record DeliveryRow := mkDeliveryRow { received_at : Z; lease_until : option Z }.

(** Bindings by id, deliveries by binding and key. *)
Record WebhookTables := mkTables { bindings : gmap string WebhookBinding; deliveries : gmap (string * string) DeliveryRow }.

Record DeliveryClaim := mkClaim { c_binding : string; c_key : string; c_leaseUntil : Z }.

Definition no_webhooks : WebhookTables := mkTables ∅ ∅.

(** [createBinding]; [None] is the primary key's violation. *)
Definition createBinding (id : string) (binding : WebhookBinding) (t : WebhookTables) : option WebhookTables :=
  match bindings t !! id with Some _ => None | None => Some (mkTables (<[id := binding]> (bindings t)) (deliveries t)) end.

(** [binding] *)
Definition find_binding (webhook id : string) (t : WebhookTables) : option WebhookBinding :=
  binding ← bindings t !! id; if (b_webhook binding =? webhook)%string then Some binding else None.

(** The binding [id] of [webhook], only when it reaches [scope]. *)
Definition bindingOf (webhook id : string) (scope : string * string) (t : WebhookTables) : option WebhookBinding :=
  binding ← find_binding webhook id t; if bool_decide (b_scope binding = scope) then Some binding else None.

Definition replaceSecret (webhook id : string) (scope : string * string) (secret : string) (t : WebhookTables) : bool * WebhookTables :=
  match bindingOf webhook id scope t with
  | None => (false, t)
  | Some b => (true, mkTables (<[id := mkBinding (b_webhook b) (b_scope b) (b_account b) secret (b_createdBy b) (b_createdAt b)]> (bindings t)) (deliveries t))
  end.

(** [removeBinding], with its deliveries ([ON DELETE CASCADE]). *)
Definition removeBinding (webhook id : string) (scope : string * string) (t : WebhookTables) : bool * WebhookTables :=
  match bindingOf webhook id scope t with
  | None => (false, t)
  | Some _ => (true, mkTables (delete id (bindings t)) (filter (fun '((b, _), _) => b <> id) (deliveries t)))
  end.

(** The first statement of [claimDelivery]. *)
Definition drop_expired (id : string) (retainedSince : Z) (t : WebhookTables) : WebhookTables :=
  mkTables (bindings t) (filter (fun '((b, _), row) => ~ (b = id /\ received_at row < retainedSince)) (deliveries t)).

(** Its second statement, [SQL_CLAIM]: a new key, or one whose lease expired; without the binding the foreign key refuses. *)
Definition claimDelivery (id key : string) (now leaseMs : Z) (t : WebhookTables) : unit + option DeliveryClaim * WebhookTables :=
  match bindings t !! id with
  | None => inl tt
  | Some _ =>
      let claimed := mkTables (bindings t) (<[(id, key) := mkDeliveryRow now (Some (now + leaseMs))]> (deliveries t)) in
      match deliveries t !! (id, key) with
      | None => inr (Some (mkClaim id key (now + leaseMs)), claimed)
      | Some (mkDeliveryRow _ (Some lease)) => if lease <? now then inr (Some (mkClaim id key (now + leaseMs)), claimed) else inr (None, t)
      | Some (mkDeliveryRow _ None) => inr (None, t)
      end
  end.

Definition holds_claim (claim : DeliveryClaim) (t : WebhookTables) : option DeliveryRow :=
  row ← deliveries t !! (c_binding claim, c_key claim); if bool_decide (lease_until row = Some (c_leaseUntil claim)) then Some row else None.

(** [SQL_COMPLETE] *)
Definition completeDelivery (claim : DeliveryClaim) (t : WebhookTables) : bool * WebhookTables :=
  match holds_claim claim t with
  | None => (false, t)
  | Some row => (true, mkTables (bindings t) (<[(c_binding claim, c_key claim) := mkDeliveryRow (received_at row) None]> (deliveries t)))
  end.

(** [SQL_RELEASE] *)
Definition releaseDelivery (claim : DeliveryClaim) (t : WebhookTables) : WebhookTables :=
  match holds_claim claim t with None => t | Some _ => mkTables (bindings t) (delete (c_binding claim, c_key claim) (deliveries t)) end.

(** What any number of deliveries and procedures do, statement by statement. *)
Inductive WebhookOp :=
| OpCreate (id : string) (binding : WebhookBinding)
| OpReplace (webhook id : string) (scope : string * string) (secret : string)
| OpRemove (webhook id : string) (scope : string * string)
| OpDrop (id : string) (retainedSince : Z)
| OpClaim (id key : string) (now leaseMs : Z)
| OpComplete (claim : DeliveryClaim)
| OpRelease (claim : DeliveryClaim).

Definition webhook_step (t : WebhookTables) (op : WebhookOp) : WebhookTables :=
  match op with
  | OpCreate id binding => default t (createBinding id binding t)
  | OpReplace webhook id scope secret => (replaceSecret webhook id scope secret t).2
  | OpRemove webhook id scope => (removeBinding webhook id scope t).2
  | OpDrop id since => drop_expired id since t
  | OpClaim id key now leaseMs => match claimDelivery id key now leaseMs t with inr (_, t') => t' | inl _ => t end
  | OpComplete claim => (completeDelivery claim t).2
  | OpRelease claim => releaseDelivery claim t
  end.

(** ** Admission *)

Definition MINUTE_MS : Z := 60000.
Definition HOUR_MS : Z := 3600000.

(** Counters by endpoint, bucket and window; the windows of the byte budgets are hours. *)
Notation Buckets := (gmap (string * string * Z) Z).
Notation ByteBudgets := (gmap (string * Z) Z).
(** The end of each recorded challenge, by endpoint and digest. *)
Notation Challenges := (gmap (string * string) Z).

(** [positiveInteger] *)
Definition positiveInteger (value : Z) : bool := isSafeInteger value && (1 <=? value).

(** [take], by the clock [now] that the statement reads; [met] are the rows its prune met, always of other windows than the one
    it counts in, so prune and count may commit as one. *)
Definition take_bucket (endpoint bucket : string) (limit now : Z) (met : string * string * Z -> bool) (t : Buckets) : bool * Buckets :=
  let window := now / MINUTE_MS in
  let t := filter (fun '((e, b, w), _) => ~ (w < window /\ met (e, b, w) = true)) t in
  match t !! (endpoint, bucket, window) with
  | None => (true, <[(endpoint, bucket, window) := 1]> t)
  | Some count => if count <? limit then (true, <[(endpoint, bucket, window) := count + 1]> t) else (false, t)
  end.

Definition reserve_bytes (endpoint : string) (bytes limit now : Z) (met : string * Z -> bool) (t : ByteBudgets) : bool * ByteBudgets :=
  let window := now / HOUR_MS in
  let t := filter (fun '((e, w), _) => ~ (w < window /\ met (e, w) = true)) t in
  if negb (bytes <=? limit) then (false, t)
  else match t !! (endpoint, window) with
       | None => (true, <[(endpoint, window) := bytes]> t)
       | Some held => if held + bytes <=? limit then (true, <[(endpoint, window) := held + bytes]> t) else (false, t)
       end.

Definition release_bytes (endpoint : string) (bytes now : Z) (t : ByteBudgets) : ByteBudgets :=
  if bytes <=? 0 then t
  else match t !! (endpoint, now / HOUR_MS) with Some held => <[(endpoint, now / HOUR_MS) := Z.max (held - bytes) 0]> t | None => t end.

(** [recordChallenge]: the prune never takes the statement's own row. *)
Definition record_challenge (endpoint digest : string) (retainMs now : Z) (met : string * string -> bool) (t : Challenges) : bool * Challenges :=
  let t := filter (fun '(key, expires) => ~ (expires <= now /\ key <> (endpoint, digest) /\ met key = true)) t in
  match t !! (endpoint, digest) with
  | None => (true, <[(endpoint, digest) := now + retainMs]> t)
  | Some expires => if expires <=? now then (true, <[(endpoint, digest) := now + retainMs]> t) else (false, t)
  end.

(** ** A delivery commits once *)

(** What ends the memory of a completed delivery: its binding is removed, or deliveries received after it are no longer kept. *)
Definition forgets (id : string) (received : Z) (op : WebhookOp) : Prop :=
  match op with
  | OpRemove _ id' _ => id' = id
  | OpDrop id' since => id' = id /\ received < since
  | _ => False
  end.

Lemma holds_claim_some claim t row : holds_claim claim t = Some row ->
  deliveries t !! (c_binding claim, c_key claim) = Some row /\ lease_until row = Some (c_leaseUntil claim).
Proof. unfold holds_claim. intros (r & Hr & He)%bind_Some. case_bool_decide; [|done]. by injection He as ->. Qed.

(** A completed delivery stays completed. *)
Lemma completed_stays id key received t op : deliveries t !! (id, key) = Some (mkDeliveryRow received None) -> ~ forgets id received op ->
  deliveries (webhook_step t op) !! (id, key) = Some (mkDeliveryRow received None).
Proof.
  intros Hd Hn. destruct op as [i b|w i s x|w i s|i since|i k now lease|claim|claim]; cbn [webhook_step forgets] in *.
  - unfold createBinding. by destruct (bindings t !! i).
  - unfold replaceSecret. by destruct (bindingOf w i s t).
  - unfold removeBinding. destruct (bindingOf w i s t); [|done]. cbn. apply map_lookup_filter_Some. split; [done|]. congruence.
  - cbn. apply map_lookup_filter_Some. split; [done|]. cbn. naive_solver.
  - unfold claimDelivery. destruct (bindings t !! i); [|done]. destruct (decide ((i, k) = (id, key))) as [[= -> ->]|Hne]; [by rewrite Hd|].
    destruct (deliveries t !! (i, k)) as [[r [l|]]|]; try done; [destruct (l <? now); [|done]|]; cbn; by rewrite lookup_insert_ne.
  - unfold completeDelivery. destruct (holds_claim claim t) as [row|] eqn:Eh; [|done]. apply holds_claim_some in Eh as [Hr Hl]. cbn.
    rewrite lookup_insert_ne; [done|]. intros He. rewrite He, Hd in Hr. by injection Hr as <-.
  - unfold releaseDelivery. destruct (holds_claim claim t) as [row|] eqn:Eh; [|done]. apply holds_claim_some in Eh as [Hr Hl]. cbn.
    rewrite lookup_delete_ne; [done|]. intros He. rewrite He, Hd in Hr. by injection Hr as <-.
Qed.

Lemma completed_for_good t claim t1 ops : completeDelivery claim t = (true, t1) ->
  exists received, deliveries t !! (c_binding claim, c_key claim) = Some (mkDeliveryRow received (Some (c_leaseUntil claim))) /\
    (Forall (fun op => ~ forgets (c_binding claim) received op) ops ->
     (forall claim', c_binding claim' = c_binding claim -> c_key claim' = c_key claim -> (completeDelivery claim' (foldl webhook_step t1 ops)).1 = false) /\
     (forall now leaseMs claim' t', claimDelivery (c_binding claim) (c_key claim) now leaseMs (foldl webhook_step t1 ops) <> inr (Some claim', t'))).
Proof.
  unfold completeDelivery at 1. destruct (holds_claim claim t) as [[received lease]|] eqn:Eh; [|done]. intros [= <-]. apply holds_claim_some in Eh as [Hr Hl]. cbn in Hl. subst lease.
  exists received. split; [done|]. intros Hops.
  match goal with |- context [foldl webhook_step ?t0 ops] => assert (Hd : deliveries t0 !! (c_binding claim, c_key claim) = Some (mkDeliveryRow received None)) by (apply lookup_insert_eq); generalize dependent t0 end.
  induction Hops as [|op ops Hop Hops IH]; intros t0 Hd; cbn [foldl].
  - split.
    + intros claim' Hb Hk. unfold completeDelivery, holds_claim. rewrite Hb, Hk, Hd. done.
    + intros now leaseMs claim' t'. unfold claimDelivery. destruct (bindings t0 !! _); [|done]. by rewrite Hd.
  - apply IH. by apply completed_stays.
Qed.

(** The row of [claim] is not, or no longer, under its lease. *)
Definition lease_gone (claim : DeliveryClaim) (t : WebhookTables) : Prop := holds_claim claim t = None.

(** No copy is given a lease on the delivery that ends at the same instant as [claim]'s. *)
Definition leases_apart (claim : DeliveryClaim) (op : WebhookOp) : Prop :=
  match op with OpClaim id key now leaseMs => id = c_binding claim -> key = c_key claim -> now + leaseMs <> c_leaseUntil claim | _ => True end.

Lemma lease_gone_iff claim t : lease_gone claim t <-> forall received, deliveries t !! (c_binding claim, c_key claim) <> Some (mkDeliveryRow received (Some (c_leaseUntil claim))).
Proof.
  unfold lease_gone, holds_claim. destruct (deliveries t !! _) as [[received lease]|]; cbn; [|naive_solver]. case_bool_decide; split; try done; intros Hn; [by destruct (Hn received); subst|].
  intros received' [= <- ->]. done.
Qed.

Lemma lease_gone_stays claim t op : leases_apart claim op -> lease_gone claim t -> lease_gone claim (webhook_step t op).
Proof.
  rewrite !lease_gone_iff. intros Ha Hg received Hd. destruct op as [i b|w i s x|w i s|i since|i k now lease|claim'|claim']; cbn [webhook_step leases_apart] in *.
  - unfold createBinding in Hd. destruct (bindings t !! i); by eapply Hg.
  - unfold replaceSecret in Hd. destruct (bindingOf w i s t); by eapply Hg.
  - unfold removeBinding in Hd. destruct (bindingOf w i s t); [|by eapply Hg]. cbn in Hd. apply map_lookup_filter_Some in Hd as [Hd _]. by eapply Hg.
  - cbn in Hd. apply map_lookup_filter_Some in Hd as [Hd _]. by eapply Hg.
  - unfold claimDelivery in Hd. destruct (bindings t !! i); [|by eapply Hg].
    assert (Hnew : forall row, <[(i, k) := mkDeliveryRow now (Some (now + lease))]> (deliveries t) !! (c_binding claim, c_key claim) = Some row ->
      row <> mkDeliveryRow received (Some (c_leaseUntil claim))).
    { intros row Hrow ->. destruct (decide ((i, k) = (c_binding claim, c_key claim))) as [[= -> ->]|Hne]; [|rewrite lookup_insert_ne in Hrow by done; by eapply Hg].
      rewrite lookup_insert_eq in Hrow. injection Hrow as <- He. by apply Ha. }
    destruct (deliveries t !! (i, k)) as [[r [l|]]|]; try (by eapply Hg); [destruct (l <? now); [|by eapply Hg]|]; by eapply Hnew.
  - unfold completeDelivery in Hd. destruct (holds_claim claim' t) as [row|]; [|by eapply Hg]. cbn in Hd.
    destruct (decide ((c_binding claim', c_key claim') = (c_binding claim, c_key claim))) as [He|Hne]; [by rewrite He, lookup_insert_eq in Hd|].
    rewrite lookup_insert_ne in Hd by done. by eapply Hg.
  - unfold releaseDelivery in Hd. destruct (holds_claim claim' t) as [row|]; [|by eapply Hg]. cbn in Hd. apply lookup_delete_Some in Hd as [_ Hd]. by eapply Hg.
Qed.

(** A claim whose lease is gone can do nothing. *)
Lemma gone_claim_powerless claim t ops : Forall (leases_apart claim) ops -> lease_gone claim t ->
  completeDelivery claim (foldl webhook_step t ops) = (false, foldl webhook_step t ops) /\ releaseDelivery claim (foldl webhook_step t ops) = foldl webhook_step t ops.
Proof.
  intros Ho. revert t. induction Ho as [|op ops Hop _ IH]; intros t Hg; cbn [foldl]; [unfold completeDelivery, releaseDelivery; by rewrite Hg|]. apply IH. by apply lease_gone_stays.
Qed.

(** What a claim takes: a key no copy holds, or one whose lease has passed. *)
Lemma claim_takes id key now leaseMs t claim t' : claimDelivery id key now leaseMs t = inr (Some claim, t') ->
  claim = mkClaim id key (now + leaseMs) /\ deliveries t' !! (id, key) = Some (mkDeliveryRow now (Some (now + leaseMs))) /\
  forall row, deliveries t !! (id, key) = Some row -> exists lease, lease_until row = Some lease /\ lease < now.
Proof.
  unfold claimDelivery. destruct (bindings t !! id); [|done]. destruct (deliveries t !! (id, key)) as [[r [l|]]|] eqn:Ed; [|done|].
  - destruct (Z.ltb_spec l now); [|done]. intros [= <- <-]. split_and!; [done|apply lookup_insert_eq|]. intros row [= <-]. by exists l.
  - intros [= <- <-]. split_and!; [done|apply lookup_insert_eq|done].
Qed.

(** C31. A delivery's work commits once: its completion commits in the handler's transaction, and after one copy of a delivery
    completed, no copy completes it again, whatever claims, takeovers, releases and other deliveries come in between, in any
    order and by any clocks, until its binding is removed or the deliveries of its time are no longer kept. A copy that comes
    meanwhile is not claimed either. Nor is a delivery that another copy still holds: a claim takes one over only when its
    lease has passed, by the claim's clock; and then the claim that was taken over completes and releases nothing any more,
    as long as no copy is given a lease that ends at its very instant. *)
Theorem delivery_completes_once t claim :
  (forall t1 ops, completeDelivery claim t = (true, t1) ->
   exists received, deliveries t !! (c_binding claim, c_key claim) = Some (mkDeliveryRow received (Some (c_leaseUntil claim))) /\
     (Forall (fun op => ~ forgets (c_binding claim) received op) ops ->
      (forall claim', c_binding claim' = c_binding claim -> c_key claim' = c_key claim -> (completeDelivery claim' (foldl webhook_step t1 ops)).1 = false) /\
      (forall now leaseMs claim' t', claimDelivery (c_binding claim) (c_key claim) now leaseMs (foldl webhook_step t1 ops) <> inr (Some claim', t')))) /\
  (forall received now leaseMs claim' t', deliveries t !! (c_binding claim, c_key claim) = Some (mkDeliveryRow received (Some (c_leaseUntil claim))) ->
   claimDelivery (c_binding claim) (c_key claim) now leaseMs t = inr (Some claim', t') ->
   c_leaseUntil claim < now /\
   forall ops, 0 <= leaseMs -> Forall (leases_apart claim) ops ->
     completeDelivery claim (foldl webhook_step t' ops) = (false, foldl webhook_step t' ops) /\ releaseDelivery claim (foldl webhook_step t' ops) = foldl webhook_step t' ops).
Proof.
  split; [intros t1 ops; apply completed_for_good|]. intros received now leaseMs claim' t' Hr Hc. apply claim_takes in Hc as (-> & Hd & Ht).
  destruct (Ht _ Hr) as (lease & [= <-] & Hlt). split; [done|]. intros ops Hm Ho. apply gone_claim_powerless; [done|]. apply lease_gone_iff. intros received'. rewrite Hd. intros [= _ He]. lia.
Qed.

Module WebhookDemo.

Definition binding : WebhookBinding := mkBinding "github" ("workspace", "w1") "installation:1" "s" "u1" 0.
Definition tables : WebhookTables := foldl webhook_step no_webhooks [OpCreate "b1" binding; OpClaim "b1" "sha256:k" 1000 40000].
Definition claim : DeliveryClaim := mkClaim "b1" "sha256:k" 41000.

End WebhookDemo.

Lemma delivery_completes_once_witness :
  let t1 := (completeDelivery WebhookDemo.claim WebhookDemo.tables).2 in
  let later := [OpDrop "b1" 900; OpClaim "b1" "sha256:other" 90000 40000; OpRelease WebhookDemo.claim] in
  let taken := webhook_step WebhookDemo.tables (OpClaim "b1" "sha256:k" 50000 40000) in
  deliveries t1 !! ("b1", "sha256:k") = Some (mkDeliveryRow 1000 None) /\
  (forall now leaseMs claim' t', claimDelivery "b1" "sha256:k" now leaseMs (foldl webhook_step t1 later) <> inr (Some claim', t')) /\
  completeDelivery WebhookDemo.claim taken = (false, taken).
Proof.
  cbn zeta. destruct (delivery_completes_once WebhookDemo.tables WebhookDemo.claim) as [Hdone Htaken].
  assert (E : deliveries WebhookDemo.tables !! ("b1", "sha256:k") = Some (mkDeliveryRow 1000 (Some 41000))) by (by vm_compute). split; [by vm_compute|]. split.
  - destruct (Hdone (completeDelivery WebhookDemo.claim WebhookDemo.tables).2 [OpDrop "b1" 900; OpClaim "b1" "sha256:other" 90000 40000; OpRelease WebhookDemo.claim])
      as (received & Hr & Hops).
    + assert (Ec : (completeDelivery WebhookDemo.claim WebhookDemo.tables).1 = true) by (by vm_compute). by destruct (completeDelivery _ _) as [[] ?].
    + cbn [c_binding c_key WebhookDemo.claim] in Hr. rewrite E in Hr. injection Hr as <-. apply Hops. repeat constructor; cbn; lia.
  - destruct (Htaken 1000 50000 40000 (mkClaim "b1" "sha256:k" 90000) (webhook_step WebhookDemo.tables (OpClaim "b1" "sha256:k" 50000 40000)) E) as [_ Hlost]; [by vm_compute|].
    apply (Hlost []); [lia|constructor].
Defined.

(** ** What admission bounds *)

Record Take := mkTake { tk_endpoint : string; tk_bucket : string; tk_limit : Z; tk_now : Z; tk_met : string * string * Z -> bool }.

Definition perform_take (op : Take) (t : Buckets) : bool * Buckets := take_bucket (tk_endpoint op) (tk_bucket op) (tk_limit op) (tk_now op) (tk_met op) t.

Definition take_key (op : Take) : string * string * Z := (tk_endpoint op, tk_bucket op, tk_now op / MINUTE_MS).

(** How many of the takes from one bucket in one minute were admitted. *)
Fixpoint admitted_takes (key : string * string * Z) (ops : list Take) (t : Buckets) : Z :=
  match ops with
  | [] => 0
  | op :: ops =>
      let (admitted, t) := perform_take op t in
      (if admitted && bool_decide (take_key op = key) then 1 else 0) + admitted_takes key ops t
  end.

(** Statements take effect in the order of their clocks. SQLite's do, while the clock does not go back: an object runs one at a
    time. Postgres promises no such thing: [now()] is when a statement's transaction began, and another that began later may
    take effect first. *)
Definition in_order {A} (now : A -> Z) (ops : list A) : Prop := StronglySorted (fun a b => now a <= now b) ops.

(** How often the counter of a window is pruned before the last statement that counts in it: by a statement of a later
    window ([later]) whose prune meets it, which took effect before one of the window's own ([counts]). *)
Fixpoint overtaken {A} (later counts : A -> bool) (ops : list A) : Z :=
  match ops with
  | [] => 0
  | op :: ops => (if later op && existsb counts ops then 1 else 0) + overtaken later counts ops
  end.

Lemma overtaken_nonneg {A} (later counts : A -> bool) ops : 0 <= overtaken later counts ops.
Proof. induction ops as [|op ops IH]; cbn [overtaken]; [lia|]. destruct (later op && existsb counts ops); lia. Qed.

Lemma overtaken_in_order {A} (now : A -> Z) (later counts : A -> bool) ops :
  (forall a b, later a = true -> counts b = true -> now a <= now b -> False) -> in_order now ops -> overtaken later counts ops = 0.
Proof.
  intros Hl Ho. induction Ho as [|op ops Ho IH Hle]; cbn [overtaken]; [done|]. rewrite IH. destruct (later op) eqn:E; [|done]. cbn [andb].
  destruct (existsb counts ops) eqn:Ex; [|done]. apply existsb_exists in Ex as (b & Hb%list_elem_of_In & Hc). rewrite Forall_forall in Hle. exfalso. by eapply Hl, Hle.
Qed.

(** A take of a later minute whose prune meets the bucket's counter, and a take from it. *)
Definition take_later (key : string * string * Z) (op : Take) : bool := (key.2 <? tk_now op / MINUTE_MS) && tk_met op key.
Definition take_counts (key : string * string * Z) (op : Take) : bool := bool_decide (take_key op = key).

Lemma admitted_none key ops t : existsb (take_counts key) ops = false -> admitted_takes key ops t = 0.
Proof.
  revert t. induction ops as [|op ops IH]; intros t He; cbn [admitted_takes]; [done|]. cbn [existsb] in He. apply orb_false_iff in He as [Hk He]. destruct (perform_take op t) as [b t'].
  unfold take_counts in Hk. rewrite Hk, andb_false_r, IH by done. done.
Qed.

(** A take of a later minute leaves the counter, unless its prune meets it. *)
Lemma take_beyond op t key : key.2 < tk_now op / MINUTE_MS -> take_key op <> key /\
  (perform_take op t).2 !! key = (if tk_met op key then None else t !! key).
Proof.
  intros Hw. assert (Hne : take_key op <> key) by (intros <-; cbn in Hw; lia). split; [done|].
  unfold perform_take, take_bucket, take_key in *. set (window := tk_now op / MINUTE_MS) in *. set (f := filter _ t).
  assert (Hf : f !! key = (if tk_met op key then None else t !! key)).
  { unfold f. rewrite map_lookup_filter. destruct key as [[e b] w]. cbn in Hw. destruct (t !! (e, b, w)); cbn; [|by destruct (tk_met op (e, b, w))].
    destruct (tk_met op (e, b, w)) eqn:Em; [by rewrite option_guard_False by naive_solver|rewrite option_guard_True; [done|naive_solver]]. }
  destruct (f !! (tk_endpoint op, tk_bucket op, window)) as [count|]; [destruct (count <? tk_limit op)|]; cbn; rewrite ?lookup_insert_ne by done; exact Hf.
Qed.

Lemma take_lookup op t key : key.2 >= tk_now op / MINUTE_MS ->
  (perform_take op t).2 !! key = (if (perform_take op t).1 && bool_decide (take_key op = key) then Some (default 0 (t !! key) + 1) else t !! key) /\
  ((perform_take op t).1 = true -> take_key op = key -> default 0 (t !! key) < Z.max 1 (tk_limit op)).
Proof.
  intros Hw. unfold perform_take, take_bucket, take_key. set (window := tk_now op / MINUTE_MS) in *.
  set (f := filter _ t). assert (Hf : forall k : string * string * Z, k.2 >= window -> f !! k = t !! k).
  { intros [[e b] w] Hk. unfold f. cbn in Hk. rewrite map_lookup_filter. destruct (t !! (e, b, w)); cbn; [|done]. rewrite option_guard_True; [done|]. lia. }
  destruct (decide ((tk_endpoint op, tk_bucket op, window) = key)) as [<-|Hne].
  - rewrite bool_decide_eq_true_2 by done. rewrite andb_true_r, (Hf (_, _, window)) by (cbn; lia). destruct (t !! _) as [count|] eqn:E; cbn.
    + destruct (Z.ltb_spec count (tk_limit op)); cbn; [rewrite lookup_insert_eq; split; [done|lia]|]. rewrite Hf by (cbn; lia). split; [done|lia].
    + rewrite lookup_insert_eq. split; [done|lia].
  - rewrite bool_decide_eq_false_2 by done. rewrite andb_false_r. split; [|done]. destruct (f !! _) as [count|]; [destruct (count <? tk_limit op)|]; cbn; rewrite ?lookup_insert_ne by done; by apply Hf.
Qed.

Lemma takes_bounded key limit ops t : 1 <= limit -> Forall (fun op => take_key op = key -> tk_limit op <= limit) ops ->
  default 0 (t !! key) <= limit -> default 0 (t !! key) + admitted_takes key ops t <= limit * (1 + overtaken (take_later key) (take_counts key) ops).
Proof.
  intros Hl. revert t. induction ops as [|op ops IH]; intros t Hops Ht; cbn [admitted_takes overtaken]; [lia|]. apply Forall_cons in Hops as [Hlim Hops].
  pose proof (overtaken_nonneg (take_later key) (take_counts key) ops) as Hn.
  destruct (Z.lt_ge_cases key.2 (tk_now op / MINUTE_MS)) as [Hlt|Hge].
  - destruct (take_beyond op t key Hlt) as [Hne Hk]. destruct (perform_take op t) as [admitted t'] eqn:E. cbn in Hk. rewrite bool_decide_eq_false_2, andb_false_r by done.
    unfold take_later at 1. rewrite (proj2 (Z.ltb_lt _ _) Hlt). cbn [andb]. specialize (IH t' Hops). rewrite Hk in IH.
    destruct (tk_met op key); [|cbn; apply IH; done]. cbn in IH. specialize (IH ltac:(lia)). destruct (existsb _ ops) eqn:Ex; cbn [andb]; [lia|].
    rewrite admitted_none by done. nia.
  - destruct (take_lookup op t key ltac:(lia)) as [Hk Hb]. destruct (perform_take op t) as [admitted t'] eqn:E. cbn in Hk, Hb.
    unfold take_later at 1. rewrite (proj2 (Z.ltb_ge _ _)) by lia. cbn [andb]. specialize (IH t' Hops).
    destruct (admitted && bool_decide (take_key op = key)) eqn:Ea.
    + apply andb_true_iff in Ea as [-> Heq%bool_decide_eq_true]. specialize (Hb eq_refl Heq). specialize (Hlim Heq). rewrite Hk in IH. cbn in IH. lia.
    + rewrite Hk in IH. lia.
Qed.

Record Reserve := mkReserve { rs_endpoint : string; rs_bytes : Z; rs_limit : Z; rs_now : Z; rs_met : string * Z -> bool }.

Definition perform_reserve (op : Reserve) (t : ByteBudgets) : bool * ByteBudgets := reserve_bytes (rs_endpoint op) (rs_bytes op) (rs_limit op) (rs_now op) (rs_met op) t.

Definition reserve_key (op : Reserve) : string * Z := (rs_endpoint op, rs_now op / HOUR_MS).

(** The bytes reserved of an endpoint's budget in one hour. *)
Fixpoint reserved (key : string * Z) (ops : list Reserve) (t : ByteBudgets) : Z :=
  match ops with
  | [] => 0
  | op :: ops =>
      let (admitted, t) := perform_reserve op t in
      (if admitted && bool_decide (reserve_key op = key) then rs_bytes op else 0) + reserved key ops t
  end.

Definition reserve_later (key : string * Z) (op : Reserve) : bool := (key.2 <? rs_now op / HOUR_MS) && rs_met op key.
Definition reserve_counts (key : string * Z) (op : Reserve) : bool := bool_decide (reserve_key op = key).

Lemma reserved_none key ops t : existsb (reserve_counts key) ops = false -> reserved key ops t = 0.
Proof.
  revert t. induction ops as [|op ops IH]; intros t He; cbn [reserved]; [done|]. cbn [existsb] in He. apply orb_false_iff in He as [Hk He]. destruct (perform_reserve op t) as [b t'].
  unfold reserve_counts in Hk. rewrite Hk, andb_false_r, IH by done. done.
Qed.

Lemma reserve_beyond op t key : key.2 < rs_now op / HOUR_MS -> reserve_key op <> key /\
  (perform_reserve op t).2 !! key = (if rs_met op key then None else t !! key).
Proof.
  intros Hw. assert (Hne : reserve_key op <> key) by (intros <-; cbn in Hw; lia). split; [done|].
  unfold perform_reserve, reserve_bytes, reserve_key in *. set (window := rs_now op / HOUR_MS) in *. set (f := filter _ t).
  assert (Hf : f !! key = (if rs_met op key then None else t !! key)).
  { unfold f. rewrite map_lookup_filter. destruct key as [e w]. cbn in Hw. destruct (t !! (e, w)); cbn; [|by destruct (rs_met op (e, w))].
    destruct (rs_met op (e, w)) eqn:Em; [by rewrite option_guard_False by naive_solver|rewrite option_guard_True; [done|naive_solver]]. }
  destruct (negb (rs_bytes op <=? rs_limit op)); [exact Hf|].
  destruct (f !! (rs_endpoint op, window)) as [held|]; [destruct (held + _ <=? _)|]; cbn; rewrite ?lookup_insert_ne by done; exact Hf.
Qed.

Lemma reserve_lookup op t key : key.2 >= rs_now op / HOUR_MS ->
  (perform_reserve op t).2 !! key = (if (perform_reserve op t).1 && bool_decide (reserve_key op = key) then Some (default 0 (t !! key) + rs_bytes op) else t !! key) /\
  ((perform_reserve op t).1 = true -> reserve_key op = key -> default 0 (t !! key) + rs_bytes op <= rs_limit op).
Proof.
  intros Hw. unfold perform_reserve, reserve_bytes, reserve_key. set (window := rs_now op / HOUR_MS) in *.
  set (f := filter _ t). assert (Hf : forall k : string * Z, k.2 >= window -> f !! k = t !! k).
  { intros [e w] Hk. unfold f. cbn in Hk. rewrite map_lookup_filter. destruct (t !! (e, w)); cbn; [|done]. rewrite option_guard_True; [done|]. lia. }
  destruct (Z.leb_spec (rs_bytes op) (rs_limit op)) as [Hle|Hgt]; cbn [negb]; [|cbn; split; [by apply Hf|done]].
  destruct (decide ((rs_endpoint op, window) = key)) as [<-|Hne].
  - rewrite bool_decide_eq_true_2 by done. rewrite andb_true_r, (Hf (_, window)) by (cbn; lia). destruct (t !! _) as [held|] eqn:E; cbn.
    + destruct (Z.leb_spec (held + rs_bytes op) (rs_limit op)); cbn; [rewrite lookup_insert_eq; split; [done|lia]|]. rewrite Hf by (cbn; lia). split; [done|lia].
    + rewrite lookup_insert_eq. split; [done|lia].
  - rewrite bool_decide_eq_false_2 by done. rewrite andb_false_r. split; [|done]. destruct (f !! _) as [held|]; [destruct (held + _ <=? _)|]; cbn; rewrite ?lookup_insert_ne by done; by apply Hf.
Qed.

Lemma reserved_bounded key limit ops t : 1 <= limit -> Forall (fun op => reserve_key op = key -> rs_limit op <= limit) ops ->
  default 0 (t !! key) <= limit -> default 0 (t !! key) + reserved key ops t <= limit * (1 + overtaken (reserve_later key) (reserve_counts key) ops).
Proof.
  intros Hl. revert t. induction ops as [|op ops IH]; intros t Hops Ht; cbn [reserved overtaken]; [lia|]. apply Forall_cons in Hops as [Hlim Hops].
  pose proof (overtaken_nonneg (reserve_later key) (reserve_counts key) ops) as Hn.
  destruct (Z.lt_ge_cases key.2 (rs_now op / HOUR_MS)) as [Hlt|Hge].
  - destruct (reserve_beyond op t key Hlt) as [Hne Hk]. destruct (perform_reserve op t) as [admitted t'] eqn:E. cbn in Hk. rewrite bool_decide_eq_false_2, andb_false_r by done.
    unfold reserve_later at 1. rewrite (proj2 (Z.ltb_lt _ _) Hlt). cbn [andb]. specialize (IH t' Hops). rewrite Hk in IH.
    destruct (rs_met op key); [|cbn; apply IH; done]. cbn in IH. specialize (IH ltac:(lia)). destruct (existsb _ ops) eqn:Ex; cbn [andb]; [lia|].
    rewrite reserved_none by done. nia.
  - destruct (reserve_lookup op t key ltac:(lia)) as [Hk Hb]. destruct (perform_reserve op t) as [admitted t'] eqn:E. cbn in Hk, Hb.
    unfold reserve_later at 1. rewrite (proj2 (Z.ltb_ge _ _)) by lia. cbn [andb]. specialize (IH t' Hops).
    destruct (admitted && bool_decide (reserve_key op = key)) eqn:Ea.
    + apply andb_true_iff in Ea as [-> Heq%bool_decide_eq_true]. specialize (Hb eq_refl Heq). specialize (Hlim Heq). rewrite Hk in IH. cbn in IH. lia.
    + rewrite Hk in IH. lia.
Qed.

(** C35. What admission bounds, over all instances of an application, in whatever order their statements take effect and
    whatever each of them prunes: in any minute no more calls are admitted from a bucket than its limit, and its limit again
    for every statement of a later minute that pruned the bucket's counter and took effect before a last take of that minute;
    in any hour no more bytes are reserved of an endpoint's budget than it holds, and again as much for every such prune.
    When statements take effect in the order of their clocks there is no such prune, and the limit and the budget hold as
    they are. *)
Theorem admission_bounded limit budget takes reserves : 1 <= limit -> 1 <= budget ->
  (forall key, Forall (fun op => take_key op = key -> tk_limit op <= limit) takes ->
     admitted_takes key takes ∅ <= limit * (1 + overtaken (take_later key) (take_counts key) takes) /\ (in_order tk_now takes -> admitted_takes key takes ∅ <= limit)) /\
  (forall key, Forall (fun op => reserve_key op = key -> rs_limit op <= budget) reserves ->
     reserved key reserves ∅ <= budget * (1 + overtaken (reserve_later key) (reserve_counts key) reserves) /\ (in_order rs_now reserves -> reserved key reserves ∅ <= budget)).
Proof.
  intros Hl Hb0. split; intros key Hops.
  - pose proof (takes_bounded key limit takes ∅ Hl Hops) as Hb. rewrite lookup_empty in Hb. cbn in Hb. split; [lia|]. intros Ho.
    rewrite (overtaken_in_order tk_now) in Hb; [lia| |done]. intros a b [Ha _]%andb_true_iff <-%bool_decide_eq_true Hle. cbn in Ha. apply Z.ltb_lt in Ha.
    pose proof (Z.div_le_mono (tk_now a) (tk_now b) MINUTE_MS ltac:(done) Hle). lia.
  - pose proof (reserved_bounded key budget reserves ∅ Hb0 Hops) as Hb. rewrite lookup_empty in Hb. cbn in Hb. split; [lia|]. intros Ho.
    rewrite (overtaken_in_order rs_now) in Hb; [lia| |done]. intros a b [Ha _]%andb_true_iff <-%bool_decide_eq_true Hle. cbn in Ha. apply Z.ltb_lt in Ha.
    pose proof (Z.div_le_mono (rs_now a) (rs_now b) HOUR_MS ltac:(done) Hle). lia.
Qed.

(** A bucket of two a minute admits three: the third statement began in the next minute and takes effect first, so its prune
    lets the last one, which began in the old minute, count from one. *)
Example minute_overtaken :
  let take bucket now := mkTake "e" bucket 2 now (fun _ => true) in
  admitted_takes ("e", "client:a", 0) [take "client:a" 1; take "client:a" 2; take "client:b" 60000; take "client:a" 59999] ∅ = 3.
Proof. by vm_compute. Qed.

(** ** A challenge passes once *)

Record Recording := mkRecording { rc_endpoint : string; rc_digest : string; rc_retain : Z; rc_now : Z; rc_met : string * string -> bool }.

Definition perform_record (op : Recording) (t : Challenges) : bool * Challenges := record_challenge (rc_endpoint op) (rc_digest op) (rc_retain op) (rc_now op) (rc_met op) t.

Definition record_key (op : Recording) : string * string := (rc_endpoint op, rc_digest op).

Lemma recorded_stays op t key expires : t !! key = Some expires -> rc_now op < expires ->
  (perform_record op t).2 !! key = Some expires /\ (record_key op = key -> (perform_record op t).1 = false).
Proof.
  intros Ht Hn. unfold perform_record, record_challenge, record_key. set (f := filter _ t).
  assert (Hf : f !! key = Some expires) by (apply map_lookup_filter_Some; split; [done|]; lia). clearbody f.
  destruct (decide ((rc_endpoint op, rc_digest op) = key)) as [He|Hne].
  - rewrite He, Hf. by rewrite (proj2 (Z.leb_gt _ _)).
  - split; [|done]. destruct (f !! (rc_endpoint op, rc_digest op)) as [e|]; [destruct (e <=? rc_now op)|]; cbn; rewrite ?lookup_insert_ne by done; done.
Qed.

(** A challenge's token passes once: after an endpoint recorded it, no instance records it again there before what was kept
    of it ends, whatever other tokens are recorded and pruned in between. *)
Theorem challenge_passes_once first between again t : (perform_record first t).1 = true ->
  Forall (fun op => rc_now op < rc_now first + rc_retain first) (between ++ [again]) -> record_key again = record_key first ->
  (perform_record again (foldl (fun t op => (perform_record op t).2) (perform_record first t).2 between)).1 = false.
Proof.
  intros Hf Hops Hk. assert (Ht : (perform_record first t).2 !! record_key first = Some (rc_now first + rc_retain first)).
  { unfold perform_record, record_challenge, record_key in *. set (f := filter _ t) in *. destruct (f !! _) as [e|]; [destruct (e <=? rc_now first); [|done]|]; cbn; apply lookup_insert_eq. }
  revert Ht. generalize (perform_record first t).2. induction between as [|op between IH]; intros t' Ht; inversion Hops as [|? ? Hop Hops']; subst; cbn [foldl].
  - by apply (recorded_stays again t' (record_key first) _ Ht Hop).
  - apply IH; [done|]. by apply recorded_stays.
Qed.

Lemma admission_bounded_witness :
  let take now := mkTake "e" "client:a" 2 now (fun _ => true) in
  let reserve now := mkReserve "e" 600 1000 now (fun _ => true) in
  admitted_takes ("e", "client:a", 0) [take 1; take 2; take 3; take 60000] ∅ <= 2 /\ reserved ("e", 0) [reserve 1; reserve 2] ∅ <= 1000 /\
  admitted_takes ("e", "client:a", 0) [take 1; take 2; take 60000; take 59999] ∅ <= 2 * (1 + 1).
Proof.
  cbn zeta. destruct (admission_bounded 2 1000 [mkTake "e" "client:a" 2 1 (fun _ => true); mkTake "e" "client:a" 2 2 (fun _ => true); mkTake "e" "client:a" 2 3 (fun _ => true);
    mkTake "e" "client:a" 2 60000 (fun _ => true)] [mkReserve "e" 600 1000 1 (fun _ => true); mkReserve "e" 600 1000 2 (fun _ => true)]) as [Ht Hr]; [lia|lia|].
  destruct (admission_bounded 2 1000 [mkTake "e" "client:a" 2 1 (fun _ => true); mkTake "e" "client:a" 2 2 (fun _ => true); mkTake "e" "client:a" 2 60000 (fun _ => true);
    mkTake "e" "client:a" 2 59999 (fun _ => true)] []) as [Ho _]; [lia|lia|]. split_and!.
  - apply (Ht ("e", "client:a", 0)); repeat constructor; cbn; lia.
  - apply (Hr ("e", 0)); repeat constructor; cbn; lia.
  - apply (Ho ("e", "client:a", 0)). repeat constructor; cbn; lia.
Defined.

Lemma challenge_passes_once_witness :
  let record digest now := mkRecording "e" digest 600000 now (fun _ => true) in
  (perform_record (record "d" 1000) ∅).1 = true /\
  (perform_record (record "d" 500000) (foldl (fun t op => (perform_record op t).2) (perform_record (record "d" 1000) ∅).2 [record "x" 2000])).1 = false.
Proof. cbn zeta. split; [by vm_compute|]. apply challenge_passes_once; [by vm_compute| |done]. repeat constructor; cbn; lia. Defined.
