(* ===== verification/Webhooks.v ===== *)
(** A procedure's webhook bindings ([app/src/implement/webhook.ts]): [ctx.webhooks(name)] of a procedure that declares [binds].

    The framework generates the secret of a binding or takes the one a provider issued, and keeps the binding under the value the
    handed capability names. What a binding's row can be asked for is in [FrameworkTables.v], what a capability grants in
    [Store.v] and [AppCapability.v]. *)

From S2P Require Import Prelude JobLeases Store Digest AppCapability Project Faults Signatures FrameworkTables.
From Stdlib Require Import ZArith Lia String Ascii.
From stdpp Require Import base tactics strings gmap list.

Open Scope Z_scope.

Definition WEBHOOK_REPLAY_RETENTION_MS : Z := 30 * 24 * 60 * 60 * 1000.
Definition WEBHOOK_CLAIM_GRACE_MS : Z := 30000.

Definition webhookSubject (bindingId : string) : string := "webhook:" +:+ bindingId.

Definition MAX_ACCOUNT_LENGTH : nat := 200.
Definition MAX_SECRET_LENGTH : nat := 512.
Definition API_KEY_PREFIX : string := "px_".

(** [APP_BINDING_SCOPE] *)
Definition APP_BINDING_SCOPE : string * string := ("app", "").

(** [ScopeBinding] *)
Inductive ScopeBinding := ToApp | ToDimension (dimension : string).

Record BindableWebhook := mkWebhook { bw_name : string; bw_path : string; bw_scheme : WebhookScheme; bw_boundTo : ScopeBinding }.

(** [btoa] on bytes, and zod's [z.uuid()]. *)
Class BindingTexts := { btoa : Bytes -> string; is_uuid : string -> bool }.

Definition joinPath (prefix rest : string) : string := if (prefix =? "/")%string then "/" +:+ rest else prefix +:+ "/" +:+ rest.

(** [/^(?:installation|repository):[1-9][0-9]{0,19}$/] *)
Definition is_account_number (digits : string) : bool :=
  match digits with
  | String first rest => Js.in_range 49 57 first && Js.forall_units Js.is_digit rest && (String.length rest <=? 19)%nat
  | EmptyString => false
  end.

Definition is_github_account (account : string) : bool :=
  (Js.startsWith account "installation:" && is_account_number (Js.drop 13 account))
  || (Js.startsWith account "repository:" && is_account_number (Js.drop 11 account)).

Definition printable_account (c : ascii) : bool := (32 <=? Js.code c)%nat && negb (Js.code c =? 127)%nat.
Definition printable_secret (c : ascii) : bool := (33 <=? Js.code c)%nat && negb (Js.code c =? 127)%nat.

(** [accountOf] *)
Definition accountOf (scheme : WebhookScheme) (account : Unknown) : Raised + string :=
  match scheme, account with
  | SchemeGithub, UStr text => if is_github_account text then inr text else inl (BadRequestError "A GitHub binding's account is installation:<id> or repository:<id>")
  | SchemeGithub, _ => inl (BadRequestError "A GitHub binding's account is installation:<id> or repository:<id>")
  | _, UStr text =>
      if negb (text =? "")%string && (String.length text <=? MAX_ACCOUNT_LENGTH)%nat && Js.forall_units printable_account text then inr text
      else inl (BadRequestError "A binding's account is a text of 1 to 200 printable characters")
  | _, _ => inl (BadRequestError "A binding's account is a text of 1 to 200 printable characters")
  end.

(** [typeof scheme === 'object' && !('hmac' in scheme)] *)
Definition carries_secret (scheme : WebhookScheme) : bool := match scheme with SchemeBasic | SchemeBearer => true | _ => false end.

Section Bindings.
Context `{DeliveryCrypto} `{BindingTexts}.

(** [issuedSecret] *)
Definition issuedSecret (scheme : WebhookScheme) (secret : Unknown) : Raised + string :=
  match secret with
  | UStr text =>
      if negb (negb (text =? "")%string && (String.length text <=? MAX_SECRET_LENGTH)%nat && Js.forall_units printable_secret text) then
        inl (BadRequestError "A webhook secret is a text of 1 to 512 printable characters without spaces")
      else if match scheme with SchemeStandard => negb (is_some (standardKey text)) | _ => false end then
        inl (BadRequestError "A Standard Webhooks secret is whsec_ and the key in base64")
      else if carries_secret scheme && Js.includes text API_KEY_PREFIX then
        inl (BadRequestError "A Basic password or bearer token cannot contain px_: the proxy removes a platform key from every request")
      else inr text
  | _ => inl (BadRequestError "A webhook secret is a text of 1 to 512 printable characters without spaces")
  end.

(** [generateSecret], of 32 random bytes. *)
Definition generateSecret (scheme : WebhookScheme) (random : Bytes) : string :=
  match scheme with SchemeStandard => "whsec_" +:+ btoa random | _ => hex_of random end.

(** [deliveryKey] *)
Definition deliveryKey (bindingId : string) (body : Bytes) : string := "sha256:" +:+ hex_of (sha256 (utf8 bindingId ++ body)).

(** What [ctx.webhooks] keeps of its request: its webhook and its caller's subject. *)
Record BindingSite := mkSite { bs_webhook : BindableWebhook; bs_principal : string }.

(** What a call meets: the transaction's check of its handle, the authority's reading of the capability, the transaction's
    session, and the error of a statement the database refuses. *)
Record Met := mkMet { met_check : Raised + unit; met_grant : Raised + CapabilityGrant; met_session : Raised + unit; met_duplicate : Raised }.

(** What [scopeOf] reads of a grant. *)
Definition bound_scope (boundTo : ScopeBinding) (grant : CapabilityGrant) : option (string * string) :=
  match boundTo, grant with
  | ToApp, GrantApp _ => Some APP_BINDING_SCOPE
  | ToDimension d, GrantRef g => if (r_dimension g =? d)%string then Some (r_dimension g, r_id g) else None
  | _, _ => None
  end.

(** [scopeOf] *)
Definition scopeOf (site : BindingSite) (met : Met) : Raised + string * string :=
  _ ← met_check met;
  grant ← met_grant met;
  match bound_scope (bw_boundTo (bs_webhook site)) grant with Some scope => inr scope | None => inl (Refused wrong_binding) end.

Record WebhookSecret := mkSecret { ws_id : string; ws_url : string; ws_secret : string }.

(** [bindings.bind]; the primary key's violation is the store's error. *)
Definition bind (site : BindingSite) (met : Met) (account : Unknown) (id : string) (random : Bytes) (now : Z)
  (t : WebhookTables) : (Raised + WebhookSecret) * WebhookTables :=
  let webhook := bs_webhook site in
  match scope ← scopeOf site met; recorded ← accountOf (bw_scheme webhook) account; _ ← met_session met; inr (scope, recorded) with
  | inl e => (inl e, t)
  | inr (scope, recorded) =>
      let secret := generateSecret (bw_scheme webhook) random in
      match createBinding id (mkBinding (bw_name webhook) scope recorded secret (bs_principal site) now) t with
      | None => (inl (met_duplicate met), t)
      | Some t => (inr (mkSecret id (joinPath (bw_path webhook) id) secret), t)
      end
  end.

Definition uuid_of (id : Unknown) : option string := match id with UStr text => if is_uuid text then Some text else None | _ => None end.

(** [bindings.setSecret] *)
Definition setSecret (site : BindingSite) (met : Met) (id secret : Unknown) (t : WebhookTables) :
  (Raised + bool) * WebhookTables :=
  match scope ← scopeOf site met; issued ← issuedSecret (bw_scheme (bs_webhook site)) secret; inr (scope, issued) with
  | inl e => (inl e, t)
  | inr (scope, issued) =>
      match uuid_of id with
      | None => (inr false, t)
      | Some id =>
          match met_session met with
          | inl e => (inl e, t)
          | inr _ => let (replaced, t) := replaceSecret (bw_name (bs_webhook site)) id scope issued t in (inr replaced, t)
          end
      end
  end.

(** [bindings.unbind] *)
Definition unbind (site : BindingSite) (met : Met) (id : Unknown) (t : WebhookTables) : (Raised + bool) * WebhookTables :=
  match scopeOf site met with
  | inl e => (inl e, t)
  | inr scope =>
      match uuid_of id with
      | None => (inr false, t)
      | Some id =>
          match met_session met with
          | inl e => (inl e, t)
          | inr _ => let (removed, t) := removeBinding (bw_name (bs_webhook site)) id scope t in (inr removed, t)
          end
      end
  end.

(** [webhookBindings(site)(name)]: only the declared webhook. *)
Definition webhookBindings (site : BindingSite) (name : string) : Raised + BindingSite :=
  if (name =? bw_name (bs_webhook site))%string then inr site else inl (Refused undeclared_binding).

Inductive BindingCall :=
| CallBind (account : Unknown) (id : string) (random : Bytes) (now : Z)
| CallSetSecret (id secret : Unknown)
| CallUnbind (id : Unknown).

Definition call_of (site : BindingSite) (met : Met) (c : BindingCall) (t : WebhookTables) : WebhookTables :=
  match c with
  | CallBind account id random now => (bind site met account id random now t).2
  | CallSetSecret id secret => (setSecret site met id secret t).2
  | CallUnbind id => (unbind site met id t).2
  end.

(** ** What a call reaches *)

(** What a capability grants of a webhook: of one bound to the application, the application's own capability the scope that
    has no value; of one bound to a dimension, a [Ref] of that dimension the value it names. Nothing else grants a scope. *)
Inductive grants_scope : ScopeBinding -> CapabilityGrant -> string * string -> Prop :=
| grants_app action principal : grants_scope ToApp (GrantApp (mkAppGrant action principal)) ("app", "")
| grants_value dimension action principal value chain :
    grants_scope (ToDimension dimension) (GrantRef (mkRef dimension action principal value chain)) (dimension, value).

Lemma bound_scope_some boundTo grant scope : bound_scope boundTo grant = Some scope <-> grants_scope boundTo grant scope.
Proof.
  split.
  - destruct boundTo as [|d], grant as [[d' ? ? ? ?]|?|[? ?]|?]; cbn; try done; [intros [= <-]; constructor|].
    destruct (String.eqb_spec d' d) as [->|]; [|done]. intros [= <-]. constructor.
  - destruct 1; cbn; [done|]. by rewrite String.eqb_refl.
Qed.

Lemma scopeOf_inr site met scope : scopeOf site met = inr scope ->
  met_check met = inr tt /\ exists grant, met_grant met = inr grant /\ grants_scope (bw_boundTo (bs_webhook site)) grant scope.
Proof.
  unfold scopeOf. destruct (met_check met) as [|[]]; [done|]. destruct (met_grant met) as [|grant]; [done|]. cbn. destruct (bound_scope _ grant) eqn:E; [|done].
  apply bound_scope_some in E. naive_solver.
Qed.

(** The binding [id] of [t] is of [webhook] and reaches [scope]. *)
Definition reaches (t : WebhookTables) (id webhook : string) (scope : string * string) : Prop :=
  exists binding, bindings t !! id = Some binding /\ b_webhook binding = webhook /\ b_scope binding = scope.

Lemma bindingOf_some webhook id scope t b : bindingOf webhook id scope t = Some b <-> bindings t !! id = Some b /\ b_webhook b = webhook /\ b_scope b = scope.
Proof.
  unfold bindingOf, find_binding. destruct (bindings t !! id) as [b'|]; cbn; [|naive_solver]. destruct (String.eqb_spec (b_webhook b') webhook); cbn; [|naive_solver].
  case_bool_decide; naive_solver.
Qed.

(** What a call answers with an error. *)
Definition refused_call (site : BindingSite) (met : Met) (c : BindingCall) (t : WebhookTables) : Prop :=
  match c with
  | CallBind account id random now => exists e, (bind site met account id random now t).1 = inl e
  | CallSetSecret id secret => exists e, (setSecret site met id secret t).1 = inl e
  | CallUnbind id => exists e, (unbind site met id t).1 = inl e
  end.

Lemma refused_without site met c t :
  (forall grant scope, met_grant met = inr grant -> ~ grants_scope (bw_boundTo (bs_webhook site)) grant scope) -> refused_call site met c t.
Proof.
  intros Hg. assert (Hs : exists e, scopeOf site met = inl e).
  { destruct (scopeOf site met) as [e|scope] eqn:E; [by exists e|]. apply scopeOf_inr in E as (_ & grant & Hm & Hb). by destruct (Hg grant scope). }
  destruct Hs as [e Hs]. destruct c; cbn; unfold bind, setSecret, unbind; rewrite Hs; by exists e.
Qed.

(** C25. Whatever a procedure asks of [ctx.webhooks], a binding changes, appears or disappears only where it is, before or
    after, a binding of the webhook the procedure declares and of the scope its authentic capability grants: the application's
    with an application capability, if the webhook is bound to the application; one value's with a [Ref] of the dimension it is
    bound to, and of the value the [Ref] names. With any other capability the call throws. What a refused check or capability
    asks changes nothing, and no delivery of another binding is forgotten. *)
Theorem bindings_scoped site met c t : let t' := call_of site met c t in
  (t' <> t -> met_check met = inr tt /\ exists grant scope, met_grant met = inr grant /\ grants_scope (bw_boundTo (bs_webhook site)) grant scope) /\
  (forall id, bindings t' !! id <> bindings t !! id -> exists grant scope, met_grant met = inr grant /\ grants_scope (bw_boundTo (bs_webhook site)) grant scope /\
     (is_Some (bindings t !! id) -> reaches t id (bw_name (bs_webhook site)) scope) /\
     (is_Some (bindings t' !! id) -> reaches t' id (bw_name (bs_webhook site)) scope)) /\
  (forall id key, deliveries t' !! (id, key) <> deliveries t !! (id, key) -> is_Some (bindings t !! id) /\ bindings t' !! id = None) /\
  ((forall grant scope, met_grant met = inr grant -> ~ grants_scope (bw_boundTo (bs_webhook site)) grant scope) -> refused_call site met c t).
Proof.
  cbn zeta. match goal with |- ?A /\ ?B /\ ?C /\ _ => cut (A /\ B /\ C); [intros (? & ? & ?); auto using refused_without|] end. destruct c as [account id random now|uid secret|uid]; cbn [call_of].
  - unfold bind. destruct (scopeOf site met) as [e|scope] eqn:Es; cbn; [by split; [|split]|]. apply scopeOf_inr in Es as (Hc & grant & Hr & Hb).
    destruct (accountOf _ account) as [e|recorded]; cbn; [by split; [|split]|]. destruct (met_session met); cbn; [by split; [|split]|]. unfold createBinding. destruct (bindings t !! id) as [b|] eqn:Ei; cbn; [by split; [|split]|].
    split; [eauto|]. split; [|done]. intros id' Hn. exists grant, scope. repeat (split; [done|]). destruct (decide (id = id')) as [<-|Hne]; [|by rewrite lookup_insert_ne in Hn].
    split; [rewrite Ei; by intros []|]. intros _. eexists. split; [apply lookup_insert_eq|done].
  - unfold setSecret. destruct (scopeOf site met) as [e|scope] eqn:Es; cbn; [by split; [|split]|]. apply scopeOf_inr in Es as (Hc & grant & Hr & Hb).
    destruct (issuedSecret _ secret) as [e|issued]; cbn; [by split; [|split]|]. destruct (uuid_of uid) as [id|]; cbn; [|by split; [|split]]. destruct (met_session met); cbn; [by split; [|split]|]. unfold replaceSecret.
    destruct (bindingOf _ id scope t) as [b|] eqn:Eb; cbn; [|by split; [|split]]. apply bindingOf_some in Eb as (Hi & Hw & Hs).
    split; [eauto|]. split; [|done]. intros id' Hn. exists grant, scope. repeat (split; [done|]). destruct (decide (id = id')) as [<-|Hne]; [|by rewrite lookup_insert_ne in Hn].
    split; intros _; eexists; [by eauto|]. split; [apply lookup_insert_eq|]. done.
  - unfold unbind. destruct (scopeOf site met) as [e|scope] eqn:Es; cbn; [by split; [|split]|]. apply scopeOf_inr in Es as (Hc & grant & Hr & Hb).
    destruct (uuid_of uid) as [id|]; cbn; [|by split; [|split]]. destruct (met_session met); cbn; [by split; [|split]|]. unfold removeBinding. destruct (bindingOf _ id scope t) as [b|] eqn:Eb; cbn; [|by split; [|split]]. apply bindingOf_some in Eb as (Hi & Hw & Hs).
    split; [eauto|]. split.
    + intros id' Hn. exists grant, scope. repeat (split; [done|]). destruct (decide (id = id')) as [<-|Hne]; [|by rewrite lookup_delete_ne in Hn].
      split; [intros _; exists b; done|]. rewrite lookup_delete_eq. by intros [].
    + intros id' key Hn. destruct (decide (id' = id)) as [->|Hne]; [split; [by eauto|apply lookup_delete_eq]|]. exfalso. apply Hn. rewrite map_lookup_filter.
      destruct (deliveries t !! (id', key)); cbn; [|done]. by rewrite option_guard_True.
Qed.

(** A secret a procedure sets is one its webhook's verifier can use: a Standard Webhooks secret decodes to a key, and a Basic
    password or bearer token holds nothing the proxy takes for a platform key. *)
Lemma issuedSecret_usable scheme secret text : issuedSecret scheme secret = inr text ->
  secret = UStr text /\ text <> "" /\ (String.length text <= MAX_SECRET_LENGTH)%nat /\ (scheme = SchemeStandard -> is_Some (standardKey text)) /\
  (carries_secret scheme = true -> Js.includes text API_KEY_PREFIX = false).
Proof.
  unfold issuedSecret. destruct secret as [| | | |s| | |]; try done. destruct (negb _) eqn:Ep; [done|]. apply negb_false_iff in Ep. destruct (match scheme with SchemeStandard => _ | _ => _ end) eqn:Es; [done|].
  destruct (carries_secret scheme && _) eqn:Ec; [done|]. intros [= ->]. rewrite !andb_true_iff in Ep. destruct Ep as [[He Hl] _]. apply negb_true_iff, String.eqb_neq in He.
  split; [done|]. split; [done|]. split; [by apply Nat.leb_le|]. split.
  - intros ->. destruct (standardKey text); [by eauto|done].
  - intros Hc. by rewrite Hc in Ec.
Qed.

End Bindings.

(** *** A binding of one workspace *)

Module Demo.

#[export] Instance texts : BindingTexts := {| btoa _ := "AAAA"; is_uuid _ := true |}.

Definition site : BindingSite := mkSite (mkWebhook "github" "/hooks" SchemeGithub (ToDimension "workspace")) "user:1".

Definition met (dimension : string) : Met :=
  mkMet (inr tt) (inr (GrantRef (mkRef dimension "hooks.manage" "user:1" "w1" []))) (inr tt) (Refused wrong_binding).

Definition call : BindingCall := CallBind (UStr "installation:1") "b1" [] 0.

End Demo.

#[local] Existing Instances Signatures.Demo.crypto Demo.texts.

(** A [Ref] of the webhook's dimension binds its value; a [Ref] of another one is refused. *)
Lemma bindings_scoped_witness :
  reaches (call_of Demo.site (Demo.met "workspace") Demo.call no_webhooks) "b1" "github" ("workspace", "w1") /\
  refused_call Demo.site (Demo.met "project") Demo.call no_webhooks.
Proof.
  destruct (bindings_scoped Demo.site (Demo.met "workspace") Demo.call no_webhooks) as (_ & Hb & _).
  destruct (bindings_scoped Demo.site (Demo.met "project") Demo.call no_webhooks) as (_ & _ & _ & Hr). split.
  - destruct (Hb "b1") as (grant & scope & [= <-] & Hs & _ & Ha); [by vm_compute|].
    assert (scope = ("workspace", "w1")) as -> by (by inversion Hs). apply Ha. eexists. by vm_compute.
  - apply Hr. intros grant scope [= <-] Hs. inversion Hs.
Defined.
