(* ===== verification/Requests.v ===== *)
(** The pure steps of one request of an application ([app/src/implement/dispatch.ts], [bounded.ts], [anonymous.ts]): its
    admission, its body within a bound, its strict input, and its output, JSON or a redirect.

    What the platform reads in texts (URLs, UTF-8, JSON, numbers) is a class; a thrown error is [Raised] of [Faults.v]. The steps
    that ask another component are in [Calls.v], and the pipeline that composes both in [Dispatch.v]. *)

From S2P Require Import Prelude Json Shapes Permissions Endpoints Headers Authorize Digest Rules Project Faults Params Clients.
From Stdlib Require Import ZArith Lia String Ascii.
From stdpp Require Import base tactics strings option list.

Open Scope Z_scope.

Notation Bytes := (list Z).
Notation Fields := (list (string * Unknown)).

Record Request := mkRequest { rq_method : string; rq_url : string; rq_header : string -> option string }.

(** [new URL(text)]: its protocol and its origin; [None] where it throws. *)
Record ParsedUrl := mkParsed { u_protocol : string; u_origin : string; u_hostname : string; u_search : string; u_params : list (string * string) }.

Class RequestTexts := {
  new_URL : string -> option ParsedUrl;
  form_params : string -> list (string * string);   (* new URLSearchParams *)
  utf8_fatal : Bytes -> option string;
  utf8_lossy : Bytes -> string;
  json_parse : string -> option Unknown;
  number_of : string -> jsnum;                      (* Number *)
}.

(** [request.headers.get] *)
Definition header (request : Request) (name : string) : option string := rq_header request name.

(** [mediaType] *)
Definition mediaType (header : option string) : option string :=
  match header with
  | None => None
  | Some value => let type := Js.toLowerCase (Js.trim (nth 0 (Js.split ";" value) "")) in if (type =? "")%string then None else Some type
  end.

(** ** Admission *)

Definition quoted (id : string) : string := "'" +:+ id +:+ "'".

Definition content_type_refused (row : EndpointRow) (admission : BodyAdmission) : Raised :=
  HttpError 400 "admission" (quoted (e_id row) +:+ " admits Content-Type " +:+ Js.join " or " (contentTypes admission)).

(** [admitContentType] *)
Definition admitContentType (row : EndpointRow) (request : Request) : Raised + unit :=
  match e_admission row with
  | None => inr tt
  | Some admission =>
      match mediaType (header request "Content-Type") with
      | Some type => if Js.elem type (contentTypes admission) then inr tt else inl (content_type_refused row admission)
      | None => inl (content_type_refused row admission)
      end
  end.

(** [admit] *)
Definition admit_caller (row : EndpointRow) (request : Request) : Raised + unit :=
  if negb (rq_method request =? "GET")%string && negb (is_some (header request "Authorization"))
     && negb (bool_decide (header request "Sec-Fetch-Site" = Some "same-origin"))
  then inl (HttpError 403 "admission" "A session request that is not a GET must be same-origin (Sec-Fetch-Site: same-origin)")
  else admitContentType row request.

(** [maxBytesOf] *)
Definition maxBytesOf (row : EndpointRow) : Raised + Z :=
  match e_admission row ≫= maxBytes with Some limit => inr limit | None => inl (Fault "contract_inconsistent" 500) end.

(** [proxySecretDigest], its 32 bytes in hex. *)
Definition proxySecretDigest (secret : string) : string := sha256Hex secret.

(** [#throughProxy]: two digests of 32 bytes are compared. *)
Definition throughProxy (expected : option string) (request : Request) : bool :=
  match expected with
  | None => true
  | Some expected =>
      let presented := default "" (header request "X-Fabrika-Proxy-Secret") in
      negb (presented =? "")%string && (proxySecretDigest presented =? expected)%string
  end.

(** [#checkEndpoint] of an endpoint whose row has this version's digest. *)
Definition checkEndpoint (health : bool) (id : string) (digest : option string) (request : Request) : Raised + unit :=
  match header request "X-Fabrika-Endpoint" with
  | None => if health then inr tt else inl (Fault "endpoint_decision_missing" 503)
  | Some value =>
      match parseEndpointHeader value with
      | None => inl (Fault "endpoint_decision_missing" 503)
      | Some (named, applied) =>
          if (named =? id)%string && bool_decide (Some applied = digest) then inr tt else inl (Fault "endpoint_decision_mismatch" 503)
      end
  end.

(** What a byte budget is charged: the declared length, at most the body limit. *)
Definition charged_bytes (declared : option Z) (limit : Z) : Z :=
  Z.min (match declared with Some bytes => if 0 <? bytes then bytes else limit | None => limit end) limit.

(** ** The body *)

(** [String] of an integer. *)
Class IntegerText := integer_text : Z -> string.

Definition bytesPerSecond : Z := 16 * 1024.
Definition minMs : Z := 30000.

(** [bodyDeadlineMs] *)
Definition bodyDeadlineMs (maxBytes : Z) : Z := Z.max minMs (- (- (maxBytes * 1000) / bytesPerSecond)).

(** What [reader.read()] answers: a chunk, the end, or a failure; the deadline's abort is a failure. *)
Inductive Chunk := Data (bytes : Bytes) | Broken.

(** The loop of [readBoundedBytes] over the chunks that come: the bytes, [None] past the bound, or the failed read. *)
Fixpoint read_chunks (maxBytes : Z) (chunks : list Chunk) (read : Bytes) : unit + option Bytes :=
  match chunks with
  | [] => inr (Some read)
  | Broken :: _ => inl tt
  | Data bytes :: chunks =>
      let read := read ++ bytes in
      if maxBytes <? Z.of_nat (length read) then inr None else read_chunks maxBytes chunks read
  end.

(** [readBoundedBytes]; [declared] is the length the sender declared, as a finite number. *)
Definition readBoundedBytes (maxBytes : Z) (declared : option Z) (chunks : list Chunk) : unit + option Bytes :=
  match declared with
  | Some length => if maxBytes <? length then inr None else read_chunks maxBytes chunks []
  | None => read_chunks maxBytes chunks []
  end.

Definition abortedBody : Raised := HttpError 400 "aborted" "The body could not be read to its end".

(** [readBoundedBody]: [late] is whether the deadline aborted the read. *)
Definition readBoundedBody `{IntegerText} (maxBytes : Z) (declared : option Z) (late : bool) (chunks : list Chunk) : Raised + Bytes :=
  match readBoundedBytes maxBytes declared chunks with
  | inl _ => inl (if late then HttpError 408 "body_timeout" "The body did not arrive within its deadline" else abortedBody)
  | inr None => inl (HttpError 413 "too_large" ("The body is larger than " +:+ integer_text maxBytes +:+ " bytes"))
  | inr (Some bytes) => inr bytes
  end.

(** ** The input *)

Definition NUL : ascii := ascii_of_nat 0.

Definition has_nul (text : string) : bool := negb (Js.forall_units (fun c => negb (Ascii.eqb c NUL)) text).

Section Input.
Context `{RequestTexts} `{NumberText} `{NumberRead} `{Zod} `{IntegerText}.

(** [utf8Body] and [parseJson] *)
Definition utf8Body (body : Bytes) : Raised + string :=
  match utf8_fatal body with Some text => inr text | None => inl (BadRequestError "The body is not UTF-8") end.

Definition parseJson (body : Bytes) : Raised + Unknown :=
  match utf8_fatal body with
  | None => inl (BadRequestError "The body is not JSON")
  | Some text => match json_parse text with Some value => inr value | None => inl (BadRequestError "The body is not JSON") end
  end.

(** [nulAt]: the path of the first string, or key, that holds U+0000. *)
Fixpoint nulAt (value : Unknown) (path : list string) {struct value} : option (list string) :=
  match value with
  | UStr text => if has_nul text then Some path else None
  | UArr items =>
      (fix each index items :=
        match items with
        | [] => None
        | item :: items => match nulAt item (path ++ [integer_text index]) with Some found => Some found | None => each (index + 1) items end
        end) 0 items
  | UObj fields =>
      (fix each fields :=
        match fields with
        | [] => None
        | (key, item) :: fields =>
            match (if has_nul key then Some (path ++ [key]) else nulAt item (path ++ [key])) with Some found => Some found | None => each fields end
        end) fields
  | _ => None
  end.

Definition issue_value (issue : Issue) : Unknown :=
  UObj [("path", UStr (Js.join "." (issue_path issue))); ("code", UStr (issue_code issue)); ("message", UStr (issue_message issue))].

Definition or_input (path : string) : string := if (path =? "")%string then "input" else path.

Definition validation (message : string) (issues : list Issue) : Raised :=
  http_error "HttpError" 400 "validation" message (Some (UArr (map issue_value issues))).

(** [strictInput] *)
Definition strictInput (id : string) (schema : Schema) (value : Unknown) : Raised + Fields :=
  match safeParse schema value with
  | inl issues =>
      inl (validation match issues with
                      | [] => "Invalid input"
                      | first :: _ => or_input (Js.join "." (issue_path first)) +:+ ": " +:+ issue_message first
                      end issues)
  | inr (UObj fields) =>
      match nulAt (UObj fields) [] with
      | Some path => inl (validation (or_input (Js.join "." path) +:+ ": a string may not contain U+0000") [mkIssue path "invalid_format" "a string may not contain U+0000"])
      | None => inr fields
      end
  | inr _ => inl (BadRequestError (quoted id +:+ ": the input is not an object"))
  end.

(** [request.url]'s parameters, within the length a URL may have. *)
Definition url_fields (request : Request) (shape : option SchemaShape) : Raised + Fields :=
  params ← urlParams (fun url => from_option u_params [] (new_URL url)) (rq_url request);
  paramsObject params shape.

(** [readInput] of a POST, once its body was read: a form's fields, JSON, or nothing. *)
Definition body_value (row : EndpointRow) (request : Request) (text : string) : Raised + Unknown :=
  if bool_decide (mediaType (header request "Content-Type") = Some "application/x-www-form-urlencoded") then UObj <$> paramsObject (form_params text) (e_input row)
  else if (Js.trim text =? "")%string then inr (UObj [])
  else match json_parse text with Some value => inr value | None => inl (BadRequestError "The body is not JSON") end.

(** The end of [readInput]: a procedure without input takes nothing. *)
Definition input_of (id : string) (schema : option Schema) (body : Unknown) : Raised + Fields :=
  match schema with
  | None => match body with UObj [] => inr [] | _ => inl (BadRequestError (quoted id +:+ " takes no input; send {} or an empty body")) end
  | Some schema => strictInput id schema body
  end.

(** [readQuery] *)
Definition readQuery (id : string) (query : option (Schema * SchemaShape)) (request : Request) : Raised + option Fields :=
  match query with
  | None => inr None
  | Some (schema, shape) => fields ← url_fields request (Some shape); Some <$> strictInput id schema (UObj fields)
  end.

(** [takeField] *)
Definition takeField (input : Fields) (field : string) : Raised + string * Fields :=
  match lookup_field field input with
  | Some (UStr value) => inr (value, List.filter (fun entry => negb (entry.1 =? field)%string) input)
  | _ => inl (BadRequestError (field +:+ ": a string is required"))
  end.

(** [slackChallenge] *)
Definition slackChallenge (payload : Unknown) : option string :=
  match payload with
  | UObj fields =>
      match lookup_field "type" fields, lookup_field "challenge" fields with
      | Some (UStr type), Some (UStr challenge) => if (type =? "url_verification")%string then Some challenge else None
      | _, _ => None
      end
  | _ => None
  end.

(** [stripped] *)
Definition stripped (id : string) (schema : Schema) (payload : Unknown) : Raised + Unknown :=
  match project schema payload with Some value => inr value | None => inl (BadRequestError (quoted id +:+ ": the delivery matches no branch of the declared input")) end.

(** ** The output *)

Definition projectSchema (schema : Schema) (result : Unknown) : Raised + Unknown :=
  match project schema result with Some value => inr value | None => inl (Fault "output_refused" 500) end.

(** [asksForJson] *)
Definition asksForJson (request : Request) : bool :=
  let accept := Js.toLowerCase (default "" (header request "Accept")) in Js.includes accept "application/json" && negb (Js.includes accept "text/html").

Definition redirect_to (output : Unknown) : string :=
  match output with UObj fields => match lookup_field "to" fields with Some (UStr to) => to | _ => "" end | _ => "" end.

Definition is_own (to : string) : bool := Js.startsWith to "/" && negb (Js.startsWith to "//") && negb (Js.includes to "\").

Definition is_listed (origins carried : list string) (to : string) : bool :=
  match new_URL to with
  | None => false
  | Some url =>
      ((u_protocol url =? "https:")%string && Js.elem (u_origin url) origins)
      || (((u_protocol url =? "https:")%string || (u_protocol url =? "http:")%string) && Js.elem to carried)
  end.

(** [redirectResponse] *)
Definition redirectResponse (origins : list string) (output : Unknown) (request : Request) (carried : list string) : Raised + Response :=
  let to := redirect_to output in
  if negb (is_own to) && negb (is_listed origins carried to) then inl (Fault "redirect_refused" 500)
  else if asksForJson request then jsonResponse (UObj [("result", UObj [("to", UStr to)])]) 200
  else new_Response (if (rq_method request =? "GET")%string then 302 else 303) [("Location", to)] NoBody.

(** [outputResponse] *)
Definition outputResponse (row : EndpointRow) (schema : Schema) (result : Unknown) (request : Request) (carried : list string) : Raised + Response :=
  projected ← projectSchema schema result;
  match safeParse schema projected with
  | inl _ => inl (Fault "output_refused" 500)
  | inr data =>
      match e_output row with
      | Some (OutRedirect origins) => redirectResponse origins data request carried
      | _ => jsonResponse (UObj [("result", data)]) 200
      end
  end.

End Input.

(** ** What the steps let through *)

Section UnknownInduction.
Variable P : Unknown -> Prop.
Hypotheses (HU : P UUndefined) (HN : P UNull) (HB : forall b, P (UBool b)) (HM : forall n, P (UNum n)) (HS : forall s, P (UStr s)) (HO : forall k, P (UOther k)).
Hypothesis HA : forall items, Forall P items -> P (UArr items).
Hypothesis HF : forall fields, Forall (fun field => P field.2) fields -> P (UObj fields).

Fixpoint unknown_ind' (v : Unknown) : P v :=
  match v with
  | UUndefined => HU | UNull => HN | UBool b => HB b | UNum n => HM n | UStr s => HS s | UOther k => HO k
  | UArr items => HA items ((fix each l : Forall P l := match l with [] => Forall_nil_2 P | x :: l => Forall_cons_2 P x l (unknown_ind' x) (each l) end) items)
  | UObj fields => HF fields ((fix each l : Forall (fun field => P field.2) l :=
      match l with [] => Forall_nil_2 _ | x :: l => Forall_cons_2 _ x l (unknown_ind' x.2) (each l) end) fields)
  end.

End UnknownInduction.

(** No string and no key of a value holds U+0000, however deep. *)
Fixpoint storable (v : Unknown) : Prop :=
  match v with
  | UStr text => has_nul text = false
  | UArr items => (fix each items := match items with [] => True | item :: items => storable item /\ each items end) items
  | UObj fields => (fix each fields := match fields with [] => True | (key, item) :: fields => (has_nul key = false /\ storable item) /\ each fields end) fields
  | _ => True
  end.

Section Guards.
Context `{RequestTexts} `{NumberText} `{NumberRead} `{Zod} `{IntegerText}.

Lemma nulAt_storable v path : nulAt v path = None <-> storable v.
Proof.
  revert path. induction v as [| | | |text| |items IH|fields IH] using unknown_ind'; intros path; cbn [nulAt storable]; try done.
  - by destruct (has_nul text).
  - generalize 0 as index. induction IH as [|item items Hi _ IHl]; intros index; [done|]. rewrite <-(IHl (index + 1)), <-(Hi (path ++ [integer_text index])).
    destruct (nulAt item _); naive_solver.
  - induction IH as [|[key item] fields Hi _ IHl]; [done|]. rewrite <-IHl, <-(Hi (path ++ [key])). cbn. destruct (has_nul key); [naive_solver|]. destruct (nulAt item _); naive_solver.
Qed.

(** What an endpoint's input is: exactly what its schema makes of the value sent, an object, and no string or key in it, at
    any depth, holds U+0000, which the database could not store. *)
Theorem strictInput_exact id schema value fields :
  strictInput id schema value = inr fields <-> safeParse schema value = inr (UObj fields) /\ storable (UObj fields).
Proof.
  unfold strictInput. destruct (safeParse schema value) as [issues|data]; [naive_solver|]. destruct data; try (split; [done|by intros [[=] _]]).
  destruct (nulAt _ []) as [path|] eqn:En; [|apply nulAt_storable in En; naive_solver].
  split; [done|]. intros [[= ->] Hs]. apply (nulAt_storable _ []) in Hs. congruence.
Qed.

Lemma admitContentType_exact row request : admitContentType row request = inr tt <->
  forall admission, e_admission row = Some admission -> exists type, mediaType (header request "Content-Type") = Some type /\ type ∈ contentTypes admission.
Proof.
  unfold admitContentType. destruct (e_admission row) as [admission|]; [|split; [done|]; by intros]. destruct (mediaType _) as [type|].
  - destruct (Js.elem type (contentTypes admission)) eqn:E; split; try done.
    + intros _ ? [= <-]. exists type. split; [done|]. by apply elem_spec.
    + intros Hx. destruct (Hx admission eq_refl) as (? & [= <-] & Hin). apply elem_spec in Hin. congruence.
  - split; [done|]. intros Hx. by destruct (Hx admission eq_refl) as (? & ? & _).
Qed.

(** A session's request, one without an [Authorization] header, changes nothing unless it comes from the application's own
    origin. *)
Lemma admit_exact row request : admit_caller row request = inr tt <->
  (rq_method request = "GET" \/ is_Some (header request "Authorization") \/ header request "Sec-Fetch-Site" = Some "same-origin") /\
  admitContentType row request = inr tt.
Proof.
  unfold admit_caller. destruct (String.eqb_spec (rq_method request) "GET") as [Hm|Hm]; cbn [negb andb]; [naive_solver|].
  destruct (header request "Authorization"); cbn [is_some negb andb]; [naive_solver|]. case_bool_decide as Hs; cbn [negb]; [naive_solver|].
  split; [done|]. intros [[?|[[? [=]]|?]] _]; done.
Qed.

Lemma throughProxy_exact expected request : throughProxy (Some expected) request = true <->
  exists secret, header request "X-Fabrika-Proxy-Secret" = Some secret /\ secret <> "" /\ proxySecretDigest secret = expected.
Proof.
  unfold throughProxy. rewrite andb_true_iff, negb_true_iff, String.eqb_neq, String.eqb_eq. destruct (header request _) as [secret|]; cbn; naive_solver.
Qed.

Lemma checkEndpoint_exact id digest request : checkEndpoint false id digest request = inr tt <->
  exists applied, digest = Some applied /\ id <> "" /\ isDigest applied = true /\ header request "X-Fabrika-Endpoint" = Some (formatEndpointHeader id applied).
Proof.
  unfold checkEndpoint. destruct (header request _) as [value|]; [|naive_solver]. destruct (parseEndpointHeader value) as [[named applied]|] eqn:Ep.
  - split.
    + apply endpoint_header_roundtrip in Ep as (Hn & Hd & ->). destruct (String.eqb_spec named id) as [->|]; [|done]. cbn. case_bool_decide as He; [|done]. intros _. by exists applied.
    + intros (a & -> & Hn & Ha & [= ->]). assert (Hp : parseEndpointHeader (formatEndpointHeader id a) = Some (id, a)) by (by apply endpoint_header_roundtrip).
      rewrite Hp in Ep. injection Ep as <- <-. rewrite String.eqb_refl. by rewrite bool_decide_eq_true_2.
  - split; [done|]. intros (a & -> & Hn & Ha & [= ->]). assert (Hp : parseEndpointHeader (formatEndpointHeader id a) = Some (id, a)) by (by apply endpoint_header_roundtrip). congruence.
Qed.

Lemma read_chunks_spec maxBytes chunks read :
  match read_chunks maxBytes chunks read with
  | inr (Some bytes) => exists data, chunks = map Data data /\ bytes = read ++ concat data /\ (chunks <> [] -> Z.of_nat (length bytes) <= maxBytes)
  | inr None => exists data rest, chunks = map Data data ++ rest /\ maxBytes < Z.of_nat (length (read ++ concat data))
  | inl _ => Broken ∈ chunks
  end.
Proof.
  revert read. induction chunks as [|[bytes|] chunks IH]; intros read; cbn [read_chunks].
  - exists []. by rewrite app_nil_r.
  - destruct (Z.ltb_spec maxBytes (Z.of_nat (length (read ++ bytes)))) as [Hlt|Hge].
    + exists [bytes], chunks. cbn. by rewrite app_nil_r.
    + specialize (IH (read ++ bytes)). destruct (read_chunks _ _ _) as [|[all|]].
      * by right.
      * destruct IH as (data & -> & -> & Hl). exists (bytes :: data). cbn. rewrite app_assoc. split; [done|]. split; [done|]. intros _.
        destruct data; [cbn; rewrite app_nil_r; lia|by apply Hl].
      * destruct IH as (data & rest & -> & Hl). exists (bytes :: data), rest. cbn. by rewrite app_assoc.
  - left.
Qed.

(** A body within its bound: what is read is everything that was sent, in order, and never more than the bound; a body past
    it, declared or sent, is refused whole, and one that breaks off is never taken for a shorter body. *)
Theorem readBoundedBytes_exact maxBytes declared chunks bytes : 0 <= maxBytes ->
  readBoundedBytes maxBytes declared chunks = inr (Some bytes) <->
  (forall length, declared = Some length -> length <= maxBytes) /\ exists data, chunks = map Data data /\ bytes = concat data /\ Z.of_nat (length bytes) <= maxBytes.
Proof.
  intros Hm. assert (Hr : read_chunks maxBytes chunks [] = inr (Some bytes) <-> exists data, chunks = map Data data /\ bytes = concat data /\ Z.of_nat (length bytes) <= maxBytes).
  { pose proof (read_chunks_spec maxBytes chunks []) as Hs. split.
    - intros E. rewrite E in Hs. destruct Hs as (data & -> & -> & Hl). exists data. split; [done|]. split; [done|]. destruct data; [cbn; lia|by apply Hl].
    - intros (data & -> & -> & Hl). destruct (read_chunks _ _ _) as [|[all|]].
      + apply list_elem_of_fmap in Hs as (? & [=] & _).
      + destruct Hs as (data' & Hd & -> & _). apply list_fmap_eq_inj in Hd as ->; [done|]. by intros ? ? [=].
      + destruct Hs as (data' & rest & Hd & Hlt). exfalso. apply fmap_app_inv in Hd as (d1 & d2 & Hd1 & _ & ->).
        apply list_fmap_eq_inj in Hd1 as ->; [|by intros ? ? [=]]. rewrite concat_app, length_app in Hl. cbn in Hlt. lia. }
  unfold readBoundedBytes. destruct declared as [n|]; [|rewrite Hr; naive_solver]. destruct (Z.ltb_spec maxBytes n) as [Hlt|Hge].
  - split; [done|]. intros [Hn _]. specialize (Hn n eq_refl). lia.
  - rewrite Hr. naive_solver.
Qed.

Lemma charged_bound declared limit : 0 <= limit -> 0 <= charged_bytes declared limit <= limit.
Proof. intros Hl. unfold charged_bytes. destruct declared as [n|]; [destruct (Z.ltb_spec 0 n)|]; lia. Qed.

(** Where a redirect goes: its [Location] is a path that begins with one slash and holds no backslash, a URL of an https
    origin the output lists, or an http(s) URL one of the request's verified tokens carries; a target that is none of these is
    the fixed 500, and a client that asks for JSON is told the same target. *)
Theorem redirectResponse_exact origins output request carried : let to := redirect_to output in
  redirectResponse origins output request carried =
    if is_own to || is_listed origins carried to then
      inr (if asksForJson request then mkResponse 200 [("content-type", "application/json")] (JsonBody (UObj [("result", UObj [("to", UStr to)])]))
           else mkResponse (if (rq_method request =? "GET")%string then 302 else 303) [("Location", to)] NoBody)
    else inl (Fault "redirect_refused" 500).
Proof.
  cbn zeta. unfold redirectResponse. rewrite <-negb_orb. destruct (is_own _ || is_listed _ _ _); cbn [negb]; [|done]. destruct (asksForJson request); [done|]. by destruct (rq_method request =? "GET")%string.
Qed.

End Guards.

(** A browser removes tabs and line ends from a URL before it parses it: the target below passes as a path of the application's
    own origin, and a browser follows it to another host. *)
Example tab_redirect_own : is_own ("/" +:+ String (ascii_of_nat 9) "/evil.example") = true.
Proof. reflexivity. Qed.

Lemma readBoundedBytes_exact_witness :
  0 <= 4 /\ readBoundedBytes 4 (Some 3) [Data [1; 2]; Data [3]] = inr (Some [1; 2; 3]) /\ readBoundedBytes 4 None [Data [1; 2]; Data [3; 4; 5]] = inr None /\
  exists data, [Data [1; 2]; Data [3]] = map Data data /\ [1; 2; 3] = concat data /\ Z.of_nat (length [1; 2; 3]) <= 4.
Proof.
  split; [lia|]. split; [by vm_compute|]. split; [by vm_compute|]. apply (readBoundedBytes_exact 4 (Some 3) [Data [1; 2]; Data [3]] [1; 2; 3]); [lia|by vm_compute].
Defined.
