(* ===== verification/Declarations.v ===== *)
(** The off-road reach a site declares ([app/src/implement/invocation.ts]): parsed again at boot, and compared with the reach the
    approved contract holds, which is the one the site runs with. The words of a problem are left out. *)

From S2P Require Import Prelude Json Project.
From Stdlib Require Import ZArith Lia String Ascii.
From stdpp Require Import base tactics strings option list.

Inductive DataKind := KindQuery | KindMutation | KindJob.
Inductive Mode := ReadMode | WriteMode.
Inductive JobMailer := InstallationMailer | OwnMailer.

#[export] Instance DataKind_eq_dec : EqDecision DataKind.
Proof. solve_decision. Defined.
#[export] Instance Mode_eq_dec : EqDecision Mode.
Proof. solve_decision. Defined.

(** [SiteDeclaration] *)
Record SiteDeclaration := mkDeclaration {
  sd_sql : option Mode;
  sd_unscoped : list (string * Mode);
  sd_connect : list string;
  sd_issues : option string;
  sd_mailer : option JobMailer;
  sd_kicks : list string;
  sd_binds : option string;
  sd_signs : list string;
  sd_egress : list string;
}.

Definition NO_DECLARATION : SiteDeclaration := mkDeclaration None [] [] None None [] None [] [].

(** [DeclaredReach]: a site's reach in the contract's artifact, which leaves an optional field out when it is empty. *)
Record DeclaredReach := mkReach {
  dr_sql : option Mode;
  dr_unscoped : list (string * Mode);
  dr_connect : list string;
  dr_issues : option string;
  dr_mailer : option JobMailer;
  dr_kicks : option (list string);
  dr_binds : option string;
  dr_signs : option (list string);
  dr_egress : option (list string);
}.

(** What the parse reads of an artifact: its tables, its imports, and the reach it declares by site. *)
Record Artifact := mkArtifact { at_table : string -> bool; at_import : string -> bool; at_declared : option (list (string * DeclaredReach)) }.

Inductive Problem :=
| NotPlain | UnknownField (field : string) | BadSql | BadUnscoped | NoTable (table : string) | BadMode (table : string) | BadConnect | NoImport (name : string)
| BadIssues | BadMailer | BadKicks | BadBinds | BadSigns | BadEgress | Differs.

Definition DECLARED_FIELDS : list string := ["sql"; "unscoped"; "connect"; "issues"; "mailer"; "kicks"; "binds"; "signs"; "egress"].

Definition mode_of (value : Unknown) : option Mode :=
  match value with UStr text => if (text =? "read")%string then Some ReadMode else if (text =? "write")%string then Some WriteMode else None | _ => None end.

Definition text_of (value : Unknown) : option string := match value with UStr text => Some text | _ => None end.

(** [Array.isArray(field) ? field.filter(typeof 'string') : []], and whether the field is anything else than a list of texts. *)
Definition texts (field : option Unknown) : list string * bool :=
  match field with
  | None => ([], false)
  | Some (UArr items) => (omap text_of items, negb (forallb (fun item => is_some (text_of item)) items))
  | Some UUndefined => ([], false)
  | Some _ => ([], true)
  end.

Definition problem_if (wrong : bool) (problem : Problem) : list Problem := if wrong then [problem] else [].

(** [ownField], where a field that is [undefined] reads as absent. *)
Definition ownField (fields : list (string * Unknown)) (key : string) : option Unknown :=
  match lookup_field key fields with Some UUndefined => None | value => value end.

Definition set_of (l : list string) : list string := foldl (fun set x => if Js.elem x set then set else set ++ [x]) [] l.

(** [[...new Set(l)].sort()] *)
Definition sorted_set (l : list string) : list string := sort_by code_unit_le (set_of l).

Section Declarations.
Variable artifact : Artifact.

(** The loop over [unscoped]; [unscoped['__proto__'] = …] makes no field. *)
Fixpoint parse_unscoped (reads : bool) (tables : list (string * Unknown)) (unscoped : list (string * Mode)) : list (string * Mode) * list Problem :=
  match tables with
  | [] => (unscoped, [])
  | (table, mode) :: tables =>
      if Js.startsWith table "fabrika_" || negb (at_table artifact table) then let (read, problems) := parse_unscoped reads tables unscoped in (read, NoTable table :: problems)
      else match mode_of mode with
           | Some mode =>
               if reads && bool_decide (mode = WriteMode) then let (read, problems) := parse_unscoped reads tables unscoped in (read, BadMode table :: problems)
               else parse_unscoped reads tables (if (table =? "__proto__")%string then unscoped else unscoped ++ [(table, mode)])
           | None => let (read, problems) := parse_unscoped reads tables unscoped in (read, BadMode table :: problems)
           end
  end.

Definition sql_of (reads : bool) (sql : option Unknown) : option Mode * list Problem :=
  match sql with
  | None => (None, [])
  | Some value =>
      match mode_of value with
      | Some ReadMode => (Some ReadMode, [])
      | Some WriteMode => (Some WriteMode, problem_if reads BadSql)
      | None => (None, [BadSql])
      end
  end.

Definition unscoped_of (reads : bool) (field : option Unknown) : list (string * Mode) * list Problem :=
  match field with
  | None => ([], [])
  | Some (UObj tables) => parse_unscoped reads tables []
  | Some _ => ([], [BadUnscoped])
  end.

Definition mailer_of (field : option Unknown) : option JobMailer * list Problem :=
  match field with
  | None => (None, [])
  | Some (UStr "installation") => (Some InstallationMailer, [])
  | Some (UStr "own") => (Some OwnMailer, [])
  | Some _ => (None, [BadMailer])
  end.

Definition text_field (field : option Unknown) (problem : Problem) : option string * list Problem :=
  match field with None => (None, []) | Some value => (text_of value, problem_if (negb (is_some (text_of value))) problem) end.

(** [parseDeclaration]: the declaration, and the problems added. *)
Definition parseDeclaration (declared : Unknown) (kind : DataKind) : SiteDeclaration * list Problem :=
  match declared with
  | UUndefined => (NO_DECLARATION, [])
  | UObj fields =>
      let reads := bool_decide (kind = KindQuery) in
      let unknown := flat_map (fun field => problem_if (negb (Js.elem field.1 DECLARED_FIELDS)) (UnknownField field.1)) fields in
      let (sql, p_sql) := sql_of reads (ownField fields "sql") in
      let (unscoped, p_unscoped) := unscoped_of reads (ownField fields "unscoped") in
      let (connectors, bad_connect) := texts (ownField fields "connect") in
      let p_imports := flat_map (fun name => problem_if (negb (at_import artifact name)) (NoImport name)) connectors in
      let (issues, p_issues) := text_field (ownField fields "issues") BadIssues in
      let (mailer, p_mailer) := mailer_of (ownField fields "mailer") in
      let (kicks, bad_kicks) := texts (ownField fields "kicks") in
      let (binds, p_binds) := text_field (ownField fields "binds") BadBinds in
      let (signs, bad_signs) := texts (ownField fields "signs") in
      let (egress, bad_egress) := texts (ownField fields "egress") in
      (mkDeclaration sql unscoped connectors issues mailer (sorted_set kicks) binds (sorted_set signs) (sorted_set egress),
       unknown ++ p_sql ++ p_unscoped ++ problem_if bad_connect BadConnect ++ p_imports ++ p_issues ++ p_mailer ++ problem_if bad_kicks BadKicks ++ p_binds
         ++ problem_if bad_signs BadSigns ++ problem_if bad_egress BadEgress)
  | _ => (NO_DECLARATION, [NotPlain])
  end.

(** [approvedReach] *)
Definition approvedReach (site : string) : SiteDeclaration :=
  match declared ← at_declared artifact; lookup_field site declared with
  | None => NO_DECLARATION
  | Some reach =>
      mkDeclaration (dr_sql reach) (dr_unscoped reach) (dr_connect reach) (dr_issues reach) (dr_mailer reach) (default [] (dr_kicks reach)) (dr_binds reach)
        (default [] (dr_signs reach)) (default [] (dr_egress reach))
  end.

Context `{NumberText}.

Definition mode_text (mode : Mode) : string := match mode with ReadMode => "read" | WriteMode => "write" end.
Definition mailer_text (mailer : JobMailer) : string := match mailer with InstallationMailer => "installation" | OwnMailer => "own" end.
Definition opt_value (text : option string) : value := match text with Some text => VStr text | None => VNull end.
Definition list_value (l : list string) : value := VArr (map VStr l).

Definition sorted_tables (unscoped : list (string * Mode)) : list (string * Mode) := sort_by (fun a b => code_unit_le a.1 b.1) unscoped.

Definition opt_entry (key : string) (value : option value) : list (string * Json.value) := option_list (pair key <$> value).

Definition nonempty (l : list string) : option value := match l with [] => None | _ => Some (list_value l) end.

(** [describeDeclaration], the value that is written as JSON. *)
Definition description (d : SiteDeclaration) : value :=
  VObj (("sql", opt_value (mode_text <$> sd_sql d))
        :: ("unscoped", VArr (map (fun entry => VArr [VStr entry.1; VStr (mode_text entry.2)]) (sorted_tables (sd_unscoped d))))
        :: ("connect", list_value (sort_by code_unit_le (sd_connect d)))
        :: ("issues", opt_value (sd_issues d))
        :: opt_entry "mailer" ((fun mailer => VStr (mailer_text mailer)) <$> sd_mailer d) ++ opt_entry "kicks" (nonempty (sd_kicks d))
           ++ opt_entry "binds" (VStr <$> sd_binds d) ++ opt_entry "signs" (nonempty (sd_signs d)) ++ opt_entry "egress" (nonempty (sd_egress d))).

Definition describeDeclaration (d : SiteDeclaration) : string := text (description d).

(** [approvedDeclaration] *)
Definition approvedDeclaration (site : string) (leaf : Unknown) (kind : DataKind) : SiteDeclaration * list Problem :=
  let (declared, problems) := parseDeclaration leaf kind in
  let approved := approvedReach site in
  (approved,
   problems ++ match problems with
               | [] => problem_if (negb (describeDeclaration declared =? describeDeclaration approved)%string) Differs
               | _ => []
               end).

(** ** A site never reaches further than what was approved *)

(** The same reach; the order of tables and connectors says nothing. *)
Record same_reach (a b : SiteDeclaration) : Prop := {
  same_sql : sd_sql a = sd_sql b;
  same_unscoped : sd_unscoped a ≡ₚ sd_unscoped b;
  same_connect : sd_connect a ≡ₚ sd_connect b;
  same_issues : sd_issues a = sd_issues b;
  same_mailer : sd_mailer a = sd_mailer b;
  same_kicks : sd_kicks a = sd_kicks b;
  same_binds : sd_binds a = sd_binds b;
  same_signs : sd_signs a = sd_signs b;
  same_egress : sd_egress a = sd_egress b;
}.

Lemma list_value_inj l l' : list_value l = list_value l' -> l = l'.
Proof. unfold list_value. intros [= E]. revert l' E. induction l as [|x l IH]; intros [|y l'] E; try done. cbn in E. injection E as -> E. f_equal. by apply IH. Qed.

Lemma opt_value_inj a b : opt_value a = opt_value b -> a = b.
Proof. destruct a, b; cbn; congruence. Qed.

Lemma mode_text_inj a b : mode_text a = mode_text b -> a = b.
Proof. by destruct a, b. Qed.

Lemma tables_value_inj l l' : map (fun entry : string * Mode => VArr [VStr entry.1; VStr (mode_text entry.2)]) l = map (fun entry => VArr [VStr entry.1; VStr (mode_text entry.2)]) l' -> l = l'.
Proof.
  revert l'. induction l as [|[k m] l IH]; intros [|[k' m'] l'] E; try done. cbn in E. injection E as -> Em E. by rewrite (mode_text_inj _ _ Em), (IH _ E).
Qed.

(** The optional fields, in the order they are written: what they are can be read back. *)
Lemma opt_entry_inj (key : string) (o o' : option value) (rest rest' : list (string * value)) :
  Forall (fun f => f.1 <> key) rest -> Forall (fun f => f.1 <> key) rest' -> opt_entry key o ++ rest = opt_entry key o' ++ rest' -> o = o' /\ rest = rest'.
Proof.
  intros Hr Hr'. unfold opt_entry. destruct o as [v|], o' as [v'|]; cbn; intros E; [injection E as -> ->; done| | |done].
  - destruct rest' as [|f rest']; [done|]. injection E as <- E. by inversion Hr'.
  - destruct rest as [|f rest]; [done|]. injection E as -> E. by inversion Hr.
Qed.

Lemma opt_entry_other key key' o rest : key' <> key -> Forall (fun f : string * value => f.1 <> key) rest -> Forall (fun f => f.1 <> key) (opt_entry key' o ++ rest).
Proof. intros Hk Hr. destruct o; cbn; [by constructor|done]. Qed.

Lemma opt_entry_alone key key' o : key' <> key -> Forall (fun f : string * value => f.1 <> key) (opt_entry key' o).
Proof. intros Hk. destruct o; cbn; by constructor. Qed.

Ltac other_entries := repeat (apply opt_entry_other; [done|]); by apply opt_entry_alone.

Lemma nonempty_inj l l' : nonempty l = nonempty l' -> l = l'.
Proof. destruct l as [|x l], l' as [|y l']; try done. intros E. apply (inj Some) in E. by apply list_value_inj. Qed.

Lemma description_inj a b : description a = description b -> same_reach a b.
Proof.
  intros E. injection E as Es Eu Ec Ei E.
  apply opt_entry_inj in E as [Em E]; [|other_entries..].
  apply opt_entry_inj in E as [Ek E]; [|other_entries..].
  apply opt_entry_inj in E as [Eb E]; [|other_entries..].
  apply opt_entry_inj in E as [Esg E]; [|other_entries..].
  rewrite <-(app_nil_r (opt_entry _ _)), <-(app_nil_r (opt_entry "egress" (nonempty (sd_egress b)))) in E. apply opt_entry_inj in E as [Ee _]; [|constructor..].
  constructor; try by (apply nonempty_inj).
  - apply opt_value_inj in Es. destruct (sd_sql a), (sd_sql b); cbn in Es; try done. f_equal. apply mode_text_inj. by injection Es.
  - apply tables_value_inj in Eu. unfold sorted_tables in Eu. rewrite <-(sort_by_Permutation (fun a b : string * Mode => code_unit_le a.1 b.1) (sd_unscoped a)), Eu. apply sort_by_Permutation.
  - apply (f_equal VArr) in Ec. apply (list_value_inj (sort_by code_unit_le (sd_connect a)) (sort_by code_unit_le (sd_connect b))) in Ec.
    rewrite <-(sort_by_Permutation code_unit_le (sd_connect a)), Ec. apply sort_by_Permutation.
  - by apply opt_value_inj.
  - destruct (sd_mailer a) as [[]|], (sd_mailer b) as [[]|]; by cbn in Em.
  - destruct (sd_binds a), (sd_binds b); cbn in Eb; congruence.
Qed.

End Declarations.

Lemma set_of_elem l x : x ∈ set_of l <-> x ∈ l.
Proof.
  unfold set_of. assert (Hs : forall set, x ∈ foldl (fun set x => if Js.elem x set then set else set ++ [x]) set l <-> x ∈ set \/ x ∈ l).
  { induction l as [|y l IH]; intros set; cbn [foldl]; [rewrite elem_of_nil; tauto|]. rewrite IH, elem_of_cons. destruct (Js.elem y set) eqn:Ey.
    - apply elem_spec in Ey. split; [tauto|]. intros [?|[->|?]]; tauto.
    - rewrite elem_of_app, list_elem_of_singleton. tauto. }
  rewrite Hs, elem_of_nil. tauto.
Qed.

Lemma sorted_set_elem l x : x ∈ sorted_set l <-> x ∈ l.
Proof. unfold sorted_set. by rewrite (sort_by_Permutation code_unit_le (set_of l)), set_of_elem. Qed.

(** A query's parse writes nothing, whatever it says: a problem is the only other outcome. *)
Lemma parse_unscoped_reads artifact tables unscoped read problems : parse_unscoped artifact true tables unscoped = (read, problems) ->
  Forall (fun entry => entry.2 = ReadMode) unscoped -> Forall (fun entry => entry.2 = ReadMode) read.
Proof.
  revert unscoped read problems. induction tables as [|[table mode] tables IH]; intros unscoped read problems; cbn [parse_unscoped]; [by intros [= -> _]|].
  destruct (_ || _); [destruct (parse_unscoped _ _ _ _) eqn:E; intros [= <- _]; by eapply IH|].
  destruct (mode_of mode) as [[]|]; cbn.
  - intros E Hu. eapply IH; [exact E|]. destruct (table =? _)%string; [done|]. apply Forall_app. split; [done|by constructor].
  - destruct (parse_unscoped _ _ _ _) eqn:E; intros [= <- _]; by eapply IH.
  - destruct (parse_unscoped _ _ _ _) eqn:E; intros [= <- _]; by eapply IH.
Qed.

(** *** What a contract gives a site, and what a handler's leaf declares *)

(** The contract's own entry for a site, or nothing when it has none. *)
Definition contract_gives (artifact : Artifact) (site : string) (d : SiteDeclaration) : Prop :=
  (exists before reach after, at_declared artifact = Some (before ++ (site, reach) :: after) /\ Forall (fun entry => entry.1 <> site) before /\
     sd_sql d = dr_sql reach /\ sd_unscoped d = dr_unscoped reach /\ sd_connect d = dr_connect reach /\ sd_issues d = dr_issues reach /\ sd_mailer d = dr_mailer reach /\
     (forall x, x ∈ sd_kicks d <-> exists l, dr_kicks reach = Some l /\ x ∈ l) /\ sd_binds d = dr_binds reach /\
     (forall x, x ∈ sd_signs d <-> exists l, dr_signs reach = Some l /\ x ∈ l) /\ (forall x, x ∈ sd_egress d <-> exists l, dr_egress reach = Some l /\ x ∈ l)) \/
  ((forall declared reach, at_declared artifact = Some declared -> (site, reach) ∉ declared) /\ d = mkDeclaration None [] [] None None [] None [] []).

Definition absent (fields : list (string * Unknown)) (key : string) : Prop := lookup_field key fields = None \/ lookup_field key fields = Some UUndefined.

Definition present (fields : list (string * Unknown)) (key : string) (v : Unknown) : Prop := lookup_field key fields = Some v /\ v <> UUndefined.

(** A field that may be left out, read by [read]. *)
Definition says {A} (fields : list (string * Unknown)) (key : string) (read : Unknown -> A -> Prop) (said : option A) : Prop :=
  match said with None => absent fields key | Some a => exists v, present fields key v /\ read v a end.

Definition says_mode (v : Unknown) (m : Mode) : Prop := match m with ReadMode => v = UStr "read" | WriteMode => v = UStr "write" end.
Definition says_mailer (v : Unknown) (m : JobMailer) : Prop := match m with InstallationMailer => v = UStr "installation" | OwnMailer => v = UStr "own" end.

(** A list of texts, with the same members; left out, it has none. *)
Definition says_list (fields : list (string * Unknown)) (key : string) (l : list string) : Prop :=
  absent fields key /\ l = [] \/
  exists items, lookup_field key fields = Some (UArr items) /\ (forall item, item ∈ items -> exists x, item = UStr x) /\ forall x, x ∈ l <-> UStr x ∈ items.

(** Tables of the application with their modes; a query declares none to write. *)
Definition says_tables (artifact : Artifact) (kind : DataKind) (fields : list (string * Unknown)) (l : list (string * Mode)) : Prop :=
  absent fields "unscoped" /\ l = [] \/
  exists tables, lookup_field "unscoped" fields = Some (UObj tables) /\
    (forall t v, (t, v) ∈ tables -> at_table artifact t = true /\ Js.startsWith t "fabrika_" = false /\ exists m, says_mode v m /\ (kind = KindQuery -> m = ReadMode)) /\
    forall t m, (t, m) ∈ l <-> t <> "__proto__" /\ exists v, (t, v) ∈ tables /\ says_mode v m.

(** A leaf declares exactly the reach [d], and nothing that the kit does not know. *)
Definition leaf_declares (artifact : Artifact) (kind : DataKind) (leaf : Unknown) (d : SiteDeclaration) : Prop :=
  leaf = UUndefined /\ d = mkDeclaration None [] [] None None [] None [] [] \/
  exists fields, leaf = UObj fields /\
    (forall name v, (name, v) ∈ fields -> name ∈ ["sql"; "unscoped"; "connect"; "issues"; "mailer"; "kicks"; "binds"; "signs"; "egress"]) /\
    says fields "sql" says_mode (sd_sql d) /\ (kind = KindQuery -> sd_sql d <> Some WriteMode) /\ says_tables artifact kind fields (sd_unscoped d) /\
    says_list fields "connect" (sd_connect d) /\ (forall name, name ∈ sd_connect d -> at_import artifact name = true) /\
    says fields "issues" (fun v t => v = UStr t) (sd_issues d) /\ says fields "mailer" says_mailer (sd_mailer d) /\ says_list fields "kicks" (sd_kicks d) /\
    says fields "binds" (fun v t => v = UStr t) (sd_binds d) /\ says_list fields "signs" (sd_signs d) /\ says_list fields "egress" (sd_egress d).

Lemma approvedReach_gives artifact site : contract_gives artifact site (approvedReach artifact site).
Proof.
  assert (Hd : forall (o : option (list string)) x, x ∈ default [] o <-> exists l, o = Some l /\ x ∈ l).
  { intros [l|] x; cbn; [naive_solver|]. split; [intros Hx; by apply elem_of_nil in Hx|by intros (? & [=] & _)]. }
  unfold contract_gives, approvedReach. destruct (at_declared artifact) as [declared|]; cbn; [|right; split; [done|done]].
  destruct (lookup_field site declared) as [reach|] eqn:E.
  - left. assert (Hs : exists before after, declared = before ++ (site, reach) :: after /\ Forall (fun entry => entry.1 <> site) before).
    { revert E. induction declared as [|[k r] declared IH]; cbn [lookup_field]; [done|]. destruct (String.eqb_spec site k) as [->|Hne]; [intros [= ->]; by exists [], declared|].
      intros (before & after & -> & Hb)%IH. exists ((k, r) :: before), after. split; [done|]. constructor; [|done]. by apply not_eq_sym. }
    destruct Hs as (before & after & -> & Hb). exists before, reach, after. cbn. split_and!; try done; intros x; apply Hd.
  - right. split; [|done]. intros declared' reach [= <-]. revert E. clear. induction declared as [|[k r] declared IH]; cbn [lookup_field]; [intros _ Hin; by apply elem_of_nil in Hin|].
    destruct (String.eqb_spec site k) as [->|Hne]; [done|]. intros E [Heq|Hin]%elem_of_cons; [congruence|by apply IH].
Qed.

Lemma ownField_spec fields key : match ownField fields key with None => absent fields key | Some v => present fields key v end.
Proof. unfold ownField, absent, present. destruct (lookup_field key fields) as [[]|]; auto; split; done. Qed.

Lemma problem_if_nil wrong problem : problem_if wrong problem = [] -> wrong = false.
Proof. by destruct wrong. Qed.

Lemma texts_says fields key l : texts (ownField fields key) = (l, false) -> says_list fields key l.
Proof.
  pose proof (ownField_spec fields key) as Ho. unfold says_list, texts. destruct (ownField fields key) as [[]|]; try done; [by destruct Ho as [_ []]| |intros [= <-]; by left].
  intros [= <- Hf]. right. exists items. destruct Ho as [-> _]. apply negb_false_iff in Hf. rewrite forallb_forall in Hf. split_and!; [done| |].
  - intros item Hin. specialize (Hf item ltac:(by apply list_elem_of_In)). destruct item; try done. eauto.
  - intros x. rewrite list_elem_of_omap. split; [|intros Hin; by exists (UStr x)]. intros (item & Hin & E). destruct item; try done. by injection E as ->.
Qed.

Lemma sorted_says fields key l : says_list fields key l -> says_list fields key (sorted_set l).
Proof.
  intros [[Ha ->]|(items & Hi & Ht & Hl)]; [by left|right]. exists items. split_and!; [done|done|]. intros x. by rewrite sorted_set_elem.
Qed.

Lemma text_says fields key problem said : text_field (ownField fields key) problem = (said, []) -> says fields key (fun v t => v = UStr t) said.
Proof.
  pose proof (ownField_spec fields key) as Ho. unfold text_field, says. destruct (ownField fields key) as [v|]; [|by intros [= <-]]. intros [= <- Hp%problem_if_nil].
  destruct v; try done. cbn. eauto.
Qed.

Lemma mailer_says fields said : mailer_of (ownField fields "mailer") = (said, []) -> says fields "mailer" says_mailer said.
Proof.
  pose proof (ownField_spec fields "mailer") as Ho. unfold mailer_of, says. destruct (ownField fields "mailer") as [v|]; [|by intros [= <-]].
  destruct v as [| | | |s| | |]; try done. intros E.
  destruct (String.eqb_spec s "installation") as [->|H1]; [injection E as <-; eexists; by split|]. destruct (String.eqb_spec s "own") as [->|H2]; [injection E as <-; eexists; by split|].
  exfalso. revert E. clear Ho. repeat (destruct s as [|[[] [] [] [] [] [] [] []] s]; try discriminate); done.
Qed.

Lemma mode_of_says v m : mode_of v = Some m <-> says_mode v m.
Proof.
  unfold mode_of, says_mode. destruct v as [| | | |s| | |]; try (by destruct m). destruct (String.eqb_spec s "read") as [->|H1]; [destruct m; split; congruence|].
  destruct (String.eqb_spec s "write") as [->|H2]; [destruct m; split; congruence|]. destruct m; split; congruence.
Qed.

Lemma sql_says fields kind said : sql_of (bool_decide (kind = KindQuery)) (ownField fields "sql") = (said, []) ->
  says fields "sql" says_mode said /\ (kind = KindQuery -> said <> Some WriteMode).
Proof.
  pose proof (ownField_spec fields "sql") as Ho. unfold sql_of, says. destruct (ownField fields "sql") as [v|]; [|by intros [= <-]]. destruct (mode_of v) as [[]|] eqn:Em; [|intros [= <- Hp%problem_if_nil]|done].
  - intros [= <-]. split; [|done]. exists v. split; [done|]. by apply mode_of_says.
  - apply bool_decide_eq_false in Hp. split; [|done]. exists v. split; [done|]. by apply mode_of_says.
Qed.

Lemma parse_unscoped_says artifact kind tables unscoped read : parse_unscoped artifact (bool_decide (kind = KindQuery)) tables unscoped = (read, []) ->
  (forall t v, (t, v) ∈ tables -> at_table artifact t = true /\ Js.startsWith t "fabrika_" = false /\ exists m, says_mode v m /\ (kind = KindQuery -> m = ReadMode)) /\
  forall t m, (t, m) ∈ read <-> (t, m) ∈ unscoped \/ (t <> "__proto__" /\ exists v, (t, v) ∈ tables /\ says_mode v m).
Proof.
  revert unscoped. induction tables as [|[table value] tables IH]; intros unscoped; cbn [parse_unscoped].
  - intros [= <-]. split; [intros t v Hin; by apply elem_of_nil in Hin|]. intros t m. split; [auto|]. intros [?|(_ & v & Hin & _)]; [done|by apply elem_of_nil in Hin].
  - destruct (_ || _) eqn:Et; [by destruct (parse_unscoped _ _ _ _)|]. apply orb_false_iff in Et as [Ef Et%negb_false_iff].
    destruct (mode_of value) as [mode|] eqn:Em; [|by destruct (parse_unscoped _ _ _ _)]. apply mode_of_says in Em.
    destruct (bool_decide (kind = KindQuery) && _) eqn:Er; [by destruct (parse_unscoped _ _ _ _)|]. intros Hp. apply IH in Hp as [Hall Hread]. clear IH.
    assert (Hone : forall m, says_mode value m -> m = mode) by (intros m Hm; destruct m, mode; cbn in Hm, Em; congruence). split.
    + intros t v [[= -> ->]|Hin]%elem_of_cons; [|by apply Hall]. split_and!; [done|done|]. exists mode. split; [done|]. intros ->. rewrite bool_decide_eq_true_2 in Er by done.
      apply bool_decide_eq_false in Er. by destruct mode.
    + intros t m. rewrite Hread. setoid_rewrite elem_of_cons. destruct (String.eqb_spec table "__proto__") as [->|Hne].
      * split; [intros [?|(? & v & ? & ?)]; [by left|right; split; [done|]; exists v; auto]|]. intros [?|(? & v & [[= -> ->]|?] & ?)]; [by left|done|right; split; [done|]; by exists v].
      * rewrite elem_of_app, list_elem_of_singleton. split.
        -- intros [[?|[= -> ->]]|(? & v & ? & ?)]; [by left|right; split; [done|]; exists value; auto|right; split; [done|]; exists v; auto].
        -- intros [?|(? & v & [[= -> ->]|?] & Hm)]; [left; by left|left; right; by rewrite (Hone m Hm)|right; split; [done|]; by exists v].
Qed.

Lemma unscoped_says artifact fields kind l : unscoped_of artifact (bool_decide (kind = KindQuery)) (ownField fields "unscoped") = (l, []) -> says_tables artifact kind fields l.
Proof.
  pose proof (ownField_spec fields "unscoped") as Ho. unfold unscoped_of, says_tables. destruct (ownField fields "unscoped") as [[]|]; try done; [|intros [= <-]; by left].
  intros Hp. apply parse_unscoped_says in Hp as [Hall Hread]. right. destruct Ho as [-> _]. eexists. split_and!; [done|done|]. intros t m. rewrite Hread.
  split; [intros [Hn|?]; [by apply elem_of_nil in Hn|done]|auto].
Qed.

(** What the parse makes of a leaf without a problem is what it declares. *)
Lemma parse_declares artifact leaf kind d : parseDeclaration artifact leaf kind = (d, []) -> leaf_declares artifact kind leaf d.
Proof.
  unfold parseDeclaration, leaf_declares. destruct leaf as [| | | | | |fields|]; try done; [intros [= <-]; by left|].
  destruct (sql_of _ _) as [sql p1] eqn:E1. destruct (unscoped_of _ _ _) as [unscoped p2] eqn:E2. destruct (texts (ownField fields "connect")) as [connect b3] eqn:E3.
  destruct (text_field _ BadIssues) as [issues p4] eqn:E4. destruct (mailer_of _) as [mailer p5] eqn:E5. destruct (texts (ownField fields "kicks")) as [kicks b6] eqn:E6.
  destruct (text_field _ BadBinds) as [binds p7] eqn:E7. destruct (texts (ownField fields "signs")) as [signs b8] eqn:E8. destruct (texts (ownField fields "egress")) as [egress b9] eqn:E9.
  intros [= <- Hp]. rewrite !app_nil in Hp. destruct Hp as (Hu & -> & -> & ->%problem_if_nil & Hi & -> & -> & ->%problem_if_nil & -> & ->%problem_if_nil & ->%problem_if_nil).
  right. exists fields. apply sql_says in E1 as [? ?]. cbn [sd_sql sd_unscoped sd_connect sd_issues sd_mailer sd_kicks sd_binds sd_signs sd_egress]. split_and!; try done.
  - intros name v Hin. apply list_elem_of_In in Hin. destruct (Js.elem name DECLARED_FIELDS) eqn:Ee; [by apply elem_spec in Ee|exfalso].
    assert (Hx : In (UnknownField name) (flat_map (fun field : string * Unknown => problem_if (negb (Js.elem field.1 DECLARED_FIELDS)) (UnknownField field.1)) fields)).
    { apply in_flat_map. exists (name, v). split; [done|]. cbn [fst]. rewrite Ee. by left. }
    exact (eq_ind _ (fun l => In (UnknownField name) l) Hx [] Hu).
  - by apply unscoped_says.
  - by apply texts_says.
  - intros name Hin. destruct (at_import artifact name) eqn:Ei; [done|exfalso].
    assert (Hx : In (NoImport name) (flat_map (fun name => problem_if (negb (at_import artifact name)) (NoImport name)) connect)).
    { apply in_flat_map. exists name. split; [by apply list_elem_of_In|]. rewrite Ei. by left. }
    exact (eq_ind _ (fun l => In (NoImport name) l) Hx [] Hi).
  - by eapply text_says.
  - by apply mailer_says.
  - by apply sorted_says, texts_says.
  - by eapply text_says.
  - by apply sorted_says, texts_says.
  - by apply sorted_says, texts_says.
Qed.

(** The order of tables and connectors says nothing. *)
Lemma declares_same artifact kind leaf a b : same_reach a b -> leaf_declares artifact kind leaf a -> leaf_declares artifact kind leaf b.
Proof.
  destruct a as [sql unscoped connect issues mailer kicks binds signs egress], b as [sql' unscoped' connect' issues' mailer' kicks' binds' signs' egress'].
  intros [Es Eu Ec Ei Em Ek Eb Esi Ee]. cbn in Es, Eu, Ec, Ei, Em, Ek, Eb, Esi, Ee. subst. intros [[-> [= -> -> -> -> -> -> -> -> ->]]|(fields & -> & Hn & Hs & Hq & Ht & Hc & Hi & Hrest)].
  - left. apply Permutation_nil_l in Eu, Ec. by subst.
  - right. exists fields. cbn in *. split_and!; try apply Hrest; try done.
    + destruct Ht as [[? ->]|(tables & ? & ? & Hl)]; [left; by apply Permutation_nil_l in Eu as ->|right]. exists tables. split_and!; [done|done|]. intros t m. by rewrite <-Eu.
    + destruct Hc as [[? ->]|(items & ? & ? & Hl)]; [left; by apply Permutation_nil_l in Ec as ->|right]. exists items. split_and!; [done|done|]. intros x. by rewrite <-Ec.
    + intros name Hin. apply Hi. by rewrite Ec.
Qed.

(** C28. A site runs with the reach its approved contract declares for it, whatever its handler's own declaration says: the
    contract's entry of that very site, or nothing when it has none. And boot that finds no problem in it has seen a handler
    that declares exactly that reach: the same SQL mode, the same tables and modes, the same imports, link mount, mailer,
    kicks, webhook, token purposes and egress origins, and nothing the kit does not know; a query's writes nothing. *)
Theorem approved_reach `{NumberTextLaws} artifact site leaf kind : exists d,
  contract_gives artifact site d /\ (approvedDeclaration artifact site leaf kind).1 = d /\
  ((approvedDeclaration artifact site leaf kind).2 = [] -> leaf_declares artifact kind leaf d).
Proof.
  exists (approvedReach artifact site). split; [apply approvedReach_gives|].
  unfold approvedDeclaration. destruct (parseDeclaration artifact leaf kind) as [declared problems] eqn:Ep. cbn [fst snd]. split; [done|].
  destruct problems as [|p problems]; [|done]. cbn [app]. intros Hp.
  destruct (String.eqb_spec (describeDeclaration declared) (describeDeclaration (approvedReach artifact site))) as [E|Hne]; [|discriminate Hp].
  eapply declares_same, parse_declares, Ep. apply description_inj. apply (text_inj (description declared) (description (approvedReach artifact site)) "" ""); [done..|].
  rewrite !str_app_nil_r. exact E.
Qed.

Module Demo.

Definition reach : DeclaredReach := mkReach (Some ReadMode) [("notes", ReadMode); ("tags", ReadMode)] ["b"; "a"] None None (Some ["nightly"]) None None None.

Definition artifact : Artifact := mkArtifact (fun table => Js.elem table ["notes"; "tags"]) (fun name => Js.elem name ["a"; "b"]) (Some [("notes.list", reach)]).

Definition leaf (kicks : list string) : Unknown :=
  UObj [("sql", UStr "read"); ("unscoped", UObj [("tags", UStr "read"); ("notes", UStr "read")]); ("connect", UArr [UStr "a"; UStr "b"]); ("kicks", UArr (map UStr kicks))].

End Demo.

Lemma approved_reach_witness :
  (approvedDeclaration Demo.artifact "notes.list" (Demo.leaf ["nightly"; "other"]) KindMutation).2 = [Differs] /\
  exists d, contract_gives Demo.artifact "notes.list" d /\ leaf_declares Demo.artifact KindMutation (Demo.leaf ["nightly"; "nightly"]) d.
Proof.
  split; [by vm_compute|]. destruct (approved_reach Demo.artifact "notes.list" (Demo.leaf ["nightly"; "nightly"]) KindMutation) as (d & Hg & _ & Hd).
  exists d. split; [done|]. apply Hd. by vm_compute.
Defined.
