(* ===== verification/Transactions.v ===== *)
(** The one transaction of an invocation ([InvocationTransaction] of [db/src/database.ts]) and its commit ([Invocation.commit] of
    [app/src/implement/invocation.ts]).

    The handler's statements and the dispatcher's end of the transaction are steps in any order. A statement is sent, and what the
    database answers comes later, in the order of the one connection; in Postgres a refused statement aborts the rest of the
    transaction, and its COMMIT is then answered by a silent ROLLBACK. *)

From S2P Require Import Prelude.
From Stdlib Require Import ZArith Lia String Ascii.
From stdpp Require Import base tactics strings option list.

Inductive Decision := DecideCommit | DecideRollback.

(** How the database settles a COMMIT; after a failed one it may have kept the work. *)
Inductive CommitOutcome := CommitDone | CommitFailed (kept : bool).

(** What a call of the framework gives: its value, or the error thrown. *)
Inductive Ended := Settled | RefusedEnded | StatementFailed | DriverFailed | RequestCancelled | SessionReady.

Section Transactions.
Context {W : Type}.
(** Whether the dialect is SQLite, and whether the invocation only reads. *)
Variables (sqlite readOnly : bool).

Record Transaction := mkTransaction {
  tx_enclosed : bool;
  tx_opened : option bool;       (* [#opened]: a session, or a BEGIN that failed *)
  tx_sent : list W;              (* the statements the database took *)
  tx_flight : list W;            (* the statements sent whose answer has not come *)
  tx_aborted : bool;             (* the database refuses the rest of it *)
  tx_failed : bool;
  tx_ended : bool;
  tx_decided : option Decision;
  tx_kept : option (list W);     (* what the database keeps of it *)
  tx_released : bool;
}.

Definition new_Transaction : Transaction := mkTransaction false None [] [] false false false None None true.

(** The answer to the first statement in flight. *)
Definition settle_one (taken : bool) (tx : Transaction) : Transaction :=
  match tx_flight tx with
  | [] => tx
  | w :: flight =>
      if taken && negb (tx_aborted tx) then
        mkTransaction (tx_enclosed tx) (tx_opened tx) (tx_sent tx ++ [w]) flight (tx_aborted tx) (tx_failed tx) (tx_ended tx) (tx_decided tx) (tx_kept tx) (tx_released tx)
      else
        mkTransaction (tx_enclosed tx) (tx_opened tx) (tx_sent tx) flight (tx_aborted tx || negb sqlite) true (tx_ended tx) (tx_decided tx) (tx_kept tx) (tx_released tx)
  end.

(** The connection answers every statement before it takes the COMMIT: those [taken] says, in order, and the rest refused. *)
Fixpoint drain (fuel : nat) (taken : list bool) (tx : Transaction) : Transaction :=
  match fuel with
  | O => tx
  | S fuel => drain fuel (tail taken) (settle_one (default false (head taken)) tx)
  end.

Definition settle_all (taken : list bool) (tx : Transaction) : Transaction := drain (length (tx_flight tx)) taken tx.

Definition set_ended (tx : Transaction) : Transaction :=
  mkTransaction (tx_enclosed tx) (tx_opened tx) (tx_sent tx) (tx_flight tx) (tx_aborted tx) (tx_failed tx) true (tx_decided tx) (tx_kept tx) (tx_released tx).

Definition decide_as (decision : Decision) (tx : Transaction) : Transaction :=
  mkTransaction (tx_enclosed tx) (tx_opened tx) (tx_sent tx) (tx_flight tx) (tx_aborted tx) (tx_failed tx) (tx_ended tx)
    (Some (default decision (tx_decided tx))) (tx_kept tx) (tx_released tx).

Definition set_failed (tx : Transaction) : Transaction :=
  mkTransaction (tx_enclosed tx) (tx_opened tx) (tx_sent tx) (tx_flight tx) (tx_aborted tx) true (tx_ended tx) (tx_decided tx) (tx_kept tx) (tx_released tx).

(** The connection goes back, with [kept] of the work. *)
Definition give_back (kept : option (list W)) (tx : Transaction) : Transaction :=
  mkTransaction (tx_enclosed tx) (tx_opened tx) (tx_sent tx) [] (tx_aborted tx) (tx_failed tx) (tx_ended tx) (tx_decided tx) kept true.

(** COMMIT: an aborted transaction answers it with a silent ROLLBACK. *)
Definition send_commit (taken : list bool) (outcome : CommitOutcome) (tx : Transaction) : bool * Transaction :=
  let tx := settle_all taken tx in
  match outcome with
  | CommitDone => (true, give_back (if tx_aborted tx then None else Some (tx_sent tx)) tx)
  | CommitFailed kept => (false, give_back (if kept && negb (tx_aborted tx) then Some (tx_sent tx) else None) tx)
  end.

(** [session]; [begun] is how BEGIN settles. *)
Definition session (begun : bool) (tx : Transaction) : Ended * Transaction :=
  if tx_ended tx then (RefusedEnded, tx)
  else match tx_opened tx with
       | Some true => (SessionReady, tx)
       | Some false => (DriverFailed, tx)
       | None =>
           let tx := mkTransaction (tx_enclosed tx) (Some begun) (tx_sent tx) (tx_flight tx) (tx_aborted tx) (tx_failed tx) (tx_ended tx) (tx_decided tx) (tx_kept tx) (negb begun) in
           (if begun then SessionReady else DriverFailed, tx)
       end.

(** [Session.#execute]: a statement through the session, sent unless the transaction has ended. *)
Definition execute (w : W) (tx : Transaction) : Ended * Transaction :=
  if tx_ended tx then (RefusedEnded, tx)
  else match tx_opened tx with
       | Some true => (SessionReady, mkTransaction (tx_enclosed tx) (tx_opened tx) (tx_sent tx) (tx_flight tx ++ [w]) (tx_aborted tx) (tx_failed tx) (tx_ended tx) (tx_decided tx) (tx_kept tx) (tx_released tx))
       | _ => (DriverFailed, tx)
       end.

(** [commit] *)
Definition commit (taken : list bool) (outcome : CommitOutcome) (tx : Transaction) : Ended * Transaction :=
  if tx_ended tx then (RefusedEnded, tx)
  else
    let tx := set_ended tx in
    if tx_enclosed tx then
      if tx_failed tx then (StatementFailed, decide_as DecideRollback tx) else (Settled, decide_as DecideCommit tx)
    else if tx_failed tx then (StatementFailed, give_back None tx)
    else match tx_opened tx with
         | None => (Settled, tx)
         | Some false => (DriverFailed, tx)
         | Some true => let (done, tx) := send_commit taken outcome tx in (if done then Settled else DriverFailed, tx)
         end.

(** [rollback]; after a COMMIT was sent it waits for the connection only. *)
Definition rollback (tx : Transaction) : Transaction :=
  let open := negb (tx_ended tx) in
  let tx := set_ended tx in
  if tx_enclosed tx then decide_as DecideRollback tx
  else if open then give_back None tx else tx.

(** [enclose], before the work: on SQLite a writing invocation's transaction opens here. *)
Definition enter (begun : bool) (tx : Transaction) : Ended * Transaction :=
  if negb sqlite || readOnly then (Settled, tx)
  else if is_some (tx_opened tx) || tx_ended tx then (RefusedEnded, tx)
  else if begun then (Settled, mkTransaction true (Some true) (tx_sent tx) (tx_flight tx) (tx_aborted tx) (tx_failed tx) (tx_ended tx) (tx_decided tx) (tx_kept tx) false)
  else (DriverFailed, set_ended (mkTransaction true None (tx_sent tx) (tx_flight tx) (tx_aborted tx) (tx_failed tx) (tx_ended tx) (tx_decided tx) (tx_kept tx) true)).

(** [enclose], after the work: the COMMIT runs once the work returned and decided it. *)
Definition leave (returned : bool) (taken : list bool) (outcome : CommitOutcome) (tx : Transaction) : Ended * Transaction :=
  if negb (tx_enclosed tx) || tx_released tx then (Settled, tx)
  else
    let tx := set_ended tx in
    match returned, tx_decided tx with
    | true, Some DecideCommit => let (done, tx) := send_commit taken outcome tx in (if done then Settled else DriverFailed, tx)
    | _, _ => (Settled, give_back None tx)
    end.

(** [Invocation.commit]: a request the caller abandoned rolls back. *)
Definition commit_unless (aborted : bool) (taken : list bool) (outcome : CommitOutcome) (tx : Transaction) : Ended * Transaction :=
  if aborted then (RequestCancelled, rollback tx) else commit taken outcome tx.

(** ** Any order of steps *)

Inductive Op :=
| OSession (begun : bool)
| OExecute (w : W)
| OAnswer (taken : bool)
| OFail
| OCommit (aborted : bool) (taken : list bool) (outcome : CommitOutcome)
| ORollback
| OEnter (begun : bool)
| OLeave (returned : bool) (taken : list bool) (outcome : CommitOutcome).

Definition step (tx : Transaction) (op : Op) : Ended * Transaction :=
  match op with
  | OSession begun => session begun tx
  | OExecute w => execute w tx
  | OAnswer taken => (Settled, settle_one taken tx)
  | OFail => (Settled, set_failed tx)
  | OCommit aborted taken outcome => commit_unless aborted taken outcome tx
  | ORollback => (Settled, rollback tx)
  | OEnter begun => enter begun tx
  | OLeave returned taken outcome => leave returned taken outcome tx
  end.

Definition run_from (tx : Transaction) (ops : list Op) : Transaction := foldl (fun tx op => (step tx op).2) tx ops.

Notation run := (run_from new_Transaction).

(** ** What the database keeps *)

Lemma drain_spec fuel taken tx : (length (tx_flight tx) <= fuel)%nat -> let tx' := drain fuel taken tx in
  tx_flight tx' = [] /\ tx_enclosed tx' = tx_enclosed tx /\ tx_opened tx' = tx_opened tx /\ tx_ended tx' = tx_ended tx /\ tx_decided tx' = tx_decided tx /\
  tx_kept tx' = tx_kept tx /\ tx_released tx' = tx_released tx /\ (tx_failed tx = true -> tx_failed tx' = true) /\ (tx_flight tx = [] -> tx' = tx).
Proof.
  revert taken tx. induction fuel as [|fuel IH]; intros taken tx Hf; cbn [drain].
  - assert (tx_flight tx = []) by (destruct (tx_flight tx); [done|cbn in Hf; lia]). done.
  - destruct (IH (tail taken) (settle_one (default false (head taken)) tx)) as (H1 & H2 & H3 & H4 & H5 & H6 & H7 & H8 & H9).
    { unfold settle_one. destruct (tx_flight tx) eqn:E; [rewrite E; cbn; lia|]. cbn in Hf. destruct (_ && _); cbn; lia. }
    revert H1 H2 H3 H4 H5 H6 H7 H8 H9. unfold settle_one. destruct (tx_flight tx) as [|w flight] eqn:E; [naive_solver|]. destruct (_ && _); cbn; naive_solver.
Qed.

(** The state of a transaction: what is kept was kept whole, of a session whose connection was given back. *)
Record tx_ok (tx : Transaction) : Prop := {
  ok_kept : forall ws, tx_kept tx = Some ws -> ws = tx_sent tx /\ tx_ended tx = true /\ tx_released tx = true /\ tx_flight tx = [] /\ tx_aborted tx = false;
  ok_flight : tx_flight tx <> [] -> tx_opened tx = Some true /\ tx_released tx = false;
  ok_released : tx_opened tx = Some true -> tx_released tx = true -> tx_ended tx = true;
  ok_enclosed : tx_enclosed tx = true -> tx_opened tx = Some true \/ tx_released tx = true;
}.

Lemma new_ok : tx_ok new_Transaction.
Proof. by constructor. Qed.

Lemma open_not_kept tx : tx_ok tx -> tx_ended tx = false -> tx_kept tx = None.
Proof. intros [Hk _ _ _] He. destruct (tx_kept tx) as [ws|]; [|done]. destruct (Hk ws eq_refl) as (_ & ? & _). congruence. Qed.

Lemma unopened_no_flight tx : tx_ok tx -> tx_opened tx <> Some true -> tx_flight tx = [].
Proof. intros [_ Hf _ _] Ho. destruct (tx_flight tx); [done|]. by destruct Hf. Qed.

Lemma give_back_ok kept tx : tx_ended tx = true -> (forall ws, kept = Some ws -> ws = tx_sent tx /\ tx_aborted tx = false) -> tx_ok (give_back kept tx).
Proof. intros He Hk. constructor; cbn; try done; [naive_solver|auto]. Qed.

Lemma send_commit_ok taken outcome tx : tx_ended tx = true -> tx_ok (send_commit taken outcome tx).2.
Proof.
  intros He. destruct (drain_spec (length (tx_flight tx)) taken tx ltac:(lia)) as (_ & _ & _ & He' & _). rewrite He in He'. unfold send_commit, settle_all.
  destruct outcome as [|kept]; cbn; apply give_back_ok; try done; intros ws; [destruct (tx_aborted _) eqn:?|destruct kept, (tx_aborted _) eqn:?]; cbn; naive_solver.
Qed.

Lemma send_commit_ended taken outcome tx : tx_ended tx = true -> tx_ended (send_commit taken outcome tx).2 = true.
Proof.
  intros He. destruct (drain_spec (length (tx_flight tx)) taken tx ltac:(lia)) as (_ & _ & _ & He' & _). unfold send_commit, settle_all. by destruct outcome; cbn; rewrite He'.
Qed.

Lemma settle_one_ok taken tx : tx_ok tx -> tx_ok (settle_one taken tx).
Proof.
  intros Hok. unfold settle_one. destruct (tx_flight tx) as [|w flight] eqn:E; [done|]. destruct Hok as [Hk Hf Hr Hn].
  assert (Hno : tx_kept tx = None) by (destruct (tx_kept tx) as [ws|]; [|done]; destruct (Hk ws eq_refl) as (_ & _ & _ & ? & _); congruence).
  destruct (Hf ltac:(by rewrite E)) as [Ho Hrel]. destruct (_ && _); constructor; cbn; rewrite ?Hno, ?Ho, ?Hrel; naive_solver.
Qed.

Lemma set_ended_ok tx : tx_ok tx -> tx_ok (set_ended tx).
Proof. intros [Hk Hf Hr Hn]. constructor; cbn; auto. intros ws Hw. destruct (Hk ws Hw) as (? & _ & ?). done. Qed.

Lemma decide_as_ok decision tx : tx_ok tx -> tx_ok (decide_as decision tx).
Proof. intros [Hk Hf Hr Hn]. by constructor. Qed.

Lemma rollback_ok tx : tx_ok tx -> tx_ok (rollback tx).
Proof.
  intros Hok. unfold rollback. cbn. destruct (tx_enclosed tx); [by apply decide_as_ok, set_ended_ok|]. destruct (tx_ended tx); cbn; [by apply set_ended_ok|]. by apply give_back_ok.
Qed.

Lemma commit_ok taken outcome tx : tx_ok tx -> tx_ok (commit taken outcome tx).2.
Proof.
  intros Hok. unfold commit. destruct (tx_ended tx); [done|]. cbn. destruct (tx_enclosed tx); [destruct (tx_failed tx); by apply decide_as_ok, set_ended_ok|].
  destruct (tx_failed tx); [by apply give_back_ok|]. destruct (tx_opened tx) as [[]|]; [|by apply set_ended_ok..].
  pose proof (send_commit_ok taken outcome (set_ended tx) eq_refl) as Hs. by destruct (send_commit _ _ _).
Qed.

Lemma session_ok begun tx : tx_ok tx -> tx_ok (session begun tx).2.
Proof.
  intros Hok. unfold session. destruct (tx_ended tx) eqn:He; [done|]. destruct (tx_opened tx) as [[]|] eqn:Ho; [done..|]. pose proof (unopened_no_flight tx Hok ltac:(congruence)) as Hf.
  pose proof (open_not_kept tx Hok He) as Hk. constructor; cbn; rewrite ?Hk, ?Hf; try done; destruct begun; cbn; auto; done.
Qed.

Lemma execute_ok w tx : tx_ok tx -> tx_ok (execute w tx).2.
Proof.
  intros Hok. unfold execute. destruct (tx_ended tx) eqn:He; [done|]. destruct (tx_opened tx) as [[]|] eqn:Ho; [|done..]. pose proof (open_not_kept tx Hok He) as Hk. destruct Hok as [_ _ Hr _].
  assert (tx_released tx = false) by (destruct (tx_released tx); [|done]; specialize (Hr Ho eq_refl); congruence). constructor; cbn; rewrite ?Hk; try done; [congruence|by left].
Qed.

Lemma enter_ok begun tx : tx_ok tx -> tx_ok (enter begun tx).2.
Proof.
  intros Hok. unfold enter. destruct (negb sqlite || readOnly); [done|]. destruct (tx_opened tx) eqn:Ho; cbn [is_some orb]; [done|]. destruct (tx_ended tx) eqn:He; [done|].
  pose proof (unopened_no_flight tx Hok ltac:(congruence)) as Hf. pose proof (open_not_kept tx Hok He) as Hk. destruct begun; constructor; cbn; rewrite ?Hk, ?Hf; try done; first [by left | by right].
Qed.

Lemma leave_ok returned taken outcome tx : tx_ok tx -> tx_ok (leave returned taken outcome tx).2.
Proof.
  intros Hok. unfold leave. destruct (_ || _); [done|]. cbn. destruct returned; [|by apply give_back_ok]. destruct (tx_decided tx) as [[]|]; [|by apply give_back_ok..].
  pose proof (send_commit_ok taken outcome (set_ended tx) eq_refl) as Hs. by destruct (send_commit _ _ _).
Qed.

Lemma step_tx_ok tx op : tx_ok tx -> tx_ok (step tx op).2.
Proof.
  intros Hok. destruct op; cbn [step snd]; auto using session_ok, execute_ok, settle_one_ok, rollback_ok, enter_ok, leave_ok.
  - by destruct Hok; constructor.
  - unfold commit_unless. destruct aborted; cbn; auto using rollback_ok, commit_ok.
Qed.

Lemma run_tx_ok ops tx : tx_ok tx -> tx_ok (run_from tx ops).
Proof. revert tx. induction ops as [|op ops IH]; intros tx Hok; [done|]. by apply IH, step_tx_ok. Qed.

(** *** What stays *)

(** Once the work's end is settled, nothing changes any more. *)
Definition over (tx : Transaction) : Prop := tx_ended tx = true /\ tx_released tx = true /\ tx_flight tx = [].

Lemma step_over tx op : over tx -> over (step tx op).2 /\ tx_kept (step tx op).2 = tx_kept tx /\ tx_sent (step tx op).2 = tx_sent tx.
Proof.
  intros (He & Hr & Hf). destruct op as [begun|w|taken| |[] taken outcome| |begun|returned taken outcome]; cbn [step snd commit_unless].
  - unfold session. by rewrite He.
  - unfold execute. by rewrite He.
  - unfold settle_one. by rewrite Hf.
  - by cbn.
  - unfold rollback. rewrite He. cbn. by destruct (tx_enclosed tx).
  - unfold commit. by rewrite He.
  - unfold rollback. rewrite He. cbn. by destruct (tx_enclosed tx).
  - unfold enter. destruct (negb sqlite || readOnly); [done|]. by rewrite He, orb_true_r.
  - unfold leave. by rewrite Hr, orb_true_r.
Qed.

Lemma run_over ops tx : over tx -> over (run_from tx ops) /\ tx_kept (run_from tx ops) = tx_kept tx /\ tx_sent (run_from tx ops) = tx_sent tx.
Proof. revert tx. induction ops as [|op ops IH]; intros tx Ho; [done|]. destruct (step_over tx op Ho) as (Ho' & Hk & Hs). cbn. rewrite <-Hk, <-Hs. by apply IH. Qed.

(** A transaction that failed before it was committed keeps nothing. *)
Definition failing (tx : Transaction) : Prop := tx_failed tx = true /\ tx_kept tx = None /\ tx_decided tx <> Some DecideCommit.

Lemma failing_decide tx : failing tx -> failing (decide_as DecideRollback (set_ended tx)).
Proof. intros (Hf & Hk & Hd). split_and!; try done. cbn. by destruct (tx_decided tx) as [[]|]. Qed.

Lemma failing_give_back tx : failing tx -> failing (give_back None (set_ended tx)).
Proof. by intros (Hf & Hk & Hd). Qed.

Lemma failing_rollback tx : failing tx -> failing (rollback tx) /\ tx_ended (rollback tx) = true.
Proof. intros Hx. unfold rollback. cbn. destruct (tx_enclosed tx); [split; [by apply failing_decide|done]|]. destruct (tx_ended tx); split; try done; by apply failing_give_back. Qed.

(** No step after a failure decides a COMMIT or keeps anything. *)
Lemma step_failing tx op : failing tx -> failing (step tx op).2.
Proof.
  intros Hx. pose proof Hx as (Hf & Hk & Hd). destruct op as [begun|w|taken| |[] taken outcome| |begun|returned taken outcome]; cbn [step snd commit_unless].
  - unfold session. destruct (tx_ended tx); [done|]. destruct (tx_opened tx) as [[]|]; by try destruct begun.
  - unfold execute. destruct (tx_ended tx); [done|]. by destruct (tx_opened tx) as [[]|].
  - unfold settle_one. destruct (tx_flight tx); [done|]. by destruct (_ && _).
  - done.
  - by apply failing_rollback.
  - unfold commit. destruct (tx_ended tx); [done|]. cbn. rewrite Hf. destruct (tx_enclosed tx); [by apply failing_decide|by apply failing_give_back].
  - by apply failing_rollback.
  - unfold enter. destruct (negb sqlite || readOnly); [done|]. destruct (_ || _); [done|]. by destruct begun.
  - unfold leave. destruct (_ || _); [done|]. cbn zeta. change (tx_decided (set_ended tx)) with (tx_decided tx). destruct returned; [|by apply failing_give_back]. destruct (tx_decided tx) as [[]|]; [done|by apply failing_give_back..].
Qed.

Lemma run_failing ops tx : failing tx -> failing (run_from tx ops).
Proof. revert tx. induction ops as [|op ops IH]; intros tx Hx; [done|]. by apply IH, step_failing. Qed.

(** A COMMIT is only decided by [commit], which ends the transaction. *)
Definition undecided (tx : Transaction) : Prop := tx_ended tx = false -> tx_decided tx = None.

Lemma step_undecided tx op : undecided tx -> undecided (step tx op).2.
Proof.
  unfold undecided. intros Hu. destruct op as [begun|w|taken| |[] taken outcome| |begun|returned taken outcome]; cbn [step snd commit_unless]; try done.
  - unfold session. destruct (tx_ended tx) eqn:He; [cbn; congruence|]. destruct (tx_opened tx) as [[]|]; cbn; auto.
  - unfold execute. destruct (tx_ended tx) eqn:He; [cbn; congruence|]. destruct (tx_opened tx) as [[]|]; cbn; auto.
  - unfold settle_one. destruct (tx_flight tx); [done|]. by destruct (_ && _).
  - unfold rollback. cbn. destruct (tx_enclosed tx), (tx_ended tx); done.
  - unfold commit. destruct (tx_ended tx) eqn:He; [cbn; congruence|]. cbn. destruct (tx_enclosed tx), (tx_failed tx); try done. destruct (tx_opened tx) as [[]|]; try done.
    pose proof (send_commit_ended taken outcome (set_ended tx) eq_refl). destruct (send_commit _ _ _). cbn in *. congruence.
  - unfold rollback. cbn. destruct (tx_enclosed tx), (tx_ended tx); done.
  - unfold enter. destruct (negb sqlite || readOnly); [done|]. destruct (_ || _); [done|]. by destruct begun.
  - unfold leave. destruct (_ || _); [done|]. cbn. destruct returned, (tx_decided tx) as [[]|]; try done.
    pose proof (send_commit_ended taken outcome (set_ended tx) eq_refl). destruct (send_commit _ _ _). cbn in *. congruence.
Qed.

Lemma run_undecided ops tx : undecided tx -> undecided (run_from tx ops).
Proof. revert tx. induction ops as [|op ops IH]; intros tx Hx; [done|]. by apply IH, step_undecided. Qed.

(** Without a statement in flight, a COMMIT that is answered keeps every statement of an unaborted transaction. *)
Lemma send_commit_kept taken tx : tx_flight tx = [] -> tx_aborted tx = false -> tx_kept (send_commit taken CommitDone tx).2 = Some (tx_sent tx).
Proof. intros Hf Ha. unfold send_commit, settle_all. rewrite Hf. cbn. by rewrite Ha. Qed.

(** A refusal of the database is one the framework has heard of. *)
Definition heard (tx : Transaction) : Prop := tx_aborted tx = true -> tx_failed tx = true.

Lemma settle_one_heard taken tx : heard tx -> heard (settle_one taken tx).
Proof. unfold heard, settle_one. intros Hh. destruct (tx_flight tx); [done|]. by destruct (_ && _). Qed.

Lemma drain_heard fuel taken tx : heard tx -> heard (drain fuel taken tx).
Proof. revert taken tx. induction fuel as [|fuel IH]; intros taken tx Hh; [done|]. by apply IH, settle_one_heard. Qed.

Lemma step_heard tx op : heard tx -> heard (step tx op).2.
Proof.
  intros Hh. assert (Hc : forall taken outcome tx', heard tx' -> heard (send_commit taken outcome tx').2).
  { intros taken outcome tx' Hx. pose proof (drain_heard (length (tx_flight tx')) taken tx' Hx). unfold send_commit, settle_all. by destruct outcome. }
  destruct op as [begun|w|taken| |[] taken outcome| |begun|returned taken outcome]; cbn [step snd commit_unless]; try done.
  - unfold session. destruct (tx_ended tx); [done|]. by destruct (tx_opened tx) as [[]|].
  - unfold execute. destruct (tx_ended tx); [done|]. by destruct (tx_opened tx) as [[]|].
  - by apply settle_one_heard.
  - unfold rollback. cbn. by destruct (tx_enclosed tx), (tx_ended tx).
  - unfold commit. destruct (tx_ended tx); [done|]. cbn. destruct (tx_enclosed tx), (tx_failed tx) eqn:Ef; cbn; try done; try (intros _; exact Ef).
    destruct (tx_opened tx) as [[]|]; [|done..]. pose proof (Hc taken outcome (set_ended tx) Hh). by destruct (send_commit _ _ _).
  - unfold rollback. cbn. by destruct (tx_enclosed tx), (tx_ended tx).
  - unfold enter. destruct (negb sqlite || readOnly); [done|]. destruct (_ || _); [done|]. by destruct begun.
  - unfold leave. destruct (_ || _); [done|]. cbn. destruct returned, (tx_decided tx) as [[]|]; try done.
    pose proof (Hc taken outcome (set_ended tx) Hh). by destruct (send_commit _ _ _).
Qed.

Lemma run_heard ops tx : heard tx -> heard (run_from tx ops).
Proof. revert tx. induction ops as [|op ops IH]; intros tx Hx; [done|]. by apply IH, step_heard. Qed.

Lemma run_app tx ops ops' : run_from tx (ops ++ ops') = run_from (run_from tx ops) ops'.
Proof. apply foldl_app. Qed.

Lemma give_back_over kept tx : tx_ended tx = true -> over (give_back kept tx).
Proof. by intros He. Qed.

Lemma send_commit_over taken outcome tx : tx_ended tx = true -> over (send_commit taken outcome tx).2.
Proof.
  intros He. destruct (drain_spec (length (tx_flight tx)) taken tx ltac:(lia)) as (_ & _ & _ & He' & _). rewrite He in He'. unfold send_commit, settle_all.
  destruct outcome; by apply give_back_over.
Qed.

(** What a commit that was answered keeps, without a statement in flight: outside an enclosure at once. *)
Lemma commit_keeps taken tx : heard tx -> tx_flight tx = [] -> tx_opened tx = Some true -> tx_enclosed tx = false -> (commit taken CommitDone tx).1 = Settled ->
  over (commit taken CommitDone tx).2 /\ tx_kept (commit taken CommitDone tx).2 = Some (tx_sent tx) /\ tx_sent (commit taken CommitDone tx).2 = tx_sent tx.
Proof.
  intros Hh Hf Ho He. unfold commit. destruct (tx_ended tx); [done|]. cbn. rewrite He. destruct (tx_failed tx) eqn:Ef; [done|]. rewrite Ho. cbn. intros _.
  assert (Ha : tx_aborted tx = false) by (destruct (tx_aborted tx) eqn:E; [|done]; specialize (Hh E); congruence). unfold settle_all. cbn. rewrite Hf. cbn. by rewrite Ha.
Qed.

(** Inside one, when the work returned and its COMMIT is answered. *)
Lemma leave_keeps taken taken' outcome tx : heard tx -> tx_flight tx = [] -> tx_enclosed tx = true -> tx_released tx = false -> undecided tx -> (commit taken outcome tx).1 = Settled ->
  let tx' := (leave true taken' CommitDone (commit taken outcome tx).2).2 in over tx' /\ tx_kept tx' = Some (tx_sent tx) /\ tx_sent tx' = tx_sent tx.
Proof.
  intros Hh Hf He Hr Hu. unfold commit. destruct (tx_ended tx) eqn:Hen; [done|]. cbn. rewrite He. destruct (tx_failed tx) eqn:Ef; [done|]. intros _. cbn. unfold leave. cbn. rewrite He, Hr, (Hu Hen). cbn.
  assert (Ha : tx_aborted tx = false) by (destruct (tx_aborted tx) eqn:E; [|done]; specialize (Hh E); congruence). unfold settle_all. cbn. rewrite Hf. cbn. by rewrite Ha.
Qed.

(** *** What a commit decided *)

(** A step of [ops] was the framework's commit: not of an abandoned request, before the transaction ended, and with no failure heard. *)
Definition committed (ops : list Op) : Prop :=
  exists pre post taken outcome, ops = pre ++ OCommit false taken outcome :: post /\ tx_ended (run pre) = false /\ tx_failed (run pre) = false /\
    (tx_enclosed (run pre) = false -> tx_opened (run pre) = Some true).

(** The enclosure of the work, if it has one, was left because the work returned. *)
Definition left_returned (ops : list Op) : Prop := exists taken outcome, OLeave true taken outcome ∈ ops.

Lemma committed_snoc ops op : committed ops -> committed (ops ++ [op]).
Proof. intros (pre & post & taken & outcome & -> & Hc). exists pre, (post ++ [op]), taken, outcome. by rewrite <-app_assoc. Qed.

Lemma left_snoc ops op : left_returned ops -> left_returned (ops ++ [op]).
Proof. intros (taken & outcome & Hin). exists taken, outcome. apply elem_of_app. by left. Qed.

Lemma drain_keeps fuel taken tx : tx_enclosed (drain fuel taken tx) = tx_enclosed tx /\ tx_decided (drain fuel taken tx) = tx_decided tx.
Proof.
  revert taken tx. induction fuel as [|fuel IH]; intros taken tx; [done|]. cbn. destruct (IH (tail taken) (settle_one (default false (head taken)) tx)) as [-> ->].
  unfold settle_one. destruct (tx_flight tx); [done|]. by destruct (_ && _).
Qed.

Lemma send_commit_keeps taken outcome tx : tx_enclosed (send_commit taken outcome tx).2 = tx_enclosed tx /\ tx_decided (send_commit taken outcome tx).2 = tx_decided tx.
Proof. unfold send_commit, settle_all. destruct (drain_keeps (length (tx_flight tx)) taken tx) as [He Hd]. destruct outcome; cbn; by rewrite He, Hd. Qed.

Lemma rollback_decides tx : (tx_decided (rollback tx) = tx_decided tx \/ tx_decided (rollback tx) <> Some DecideCommit) /\
  (tx_kept (rollback tx) = tx_kept tx \/ tx_kept (rollback tx) = None) /\ tx_enclosed (rollback tx) = tx_enclosed tx.
Proof.
  unfold rollback. cbn. destruct (tx_enclosed tx) eqn:He; cbn; [|by destruct (tx_ended tx); cbn; auto].
  destruct (tx_decided tx) as [[]|] eqn:Hd; cbn; rewrite ?Hd; auto; by split; [right|auto].
Qed.

(** Whether a step decides a COMMIT or keeps something, and what it was then. *)
Lemma step_decides tx op :
  (tx_decided (step tx op).2 = tx_decided tx \/ tx_decided (step tx op).2 <> Some DecideCommit \/
   exists taken outcome, op = OCommit false taken outcome /\ tx_ended tx = false /\ tx_failed tx = false /\ tx_enclosed tx = true) /\
  (tx_kept (step tx op).2 = tx_kept tx \/ tx_kept (step tx op).2 = None \/
   (exists taken outcome, op = OCommit false taken outcome /\ tx_ended tx = false /\ tx_failed tx = false /\ tx_enclosed tx = false /\ tx_opened tx = Some true) \/
   exists taken outcome, op = OLeave true taken outcome /\ tx_decided tx = Some DecideCommit) /\
  (tx_enclosed (step tx op).2 = tx_enclosed tx \/ tx_enclosed tx = false /\ tx_ended tx = false).
Proof.
  destruct op as [begun|w|taken| |[] taken outcome| |begun|returned taken outcome]; cbn [step snd commit_unless].
  - unfold session. destruct (tx_ended tx); [tauto|]. destruct (tx_opened tx) as [[]|]; [tauto..|]. destruct begun; cbn; tauto.
  - unfold execute. destruct (tx_ended tx); [tauto|]. destruct (tx_opened tx) as [[]|]; cbn; tauto.
  - unfold settle_one. destruct (tx_flight tx); [tauto|]. destruct (_ && _); cbn; tauto.
  - cbn. tauto.
  - destruct (rollback_decides tx) as (? & ? & ?). tauto.
  - unfold commit. destruct (tx_ended tx) eqn:He; [tauto|]. cbn. destruct (tx_enclosed tx) eqn:Hn, (tx_failed tx) eqn:Hf; cbn; try rewrite !Hn.
    + split; [|tauto]. destruct (tx_decided tx) as [[]|] eqn:Ed; cbn; rewrite ?Ed; [by left|right; by left..].
    + split; [|tauto]. right. right. by exists taken, outcome.
    + tauto.
    + destruct (tx_opened tx) as [[]|] eqn:Ho; cbn; rewrite ?Hn; try tauto. destruct (send_commit_keeps taken outcome (set_ended tx)) as [Hk Hd].
      destruct (send_commit taken outcome (set_ended tx)) as [done tx']. cbn in *. rewrite Hk, Hd. split; [tauto|]. split; [|by left]. right. right. left. by exists taken, outcome.
  - destruct (rollback_decides tx) as (? & ? & ?). tauto.
  - unfold enter. destruct (negb sqlite || readOnly); [tauto|]. destruct (tx_opened tx); cbn [is_some orb]; [tauto|]. destruct (tx_ended tx) eqn:He; [tauto|].
    destruct begun; cbn; destruct (tx_enclosed tx); tauto.
  - unfold leave. destruct (_ || _); [tauto|]. cbn. destruct returned; [|tauto]. destruct (tx_decided tx) as [[]|] eqn:Ed; cbn; rewrite ?Ed; try tauto.
    destruct (send_commit_keeps taken outcome (set_ended tx)) as [Hk Hd]. destruct (send_commit taken outcome (set_ended tx)) as [done tx']. cbn in *. rewrite Hk, Hd, Ed.
    split; [tauto|]. split; [|tauto]. right. right. right. by exists taken, outcome.
Qed.

(** Nothing is kept, and no COMMIT decided, that the framework did not commit. *)
Lemma kept_committed ops :
  (tx_decided (run ops) = Some DecideCommit -> committed ops) /\
  (tx_kept (run ops) <> None -> committed ops /\ (tx_enclosed (run ops) = true -> left_returned ops)).
Proof.
  induction ops as [|op ops [IHd IHk]] using rev_ind; [done|]. pose proof (run_tx_ok ops _ new_ok) as Hok.
  rewrite run_app. cbn [run_from foldl]. destruct (step_decides (run ops) op) as (Hd & Hk & He). split.
  - destruct Hd as [->|[?|(taken & outcome & -> & Hen & Hf & Hn)]]; [by intros; apply committed_snoc, IHd|done|].
    intros _. exists ops, [], taken, outcome. split_and!; [done..|]. congruence.
  - destruct Hk as [->|[?|[(taken & outcome & -> & Hen & Hf & Hn & Ho)|(taken & outcome & -> & Hdc)]]]; [|done| |].
    + intros Hk. destruct (IHk Hk) as [Hc Hl]. split; [by apply committed_snoc|]. destruct He as [->|[_ Hen]]; [by intros; apply left_snoc, Hl|].
      destruct Hk. by apply open_not_kept.
    + intros _. split; [by exists ops, [], taken, outcome|]. destruct He as [->|[_ Hen']]; [congruence|]. cbn. unfold commit. rewrite Hen. cbn. rewrite Hn, Hf, Ho.
      destruct (send_commit_keeps taken outcome (set_ended (run ops))) as [Hk' _]. destruct (send_commit _ _ _). cbn in *. congruence.
    + intros _. split; [by apply committed_snoc, IHd|]. intros _. exists taken, outcome. apply elem_of_app. right. by left.
Qed.

(** *** What was sent *)

(** The statements the session took, in order. *)
Definition accepted_by (tx : Transaction) (op : Op) : list W :=
  match op with OExecute w => match (execute w tx).1 with SessionReady => [w] | _ => [] end | _ => [] end.

Fixpoint accepted_from (tx : Transaction) (ops : list Op) : list W :=
  match ops with [] => [] | op :: ops => accepted_by tx op ++ accepted_from (step tx op).2 ops end.

Notation accepted := (accepted_from new_Transaction).

Lemma accepted_snoc ops op tx : accepted_from tx (ops ++ [op]) = accepted_from tx ops ++ accepted_by (run_from tx ops) op.
Proof. revert tx. induction ops as [|o ops IH]; intros tx; cbn; [by rewrite app_nil_r|]. by rewrite IH, <-app_assoc. Qed.

(** What the database took and what it has yet to answer are statements the session took, in their order, and all of them
    while nothing failed. *)
Definition sends (tx : Transaction) (all : list W) : Prop :=
  tx_sent tx ++ tx_flight tx `sublist_of` all /\ (tx_failed tx = false -> tx_ended tx = false -> tx_sent tx ++ tx_flight tx = all).

Lemma sends_same tx tx' all : tx_sent tx' = tx_sent tx -> tx_flight tx' = tx_flight tx \/ tx_flight tx' = [] /\ tx_ended tx' = true ->
  (tx_failed tx' = false -> tx_failed tx = false) -> (tx_ended tx' = false -> tx_ended tx = false) -> sends tx all -> sends tx' all.
Proof.
  intros Es Ef Hf He [Hs Ha]. unfold sends. rewrite Es. destruct Ef as [->|[-> E]]; [by split; auto|]. split; [|congruence].
  rewrite app_nil_r. etrans; [|exact Hs]. by apply sublist_inserts_r.
Qed.

Lemma settle_one_sends taken tx all : heard tx -> sends tx all -> sends (settle_one taken tx) all.
Proof.
  intros Hh [Hs Ha]. unfold settle_one, sends. destruct (tx_flight tx) as [|w flight] eqn:E; [by rewrite E|]. destruct (_ && _) eqn:Et; cbn.
  - by rewrite <-app_assoc.
  - split; [|done]. etrans; [|exact Hs]. apply sublist_app; [done|]. by apply sublist_cons.
Qed.

Lemma send_commit_sends taken outcome tx all : heard tx -> tx_ended tx = true -> sends tx all -> sends (send_commit taken outcome tx).2 all.
Proof.
  intros Hh He Hs. assert (Hd : forall fuel taken tx, heard tx -> sends tx all -> sends (drain fuel taken tx) all).
  { intros fuel. induction fuel as [|fuel IH]; intros taken' tx' Hx Hy; [done|]. apply IH; [by apply settle_one_heard|by apply settle_one_sends]. }
  destruct (drain_spec (length (tx_flight tx)) taken tx ltac:(lia)) as (_ & _ & _ & He' & _). rewrite He in He'. unfold send_commit, settle_all.
  destruct outcome; cbn [snd]; (eapply sends_same; [| | | |apply (Hd (length (tx_flight tx)) taken tx Hh Hs)]; [done|by right|done|cbn; congruence]).
Qed.

Lemma step_sends tx op all : heard tx -> sends tx all -> sends (step tx op).2 (all ++ accepted_by tx op).
Proof.
  intros Hh Hs. destruct op as [begun|w|taken| |[] taken outcome| |begun|returned taken outcome]; cbn [accepted_by step snd commit_unless]; rewrite ?app_nil_r.
  - unfold session. destruct (tx_ended tx) eqn:He; [done|]. destruct (tx_opened tx) as [[]|]; [done..|]. eapply sends_same; [| | | |exact Hs]; cbn; auto.
  - unfold execute. destruct (tx_ended tx) eqn:He; cbn; [by rewrite app_nil_r|]. destruct (tx_opened tx) as [[]|]; cbn; rewrite ?app_nil_r; [|done..].
    destruct Hs as [Hs Ha]. unfold sends. cbn. rewrite app_assoc. split; [by apply sublist_app|]. intros Hf _. by rewrite Ha.
  - by apply settle_one_sends.
  - eapply sends_same; [| | | |exact Hs]; cbn; auto. done.
  - unfold rollback. cbn. destruct (tx_enclosed tx), (tx_ended tx) eqn:He; cbn; (eapply sends_same; [| | | |exact Hs]; cbn; auto; done).
  - unfold commit. destruct (tx_ended tx) eqn:He; [done|]. cbn. destruct (tx_enclosed tx); [destruct (tx_failed tx); (eapply sends_same; [| | | |exact Hs]; cbn; auto; done)|].
    destruct (tx_failed tx) eqn:Hf; [eapply sends_same; [| | | |exact Hs]; cbn; auto; congruence|].
    destruct (tx_opened tx) as [[]|]; try (eapply sends_same; [| | | |exact Hs]; cbn; auto; done).
    assert (sends (set_ended tx) all) as Hs' by (eapply sends_same; [| | | |exact Hs]; cbn; auto; done).
    pose proof (send_commit_sends taken outcome (set_ended tx) all Hh eq_refl Hs'). by destruct (send_commit _ _ _).
  - unfold rollback. cbn. destruct (tx_enclosed tx), (tx_ended tx) eqn:He; cbn; (eapply sends_same; [| | | |exact Hs]; cbn; auto; done).
  - unfold enter. destruct (negb sqlite || readOnly); [done|]. destruct (_ || _) eqn:Ho; [done|]. apply orb_false_iff in Ho as [_ He]. destruct begun; (eapply sends_same; [| | | |exact Hs]; cbn; auto).
  - unfold leave. destruct (_ || _); [done|]. cbn.
    assert (sends (set_ended tx) all) as Hs' by (eapply sends_same; [| | | |exact Hs]; cbn; auto; done).
    destruct returned, (tx_decided tx) as [[]|]; try (eapply sends_same; [| | | |exact Hs]; cbn; auto; done).
    pose proof (send_commit_sends taken outcome (set_ended tx) all Hh eq_refl Hs'). by destruct (send_commit _ _ _).
Qed.

Lemma run_sends ops : sends (run ops) (accepted ops).
Proof.
  induction ops as [|op ops IH] using rev_ind; [by split|]. rewrite run_app, accepted_snoc. apply step_sends; [by apply run_heard|exact IH].
Qed.

(** When a commit is answered with nothing in flight, the database took every statement the session did. *)
Lemma settled_sent pre taken outcome : tx_flight (run pre) = [] -> (commit taken outcome (run pre)).1 = Settled -> tx_sent (run pre) = accepted pre.
Proof.
  intros Hf. destruct (run_sends pre) as [_ Ha]. rewrite Hf, app_nil_r in Ha. unfold commit. destruct (tx_ended (run pre)); [done|]. cbn.
  destruct (tx_enclosed (run pre)), (tx_failed (run pre)); cbn; try done; intros _; by apply Ha.
Qed.

(** C7. An invocation's transaction is atomic, whatever the order of the handler's statements, their answers, the framework's
    commit and rollback and the enclosure's end: what the database keeps is nothing, or every statement it took, in the
    order the session took them, none of them refused in Postgres; it keeps something only when one step was the framework's commit, of a request that was not abandoned,
    before the transaction ended in another way and with no failed statement heard, and, inside an enclosure, when its work
    returned; a transaction that had failed when its end came keeps nothing; and when no statement is in flight, a
    commit that is answered keeps exactly the statements the session took before it, all of them, and nothing after it is
    ever sent. *)
Theorem transaction_atomic ops : let tx := run ops in
  (forall ws, tx_kept tx = Some ws -> ws = tx_sent tx /\ ws `sublist_of` accepted ops /\ tx_aborted tx = false /\ tx_ended tx = true /\ committed ops /\ (tx_enclosed tx = true -> left_returned ops)) /\
  (forall pre post, ops = pre ++ post -> tx_failed (run pre) = true -> tx_ended (run pre) = false -> tx_kept tx = None) /\
  (forall pre post taken, ops = pre ++ OCommit false taken CommitDone :: post -> tx_flight (run pre) = [] -> tx_opened (run pre) = Some true -> tx_enclosed (run pre) = false ->
     (commit taken CommitDone (run pre)).1 = Settled -> tx_kept tx = Some (accepted pre) /\ tx_sent tx = accepted pre) /\
  (forall pre post taken outcome taken', ops = pre ++ OCommit false taken outcome :: OLeave true taken' CommitDone :: post -> tx_flight (run pre) = [] -> tx_enclosed (run pre) = true ->
     tx_released (run pre) = false -> (commit taken outcome (run pre)).1 = Settled -> tx_kept tx = Some (accepted pre) /\ tx_sent tx = accepted pre).
Proof.
  cbn zeta. pose proof (fun ops => run_tx_ok ops _ new_ok) as Hok. assert (Hh : forall ops, heard (run ops)) by (intros ?; by apply run_heard).
  assert (Hu : forall ops, undecided (run ops)) by (intros ?; by apply run_undecided). split_and!.
  - intros ws Hw. destruct (ok_kept _ (Hok ops) ws Hw) as (-> & ? & _ & Hfl & ?). destruct (run_sends ops) as [Hse _]. rewrite Hfl, app_nil_r in Hse. destruct (proj2 (kept_committed ops)) as [Hc Hl]; [by rewrite Hw|]. done.
  - intros pre post -> Hf He. rewrite run_app. apply run_failing. split_and!; [done|by apply open_not_kept|]. by rewrite (Hu pre He).
  - intros pre post taken -> Hf Ho He Hs. destruct (commit_keeps taken (run pre) (Hh pre) Hf Ho He Hs) as (Hov & Hk & Hse). rewrite run_app.
    change (run_from (run pre) (OCommit false taken CommitDone :: post)) with (run_from (commit taken CommitDone (run pre)).2 post). rewrite <-(settled_sent pre taken CommitDone Hf Hs). by destruct (run_over post _ Hov) as (_ & -> & ->).
  - intros pre post taken outcome taken' -> Hf He Hr Hs. destruct (leave_keeps taken taken' outcome (run pre) (Hh pre) Hf He Hr (Hu pre) Hs) as (Hov & Hk & Hse). rewrite run_app.
    change (run_from (run pre) (OCommit false taken outcome :: OLeave true taken' CommitDone :: post)) with (run_from (leave true taken' CommitDone (commit taken outcome (run pre)).2).2 post).
    rewrite <-(settled_sent pre taken outcome Hf Hs). by destruct (run_over post _ Hov) as (_ & -> & ->).
Qed.

End Transactions.

(** A statement nobody awaited: it is still in flight when the framework commits, the database refuses it, and Postgres answers the
    COMMIT by rolling back. The commit is answered as done, and nothing is kept. *)
Example unawaited_statement_loses :
  let before := run_from false false new_Transaction [OSession true; OExecute "insert"; OAnswer true; OExecute "insert twice"] in
  (commit false [false] CommitDone before).1 = Settled /\ tx_kept (commit false [false] CommitDone before).2 = None /\ tx_sent (commit false [false] CommitDone before).2 = ["insert"].
Proof. by vm_compute. Qed.
