(* ===== verification/Calls.v ===== *)
(** What the dispatcher asks of everything else while it serves one request, and what may be said of the order it asks in.

    A call is asked of a world that answers it from all that happened before, or throws; every call and its answer is an event of
    the request's log. A guard says what must be in the log before an event; a log is safe when every event of it meets its
    guard. [sound] is the triple of the pipeline's steps: from a safe log that has some facts, the log stays safe, only grows, and
    has the step's facts when the step returns. Facts are about what is in the log, so they stay. *)

From S2P Require Import Prelude Json Shapes Permissions Token JobLeases Store Endpoints Headers Authorize Digest Rules JobRunner AppCapability Project Faults Clients FrameworkTables Webhooks Declarations.
From Stdlib Require Import ZArith Lia String Ascii.
From stdpp Require Import base tactics strings option list.

Notation Bytes := (list Z).
Notation Fields := (list (string * Unknown)).

(** ** What a handler is called with *)

Inductive RequestPrincipal := ByCaller (principal : Principal) | ByPublic (endpoint : string) | ByDelivery (bindingId : string).

(** What the access form hands the handler, by what its capabilities grant. *)
Inductive AccessContext :=
| NoAccess
| AccessWithin (grant : CapabilityGrant)
| AccessTarget (grant : CapabilityGrant)
| AccessCreated (grant : CapabilityGrant)
| AccessApp (grant : CapabilityGrant)
| AccessCapabilities (grants : list (string * CapabilityGrant)).

(** [MembershipRequest]: the authority at IAM a request's endpoint gives it. *)
Record MembershipRequest := mkMembership { mr_credential : string; mr_requestId : string; mr_delegation : option string; mr_dimension : string; mr_action : string }.

(** [ctx.members] and [ctx.links], by what they are made of. *)
Inductive Facility :=
| ApplicationDirectory (credential requestId : string)
| MemberDirectory (membership : option MembershipRequest) (target : AccessContext)
| MemberManagement (membership : MembershipRequest)
| LinkIssuing (membership : MembershipRequest) (links containers : list string).

(** The [args] of a handler: its input and its [ctx]. [h_app] is what [ctx.app] mints. *)
Record HandlerArgs := mkArgs {
  h_endpoint : string;
  h_principal : RequestPrincipal;
  h_frame : string;
  h_subject : string;
  h_input : Unknown;
  h_query : option Fields;
  h_access : AccessContext;
  h_refs : list (string * CapabilityGrant);
  h_app : string -> Raised + CapabilityGrant;
  h_facilities : list Facility;
  h_carried : list string;
  h_delivery : option string;
  h_site : option (DataKind * SiteDeclaration);
  h_binds : option BindingSite;
  h_client : RequestClient;
}.

(** ** The calls *)

Inductive InvocationKind := KindRead | KindWrite | KindWebhookDelivery.

Inductive TokenVerdict := VerifiedToken (claims : AccessTokenClaims) | KeysUnavailable | TokenRefused.

Inductive ChallengeVerdict := ChallengePassed (replayKey : string) (recordMs : Z) | ChallengeUnavailable | ChallengeMisconfigured | ChallengeRefused.

Inductive WorkloadAuthority := Authorized (perms : list PermissionEntry) (token : string) | Unauthorized.

Record Part := mkPart { part_place : nat; part_name : string; part_filename : option string }.

(** Why a multipart stream failed: it was interrupted, or what it sent is not the format. *)
Inductive Breakage := Interrupted | Malformed (message : string).

Inductive Call : Type -> Type :=
| AdmitInvocation (kind : InvocationKind) : Call bool
| ReleaseInvocation : Call unit
| Now : Call Z
| Verify (token audience : string) : Call TokenVerdict
| Take (endpoint bucket : string) (limit : Z) : Call bool
| ReserveBytes (endpoint : string) (bytes limit : Z) : Call bool
| ReadBody (limit : option Z) : Call Bytes
| NextPart : Call (option Part)
| ReadPart (part : Part) (limit : Z) : Call (option Bytes)
| CancelPart (part : Part) : Call unit
| BodyExceeded : Call bool
| RequestAborted : Call bool
| BodyLate : Call bool
| BodyBroken (error : Raised) : Call (option Breakage)
| CloseBody : Call unit
| Receive (kind : string) (part : Part) : Call (option Unknown)
| NewFrame (readOnly : bool) (endpoint : option string) : Call string
| EndFrame : Call unit
| Locate (dimension value : string) : Call (option Links)
| CreateScope (membership : MembershipRequest) : Call string
| Enter : Call unit
| Leave (returned : bool) : Call unit
| Handle (args : HandlerArgs) : Call (Unknown * list RecordedKick)
| OpenSession : Call unit
| WakesNow : Call Z
| ScheduleWake (wake : NewWake) : Call unit
| Download (kind : string) (result : Unknown) : Call nat
| EncodeAttachment (endpoint : string) (result : Unknown) : Call Response
| CancelDownload (source : nat) : Call unit
| Aborted : Call bool
| Commit : Call unit
| Rollback : Call unit
| ReleaseFiles : Call unit
| KickJob (job : string) : Call unit
| EnterShare : Call bool
| LeaveShare : Call unit
| AuthorityOf (endpoint : string) : Call WorkloadAuthority
| VerifyChallenge (action hostname token : string) : Call ChallengeVerdict
| RecordChallenge (action digest : string) (recordMs : Z) : Call bool
| IssueChallenge (hostname : string) : Call Unknown
| FindBinding (webhook id : string) : Call (option WebhookBinding)
| ClaimDelivery (id key : string) (now leaseMs retainedSince : Z) : Call (option DeliveryClaim)
| CompleteDelivery (claim : DeliveryClaim) (transacted : bool) : Call bool
| ReleaseDelivery (claim : DeliveryClaim) : Call unit
| ServeAsset (prefix dir : string) : Call Response
| WithBootstrap (response : Response) (prefix : string) : Call Response
| Record_failure (endpoint : string) (selected : bool) (status : Z) (error : Raised) : Call unit.

Inductive Event := Ev (B : Type) (call : Call B) (answer : Raised + B).

Arguments Ev {B}.

Notation Log := (list Event).

(** What answers a call, from everything that was asked before. *)
Definition World := forall B : Type, Log -> Call B -> Raised + B.

(** A request in progress: its log, and the dispatcher's [outcome], whether it has begun to commit. *)
Record Run := mkRun { log : Log; committing : bool }.

Notation act := (eff Run Raised).

Section Acts.
Variable world : World.

Definition ask {B} (call : Call B) : act B := fun s =>
  let answer := world B (log s) call in (answer, mkRun (log s ++ [Ev call answer]) (committing s)).

(** A call that answers nothing and never throws. *)
Definition tell (call : Call unit) : act unit := fun s => (inr tt, mkRun (log s ++ [Ev call (inr tt)]) (committing s)).

Definition set_committing (b : bool) : act unit := Eff.modify (fun s => mkRun (log s) b).

(** [try { m } finally { c }]: what [c] throws comes before what [m] gave. *)
Definition finally {A} (m : act A) (c : act unit) : act A := fun s =>
  let (r, s1) := m s in
  match c s1 with
  | (inl e, s2) => (inl e, s2)
  | (inr _, s2) => (r, s2)
  end.

(** A call whose failure is dropped. *)
Definition quietly (call : Call unit) : act unit := Eff.catch (ask call) (fun _ => mret tt).

Fixpoint each {A} (f : A -> act unit) (l : list A) : act unit :=
  match l with [] => mret tt | x :: l => _ ← f x; each f l end.

End Acts.

(** ** Safe logs *)

(** [call] was answered with [b]. *)
Definition answered {B} (call : Call B) (b : B) (l : Log) : Prop := Ev call (inr b) ∈ l.

Section Sound.
(** What must be in the log before an event. *)
Variable guard : Log -> Event -> Prop.

Definition safe (l : Log) : Prop := forall pre e post, l = pre ++ e :: post -> guard pre e.

Lemma safe_nil : safe [].
Proof. intros pre e post E. by destruct pre. Qed.

Lemma safe_snoc l e : safe l -> guard l e -> safe (l ++ [e]).
Proof.
  intros Hs Hg pre e' post E. destruct post as [|x post] using rev_ind.
  - by apply app_inj_tail in E as [<- <-].
  - rewrite app_comm_cons, app_assoc in E. apply app_inj_tail in E as [-> _]. by eapply Hs.
Qed.

(** A fact that stays, however the log grows. *)
Class Stays (K : Log -> Prop) := stays : forall l l', K l -> l `prefix_of` l' -> K l'.

Definition sound {A} (K : Log -> Prop) (m : act A) (Q : A -> Log -> Prop) : Prop := forall s, safe (log s) -> K (log s) ->
  let (r, s') := m s in safe (log s') /\ log s `prefix_of` log s' /\ forall a, r = inr a -> Q a (log s').

Lemma sound_bind {A B} K (m : act A) (f : A -> act B) Q R : Stays K -> (forall a, Stays (Q a)) ->
  sound K m Q -> (forall a, sound (fun l => K l /\ Q a l) (f a) R) -> sound K (m ≫= f) R.
Proof.
  intros HK HQ Hm Hf s Hs Hk. specialize (Hm s Hs Hk). unfold mbind, eff_bind. destruct (m s) as [[e|a] s1]; destruct Hm as (Hs1 & Hp1 & Hq).
  - done.
  - specialize (Hf a s1 Hs1). destruct (f a s1) as [r s2]. destruct Hf as (Hs2 & Hp2 & Hr); [split; [by eapply stays|by apply Hq]|]. split; [done|]. split; [by etrans|done].
Qed.

Lemma sound_ret {A} K (a : A) (Q : A -> Log -> Prop) : (forall l, K l -> Q a l) -> sound K (mret a) Q.
Proof. intros HQ s Hs Hk. cbn. split; [done|]. split; [done|]. intros ? [= <-]. auto. Qed.

Lemma sound_throw {A} K e (Q : A -> Log -> Prop) : sound K (Eff.throw e) Q.
Proof. intros s Hs Hk. by cbn. Qed.

Lemma sound_lift {A} K (m : Raised + A) (Q : A -> Log -> Prop) : (forall l a, K l -> m = inr a -> Q a l) -> sound K (Eff.lift m) Q.
Proof. intros HQ s Hs Hk. destruct m as [e|a]; cbn; [done|]. split; [done|]. split; [done|]. intros ? [= <-]. auto. Qed.

Lemma sound_weaken {A} K K' (m : act A) (Q Q' : A -> Log -> Prop) : sound K' m Q' -> (forall l, K l -> K' l) -> (forall a l, Q' a l -> Q a l) -> sound K m Q.
Proof. intros Hm HK HQ s Hs Hk. specialize (Hm s Hs (HK _ Hk)). destruct (m s) as [r s']. naive_solver. Qed.

(** What was known before a step is known after it. *)
Lemma sound_frame {A} K (m : act A) (Q : A -> Log -> Prop) : Stays K -> sound K m Q -> sound K m (fun a l => K l /\ Q a l).
Proof.
  intros HK Hm s Hs Hk. specialize (Hm s Hs Hk). destruct (m s) as [r s']. destruct Hm as (Hs' & Hp & Hq). split; [done|]. split; [done|].
  intros a Ha. split; [by eapply stays|auto].
Qed.

Lemma sound_ask world {B} K (call : Call B) : (forall l r, K l -> guard l (Ev call r)) -> sound K (ask world call) (fun b l => answered call b l).
Proof.
  intros Hg s Hs Hk. cbn. split; [apply safe_snoc; auto|]. split; [by apply prefix_app_r|]. intros a Ha. unfold answered. rewrite Ha. apply elem_of_app. right. left.
Qed.

Lemma sound_tell K (call : Call unit) : (forall l r, K l -> guard l (Ev call r)) -> sound K (tell call) (fun _ l => answered call tt l).
Proof. intros Hg s Hs Hk. cbn. split; [apply safe_snoc; auto|]. split; [by apply prefix_app_r|]. intros a _. apply elem_of_app. right. left. Qed.

Lemma sound_committing K b : sound K (set_committing b) (fun _ _ => True).
Proof. intros s Hs Hk. by cbn. Qed.

Lemma sound_gets {A} K (f : Run -> A) : sound K (Eff.gets f) (fun _ _ => True).
Proof. intros s Hs Hk. by cbn. Qed.

Lemma sound_catch {A} K (m : act A) h (Q : A -> Log -> Prop) : Stays K -> sound K m Q -> (forall e, sound K (h e) Q) -> sound K (Eff.catch m h) Q.
Proof.
  intros HK Hm Hh s Hs Hk. specialize (Hm s Hs Hk). unfold Eff.catch. destruct (m s) as [[e|a] s1]; destruct Hm as (Hs1 & Hp1 & Hq).
  - specialize (Hh e s1 Hs1). destruct (h e s1) as [r s2]. destruct Hh as (Hs2 & Hp2 & Hr); [by eapply stays|]. split; [done|]. split; [by etrans|done].
  - done.
Qed.

Lemma sound_finally {A} K (m : act A) (c : act unit) (Q : A -> Log -> Prop) : Stays K -> (forall a, Stays (Q a)) -> sound K m Q -> sound K c (fun _ _ => True) -> sound K (finally m c) Q.
Proof.
  intros HK HQ Hm Hc s Hs Hk. specialize (Hm s Hs Hk). unfold finally. destruct (m s) as [r s1]. destruct Hm as (Hs1 & Hp1 & Hq).
  specialize (Hc s1 Hs1). destruct (c s1) as [[e|[]] s2]; destruct Hc as (Hs2 & Hp2 & _); try by eapply stays.
  - split; [done|]. split; [by etrans|done].
  - split; [done|]. split; [by etrans|]. intros a Ha. eapply stays; [by apply Hq|done].
Qed.

(** A step and a last one that is always taken; what it leaves known is known as well. *)
Lemma sound_finally_then {A} K (m : act A) (c : act unit) (Q : A -> Log -> Prop) (R : Log -> Prop) : Stays K -> (forall a, Stays (Q a)) ->
  sound K m Q -> sound K c (fun _ l => R l) -> sound K (finally m c) (fun a l => Q a l /\ R l).
Proof.
  intros HK HQ Hm Hc s Hs Hk. specialize (Hm s Hs Hk). unfold finally. destruct (m s) as [r s1]. destruct Hm as (Hs1 & Hp1 & Hq).
  specialize (Hc s1 Hs1). destruct (c s1) as [[e|[]] s2]; destruct Hc as (Hs2 & Hp2 & Hr); try by eapply stays.
  - split; [done|]. split; [by etrans|done].
  - split; [done|]. split; [by etrans|]. intros a Ha. split; [eapply stays; [by apply Hq|done]|by apply (Hr tt)].
Qed.

(** *** Steps whose answer the rest needs *)

Lemma sound_bind_ask world {B A} K (call : Call B) (f : B -> act A) R : Stays K -> (forall l r, K l -> guard l (Ev call r)) ->
  (forall b, sound (fun l => K l /\ answered call b l) (f b) R) -> sound K (x ← ask world call; f x) R.
Proof. intros HK Hg Hf. eapply sound_bind; [done| |by apply sound_ask|done]. intros b l l' Ha Hp. by eapply elem_of_prefix. Qed.

Lemma sound_bind_lift {A B} K (m : Raised + A) (f : A -> act B) R : (forall a, m = inr a -> sound K (f a) R) -> sound K (x ← Eff.lift m; f x) R.
Proof. intros Hf. destruct m as [e|a]; [apply sound_throw|]. exact (Hf a eq_refl). Qed.

Lemma sound_bind_skip {A B} K (m : act A) (f : A -> act B) R : Stays K -> sound K m (fun _ _ => True) -> (forall a, sound K (f a) R) -> sound K (m ≫= f) R.
Proof.
  intros HK Hm Hf. eapply sound_bind; [done| |exact Hm|]; [by intros ? ? ?|]. intros a. eapply sound_weaken; [apply Hf|by intros ? []|done].
Qed.

Lemma sound_true {A} K (m : act A) Q : sound K m Q -> sound K m (fun _ _ => True).
Proof. intros Hm. by eapply sound_weaken. Qed.

(** A fact that is not about the log. *)
Lemma sound_pure {A} K (P : Prop) (m : act A) Q : (P -> sound K m Q) -> sound (fun l => K l /\ P) m Q.
Proof. intros Hm s Hs [Hk HP]. by apply Hm. Qed.

(** A step that says nothing of its answer keeps what is known. *)
Lemma sound_keeps {A} K (m : act A) : Stays K -> sound K m (fun _ _ => True) -> sound K m (fun _ l => K l).
Proof. intros HK Hm. eapply sound_weaken; [by apply (sound_frame K m)|done|]. by intros a l []. Qed.

Lemma sound_quietly world K (call : Call unit) : Stays K -> (forall l r, K l -> guard l (Ev call r)) -> sound K (quietly world call) (fun _ _ => True).
Proof. intros HK Hg. apply sound_catch; [done| |intros e; by apply sound_ret]. eapply sound_weaken; [by apply sound_ask|done|done]. Qed.

Lemma sound_each {A} K (f : A -> act unit) l : Stays K -> (forall x, x ∈ l -> sound K (f x) (fun _ _ => True)) -> sound K (each f l) (fun _ _ => True).
Proof.
  intros HK. induction l as [|x l IH]; intros Hf; cbn [each]; [by apply sound_ret|].
  eapply (sound_bind K (f x) _ (fun _ _ => True)); [done|by intros ? ? ?|apply Hf; left|]. intros a. eapply sound_weaken; [apply IH|by intros ? []|done]. intros y Hy. apply Hf. by right.
Qed.

End Sound.

#[export] Instance stays_answered {B} (call : Call B) b : Stays (answered call b).
Proof. intros l l' Ha Hp. by eapply elem_of_prefix. Qed.
#[export] Instance stays_pure (P : Prop) : Stays (fun _ => P).
Proof. by intros l l'. Qed.
#[export] Instance stays_and K K' : Stays K -> Stays K' -> Stays (fun l => K l /\ K' l).
Proof. intros H H' l l' [Hk Hk'] Hp. split; by eapply stays. Qed.
#[export] Instance stays_or K K' : Stays K -> Stays K' -> Stays (fun l => K l \/ K' l).
Proof. intros H H' l l' [Hk|Hk'] Hp; [left|right]; by eapply stays. Qed.
#[export] Instance stays_ex {A} (K : A -> Log -> Prop) : (forall a, Stays (K a)) -> Stays (fun l => exists a, K a l).
Proof. intros H l l' [a Hk] Hp. exists a. by eapply stays. Qed.
#[export] Instance stays_all {A} (K : A -> Log -> Prop) : (forall a, Stays (K a)) -> Stays (fun l => forall a, K a l).
Proof. intros H l l' Hk Hp a. eapply stays; [apply Hk|done]. Qed.
#[export] Instance stays_impl (P : Prop) K : Stays K -> Stays (fun l => P -> K l).
Proof. intros H l l' Hk Hp HP. eapply stays; [by apply Hk|done]. Qed.
