(* ===== verification/Access.v ===== *)
(** What an endpoint's access form makes of a caller's grants ([#access], [#within], [#inRef], [#onRef], [#linkTarget],
    [#capabilities] and [#chain] of [app/src/implement/dispatch.ts]): the capabilities the handler gets and the input without the
    fields they were read from.

    A capability is built by its constructor in [AppCapability.v], and what it grants is what the request acts with. *)

From S2P Require Import Prelude Json Shapes Permissions Token JobLeases Store Endpoints Headers Authorize Digest Rules JobRunner AppCapability Project Faults Params Clients FrameworkTables Declarations Requests Calls.
From Stdlib Require Import ZArith Lia String Ascii.
From stdpp Require Import base tactics strings option list.

(** The caller a token names. *)
Record Caller := mkCaller { cl_principal : Principal; cl_subject : string; cl_perms : list PermissionEntry; cl_token : string; cl_link : option LinkTokenClaims }.

(** The dimensions of a runtime: whether a database locates them, those a table owns, and the containers of each, nearest
    first. *)
Record Dimensions := mkDimensions { d_database : bool; d_owned : list string; d_containers : list (string * list string) }.

Definition NOT_FOUND : Raised := NotFoundError "Not found".

Definition not_here (action dimension : string) : Raised := ForbiddenError ("The caller does not hold " +:+ quoted action +:+ " in this " +:+ dimension).

(** What a constructor's capability grants: [chain] is the map it is handed, and the frame the request's. *)
Definition minted (chain : Links) (constructor : AppCapability.act value) : Raised + CapabilityGrant :=
  match constructor (mkHeap [] 1 [chain] []) with
  | (inl e, _) => inl (of_capability e)
  | (inr v, h) => match read v h with Some b => inr (bound_grant b) | None => inl (Refused not_minted) end
  end.

Definition mint_ref (dimension action subject id : string) (chain : Links) : Raised + CapabilityGrant := minted chain (new_Ref true 0 0 dimension action subject id 0).
Definition mint_within (dimension action subject : string) (values : option (list string)) (held inside : list ContainerGrant) : Raised + CapabilityGrant :=
  minted [] (new_Within true 0 0 dimension action subject values held inside).
Definition mint_app (action subject : string) : Raised + CapabilityGrant := minted [] (new_AppCapability true 0 0 action subject).

(** [holdsOnChain] *)
Definition holdsOnChain (perms : list PermissionEntry) (action dimension value : string) (chain : Links) : bool :=
  existsb (fun link => permits perms action (Some (mkScope link.1 link.2))) ((dimension, value) :: chain).

Section Access.
Context (world : World) (dims : Dimensions).

(** [#heldContainers] and [#heldContained] *)
Definition group (dimension : string) (values : option (list string)) : list ContainerGrant :=
  match default [] values with [] => [] | values => [mkContainerGrant dimension values] end.

Definition heldContainers (perms : list PermissionEntry) (action dimension : string) : list ContainerGrant :=
  flat_map (fun container => group container (scopedValues perms action container)) (default [] (lookup_field dimension (d_containers dims))).

Definition heldContained (perms : list PermissionEntry) (action dimension : string) : list ContainerGrant :=
  flat_map (fun entry => if Js.elem dimension entry.2 then group entry.1 (scopedValues perms action entry.1) else []) (d_containers dims).

Definition is_nil {A} (l : list A) : bool := match l with [] => true | _ => false end.

(** [#chain]; a [Map]'s keys are distinct. *)
Definition chain_at (dimension value : string) : act (option Links) :=
  if negb (d_database dims) || negb (Js.elem dimension (d_owned dims)) then mret (Some [])
  else links ← ask world (Locate dimension value); mret (mapOf <$> links).

(** [#within] *)
Definition within (caller : Caller) (action dimension : string) : Raised + CapabilityGrant :=
  match scopedValues (cl_perms caller) action dimension with
  | None => mint_within dimension action (cl_subject caller) None [] []
  | Some direct =>
      let held := heldContainers (cl_perms caller) action dimension in
      let inside := heldContained (cl_perms caller) action dimension in
      if is_nil direct && is_nil held && is_nil inside then inl (ForbiddenError ("The caller holds " +:+ quoted action +:+ " in no " +:+ dimension))
      else mint_within dimension action (cl_subject caller) (Some direct) held inside
  end.

(** [#inRef] *)
Definition inRef (caller : Caller) (action dimension value : string) : act CapabilityGrant :=
  let direct := permits (cl_perms caller) action (Some (mkScope dimension value)) in
  if negb direct && is_nil (heldContainers (cl_perms caller) action dimension) then Eff.throw (not_here action dimension)
  else
    chain ← chain_at dimension value;
    if negb (holdsOnChain (cl_perms caller) action dimension value (default [] chain)) then Eff.throw (not_here action dimension)
    else match chain with
         | None => Eff.throw NOT_FOUND
         | Some chain => Eff.lift (mint_ref dimension action (cl_subject caller) value chain)
         end.

(** [#onRef] *)
Definition onRef (caller : Caller) (action dimension value : string) : act CapabilityGrant :=
  chain ← chain_at dimension value;
  match chain with
  | None => Eff.throw NOT_FOUND
  | Some chain =>
      if negb (holdsOnChain (cl_perms caller) action dimension value chain) then Eff.throw NOT_FOUND
      else Eff.lift (mint_ref dimension action (cl_subject caller) value chain)
  end.

(** One capability of a [capabilities] requirement, and the field it was read from; a form no such capability has is an error of
    the contract. *)
Definition capability (caller : Caller) (input : Fields) (required : ActionRequirement) : act (CapabilityGrant * option string) :=
  match req_access required with
  | FormOver dimension => grant ← Eff.lift (within caller (req_action required) dimension); mret (grant, None)
  | FormIn dimension from =>
      taken ← Eff.lift (takeField input from);
      grant ← inRef caller (req_action required) dimension taken.1;
      mret (grant, Some from)
  | FormOn dimension (Some from) =>
      taken ← Eff.lift (takeField input from);
      grant ← onRef caller (req_action required) dimension taken.1;
      mret (grant, Some from)
  | _ => Eff.throw (mkRaised None "TypeError" None)
  end.

(** The loop of [#capabilities]. *)
Fixpoint mint_each (caller : Caller) (input : Fields) (required : list (string * ActionRequirement)) (minted : list (string * CapabilityGrant)) (read : list string) :
    act (list (string * CapabilityGrant) * list string) :=
  match required with
  | [] => mret (minted, read)
  | (name, requirement) :: required =>
      got ← capability caller input requirement;
      mint_each caller input required (minted ++ [(name, got.1)]) (read ++ option_list got.2)
  end.

Definition capabilities (caller : Caller) (input : Fields) (required : list (string * ActionRequirement)) : act (AccessContext * Fields) :=
  got ← mint_each caller input required [] [];
  mret (AccessCapabilities got.1, List.filter (fun entry => negb (Js.elem entry.1 got.2)) input).

(** [#linkTarget]; [mount] is the link mount the endpoint is of. *)
Definition linkTarget (mount : string) (caller : Caller) (action dimension : string) (input : Fields) : act (AccessContext * Fields) :=
  match cl_link caller with
  | None => Eff.throw (ForbiddenError ("it admits only a key of the link mount " +:+ quoted mount))
  | Some link =>
      if negb (link_mount link =? mount)%string then Eff.throw (ForbiddenError ("it admits only a key of the link mount " +:+ quoted mount))
      else
        let refused := ForbiddenError ("The link does not grant " +:+ quoted action +:+ " on a " +:+ dimension) in
        match link_chain link with
        | [] => Eff.throw refused
        | object :: containers =>
            if negb (scope_type object =? dimension)%string || negb (permits (cl_perms caller) action (Some object)) then Eff.throw refused
            else
              chain ← chain_at dimension (scope_value object);
              match chain with
              | None => Eff.throw (NotFoundError "This link no longer reaches its object")
              | Some chain =>
                  if (length chain =? length containers)%nat && forallb (fun scope => bool_decide (lookup_field (scope_type scope) chain = Some (scope_value scope))) containers
                  then grant ← Eff.lift (mint_ref dimension action (cl_subject caller) (scope_value object) chain); mret (AccessTarget grant, input)
                  else Eff.throw (NotFoundError "This link no longer reaches its object")
              end
        end
  end.

(** [#access] *)
Definition access (row : EndpointRow) (requirement : Requirement) (caller : Caller) (input : Fields) (membership : option MembershipRequest) : act (AccessContext * Fields) :=
  match requirement with
  | ReqMember => mret (NoAccess, input)
  | ReqCapabilities required => capabilities caller input required
  | ReqAuthenticated => Eff.throw (mkRaised None "TypeError" None)
  | ReqAction required =>
      let action := req_action required in
      match req_access required with
      | FormOver dimension => grant ← Eff.lift (within caller action dimension); mret (AccessWithin grant, input)
      | FormIn dimension from =>
          taken ← Eff.lift (takeField input from);
          grant ← inRef caller action dimension taken.1;
          mret (AccessTarget grant, taken.2)
      | FormOn dimension None => linkTarget (source_name (e_source row)) caller action dimension input
      | FormOn dimension (Some from) =>
          taken ← Eff.lift (takeField input from);
          grant ← onRef caller action dimension taken.1;
          mret (AccessTarget grant, taken.2)
      | FormCreates dimension =>
          match membership with
          | None => Eff.throw (Fault "facility_unbound" 500)
          | Some membership =>
              value ← ask world (CreateScope membership);
              grant ← Eff.lift (mint_ref dimension action (cl_subject caller) value []);
              mret (AccessCreated grant, input)
          end
      | FormApp => grant ← Eff.lift (mint_app action (cl_subject caller)); mret (AccessApp grant, input)
      end
  end.

(** ** What the caller acts with *)

(** Where [value] lies now, as it was asked. *)
Definition located (dimension value : string) (chain : Links) (l : Log) : Prop :=
  if d_database dims && Js.elem dimension (d_owned dims) then exists links, answered (Locate dimension value) (Some links) l /\ chain = mapOf links else chain = [].

(** A [Ref] of a value the caller holds the action on, or in a container of it where it lies now. *)
Definition ref_held (caller : Caller) (action dimension value : string) (grant : CapabilityGrant) (l : Log) : Prop :=
  exists chain, located dimension value chain l /\ grant = GrantRef (mkRef dimension action (cl_subject caller) value chain) /\
    exists type scope, (type, scope) ∈ (dimension, value) :: chain /\ permits (cl_perms caller) action (Some (mkScope type scope)) = true.

(** The values of one group: exactly those of its dimension the caller holds the action in. *)
Definition group_held (caller : Caller) (action : string) (g : ContainerGrant) : Prop :=
  cg_values g <> [] /\ forall v, v ∈ cg_values g <-> permits (cl_perms caller) action (Some (mkScope (cg_dimension g) v)) = true.

(** A [Within] of everything the caller holds the action in, and nothing else. *)
Definition within_held (caller : Caller) (action dimension : string) (grant : CapabilityGrant) : Prop :=
  exists values held inside, grant = GrantWithin (mkWithin dimension action (cl_subject caller) values held inside) /\
    match values with
    | None => permits (cl_perms caller) action None = true /\ held = [] /\ inside = []
    | Some values =>
        permits (cl_perms caller) action None = false /\
        (forall v, v ∈ values <-> permits (cl_perms caller) action (Some (mkScope dimension v)) = true) /\
        Forall (fun g => group_held caller action g /\ cg_dimension g ∈ default [] (lookup_field dimension (d_containers dims))) held /\
        Forall (fun g => group_held caller action g /\ exists containers, (cg_dimension g, containers) ∈ d_containers dims /\ dimension ∈ containers) inside
    end.

(** The object a share link is bound to, in the chain it was issued for. *)
Definition link_held (mount : string) (caller : Caller) (action dimension : string) (grant : CapabilityGrant) (l : Log) : Prop :=
  exists link object containers chain, cl_link caller = Some link /\ link_mount link = mount /\ link_chain link = object :: containers /\ scope_type object = dimension /\
    permits (cl_perms caller) action (Some object) = true /\ located dimension (scope_value object) chain l /\
    grant = GrantRef (mkRef dimension action (cl_subject caller) (scope_value object) chain) /\
    length chain = length containers /\ Forall (fun scope => lookup_field (scope_type scope) chain = Some (scope_value scope)) containers.

(** One capability, of what the input names. *)
Definition capability_held (caller : Caller) (input : Fields) (required : ActionRequirement) (grant : CapabilityGrant) (l : Log) : Prop :=
  match req_access required with
  | FormOver dimension => within_held caller (req_action required) dimension grant
  | FormIn dimension from | FormOn dimension (Some from) => exists value, lookup_field from input = Some (UStr value) /\ ref_held caller (req_action required) dimension value grant l
  | _ => False
  end.

Definition without (names : list string) (input : Fields) : Fields := List.filter (fun entry => negb (Js.elem entry.1 names)) input.

Definition read_fields (required : list (string * ActionRequirement)) : list string :=
  flat_map (fun entry => match req_access entry.2 with FormIn _ from | FormOn _ (Some from) => [from] | _ => [] end) required.

(** What the handler gets of a request's authority and input. *)
Definition access_held (row : EndpointRow) (requirement : Requirement) (caller : Caller) (input : Fields) (membership : option MembershipRequest) (got : AccessContext * Fields) (l : Log) : Prop :=
  match requirement with
  | ReqMember => got = (NoAccess, input)
  | ReqAuthenticated => False
  | ReqCapabilities required =>
      exists grants, got = (AccessCapabilities grants, without (read_fields required) input) /\
        Forall2 (fun entry grant => grant.1 = entry.1 /\ capability_held caller input entry.2 grant.2 l) required grants
  | ReqAction required =>
      let action := req_action required in
      match req_access required with
      | FormOver dimension => exists grant, got = (AccessWithin grant, input) /\ within_held caller action dimension grant
      | FormIn dimension from | FormOn dimension (Some from) =>
          exists value grant, lookup_field from input = Some (UStr value) /\ got = (AccessTarget grant, without [from] input) /\ ref_held caller action dimension value grant l
      | FormOn dimension None => exists grant, got = (AccessTarget grant, input) /\ link_held (source_name (e_source row)) caller action dimension grant l
      | FormCreates dimension =>
          exists membership' value, membership = Some membership' /\ answered (CreateScope membership') value l /\
            got = (AccessCreated (GrantRef (mkRef dimension action (cl_subject caller) value [])), input)
      | FormApp => got = (AccessApp (GrantApp (mkAppGrant action (cl_subject caller))), input)
      end
  end.

End Access.

(** ** The capabilities are what the caller holds *)

#[local] Arguments chainOf : simpl never.
#[local] Arguments mapOf : simpl never.
#[local] Arguments copyOf : simpl never.
#[local] Arguments containerGrantsOf : simpl never.

Lemma mint_ref_is dimension action subject id chain : is_map chain -> mint_ref dimension action subject id chain = inr (GrantRef (mkRef dimension action subject id chain)).
Proof. intros Hm. unfold mint_ref, minted, new_Ref, mbind, eff_bind, map_at, Eff.gets. cbn. by rewrite chainOf_same, mapOf_same. Qed.

Lemma mint_app_is action subject : mint_app action subject = inr (GrantApp (mkAppGrant action subject)).
Proof. done. Qed.

Lemma mint_within_is dimension action subject values held inside grant : mint_within dimension action subject values held inside = inr grant ->
  grant = GrantWithin (mkWithin dimension action subject values (if values then held else []) (if values then inside else [])).
Proof.
  unfold mint_within, minted, new_Within. cbn [negb]. destruct (_ <? _)%nat; [done|]. cbn. intros [= <-]. destruct values as [values|]; [|done]. cbn.
  by rewrite copyOf_same, !containerGrantsOf_same.
Qed.

Lemma holdsOnChain_spec perms action dimension value chain : holdsOnChain perms action dimension value chain = true <->
  exists type scope, (type, scope) ∈ (dimension, value) :: chain /\ permits perms action (Some (mkScope type scope)) = true.
Proof. unfold holdsOnChain. rewrite existsb_exists. split; [intros ([t v] & Hin & Hp)|intros (t & v & Hin & Hp)]; [exists t, v|exists (t, v)]; by rewrite ?list_elem_of_In in *. Qed.

#[export] Instance located_stays dims dimension value chain : Stays (located dims dimension value chain).
Proof. unfold located. destruct (_ && _); apply _. Qed.

#[export] Instance ref_held_stays dims caller action dimension value grant : Stays (ref_held dims caller action dimension value grant).
Proof. unfold ref_held. apply _. Qed.

#[export] Instance link_held_stays dims mount caller action dimension grant : Stays (link_held dims mount caller action dimension grant).
Proof. unfold link_held. repeat (apply stays_ex; intros ?). repeat first [apply stays_and | apply stays_pure | apply _]. Qed.

#[export] Instance capability_held_stays dims caller input required grant : Stays (capability_held dims caller input required grant).
Proof. unfold capability_held. destruct (req_access required) as [| |? []| |]; apply _. Qed.

Lemma capabilities_stay dims caller input (required : list (string * ActionRequirement)) grants :
  Stays (fun l => Forall2 (fun entry grant => grant.1 = entry.1 /\ capability_held dims caller input entry.2 grant.2 l) required grants).
Proof. intros l l' Hk Hp. eapply Forall2_impl; [exact Hk|]. intros entry grant [Hn Hc]. split; [done|]. by eapply stays. Qed.

#[export] Instance access_held_stays dims row requirement caller input membership got : Stays (access_held dims row requirement caller input membership got).
Proof.
  unfold access_held. destruct requirement as [| |required|required]; [apply _..| |].
  - apply stays_ex. intros grants. apply stays_and; [apply _|apply capabilities_stay].
  - destruct (req_access required) as [| |? []| |]; repeat (apply stays_ex; intros ?); repeat first [apply stays_and | apply stays_pure | apply _].
Qed.

Section Held.
Context (world : World) (dims : Dimensions) (guard : Log -> Event -> Prop).
Hypothesis guard_locate : forall l dimension value r, guard l (Ev (Locate dimension value) r).
Hypothesis guard_create : forall l membership r, guard l (Ev (CreateScope membership) r).

Lemma group_held_of caller action dimension g : permits (cl_perms caller) action None = false -> g ∈ group dimension (scopedValues (cl_perms caller) action dimension) -> group_held caller action g /\ cg_dimension g = dimension.
Proof.
  intros Hg. unfold group. destruct (scopedValues_permits (cl_perms caller) action dimension) as (Hv & Hn & _).
  destruct (scopedValues (cl_perms caller) action dimension) as [[|v values]|] eqn:E; cbn; [by intros ?%elem_of_nil| |by intros ?%elem_of_nil].
  intros ->%list_elem_of_singleton. split; [|done]. split; [done|]. cbn [cg_values cg_dimension]. intros w. by rewrite Hv, elem_spec.
Qed.

Lemma within_is caller action dimension grant : within dims caller action dimension = inr grant -> within_held dims caller action dimension grant.
Proof.
  unfold within. destruct (scopedValues_permits (cl_perms caller) action dimension) as (Hv & Hn & _).
  destruct (scopedValues (cl_perms caller) action dimension) as [values|] eqn:E.
  - destruct (_ && _); [done|]. intros ->%mint_within_is. eexists _, _, _. split; [reflexivity|].
    assert (Hg : permits (cl_perms caller) action None = false) by (destruct (permits _ _ None); [|done]; by destruct Hn as [_ Hn]; specialize (Hn eq_refl)).
    split; [done|]. split; [intros v; by rewrite Hv, elem_spec|]. split; apply Forall_forall; intros g Hin.
    + apply list_elem_of_In, in_flat_map in Hin as (container & Hc & Hin). apply list_elem_of_In in Hin. apply group_held_of in Hin as [Hh <-]; [|done]. split; [done|]. by apply list_elem_of_In.
    + apply list_elem_of_In, in_flat_map in Hin as ([inner containers] & Hc & Hin). cbn [fst snd] in Hin. destruct (Js.elem dimension containers) eqn:Ei; [|done]. apply list_elem_of_In in Hin.
      apply group_held_of in Hin as [Hh <-]; [|done]. split; [done|]. exists containers. split; [by apply list_elem_of_In|by apply elem_spec].
  - intros ->%mint_within_is. exists None, [], []. split; [done|]. split; [by apply Hn|done].
Qed.

(** What [#chain] answers is where the value lies. *)
Definition chain_known (dimension value : string) (chain : option Links) (l : Log) : Prop :=
  forall links, chain = Some links -> located dims dimension value links l /\ is_map links.

Instance chain_known_stays dimension value chain : Stays (chain_known dimension value chain).
Proof. unfold chain_known. apply _. Qed.

Lemma chain_at_sound K dimension value : Stays K -> sound guard K (chain_at world dims dimension value) (chain_known dimension value).
Proof.
  intros HK. unfold chain_at, chain_known, located. destruct (d_database dims), (Js.elem dimension (d_owned dims)); cbn [negb orb andb];
    try (apply sound_ret; intros l _ links [= <-]; split; [done|apply NoDup_nil_2]).
  eapply (sound_bind _ _ _ _ (fun answer => answered (Locate dimension value) answer)); [done|apply _|by apply sound_ask|]. intros answer. apply sound_ret.
  intros l [_ Ha] links Hl. destruct answer as [links'|]; [|done]. injection Hl as <-. split; [by exists links'|]. apply mapOf_is_map.
Qed.

Lemma inRef_sound K caller action dimension value : Stays K -> sound guard K (inRef world dims caller action dimension value) (fun grant l => ref_held dims caller action dimension value grant l).
Proof.
  intros HK. unfold inRef. destruct (negb _ && _); [apply sound_throw|]. eapply sound_bind; [done| |by apply chain_at_sound|]; [apply _|]. intros chain.
  destruct (holdsOnChain _ _ _ _ _) eqn:Eh; cbn [negb]; [|apply sound_throw]. destruct chain as [chain|]; [|apply sound_throw]. apply sound_lift.
  intros l grant [_ Hc] Hm. destruct (Hc chain eq_refl) as [Hl Hmap]. rewrite mint_ref_is in Hm by done. injection Hm as <-. exists chain. split; [done|]. split; [done|]. by apply holdsOnChain_spec.
Qed.

Lemma onRef_sound K caller action dimension value : Stays K -> sound guard K (onRef world dims caller action dimension value) (fun grant l => ref_held dims caller action dimension value grant l).
Proof.
  intros HK. unfold onRef. eapply sound_bind; [done| |by apply chain_at_sound|]; [apply _|]. intros chain. destruct chain as [chain|]; [|apply sound_throw].
  destruct (holdsOnChain _ _ _ _ _) eqn:Eh; cbn [negb]; [|apply sound_throw]. apply sound_lift.
  intros l grant [_ Hc] Hm. destruct (Hc chain eq_refl) as [Hl Hmap]. rewrite mint_ref_is in Hm by done. injection Hm as <-. exists chain. split; [done|]. split; [done|]. by apply holdsOnChain_spec.
Qed.

Lemma takeField_inr input field value rest : takeField input field = inr (value, rest) -> lookup_field field input = Some (UStr value) /\ rest = without [field] input.
Proof.
  unfold takeField. destruct (lookup_field field input) as [[]|]; try done. intros [= <- <-]. split; [done|]. unfold without. apply filter_ext. intros [k v]. cbn.
  by rewrite orb_false_r, String.eqb_sym.
Qed.

(** The field a capability is read from. *)
Definition from_of (required : ActionRequirement) : option string := match req_access required with FormIn _ from | FormOn _ (Some from) => Some from | _ => None end.

Lemma capability_sound K caller input required : Stays K ->
  sound guard K (capability world dims caller input required) (fun got l => capability_held dims caller input required got.1 l /\ got.2 = from_of required).
Proof.
  intros HK. unfold capability, capability_held, from_of. destruct (req_access required) as [dimension|dimension from|dimension [from|]|dimension|]; try apply sound_throw.
  - eapply (sound_bind _ _ _ _ (fun grant _ => within_held dims caller (req_action required) dimension grant)); [done|apply _| |].
    { apply sound_lift. intros l grant _ Hg. by apply within_is. } intros grant. apply sound_ret. by intros l [_ Hh].
  - eapply (sound_bind _ _ _ _ (fun taken _ => lookup_field from input = Some (UStr taken.1))); [done|apply _| |].
    { apply sound_lift. intros l [value rest] _ Ht. by apply takeField_inr in Ht as [? _]. }
    intros taken. eapply sound_bind; [apply _| |apply inRef_sound; apply _|]; [apply _|]. intros grant. apply sound_ret. intros l [[_ Hl] Hr]. split; [|done]. by exists taken.1.
  - eapply (sound_bind _ _ _ _ (fun taken _ => lookup_field from input = Some (UStr taken.1))); [done|apply _| |].
    { apply sound_lift. intros l [value rest] _ Ht. by apply takeField_inr in Ht as [? _]. }
    intros taken. eapply sound_bind; [apply _| |apply onRef_sound; apply _|]; [apply _|]. intros grant. apply sound_ret. intros l [[_ Hl] Hr]. split; [|done]. by exists taken.1.
Qed.

Lemma mint_each_sound K caller input required minted read : Stays K -> sound guard K (mint_each world dims caller input required minted read) (fun got l =>
  exists grants, got = (minted ++ grants, read ++ read_fields required) /\ Forall2 (fun entry grant => grant.1 = entry.1 /\ capability_held dims caller input entry.2 grant.2 l) required grants).
Proof.
  intros HK. revert K HK minted read. induction required as [|[name requirement] required IH]; intros K HK minted read; cbn [mint_each].
  - apply sound_ret. intros l _. exists []. rewrite !app_nil_r. by split; [|constructor].
  - eapply sound_bind; [done| |by apply capability_sound|]; [apply _|]. intros [grant from]. eapply sound_weaken with (K' := fun l => K l /\ capability_held dims caller input requirement grant l /\ from = from_of requirement).
    + eapply sound_frame; [apply _|]. apply IH. apply _.
    + done.
    + intros got l [(_ & Hc & ->) (grants & -> & Hf)]. exists ((name, grant) :: grants). cbn [fst snd read_fields flat_map]. rewrite <-!app_assoc. split; [|by constructor].
      f_equal. f_equal. unfold from_of. by destruct (req_access requirement) as [| |? []| |].
Qed.

Lemma linkTarget_sound K mount caller action dimension input : Stays K -> sound guard K (linkTarget world dims mount caller action dimension input) (fun got l =>
  exists grant, got = (AccessTarget grant, input) /\ link_held dims mount caller action dimension grant l).
Proof.
  intros HK. unfold linkTarget. destruct (cl_link caller) as [link|] eqn:El; [|apply sound_throw]. destruct (String.eqb_spec (link_mount link) mount) as [Hm|]; cbn [negb]; [|apply sound_throw].
  destruct (link_chain link) as [|object containers] eqn:Ec; [apply sound_throw|]. destruct (String.eqb_spec (scope_type object) dimension) as [Hd|]; cbn [negb orb]; [|apply sound_throw].
  destruct (permits _ _ _) eqn:Ep; cbn [negb]; [|apply sound_throw]. eapply sound_bind; [done| |by apply chain_at_sound|]; [apply _|]. intros chain. destruct chain as [chain|]; [|apply sound_throw].
  destruct (_ && _) eqn:Eu; [|apply sound_throw]. apply andb_true_iff in Eu as [Hlen%Nat.eqb_eq Hall].
  eapply (sound_bind _ _ _ _ (fun grant l => link_held dims mount caller action dimension grant l)); [apply _|apply _| |].
  - apply sound_lift. intros l grant [_ Hc] Hg. destruct (Hc chain eq_refl) as [Hl Hmap]. rewrite mint_ref_is in Hg by done. injection Hg as <-.
    exists link, object, containers, chain. split_and!; try done. apply Forall_forall. intros scope Hs. apply list_elem_of_In in Hs.
    rewrite forallb_forall in Hall. by apply (bool_decide_eq_true_1 _ (Hall scope Hs)).
  - intros grant. apply sound_ret. intros l [_ Hh]. by exists grant.
Qed.

(** What [#access] hands a handler: of every access form, a capability of exactly the values the token's permissions give the
    caller in the endpoint's action, an object only where it lies now, and the handler's input without the fields the
    capabilities were read from. *)
Theorem access_sound K row requirement caller input membership : Stays K ->
  sound guard K (access world dims row requirement caller input membership) (fun got l => access_held dims row requirement caller input membership got l).
Proof.
  intros HK. unfold access, access_held. destruct requirement as [| |required|required]; [apply sound_throw|by apply sound_ret| |].
  - unfold capabilities. eapply sound_bind; [done| |by apply mint_each_sound|].
    + intros got. apply stays_ex. intros grants. apply stays_and; [apply _|apply capabilities_stay].
    + intros got. apply sound_ret. intros l [_ (grants & -> & Hf)]. exists grants. by split.
  - destruct (req_access required) as [dimension|dimension from|dimension [from|]|dimension|].
    + eapply (sound_bind _ _ _ _ (fun grant _ => within_held dims caller (req_action required) dimension grant)); [done|apply _| |].
      { apply sound_lift. intros l grant _ Hg. by apply within_is. } intros grant. apply sound_ret. intros l [_ Hh]. by exists grant.
    + eapply (sound_bind _ _ _ _ (fun taken _ => lookup_field from input = Some (UStr taken.1) /\ taken.2 = without [from] input)); [done|apply _| |].
      { apply sound_lift. intros l [value rest] _ Ht. by apply takeField_inr in Ht. }
      intros taken. eapply sound_bind; [apply _| |apply inRef_sound; apply _|]; [apply _|]. intros grant. apply sound_ret. intros l [(_ & Hl & ->) Hr]. by exists taken.1, grant.
    + eapply (sound_bind _ _ _ _ (fun taken _ => lookup_field from input = Some (UStr taken.1) /\ taken.2 = without [from] input)); [done|apply _| |].
      { apply sound_lift. intros l [value rest] _ Ht. by apply takeField_inr in Ht. }
      intros taken. eapply sound_bind; [apply _| |apply onRef_sound; apply _|]; [apply _|]. intros grant. apply sound_ret. intros l [(_ & Hl & ->) Hr]. by exists taken.1, grant.
    + by apply linkTarget_sound.
    + destruct membership as [membership|]; [|apply sound_throw]. eapply (sound_bind _ _ _ _ (fun value => answered (CreateScope membership) value)); [done|apply _|by apply sound_ask|].
      intros value. eapply (sound_bind _ _ _ _ (fun grant _ => grant = GrantRef (mkRef dimension (req_action required) (cl_subject caller) value []))); [apply _|apply _| |].
      { apply sound_lift. intros l grant _ Hg. rewrite mint_ref_is in Hg by apply NoDup_nil_2. congruence. }
      intros grant. apply sound_ret. intros l [[_ Ha] ->]. by exists membership, value.
    + eapply (sound_bind _ _ _ _ (fun grant _ => grant = GrantApp (mkAppGrant (req_action required) (cl_subject caller)))); [done|apply _| |].
      { apply sound_lift. intros l grant _ Hg. rewrite mint_app_is in Hg. congruence. } intros grant. apply sound_ret. by intros l [_ ->].
Qed.

End Held.
