(* ===== verification/Multipart.v ===== *)
(** The boundary of a [multipart/form-data] body and the parameters of a header value ([splitParameters], [unquote] and
    [multipartBoundary] of [app/src/implement/multipart.ts]); the reader of such a body is in [FormReader.v]. *)

From S2P Require Import Prelude.
From Stdlib Require Import ZArith Lia String Ascii.
From stdpp Require Import base tactics strings option list.

Definition QUOTE : ascii := ascii_of_nat 34.
Definition BACKSLASH : ascii := ascii_of_nat 92.
Definition CRLF : string := String (ascii_of_nat 13) (String (ascii_of_nat 10) "").

(** ** Parameters *)

(** The loop of [splitParameters]: semicolons inside a quoted string do not split. *)
Fixpoint split_parameters (s current : string) (quoted : bool) (parts : list string) {struct s} : list string :=
  match s with
  | EmptyString => parts ++ [Js.trim current]
  | String c s' =>
      if quoted && Ascii.eqb c BACKSLASH then
        match s' with
        | EmptyString => parts ++ [Js.trim (current +:+ String c "")]
        | String d s'' => split_parameters s'' (current +:+ String c (String d "")) quoted parts
        end
      else if Ascii.eqb c QUOTE then split_parameters s' (current +:+ String c "") (negb quoted) parts
      else if Ascii.eqb c ";" && negb quoted then split_parameters s' "" quoted (parts ++ [Js.trim current])
      else split_parameters s' (current +:+ String c "") quoted parts
  end.

Definition splitParameters (value : string) : list string := split_parameters value "" false [].

(** The loop of [unquote] from [index]: the last character is the closing quote. *)
Fixpoint unquote_loop (s text : string) {struct s} : option string :=
  match s with
  | EmptyString | String _ EmptyString => Some text
  | String c s' =>
      if Ascii.eqb c BACKSLASH then match s' with String d s'' => unquote_loop s'' (text +:+ String d "") | EmptyString => Some text end
      else if Ascii.eqb c QUOTE then None
      else unquote_loop s' (text +:+ String c "")
  end.

Definition unquote (value : string) : option string :=
  match value with
  | String q rest =>
      if Ascii.eqb q QUOTE then
        if (String.length value <? 2)%nat || negb (Js.endsWith value (String QUOTE "")) then None else unquote_loop rest ""
      else if Js.includes value (String QUOTE "") then None else Some value
  | EmptyString => None
  end.

Definition is_boundary_unit (c : ascii) : bool :=
  Js.is_letter c || Js.is_digit c || existsb (Ascii.eqb c) ["'"; "("; ")"; "+"; "_"; ","; "-"; "."; "/"; ":"; "="; "?"]%char.

(** [BOUNDARY]: 1 to 70 characters, the last not a space. *)
Definition is_boundary (value : string) : bool :=
  (1 <=? String.length value)%nat && (String.length value <=? 70)%nat
  && Js.forall_units (fun c => is_boundary_unit c || Ascii.eqb c " ") value
  && negb (Js.endsWith value " ").

(** A parameter as its key, lower-cased, and the text after the equals sign; [None] without one after the first character. *)
Definition parameter (text : string) : option (string * string) :=
  match Js.indexOf "=" text with
  | Some (S n) => Some (Js.toLowerCase (Js.trim (Js.take (S n) text)), Js.trim (Js.drop (S (S n)) text))
  | _ => None
  end.

Fixpoint find_boundary (parameters : list string) : option string :=
  match parameters with
  | [] => None
  | text :: parameters =>
      match parameter text with
      | Some (key, value) =>
          if (key =? "boundary")%string then boundary ← unquote value; if is_boundary boundary then Some boundary else None
          else find_boundary parameters
      | None => find_boundary parameters
      end
  end.

(** [multipartBoundary] *)
Definition multipartBoundary (contentType : option string) : option string :=
  match splitParameters (default "" contentType) with
  | type :: parameters => if (Js.toLowerCase type =? "multipart/form-data")%string then find_boundary parameters else None
  | [] => None
  end.

Example boundary_reads : multipartBoundary (Some ("multipart/form-data; charset=utf-8; Boundary=" +:+ String QUOTE ("a;b" +:+ String QUOTE ""))) = None
  /\ multipartBoundary (Some "Multipart/Form-Data; charset=utf-8; Boundary=a_b") = Some "a_b".
Proof. by vm_compute. Qed.
