(* ===== verification/FormReader.v ===== *)
(** A [multipart/form-data] body read part by part as its chunks arrive ([partHeaders] and [multipartParts] of
    [app/src/implement/multipart.ts]): the headers of a part, the delimiters between parts, and the bytes of each part's body.

    A chunk is what one read of the body's stream gives. What [TextDecoder] reads of a header block is a parameter. *)

From S2P Require Import Prelude Digest Requests Multipart.
From Stdlib Require Import ZArith Lia String Ascii.
From stdpp Require Import base tactics strings option list.

Open Scope Z_scope.

Notation Bytes := (list Z).

(** ** The headers of a part *)

Record MultipartError := mkFormError { me_message : string; me_interrupted : bool }.

Record PartHeaders := mkPartHeaders { ph_name : string; ph_filename : option string; ph_contentType : option string }.

(** The loop of [partHeaders] over the lines of a block. *)
Fixpoint header_lines (lines : list string) (disposition contentType : option string) : string + option string * option string :=
  match lines with
  | [] => inr (disposition, contentType)
  | line :: lines =>
      match Js.indexOf ":" line with
      | None | Some O => inl "a part header is not a name and a value"
      | Some colon =>
          let header := Js.toLowerCase (Js.trim (Js.take colon line)) in
          let value := Js.trim (Js.drop (S colon) line) in
          if (header =? "content-disposition")%string then
            if is_some disposition then inl "a part has two Content-Disposition headers" else header_lines lines (Some value) contentType
          else if (header =? "content-type")%string then
            let type := Js.toLowerCase (Js.trim (nth 0 (Js.split ";" value) "")) in
            header_lines lines disposition (if (type =? "")%string then None else Some type)
          else header_lines lines disposition contentType
      end
  end.

(** The loop over the parameters of [Content-Disposition]. *)
Fixpoint disposition_names (parameters : list string) (name filename : option string) : string + option string * option string :=
  match parameters with
  | [] => inr (name, filename)
  | text :: parameters =>
      match parameter text with
      | None => disposition_names parameters name filename
      | Some (key, value) =>
          if (key =? "name")%string then
            match unquote value, name with
            | Some value, None => disposition_names parameters (Some value) filename
            | _, _ => inl "a part's name is malformed or given twice"
            end
          else if (key =? "filename")%string then
            match unquote value, filename with
            | Some value, None => disposition_names parameters name (Some value)
            | _, _ => inl "a part's filename is malformed or given twice"
            end
          else disposition_names parameters name filename
      end
  end.

Definition CR : ascii := ascii_of_nat 13.
Definition LF : ascii := ascii_of_nat 10.

(** [split('\r\n')] *)
Fixpoint split_lines (s : string) : list string :=
  match s with
  | EmptyString => [""]
  | String c EmptyString => [String c ""]
  | String c ((String d s'') as s') =>
      if Ascii.eqb c CR && Ascii.eqb d LF then "" :: split_lines s''
      else match split_lines s' with [] => [String c ""] | line :: lines => String c line :: lines end
  end.

(** [partHeaders], of the block's text; the second message also shows the header it asks for. *)
Definition partHeaders (block : string) : string + PartHeaders :=
  match header_lines (split_lines block) None None with
  | inl message => inl message
  | inr (disposition, contentType) =>
      match splitParameters (default "" disposition) with
      | [] => inl "a part is not form-data"
      | kind :: parameters =>
          if negb (Js.toLowerCase kind =? "form-data")%string then inl "a part is not form-data"
          else match disposition_names parameters None None with
               | inl message => inl message
               | inr (name, filename) =>
                   match name with
                   | None | Some EmptyString => inl "a part has no name"
                   | Some name => inr (mkPartHeaders name filename contentType)
                   end
               end
      end
  end.

(** ** Bytes *)

Fixpoint starts_with (d b : Bytes) : bool :=
  match d, b with
  | [], _ => true
  | x :: d, y :: b => (x =? y) && starts_with d b
  | _ :: _, [] => false
  end.

(** [buffer.indexOf] *)
Fixpoint index_of (d b : Bytes) : option nat :=
  if starts_with d b then Some O else match b with [] => None | _ :: b => S <$> index_of d b end.

Definition CRLF_BYTES : Bytes := [13; 10].
Definition HEADERS_END : Bytes := [13; 10; 13; 10].
Definition CLOSING : Bytes := [45; 45].

(** ** The reader *)

Record Reader := mkReader {
  rd_source : list Chunk;
  rd_buffer : Bytes;
  rd_ended : bool;
  rd_reading : bool;
  rd_finished : bool;
  rd_cancelled : bool;
  rd_failed : option MultipartError;
  rd_started : bool;
}.

#[local] Notation act := (eff Reader MultipartError).

Definition set_stream (source : list Chunk) (buffer : Bytes) (s : Reader) : Reader :=
  mkReader source buffer (rd_ended s) (rd_reading s) (rd_finished s) (rd_cancelled s) (rd_failed s) (rd_started s).

Definition set_buffer (buffer : Bytes) : act unit := Eff.modify (fun s => set_stream (rd_source s) buffer s).
Definition set_reading (b : bool) : act unit :=
  Eff.modify (fun s => mkReader (rd_source s) (rd_buffer s) (rd_ended s) b (rd_finished s) (rd_cancelled s) (rd_failed s) (rd_started s)).
Definition set_finished : act unit :=
  Eff.modify (fun s => mkReader (rd_source s) (rd_buffer s) (rd_ended s) (rd_reading s) true (rd_cancelled s) (rd_failed s) (rd_started s)).
Definition set_started : act unit :=
  Eff.modify (fun s => mkReader (rd_source s) (rd_buffer s) (rd_ended s) (rd_reading s) (rd_finished s) (rd_cancelled s) (rd_failed s) true).

(** [source.cancel()]: what was not read is gone, and a read answers the end. *)
Definition cancel_source : act unit := Eff.modify (fun s => set_stream [] (rd_buffer s) s).

(** [fail]: once reading was cancelled, the end it meets is the cancellation's. *)
Definition fail {A} (message : string) (interrupted : bool) : act A := fun s =>
  if rd_cancelled s then (inl (mkFormError "the body was not read to its end" false), s)
  else (inl (mkFormError message interrupted), mkReader (rd_source s) (rd_buffer s) (rd_ended s) (rd_reading s) (rd_finished s) (rd_cancelled s) (Some (mkFormError message interrupted)) (rd_started s)).

(** [fill] *)
Definition fill : act bool := fun s =>
  if rd_ended s then (inr false, s)
  else match rd_source s with
       | [] => (inr false, mkReader [] (rd_buffer s) true (rd_reading s) (rd_finished s) (rd_cancelled s) (rd_failed s) (rd_started s))
       | Broken :: _ => fail "the body could not be read to its end" true s
       | Data bytes :: rest => (inr true, set_stream rest (rd_buffer s ++ bytes) s)
       end.

(** [for (;;) { … if (!(await fill())) … }]: the buffer is tested, and more of the body read until the test answers. *)
Fixpoint until {A} (fuel : nat) (test : Bytes -> option (act A)) (atEnd : act A) : act A := fun s =>
  match fuel with
  | O => atEnd s
  | S fuel =>
      match test (rd_buffer s) with
      | Some found => found s
      | None => (filled ← fill; if filled : bool then until fuel test atEnd else atEnd) s
      end
  end.

(** Every fill takes a chunk, so as many turns and one are enough. *)
Definition loop {A} (test : Bytes -> option (act A)) (atEnd : act A) : act A := fun s => until (S (length (rd_source s))) test atEnd s.

(** [want] *)
Definition want (size : nat) : act bool := loop (fun buffer => if (size <=? length buffer)%nat then Some (mret true) else None) (mret false).

Inductive Piece := Enqueued (bytes : Bytes) | Closed (last : Bytes).

Section Reader.
Context (decode : Bytes -> string) (boundary : string) (maxHeaderBytes : Z).

Definition delimiter : Bytes := CRLF_BYTES ++ CLOSING ++ utf8 boundary.

(** What [multipartParts] starts with. *)
Definition opened (source : list Chunk) : Reader := mkReader source CRLF_BYTES false false false false None false.

(** [afterDelimiter]: whether a part follows. *)
Definition afterDelimiter : act bool :=
  enough ← want 2;
  if negb enough then fail "the body ends inside a delimiter" false
  else
    buffer ← Eff.gets rd_buffer;
    _ ← set_buffer (drop 2 buffer);
    if bool_decide (take 2 buffer = CLOSING) then mret false
    else if bool_decide (take 2 buffer = CRLF_BYTES) then mret true
    else fail "a delimiter is followed by neither CRLF nor --" false.

(** [headers]; its first message also tells the limit. *)
Definition over_limit (found : option nat) (buffer : Bytes) : bool :=
  match found with Some found => maxHeaderBytes <? Z.of_nat found | None => maxHeaderBytes <? Z.of_nat (length buffer) end.

Definition headers : act PartHeaders :=
  loop (fun buffer =>
    let found := index_of HEADERS_END buffer in
    if over_limit found buffer then Some (fail "a part's headers are too long" false)
    else match found with
         | Some found => Some (
             _ ← set_buffer (drop (found + length HEADERS_END) buffer);
             match partHeaders (decode (take found buffer)) with inl message => fail message false | inr headers => mret headers end)
         | None => None
         end)
    (fail "the body ends inside a part's headers" false).

(** One [pull] of a part's body. *)
Definition pull : act Piece :=
  loop (fun buffer =>
    match index_of delimiter buffer with
    | Some found => Some (_ ← set_buffer (drop (found + length delimiter) buffer); _ ← set_reading false; mret (Closed (take found buffer)))
    | None =>
        let safe := (length buffer - (length delimiter - 1))%nat in
        if (0 <? safe)%nat then Some (_ ← set_buffer (drop safe buffer); mret (Enqueued (take safe buffer))) else None
    end)
    (fail "the body ends inside a part" false).

(** [next] *)
Definition next : act (option PartHeaders) := fun s =>
  if rd_finished s then (inr None, s)
  else if rd_cancelled s then (inl (mkFormError "the body was not read to its end" false), s)
  else match rd_failed s with
       | Some failed => (inl failed, s)
       | None =>
           if rd_reading s then (inl (mkFormError "the previous part's body was not read to its end" false), s)
           else (
             _ ← (if rd_started s then mret tt
                  else
                    _ ← set_started;
                    enough ← want (length delimiter);
                    buffer ← Eff.gets rd_buffer;
                    if negb enough || negb (bool_decide (index_of delimiter buffer = Some O)) then fail "the body does not start with its boundary" false
                    else set_buffer (drop (length delimiter) buffer));
             part ← afterDelimiter;
             if negb part then _ ← set_finished; _ ← cancel_source; mret None
             else found ← headers; _ ← set_reading true; mret (Some found)) s
       end.

(** The [cancel] of a part's body, and of the reader. *)
Definition cancel_body : act unit := fun s =>
  (inr tt, mkReader [] (rd_buffer s) (rd_ended s) (rd_reading s) (rd_finished s) true (rd_failed s) (rd_started s)).

Definition cancel : act unit := fun s =>
  (inr tt, mkReader [] (rd_buffer s) (rd_ended s) (rd_reading s) (rd_finished s) (negb (rd_finished s)) (rd_failed s) (rd_started s)).

(** ** A caller that reads every part to its end *)

Fixpoint drain (fuel : nat) (read : Bytes) : act (option Bytes) :=
  match fuel with
  | O => mret None
  | S fuel => piece ← pull; match piece with Enqueued bytes => drain fuel (read ++ bytes) | Closed last => mret (Some (read ++ last)) end
  end.

(** A body has no more pieces than bytes. *)
Definition data_of (source : list Chunk) : Bytes := flat_map (fun chunk => match chunk with Data bytes => bytes | Broken => [] end) source.
Definition drained : act (option Bytes) := fun s => drain (S (length (rd_buffer s) + length (data_of (rd_source s)))) [] s.

Fixpoint read_form (fuel : nat) : act (option (list (PartHeaders * Bytes))) :=
  match fuel with
  | O => mret None
  | S fuel =>
      found ← next;
      match found with
      | None => mret (Some [])
      | Some headers =>
          body ← drained;
          rest ← read_form fuel;
          mret (bytes ← body; parts ← rest; Some ((headers, bytes) :: parts))
      end
  end.

End Reader.

(** ** Where a pattern is *)

Lemma starts_with_length d b : starts_with d b = true -> (length d <= length b)%nat.
Proof. revert b. induction d as [|x d IH]; intros [|y b]; cbn; [lia..|done|]. intros [_ Hs]%andb_prop. specialize (IH b Hs). lia. Qed.

Lemma starts_with_app d b more : (length d <= length b)%nat -> starts_with d (b ++ more) = starts_with d b.
Proof. revert b. induction d as [|x d IH]; intros [|y b]; cbn; intros Hl; [done..|lia|]. by rewrite IH by lia. Qed.

Lemma starts_with_self d more : starts_with d (d ++ more) = true.
Proof. induction d as [|x d IH]; cbn; [done|]. by rewrite Z.eqb_refl. Qed.

Lemma index_of_length d b i : index_of d b = Some i -> (i + length d <= length b)%nat.
Proof.
  revert i. induction b as [|y b IH]; intros i; cbn [index_of]; destruct (starts_with d _) eqn:Es; try (intros [= <-]; by apply starts_with_length in Es).
  destruct (index_of d b) as [j|]; cbn; [|done]. intros [= <-]. specialize (IH j eq_refl). lia.
Qed.

Lemma index_of_app d b more i : index_of d b = Some i -> index_of d (b ++ more) = Some i.
Proof.
  revert i. induction b as [|y b IH]; intros i Hi; pose proof (index_of_length _ _ _ Hi) as Hl.
  - destruct d; [|cbn in Hl; lia]. cbn in Hi. injection Hi as <-. by destruct more.
  - cbn [index_of app] in *. rewrite app_comm_cons, starts_with_app by lia. destruct (starts_with d (y :: b)); [done|]. destruct (index_of d b) as [j|]; [|done]. by rewrite (IH j eq_refl).
Qed.

Lemma index_of_within d b more i : index_of d (b ++ more) = Some i -> (i + length d <= length b)%nat -> index_of d b = Some i.
Proof.
  revert i. induction b as [|y b IH]; intros i Hi Hl.
  - destruct d; [|cbn in Hl; lia]. cbn in Hl. assert (i = O) as -> by lia. done.
  - cbn [index_of app] in *. destruct (starts_with d (y :: b ++ more)) eqn:Es.
    + injection Hi as <-. rewrite app_comm_cons, starts_with_app in Es by (cbn in *; lia). by rewrite Es.
    + destruct (index_of d (b ++ more)) as [j|] eqn:Ej; [|done]. injection Hi as <-. cbn in Hl. rewrite app_comm_cons, starts_with_app in Es by (cbn in *; lia). rewrite Es, (IH j) by (done || lia). done.
Qed.

Lemma index_of_drop d b i k : index_of d b = Some i -> (k <= i)%nat -> index_of d (drop k b) = Some (i - k)%nat.
Proof.
  revert i k. induction b as [|y b IH]; intros i k Hi Hk.
  - pose proof (index_of_length _ _ _ Hi). cbn in *. assert (i = O) as -> by lia. assert (k = O) as -> by lia. done.
  - destruct k as [|k]; [by rewrite Nat.sub_0_r|]. cbn [index_of] in Hi. destruct (starts_with d (y :: b)); [injection Hi as <-; lia|]. destruct (index_of d b) as [j|] eqn:Ej; [|done].
    injection Hi as <-. cbn [drop]. rewrite (IH j k) by (done || lia). done.
Qed.

(** A pattern that is not in what was read, and is in the whole, starts in what may not be given away yet. *)
Lemma index_of_safe d b more i : d <> [] -> index_of d b = None -> index_of d (b ++ more) = Some i -> (length b - (length d - 1) <= i)%nat.
Proof.
  intros Hd Hn Hi. destruct (decide (i + length d <= length b)%nat) as [Hle|Hgt]; [by rewrite (index_of_within _ _ _ _ Hi Hle) in Hn|].
  assert (0 < length d)%nat by (destruct d; cbn; [done|lia]). lia.
Qed.

Lemma index_of_self d more : index_of d (d ++ more) = Some O.
Proof. destruct (d ++ more) eqn:E; cbn; rewrite <-E, starts_with_self; done. Qed.

(** ** What a loop reads *)

Lemma until_spec {A} (test : Bytes -> option (eff Reader MultipartError A)) atEnd rest data : forall fuel s, (length data < fuel)%nat -> rd_source s = map Data data ++ rest -> rd_ended s = false ->
  test (rd_buffer s ++ concat data) <> None ->
  exists data1 data2 found, data = data1 ++ data2 /\ test (rd_buffer s ++ concat data1) = Some found /\
    until fuel test atEnd s = found (set_stream (map Data data2 ++ rest) (rd_buffer s ++ concat data1) s).
Proof.
  induction data as [|bytes data IH]; intros fuel s Hf Hs He Ht; (destruct fuel as [|fuel]; [cbn in Hf; lia|]); cbn [until].
  - cbn [concat] in Ht. rewrite app_nil_r in Ht. destruct (test (rd_buffer s)) as [found|] eqn:E; [|done]. exists [], [], found. cbn. rewrite app_nil_r. split; [done|]. split; [done|].
    cbn in Hs. rewrite <-Hs. by destruct s.
  - destruct (test (rd_buffer s)) as [found|] eqn:E.
    + exists [], (bytes :: data), found. cbn [concat]. rewrite app_nil_r. split; [done|]. split; [done|]. rewrite <-Hs. by destruct s.
    + unfold mbind, eff_bind, fill. rewrite He, Hs. cbn [map app]. set (s1 := set_stream (map Data data ++ rest) (rd_buffer s ++ bytes) s).
      destruct (IH fuel s1) as (data1 & data2 & found & -> & Hfound & Hu); [cbn in *; lia|done|done|cbn; by rewrite <-app_assoc|].
      exists (bytes :: data1), data2, found. cbn [concat]. rewrite app_assoc. split; [done|]. split; [done|]. rewrite Hu. done.
Qed.

(** The stream that a reader has before it: bytes that come in chunks, and what follows them. *)
Definition before (rest : list Chunk) (all : Bytes) (source : list Chunk) (buffer : Bytes) : Prop := exists data, source = map Data data ++ rest /\ buffer ++ concat data = all.

Lemma loop_reads {A} (test : Bytes -> option (eff Reader MultipartError A)) atEnd rest all s : before rest all (rd_source s) (rd_buffer s) -> rd_ended s = false -> test all <> None ->
  exists source buffer found, before rest all source buffer /\ test buffer = Some found /\ loop test atEnd s = found (set_stream source buffer s).
Proof.
  intros (data & Hs & Hb) He Ht. unfold loop. destruct (until_spec test atEnd rest data (S (length (rd_source s))) s) as (data1 & data2 & found & -> & Hf & ->).
  - rewrite Hs, length_app, length_map. lia.
  - done.
  - done.
  - by rewrite Hb.
  - exists (map Data data2 ++ rest), (rd_buffer s ++ concat data1), found. split; [|done]. exists data2. split; [done|]. by rewrite <-Hb, concat_app, app_assoc.
Qed.

Lemma before_drop rest all source buffer n : before rest all source buffer -> (n <= length buffer)%nat -> before rest (drop n all) source (drop n buffer).
Proof. intros (data & Hs & <-) Hn. exists data. split; [done|]. rewrite drop_app. by replace (n - length buffer)%nat with O by lia. Qed.

Lemma before_prefix rest all source buffer : before rest all source buffer -> exists more, all = buffer ++ more.
Proof. intros (data & _ & <-). by exists (concat data). Qed.

Lemma delimiter_length boundary : (4 <= length (delimiter boundary))%nat.
Proof. unfold delimiter. rewrite !length_app. cbn. lia. Qed.

(** ** A form that was sent *)

Section Sent.
Context (decode : Bytes -> string) (boundary : string) (maxHeaderBytes : Z).

Notation delimiter := (delimiter boundary).

(** A reader between a delimiter and the end of a part, and what it reads. *)
Definition under (reading : bool) (source : list Chunk) (buffer : Bytes) : Reader := mkReader source buffer false reading false false None true.

Record SentPart := mkSent { sent_headers : PartHeaders; sent_block : Bytes; sent_content : Bytes }.

(** A part whose headers and body end where they say, with headers within the bound whatever chunk they end in. *)
Definition sent_ok (part : SentPart) : Prop :=
  partHeaders (decode (sent_block part)) = inr (sent_headers part) /\ index_of HEADERS_END (sent_block part ++ HEADERS_END) = Some (length (sent_block part)) /\
  Z.of_nat (length (sent_block part)) + 3 <= maxHeaderBytes /\ index_of delimiter (sent_content part ++ delimiter) = Some (length (sent_content part)).

(** What follows a delimiter. *)
Fixpoint form_rest (parts : list SentPart) (epilogue : Bytes) : Bytes :=
  match parts with
  | [] => CLOSING ++ epilogue
  | part :: parts => CRLF_BYTES ++ sent_block part ++ HEADERS_END ++ sent_content part ++ delimiter ++ form_rest parts epilogue
  end.

Definition form_bytes (parts : list SentPart) (epilogue : Bytes) : Bytes := CLOSING ++ utf8 boundary ++ form_rest parts epilogue.

Lemma want_spec rest all size reading source buffer : before rest all source buffer -> (size <= length all)%nat ->
  exists source' buffer', before rest all source' buffer' /\ (size <= length buffer')%nat /\ want size (under reading source buffer) = (inr true, under reading source' buffer').
Proof.
  intros Hb Hs. unfold want. destruct (loop_reads (fun buffer => if (size <=? length buffer)%nat then Some (mret true) else None) (mret false) rest all (under reading source buffer)) as (source' & buffer' & found & Hb' & Ht & ->);
    [done|done|by rewrite (proj2 (Nat.leb_le _ _) Hs)|].
  exists source', buffer'. split; [done|]. destruct (Nat.leb_spec size (length buffer')); [|done]. injection Ht as <-. done.
Qed.

Lemma before_marker rest marker all source buffer : before rest (marker ++ all) source buffer -> (length marker <= length buffer)%nat ->
  take (length marker) buffer = marker /\ before rest all source (drop (length marker) buffer).
Proof.
  intros Hb Hl. split; [|rewrite <-(drop_app_length marker all); by apply before_drop]. destruct (before_prefix _ _ _ _ Hb) as [more Hm].
  rewrite <-(take_app_le buffer more) by done. rewrite <-Hm. apply take_app_length.
Qed.

Lemma afterDelimiter_spec rest marker all source buffer : marker = CRLF_BYTES \/ marker = CLOSING -> before rest (marker ++ all) source buffer ->
  exists source' buffer', before rest all source' buffer' /\ afterDelimiter (under false source buffer) = (inr (bool_decide (marker = CRLF_BYTES)), under false source' buffer').
Proof.
  intros Hm Hb. assert (Hl : length marker = 2%nat) by (by destruct Hm as [-> | ->]). destruct (want_spec rest (marker ++ all) 2 false source buffer Hb) as (source' & buffer' & Hb' & Hs & Hw); [rewrite length_app; lia|].
  destruct (before_marker rest marker all source' buffer' Hb') as [Ht Hd]; [lia|]. rewrite Hl in Ht, Hd. exists source', (drop 2 buffer'). split; [done|].
  unfold afterDelimiter, mbind, eff_bind. rewrite Hw. cbn. rewrite Ht. by destruct Hm as [-> | ->].
Qed.

Lemma headers_spec rest part all source buffer : sent_ok part -> before rest (sent_block part ++ HEADERS_END ++ all) source buffer ->
  exists source' buffer', before rest all source' buffer' /\ headers decode maxHeaderBytes (under false source buffer) = (inr (sent_headers part), under false source' buffer').
Proof.
  intros (Hp & Hi & Hmax & _) Hb. unfold headers. pose proof (index_of_app _ _ all _ Hi) as Hi'. rewrite <-app_assoc in Hi'. set (whole := sent_block part ++ HEADERS_END ++ all) in *.
  match goal with |- context [loop ?test ?atEnd] => destruct (loop_reads test atEnd rest whole (under false source buffer) Hb eq_refl) as (source' & buffer' & found & Hb' & Ht & ->) end.
  { rewrite Hi'. by destruct (over_limit _ _ _). }
  destruct (before_prefix _ _ _ _ Hb') as [more Hmore]. destruct (index_of HEADERS_END buffer') as [i|] eqn:Ei.
  - assert (i = length (sent_block part)) as ->. { pose proof (index_of_app _ _ more _ Ei) as Hx. rewrite <-Hmore, Hi' in Hx. congruence. }
    cbn [over_limit] in Ht. destruct (Z.ltb_spec maxHeaderBytes (Z.of_nat (length (sent_block part)))) as [|_]; [lia|]. injection Ht as <-.
    pose proof (index_of_length _ _ _ Ei) as Hl. exists source', (drop (length (sent_block part) + length HEADERS_END) buffer'). split.
    + replace all with (drop (length (sent_block part) + length HEADERS_END) whole); [by apply before_drop|]. unfold whole. rewrite app_assoc, <-length_app. apply drop_app_length.
    + assert (Htake : take (length (sent_block part)) buffer' = sent_block part).
      { rewrite <-(take_app_le buffer' more) by lia. rewrite <-Hmore. apply take_app_length. }
      unfold mbind, eff_bind. cbn. rewrite Htake, Hp. done.
  - exfalso. cbn [over_limit] in Ht. destruct (Z.ltb_spec maxHeaderBytes (Z.of_nat (length buffer'))) as [Hlt|]; [|done].
    rewrite Hmore in Hi'. assert (length HEADERS_END = 4)%nat as H4 by done. assert (Hx : (length (sent_block part) + length HEADERS_END <= length buffer')%nat) by lia.
    by rewrite (index_of_within _ _ _ _ Hi' Hx) in Ei.
Qed.

(** One [pull]: a piece of the body, or its last one. *)
Lemma pull_spec rest i all source buffer : index_of delimiter all = Some i -> before rest all source buffer ->
  (exists source' buffer', before rest (drop (i + length delimiter) all) source' buffer' /\ pull boundary (under true source buffer) = (inr (Closed (take i all)), under false source' buffer')) \/
  (exists n source' buffer', (0 < n <= i)%nat /\ before rest (drop n all) source' buffer' /\ pull boundary (under true source buffer) = (inr (Enqueued (take n all)), under true source' buffer')).
Proof.
  intros Hi Hb. unfold pull. match goal with |- context [loop ?test ?atEnd] => destruct (loop_reads test atEnd rest all (under true source buffer) Hb eq_refl) as (source' & buffer' & found & Hb' & Ht & ->) end.
  { by rewrite Hi. }
  destruct (before_prefix _ _ _ _ Hb') as [more Hmore]. destruct (index_of delimiter buffer') as [j|] eqn:Ej.
  - left. assert (j = i) as ->. { pose proof (index_of_app _ _ more _ Ej) as Hx. rewrite <-Hmore, Hi in Hx. congruence. }
    injection Ht as <-. pose proof (index_of_length _ _ _ Ej) as Hl. exists source', (drop (i + length delimiter) buffer'). split; [by apply before_drop|].
    unfold mbind, eff_bind. cbn. by rewrite Hmore, take_app_le by lia.
  - right. destruct (Nat.ltb_spec 0 (length buffer' - (length delimiter - 1))) as [Hpos|]; [|done]. injection Ht as <-. set (n := (length buffer' - (length delimiter - 1))%nat) in *.
    exists n, source', (drop n buffer'). split; [split; [done|]|].
    + apply (index_of_safe delimiter buffer' more); [|done|by rewrite <-Hmore]. intros E. pose proof (delimiter_length boundary) as Hd. rewrite E in Hd. cbn in Hd. lia.
    + split; [apply before_drop; [done|lia]|]. unfold mbind, eff_bind. cbn. by rewrite Hmore, take_app_le by lia.
Qed.

Lemma drain_reads rest i all : forall fuel read source buffer, index_of delimiter all = Some i -> before rest all source buffer -> (i < fuel)%nat ->
  exists source' buffer', before rest (drop (i + length delimiter) all) source' buffer' /\ drain boundary fuel read (under true source buffer) = (inr (Some (read ++ take i all)), under false source' buffer').
Proof.
  remember (length all) as size eqn:Hsize. revert i all Hsize. induction (lt_wf size) as [size _ IH]. intros i all -> [|fuel] read source buffer Hi Hb Hf; [lia|].
  cbn [drain]. unfold mbind, eff_bind. destruct (pull_spec rest i all source buffer Hi Hb) as [(source' & buffer' & Hb' & ->)|(n & source' & buffer' & Hn & Hb' & ->)].
  - exists source', buffer'. done.
  - pose proof (index_of_length _ _ _ Hi) as Hl. assert (Hlen : length (drop n all) = (length all - n)%nat) by apply length_drop.
    destruct (IH (length (drop n all)) ltac:(lia) (i - n)%nat (drop n all) eq_refl fuel (read ++ take n all) source' buffer') as (source2 & buffer2 & Hb2 & ->); [apply index_of_drop; [done|lia]|done|lia|].
    exists source2, buffer2. split; [by rewrite drop_drop in Hb2; replace (n + (i - n + length delimiter))%nat with (i + length delimiter)%nat in Hb2 by lia|].
    rewrite <-app_assoc. do 4 f_equal. rewrite <-(take_drop n (take i all)) at 1. rewrite take_take, skipn_firstn_comm. by replace (n `min` i)%nat with n by lia.
Qed.

Lemma before_length rest all source buffer : before rest all source buffer -> (length all <= length buffer + length (data_of source))%nat.
Proof.
  intros (data & -> & <-). unfold data_of. rewrite flat_map_app, !length_app. assert (He : flat_map (fun chunk => match chunk with Data bytes => bytes | Broken => [] end) (map Data data) = concat data); [|rewrite He; lia].
  induction data as [|bytes data IH]; [done|]. cbn. by rewrite IH.
Qed.

Lemma drained_spec rest i all source buffer : index_of delimiter all = Some i -> before rest all source buffer ->
  exists source' buffer', before rest (drop (i + length delimiter) all) source' buffer' /\ drained boundary (under true source buffer) = (inr (Some (take i all)), under false source' buffer').
Proof.
  intros Hi Hb. unfold drained. apply (drain_reads rest i all _ [] source buffer Hi Hb). pose proof (before_length _ _ _ _ Hb). pose proof (index_of_length _ _ _ Hi). pose proof (delimiter_length boundary). cbn [under rd_buffer rd_source]. lia.
Qed.

(** The first [next] skips the delimiter the body starts with, and goes on as every other. *)
Lemma next_started rest all source : before rest (delimiter ++ all) source CRLF_BYTES ->
  exists source' buffer', before rest all source' buffer' /\ next decode boundary maxHeaderBytes (opened source) = next decode boundary maxHeaderBytes (under false source' buffer').
Proof.
  intros Hb. destruct (want_spec rest (delimiter ++ all) (length delimiter) false source CRLF_BYTES Hb) as (source' & buffer' & Hb' & Hs & Hw); [rewrite length_app; lia|].
  destruct (before_marker rest delimiter all source' buffer' Hb' Hs) as [Ht Hd]. exists source', (drop (length delimiter) buffer'). split; [done|].
  assert (Hidx : index_of delimiter buffer' = Some O) by (rewrite <-(take_drop (length delimiter) buffer'), Ht; apply index_of_self).
  unfold next. cbn [opened rd_finished rd_cancelled rd_failed rd_reading rd_started under]. unfold mbind, eff_bind, set_started, Eff.modify. cbn [rd_source rd_buffer rd_ended rd_reading rd_finished rd_cancelled rd_failed].
  match goal with |- context [want _ ?start] => change start with (under false source CRLF_BYTES) end. rewrite Hw. unfold Eff.gets. cbn [under rd_buffer negb orb]. rewrite Hidx. done.
Qed.

Lemma next_end rest epilogue source buffer : before rest (CLOSING ++ epilogue) source buffer -> (next decode boundary maxHeaderBytes (under false source buffer)).1 = inr None.
Proof.
  intros Hb. destruct (afterDelimiter_spec rest CLOSING epilogue source buffer (or_intror eq_refl) Hb) as (source' & buffer' & _ & Ha).
  unfold next. cbn [under rd_finished rd_cancelled rd_failed rd_reading rd_started]. unfold mbind, eff_bind. cbn -[afterDelimiter]. fold (under false source buffer). by rewrite Ha.
Qed.

Lemma next_part rest part all source buffer : sent_ok part -> before rest (CRLF_BYTES ++ sent_block part ++ HEADERS_END ++ all) source buffer ->
  exists source' buffer', before rest all source' buffer' /\ next decode boundary maxHeaderBytes (under false source buffer) = (inr (Some (sent_headers part)), under true source' buffer').
Proof.
  intros Hok Hb. destruct (afterDelimiter_spec rest CRLF_BYTES _ source buffer (or_introl eq_refl) Hb) as (source1 & buffer1 & Hb1 & Ha).
  destruct (headers_spec rest part all source1 buffer1 Hok Hb1) as (source2 & buffer2 & Hb2 & Hh). exists source2, buffer2. split; [done|].
  unfold next. cbn [under rd_finished rd_cancelled rd_failed rd_reading rd_started]. unfold mbind, eff_bind. cbn -[afterDelimiter headers]. fold (under false source buffer). rewrite Ha.
  rewrite bool_decide_eq_true_2 by done. cbn -[headers]. by rewrite Hh.
Qed.

Definition sent_of (part : SentPart) : PartHeaders * Bytes := (sent_headers part, sent_content part).

Lemma read_parts rest epilogue parts : forall fuel source buffer, (length parts < fuel)%nat -> Forall sent_ok parts -> before rest (form_rest parts epilogue) source buffer ->
  (read_form decode boundary maxHeaderBytes fuel (under false source buffer)).1 = inr (Some (map sent_of parts)).
Proof.
  induction parts as [|part parts IH]; intros [|fuel] source buffer Hf Hok Hb; try (cbn in Hf; lia); cbn [read_form form_rest] in *; unfold mbind, eff_bind.
  - pose proof (next_end _ _ _ _ Hb) as Hn. destruct (next _ _ _ _) as [r s]. cbn in Hn. by subst r.
  - apply Forall_cons in Hok as [Hp Hok]. destruct (next_part rest part _ source buffer Hp Hb) as (source1 & buffer1 & Hb1 & ->).
    destruct Hp as (_ & _ & _ & Hi). pose proof (index_of_app _ _ (form_rest parts epilogue) _ Hi) as Hi'. rewrite <-app_assoc in Hi'.
    destruct (drained_spec rest _ _ source1 buffer1 Hi' Hb1) as (source2 & buffer2 & Hb2 & ->). rewrite take_app_length. rewrite app_assoc, <-length_app, drop_app_length in Hb2.
    specialize (IH fuel source2 buffer2 ltac:(cbn in Hf; lia) Hok Hb2). destruct (read_form _ _ _ _ _) as [r s]. cbn in IH. by subst r.
Qed.

(** C17. A form that was sent is read back: whatever chunks its body comes in, and whatever they split, a delimiter or a header
    included, the reader gives its parts in order, each with the headers of its block and exactly the bytes between its headers
    and its delimiter, and then the end; nothing after the closing delimiter is looked at, a stream that breaks off included. *)
Theorem form_reads_back parts epilogue data rest : Forall sent_ok parts -> concat data = form_bytes parts epilogue ->
  (read_form decode boundary maxHeaderBytes (S (length parts)) (opened (map Data data ++ rest))).1 = inr (Some (map sent_of parts)).
Proof.
  intros Hok Hd. assert (Hb : before rest (delimiter ++ form_rest parts epilogue) (map Data data ++ rest) CRLF_BYTES).
  { exists data. split; [done|]. by rewrite Hd. }
  destruct (next_started _ _ _ Hb) as (source & buffer & Hb' & Hn). pose proof (read_parts rest epilogue parts (S (length parts)) source buffer (Nat.lt_succ_diag_r _) Hok Hb') as Hr.
  cbn [read_form] in *. unfold mbind, eff_bind in *. by rewrite Hn.
Qed.

End Sent.

Module Demo.

Definition decode (bytes : Bytes) : string := string_of_list_ascii (map (fun byte => ascii_of_nat (Z.to_nat byte)) bytes).

(** A field [a] whose body holds a line end and the start of a delimiter, and a file without a byte. *)
Definition field : SentPart := mkSent (mkPartHeaders "a" None None) (utf8 "Content-Disposition: form-data; name=a") (utf8 "x" ++ CRLF_BYTES ++ utf8 "--y").
Definition file : SentPart := mkSent (mkPartHeaders "f" (Some "n.txt") (Some "text/plain"))
  (utf8 "content-disposition: Form-Data; name=f; filename=n.txt" ++ CRLF_BYTES ++ utf8 "Content-Type: text/plain; charset=utf-8") [].

(** One byte in a chunk. *)
Definition bytewise (bytes : Bytes) : list Bytes := map (fun byte => [byte]) bytes.

End Demo.

Lemma form_reads_back_witness :
  Forall (sent_ok Demo.decode "b" 200) [Demo.field; Demo.file] /\
  (read_form Demo.decode "b" 200 3 (opened (map Data (Demo.bytewise (form_bytes "b" [Demo.field; Demo.file] [7])) ++ [Broken]))).1 = inr (Some [sent_of Demo.field; sent_of Demo.file]).
Proof.
  assert (Hok : Forall (sent_ok Demo.decode "b" 200) [Demo.field; Demo.file]) by (repeat constructor; by vm_compute). split; [exact Hok|].
  apply (form_reads_back Demo.decode "b" 200 [Demo.field; Demo.file] [7] (Demo.bytewise (form_bytes "b" [Demo.field; Demo.file] [7])) [Broken]); [exact Hok|by vm_compute].
Defined.

(** Headers as long as the limit are read or refused by how the body is split: a chunk that ends inside the four bytes after them
    makes the buffer longer than the limit before their end is found. *)
Example headers_limit_by_chunks : let block := sent_block Demo.field in let limit := Z.of_nat (length block) in let bytes := form_bytes "b" [Demo.field] [] in
  (read_form Demo.decode "b" limit 2 (opened [Data bytes])).1 = inr (Some [sent_of Demo.field]) /\
  (read_form Demo.decode "b" limit 2 (opened (map Data (Demo.bytewise bytes)))).1 = inl (mkFormError "a part's headers are too long" false).
Proof. by vm_compute. Qed.
