(* ===== verification/Dispatch.v ===== *)
(** One request of an application, from the proxy's request to its answer ([ContractRuntime] of
    [app/src/implement/dispatch.ts]): the endpoint, the authorization, the admission, the input, the access, the handler in its
    transaction, the output, the commit, and the kicks; the anonymous kinds in their own fixed steps.

    Every component the dispatcher asks is a call of [Calls.v]; its pure steps are in [Requests.v] and its access forms in
    [Access.v]. The log of calls and answers is what the theorems are about: a handler runs, a delivery is claimed, a transaction
    commits and a job is kicked only after everything that must come first. *)

From S2P Require Import Prelude Json Shapes Permissions Token JobLeases Store Endpoints Headers Authorize Digest Rules JobRunner.
From S2P Require Import AppCapability Project Faults Params SignedTokens Clients Signatures FrameworkTables Webhooks Declarations Requests Calls Access Multipart.
From Stdlib Require Import ZArith Lia String Ascii.
From stdpp Require Import base tactics strings option list.

Open Scope Z_scope.

(** ** What a runtime serves *)

(** [ReadDirectory] is opaque here. *)
Inductive MembersFacility := NoMembers | ManagesMembers | ReadsDirectory (dimension : string) | ReadsApplication.

Record Facilities := mkFacilities { f_members : MembersFacility; f_links : list string }.

Definition NO_FACILITIES : Facilities := mkFacilities NoMembers [].

Record ServedSite := mkServedSite { ss_kind : DataKind; ss_declaration : SiteDeclaration }.

Record ServedProcedure := mkServedProcedure {
  sp_row : EndpointRow;
  sp_requirement : Requirement;
  sp_input : option Schema;
  sp_output : Schema;
  sp_facilities : Facilities;
  sp_readOnly : bool;
  sp_site : option ServedSite;
  sp_admission : option ProcedureAdmission;
  sp_query : option (Schema * SchemaShape);
  sp_binds : option BindableWebhook;
}.

Record ServedPublic := mkServedPublic {
  pub_row : EndpointRow;
  pub_input : option Schema;
  pub_output : Schema;
  pub_actions : list string;
  pub_query : option (Schema * SchemaShape);
  pub_admission : ProcedureAdmission;
  pub_site : ServedSite;
}.

Record ServedWebhook := mkServedWebhook {
  wh_row : EndpointRow;
  wh_name : string;
  wh_scheme : WebhookScheme;
  wh_boundTo : ScopeBinding;
  wh_timeoutMs : Z;
  wh_actions : list string;
  wh_input : Schema;
  wh_site : option SiteDeclaration;
}.

(** [ServedEndpoint]; a credentialed one carries the requirement its row has. *)
Inductive ServedEndpoint :=
| Procedure (served : ServedProcedure)
| Description (row : EndpointRow) (requirement : Requirement) (description : Unknown)
| Spa (row : EndpointRow) (requirement : Requirement) (prefix dir : string) (config : Unknown)
| SpaPrefix (row : EndpointRow) (prefix : string)
| PublicSpa (row : EndpointRow) (prefix dir : string) (config : Unknown)
| Health (row : EndpointRow)
| LinkSpa (row : EndpointRow) (prefix dir : string)
| Public (served : ServedPublic)
| Challenge (row : EndpointRow) (admission : ProcedureAdmission)
| Webhook (served : ServedWebhook).

Definition served_row (served : ServedEndpoint) : EndpointRow :=
  match served with
  | Procedure p => sp_row p | Public p => pub_row p | Webhook w => wh_row w
  | Description row _ _ | Spa row _ _ _ _ | SpaPrefix row _ | PublicSpa row _ _ _ | Health row | LinkSpa row _ _ | Challenge row _ => row
  end.

Definition is_health (served : ServedEndpoint) : bool := match served with Health _ => true | _ => false end.

(** [invocationKind] *)
Definition invocationKind (served : ServedEndpoint) : InvocationKind :=
  match served with
  | Webhook _ => KindWebhookDelivery
  | Procedure p => match sp_site p with Some site => if bool_decide (ss_kind site = KindMutation) && negb (sp_readOnly p) then KindWrite else KindRead | None => KindRead end
  | Public p => if bool_decide (ss_kind (pub_site p) = KindMutation) then KindWrite else KindRead
  | _ => KindRead
  end.

(** [RuntimeParts]: what is bound, and what is compiled. *)
Record RuntimeParts := mkParts {
  rp_table : CompiledEndpointTable EndpointRow;
  rp_endpoints : string -> option ServedEndpoint;
  rp_digests : string -> option string;
  rp_audience : string;
  rp_secret : option string;
  rp_dims : Dimensions;
  rp_assets : bool;
  rp_membership : bool;
  rp_framework : bool;
  rp_data : bool;
  rp_fileKinds : bool;
  rp_clientVouched : bool;
  rp_actions : list string;
  rp_tokens : SignedTokens;
  rp_origin : option string;
}.

(** An answer: a response, or the stream of a stored file. *)
Inductive Answer := Respond (response : Response) | DownloadFile (source : nat).

Definition is_fence (e : Raised) : bool := match class e with Some MaintenanceFenceError => true | _ => false end.

Definition facility_unbound : Raised := Fault "facility_unbound" 500.

Definition BINDING_ID_UNIT (c : ascii) : bool := is_lower_hex c.

(** [BINDING_ID], a UUID in lower case. *)
Definition is_binding_id (id : string) : bool :=
  match Js.split "-" id with
  | [a; b; c; d; e] =>
      forallb (Js.forall_units BINDING_ID_UNIT) [a; b; c; d; e]
      && bool_decide (map String.length [a; b; c; d; e] = [8; 4; 4; 4; 12]%nat)
  | _ => false
  end.

(** [exceeds]: a number read from a header against a bound. *)
Definition exceeds (n : jsnum) (bound : Z) : bool :=
  match n with
  | NFinite m e => if 0 <=? e then bound <? m * 2 ^ e else bound * 2 ^ (- e) <? m
  | _ => false
  end.

Record FileField := mkFileField { ff_kind : string; ff_many : bool; ff_max : Z }.

(** [fileFieldsOf] of [contract/build.ts]. *)
Definition file_field (shape : SchemaShape) : option FileField :=
  match match shape with SOptional inner => inner | _ => shape end with
  | SFile kind => Some (mkFileField kind false 1)
  | SArray (SFile kind) _ maxItems => Some (mkFileField kind true (default 0 maxItems))
  | _ => None
  end.

Definition fileFieldsOf (input : option SchemaShape) : list (string * FileField) :=
  match input with
  | Some (SObject fields) => omap (fun field => (fun f => (field.1, f)) <$> file_field field.2) fields
  | _ => []
  end.

Definition MULTIPART_PART_OVERHEAD : Z := 8 * 1024 + 128.

(** A multipart body whose JSON part was read, or a body read whole. *)
Inductive ProcedureBody := WholeBody (input : Fields) | MultipartBody (json : Fields) (fields : list (string * FileField)).

Definition body_json (body : ProcedureBody) : Fields := match body with WholeBody input => input | MultipartBody json _ => json end.

(** A caller document as JSON. *)
Definition page_value (page : PageCaller) : Unknown :=
  UObj [("label", UStr (pc_label page)); ("email", UStr (pc_email page));
        ("actions", UObj [("app", UArr (map UStr (pc_app page)));
                          ("scopes", UArr (map (fun scoped => UObj [("type", UStr (sa_type scoped)); ("value", UStr (sa_value scoped)); ("actions", UArr (map UStr (sa_actions scoped)))])
                                               (pc_scopes page)))])].

(** [describeRequirement] *)
Definition describeRequirement (requirement : Requirement) : string :=
  match requirement with
  | ReqAction required => quoted (req_action required) +:+ " in some scope"
  | ReqCapabilities required => "each of " +:+ Js.join ", " (map (fun entry => quoted (req_action entry.2)) required) +:+ " in some scope"
  | _ => "a permission in this application"
  end.

Section Dispatch.
Context `{RequestTexts} `{NumberText} `{NumberRead} `{Zod} `{IntegerText} `{TokenTexts} `{DeliveryCrypto}.
Context (world : World) (parts : RuntimeParts).

Notation ask := (ask world).
Notation quietly := (quietly world).

(** ** Authorization *)

(** [#authorize]: the token, the caller kind, the requirement, then admission. *)
Definition authorize (row : EndpointRow) (requirement : Requirement) (request : Request) : act Caller :=
  let token := Js.trim (default "" (header request "X-Fabrika-Token")) in
  if (token =? "")%string then Eff.throw (UnauthorizedError "This endpoint needs a credential, and the request carries none")
  else
    verified ← ask (Verify token (rp_audience parts));
    match verified with
    | KeysUnavailable => Eff.throw (Fault "key_set_unavailable" 503)
    | TokenRefused => Eff.throw (UnauthorizedError "The credential does not verify")
    | VerifiedToken claims =>
        match presentedBy claims with
        | NoMailbox => Eff.throw (UnauthorizedError "The credential names a person without an address")
        | NoCaller => Eff.throw (ForbiddenError ("A resource caller cannot call " +:+ quoted (e_id row) +:+ " (callers: " +:+ Js.join ", " (e_callers row) +:+ ")"))
        | Presented caller principal =>
            if negb (Js.elem caller (e_callers row)) then
              Eff.throw (ForbiddenError ("A " +:+ caller +:+ " caller cannot call " +:+ quoted (e_id row) +:+ " (callers: " +:+ Js.join ", " (e_callers row) +:+ ")"))
            else if negb (satisfies requirement (perms claims)) then Eff.throw (ForbiddenError (quoted (e_id row) +:+ " needs " +:+ describeRequirement requirement +:+ ", and the caller holds none"))
            else
              _ ← Eff.lift (admit_caller row request);
              mret (mkCaller principal (sub claims) (perms claims) token (link claims))
        end
    end.

(** [#framework] *)
Definition framework : Raised + unit := if rp_framework parts then inr tt else inl facility_unbound.

Definition rate_limited (message : string) : Raised := HttpError 429 "rate_limited" message.

(** [#admit]: one from each bucket, then the byte budget. *)
Definition take_each (row : EndpointRow) (buckets : list (string * Z)) : act unit :=
  each (fun bucket =>
    _ ← Eff.lift framework;
    taken ← ask (Take (e_id row) bucket.1 bucket.2);
    if taken : bool then mret tt else Eff.throw (rate_limited (quoted (e_id row) +:+ " admits no more calls this minute; try again later"))) buckets.

Definition admit_request (row : EndpointRow) (admission : ProcedureAdmission) (request : Request) (caller : option string) : act unit :=
  _ ← take_each row (bucketsOf (adm_rate admission) (header request "X-Fabrika-Client-Ip") caller);
  match bytesPerHour (adm_rate admission) with
  | None => mret tt
  | Some budget =>
      limit ← Eff.lift (maxBytesOf row);
      let charged := charged_bytes (safe_integer (number_of (default "" (header request "Content-Length")))) limit in
      if 0 <? charged then
        _ ← Eff.lift framework;
        reserved ← ask (ReserveBytes (e_id row) charged budget);
        if reserved : bool then mret tt else Eff.throw (rate_limited (quoted (e_id row) +:+ " admits no more bytes this hour; try again later"))
      else mret tt
  end.

(** ** The body *)

(** [readInput] *)
Definition readInput (row : EndpointRow) (schema : option Schema) (request : Request) : act Fields :=
  body ← (if (rq_method request =? "GET")%string then Eff.lift (UObj <$> url_fields request (e_input row))
          else bytes ← ask (ReadBody (e_admission row ≫= maxBytes)); Eff.lift (body_value row request (utf8_lossy bytes)));
  Eff.lift (input_of (e_id row) schema body).

Definition multipart_error (message : string) : Raised := HttpError 400 "multipart" message.

(** [multipartFailure], with a body past its bound first. *)
Definition failure (limit : Z) (row : EndpointRow) (error : Raised) : act Raised :=
  exceeded ← ask BodyExceeded;
  if exceeded : bool then mret (HttpError 413 "too_large" ("The body is larger than the " +:+ integer_text limit +:+ " bytes " +:+ quoted (e_id row) +:+ " admits"))
  else if match structural error with Some e => httpStatus e <? 500 | None => false end then mret error
  else
    aborted ← ask RequestAborted;
    if aborted : bool then mret abortedBody
    else
      late ← ask BodyLate;
      if late : bool then mret (HttpError 408 "timeout" "The submission did not arrive in time")
      else
        broken ← ask (BodyBroken error);
        mret match broken with
             | Some Interrupted => abortedBody
             | Some (Malformed message) => multipart_error ("The body is not the multipart/form-data the form reads: " +:+ message)
             | None => error
             end.

(** The input part of [openMultipart]. *)
Definition read_input_part (row : EndpointRow) (fields : list (string * FileField)) (limit : Z) : act Fields :=
  first ← ask NextPart;
  match first with
  | Some part =>
      if (part_name part =? "input")%string && negb (is_some (part_filename part)) then
        bytes ← ask (ReadPart part limit);
        match bytes with
        | None => Eff.throw (HttpError 413 "too_large" ("The body is larger than the " +:+ integer_text limit +:+ " bytes " +:+ quoted (e_id row) +:+ " admits"))
        | Some bytes =>
            parsed ← Eff.lift (parseJson bytes);
            match parsed with
            | UObj json =>
                if existsb (fun field => Js.elem field.1 (map fst fields)) json then
                  Eff.throw (multipart_error (quoted (e_id row) +:+ ": the input part is an object, and each file field arrives as a part of its own"))
                else mret json
            | _ => Eff.throw (multipart_error (quoted (e_id row) +:+ ": the input part is an object, and each file field arrives as a part of its own"))
            end
        end
      else
        _ ← ask (CancelPart part);
        Eff.throw (multipart_error (quoted (e_id row) +:+ ": the first part is the input as JSON, named 'input', without a filename"))
  | None => Eff.throw (multipart_error (quoted (e_id row) +:+ ": the first part is the input as JSON, named 'input', without a filename"))
  end.

Definition file_count (fields : list (string * FileField)) : Z := foldl (fun sum field => sum + ff_max field.2) 0 fields.

(** [openMultipart] *)
Definition openMultipart (row : EndpointRow) (fields : list (string * FileField)) (request : Request) : act Fields :=
  match multipartBoundary (header request "Content-Type") with
  | None => Eff.throw (HttpError 400 "admission" (quoted (e_id row) +:+ " takes multipart/form-data with a boundary"))
  | Some _ =>
      limit ← Eff.lift (maxBytesOf row);
      let bodyBytes := limit + (file_count fields + 1) * MULTIPART_PART_OVERHEAD in
      if exceeds (number_of (default "" (header request "Content-Length"))) bodyBytes then
        Eff.throw (HttpError 413 "too_large" ("The body is larger than the " +:+ integer_text limit +:+ " bytes " +:+ quoted (e_id row) +:+ " admits"))
      else
        Eff.catch (read_input_part row fields limit) (fun error =>
          refused ← failure limit row error;
          _ ← tell CloseBody;
          Eff.throw refused)
  end.

(** [procedureBody] *)
Definition procedureBody (row : EndpointRow) (schema : option Schema) (request : Request) : act ProcedureBody :=
  let fields := fileFieldsOf (e_input row) in
  if (e_method row =? "POST")%string && negb (is_nil fields) && bool_decide (mediaType (header request "Content-Type") = Some "multipart/form-data")
  then json ← openMultipart row fields request; mret (MultipartBody json fields)
  else input ← readInput row schema request; mret (WholeBody input).

(** [counts.get(name) ?? 0] *)
Definition count_of (name : string) (counts : list (string * Z)) : Z := default 0 (lookup_field name counts).

Fixpoint set_count (name : string) (count : Z) (counts : list (string * Z)) : list (string * Z) :=
  match counts with
  | [] => [(name, count)]
  | (k, c) :: counts => if (k =? name)%string then (k, count) :: counts else (k, c) :: set_count name count counts
  end.

Definition add_file (name : string) (many : bool) (file : Unknown) (values : Fields) : Fields :=
  set_field name (if many then UArr (match lookup_field name values with Some (UArr taken) => taken | _ => [] end ++ [file]) else file) values.

(** The loop of [files]: [None] is a loop that did not end within its fuel. *)
Fixpoint file_parts (fuel : nat) (row : EndpointRow) (fields : list (string * FileField)) (values : Fields) (counts : list (string * Z)) : act (option Fields) :=
  match fuel with
  | O => mret None
  | S fuel =>
      next ← ask NextPart;
      match next with
      | None => mret (Some values)
      | Some part =>
          let refused := _ ← ask (CancelPart part);
            Eff.throw (multipart_error (quoted (e_id row) +:+ ": a part is no file field of the input, a field carries more files than it admits, or a file has no filename")) in
          match lookup_field (part_name part) fields with
          | None => refused
          | Some field =>
              if (ff_max field <=? count_of (part_name part) counts) || negb (is_some (part_filename part)) then refused
              else
                file ← ask (Receive (ff_kind field) part);
                file_parts fuel row fields
                  (match file with Some file => add_file (part_name part) (ff_many field) file values | None => values end)
                  (set_count (part_name part) (count_of (part_name part) counts + 1) counts)
          end
      end
  end.

(** How many parts are taken at most, and one more that is refused or ends the body. *)
Definition file_fuel (fields : list (string * FileField)) : nat := S (foldr (fun field sum => Z.to_nat (ff_max field.2) + sum)%nat O fields).

(** [files] *)
Definition multipart_files (row : EndpointRow) (fields : list (string * FileField)) : act Fields :=
  if negb (rp_fileKinds parts) then Eff.throw facility_unbound
  else
    limit ← Eff.lift (maxBytesOf row);
    Eff.catch (files ← file_parts (file_fuel fields) row fields [] []; mret (default [] files)) (fun error =>
      refused ← failure limit row error;
      Eff.throw refused).

(** [#fileInput] *)
Definition fileInput (row : EndpointRow) (schema : option Schema) (json : Fields) (fields : list (string * FileField)) : act Fields :=
  files ← multipart_files row fields;
  match schema with
  | None => Eff.throw (Fault "contract_inconsistent" 500)
  | Some schema => Eff.lift (strictInput (e_id row) schema (UObj (foldl (fun all field => set_field field.1 field.2 all) json files)))
  end.

(** The verification of the signed tokens in an input or a query, at the time it is asked. *)
Definition verified_fields (shape : option SchemaShape) (value : Fields) (carried : list string) : act (Fields * list string) :=
  now ← ask Now;
  Eff.lift (verifyFields (rp_tokens parts) now shape value carried).

(** [#verifiedQuery] *)
Definition verifiedQuery (row : EndpointRow) (query : option (Schema * SchemaShape)) (request : Request) (carried : list string) : act (option Fields * list string) :=
  read ← Eff.lift (readQuery (e_id row) query request);
  match read, query with
  | Some fields, Some (_, shape) => got ← verified_fields (Some shape) fields carried; mret (Some got.1, got.2)
  | _, _ => mret (None, carried)
  end.

(** The input of a request whose file parts were staged: parsed again as a whole. *)
Definition whole_input (row : EndpointRow) (schema : option Schema) (body : ProcedureBody) (fields : Fields) (carried : list string) : act (Fields * list string) :=
  match body with
  | WholeBody _ => mret (fields, carried)
  | MultipartBody json files => input ← fileInput row schema json files; verified_fields (e_input row) input carried
  end.

(** ** The transaction of an answer *)

Definition cancel_answer (answer : Answer) : act unit := match answer with DownloadFile source => ask (CancelDownload source) | Respond _ => mret tt end.

(** [Invocation.enclose]: a work that throws leaves the enclosure without a COMMIT. *)
Definition enclosed {A} (invocation : bool) (cancel : A -> act unit) (work : act A) : act A :=
  if invocation then
    _ ← ask Enter;
    answer ← Eff.catch work (fun error => _ ← quietly (Leave false); Eff.throw error);
    Eff.catch (_ ← ask (Leave true); mret answer) (fun error => _ ← cancel answer; Eff.throw error)
  else work.

(** [Invocation.commit] *)
Definition commit_invocation (invocation : bool) : act unit :=
  if invocation then
    aborted ← ask Aborted;
    if aborted : bool then _ ← ask Rollback; Eff.throw (Fault "request_cancelled" 500) else ask Commit
  else mret tt.

(** [commitAnswer] *)
Definition commitAnswer (invocation : bool) (answer : Answer) : act unit :=
  Eff.catch (commit_invocation invocation) (fun error => _ ← cancel_answer answer; Eff.throw error).

(** What [ctx.kick] recorded of what a handler asked: a job that is not declared throws in the handler. *)
Definition recorded (declared : list string) (asked : list RecordedKick) : list RecordedKick := List.filter (fun kick => Js.elem (kick_job kick) declared) asked.

(** [#recordKicks] *)
Definition recordKicks (invocation : bool) (kicks : list RecordedKick) : act unit :=
  if invocation && rp_framework parts && negb (is_nil kicks) then
    _ ← ask OpenSession;
    now ← ask WakesNow;
    each (fun wake => ask (ScheduleWake wake)) (kick_wakes integer_text kicks now)
  else mret tt.

(** [#kickAll] *)
Definition kickAll (kicks : list RecordedKick) : act unit := each (fun job => tell (KickJob job)) (kicked kicks).

(** ** A procedure *)

Definition request_id (request : Request) (frame : string) : string := default frame (header request "X-Request-Id").

(** [#membershipRequest] *)
Definition membershipRequest (requirement : Requirement) (caller : Caller) (request : Request) (frame : string) : option MembershipRequest :=
  match requirement with
  | ReqAction required =>
      match form_dimension (req_access required) with
      | Some dimension =>
          if rp_membership parts then Some (mkMembership (cl_token caller) (request_id request frame) (header request "X-Fabrika-Delegation") dimension (req_action required)) else None
      | None => None
      end
  | _ => None
  end.

(** [#facilities] *)
Definition facilities (f : Facilities) (requirement : Requirement) (membership : option MembershipRequest) (context : AccessContext) (credential requestId : string) : Raised + list Facility :=
  let directory := match f_members f, requirement with ReadsDirectory _, ReqAction _ => [MemberDirectory membership context] | _, _ => [] end in
  match f_members f with
  | ReadsApplication => inr [ApplicationDirectory credential requestId]
  | members =>
      let manages := match members with ManagesMembers => true | _ => false end in
      if negb manages && is_nil (f_links f) then inr directory
      else match membership with
           | None => inl facility_unbound
           | Some membership =>
               inr ((if manages then [MemberManagement membership] else directory)
                    ++ (if is_nil (f_links f) then [] else [LinkIssuing membership (f_links f) (default [] (lookup_field (mr_dimension membership) (d_containers (rp_dims parts))))]))
           end
  end.

Definition no_app (_ : string) : Raised + CapabilityGrant := inl (Refused undeclared_action).

Definition client_of (request : Request) : RequestClient := requestClient (header request "X-Fabrika-Client-Ip") (header request "User-Agent") (rp_clientVouched parts).

(** [ctx] of a procedure, and the call of its handler. *)
Definition call_procedure (served : ServedProcedure) (request : Request) (caller : Caller) (frame : string) (input : Fields) (query : option Fields) (carried : list string) :
    act (Unknown * list RecordedKick) :=
  let row := sp_row served in
  let membership := membershipRequest (sp_requirement served) caller request frame in
  got ← access world (rp_dims parts) row (sp_requirement served) caller input membership;
  provided ← Eff.lift (facilities (sp_facilities served) (sp_requirement served) membership got.1 (cl_token caller) (request_id request frame));
  ask (Handle (mkArgs (e_id row) (ByCaller (cl_principal caller)) frame (cl_subject caller) (UObj got.2) query got.1 [] no_app provided carried None
    ((fun site => (ss_kind site, ss_declaration site)) <$> sp_site served)
    (if is_some (sp_site served) then (fun webhook => mkSite webhook (cl_subject caller)) <$> sp_binds served else None) (client_of request))).

(** [#answerOf] *)
Definition answerOf (row : EndpointRow) (output : Schema) (result : Unknown) (request : Request) (carried : list string) : act Answer :=
  match e_output row with
  | Some (OutSchema (SFile kind)) => if rp_fileKinds parts then source ← ask (Download kind result); mret (DownloadFile source) else Eff.throw facility_unbound
  | Some (OutAttachment _) => response ← ask (EncodeAttachment (e_id row) result); mret (Respond response)
  | _ => response ← Eff.lift (outputResponse row output result request carried); mret (Respond response)
  end.

(** From the handler to the commit, in the invocation's transaction. *)
Definition answered_work (invocation : bool) (declared : list string) (handle : act (Unknown * list RecordedKick)) (answer_of : Unknown -> act Answer) : act (Answer * list RecordedKick) :=
  ran ← finally handle (tell EndFrame);
  let kicks := recorded declared ran.2 in
  _ ← recordKicks invocation kicks;
  answer ← answer_of ran.1;
  _ ← set_committing true;
  _ ← commitAnswer invocation answer;
  mret (answer, kicks).

(** The [try], [catch] and [finally] around an invocation: a fence's refusal is a known rollback, and only a known rollback releases
    what the request staged. *)
Definition settled {A} (invocation : bool) (work : act A) : act A :=
  finally
    (Eff.catch work (fun error => _ ← (if is_fence error then set_committing false else mret tt); Eff.throw error))
    (_ ← (if invocation then ask Rollback else mret tt);
     committing ← Eff.gets committing;
     if (committing : bool) || negb (rp_fileKinds parts) then mret tt else ask ReleaseFiles).

Definition reads_only (site : ServedSite) (readOnly : bool) : bool := bool_decide (ss_kind site = KindQuery) || readOnly.

(** [#procedureInvocation] *)
Definition procedureInvocation (served : ServedProcedure) (request : Request) (caller : Caller) (body : ProcedureBody) : act Answer :=
  let row := sp_row served in
  verified ← verified_fields (e_input row) (body_json body) [];
  queried ← verifiedQuery row (sp_query served) request verified.2;
  frame ← ask (NewFrame (sp_readOnly served) (Some (e_id row)));
  let invocation := is_some (sp_site served) in
  _ ← (if invocation && negb (rp_data parts) then Eff.throw facility_unbound else mret tt);
  let declared := match sp_site served with Some site => sd_kicks (ss_declaration site) | None => [] end in
  _ ← set_committing false;
  settled invocation (
    input ← whole_input row (sp_input served) body verified.1 queried.2;
    done ← enclosed invocation (fun done => cancel_answer done.1)
      (answered_work invocation declared (call_procedure served request caller frame input.1 queried.1 input.2) (fun result => answerOf row (sp_output served) result request input.2));
    _ ← kickAll done.2;
    mret done.1).

(** What ends a body that streams; [close] never rejects. *)
Definition close_body (body : ProcedureBody) : act unit := match body with MultipartBody _ _ => tell CloseBody | WholeBody _ => mret tt end.

(** [#procedure] *)
Definition procedure (served : ServedProcedure) (request : Request) : act Answer :=
  caller ← authorize (sp_row served) (sp_requirement served) request;
  _ ← admit_request (sp_row served) (default DEFAULT_ADMISSION (sp_admission served)) request (Some (cl_subject caller));
  body ← procedureBody (sp_row served) (sp_input served) request;
  finally (procedureInvocation served request caller body) (close_body body).

(** ** Public procedures *)

Definition hostname (request : Request) : string := from_option u_hostname "" (new_URL (rq_url request)).

(** [#challenge]; [repeatable] is the token an operator's tests send again. *)
Definition check_challenge (action : string) (token : option string) (request : Request) (repeatable : option string) : act unit :=
  let failed := HttpError 400 "challenge_failed" "The challenge did not verify; solve it again" in
  match token with
  | None => Eff.throw failed
  | Some token =>
      verdict ← ask (VerifyChallenge action (hostname request) token);
      match verdict with
      | ChallengeUnavailable => Eff.throw (Fault "challenge_unavailable" 503)
      | ChallengeMisconfigured => Eff.throw (Fault "challenge_misconfigured" 503)
      | ChallengeRefused => Eff.throw failed
      | ChallengePassed replayKey recordMs =>
          if bool_decide (Some token = repeatable) then mret tt
          else
            _ ← Eff.lift framework;
            fresh ← ask (RecordChallenge action (sha256Hex replayKey) recordMs);
            if fresh : bool then mret tt else Eff.throw failed
      end
  end.

(** [publicSubject] *)
Definition publicSubject (endpoint : string) : string := "public:" +:+ endpoint.

(** [ctx.app] of a public procedure while its frame lasts: a declared action the workload's token carries. *)
Definition public_app (actions : list string) (perms : list PermissionEntry) (subject action : string) : Raised + CapabilityGrant :=
  if negb (Js.elem action actions) then inl (Refused undeclared_action)
  else if negb (permits perms action None) then inl (Refused undeclared_action)
  else mint_app action subject.

(** [#publicInvocation] *)
Definition publicInvocation (served : ServedPublic) (request : Request) (body : ProcedureBody) (fields : Fields) (query : option Fields) (carried : list string)
    (perms : list PermissionEntry) : act Answer :=
  let row := pub_row served in
  let declared := sd_kicks (ss_declaration (pub_site served)) in
  frame ← ask (NewFrame (bool_decide (ss_kind (pub_site served) = KindQuery)) (Some (e_id row)));
  _ ← (if rp_data parts then mret tt else Eff.throw facility_unbound);
  _ ← set_committing false;
  settled true (
    input ← whole_input row (pub_input served) body fields carried;
    done ← enclosed true (fun done => cancel_answer done.1)
      (answered_work true declared
        (ask (Handle (mkArgs (e_id row) (ByPublic (e_id row)) frame (publicSubject (e_id row)) (UObj input.1) query NoAccess []
                        (public_app (pub_actions served) perms (publicSubject (e_id row))) [] input.2 None
                        (Some (ss_kind (pub_site served), ss_declaration (pub_site served))) None (client_of request))))
        (fun result =>
          match e_output row with
          | Some (OutSchema (SFile kind)) => if rp_fileKinds parts then source ← ask (Download kind result); mret (DownloadFile source) else Eff.throw facility_unbound
          | _ => response ← Eff.lift (outputResponse row (pub_output served) result request input.2); mret (Respond response)
          end));
    _ ← kickAll done.2;
    mret done.1).

Definition share_full : Raised := HttpError 503 "public_share_full" "Too many anonymous requests at once; try again shortly".

(** The challenge's token, where the input carries one as a text. *)
Definition challenge_token (fields : Fields) : option string := match lookup_field "challengeToken" fields with Some (UStr token) => Some token | _ => None end.

(** What [#public] does once its body was opened; the body is closed after it. *)
Definition public_opened (served : ServedPublic) (request : Request) (body : ProcedureBody) : act Answer :=
  verified ← verified_fields (e_input (pub_row served)) (body_json body) [];
  queried ← verifiedQuery (pub_row served) (pub_query served) request verified.2;
  authority ← ask (AuthorityOf (e_id (pub_row served)));
  match authority with
  | Unauthorized => Eff.throw (Fault "workload_unauthorized" 503)
  | Authorized perms _ =>
      _ ← match adm_challenge (pub_admission served) with
          | Some challenge => check_challenge (ac_action challenge) (challenge_token verified.1) request (adm_repeatable (pub_admission served))
          | None => mret tt
          end;
      publicInvocation served request body verified.1 queried.1 queried.2 perms
  end.

(** [#public] *)
Definition public (served : ServedPublic) (request : Request) : act Answer :=
  _ ← Eff.lift (admitContentType (pub_row served) request);
  entered ← ask EnterShare;
  if negb entered then Eff.throw share_full
  else
    finally (
      _ ← admit_request (pub_row served) (pub_admission served) request None;
      body ← procedureBody (pub_row served) (pub_input served) request;
      finally (public_opened served request body) (close_body body))
    (tell LeaveShare).

(** [#issueChallenge] *)
Definition issueChallenge (row : EndpointRow) (admission : ProcedureAdmission) (request : Request) : act Answer :=
  entered ← ask EnterShare;
  if negb entered then Eff.throw share_full
  else
    finally (
      _ ← admit_request row admission request None;
      challenge ← ask (IssueChallenge (hostname request));
      response ← Eff.lift (jsonResponse challenge 200);
      mret (Respond response))
    (tell LeaveShare).

(** ** Webhooks *)

Definition received : Raised + Response := jsonResponse (UObj [("result", UObj [("received", UBool true)])]) 200.

(** The payload of a delivery: a form's fields or JSON. *)
Definition delivery_payload (row : EndpointRow) (request : Request) (body : Bytes) : Raised + Unknown :=
  if bool_decide (mediaType (header request "Content-Type") = Some FORM_URLENCODED_TYPE)
  then text ← utf8Body body; UObj <$> paramsObject (form_params text) (e_input row)
  else parseJson body.

Definition is_github (scheme : WebhookScheme) : bool := match scheme with SchemeGithub => true | _ => false end.
Definition is_slack (scheme : WebhookScheme) : bool := match scheme with SchemeSlack => true | _ => false end.
Definition is_twilio (scheme : WebhookScheme) : bool := match scheme with SchemeTwilio => true | _ => false end.

Definition bound_type (boundTo : ScopeBinding) : string := match boundTo with ToApp => APP_BINDING_SCOPE.1 | ToDimension dimension => dimension end.

(** What the signature covers: the headers, the raw body, and the public URL. *)
Definition delivery_of (request : Request) (body : Bytes) : SignedDelivery :=
  let target := rawRequestTarget (rq_url request) in
  mkDelivery (header request) body ((fun origin => origin +:+ pathname target +:+ search target) <$> rp_origin parts).

(** [#webhookReach]: a [Ref] of the bound value for each declared action, or [ctx.app]. *)
Fixpoint mint_refs (dimension subject value : string) (chain : Links) (actions : list string) : Raised + list (string * CapabilityGrant) :=
  match actions with
  | [] => inr []
  | action :: actions =>
      grant ← mint_ref dimension action subject value chain;
      refs ← mint_refs dimension subject value chain actions;
      inr ((action, grant) :: refs)
  end.

Definition webhook_app (boundTo : ScopeBinding) (actions : list string) (subject action : string) : Raised + CapabilityGrant :=
  match boundTo with
  | ToDimension _ => inl (Refused undeclared_action)
  | ToApp => if Js.elem action actions then mint_app action subject else inl (Refused undeclared_action)
  end.

Definition webhookReach (served : ServedWebhook) (subject value : string) (chain : Links) : Raised + list (string * CapabilityGrant) :=
  match wh_boundTo served with ToDimension dimension => mint_refs dimension subject value chain (wh_actions served) | ToApp => inr [] end.

(** The work of a claimed delivery, from the handler to the commit. *)
Definition delivery_work (served : ServedWebhook) (request : Request) (bindingId key value frame : string) (chain : Links) (input : Fields) (claim : DeliveryClaim) : act (list RecordedKick) :=
  let invocation := is_some (wh_site served) in
  let subject := webhookSubject bindingId in
  ran ← finally (
    refs ← Eff.lift (webhookReach served subject value chain);
    ask (Handle (mkArgs (e_id (wh_row served)) (ByDelivery bindingId) frame subject (UObj input) None NoAccess refs (webhook_app (wh_boundTo served) (wh_actions served) subject)
                   [] [] (Some key) ((fun declaration => (KindMutation, declaration)) <$> wh_site served) None (client_of request))))
    (tell EndFrame);
  let kicks := recorded (from_option sd_kicks [] (wh_site served)) ran.2 in
  _ ← (if invocation then ask OpenSession else mret tt);
  completed ← ask (CompleteDelivery claim invocation);
  if negb completed then Eff.throw (Fault "webhook_claim_lost" 500)
  else
    _ ← recordKicks invocation kicks;
    _ ← set_committing true;
    _ ← commit_invocation invocation;
    mret kicks.

(** The claimed delivery: a failure gives the claim back. *)
Definition run_delivery (served : ServedWebhook) (request : Request) (bindingId key value : string) (chain : Links) (input : Fields) (claim : DeliveryClaim) : act Answer :=
  let invocation := is_some (wh_site served) in
  frame ← ask (NewFrame false None);
  _ ← (if invocation && negb (rp_data parts) then Eff.throw facility_unbound else mret tt);
  _ ← set_committing false;
  _ ← Eff.catch (
    kicks ← enclosed invocation (fun _ => mret tt) (delivery_work served request bindingId key value frame chain input claim);
    kickAll kicks)
  (fun error =>
    _ ← (if invocation then ask Rollback else mret tt);
    committing ← Eff.gets committing;
    _ ← (if (negb committing || is_fence error) && rp_fileKinds parts then ask ReleaseFiles else mret tt);
    _ ← ask (ReleaseDelivery claim);
    Eff.throw error);
  response ← Eff.lift received;
  mret (Respond response).

(** The steps of [#webhook] from the delivery that was authenticated: its input, its bound value, its workload's authority and its
    claim. *)
Definition authentic_delivery (served : ServedWebhook) (request : Request) (binding_id : string) (binding : WebhookBinding) (body : Bytes) (payload : Unknown) : act Answer :=
  let row := wh_row served in
  stripped ← Eff.lift (stripped (e_id row) (wh_input served) payload);
  input ← Eff.lift (strictInput (e_id row) (wh_input served) stripped);
  if negb ((b_scope binding).1 =? bound_type (wh_boundTo served))%string then Eff.throw (Fault "webhook_binding_mismatch" 500)
  else
    chain ← (match wh_boundTo served with ToApp => mret (Some []) | ToDimension _ => chain_at world (rp_dims parts) (b_scope binding).1 (b_scope binding).2 end);
    match chain with
    | None => Eff.throw (NotFoundError "The bound value no longer exists")
    | Some chain =>
        authority ← ask (AuthorityOf (e_id row));
        match authority with
        | Unauthorized => Eff.throw (Fault "workload_unauthorized" 503)
        | Authorized perms _ =>
            if existsb (fun action => negb (permits perms action None)) (wh_actions served) then Eff.throw (Fault "workload_unauthorized" 503)
            else
              let key := deliveryKey binding_id body in
              now ← ask Now;
              claim ← ask (ClaimDelivery binding_id key now (wh_timeoutMs served + WEBHOOK_CLAIM_GRACE_MS) (now - WEBHOOK_REPLAY_RETENTION_MS));
              match claim with
              | None => response ← Eff.lift received; mret (Respond response)
              | Some claim => run_delivery served request binding_id key (b_scope binding).2 chain input claim
              end
        end
    end.

(** [#webhook]; [bindingId] is the path's parameter. *)
Definition webhook (served : ServedWebhook) (request : Request) (bindingId : string) : act Answer :=
  let row := wh_row served in
  _ ← Eff.lift (admitContentType row request);
  limit ← Eff.lift (maxBytesOf row);
  body ← ask (ReadBody (Some limit));
  _ ← Eff.lift framework;
  found ← (if is_binding_id bindingId then ask (FindBinding (wh_name served) bindingId) else mret None);
  match found with
  | None => Eff.throw NOT_FOUND
  | Some binding =>
      if is_twilio (wh_scheme served) && negb (is_some (rp_origin parts)) then Eff.throw (Fault "webhook_unverifiable" 500)
      else
        now ← ask Now;
        if negb (verifyDelivery (wh_scheme served) (delivery_of request body) (b_secret binding) now) then
          Eff.throw (UnauthorizedError "The delivery signature does not verify with this binding")
        else
          payload ← Eff.lift (delivery_payload row request body);
          match (if is_slack (wh_scheme served) then slackChallenge payload else None) with
          | Some challenge => response ← Eff.lift (jsonResponse (UObj [("challenge", UStr challenge)]) 200); mret (Respond response)
          | None =>
              if is_github (wh_scheme served) && negb (Js.elem (b_account binding) (githubAccounts integer_text whole payload)) then
                Eff.throw (ForbiddenError "The delivery names another account than its binding accepts")
              else authentic_delivery served request bindingId binding body payload
          end
  end.

(** ** Every endpoint *)

(** [#asset] *)
Definition asset (request : Request) (prefix dir : string) : act Response :=
  if Js.endsWith (pathname (rawRequestTarget (rq_url request))) ".map" then Eff.throw (NotFoundError "A source map is not served")
  else if rp_assets parts then ask (ServeAsset prefix dir) else Eff.throw facility_unbound.

(** [#spaFile] *)
Definition spaFile (request : Request) (prefix dir : string) (config : Unknown) (caller : option Caller) : act Response :=
  let path := pathname (rawRequestTarget (rq_url request)) in
  if (path =? joinPath prefix "__fabrika-config.json")%string then Eff.lift (jsonResponse config 200)
  else if (path =? joinPath prefix "__fabrika-me.json")%string then
    match caller with
    | Some caller =>
        match cl_principal caller with
        | UserPrincipal _ label email _ => Eff.lift (jsonResponse (page_value (pageCallerOf label email (cl_perms caller) (rp_actions parts))) 200)
        | _ => Eff.throw (UnauthorizedError "A public page carries no caller")
        end
    | None => Eff.throw (UnauthorizedError "A public page carries no caller")
    end
  else asset request prefix dir.

(** [bootstrapPath]; the script [bootstrapResponse] answers is a text. *)
Definition bootstrapPath (prefix : string) : string := prefix +:+ "/__fabrika-share.js".

Definition respond (response : act Response) : act Answer := r ← response; mret (Respond r).

(** [#served] *)
Definition serve (script : string) (served : ServedEndpoint) (request : Request) (params : list (string * string)) : act Answer :=
  match served with
  | Health _ => respond (Eff.lift (jsonResponse (UObj [("status", UStr "ok")]) 200))
  | Spa row requirement prefix dir config => caller ← authorize row requirement request; respond (spaFile request prefix dir config (Some caller))
  | PublicSpa _ prefix dir config => respond (spaFile request prefix dir config None)
  | SpaPrefix _ prefix => respond (Eff.lift (new_Response 308 [("Location", prefix +:+ "/" +:+ from_option u_search "" (new_URL (rq_url request)))] NoBody))
  | LinkSpa _ prefix dir =>
      if (pathname (rawRequestTarget (rq_url request)) =? bootstrapPath prefix)%string
      then respond (Eff.lift (new_Response 200 [("Content-Type", "text/javascript; charset=utf-8")] (TextBody script)))
      else respond (file ← asset request prefix dir; ask (WithBootstrap file prefix))
  | Procedure p => procedure p request
  | Public p => public p request
  | Challenge row admission => issueChallenge row admission request
  | Webhook w => webhook w request (default "" (lookup_field "bindingId" params))
  | Description row requirement description =>
      _ ← authorize row requirement request;
      _ ← readInput row None request;
      respond (Eff.lift (jsonResponse (UObj [("result", description)]) 200))
  end.

(** The endpoint the request selects, checked against what the proxy applied. *)
Definition selected (request : Request) : Raised + ServedEndpoint * list (string * string) :=
  let plan := planEndpoint (rp_table parts) (rq_method request) (pathname (rawRequestTarget (rq_url request))) in
  let served := match plan with Endpoint row _ => rp_endpoints parts (e_id row) | _ => None end in
  if negb (from_option is_health false served) && negb (throughProxy (rp_secret parts) request) then inl (ForbiddenError "This application answers only its proxy")
  else match plan, served with
       | NonCanonical, _ => inl (BadRequestError "The request path is not canonical")
       | Endpoint _ params, Some served => inr (served, params)
       | _, _ => inl (NotFoundError ("No endpoint serves " +:+ rq_method request +:+ " " +:+ pathname (rawRequestTarget (rq_url request))))
       end.

(** [#answer]: whatever is thrown becomes an answer; a failure of the application is recorded. *)
Definition answer (script : string) (request : Request) : act Answer :=
  let fail (site : string) (chosen : bool) (error : Raised) :=
    if is_fence error then mret (Respond maintenanceRefusal)
    else
      response ← Eff.lift (errorResponse error);
      _ ← (if 500 <=? status response then tell (Record_failure site chosen (status response) error) else mret tt);
      mret (Respond response) in
  match selected request with
  | inl error => fail "request" false error
  | inr (served, params) =>
      let row := served_row served in
      Eff.catch (
        _ ← Eff.lift (checkEndpoint (is_health served) (e_id row) (rp_digests parts (e_id row)) request);
        admitted ← ask (AdmitInvocation (invocationKind served));
        if negb admitted then mret (Respond maintenanceRefusal)
        else finally (serve script served request params) (tell ReleaseInvocation))
      (fail (e_id row) true)
  end.

End Dispatch.
