(* ===== verification/DispatchOrder.v ===== *)
(** What must come first in a request ([Dispatch.v]): before a handler runs, before a delivery is claimed, before a transaction
    commits, and before a job is kicked. One guard says it for each event of a request's log, and every log of a request is safe
    for it, whatever the rest of the world answers and throws. *)

From S2P Require Import Prelude Json Shapes Permissions Token JobLeases Store Endpoints Headers Authorize Digest Rules JobRunner AppCapability.
From S2P Require Import Project Faults Params SignedTokens Clients Signatures FrameworkTables Webhooks Declarations Requests Calls Access Multipart Dispatch.
From Stdlib Require Import ZArith Lia String Ascii.
From stdpp Require Import base tactics strings option list.

Open Scope Z_scope.

Section Order.
Context `{RequestTexts} `{NumberText} `{NumberRead} `{Zod} `{IntegerText} `{TokenTexts} `{DeliveryCrypto}.
Context (world : World) (parts : RuntimeParts) (request : Request).

(** ** What must come first *)

(** The request came through the proxy, for an endpoint of this version and under this version's rules, and was counted. *)
Definition let_in (served : ServedEndpoint) (l : Log) : Prop :=
  (exists params, selected parts request = inr (served, params)) /\
  checkEndpoint (is_health served) (e_id (served_row served)) (rp_digests parts (e_id (served_row served))) request = inr tt /\
  answered (AdmitInvocation (invocationKind served)) true l.

(** The caller is the one a verified token names, of a kind the endpoint admits, with the permissions it requires. *)
Definition credentialed (row : EndpointRow) (requirement : Requirement) (caller : Caller) (l : Log) : Prop :=
  cl_token caller = Js.trim (default "" (header request "X-Fabrika-Token")) /\ cl_token caller <> "" /\
  (exists claims kind, answered (Verify (cl_token caller) (rp_audience parts)) (VerifiedToken claims) l /\
     presentedBy claims = Presented kind (cl_principal caller) /\ kind ∈ e_callers row /\ satisfies requirement (perms claims) = true /\
     cl_subject caller = sub claims /\ cl_perms caller = perms claims /\ cl_link caller = link claims) /\
  admit_caller row request = inr tt.

(** One was taken from every bucket of the endpoint, and its byte budget was charged. *)
Definition charged (row : EndpointRow) (admission : ProcedureAdmission) (caller : option string) (l : Log) : Prop :=
  Forall (fun bucket => answered (Take (e_id row) bucket.1 bucket.2) true l) (bucketsOf (adm_rate admission) (header request "X-Fabrika-Client-Ip") caller) /\
  forall budget, bytesPerHour (adm_rate admission) = Some budget -> exists limit, maxBytesOf row = inr limit /\
    let bytes := charged_bytes (safe_integer (number_of (default "" (header request "Content-Length")))) limit in
    bytes <= 0 \/ answered (ReserveBytes (e_id row) bytes budget) true l.

(** An input its schema admits, with each signed token in it verified and replaced by its claims. *)
Definition strict_input (row : EndpointRow) (schema : option Schema) (input : Fields) : Prop :=
  match schema with None => input = [] | Some schema => exists value, strictInput (e_id row) schema value = inr input end.

Definition verified_by (shape : option SchemaShape) (strict input : Fields) : Prop :=
  exists now before carried, verifyFields (rp_tokens parts) now shape strict before = inr (input, carried).

Definition parsed_input (row : EndpointRow) (schema : option Schema) (input : Fields) : Prop :=
  exists strict, strict_input row schema strict /\ verified_by (e_input row) strict input.

(** The challenge was passed, with a token that was not accepted before unless it is the repeatable one. *)
Definition challenged (admission : ProcedureAdmission) (l : Log) : Prop :=
  match adm_challenge admission with
  | None => True
  | Some challenge => exists token replayKey recordMs,
      answered (VerifyChallenge (ac_action challenge) (hostname request) token) (ChallengePassed replayKey recordMs) l /\
      (Some token = adm_repeatable admission \/ answered (RecordChallenge (ac_action challenge) (sha256Hex replayKey) recordMs) true l)
  end.

Definition procedure_first (args : HandlerArgs) (l : Log) : Prop :=
  exists served caller input rest membership, let_in (Procedure served) l /\ credentialed (sp_row served) (sp_requirement served) caller l /\
    charged (sp_row served) (default DEFAULT_ADMISSION (sp_admission served)) (Some (cl_subject caller)) l /\ parsed_input (sp_row served) (sp_input served) input /\
    access_held (rp_dims parts) (sp_row served) (sp_requirement served) caller input membership (h_access args, rest) l /\ h_input args = UObj rest /\
    h_principal args = ByCaller (cl_principal caller) /\ h_subject args = cl_subject caller /\ h_endpoint args = e_id (sp_row served) /\ h_refs args = [] /\
    forall action grant, h_app args action <> inr grant.

Definition public_first (args : HandlerArgs) (l : Log) : Prop :=
  exists served perms token input, let_in (Public served) l /\ admitContentType (pub_row served) request = inr tt /\ answered EnterShare true l /\
    charged (pub_row served) (pub_admission served) None l /\ parsed_input (pub_row served) (pub_input served) input /\ h_input args = UObj input /\
    answered (AuthorityOf (e_id (pub_row served))) (Authorized perms token) l /\ challenged (pub_admission served) l /\
    h_access args = NoAccess /\ h_refs args = [] /\ h_principal args = ByPublic (e_id (pub_row served)) /\
    forall action grant, h_app args action = inr grant ->
      action ∈ pub_actions served /\ permits perms action None = true /\ grant = GrantApp (mkAppGrant action (publicSubject (e_id (pub_row served)))).

(** A delivery of a binding of the webhook, signed with that binding's secret, from the account it accepts. *)
Definition delivered (served : ServedWebhook) (bindingId : string) (binding : WebhookBinding) (body : Bytes) (l : Log) : Prop :=
  answered (FindBinding (wh_name served) bindingId) (Some binding) l /\ (exists limit, maxBytesOf (wh_row served) = inr limit /\ answered (ReadBody (Some limit)) body l) /\
  exists now payload, answered Now now l /\ verifyDelivery (wh_scheme served) (delivery_of parts request body) (b_secret binding) now = true /\
    delivery_payload (wh_row served) request body = inr payload /\
    (is_github (wh_scheme served) = true -> b_account binding ∈ githubAccounts integer_text whole payload).

(** A delivery of the webhook's own bound value, whose workload holds every action the webhook declares. *)
Definition deliverable (served : ServedWebhook) (bindingId : string) (binding : WebhookBinding) (body : Bytes) (perms : list PermissionEntry) (l : Log) : Prop :=
  let_in (Webhook served) l /\ delivered served bindingId binding body l /\ (b_scope binding).1 = bound_type (wh_boundTo served) /\
  (exists token, answered (AuthorityOf (e_id (wh_row served))) (Authorized perms token) l) /\ Forall (fun action => permits perms action None = true) (wh_actions served).

Definition claim_first (id key : string) (l : Log) : Prop :=
  exists served binding body perms, deliverable served id binding body perms l /\ key = deliveryKey id body.

(** What a delivery's handler acts with: the declared actions on the bound value, or in the application. *)
Definition reach_of (served : ServedWebhook) (bindingId : string) (binding : WebhookBinding) (args : HandlerArgs) : Prop :=
  match wh_boundTo served with
  | ToDimension dimension =>
      (forall action grant, (action, grant) ∈ h_refs args -> action ∈ wh_actions served /\
         exists chain, grant = GrantRef (mkRef dimension action (webhookSubject bindingId) (b_scope binding).2 chain)) /\
      forall action grant, h_app args action <> inr grant
  | ToApp => h_refs args = [] /\ forall action grant, h_app args action = inr grant -> action ∈ wh_actions served /\ grant = GrantApp (mkAppGrant action (webhookSubject bindingId))
  end.

Definition delivery_first (args : HandlerArgs) (l : Log) : Prop :=
  exists served bindingId binding body perms key claim now leaseMs since, deliverable served bindingId binding body perms l /\ key = deliveryKey bindingId body /\
    answered (ClaimDelivery bindingId key now leaseMs since) (Some claim) l /\ (exists input value, strictInput (e_id (wh_row served)) (wh_input served) value = inr input /\ h_input args = UObj input) /\
    h_principal args = ByDelivery bindingId /\ h_delivery args = Some key /\ h_access args = NoAccess /\ reach_of served bindingId binding args.

Definition handler_first (args : HandlerArgs) (l : Log) : Prop :=
  match h_principal args with ByCaller _ => procedure_first args l | ByPublic _ => public_first args l | ByDelivery _ => delivery_first args l end.

(** The output is an answer: a stored file, an encoded attachment, or a value its schema admits. *)
Definition answer_ready (attaches : bool) (row : EndpointRow) (schema : Schema) (result : Unknown) (l : Log) : Prop :=
  match e_output row with
  | Some (OutSchema (SFile kind)) => exists source, answered (Download kind result) source l
  | Some (OutAttachment _) =>
      if attaches then exists response, answered (EncodeAttachment (e_id row) result) response l else exists response carried, outputResponse row schema result request carried = inr response
  | _ => exists response carried, outputResponse row schema result request carried = inr response
  end.

Definition work_done (served : ServedEndpoint) (result : Unknown) (l : Log) : Prop :=
  match served with
  | Procedure p => answer_ready true (sp_row p) (sp_output p) result l
  | Public p => answer_ready false (pub_row p) (pub_output p) result l
  | Webhook _ => exists id key now leaseMs since claim, answered (ClaimDelivery id key now leaseMs since) (Some claim) l /\ answered (CompleteDelivery claim true) true l
  | _ => False
  end.

Definition commit_first (l : Log) : Prop :=
  exists served args ran, let_in served l /\ answered (Handle args) ran l /\ answered EndFrame tt l /\ work_done served ran.1 l.

Definition declared_kicks (served : ServedEndpoint) : list string :=
  match served with
  | Procedure p => match sp_site p with Some site => sd_kicks (ss_declaration site) | None => [] end
  | Public p => sd_kicks (ss_declaration (pub_site p))
  | Webhook w => from_option sd_kicks [] (wh_site w)
  | _ => []
  end.

(** The COMMIT of an enclosed transaction runs as its enclosure is left, so what follows a commit follows both. *)
Definition kick_first (job : string) (l : Log) : Prop :=
  answered Commit tt l /\ answered (Leave true) tt l /\ exists served args ran, let_in served l /\ answered (Handle args) ran l /\ job ∈ declared_kicks served /\ job ∈ map kick_job ran.2.

(** What every event of a request needs before it. *)
Definition guard (l : Log) (e : Event) : Prop :=
  match e with
  | Ev call _ =>
      match call with
      | Handle args => handler_first args l
      | ClaimDelivery id key _ _ _ => claim_first id key l
      | Commit => commit_first l
      | Leave true => answered Commit tt l
      | KickJob job => kick_first job l
      | _ => True
      end
  end.

(** *** Its three parts *)

Definition caller_guard (l : Log) (e : Event) : Prop :=
  match e with Ev (Handle args) _ => match h_principal args with ByCaller _ => procedure_first args l | ByPublic _ => public_first args l | ByDelivery _ => True end | _ => True end.

Definition delivery_guard (l : Log) (e : Event) : Prop :=
  match e with
  | Ev (ClaimDelivery id key _ _ _) _ => claim_first id key l
  | Ev (Handle args) _ => match h_principal args with ByDelivery _ => delivery_first args l | _ => True end
  | _ => True
  end.

Definition answer_guard (l : Log) (e : Event) : Prop :=
  match e with Ev Commit _ => commit_first l | Ev (Leave true) _ => answered Commit tt l | Ev (KickJob job) _ => kick_first job l | _ => True end.

Notation sound := (sound guard).

(** ** The facts stay *)

#[local] Instance let_in_stays served : Stays (let_in served).
Proof. unfold let_in. apply _. Qed.

#[local] Instance credentialed_stays row requirement caller : Stays (credentialed row requirement caller).
Proof. unfold credentialed. repeat first [apply stays_and | apply stays_ex; intros ? | apply _]. Qed.

#[local] Instance charged_stays row admission caller : Stays (charged row admission caller).
Proof.
  unfold charged. apply stays_and.
  - intros l l' Hk Hp. eapply Forall_impl; [exact Hk|]. intros bucket Ha. cbn in *. by eapply stays.
  - apply stays_all. intros budget. apply stays_impl. apply stays_ex. intros limit. apply stays_and; [apply _|]. apply stays_or; apply _.
Qed.

#[local] Instance challenged_stays admission : Stays (challenged admission).
Proof. unfold challenged. destruct (adm_challenge admission); [|apply _]. repeat (apply stays_ex; intros ?). apply stays_and; [apply _|]. apply stays_or; apply _. Qed.

#[local] Instance delivered_stays served bindingId binding body : Stays (delivered served bindingId binding body).
Proof. unfold delivered. repeat first [apply stays_and | apply stays_ex; intros ? | apply _]. Qed.

#[local] Instance deliverable_stays served bindingId binding body perms : Stays (deliverable served bindingId binding body perms).
Proof. unfold deliverable. repeat first [apply stays_and | apply stays_ex; intros ? | apply _]. Qed.

#[local] Instance answer_ready_stays attaches row schema result : Stays (answer_ready attaches row schema result).
Proof. unfold answer_ready. destruct (e_output row) as [[[]| |]|]; try destruct attaches; apply _. Qed.

#[local] Instance work_done_stays served result : Stays (work_done served result).
Proof. unfold work_done. destruct served; apply _. Qed.

(** ** Each step *)

Lemma credential_sound K row requirement : Stays K -> sound K (authorize world parts row requirement request) (credentialed row requirement).
Proof.
  intros HK. unfold authorize. destruct (String.eqb_spec (Js.trim (default "" (header request "X-Fabrika-Token"))) "") as [|Hne]; [apply sound_throw|].
  apply sound_bind_ask; [done|done|]. intros [claims| |]; [|apply sound_throw..]. destruct (presentedBy claims) as [kind principal| |] eqn:Ep; [|apply sound_throw..].
  destruct (Js.elem kind (e_callers row)) eqn:Ek; cbn [negb]; [|apply sound_throw]. destruct (satisfies requirement (perms claims)) eqn:Es; cbn [negb]; [|apply sound_throw].
  apply sound_bind_lift. intros [] Ha. apply sound_ret. intros l [_ Hv]. split; [done|]. split; [done|]. split; [|done]. exists claims, kind. split_and!; try done. by apply elem_spec.
Qed.

Lemma take_each_sound K row buckets : Stays K ->
  sound K (take_each world parts row buckets) (fun _ l => Forall (fun bucket => answered (Take (e_id row) bucket.1 bucket.2) true l) buckets).
Proof.
  unfold take_each. revert K. induction buckets as [|bucket buckets IH]; intros K HK; cbn [each]; [by apply sound_ret|].
  eapply (sound_bind _ _ _ _ (fun _ => answered (Take (e_id row) bucket.1 bucket.2) true)); [done|apply _| |].
  - apply sound_bind_lift. intros _ _. apply sound_bind_ask; [done|done|]. intros []; [apply sound_ret; by intros l []|apply sound_throw].
  - intros _. eapply sound_weaken; [eapply (sound_frame _ _ _ _ _ (IH (fun l => K l /\ answered (Take (e_id row) bucket.1 bucket.2) true l) _))|done|].
    intros _ l [[_ Ha] Hf]. by constructor.
  Unshelve. all: apply _.
Qed.

Lemma admit_request_sound K row admission caller : Stays K -> sound K (admit_request world parts row admission request caller) (fun _ => charged row admission caller).
Proof.
  intros HK. unfold admit_request, charged. eapply sound_bind; [done| |by apply take_each_sound|].
  { intros _ l l' Hk Hp. eapply Forall_impl; [exact Hk|]. intros bucket Ha. cbn in *. by eapply stays. }
  intros []. destruct (bytesPerHour (adm_rate admission)) as [budget|]; [|apply sound_ret; intros l [_ Ht]; by split].
  apply sound_bind_lift. intros limit Hl. cbn zeta. destruct (Z.ltb_spec 0 (charged_bytes (safe_integer (number_of (default "" (header request "Content-Length")))) limit)) as [Hpos|Hneg].
  - apply sound_bind_lift. intros _ _. apply sound_bind_ask; [|done|].
    { apply stays_and; [done|]. intros l l' Hk Hp. eapply Forall_impl; [exact Hk|]. intros bucket Ha. cbn in *. by eapply stays. }
    intros []; [|apply sound_throw]. apply sound_ret. intros l [[_ Ht] Hr]. split; [done|]. intros ? [= <-]. exists limit. split; [done|]. by right.
  - apply sound_ret. intros l [_ Ht]. split; [done|]. intros ? [= <-]. exists limit. split; [done|]. by left.
Qed.

Lemma readInput_sound K row schema : Stays K -> sound K (readInput world row schema request) (fun input _ => strict_input row schema input).
Proof.
  intros HK. unfold readInput. apply sound_bind_skip; [done| |].
  - destruct (_ =? _)%string; [by apply sound_lift|]. apply sound_bind_ask; [done|done|]. intros bytes. by apply sound_lift.
  - intros body. apply sound_lift. intros l input _ Hi. unfold input_of in Hi. unfold strict_input. destruct schema as [schema|]; [by exists body|].
    destruct body as [| | | | | |[]|]; try done. congruence.
Qed.

Lemma failure_sound K limit row error : Stays K -> sound K (failure world limit row error) (fun _ _ => True).
Proof.
  intros HK. unfold failure. apply sound_bind_ask; [done|done|]. intros []; [by apply sound_ret|]. destruct (match structural error with Some _ => _ | None => _ end); [by apply sound_ret|].
  apply sound_bind_ask; [apply _|done|]. intros []; [by apply sound_ret|]. apply sound_bind_ask; [apply _|done|]. intros []; [by apply sound_ret|].
  apply sound_bind_ask; [apply _|done|]. intros broken. by apply sound_ret.
Qed.

Lemma read_input_part_sound K row fields limit : Stays K -> sound K (read_input_part world row fields limit) (fun _ _ => True).
Proof.
  intros HK. unfold read_input_part. apply sound_bind_ask; [done|done|]. intros [part|]; [|apply sound_throw]. destruct (_ && _).
  - apply sound_bind_ask; [apply _|done|]. intros [bytes|]; [|apply sound_throw]. apply sound_bind_lift. intros parsed _. destruct parsed; try apply sound_throw.
    destruct (existsb _ _); [apply sound_throw|by apply sound_ret].
  - apply sound_bind_ask; [apply _|done|]. intros []. apply sound_throw.
Qed.

Lemma openMultipart_sound K row fields : Stays K -> sound K (openMultipart world row fields request) (fun _ _ => True).
Proof.
  intros HK. unfold openMultipart. destruct (multipartBoundary _); [|apply sound_throw]. apply sound_bind_lift. intros limit _. cbn zeta. destruct (exceeds _ _); [apply sound_throw|].
  apply sound_catch; [done|by apply read_input_part_sound|]. intros error. apply sound_bind_skip; [done|by apply failure_sound|]. intros refused.
  apply sound_bind_skip; [done|eapply sound_true; by apply sound_tell|]. intros []. apply sound_throw.
Qed.

(** What is known of a body once it was read. *)
Definition body_read (row : EndpointRow) (schema : option Schema) (body : ProcedureBody) : Prop :=
  match body with WholeBody input => strict_input row schema input | MultipartBody _ _ => True end.

Lemma procedureBody_sound K row schema : Stays K -> sound K (procedureBody world row schema request) (fun body _ => body_read row schema body).
Proof.
  intros HK. unfold procedureBody. destruct (_ && _).
  - apply sound_bind_skip; [done|by apply openMultipart_sound|]. intros json. by apply sound_ret.
  - eapply sound_bind; [done| |by apply readInput_sound|]; [apply _|]. intros input. apply sound_ret. by intros l [_ Hi].
Qed.

Lemma file_parts_sound K fuel row fields values counts : Stays K -> sound K (file_parts world fuel row fields values counts) (fun _ _ => True).
Proof.
  revert K values counts. induction fuel as [|fuel IH]; intros K values counts HK; cbn [file_parts]; [by apply sound_ret|].
  assert (Hr : forall K' : Log -> Prop, Stays K' -> forall part, sound K' (_ ← ask world (CancelPart part); Eff.throw (multipart_error (quoted (e_id row) +:+ ": a part is no file field of the input, a field carries more files than it admits, or a file has no filename"))) (fun (_ : option Fields) _ => True)).
  { intros K' HK' part. apply sound_bind_ask; [done|done|]. intros []. apply sound_throw. }
  apply sound_bind_ask; [done|done|]. intros [part|]; [|by apply sound_ret]. cbn zeta. destruct (lookup_field _ _) as [field|]; [|apply Hr; apply _].
  destruct (_ || _); [apply Hr; apply _|]. apply sound_bind_ask; [apply _|done|]. intros file. apply IH. apply _.
Qed.

Lemma fileInput_sound K row schema json fields : Stays K -> sound K (fileInput world parts row schema json fields) (fun input _ => strict_input row schema input).
Proof.
  intros HK. unfold fileInput. apply sound_bind_skip; [done| |].
  - unfold multipart_files. destruct (negb _); [apply sound_throw|]. apply sound_bind_lift. intros limit _. apply sound_catch; [done| |].
    + apply sound_bind_skip; [done|by apply file_parts_sound|]. intros files. by apply sound_ret.
    + intros error. apply sound_bind_skip; [done|by apply failure_sound|]. intros refused. apply sound_throw.
  - intros files. destruct schema as [schema|]; [|apply sound_throw]. apply sound_lift. intros l input _ Hi. cbn. by eexists.
Qed.

Lemma verified_fields_sound K shape value carried : Stays K -> sound K (verified_fields world parts shape value carried) (fun got _ => verified_by shape value got.1).
Proof.
  intros HK. unfold verified_fields. apply sound_bind_ask; [done|done|]. intros now. apply sound_lift. intros l [fields texts] _ Hv. exists now, carried, texts. exact Hv.
Qed.

Lemma verifiedQuery_sound K row query carried : Stays K -> sound K (verifiedQuery world parts row query request carried) (fun _ _ => True).
Proof.
  intros HK. unfold verifiedQuery. apply sound_bind_lift. intros read _. destruct read as [fields|]; [|by apply sound_ret]. destruct query as [[schema shape]|]; [|by apply sound_ret].
  apply sound_bind_skip; [done|eapply sound_true; by apply verified_fields_sound|]. intros got. by apply sound_ret.
Qed.

Lemma whole_input_sound K row schema body fields carried : Stays K -> body_read row schema body -> verified_by (e_input row) (body_json body) fields ->
  sound K (whole_input world parts row schema body fields carried) (fun got _ => parsed_input row schema got.1).
Proof.
  intros HK Hb Hv. destruct body as [input|json files]; cbn [whole_input body_json body_read] in *.
  - apply sound_ret. intros l _. by exists input.
  - eapply sound_bind; [done| |by apply fileInput_sound|]; [apply _|]. intros input. eapply sound_weaken; [eapply (sound_frame _ (fun l => K l /\ strict_input row schema input)); [apply _|]|done|].
    + by apply verified_fields_sound; apply _.
    + intros got l [[_ Hs] Hver]. by exists input.
Qed.

Lemma cancel_answer_sound K answer : Stays K -> sound K (cancel_answer world answer) (fun _ _ => True).
Proof. intros HK. destruct answer as [|source]; cbn [cancel_answer]; [by apply sound_ret|]. eapply sound_true. by apply sound_ask. Qed.

Lemma enclosed_sound {A} K invocation cancel (work : act A) Q : Stays K -> (forall a, Stays (Q a)) -> (forall a, sound K (cancel a) (fun _ _ => True)) -> sound K work Q ->
  (invocation = true -> forall a l, Q a l -> answered Commit tt l) -> sound K (enclosed world invocation cancel work) (fun a l => Q a l /\ (invocation = true -> answered (Leave true) tt l)).
Proof.
  intros HK HQ Hc Hw Hq. unfold enclosed. destruct invocation; [|by eapply sound_weaken; [exact Hw| |by intros a l Ha]]. apply sound_bind_skip; [done|eapply sound_true; by apply sound_ask|]. intros [].
  eapply sound_bind; [done|exact HQ| |].
  - apply sound_catch; [done|exact Hw|]. intros error. apply sound_bind_skip; [done|by apply sound_quietly|]. intros []. apply sound_throw.
  - intros answer. apply sound_catch; [apply _| |].
    + apply sound_bind_ask; [apply _| |]; [intros l r [_ Ha]; by eapply Hq|]. intros []. apply sound_ret. by intros l [[_ Ha] Hl].
    + intros error. apply sound_bind_skip; [apply _| |intros []; apply sound_throw]. eapply sound_weaken; [apply Hc|by intros l []|done].
Qed.

Lemma commit_invocation_sound K invocation : Stays K -> (invocation = true -> forall l, K l -> commit_first l) ->
  sound K (commit_invocation world invocation) (fun _ l => invocation = true -> answered Commit tt l).
Proof.
  intros HK Hc. unfold commit_invocation. destruct invocation; [|by apply sound_ret]. apply sound_bind_ask; [done|done|]. intros [].
  - apply sound_bind_ask; [apply _|done|]. intros []. apply sound_throw.
  - eapply sound_weaken; [apply sound_ask; intros l r Hk; exact (Hc eq_refl l Hk)|by intros l []|]. intros [] l Ha _. exact Ha.
Qed.

Lemma recordKicks_sound K invocation kicks : Stays K -> sound K (recordKicks world parts invocation kicks) (fun _ _ => True).
Proof.
  intros HK. unfold recordKicks. destruct (_ && _); [|by apply sound_ret]. apply sound_bind_ask; [done|done|]. intros []. apply sound_bind_ask; [apply _|done|]. intros now.
  apply sound_each; [apply _|]. intros wake _. eapply sound_true. by apply sound_ask.
Qed.

Lemma kickAll_sound K kicks : Stays K -> (forall l job, K l -> job ∈ kicked kicks -> kick_first job l) -> sound K (kickAll kicks) (fun _ _ => True).
Proof. intros HK Hk. apply sound_each; [done|]. intros job Hj. eapply sound_true. apply sound_tell. intros l r HKl. by apply Hk. Qed.

Lemma kicked_elem kicks job : job ∈ kicked kicks -> job ∈ map kick_job kicks.
Proof.
  unfold kicked. intros Hj. assert (Hs : forall l set, job ∈ fold_left (fun jobs job => if Js.elem job jobs then jobs else jobs ++ [job]) l set -> job ∈ set \/ job ∈ l).
  { induction l as [|x l IH]; intros set; cbn [fold_left]; [by left|]. intros Hin%IH. destruct (Js.elem x set); [rewrite elem_of_cons; tauto|].
    rewrite elem_of_app, list_elem_of_singleton in Hin. rewrite elem_of_cons. tauto. }
  apply Hs in Hj as [Hj|Hj]; [by apply elem_of_nil in Hj|]. apply list_elem_of_In, in_map_iff in Hj as (kick & <- & Hin). apply filter_In in Hin as [Hin _]. apply list_elem_of_In. by apply in_map.
Qed.

Lemma recorded_elem declared asked job : job ∈ map kick_job (recorded declared asked) -> job ∈ declared /\ job ∈ map kick_job asked.
Proof.
  rewrite !list_elem_of_In, !in_map_iff. unfold recorded. intros (kick & <- & Hin). apply filter_In in Hin as [Hin He]. apply elem_spec in He. split; [by apply list_elem_of_In|]. by exists kick.
Qed.

(** What is known once the work of an invocation ended. *)
Definition worked (invocation : bool) (declared : list string) (ran_first : Unknown * list RecordedKick -> Log -> Prop) (kicks : list RecordedKick) (l : Log) : Prop :=
  exists ran, ran_first ran l /\ kicks = recorded declared ran.2 /\ (invocation = true -> answered Commit tt l).

(** And once it left its enclosure. *)
Definition finished (invocation : bool) (declared : list string) (ran_first : Unknown * list RecordedKick -> Log -> Prop) (kicks : list RecordedKick) (l : Log) : Prop :=
  worked invocation declared ran_first kicks l /\ (invocation = true -> answered (Leave true) tt l).

Lemma worked_stays invocation declared ran_first kicks : (forall ran, Stays (ran_first ran)) -> Stays (worked invocation declared ran_first kicks).
Proof. intros HS. unfold worked. apply stays_ex. intros ran. apply stays_and; [done|]. apply stays_and; [apply _|]. apply stays_impl, _. Qed.

Lemma finished_stays invocation declared ran_first kicks : (forall ran, Stays (ran_first ran)) -> Stays (finished invocation declared ran_first kicks).
Proof. intros HS. apply stays_and; [by apply worked_stays|]. apply stays_impl, _. Qed.

Lemma worked_committed invocation declared ran_first kicks l : invocation = true -> worked invocation declared ran_first kicks l -> answered Commit tt l.
Proof. by intros Hi (ran & _ & _ & Hc); apply Hc. Qed.

Lemma answered_work_sound K invocation declared handle answer_of (ran_first : Unknown * list RecordedKick -> Log -> Prop) (ready : Unknown -> Log -> Prop) :
  Stays K -> (forall ran, Stays (ran_first ran)) -> (forall result, Stays (ready result)) -> sound K handle ran_first ->
  (forall K', Stays K' -> forall result, sound K' (answer_of result) (fun _ => ready result)) ->
  (invocation = true -> forall l ran, K l -> ran_first ran l -> answered EndFrame tt l -> ready ran.1 l -> commit_first l) ->
  sound K (answered_work world parts invocation declared handle answer_of) (fun done => worked invocation declared ran_first done.2).
Proof.
  intros HK HR HY Hh Ha Hc. unfold answered_work. eapply (sound_bind _ _ _ _ (fun ran l => ran_first ran l /\ answered EndFrame tt l)); [done|apply _| |].
  { apply sound_finally_then; [done|done|done|]. eapply sound_weaken; [by apply sound_tell|done|done]. }
  intros ran. cbn zeta. apply sound_bind_skip; [apply _|apply recordKicks_sound; apply _|]. intros [].
  eapply (sound_bind _ _ _ _ (fun _ => ready ran.1)); [apply _|done|apply Ha; apply _|]. intros answer. apply sound_bind_skip; [apply _|apply sound_committing|]. intros [].
  eapply (sound_bind _ _ _ _ (fun _ l => invocation = true -> answered Commit tt l)); [apply _|intros []; apply stays_impl, _| |].
  - unfold commitAnswer. apply sound_catch; [apply _| |].
    + eapply sound_weaken; [apply (commit_invocation_sound (fun l => K l /\ ran_first ran l /\ answered EndFrame tt l /\ ready ran.1 l)); [apply _|]| |done].
      * intros Hi l (Hk & Hr & He & Hy). by eapply Hc.
      * intros l [[Hk [Hr He]] Hy]. done.
    + intros error. apply sound_bind_skip; [apply _|apply cancel_answer_sound; apply _|]. intros []. apply sound_throw.
  - intros []. apply sound_ret. intros l [[[Hk [Hr He]] Hy] Hco]. by exists ran.
Qed.

Lemma settled_sound {A} K invocation (work : act A) Q : Stays K -> (forall a, Stays (Q a)) -> sound K work Q -> sound K (settled world parts invocation work) Q.
Proof.
  intros HK HQ Hw. unfold settled. apply sound_finally; [done|done| |].
  - apply sound_catch; [done|done|]. intros error. apply sound_bind_skip; [done| |intros []; apply sound_throw]. destruct (is_fence error); [apply sound_committing|by apply sound_ret].
  - apply sound_bind_skip; [done| |intros []].
    + destruct invocation; [eapply sound_true; by apply sound_ask|by apply sound_ret].
    + apply sound_bind_skip; [done|apply sound_gets|]. intros committing. destruct (_ || _); [by apply sound_ret|]. eapply sound_true. by apply sound_ask.
Qed.

(** *** A procedure *)

Lemma call_procedure_sound K served caller frame input query carried : Stays K ->
  (forall l, K l -> let_in (Procedure served) l /\ credentialed (sp_row served) (sp_requirement served) caller l /\
     charged (sp_row served) (default DEFAULT_ADMISSION (sp_admission served)) (Some (cl_subject caller)) l /\ parsed_input (sp_row served) (sp_input served) input) ->
  sound K (call_procedure world parts served request caller frame input query carried) (fun ran l => exists args, answered (Handle args) ran l).
Proof.
  intros HK Hf. unfold call_procedure. cbn zeta. eapply sound_bind; [done| |by apply access_sound|]; [apply _|]. intros [context rest].
  apply sound_bind_lift. intros provided _. eapply sound_weaken; [apply sound_ask with (K := fun l => K l /\ access_held (rp_dims parts) (sp_row served) (sp_requirement served) caller input
    (membershipRequest parts (sp_requirement served) caller request frame) (context, rest) l)| |]; [|done|].
  - intros l r [Hk Ha]. destruct (Hf l Hk) as (? & ? & ? & ?). cbn. exists served, caller, input, rest, (membershipRequest parts (sp_requirement served) caller request frame).
    split_and!; done.
  - intros ran l Ha. by eexists.
Qed.

Lemma answerOf_sound K row output result carried : Stays K -> sound K (answerOf world parts row output result request carried) (fun _ => answer_ready true row output result).
Proof.
  intros HK. unfold answerOf, answer_ready. destruct (e_output row) as [[[]| |]|]; try destruct (rp_fileKinds parts); try apply sound_throw;
    try (apply sound_bind_ask; [done|done|]; intros x; apply sound_ret; intros l [_ Ha]; by exists x);
    apply sound_bind_lift; intros response Hr; apply sound_ret; intros l _; by exists response, carried.
Qed.

Lemma procedureInvocation_sound K served caller body : Stays K -> body_read (sp_row served) (sp_input served) body ->
  (forall l, K l -> let_in (Procedure served) l /\ credentialed (sp_row served) (sp_requirement served) caller l /\
     charged (sp_row served) (default DEFAULT_ADMISSION (sp_admission served)) (Some (cl_subject caller)) l) ->
  sound K (procedureInvocation world parts served request caller body) (fun _ _ => True).
Proof.
  intros HK Hb Hf. unfold procedureInvocation. cbn zeta. eapply sound_bind; [done| |by apply verified_fields_sound|]; [apply _|]. intros verified.
  apply sound_bind_skip; [apply _|apply verifiedQuery_sound; apply _|]. intros queried. apply sound_bind_ask; [apply _|done|]. intros frame.
  apply sound_bind_skip; [apply _|destruct (_ && _); [apply sound_throw|by apply sound_ret]|]. intros []. apply sound_bind_skip; [apply _|apply sound_committing|]. intros [].
  apply settled_sound; [apply _|apply _|].
  set (K' := fun l => K l /\ verified_by (e_input (sp_row served)) (body_json body) verified.1).
  eapply sound_weaken with (K' := K') (Q' := fun _ _ => True); [|by intros l [[Hk Hv] _]|done]. eapply (sound_bind _ _ _ _ (fun got _ => parsed_input (sp_row served) (sp_input served) got.1)); [apply _|apply _| |].
  { intros s Hs [Hk Hv]. by apply (whole_input_sound K (sp_row served) (sp_input served) body verified.1 queried.2 HK Hb Hv s Hs). }
  intros input. set (declared := match sp_site served with Some site => sd_kicks (ss_declaration site) | None => [] end).
  set (ran_first := fun ran l => let_in (Procedure served) l /\ exists args, answered (Handle args) ran l).
  eapply (sound_bind _ _ _ _ (fun done => finished (is_some (sp_site served)) declared ran_first done.2)); [apply _|intros done; apply finished_stays; apply _| |].
  - apply (enclosed_sound _ _ _ _ (fun done => worked (is_some (sp_site served)) declared ran_first done.2)); [apply _|intros done; apply worked_stays; apply _|intros done; apply cancel_answer_sound; apply _| |intros ? done l; by apply worked_committed].
    apply answered_work_sound with (ready := answer_ready true (sp_row served) (sp_output served)); [apply _|apply _|apply _| |intros K'' HK'' result; by apply answerOf_sound|].
    + eapply sound_weaken; [apply (sound_frame _ (fun l => K' l /\ parsed_input (sp_row served) (sp_input served) input.1)); [apply _|apply call_procedure_sound; [apply _|]]| |]; [|done|].
      * intros l [[Hk _] Hp]. destruct (Hf l Hk) as (? & ? & ?). done.
      * intros ran l [[[Hk _] _] Ha]. split; [by apply Hf|done].
    + intros _ l ran _ [Hl (args & Ha)] He Hy. by exists (Procedure served), args, ran.
  - intros [answer kicks]. apply sound_bind_skip; [apply stays_and; [apply _|apply finished_stays; apply _]| |by intros []; apply sound_ret].
    apply kickAll_sound; [apply stays_and; [apply _|apply finished_stays; apply _]|]. intros l job [_ [(ran & [Hl (args & Ha)] & Hk & Hco) Hle]] Hj. cbn in Hk. subst kicks.
    apply kicked_elem, recorded_elem in Hj as [Hd Hj]. unfold declared in Hd.
    assert (Hi : is_some (sp_site served) = true) by (destruct (sp_site served); [done|]; by apply elem_of_nil in Hd).
    split; [by apply Hco|]. split; [by apply Hle|]. by exists (Procedure served), args, ran.
Qed.

Lemma close_body_sound K body : Stays K -> sound K (close_body body) (fun _ _ => True).
Proof. intros HK. destruct body; cbn [close_body]; [by apply sound_ret|]. eapply sound_true. by apply sound_tell. Qed.

Lemma procedure_sound K served : Stays K -> (forall l, K l -> let_in (Procedure served) l) -> sound K (procedure world parts served request) (fun _ _ => True).
Proof.
  intros HK Hf. unfold procedure. eapply sound_bind; [done| |by apply credential_sound|]; [apply _|]. intros caller.
  eapply sound_bind; [apply _| |apply admit_request_sound; apply _|]; [intros ?; apply _|]. intros []. eapply sound_bind; [apply _| |apply procedureBody_sound; apply _|]; [apply _|].
  intros body. apply (sound_pure guard _ (body_read (sp_row served) (sp_input served) body)). intros Hb. apply sound_finally; [apply _|done| |apply close_body_sound; apply _].
  apply procedureInvocation_sound; [apply _|done|]. intros l [[Hk Hc] Hch]. split; [by apply Hf|done].
Qed.

(** *** A public procedure *)

Lemma check_challenge_sound K admission challenge token : Stays K -> adm_challenge admission = Some challenge ->
  sound K (check_challenge world parts (ac_action challenge) token request (adm_repeatable admission)) (fun _ => challenged admission).
Proof.
  intros HK Hc. unfold check_challenge, challenged. rewrite Hc. destruct token as [token|]; [|apply sound_throw]. apply sound_bind_ask; [done|done|].
  intros [replayKey recordMs| | |]; try apply sound_throw. case_bool_decide as Hr.
  - apply sound_ret. intros l [_ Hv]. exists token, replayKey, recordMs. split; [done|by left].
  - apply sound_bind_lift. intros [] _. apply sound_bind_ask; [apply _|done|]. intros []; [|apply sound_throw]. apply sound_ret. intros l [[_ Hv] Hf]. exists token, replayKey, recordMs. split; [done|by right].
Qed.

Lemma public_app_inr actions perms subject action grant : public_app actions perms subject action = inr grant ->
  action ∈ actions /\ permits perms action None = true /\ grant = GrantApp (mkAppGrant action subject).
Proof.
  unfold public_app. destruct (Js.elem action actions) eqn:Ea; [|done]. cbn [negb]. destruct (permits perms action None) eqn:Ep; [|done]. cbn [negb]. rewrite mint_app_is. intros [= <-].
  split; [by apply elem_spec|done].
Qed.

(** What is known of a public request once its visitor passed. *)
Definition visited (served : ServedPublic) (perms : list PermissionEntry) (l : Log) : Prop :=
  let_in (Public served) l /\ admitContentType (pub_row served) request = inr tt /\ answered EnterShare true l /\ charged (pub_row served) (pub_admission served) None l /\
  (exists token, answered (AuthorityOf (e_id (pub_row served))) (Authorized perms token) l) /\ challenged (pub_admission served) l.

Lemma publicInvocation_sound K served body fields query carried perms : Stays K -> body_read (pub_row served) (pub_input served) body ->
  verified_by (e_input (pub_row served)) (body_json body) fields -> (forall l, K l -> visited served perms l) ->
  sound K (publicInvocation world parts served request body fields query carried perms) (fun _ _ => True).
Proof.
  intros HK Hb Hv Hf. unfold publicInvocation. cbn zeta. apply sound_bind_ask; [done|done|]. intros frame. apply sound_bind_skip; [apply _|destruct (rp_data parts); [by apply sound_ret|apply sound_throw]|].
  intros []. apply sound_bind_skip; [apply _|apply sound_committing|]. intros []. apply settled_sound; [apply _|apply _|].
  eapply sound_weaken with (K' := K) (Q' := fun _ _ => True); [|by intros l [Hk _]|done].
  eapply (sound_bind _ _ _ _ (fun got _ => parsed_input (pub_row served) (pub_input served) got.1)); [done|apply _|by apply whole_input_sound|].
  intros input. set (declared := sd_kicks (ss_declaration (pub_site served))). set (ran_first := fun ran l => let_in (Public served) l /\ exists args, answered (Handle args) ran l).
  eapply (sound_bind _ _ _ _ (fun done => finished true declared ran_first done.2)); [apply _|intros done; apply finished_stays; apply _| |].
  - apply (enclosed_sound _ _ _ _ (fun done => worked true declared ran_first done.2)); [apply _|intros done; apply worked_stays; apply _|intros done; apply cancel_answer_sound; apply _| |intros ? done l; by apply worked_committed].
    apply answered_work_sound with (ready := answer_ready false (pub_row served) (pub_output served)); [apply _|apply _|apply _| | |].
    + eapply sound_weaken; [apply (sound_frame _ (fun l => K l /\ parsed_input (pub_row served) (pub_input served) input.1)); [apply _|apply sound_ask]| |]; [|done|].
      * intros l r [Hk Hp]. destruct (Hf l Hk) as (Hl & Hct & Hs & Hch & (token & Ha) & Hcc). cbn. exists served, perms, token, input.1. split_and!; try done.
        intros action grant. apply public_app_inr.
      * intros ran l [[Hk _] Ha]. split; [by apply (Hf l Hk)|by eexists].
    + intros K' HK' result. unfold answer_ready. destruct (e_output (pub_row served)) as [[[]| |]|]; try destruct (rp_fileKinds parts); try apply sound_throw;
        try (apply sound_bind_ask; [done|done|]; intros x; apply sound_ret; intros l [_ Ha]; by exists x);
        apply sound_bind_lift; intros response Hr; apply sound_ret; intros l _; by exists response, input.2.
    + intros _ l ran _ [Hl (args & Ha)] He Hy. by exists (Public served), args, ran.
  - intros [answer kicks]. apply sound_bind_skip; [apply stays_and; [apply _|apply finished_stays; apply _]| |by intros []; apply sound_ret].
    apply kickAll_sound; [apply stays_and; [apply _|apply finished_stays; apply _]|]. intros l job [_ [(ran & [Hl (args & Ha)] & Hk & Hco) Hle]] Hj. cbn in Hk. subst kicks.
    apply kicked_elem, recorded_elem in Hj as [Hd Hj]. split; [by apply Hco|]. split; [by apply Hle|]. by exists (Public served), args, ran.
Qed.

Lemma public_opened_sound K served body : Stays K -> body_read (pub_row served) (pub_input served) body ->
  (forall l, K l -> let_in (Public served) l /\ admitContentType (pub_row served) request = inr tt /\ answered EnterShare true l /\ charged (pub_row served) (pub_admission served) None l) ->
  sound K (public_opened world parts served request body) (fun _ _ => True).
Proof.
  intros HK Hb Hf. unfold public_opened. eapply sound_bind; [done| |by apply verified_fields_sound|]; [apply _|]. intros verified.
  apply (sound_pure guard K (verified_by (e_input (pub_row served)) (body_json body) verified.1)). intros Hv. apply sound_bind_skip; [done|by apply verifiedQuery_sound|]. intros queried.
  apply sound_bind_ask; [done|done|]. intros [perms token|]; [|apply sound_throw].
  eapply (sound_bind _ _ _ _ (fun _ => challenged (pub_admission served))); [apply _|apply _| |].
  - destruct (adm_challenge (pub_admission served)) as [challenge|] eqn:Ec; [apply check_challenge_sound; [apply _|done]|]. apply sound_ret. intros l _. unfold challenged. by rewrite Ec.
  - intros []. apply publicInvocation_sound; [apply _|done|done|]. intros l [[Hk Ha] Hc]. destruct (Hf l Hk) as (? & ? & ? & ?). split_and!; try done. by exists token.
Qed.

Lemma public_sound K served : Stays K -> (forall l, K l -> let_in (Public served) l) -> sound K (public world parts served request) (fun _ _ => True).
Proof.
  intros HK Hf. unfold public. apply sound_bind_lift. intros [] Hct. apply sound_bind_ask; [done|done|]. intros []; cbn [negb]; [|apply sound_throw].
  apply sound_finally; [apply _|apply _| |eapply sound_true; by apply sound_tell].
  eapply sound_bind; [apply _| |apply admit_request_sound; apply _|]; [intros ?; apply _|]. intros []. eapply sound_bind; [apply _| |apply procedureBody_sound; apply _|]; [apply _|].
  intros body. apply (sound_pure guard _ (body_read (pub_row served) (pub_input served) body)). intros Hb. apply sound_finally; [apply _|done| |apply close_body_sound; apply _].
  apply public_opened_sound; [apply _|done|]. intros l [[Hk He] Hc]. split; [by apply Hf|done].
Qed.

Lemma issueChallenge_sound K row admission : Stays K -> sound K (issueChallenge world parts row admission request) (fun _ _ => True).
Proof.
  intros HK. unfold issueChallenge. apply sound_bind_ask; [done|done|]. intros []; cbn [negb]; [|apply sound_throw]. apply sound_finally; [apply _|apply _| |eapply sound_true; by apply sound_tell].
  apply sound_bind_skip; [apply _|eapply sound_true; apply admit_request_sound; apply _|]. intros []. apply sound_bind_ask; [apply _|done|]. intros challenge.
  apply sound_bind_lift. intros response _. by apply sound_ret.
Qed.

(** *** A delivery *)

Lemma mint_refs_inr dimension subject value chain actions refs : mint_refs dimension subject value chain actions = inr refs -> is_map chain ->
  forall action grant, (action, grant) ∈ refs -> action ∈ actions /\ grant = GrantRef (mkRef dimension action subject value chain).
Proof.
  intros Hm Hmap. revert refs Hm. induction actions as [|a actions IH]; intros refs; cbn [mint_refs]; [intros [= <-] ? ? Hin; by apply elem_of_nil in Hin|].
  rewrite mint_ref_is by done. cbn. destruct (mint_refs dimension subject value chain actions) as [|refs'] eqn:E; [done|]. cbn. intros Hr. apply (inj inr) in Hr as <-.
  intros action grant. rewrite !elem_of_cons. intros [[= -> ->]|Hin]; [split; [by left|done]|]. destruct (IH refs' eq_refl action grant Hin). split; [by right|done].
Qed.

Lemma webhook_app_inr boundTo actions subject action grant : webhook_app boundTo actions subject action = inr grant ->
  boundTo = ToApp /\ action ∈ actions /\ grant = GrantApp (mkAppGrant action subject).
Proof.
  unfold webhook_app. destruct boundTo as [|]; try done. destruct (Js.elem action actions) eqn:Ea; [|done]. rewrite mint_app_is. intros [= <-]. split; [done|]. by rewrite <-elem_spec.
Qed.

Lemma delivery_work_sound K served binding bindingId body perms key frame chain input value claim now leaseMs since : Stays K -> is_map chain ->
  strictInput (e_id (wh_row served)) (wh_input served) value = inr input -> key = deliveryKey bindingId body ->
  (forall l, K l -> deliverable served bindingId binding body perms l /\ answered (ClaimDelivery bindingId key now leaseMs since) (Some claim) l) ->
  let ran_first := fun (ran : Unknown * list RecordedKick) l => let_in (Webhook served) l /\ exists args, answered (Handle args) ran l in
  sound K (delivery_work world parts served request bindingId key (b_scope binding).2 frame chain input claim)
    (fun kicks => worked (is_some (wh_site served)) (declared_kicks (Webhook served)) ran_first kicks).
Proof.
  intros HK Hmap Hin Hkey Hf ran_first. unfold delivery_work. cbn zeta.
  eapply (sound_bind _ _ _ _ (fun ran l => ran_first ran l /\ answered EndFrame tt l)); [done|unfold ran_first; apply _| |].
  - apply sound_finally_then; [done|unfold ran_first; apply _| |eapply sound_weaken; [by apply sound_tell|done|done]].
    apply sound_bind_lift. intros refs Hr. unfold webhookReach in Hr. eapply sound_weaken; [apply (sound_frame _ K); [done|apply sound_ask with (K := K)]|done|].
    + intros l r Hk. destruct (Hf l Hk) as [Hd Hc]. cbn. exists served, bindingId, binding, body, perms, key, claim, now, leaseMs, since. split_and!; try done.
      { by exists input, value. }
      unfold reach_of. cbn. destruct (wh_boundTo served) as [|dimension].
      * apply (inj inr) in Hr as <-. split; [done|]. intros action grant Ha. by apply webhook_app_inr in Ha as (_ & ? & ?).
      * split; [|intros action grant Ha; by apply webhook_app_inr in Ha as (? & _)]. intros action grant Hin'. destruct (mint_refs_inr _ _ _ _ _ _ Hr Hmap _ _ Hin') as [? ->]. split; [done|]. by exists chain.
    + intros ran l [Hk Ha]. split; [by apply (Hf l Hk)|by eexists].
  - intros ran. apply sound_bind_skip; [unfold ran_first; apply _|destruct (is_some _); [eapply sound_true; by apply sound_ask|by apply sound_ret]|]. intros [].
    apply sound_bind_ask; [unfold ran_first; apply _|done|]. intros []; cbn [negb]; [|apply sound_throw]. apply sound_bind_skip; [unfold ran_first; apply _|apply recordKicks_sound; unfold ran_first; apply _|]. intros [].
    apply sound_bind_skip; [unfold ran_first; apply _|apply sound_committing|]. intros []. eapply (sound_bind _ _ _ _ (fun _ l => is_some (wh_site served) = true -> answered Commit tt l)); [unfold ran_first; apply _|intros []; apply stays_impl, _|apply commit_invocation_sound; [unfold ran_first; apply _|]|].
    + intros Hi l [[Hk [[Hl (args & Ha)] He]] Hc]. exists (Webhook served), args, ran. split_and!; try done. exists bindingId, key, now, leaseMs, since, claim. rewrite Hi in Hc. split; [by apply (Hf l Hk)|done].
    + intros []. apply sound_ret. intros l [[[_ [Hr _]] _] Hco]. exists ran. done.
Qed.

Lemma run_delivery_sound K served binding bindingId body perms key chain input value claim now leaseMs since : Stays K -> is_map chain ->
  strictInput (e_id (wh_row served)) (wh_input served) value = inr input -> key = deliveryKey bindingId body ->
  (forall l, K l -> deliverable served bindingId binding body perms l /\ answered (ClaimDelivery bindingId key now leaseMs since) (Some claim) l) ->
  sound K (run_delivery world parts served request bindingId key (b_scope binding).2 chain input claim) (fun _ _ => True).
Proof.
  intros HK Hmap Hin Hkey Hf. unfold run_delivery. cbn zeta. apply sound_bind_ask; [done|done|]. intros frame. apply sound_bind_skip; [apply _|destruct (_ && _); [apply sound_throw|by apply sound_ret]|].
  intros []. apply sound_bind_skip; [apply _|apply sound_committing|]. intros []. apply sound_bind_skip; [apply _| |intros []; apply sound_bind_lift; intros response _; by apply sound_ret].
  eapply sound_weaken with (K' := K) (Q' := fun _ _ => True); [|by intros l []|done]. apply sound_catch; [done| |].
  - set (ran_first := fun (ran : Unknown * list RecordedKick) l => let_in (Webhook served) l /\ exists args, answered (Handle args) ran l).
    set (declared := declared_kicks (Webhook served)).
    eapply (sound_bind _ _ _ _ (fun kicks => finished (is_some (wh_site served)) declared ran_first kicks)); [done|intros kicks; apply finished_stays; unfold ran_first; apply _| |].
    + apply (enclosed_sound _ _ _ _ (fun kicks => worked (is_some (wh_site served)) declared ran_first kicks)); [done|intros kicks; apply worked_stays; unfold ran_first; apply _|intros kicks; by apply sound_ret| |intros ? kicks l; by apply worked_committed].
      by eapply delivery_work_sound.
    + intros kicks. apply kickAll_sound; [apply stays_and; [done|apply finished_stays; unfold ran_first; apply _]|]. intros l job [_ [(ran & [Hl (args & Ha)] & -> & Hco) Hle]] Hj.
      apply kicked_elem, recorded_elem in Hj as [Hd Hj].
      assert (Hi : is_some (wh_site served) = true) by (unfold declared in Hd; cbn [declared_kicks] in Hd; destruct (wh_site served); [done|]; by apply elem_of_nil in Hd).
      split; [by apply Hco|]. split; [by apply Hle|]. by exists (Webhook served), args, ran.
  - intros error. apply sound_bind_skip; [done|destruct (is_some _); [eapply sound_true; by apply sound_ask|by apply sound_ret]|]. intros []. apply sound_bind_skip; [done|apply sound_gets|].
    intros committing. apply sound_bind_skip; [done|destruct (_ && _); [eapply sound_true; by apply sound_ask|by apply sound_ret]|]. intros [].
    apply sound_bind_ask; [done|done|]. intros []. apply sound_throw.
Qed.

Lemma authentic_delivery_sound K served bindingId binding body payload : Stays K -> (forall l, K l -> let_in (Webhook served) l /\ delivered served bindingId binding body l) ->
  sound K (authentic_delivery world parts served request bindingId binding body payload) (fun _ _ => True).
Proof.
  intros HK Hf. unfold authentic_delivery. cbn zeta. apply sound_bind_lift. intros value _. apply sound_bind_lift. intros input Hin.
  destruct (String.eqb_spec (b_scope binding).1 (bound_type (wh_boundTo served))) as [Hb|]; cbn [negb]; [|apply sound_throw].
  eapply (sound_bind _ _ _ _ (fun chain _ => from_option is_map True chain)); [done|apply _| |].
  - destruct (wh_boundTo served); [apply sound_ret; intros; apply NoDup_nil_2|]. eapply sound_weaken; [by apply chain_at_sound|done|]. intros [chain|] l Hc; [|done]. by apply (Hc chain eq_refl).
  - intros [chain|]; [|apply sound_throw]. apply (sound_pure guard K (is_map chain)). intros Hmap. apply sound_bind_ask; [done|done|]. intros [perms token|]; [|apply sound_throw].
    destruct (existsb _ (wh_actions served)) eqn:Ea; [apply sound_throw|]. set (K' := fun l => K l /\ answered (AuthorityOf (e_id (wh_row served))) (Authorized perms token) l).
    assert (Hd : forall l, K' l -> deliverable served bindingId binding body perms l).
    { intros l [Hk Ha]. destruct (Hf l Hk). split_and!; try done; [by exists token|]. apply Forall_forall. intros action Hin'. destruct (permits perms action None) eqn:Ep; [done|].
      assert (existsb (fun action => negb (permits perms action None)) (wh_actions served) = true); [|congruence]. apply existsb_exists. exists action. rewrite Ep. split; [by apply list_elem_of_In|done]. }
    apply sound_bind_ask; [unfold K'; apply _|done|]. intros now. apply sound_bind_ask; [unfold K'; apply _| |].
    + intros l r [Hk _]. cbn. exists served, binding, body, perms. split; [by apply Hd|done].
    + intros [claim|]; [|apply sound_bind_lift; intros response _; by apply sound_ret]. eapply run_delivery_sound; [unfold K'; apply _|done|done|done|]. intros l [[Hk _] Hc]. split; [by apply Hd|exact Hc].
Qed.

Lemma webhook_sound K served bindingId : Stays K -> (forall l, K l -> let_in (Webhook served) l) -> sound K (webhook world parts served request bindingId) (fun _ _ => True).
Proof.
  intros HK Hf. unfold webhook. cbn zeta. apply sound_bind_lift. intros [] _. apply sound_bind_lift. intros limit Hlim. apply sound_bind_ask; [done|done|]. intros body.
  apply sound_bind_lift. intros [] _. eapply (sound_bind _ _ _ _ (fun found l => forall binding, found = Some binding -> answered (FindBinding (wh_name served) bindingId) (Some binding) l)).
  { apply _. } { intros found. apply stays_all. intros binding. apply stays_impl, _. }
  { destruct (is_binding_id _); [|by apply sound_ret]. eapply sound_weaken; [by apply (sound_ask _ _ (fun _ => True))|done|]. intros found l Ha binding ->. exact Ha. }
  intros [binding|]; [|apply sound_throw]. destruct (_ && _); [apply sound_throw|].
  eapply sound_weaken with (K' := fun l => (K l /\ answered (ReadBody (Some limit)) body l) /\ answered (FindBinding (wh_name served) bindingId) (Some binding) l) (Q' := fun _ _ => True);
    [|intros l [Hk Hb]; split; [done|by apply Hb]|done].
  apply sound_bind_ask; [apply _|done|]. intros now. destruct (verifyDelivery _ _ _ _) eqn:Ev; cbn [negb]; [|apply sound_throw]. apply sound_bind_lift. intros payload Hp.
  destruct (if is_slack (wh_scheme served) then slackChallenge payload else None); [apply sound_bind_lift; intros response _; by apply sound_ret|].
  destruct (is_github (wh_scheme served) && _) eqn:Eg; [apply sound_throw|]. apply authentic_delivery_sound; [apply _|]. intros l [[[Hk Hb] Hfound] Hnow].
  split; [by apply Hf|]. split; [done|]. split; [by exists limit|]. exists now, payload. split_and!; try done. intros Hgh. rewrite Hgh in Eg. apply elem_spec. destruct (Js.elem _ _); done.
Qed.

(** *** Every endpoint *)

Lemma asset_sound K prefix dir : Stays K -> sound K (asset world parts request prefix dir) (fun _ _ => True).
Proof. intros HK. unfold asset. destruct (Js.endsWith _ _); [apply sound_throw|]. destruct (rp_assets parts); [eapply sound_true; by apply sound_ask|apply sound_throw]. Qed.

Lemma spaFile_sound K prefix dir config caller : Stays K -> sound K (spaFile world parts request prefix dir config caller) (fun _ _ => True).
Proof.
  intros HK. unfold spaFile. cbn zeta. destruct (_ =? _)%string; [by apply sound_lift|]. destruct (_ =? _)%string; [|by apply asset_sound].
  destruct caller as [caller|]; [|apply sound_throw]. destruct (cl_principal caller); try apply sound_throw. by apply sound_lift.
Qed.

Lemma respond_sound K (m : act Response) : Stays K -> sound K m (fun _ _ => True) -> sound K (respond m) (fun _ _ => True).
Proof. intros HK Hm. apply sound_bind_skip; [done|done|]. intros r. by apply sound_ret. Qed.

Lemma serve_sound K script served params : Stays K -> (forall l, K l -> let_in served l) -> sound K (serve world parts script served request params) (fun _ _ => True).
Proof.
  intros HK Hf. destruct served as [p|row requirement description|row requirement prefix dir config|row prefix|row prefix dir config|row|row prefix dir|p|row admission|w]; cbn [serve].
  - by apply procedure_sound.
  - apply sound_bind_skip; [done|eapply sound_true; by apply credential_sound|]. intros caller. apply sound_bind_skip; [done|eapply sound_true; by apply readInput_sound|].
    intros input. apply respond_sound; [done|by apply sound_lift].
  - apply sound_bind_skip; [done|eapply sound_true; by apply credential_sound|]. intros caller. apply respond_sound; [done|by apply spaFile_sound].
  - apply respond_sound; [done|by apply sound_lift].
  - apply respond_sound; [done|by apply spaFile_sound].
  - apply respond_sound; [done|by apply sound_lift].
  - destruct (_ =? _)%string; [apply respond_sound; [done|by apply sound_lift]|]. apply respond_sound; [done|]. apply sound_bind_skip; [done|by apply asset_sound|]. intros file. eapply sound_true. by apply sound_ask.
  - by apply public_sound.
  - by apply issueChallenge_sound.
  - by apply webhook_sound.
Qed.

Lemma answer_sound script : sound (fun _ => True) (answer world parts script request) (fun _ _ => True).
Proof.
  assert (Hfail : forall site chosen error, sound (fun _ => True) (if is_fence error then mret (Respond maintenanceRefusal)
      else response ← Eff.lift (errorResponse error); _ ← (if 500 <=? status response then tell (Record_failure site chosen (status response) error) else mret tt); mret (Respond response)) (fun _ _ => True)).
  { intros site chosen error. destruct (is_fence error); [by apply sound_ret|]. apply sound_bind_lift. intros response _. apply sound_bind_skip; [apply _| |intros []; by apply sound_ret].
    destruct (_ <=? _); [eapply sound_true; by apply sound_tell|by apply sound_ret]. }
  unfold answer. cbn zeta. destruct (selected parts request) as [error|[served params]] eqn:Es; [apply Hfail|]. apply sound_catch; [apply _| |intros error; apply Hfail].
  apply sound_bind_lift. intros [] Hc. apply sound_bind_ask; [apply _|done|]. intros []; cbn [negb]; [|by apply sound_ret].
  apply sound_finally; [apply _|apply _| |eapply sound_true; by apply sound_tell]. apply serve_sound; [apply _|]. intros l [_ Ha]. split; [by exists params|done].
Qed.

(** The log of a request's answer. *)
Definition request_log (script : string) : Log := log (answer world parts script request (mkRun [] false)).2.

Lemma request_safe (guard' : Log -> Event -> Prop) script : (forall l e, guard l e -> guard' l e) -> safe guard' (request_log script).
Proof.
  intros Hg pre e post E. apply Hg. pose proof (answer_sound script (mkRun [] false) (safe_nil guard) I) as Hs. unfold request_log in E.
  destruct (answer world parts script request (mkRun [] false)) as [r s]. destruct Hs as (Hs & _). by eapply Hs.
Qed.

(** C1. No handler of a procedure runs before everything its endpoint declares was checked, whatever the rest of the world answers
    or throws: the request came through the proxy, under this version's rules; a credentialed caller's token was verified for this
    application, is of a kind the endpoint admits and holds what it requires; one of every rate bucket was taken and the byte
    budget charged; the input is one the schema admits, with its signed tokens verified; and what the handler is handed grants
    exactly what the caller's permissions give where the object lies now. A public handler runs inside its share, after its
    challenge, with declared actions its workload holds and nothing of a caller. *)
Theorem handlers_admitted script : safe caller_guard (request_log script).
Proof.
  apply request_safe. intros l [B call r] Hg. destruct call; try done. cbn in *. unfold handler_first in Hg. by destruct (h_principal _).
Qed.

(** C5. A delivery is claimed, and its handler runs, only for a binding of the webhook at its id, whose signature over the raw body
    verified with that binding's secret, from the account it accepts, of the dimension the webhook declares, and with a workload
    that holds every action the webhook declares; the handler runs only for the claim that was won under the key of its binding
    and body, and what it is handed reaches the binding's own value and nothing else. *)
Theorem deliveries_authentic script : safe delivery_guard (request_log script).
Proof. apply request_safe. intros l [B call r] Hg. destruct call; try done. cbn in *. unfold handler_first in Hg. by destruct (h_principal _). Qed.

(** C10. A transaction is committed only after its handler returned, its frame ended, and its answer was made, encoded or downloaded,
    or its delivery completed in the same transaction; an enclosed transaction's work is left as done, where SQLite runs its COMMIT,
    only after the commit; and a job is kicked only after both, only when the endpoint declares it and only when the handler
    asked for it. *)
Theorem commits_answered script : safe answer_guard (request_log script).
Proof. apply request_safe. intros l [B call r] Hg. by destruct call. Qed.

End Order.

(** ** One request *)

Module Demo.

#[export] Instance request_texts : RequestTexts := {|
  new_URL _ := None;
  form_params _ := [];
  utf8_fatal _ := None;
  utf8_lossy _ := "{}";
  json_parse _ := Some (UObj [("note", UStr "n1"); ("title", UStr "t")]);
  number_of _ := NNotFinite;
|}.
#[export] Instance number_text : NumberText := {| number_text _ := "0" |}.
#[export] Instance number_read : NumberRead := {| to_number _ := None |}.
#[export] Instance integers : IntegerText := fun _ => "0".

Definition row : EndpointRow := mkEndpointRow "notes.rename" (mkSource "api" "notes") "procedure" "POST" "/api/notes" ["human"]
  (Some (ReqAction (mkActionReq "notes:write" (FormOn "note" (Some "note"))))) (Some (Authorize.mkAdmission ["application/json"] (Some 1000)))
  (Some (SObject [("note", SBoolean); ("title", SBoolean)])) (Some (OutSchema SBoolean)) None None None false.

Definition procedure : ServedProcedure := mkServedProcedure row (ReqAction (mkActionReq "notes:write" (FormOn "note" (Some "note")))) (Some (ZOther 0)) (ZOther 1) NO_FACILITIES false
  (Some (mkServedSite KindMutation (mkDeclaration None [] [] None None ["index"] None [] []))) (Some (mkAdmission (mkRate None (Some 60) None None) None None REQUEST_BUDGET_MS)) None None.

Definition digest : string := digestOf "the rules".

(** [notes.rename], of the notes of a workspace, which a database locates. *)
Definition parts : RuntimeParts := mkParts (match compileEndpointTable [row] [] with inr table => table | inl _ => mkTable [] [] end)
  (fun id => if (id =? "notes.rename")%string then Some (Procedure procedure) else None) (fun _ => Some digest) "notes" None
  (mkDimensions true ["note"] [("note", ["workspace"])]) false false true true false false ["notes:write"] (mkSigned [] []) None.

(** A person's, whose token holds [notes:write] in the workspace [w1]. *)
Definition request : Request := mkRequest "POST" "https://notes.example.com/api/notes" (fun name =>
  lookup_field name [("X-Fabrika-Token", "t"); ("X-Fabrika-Endpoint", formatEndpointHeader "notes.rename" digest); ("Sec-Fetch-Site", "same-origin"); ("Content-Type", "application/json")]).

Definition claims : AccessTokenClaims :=
  mkClaims "https://iam.example.com" "notes" "u1" (NFinite 1 0) (NFinite 2 0) [mkEntry "notes:write" (Some (mkScope "workspace" "w1")) SourceGrant] (Some "Ada") (Some TypeUser) None
    (Some "ada@example.com") true false None None None.

(** A world where the note [n1] lies in [workspace], and the handler asks for a kick of [index] and answers [true]. *)
Definition world (workspace : string) : World := fun B l call =>
  match call in Call B return Raised + B with
  | AdmitInvocation _ => inr true
  | Now => inr 0
  | Verify _ _ => inr (VerifiedToken claims)
  | Take _ _ _ => inr true
  | ReadBody _ => inr []
  | NewFrame _ _ => inr "f1"
  | Locate _ _ => inr (Some [("workspace", workspace)])
  | Handle _ => inr (UBool true, [mkKick "index" None; mkKick "undeclared" None])
  | Aborted => inr false
  | Enter => inr tt
  | Leave _ => inr tt
  | OpenSession => inr tt
  | ScheduleWake _ => inr tt
  | WakesNow => inr 0
  | Rollback => inr tt
  | Commit => inr tt
  | _ => inl (Fault "unbound" 500)
  end.

(** The names of the calls that were asked. *)
Definition called (e : Event) : string :=
  match e with
  | Ev (AdmitInvocation _) _ => "admit" | Ev ReleaseInvocation _ => "release" | Ev (Verify _ _) _ => "verify" | Ev (Take _ _ _) _ => "take" | Ev (ReadBody _) _ => "body"
  | Ev Now _ => "now" | Ev (NewFrame _ _) _ => "frame" | Ev (Locate _ _) _ => "locate" | Ev (Handle _) _ => "handle" | Ev EndFrame _ => "end frame" | Ev Enter _ => "enter"
  | Ev (Leave _) _ => "leave" | Ev OpenSession _ => "session" | Ev WakesNow _ => "clock" | Ev (ScheduleWake _) _ => "wake" | Ev Aborted _ => "aborted" | Ev Commit _ => "commit"
  | Ev (KickJob job) _ => "kick " +:+ job | Ev Rollback _ => "rollback" | _ => "other"
  end.

End Demo.

#[local] Existing Instances Demo.request_texts Demo.number_text Demo.number_read Demo.integers SignedTokens.Demo.texts SignedTokens.Demo.zod Signatures.Demo.crypto.

(** The person's request is handled and committed, and the declared job kicked last. *)
Example procedure_handled :
  map Demo.called (request_log (Demo.world "w1") Demo.parts Demo.request "") =
    ["admit"; "verify"; "take"; "body"; "now"; "frame"; "enter"; "locate"; "handle"; "end frame"; "session"; "clock"; "wake"; "aborted"; "commit"; "leave"; "kick index"; "rollback"; "release"].
Proof. vm_compute. reflexivity. Qed.

(** In another workspace than the one the token names, its handler never runs. *)
Example procedure_refused :
  map Demo.called (request_log (Demo.world "w2") Demo.parts Demo.request "") = ["admit"; "verify"; "take"; "body"; "now"; "frame"; "enter"; "locate"; "end frame"; "leave"; "rollback"; "release"].
Proof. vm_compute. reflexivity. Qed.
