(* ===== verification/DispatchBrackets.v ===== *)
(** What a request opens it closes ([Dispatch.v]): the place its invocation was admitted to, its share of the anonymous requests,
    and the session its transaction was entered with, each closed exactly once, after everything that ran inside it, on every path
    out of it, whatever the rest of the world answers or throws. And the loop over the files of a form ends, with no more of a
    field than it admits. *)

From S2P Require Import Prelude Json Shapes Permissions Token JobLeases Store Endpoints Headers Authorize Digest Rules JobRunner AppCapability.
From S2P Require Import Project Faults Params SignedTokens Clients Signatures FrameworkTables Webhooks Declarations Requests Calls Access Multipart Dispatch DispatchOrder.
From Stdlib Require Import ZArith Lia String Ascii.
From stdpp Require Import base tactics strings option list.

Open Scope Z_scope.

(** ** What opens and closes *)

Inductive Bracket := Invocations | Shares | Enclosures.

#[export] Instance Bracket_eq_dec : EqDecision Bracket.
Proof. solve_decision. Defined.

(** The bracket an event opens, or the one it closes. *)
Definition opens (e : Event) : option Bracket :=
  match e with
  | Ev call answer =>
      match call in Call B return Raised + B -> option Bracket with
      | AdmitInvocation _ => fun answer => match answer with inr true => Some Invocations | _ => None end
      | EnterShare => fun answer => match answer with inr true => Some Shares | _ => None end
      | Enter => fun answer => match answer with inr _ => Some Enclosures | _ => None end
      | _ => fun _ => None
      end answer
  end.

Definition closes (e : Event) : option Bracket :=
  match e with
  | Ev call _ => match call with ReleaseInvocation => Some Invocations | LeaveShare => Some Shares | Leave _ => Some Enclosures | _ => None end
  end.

(** An event that neither opens nor closes [b]. *)
Definition apart (b : Bracket) (e : Event) : Prop := opens e <> Some b /\ closes e <> Some b.

(** Whatever opens [b] is closed once, and nothing of [b] is opened or closed in between. *)
Inductive balanced (b : Bracket) : Log -> Prop :=
| balanced_nil : balanced b []
| balanced_apart e l : apart b e -> balanced b l -> balanced b (e :: l)
| balanced_pair o inside c l : opens o = Some b -> Forall (apart b) inside -> closes c = Some b -> balanced b l -> balanced b (o :: inside ++ c :: l).

Lemma balanced_app b l l' : balanced b l -> balanced b l' -> balanced b (l ++ l').
Proof. intros Hl Hl'. induction Hl as [|e l He _ IH|o inside c l Ho Hi Hc _ IH]; [done|by constructor|]. cbn. rewrite <-app_assoc. cbn. by constructor. Qed.

Lemma balanced_inside b l : Forall (apart b) l -> balanced b l.
Proof. induction 1; by constructor. Qed.

(** ** Steps by what they add to the log *)

(** What holds of nothing, and of two logs it holds of one after the other. *)
Class Joins (R : Log -> Prop) := { joins_nil : R []; joins_app l l' : R l -> R l' -> R (l ++ l') }.

#[export] Instance balanced_joins b : Joins (balanced b).
Proof. split; [constructor|apply balanced_app]. Qed.

#[export] Instance Forall_joins (P : Event -> Prop) : Joins (Forall P).
Proof. split; [constructor|]. intros l l'. by apply Forall_app_2. Qed.

#[export] Instance both_joins R R' `{!Joins R, !Joins R'} : Joins (fun l => R l /\ R' l).
Proof. split; [split; apply joins_nil|]. intros l l' [] []. split; by apply joins_app. Qed.

Definition grows {A} (R : Log -> Prop) (m : act A) : Prop := forall s, exists new, log (m s).2 = log s ++ new /\ R new.

Section Grows.
Context (R : Log -> Prop) `{!Joins R}.

Lemma grows_still {A} (m : act A) : (forall s, log (m s).2 = log s) -> grows R m.
Proof. intros Hm s. exists []. rewrite app_nil_r. split; [apply Hm|apply joins_nil]. Qed.

Lemma grows_ret {A} (a : A) : grows R (mret a).
Proof. by apply grows_still. Qed.

Lemma grows_throw {A} e : grows (A := A) R (Eff.throw e).
Proof. by apply grows_still. Qed.

Lemma grows_lift {A} (m : Raised + A) : grows R (Eff.lift m).
Proof. apply grows_still. by destruct m. Qed.

Lemma grows_gets {A} (f : Run -> A) : grows R (Eff.gets f).
Proof. by apply grows_still. Qed.

Lemma grows_committing b : grows R (set_committing b).
Proof. by apply grows_still. Qed.

Lemma grows_then s s1 s2 new : log s1 = log s ++ new -> R new -> (exists new', log s2 = log s1 ++ new' /\ R new') -> exists new', log s2 = log s ++ new' /\ R new'.
Proof. intros E HR (new' & E' & HR'). exists (new ++ new'). rewrite app_assoc, <-E. split; [done|by apply joins_app]. Qed.

Lemma grows_bind {A B} (m : act A) (f : A -> act B) : grows R m -> (forall a, grows R (f a)) -> grows R (m ≫= f).
Proof.
  intros Hm Hf s. destruct (Hm s) as (new & E & HR). unfold mbind, eff_bind. destruct (m s) as [[e|a] s1]; cbn in *; [by exists new|].
  specialize (Hf a s1). destruct (f a s1) as [r s2]. by eapply grows_then.
Qed.

Lemma grows_catch {A} (m : act A) h : grows R m -> (forall e, grows R (h e)) -> grows R (Eff.catch m h).
Proof.
  intros Hm Hh s. destruct (Hm s) as (new & E & HR). unfold Eff.catch. destruct (m s) as [[e|a] s1]; cbn in *; [|by exists new].
  specialize (Hh e s1). destruct (h e s1) as [r s2]. by eapply grows_then.
Qed.

Lemma grows_finally {A} (m : act A) c : grows R m -> grows R c -> grows R (finally m c).
Proof.
  intros Hm Hc s. destruct (Hm s) as (new & E & HR). unfold finally. destruct (m s) as [r s1]. specialize (Hc s1). cbn in *.
  destruct (c s1) as [[e|[]] s2]; by eapply grows_then.
Qed.

Lemma grows_each {A} (f : A -> act unit) l : (forall x, grows R (f x)) -> grows R (each f l).
Proof. intros Hf. induction l as [|x l IH]; cbn [each]; [apply grows_ret|]. by apply grows_bind. Qed.

Lemma grows_ask world {B} (call : Call B) : (forall r, R [Ev call r]) -> grows R (ask world call).
Proof. intros Hc s. eexists. split; [reflexivity|apply Hc]. Qed.

Lemma grows_tell (call : Call unit) : R [Ev call (inr tt)] -> grows R (tell call).
Proof. intros Hc s. eexists. split; [reflexivity|done]. Qed.

End Grows.

Lemma grows_mono {A} (R R' : Log -> Prop) (m : act A) : grows R m -> (forall l, R l -> R' l) -> grows R' m.
Proof. intros Hm HR s. destruct (Hm s) as (new & E & Hn). exists new. auto. Qed.

(** What a step adds that closes when it ends, however it ends. *)
Lemma finally_closes {A} (R : Log -> Prop) (m : act A) (close : Call unit) s : grows R m ->
  exists mid, log (finally m (tell close) s).2 = log s ++ mid ++ [Ev close (inr tt)] /\ R mid.
Proof.
  intros Hm. destruct (Hm s) as (mid & E & HR). exists mid. unfold finally. destruct (m s) as [r s1]. cbn in *. by rewrite E, <-app_assoc.
Qed.

Ltac grow_step :=
  first
  [ simple apply grows_ret; apply _ | simple apply grows_throw; apply _ | simple apply grows_lift; apply _ | simple apply grows_gets; apply _ | simple apply grows_committing; apply _
  | simple apply grows_bind; [apply _| |intros ?] | simple apply grows_catch; [apply _| |intros ?] | simple apply grows_finally; [apply _| |] | simple apply grows_each; [apply _|intros ?]
  | match goal with
    | |- grows _ (match ?x with _ => _ end) => destruct x
    | |- grows _ (let _ := _ in _) => cbn zeta
    end ].

Section Steps.
Context `{RequestTexts} `{NumberText} `{NumberRead} `{Zod} `{IntegerText} `{TokenTexts} `{DeliveryCrypto}.
Context (world : World) (parts : RuntimeParts) (request : Request).

(** *** Steps of neither bracket *)

Section Plain.
Context (R : Log -> Prop) `{!Joins R}.
Hypothesis plain : forall e, opens e = None -> closes e = None -> R [e].

Ltac grow_call := first [simple apply grows_ask; intros ?; apply plain; reflexivity | simple apply grows_tell; apply plain; reflexivity].
Ltac grow := repeat first [assumption | grow_call | grow_step].

Lemma authorize_grows row requirement : grows R (authorize world parts row requirement request).
Proof. unfold authorize. grow. Qed.

Lemma admit_request_grows row admission caller : grows R (admit_request world parts row admission request caller).
Proof. unfold admit_request, take_each. grow. Qed.

Lemma readInput_grows row schema : grows R (readInput world row schema request).
Proof. unfold readInput. grow. Qed.

Lemma failure_grows limit row error : grows R (failure world limit row error).
Proof. unfold failure. grow. Qed.

Lemma procedureBody_grows row schema : grows R (procedureBody world row schema request).
Proof.
  unfold procedureBody, openMultipart, read_input_part. repeat first [simple apply readInput_grows | apply failure_grows | grow_call | grow_step].
Qed.

Lemma file_parts_grows fuel row fields values counts : grows R (file_parts world fuel row fields values counts).
Proof. revert values counts. induction fuel as [|fuel IH]; intros values counts; cbn [file_parts]; [grow|]. repeat first [simple apply IH | grow_call | grow_step]. Qed.

Lemma verified_fields_grows shape value carried : grows R (verified_fields world parts shape value carried).
Proof. unfold verified_fields. grow. Qed.

Lemma verifiedQuery_grows row query carried : grows R (verifiedQuery world parts row query request carried).
Proof. unfold verifiedQuery. repeat first [simple apply verified_fields_grows | grow_call | grow_step]. Qed.

Lemma whole_input_grows row schema body fields carried : grows R (whole_input world parts row schema body fields carried).
Proof. unfold whole_input, fileInput, multipart_files. repeat first [simple apply verified_fields_grows | apply failure_grows | apply file_parts_grows | grow_call | grow_step]. Qed.

Lemma cancel_answer_grows answer : grows R (cancel_answer world answer).
Proof. unfold cancel_answer. grow. Qed.

Lemma chain_at_grows dims dimension value : grows R (chain_at world dims dimension value).
Proof. unfold chain_at. grow. Qed.

Lemma access_grows dims row requirement caller input membership : grows R (access world dims row requirement caller input membership).
Proof.
  assert (Hc : forall d v, grows R (chain_at world dims d v)) by (intros; apply chain_at_grows).
  assert (Hi : forall c a d v, grows R (inRef world dims c a d v)) by (intros; unfold inRef; repeat first [simple apply Hc | grow_step]).
  assert (Ho : forall c a d v, grows R (onRef world dims c a d v)) by (intros; unfold onRef; repeat first [simple apply Hc | grow_step]).
  assert (Hm : forall required minted read, grows R (mint_each world dims caller input required minted read)).
  { induction required as [|[name r] required IH]; intros minted read; cbn [mint_each]; [grow|]. unfold capability. repeat first [simple apply IH | apply Hi | apply Ho | grow_step]. }
  unfold access, capabilities, linkTarget. repeat first [simple apply Hm | apply Hi | apply Ho | apply Hc | grow_call | grow_step].
Qed.

Lemma commit_invocation_grows invocation : grows R (commit_invocation world invocation).
Proof. unfold commit_invocation. grow. Qed.

Lemma recordKicks_grows invocation kicks : grows R (recordKicks world parts invocation kicks).
Proof. unfold recordKicks. grow. Qed.

Lemma kickAll_grows kicks : grows R (kickAll kicks).
Proof. unfold kickAll. grow. Qed.

Lemma answered_work_grows invocation declared handle answer_of : grows R handle -> (forall result, grows R (answer_of result)) -> grows R (answered_work world parts invocation declared handle answer_of).
Proof.
  intros Hh Ha. unfold answered_work, commitAnswer. repeat first [assumption | apply Ha | apply recordKicks_grows | apply commit_invocation_grows | apply cancel_answer_grows | grow_call | grow_step].
Qed.

Lemma call_procedure_grows served caller frame input query carried : grows R (call_procedure world parts served request caller frame input query carried).
Proof. unfold call_procedure. cbn zeta. repeat first [simple apply access_grows | grow_call | grow_step]. Qed.

Lemma answerOf_grows row output result carried : grows R (answerOf world parts row output result request carried).
Proof. unfold answerOf. grow. Qed.

Lemma delivery_work_grows served bindingId key value frame chain input claim : grows R (delivery_work world parts served request bindingId key value frame chain input claim).
Proof. unfold delivery_work. cbn zeta. repeat first [simple apply recordKicks_grows | apply commit_invocation_grows | grow_call | grow_step]. Qed.

Lemma check_challenge_grows action token repeatable : grows R (check_challenge world parts action token request repeatable).
Proof. unfold check_challenge. grow. Qed.

Lemma close_body_grows body : grows R (close_body body).
Proof. unfold close_body. grow. Qed.

Lemma spaFile_grows prefix dir config caller : grows R (spaFile world parts request prefix dir config caller).
Proof. unfold spaFile, asset. grow. Qed.

End Plain.

Definition plain_event (e : Event) : Prop := opens e = None /\ closes e = None.

(** *** Steps that enter a session *)

Section Enclosing.
Context (R : Log -> Prop) `{!Joins R}.
Hypothesis plain : forall e, opens e = None -> closes e = None -> R [e].
Hypothesis entered : forall o inside c, opens o = Some Enclosures -> Forall plain_event inside -> R inside -> closes c = Some Enclosures -> R (o :: inside ++ [c]).

Notation inner := (fun l => R l /\ Forall plain_event l).

Lemma inner_plain e : opens e = None -> closes e = None -> R [e] /\ Forall plain_event [e].
Proof. intros Ho Hc. split; [by apply plain|]. by repeat constructor. Qed.

Ltac grow_call := first [simple apply grows_ask; intros ?; apply plain; reflexivity | simple apply grows_tell; apply plain; reflexivity].

Lemma enclosed_grows {A} invocation cancel (work : act A) : grows inner work -> (forall a, grows R (cancel a)) -> grows R (enclosed world invocation cancel work).
Proof.
  intros Hw Hc. unfold enclosed. destruct invocation; [|by eapply grows_mono; [exact Hw|intros l []]]. intros s. unfold quietly, ask, Eff.catch, Eff.throw, mbind, eff_bind. cbn.
  destruct (world unit (log s) Enter) as [e|[]] eqn:Ee; cbn; [eexists; split; [reflexivity|by apply plain]|].
  destruct (Hw (mkRun (log s ++ [Ev Enter (inr tt)]) (committing s))) as (mid & Em & HR & Hp). destruct (work _) as [[e|a] s1]; cbn in Em |- *.
  - exists (Ev Enter (inr tt) :: mid ++ [Ev (Leave false) (world unit (log s1) (Leave false))]). split; [|by apply entered].
    destruct (world unit (log s1) (Leave false)); cbn; rewrite Em; by rewrite <-!app_assoc.
  - assert (Hl : R (Ev Enter (inr tt) :: mid ++ [Ev (Leave true) (world unit (log s1) (Leave true))])) by (by apply entered).
    destruct (world unit (log s1) (Leave true)) as [e|[]]; cbn.
    + destruct (Hc a (mkRun (log s1 ++ [Ev (Leave true) (inl e)]) (committing s1))) as (new & En & HRn). exists ((Ev Enter (inr tt) :: mid ++ [Ev (Leave true) (inl e)]) ++ new).
      split; [|by apply joins_app]. destruct (cancel a _) as [[e'|[]] s2]; cbn in En |- *; rewrite En, Em; cbn; by rewrite <-!app_assoc.
    + exists (Ev Enter (inr tt) :: mid ++ [Ev (Leave true) (inr tt)]). split; [|done]. rewrite Em. by rewrite <-!app_assoc.
Qed.

Lemma settled_grows {A} invocation (work : act A) : grows R work -> grows R (settled world parts invocation work).
Proof. intros Hw. unfold settled. repeat first [assumption | grow_call | grow_step]. Qed.

Lemma procedureInvocation_grows served caller body : grows R (procedureInvocation world parts served request caller body).
Proof.
  unfold procedureInvocation. cbn zeta. repeat first [simple apply verified_fields_grows; [apply _|exact plain] | simple apply verifiedQuery_grows; [apply _|exact plain] | grow_call
    | simple apply settled_grows | simple apply whole_input_grows; [apply _|exact plain] | simple apply enclosed_grows; [|intros ?] | simple apply kickAll_grows; [apply _|exact plain] | simple apply cancel_answer_grows; [apply _|exact plain]
    | simple apply answered_work_grows; [apply _|exact inner_plain| |intros ?] | simple apply call_procedure_grows; [apply _|exact inner_plain] | simple apply answerOf_grows; [apply _|exact inner_plain] | grow_step].
Qed.

Lemma procedure_grows served : grows R (procedure world parts served request).
Proof.
  unfold procedure. repeat first [simple apply authorize_grows; [apply _|exact plain] | simple apply admit_request_grows; [apply _|exact plain] | simple apply procedureBody_grows; [apply _|exact plain]
    | simple apply close_body_grows; [apply _|exact plain] | apply procedureInvocation_grows | grow_step].
Qed.

Lemma public_opened_grows served body : grows R (public_opened world parts served request body).
Proof.
  unfold public_opened, publicInvocation. cbn zeta. repeat first [simple apply verified_fields_grows; [apply _|exact plain] | simple apply verifiedQuery_grows; [apply _|exact plain] | grow_call
    | simple apply check_challenge_grows; [apply _|exact plain] | simple apply settled_grows | simple apply whole_input_grows; [apply _|exact plain] | simple apply enclosed_grows; [|intros ?] | simple apply kickAll_grows; [apply _|exact plain]
    | simple apply cancel_answer_grows; [apply _|exact plain] | simple apply answered_work_grows; [apply _|exact inner_plain| |intros ?]
    | simple apply grows_ask; intros ?; apply inner_plain; reflexivity | grow_step].
Qed.

Lemma webhook_grows served bindingId : grows R (webhook world parts served request bindingId).
Proof.
  unfold webhook, authentic_delivery, run_delivery. cbn zeta. repeat first [grow_call | simple apply chain_at_grows; [apply _|exact plain] | simple apply enclosed_grows; [|intros ?] | simple apply kickAll_grows; [apply _|exact plain]
    | simple apply delivery_work_grows; [apply _|exact inner_plain] | grow_step].
Qed.

End Enclosing.

(** *** Steps that take a share *)

Definition below_share (e : Event) : Prop := apart Shares e /\ apart Invocations e.

Section Sharing.
Context (R : Log -> Prop) `{!Joins R}.
Hypothesis plain : forall e, opens e = None -> closes e = None -> R [e].
Hypothesis entered : forall o inside c, opens o = Some Enclosures -> Forall plain_event inside -> R inside -> closes c = Some Enclosures -> R (o :: inside ++ [c]).
Hypothesis shared : forall o inside c, opens o = Some Shares -> Forall below_share inside -> R inside -> closes c = Some Shares -> R (o :: inside ++ [c]).

Notation inner := (fun l => R l /\ Forall below_share l).

Lemma share_plain e : opens e = None -> closes e = None -> R [e] /\ Forall below_share [e].
Proof. intros Ho Hc. split; [by apply plain|]. repeat constructor; by rewrite ?Ho, ?Hc. Qed.

Lemma plain_below e : plain_event e -> below_share e.
Proof. intros [Ho Hc]. split; split; by rewrite ?Ho, ?Hc. Qed.

(** What opens or closes a session does neither with what else there is. *)
Lemma enclosure_below e : opens e = Some Enclosures \/ closes e = Some Enclosures -> below_share e.
Proof.
  destruct e as [B call answer]. intros [He|He]; destruct call; cbn in He; try discriminate; try (destruct answer as [|[]]; discriminate).
  all: split; split; cbn; by try destruct answer.
Qed.

Lemma share_entered o inside c : opens o = Some Enclosures -> Forall plain_event inside -> R inside /\ Forall below_share inside -> closes c = Some Enclosures ->
  R (o :: inside ++ [c]) /\ Forall below_share (o :: inside ++ [c]).
Proof.
  intros Ho Hp [HR Hb] Hc. split; [by apply entered|]. constructor; [apply enclosure_below; by left|]. apply Forall_app_2; [done|]. constructor; [|done]. apply enclosure_below. by right.
Qed.

Lemma share_grows {A} (m : act A) : grows inner m -> grows R (got ← ask world EnterShare; if negb got then Eff.throw share_full else finally m (tell LeaveShare)).
Proof.
  intros Hm s. unfold ask, mbind, eff_bind. cbn. destruct (world bool (log s) EnterShare) as [e|[]]; cbn -[finally]; try (eexists; split; [reflexivity|by apply plain]).
  destruct (finally_closes _ m LeaveShare (mkRun (log s ++ [Ev EnterShare (inr true)]) (committing s)) Hm) as (mid & E & HR & Hb).
  exists (Ev EnterShare (inr true) :: mid ++ [Ev LeaveShare (inr tt)]). split; [|by apply shared]. rewrite E. cbn. by rewrite <-app_assoc.
Qed.

Lemma public_grows served : grows R (public world parts served request).
Proof.
  unfold public. grow_step; [grow_step|]. apply share_grows. repeat first [simple apply admit_request_grows; [apply _|exact share_plain] | simple apply procedureBody_grows; [apply _|exact share_plain]
    | simple apply close_body_grows; [apply _|exact share_plain] | simple apply public_opened_grows; [apply _|exact share_plain|exact share_entered] | grow_step].
Qed.

Lemma issueChallenge_grows row admission : grows R (issueChallenge world parts row admission request).
Proof.
  unfold issueChallenge. apply share_grows. repeat first [simple apply admit_request_grows; [apply _|exact share_plain] | simple apply grows_ask; intros ?; apply share_plain; reflexivity | grow_step].
Qed.

Lemma serve_grows script served params : grows R (serve world parts script served request params).
Proof.
  destruct served; cbn [serve]; unfold respond, asset; repeat first [simple apply procedure_grows; [apply _|exact plain|exact entered] | simple apply public_grows | simple apply issueChallenge_grows
    | simple apply webhook_grows; [apply _|exact plain|exact entered] | simple apply authorize_grows; [apply _|exact plain] | simple apply readInput_grows; [apply _|exact plain]
    | simple apply spaFile_grows; [apply _|exact plain] | simple apply grows_ask; intros ?; apply plain; reflexivity | grow_step].
Qed.

End Sharing.

(** ** Every request *)

Lemma plain_balanced b e : opens e = None -> closes e = None -> balanced b [e].
Proof. intros Ho Hc. apply balanced_inside. repeat constructor; by rewrite ?Ho, ?Hc. Qed.

(** A pair of one bracket around what is balanced in every other. *)
Lemma pair_balanced b b' o inside c : opens o = Some b' -> closes o = None -> opens c = None -> closes c = Some b' -> Forall (apart b') inside -> balanced b inside -> balanced b (o :: inside ++ [c]).
Proof.
  intros Ho Ho' Hc' Hc Hi Hb. destruct (decide (b = b')) as [->|Hne]; [apply balanced_pair; [done..|constructor]|].
  apply balanced_apart; [split; congruence|]. apply balanced_app; [done|]. apply balanced_apart; [split; congruence|constructor].
Qed.

Lemma opens_not_closes e b : opens e = Some b -> closes e = None.
Proof. destruct e as [B call answer]. by destruct call. Qed.

Lemma closes_not_opens e b : closes e = Some b -> opens e = None.
Proof. destruct e as [B call answer]. by destruct call. Qed.

Lemma pair_balanced' b b' o inside c : opens o = Some b' -> closes c = Some b' -> Forall (apart b') inside -> balanced b inside -> balanced b (o :: inside ++ [c]).
Proof. intros Ho Hc. apply (pair_balanced b b'); eauto using opens_not_closes, closes_not_opens. Qed.

Lemma plain_apart b e : plain_event e -> apart b e.
Proof. intros [Ho Hc]. split; by rewrite ?Ho, ?Hc. Qed.

Lemma other_apart b b' e : b <> b' -> opens e = Some b \/ closes e = Some b -> apart b' e.
Proof.
  intros Hne [He|He]; [pose proof (opens_not_closes _ _ He)|pose proof (closes_not_opens _ _ He)]; split; congruence.
Qed.

Notation served_log b := (fun l => balanced b l /\ Forall (apart Invocations) l).

Lemma pair_served b b' o inside c : b' <> Invocations -> opens o = Some b' -> closes c = Some b' -> Forall (apart b') inside -> balanced b inside /\ Forall (apart Invocations) inside ->
  balanced b (o :: inside ++ [c]) /\ Forall (apart Invocations) (o :: inside ++ [c]).
Proof.
  intros Hne Ho Hc Hi [Hb Ha]. split; [by eapply pair_balanced'|]. constructor; [by eapply other_apart; [|left]|]. apply Forall_app_2; [done|]. constructor; [by eapply other_apart; [|right]|done].
Qed.

Lemma serve_served b script served params : grows (served_log b) (serve world parts script served request params).
Proof.
  apply serve_grows; [apply _| | |].
  - intros e Ho Hc. split; [by apply plain_balanced|]. repeat constructor; by rewrite ?Ho, ?Hc.
  - intros o inside c Ho Hp HR Hc. apply (pair_served b Enclosures); try done. eapply Forall_impl; [exact Hp|]. apply plain_apart.
  - intros o inside c Ho Hp HR Hc. apply (pair_served b Shares); try done. eapply Forall_impl; [exact Hp|]. by intros e [].
Qed.

Lemma invocation_grows {A} b kind refused (m : act A) : grows (served_log b) m ->
  grows (balanced b) (admitted ← ask world (AdmitInvocation kind); if negb admitted then mret refused else finally m (tell ReleaseInvocation)).
Proof.
  intros Hm s. unfold ask, mbind, eff_bind. cbn. destruct (world bool (log s) (AdmitInvocation kind)) as [e|[]]; cbn -[finally]; try (eexists; split; [reflexivity|by apply plain_balanced]).
  destruct (finally_closes _ m ReleaseInvocation (mkRun (log s ++ [Ev (AdmitInvocation kind) (inr true)]) (committing s)) Hm) as (mid & E & HR & Hb).
  exists (Ev (AdmitInvocation kind) (inr true) :: mid ++ [Ev ReleaseInvocation (inr tt)]). split; [|by apply (pair_balanced' b Invocations)]. rewrite E. cbn. by rewrite <-app_assoc.
Qed.

(** C30. Whatever the rest of the world answers or throws, and however a request ends: the place the gate gave its invocation, the
    share it took of the anonymous requests, and the session its transaction was entered with are each closed exactly once, and
    what ran inside is before the close. *)
Theorem request_closes script bracket : balanced bracket (request_log world parts request script).
Proof.
  assert (Hp : forall e, opens e = None -> closes e = None -> balanced bracket [e]) by apply plain_balanced.
  assert (Hg : grows (balanced bracket) (answer world parts script request)).
  { unfold answer. cbn zeta. repeat first [simple apply invocation_grows; apply serve_served | simple apply grows_ask; intros ?; apply Hp; reflexivity | simple apply grows_tell; apply Hp; reflexivity | grow_step]. }
  destruct (Hg (mkRun [] false)) as (new & E & HR). unfold request_log. by rewrite E.
Qed.

(** ** The files of a form *)

Lemma count_of_set name count counts name' : count_of name' (set_count name count counts) = if (name' =? name)%string then count else count_of name' counts.
Proof.
  unfold count_of. induction counts as [|[k c] counts IH]; cbn [set_count]; [cbn; by destruct (name' =? name)%string|].
  destruct (String.eqb_spec k name) as [->|Hne]; cbn; [by destruct (name' =? name)%string|]. destruct (String.eqb_spec name' k) as [->|]; [|done].
  by destruct (String.eqb_spec k name).
Qed.

Definition left_of (counts : list (string * Z)) (field : string * FileField) : nat := Z.to_nat (ff_max field.2 - count_of field.1 counts).

(** How many more files the fields take. *)
Definition places (fields : list (string * FileField)) (counts : list (string * Z)) : nat := foldr (fun field sum => left_of counts field + sum)%nat O fields.

Lemma left_of_set name counts field : left_of (set_count name (count_of name counts + 1) counts) field =
  if (field.1 =? name)%string then (left_of counts field - 1)%nat else left_of counts field.
Proof. unfold left_of. rewrite count_of_set. destruct (String.eqb_spec field.1 name) as [->|]; lia. Qed.

Lemma places_drop fields counts name field : lookup_field name fields = Some field -> count_of name counts < ff_max field ->
  (places fields (set_count name (count_of name counts + 1) counts) < places fields counts)%nat.
Proof.
  assert (Hle : forall fields, (places fields (set_count name (count_of name counts + 1) counts) <= places fields counts)%nat).
  { induction fields0 as [|f fs IH]; cbn [places foldr]; [done|]. fold (places fs). rewrite left_of_set. unfold places in *. destruct (_ =? _)%string; lia. }
  induction fields as [|[k f] fields IH]; [done|]. cbn [lookup_field]. intros Hl Hc. specialize (Hle fields). unfold places in *. cbn [foldr]. rewrite left_of_set. cbn [fst].
  rewrite (String.eqb_sym k name). destruct (String.eqb_spec name k) as [->|Hne].
  - injection Hl as ->. assert (0 < left_of counts (k, field))%nat by (unfold left_of; cbn; lia). lia.
  - specialize (IH Hl Hc). lia.
Qed.

(** A file received for the field [name]. *)
Definition received_for (name : string) (e : Event) : bool :=
  match e with Ev call _ => match call with Receive _ part => (part_name part =? name)%string | _ => false end end.

Definition received_count (name : string) (l : Log) : nat := length (List.filter (received_for name) l).

Lemma received_count_app name l l' : received_count name (l ++ l') = (received_count name l + received_count name l')%nat.
Proof. unfold received_count. by rewrite List.filter_app, length_app. Qed.

(** How many files of [name] may still be received. *)
Definition room (fields : list (string * FileField)) (counts : list (string * Z)) (name : string) : nat :=
  match lookup_field name fields with Some field => Z.to_nat (ff_max field - count_of name counts) | None => O end.

Lemma room_set fields counts part field name : lookup_field part fields = Some field -> count_of part counts < ff_max field ->
  ((if (part =? name)%string then 1 else 0) + room fields (set_count part (count_of part counts + 1) counts) name <= room fields counts name)%nat.
Proof.
  intros Hl Hc. unfold room. destruct (lookup_field name fields) as [f|] eqn:En; rewrite ?count_of_set; destruct (String.eqb_spec part name) as [->|Hne]; rewrite ?String.eqb_refl; try lia; try congruence.
  - assert (f = field) as -> by congruence. lia.
  - destruct (String.eqb_spec name part); [congruence|lia].
Qed.

Lemma file_parts_bounded fuel row fields values counts s : (places fields counts < fuel)%nat ->
  let (r, s') := file_parts world fuel row fields values counts s in
  (forall files, r = inr files -> files <> None) /\ exists new, log s' = log s ++ new /\ forall name, (received_count name new <= room fields counts name)%nat.
Proof.
  revert values counts s. induction fuel as [|fuel IH]; intros values counts s Hf; [lia|]. cbn [file_parts]. cbn zeta. unfold ask, mbind, eff_bind, Eff.throw. cbn.
  destruct (world (option Part) (log s) NextPart) as [e|[part|]] eqn:En; [split; [done|]; eexists; split; [reflexivity|]; intros name; cbn; lia| |split; [by intros ? [= <-]|]; eexists; split; [reflexivity|]; intros name; cbn; lia].
  assert (Hr : forall (m : act (option Fields)), m = (_ ← ask world (CancelPart part); Eff.throw (multipart_error (quoted (e_id row) +:+ ": a part is no file field of the input, a field carries more files than it admits, or a file has no filename"))) ->
    let (r, s') := m (mkRun (log s ++ [Ev NextPart (inr (Some part))]) (committing s)) in
    (forall files, r = inr files -> files <> None) /\ exists new, log s' = log s ++ new /\ forall name, (received_count name new <= room fields counts name)%nat).
  { intros m ->. unfold ask, mbind, eff_bind, Eff.throw. cbn. destruct (world unit _ (CancelPart part)) as [e|[]]; (split; [done|]); eexists; rewrite <-app_assoc; (split; [reflexivity|]); intros name; cbn; lia. }
  destruct (lookup_field (part_name part) fields) as [field|] eqn:El; [|by apply (Hr _ eq_refl)].
  destruct (_ || _) eqn:Eo; [by apply (Hr _ eq_refl)|]. clear Hr. apply orb_false_iff in Eo as [Hc%Z.leb_gt _]. cbn.
  pose proof (fun name => room_set fields counts (part_name part) field name El Hc) as Hroom.
  destruct (world (option Unknown) _ (Receive (ff_kind field) part)) as [e|file] eqn:Er.
  - split; [done|]. eexists. rewrite <-app_assoc. split; [reflexivity|]. intros name. specialize (Hroom name). unfold received_count. cbn. destruct (_ =? _)%string; cbn; lia.
  - pose proof (places_drop fields counts (part_name part) field El Hc) as Hd.
    match goal with |- let (_, _) := file_parts _ _ _ _ ?values' ?counts' ?s' in _ => specialize (IH values' counts' s' ltac:(lia)); destruct (file_parts world fuel row fields values' counts' s') as [r s2] end.
    destruct IH as (Hn & new & E & Hb). split; [done|]. cbn in E. eexists ([_; _] ++ new). rewrite E, <-!app_assoc. split; [reflexivity|]. intros name. specialize (Hroom name). specialize (Hb name).
    rewrite received_count_app. unfold received_count at 1. cbn. destruct (_ =? _)%string; cbn; lia.
Qed.

(** C37. The loop over the parts of a form ends: it takes at most as many files of each field as the field admits, and none of a
    field the input does not declare, however many parts the body sends and whatever receiving one answers or throws. *)
Theorem form_files_bounded row fields s : let (r, s') := file_parts world (file_fuel fields) row fields [] [] s in
  (forall files, r = inr files -> files <> None) /\ exists new, log s' = log s ++ new /\
    forall name, (received_count name new <= match lookup_field name fields with Some field => Z.to_nat (ff_max field) | None => O end)%nat.
Proof.
  pose proof (file_parts_bounded (file_fuel fields) row fields [] [] s) as Hb. assert (Hp : forall fields, places fields [] = foldr (fun field sum => Z.to_nat (ff_max field.2) + sum)%nat O fields).
  { induction fields0 as [|f fs IH]; [done|]. unfold places in *. cbn. rewrite IH. f_equal. unfold left_of, count_of. cbn. f_equal. lia. }
  rewrite Hp in Hb. specialize (Hb ltac:(unfold file_fuel; lia)). destruct (file_parts _ _ _ _ _ _ _) as [r s']. destruct Hb as (Hn & new & E & Hb). split; [done|]. exists new. split; [done|].
  intros name. specialize (Hb name). unfold room, count_of in Hb. cbn in Hb. destruct (lookup_field name fields); [|done]. by rewrite Z.sub_0_r in Hb.
Qed.

End Steps.
